(* ===== verification/_CoqProject ===== *)
-Q . S2P
Prelude.v
Machine.v
Text.v
Protocol.v
Account.v
Class.v
Refusal.v
Config.v
Instance.v
Composer.v
Transcript.v
Cursor.v
Parser.v
Engine.v
EngineIngest.v
EnginePath.v
EngineTurn.v
EngineVerdict.v
Tombstones.v
Messages.v
Pool.v
PoolProg.v
PoolSem.v
PoolInv.v
Ownership.v
PoolLogic.v
PoolProofs.v
PoolTheorems.v
PoolAdmit.v
PoolTime.v
PoolSweep.v
Conversation.v
ConversationProofs.v
ConversationTurns.v
Session.v
Screen.v
Backend.v
Actor.v
ActorOps.v
ActorProofs.v
ActorTurns.v
ActorSteps.v
ActorEvents.v
EventStream.v
ActorClose.v
ActorTheorems.v
Registry.v
RegistryTheorems.v
Tasks.v
Task.v
Menu.v
Gate.v
GateProofs.v
GateTheorems.v
Control.v
ControlTheorems.v
TurnResults.v
RowIdentity.v
Tail.v
TailProofs.v
TailTheorems.v
Locator.v
LocatorTheorems.v
Preamble.v
Rotation.v
RotationTheorems.v
Worker.v
WorkerProofs.v
WorkerTheorems.v
WorkerRecovery.v
Turn.v
LaunchEnv.v
Launch.v
Isolation.v
Seed.v
LaunchWitnesses.v
Retention.v
Compat.v
Broker.v
Hooks.v
