(* ===== verification/Prelude.v ===== *)
(** * pseudomux: a verification development

    pseudomux ([pmux]) keeps a pool of real interactive Claude Code processes, types
    prompts into their terminals, reads the answers from the transcripts they append to,
    and serves stateless turns and conversations on them. This library models the parts
    that decide: the pool, the sessions, the turn worker, what is typed and when, what a
    transcript proves, and the conversation book. Paths below are under [src/crates]
    unless they name a binary.

    ** The program and the files that model it

    Shared.
    - [Prelude] (this file): results and their notation, machine integers, iterators.
      [Text]: strings, UTF-8, JSON values, the path operations of the standard library.
      [Protocol] and [Session]: from [protocol/src/v1.rs], error bodies, requests,
      results, session states and events.
    - [Task]: the monad of a task that asks the outside, reads clocks and leaves a trace,
      with its weakest precondition and the trace logic [says]; the turn worker, the
      recovery tasks, the input gate and the transcript tail are written in it.

    The pool ([service/src/pool]).
    - [Machine] ([machine.rs]): the states and transitions of one instance.
      [Account], [Class], [Refusal], [Config], [Instance]: the files of those names.
    - [Pool] ([mod.rs], [host.rs]): the state behind the lock and every critical section.
      [PoolProg]: every method as a program over its effects (critical sections, clock,
      sleeps, host calls, file system, spawned tasks). [PoolSem]: worlds of threads and
      one-effect steps in any interleaving, the environment answering anything; a world
      also records what the host said of the process in every epoch directory.
    - [PoolInv] the invariant, [Ownership] and [PoolLogic] a program logic in which a
      thread owns slots, conversations and re-warm markers, [PoolProofs] its triples,
      [PoolTheorems], [PoolAdmit], [PoolTime], [PoolSweep] the results.

    The transcript ([claude/src]).
    - [Composer] ([composer.rs], [normalize_prompt], [validate_prompt]): which prompts are
      accepted and when drawn rows prove that the composer holds the prompt.
    - [Transcript] ([model.rs], [error.rs]) the row model, [Parser] ([parser.rs]) the
      strict parser, [Cursor] ([cursor.rs]) offset-checked line framing.
    - [Engine] ([engine.rs]): arming, ingesting, the active path, logical messages, tools,
      usage, the verdict; [EngineIngest], [EnginePath], [EngineTurn], [EngineVerdict]
      its theorems.

    The session ([service/src/v1], [client/src/lib.rs]).
    - [Actor], [ActorOps] ([actor.rs]): the state of [SessionActor] and every command,
      worker report, screen poll and tick, over arbitrary clocks and encoded sizes
      (the class [Host]; its laws [HostLaws] and [PageLaws]). [ActorProofs],
      [ActorTurns], [ActorSteps], [ActorEvents], [ActorClose], [ActorTheorems]: proofs.
    - [EventStream]: the client's validated event stream.
    - [Backend] ([backend.rs], [minified.rs]): driver failures, evidence, drains, the fast
      path of a minified cell. [TurnResults] ([actor.rs]): results and events built from
      an analysis. [Worker] ([actor.rs]): [TurnWorker::run], the cancel recovery and the
      attachment reconciliation, against any driver (class [Driver]). [WorkerProofs],
      [WorkerTheorems], [WorkerRecovery].
    - [Tombstones] ([service/src/tombstones.rs]): recently closed generations.
    - [Registry] ([registry.rs], the handles of [actor.rs]): which session a request
      reaches, by owner and generation; [RegistryTheorems]. [Tasks]
      ([service/src/tasks.rs]): the fence of detached tasks.

    The driver ([service/src/driver_io.rs]).
    - [Screen] (with [rmux/src/backend.rs]): frames, the active editor, what a screen is.
      [Menu]: the proof that the slash menu selects the typed command. [Gate]: the
      budget, the gates, [submit_prompt] and [type_control_command] over any terminal
      (class [Pty]). [GateProofs], [GateTheorems]. [Control]: completion
      evidence, observation, interrupt and close of the same terminal; [ControlTheorems].
    - [RowIdentity]: whose row a row is. [Tail]: [FileTranscriptSource], over any file
      system (classes [Outside] and [Files]). [TailProofs], [TailTheorems].
      [Locator] ([claude/src/locator.rs], class [Disk]): the search for a
      session's transcript; [LocatorTheorems].
    - [Preamble]: the emptiness predicate. [Rotation]: the search for the transcript a
      [/clear] opened, and [clear_and_rebind]. [RotationTheorems].
    - [Turn]: the worker over the tail, [impl TranscriptSource].

    The launch ([service/src]).
    - [LaunchEnv] ([protocol/src/v1/launch_environment.rs], [claude_launch.rs]): the
      environment policy and its enforcement, the identity of directories, over any file
      system (class [FileSystem]). [Launch] ([claude_launch.rs],
      [sensitive_launch.rs]): requests, command lines, the rules of a private root, the
      files for secrets.
    - [Isolation] ([native.rs]): what a start may bind against what live sessions hold, and
      the start path up to the terminal. [Seed]
      ([config_isolation.rs]): the files of a private root.
      [LaunchWitnesses]: all of it on a concrete machine.
    - [Compat] ([compatibility.rs], and the version query of [native.rs]): the profiles of
      measured versions and which a start is admitted as.
    - [Broker] ([launch_broker.rs], [bin/pmux-launcher], [create_terminal] of
      [runtime.rs]): the frames and tokens by which the process of a session gets its
      specification. [Hooks] ([hybrid_hooks.rs], [bin/pmux-hook]): the settings, the relay
      and the files of a hybrid session. These files hold their theorems.

    The daemon ([bin/pmuxd/src]).
    - [Messages] ([messages_http.rs]): routing, prompts, tool calls, responses. [Conversation]
      ([conversation.rs]): the book as programs over its mutex and the pool, in any
      interleaving; [ConversationProofs], [ConversationTurns].
    - [Retention] ([bounded_log.rs], and [service/src/pool/evidence.rs]): the log with a
      ceiling, and the redacted transcripts the pool keeps, with their theorems.

    A request enters through [Messages] and [Conversation], is admitted by [Pool], and is
    run on a session (launched through [Isolation] and [Launch], addressed through
    [Registry]): the actor starts a worker, which arms [Tail], types through [Gate],
    feeds the rows to [Engine] and reports to the actor; between turns the pool clears
    the instance through [Rotation].

    ** What the theorems show

    - Pool, over every schedule of calls and tasks without a shutdown: the pool's own
      invariant check never fails; host calls are exclusive, on the right instance and
      with the right prompt; no directory of a process that may be alive is erased;
      finished work strands nothing; a conversation holds one instance; nothing panics;
      every operation terminates against a monotonic clock; admission, the sweep and the
      shutdown scan follow their rules. [Findings] has three schedules the code does
      not rule out.
    - Transcript: framing is independent of how the file is read; parsed rows are well
      formed; the engine's invariant always holds, the active path is the turn, and a
      verdict is earned by that path; analysis never panics.
    - Tail: however a transcript grows, the rows told are the lines of the bytes from the
      arm on, without a gap and all of this session; a drained batch is complete; polls
      are answered only for the last arm.
    - Gate: text is typed once into a composer proven empty; Enter is sent once, only
      on a screen proven to hold exactly it; the caller is told exactly whether it was;
      every submission ends.
    - Control: evidence is of screens that were seen and stood still; a cancel sends one
      interrupt; both end.
    - Rotation: a failed clear says it was not sent exactly when it was not, a success
      binds a new id whose transcript is inert and stood still, and a clear ends.
    - Worker: a completion is proven by a confirming read, reports are ordered and end
      once, reads have no gap, the veto needs a standstill, cancels answer honestly; the
      actor with all its tasks never panics.
    - Turn: the result of a completed turn is the analysis of exactly the lines appended
      to the file since the arm.
    - Session: nothing published is taken back, the client's stream delivers every event
      once, sizes stay bounded, a closed session is reaped.
    - Registry: it never mixes sessions up, and one owner cannot tell the other's sessions
      from ones that do not exist; the fence of tasks is exact.
    - Locator: what is found is corroborated by its own content, and the search is
      exhaustive.
    - Launch: the child's environment is what the policy says, name by name; nothing
      forbidden reaches it; the command line is the driver's and holds no secret; a private
      root is private; no session reaches the directories of a live minified cell; seeding
      settles. [LaunchDemo] has what the rules leave open. A start is on a measured version
      or says it is not; a launcher becomes the process registered for its token, once.
    - Hooks: composed settings hold what every source sets and one more entry per event,
      which a shell reads as intended; the relay tells only hooks of its own session and
      acknowledges only what it told; a preparation cleans up after itself.
    - Retention: kept evidence depends on the allowlisted fields only and keeps to its
      budget; the log keeps its ceiling. [RetentionDemo] has when it does not.
    - Conversations: one turn per conversation, the book is bounded and left clean, every
      request returns, a continuation completes the history.

    ** Conventions, bounds and fuel

    Unsigned integers are [N], with saturation, checked operations and wrap-around
    written out where the source has them. Maps and sets are [gmap] and [gset], sorted
    where the code iterates. Strings are [string] (bytes); text the code inspects by
    character is a list of scalar values. Instants are nanoseconds.

    Loops that are not structural take fuel, and theorems show how much is enough:
    admission runs [ADMIT_FUEL] passes ([operations_terminate]); the sweep of one class
    one more than its members ([sweep_class_from]); the engine's searches as many steps
    as there are rows ([analysis_never_panics]); the loops of the worker, the gate and
    the clear take [rounds], and end within one more than the clock readings until the
    deadline ([worker_ends_at_its_deadline], [submission_answers], [clear_answers],
    [evidence_is_seen], [interrupt_is_sent_once]).
    Splitting and printing functions of [Text] and [Messages] use the length of their
    input. The concurrent theorems of the pool assume fewer steps than the largest
    u64, because a slot's epoch counter saturates there, and a validated configuration.

    Parameters: Unicode composition [nfc], serde_json's reader, writer and encoded sizes, the
    [Debug] form of strings, SHA-256, UUID parsing, path canonicalisation, and every
    answer of the terminal, the file system and the clocks. Each property that assumes
    anything of them has a witness with concrete ones.

    ** What is not modelled

    Logging; dropped futures (a call in progress runs to its end); the retention of
    evidence inside the pool, one opaque effect; of [native.rs] what drives processes
    (terminals, startup cleanup, health layers); [runtime.rs] but for [create_terminal];
    rmux itself, sockets, the start and socket handler of the daemon, and the command line
    tools (processes and I/O). A launch reads the file system as it stands: no file moves
    between its checks. *)

From Stdlib Require Export Lia.
From stdpp Require Export base sets sorting pretty option countable gmap strings list.

(** ** Scope and notations of the development *)

#[export] Set Warnings "-clear-no-such-hyp".

Declare Scope pmux_scope.
Delimit Scope pmux_scope with pmux.
#[global] Open Scope N_scope.
#[global] Open Scope pmux_scope.

(** The development's hint database. *)
Create HintDb pmux.

(** ** Results

    A Rust [Result<T, E>]. [?] becomes [let? x := e in k]. *)

Inductive result (A E : Type) : Type :=
| Ok (a : A)
| Err (e : E).
Arguments Ok {A E} a.
Arguments Err {A E} e.

Definition result_bind {A B E} (r : result A E) (k : A -> result B E) : result B E :=
  match r with
  | Ok a => k a
  | Err e => Err e
  end.

Definition map_err {A E F} (f : E -> F) (r : result A E) : result A F :=
  match r with
  | Ok a => Ok a
  | Err e => Err (f e)
  end.

Definition ok_or {A E} (o : option A) (e : E) : result A E :=
  match o with
  | Some a => Ok a
  | None => Err e
  end.

Definition is_ok {A E} (r : result A E) : bool :=
  match r with Ok _ => true | Err _ => false end.

Notation "'let?' x := e 'in' k" := (result_bind e (fun x => k))
  (at level 10, x name, e at level 100, k at level 200) : pmux_scope.
Notation "'let?' ' p := e 'in' k" := (result_bind e (fun x => match x with p => k end))
  (at level 10, p strict pattern, e at level 100, k at level 200) : pmux_scope.

Lemma result_bind_Ok {A B E} (r : result A E) (k : A -> result B E) b :
  result_bind r k = Ok b <-> exists a, r = Ok a /\ k a = Ok b.
Proof. destruct r; simpl; naive_solver. Qed.

Lemma result_bind_ext {A B E} (r : result A E) (k k' : A -> result B E) :
  (forall a, k a = k' a) -> result_bind r k = result_bind r k'.
Proof. destruct r; simpl; auto. Qed.

Lemma Ok_inj {A E} (a b : A) : @Ok A E a = Ok b -> a = b.
Proof. by intros [= ->]. Qed.

Lemma ok_or_Ok {A E} (o : option A) (e : E) a : ok_or o e = Ok a <-> o = Some a.
Proof. destruct o; simpl; naive_solver. Qed.

Lemma map_err_Ok {A E F} (f : E -> F) (r : result A E) a : map_err f r = Ok a <-> r = Ok a.
Proof. destruct r; simpl; naive_solver. Qed.

(** Take a successful run apart: one case per guard and per [let?]. *)
Ltac res_inv :=
  repeat match goal with
  | H : result_bind _ _ = Ok _ |- _ => apply result_bind_Ok in H as (? & ? & H)
  | H : ok_or _ _ = Ok _ |- _ => apply ok_or_Ok in H
  | H : map_err _ _ = Ok _ |- _ => apply map_err_Ok in H
  | H : (if ?b then _ else _) = Ok _ |- _ => let E := fresh "G" in destruct b eqn:E
  | H : Ok _ = Ok _ |- _ => apply Ok_inj in H
  | H : Err _ = Ok _ |- _ => discriminate H
  | H : (match ?p with (_, _) => _ end) = Ok _ |- _ => destruct p
  end.

(** A [for] loop whose body may return early with an error. *)
Fixpoint try_fold {A B E} (f : A -> B -> result A E) (l : list B) (a : A) : result A E :=
  match l with
  | [] => Ok a
  | b :: l' => let? a' := f a b in try_fold f l' a'
  end.

Lemma try_fold_inv {A B E} (P : list B -> A -> Prop) (f : A -> B -> result A E) l a a' :
  P [] a ->
  (forall done b x y, P done x -> (exists rest, l = done ++ b :: rest) -> f x b = Ok y -> P (done ++ [b]) y) ->
  try_fold f l a = Ok a' -> P l a'.
Proof.
  intros H0 Hstep. change l with ([] ++ l) at 2. revert a H0.
  assert (Hd : forall done l0, l = done ++ l0 -> forall a, P done a -> try_fold f l0 a = Ok a' -> P (done ++ l0) a').
  { intros done l0. revert done. induction l0 as [|b l0 IH]; intros done El a Ha; simpl.
    - intros [= ->]. by rewrite app_nil_r.
    - intros (y & Hy & H)%result_bind_Ok. rewrite (cons_middle b done l0), app_assoc.
      apply (IH (done ++ [b])) in H; [done| |].
      + by rewrite <-app_assoc.
      + eapply Hstep; eauto. }
  intros a H0. by apply Hd.
Qed.

Lemma try_fold_app {A B E} (f : A -> B -> result A E) l1 l2 a :
  try_fold f (l1 ++ l2) a = result_bind (try_fold f l1 a) (try_fold f l2).
Proof. revert a. induction l1 as [|b l1 IH]; intros a; simpl; [done|]. destruct (f a b); simpl; [apply IH|done]. Qed.

(** ** Machine integers

    Every unsigned Rust integer is an [N]; the width shows up where the source
    asks about it. [saturating_sub] at any unsigned width is [N.sub]. *)

Definition U8_MAX : N := 255.
Definition U32_MAX : N := 4294967295.
Definition U64_MAX : N := 18446744073709551615.

Definition saturating_add (max a b : N) : N := N.min (a + b) max.
Definition checked_add (max a b : N) : option N :=
  if a + b <=? max then Some (a + b) else None.
Definition checked_sub (a b : N) : option N :=
  if b <=? a then Some (a - b) else None.
Definition wrapping_mul (modulus a b : N) : N := (a * b) mod modulus.

(** [u32::try_from(len).unwrap_or(u32::MAX)] on a [usize]. *)
Definition u32_of_len (n : nat) : N := N.min (N.of_nat n) U32_MAX.

Lemma saturating_add_small max a b : a + b <= max -> saturating_add max a b = a + b.
Proof. unfold saturating_add. lia. Qed.

Lemma saturating_add_le max a b : saturating_add max a b <= max.
Proof. unfold saturating_add. lia. Qed.

Lemma checked_add_Some max a b c : checked_add max a b = Some c <-> c = a + b /\ a + b <= max.
Proof.
  unfold checked_add. destruct (N.leb_spec (a + b) max); split.
  - by intros [= <-].
  - by intros [-> _].
  - done.
  - intros [-> ?]; lia.
Qed.

Lemma checked_sub_Some a b c : checked_sub a b = Some c <-> b <= a /\ c = a - b.
Proof.
  unfold checked_sub. destruct (N.leb_spec b a); split.
  - by intros [= <-].
  - by intros [_ ->].
  - done.
  - intros [? ->]; lia.
Qed.

(** ** Iterators *)

(** [Iterator::min_by_key]: the first element of minimal key. *)
Fixpoint min_by_key {A} (key : A -> N) (l : list A) : option A :=
  match l with
  | [] => None
  | x :: l' =>
      match min_by_key key l' with
      | None => Some x
      | Some y => if key y <? key x then Some y else Some x
      end
  end.

(** [Iterator::max_by_key]: the last element of maximal key. *)
Definition max_by_key {A} (key : A -> N) (l : list A) : option A :=
  foldl (fun best x =>
           match best with
           | None => Some x
           | Some y => if key y <=? key x then Some x else Some y
           end) None l.

(** [Iterator::find]. *)
Fixpoint find_first {A} (p : A -> bool) (l : list A) : option A :=
  match l with
  | [] => None
  | x :: l' => if p x then Some x else find_first p l'
  end.

Lemma min_by_key_Some {A} (key : A -> N) l x :
  min_by_key key l = Some x -> x ∈ l /\ forall y, y ∈ l -> key x <= key y.
Proof.
  revert x. induction l as [|a l IH]; simpl; [done|]. intros x.
  destruct (min_by_key key l) as [b|] eqn:E.
  - destruct (IH b eq_refl) as [Hin Hmin].
    destruct (N.ltb_spec (key b) (key a)); intros [= <-].
    + split; [by apply elem_of_cons; right|].
      intros y [->|Hy]%elem_of_cons; [lia|auto].
    + split; [by apply elem_of_cons; left|].
      intros y [->|Hy]%elem_of_cons; [lia|]. specialize (Hmin y Hy). lia.
  - intros [= <-]. destruct l as [|b l]; [|simpl in E; destruct (min_by_key key l) as [z|];
      [destruct (key z <? key b)|]; discriminate].
    split; [by apply list_elem_of_singleton|].
    intros y ->%list_elem_of_singleton. lia.
Qed.

Lemma min_by_key_None {A} (key : A -> N) l : min_by_key key l = None <-> l = [].
Proof.
  destruct l as [|a l]; simpl; [done|].
  destruct (min_by_key key l) as [z|]; [destruct (key z <? key a)|]; done.
Qed.

Lemma find_first_Some {A} (p : A -> bool) l x :
  find_first p l = Some x -> x ∈ l /\ p x = true.
Proof.
  induction l as [|a l IH]; simpl; [done|].
  destruct (p a) eqn:E; [intros [= ->]; split; [by apply elem_of_cons; left|done]|].
  intros [? ?]%IH. split; [by apply elem_of_cons; right|done].
Qed.

Lemma find_first_None {A} (p : A -> bool) l :
  find_first p l = None <-> forall x, x ∈ l -> p x = false.
Proof.
  induction l as [|a l IH]; simpl.
  - split; [intros _ x H; by apply elem_of_nil in H|done].
  - destruct (p a) eqn:E.
    + split; [done|]. intros H. rewrite (H a) in E; [done|by apply elem_of_cons; left].
    + rewrite IH. split.
      * intros H x [->|Hx]%elem_of_cons; auto.
      * intros H x Hx. apply H. by apply elem_of_cons; right.
Qed.
