(* ===== verification/Machine.v ===== *)
(** * The instance state machine ([crates/service/src/pool/machine.rs])

    The eleven instance states, the twenty transitions, the total function
    [step], the census buckets a refusal prints, the shutdown decision and the
    recycle decision. The edge table of the source's own tests is the second
    statement of the machine; the theorems relate the two and state what the
    machine guarantees along every run from [INITIAL]. *)

From S2P Require Import Prelude.

Inductive InstanceState :=
| Reserved | Warming | Idle | CheckedOut | Delivering | Leased
| Clearing | Quarantined | Destroying | Leaked | Retired.

#[global] Instance InstanceState_eq_dec : EqDecision InstanceState.
Proof. solve_decision. Defined.

Inductive CensusBucket :=
| BServing | BClearing | BIdle | BLeased | BReserved | BTearingDown | BReleased.

#[global] Instance CensusBucket_eq_dec : EqDecision CensusBucket.
Proof. solve_decision. Defined.

Inductive Transition :=
| BeginWarm | WarmProven | MintFailed | CheckOut | TurnCommitted
| TurnNotDelivered | ResponseDelivered | LeaseHeld | ResumeLease | ReleaseLease
| ClearProven | RecycleDue | ClearFailedCoherent | ClearFailedIncoherent
| IdleExpired | ColdSwapVictim | ShutdownDrain | BeginDestroy | Reaped | ReapFailed.

#[global] Instance Transition_eq_dec : EqDecision Transition.
Proof. solve_decision. Defined.

Definition counts_against_pool (s : InstanceState) : bool :=
  match s with Retired | Leaked => false | _ => true end.

Definition owns_a_root (s : InstanceState) : bool :=
  match s with Reserved | Retired => false | _ => true end.

Definition is_terminal (s : InstanceState) : bool :=
  match s with Retired | Leaked => true | _ => false end.

Definition census_bucket (s : InstanceState) : CensusBucket :=
  match s with
  | CheckedOut | Delivering => BServing
  | Clearing => BClearing
  | Idle => BIdle
  | Leased => BLeased
  | Reserved | Warming => BReserved
  | Quarantined | Destroying => BTearingDown
  | Leaked | Retired => BReleased
  end.

Definition comes_back_on_its_own (b : CensusBucket) : bool :=
  match b with
  | BClearing | BTearingDown => true
  | BServing | BReserved | BIdle | BLeased | BReleased => false
  end.

Definition state_name (s : InstanceState) : string :=
  match s with
  | Reserved => "reserved"
  | Warming => "warming"
  | Idle => "idle"
  | CheckedOut => "checked_out"
  | Delivering => "delivering"
  | Leased => "leased"
  | Clearing => "clearing"
  | Quarantined => "quarantined"
  | Destroying => "destroying"
  | Leaked => "leaked"
  | Retired => "retired"
  end.

(** The derived [Debug] of a unit variant, which is what the source prints. *)
Definition transition_name (t : Transition) : string :=
  match t with
  | BeginWarm => "BeginWarm" | WarmProven => "WarmProven" | MintFailed => "MintFailed"
  | CheckOut => "CheckOut" | TurnCommitted => "TurnCommitted"
  | TurnNotDelivered => "TurnNotDelivered" | ResponseDelivered => "ResponseDelivered"
  | LeaseHeld => "LeaseHeld" | ResumeLease => "ResumeLease" | ReleaseLease => "ReleaseLease"
  | ClearProven => "ClearProven" | RecycleDue => "RecycleDue"
  | ClearFailedCoherent => "ClearFailedCoherent"
  | ClearFailedIncoherent => "ClearFailedIncoherent"
  | IdleExpired => "IdleExpired" | ColdSwapVictim => "ColdSwapVictim"
  | ShutdownDrain => "ShutdownDrain" | BeginDestroy => "BeginDestroy"
  | Reaped => "Reaped" | ReapFailed => "ReapFailed"
  end.

Definition PROOF_CARRYING : list Transition := [WarmProven; ClearProven].

Definition is_proof_carrying (t : Transition) : bool :=
  match t with WarmProven | ClearProven => true | _ => false end.

Record IllegalTransition := {
  it_from : InstanceState;
  it_transition : Transition;
}.

Definition illegal_transition_message (e : IllegalTransition) : string :=
  ("instance transition " +:+ transition_name (it_transition e)
   +:+ " is not an edge out of " +:+ state_name (it_from e))%string.

Definition INITIAL : InstanceState := Reserved.

(** The whole machine, as one total function. Every pair the source lists as a
    non-arm falls to [Err]. *)
Definition step (from : InstanceState) (t : Transition) : result InstanceState IllegalTransition :=
  match from, t with
  | Reserved, BeginWarm => Ok Warming
  | Reserved, MintFailed => Ok Destroying
  | Reserved, ShutdownDrain => Ok Destroying
  | Warming, WarmProven => Ok Idle
  | Warming, MintFailed => Ok Destroying
  | Warming, ShutdownDrain => Ok Destroying
  | Idle, CheckOut => Ok CheckedOut
  | Idle, (IdleExpired | ColdSwapVictim | ShutdownDrain) => Ok Destroying
  | CheckedOut, TurnCommitted => Ok Delivering
  | CheckedOut, TurnNotDelivered => Ok Quarantined
  | Delivering, ResponseDelivered => Ok Clearing
  | Delivering, LeaseHeld => Ok Leased
  | Leased, ResumeLease => Ok CheckedOut
  | Leased, ReleaseLease => Ok Clearing
  | Leased, ShutdownDrain => Ok Destroying
  | Clearing, ClearProven => Ok Idle
  | Clearing, (RecycleDue | ClearFailedCoherent) => Ok Destroying
  | Clearing, ClearFailedIncoherent => Ok Quarantined
  | Clearing, ShutdownDrain => Ok Destroying
  | Quarantined, BeginDestroy => Ok Destroying
  | Destroying, Reaped => Ok Retired
  | Destroying, ReapFailed => Ok Leaked
  | _, _ => Err {| it_from := from; it_transition := t |}
  end.

Inductive ShutdownAction :=
| Drain (t : Transition)
| Finish
| Keep.

Definition shutdown_action (s : InstanceState) : ShutdownAction :=
  match s with
  | Reserved | Warming | Idle | Leased | Clearing => Drain ShutdownDrain
  | Quarantined => Drain BeginDestroy
  | Destroying => Finish
  | CheckedOut | Delivering => Keep
  | Leaked | Retired => Keep
  end.

Definition clear_success_transition (turns_started recycle_turns : N) : Transition :=
  if recycle_turns <=? turns_started then RecycleDue else ClearProven.

Definition idle_is_proof_carrying (s : InstanceState) (last : Transition) : bool :=
  negb (bool_decide (s = Idle)) || is_proof_carrying last.

(** The source's independent edge table: [ALL_STATES], [ALL_TRANSITIONS] and
    [EDGES] of the module's tests. *)

Definition ALL_STATES : list InstanceState :=
  [Reserved; Warming; Idle; CheckedOut; Delivering; Leased;
   Clearing; Quarantined; Destroying; Leaked; Retired].

Definition ALL_TRANSITIONS : list Transition :=
  [BeginWarm; WarmProven; MintFailed; CheckOut; TurnCommitted; TurnNotDelivered;
   ResponseDelivered; ClearProven; RecycleDue; ClearFailedCoherent;
   ClearFailedIncoherent; IdleExpired; ColdSwapVictim; ShutdownDrain; BeginDestroy;
   Reaped; ReapFailed; LeaseHeld; ResumeLease; ReleaseLease].

Definition EDGES : list (InstanceState * Transition * InstanceState) :=
  [(Reserved, BeginWarm, Warming);
   (Reserved, MintFailed, Destroying);
   (Reserved, ShutdownDrain, Destroying);
   (Warming, WarmProven, Idle);
   (Warming, MintFailed, Destroying);
   (Warming, ShutdownDrain, Destroying);
   (Idle, CheckOut, CheckedOut);
   (Idle, IdleExpired, Destroying);
   (Idle, ColdSwapVictim, Destroying);
   (Idle, ShutdownDrain, Destroying);
   (CheckedOut, TurnCommitted, Delivering);
   (CheckedOut, TurnNotDelivered, Quarantined);
   (Delivering, ResponseDelivered, Clearing);
   (Delivering, LeaseHeld, Leased);
   (Leased, ResumeLease, CheckedOut);
   (Leased, ReleaseLease, Clearing);
   (Leased, ShutdownDrain, Destroying);
   (Clearing, ClearProven, Idle);
   (Clearing, RecycleDue, Destroying);
   (Clearing, ClearFailedCoherent, Destroying);
   (Clearing, ClearFailedIncoherent, Quarantined);
   (Clearing, ShutdownDrain, Destroying);
   (Quarantined, BeginDestroy, Destroying);
   (Destroying, Reaped, Retired);
   (Destroying, ReapFailed, Leaked)].

(** ** Runs of the machine

    [run s h s']: the machine goes from [s] to [s'] along the history [h], the
    transitions oldest first. *)

Inductive run : InstanceState -> list Transition -> InstanceState -> Prop :=
| run_nil s : run s [] s
| run_snoc s h s' t s'' : run s h s' -> step s' t = Ok s'' -> run s (h ++ [t]) s''.

#[export] Hint Constructors run : pmux.

(** A finite machine is decided by enumeration. *)
Ltac machine_cases :=
  repeat match goal with
  | s : InstanceState |- _ => destruct s
  | t : Transition |- _ => destruct t
  end; simpl in *; try done; try congruence.

Lemma step_deterministic s t s1 s2 : step s t = Ok s1 -> step s t = Ok s2 -> s1 = s2.
Proof. congruence. Qed.

(** [step] is exactly the table, pair by pair. *)
Lemma step_edges s t s' : step s t = Ok s' <-> (s, t, s') ∈ EDGES.
Proof.
  destruct s, t, s'; simpl;
    (split; intros H; [first [discriminate H | by apply (bool_decide_unpack _)]
                      | first [reflexivity | by apply (bool_decide_pack _) in H; vm_compute in H]]).
Qed.

Lemma all_states_complete s : s ∈ ALL_STATES.
Proof. apply (bool_decide_unpack _). by destruct s. Qed.

Lemma all_transitions_complete t : t ∈ ALL_TRANSITIONS.
Proof. apply (bool_decide_unpack _). by destruct t. Qed.

(** ** Lemmas on runs *)

Lemma run_app s h1 s' h2 s'' : run s h1 s' -> run s' h2 s'' -> run s (h1 ++ h2) s''.
Proof.
  intros H1 H2. induction H2 as [|? ? ? ? ? ? IH Hs]; [by rewrite app_nil_r|].
  rewrite app_assoc. econstructor; eauto.
Qed.

Lemma run_snoc_inv s h t s'' :
  run s (h ++ [t]) s'' -> exists s', run s h s' /\ step s' t = Ok s''.
Proof.
  intros Hrun. remember (h ++ [t]) as l eqn:Hl.
  destruct Hrun as [s|s h' s' t' s'' Hr Hs].
  - by apply app_cons_not_nil in Hl.
  - apply app_inj_tail in Hl as [-> ->]. eauto.
Qed.

Lemma run_app_inv s h1 h2 s'' :
  run s (h1 ++ h2) s'' -> exists s', run s h1 s' /\ run s' h2 s''.
Proof.
  revert s''. induction h2 as [|t h2 IH] using rev_ind; intros s''.
  - rewrite app_nil_r. eauto with pmux.
  - rewrite app_assoc. intros (m & (s' & ? & ?)%IH & ?)%run_snoc_inv. eauto with pmux.
Qed.

(** States a machine cannot be in again once it has left the launch. *)
Definition launched (s : InstanceState) : bool :=
  match s with Reserved | Warming => false | _ => true end.

Lemma step_launched s t s' : step s t = Ok s' -> launched s = true -> launched s' = true.
Proof. machine_cases. Qed.

Lemma run_launched s h s' : run s h s' -> launched s = true -> launched s' = true.
Proof. induction 1; eauto using step_launched. Qed.

(** Idle is entered by a proof and by nothing else. *)
Lemma step_to_idle s t : step s t = Ok Idle -> is_proof_carrying t = true.
Proof. machine_cases. Qed.

Lemma step_to_idle_launched s t : step s t = Ok Idle -> launched s = true -> t = ClearProven.
Proof. machine_cases. Qed.

Lemma step_checkout s s' : step s CheckOut = Ok s' -> s = Idle /\ s' = CheckedOut.
Proof. machine_cases. Qed.

Lemma idle_entry s h s' : run s h s' -> s' = Idle -> s <> Idle ->
  exists h' t, h = h' ++ [t] /\ is_proof_carrying t = true.
Proof.
  intros [?|? h0 s0 t ? _ Hs] -> Hne; [done|].
  eauto using step_to_idle.
Qed.

Lemma idle_entry_launched s h : run s h Idle -> launched s = true -> s <> Idle ->
  exists h', h = h' ++ [ClearProven].
Proof.
  intros Hr Hl Hne. remember Idle as i eqn:Hi.
  destruct Hr as [?|? h0 s0 t ? Hr Hs]; [done|]. subst.
  exists h0. do 2 f_equal. eauto using step_to_idle_launched, run_launched.
Qed.

(** Once an instance is on its way out only teardown transitions remain. *)
Definition leaving (s : InstanceState) : bool :=
  match s with Quarantined | Destroying | Leaked | Retired => true | _ => false end.

Definition teardown_transition (t : Transition) : bool :=
  match t with BeginDestroy | Reaped | ReapFailed => true | _ => false end.

Definition teardown_rank (s : InstanceState) : nat :=
  match s with Quarantined => 2 | Destroying => 1 | _ => 0 end.

Lemma step_leaving s t s' : step s t = Ok s' -> leaving s = true ->
  leaving s' = true /\ teardown_transition t = true /\ (teardown_rank s' < teardown_rank s)%nat.
Proof. machine_cases; intros; repeat split; simpl; lia. Qed.

(** A path from every live state to [Retired]. *)
Definition way_out (s : InstanceState) : list Transition :=
  match s with
  | Reserved | Warming => [MintFailed; Reaped]
  | Idle => [IdleExpired; Reaped]
  | CheckedOut => [TurnNotDelivered; BeginDestroy; Reaped]
  | Delivering => [ResponseDelivered; RecycleDue; Reaped]
  | Leased => [ReleaseLease; RecycleDue; Reaped]
  | Clearing => [RecycleDue; Reaped]
  | Quarantined => [BeginDestroy; Reaped]
  | Destroying => [Reaped]
  | Leaked | Retired => []
  end.

Lemma run_cons s t s' h s'' : step s t = Ok s' -> run s' h s'' -> run s (t :: h) s''.
Proof. intros. apply (run_app s [t] s'); [|done]. by apply (run_snoc s [] s t s'); [constructor|]. Qed.

(** ** Properties *)

(** The machine is its edge table: [step] returns [Ok] exactly on the
    twenty-five edges of the specification table, with the destination the table
    names, and on every other pair it refuses with that very pair. *)
Theorem machine_is_the_edge_table s t :
  match step s t with
  | Ok s' => forall s'', (s, t, s'') ∈ EDGES <-> s'' = s'
  | Err e => e = {| it_from := s; it_transition := t |} /\ forall s', (s, t, s') ∉ EDGES
  end.
Proof.
  destruct (step s t) as [s'|e] eqn:E.
  - intros s''. rewrite <-step_edges. split; [congruence|by intros ->].
  - split; [destruct s, t; simpl in *; congruence|].
    intros s' H%step_edges. congruence.
Qed.

(** Membership in the idle set is the emptiness proof, along every run: a
    checkout is always the step right after a proof-carrying transition, and
    between two checkouts of one instance (two strangers) a [/clear] has been
    proven, as the very last thing before the second. *)
Theorem every_checkout_follows_a_proof h s :
  run INITIAL (h ++ [CheckOut]) s ->
  (exists h' p, h = h' ++ [p] /\ is_proof_carrying p = true) /\
  forall h1 h2, h = h1 ++ CheckOut :: h2 -> exists h2', h2 = h2' ++ [ClearProven].
Proof.
  intros (i & Hr & Hs)%run_snoc_inv.
  destruct (step_checkout _ _ Hs) as [-> ->]. split.
  - by eapply idle_entry.
  - intros h1 h2 ->. rewrite cons_middle, app_assoc in Hr.
    apply run_app_inv in Hr as (m & (b & _ & Hb)%run_snoc_inv & Hr).
    destruct (step_checkout _ _ Hb) as [-> ->].
    by eapply idle_entry_launched.
Qed.

Lemma every_checkout_follows_a_proof_witness :
  exists h2', [TurnCommitted; ResponseDelivered; ClearProven] = h2' ++ [ClearProven].
Proof.
  apply (every_checkout_follows_a_proof
           ([BeginWarm; WarmProven] ++
            CheckOut :: [TurnCommitted; ResponseDelivered; ClearProven]) CheckedOut)
    with (h1 := [BeginWarm; WarmProven]); [|reflexivity].
  simpl. repeat (eapply run_cons; [reflexivity|]). constructor.
Defined.

(** Quarantine and teardown are never re-entered into service: from a state
    that is being torn down, every continuation consists of at most two teardown
    transitions and nothing else, so no checkout, resume or commit follows. And no
    live state is a dead end: each one has a path to [Retired]. *)
Theorem teardown_is_final_and_always_reachable s :
  (leaving s = true -> forall h s', run s h s' ->
     leaving s' = true /\ (length h <= 2)%nat /\
     forall t, t ∈ h -> teardown_transition t = true) /\
  (is_terminal s = false -> exists h, run s h Retired).
Proof.
  split.
  - intros Hl h s' Hr.
    enough (leaving s' = true /\ (length h + teardown_rank s' <= teardown_rank s)%nat /\
            forall t, t ∈ h -> teardown_transition t = true) as (? & Hlen & ?).
    { split_and!; [done| |done]. destruct s; simpl in Hlen; simpl in *; lia. }
    induction Hr as [|s h s' t s'' Hr IH Hs]; [split_and!; [done|simpl; lia|by intros t ?%elem_of_nil]|].
    destruct (IH Hl) as (Hl' & Hrk & Hall).
    destruct (step_leaving _ _ _ Hs Hl') as (? & ? & ?).
    split_and!; [done|rewrite length_app; simpl; lia|].
    intros u [?| ->%list_elem_of_singleton]%elem_of_app; auto.
  - intros Hn. exists (way_out s).
    destruct s; simpl in *; try done;
      repeat (eapply run_cons; [reflexivity|]); constructor.
Qed.

Lemma teardown_is_final_and_always_reachable_witness :
  leaving Destroying = true /\ exists h, run Leased h Retired.
Proof.
  split; [|apply (teardown_is_final_and_always_reachable Leased); reflexivity].
  apply (teardown_is_final_and_always_reachable Quarantined) with (h := [BeginDestroy]);
    [reflexivity|].
  eapply run_cons; [reflexivity|constructor].
Defined.
