(* ===== verification/Text.v ===== *)
(** * Strings, characters and paths

    What the sources use of Rust's [str], [char] and [Path]. A byte string
    ([&str] seen as bytes) is a Rocq [string]; a text seen through [chars()] is
    the list of its Unicode scalar values, [list N]. A [Path] is the sequence of
    its components, which is what Rust's own [PartialEq] and [starts_with]
    compare. *)

From S2P Require Import Prelude.

(** ** Byte strings *)

Definition bytes (s : string) : list N := Ascii.N_of_ascii <$> String.list_ascii_of_string s.

Definition str_len (s : string) : N := N.of_nat (String.length s).

(** Byte-lexicographic order, [Ord for str] and for byte arrays. *)
Fixpoint lex_compare (a b : list N) : comparison :=
  match a, b with
  | [], [] => Eq
  | [], _ :: _ => Lt
  | _ :: _, [] => Gt
  | x :: a', y :: b' =>
      match x ?= y with
      | Eq => lex_compare a' b'
      | c => c
      end
  end.

Definition then_compare (c d : comparison) : comparison :=
  match c with Eq => d | _ => c end.

Definition str_compare (a b : string) : comparison := lex_compare (bytes a) (bytes b).

Definition ascii_lower (b : N) : N := if (65 <=? b) && (b <=? 90) then b + 32 else b.

(** [str::eq_ignore_ascii_case]. *)
Definition eq_ignore_ascii_case (a b : string) : bool :=
  bool_decide (ascii_lower <$> bytes a = ascii_lower <$> bytes b).

Fixpoint join (sep : string) (l : list string) : string :=
  match l with
  | [] => EmptyString
  | [x] => x
  | x :: l' => (x +:+ sep +:+ join sep l')%string
  end.

Definition is_ascii_alphabetic (b : N) : bool :=
  ((65 <=? b) && (b <=? 90)) || ((97 <=? b) && (b <=? 122)).
Definition is_ascii_digit (b : N) : bool := (48 <=? b) && (b <=? 57).
Definition is_ascii_alphanumeric (b : N) : bool := is_ascii_alphabetic b || is_ascii_digit b.
Definition is_ascii_hexdigit (b : N) : bool :=
  is_ascii_digit b || ((65 <=? b) && (b <=? 70)) || ((97 <=? b) && (b <=? 102)).

(** ** Characters *)

Definition in_range (lo hi c : N) : bool := (lo <=? c) && (c <=? hi).

(** [char::is_control]: general category Cc. *)
Definition is_control (c : N) : bool := (c <=? 31) || in_range 127 159 c.

(** [char::is_whitespace]: the Unicode property [White_Space]. *)
Definition is_whitespace (c : N) : bool :=
  in_range 9 13 c || (c =? 32) || (c =? 133) || (c =? 160) || (c =? 5760)
  || in_range 8192 8202 c || (c =? 8232) || (c =? 8233) || (c =? 8239)
  || (c =? 8287) || (c =? 12288).

Definition is_scalar (c : N) : bool := (c <=? 55295) || in_range 57344 1114111 c.

(** UTF-8, one scalar value. *)
Definition utf8_char (c : N) : list N :=
  if c <? 128 then [c]
  else if c <? 2048 then [192 + c / 64; 128 + c mod 64]
  else if c <? 65536 then [224 + c / 4096; 128 + (c / 64) mod 64; 128 + c mod 64]
  else [240 + c / 262144; 128 + (c / 4096) mod 64; 128 + (c / 64) mod 64; 128 + c mod 64].

Definition utf8_encode (t : list N) : list N := t ≫= utf8_char.

(** [str::len] of a text: its length in bytes. *)
Definition text_len (t : list N) : N := N.of_nat (length (utf8_encode t)).

Definition is_cont (b : N) : bool := in_range 128 191 b.

(** [str::from_utf8] followed by [chars]: [None] on an ill-formed sequence
    (overlong forms, surrogates and values past U+10FFFF included). *)
Fixpoint utf8_decode (l : list N) : option (list N) :=
  match l with
  | [] => Some []
  | a :: l1 =>
      if a <? 128 then t ← utf8_decode l1; Some (a :: t)
      else match l1 with
      | [] => None
      | b :: l2 =>
          if in_range 194 223 a && is_cont b then
            t ← utf8_decode l2; Some ((a - 192) * 64 + (b - 128) :: t)
          else match l2 with
          | [] => None
          | c :: l3 =>
              if (((a =? 224) && in_range 160 191 b)
                  || ((in_range 225 236 a || in_range 238 239 a) && is_cont b)
                  || ((a =? 237) && in_range 128 159 b)) && is_cont c then
                t ← utf8_decode l3;
                Some ((a - 224) * 4096 + (b - 128) * 64 + (c - 128) :: t)
              else match l3 with
              | [] => None
              | d :: l4 =>
                  if (((a =? 240) && in_range 144 191 b)
                      || (in_range 241 243 a && is_cont b)
                      || ((a =? 244) && in_range 128 143 b)) && is_cont c && is_cont d then
                    t ← utf8_decode l4;
                    Some ((a - 240) * 262144 + (b - 128) * 4096
                          + (c - 128) * 64 + (d - 128) :: t)
                  else None
              end
          end
      end
  end.

(** [str::chars]. A Rust [str] is always well formed, so the default is unused. *)
Definition chars (s : string) : list N := default [] (utf8_decode (bytes s)).

(** [s.trim().is_empty()]. *)
Definition trim_is_empty (s : string) : bool := forallb is_whitespace (chars s).

(** [str::trim_start_matches] and [str::trim_end_matches] with a predicate. *)
Fixpoint trim_start_matches (p : N -> bool) (t : list N) : list N :=
  match t with
  | [] => []
  | c :: t' => if p c then trim_start_matches p t' else t
  end.

Definition trim_end_matches (p : N -> bool) (t : list N) : list N :=
  reverse (trim_start_matches p (reverse t)).

(** [str::strip_prefix], [strip_suffix] and [split_once] on texts. *)
Fixpoint strip_prefix (pre t : list N) : option (list N) :=
  match pre, t with
  | [], _ => Some t
  | _ :: _, [] => None
  | p :: pre', c :: t' => if p =? c then strip_prefix pre' t' else None
  end.

Definition strip_suffix (suf t : list N) : option (list N) :=
  reverse <$> strip_prefix (reverse suf) (reverse t).

Fixpoint split_once (sep t : list N) : option (list N * list N) :=
  match strip_prefix sep t with
  | Some rest => Some ([], rest)
  | None =>
      match t with
      | [] => None
      | c :: t' => '(a, b) ← split_once sep t'; Some (c :: a, b)
      end
  end.

(** A literal of the source, as a text (all of them are ASCII). *)
Definition text_of (s : string) : list N := bytes s.

(** ** Paths *)

Record Path := mkPath {
  path_absolute : bool;
  path_components : list string;
}.

#[global] Instance Path_eq_dec : EqDecision Path.
Proof. solve_decision. Defined.

(** [PathBuf::from] and [components]: [/]-separated segments, empty ones and [.]
    dropped, a leading [.] of a relative path kept. *)
Fixpoint split_slash (acc : string) (s : string) : list string :=
  match s with
  | EmptyString => [acc]
  | String c s' =>
      if bool_decide (Ascii.N_of_ascii c = 47) then acc :: split_slash EmptyString s'
      else split_slash (acc +:+ String c EmptyString)%string s'
  end.

Definition path_from (s : string) : Path :=
  let segments := split_slash EmptyString s in
  let keep := fun x => negb (bool_decide (x = EmptyString)) && negb (bool_decide (x = "."%string)) in
  match segments with
  | EmptyString :: rest => mkPath (negb (bool_decide (s = EmptyString))) (List.filter keep rest)
  | head :: rest => mkPath false (head :: List.filter keep rest)
  | [] => mkPath false []
  end.

(** [Path::join] with one relative component. *)
Definition path_join (p : Path) (c : string) : Path :=
  mkPath (path_absolute p) (path_components p ++ [c]).

(** [Path::parent]: [None] on [/] and on the empty path. *)
Definition path_parent (p : Path) : option Path :=
  match path_components p with
  | [] => None
  | l => Some (mkPath (path_absolute p) (take (length l - 1) l))
  end.

Definition path_file_name (p : Path) : option string := last (path_components p).

(** [Path::ancestors]: the path, its parent, and so on up to the empty path. The
    recursion is on the components read from the last one. *)
Fixpoint ancestors_from (absolute : bool) (rev_components : list string) : list Path :=
  mkPath absolute (reverse rev_components) ::
  match rev_components with
  | [] => []
  | _ :: rest => ancestors_from absolute rest
  end.

Definition path_ancestors (p : Path) : list Path :=
  ancestors_from (path_absolute p) (reverse (path_components p)).

(** [Path::starts_with]: component-wise. *)
Definition path_starts_with (p base : Path) : bool :=
  bool_decide (path_absolute p = path_absolute base)
  && bool_decide (take (length (path_components base)) (path_components p) = path_components base).

(** ** Lemmas *)

Lemma bytes_app a b : bytes (a +:+ b)%string = bytes a ++ bytes b.
Proof. unfold bytes. induction a as [|x a IH]; [done|]. exact (f_equal (cons (Ascii.N_of_ascii x)) IH). Qed.

Lemma path_starts_with_spec p base :
  path_starts_with p base = true <->
  exists l, p = mkPath (path_absolute base) (path_components base ++ l).
Proof.
  unfold path_starts_with. rewrite andb_true_iff, !bool_decide_eq_true.
  destruct p as [a c]; simpl. split.
  - intros [-> Ht]. exists (drop (length (path_components base)) c).
    f_equal. rewrite <-Ht at 1. by rewrite take_drop.
  - intros [l [= -> ->]]. split; [done|]. by rewrite take_app_length.
Qed.

Lemma path_join_inj p q c d : path_join p c = path_join q d -> p = q /\ c = d.
Proof.
  destruct p as [a l], q as [b k]. unfold path_join; simpl.
  intros [= -> [-> ->]%app_inj_tail]. done.
Qed.

Lemma path_starts_with_join p base c :
  path_starts_with p base = true -> path_starts_with (path_join p c) base = true.
Proof.
  rewrite !path_starts_with_spec. intros [l ->]. exists (l ++ [c]).
  unfold path_join; simpl. by rewrite app_assoc.
Qed.

Lemma path_starts_with_refl p : path_starts_with p p = true.
Proof. apply path_starts_with_spec. exists []. destruct p. by rewrite app_nil_r. Qed.

Lemma strip_prefix_Some pre t r : strip_prefix pre t = Some r <-> t = pre ++ r.
Proof.
  revert t. induction pre as [|p pre IH]; intros [|c t]; simpl; try naive_solver.
  destruct (N.eqb_spec p c) as [->|Hne]; [rewrite IH; naive_solver|naive_solver].
Qed.

Lemma strip_suffix_Some suf t r : strip_suffix suf t = Some r <-> t = r ++ suf.
Proof.
  unfold strip_suffix. rewrite fmap_Some. setoid_rewrite strip_prefix_Some. split.
  - intros (x & H & ->). apply (inj reverse). by rewrite H, reverse_app, reverse_involutive.
  - intros ->. exists (reverse r). by rewrite reverse_app, reverse_involutive.
Qed.

Lemma trim_start_matches_spec p t :
  exists pre, t = pre ++ trim_start_matches p t /\ forallb p pre = true /\
    (forall c, head (trim_start_matches p t) = Some c -> p c = false).
Proof.
  induction t as [|c t (pre & Ht & Hp & Hh)]; simpl.
  - by exists [].
  - destruct (p c) eqn:E.
    + exists (c :: pre). simpl. rewrite E. by rewrite <-Ht.
    + exists []. split_and!; [done..|]. by intros ? [= <-].
Qed.

Lemma head_reverse {A} (l : list A) : head (reverse l) = last l.
Proof. rewrite <-(reverse_involutive l) at 2. by rewrite last_reverse. Qed.

Lemma trim_end_matches_spec p t :
  exists post, t = trim_end_matches p t ++ post /\ forallb p post = true /\
    (forall c, last (trim_end_matches p t) = Some c -> p c = false).
Proof.
  unfold trim_end_matches.
  destruct (trim_start_matches_spec p (reverse t)) as (pre & Ht & Hp & Hh).
  exists (reverse pre). split_and!.
  - apply (inj reverse). by rewrite reverse_app, !reverse_involutive.
  - rewrite forallb_forall in *. intros x Hx. apply Hp.
    apply list_elem_of_In in Hx. apply list_elem_of_In. by rewrite elem_of_reverse in Hx.
  - intros c Hc. apply Hh. by rewrite last_reverse in Hc.
Qed.

Lemma trim_end_matches_id p t :
  (forall c, last t = Some c -> p c = false) -> trim_end_matches p t = t.
Proof.
  intros H. destruct (trim_end_matches_spec p t) as (post & Ht & Hp & _).
  destruct post as [|x post _] using rev_ind; [by rewrite app_nil_r in Ht|].
  assert (p x = false) as Hx by (apply H; rewrite Ht, app_assoc; apply last_snoc).
  rewrite forallb_app in Hp. simpl in Hp. rewrite Hx in Hp. by rewrite andb_false_r in Hp.
Qed.

Lemma split_once_char (q : N) pre post sep :
  q ∉ pre -> split_once (q :: sep) (pre ++ (q :: sep) ++ post) = Some (pre, post).
Proof.
  intros Hq. induction pre as [|c pre IH]; cbn [app split_once].
  - assert (strip_prefix (q :: sep) (q :: sep ++ post) = Some post) as ->; [|done].
    by apply strip_prefix_Some.
  - apply not_elem_of_cons in Hq as [Hne Hq].
    cbn [strip_prefix]. destruct (N.eqb_spec q c); [congruence|].
    cbn [app] in IH. by rewrite (IH Hq).
Qed.

Lemma split_once_Some sep t a b : split_once sep t = Some (a, b) -> t = a ++ sep ++ b.
Proof.
  revert a. induction t as [|c t IH]; intros a; cbn [split_once].
  - destruct (strip_prefix sep []) eqn:E; [|done]. intros [= <- ->]. by apply strip_prefix_Some in E.
  - destruct (strip_prefix sep (c :: t)) eqn:E.
    + intros [= <- ->]. by apply strip_prefix_Some in E.
    + destruct (split_once sep t) as [[a' b']|]; [|done]. intros [= <- ->].
      by rewrite (IH a' eq_refl).
Qed.
