(* ===== verification/Protocol.v ===== *)
(** * The protocol types the pool speaks ([crates/protocol/src/v1.rs])

    Error codes and the typed refusal body with its builders, effort tiers, the
    stateless request and result, token usage. JSON details are a value type whose
    objects keep their keys in order, as [serde_json]'s default map does. *)

From S2P Require Import Prelude Text.

#[local] Set Warnings "-register-all".

Inductive json :=
| JNull
| JBool (b : bool)
| JNum (n : N)          (** a [Number] read as [u64] *)
| JNegInt (z : Z)       (** a negative [Number] read as [i64] *)
| JFloat (bits : N)     (** any other [Number], by the bits of its finite [f64] *)
| JStr (s : string)
| JArr (l : list json)
| JObj (l : list (string * json)).

(** [serde_json::Map::insert]: replace or insert in key order. *)
Fixpoint obj_insert (k : string) (v : json) (l : list (string * json)) : list (string * json) :=
  match l with
  | [] => [(k, v)]
  | (k', v') :: l' =>
      match str_compare k k' with
      | Lt => (k, v) :: l
      | Eq => (k, v) :: l'
      | Gt => (k', v') :: obj_insert k v l'
      end
  end.

(** The [json!] object literal: its entries inserted one after the other. *)
Definition jobj (l : list (string * json)) : json :=
  JObj (foldl (fun acc kv => obj_insert (fst kv) (snd kv) acc) [] l).

Fixpoint obj_get (k : string) (l : list (string * json)) : option json :=
  match l with
  | [] => None
  | (k', v) :: l' => if bool_decide (k = k') then Some v else obj_get k l'
  end.

(** [Value::get] with a string key. *)
Definition json_get (k : string) (j : json) : option json :=
  match j with JObj l => obj_get k l | _ => None end.

Definition json_as_str (j : json) : option string :=
  match j with JStr s => Some s | _ => None end.

(** The other accessors of [serde_json::Value]. *)
Definition as_u64 (j : json) : option N :=
  match j with JNum n => Some n | _ => None end.

Definition as_array (j : json) : option (list json) :=
  match j with JArr l => Some l | _ => None end.

Definition as_object (j : json) : option (list (string * json)) :=
  match j with JObj l => Some l | _ => None end.

Definition is_null (j : json) : bool :=
  match j with JNull => true | _ => false end.

Definition contains_key (k : string) (l : list (string * json)) : bool :=
  match obj_get k l with Some _ => true | None => false end.

(** Equality of finite [f64]s: the two zeros are equal. *)
Definition float_eqb (a b : N) : bool :=
  let zero n := (n =? 0) || (n =? 9223372036854775808) in
  (a =? b) || (zero a && zero b).

(** [PartialEq for Value]. Two objects are equal when their entries are, in key
    order. *)
Fixpoint json_eqb (x y : json) : bool :=
  match x, y with
  | JNull, JNull => true
  | JBool a, JBool b => Bool.eqb a b
  | JNum a, JNum b => a =? b
  | JNegInt a, JNegInt b => (a =? b)%Z
  | JFloat a, JFloat b => float_eqb a b
  | JStr a, JStr b => String.eqb a b
  | JArr a, JArr b =>
      (fix go (a b : list json) : bool :=
         match a, b with
         | [], [] => true
         | u :: a', v :: b' => json_eqb u v && go a' b'
         | _, _ => false
         end) a b
  | JObj a, JObj b =>
      (fix go (a b : list (string * json)) : bool :=
         match a, b with
         | [], [] => true
         | (k, u) :: a', (k', v) :: b' => String.eqb k k' && json_eqb u v && go a' b'
         | _, _ => false
         end) a b
  | _, _ => false
  end.

Definition opt_jstr (o : option string) : json :=
  match o with Some s => JStr s | None => JNull end.

Definition MAX_SAFE_JSON_INTEGER : N := 9007199254740991.

Inductive ErrorCode :=
| InvalidConfig | UnsupportedFeature | UnsupportedClaudeVersion | ClaudeNotFound
| RmuxUnavailable | RmuxIncompatible | PersistenceDisabled | TranscriptUnavailable
| SchemaDrift | PromptNotAcknowledged | ResultTooLarge | TurnHistoryCapacityExceeded
| SessionBusy | IdConflict | IdCollision | SessionNotFound | StaleSessionGeneration
| NeedsTrust | NeedsLogin | NeedsPermission | NeedsUpdate | NeedsInput | RateLimited
| AuthenticationFailed | BillingFailed | PermissionDenied | TurnTimeout | Cancelled
| RecoveryFailed | ClaudeExited | DaemonLost | ReplayGap | ProtocolVersionMismatch
| Internal.

#[global] Instance ErrorCode_eq_dec : EqDecision ErrorCode.
Proof. solve_decision. Defined.

Record ErrorBody := mkErrorBody {
  eb_code : ErrorCode;
  eb_message : string;
  eb_retryable : bool;
  eb_details : json;
}.

Definition ErrorBody_new (code : ErrorCode) (message : string) : ErrorBody :=
  mkErrorBody code message false JNull.

Definition retryable (b : bool) (e : ErrorBody) : ErrorBody :=
  mkErrorBody (eb_code e) (eb_message e) b (eb_details e).

Definition with_details (d : json) (e : ErrorBody) : ErrorBody :=
  mkErrorBody (eb_code e) (eb_message e) (eb_retryable e) d.

Definition RECOMMENDATION_KEY : string := "recommendation".

Definition advising (recommendation : string) (e : ErrorBody) : ErrorBody :=
  with_details
    (match eb_details e with
     | JObj l => JObj (obj_insert RECOMMENDATION_KEY (JStr recommendation) l)
     | _ => JObj (obj_insert RECOMMENDATION_KEY (JStr recommendation) [])
     end) e.

Definition recommendation (e : ErrorBody) : option string :=
  json_get RECOMMENDATION_KEY (eb_details e) ≫= json_as_str.

(** What a caller branches on: the ["violation"] key of the details. *)
Definition violation (e : ErrorBody) : option string :=
  json_get "violation" (eb_details e) ≫= json_as_str.

Inductive EffortLevel := Low | Medium | High | XHigh | Max.

#[global] Instance EffortLevel_eq_dec : EqDecision EffortLevel.
Proof. solve_decision. Defined.

Definition effort_as_str (e : EffortLevel) : string :=
  match e with
  | Low => "low"
  | Medium => "medium"
  | High => "high"
  | XHigh => "xhigh"
  | Max => "max"
  end.

Record TokenUsage := {
  input_tokens : N;
  output_tokens : N;
  cache_creation_input_tokens : N;
  cache_read_input_tokens : N;
}.

#[global] Instance TokenUsage_eq_dec : EqDecision TokenUsage.
Proof. solve_decision. Defined.

Definition TokenUsage_default : TokenUsage := {|
  input_tokens := 0; output_tokens := 0;
  cache_creation_input_tokens := 0; cache_read_input_tokens := 0 |}.

Record UsageBreakdown := {
  ub_main : TokenUsage;
  ub_sidechain : TokenUsage;
  ub_combined : TokenUsage;
  ub_cost_usd : option string;
}.

Inductive StopReasonKind :=
| EndTurn | StopSequence | MaxTokens | ToolUse | PauseTurn | Refusal | ErrorStop | UnknownStop.

Record StopReason := {
  sr_kind : StopReasonKind;
  sr_raw : option string;
}.

(** The prompt is a text (it is inspected character by character); every other
    string of the request is compared byte-wise. *)
Record RunStatelessRequest := {
  rq_model : string;
  rq_effort : option EffortLevel;
  rq_prompt : list N;
  rq_account : option string;
  rq_deadline_unix_ms : option N;
}.

Record StatelessResult := {
  sres_model : string;
  sres_reported_model : option string;
  sres_effort : option EffortLevel;
  sres_text : string;
  sres_stop_reason : option StopReason;
  sres_usage : UsageBreakdown;
  sres_claude_version : string;
}.

(** ** Lemmas *)

Lemma lex_compare_eq a b : lex_compare a b = Eq <-> a = b.
Proof.
  revert b. induction a as [|x a IH]; intros [|y b]; simpl; try done.
  destruct (N.compare_spec x y) as [->|?|?].
  - rewrite IH. split; [by intros ->|by intros [= ->]].
  - split; [done|intros [= -> ->]; lia].
  - split; [done|intros [= -> ->]; lia].
Qed.

#[global] Instance N_of_ascii_inj : Inj (=) (=) Ascii.N_of_ascii.
Proof. intros x y H. by rewrite <-(Ascii.ascii_N_embedding x), H, Ascii.ascii_N_embedding. Qed.

Lemma bytes_inj a b : bytes a = bytes b -> a = b.
Proof.
  unfold bytes. intros H%(inj (fmap Ascii.N_of_ascii)).
  rewrite <-(String.string_of_list_ascii_of_string a), H.
  apply String.string_of_list_ascii_of_string.
Qed.

Lemma str_compare_eq a b : str_compare a b = Eq <-> a = b.
Proof.
  unfold str_compare. rewrite lex_compare_eq. split; [apply bytes_inj|by intros ->].
Qed.

Lemma obj_get_insert k v k' l :
  obj_get k' (obj_insert k v l) = if bool_decide (k' = k) then Some v else obj_get k' l.
Proof.
  induction l as [|[k0 v0] l IH]; simpl; [done|].
  destruct (str_compare k k0) eqn:E; simpl; repeat case_bool_decide; subst; try done.
  - apply str_compare_eq in E. congruence.
  - assert (str_compare k0 k0 = Eq) by (by apply str_compare_eq). congruence.
Qed.

(** Advice never loses the violation a caller branches on, and is read back. *)
Lemma advising_violation r e : violation (advising r e) = violation e.
Proof.
  unfold violation, advising, with_details, json_get; simpl.
  destruct (eb_details e); simpl; try done. by rewrite obj_get_insert.
Qed.

Lemma advising_recommendation r e : recommendation (advising r e) = Some r.
Proof.
  unfold recommendation, advising, with_details, json_get; simpl.
  destruct (eb_details e); simpl; try done. by rewrite obj_get_insert, bool_decide_eq_true_2.
Qed.
