(* ===== verification/Account.v ===== *)
(** * Named credential pins ([crates/service/src/pool/account.rs])

    A boot-validated account name is a fixed 32-byte buffer and a length, so that
    it can sit inside the pool's copyable class key. *)

From S2P Require Import Prelude Text Protocol.

Definition MAX_ACCOUNT_NAME_BYTES : N := 32.
Definition DEFAULT_ACCOUNT : string := "default".

Record AccountName := mkAccountName {
  an_buf : string;
  an_len : N;
}.

#[global] Instance AccountName_eq_dec : EqDecision AccountName.
Proof. solve_decision. Defined.

#[global] Instance AccountName_countable : Countable AccountName.
Proof.
  apply (inj_countable' (fun a => (an_buf a, an_len a)) (fun p => mkAccountName (fst p) (snd p))).
  by intros [].
Defined.

Fixpoint zeros (n : nat) : string :=
  match n with O => EmptyString | S n' => String Ascii.zero (zeros n') end.

(** The zeroed buffer with the bytes copied in. The source indexes the array, so
    it is only ever called with at most 32 bytes; [len as u8] keeps the low byte. *)
Definition from_bytes (s : string) : AccountName :=
  mkAccountName (s +:+ zeros (N.to_nat MAX_ACCOUNT_NAME_BYTES - String.length s))%string
                (str_len s mod 256).

Definition AccountName_DEFAULT : AccountName := from_bytes DEFAULT_ACCOUNT.

Inductive AccountNameError := InvalidName (raw : string).

(** The predicate on every character after the first: letters, digits, [_], [-]. *)
Definition account_char (c : N) : bool := is_ascii_alphanumeric c || (c =? 95) || (c =? 45).

Definition account_parse (raw : string) : result AccountName AccountNameError :=
  if (str_len raw =? 0) || (MAX_ACCOUNT_NAME_BYTES <? str_len raw) then Err (InvalidName raw)
  else match chars raw with
       | [] => Err (InvalidName raw)
       | first :: rest =>
           if negb (is_ascii_alphabetic first) || negb (forallb account_char rest)
           then Err (InvalidName raw)
           else Ok (from_bytes raw)
       end.

(** [str::from_utf8(&buf[..len]).unwrap_or(DEFAULT_ACCOUNT)]. *)
Definition account_as_str (a : AccountName) : string :=
  let raw := String.substring 0 (N.to_nat (an_len a)) (an_buf a) in
  match utf8_decode (bytes raw) with
  | Some _ => raw
  | None => DEFAULT_ACCOUNT
  end.

Definition is_default (a : AccountName) : bool := bool_decide (a = AccountName_DEFAULT).

(** The derived [Ord]: the buffer first, then the length. *)
Definition account_compare (a b : AccountName) : comparison :=
  then_compare (str_compare (an_buf a) (an_buf b)) (an_len a ?= an_len b).

Record ConfiguredAccount := mkConfiguredAccount {
  ca_name : AccountName;
  ca_pin : string;
}.

Definition pin_is_empty (c : ConfiguredAccount) : bool := bool_decide (ca_pin c = EmptyString).

(** ** Lemmas *)

Lemma string_length_app a b : String.length (a +:+ b)%string = (String.length a + String.length b)%nat.
Proof. induction a as [|c a IH]; simpl; [done|]. by rewrite IH. Qed.

Lemma substring_app_l a b : String.substring 0 (String.length a) (a +:+ b)%string = a.
Proof.
  induction a as [|c a IH]; simpl; [by destruct b|]. f_equal. exact IH.
Qed.

Lemma length_zeros n : String.length (zeros n) = n.
Proof. induction n as [|n IH]; simpl; congruence. Qed.

Lemma str_len_small raw : str_len raw <= MAX_ACCOUNT_NAME_BYTES -> str_len raw mod 256 = str_len raw.
Proof. unfold MAX_ACCOUNT_NAME_BYTES. intros. apply N.mod_small. lia. Qed.

Lemma account_parse_Ok raw a : account_parse raw = Ok a ->
  a = from_bytes raw /\ 1 <= str_len raw <= MAX_ACCOUNT_NAME_BYTES /\
  exists first rest, utf8_decode (bytes raw) = Some (first :: rest) /\
    is_ascii_alphabetic first = true /\ forallb account_char rest = true.
Proof.
  unfold account_parse, chars.
  destruct (N.eqb_spec (str_len raw) 0); simpl; [done|].
  destruct (N.ltb_spec MAX_ACCOUNT_NAME_BYTES (str_len raw)); [done|].
  destruct (utf8_decode (bytes raw)) as [[|first rest]|] eqn:E; simpl; try done.
  destruct (is_ascii_alphabetic first) eqn:E1; simpl; [|done].
  destruct (forallb account_char rest) eqn:E2; simpl; [|done].
  intros [= <-]. split_and!; [done|lia|lia|]. eauto 10.
Qed.

Lemma from_bytes_as_str raw t :
  str_len raw <= MAX_ACCOUNT_NAME_BYTES -> utf8_decode (bytes raw) = Some t ->
  account_as_str (from_bytes raw) = raw.
Proof.
  intros Hl Hd. unfold account_as_str, from_bytes; simpl.
  rewrite str_len_small by done. unfold str_len. rewrite Nnat.Nat2N.id, substring_app_l.
  by rewrite Hd.
Qed.

(** Account names round-trip through the fixed buffer: a name that parses
    reads back byte for byte, fills a buffer of exactly thirty-two bytes, and two
    spellings that parse to the same class-key component are the same spelling. *)
Theorem account_name_roundtrip raw a :
  account_parse raw = Ok a ->
  account_as_str a = raw /\ String.length (an_buf a) = 32%nat /\
  forall raw', account_parse raw' = Ok a -> raw' = raw.
Proof.
  intros (-> & [? Hl] & f & r & Hd & _)%account_parse_Ok.
  assert (Hrt : account_as_str (from_bytes raw) = raw) by eauto using from_bytes_as_str.
  split_and!; [done| |].
  - unfold from_bytes; simpl. rewrite string_length_app, length_zeros.
    unfold str_len, MAX_ACCOUNT_NAME_BYTES in *. lia.
  - intros raw' (Heq & [? Hl'] & f' & r' & Hd' & _)%account_parse_Ok.
    rewrite <-Hrt, Heq. symmetry. eauto using from_bytes_as_str.
Qed.

Lemma account_name_roundtrip_witness :
  exists a, account_parse "claude-1" = Ok a /\ account_as_str a = "claude-1"%string.
Proof.
  exists (from_bytes "claude-1"). split; [reflexivity|].
  apply (account_name_roundtrip "claude-1"). reflexivity.
Defined.
