(* ===== verification/Class.v ===== *)
(** * The pool's class key ([crates/service/src/pool/class.rs])

    The table of admitted models with their effort tiers, the one rule that turns
    a [(model, effort)] pair into argv, and the fungibility key built from it. *)

From S2P Require Import Prelude Text Protocol Account.

Record AdmittedEffort := mkAdmittedEffort {
  ae_level : EffortLevel;
  ae_argv : string;
}.

#[global] Instance AdmittedEffort_eq_dec : EqDecision AdmittedEffort.
Proof. solve_decision. Defined.

Definition LOW : AdmittedEffort := mkAdmittedEffort Low "low".
Definition MEDIUM : AdmittedEffort := mkAdmittedEffort Medium "medium".
Definition HIGH : AdmittedEffort := mkAdmittedEffort High "high".
Definition XHIGH : AdmittedEffort := mkAdmittedEffort XHigh "xhigh".
Definition MAX : AdmittedEffort := mkAdmittedEffort Max "max".

Definition EFFORTS_NONE : list AdmittedEffort := [].
Definition EFFORTS_THROUGH_HIGH : list AdmittedEffort := [LOW; MEDIUM; HIGH].
Definition EFFORTS_THROUGH_MAX : list AdmittedEffort := [LOW; MEDIUM; HIGH; MAX].
Definition EFFORTS_ALL : list AdmittedEffort := [LOW; MEDIUM; HIGH; XHIGH; MAX].

Record ModelEntry := mkModelEntry {
  me_canonical : string;
  me_aliases : list string;
  me_efforts : list AdmittedEffort;
}.

#[global] Instance ModelEntry_eq_dec : EqDecision ModelEntry.
Proof. solve_decision. Defined.

Definition entry_matches (e : ModelEntry) (spelling : string) : bool :=
  eq_ignore_ascii_case (me_canonical e) spelling
  || existsb (fun alias => eq_ignore_ascii_case alias spelling) (me_aliases e).

Definition entry_admit (e : ModelEntry) (effort : EffortLevel) : option AdmittedEffort :=
  find_first (fun entry => bool_decide (ae_level entry = effort)) (me_efforts e).

Definition admitted_spellings (e : ModelEntry) : list string := ae_argv <$> me_efforts e.

Definition MODEL_TABLE : list ModelEntry :=
  [mkModelEntry "claude-fable-5-1" ["fable"; "fable-5-1"; "fable-5.1"] EFFORTS_ALL;
   mkModelEntry "claude-opus-5-5" ["opus"; "opus-5-5"; "opus-5.5"] EFFORTS_ALL;
   mkModelEntry "claude-opus-5" ["opus-5"] EFFORTS_ALL;
   mkModelEntry "claude-opus-4-8" ["opus-4-8"; "opus-4.8"] EFFORTS_ALL;
   mkModelEntry "claude-opus-4-7" ["opus-4-7"; "opus-4.7"] EFFORTS_ALL;
   mkModelEntry "claude-opus-4-6" ["opus-4-6"; "opus-4.6"] EFFORTS_THROUGH_MAX;
   mkModelEntry "claude-opus-4-5" ["opus-4-5"; "opus-4.5"] EFFORTS_THROUGH_HIGH;
   mkModelEntry "claude-sonnet-5" ["sonnet"; "sonnet-5"] EFFORTS_ALL;
   mkModelEntry "claude-sonnet-4-6" ["sonnet-4-6"; "sonnet-4.6"] EFFORTS_THROUGH_MAX;
   mkModelEntry "claude-sonnet-4-5" ["sonnet-4-5"; "sonnet-4.5"] EFFORTS_NONE;
   mkModelEntry "claude-haiku-4-5" ["haiku"; "haiku-4-5"; "haiku-4.5"] EFFORTS_NONE].

Definition lookup_model (spelling : string) : option ModelEntry :=
  find_first (fun entry => entry_matches entry spelling) MODEL_TABLE.

Definition admitted_model_list : string := join ", " (me_canonical <$> MODEL_TABLE).

(** The fungibility key. *)
Record InstanceClass := mkInstanceClass {
  canonical_model : string;
  effort_argv : option string;
  class_account : AccountName;
}.

#[global] Instance InstanceClass_eq_dec : EqDecision InstanceClass.
Proof. solve_decision. Defined.

#[global] Instance InstanceClass_countable : Countable InstanceClass.
Proof.
  apply (inj_countable' (fun c => (canonical_model c, effort_argv c, class_account c))
           (fun p => mkInstanceClass (fst (fst p)) (snd (fst p)) (snd p))).
  by intros [].
Defined.

Definition opt_str_compare (a b : option string) : comparison :=
  match a, b with
  | None, None => Eq
  | None, Some _ => Lt
  | Some _, None => Gt
  | Some x, Some y => str_compare x y
  end.

(** The derived [Ord], field by field: the order the pool's maps iterate in. *)
Definition class_compare (a b : InstanceClass) : comparison :=
  then_compare (str_compare (canonical_model a) (canonical_model b))
    (then_compare (opt_str_compare (effort_argv a) (effort_argv b))
       (account_compare (class_account a) (class_account b))).

Definition class_le (a b : InstanceClass) : Prop := class_compare a b <> Gt.

#[global] Instance class_le_dec : RelDecision class_le.
Proof. intros a b. unfold class_le. destruct (class_compare a b); [left|left|right]; congruence. Defined.

Record ResolvedModelEffort := mkResolved {
  rme_model_arg : option string;
  rme_effort_arg : option string;
  rme_entry : option ModelEntry;
  rme_effort_level : option EffortLevel;
}.

Definition class_of (r : ResolvedModelEffort) : option InstanceClass :=
  entry ← rme_entry r;
  Some (mkInstanceClass (me_canonical entry) (rme_effort_arg r) AccountName_DEFAULT).

Definition with_account (account : AccountName) (c : InstanceClass) : InstanceClass :=
  mkInstanceClass (canonical_model c) (effort_argv c) account.

Definition class_effort_level (c : InstanceClass) : option EffortLevel :=
  argv ← effort_argv c;
  ae_level <$> find_first (fun admitted => bool_decide (ae_argv admitted = argv))
                 (MODEL_TABLE ≫= me_efforts).

Definition class_argv (c : InstanceClass) : list string :=
  ["--model"; canonical_model c]%string ++
  match effort_argv c with
  | Some effort => ["--effort"; effort]%string
  | None => []
  end.

Definition class_display (c : InstanceClass) : string :=
  (canonical_model c +:+ "/" +:+
   (match effort_argv c with Some effort => effort | None => "-" end) +:+
   (if is_default (class_account c) then EmptyString
    else "@" +:+ account_as_str (class_account c)))%string.

Inductive ModelEffortRefusal :=
| EffortWithoutModel (effort : EffortLevel)
| UnknownModelWithEffort (model : string) (effort : EffortLevel)
| ModelTakesNoEffort (model : string) (effort : EffortLevel)
| EffortNotAdmitted (model : string) (effort : EffortLevel) (admitted : list string)
| UnknownModelForPool (model : string).

Definition refusal_display (r : ModelEffortRefusal) : string :=
  (match r with
   | EffortWithoutModel effort =>
       "--effort " +:+ effort_as_str effort +:+ " requires an explicit model: effort tiers are not uniform across Claude models"
   | UnknownModelWithEffort model effort =>
       "model " +:+ model +:+ " is not admitted, so --effort " +:+ effort_as_str effort +:+ " cannot be validated against it"
   | ModelTakesNoEffort model effort =>
       "model " +:+ model +:+ " takes no effort tier; --effort " +:+ effort_as_str effort +:+ " is refused rather than silently dropped"
   | EffortNotAdmitted model effort admitted =>
       "model " +:+ model +:+ " does not admit --effort " +:+ effort_as_str effort +:+ "; it admits " +:+ join ", " admitted
   | UnknownModelForPool model =>
       "model " +:+ model +:+ " is not admitted to the stateless pool: a model with no table entry has no instance class"
   end)%string.

Definition refusal_into_error_body (r : ModelEffortRefusal) : ErrorBody :=
  let models := JArr ((fun entry => JStr (me_canonical entry)) <$> MODEL_TABLE) in
  let details :=
    match r with
    | UnknownModelForPool _ =>
        jobj [("violation", JStr "model_not_admitted_to_pool");
              ("admitted_models", models);
              ("recommendation",
                JStr ("name one of " +:+ admitted_model_list +:+ ", or one of their aliases"))]
    | _ =>
        jobj [("violation", JStr "model_effort_not_admitted");
              ("admitted_models", models);
              ("recommendation",
                JStr ("the models this pool admits are " +:+ admitted_model_list +:+
                      "; --effort is validated against the resolved model, so a tier one model takes is not a tier they all take"))]
    end%string in
  with_details details (ErrorBody_new InvalidConfig (refusal_display r)).

Definition resolve_named (model : string) (effort : option EffortLevel)
  : result ResolvedModelEffort ModelEffortRefusal :=
  match lookup_model model, effort with
  | None, None => Ok (mkResolved (Some model) None None None)
  | None, Some effort => Err (UnknownModelWithEffort model effort)
  | Some entry, None => Ok (mkResolved (Some (me_canonical entry)) None (Some entry) None)
  | Some entry, Some effort =>
      match entry_admit entry effort with
      | Some admitted =>
          Ok (mkResolved (Some (me_canonical entry)) (Some (ae_argv admitted))
                (Some entry) (Some (ae_level admitted)))
      | None =>
          if bool_decide (me_efforts entry = []) then
            Err (ModelTakesNoEffort (me_canonical entry) effort)
          else Err (EffortNotAdmitted (me_canonical entry) effort (admitted_spellings entry))
      end
  end.

Definition resolve_model_effort (model : option string) (effort : option EffortLevel)
  : result ResolvedModelEffort ModelEffortRefusal :=
  match model, effort with
  | None, Some effort => Err (EffortWithoutModel effort)
  | None, None => Ok (mkResolved None None None None)
  | Some model, effort => resolve_named model effort
  end.

Definition resolve_pool_class (model : string) (effort : option EffortLevel)
  : result (InstanceClass * ResolvedModelEffort) ModelEffortRefusal :=
  let? resolved := resolve_model_effort (Some model) effort in
  let? class := ok_or (class_of resolved) (UnknownModelForPool model) in
  Ok (class, resolved).

(** ** Lemmas *)

Definition lower (s : string) : list N := ascii_lower <$> bytes s.

Lemma eq_ignore_ascii_case_spec a b : eq_ignore_ascii_case a b = true <-> lower a = lower b.
Proof. apply bool_decide_eq_true. Qed.

(** Every spelling of an entry, lower-cased. *)
Definition spellings (e : ModelEntry) : list (list N) :=
  lower <$> (me_canonical e :: me_aliases e).

Lemma entry_matches_spec e s : entry_matches e s = true <-> lower s ∈ spellings e.
Proof.
  unfold entry_matches, spellings. rewrite orb_true_iff, existsb_exists, eq_ignore_ascii_case_spec.
  rewrite list_elem_of_fmap. setoid_rewrite elem_of_cons. split.
  - intros [H|(a & Ha & H%eq_ignore_ascii_case_spec)]; [eauto|].
    exists a. rewrite list_elem_of_In. auto.
  - intros (a & H & [->|Ha]); [auto|]. right. exists a.
    rewrite <-list_elem_of_In, eq_ignore_ascii_case_spec. auto.
Qed.

(** No spelling belongs to two rows, decided over the whole table. *)
Lemma spellings_disjoint e1 e2 s :
  e1 ∈ MODEL_TABLE -> e2 ∈ MODEL_TABLE -> s ∈ spellings e1 -> s ∈ spellings e2 -> e1 = e2.
Proof.
  assert (H : Forall (fun e1 => Forall (fun e2 => Forall (fun s => s ∈ spellings e2 -> e1 = e2)
                (spellings e1)) MODEL_TABLE) MODEL_TABLE)
    by (apply (bool_decide_unpack _); vm_compute; exact I).
  rewrite Forall_forall in H. intros H1 H2 Hs.
  specialize (H _ H1). rewrite Forall_forall in H. specialize (H _ H2).
  rewrite Forall_forall in H. by apply H.
Qed.

Lemma lookup_model_Some s e : lookup_model s = Some e <-> e ∈ MODEL_TABLE /\ entry_matches e s = true.
Proof.
  split; [apply (find_first_Some (fun e => entry_matches e s))|]. intros [Hin Hm].
  destruct (lookup_model s) as [e'|] eqn:E.
  - apply (find_first_Some (fun e => entry_matches e s)) in E as [Hin' Hm']. f_equal.
    apply entry_matches_spec in Hm, Hm'. eauto using spellings_disjoint.
  - pose proof (proj1 (find_first_None (fun e => entry_matches e s) _) E e Hin) as H.
    simpl in H. congruence.
Qed.

(** Facts of the table, decided once: a tier's argv token is its one spelling. *)
Lemma table_tiers e a : e ∈ MODEL_TABLE -> a ∈ me_efforts e -> ae_argv a = effort_as_str (ae_level a).
Proof.
  assert (H : Forall (fun e => Forall (fun a => ae_argv a = effort_as_str (ae_level a))
                (me_efforts e)) MODEL_TABLE)
    by (apply (bool_decide_unpack _); vm_compute; exact I).
  rewrite Forall_forall in H. intros He. specialize (H e He).
  rewrite Forall_forall in H. auto.
Qed.

Lemma class_effort_level_spelling m lvl acc :
  class_effort_level (mkInstanceClass m (Some (effort_as_str lvl)) acc) = Some lvl.
Proof. by destruct lvl. Qed.

Lemma entry_admit_spec e lvl a : e ∈ MODEL_TABLE -> entry_admit e lvl = Some a ->
  a ∈ me_efforts e /\ ae_level a = lvl /\ ae_argv a = effort_as_str lvl.
Proof.
  intros He [Ha Hl%bool_decide_eq_true]%find_first_Some.
  split_and!; [done|done|]. rewrite <-Hl. eauto using table_tiers.
Qed.

Lemma canonical_self e : e ∈ MODEL_TABLE -> lookup_model (me_canonical e) = Some e.
Proof.
  intros He. apply lookup_model_Some. split; [done|]. apply entry_matches_spec.
  unfold spellings. apply list_elem_of_fmap. exists (me_canonical e). split; [done|].
  apply elem_of_cons. auto.
Qed.

Lemma lookup_model_case s s' : lower s = lower s' -> lookup_model s = lookup_model s'.
Proof.
  intros H. apply option_eq. intros e. by rewrite !lookup_model_Some, !entry_matches_spec, H.
Qed.

(** What [resolve_pool_class] grants, entry by entry. *)
Lemma resolve_pool_class_entry e eff m :
  lookup_model m = Some e ->
  resolve_pool_class m eff =
    match eff with
    | None => Ok (mkInstanceClass (me_canonical e) None AccountName_DEFAULT,
                  mkResolved (Some (me_canonical e)) None (Some e) None)
    | Some lvl =>
        match entry_admit e lvl with
        | Some a => Ok (mkInstanceClass (me_canonical e) (Some (ae_argv a)) AccountName_DEFAULT,
                        mkResolved (Some (me_canonical e)) (Some (ae_argv a)) (Some e) (Some (ae_level a)))
        | None => Err (if bool_decide (me_efforts e = []) then ModelTakesNoEffort (me_canonical e) lvl
                       else EffortNotAdmitted (me_canonical e) lvl (admitted_spellings e))
        end
    end.
Proof.
  intros H. unfold resolve_pool_class, resolve_model_effort, resolve_named. rewrite H.
  destruct eff as [lvl|]; simpl; [|done].
  destruct (entry_admit e lvl); simpl; [done|]. by case_bool_decide.
Qed.

Lemma resolve_pool_class_Ok m eff c r : resolve_pool_class m eff = Ok (c, r) ->
  exists e, lookup_model m = Some e.
Proof.
  destruct (lookup_model m) as [e|] eqn:E; [eauto|].
  unfold resolve_pool_class, resolve_model_effort, resolve_named. rewrite E.
  by destruct eff.
Qed.

(** The class key is a fact about argv. When a [(model, effort)] pair is
    admitted, the class holds the canonical name of the one table row the spelling
    names and the tier's own spelling; the argv fragment it renders is exactly what
    the resolution hands to the launch; the tier published on the wire is recovered
    from the key and is the one requested; and any other spelling of that row
    (canonical, alias, any ASCII case) resolves to the same class, so two spellings
    never become two classes. *)
Theorem pool_class_is_its_argv m eff c r :
  resolve_pool_class m eff = Ok (c, r) ->
  exists e, e ∈ MODEL_TABLE /\ lower m ∈ spellings e /\
    c = mkInstanceClass (me_canonical e) (effort_as_str <$> eff) AccountName_DEFAULT /\
    (forall lvl, eff = Some lvl -> exists a, a ∈ me_efforts e /\ ae_level a = lvl) /\
    Some (class_argv c) =
      (model ← rme_model_arg r;
       Some (["--model"%string; model] ++
             match rme_effort_arg r with Some t => ["--effort"%string; t] | None => [] end)) /\
    class_effort_level c = eff /\ rme_effort_level r = eff /\
    forall m', lower m' ∈ spellings e -> resolve_pool_class m' eff = Ok (c, r).
Proof.
  intros Hr. destruct (resolve_pool_class_Ok _ _ _ _ Hr) as [e He].
  pose proof He as [Hin Hm%entry_matches_spec]%lookup_model_Some.
  assert (Hall : forall m', lower m' ∈ spellings e -> resolve_pool_class m' eff = Ok (c, r)).
  { intros m' Hm'. rewrite <-Hr, !(resolve_pool_class_entry e); try done.
    apply lookup_model_Some. split; [done|]. by apply entry_matches_spec. }
  exists e. split; [done|]. split; [done|].
  rewrite (resolve_pool_class_entry e) in Hr by done.
  destruct eff as [lvl|]; simpl in Hr.
  - destruct (entry_admit e lvl) as [a|] eqn:Ha; [|by case_bool_decide].
    destruct (entry_admit_spec _ _ _ Hin Ha) as (Hae & Hl & Hs).
    injection Hr as <- <-. rewrite Hs, Hl in *. simpl.
    split_and!; [done|by intros ? [= <-]; eauto|done| |done|done].
    apply class_effort_level_spelling.
  - injection Hr as <- <-. split_and!; done.
Qed.

Lemma pool_class_is_its_argv_witness :
  resolve_pool_class "OPUS" (Some XHigh) = resolve_pool_class "claude-opus-5-5" (Some XHigh).
Proof.
  destruct (resolve_pool_class "claude-opus-5-5" (Some XHigh)) as [[c r]|x] eqn:E;
    [|vm_compute in E; discriminate E].
  destruct (pool_class_is_its_argv _ _ _ _ E) as (e & He & Hs & Hc & _ & _ & _ & _ & H).
  apply H. replace e with (mkModelEntry "claude-opus-5-5" ["opus"; "opus-5-5"; "opus-5.5"] EFFORTS_ALL).
  - apply (bool_decide_unpack _). vm_compute. exact I.
  - apply (spellings_disjoint _ _ (lower "claude-opus-5-5"));
      [apply (bool_decide_unpack _); vm_compute; exact I|done
      |apply (bool_decide_unpack _); vm_compute; exact I|done].
Defined.

(** Every pair the pool cannot honestly run is refused, with the reason that
    applies and as [InvalidConfig], never retryable: an unknown model (with or
    without a tier), a model that takes no tier, and a tier the model does not
    admit, which names exactly the tiers it does. *)
Theorem pool_class_refusals m eff x :
  resolve_pool_class m eff = Err x ->
  eb_code (refusal_into_error_body x) = InvalidConfig /\
  eb_retryable (refusal_into_error_body x) = false /\
  match lookup_model m, eff with
  | None, None => x = UnknownModelForPool m
  | None, Some lvl => x = UnknownModelWithEffort m lvl
  | Some e, None => False
  | Some e, Some lvl =>
      (forall a, a ∈ me_efforts e -> ae_level a <> lvl) /\
      x = if bool_decide (me_efforts e = []) then ModelTakesNoEffort (me_canonical e) lvl
          else EffortNotAdmitted (me_canonical e) lvl (admitted_spellings e)
  end.
Proof.
  intros Hr. split; [done|]. split; [done|].
  destruct (lookup_model m) as [e|] eqn:He.
  - rewrite (resolve_pool_class_entry e) in Hr by done.
    destruct eff as [lvl|]; [|done].
    destruct (entry_admit e lvl) as [a|] eqn:Ha; [done|]. injection Hr as <-.
    split; [|done]. intros a Hin Hl.
    pose proof (proj1 (find_first_None _ _) Ha a Hin) as Hf.
    cbv beta in Hf. by rewrite bool_decide_eq_true_2 in Hf.
  - unfold resolve_pool_class, resolve_model_effort, resolve_named in Hr. rewrite He in Hr.
    destruct eff; simpl in Hr; congruence.
Qed.

Lemma pool_class_refusals_witness :
  eb_code (refusal_into_error_body
    (EffortNotAdmitted "claude-opus-4-5" XHigh ["low"; "medium"; "high"]%string)) = InvalidConfig.
Proof.
  assert (H : resolve_pool_class "opus-4.5" (Some XHigh) =
    Err (EffortNotAdmitted "claude-opus-4-5" XHigh ["low"; "medium"; "high"]%string))
    by (vm_compute; reflexivity).
  exact (proj1 (pool_class_refusals _ _ _ H)).
Defined.
