(* ===== verification/Refusal.v ===== *)
(** * What the pool refuses with ([crates/service/src/pool/refusal.rs])

    The census of live instances a capacity refusal prints, and the refusal
    constructors themselves, message and details included. *)

From S2P Require Import Prelude Text Protocol Account Class Machine.

Record BucketCounts := mkBucketCounts {
  bc_serving : N;
  bc_clearing : N;
  bc_idle : N;
  bc_leased : N;
  bc_reserved : N;
  bc_tearing_down : N;
  bc_released : N;
}.

Definition BucketCounts_default : BucketCounts := mkBucketCounts 0 0 0 0 0 0 0.

Definition incr (n : N) : N := saturating_add U32_MAX n 1.

Definition bc_record (c : BucketCounts) (s : InstanceState) : BucketCounts :=
  let '(mkBucketCounts sv cl id le re te rl) := c in
  match census_bucket s with
  | BServing => mkBucketCounts (incr sv) cl id le re te rl
  | BClearing => mkBucketCounts sv (incr cl) id le re te rl
  | BIdle => mkBucketCounts sv cl (incr id) le re te rl
  | BLeased => mkBucketCounts sv cl id (incr le) re te rl
  | BReserved => mkBucketCounts sv cl id le (incr re) te rl
  | BTearingDown => mkBucketCounts sv cl id le re (incr te) rl
  | BReleased => mkBucketCounts sv cl id le re te (incr rl)
  end.

Definition sat32 (a b : N) : N := saturating_add U32_MAX a b.

Definition bc_live (c : BucketCounts) : N :=
  sat32 (sat32 (sat32 (sat32 (sat32 (bc_serving c) (bc_clearing c)) (bc_idle c))
    (bc_leased c)) (bc_reserved c)) (bc_tearing_down c).

Definition bucket_phrase (b : CensusBucket) : string :=
  match b with
  | BServing => "serving a turn"
  | BClearing => "clearing between turns, with no caller waiting"
  | BIdle => "idle"
  | BLeased => "holding a conversation lease"
  | BReserved => "reserved or warming"
  | BTearingDown => "in teardown"
  | BReleased => "holding no slot"
  end.

Definition bc_clauses (c : BucketCounts) : list (CensusBucket * N * string) :=
  [(BServing, bc_serving c, bucket_phrase BServing);
   (BClearing, bc_clearing c, bucket_phrase BClearing);
   (BIdle, bc_idle c, bucket_phrase BIdle);
   (BLeased, bc_leased c, bucket_phrase BLeased);
   (BReserved, bc_reserved c, bucket_phrase BReserved);
   (BTearingDown, bc_tearing_down c, bucket_phrase BTearingDown)].

Definition bc_coming_back (c : BucketCounts) : N :=
  foldl sat32 0
    ((fun x => snd (fst x))
       <$> filter (fun x => comes_back_on_its_own (fst (fst x)) = true) (bc_clauses c)).

Record PoolPressure := mkPoolPressure {
  configured_instances : N;
  usable_instances : N;
  pp_counts : BucketCounts;
  pp_leaked : N;
}.

Definition pp_coming_back (p : PoolPressure) : N := bc_coming_back (pp_counts p).

Definition pp_details (p : PoolPressure) (viol : string) (requested : InstanceClass)
    (waited_ms : N) : json :=
  jobj [("violation", JStr viol);
        ("budget_instances", JNum (usable_instances p));
        ("configured_instances", JNum (configured_instances p));
        ("live", JNum (bc_live (pp_counts p)));
        ("in_flight", JNum (bc_serving (pp_counts p)));
        ("clearing", JNum (bc_clearing (pp_counts p)));
        ("idle", JNum (bc_idle (pp_counts p)));
        ("leased", JNum (bc_leased (pp_counts p)));
        ("reserved", JNum (bc_reserved (pp_counts p)));
        ("tearing_down", JNum (bc_tearing_down (pp_counts p)));
        ("leaked", JNum (pp_leaked p));
        ("admission_wait_ms", JNum waited_ms);
        ("requested_class",
          jobj [("model", JStr (canonical_model requested));
                ("effort", opt_jstr (effort_argv requested))])]%string.

Definition pp_census (p : PoolPressure) : string :=
  (let leaked :=
     if (pp_leaked p =? 0)%N then EmptyString
     else ", against " +:+ pretty (configured_instances p) +:+ " configured before "
          +:+ pretty (pp_leaked p) +:+ " slot(s) leaked permanently" in
   let clauses :=
     join ", " ((fun x => pretty (snd (fst x)) +:+ " " +:+ snd x) <$> bc_clauses (pp_counts p)) in
   pretty (bc_live (pp_counts p)) +:+ " of " +:+ pretty (usable_instances p)
   +:+ " usable instance(s) are live -- " +:+ clauses +:+ leaked)%string.

Definition pool_exhausted (p : PoolPressure) (requested : InstanceClass) (waited_ms : N) : ErrorBody :=
  (let waited :=
     if (waited_ms =? 0)%N then "no slot was on its way back, so none was waited for"
     else "no slot came back in the " +:+ pretty waited_ms +:+ " ms this turn waited for one" in
   advising
     ("retry this turn: nothing is queued, so a slot is only reached by asking for it again. If every turn is refused here, restart pmuxd with --pool-size above the "
      +:+ pretty (configured_instances p) +:+ " this pool was given (refused above 15)")
     (with_details (pp_details p "pool_exhausted" requested waited_ms)
        (retryable true
           (ErrorBody_new SessionBusy
              ("the stateless pool has no instance available for this turn: " +:+ pp_census p
               +:+ ", and no slot is free; " +:+ waited +:+ "; nothing is queued")))))%string.

Definition reclaimed_slot_leaked (p : PoolPressure) (requested : InstanceClass) (waited_ms : N) : ErrorBody :=
  (advising
     "retry this turn: it is refused about one slot and the rest of the pool is unaffected. The lost slot does not come back on its own -- restart pmuxd to recover it"
     (with_details (pp_details p "reclaimed_slot_leaked" requested waited_ms)
        (retryable true
           (ErrorBody_new SessionBusy
              ("the stateless pool slot this turn evicted an instance from could not be proven reaped, so it is permanently subtracted rather than reused: "
               +:+ pp_census p +:+ "; nothing is queued")))))%string.

Definition session_surface_removed : ErrorBody :=
  (advising
     "start pmuxd with --pool-parent, --pool-claude, and --messages-bind for harnesses, or use pmux ask / run_stateless"
     (with_details (jobj [("violation", JStr "session_surface_removed")])
        (ErrorBody_new UnsupportedFeature
           "interactive sessions are not part of this product: send POST /v1/messages with x-pmux-conversation, or call pmux ask / run_stateless")))%string.

Definition path_b_not_enabled : ErrorBody :=
  (advising
     "restart pmuxd with --pool-parent DIR --pool-claude /absolute/path/to/claude"
     (with_details (jobj [("violation", JStr "path_b_not_enabled")])
        (ErrorBody_new UnsupportedFeature
           "the stateless token engine is not enabled on this daemon: it is off unless pmuxd was started with --pool-parent, and restarting pmuxd with --pool-parent DIR and --pool-claude PATH is what enables it")))%string.

(** [RepromotionTrigger::ClearScreenOrPreambleMismatch], of [compatibility.rs]. *)
Definition clear_mismatch_id : string := "clear_screen_or_preamble_mismatch".
Definition clear_mismatch_how : string :=
  "the transcript `/clear` opened is not the preamble measured at driver_io.rs's MAX_ASSERT_EMPTY_ROWS/MAX_ASSERT_EMPTY_USER_ROWS block. The stateless pool HALTS on it rather than quarantining one instance, because every instance is typing into the same composer. Re-promote against the installed Claude Code version and restart pmuxd; no retry clears a halt.".

Definition pool_halted (viol : string) : ErrorBody :=
  (advising clear_mismatch_how
     (with_details (jobj [("violation", JStr viol); ("repromotion_trigger", JStr clear_mismatch_id)])
        (ErrorBody_new SchemaDrift
           "the stateless pool has halted: pmux's model of the installed Claude's post-/clear preamble no longer matches it")))%string.

(** The double quote, which a literal of this development cannot hold. *)
Definition dq : string := String (Ascii.ascii_of_N 34) EmptyString.

Definition sidechain_on_toolless_cell (rows : N) : ErrorBody :=
  (advising
     ("do not retry this prompt: the next instance is launched the same way and answers the same way. Restart pmuxd with --pool-retain-dir DIR, reproduce, and read the retained transcript -- a sidechain row on a cell launched with --disallowedTools "
      +:+ dq +:+ "*" +:+ dq +:+ " means the tool surface pmux denied is reachable, which is a finding and not a bad turn")
     (with_details (jobj [("violation", JStr "sidechain_row_on_toolless_cell"); ("sidechain_rows", JNum rows)])
        (ErrorBody_new SchemaDrift
           "the stateless turn's transcript carried a sidechain row on a cell whose tool surface is denied")))%string.

Definition sidechain_rows_not_counted : ErrorBody :=
  (advising
     "do not retry: the same host answers `None` again. This is a pmux build whose stateless host cannot count a transcript's sidechain rows, so upgrade pmuxd rather than the prompt"
     (with_details (jobj [("violation", JStr "sidechain_rows_not_counted")])
        (ErrorBody_new UnsupportedFeature
           "the stateless host committed a turn without counting the transcript's sidechain rows, so the tool-surface isolation claim could not be checked")))%string.

Definition daemon_shutting_down : ErrorBody :=
  (advising
     "retry against the replacement daemon once its socket accepts connections: this one is draining and will refuse every remaining turn"
     (retryable true (ErrorBody_new DaemonLost "the stateless pool is shutting down")))%string.

(** ** Lemmas *)

(** The number of states a bucket counts. *)
Definition bucket_count (b : CensusBucket) (l : list InstanceState) : nat :=
  length (filter (fun s => census_bucket s = b) l).

Definition bc_get (b : CensusBucket) (c : BucketCounts) : N :=
  match b with
  | BServing => bc_serving c
  | BClearing => bc_clearing c
  | BIdle => bc_idle c
  | BLeased => bc_leased c
  | BReserved => bc_reserved c
  | BTearingDown => bc_tearing_down c
  | BReleased => bc_released c
  end.

Lemma bc_get_record b c s :
  bc_get b (bc_record c s) = if decide (census_bucket s = b) then incr (bc_get b c) else bc_get b c.
Proof. destruct c, s, b; reflexivity. Qed.

Lemma bc_get_foldl b l c :
  bc_get b c + N.of_nat (length l) <= U32_MAX ->
  bc_get b (foldl bc_record c l) = bc_get b c + N.of_nat (bucket_count b l).
Proof.
  revert c. induction l as [|s l IH]; intros c H; simpl in *; [unfold bucket_count; simpl; lia|].
  unfold bucket_count in *. rewrite filter_cons.
  rewrite IH; rewrite bc_get_record; unfold incr, saturating_add; case_decide; simpl; lia.
Qed.

Lemma bucket_count_total l :
  length l = (bucket_count BServing l + bucket_count BClearing l + bucket_count BIdle l
    + bucket_count BLeased l + bucket_count BReserved l + bucket_count BTearingDown l
    + bucket_count BReleased l)%nat.
Proof.
  unfold bucket_count. induction l as [|s l IH]; [done|].
  rewrite !filter_cons. destruct s; simpl; lia.
Qed.

Lemma bucket_count_released l :
  (forall s, s ∈ l -> counts_against_pool s = true) -> bucket_count BReleased l = 0%nat.
Proof.
  unfold bucket_count. induction l as [|s l IH]; intros H; [done|].
  rewrite filter_cons.
  assert (counts_against_pool s = true) as Hs by (apply H, elem_of_cons; auto).
  rewrite decide_False by (destruct s; simpl in *; congruence).
  apply IH. intros s' Hs'. apply H, elem_of_cons; auto.
Qed.

(** The census of a whole pool, as [PoolState::buckets] computes it. *)
Definition census_of (l : list InstanceState) : BucketCounts := foldl bc_record BucketCounts_default l.

Lemma census_get b l : N.of_nat (length l) <= U32_MAX ->
  bc_get b (census_of l) = N.of_nat (bucket_count b l).
Proof. intros H. unfold census_of. rewrite bc_get_foldl; by destruct b. Qed.

(** A capacity refusal accounts for every slot it counts: over any pool whose
    instances all hold a slot, the [live] figure is the number of instances, the
    six printed clauses add up to it, and the number a refused caller waits on is
    exactly the number of instances whose state leaves itself with no caller's
    help. *)
Theorem census_adds_up l :
  N.of_nat (length l) <= U32_MAX ->
  (forall s, s ∈ l -> counts_against_pool s = true) ->
  bc_live (census_of l) = N.of_nat (length l) /\
  foldr (fun x n => snd (fst x) + n) 0 (bc_clauses (census_of l)) = N.of_nat (length l) /\
  bc_coming_back (census_of l) =
    N.of_nat (length (filter (fun s => comes_back_on_its_own (census_bucket s) = true) l)).
Proof.
  intros Hlen Hcount.
  pose proof (bucket_count_total l) as Htot. rewrite (bucket_count_released l Hcount) in Htot.
  pose proof (fun b => census_get b l Hlen) as G.
  assert (Hback : length (filter (fun s => comes_back_on_its_own (census_bucket s) = true) l)
    = (bucket_count BClearing l + bucket_count BTearingDown l)%nat).
  { clear. unfold bucket_count. induction l as [|s l IH]; [done|].
    rewrite !filter_cons. destruct s; simpl; lia. }
  rewrite Hback.
  pose proof (G BServing); pose proof (G BClearing); pose proof (G BIdle); pose proof (G BLeased);
    pose proof (G BReserved); pose proof (G BTearingDown). simpl in *.
  unfold bc_live, bc_coming_back; simpl. unfold sat32, saturating_add. lia.
Qed.

Lemma census_adds_up_witness :
  bc_live (census_of [Clearing; Idle; CheckedOut; Destroying]) = 4.
Proof.
  apply (census_adds_up [Clearing; Idle; CheckedOut; Destroying]); [done|].
  intros s Hs. repeat (apply elem_of_cons in Hs as [->|Hs]; [done|]). by apply elem_of_nil in Hs.
Defined.
