(* ===== verification/Config.v ===== *)
(** * Pool configuration ([crates/service/src/pool/config.rs])

    Operator settings, their validation into the configuration the pool runs
    under, and the interface [ConfigOk] of what a validated configuration
    promises: the pool's own theorems are proved against that interface. *)

From S2P Require Import Prelude Text Protocol Account Class.

Definition MAX_POOL_SIZE : N := 15.
Definition DEFAULT_POOL_SIZE : N := 15.
Definition DEFAULT_RECYCLE_TURNS : N := 50.
Definition MAX_RECYCLE_TURNS : N := 250.
Definition MAX_SYSTEM_PROMPT_BYTES : N := 512.
Definition DEFAULT_SYSTEM_PROMPT : list N := text_of "The user message is the entire instruction.".
Definition DEFAULT_INSTANCE_IDLE_TTL_MS : N := 300000.
Definition ADMISSION_WAIT_CEILING_MS : N := 2500.
Definition ADMISSION_POLL_MS : N := 5.
Definition RSS_CEILING_MB_PER_INSTANCE : N := 1024.

Record AccountSetting := mkAccountSetting { as_name : string; as_pin : string }.

Record WarmClassSetting := mkWarmClassSetting {
  ws_model : string;
  ws_effort : option EffortLevel;
  ws_account : AccountName;
  ws_count : N;
}.

Record WarmClass := mkWarmClass { wc_class : InstanceClass; wc_count : N }.

Record PoolSettings := mkPoolSettings {
  ps_pool_size : N;
  ps_recycle_turns : N;
  ps_system_prompt : list N;
  ps_instance_idle_ttl_ms : N;
  ps_turn_timeout_ms : N;
  ps_parent_dir : Path;
  ps_claude_executable : Path;
  ps_securestorage_dir : string;
  ps_accounts : list AccountSetting;
  ps_retain_dir : option Path;
  ps_evidence_dir : option Path;
  ps_warm_set : list WarmClassSetting;
  ps_rss_budget_mb : N;
}.

Definition settings_defaults (parent_dir claude_executable : Path) : PoolSettings := {|
  ps_pool_size := DEFAULT_POOL_SIZE;
  ps_recycle_turns := DEFAULT_RECYCLE_TURNS;
  ps_system_prompt := DEFAULT_SYSTEM_PROMPT;
  ps_instance_idle_ttl_ms := DEFAULT_INSTANCE_IDLE_TTL_MS;
  ps_turn_timeout_ms := 600000;
  ps_parent_dir := parent_dir;
  ps_claude_executable := claude_executable;
  ps_securestorage_dir := EmptyString;
  ps_accounts := [];
  ps_retain_dir := None;
  ps_evidence_dir := None;
  ps_warm_set := [];
  ps_rss_budget_mb := DEFAULT_POOL_SIZE * RSS_CEILING_MB_PER_INSTANCE;
|}.

Inductive ConfigField :=
| ParentDir | ClaudeExecutable | SecurestorageDir | RetainDir | EvidenceDir.

Inductive ConfigRefusal :=
| PoolSizeOutOfRange (requested maximum : N)
| RecycleTurnsOutOfRange (requested maximum : N)
| EmptySystemPrompt
| SystemPromptTooLarge (bytes maximum : N)
| SystemPromptControlCharacter (codepoint : N)
| RelativePath (field : ConfigField) (path : Path)
| DirInsidePoolParent (field : ConfigField) (directory parent_dir : Path)
| ZeroIdleTtl
| ZeroTurnTimeout
| ZeroWarmCount (model : string)
| WarmClassNotAdmitted (model : string) (refusal : ModelEffortRefusal)
| DuplicateWarmClass (class : string)
| WarmSetExceedsPool (declared pool_size : N)
| RssBudgetTooSmall (pool_size required_mb budget_mb : N)
| DuplicateAccountName (name : string)
| DuplicateAccountPin (name : string)
| DefaultAccountPinConflict (account_pin securestorage_dir : string)
| UnknownWarmAccount (name : string)
| InvalidAccountName (name : string)
| RelativeAccountPin (name : string) (path : Path).

Record PoolConfig := mkPoolConfig {
  pool_size : N;
  recycle_turns : N;
  system_prompt : list N;
  system_prompt_fingerprint : N;
  instance_idle_ttl_ms : N;
  turn_timeout_ms : N;
  parent_dir : Path;
  claude_executable : Path;
  securestorage_dir : string;
  accounts : list ConfiguredAccount;
  retain_dir : option Path;
  evidence_dir : option Path;
  warm_set : list WarmClass;
}.

(** [From<AccountNameError> for ConfigRefusal]. *)
Definition refusal_of_account_error (e : AccountNameError) : ConfigRefusal :=
  match e with InvalidName name => InvalidAccountName name end.

(** [starts_with('/')] and [contains('\0')]. *)
Definition starts_with_slash (s : string) : bool :=
  match bytes s with 47 :: _ => true | _ => false end.
Definition contains_nul (s : string) : bool := existsb (fun b => b =? 0) (bytes s).

Definition validate_account_pin (name : AccountName) (pin : string) : result string ConfigRefusal :=
  if bool_decide (pin = EmptyString) then Ok EmptyString
  else if negb (starts_with_slash pin) || contains_nul pin
  then Err (RelativeAccountPin (account_as_str name) (path_from pin))
  else Ok pin.

(** The loop of [resolve_accounts]: [accounts] grows at the back; the name and pin
    sets are the ones already declared. *)
Fixpoint resolve_accounts_loop (declared : list AccountSetting) (default_pin : string)
    (accounts : list ConfiguredAccount) (has_default : bool)
  : result (list ConfiguredAccount * bool) ConfigRefusal :=
  match declared with
  | [] => Ok (accounts, has_default)
  | setting :: rest =>
      let? name := map_err refusal_of_account_error (account_parse (as_name setting)) in
      let? pin := validate_account_pin name (as_pin setting) in
      if bool_decide (name ∈ ca_name <$> accounts)
      then Err (DuplicateAccountName (account_as_str name))
      else if bool_decide (pin ∈ ca_pin <$> accounts)
      then Err (DuplicateAccountPin (account_as_str name))
      else if is_default name && negb (bool_decide (pin = default_pin))
      then Err (DefaultAccountPinConflict pin default_pin)
      else resolve_accounts_loop rest default_pin
             (accounts ++ [mkConfiguredAccount name pin]) (has_default || is_default name)
  end.

Definition resolve_accounts (declared : list AccountSetting) (default_pin : string)
  : result (list ConfiguredAccount) ConfigRefusal :=
  let? '(accounts, has_default) := resolve_accounts_loop declared default_pin [] false in
  if has_default then Ok accounts
  else if bool_decide (default_pin ∈ ca_pin <$> accounts)
  then Err (DuplicateAccountPin (account_as_str AccountName_DEFAULT))
  else Ok (mkConfiguredAccount AccountName_DEFAULT default_pin :: accounts).

Fixpoint resolve_warm_set_loop (declared : list WarmClassSetting) (size : N)
    (accounts : list ConfiguredAccount) (resolved : list WarmClass) (total : N)
  : result (list WarmClass * N) ConfigRefusal :=
  match declared with
  | [] => Ok (resolved, total)
  | setting :: rest =>
      if ws_count setting =? 0 then Err (ZeroWarmCount (ws_model setting))
      else if negb (existsb (fun a => bool_decide (ca_name a = ws_account setting)) accounts)
      then Err (UnknownWarmAccount (account_as_str (ws_account setting)))
      else
        let? '(class, _) :=
          map_err (WarmClassNotAdmitted (ws_model setting))
            (resolve_pool_class (ws_model setting) (ws_effort setting)) in
        let class := with_account (ws_account setting) class in
        if existsb (fun warm => bool_decide (wc_class warm = class)) resolved
        then Err (DuplicateWarmClass (class_display class))
        else
          let? total := ok_or (checked_add U32_MAX total (ws_count setting))
                          (WarmSetExceedsPool U32_MAX size) in
          resolve_warm_set_loop rest size accounts
            (resolved ++ [mkWarmClass class (ws_count setting)]) total
  end.

Definition resolve_warm_set (declared : list WarmClassSetting) (size : N)
    (accounts : list ConfiguredAccount) : result (list WarmClass) ConfigRefusal :=
  let? '(resolved, total) := resolve_warm_set_loop declared size accounts [] 0 in
  if size <? total then Err (WarmSetExceedsPool total size) else Ok resolved.

Definition bad_prompt_char (c : N) : bool :=
  (c =? 0) || (is_control c && negb (c =? 10) && negb (c =? 9)).

Definition validate_system_prompt (prompt : list N) : result unit ConfigRefusal :=
  if bool_decide (prompt = []) then Err EmptySystemPrompt
  else if MAX_SYSTEM_PROMPT_BYTES <? text_len prompt
  then Err (SystemPromptTooLarge (text_len prompt) MAX_SYSTEM_PROMPT_BYTES)
  else match find_first bad_prompt_char prompt with
       | Some offending => Err (SystemPromptControlCharacter offending)
       | None => Ok tt
       end.

Definition require_absolute (path : Path) (field : ConfigField) : result unit ConfigRefusal :=
  if path_absolute path then Ok tt else Err (RelativePath field path).

(** FNV-1a, 64 bits. *)
Definition FNV_OFFSET : N := 14695981039346656037.
Definition FNV_PRIME : N := 1099511628211.
Definition fingerprint (prompt : list N) : N :=
  foldl (fun hash byte => wrapping_mul (U64_MAX + 1) (N.lxor hash byte) FNV_PRIME)
    FNV_OFFSET (utf8_encode prompt).

(** The loop over the two evidence directories. *)
Definition validate_outside_dir (parent : Path) (field : ConfigField) (dir : option Path)
  : result unit ConfigRefusal :=
  match dir with
  | None => Ok tt
  | Some directory =>
      let? _ := require_absolute directory field in
      if path_starts_with directory parent
      then Err (DirInsidePoolParent field directory parent)
      else Ok tt
  end.

Definition validate (s : PoolSettings) : result PoolConfig ConfigRefusal :=
  if (ps_pool_size s =? 0) || (MAX_POOL_SIZE <? ps_pool_size s)
  then Err (PoolSizeOutOfRange (ps_pool_size s) MAX_POOL_SIZE)
  else if (ps_recycle_turns s =? 0) || (MAX_RECYCLE_TURNS <? ps_recycle_turns s)
  then Err (RecycleTurnsOutOfRange (ps_recycle_turns s) MAX_RECYCLE_TURNS)
  else
    let? _ := validate_system_prompt (ps_system_prompt s) in
    let? _ := require_absolute (ps_parent_dir s) ParentDir in
    let? _ := require_absolute (ps_claude_executable s) ClaudeExecutable in
    if negb (bool_decide (ps_securestorage_dir s = EmptyString))
       && (negb (starts_with_slash (ps_securestorage_dir s)) || contains_nul (ps_securestorage_dir s))
    then Err (RelativePath SecurestorageDir (path_from (ps_securestorage_dir s)))
    else
      let? accounts := resolve_accounts (ps_accounts s) (ps_securestorage_dir s) in
      let? _ := validate_outside_dir (ps_parent_dir s) RetainDir (ps_retain_dir s) in
      let? _ := validate_outside_dir (ps_parent_dir s) EvidenceDir (ps_evidence_dir s) in
      if ps_instance_idle_ttl_ms s =? 0 then Err ZeroIdleTtl
      else if ps_turn_timeout_ms s =? 0 then Err ZeroTurnTimeout
      else
        let required_mb := ps_pool_size s * RSS_CEILING_MB_PER_INSTANCE in
        if ps_rss_budget_mb s <? required_mb
        then Err (RssBudgetTooSmall (ps_pool_size s) required_mb (ps_rss_budget_mb s))
        else
          let? warm := resolve_warm_set (ps_warm_set s) (ps_pool_size s) accounts in
          Ok {| pool_size := ps_pool_size s;
                recycle_turns := ps_recycle_turns s;
                system_prompt := ps_system_prompt s;
                system_prompt_fingerprint := fingerprint (ps_system_prompt s);
                instance_idle_ttl_ms := ps_instance_idle_ttl_ms s;
                turn_timeout_ms := ps_turn_timeout_ms s;
                parent_dir := ps_parent_dir s;
                claude_executable := ps_claude_executable s;
                securestorage_dir := ps_securestorage_dir s;
                accounts := accounts;
                retain_dir := ps_retain_dir s;
                evidence_dir := ps_evidence_dir s;
                warm_set := warm |}.

Definition pin_for (c : PoolConfig) (account : AccountName) : option string :=
  ca_pin <$> find_first (fun configured => bool_decide (ca_name configured = account)) (accounts c).

Definition has_account (c : PoolConfig) (account : AccountName) : bool :=
  match pin_for c account with Some _ => true | None => false end.

Definition warm_floor (c : PoolConfig) (class : InstanceClass) : N :=
  match find_first (fun warm => bool_decide (wc_class warm = class)) (warm_set c) with
  | Some warm => wc_count warm
  | None => 0
  end.

Definition declared_warm_total (c : PoolConfig) : N :=
  foldl (fun total warm => saturating_add U32_MAX total (wc_count warm)) 0 (warm_set c).

Definition effective_deadline_ms (c : PoolConfig) (now_ms : N) (requested : option N) : N :=
  let ceiling := saturating_add U64_MAX now_ms (turn_timeout_ms c) in
  match requested with
  | Some deadline => N.min deadline ceiling
  | None => ceiling
  end.

(** ** What a validated configuration promises *)

Definition warm_total (l : list WarmClass) : N := foldr (fun w n => wc_count w + n) 0 l.

Class ConfigOk (c : PoolConfig) : Prop := {
  co_pool_size : 1 <= pool_size c <= MAX_POOL_SIZE;
  co_recycle_turns : 1 <= recycle_turns c <= MAX_RECYCLE_TURNS;
  co_prompt_len : system_prompt c <> [] /\ text_len (system_prompt c) <= MAX_SYSTEM_PROMPT_BYTES;
  co_prompt_chars : forall x, x ∈ system_prompt c -> bad_prompt_char x = false;
  co_fingerprint : system_prompt_fingerprint c = fingerprint (system_prompt c);
  co_ttl : 0 < instance_idle_ttl_ms c;
  co_timeout : 0 < turn_timeout_ms c;
  co_parent : path_absolute (parent_dir c) = true;
  co_retain : forall d, retain_dir c = Some d -> path_starts_with d (parent_dir c) = false;
  co_evidence : forall d, evidence_dir c = Some d -> path_starts_with d (parent_dir c) = false;
  co_account_names : NoDup (ca_name <$> accounts c);
  co_account_pins : NoDup (ca_pin <$> accounts c);
  co_default_account : pin_for c AccountName_DEFAULT = Some (securestorage_dir c);
  co_warm_classes : NoDup (wc_class <$> warm_set c);
  co_warm_accounts : forall w, w ∈ warm_set c -> has_account c (class_account (wc_class w)) = true;
  co_warm_counts : forall w, w ∈ warm_set c -> 1 <= wc_count w;
  co_warm_fits : warm_total (warm_set c) <= pool_size c;
}.

(** ** Lemmas *)

(** What holds of the accounts declared so far. *)
Record accounts_inv (default_pin : string) (l : list ConfiguredAccount) (has_default : bool) : Prop := {
  ai_names : NoDup (ca_name <$> l);
  ai_pins : NoDup (ca_pin <$> l);
  ai_default : has_default = true <-> AccountName_DEFAULT ∈ ca_name <$> l;
  ai_default_pin : forall a, a ∈ l -> ca_name a = AccountName_DEFAULT -> ca_pin a = default_pin;
}.

Lemma accounts_inv_nil p : accounts_inv p [] false.
Proof. split; [constructor|constructor| |]; intros; set_solver. Qed.

Lemma accounts_inv_snoc p l hd a :
  accounts_inv p l hd -> ca_name a ∉ ca_name <$> l -> ca_pin a ∉ ca_pin <$> l ->
  (is_default (ca_name a) = true -> ca_pin a = p) ->
  accounts_inv p (l ++ [a]) (hd || is_default (ca_name a)).
Proof.
  intros [Hn Hp Hd Hdp] Hna Hpa Hpin. unfold is_default in *.
  split; rewrite ?fmap_app, ?orb_true_iff, ?bool_decide_eq_true in *; simpl.
  - apply NoDup_app. split_and!; [done|set_solver|apply NoDup_singleton].
  - apply NoDup_app. split_and!; [done|set_solver|apply NoDup_singleton].
  - rewrite Hd. set_solver.
  - intros x [?| ->%list_elem_of_singleton]%elem_of_app Hx; [auto|].
    apply Hpin. by rewrite <-Hx.
Qed.

Lemma resolve_accounts_loop_ok declared p acc hd res hd' :
  resolve_accounts_loop declared p acc hd = Ok (res, hd') ->
  accounts_inv p acc hd -> accounts_inv p res hd'.
Proof.
  revert acc hd. induction declared as [|s rest IH]; intros acc hd H Hinv; simpl in H; res_inv.
  - by injection H as <- <-.
  - eapply IH; [exact H|].
    apply (accounts_inv_snoc p acc hd (mkConfiguredAccount _ _)); simpl; auto.
    + by apply bool_decide_eq_false in G.
    + by apply bool_decide_eq_false in G0.
    + intros Hd. rewrite Hd in G1. simpl in G1.
      apply negb_false_iff, bool_decide_eq_true in G1. done.
Qed.

Lemma resolve_accounts_ok declared p res :
  resolve_accounts declared p = Ok res ->
  accounts_inv p res true.
Proof.
  unfold resolve_accounts. intros H. res_inv.
  - subst. eapply resolve_accounts_loop_ok; [done|apply accounts_inv_nil].
  - subst. destruct (resolve_accounts_loop_ok _ _ _ _ _ _ H0 (accounts_inv_nil p)) as [Hn Hp Hd Hdp].
    apply bool_decide_eq_false in G0.
    split; simpl.
    + apply NoDup_cons. split; [|done]. intros Hin%Hd. done.
    + apply NoDup_cons. done.
    + split; [|done]. intros _. apply elem_of_cons. auto.
    + intros a [->|Ha]%elem_of_cons; [done|auto].
Qed.

Lemma pin_for_has c a : has_account c a = true <-> a ∈ ca_name <$> accounts c.
Proof.
  unfold has_account, pin_for. rewrite list_elem_of_fmap.
  destruct (find_first _ (accounts c)) as [x|] eqn:E; simpl.
  - apply find_first_Some in E as [? ?%bool_decide_eq_true]. naive_solver.
  - split; [done|]. intros (x & -> & Hx).
    pose proof (proj1 (find_first_None _ _) E x Hx) as Hf. cbv beta in Hf.
    by rewrite bool_decide_eq_true_2 in Hf.
Qed.

(** The warm set as declared so far. *)
Record warm_inv (accs : list ConfiguredAccount) (l : list WarmClass) (total : N) : Prop := {
  wi_classes : NoDup (wc_class <$> l);
  wi_accounts : forall w, w ∈ l -> class_account (wc_class w) ∈ ca_name <$> accs;
  wi_counts : forall w, w ∈ l -> 1 <= wc_count w;
  wi_total : warm_total l = total;
}.

Lemma warm_total_app l1 l2 : warm_total (l1 ++ l2) = warm_total l1 + warm_total l2.
Proof. induction l1 as [|w l1 IH]; simpl; [done|]. rewrite IH. lia. Qed.

Lemma resolve_warm_set_loop_ok declared size accs res total res' total' :
  resolve_warm_set_loop declared size accs res total = Ok (res', total') ->
  warm_inv accs res total -> warm_inv accs res' total'.
Proof.
  revert res total. induction declared as [|s rest IH]; intros res total H Hinv; simpl in H; res_inv.
  - by injection H as <- <-.
  - destruct Hinv as [Hc Ha Hn Ht]. eapply IH; [exact H|].
    apply checked_add_Some in H1 as [-> _].
    apply negb_false_iff, existsb_exists in G0 as (a & Hin & Heq%bool_decide_eq_true).
    assert (with_account (ws_account s) i ∉ wc_class <$> res) as Hfresh.
    { intros (w & Hw & Hwin)%list_elem_of_fmap.
      assert (existsb (fun warm => bool_decide (wc_class warm = with_account (ws_account s) i)) res = true).
      { apply existsb_exists. exists w. split; [by apply list_elem_of_In|].
        by apply bool_decide_eq_true. }
      congruence. }
    split.
    + rewrite fmap_app. apply NoDup_app. split_and!; [done|set_solver|apply NoDup_singleton].
    + intros w [?| ->%list_elem_of_singleton]%elem_of_app; [auto|]. simpl.
      rewrite <-Heq. apply list_elem_of_fmap_2, list_elem_of_In, Hin.
    + intros w [?| ->%list_elem_of_singleton]%elem_of_app; [auto|]. simpl.
      apply N.eqb_neq in G. lia.
    + rewrite warm_total_app, Ht. simpl. lia.
Qed.

Lemma validate_outside_dir_ok parent f d :
  validate_outside_dir parent f d = Ok tt ->
  forall p, d = Some p -> path_absolute p = true /\ path_starts_with p parent = false.
Proof.
  destruct d as [p|]; simpl; [|done]. unfold require_absolute. intros H. res_inv.
  intros ? [= <-]. done.
Qed.

Lemma validate_system_prompt_ok p :
  validate_system_prompt p = Ok tt ->
  (p <> [] /\ text_len p <= MAX_SYSTEM_PROMPT_BYTES) /\ forall x, x ∈ p -> bad_prompt_char x = false.
Proof.
  unfold validate_system_prompt. intros H. res_inv.
  apply bool_decide_eq_false in G. apply N.ltb_ge in G0.
  destruct (find_first bad_prompt_char p) eqn:E; [done|].
  split; [done|]. by apply find_first_None.
Qed.

Lemma find_account_pin l a :
  NoDup (ca_name <$> l) -> a ∈ l ->
  find_first (fun x => bool_decide (ca_name x = ca_name a)) l = Some a.
Proof.
  induction l as [|b l IH]; intros Hnd Hin; [by apply elem_of_nil in Hin|].
  simpl in *. apply NoDup_cons in Hnd as [Hb Hnd].
  apply elem_of_cons in Hin as [->|Hin]; [by rewrite bool_decide_eq_true_2|].
  rewrite bool_decide_eq_false_2; [auto|]. intros Heq. apply Hb. rewrite Heq.
  by apply list_elem_of_fmap_2.
Qed.

(** [PoolSettings::validate] is sound: the configuration it returns satisfies
    every bound the pool relies on (pool size 1 to 15, recycle cap 1 to 250, a
    non-empty prompt of at most 512 bytes with no control character but newline and
    tab, positive TTL and timeout, evidence directories outside the pool parent),
    its accounts have distinct names and distinct pins with the default account on
    the daemon's own pin, and its warm classes are distinct, on configured accounts,
    and fit the pool together. *)
Theorem validate_sound s c : validate s = Ok c -> ConfigOk c.
Proof.
  unfold validate. intros H. res_inv. subst c.
  apply orb_false_iff in G as [G%N.eqb_neq G'%N.ltb_ge].
  apply orb_false_iff in G0 as [G0%N.eqb_neq G0'%N.ltb_ge].
  repeat match goal with u : unit |- _ => destruct u end.
  match goal with H : validate_system_prompt _ = _ |- _ => apply validate_system_prompt_ok in H as [? ?] end.
  match goal with H : resolve_accounts _ _ = _ |- _ => apply resolve_accounts_ok in H as [Hn Hp Hd Hdp] end.
  match goal with H : resolve_warm_set _ _ _ = _ |- _ => unfold resolve_warm_set in H; res_inv; subst end.
  match goal with H : resolve_warm_set_loop _ _ _ _ _ = _ |- _ =>
    apply resolve_warm_set_loop_ok in H as [Wc Wa Wn Wt]; [|split; [constructor|set_solver|set_solver|done]] end.
  match goal with H : require_absolute _ ParentDir = _ |- _ => unfold require_absolute in H; res_inv end.
  repeat match goal with H : (_ =? 0) = false |- _ => apply N.eqb_neq in H end.
  split; simpl; try done; try lia.
  - intros d Hr. eapply (fun H => proj2 (validate_outside_dir_ok _ _ _ H d Hr)); eassumption.
  - intros d Hr. eapply (fun H => proj2 (validate_outside_dir_ok _ _ _ H d Hr)); eassumption.
  - destruct (proj1 (list_elem_of_fmap _ _ _) (proj1 Hd eq_refl)) as (a & Ha & Hin).
    unfold pin_for; simpl. rewrite Ha, find_account_pin by done. simpl. f_equal. auto.
  - intros w Hw. apply pin_for_has. simpl. auto.
  - rewrite Wt. by apply N.ltb_ge.
Qed.

Lemma validate_sound_witness :
  exists c, validate (settings_defaults (path_from "/pool") (path_from "/bin/claude")) = Ok c
            /\ ConfigOk c.
Proof.
  destruct (validate (settings_defaults (path_from "/pool") (path_from "/bin/claude")))
    as [c|x] eqn:E; [|vm_compute in E; discriminate E].
  exists c. split; [reflexivity|]. exact (validate_sound _ _ E).
Defined.

(** A turn's deadline only ever shortens: it is at most the one the caller
    asked for, at most [turn_timeout_ms] from now, never past the u64 range, and
    exactly the caller's when that one is the earlier. *)
Theorem effective_deadline_bounds c now requested :
  now <= U64_MAX ->
  let d := effective_deadline_ms c now requested in
  d <= now + turn_timeout_ms c /\ d <= U64_MAX /\
  (forall r, requested = Some r ->
     d <= r /\ (r <= N.min (now + turn_timeout_ms c) U64_MAX -> d = r)) /\
  (requested = None -> d = N.min (now + turn_timeout_ms c) U64_MAX).
Proof.
  intros Hnow. unfold effective_deadline_ms, saturating_add. destruct requested as [r|]; simpl.
  - split_and!; [lia|lia| |done]. intros r' [= <-]. lia.
  - split_and!; [lia|lia|done|lia].
Qed.

Lemma effective_deadline_bounds_witness :
  exists c, validate (settings_defaults (path_from "/pool") (path_from "/bin/claude")) = Ok c /\
    effective_deadline_ms c 1000 None <= 1000 + turn_timeout_ms c.
Proof.
  destruct (validate (settings_defaults (path_from "/pool") (path_from "/bin/claude")))
    as [c|x] eqn:E; [|vm_compute in E; discriminate E].
  exists c. split; [reflexivity|].
  exact (proj1 (effective_deadline_bounds c 1000 None ltac:(unfold U64_MAX; lia))).
Defined.
