(* ===== verification/Instance.v ===== *)
(** * One pool instance ([crates/service/src/pool/instance.rs])

    Its identity, the three paths it owns, the record the pool keeps of it and the
    per-state invariants checked after every transition. [InstanceHandle] is from
    [crates/service/src/pool/host.rs]. *)

From S2P Require Import Prelude Text Protocol Account Class Machine.

Abbreviation SlotId := N (only parsing).
Abbreviation Epoch := N (only parsing).

Record SlotPaths := mkSlotPaths {
  epoch_dir : Path;
  root : Path;
  cwd : Path;
  pid_file : Path;
}.

#[global] Instance SlotPaths_eq_dec : EqDecision SlotPaths.
Proof. solve_decision. Defined.

Definition SlotPaths_new (parent : Path) (slot : SlotId) (epoch : Epoch) : SlotPaths :=
  let epoch_dir := path_join (path_join parent (pretty slot)) (pretty epoch) in
  {| epoch_dir := epoch_dir;
     root := path_join epoch_dir "root";
     cwd := path_join epoch_dir "cwd";
     pid_file := path_join epoch_dir "pid" |}.

(** The ancestors of a leaf strictly below [parent], innermost first, or [None]
    when the walk never meets [parent]. *)
Fixpoint walk_up (parent : Path) (ancestors : list Path) : option (list Path) :=
  match ancestors with
  | [] => None
  | a :: rest =>
      if bool_decide (a = parent) then Some []
      else up ← walk_up parent rest; Some (a :: up)
  end.

(** Push every directory that is not held yet. *)
Definition push_missing (chain : list Path) (dirs : list Path) : list Path :=
  foldl (fun held d => if bool_decide (d ∈ held) then held else held ++ [d]) chain dirs.

Definition minted_dirs (p : SlotPaths) (parent : Path) : option (list Path) :=
  foldl (fun acc leaf =>
           chain ← acc;
           upwards ← walk_up parent (path_ancestors leaf);
           Some (push_missing chain (reverse upwards)))
    (Some []) [root p; cwd p].

Record InstanceHandle := mkInstanceHandle {
  session_id : N;
  generation_id : N;
  pid : option Z;
  claude_version : string;
}.

#[global] Instance InstanceHandle_eq_dec : EqDecision InstanceHandle.
Proof. solve_decision. Defined.

Record Instance := mkInstance {
  slot : SlotId;
  epoch : Epoch;
  class : InstanceClass;
  prompt_fingerprint : N;
  paths : SlotPaths;
  handle : option InstanceHandle;
  mint_in_flight : bool;
  turns_started : N;
  idle_since_ms : N;
  state : InstanceState;
  last_transition : option Transition;
  was_quarantined : bool;
  conversation_id : option string;
}.

Definition reserved (slot : SlotId) (epoch : Epoch) (class : InstanceClass) (paths : SlotPaths)
    (prompt_fingerprint : N) : Instance := {|
  slot := slot;
  epoch := epoch;
  class := class;
  prompt_fingerprint := prompt_fingerprint;
  paths := paths;
  handle := None;
  mint_in_flight := false;
  turns_started := 0;
  idle_since_ms := 0;
  state := INITIAL;
  last_transition := None;
  was_quarantined := false;
  conversation_id := None;
|}.

Inductive InvariantViolation :=
| IdleWithoutProof (slot : SlotId) (last_transition : option Transition)
| IdleAtOrPastRecycleCap (slot : SlotId) (turns_started recycle_turns : N)
| IdleUnderStalePrompt (slot : SlotId)
| MissingHandle (slot : SlotId) (state : InstanceState)
| ReservationWithHandle (slot : SlotId)
| InFlightWithoutCheckout (slot : SlotId) (state : InstanceState)
| LeasedWithoutConversation (slot : SlotId)
| ConversationOnEmptyInstance (slot : SlotId) (state : InstanceState).

Definition opt_transition_debug (t : option Transition) : string :=
  match t with
  | Some t => "Some(" +:+ transition_name t +:+ ")"
  | None => "None"
  end%string.

Definition violation_display (v : InvariantViolation) : string :=
  match v with
  | IdleWithoutProof slot last =>
      "slot " +:+ pretty slot +:+ " is idle after " +:+ opt_transition_debug last
      +:+ ", which carries no emptiness proof"
  | IdleAtOrPastRecycleCap slot turns cap =>
      "slot " +:+ pretty slot +:+ " is idle at " +:+ pretty turns +:+ " of " +:+ pretty cap
      +:+ " turns and should have been recycled"
  | IdleUnderStalePrompt slot =>
      "slot " +:+ pretty slot +:+ " is idle under a system prompt the daemon no longer holds"
  | MissingHandle slot s =>
      "slot " +:+ pretty slot +:+ " is " +:+ state_name s +:+ " with no process handle"
  | ReservationWithHandle slot =>
      "slot " +:+ pretty slot +:+ " holds a process handle while still only reserved"
  | InFlightWithoutCheckout slot s =>
      "slot " +:+ pretty slot +:+ " is " +:+ state_name s +:+ " without having counted a checkout"
  | LeasedWithoutConversation slot =>
      "slot " +:+ pretty slot +:+ " is leased with no conversation id"
  | ConversationOnEmptyInstance slot s =>
      "slot " +:+ pretty slot +:+ " is " +:+ state_name s +:+ " but still names a conversation"
  end%string.

(** The per-state invariants; the first violated one is returned. *)
Definition check_invariants (i : Instance) (recycle_turns live_fingerprint : N)
  : result unit InvariantViolation :=
  match state i with
  | Reserved =>
      if bool_decide (is_Some (handle i)) then Err (ReservationWithHandle (slot i))
      else if bool_decide (is_Some (conversation_id i))
      then Err (ConversationOnEmptyInstance (slot i) (state i))
      else Ok tt
  | Warming | Quarantined | Destroying | Leaked | Retired => Ok tt
  | Idle =>
      if negb (match last_transition i with Some t => is_proof_carrying t | None => false end)
      then Err (IdleWithoutProof (slot i) (last_transition i))
      else if negb (bool_decide (is_Some (handle i))) then Err (MissingHandle (slot i) (state i))
      else if recycle_turns <=? turns_started i
      then Err (IdleAtOrPastRecycleCap (slot i) (turns_started i) recycle_turns)
      else if negb (prompt_fingerprint i =? live_fingerprint)
      then Err (IdleUnderStalePrompt (slot i))
      else if bool_decide (is_Some (conversation_id i))
      then Err (ConversationOnEmptyInstance (slot i) (state i))
      else Ok tt
  | Leased =>
      if negb (bool_decide (is_Some (handle i))) then Err (MissingHandle (slot i) (state i))
      else if turns_started i =? 0 then Err (InFlightWithoutCheckout (slot i) (state i))
      else if negb (bool_decide (is_Some (conversation_id i)))
      then Err (LeasedWithoutConversation (slot i))
      else Ok tt
  | CheckedOut | Delivering =>
      if negb (bool_decide (is_Some (handle i))) then Err (MissingHandle (slot i) (state i))
      else if turns_started i =? 0 then Err (InFlightWithoutCheckout (slot i) (state i))
      else Ok tt
  | Clearing =>
      if negb (bool_decide (is_Some (handle i))) then Err (MissingHandle (slot i) (state i))
      else if turns_started i =? 0 then Err (InFlightWithoutCheckout (slot i) (state i))
      else if bool_decide (is_Some (conversation_id i))
      then Err (ConversationOnEmptyInstance (slot i) (state i))
      else Ok tt
  end.

(** ** Lemmas *)

(** The invariants as a proposition, state by state. *)
Definition inst_ok (i : Instance) (cap fp : N) : Prop :=
  match state i with
  | Reserved => handle i = None /\ conversation_id i = None
  | Warming | Quarantined | Destroying | Leaked | Retired => True
  | Idle =>
      (exists t, last_transition i = Some t /\ is_proof_carrying t = true) /\
      is_Some (handle i) /\ turns_started i < cap /\ prompt_fingerprint i = fp /\
      conversation_id i = None
  | Leased => is_Some (handle i) /\ 0 < turns_started i /\ is_Some (conversation_id i)
  | CheckedOut | Delivering => is_Some (handle i) /\ 0 < turns_started i
  | Clearing => is_Some (handle i) /\ 0 < turns_started i /\ conversation_id i = None
  end.

(** Read the guards of [check_invariants] as propositions. *)
Ltac guards :=
  repeat match goal with
  | H : context [negb _ = true] |- _ => rewrite negb_true_iff in H
  | H : context [negb _ = false] |- _ => rewrite negb_false_iff in H
  | H : bool_decide _ = true |- _ => apply bool_decide_eq_true in H
  | H : bool_decide _ = false |- _ => apply bool_decide_eq_false in H
  | H : (_ <=? _) = true |- _ => apply N.leb_le in H
  | H : (_ <=? _) = false |- _ => apply N.leb_gt in H
  | H : (_ <? _) = true |- _ => apply N.ltb_lt in H
  | H : (_ <? _) = false |- _ => apply N.ltb_ge in H
  | H : (_ =? _) = true |- _ => apply N.eqb_eq in H
  | H : (_ =? _) = false |- _ => apply N.eqb_neq in H
  | H : ~ is_Some _ |- _ => apply eq_None_not_Some in H
  end.

Lemma check_invariants_ok i cap fp : check_invariants i cap fp = Ok tt <-> inst_ok i cap fp.
Proof.
  unfold check_invariants, inst_ok. split.
  - intros H. destruct (state i); try done; res_inv; guards; split_and?; try done; try lia.
    destruct (last_transition i) as [t|]; [eauto|done].
  - intros H. destruct (state i); try done.
    + destruct H. rewrite !bool_decide_eq_false_2 by (rewrite <-eq_None_not_Some; done). done.
    + destruct H as ((t & -> & ->) & ? & ? & -> & ->). simpl.
      rewrite N.eqb_refl, !bool_decide_eq_true_2 by done. simpl.
      destruct (N.leb_spec cap (turns_started i)); [lia|]. done.
    + destruct H as (? & ?). rewrite !bool_decide_eq_true_2 by done. simpl.
      destruct (N.eqb_spec (turns_started i) 0); [lia|done].
    + destruct H as (? & ?). rewrite !bool_decide_eq_true_2 by done. simpl.
      destruct (N.eqb_spec (turns_started i) 0); [lia|done].
    + destruct H as (? & ? & ?). rewrite !bool_decide_eq_true_2 by done. simpl.
      destruct (N.eqb_spec (turns_started i) 0); [lia|done].
    + destruct H as (? & ? & ->). rewrite !bool_decide_eq_true_2 by done. simpl.
      destruct (N.eqb_spec (turns_started i) 0); [lia|done].
Qed.

Lemma pretty_epoch_dir_inj parent s e s' e' :
  epoch_dir (SlotPaths_new parent s e) = epoch_dir (SlotPaths_new parent s' e') -> s = s' /\ e = e'.
Proof.
  simpl. intros [[_ Hs]%path_join_inj He]%path_join_inj.
  by apply (inj pretty) in Hs, He.
Qed.

Lemma epoch_dir_under_parent parent s e :
  path_starts_with (epoch_dir (SlotPaths_new parent s e)) parent = true.
Proof. simpl. by do 2 apply path_starts_with_join; apply path_starts_with_refl. Qed.

Lemma walk_up_below a P rl :
  exists up, walk_up (mkPath a P) (ancestors_from a (rl ++ reverse P)) = Some up /\
    up = (fun k => mkPath a (P ++ reverse (drop k rl))) <$> seq 0 (length rl).
Proof.
  induction rl as [|x rl IH].
  - simpl. exists []. split; [|done]. destruct (reverse P) eqn:E; simpl;
      rewrite <-?E, ?reverse_involutive, ?bool_decide_eq_true_2; try done.
  - destruct IH as (up & Hup & ->). simpl. rewrite reverse_cons, reverse_app, reverse_involutive.
    rewrite bool_decide_eq_false_2.
    + rewrite Hup. simpl. eexists. split; [done|]. f_equal.
      * f_equal. by rewrite reverse_cons, app_assoc.
      * rewrite <-fmap_S_seq, <-list_fmap_compose. done.
    + intros [= H%(f_equal length)]. rewrite !length_app, length_reverse in H. simpl in H. lia.
Qed.

Lemma walk_up_contained parent l up :
  walk_up parent l = Some up -> forall d, d ∈ up -> d ∈ l /\ d <> parent.
Proof.
  revert up. induction l as [|a l IH]; simpl; [done|]. intros up.
  case_bool_decide; [intros [= <-] d Hd; by apply elem_of_nil in Hd|].
  destruct (walk_up parent l) as [up'|] eqn:E; simpl; [|done].
  intros [= <-] d [->|Hd]%elem_of_cons.
  - split; [apply elem_of_cons; auto|done].
  - destruct (IH _ eq_refl d Hd). split; [apply elem_of_cons; auto|done].
Qed.

Lemma push_missing_elem chain dirs d : d ∈ push_missing chain dirs <-> d ∈ chain \/ d ∈ dirs.
Proof.
  unfold push_missing. revert chain. induction dirs as [|x dirs IH]; intros chain; simpl; [set_solver|].
  rewrite IH. case_bool_decide; set_solver.
Qed.

Lemma push_missing_NoDup chain dirs : NoDup chain -> NoDup (push_missing chain dirs).
Proof.
  unfold push_missing. revert chain. induction dirs as [|x dirs IH]; intros chain H; simpl; [done|].
  apply IH. case_bool_decide; [done|].
  apply NoDup_app. split_and!; [done|set_solver|apply NoDup_singleton].
Qed.

Lemma push_missing_out chain d dirs :
  d ∉ chain -> push_missing chain (d :: dirs) = push_missing (chain ++ [d]) dirs.
Proof. intros H. unfold push_missing. simpl. by rewrite bool_decide_eq_false_2. Qed.

Lemma push_missing_in chain d dirs :
  d ∈ chain -> push_missing chain (d :: dirs) = push_missing chain dirs.
Proof. intros H. unfold push_missing. simpl. by rewrite bool_decide_eq_true_2. Qed.

Lemma push_two_chains P1 P2 R C :
  P2 <> P1 -> R <> P2 -> C <> P2 -> C <> R -> R <> P1 -> C <> P1 ->
  push_missing (push_missing [] [P1; P2; R]) [P1; P2; C] = [P1; P2; R; C].
Proof.
  intros.
  assert (push_missing [] [P1; P2; R] = [P1; P2; R]) as ->.
  { rewrite push_missing_out by (rewrite elem_of_nil; tauto). cbn [app].
    rewrite push_missing_out by (rewrite list_elem_of_singleton; tauto). cbn [app].
    rewrite push_missing_out by (rewrite !elem_of_cons, elem_of_nil; tauto). done. }
  rewrite push_missing_in by (rewrite !elem_of_cons; tauto).
  rewrite push_missing_in by (rewrite !elem_of_cons; tauto).
  rewrite push_missing_out by (rewrite !elem_of_cons, elem_of_nil; tauto). done.
Qed.

Lemma walk_up_slot_path parent s e leaf :
  walk_up parent (path_ancestors (path_join (epoch_dir (SlotPaths_new parent s e)) leaf)) =
  Some [path_join (epoch_dir (SlotPaths_new parent s e)) leaf;
        epoch_dir (SlotPaths_new parent s e); path_join parent (pretty s)].
Proof.
  destruct parent as [a P].
  destruct (walk_up_below a P [leaf; pretty e; pretty s]) as (up & Hup & ->).
  unfold path_ancestors. unfold path_join, SlotPaths_new, epoch_dir.
  cbn [path_absolute path_components]. unfold path_join.
  cbn [path_absolute path_components]. rewrite !reverse_app.
  etransitivity; [exact Hup|]. simpl. by rewrite <-!app_assoc.
Qed.

(** The directories of one instance are exactly the chain from the pool parent
    down to its two leaves, outermost first, each once, no intermediate level
    missing: slot directory, epoch directory, config root, working directory. And
    whatever paths are asked about, no directory outside the parent is ever named:
    every one returned is an ancestor of a leaf and none is the parent itself. *)
Theorem minted_dirs_complete_and_contained parent s e :
  minted_dirs (SlotPaths_new parent s e) parent =
    Some [path_join parent (pretty s); epoch_dir (SlotPaths_new parent s e);
          root (SlotPaths_new parent s e); cwd (SlotPaths_new parent s e)] /\
  forall p l, minted_dirs p parent = Some l ->
    NoDup l /\ forall d, d ∈ l ->
      (d ∈ path_ancestors (root p) \/ d ∈ path_ancestors (cwd p)) /\ d <> parent.
Proof.
  split.
  - unfold minted_dirs. simpl foldl. unfold root, cwd. simpl.
    rewrite !(walk_up_slot_path parent s e). cbn [mbind option_bind reverse rev_append].
    assert (forall p c, path_join p c <> p) as Hne.
    { intros [a P] c [= H%(f_equal length)]. rewrite length_app in H. simpl in H. lia. }
    set (P1 := path_join parent (pretty s)). set (P2 := path_join P1 (pretty e)).
    assert (P2 <> P1) by apply Hne. assert (path_join P2 "root" <> P2) by apply Hne.
    assert (path_join P2 "cwd" <> P2) by apply Hne.
    assert (Hlen : forall c, path_join P2 c <> P1).
    { intros c H'%(f_equal (fun p => length (path_components p))).
      unfold P2, path_join in H'. cbn [path_components] in H'.
      rewrite !length_app in H'. simpl in H'. lia. }
    assert (path_join P2 "cwd" <> path_join P2 "root") by (intros [_ ?]%path_join_inj; done).
    assert (path_join P2 "root" <> P1) by apply Hlen.
    assert (path_join P2 "cwd" <> P1) by apply Hlen.
    f_equal. by apply push_two_chains.
  - intros p l. unfold minted_dirs. simpl.
    destruct (walk_up parent (path_ancestors (root p))) as [u1|] eqn:E1; simpl; [|done].
    destruct (walk_up parent (path_ancestors (cwd p))) as [u2|] eqn:E2; simpl; [|done].
    intros [= <-]. split; [apply push_missing_NoDup, push_missing_NoDup; constructor|].
    intros d. rewrite !push_missing_elem, !elem_of_reverse.
    intros [[?%elem_of_nil|Hd]|Hd]; [done| |].
    + destruct (walk_up_contained _ _ _ E1 d Hd). auto.
    + destruct (walk_up_contained _ _ _ E2 d Hd). auto.
Qed.

Lemma minted_dirs_complete_and_contained_witness :
  exists l, minted_dirs (SlotPaths_new (path_from "/pool") 3 7) (path_from "/pool") = Some l /\ NoDup l.
Proof.
  eexists. split; [apply (minted_dirs_complete_and_contained (path_from "/pool") 3 7)|].
  apply (minted_dirs_complete_and_contained (path_from "/pool") 3 7) with
    (p := SlotPaths_new (path_from "/pool") 3 7).
  apply (minted_dirs_complete_and_contained (path_from "/pool") 3 7).
Defined.
