(* ===== verification/Composer.v ===== *)
(** * What may be typed into the composer

    [crates/claude/src/composer.rs] (the rules on a prompt and the reading of the
    rendered rows), [normalize_prompt] of [crates/claude/src/engine.rs] and
    [validate_prompt] of [crates/service/src/driver_io.rs]. A text is the list of
    its Unicode scalar values. Canonical composition comes from the crate
    [unicode-normalization] and is the variable [nfc]; what the theorems need of
    it are facts of Unicode normalization forms, stated as hypotheses where they
    are used. *)

From S2P Require Import Prelude Text Protocol.

(** ** The rules on one character *)

Definition NEWLINE : N := 10.
Definition CARRIAGE_RETURN : N := 13.

(** ['/'] and ['!']. *)
Definition COMPOSER_MODE_PREFIXES : list N := [47; 33].
(** Tab, vertical tab, form feed. *)
Definition COMPOSER_REWRITTEN_CHARACTERS : list N := [9; 11; 12].
(** The backslash. *)
Definition COMPOSER_LINE_CONTINUATION : N := 92.

Definition is_refused_wherever_it_stands (c : N) : bool := is_control c && negb (c =? NEWLINE).

Definition is_trimmed_from_the_end (c : N) : bool :=
  (is_whitespace c || (c =? 65279)) && negb (is_refused_wherever_it_stands c).

Definition composer_submitted_text (prompt : list N) : list N :=
  trim_end_matches is_trimmed_from_the_end prompt.

(** White space and the Unicode 16 general category Cf. *)
Definition is_ignorable_prompt_prefix (c : N) : bool :=
  is_whitespace c
  || (c =? 173) || in_range 1536 1541 c || (c =? 1564) || (c =? 1757) || (c =? 1807)
  || in_range 2192 2193 c || (c =? 2274) || (c =? 6158) || in_range 8203 8207 c
  || in_range 8234 8238 c || in_range 8288 8292 c || in_range 8294 8303 c || (c =? 65279)
  || in_range 65529 65531 c || (c =? 69821) || (c =? 69837) || in_range 78896 78911 c
  || in_range 113824 113827 c || in_range 119155 119162 c || (c =? 917505)
  || in_range 917536 917631 c.

(** ** Refusals *)

Inductive ComposerRefusal :=
| ModePrefix (c : N)
| RewrittenCharacter (c : N)
| LineContinuation.

#[global] Instance ComposerRefusal_eq_dec : EqDecision ComposerRefusal.
Proof. solve_decision. Defined.

Definition composer_code (r : ComposerRefusal) : string :=
  match r with
  | ModePrefix _ => "composer_mode_prefix"
  | RewrittenCharacter _ => "composer_rewritten_character"
  | LineContinuation => "composer_line_continuation"
  end.

(** One scalar value as the bytes of a [str]. *)
Definition char_str (c : N) : string :=
  String.string_of_list_ascii (Ascii.ascii_of_N <$> utf8_char c).

Definition hex_digit (d : N) : string := char_str (if d <? 10 then 48 + d else 55 + d).

(** [{:04X}] of a scalar value (at most six hexadecimal digits). *)
Definition hex4 (c : N) : string :=
  let digit n := hex_digit ((c / n) mod 16) in
  let above (n : N) (s : string) : string := if n <=? c then s else EmptyString in
  (above 1048576 (digit 1048576) +:+ above 65536 (digit 65536)
   +:+ digit 4096 +:+ digit 256 +:+ digit 16 +:+ digit 1)%string.

Definition composer_explain (r : ComposerRefusal) : string :=
  match r with
  | ModePrefix c =>
      if (c =? 47)%N then "a prompt whose first character is `/` opens the composer's command menu, so Enter would select a command instead of sending the prompt; slash commands require a future typed control API."
      else if (c =? 33)%N then "a prompt whose first character is `!` switches the composer into bash mode, so Enter would RUN THE REST AS A SHELL COMMAND on the host instead of sending it to the model."
      else "a prompt whose first character is `" +:+ char_str c
           +:+ "` switches the composer into a mode, so Enter would not send the prompt to the model."
  | RewrittenCharacter c =>
      if (c =? 9)%N then "a prompt containing a tab (U+0009) is recorded by the composer as four spaces, so the turn pmux typed could never be acknowledged and the instance would be destroyed proving it."
      else if (c =? 11)%N then "a prompt containing a vertical tab (U+000B) is recorded by the composer as the two characters `^K`, so the turn pmux typed could never be acknowledged and the instance would be destroyed proving it."
      else if (c =? 12)%N then "a prompt containing a form feed (U+000C) is recorded by the composer as the two characters `^L`, so the turn pmux typed could never be acknowledged and the instance would be destroyed proving it."
      else "a prompt containing U+" +:+ hex4 c
           +:+ " is rewritten by the composer, so the turn pmux typed could never be acknowledged."
  | LineContinuation =>
      "a prompt whose last character is `" +:+ char_str COMPOSER_LINE_CONTINUATION
      +:+ "` is read by the composer as a line continuation, so Enter would INSERT A NEWLINE instead of sending the prompt: the turn would never be submitted and would run to its deadline, destroying the instance."
  end%string.

Definition composer_remedy (r : ComposerRefusal) : string :=
  match r with
  | ModePrefix c =>
      if (c =? 47)%N then "Put a word before it, or ask for the command as text."
      else if (c =? 33)%N then "Put a word before it, or escape it."
      else "Put a word before it."
  | RewrittenCharacter c =>
      if (c =? 9)%N then "Send spaces." else "Send the prompt without that character."
  | LineContinuation =>
      "Remove it -- doubling it does not escape it, and neither does a space after it, which the composer removes."
  end.

Definition composer_describe (r : ComposerRefusal) : string :=
  (composer_explain r +:+ " " +:+ composer_remedy r)%string.

Definition composer_refusal (prompt : list N) : option ComposerRefusal :=
  match head (trim_start_matches is_ignorable_prompt_prefix prompt) with
  | Some c =>
      if bool_decide (c ∈ COMPOSER_MODE_PREFIXES) then Some (ModePrefix c) else None
  | None => None
  end
  ∪
  match find_first (fun c => bool_decide (c ∈ COMPOSER_REWRITTEN_CHARACTERS)) prompt with
  | Some c => Some (RewrittenCharacter c)
  | None => None
  end
  ∪
  (if bool_decide (last (composer_submitted_text prompt) = Some COMPOSER_LINE_CONTINUATION)
   then Some LineContinuation else None).

(** ** Reading the rendered rows *)

Definition PASTE_PLACEHOLDER_OPEN : list N := text_of "[Pasted text #".

Definition collapsed_paste_placeholder (counter line_breaks : N) : list N :=
  if line_breaks =? 0 then PASTE_PLACEHOLDER_OPEN ++ text_of (pretty counter) ++ text_of "]"
  else PASTE_PLACEHOLDER_OPEN ++ text_of (pretty counter) ++ text_of " +"
       ++ text_of (pretty line_breaks) ++ text_of " lines]".

Inductive ComposerRenderProof := PromptText | CollapsedPaste.

Definition a_rendered_row_can_omit (c : N) : bool := is_ignorable_prompt_prefix c.

Fixpoint advance_past (remaining row : list N) : option (list N) :=
  match strip_prefix row remaining with
  | Some tail => Some tail
  | None =>
      match remaining with
      | [] => None
      | next :: rest => if negb (a_rendered_row_can_omit next) then None else advance_past rest row
      end
  end.

(** [str::parse::<u64>] of a run of ASCII digits. *)
Definition parse_u64_digits (digits : list N) : option N :=
  match digits with
  | [] => None
  | _ =>
      let v := foldl (fun acc d => acc * 10 + (d - 48)) 0 digits in
      if v <=? U64_MAX then Some v else None
  end.

Fixpoint take_while (p : N -> bool) (l : list N) : list N :=
  match l with
  | [] => []
  | x :: l' => if p x then x :: take_while p l' else []
  end.

Definition newline_count (t : list N) : N :=
  N.of_nat (length (List.filter (fun c => c =? NEWLINE) t)).

Definition composer_render_proof (rows : list (list N)) (prompt : list N)
  : option ComposerRenderProof :=
  match rows with
  | [] => None
  | head :: continuations =>
      let remaining :=
        foldl (fun r row => rest ← r; advance_past rest row) (strip_prefix head prompt) continuations in
      if (match remaining with Some rest => forallb a_rendered_row_can_omit rest | None => false end)
      then Some PromptText
      else match continuations with
      | _ :: _ => None
      | [] =>
          after_open ← strip_prefix PASTE_PLACEHOLDER_OPEN head;
          counter ← parse_u64_digits (take_while is_ascii_digit after_open);
          if bool_decide (head = collapsed_paste_placeholder counter (newline_count prompt))
          then Some CollapsedPaste else None
      end
  end.

(** ** Normalization and validation *)

(** [str::replace] of a carriage return and newline by a newline. *)
Fixpoint replace_crlf (t : list N) : list N :=
  match t with
  | [] => []
  | c :: rest =>
      match rest with
      | d :: rest' =>
          if (c =? CARRIAGE_RETURN) && (d =? NEWLINE) then NEWLINE :: replace_crlf rest'
          else c :: replace_crlf rest
      | [] => [c]
      end
  end.

(** [replace('\r', ...)] by a newline. *)
Definition replace_cr (t : list N) : list N :=
  (fun c => if c =? CARRIAGE_RETURN then NEWLINE else c) <$> t.

Definition DQ : list N := [34].

Definition ENVELOPE_OPEN : list N := [10; 10] ++ text_of "<pasted_content id=" ++ DQ.
Definition ENVELOPE_OPEN_END : list N := DQ ++ text_of ">" ++ [10].
Definition envelope_close (id : list N) : list N :=
  [10] ++ text_of "</pasted_content id=" ++ DQ ++ id ++ DQ ++ text_of ">" ++ [10].

Definition unwrap_pasted_content_envelope (prompt : list N) : list N :=
  match strip_prefix ENVELOPE_OPEN prompt with
  | None => prompt
  | Some rest =>
      match split_once ENVELOPE_OPEN_END rest with
      | None => prompt
      | Some (id, after_open) =>
          if bool_decide (id = []) || negb (forallb is_ascii_hexdigit (utf8_encode id)) then prompt
          else default prompt (strip_suffix (envelope_close id) after_open)
      end
  end.

Definition MAX_PROMPT_BYTES : N := 1024 * 1024.

Section Normalize.
Variable nfc : list N -> list N.

Definition normalize_prompt (prompt : list N) : list N :=
  composer_submitted_text (nfc (unwrap_pasted_content_envelope (replace_cr (replace_crlf prompt)))).

(** The failure is the [ErrorBody] its [DriverFailure] converts to. *)
Definition validate_prompt (prompt : list N) : result (list N) ErrorBody :=
  let normalized := normalize_prompt prompt in
  if bool_decide (normalized = []) then
    Err (ErrorBody_new InvalidConfig
      "prompt must not be empty; a prompt of nothing but whitespace is empty here, because the composer removes its trailing whitespace and Enter never submits what is left")
  else if MAX_PROMPT_BYTES <? text_len normalized then
    Err (ErrorBody_new InvalidConfig
      ("prompt exceeds the " +:+ pretty MAX_PROMPT_BYTES +:+ "-byte service limit")%string)
  else match composer_refusal normalized with
  | Some refusal =>
      Err (with_details
        (jobj [("violation", JStr (composer_code refusal));
               (RECOMMENDATION_KEY, JStr (composer_remedy refusal))]%string)
        (ErrorBody_new
           (match refusal with
            | ModePrefix _ => UnsupportedFeature
            | RewrittenCharacter _ | LineContinuation => InvalidConfig
            end)
           (composer_explain refusal)))
  | None =>
      if existsb (fun c => is_control c && negb (c =? NEWLINE)) normalized then
        Err (ErrorBody_new InvalidConfig "prompt contains an unsafe control character")
      else Ok normalized
  end.

End Normalize.

(** ** Lemmas *)

#[local] Arguments is_ignorable_prompt_prefix : simpl never.
#[local] Arguments is_trimmed_from_the_end : simpl never.
#[local] Arguments is_control : simpl never.

Lemma control_is_not_trimmed c : is_control c = true -> c <> NEWLINE -> is_trimmed_from_the_end c = false.
Proof.
  intros H Hne. unfold is_trimmed_from_the_end, is_refused_wherever_it_stands.
  rewrite H. destruct (N.eqb_spec c NEWLINE); [done|]. by rewrite andb_false_r.
Qed.

Lemma normalize_last_kept nfc p c :
  last (normalize_prompt nfc p) = Some c -> is_trimmed_from_the_end c = false.
Proof. unfold normalize_prompt, composer_submitted_text.
  destruct (trim_end_matches_spec is_trimmed_from_the_end
    (nfc (unwrap_pasted_content_envelope (replace_cr (replace_crlf p))))) as (? & _ & _ & H).
  apply H.
Qed.

Lemma trimmed_normal_form t :
  (forall c, last t = Some c -> is_trimmed_from_the_end c = false) -> composer_submitted_text t = t.
Proof. apply trim_end_matches_id. Qed.

(** The first character the mode rule looks at. *)
Lemma mode_character t c :
  head (trim_start_matches is_ignorable_prompt_prefix t) = Some c <->
  is_ignorable_prompt_prefix c = false /\
  exists pre post, t = pre ++ c :: post /\ forallb is_ignorable_prompt_prefix pre = true.
Proof.
  split.
  - intros H. destruct (trim_start_matches_spec is_ignorable_prompt_prefix t) as (pre & Ht & Hp & Hh).
    split; [by apply Hh|]. exists pre.
    destruct (trim_start_matches is_ignorable_prompt_prefix t) as [|d post]; [done|].
    injection H as ->. by exists post.
  - intros (Hc & pre & post & -> & Hp). induction pre as [|d pre IH];
      cbn [trim_start_matches app].
    + by rewrite Hc.
    + cbn [forallb] in Hp. apply andb_true_iff in Hp as [-> Hp]. by apply IH.
Qed.

(** What it means that the composer holds a text as typed. *)
Definition composer_accepts (t : list N) : Prop :=
  (forall pre c post, t = pre ++ c :: post -> forallb is_ignorable_prompt_prefix pre = true ->
     c ∉ COMPOSER_MODE_PREFIXES) /\
  (forall c, c ∈ t -> c ∉ COMPOSER_REWRITTEN_CHARACTERS) /\
  last (composer_submitted_text t) <> Some COMPOSER_LINE_CONTINUATION.

Lemma mode_prefix_not_ignorable c :
  c ∈ COMPOSER_MODE_PREFIXES -> is_ignorable_prompt_prefix c = false.
Proof.
  unfold COMPOSER_MODE_PREFIXES. rewrite !elem_of_cons, elem_of_nil. by intros [->|[->|[]]].
Qed.

Lemma composer_refusal_None t : composer_refusal t = None <-> composer_accepts t.
Proof.
  unfold composer_refusal, composer_accepts.
  rewrite !union_None. split.
  - intros [[H1 H2] H3]. split_and!.
    + intros pre c post Ht Hp Hin.
      assert (head (trim_start_matches is_ignorable_prompt_prefix t) = Some c) as Hh.
      { apply mode_character. split; [by apply mode_prefix_not_ignorable|by exists pre, post]. }
      rewrite Hh in H1. by rewrite bool_decide_eq_true_2 in H1.
    + intros c Hc Hin.
      destruct (find_first _ t) eqn:E; [done|].
      apply find_first_None with (x := c) in E; [|done]. by apply bool_decide_eq_false in E.
    + intros Hl. by rewrite bool_decide_eq_true_2 in H3.
  - intros (H1 & H2 & H3). split; [split|].
    + destruct (head _) as [c|] eqn:E; [|done].
      apply mode_character in E as (Hc & pre & post & Ht & Hp).
      rewrite bool_decide_eq_false_2; eauto.
    + destruct (find_first _ t) as [c|] eqn:E; [|done].
      apply find_first_Some in E as [Hin Hb]. apply bool_decide_eq_true in Hb. by apply H2 in Hin.
    + by rewrite bool_decide_eq_false_2.
Qed.

Lemma rewritten_is_control c :
  c ∈ COMPOSER_REWRITTEN_CHARACTERS -> is_control c = true /\ c <> NEWLINE.
Proof.
  unfold COMPOSER_REWRITTEN_CHARACTERS, NEWLINE. rewrite !elem_of_cons, elem_of_nil.
  by intros [->|[->|[->|[]]]].
Qed.

Lemma existsb_false {A} (p : A -> bool) l : existsb p l = false <-> forall x, x ∈ l -> p x = false.
Proof.
  induction l as [|a l IH]; simpl; [set_solver|].
  rewrite orb_false_iff, IH. setoid_rewrite elem_of_cons. naive_solver.
Qed.

(** What is enough for a prompt to be accepted, once normalized. *)
Lemma validate_prompt_accepts nfc p :
  let v := normalize_prompt nfc p in
  v <> [] /\ text_len v <= MAX_PROMPT_BYTES /\
  (forall c, c ∈ v -> is_control c = true -> c = NEWLINE) /\
  (forall pre c post, v = pre ++ c :: post -> forallb is_ignorable_prompt_prefix pre = true ->
     c ∉ COMPOSER_MODE_PREFIXES) /\
  last v <> Some COMPOSER_LINE_CONTINUATION ->
  validate_prompt nfc p = Ok v.
Proof.
  intros v (Hne & Hlen & Hctl & Hmode & Hlast). unfold validate_prompt. fold v.
  rewrite bool_decide_eq_false_2 by done.
  destruct (N.ltb_spec MAX_PROMPT_BYTES (text_len v)); [lia|].
  rewrite (proj2 (composer_refusal_None _)).
  - rewrite (proj2 (existsb_false _ _)); [done|]. intros c Hc. simpl.
    destruct (is_control c) eqn:E; [|done]. by rewrite (Hctl c Hc E).
  - split_and!; [done| |by rewrite trimmed_normal_form by apply normalize_last_kept].
    intros c Hc [Hcc Hn]%rewritten_is_control. by apply Hn, Hctl.
Qed.

(** A prompt is accepted exactly when its normalized form can be typed and
    sent: it is not empty, fits in one mebibyte, carries no control character but
    newlines, meets no mode prefix behind any run of invisible characters, and
    does not end in a backslash; what is accepted is that normalized form, and its
    last character is one the composer keeps. *)
Theorem accepted_prompt_is_submittable nfc p v :
  (validate_prompt nfc p = Ok v <->
     v = normalize_prompt nfc p /\ v <> [] /\ text_len v <= MAX_PROMPT_BYTES /\
     (forall c, c ∈ v -> is_control c = true -> c = NEWLINE) /\
     (forall pre c post, v = pre ++ c :: post -> forallb is_ignorable_prompt_prefix pre = true ->
        c ∉ COMPOSER_MODE_PREFIXES) /\
     last v <> Some COMPOSER_LINE_CONTINUATION) /\
  (validate_prompt nfc p = Ok v ->
     forall c, last v = Some c -> is_trimmed_from_the_end c = false).
Proof.
  assert (composer_submitted_text (normalize_prompt nfc p) = normalize_prompt nfc p) as Htrim.
  { apply trimmed_normal_form, normalize_last_kept. }
  unfold validate_prompt. split.
  - split.
    + case_bool_decide as Hne; [done|].
      destruct (N.ltb_spec MAX_PROMPT_BYTES (text_len (normalize_prompt nfc p))); [done|].
      destruct (composer_refusal _) eqn:E; [done|].
      apply composer_refusal_None in E as (H1 & H2 & H3).
      destruct (existsb _ _) eqn:Ec; [done|]. intros [= <-].
      rewrite Htrim in H3. split_and!; try done.
      intros c Hc Hcc. rewrite existsb_false in Ec. specialize (Ec c Hc). simpl in Ec.
      rewrite Hcc in Ec. simpl in Ec. destruct (N.eqb_spec c NEWLINE); done.
    + intros (-> & ?). by apply validate_prompt_accepts.
  - case_bool_decide; [done|]. destruct (_ <? _); [done|].
    destruct (composer_refusal _); [done|]. destruct (existsb _ _); [done|].
    intros [= <-]. apply normalize_last_kept.
Qed.

Lemma accepted_prompt_is_submittable_witness :
  is_trimmed_from_the_end 111 = false.
Proof.
  apply (proj2 (accepted_prompt_is_submittable (fun t => t) (text_of "hello  ") (text_of "hello")));
    vm_compute; reflexivity.
Defined.

Lemma replace_crlf_id t : CARRIAGE_RETURN ∉ t -> replace_crlf t = t.
Proof.
  induction t as [|c t IH]; [done|]. intros [Hc Ht]%not_elem_of_cons.
  destruct t as [|d t]; [done|]. cbn [replace_crlf].
  destruct (N.eqb_spec c CARRIAGE_RETURN); [congruence|]. cbn [andb]. f_equal. by apply IH.
Qed.

Lemma replace_cr_id t : CARRIAGE_RETURN ∉ t -> replace_cr t = t.
Proof.
  induction t as [|c t IH]; [done|]. intros [Hc Ht]%not_elem_of_cons.
  cbn. destruct (N.eqb_spec c CARRIAGE_RETURN); [congruence|]. f_equal. by apply IH.
Qed.

Lemma replace_cr_no_cr t : CARRIAGE_RETURN ∉ replace_cr t.
Proof.
  unfold replace_cr. rewrite list_elem_of_fmap. intros (c & H & _).
  destruct (N.eqb_spec c CARRIAGE_RETURN); [done|congruence].
Qed.

Lemma utf8_encode_hex id : forallb is_ascii_hexdigit id = true -> utf8_encode id = id.
Proof.
  induction id as [|c id IH]; [done|]. cbn [forallb]. intros [Hc Hid]%andb_true_iff.
  unfold utf8_encode in *. rewrite bind_cons, IH by done.
  unfold utf8_char. destruct (N.ltb_spec c 128); [done|].
  unfold is_ascii_hexdigit, is_ascii_digit in Hc.
  rewrite !orb_true_iff, !andb_true_iff, !N.leb_le in Hc. lia.
Qed.

Lemma hex_no id c : forallb is_ascii_hexdigit id = true -> is_ascii_hexdigit c = false -> c ∉ id.
Proof.
  rewrite forallb_forall. intros H Hc Hin%list_elem_of_In. rewrite (H _ Hin) in Hc. done.
Qed.

Lemma unwrap_kept_end t :
  (forall c, last t = Some c -> is_trimmed_from_the_end c = false) ->
  unwrap_pasted_content_envelope t = t.
Proof.
  intros H. unfold unwrap_pasted_content_envelope.
  destruct (strip_prefix ENVELOPE_OPEN t) as [rest|] eqn:E1; [|done].
  destruct (split_once ENVELOPE_OPEN_END rest) as [[id after]|] eqn:E2; [|done].
  destruct (_ || _); [done|].
  destruct (strip_suffix (envelope_close id) after) as [body|] eqn:E3; [|done].
  exfalso. apply strip_prefix_Some in E1. apply strip_suffix_Some in E3.
  apply split_once_Some in E2.
  assert (last t = Some NEWLINE) as Hl.
  { rewrite E1, E2, E3. unfold envelope_close. rewrite !app_assoc. by rewrite last_snoc. }
  by specialize (H _ Hl).
Qed.

Section Recorded.
Variable nfc : list N -> list N.
(** Canonical composition maps no character to a carriage return. *)
Hypothesis nfc_no_cr : forall t, CARRIAGE_RETURN ∉ t -> CARRIAGE_RETURN ∉ nfc t.
(** A prefix of a composed text is composed (UAX #15, closure under substrings). *)
Hypothesis nfc_prefix : forall t k, nfc (take k (nfc t)) = take k (nfc t).

Lemma normalize_shape p :
  exists t, normalize_prompt nfc p = composer_submitted_text (nfc t) /\ (CARRIAGE_RETURN ∉ nfc t) /\
    nfc (normalize_prompt nfc p) = normalize_prompt nfc p.
Proof.
  eexists. split_and!; [reflexivity| |].
  - apply nfc_no_cr. unfold unwrap_pasted_content_envelope.
    pose proof (replace_cr_no_cr (replace_crlf p)) as Hno. set (t := replace_cr _) in *.
    destruct (strip_prefix ENVELOPE_OPEN t) as [rest|] eqn:E1; [|done].
    destruct (split_once ENVELOPE_OPEN_END rest) as [[id after]|] eqn:E2; [|done].
    destruct (_ || _); [done|].
    destruct (strip_suffix (envelope_close id) after) as [body|] eqn:E3; [|done]. simpl.
    apply strip_prefix_Some in E1. apply strip_suffix_Some in E3. intros Hin. apply Hno.
    rewrite E1, (split_once_Some _ _ _ _ E2), E3. rewrite !elem_of_app. tauto.
  - unfold normalize_prompt, composer_submitted_text. set (u := unwrap_pasted_content_envelope _).
    destruct (trim_end_matches_spec is_trimmed_from_the_end (nfc u)) as (post & Ht & _).
    set (v := trim_end_matches _ _) in *.
    assert (v = take (length v) (nfc u)) as ->.
    { by rewrite Ht, take_app_length. }
    apply nfc_prefix.
Qed.

Lemma normalize_accepted p v :
  validate_prompt nfc p = Ok v -> composer_submitted_text (nfc v) = v /\ (CARRIAGE_RETURN ∉ v) /\
    (forall c, last v = Some c -> is_trimmed_from_the_end c = false).
Proof.
  intros H. unfold validate_prompt in H. case_bool_decide; [done|]. destruct (_ <? _); [done|].
  destruct (composer_refusal _); [done|]. destruct (existsb _ _) eqn:E; [done|].
  injection H as <-. destruct (normalize_shape p) as (t & _ & _ & Hn). rewrite Hn. split_and!.
  - apply trimmed_normal_form, normalize_last_kept.
  - intros Hin. rewrite existsb_false in E. by specialize (E _ Hin).
  - apply normalize_last_kept.
Qed.

(** What Claude records for an accepted prompt reads back as the prompt that was
    typed: recorded bare it is its own normal form, recorded inside a
    pasted-content envelope (any hexadecimal id) the envelope is taken off and
    nothing else changes. *)
Theorem recorded_prompt_reads_back p v id :
  validate_prompt nfc p = Ok v ->
  id <> [] -> forallb is_ascii_hexdigit id = true ->
  normalize_prompt nfc v = v /\
  normalize_prompt nfc (ENVELOPE_OPEN ++ id ++ ENVELOPE_OPEN_END ++ v ++ envelope_close id) = v.
Proof.
  intros (Hn & Hcr & Hl)%normalize_accepted Hne Hid. unfold normalize_prompt. split.
  - by rewrite replace_crlf_id, replace_cr_id, unwrap_kept_end.
  - assert (CARRIAGE_RETURN ∉ id) as Hic by (by eapply hex_no).
    assert (CARRIAGE_RETURN ∉ ENVELOPE_OPEN ++ id ++ ENVELOPE_OPEN_END ++ v ++ envelope_close id)
      as Hall.
    { assert (forall l : list N, bool_decide (CARRIAGE_RETURN ∈ l) = false -> CARRIAGE_RETURN ∉ l)
        as Hb by (intros l Hb%bool_decide_eq_false; done).
      unfold envelope_close. rewrite !not_elem_of_app.
      split_and!; try assumption; apply Hb; reflexivity. }
    rewrite replace_crlf_id, replace_cr_id by done.
    unfold unwrap_pasted_content_envelope.
    rewrite (proj2 (strip_prefix_Some _ _ _) eq_refl).
    change ENVELOPE_OPEN_END with (34 :: [62; 10]).
    rewrite split_once_char by (by eapply hex_no).
    rewrite bool_decide_eq_false_2, utf8_encode_hex, Hid by done. simpl.
    by rewrite (proj2 (strip_suffix_Some _ _ _) eq_refl).
Qed.
End Recorded.

Lemma recorded_prompt_reads_back_witness :
  normalize_prompt (fun t => t) (text_of "hello") = text_of "hello".
Proof.
  apply (recorded_prompt_reads_back (fun t => t) (fun t H => H) (fun t k => eq_refl)
           (text_of "hello  ") (text_of "hello") (text_of "a1")); vm_compute; congruence.
Defined.

(** The rows below the first one spell the rest of a prompt: in order, with only
    characters a row cannot show between them and after the last. *)
Inductive spells : list (list N) -> list N -> Prop :=
| spells_end gap :
    forallb a_rendered_row_can_omit gap = true -> spells [] gap
| spells_row gap row rows rest :
    forallb a_rendered_row_can_omit gap = true -> spells rows rest ->
    spells (row :: rows) (gap ++ row ++ rest).

(** A row that begins with a character the terminal draws. *)
Definition starts_drawn (row : list N) : Prop :=
  exists c row', row = c :: row' /\ a_rendered_row_can_omit c = false.

Lemma advance_past_sound remaining row tail :
  advance_past remaining row = Some tail ->
  exists gap, remaining = gap ++ row ++ tail /\ forallb a_rendered_row_can_omit gap = true.
Proof.
  induction remaining as [|c rest IH]; cbn [advance_past].
  - destruct (strip_prefix row []) eqn:E; [|done]. intros [= ->]. apply strip_prefix_Some in E.
    by exists [].
  - destruct (strip_prefix row (c :: rest)) eqn:E.
    + intros [= ->]. apply strip_prefix_Some in E. by exists [].
    + destruct (a_rendered_row_can_omit c) eqn:Ec; [|done]. cbn [negb].
      intros (gap & -> & Hg)%IH. exists (c :: gap). split; [done|]. cbn [forallb]. by rewrite Ec.
Qed.

Lemma advance_past_complete gap row tail :
  starts_drawn row -> forallb a_rendered_row_can_omit gap = true ->
  advance_past (gap ++ row ++ tail) row = Some tail.
Proof.
  intros (c & row' & -> & Hc). induction gap as [|d gap IH]; intros Hg.
  - cbn [app advance_past].
    assert (strip_prefix (c :: row') (c :: row' ++ tail) = Some tail) as ->; [|done].
    by apply strip_prefix_Some.
  - cbn [forallb] in Hg. apply andb_true_iff in Hg as [Hd Hg].
    change ((d :: gap) ++ (c :: row') ++ tail) with (d :: (gap ++ (c :: row') ++ tail)).
    cbn [advance_past strip_prefix].
    destruct (N.eqb_spec c d) as [->|]; [congruence|]. rewrite Hd. cbn [negb]. by apply IH.
Qed.

Lemma rows_fold_None rows :
  foldl (fun r row => rest ← r; advance_past rest row) None rows = None.
Proof. by induction rows. Qed.

Lemma rows_fold_sound rows : forall rest out,
  foldl (fun r row => rest ← r; advance_past rest row) (Some rest) rows = Some out ->
  forallb a_rendered_row_can_omit out = true -> spells rows rest.
Proof.
  induction rows as [|row rows IH]; intros rest out; cbn [foldl].
  - intros [= ->]. by constructor.
  - cbn [mbind option_bind]. destruct (advance_past rest row) as [tail|] eqn:E.
    + intros Hf Ho. apply advance_past_sound in E as (gap & -> & Hg). constructor; eauto.
    + by rewrite rows_fold_None.
Qed.

Lemma rows_fold_complete rows rest :
  Forall starts_drawn rows -> spells rows rest ->
  exists out, foldl (fun r row => rest ← r; advance_past rest row) (Some rest) rows = Some out /\
    forallb a_rendered_row_can_omit out = true.
Proof.
  intros Hd Hs. induction Hs as [gap Hg|gap row rows rest Hg Hs IH].
  - by exists gap.
  - apply Forall_cons in Hd as [Hrow Hd]. cbn [foldl mbind option_bind].
    rewrite advance_past_complete by done. by apply IH.
Qed.

(** *** The placeholder of a collapsed paste *)

(** The text Claude draws for a collapsed paste. *)
Definition paste_label (counter line_breaks : N) : string :=
  ("[Pasted text #" +:+ pretty counter +:+
   (if N.eqb line_breaks 0 then "]" else " +" +:+ pretty line_breaks +:+ " lines]"))%string.

Lemma placeholder_label counter line_breaks :
  collapsed_paste_placeholder counter line_breaks = text_of (paste_label counter line_breaks).
Proof.
  unfold collapsed_paste_placeholder, paste_label, PASTE_PLACEHOLDER_OPEN, text_of.
  destruct (line_breaks =? 0); by rewrite !bytes_app.
Qed.

Lemma digit_byte d : d < 10 -> Ascii.N_of_ascii (pretty_N_char d) = 48 + d.
Proof. intros Hd. destruct d as [|p]; [done|]. do 4 (destruct p as [p|p|]; try done; try lia). Qed.

Definition add_digit (acc d : N) : N := acc * 10 + (d - 48).

(** A decimal is its digits, and they read back as the number. *)
Lemma pretty_go_digits x : exists ds,
  (forall s, bytes (pretty_N_go x s) = ds ++ bytes s) /\ forallb is_ascii_digit ds = true /\ foldl add_digit 0 ds = x /\ (ds = [] -> x = 0).
Proof.
  induction (N.lt_wf_0 x) as [x _ IH]. destruct (decide (x = 0)) as [->|Hx]; [exists []; by split_and!|].
  destruct (IH (x / 10)) as (ds & Hs & Hd & Hv & _); [apply N.div_lt; lia|].
  pose proof (N.mod_lt x 10 ltac:(lia)) as Hm. exists (ds ++ [48 + x mod 10]). split_and!.
  - intros s. rewrite pretty_N_go_step, Hs, <-app_assoc by lia.
    replace (bytes (String (pretty_N_char (x mod 10)) s)) with (Ascii.N_of_ascii (pretty_N_char (x mod 10)) :: bytes s) by done.
    by rewrite digit_byte.
  - rewrite forallb_app, Hd. cbn. rewrite andb_true_r. unfold is_ascii_digit, in_range. rewrite andb_true_iff, !N.leb_le. revert Hm. generalize (x mod 10). clear. intros m Hm. lia.
  - rewrite foldl_app, Hv. cbn. unfold add_digit. rewrite (N.add_comm 48), N.add_sub, N.mul_comm. symmetry. by apply N.div_mod.
  - by intros [_ ?]%app_eq_nil.
Qed.

Lemma pretty_digits n : exists d ds,
  text_of (pretty n) = d :: ds /\ forallb is_ascii_digit (d :: ds) = true /\ foldl add_digit 0 (d :: ds) = n.
Proof.
  unfold text_of, pretty, pretty_N. destruct (decide (n = 0)) as [->|Hn]; [by exists 48, []|].
  destruct (pretty_go_digits n) as (ds & Hs & Hd & Hv & He). rewrite Hs, app_nil_r.
  destruct ds as [|d ds]; [by specialize (He eq_refl)|]. by exists d, ds.
Qed.

Lemma take_while_prefix p l rest :
  forallb p l = true -> (forall c, head rest = Some c -> p c = false) -> take_while p (l ++ rest) = l.
Proof.
  intros Hl Hr. induction l as [|c l IH]; cbn [app].
  - destruct rest as [|c rest]; [done|]. cbn. by rewrite (Hr c).
  - cbn [forallb] in Hl. apply andb_true_iff in Hl as [Hc Hl]. cbn. by rewrite Hc, IH.
Qed.

Lemma placeholder_counter counter line_breaks : counter <= U64_MAX ->
  exists after_open, strip_prefix PASTE_PLACEHOLDER_OPEN (collapsed_paste_placeholder counter line_breaks) = Some after_open /\
    parse_u64_digits (take_while is_ascii_digit after_open) = Some counter.
Proof.
  intros Hc. destruct (pretty_digits counter) as (d & ds & Ht & Hd & Hv).
  assert (Hgo : forall rest, (forall c, head rest = Some c -> is_ascii_digit c = false) ->
    parse_u64_digits (take_while is_ascii_digit (text_of (pretty counter) ++ rest)) = Some counter).
  { intros rest Hr. rewrite Ht, take_while_prefix by done. unfold parse_u64_digits.
    change (fun acc d => acc * 10 + (d - 48)) with add_digit. rewrite Hv. by apply N.leb_le in Hc as ->. }
  unfold collapsed_paste_placeholder. destruct (line_breaks =? 0);
    eexists; (split; [by apply strip_prefix_Some|]); apply Hgo; by intros c [= <-].
Qed.

(** C34. Enter is pressed only on rows that are the prompt: a prompt-text proof means
    the rows, in order, are the whole prompt with nothing but undrawable
    characters dropped at the row breaks and at the end, and every such rendering
    whose continuation rows begin with a drawn character gives one. A
    collapsed-paste proof is given exactly when there is a single row, it is exactly the
    placeholder that declares this prompt's own number of line breaks, under any 64-bit
    counter, and it is not the prompt itself. A rendering that drops an undrawable character
    inside a row is none of these and is refused. *)
Theorem render_proof_is_the_prompt head rows prompt :
  (composer_render_proof (head :: rows) prompt = Some PromptText ->
     exists rest, prompt = head ++ rest /\ spells rows rest) /\
  (forall rest, Forall starts_drawn rows -> prompt = head ++ rest -> spells rows rest ->
     composer_render_proof (head :: rows) prompt = Some PromptText) /\
  (composer_render_proof (head :: rows) prompt = Some CollapsedPaste <->
     rows = [] /\ (exists counter, counter <= U64_MAX /\ head = text_of (paste_label counter (newline_count prompt))) /\
     ~ exists rest, prompt = head ++ rest /\ spells [] rest).
Proof.
  assert (H1 : composer_render_proof (head :: rows) prompt = Some PromptText -> exists rest, prompt = head ++ rest /\ spells rows rest).
  { unfold composer_render_proof. set (out := foldl _ _ _). intros H.
    destruct out as [o|] eqn:Eo; [destruct (forallb a_rendered_row_can_omit o) eqn:Ef|].
    + subst out. destruct (strip_prefix head prompt) as [rest|] eqn:Eh; [|by rewrite rows_fold_None in Eo].
      exists rest. split; [by apply strip_prefix_Some|]. eauto using rows_fold_sound.
    + destruct rows; [|done]. destruct (strip_prefix PASTE_PLACEHOLDER_OPEN head); [|done].
      simpl in H. destruct (parse_u64_digits _); [|done]. simpl in H. by case_bool_decide.
    + destruct rows; [|done]. destruct (strip_prefix PASTE_PLACEHOLDER_OPEN head); [|done].
      simpl in H. destruct (parse_u64_digits _); [|done]. simpl in H. by case_bool_decide. }
  assert (H2 : forall rest, Forall starts_drawn rows -> prompt = head ++ rest -> spells rows rest ->
     composer_render_proof (head :: rows) prompt = Some PromptText).
  { unfold composer_render_proof. intros rest Hd Hp Hs. destruct (rows_fold_complete rows rest Hd Hs) as (o & Ho & Hf).
    rewrite (proj2 (strip_prefix_Some _ _ _) Hp), Ho, Hf. done. }
  split; [done|]. split; [done|]. split.
  - intros H. unfold composer_render_proof in H, H2. destruct (match foldl _ _ _ with Some _ => _ | None => false end); [done|].
    destruct rows; [split; [done|]|done]. split; [|intros (rest & Hp & Hs); specialize (H2 rest ltac:(done) Hp Hs); congruence].
    destruct (strip_prefix PASTE_PLACEHOLDER_OPEN head) as [t|]; [|done]. simpl in H.
    unfold parse_u64_digits in H. destruct (take_while _ _) as [|d ds]; [done|].
    destruct (N.leb_spec (foldl (fun acc d => acc * 10 + (d - 48)) 0 (d :: ds)) U64_MAX); [|done].
    simpl in H. case_bool_decide as Hh; [|done]. rewrite placeholder_label in Hh. eauto.
  - intros (-> & (counter & Hc & Hh) & Hn). unfold composer_render_proof in H1 |- *.
    destruct (match foldl _ _ _ with Some _ => _ | None => false end); [by destruct Hn; apply H1|].
    rewrite <-placeholder_label in Hh. destruct (placeholder_counter counter (newline_count prompt) Hc) as (t & Ht & Hp).
    rewrite Hh, Ht. cbn [mbind option_bind]. rewrite Hp. cbn [mbind option_bind]. by rewrite bool_decide_eq_true_2.
Qed.

Lemma render_proof_is_the_prompt_witness :
  (exists rest, text_of "hello wide world" = text_of "hello" ++ rest /\ spells [text_of "wide world"] rest) /\
  composer_render_proof [text_of "[Pasted text #6 +1 lines]"] (text_of "one" ++ NEWLINE :: text_of "two") = Some CollapsedPaste.
Proof.
  split.
  - apply (proj1 (render_proof_is_the_prompt (text_of "hello") [text_of "wide world"]
                    (text_of "hello wide world"))).
    vm_compute. reflexivity.
  - apply (render_proof_is_the_prompt (text_of "[Pasted text #6 +1 lines]") [] (text_of "one" ++ NEWLINE :: text_of "two")).
    split; [reflexivity|]. split; [exists 6; by split; vm_compute|].
    intros (rest & Hp & _). vm_compute in Hp. discriminate Hp.
Defined.
