(* ===== verification/Transcript.v ===== *)
(** * The transcript's data model

    [crates/claude/src/model.rs] and [error.rs], with [FileIdentity] of [cursor.rs]:
    the rows Claude appends to its JSONL transcript as the parser reads them, the
    logical messages, tool records and verdict the engine makes of them, and every
    failure that stops a transcript from being authoritative. Strings are the bytes
    of a Rust [String]; a prompt that is compared after normalisation is a text. *)

From S2P Require Import Prelude Text Protocol.

Inductive ParseMode : Set := Strict.

#[global] Instance ParseMode_eq_dec : EqDecision ParseMode.
Proof. solve_decision. Defined.

(** [mode == ParseMode::Strict]. *)
Definition is_strict (mode : ParseMode) : bool := bool_decide (mode = Strict).

Record SourceLocation := mkSourceLocation { line : N; byte_offset : N }.

Record FileIdentity := mkFileIdentity { device : N; inode : N }.

#[global] Instance FileIdentity_eq_dec : EqDecision FileIdentity.
Proof. solve_decision. Defined.

Inductive RowScope := Main | Sidechain | Team | Meta.

#[global] Instance RowScope_eq_dec : EqDecision RowScope.
Proof. solve_decision. Defined.

Record CommonFields := mkCommonFields {
  uuid : option string;
  parent_uuid : option string;
  session_id : option string;
  scope : RowScope;
}.

Record SystemRow := mkSystemRow { subtype : option string }.

Definition subtype_is (s : SystemRow) (name : string) : bool :=
  bool_decide (subtype s = Some name).

Definition is_proven_inert_marker (s : SystemRow) : bool :=
  subtype_is s "turn_duration" || subtype_is s "stop_hook_summary".

Definition is_retry_in_flight_marker (s : SystemRow) : bool := subtype_is s "api_error".

Definition is_admitted_on_active_chain (s : SystemRow) : bool :=
  is_proven_inert_marker s || is_retry_in_flight_marker s.

Record TokenUsage := mkTokenUsage {
  input_tokens : N;
  output_tokens : N;
  cache_creation_input_tokens : N;
  cache_read_input_tokens : N;
}.

#[global] Instance TokenUsage_eq_dec : EqDecision TokenUsage.
Proof. solve_decision. Defined.

Definition TokenUsage_default : TokenUsage := mkTokenUsage 0 0 0 0.

Record UsageSnapshot := mkUsageSnapshot { us_tokens : TokenUsage; us_raw : json }.

(** [PartialEq for UsageSnapshot]. *)
Definition usage_eqb (a b : UsageSnapshot) : bool :=
  bool_decide (us_tokens a = us_tokens b) && json_eqb (us_raw a) (us_raw b).

Record UsageTotals := mkUsageTotals { ut_tokens : TokenUsage; model_calls_with_usage : N }.

Definition UsageTotals_default : UsageTotals := mkUsageTotals TokenUsage_default 0.

Inductive ContentBlock :=
| Text (text : string)
| Thinking (thinking : string)
| ToolUse (id name : string) (input : json)
| UnknownBlock (declared_type : option string) (raw : json).

Record ToolResultBlock := mkToolResultBlock {
  tool_use_id : string;
  content : json;
  is_error : option bool;
}.

(** [PartialEq for ToolResultBlock]. *)
Definition tool_result_eqb (a b : ToolResultBlock) : bool :=
  String.eqb (tool_use_id a) (tool_use_id b) && json_eqb (content a) (content b)
  && bool_decide (is_error a = is_error b).

Record AssistantFragment := mkAssistantFragment {
  message_id : option string;
  request_id : option string;
  af_model : option string;
  af_blocks : list ContentBlock;
  af_stop_reason : option string;
  af_usage : option UsageSnapshot;
  af_is_api_error : bool;
}.

Inductive RowKind :=
| TypedUser (prompt : string) (prompt_id : option string)
| UserToolResults (results : list ToolResultBlock)
| UserOther
| Assistant (fragment : AssistantFragment)
| Attachment (attachment_type : string)
| System (system : SystemRow)
| Metadata (record_type : string)
| Unknown (declared_type : option string).

Record ParsedRow := mkParsedRow {
  source : SourceLocation;
  common : CommonFields;
  kind : RowKind;
  raw : json;
}.

Definition is_metadata (k : RowKind) : bool :=
  match k with Metadata _ => true | _ => false end.

Definition is_analysis_changing (r : ParsedRow) : bool :=
  match kind r with
  | Metadata _ => false
  | Unknown _ => true
  | _ => match scope (common r) with Main | Sidechain => true | _ => false end
  end.

Definition is_turn_duration_marker (r : ParsedRow) : bool :=
  bool_decide (scope (common r) = Main)
  && match kind r with System s => subtype_is s "turn_duration" | _ => false end.

Inductive LogicalMessageKey :=
| MessageId (s : string)
| RequestId (s : string)
| RowUuid (s : string).

#[global] Instance LogicalMessageKey_eq_dec : EqDecision LogicalMessageKey.
Proof. solve_decision. Defined.

#[global] Instance LogicalMessageKey_countable : Countable LogicalMessageKey.
Proof.
  refine (inj_countable'
    (fun k => match k with
              | MessageId s => (0%nat, s) | RequestId s => (1%nat, s) | RowUuid s => (2%nat, s)
              end)
    (fun p => match p with
              | (0%nat, s) => MessageId s | (1%nat, s) => RequestId s | (_, s) => RowUuid s
              end) _).
  by intros [].
Defined.

Inductive StopReason :=
| EndTurn
| MaxTokens
| StopSequence
| ToolUseStop
| PauseTurn
| Refusal
| UnknownStop (value : string).

#[global] Instance StopReason_eq_dec : EqDecision StopReason.
Proof. solve_decision. Defined.

Definition StopReason_parse (value : string) : StopReason :=
  if String.eqb value "end_turn" then EndTurn
  else if String.eqb value "max_tokens" then MaxTokens
  else if String.eqb value "stop_sequence" then StopSequence
  else if String.eqb value "tool_use" then ToolUseStop
  else if String.eqb value "pause_turn" then PauseTurn
  else if String.eqb value "refusal" then Refusal
  else UnknownStop value.

Record LogicalAssistantMessage := mkLogicalAssistantMessage {
  lm_key : LogicalMessageKey;
  lm_row_uuids : list string;
  lm_model : option string;
  lm_blocks : list ContentBlock;
  lm_stop_reason : option StopReason;
  lm_usage : option UsageSnapshot;
  lm_is_api_error : bool;
  lm_first_ordinal : N;
  lm_last_ordinal : N;
}.

Record PromptAcknowledgement := mkPromptAcknowledgement {
  pa_row_uuid : string;
  pa_prompt_id : option string;
  pa_ordinal : N;
}.

Record ToolRecord := mkToolRecord {
  tr_tool_use_id : string;
  tr_name : string;
  tr_input : json;
  tr_result : option ToolResultBlock;
  tr_order : N;
}.

Inductive TerminalOutcome := Completed | MaxTokensReached | Refused | ApiError.

Record FinalTurn := mkFinalTurn {
  ft_outcome : TerminalOutcome;
  ft_message_key : LogicalMessageKey;
  ft_stop_reason : option StopReason;
  ft_final_text : string;
  ft_final_text_blocks : list string;
  ft_model : option string;
}.

Inductive TurnStatus :=
| AwaitingPromptAcknowledgement
| Running (latest_stop_reason : option StopReason)
| Terminal (final : FinalTurn).

Inductive EngineWarning :=
| UnknownRow (ordinal : N) (declared_type : option string)
| UnknownContentBlock (message : LogicalMessageKey) (declared_type : option string)
| ConflictingUsage (message : LogicalMessageKey)
| OrphanToolResultWarning (tool_use_id : string).

Record TranscriptAnalysis := mkTranscriptAnalysis {
  ta_status : TurnStatus;
  ta_acknowledgement : option PromptAcknowledgement;
  ta_active_chain : list string;
  ta_messages : list LogicalAssistantMessage;
  ta_tools : list ToolRecord;
  ta_usage : UsageTotals;
  ta_sidechain_usage : UsageTotals;
  ta_combined_usage : UsageTotals;
  ta_turn_duration_seen : bool;
  ta_stop_hook_summary_seen : bool;
  ta_api_error_retries_seen : N;
  ta_sidechain_rows : N;
  ta_warnings : list EngineWarning;
}.

Inductive TranscriptError :=
| CursorOffsetMismatch (expected actual : N)
| ReadBeyondObservedFile (read_end file_len : N)
| LineTooLong (bytes limit byte_offset : N)
| InvalidUtf8 (location : SourceLocation) (message : string)
| MalformedJson (location : SourceLocation) (message : string)
| SchemaDrift (row_uuid : option string) (path message : string)
| ConflictingDuplicateRow (uuid : string)
| TurnAlreadyArmed
| NoTurnArmed
| UnexpectedTypedPrompt (expected actual : list N)
| MultiplePromptAcknowledgements
| AmbiguousActiveBranches (leaf_count : N)
| ActiveRowMissingUuid (ordinal : N)
| DisconnectedActiveRow (row_uuid : string)
| ParentAppendOrder (row_uuid parent_uuid : string)
| ParentCycle (uuid : string)
| InterleavedLogicalMessage (key : LogicalMessageKey)
| LogicalMessageConflict (key : LogicalMessageKey) (field : string)
| UsageOverflow (field : string)
| DuplicateToolCall (tool_use_id : string)
| DuplicateToolResult (tool_use_id : string)
| OrphanToolResult (tool_use_id : string)
| TerminalMessageMissingText (key : LogicalMessageKey)
| FileIdentityMismatch (expected actual : FileIdentity).

(** ** Lemmas *)

(** Values serialised twice compare equal, whatever they hold. *)
Lemma float_eqb_refl n : float_eqb n n = true.
Proof. unfold float_eqb. by rewrite N.eqb_refl. Qed.

Lemma json_eqb_refl : forall j, json_eqb j j = true.
Proof.
  fix IH 1. intros [| b | n | z | f | s | l | l]; simpl.
  - done.
  - apply Bool.eqb_reflx.
  - apply N.eqb_refl.
  - apply Z.eqb_refl.
  - apply float_eqb_refl.
  - apply String.eqb_refl.
  - induction l as [|x l IHl]; [done|]. by rewrite IH.
  - induction l as [|[k x] l IHl]; [done|]. by rewrite String.eqb_refl, IH.
Qed.

Lemma tool_result_eqb_refl r : tool_result_eqb r r = true.
Proof.
  unfold tool_result_eqb. by rewrite String.eqb_refl, json_eqb_refl, bool_decide_eq_true_2.
Qed.

Lemma usage_eqb_refl u : usage_eqb u u = true.
Proof. unfold usage_eqb. by rewrite json_eqb_refl, bool_decide_eq_true_2. Qed.

Lemma inert_is_not_retry s :
  is_proven_inert_marker s = true -> is_retry_in_flight_marker s = false.
Proof.
  unfold is_proven_inert_marker, is_retry_in_flight_marker, subtype_is.
  destruct (subtype s) as [x|]; repeat case_bool_decide; naive_solver.
Qed.
