(* ===== verification/Cursor.v ===== *)
(** * Framing an appended transcript into lines

    [crates/claude/src/cursor.rs]: the cursor over Claude's append-only JSONL
    transcript. Bytes are [N]. An operation answers with the cursor it leaves behind,
    on its error paths too. *)

From S2P Require Import Prelude Transcript.

Definition MAX_TRANSCRIPT_LINE_BYTES : N := 16 * 1024 * 1024.

Record FileMetadata := mkFileMetadata { fm_identity : FileIdentity; fm_len : N }.

Inductive CursorChange :=
| Initialized
| Unchanged
| Replaced (previous current : FileIdentity)
| Truncated (previous_offset current_len : N).

Record CursorObservation := mkCursorObservation {
  co_change : CursorChange;
  read_from : N;
  read_to : N;
  co_generation : N;
}.

Record CompleteLine := mkCompleteLine { location : SourceLocation; line_text : list N }.

Record CursorUpdate := mkCursorUpdate {
  cu_lines : list CompleteLine;
  cu_next_offset : N;
  cu_pending_bytes : N;
  cu_generation : N;
}.

Record TranscriptCursor := mkTranscriptCursor {
  tc_identity : option FileIdentity;
  observed_len : N;
  next_offset : N;
  pending_offset : N;
  pending : list N;
  scan_from : nat;
  next_line_number : N;
  generation : N;
}.

Definition TranscriptCursor_new : TranscriptCursor := mkTranscriptCursor None 0 0 0 [] 0 1 0.

Definition reset_for (id : FileIdentity) (c : TranscriptCursor) : TranscriptCursor :=
  mkTranscriptCursor (Some id) (observed_len c) 0 0 [] 0 1 (saturating_add U64_MAX (generation c) 1).

Definition seek_to_eof (m : FileMetadata) (c : TranscriptCursor) : TranscriptCursor :=
  let c := reset_for (fm_identity m) c in
  mkTranscriptCursor (tc_identity c) (fm_len m) (fm_len m) (fm_len m) (pending c) (scan_from c)
    (next_line_number c) (generation c).

Definition with_observed (len : N) (c : TranscriptCursor) : TranscriptCursor :=
  mkTranscriptCursor (tc_identity c) len (next_offset c) (pending_offset c) (pending c) (scan_from c)
    (next_line_number c) (generation c).

Definition observe (m : FileMetadata) (c : TranscriptCursor) : CursorObservation * TranscriptCursor :=
  let '(change, c) :=
    match tc_identity c with
    | None => (Initialized, reset_for (fm_identity m) c)
    | Some previous =>
        if negb (bool_decide (previous = fm_identity m)) then
          (Replaced previous (fm_identity m), reset_for (fm_identity m) c)
        else if fm_len m <? next_offset c then
          (Truncated (next_offset c) (fm_len m), reset_for (fm_identity m) c)
        else (Unchanged, c)
    end in
  let c := with_observed (fm_len m) c in
  (mkCursorObservation change (next_offset c) (fm_len m) (generation c), c).

(** ** Framing *)

Definition LF : N := 10.
Definition CR : N := 13.

(** The indices of the newlines, the first byte having index [index]. *)
Fixpoint newlines (index : nat) (bytes : list N) : list nat :=
  match bytes with
  | [] => []
  | b :: rest => if b =? LF then index :: newlines (S index) rest else newlines (S index) rest
  end.

Record Framing := mkFraming {
  fr_lines : list CompleteLine;
  fr_consumed : nat;
  fr_line_number : N;
}.

(** The [for] loop of [push] over the newlines; [Some] is its early return. *)
Fixpoint frame_loop (buffer : list N) (offset : N) (at_ : list nat) (f : Framing)
  : option TranscriptError * Framing :=
  match at_ with
  | [] => (None, f)
  | newline :: rest =>
      let consumed := fr_consumed f in
      let line_end :=
        if (consumed <? newline)%nat && bool_decide (buffer !! (newline - 1)%nat = Some CR)
        then (newline - 1)%nat else newline in
      let line_bytes := N.of_nat (line_end - consumed) in
      let start := offset + N.of_nat consumed in
      if MAX_TRANSCRIPT_LINE_BYTES <? line_bytes then
        (Some (LineTooLong line_bytes MAX_TRANSCRIPT_LINE_BYTES start), f)
      else
        frame_loop buffer offset rest
          (mkFraming
             (fr_lines f ++ [mkCompleteLine (mkSourceLocation (fr_line_number f) start)
                               (take (line_end - consumed) (drop consumed buffer))])
             (S newline) (fr_line_number f + 1))
  end.

Definition push (id : FileIdentity) (read_offset : N) (bytes : list N) (c : TranscriptCursor)
  : result CursorUpdate TranscriptError * TranscriptCursor :=
  let expected := default id (tc_identity c) in
  if negb (bool_decide (expected = id)) then (Err (FileIdentityMismatch expected id), c)
  else if negb (read_offset =? next_offset c) then
    (Err (CursorOffsetMismatch (next_offset c) read_offset), c)
  else match checked_add U64_MAX read_offset (N.of_nat (length bytes)) with
  | None => (Err (ReadBeyondObservedFile U64_MAX (observed_len c)), c)
  | Some read_end =>
      if observed_len c <? read_end then (Err (ReadBeyondObservedFile read_end (observed_len c)), c)
      else
        let offset := match pending c with [] => read_offset | _ => pending_offset c end in
        let buffer := pending c ++ bytes in
        let at_ := newlines (scan_from c) (drop (scan_from c) buffer) in
        match frame_loop buffer offset at_ (mkFraming [] 0 (next_line_number c)) with
        | (Some e, f) =>
            (Err e, mkTranscriptCursor (tc_identity c) (observed_len c) read_end offset buffer
                      (scan_from c) (fr_line_number f) (generation c))
        | (None, f) =>
            let rest := drop (fr_consumed f) buffer in
            let rest_offset := offset + N.of_nat (fr_consumed f) in
            let c' := mkTranscriptCursor (tc_identity c) (observed_len c) read_end rest_offset rest
                        (length buffer - fr_consumed f)%nat (fr_line_number f) (generation c) in
            let held := N.of_nat (length rest) in
            if MAX_TRANSCRIPT_LINE_BYTES <? held then
              (Err (LineTooLong held MAX_TRANSCRIPT_LINE_BYTES rest_offset), c')
            else (Ok (mkCursorUpdate (fr_lines f) read_end held (generation c)), c')
        end
  end.

Definition has_partial_line (c : TranscriptCursor) : bool :=
  match pending c with [] => false | _ => true end.

(** ** The reference: one pass over the whole stream *)

Definition strip_cr (l : list N) : list N :=
  match last l with Some b => if b =? CR then removelast l else l | None => l end.

(** The lines of a stream, where [acc] is the part of the current line already read,
    begun at [offset]; and the unterminated rest. *)
Fixpoint frames (offset number : N) (acc bytes : list N) : list CompleteLine * list N :=
  match bytes with
  | [] => ([], acc)
  | b :: rest =>
      if b =? LF then
        let '(ls, tail) := frames (offset + N.of_nat (length acc) + 1) (number + 1) [] rest in
        (mkCompleteLine (mkSourceLocation number offset) (strip_cr acc) :: ls, tail)
      else frames offset number (acc ++ [b]) rest
  end.

(** No run of more than the limit without a newline, [k] bytes of a run being read. *)
Fixpoint runs_bounded (k : N) (bytes : list N) : bool :=
  (k <=? MAX_TRANSCRIPT_LINE_BYTES) &&
  match bytes with
  | [] => true
  | b :: rest => if b =? LF then runs_bounded 0 rest else runs_bounded (k + 1) rest
  end.

(** ** The loop computes the reference *)

Lemma strip_cr_snoc l x : strip_cr (l ++ [x]) = if x =? CR then l else l ++ [x].
Proof. unfold strip_cr. rewrite last_snoc. destruct (x =? CR); [apply removelast_last|done]. Qed.

Lemma length_strip_cr l : (length (strip_cr l) <= length l)%nat.
Proof.
  destruct l as [|x l _] using rev_ind; [done|]. rewrite strip_cr_snoc.
  destruct (x =? CR); rewrite ?length_app; lia.
Qed.

(** Where the loop cuts a line. *)
Definition line_end_of (buffer : list N) (consumed newline : nat) : nat :=
  if (consumed <? newline)%nat && bool_decide (buffer !! (newline - 1)%nat = Some CR)
  then (newline - 1)%nat else newline.

Lemma line_cut before acc rest :
  let buffer := before ++ acc ++ rest in
  let consumed := length before in
  let n := (line_end_of buffer consumed (consumed + length acc) - consumed)%nat in
  n = length (strip_cr acc) /\ take n (drop consumed buffer) = strip_cr acc.
Proof.
  cbv zeta. rewrite drop_app_length. unfold line_end_of.
  destruct acc as [|x acc _] using rev_ind.
  { cbn [length]. rewrite Nat.add_0_r, Nat.ltb_irrefl, Nat.sub_diag. done. }
  rewrite length_app, strip_cr_snoc. cbn [length].
  rewrite (proj2 (Nat.ltb_lt _ _)) by lia.
  replace (length before + (length acc + 1) - 1)%nat with (length before + length acc)%nat by lia.
  rewrite lookup_app_r by lia.
  replace (length before + length acc - length before)%nat with (length acc) by lia.
  rewrite <-(app_assoc acc), lookup_app_r, Nat.sub_diag by lia. cbn [lookup list_lookup app].
  cbn [andb]. destruct (N.eqb_spec x CR) as [->|Hne].
  - rewrite bool_decide_true by done.
    replace (length before + length acc - length before)%nat with (length acc) by lia.
    split; [done|]. by rewrite take_app_length.
  - rewrite bool_decide_false by congruence.
    replace (length before + (length acc + 1) - length before)%nat with (length (acc ++ [x]))
      by (rewrite length_app; cbn; lia).
    split; [done|]. change (x :: rest) with ([x] ++ rest). rewrite app_assoc. by rewrite take_app_length.
Qed.

Definition short (l : CompleteLine) : Prop := N.of_nat (length (line_text l)) <= MAX_TRANSCRIPT_LINE_BYTES.

Lemma frame_loop_frames todo : forall before acc off lines number,
  let buffer := before ++ acc ++ todo in
  let '(ls, tail) := frames (off + N.of_nat (length before)) number acc todo in
  let r := frame_loop buffer off (newlines (length before + length acc) todo)
             (mkFraming lines (length before) number) in
  (Forall short ls ->
   r = (None, mkFraming (lines ++ ls) (length buffer - length tail) (number + N.of_nat (length ls)))) /\
  (~ Forall short ls -> exists n at_ f, r = (Some (LineTooLong n MAX_TRANSCRIPT_LINE_BYTES at_), f) /\
     MAX_TRANSCRIPT_LINE_BYTES < n).
Proof.
  induction todo as [|b todo IH]; intros before acc off lines number; cbv zeta.
  { cbn [frames newlines frame_loop]. split; [intros _|intros []; by constructor].
    rewrite !app_nil_r, length_app, N.add_0_r. do 2 f_equal. lia. }
  cbn [frames newlines]. destruct (N.eqb_spec b LF) as [->|Hb].
  - specialize (IH (before ++ acc ++ [LF]) [] off
      (lines ++ [mkCompleteLine (mkSourceLocation number (off + N.of_nat (length before))) (strip_cr acc)])
      (number + 1)). cbv zeta in IH. cbn [app] in IH.
    rewrite !length_app in IH. cbn [length] in IH.
    replace (off + N.of_nat (length before + (length acc + 1)))
      with (off + N.of_nat (length before) + N.of_nat (length acc) + 1) in IH by lia.
    destruct (frames (off + N.of_nat (length before) + N.of_nat (length acc) + 1) (number + 1) [] todo)
      as [ls tail].
    rewrite <-!app_assoc in IH. cbn [app] in IH.
    cbn [frame_loop fr_consumed fr_lines fr_line_number].
    destruct (line_cut before acc (LF :: todo)) as [Hn Ht]. unfold line_end_of in Hn, Ht.
    rewrite Hn in *. rewrite Ht.
    destruct (N.ltb_spec MAX_TRANSCRIPT_LINE_BYTES (N.of_nat (length (strip_cr acc)))) as [Hlt|Hle].
    { split; [|by eauto 10]. intros Hall. apply Forall_cons in Hall as [Hs _].
      unfold short in Hs. cbn in Hs. lia. }
    replace (length before + (length acc + 1) + 0)%nat with (S (length before + length acc)) in IH by lia.
    replace (length before + (length acc + 1))%nat with (S (length before + length acc)) in IH by lia.
    destruct IH as [IH1 IH2]. split.
    + intros [_ Hls]%Forall_cons. rewrite (IH1 Hls). do 2 f_equal; rewrite ?length_app;
        cbn [length]; lia.
    + intros Hn'. apply IH2. intros Hls. apply Hn'. by constructor.
  - specialize (IH before (acc ++ [b]) off lines number). cbv zeta in IH.
    rewrite <-app_assoc, length_app in IH. cbn [app length] in IH.
    by replace (length before + (length acc + 1))%nat with (S (length before + length acc)) in IH by lia.
Qed.

(** ** Facts about the reference *)

Lemma frames_suffix bytes : forall off number acc,
  exists before, acc ++ bytes = before ++ snd (frames off number acc bytes).
Proof.
  induction bytes as [|b bytes IH]; intros off number acc; cbn [frames].
  { exists []. by rewrite app_nil_r. }
  destruct (b =? LF).
  - destruct (IH (off + N.of_nat (length acc) + 1) (number + 1) []) as [before E].
    destruct (frames _ _ [] bytes) as [ls tail]. cbn [snd app] in *. exists (acc ++ b :: before).
    by rewrite E, <-app_assoc.
  - destruct (IH off number (acc ++ [b])) as [before E]. exists before. by rewrite <-E, <-app_assoc.
Qed.

Lemma frames_tail_length off number acc bytes :
  (length (snd (frames off number acc bytes)) <= length acc + length bytes)%nat.
Proof.
  destruct (frames_suffix bytes off number acc) as [before E].
  rewrite <-length_app, E, length_app. lia.
Qed.

Lemma drop_to_tail off number acc bytes :
  drop (length (acc ++ bytes) - length (snd (frames off number acc bytes))) (acc ++ bytes)
  = snd (frames off number acc bytes).
Proof.
  destruct (frames_suffix bytes off number acc) as [before E]. rewrite E at 1 2.
  rewrite length_app, Nat.add_sub. apply drop_app_length.
Qed.

(** Reading a stream in two parts. *)
Lemma frames_app b1 : forall off number acc b2,
  frames off number acc (b1 ++ b2) =
  let '(l1, t1) := frames off number acc b1 in
  let '(l2, t2) := frames (off + N.of_nat (length acc + length b1) - N.of_nat (length t1))
                     (number + N.of_nat (length l1)) t1 b2 in
  (l1 ++ l2, t2).
Proof.
  induction b1 as [|b b1 IH]; intros off number acc b2; cbn [frames app].
  { cbn [length]. rewrite Nat.add_0_r, N.add_0_r. replace (off + _ - _) with off by lia.
    by destruct (frames off number acc b2). }
  destruct (b =? LF).
  - rewrite IH. pose proof (frames_tail_length (off + N.of_nat (length acc) + 1) (number + 1) [] b1) as Hl.
    destruct (frames _ (number + 1) [] b1) as [l1 t1]. cbn [snd length] in *.
    replace (off + N.of_nat (length acc) + 1 + N.of_nat (0 + length b1) - N.of_nat (length t1))
      with (off + N.of_nat (length acc + S (length b1)) - N.of_nat (length t1)) by lia.
    replace (number + 1 + N.of_nat (length l1)) with (number + N.of_nat (S (length l1))) by lia.
    by destruct (frames _ _ t1 b2).
  - rewrite IH. destruct (frames off number (acc ++ [b]) b1) as [l1 t1].
    rewrite length_app. cbn [length]. by replace (length acc + 1 + length b1)%nat
      with (length acc + S (length b1))%nat by lia.
Qed.

Lemma strip_cr_cases l : strip_cr l = l \/ l = strip_cr l ++ [CR].
Proof.
  destruct l as [|x l _] using rev_ind; [by left|]. rewrite strip_cr_snoc.
  destruct (N.eqb_spec x CR) as [->|]; [by right|by left].
Qed.

(** A line of the stream: its number, its place, its bytes and its terminator. *)
Definition placed (offset number : N) (stream : list N) (i : nat) (l : CompleteLine) : Prop :=
  line (location l) = number + N.of_nat i /\ (LF ∉ line_text l) /\
  exists before term after, stream = before ++ line_text l ++ term ++ after /\
    byte_offset (location l) = offset + N.of_nat (length before) /\
    (term = [LF] \/ term = [CR; LF]).

Lemma frames_placed bytes : forall off number acc i l,
  LF ∉ acc -> fst (frames off number acc bytes) !! i = Some l ->
  placed off number (acc ++ bytes) i l.
Proof.
  induction bytes as [|b bytes IH]; intros off number acc i l Hacc Hl; cbn [frames] in Hl; [done|].
  destruct (N.eqb_spec b LF) as [->|Hb].
  - destruct (frames _ (number + 1) [] bytes) as [ls tail] eqn:E. destruct i as [|i].
    + injection Hl as <-. unfold placed. cbn [line location line_text byte_offset].
      split; [cbn; lia|]. destruct (strip_cr_cases acc) as [Hc|Hc].
      * rewrite Hc. split; [done|]. exists [], [LF], bytes. cbn. split_and!; [done|lia|by left].
      * split; [rewrite Hc in Hacc; set_solver|]. exists [], [CR; LF], bytes.
        rewrite Hc at 1. rewrite <-app_assoc. cbn. split_and!; [done|lia|by right].
    + destruct (IH (off + N.of_nat (length acc) + 1) (number + 1) [] i l) as (Hn & Ht & bef & term & aft & Hs & Ho & Hterm);
        [apply not_elem_of_nil|by rewrite E|].
      split; [lia|]. split; [done|]. exists (acc ++ LF :: bef), term, aft. cbn [app] in Hs.
      rewrite Hs, <-app_assoc, length_app. cbn. split_and!; [done|lia|done].
  - rewrite cons_middle, app_assoc. apply IH; [|done]. rewrite not_elem_of_app, list_elem_of_singleton.
    split; [done|congruence].
Qed.

Lemma frames_tail_line bytes : forall off number acc,
  LF ∉ acc -> LF ∉ snd (frames off number acc bytes).
Proof.
  induction bytes as [|b bytes IH]; intros off number acc Hacc; cbn [frames]; [done|].
  destruct (N.eqb_spec b LF) as [->|Hb].
  - specialize (IH (off + N.of_nat (length acc) + 1) (number + 1) [] (not_elem_of_nil _)).
    by destruct (frames _ _ [] bytes).
  - apply IH. rewrite not_elem_of_app, list_elem_of_singleton. split; [done|congruence].
Qed.

Definition newline_count (bytes : list N) : nat := length (List.filter (N.eqb LF) bytes).

Lemma frames_count bytes : forall off number acc,
  length (fst (frames off number acc bytes)) = newline_count bytes.
Proof.
  unfold newline_count.
  induction bytes as [|b bytes IH]; intros off number acc; cbn [frames List.filter]; [done|].
  rewrite (N.eqb_sym LF b). destruct (b =? LF); [|apply IH].
  specialize (IH (off + N.of_nat (length acc) + 1) (number + 1) []).
  destruct (frames _ _ [] bytes). cbn in *. by f_equal.
Qed.

(** A stream of bounded runs has short lines and a short rest, and so has every part. *)
Lemma runs_bounded_frames bytes : forall off number acc,
  runs_bounded (N.of_nat (length acc)) bytes = true ->
  Forall short (fst (frames off number acc bytes)) /\
  N.of_nat (length (snd (frames off number acc bytes))) <= MAX_TRANSCRIPT_LINE_BYTES.
Proof.
  induction bytes as [|b bytes IH]; intros off number acc H; cbn [frames runs_bounded] in *;
    apply andb_true_iff in H as [Hk%N.leb_le H].
  { split; [constructor|done]. }
  destruct (b =? LF).
  - destruct (IH (off + N.of_nat (length acc) + 1) (number + 1) [] H) as [IH1 IH2].
    destruct (frames _ _ [] bytes) as [ls tail]. split; [|done]. constructor; [|done].
    unfold short. cbn [line_text]. pose proof (length_strip_cr acc). lia.
  - apply IH. rewrite length_app. cbn [length].
    by replace (N.of_nat (length acc + 1)) with (N.of_nat (length acc) + 1) by lia.
Qed.

Lemma runs_bounded_app b1 : forall off number acc b2,
  runs_bounded (N.of_nat (length acc)) (b1 ++ b2) = true ->
  runs_bounded (N.of_nat (length acc)) b1 = true /\
  runs_bounded (N.of_nat (length (snd (frames off number acc b1)))) b2 = true.
Proof.
  induction b1 as [|b b1 IH]; intros off number acc b2 H; cbn [frames runs_bounded app] in *.
  { split; [|done]. rewrite andb_true_r. destruct b2; by apply andb_true_iff in H as [H _]. }
  apply andb_true_iff in H as [-> H]. cbn [andb]. destruct (b =? LF).
  - destruct (IH (off + N.of_nat (length acc) + 1) (number + 1) [] b2 H) as [IH1 IH2].
    by destruct (frames _ _ [] b1).
  - specialize (IH off number (acc ++ [b]) b2). rewrite length_app in IH. cbn [length] in IH.
    replace (N.of_nat (length acc + 1)) with (N.of_nat (length acc) + 1) in IH by lia. by apply IH.
Qed.

(** ** Pushing onto a good cursor *)

(** Everything held was scanned, and it ends where the next read begins. *)
Record cursor_ok (c : TranscriptCursor) : Prop := {
  ck_scan : scan_from c = length (pending c);
  ck_offset : pending_offset c + N.of_nat (length (pending c)) = next_offset c;
  ck_line : LF ∉ pending c;
}.

(** The reading of more bytes, by the reference. *)
Definition framed (c : TranscriptCursor) (bytes : list N) : list CompleteLine * list N :=
  frames (pending_offset c) (next_line_number c) (pending c) bytes.

(** The cursor after them. *)
Definition advanced (c : TranscriptCursor) (bytes : list N) : TranscriptCursor :=
  let '(ls, tail) := framed c bytes in
  let next := next_offset c + N.of_nat (length bytes) in
  mkTranscriptCursor (tc_identity c) (observed_len c) next (next - N.of_nat (length tail)) tail
    (length tail) (next_line_number c + N.of_nat (length ls)) (generation c).

Definition within (c : TranscriptCursor) (bytes : list N) : Prop :=
  Forall short (fst (framed c bytes)) /\
  N.of_nat (length (snd (framed c bytes))) <= MAX_TRANSCRIPT_LINE_BYTES.

Lemma push_loop c bytes :
  cursor_ok c ->
  let offset := match pending c with [] => next_offset c | _ => pending_offset c end in
  offset = pending_offset c /\
  newlines (scan_from c) (drop (scan_from c) (pending c ++ bytes)) = newlines (length (pending c)) bytes.
Proof.
  intros [Hs Ho _]. cbv zeta. split.
  - destruct (pending c); cbn in Ho; lia.
  - by rewrite Hs, drop_app_length.
Qed.

Lemma push_guards c id offset (bytes : list N) :
  default id (tc_identity c) = id -> offset = next_offset c ->
  offset + N.of_nat (length bytes) <= observed_len c -> offset + N.of_nat (length bytes) <= U64_MAX ->
  negb (bool_decide (default id (tc_identity c) = id)) = false /\
  negb (offset =? next_offset c) = false /\
  checked_add U64_MAX offset (N.of_nat (length bytes)) = Some (offset + N.of_nat (length bytes)) /\
  (observed_len c <? offset + N.of_nat (length bytes)) = false.
Proof.
  intros Hid -> Hlen Hmax. rewrite bool_decide_true, N.eqb_refl by done. split_and!; try done.
  - apply checked_add_Some. lia.
  - by apply N.ltb_ge.
Qed.

Lemma push_within c id bytes :
  cursor_ok c -> default id (tc_identity c) = id ->
  next_offset c + N.of_nat (length bytes) <= observed_len c -> next_offset c + N.of_nat (length bytes) <= U64_MAX ->
  within c bytes ->
  push id (next_offset c) bytes c =
  (Ok (mkCursorUpdate (fst (framed c bytes)) (next_offset c + N.of_nat (length bytes))
         (N.of_nat (length (snd (framed c bytes)))) (generation c)), advanced c bytes).
Proof.
  intros Hok Hid Hlen Hmax [Hs Ht].
  destruct (push_guards c id _ bytes Hid eq_refl Hlen Hmax) as (G1 & G2 & G3 & G4).
  unfold push. rewrite G1, G2, G3, G4. destruct (push_loop c bytes Hok) as [-> ->].
  pose proof (frame_loop_frames bytes [] (pending c) (pending_offset c) [] (next_line_number c)) as Hf.
  pose proof (drop_to_tail (pending_offset c) (next_line_number c) (pending c) bytes) as Hd.
  pose proof (frames_tail_length (pending_offset c) (next_line_number c) (pending c) bytes) as Hl.
  unfold advanced, framed in *. cbn [app length] in Hf. rewrite N.add_0_r in Hf.
  destruct (frames _ _ _ bytes) as [ls tail]. cbn [fst snd] in *. destruct Hf as [Hf _].
  cbv zeta in Hf. cbn [Nat.add] in Hf. rewrite (Hf Hs).
  cbv beta iota zeta; cbn [fr_consumed fr_lines fr_line_number]. rewrite Hd, (proj2 (N.ltb_ge _ _) Ht).
  pose proof (ck_offset _ Hok). rewrite length_app in *.
  do 2 f_equal; lia.
Qed.

Lemma advanced_ok c bytes : cursor_ok c -> cursor_ok (advanced c bytes).
Proof.
  intros [Hs Ho Hl]. unfold advanced, framed.
  pose proof (frames_tail_line bytes (pending_offset c) (next_line_number c) _ Hl) as Ht.
  pose proof (frames_tail_length (pending_offset c) (next_line_number c) (pending c) bytes) as Hlen.
  destruct (frames _ _ _ bytes) as [ls tail]. cbn [snd] in *.
  split; cbn [scan_from pending pending_offset next_offset]; [done|lia|done].
Qed.

Lemma push_too_long c id bytes :
  cursor_ok c -> default id (tc_identity c) = id ->
  next_offset c + N.of_nat (length bytes) <= observed_len c -> next_offset c + N.of_nat (length bytes) <= U64_MAX ->
  ~ within c bytes ->
  exists n at_ c', push id (next_offset c) bytes c = (Err (LineTooLong n MAX_TRANSCRIPT_LINE_BYTES at_), c') /\
    MAX_TRANSCRIPT_LINE_BYTES < n.
Proof.
  intros Hok Hid Hlen Hmax Hn.
  destruct (push_guards c id _ bytes Hid eq_refl Hlen Hmax) as (G1 & G2 & G3 & G4).
  unfold push. rewrite G1, G2, G3, G4. destruct (push_loop c bytes Hok) as [-> ->].
  pose proof (frame_loop_frames bytes [] (pending c) (pending_offset c) [] (next_line_number c)) as Hf.
  pose proof (drop_to_tail (pending_offset c) (next_line_number c) (pending c) bytes) as Hd.
  unfold within, framed in *. cbn [app length Nat.add] in Hf. rewrite N.add_0_r in Hf.
  destruct (frames _ _ _ bytes) as [ls tail]. cbv zeta in Hf. cbn [fst snd Nat.add] in *.
  destruct (decide (Forall (fun l => N.of_nat (length (line_text l)) <= MAX_TRANSCRIPT_LINE_BYTES) ls))
    as [Hs|Hs].
  - destruct Hf as [Hf _]. rewrite (Hf Hs). cbv beta iota zeta. cbn [fr_consumed fr_lines fr_line_number].
    rewrite Hd. destruct (N.ltb_spec MAX_TRANSCRIPT_LINE_BYTES (N.of_nat (length tail))) as [Hlt|Hge].
    + eauto 10.
    + by destruct Hn.
  - destruct Hf as [_ Hf]. destruct (Hf Hs) as (n & at_ & f & -> & Hn'). eauto 10.
Qed.

Lemma within_dec c bytes : within c bytes \/ ~ within c bytes.
Proof.
  unfold within. destruct (decide (Forall (fun l => N.of_nat (length (line_text l)) <=
    MAX_TRANSCRIPT_LINE_BYTES) (fst (framed c bytes)))) as [H1|H1]; [|by right; intros [? _]].
  destruct (decide (N.of_nat (length (snd (framed c bytes))) <= MAX_TRANSCRIPT_LINE_BYTES));
    [by left|by right; intros [_ ?]].
Qed.

(** What an accepted push says. *)
Lemma push_Ok c id offset bytes u c' :
  cursor_ok c -> push id offset bytes c = (Ok u, c') ->
  offset = next_offset c /\ default id (tc_identity c) = id /\
  cu_lines u = fst (framed c bytes) /\ cu_next_offset u = next_offset c + N.of_nat (length bytes) /\
  c' = advanced c bytes.
Proof.
  intros Hok Hp.
  assert (offset = next_offset c /\ default id (tc_identity c) = id /\
    next_offset c + N.of_nat (length bytes) <= observed_len c /\ next_offset c + N.of_nat (length bytes) <= U64_MAX)
    as (-> & Hid & Hlen & Hmax).
  { unfold push in Hp. case_bool_decide as Hid; [|done]. cbn [negb] in Hp.
    destruct (N.eqb_spec offset (next_offset c)) as [->|]; [|done]. cbn [negb] in Hp.
    destruct (checked_add _ _ _) as [e|] eqn:E; [|done]. apply checked_add_Some in E as [-> Hmax].
    split_and!; try done. by apply N.ltb_ge; destruct (_ <? _). }
  destruct (within_dec c bytes) as [Hw|Hw].
  - rewrite (push_within c id bytes) in Hp by done. by injection Hp as <- <-.
  - destruct (push_too_long c id bytes Hok Hid Hlen Hmax Hw) as (n & at_ & c2 & E & _). congruence.
Qed.

(** A refused push leaves the cursor where it was, or past the bytes. *)
Lemma push_Err c id offset bytes e c' :
  push id offset bytes c = (Err e, c') -> c' = c \/ next_offset c' = next_offset c + N.of_nat (length bytes).
Proof.
  unfold push. destruct (negb (bool_decide _)); [intros [= _ <-]; by left|].
  destruct (N.eqb_spec offset (next_offset c)) as [->|]; cbn [negb]; [|intros [= _ <-]; by left].
  destruct (checked_add _ _ _) as [n|] eqn:E; [|intros [= _ <-]; by left]. apply checked_add_Some in E as [-> _].
  destruct (_ <? _); [intros [= _ <-]; by left|]. destruct (frame_loop _ _ _ _) as [[?|] f];
    [intros [= _ <-]; by right|]. cbv zeta. destruct (_ <? _); [intros [= _ <-]; by right|done].
Qed.

(** [push] on a cursor in good order takes exactly the reads it should. It succeeds if and
    only if the file is the one it follows, the read begins where the last one ended
    and stays inside the observed file, and neither a completed line nor the
    unterminated rest exceeds the limit; it then reports what one pass over the
    stream reports and leaves a cursor in good order. A read it refuses as not the next part of the
    file leaves the cursor untouched. *)
Theorem push_accepts_exactly_the_next_read c id offset bytes :
  cursor_ok c -> observed_len c <= U64_MAX ->
  let in_place := default id (tc_identity c) = id /\ offset = next_offset c /\
                  offset + N.of_nat (length bytes) <= observed_len c in
  (in_place -> within c bytes ->
   push id offset bytes c =
     (Ok (mkCursorUpdate (fst (framed c bytes)) (offset + N.of_nat (length bytes))
            (N.of_nat (length (snd (framed c bytes)))) (generation c)), advanced c bytes) /\
   cursor_ok (advanced c bytes)) /\
  (in_place -> ~ within c bytes ->
   exists n at_ c', push id offset bytes c = (Err (LineTooLong n MAX_TRANSCRIPT_LINE_BYTES at_), c') /\
     MAX_TRANSCRIPT_LINE_BYTES < n) /\
  (~ in_place -> exists e, push id offset bytes c = (Err e, c)).
Proof.
  intros Hok Hmax in_place. subst in_place. split_and!.
  - intros (Hid & -> & Hlen) Hw. split; [apply push_within; try done; lia|by apply advanced_ok].
  - intros (Hid & -> & Hlen) Hw. apply push_too_long; try done; lia.
  - intros Hn. unfold push. case_bool_decide as Hid; cbn [negb]; [|by eexists].
    destruct (N.eqb_spec offset (next_offset c)) as [Ho|]; cbn [negb]; [|by eexists].
    destruct (checked_add _ _ _) as [e|] eqn:E; [|by eexists].
    apply checked_add_Some in E as [-> _].
    destruct (N.ltb_spec (observed_len c) (offset + N.of_nat (length bytes))); [by eexists|].
    by destruct Hn.
Qed.

(** Every line is where it says. Each line a push surfaces carries its number in
    the file and the exact byte offset of its text, which is followed there by a
    newline (or carriage return and newline) and contains none; one line is
    surfaced per newline read, and none is held back. *)
Theorem lines_are_where_they_say c id bytes u c' :
  cursor_ok c -> observed_len c <= U64_MAX ->
  push id (next_offset c) bytes c = (Ok u, c') ->
  (forall i l, cu_lines u !! i = Some l ->
     placed (pending_offset c) (next_line_number c) (pending c ++ bytes) i l) /\
  length (cu_lines u) = newline_count bytes /\ (LF ∉ pending c').
Proof.
  intros Hok _ Hp. pose proof (ck_line _ Hok) as Hl. apply push_Ok in Hp as (_ & _ & -> & _ & ->); [|done].
  split_and!; [intros i l; by apply frames_placed|apply frames_count|].
  apply (ck_line (advanced c bytes)). by apply advanced_ok.
Qed.

(** ** Following a file that is appended to *)

(** Chunk by chunk: observe the grown file, read the new range and push it. *)
Fixpoint read_appends (id : FileIdentity) (chunks : list (list N)) (c : TranscriptCursor)
  : result (list CompleteLine) TranscriptError * TranscriptCursor :=
  match chunks with
  | [] => (Ok [], c)
  | chunk :: chunks =>
      let '(o, c) := observe (mkFileMetadata id (next_offset c + N.of_nat (length chunk))) c in
      match push id (read_from o) chunk c with
      | (Err e, c) => (Err e, c)
      | (Ok u, c) =>
          match read_appends id chunks c with
          | (Ok ls, c) => (Ok (cu_lines u ++ ls), c)
          | (Err e, c) => (Err e, c)
          end
      end
  end.

Lemma observe_append id n c :
  tc_identity c = Some id ->
  observe (mkFileMetadata id (next_offset c + n)) c =
  (mkCursorObservation Unchanged (next_offset c) (next_offset c + n) (generation c),
   with_observed (next_offset c + n) c).
Proof.
  intros Hid. unfold observe. rewrite Hid. cbn [fm_identity fm_len].
  rewrite bool_decide_true by done. cbn [negb].
  by rewrite (proj2 (N.ltb_ge _ _)) by lia.
Qed.

Lemma framed_app c b1 b2 :
  cursor_ok c ->
  framed c (b1 ++ b2) =
  (fst (framed c b1) ++ fst (framed (advanced c b1) b2), snd (framed (advanced c b1) b2)).
Proof.
  intros Hok. pose proof (ck_offset _ Hok) as Ho. unfold advanced, framed. rewrite frames_app.
  destruct (frames _ _ (pending c) b1) as [l1 t1] eqn:E.
  cbn [pending_offset next_line_number pending fst snd].
  replace (pending_offset c + N.of_nat (length (pending c) + length b1) - N.of_nat (length t1))
    with (next_offset c + N.of_nat (length b1) - N.of_nat (length t1)) by lia.
  by destruct (frames _ _ t1 b2).
Qed.

(** Framing does not depend on how the file was read. Follow an append-only file in
    chunks of any sizes, cut anywhere, also inside a line or between a carriage return
    and its newline: as long as no run of bytes without a newline exceeds the limit,
    every read is accepted, and the lines surfaced, with their numbers, offsets and
    bytes, are those of one pass over the whole stream, in file order; the
    unterminated rest is kept and never surfaced. *)
Theorem framing_ignores_chunking id chunks c :
  cursor_ok c -> tc_identity c = Some id ->
  runs_bounded (N.of_nat (length (pending c))) (concat chunks) = true ->
  next_offset c + N.of_nat (length (concat chunks)) <= U64_MAX ->
  exists c', read_appends id chunks c = (Ok (fst (framed c (concat chunks))), c') /\ cursor_ok c' /\
    pending c' = snd (framed c (concat chunks)) /\
    next_offset c' = next_offset c + N.of_nat (length (concat chunks)) /\
    generation c' = generation c.
Proof.
  revert c. induction chunks as [|chunk chunks IH]; intros c Hok Hid Hb Hmax.
  { exists c. cbn. split_and!; try done. lia. }
  cbn [concat] in *. rewrite length_app in Hmax. cbn [read_appends]. rewrite observe_append by done.
  cbv beta iota zeta. cbn [read_from]. set (c1 := with_observed _ c).
  destruct (runs_bounded_app chunk (pending_offset c) (next_line_number c) (pending c) _ Hb) as [Hb1 Hb2].
  assert (cursor_ok c1) as Hok1 by (by destruct Hok).
  change (next_offset c) with (next_offset c1) at 1. rewrite (push_within c1 id chunk Hok1).
  2:{ cbn [c1 tc_identity with_observed]. by rewrite Hid. }
  2:{ done. }
  2:{ cbn [c1 next_offset with_observed]. lia. }
  2:{ apply (runs_bounded_frames _ _ _ _ Hb1). }
  assert (Hok2 : cursor_ok (advanced c1 chunk)) by (by apply advanced_ok).
  destruct (IH (advanced c1 chunk)) as (c' & -> & Hok' & Hpend & Hnext & Hgen); clear IH.
  - done.
  - unfold advanced. by destruct (framed c1 chunk).
  - unfold advanced, framed. cbn [c1 pending_offset next_line_number pending with_observed].
    by destruct (frames _ _ _ chunk).
  - assert (next_offset (advanced c1 chunk) = next_offset c + N.of_nat (length chunk)) as ->
      by (unfold advanced; by destruct (framed c1 chunk)). lia.
  - exists c'. change (framed c (chunk ++ concat chunks)) with (framed c1 (chunk ++ concat chunks)).
    rewrite framed_app by done. cbn [fst snd cu_lines]. split_and!; try done.
    + rewrite Hnext, length_app.
      assert (next_offset (advanced c1 chunk) = next_offset c + N.of_nat (length chunk)) as ->
        by (unfold advanced; by destruct (framed c1 chunk)). lia.
    + rewrite Hgen. unfold advanced. by destruct (framed c1 chunk).
Qed.

(** Observation never lets two files, or two lives of one file, be mixed. After
    any observation the cursor follows the observed file and the range it asks for
    lies inside it; if the file was replaced or truncated below what was read (or none
    was followed yet), everything held is dropped, reading restarts at byte 0 and line
    1 and the generation grows; otherwise what was held is kept. *)
Theorem observe_reconciles m c :
  cursor_ok c -> generation c < U64_MAX ->
  let '(o, c') := observe m c in
  cursor_ok c' /\ tc_identity c' = Some (fm_identity m) /\ observed_len c' = fm_len m /\
  read_from o = next_offset c' /\ read_from o <= read_to o /\ read_to o = fm_len m /\
  co_generation o = generation c' /\
  (co_change o = Unchanged ->
   tc_identity c = Some (fm_identity m) /\ pending c' = pending c /\ next_offset c' = next_offset c /\
   next_line_number c' = next_line_number c /\ generation c' = generation c) /\
  (co_change o <> Unchanged ->
   pending c' = [] /\ read_from o = 0 /\ next_line_number c' = 1 /\ generation c' = generation c + 1).
Proof.
  intros Hok Hg. unfold observe.
  assert (Hreset : saturating_add U64_MAX (generation c) 1 = generation c + 1)
    by (apply saturating_add_small; lia).
  assert (Hnil : LF ∉ @nil N) by apply not_elem_of_nil.
  destruct (tc_identity c) as [previous|] eqn:Hid; [case_bool_decide as Hp; cbn [negb]|].
  1: destruct (N.ltb_spec (fm_len m) (next_offset c)) as [Hlt|Hle].
  all: cbn -[saturating_add]; try rewrite Hreset; split_and!; try done; try lia; try congruence.
  - destruct Hok; by split.
  - intros _. split_and!; congruence.
Qed.

(** ** A line at the limit *)

Lemma frames_plain a : forall off number acc rest,
  LF ∉ a -> frames off number acc (a ++ rest) = frames off number (acc ++ a) rest.
Proof.
  induction a as [|x a IH]; intros off number acc rest Ha; [by rewrite app_nil_r|].
  apply not_elem_of_cons in Ha as [Hx Ha]. cbn [app frames].
  rewrite (proj2 (N.eqb_neq _ _)) by congruence. rewrite IH by done. by rewrite <-app_assoc.
Qed.

Lemma limit_cut id text :
  (LF ∉ text) -> N.of_nat (length text) = MAX_TRANSCRIPT_LINE_BYTES ->
  let c := reset_for id TranscriptCursor_new in
  (exists ls c', read_appends id [text ++ [CR; LF]] c = (Ok ls, c') /\ line_text <$> ls = [text]) /\
  (exists n at_ c', read_appends id [text ++ [CR]; [LF]] c =
     (Err (LineTooLong n MAX_TRANSCRIPT_LINE_BYTES at_), c')).
Proof.
  intros Hlf Hlen. cbv zeta. set (c := reset_for id TranscriptCursor_new).
  assert (Hok : forall n, cursor_ok (with_observed n c)) by (intros n; split; [done..|apply not_elem_of_nil]).
  assert (Hbig : MAX_TRANSCRIPT_LINE_BYTES + 2 <= U64_MAX) by done.
  split.
  - cbn [read_appends]. rewrite observe_append by done. cbv beta iota zeta. cbn [read_from].
    change (next_offset c) with 0 in *. set (c1 := with_observed _ c).
    change 0 with (next_offset c1) at 1.
    assert (Hf : framed c1 (text ++ [CR; LF]) =
      ([mkCompleteLine (mkSourceLocation 1 0) text], [])).
    { unfold framed. rewrite frames_plain by done. cbn [frames app pending c1 c with_observed reset_for].
      change (CR =? LF) with false. change (LF =? LF) with true. cbv iota.
      by rewrite strip_cr_snoc. }
    rewrite push_within; [|apply Hok|done|done|..].
    + rewrite Hf. cbn [fst snd cu_lines app]. do 2 eexists. split; [done|done].
    + change (next_offset c1) with 0. rewrite length_app. cbn [length]. lia.
    + unfold within. rewrite Hf. cbn [fst snd length]. split; [|done]. constructor; [|constructor].
      unfold short. cbn [line_text]. lia.
  - cbn [read_appends]. rewrite observe_append by done. cbv beta iota zeta. cbn [read_from].
    change (next_offset c) with 0 in *. set (c1 := with_observed _ c).
    change 0 with (next_offset c1) at 1.
    destruct (push_too_long c1 id (text ++ [CR])) as (n & at_ & c' & -> & _); [apply Hok|done|done|..].
    + change (next_offset c1) with 0. rewrite length_app. cbn [length]. lia.
    + intros [_ Ht]. unfold framed in Ht. rewrite frames_plain in Ht by done.
      cbn [frames app pending c1 c with_observed reset_for] in Ht. change (CR =? LF) with false in Ht.
      cbv iota in Ht. cbn [snd] in Ht. rewrite length_app in Ht. cbn [length] in Ht. lia.
    + eauto.
Qed.

(** The limit is on the text of a line when its newline has been read, but on the text
    and its carriage return when it has not. A line of exactly the limit that ends in a carriage
    return and a newline is accepted when it is read at once and refused when the
    read ends between the two. *)
Theorem limit_depends_on_the_cut id :
  let c := reset_for id TranscriptCursor_new in
  let text := replicate (N.to_nat MAX_TRANSCRIPT_LINE_BYTES) 65 in
  (exists ls c', read_appends id [text ++ [CR; LF]] c = (Ok ls, c') /\ line_text <$> ls = [text]) /\
  (exists n at_ c', read_appends id [text ++ [CR]; [LF]] c =
     (Err (LineTooLong n MAX_TRANSCRIPT_LINE_BYTES at_), c')).
Proof.
  apply limit_cut.
  - intros H%elem_of_replicate. by destruct H.
  - by rewrite length_replicate, N2Nat.id.
Qed.

(** ** Witnesses *)

Definition a_file : FileIdentity := mkFileIdentity 1 7.
Definition opened : TranscriptCursor := snd (observe (mkFileMetadata a_file 9) TranscriptCursor_new).

Lemma opened_ok : cursor_ok opened.
Proof. split; [done..|apply not_elem_of_nil]. Qed.

Lemma push_accepts_exactly_the_next_read_witness :
  exists e, push a_file 3 [65] opened = (Err e, opened).
Proof.
  apply (push_accepts_exactly_the_next_read opened a_file 3 [65] opened_ok).
  - vm_compute. discriminate.
  - intros (_ & H & _). discriminate H.
Defined.

Lemma lines_are_where_they_say_witness :
  exists u c', push a_file 0 [65; 13; 10; 66; 10; 67] opened = (Ok u, c') /\
    line_text <$> cu_lines u = [[65]; [66]] /\ length (cu_lines u) = newline_count [65; 13; 10; 66; 10; 67].
Proof.
  eexists; eexists. split; [vm_compute; reflexivity|]. split; [vm_compute; reflexivity|].
  apply (lines_are_where_they_say opened a_file [65; 13; 10; 66; 10; 67]
           (fst (match push a_file 0 [65; 13; 10; 66; 10; 67] opened with
                 | (Ok u, c) => (u, c) | (Err _, c) => (mkCursorUpdate [] 0 0 0, c) end))
           (snd (push a_file 0 [65; 13; 10; 66; 10; 67] opened)) opened_ok).
  - vm_compute. discriminate.
  - vm_compute. reflexivity.
Defined.

Lemma framing_ignores_chunking_witness :
  exists c', read_appends a_file [[65; 66]; [13]; [10; 67]] opened =
    (Ok [mkCompleteLine (mkSourceLocation 1 0) [65; 66]], c') /\ pending c' = [67].
Proof.
  destruct (framing_ignores_chunking a_file [[65; 66]; [13]; [10; 67]] opened opened_ok)
    as (c' & E & _ & Hp & _).
  - reflexivity.
  - vm_compute. reflexivity.
  - vm_compute. discriminate.
  - exists c'. split; [exact E|exact Hp].
Defined.

Lemma observe_reconciles_witness :
  exists o c', observe (mkFileMetadata (mkFileIdentity 1 8) 4) opened = (o, c') /\ read_from o = 0 /\
    generation c' = 2.
Proof.
  pose proof (observe_reconciles (mkFileMetadata (mkFileIdentity 1 8) 4) opened opened_ok) as H.
  destruct (observe _ opened) as [o c'] eqn:E. exists o, c'. split; [reflexivity|].
  destruct H as (_ & _ & _ & _ & _ & _ & _ & _ & H).
  - vm_compute. reflexivity.
  - destruct H as (_ & Hr & _ & Hg).
    + vm_compute in E. injection E as <- <-. discriminate.
    + split; [exact Hr|]. rewrite Hg. vm_compute. reflexivity.
Defined.
