(* ===== verification/Parser.v ===== *)
(** * Reading one transcript line

    [crates/claude/src/parser.rs]: the strict decoder of one complete JSONL record.
    [serde_json::from_slice] and the [Debug] form of a string are parameters; the
    check that the bytes are UTF-8, with the position it reports, is written out. *)

From S2P Require Import Prelude Text Protocol Composer Transcript Cursor.

(** ** [str::from_utf8]

    Where validation stops: how many bytes were valid, and the length of the bad
    sequence when the input did not merely end too soon. *)

Record Utf8Error := mkUtf8Error { valid_up_to : N; error_len : option N }.

Definition second_of_three (a b : N) : bool :=
  ((a =? 224) && in_range 160 191 b)
  || ((in_range 225 236 a || in_range 238 239 a) && is_cont b)
  || ((a =? 237) && in_range 128 159 b).

Definition second_of_four (a b : N) : bool :=
  ((a =? 240) && in_range 144 191 b)
  || (in_range 241 243 a && is_cont b)
  || ((a =? 244) && in_range 128 143 b).

Fixpoint utf8_error (index : N) (l : list N) : option Utf8Error :=
  match l with
  | [] => None
  | a :: l1 =>
      let bad n := Some (mkUtf8Error index (Some n)) in
      let ends := Some (mkUtf8Error index None) in
      if a <? 128 then utf8_error (index + 1) l1
      else if in_range 194 223 a then
        match l1 with
        | [] => ends
        | b :: l2 => if is_cont b then utf8_error (index + 2) l2 else bad 1
        end
      else if in_range 224 239 a then
        match l1 with
        | [] => ends
        | b :: l2 =>
            if second_of_three a b then
              match l2 with
              | [] => ends
              | c :: l3 => if is_cont c then utf8_error (index + 3) l3 else bad 2
              end
            else bad 1
        end
      else if in_range 240 244 a then
        match l1 with
        | [] => ends
        | b :: l2 =>
            if second_of_four a b then
              match l2 with
              | [] => ends
              | c :: l3 =>
                  if is_cont c then
                    match l3 with
                    | [] => ends
                    | d :: l4 => if is_cont d then utf8_error (index + 4) l4 else bad 3
                    end
                  else bad 2
              end
            else bad 1
        end
      else bad 1
  end.

(** [Display for Utf8Error]. *)
Definition utf8_error_message (e : Utf8Error) : string :=
  match error_len e with
  | Some n => ("invalid utf-8 sequence of " +:+ pretty n +:+ " bytes from index " +:+ pretty (valid_up_to e))%string
  | None => ("incomplete utf-8 byte sequence from index " +:+ pretty (valid_up_to e))%string
  end.

Definition from_utf8 (l : list N) : result unit Utf8Error :=
  match utf8_error 0 l with None => Ok tt | Some e => Err e end.

(** ** Fields *)

Definition schema (row_uuid : option string) (path message : string) : TranscriptError :=
  SchemaDrift row_uuid path message.

Definition field_path (parent key : string) : string := (parent +:+ "." +:+ key)%string.

Definition optional_string (object : list (string * json)) (key parent : string)
    (row_uuid : option string) : result (option string) TranscriptError :=
  match obj_get key object with
  | None | Some JNull => Ok None
  | Some (JStr value) => Ok (Some value)
  | Some _ => Err (schema row_uuid (field_path parent key) "field must be a string")
  end.

Definition optional_nullable_string (object : list (string * json)) (key parent : string)
    (row_uuid : option string) : result (option string) TranscriptError :=
  optional_string object key parent row_uuid.

Definition optional_bool (object : list (string * json)) (key parent : string)
    (row_uuid : option string) : result (option bool) TranscriptError :=
  match obj_get key object with
  | None | Some JNull => Ok None
  | Some (JBool value) => Ok (Some value)
  | Some _ => Err (schema row_uuid (field_path parent key) "field must be a boolean")
  end.

Definition mem_str (s : string) (l : list string) : bool := existsb (String.eqb s) l.

Definition METADATA_RECORDS : list string :=
  ["ai-title"; "mode"; "permission-mode"; "progress"; "file-history-snapshot";
   "file-history-delta"; "queue-operation"; "summary"; "last-prompt"; "pr-link";
   "bridge-session"; "atis-latch"; "cost-state"]%string.

Definition is_metadata_record (record_type : string) : bool := mem_str record_type METADATA_RECORDS.

Definition ATTACHMENT_TYPES : list string :=
  ["agent_listing_delta"; "command_permissions"; "compact_file_reference"; "date_change";
   "deferred_tools_delta"; "deferred_tools_record"; "edited_text_file"; "file";
   "invoked_skills"; "plan_mode"; "queued_command"; "skill_listing"; "task_reminder";
   "total_tokens_reminder"; "ultra_effort_enter"; "workflow_keyword_request";
   "remote_session_change"; "date"; "environment"; "model"; "prompt_snapshot";
   "session_context"; "instructions"; "mcp_instructions_delta"]%string.

Definition is_supported_attachment_type (attachment_type : string) : bool :=
  mem_str attachment_type ATTACHMENT_TYPES.

(** The first key of [keys] the check refuses, as the error of a [for] loop. *)
Fixpoint first_refused (check : string -> option TranscriptError) (keys : list string)
  : result unit TranscriptError :=
  match keys with
  | [] => Ok tt
  | key :: rest => match check key with Some e => Err e | None => first_refused check rest end
  end.

Definition SEMANTIC_KEYS : list string := ["message"; "content"; "attachment"]%string.

Definition reject_semantic_payload (object : list (string * json)) (row_uuid : option string)
    (subtype : string) : result unit TranscriptError :=
  first_refused
    (fun key =>
       if contains_key key object then
         Some (schema row_uuid (field_path "$" key)
                 (subtype +:+ " must not contain a semantic payload")%string)
       else None)
    SEMANTIC_KEYS.

(** [value.is_some_and(|v| v.as_u64().is_none())]. *)
Definition present_not_u64 (key : string) (object : list (string * json)) : bool :=
  match obj_get key object with
  | Some v => match as_u64 v with None => true | Some _ => false end
  | None => false
  end.

(** ** System rows *)

Definition prove_turn_duration_inert (object : list (string * json)) (row_uuid : option string)
  : result unit TranscriptError :=
  let? _ :=
    match obj_get "pendingWorkflowCount" object with
    | None => Ok tt
    | Some value =>
        if bool_decide (as_u64 value = Some 0) then Ok tt
        else Err (schema row_uuid "$.pendingWorkflowCount"
               "turn_duration announces pending workflow work, so the turn is not proven over")
    end in
  if present_not_u64 "durationMs" object then
    Err (schema row_uuid "$.durationMs" "turn_duration durationMs must be a non-negative integer")
  else if present_not_u64 "messageCount" object then
    Err (schema row_uuid "$.messageCount" "turn_duration messageCount must be a non-negative integer")
  else reject_semantic_payload object row_uuid "turn_duration".

Definition HOOK_FEEDBACK_KEYS : list string := ["hookErrors"; "hookAdditionalContext"]%string.

Definition prove_stop_hook_summary_inert (object : list (string * json)) (row_uuid : option string)
  : result unit TranscriptError :=
  let? _ :=
    match obj_get "preventedContinuation" object with
    | Some (JBool false) => Ok tt
    | Some (JBool true) =>
        Err (schema row_uuid "$.preventedContinuation"
               "stop_hook_summary blocked the stop, so the turn may still continue")
    | _ =>
        Err (schema row_uuid "$.preventedContinuation"
               "stop_hook_summary requires preventedContinuation:false to prove inertness")
    end in
  let? _ :=
    first_refused
      (fun key =>
         match obj_get key object with
         | None | Some (JArr []) => None
         | _ => Some (schema row_uuid (field_path "$" key)
                        "stop_hook_summary hook feedback must be absent or an empty array")
         end)
      HOOK_FEEDBACK_KEYS in
  reject_semantic_payload object row_uuid "stop_hook_summary".

Definition RETRY_KEYS : list string := ["retryAttempt"; "maxRetries"]%string.

Definition prove_api_error_is_a_retry_record (object : list (string * json))
    (row_uuid : option string) : result unit TranscriptError :=
  let? _ :=
    first_refused
      (fun key =>
         match obj_get key object ≫= as_u64 with
         | Some _ => None
         | None => Some (schema row_uuid (field_path "$" key)
             "api_error requires retryAttempt and maxRetries as non-negative integers to prove it is a retry record")
         end)
      RETRY_KEYS in
  reject_semantic_payload object row_uuid "api_error".

Definition parse_system (mode : ParseMode) (object : list (string * json)) (row_uuid : option string)
  : result RowKind TranscriptError :=
  let? subtype := optional_string object "subtype" "$" row_uuid in
  let? _ :=
    if is_strict mode then
      if bool_decide (subtype = Some "turn_duration"%string) then
        prove_turn_duration_inert object row_uuid
      else if bool_decide (subtype = Some "stop_hook_summary"%string) then
        prove_stop_hook_summary_inert object row_uuid
      else if bool_decide (subtype = Some "api_error"%string) then
        prove_api_error_is_a_retry_record object row_uuid
      else Ok tt
    else Ok tt in
  Ok (System (mkSystemRow subtype)).

(** ** Scope, content blocks, usage *)

Definition TEAM_FIELDS : list string :=
  ["teamName"; "teamId"; "teammateName"; "teammateId"; "agentName"; "agentId"]%string.

Definition present_not_null (object : list (string * json)) (key : string) : bool :=
  match obj_get key object with Some v => negb (is_null v) | None => false end.

Definition parse_scope (object : list (string * json)) (row_uuid : option string)
  : result RowScope TranscriptError :=
  let? meta := optional_bool object "isMeta" "$" row_uuid in
  if default false meta then Ok Meta
  else if existsb (present_not_null object) TEAM_FIELDS then Ok Team
  else
    let? sidechain := optional_bool object "isSidechain" "$" row_uuid in
    if default false sidechain then Ok Sidechain else Ok Main.

Definition get_str (key : string) (object : list (string * json)) : option string :=
  obj_get key object ≫= json_as_str.

Definition parse_content_block (value : json) : ContentBlock :=
  match as_object value with
  | None => UnknownBlock None value
  | Some object =>
      let declared_type := get_str "type" object in
      if bool_decide (declared_type = Some "text"%string) then
        match get_str "text" object with
        | Some text => Text text
        | None => UnknownBlock (Some "text"%string) value
        end
      else if bool_decide (declared_type = Some "thinking"%string) then
        match get_str "thinking" object with
        | Some thinking => Thinking thinking
        | None => UnknownBlock (Some "thinking"%string) value
        end
      else if bool_decide (declared_type = Some "tool_use"%string) then
        match get_str "id" object, get_str "name" object with
        | Some id, Some name => ToolUse id name (default JNull (obj_get "input" object))
        | _, _ => UnknownBlock (Some "tool_use"%string) value
        end
      else UnknownBlock declared_type value
  end.

Definition TOKEN_FIELDS : list string :=
  ["input_tokens"; "output_tokens"; "cache_creation_input_tokens"; "cache_read_input_tokens"]%string.

(** The closure [token] of [parse_usage]. *)
Definition usage_token (object : list (string * json)) (row_uuid : option string) (name : string)
  : result N TranscriptError :=
  let path := field_path "$.message.usage" name in
  let? value :=
    match obj_get name object with
    | None | Some JNull => Ok 0
    | Some value => ok_or (as_u64 value) (schema row_uuid path "token count must be a non-negative integer")
    end in
  if MAX_SAFE_JSON_INTEGER <? value then
    Err (schema row_uuid path "token count exceeds protocol-v1's safe-integer maximum")
  else Ok value.

Definition parse_usage (value : json) (mode : ParseMode) (row_uuid : option string)
  : result UsageSnapshot TranscriptError :=
  match as_object value with
  | None => Err (schema row_uuid "$.message.usage" "usage must be an object")
  | Some object =>
      let token := usage_token object row_uuid in
      let? input := token "input_tokens"%string in
      let? output := token "output_tokens"%string in
      let? creation := token "cache_creation_input_tokens"%string in
      let? read := token "cache_read_input_tokens"%string in
      if is_strict mode && negb (existsb (fun kv => mem_str (fst kv) TOKEN_FIELDS) object) then
        Err (schema row_uuid "$.message.usage" "usage has no recognized token fields")
      else Ok (mkUsageSnapshot (mkTokenUsage input output creation read) value)
  end.

(** ** Users, attachments, assistants *)

Definition content_index (index : N) : string :=
  ("$.message.content[" +:+ pretty index +:+ "]")%string.

(** [Option::get_or_insert]. *)
Definition get_or_insert {A} (o : option A) (a : A) : option A := Some (default a o).

(** The loop of [parse_user] over the content array. *)
Fixpoint user_blocks (mode : ParseMode) (row_uuid : option string) (index : N) (blocks : list json)
    (results : list ToolResultBlock) (first_unsupported_block : option N)
  : result (list ToolResultBlock * option N) TranscriptError :=
  match blocks with
  | [] => Ok (results, first_unsupported_block)
  | block :: rest =>
      let skip first := user_blocks mode row_uuid (index + 1) rest results first in
      match as_object block with
      | None => skip (get_or_insert first_unsupported_block index)
      | Some block_object =>
          if negb (bool_decide (get_str "type" block_object = Some "tool_result"%string)) then
            skip (get_or_insert first_unsupported_block index)
          else match get_str "tool_use_id" block_object with
          | None =>
              if is_strict mode then
                Err (schema row_uuid (field_path (content_index index) "tool_use_id")
                       "tool result requires a string tool_use_id")
              else skip first_unsupported_block
          | Some tool_use_id =>
              let? is_error := optional_bool block_object "is_error" (content_index index) row_uuid in
              user_blocks mode row_uuid (index + 1) rest
                (results ++ [mkToolResultBlock tool_use_id
                               (default JNull (obj_get "content" block_object)) is_error])
                first_unsupported_block
          end
      end
  end.

Definition QUOTE : string := char_str 34.

Definition parse_user (mode : ParseMode) (object : list (string * json)) (row_uuid : option string)
  : result RowKind TranscriptError :=
  match obj_get "message" object ≫= as_object with
  | None =>
      if is_strict mode then Err (schema row_uuid "$.message" "user message must be an object")
      else Ok UserOther
  | Some message =>
      let? role := optional_string message "role" "$.message" row_uuid in
      if is_strict mode
         && match role with Some r => negb (String.eqb r "user") | None => false end then
        Err (schema row_uuid "$.message.role"
               ("user message role must be " +:+ QUOTE +:+ "user" +:+ QUOTE)%string)
      else
        let? prompt_source := optional_string object "promptSource" "$" row_uuid in
        if bool_decide (prompt_source = Some "typed"%string) then
          match get_str "content" message with
          | Some prompt =>
              let? prompt_id := optional_string object "promptId" "$" row_uuid in
              Ok (TypedUser prompt prompt_id)
          | None =>
              if is_strict mode then
                Err (schema row_uuid "$.message.content" "typed prompt content must be a string")
              else Ok UserOther
          end
        else match obj_get "content" message ≫= as_array with
        | None => Ok UserOther
        | Some content =>
            let? '(results, first_unsupported_block) := user_blocks mode row_uuid 0 content [] None in
            match results, first_unsupported_block with
            | _ :: _, Some index =>
                if is_strict mode then
                  Err (schema row_uuid (content_index index)
                         "tool result row contains an unknown or malformed sibling block")
                else Ok (UserToolResults results)
            | [], _ => Ok UserOther
            | _ :: _, None => Ok (UserToolResults results)
            end
        end
  end.

Definition parse_assistant (mode : ParseMode) (object : list (string * json)) (row_uuid : option string)
  : result RowKind TranscriptError :=
  match obj_get "message" object ≫= as_object with
  | None =>
      if is_strict mode then Err (schema row_uuid "$.message" "assistant message must be an object")
      else Ok (Unknown (Some "assistant"%string))
  | Some message =>
      let? blocks :=
        match obj_get "content" message ≫= as_array with
        | Some content => Ok (parse_content_block <$> content)
        | None =>
            if is_strict mode then
              Err (schema row_uuid "$.message.content" "assistant content must be an array")
            else Ok []
        end in
      let? top_level_api_error := optional_bool object "isApiErrorMessage" "$" row_uuid in
      let? message_api_error := optional_bool message "isApiErrorMessage" "$.message" row_uuid in
      let? usage :=
        match obj_get "usage" message with
        | None | Some JNull => Ok None
        | Some value => let? u := parse_usage value mode row_uuid in Ok (Some u)
        end in
      let? message_id := optional_string message "id" "$.message" row_uuid in
      let? request_id := optional_string object "requestId" "$" row_uuid in
      let? model := optional_string message "model" "$.message" row_uuid in
      let? stop_reason := optional_nullable_string message "stop_reason" "$.message" row_uuid in
      Ok (Assistant (mkAssistantFragment message_id request_id model blocks stop_reason usage
            (default false top_level_api_error || default false message_api_error)))
  end.

Section Parse.
Variable str_debug : string -> string.
Variable from_slice : list N -> result json string.

Definition parse_attachment (mode : ParseMode) (object : list (string * json)) (row_uuid : option string)
  : result RowKind TranscriptError :=
  let otherwise path message :=
    if is_strict mode then Err (schema row_uuid path message)
    else Ok (Unknown (Some "attachment"%string)) in
  match obj_get "attachment" object ≫= as_object with
  | None => otherwise "$.attachment"%string "attachment row payload must be an object"%string
  | Some attachment =>
      let? attachment_type := optional_string attachment "type" "$.attachment" row_uuid in
      match attachment_type with
      | None => otherwise "$.attachment.type"%string "attachment type must be a string"%string
      | Some attachment_type =>
          if negb (is_supported_attachment_type attachment_type) && is_strict mode then
            Err (schema row_uuid "$.attachment.type"
                   ("unsupported attachment type " +:+ str_debug attachment_type)%string)
          else Ok (Attachment attachment_type)
      end
  end.

(** The rows a strict transcript must be able to place in the parent graph. *)
Definition requires_uuid (k : RowKind) : bool :=
  match k with
  | Assistant _ | TypedUser _ _ | UserToolResults _ | UserOther | Attachment _ => true
  | System _ | Metadata _ | Unknown _ => false
  end.

Definition parse_kind (mode : ParseMode) (object : list (string * json)) (row_uuid declared_type : option string)
  : result RowKind TranscriptError :=
  match declared_type with
  | Some record_type =>
      if String.eqb record_type "user" then parse_user mode object row_uuid
      else if String.eqb record_type "assistant" then parse_assistant mode object row_uuid
      else if String.eqb record_type "attachment" then parse_attachment mode object row_uuid
      else if String.eqb record_type "system" then parse_system mode object row_uuid
      else if is_metadata_record record_type then Ok (Metadata record_type)
      else Ok (Unknown declared_type)
  | None => Ok (Unknown declared_type)
  end.

Definition parse (mode : ParseMode) (l : CompleteLine) : result ParsedRow TranscriptError :=
  let? _ := map_err (fun e => InvalidUtf8 (location l) (utf8_error_message e)) (from_utf8 (line_text l)) in
  let? raw := map_err (fun e => MalformedJson (location l) e) (from_slice (line_text l)) in
  let? object := ok_or (as_object raw) (SchemaDrift None "$" "top-level JSONL value must be an object") in
  let? row_uuid := optional_string object "uuid" "$" None in
  let? parent_uuid := optional_nullable_string object "parentUuid" "$" row_uuid in
  let? session_id := optional_string object "sessionId" "$" row_uuid in
  let? scope := parse_scope object row_uuid in
  let? declared_type := optional_string object "type" "$" row_uuid in
  let common := mkCommonFields row_uuid parent_uuid session_id scope in
  let? kind := parse_kind mode object row_uuid declared_type in
  if requires_uuid kind && bool_decide (row_uuid = None) && is_strict mode then
    Err (schema None "$.uuid" "semantic row requires a string UUID")
  else Ok (mkParsedRow (location l) common kind raw).

End Parse.

(** ** The UTF-8 check *)

Lemma in_range_spec lo hi c : in_range lo hi c = true <-> lo <= c <= hi.
Proof. unfold in_range. rewrite andb_true_iff, !N.leb_le. lia. Qed.

Lemma in_range_false lo hi c : in_range lo hi c = false <-> c < lo \/ hi < c.
Proof. unfold in_range. rewrite andb_false_iff, !N.leb_gt. lia. Qed.

Lemma second_of_three_lead a b : second_of_three a b = true -> in_range 224 239 a = true.
Proof.
  unfold second_of_three. rewrite !orb_true_iff, !andb_true_iff, !N.eqb_eq, !orb_true_iff, !in_range_spec. lia.
Qed.

Lemma second_of_four_lead a b : second_of_four a b = true -> in_range 240 244 a = true.
Proof.
  unfold second_of_four. rewrite !orb_true_iff, !andb_true_iff, !N.eqb_eq, !in_range_spec. lia.
Qed.

Lemma utf8_decode_cons a l1 :
  utf8_decode (a :: l1) =
    if a <? 128 then t ← utf8_decode l1; Some (a :: t)
    else match l1 with
    | [] => None
    | b :: l2 =>
        if in_range 194 223 a && is_cont b then
          t ← utf8_decode l2; Some ((a - 192) * 64 + (b - 128) :: t)
        else match l2 with
        | [] => None
        | c :: l3 =>
            if second_of_three a b && is_cont c then
              t ← utf8_decode l3; Some ((a - 224) * 4096 + (b - 128) * 64 + (c - 128) :: t)
            else match l3 with
            | [] => None
            | d :: l4 =>
                if second_of_four a b && is_cont c && is_cont d then
                  t ← utf8_decode l4;
                  Some ((a - 240) * 262144 + (b - 128) * 4096 + (c - 128) * 64 + (d - 128) :: t)
                else None
            end
        end
    end.
Proof. done. Qed.

Lemma bind_Some_is_Some {A B} (o : option A) (f : A -> B) :
  is_Some (t ← o; Some (f t)) <-> is_Some o.
Proof. destruct o; simpl; split; intros [? ?]; try done; by eexists. Qed.

Lemma lead_classes a :
  (in_range 194 223 a = true -> (forall b, second_of_three a b = false) /\ (forall b, second_of_four a b = false)) /\
  (in_range 224 239 a = true -> in_range 194 223 a = false /\ forall b, second_of_four a b = false) /\
  (in_range 240 244 a = true ->
     in_range 194 223 a = false /\ in_range 224 239 a = false /\ forall b, second_of_three a b = false) /\
  (in_range 224 239 a = false -> forall b, second_of_three a b = false) /\
  (in_range 240 244 a = false -> forall b, second_of_four a b = false).
Proof.
  assert (H3 : in_range 224 239 a = false -> forall b, second_of_three a b = false).
  { intros H b. destruct (second_of_three a b) eqn:E; [|done]. apply second_of_three_lead in E. congruence. }
  assert (H4 : in_range 240 244 a = false -> forall b, second_of_four a b = false).
  { intros H b. destruct (second_of_four a b) eqn:E; [|done]. apply second_of_four_lead in E. congruence. }
  split_and!; try done; intros H%in_range_spec; split_and?;
    try apply H3; try apply H4; apply in_range_false; lia.
Qed.

(** Validation accepts exactly what decodes. *)
Lemma utf8_error_decode l index : utf8_error index l = None <-> is_Some (utf8_decode l).
Proof.
  revert index. induction l as [l IH] using (induction_ltof1 _ (@length N)); unfold ltof in IH.
  intros index. destruct l as [|a l1]; [by split; [eexists|]|].
  rewrite utf8_decode_cons. cbn [utf8_error]. cbv zeta.
  destruct (lead_classes a) as (L2 & L3 & L4 & N3 & N4).
  destruct (a <? 128); [rewrite bind_Some_is_Some; apply IH; simpl; lia|].
  destruct (in_range 194 223 a) eqn:E2; [destruct (L2 eq_refl) as [T3 T4]|clear L2].
  { destruct l1 as [|b l2]; [by split; [|intros []]|]. simpl.
    destruct (is_cont b); [rewrite bind_Some_is_Some; apply IH; simpl; lia|].
    rewrite T3, T4. destruct l2 as [|? [|]]; simpl; by split; [|intros []]. }
  destruct (in_range 224 239 a) eqn:E3; [destruct (L3 eq_refl) as [_ T4]|specialize (N3 eq_refl); clear L3].
  { destruct l1 as [|b [|c l3]]; simpl; [by split; [|intros []]| |].
    { destruct (second_of_three a b); by split; [|intros []]. }
    rewrite T4. destruct (second_of_three a b), (is_cont c); simpl;
      solve [rewrite bind_Some_is_Some; apply IH; simpl; lia | destruct l3; by split; [|intros []]]. }
  destruct (in_range 240 244 a) eqn:E4; [|specialize (N4 eq_refl)].
  { destruct l1 as [|b [|c [|d l4]]]; simpl; [by split; [|intros []]|..];
      rewrite ?N3; destruct (second_of_four a b); try (by split; [|intros []]);
      simpl; destruct (is_cont c); try (by split; [|intros []]);
      destruct (is_cont d); try (by split; [|intros []]).
    simpl. rewrite bind_Some_is_Some; apply IH; simpl; lia. }
  destruct l1 as [|b [|c [|d l4]]]; simpl; rewrite ?N3, ?N4; by split; [|intros []].
Qed.

(** ** What a row's own payload proves *)

Definition no_semantic_payload (object : list (string * json)) : Prop :=
  forall key, key ∈ SEMANTIC_KEYS -> obj_get key object = None.

(** The payload of an allowlisted system row, by subtype. *)
Definition payload_proves (subtype : string) (object : list (string * json)) : Prop :=
  (subtype = "turn_duration"%string ->
     obj_get "pendingWorkflowCount" object ∈ [None; Some (JNum 0)] /\
     present_not_u64 "durationMs" object = false /\ present_not_u64 "messageCount" object = false) /\
  (subtype = "stop_hook_summary"%string ->
     obj_get "preventedContinuation" object = Some (JBool false) /\
     forall key, key ∈ HOOK_FEEDBACK_KEYS -> obj_get key object ∈ [None; Some (JArr [])]) /\
  (subtype = "api_error"%string ->
     forall key, key ∈ RETRY_KEYS -> exists n, obj_get key object = Some (JNum n)) /\
  no_semantic_payload object.

Lemma first_refused_Ok check keys :
  first_refused check keys = Ok tt <-> forall key, key ∈ keys -> check key = None.
Proof.
  induction keys as [|k keys IH]; simpl.
  - split; [intros _ ? []%elem_of_nil|done].
  - destruct (check k) eqn:E.
    + split; [done|]. intros H. rewrite H in E; [done|by apply elem_of_cons; left].
    + rewrite IH. split.
      * intros H ? [->|?]%elem_of_cons; auto.
      * intros H ? ?. apply H. by apply elem_of_cons; right.
Qed.

Lemma contains_key_false k object : contains_key k object = false <-> obj_get k object = None.
Proof. unfold contains_key. by destruct (obj_get k object). Qed.

Lemma reject_semantic_payload_Ok object u s :
  reject_semantic_payload object u s = Ok tt <-> no_semantic_payload object.
Proof.
  unfold reject_semantic_payload, no_semantic_payload. rewrite first_refused_Ok.
  split; intros H key Hk; specialize (H key Hk).
  - apply contains_key_false. by destruct (contains_key key object).
  - by apply contains_key_false in H as ->.
Qed.

Lemma unit_bind_Ok {A E} (r : result unit E) (k : result A E) x :
  (let? _ := r in k) = Ok x <-> r = Ok tt /\ k = Ok x.
Proof. destruct r as [[]|]; simpl; naive_solver. Qed.

Lemma as_u64_Some j n : as_u64 j = Some n <-> j = JNum n.
Proof. destruct j; simpl; naive_solver. Qed.

Lemma prove_turn_duration_inert_Ok object u :
  prove_turn_duration_inert object u = Ok tt <-> payload_proves "turn_duration" object.
Proof.
  unfold prove_turn_duration_inert, payload_proves. rewrite unit_bind_Ok.
  assert (Hp : (match obj_get "pendingWorkflowCount" object with
    | None => Ok tt
    | Some value =>
        if bool_decide (as_u64 value = Some 0) then Ok tt
        else Err (schema u "$.pendingWorkflowCount"
               "turn_duration announces pending workflow work, so the turn is not proven over")
    end) = @Ok unit TranscriptError tt <-> obj_get "pendingWorkflowCount" object ∈ [None; Some (JNum 0)]).
  { rewrite !elem_of_cons. destruct (obj_get "pendingWorkflowCount" object) as [v|]; [|naive_solver].
    case_bool_decide as E; [apply as_u64_Some in E as ->; naive_solver|].
    split; [done|]. intros [?|[[= ->]|?%elem_of_nil]]; done. }
  rewrite Hp. destruct (present_not_u64 "durationMs" object), (present_not_u64 "messageCount" object);
    rewrite ?reject_semantic_payload_Ok; naive_solver.
Qed.

Lemma prove_stop_hook_summary_inert_Ok object u :
  prove_stop_hook_summary_inert object u = Ok tt <-> payload_proves "stop_hook_summary" object.
Proof.
  unfold prove_stop_hook_summary_inert, payload_proves.
  rewrite !unit_bind_Ok, first_refused_Ok, reject_semantic_payload_Ok.
  assert (Hk : forall key, match obj_get key object with
         | None | Some (JArr []) => None
         | _ => Some (schema u (field_path "$" key)
                        "stop_hook_summary hook feedback must be absent or an empty array")
         end = None <-> obj_get key object ∈ [None; Some (JArr [])]).
  { intros key. rewrite !elem_of_cons, elem_of_nil.
    destruct (obj_get key object) as [[| | | | | |[]|]|]; naive_solver. }
  setoid_rewrite Hk.
  destruct (obj_get "preventedContinuation" object) as [[|[]| | | | | |]|]; naive_solver.
Qed.

Lemma prove_api_error_Ok object u :
  prove_api_error_is_a_retry_record object u = Ok tt <-> payload_proves "api_error" object.
Proof.
  unfold prove_api_error_is_a_retry_record, payload_proves.
  rewrite unit_bind_Ok, first_refused_Ok, reject_semantic_payload_Ok.
  assert (Hk : forall key, match obj_get key object ≫= as_u64 with
         | Some _ => None
         | None => Some (schema u (field_path "$" key)
             "api_error requires retryAttempt and maxRetries as non-negative integers to prove it is a retry record")
         end = None <-> exists n, obj_get key object = Some (JNum n)).
  { intros key. destruct (obj_get key object) as [j|]; simpl; [|naive_solver].
    destruct (as_u64 j) as [n|] eqn:E; [apply as_u64_Some in E as ->; naive_solver|].
    split; [done|]. intros [n [= ->]]. done. }
  setoid_rewrite Hk. naive_solver.
Qed.

Lemma optional_string_Ok object key parent u o :
  optional_string object key parent u = Ok o ->
  get_str key object = o /\ (o = None -> obj_get key object ∈ [None; Some JNull]).
Proof.
  unfold optional_string, get_str. rewrite !elem_of_cons.
  destruct (obj_get key object) as [[]|]; simpl; naive_solver.
Qed.

Lemma get_str_optional object key parent u s :
  get_str key object = Some s -> optional_string object key parent u = Ok (Some s).
Proof.
  unfold optional_string, get_str. destruct (obj_get key object) as [[]|]; simpl; naive_solver.
Qed.

Lemma parse_system_shape object u k :
  parse_system Strict object u = Ok k <->
  exists sub, optional_string object "subtype" "$" u = Ok sub /\ k = System (mkSystemRow sub) /\
    (if bool_decide (sub = Some "turn_duration"%string) then payload_proves "turn_duration" object
     else if bool_decide (sub = Some "stop_hook_summary"%string) then payload_proves "stop_hook_summary" object
     else if bool_decide (sub = Some "api_error"%string) then payload_proves "api_error" object
     else True).
Proof.
  unfold parse_system. destruct (optional_string object "subtype" "$" u) as [sub|e]; simpl;
    [|split; [done|by intros (? & ? & _)]].
  rewrite unit_bind_Ok. repeat case_bool_decide; simpl;
    rewrite ?prove_turn_duration_inert_Ok, ?prove_stop_hook_summary_inert_Ok, ?prove_api_error_Ok;
    (split; [intros [? [= <-]]; exists sub; repeat case_bool_decide; done
            |intros (? & [= <-] & -> & Hp); repeat case_bool_decide; done]).
Qed.

(** A system row is accepted exactly when its subtype is readable and, if the
    subtype is one the active chain admits, the row's own payload proves what the
    subtype is admitted for: a [turn_duration] announces no pending work, a
    [stop_hook_summary] says the stop was not prevented and fed nothing back, an
    [api_error] is a retry record, and none of them carries a message. *)
Theorem system_rows_are_proven object u k :
  parse_system Strict object u = Ok k <->
  exists sub, optional_string object "subtype" "$" u = Ok sub /\ k = System (mkSystemRow sub) /\
    (is_admitted_on_active_chain (mkSystemRow sub) = true ->
     exists name, sub = Some name /\ payload_proves name object).
Proof.
  rewrite parse_system_shape. unfold is_admitted_on_active_chain, is_proven_inert_marker, is_retry_in_flight_marker.
  split; intros (sub & Hs & Hk & H); exists sub; (split_and!; [done..|]); unfold subtype_is in *; simpl in *.
  - rewrite !orb_true_iff, !bool_decide_eq_true. intros Hadm. destruct sub as [name|]; [|naive_solver].
    exists name. split; [done|]. repeat case_bool_decide; naive_solver.
  - repeat case_bool_decide; simplify_eq; try done; by destruct H as (? & [= <-] & ?).
Qed.

(** ** What an object says

    Fields as the object has them: a string or a flag that is absent or null says nothing,
    and nothing else stands in its place. *)

Definition unsaid (key : string) (object : list (string * json)) : Prop := obj_get key object ∈ [None; Some JNull].

Definition says (key : string) (object : list (string * json)) (value : option string) : Prop :=
  match value with Some s => obj_get key object = Some (JStr s) | None => unsaid key object end.

Definition flags (key : string) (object : list (string * json)) (value : option bool) : Prop :=
  match value with Some b => obj_get key object = Some (JBool b) | None => unsaid key object end.

Lemma optional_string_says object key parent u v : optional_string object key parent u = Ok v -> says key object v.
Proof.
  unfold optional_string, says, unsaid. destruct (obj_get key object) as [[]|] eqn:E; intros [= <-]; rewrite ?elem_of_cons; auto.
Qed.

Lemma optional_bool_flags object key parent u v : optional_bool object key parent u = Ok v -> flags key object v.
Proof.
  unfold optional_bool, flags, unsaid. destruct (obj_get key object) as [[]|] eqn:E; intros [= <-]; rewrite ?elem_of_cons; auto.
Qed.

Lemma get_str_says key object s : get_str key object = Some s <-> obj_get key object = Some (JStr s).
Proof. unfold get_str. destruct (obj_get key object) as [[]|]; cbn; naive_solver. Qed.

Lemma as_object_Some j o : as_object j = Some o <-> j = JObj o.
Proof. destruct j; cbn; naive_solver. Qed.

Lemma as_array_Some j l : as_array j = Some l <-> j = JArr l.
Proof. destruct j; cbn; naive_solver. Qed.

(** *** The scope of a row *)

(** The row names an agent team. *)
Definition names_team (object : list (string * json)) : Prop :=
  exists key value, key ∈ ["teamName"; "teamId"; "teammateName"; "teammateId"; "agentName"; "agentId"]%string /\
    obj_get key object = Some value /\ value <> JNull.

Definition scope_of (object : list (string * json)) (s : RowScope) : Prop :=
  let meta := flags "isMeta" object (Some true) in
  let sidechain := flags "isSidechain" object (Some true) in
  match s with
  | Meta => meta
  | Team => ~ meta /\ names_team object
  | Sidechain => ~ meta /\ ~ names_team object /\ sidechain
  | Main => ~ meta /\ ~ names_team object /\ ~ sidechain
  end.

Lemma team_fields object : existsb (present_not_null object) TEAM_FIELDS = true <-> names_team object.
Proof.
  unfold names_team. rewrite existsb_exists. split.
  - intros (key & Hk%list_elem_of_In & Hp). unfold present_not_null in Hp. destruct (obj_get key object) as [v|] eqn:E; [|done].
    exists key, v. split_and!; [done..|]. by intros ->.
  - intros (key & v & Hk & Hv & Hn). exists key. split; [by apply list_elem_of_In|].
    unfold present_not_null. rewrite Hv. by destruct v.
Qed.

Lemma flags_default key object parent u v :
  optional_bool object key parent u = Ok v -> (default false v = true <-> flags key object (Some true)).
Proof.
  intros Hf%optional_bool_flags. unfold flags, unsaid in *. destruct v as [[]|]; cbn; [done|split; congruence|].
  rewrite !elem_of_cons in Hf. split; [done|]. intros E. rewrite E in Hf. destruct Hf as [?|[?|?%elem_of_nil]]; done.
Qed.

Lemma parse_scope_says object u s : parse_scope object u = Ok s -> scope_of object s.
Proof.
  unfold parse_scope. intros H. apply result_bind_Ok in H as (meta & Hm%flags_default & H). unfold scope_of. cbv zeta.
  pose proof (team_fields object) as Ht. destruct (default false meta); [injection H as <-; by apply Hm|].
  assert (Hn : ~ flags "isMeta" object (Some true)) by (intros E%Hm; done).
  destruct (existsb _ TEAM_FIELDS); [injection H as <-; split; [done|by apply Ht]|].
  assert (Hnt : ~ names_team object) by (intros E%Ht; done).
  apply result_bind_Ok in H as (side & Hs%flags_default & H).
  destruct (default false side); injection H as <-; split_and!; try done; [by apply Hs|by intros E%Hs].
Qed.

(** *** Content blocks *)

(** What a block of an assistant's message is; whatever cannot be read is kept as it is. *)
Definition block_says (value : json) (b : ContentBlock) : Prop :=
  let typed name := json_get "type" value = Some (JStr name) in
  match b with
  | Text text => typed "text"%string /\ json_get "text" value = Some (JStr text)
  | Thinking thinking => typed "thinking"%string /\ json_get "thinking" value = Some (JStr thinking)
  | ToolUse id name input =>
      typed "tool_use"%string /\ json_get "id" value = Some (JStr id) /\ json_get "name" value = Some (JStr name) /\
      input = default JNull (json_get "input" value)
  | UnknownBlock declared raw =>
      raw = value /\ declared = json_get "type" value ≫= json_as_str /\
      (typed "text"%string -> forall t, json_get "text" value <> Some (JStr t)) /\
      (typed "thinking"%string -> forall t, json_get "thinking" value <> Some (JStr t)) /\
      (typed "tool_use"%string -> forall id name, ~ (json_get "id" value = Some (JStr id) /\ json_get "name" value = Some (JStr name)))
  end.

Lemma unknown_block_says value declared :
  json_get "type" value ≫= json_as_str = declared ->
  (declared = Some "text"%string -> json_get "text" value ≫= json_as_str = None) ->
  (declared = Some "thinking"%string -> json_get "thinking" value ≫= json_as_str = None) ->
  (declared = Some "tool_use"%string -> json_get "id" value ≫= json_as_str = None \/ json_get "name" value ≫= json_as_str = None) ->
  block_says value (UnknownBlock declared value).
Proof.
  intros <- H1 H2 H3. split; [done|]. split; [done|].
  split_and!; intros E; rewrite E in *; cbn in *; [specialize (H1 eq_refl)|specialize (H2 eq_refl)|destruct (H3 eq_refl) as [Hn|Hn]];
    [intros t Et; by rewrite Et in H1|intros t Et; by rewrite Et in H2|intros i n [Ei En]; by rewrite Ei in Hn|intros i n [Ei En]; by rewrite En in Hn].
Qed.

Lemma parse_content_block_says value : block_says value (parse_content_block value).
Proof.
  unfold parse_content_block. destruct (as_object value) as [o|] eqn:Eo; [apply as_object_Some in Eo as ->|].
  2: { by apply unknown_block_says; destruct value. }
  destruct (bool_decide_reflect (get_str "type" o = Some "text"%string)) as [Et|Hn].
  { destruct (get_str "text" o) as [x|] eqn:Ex; [by apply get_str_says in Et, Ex|by apply unknown_block_says]. }
  destruct (bool_decide_reflect (get_str "type" o = Some "thinking"%string)) as [Et|Hn2].
  { destruct (get_str "thinking" o) as [x|] eqn:Ex; [by apply get_str_says in Et, Ex|by apply unknown_block_says]. }
  destruct (bool_decide_reflect (get_str "type" o = Some "tool_use"%string)) as [Et|Hn3].
  { destruct (get_str "id" o) as [x|] eqn:Ex; [|by apply unknown_block_says; auto].
    destruct (get_str "name" o) as [y|] eqn:Ey; [by apply get_str_says in Et, Ex, Ey|by apply unknown_block_says; auto]. }
  apply unknown_block_says; done.
Qed.

Definition is_tool_result (block : json) : bool := bool_decide (json_get "type" block ≫= json_as_str = Some "tool_result"%string).

Definition tool_result_of (block : json) (r : ToolResultBlock) : Prop :=
  exists o, block = JObj o /\ obj_get "type" o = Some (JStr "tool_result") /\
    obj_get "tool_use_id" o = Some (JStr (tool_use_id r)) /\
    content r = default JNull (obj_get "content" o) /\ flags "is_error" o (is_error r).

(** *** Usage *)

(** One count: a safe integer, or nothing at all for none. *)
Definition counts (key : string) (object : list (string * json)) (n : N) : Prop :=
  n <= MAX_SAFE_JSON_INTEGER /\ (obj_get key object = Some (JNum n) \/ n = 0 /\ unsaid key object).

Definition usage_says (value : json) (u : UsageSnapshot) : Prop :=
  exists object, value = JObj object /\ us_raw u = value /\
    counts "input_tokens" object (input_tokens (us_tokens u)) /\
    counts "output_tokens" object (output_tokens (us_tokens u)) /\
    counts "cache_creation_input_tokens" object (cache_creation_input_tokens (us_tokens u)) /\
    counts "cache_read_input_tokens" object (cache_read_input_tokens (us_tokens u)).

Lemma usage_token_counts o u name n : usage_token o u name = Ok n -> counts name o n.
Proof.
  unfold usage_token, counts, unsaid. intros (v & Hv & H)%result_bind_Ok.
  destruct (N.ltb_spec MAX_SAFE_JSON_INTEGER v); [done|]. injection H as <-. split; [done|]. rewrite !elem_of_cons.
  destruct (obj_get name o) as [[]|]; cbn in Hv; try (injection Hv as <-); auto; done.
Qed.

Lemma parse_usage_says value u s : parse_usage value Strict u = Ok s -> usage_says value s.
Proof.
  unfold parse_usage, usage_says. destruct (as_object value) as [o|] eqn:Eo; [|done]. apply as_object_Some in Eo as ->. intros H.
  res_inv. subst. exists o. cbn. split_and!; try done; by eapply usage_token_counts.
Qed.

(** *** Kinds *)

(** What the kind of a strictly parsed row says of the object it was read from. *)
Definition kind_of_object (object : list (string * json)) (k : RowKind) : Prop :=
  let typed name := says "type" object (Some name) in
  let user message prompt_source :=
    typed "user"%string /\ obj_get "message" object = Some (JObj message) /\
    (says "role" message None \/ says "role" message (Some "user"%string)) /\ says "promptSource" object prompt_source in
  match k with
  | TypedUser prompt prompt_id =>
      exists message, user message (Some "typed"%string) /\ obj_get "content" message = Some (JStr prompt) /\
        says "promptId" object prompt_id
  | UserToolResults results =>
      exists message prompt_source blocks, user message prompt_source /\ prompt_source <> Some "typed"%string /\ results <> [] /\
        obj_get "content" message = Some (JArr blocks) /\ Forall2 tool_result_of blocks results
  | UserOther =>
      exists message prompt_source, user message prompt_source /\ prompt_source <> Some "typed"%string /\
        forall blocks, obj_get "content" message = Some (JArr blocks) -> Forall (fun block => is_tool_result block = false) blocks
  | Assistant f =>
      typed "assistant"%string /\
      exists message blocks top inner, obj_get "message" object = Some (JObj message) /\
        obj_get "content" message = Some (JArr blocks) /\ Forall2 block_says blocks (af_blocks f) /\
        says "id" message (message_id f) /\ says "requestId" object (request_id f) /\ says "model" message (af_model f) /\
        says "stop_reason" message (af_stop_reason f) /\
        flags "isApiErrorMessage" object top /\ flags "isApiErrorMessage" message inner /\
        (af_is_api_error f = true <-> top = Some true \/ inner = Some true) /\
        match af_usage f with
        | None => unsaid "usage" message
        | Some u => exists value, obj_get "usage" message = Some value /\ usage_says value u
        end
  | Attachment t =>
      typed "attachment"%string /\ is_supported_attachment_type t = true /\
      exists attachment, obj_get "attachment" object = Some (JObj attachment) /\ says "type" attachment (Some t)
  | System s =>
      typed "system"%string /\ says "subtype" object (subtype s) /\
      (is_admitted_on_active_chain s = true -> exists name, subtype s = Some name /\ payload_proves name object)
  | Metadata t => typed t /\ is_metadata_record t = true
  | Unknown t =>
      says "type" object t /\
      forall name, t = Some name -> (name ∉ ["user"; "assistant"; "attachment"; "system"]%string) /\ is_metadata_record name = false
  end.

Lemma user_blocks_all u blocks : forall index results first results' first',
  user_blocks Strict u index blocks results first = Ok (results', first') ->
  (first' = None -> first = None /\
     exists new, results' = results ++ new /\ Forall2 tool_result_of blocks new) /\
  (results' = [] -> results = [] /\ Forall (fun block => is_tool_result block = false) blocks).
Proof.
  induction blocks as [|b blocks IH]; intros index results first results' first' H; cbn [user_blocks] in H.
  { injection H as -> ->. split; [|by intros ->]. intros ->. split; [done|]. exists []. by rewrite app_nil_r. }
  assert (Hskip : is_tool_result b = false ->
    user_blocks Strict u (index + 1) blocks results (get_or_insert first index) = Ok (results', first') ->
    (first' = None -> first = None /\ exists new, results' = results ++ new /\ Forall2 tool_result_of (b :: blocks) new) /\
    (results' = [] -> results = [] /\ Forall (fun block => is_tool_result block = false) (b :: blocks))).
  { intros Hb [Hn He]%IH. split; [intros [? _]%Hn; done|]. intros [? ?]%He. split; [done|by constructor]. }
  unfold is_tool_result in Hskip. destruct b as [| | | | | | |o]; cbn in H, Hskip; try by apply Hskip.
  destruct (bool_decide_reflect (get_str "type" o = Some "tool_result"%string)) as [Ht|Ht]; cbn in H; [|by apply Hskip; [apply bool_decide_eq_false_2|]].
  clear Hskip. destruct (get_str "tool_use_id" o) as [id|] eqn:Eid; [|done].
  apply result_bind_Ok in H as (ie & Hie%optional_bool_flags & H). apply IH in H as [Hn He]. split.
  - intros [-> (new & -> & Hnew)]%Hn. split; [done|]. eexists (_ :: new). rewrite <-app_assoc. split; [done|]. constructor; [|done].
    exists o. cbn. by split_and!; [done|apply get_str_says..| |].
  - intros [[_ ?]%app_eq_nil _]%He. done.
Qed.

Lemma parse_user_kind object u k :
  says "type" object (Some "user"%string) -> parse_user Strict object u = Ok k -> kind_of_object object k.
Proof.
  intros Ht. unfold parse_user. destruct (obj_get "message" object) as [m|] eqn:Em; [|done]. cbn [mbind option_bind].
  destruct (as_object m) as [message|] eqn:Eo; [|done]. apply as_object_Some in Eo as ->. intros H.
  apply result_bind_Ok in H as (role & Hr%optional_string_says & H).
  destruct (is_strict Strict && _) eqn:Hrole in H; [done|]. apply result_bind_Ok in H as (source & Hs%optional_string_says & H).
  assert (Hrole' : says "role" message None \/ says "role" message (Some "user"%string)).
  { destruct role as [role|]; [right|by left]. cbn in Hrole. apply negb_false_iff, String.eqb_eq in Hrole. by subst. }
  case_bool_decide as Hty.
  - subst. destruct (get_str "content" message) as [prompt|] eqn:Ep; [|done]. apply get_str_says in Ep.
    apply result_bind_Ok in H as (id & Hid%optional_string_says & [= <-]). cbn. eauto 10.
  - destruct (obj_get "content" message ≫= as_array) as [blocks|] eqn:Ec.
    2: { injection H as <-. exists message, source. split_and!; [done..|]. intros blocks Hb. by rewrite Hb in Ec. }
    assert (Ec' : obj_get "content" message = Some (JArr blocks))
      by (destruct (obj_get "content" message) as [c|]; [|done]; cbn in Ec; by apply as_array_Some in Ec as ->).
    apply result_bind_Ok in H as ([results first] & [Hn He]%user_blocks_all & H).
    destruct results as [|r results].
    + injection H as <-. destruct (He eq_refl) as [_ Hf]. exists message, source. split_and!; [done..|].
      intros blocks' Hb. rewrite Ec' in Hb. by injection Hb as <-.
    + destruct first; [done|]. injection H as <-. destruct (Hn eq_refl) as (_ & new & Enew & Hnew). cbn in Enew. subst new.
      exists message, source, blocks. by split_and!.
Qed.

Lemma parse_assistant_kind object u k :
  says "type" object (Some "assistant"%string) -> parse_assistant Strict object u = Ok k -> kind_of_object object k.
Proof.
  intros Ht. unfold parse_assistant. destruct (obj_get "message" object) as [m|] eqn:Em; [|done]. cbn [mbind option_bind].
  destruct (as_object m) as [message|] eqn:Eo; [|done]. apply as_object_Some in Eo as ->. intros H.
  apply result_bind_Ok in H as (blocks & Hb & H). apply result_bind_Ok in H as (top & Htop%optional_bool_flags & H).
  apply result_bind_Ok in H as (inner & Hinner%optional_bool_flags & H). apply result_bind_Ok in H as (usage & Hu & H). res_inv. subst.
  repeat match goal with
  | H : optional_nullable_string _ _ _ _ = Ok _ |- _ => apply optional_string_says in H
  | H : optional_string _ _ _ _ = Ok _ |- _ => apply optional_string_says in H
  end.
  destruct (obj_get "content" message) as [c|] eqn:Ec; [|done]. cbn [mbind option_bind] in Hb.
  destruct (as_array c) as [values|] eqn:Ea; [|done]. apply as_array_Some in Ea as ->. injection Hb as <-.
  split; [done|]. exists message, values, top, inner. cbn. split_and!; try done.
  - apply Forall2_fmap_r, Forall_Forall2_diag, Forall_forall. intros value _. apply parse_content_block_says.
  - rewrite orb_true_iff. destruct top as [[]|], inner as [[]|]; naive_solver.
  - unfold unsaid. destruct (obj_get "usage" message) as [v|]; [|injection Hu as <-; set_solver].
    destruct v; try (injection Hu as <-; set_solver); apply result_bind_Ok in Hu as (? & ?%parse_usage_says & [= <-]); eauto.
Qed.

Lemma parse_attachment_kind str_debug object u k :
  says "type" object (Some "attachment"%string) -> parse_attachment str_debug Strict object u = Ok k -> kind_of_object object k.
Proof.
  intros Ht. unfold parse_attachment. destruct (obj_get "attachment" object) as [m|] eqn:Em; [|done]. cbn [mbind option_bind].
  destruct (as_object m) as [attachment|] eqn:Eo; [|done]. apply as_object_Some in Eo as ->. intros H.
  apply result_bind_Ok in H as (ty & Hty%optional_string_says & H). destruct ty as [ty|]; [|done]. rewrite andb_true_r in H.
  destruct (is_supported_attachment_type ty) eqn:E; cbn in H; [|done]. injection H as <-. split_and!; eauto.
Qed.

Lemma parse_kind_of_object str_debug object u dt k :
  says "type" object dt -> parse_kind str_debug Strict object u dt = Ok k -> kind_of_object object k.
Proof.
  intros Ht. unfold parse_kind. destruct dt as [t|]; [|by intros [= <-]].
  destruct (String.eqb_spec t "user") as [->|Hn1]; [by apply parse_user_kind|].
  destruct (String.eqb_spec t "assistant") as [->|Hn2]; [by apply parse_assistant_kind|].
  destruct (String.eqb_spec t "attachment") as [->|Hn3]; [by apply parse_attachment_kind|].
  destruct (String.eqb_spec t "system") as [->|Hn4].
  { intros (sub & Hsub%optional_string_says & -> & H)%parse_system_shape. split_and!; [done..|]. intros Hadm.
    unfold is_admitted_on_active_chain, is_proven_inert_marker, is_retry_in_flight_marker, subtype_is in Hadm.
    cbn in Hadm. destruct sub as [name|]; [|done]. exists name. split; [done|].
    repeat case_bool_decide; naive_solver. }
  destruct (is_metadata_record t) eqn:E; intros [= <-]; [done|]. split; [done|]. intros name [= <-]. split; [|done].
  rewrite !elem_of_cons. intros [?|[?|[?|[?|?%elem_of_nil]]]]; done.
Qed.

(** C33. A line is parsed into a row that says what its bytes say: the bytes are
    UTF-8 and one JSON object; the row keeps that object whole with its location; its uuid,
    parent and session are that object's strings, or absent or null there; its scope is the
    one the object's flags and team names give; and its kind is exactly what the object says:
    the prompt somebody typed, tool results only and in order, a user row without either, an
    assistant's fragment with its blocks, ids, model, stop reason, error flag and token
    counts (each within the protocol's safe integers), an attachment, a system row whose
    payload proves what its subtype is admitted for, metadata, or a type this parser does not
    know. Every row that takes part in the parent graph has a uuid. *)
Theorem parsed_rows_are_well_formed str_debug from_slice l r :
  parse str_debug from_slice Strict l = Ok r ->
  is_Some (utf8_decode (line_text l)) /\ source r = location l /\
  exists object, from_slice (line_text l) = Ok (JObj object) /\ raw r = JObj object /\
    says "uuid" object (uuid (common r)) /\ says "parentUuid" object (parent_uuid (common r)) /\
    says "sessionId" object (session_id (common r)) /\ scope_of object (scope (common r)) /\
    kind_of_object object (kind r) /\
    (requires_uuid (kind r) = true -> is_Some (uuid (common r))).
Proof.
  unfold parse. intros H. apply result_bind_Ok in H as ([] & Hutf & H). apply result_bind_Ok in H as (raw & Hraw%map_err_Ok & H).
  apply result_bind_Ok in H as (object & Ho%ok_or_Ok & H). apply as_object_Some in Ho as ->.
  apply result_bind_Ok in H as (id & Hid%optional_string_says & H). apply result_bind_Ok in H as (parent & Hp%optional_string_says & H).
  apply result_bind_Ok in H as (session & Hs%optional_string_says & H). apply result_bind_Ok in H as (sc & Hsc%parse_scope_says & H).
  apply result_bind_Ok in H as (dt & Hdt%optional_string_says & H). apply result_bind_Ok in H as (k & Hk & H).
  destruct (_ && _ && _) eqn:G in H; [done|]. injection H as <-. cbn. split; [|split; [done|]].
  { apply (utf8_error_decode _ 0). unfold from_utf8 in *. by destruct (utf8_error 0 (line_text l)). }
  exists object. split_and!; try done.
  - by eapply parse_kind_of_object.
  - intros Hr. rewrite Hr, andb_true_r in G. cbn in G. case_bool_decide; [done|]. by destruct id; [eexists|].
Qed.

(** A reader of one document, for the witness. *)
Definition one_document (bytes : list N) (doc : json) (l : list N) : result json string :=
  if bool_decide (l = bytes) then Ok doc else Err "expected value"%string.

(** An answer with its usage, of a side chain. *)
Definition an_answer : list (string * json) :=
  [("uuid", JStr "u2"); ("parentUuid", JStr "u1"); ("sessionId", JStr "7"); ("type", JStr "assistant"); ("isSidechain", JBool true);
   ("message", jobj [("id", JStr "m1"); ("model", JStr "opus"); ("stop_reason", JStr "end_turn");
                     ("content", JArr [jobj [("type", JStr "text"); ("text", JStr "done")]]);
                     ("usage", jobj [("input_tokens", JNum 11); ("output_tokens", JNum 7)])])]%string.

Lemma parsed_rows_are_well_formed_witness :
  exists r f, parse id (one_document (text_of "{answer}") (JObj an_answer)) Strict
                (mkCompleteLine (mkSourceLocation 3 40) (text_of "{answer}")) = Ok r /\
    kind r = Assistant f /\ kind_of_object an_answer (Assistant f) /\ scope_of an_answer Sidechain /\
    (af_model f, af_stop_reason f, us_tokens <$> af_usage f) = (Some "opus", Some "end_turn", Some (mkTokenUsage 11 7 0 0))%string.
Proof.
  destruct (parse id (one_document (text_of "{answer}") (JObj an_answer)) Strict
              (mkCompleteLine (mkSourceLocation 3 40) (text_of "{answer}"))) as [r|e] eqn:E;
    [|vm_compute in E; discriminate E].
  destruct (parsed_rows_are_well_formed _ _ _ _ E) as (_ & _ & object & Hs & _ & _ & _ & _ & Hsc & Hk & _).
  vm_compute in Hs. injection Hs as <-.
  vm_compute in E. injection E as <-. eexists _, _. split_and!; [reflexivity|reflexivity|exact Hk|exact Hsc|reflexivity].
Defined.
