(* ===== verification/Engine.v ===== *)
(** * The transcript engine

    [crates/claude/src/engine.rs]: what a transcript proves about the armed turn. The
    engine accumulates parsed rows, recognises the row that acknowledges the typed
    prompt, follows the parent graph from it, groups assistant fragments into logical
    messages, pairs tool calls with their results, adds up usage and says whether the
    turn is over.

    A [HashMap] is a [gmap], a [HashSet] a [gset]; the stack [pending] of the graph
    search is written top first. A call fails with the error it returns or panics; a
    loop with no structural bound carries fuel, and running out is a third fault.
    [EnginePath] shows that neither a panic nor [OutOfFuel] happens. Indexing is
    [!!!]: every index comes from enumerating the rows or from [by_uuid], whose
    entries are in range ([engine_ok] in [EngineIngest]), so the default is never read.
    The work counter ([TranscriptAnalysisWork]) is a diagnostic and left out. *)

From S2P Require Import Prelude Text Protocol Composer Transcript.

Inductive Fault :=
| Failed (e : TranscriptError)
| Panicked (message : string)
| OutOfFuel.

Abbreviation fail e := (Err (Failed e)).

Inductive IngestOutcome :=
| Added (ordinal : N)
| PromptAcknowledged (acknowledgement : PromptAcknowledgement)
| DuplicateIgnored (uuid : string).

Record StoredRow := mkStoredRow { ordinal : N; row : ParsedRow }.

#[global] Instance StoredRow_inhabited : Inhabited StoredRow :=
  populate (mkStoredRow 0 (mkParsedRow (mkSourceLocation 0 0) (mkCommonFields None None None Main)
                             UserOther JNull)).

Record ActiveTurn := mkActiveTurn {
  expected_prompt : list N;
  armed_at_ordinal : N;
  acknowledgement : option PromptAcknowledgement;
}.

Record TranscriptEngine := mkTranscriptEngine {
  mode : ParseMode;
  rows : list StoredRow;
  by_uuid : gmap string nat;
  next_ordinal : N;
  active_turn : option ActiveTurn;
}.

Definition TranscriptEngine_new (m : ParseMode) : TranscriptEngine :=
  mkTranscriptEngine m [] ∅ 0 None.

Definition with_turn (t : option ActiveTurn) (e : TranscriptEngine) : TranscriptEngine :=
  mkTranscriptEngine (mode e) (rows e) (by_uuid e) (next_ordinal e) t.

Definition row_uuid (s : StoredRow) : option string := uuid (common (row s)).
Definition row_parent (s : StoredRow) : option string := parent_uuid (common (row s)).
Definition row_scope (s : StoredRow) : RowScope := scope (common (row s)).
Definition row_kind (s : StoredRow) : RowKind := kind (row s).

(** ** Arming and ingesting *)

Section Ingest.
Variable nfc : list N -> list N.

Definition arm_turn (prompt : list N) (e : TranscriptEngine) : result unit TranscriptError * TranscriptEngine :=
  match active_turn e with
  | Some _ => (Err TurnAlreadyArmed, e)
  | None => (Ok tt, with_turn (Some (mkActiveTurn (normalize_prompt nfc prompt) (next_ordinal e) None)) e)
  end.

Definition disarm_turn (e : TranscriptEngine) : result unit TranscriptError * TranscriptEngine :=
  match active_turn e with
  | None => (Err NoTurnArmed, with_turn None e)
  | Some _ => (Ok tt, with_turn None e)
  end.

(** Whether the row acknowledges the armed prompt. *)
Definition acknowledges (turn : option ActiveTurn) (at_ : N) (r : ParsedRow)
  : result (option PromptAcknowledgement) TranscriptError :=
  match turn, kind r with
  | Some turn, TypedUser prompt prompt_id =>
      if (armed_at_ordinal turn <=? at_) && bool_decide (scope (common r) = Main) then
        let actual := normalize_prompt nfc (chars prompt) in
        match acknowledgement turn with
        | Some _ => Err MultiplePromptAcknowledgements
        | None =>
            if negb (bool_decide (actual = expected_prompt turn)) then
              Err (UnexpectedTypedPrompt (expected_prompt turn) actual)
            else
              let? u := ok_or (uuid (common r))
                (SchemaDrift None "$.uuid" "acknowledged typed prompt requires a UUID") in
              Ok (Some (mkPromptAcknowledgement u prompt_id at_))
        end
      else Ok None
  | _, _ => Ok None
  end.

Definition set_acknowledgement (a : option PromptAcknowledgement) (turn : option ActiveTurn)
  : option ActiveTurn :=
  match a, turn with
  | Some _, Some t => Some (mkActiveTurn (expected_prompt t) (armed_at_ordinal t) a)
  | _, _ => turn
  end.

Definition ingest (r : ParsedRow) (e : TranscriptEngine) : result IngestOutcome Fault * TranscriptEngine :=
  match u ← uuid (common r); i ← by_uuid e !! u; Some (u, i) with
  | Some (u, existing_index) =>
      let existing := row (rows e !!! existing_index) in
      if json_eqb (raw existing) (raw r) then (Ok (DuplicateIgnored u), e)
      else (fail (ConflictingDuplicateRow u), e)
  | None =>
      let at_ := next_ordinal e in
      match acknowledges (active_turn e) at_ r with
      | Err x => (fail x, e)
      | Ok acknowledged =>
          let e' := mkTranscriptEngine (mode e) (rows e ++ [mkStoredRow at_ r])
            (match uuid (common r) with
             | Some u => <[u := length (rows e)]> (by_uuid e)
             | None => by_uuid e
             end)
            (saturating_add U64_MAX (next_ordinal e) 1)
            (set_acknowledgement acknowledged (active_turn e)) in
          (Ok (match acknowledged with Some a => PromptAcknowledged a | None => Added at_ end), e')
      end
  end.

End Ingest.

(** ** The active path *)

(** The indices of the rows that satisfy the predicate, in append order. *)
Fixpoint indices_from (p : nat -> StoredRow -> bool) (i : nat) (l : list StoredRow) : list nat :=
  match l with
  | [] => []
  | s :: l' => if p i s then i :: indices_from p (S i) l' else indices_from p (S i) l'
  end.

(** A main-scope row that is not a metadata record. *)
Definition main_row (s : StoredRow) : bool :=
  bool_decide (row_scope s = Main) && negb (is_metadata (row_kind s)).

Definition graph_rows (l : list StoredRow) (ack : PromptAcknowledgement) : list nat :=
  indices_from (fun _ s => (pa_ordinal ack <=? ordinal s) && main_row s) 0 l.

(** [map.entry(parent).or_default().push(index)]. *)
Definition push_child (m : gmap string (list nat)) (parent : string) (index : nat)
  : gmap string (list nat) :=
  <[parent := default [] (m !! parent) ++ [index]]> m.

Definition graph_children (l : list StoredRow) (graph : list nat) : gmap string (list nat) :=
  foldl (fun m index =>
           match row_parent (l !!! index) with
           | Some parent => push_child m parent index
           | None => m
           end) ∅ graph.

Definition all_uuid_to_index (l : list StoredRow) : gmap string nat :=
  foldl (fun m index =>
           match row_uuid (l !!! index) with
           | Some u => <[u := index]> m
           | None => m
           end) ∅ (indices_from (fun _ s => main_row s) 0 l).

(** The inner loop of the search: insert every child, push the new ones. *)
Definition visit_children (l : list StoredRow) (children : list nat) (st : gset nat * list string)
  : gset nat * list string :=
  foldl (fun st index =>
           let '(reachable, pending) := st in
           if bool_decide (index ∈ reachable) then (reachable, pending)
           else ({[index]} ∪ reachable,
                 match row_uuid (l !!! index) with Some u => u :: pending | None => pending end))
        st children.

Fixpoint child_search (fuel : nat) (l : list StoredRow) (children : gmap string (list nat))
    (reachable : gset nat) (pending : list string) : result (gset nat) Fault :=
  match pending with
  | [] => Ok reachable
  | parent :: pending =>
      match fuel with
      | O => Err OutOfFuel
      | S fuel =>
          match children !! parent with
          | None => child_search fuel l children reachable pending
          | Some cs =>
              let '(reachable, pending) := visit_children l cs (reachable, pending) in
              child_search fuel l children reachable pending
          end
      end
  end.

(** Enough for a search: every row is inserted at most once. *)
Definition search_fuel (l : list StoredRow) (pending : list string) : nat :=
  length pending + length l.

Fixpoint ancestor_walk (fuel : nat) (l : list StoredRow) (index : gmap string nat) (ack_index : nat)
    (seen : gset nat) (current : nat) (path : list nat) : result (option (list nat)) Fault :=
  match fuel with
  | O => Err OutOfFuel
  | S fuel =>
      match p ← row_parent (l !!! current); index !! p with
      | None => Ok None
      | Some parent =>
          let path := path ++ [parent] in
          if Nat.eqb parent ack_index then Ok (Some path)
          else if bool_decide (parent ∈ seen) then Ok None
          else ancestor_walk fuel l index ack_index ({[parent]} ∪ seen) parent path
      end
  end.

Definition ancestor_path_to_ack (l : list StoredRow) (start ack_index : nat) (index : gmap string nat)
  : result (option (list nat)) Fault :=
  ancestor_walk (S (length l)) l index ack_index {[start]} start [].

Definition is_live_semantic_row (k : RowKind) : bool :=
  match k with
  | TypedUser _ _ | UserToolResults _ | UserOther | Assistant _ => true
  | Attachment _ | System _ | Metadata _ | Unknown _ => false
  end.

(** A live row the search missed joins with its ancestors when they lead to the
    acknowledgement. *)
Definition join_ancestors (l : list StoredRow) (ack_index : nat) (index : gmap string nat)
    (reachable : gset nat) (i : nat) : result (gset nat) Fault :=
  if Nat.eqb i ack_index || bool_decide (i ∈ reachable) then Ok reachable
  else if is_live_semantic_row (row_kind (l !!! i)) then
    let? ancestors := ancestor_path_to_ack l i ack_index index in
    Ok (match ancestors with
        | Some ancestors => list_to_set ancestors ∪ ({[i]} ∪ reachable)
        | None => reachable
        end)
  else Ok reachable.

Definition uuids_of (l : list StoredRow) (s : gset nat) : list string :=
  omap (fun i => row_uuid (l !!! i)) (elements s).

Definition validate_reachable (l : list StoredRow) (ack : PromptAcknowledgement) (ack_index : nat)
    (index : gmap string nat) (_ : unit) (i : nat) : result unit Fault :=
  if Nat.eqb i ack_index then Ok tt
  else
    let stored := l !!! i in
    let? u := ok_or (row_uuid stored) (Failed (ActiveRowMissingUuid (ordinal stored))) in
    let? parent := ok_or (row_parent stored)
      (Failed (SchemaDrift (Some u) "$.parentUuid" "active main-chain row requires a parent UUID")) in
    let? parent_index := ok_or (index !! parent)
      (Failed (SchemaDrift (Some u) "$.parentUuid" "active main-chain row has no resolvable parent")) in
    if (pa_ordinal ack <=? ordinal stored) && (ordinal stored <=? ordinal (l !!! parent_index)) then
      fail (ParentAppendOrder u parent)
    else Ok tt.

Definition refuse_disconnected (l : list StoredRow) (ack_index : nat) (reachable : gset nat)
    (_ : unit) (i : nat) : result unit Fault :=
  if Nat.eqb i ack_index || bool_decide (i ∈ reachable) then Ok tt
  else if is_live_semantic_row (row_kind (l !!! i)) then
    fail (DisconnectedActiveRow
            (default ("ordinal:" +:+ pretty (ordinal (l !!! i)))%string (row_uuid (l !!! i))))
  else Ok tt.

Definition active_children (l : list StoredRow) (active : list nat)
  : result (gmap string (list nat)) Fault :=
  try_fold (fun m i =>
              let? parent := ok_or (row_parent (l !!! i))
                (Panicked "reachable active rows were validated to have parents") in
              Ok (push_child m parent i)) active ∅.

Definition leaf_count (l : list StoredRow) (children : gmap string (list nat)) (active : list nat) : nat :=
  length (List.filter (fun i => match row_uuid (l !!! i) with
                                | Some u => bool_decide (children !! u = None)
                                | None => false
                                end) active).

Fixpoint walk (fuel : nat) (l : list StoredRow) (children : gmap string (list nat))
    (current_uuid : string) (visited : gset string) (path : list nat) : result (list nat) Fault :=
  match children !! current_uuid with
  | None => Ok path
  | Some next =>
      match fuel with
      | O => Err OutOfFuel
      | S fuel =>
          match next with
          | [next] =>
              let path := path ++ [next] in
              let? u := ok_or (row_uuid (l !!! next))
                (Panicked "reachable active rows were validated to have UUIDs") in
              if bool_decide (u ∈ visited) then fail (ParentCycle u)
              else walk fuel l children u ({[u]} ∪ visited) path
          | _ => fail (AmbiguousActiveBranches (N.of_nat (length next)))
          end
      end
  end.

Section Analyze.
Variable str_debug : string -> string.

Definition opt_debug (o : option string) : string :=
  match o with Some s => ("Some(" +:+ str_debug s +:+ ")")%string | None => "None" end.

(** One row of the trailing check; the state is the first inert marker passed. *)
Definition validate_path_row (l : list StoredRow) (inert_marker : option string) (i : nat)
  : result (option string) Fault :=
  let stored := l !!! i in
  let drift path message := fail (SchemaDrift (row_uuid stored) path message) in
  match row_kind stored with
  | Unknown declared_type =>
      drift "$.type"%string
        ("unknown row type " +:+ opt_debug declared_type +:+ " is on the active parent chain")%string
  | UserOther => drift "$.message"%string "unrecognized user row is on the active parent chain"%string
  | System system =>
      if negb (is_admitted_on_active_chain system) then
        drift "$.subtype"%string ("unsupported active system subtype " +:+ opt_debug (subtype system))%string
      else Ok (if is_proven_inert_marker system && bool_decide (inert_marker = None)
               then subtype system else inert_marker)
  | Assistant _ | TypedUser _ _ | UserToolResults _ | Attachment _ =>
      match inert_marker with
      | Some marker =>
          drift "$.type"%string (marker +:+ " must be trailing on the active parent chain")%string
      | None => Ok inert_marker
      end
  | Metadata _ => Err (Panicked "metadata rows are excluded from the active graph")
  end.

Definition validate_strict_active_path (l : list StoredRow) (path : list nat) : result unit Fault :=
  let? _ := try_fold (validate_path_row l) (drop 1 path) None in Ok tt.

Record ActiveIndices := mkActiveIndices {
  ai_path : list nat;
  ai_included : list nat;
  ai_leaf_index : nat;
}.

(** The rows of the turn: reached from the acknowledgement, or joined to it. *)
Definition reachable_rows (l : list StoredRow) (ack : PromptAcknowledgement) (ack_index : nat)
  : result (gset nat) Fault :=
  let graph := graph_rows l ack in
  let children := graph_children l graph in
  let index := all_uuid_to_index l in
  let pending := [pa_row_uuid ack] in
  let? reachable := child_search (search_fuel l pending) l children {[ack_index]} pending in
  let? reachable := try_fold (join_ancestors l ack_index index) graph reachable in
  let pending := uuids_of l reachable in
  child_search (search_fuel l pending) l children reachable pending.

Definition strict_active_indices (e : TranscriptEngine) (ack : PromptAcknowledgement)
  : result ActiveIndices Fault :=
  let l := rows e in
  let? ack_index := ok_or (by_uuid e !! pa_row_uuid ack)
    (Failed (SchemaDrift (Some (pa_row_uuid ack)) "$.uuid"
               "acknowledged row disappeared from the UUID index")) in
  let index := all_uuid_to_index l in
  let? reachable_indices := reachable_rows l ack ack_index in
  let reachable :=
    indices_from (fun i s => bool_decide (i ∈ reachable_indices) && main_row s) 0 l in
  let? _ := try_fold (validate_reachable l ack ack_index index) reachable tt in
  let? _ := try_fold (refuse_disconnected l ack_index reachable_indices) (graph_rows l ack) tt in
  let? children := active_children l (List.filter (fun i => negb (Nat.eqb i ack_index)) reachable) in
  let leaves := leaf_count l children reachable in
  if (1 <? leaves)%nat then fail (AmbiguousActiveBranches (N.of_nat leaves))
  else
    let? path := walk (length l) l children (pa_row_uuid ack) {[pa_row_uuid ack]} [ack_index] in
    if negb (length path =? length reachable)%nat then
      fail (AmbiguousActiveBranches (N.of_nat (Nat.max leaves 2)))
    else
      let? _ := validate_strict_active_path l path in
      let? leaf := ok_or (last path) (Panicked "the path always contains the acknowledgement") in
      Ok (mkActiveIndices path path leaf).

Definition active_indices (e : TranscriptEngine) (ack : PromptAcknowledgement)
  : result ActiveIndices Fault :=
  match mode e with Strict => strict_active_indices e ack end.

(** ** Sidechains *)

(** The loop of [is_descendant_cached]: the answer and the rows walked. *)
Fixpoint descend (fuel : nat) (e : TranscriptEngine) (root : string) (allow_sidechain : bool)
    (cache : gmap string bool) (visited : gset string) (path : list string) (current : option string)
  : result (bool * list string) Fault :=
  match current with
  | None => Ok (false, path)
  | Some candidate =>
      match fuel with
      | O => Err OutOfFuel
      | S fuel =>
          match cache !! candidate with
          | Some reachable => Ok (reachable, path)
          | None =>
              if bool_decide (candidate ∈ visited) then fail (ParentCycle candidate)
              else match by_uuid e !! candidate with
              | None => Ok (false, path)
              | Some index =>
                  let r := rows e !!! index in
                  if negb (bool_decide (row_scope r = Main))
                     && negb (allow_sidechain && bool_decide (row_scope r = Sidechain)) then
                    Ok (false, path)
                  else if String.eqb candidate root then Ok (true, path)
                  else descend fuel e root allow_sidechain cache ({[candidate]} ∪ visited)
                         (path ++ [candidate]) (row_parent r)
              end
          end
      end
  end.

Definition is_descendant_cached (e : TranscriptEngine) (u root : string) (allow_sidechain : bool)
    (cache : gmap string bool) : result (bool * gmap string bool) Fault :=
  let? '(reachable, path) :=
    descend (S (S (size (by_uuid e)))) e root allow_sidechain cache ∅ [] (Some u) in
  Ok (reachable, foldl (fun cache candidate => <[candidate := reachable]> cache) cache path).

Definition is_assistant (k : RowKind) : bool :=
  match k with Assistant _ => true | _ => false end.

Definition sidechain_indices (e : TranscriptEngine) (ack : PromptAcknowledgement)
  : result (list nat) Fault :=
  let? '(indices, _) :=
    try_fold (fun (st : list nat * gmap string bool) (index : nat) =>
        let '(indices, cache) := st in
        let stored := rows e !!! index in
        if (ordinal stored <? pa_ordinal ack)
           || negb (bool_decide (row_scope stored = Sidechain))
           || negb (is_assistant (row_kind stored)) then Ok st
        else match row_uuid stored with
        | None => Ok st
        | Some u =>
            let? '(descendant, cache) := is_descendant_cached e u (pa_row_uuid ack) true cache in
            Ok (if descendant : bool then indices ++ [index] else indices, cache)
        end) (seq 0 (length (rows e))) ([], ∅) in
  Ok indices.

Definition sidechain_row_count (e : TranscriptEngine) (ack : PromptAcknowledgement) : N :=
  N.of_nat (length (List.filter
    (fun s => (pa_ordinal ack <=? ordinal s) && bool_decide (row_scope s = Sidechain)) (rows e))).

(** ** Logical messages *)

Definition message_key (stored : StoredRow) : result (option LogicalMessageKey) Fault :=
  match row_kind stored with
  | Assistant fragment =>
      match message_id fragment with
      | Some id => Ok (Some (MessageId id))
      | None =>
          match request_id fragment with
          | Some id => Ok (Some (RequestId id))
          | None =>
              match row_uuid stored with
              | Some u => Ok (Some (RowUuid u))
              | None => fail (SchemaDrift None "$.uuid" "assistant fragment has no grouping identity")
              end
          end
      end
  | _ => Ok None
  end.

Definition closes_nothing (k : RowKind) : bool :=
  match k with UserToolResults _ | Attachment _ => true | _ => false end.

(** One row of the contiguity check: the open identity and the closed ones. *)
Definition contiguity_row (l : list StoredRow)
    (st : option LogicalMessageKey * gset LogicalMessageKey) (i : nat)
  : result (option LogicalMessageKey * gset LogicalMessageKey) Fault :=
  let '(current, closed) := st in
  if closes_nothing (row_kind (l !!! i)) then Ok st
  else
    let? next := message_key (l !!! i) in
    if bool_decide (next = current) then Ok st
    else
      let closed := match current with Some previous => {[previous]} ∪ closed | None => closed end in
      match next with
      | Some key =>
          if bool_decide (key ∈ closed) then fail (InterleavedLogicalMessage key)
          else Ok (Some key, closed)
      | None => Ok (None, closed)
      end.

Definition validate_logical_message_contiguity (l : list StoredRow) (included : list nat)
  : result unit Fault :=
  let? _ := try_fold (contiguity_row l) included (None, ∅) in Ok tt.

Definition merge_optional_owned {T} `{EqDecision T} (target candidate : option T)
    (key : LogicalMessageKey) (field : string) (m : ParseMode) : result (option T) Fault :=
  match candidate with
  | None => Ok target
  | Some c =>
      match target with
      | None => Ok (Some c)
      | Some existing =>
          if bool_decide (existing = c) then Ok target
          else if is_strict m then fail (LogicalMessageConflict key field)
          else Ok (Some c)
      end
  end.

Definition merge_optional (target candidate : option string) (key : LogicalMessageKey)
    (field : string) (m : ParseMode) : result (option string) Fault :=
  merge_optional_owned target candidate key field m.

Definition new_message (key : LogicalMessageKey) (at_ : N) : LogicalAssistantMessage :=
  mkLogicalAssistantMessage key [] None [] None None false at_ at_.

Definition merge_usage (m : ParseMode) (key : LogicalMessageKey) (target candidate : option UsageSnapshot)
    (warnings : list EngineWarning) : result (option UsageSnapshot * list EngineWarning) Fault :=
  match candidate with
  | None => Ok (target, warnings)
  | Some usage =>
      match target with
      | None => Ok (Some usage, warnings)
      | Some existing =>
          if usage_eqb existing usage then Ok (target, warnings)
          else if is_strict m then fail (LogicalMessageConflict key "usage")
          else Ok (target, warnings ++ [ConflictingUsage key])
      end
  end.

(** The blocks of one fragment, appended to the message's. *)
Definition merge_block (m : ParseMode) (u : option string) (key : LogicalMessageKey)
    (st : list ContentBlock * list EngineWarning) (block : ContentBlock)
  : result (list ContentBlock * list EngineWarning) Fault :=
  let '(blocks, warnings) := st in
  let? warnings :=
    match block with
    | UnknownBlock declared_type _ =>
        if is_strict m then
          fail (SchemaDrift u "$.message.content"
                  ("unknown or malformed content block " +:+ opt_debug declared_type)%string)
        else Ok (warnings ++ [UnknownContentBlock key declared_type])
    | _ => Ok warnings
    end in
  Ok (blocks ++ [block], warnings).

(** One fragment into the message of its key. *)
Definition merge_fragment (m : ParseMode) (stored : StoredRow) (fragment : AssistantFragment)
    (key : LogicalMessageKey) (message : LogicalAssistantMessage) (warnings : list EngineWarning)
  : result (LogicalAssistantMessage * list EngineWarning) Fault :=
  let row_uuids := lm_row_uuids message ++ option_list (row_uuid stored) in
  let? model := merge_optional (lm_model message) (af_model fragment) key "model" m in
  let? stop_reason :=
    match StopReason_parse <$> af_stop_reason fragment with
    | Some stop => merge_optional_owned (lm_stop_reason message) (Some stop) key "stop_reason" m
    | None => Ok (lm_stop_reason message)
    end in
  let? '(usage, warnings) := merge_usage m key (lm_usage message) (af_usage fragment) warnings in
  let? '(blocks, warnings) :=
    try_fold (merge_block m (row_uuid stored) key) (af_blocks fragment) (lm_blocks message, warnings) in
  Ok (mkLogicalAssistantMessage (lm_key message) row_uuids model blocks stop_reason usage
        (lm_is_api_error message || af_is_api_error fragment)
        (lm_first_ordinal message) (ordinal stored), warnings).

Record Grouping := mkGrouping {
  messages : list LogicalAssistantMessage;
  positions : gmap LogicalMessageKey nat;
  warnings : list EngineWarning;
}.

(** [positions.entry(key).or_insert_with(...)]. *)
Definition position_of (key : LogicalMessageKey) (at_ : N) (g : Grouping) : nat * Grouping :=
  match positions g !! key with
  | Some position => (position, g)
  | None =>
      let position := length (messages g) in
      (position, mkGrouping (messages g ++ [new_message key at_])
                   (<[key := position]> (positions g)) (warnings g))
  end.

Definition group_row (m : ParseMode) (l : list StoredRow) (g : Grouping) (i : nat)
  : result Grouping Fault :=
  let stored := l !!! i in
  match row_kind stored with
  | Assistant fragment =>
      let? key := message_key stored in
      match key with
      | None => Err (Panicked "assistant fragment always has a message key")
      | Some key =>
          let '(position, g) := position_of key (ordinal stored) g in
          let? message := ok_or (messages g !! position) (Panicked "index out of bounds") in
          let? '(message, warnings) := merge_fragment m stored fragment key message (warnings g) in
          Ok (mkGrouping (<[position := message]> (messages g)) (positions g) warnings)
      end
  | _ => Ok g
  end.

Definition logical_messages (e : TranscriptEngine) (included : list nat)
    (warnings0 : list EngineWarning) (require_contiguity : bool)
  : result (list LogicalAssistantMessage * list EngineWarning) Fault :=
  let? _ :=
    if is_strict (mode e) && require_contiguity
    then validate_logical_message_contiguity (rows e) included else Ok tt in
  let? g := try_fold (group_row (mode e) (rows e)) included (mkGrouping [] ∅ warnings0) in
  Ok (messages g, warnings g).

(** ** Usage *)

Definition checked_add (left right : N) (field : string) : result N Fault :=
  match (match Prelude.checked_add U64_MAX left right with
         | Some total => if total <=? MAX_SAFE_JSON_INTEGER then Some total else None
         | None => None
         end) with
  | Some total => Ok total
  | None => fail (UsageOverflow field)
  end.

Definition add_tokens (target source : TokenUsage) : result TokenUsage Fault :=
  let? input := checked_add (input_tokens target) (input_tokens source) "input_tokens" in
  let? output := checked_add (output_tokens target) (output_tokens source) "output_tokens" in
  let? creation := checked_add (cache_creation_input_tokens target)
    (cache_creation_input_tokens source) "cache_creation_input_tokens" in
  let? read := checked_add (cache_read_input_tokens target) (cache_read_input_tokens source)
    "cache_read_input_tokens" in
  Ok (mkTokenUsage input output creation read).

Definition aggregate_usage (ms : list LogicalAssistantMessage) : result UsageTotals Fault :=
  try_fold (fun totals message =>
      match lm_usage message with
      | None => Ok totals
      | Some usage =>
          let? calls := checked_add (model_calls_with_usage totals) 1 "model_calls_with_usage" in
          let? tokens := add_tokens (ut_tokens totals) (us_tokens usage) in
          Ok (mkUsageTotals tokens calls)
      end) ms UsageTotals_default.

Definition combine_usage (main sidechain : UsageTotals) : result UsageTotals Fault :=
  let? calls := checked_add (model_calls_with_usage main) (model_calls_with_usage sidechain)
    "combined_model_calls_with_usage" in
  let? tokens := add_tokens (ut_tokens main) (ut_tokens sidechain) in
  Ok (mkUsageTotals tokens calls).

(** ** Tools *)

Record Pairing := mkPairing {
  pr_tools : list ToolRecord;
  pr_positions : gmap string nat;
  pr_order : N;
  pr_warnings : list EngineWarning;
}.

Definition tool_call (p : Pairing) (block : ContentBlock) : result Pairing Fault :=
  match block with
  | ToolUse id name input =>
      match pr_positions p !! id with
      | Some position =>
          let? existing := ok_or (pr_tools p !! position) (Panicked "index out of bounds") in
          if String.eqb (tr_name existing) name && json_eqb (tr_input existing) input then Ok p
          else fail (DuplicateToolCall id)
      | None =>
          Ok (mkPairing (pr_tools p ++ [mkToolRecord id name input None (pr_order p)])
                (<[id := length (pr_tools p)]> (pr_positions p)) (pr_order p + 1) (pr_warnings p))
      end
  | _ => Ok p
  end.

Definition with_result (t : ToolRecord) (r : ToolResultBlock) : ToolRecord :=
  mkToolRecord (tr_tool_use_id t) (tr_name t) (tr_input t) (Some r) (tr_order t).

Definition tool_result (m : ParseMode) (p : Pairing) (r : ToolResultBlock) : result Pairing Fault :=
  match pr_positions p !! tool_use_id r with
  | None =>
      if is_strict m then fail (OrphanToolResult (tool_use_id r))
      else Ok (mkPairing (pr_tools p) (pr_positions p) (pr_order p)
                 (pr_warnings p ++ [OrphanToolResultWarning (tool_use_id r)]))
  | Some position =>
      let? existing := ok_or (pr_tools p !! position) (Panicked "index out of bounds") in
      match tr_result existing with
      | Some previous =>
          if tool_result_eqb previous r then Ok p else fail (DuplicateToolResult (tool_use_id r))
      | None =>
          Ok (mkPairing (<[position := with_result existing r]> (pr_tools p)) (pr_positions p)
                (pr_order p) (pr_warnings p))
      end
  end.

Definition tool_row (m : ParseMode) (l : list StoredRow) (p : Pairing) (i : nat) : result Pairing Fault :=
  match row_kind (l !!! i) with
  | Assistant fragment => try_fold tool_call (af_blocks fragment) p
  | UserToolResults results => try_fold (tool_result m) results p
  | _ => Ok p
  end.

Definition tools (e : TranscriptEngine) (included : list nat) (warnings0 : list EngineWarning)
  : result (list ToolRecord * list EngineWarning) Fault :=
  let? p := try_fold (tool_row (mode e) (rows e)) included (mkPairing [] ∅ 0 warnings0) in
  Ok (pr_tools p, pr_warnings p).

(** ** The verdict *)

Definition leaf_allows_terminal (k : RowKind) : bool :=
  match k with
  | Assistant _ => true
  | System system => negb (is_retry_in_flight_marker system)
  | _ => false
  end.

Definition text_blocks (blocks : list ContentBlock) : list string :=
  omap (fun b => match b with Text text => Some text | _ => None end) blocks.

Definition concat_strings (l : list string) : string := foldr String.append EmptyString l.

Definition terminal_outcome (m : ParseMode) (message : LogicalAssistantMessage)
  : result (option TerminalOutcome) Fault :=
  if lm_is_api_error message then Ok (Some ApiError)
  else match lm_stop_reason message with
  | Some EndTurn => Ok (Some Completed)
  | Some MaxTokens => Ok (Some MaxTokensReached)
  | Some Refusal => Ok (Some Refused)
  | Some StopSequence => Ok (Some Completed)
  | Some (UnknownStop value) =>
      if is_strict m then
        fail (SchemaDrift (last (lm_row_uuids message)) "$.message.stop_reason"
                ("unknown stop reason " +:+ str_debug value)%string)
      else Ok None
  | _ => Ok None
  end.

Definition turn_status (e : TranscriptEngine) (ms : list LogicalAssistantMessage) (leaf_index : nat)
  : result TurnStatus Fault :=
  match max_by_key lm_last_ordinal ms with
  | None => Ok (Running None)
  | Some message =>
      if negb (leaf_allows_terminal (row_kind (rows e !!! leaf_index))) then
        Ok (Running (lm_stop_reason message))
      else
        let? outcome := terminal_outcome (mode e) message in
        match outcome with
        | None => Ok (Running (lm_stop_reason message))
        | Some outcome =>
            let final_text_blocks := text_blocks (lm_blocks message) in
            if is_strict (mode e) && bool_decide (final_text_blocks = [])
               && match outcome with Completed | MaxTokensReached => true | _ => false end then
              fail (TerminalMessageMissingText (lm_key message))
            else
              Ok (Terminal (mkFinalTurn outcome (lm_key message) (lm_stop_reason message)
                    (concat_strings final_text_blocks) final_text_blocks (lm_model message)))
        end
  end.

(** ** The analysis *)

Definition validate_active_unknowns (e : TranscriptEngine) (path : list nat) : result unit Fault :=
  try_fold (fun _ i =>
      let stored := rows e !!! i in
      match row_kind stored with
      | Unknown declared_type =>
          if is_strict (mode e) then
            fail (SchemaDrift (row_uuid stored) "$.type"
              ("unknown row type " +:+ opt_debug declared_type +:+ " is on the active parent chain")%string)
          else Ok tt
      | _ => Ok tt
      end) path tt.

Definition unknown_warnings_after (e : TranscriptEngine) (after : N) : list EngineWarning :=
  omap (fun stored =>
      if ordinal stored <? after then None
      else match row_kind stored with
      | Unknown declared_type => Some (UnknownRow (ordinal stored) declared_type)
      | _ => None
      end) (rows e).

Definition has_subtype (name : string) (stored : StoredRow) : bool :=
  match row_kind stored with System s => subtype_is s name | _ => false end.

Definition count_subtype (e : TranscriptEngine) (name : string) (path : list nat) : N :=
  N.of_nat (length (List.filter (fun i => has_subtype name (rows e !!! i)) path)).

Definition awaiting (e : TranscriptEngine) (turn : ActiveTurn) : TranscriptAnalysis :=
  mkTranscriptAnalysis AwaitingPromptAcknowledgement None [] [] []
    UsageTotals_default UsageTotals_default UsageTotals_default false false 0 0
    (unknown_warnings_after e (armed_at_ordinal turn)).

Definition analyze (e : TranscriptEngine) : result TranscriptAnalysis Fault :=
  let? turn := ok_or (active_turn e) (Failed NoTurnArmed) in
  match acknowledgement turn with
  | None => Ok (awaiting e turn)
  | Some ack =>
      let? active := active_indices e ack in
      let ws := unknown_warnings_after e (armed_at_ordinal turn) in
      let? _ := validate_active_unknowns e (ai_path active) in
      let? '(ms, ws) := logical_messages e (ai_included active) ws true in
      let? usage := aggregate_usage ms in
      let sidechain_rows := sidechain_row_count e ack in
      let? side := sidechain_indices e ack in
      let? '(side_ms, ws) := logical_messages e side ws false in
      let? sidechain_usage := aggregate_usage side_ms in
      let? combined := combine_usage usage sidechain_usage in
      let? '(ts, ws) := tools e (ai_included active) ws in
      let path := ai_path active in
      let? status := turn_status e ms (ai_leaf_index active) in
      Ok (mkTranscriptAnalysis status (Some ack)
            (omap (fun i => row_uuid (rows e !!! i)) path) ms ts usage sidechain_usage combined
            (0 <? count_subtype e "turn_duration" path)
            (0 <? count_subtype e "stop_hook_summary" path)
            (N.min (count_subtype e "api_error" path) U64_MAX) sidechain_rows ws)
  end.

End Analyze.
