(* ===== verification/EngineIngest.v ===== *)
(** * What the engine holds

    The invariant of a [TranscriptEngine] and its preservation by [arm_turn],
    [disarm_turn] and [ingest], on every branch. *)

From S2P Require Import Prelude Text Protocol Composer Transcript Engine.

Section Invariant.
Variable nfc : list N -> list N.

(** A main-scope typed prompt. *)
Definition typed_prompt (s : StoredRow) : option string :=
  match row_kind s with
  | TypedUser prompt _ => if bool_decide (row_scope s = Main) then Some prompt else None
  | _ => None
  end.

(** The acknowledgement is a stored main-scope row whose prompt is the armed one. *)
Record ack_ok (e : TranscriptEngine) (t : ActiveTurn) (a : PromptAcknowledgement) : Prop := {
  ack_after : armed_at_ordinal t <= pa_ordinal a;
  ack_row : exists i s prompt,
    rows e !! i = Some s /\ ordinal s = pa_ordinal a /\ row_uuid s = Some (pa_row_uuid a) /\
    row_scope s = Main /\ row_kind s = TypedUser prompt (pa_prompt_id a) /\
    normalize_prompt nfc (chars prompt) = expected_prompt t;
}.

Record turn_ok (e : TranscriptEngine) (t : ActiveTurn) : Prop := {
  armed_before : armed_at_ordinal t <= next_ordinal e;
  turn_ack : forall a, acknowledgement t = Some a -> ack_ok e t a;
  (** No second prompt: a main-scope typed prompt since arming is the acknowledged one. *)
  turn_single : forall i s prompt, rows e !! i = Some s -> armed_at_ordinal t <= ordinal s ->
    typed_prompt s = Some prompt ->
    exists a, acknowledgement t = Some a /\ row_uuid s = Some (pa_row_uuid a);
}.

Record engine_ok (e : TranscriptEngine) : Prop := {
  ok_next : next_ordinal e = N.of_nat (length (rows e));
  ok_ordinals : forall i s, rows e !! i = Some s -> ordinal s = N.of_nat i;
  ok_index : forall u i, by_uuid e !! u = Some i <->
    exists s, rows e !! i = Some s /\ row_uuid s = Some u;
  ok_turn : forall t, active_turn e = Some t -> turn_ok e t;
}.

Lemma new_ok m : engine_ok (TranscriptEngine_new m).
Proof.
  split; simpl; try done. intros u i. rewrite lookup_empty. split; [done|by intros (? & ? & _)].
Qed.

Lemma with_turn_ok e t :
  engine_ok e -> (forall t', t = Some t' -> turn_ok e t') -> engine_ok (with_turn t e).
Proof.
  intros [] H. split; simpl; try done. intros t' Ht. destruct (H t' Ht). split; simpl; try done.
  intros a Ha. by destruct (turn_ack0 a Ha).
Qed.

Lemma arm_turn_ok prompt e : engine_ok e -> engine_ok (snd (arm_turn nfc prompt e)).
Proof.
  intros He. unfold arm_turn. destruct (active_turn e); [done|]. simpl.
  apply with_turn_ok; [done|]. intros ? [= <-]. split; simpl; try done.
  intros i s p Hi Hle _. rewrite (ok_next _ He) in Hle. rewrite (ok_ordinals _ He _ _ Hi) in Hle.
  apply lookup_lt_Some in Hi. lia.
Qed.

Lemma disarm_turn_ok e : engine_ok e -> engine_ok (snd (disarm_turn e)).
Proof. intros He. unfold disarm_turn. destruct (active_turn e); by apply with_turn_ok. Qed.

Lemma ack_ok_app e e' t a s0 :
  rows e' = rows e ++ [s0] -> ack_ok e t a -> ack_ok e' t a.
Proof.
  intros Hr [? (i & s & p & Hi & ?)]. split; [done|]. exists i, s, p. split; [|done].
  rewrite Hr. by apply lookup_app_l_Some.
Qed.

Lemma lookup_snoc_inv {A} (l : list A) x i y :
  (l ++ [x]) !! i = Some y -> l !! i = Some y \/ (i = length l /\ y = x).
Proof.
  intros [?|[Hge H]]%lookup_app_Some; [by left|]. right.
  destruct (i - length l)%nat eqn:E; simpl in H; [|done]. injection H as ->. split; [lia|done].
Qed.

(** What the acknowledgement test says, by cases. *)
Lemma acknowledges_Ok turn at_ r o :
  acknowledges nfc turn at_ r = Ok o ->
  match o with
  | Some a => exists t prompt, turn = Some t /\ kind r = TypedUser prompt (pa_prompt_id a) /\
      scope (common r) = Main /\ armed_at_ordinal t <= at_ /\ acknowledgement t = None /\
      normalize_prompt nfc (chars prompt) = expected_prompt t /\
      uuid (common r) = Some (pa_row_uuid a) /\ pa_ordinal a = at_
  | None => forall t, turn = Some t -> armed_at_ordinal t <= at_ ->
      typed_prompt (mkStoredRow at_ r) = None
  end.
Proof.
  unfold acknowledges, typed_prompt, row_kind, row_scope; simpl.
  destruct turn as [t|]; [|by intros [= <-]].
  destruct (kind r) as [prompt pid| | | | | | |]; try by intros [= <-].
  destruct (N.leb_spec (armed_at_ordinal t) at_); simpl;
    [|intros [= <-] t' [= <-]; lia].
  case_bool_decide as Hs; simpl; [|intros [= <-]; done].
  destruct (acknowledgement t) eqn:Ea; [done|].
  case_bool_decide as Hp; simpl; [|done].
  destruct (uuid (common r)) as [u|]; simpl; [|done]. intros [= <-]. exists t, prompt. done.
Qed.

Lemma ingest_turn_ok r e o s0 e' :
  engine_ok e -> acknowledges nfc (active_turn e) (next_ordinal e) r = Ok o ->
  s0 = mkStoredRow (next_ordinal e) r -> rows e' = rows e ++ [s0] ->
  next_ordinal e' = next_ordinal e + 1 ->
  forall t, set_acknowledgement o (active_turn e) = Some t -> turn_ok e' t.
Proof.
  intros He Ho%acknowledges_Ok -> Hr Hn t Ht. destruct o as [a|].
  - destruct Ho as (t0 & prompt & Et & Hk & Hs & Hle & Hno & Hp & Hu & Ha).
    rewrite Et in Ht. injection Ht as <-. destruct (ok_turn _ He _ Et) as [Hb _ Hsingle].
    split; simpl; [lia| |].
    + intros ? [= <-]. split; simpl; [lia|]. exists (length (rows e)), (mkStoredRow (next_ordinal e) r), prompt.
      split; [|done]. rewrite Hr. by apply list_lookup_middle.
    + intros i s p Hi Hge Hs0. rewrite Hr in Hi. apply lookup_snoc_inv in Hi as [Hi|[_ ->]]; [|by eexists].
      destruct (Hsingle _ _ _ Hi Hge Hs0) as (? & ? & _). congruence.
  - simpl in Ht. destruct (ok_turn _ He _ Ht) as [Hb Hack Hsingle]. split; [lia| |].
    + intros a Ha. eapply ack_ok_app; eauto.
    + intros i s p Hi Hge Hs0. rewrite Hr in Hi. apply lookup_snoc_inv in Hi as [Hi|[_ ->]]; [eauto|].
      rewrite (Ho t Ht Hb) in Hs0. done.
Qed.

Lemma ingest_ok r e :
  N.of_nat (length (rows e)) < U64_MAX -> engine_ok e -> engine_ok (snd (ingest nfc r e)).
Proof.
  intros Hroom He. unfold ingest.
  destruct (u0 ← uuid (common r); i0 ← by_uuid e !! u0; Some (u0, i0)) as [[u i]|] eqn:Ed.
  { by destruct (json_eqb _ _). }
  destruct (acknowledges nfc (active_turn e) (next_ordinal e) r) as [o|x] eqn:Eo; [|done]. simpl.
  rewrite saturating_add_small by (rewrite (ok_next _ He); lia).
  split; simpl.
  - rewrite length_app, (ok_next _ He). simpl. lia.
  - intros i s [Hi|[-> ->]]%lookup_snoc_inv; [by apply (ok_ordinals _ He)|]. apply (ok_next _ He).
  - intros u i. destruct (uuid (common r)) as [v|] eqn:Ev; simpl.
    + destruct (decide (u = v)) as [->|Hne].
      * rewrite lookup_insert_eq. split.
        { intros [= <-]. eexists. split; [by apply list_lookup_middle|done]. }
        intros (s & [Hi|[-> _]]%lookup_snoc_inv & Hu); [|done]. exfalso.
        assert (Hb : by_uuid e !! v = Some i) by (apply (ok_index _ He); eauto).
        simpl in Ed. by rewrite Hb in Ed.
      * rewrite lookup_insert_ne, (ok_index _ He) by done. split.
        { intros (s & Hi & ?). exists s. split; [by apply lookup_app_l_Some|done]. }
        intros (s & [Hi|[-> ->]]%lookup_snoc_inv & Hu); [by exists s|].
        unfold row_uuid in Hu; simpl in Hu. congruence.
    + rewrite (ok_index _ He). split.
      { intros (s & Hi & ?). exists s. split; [by apply lookup_app_l_Some|done]. }
      intros (s & [Hi|[-> ->]]%lookup_snoc_inv & Hu); [by exists s|].
      unfold row_uuid in Hu; simpl in Hu. congruence.
  - intros t Ht. by eapply (ingest_turn_ok r e).
Qed.

(** ** Every sequence of calls *)

Inductive engine_call :=
| Arm (prompt : list N)
| Disarm
| Ingest (r : ParsedRow).

Definition call (c : engine_call) (e : TranscriptEngine) : TranscriptEngine :=
  match c with
  | Arm prompt => snd (arm_turn nfc prompt e)
  | Disarm => snd (disarm_turn e)
  | Ingest r => snd (ingest nfc r e)
  end.

Definition calls (l : list engine_call) : TranscriptEngine :=
  foldl (fun e c => call c e) (TranscriptEngine_new Strict) l.

Lemma call_length c e : (length (rows (call c e)) <= S (length (rows e)))%nat.
Proof.
  destruct c as [p| |r]; simpl.
  - unfold arm_turn. destruct (active_turn e); simpl; lia.
  - unfold disarm_turn. destruct (active_turn e); simpl; lia.
  - unfold ingest. destruct (u0 ← uuid (common r); i0 ← by_uuid e !! u0; Some (u0, i0)) as [[u i]|].
    { destruct (json_eqb _ _); simpl; lia. }
    destruct (acknowledges _ _ _ _); simpl; rewrite ?length_app; simpl; lia.
Qed.

Lemma engine_calls_ok l :
  N.of_nat (length l) <= U64_MAX ->
  engine_ok (calls l) /\ (length (rows (calls l)) <= length l)%nat.
Proof.
  unfold calls. induction l as [|c l IH] using rev_ind; intros Hl; simpl.
  { split; [apply new_ok|lia]. }
  rewrite length_app in Hl |- *. simpl in *. rewrite foldl_app. simpl.
  destruct IH as [He Hle]; [lia|]. split.
  - destruct c as [p| |r]; simpl; [by apply arm_turn_ok|by apply disarm_turn_ok|].
    apply ingest_ok; [|done]. lia.
  - pose proof (call_length c (foldl (fun e c => call c e) (TranscriptEngine_new Strict) l)). lia.
Qed.

(** A stored uuid is answered from the stored row alone. *)
Lemma ingest_stored r e u i s :
  uuid (common r) = Some u -> by_uuid e !! u = Some i -> rows e !!! i = s ->
  ingest nfc r e = (if json_eqb (raw (row s)) (raw r) then Ok (DuplicateIgnored u)
                    else fail (ConflictingDuplicateRow u), e).
Proof.
  intros Hu Hi <-. unfold ingest. rewrite Hu. simpl. rewrite Hi. simpl. by destruct (json_eqb _ _).
Qed.

End Invariant.

(** Whatever is armed, disarmed and ingested, in any order and with any rows: the
    rows keep their append order as ordinals, the uuid index is exact (so no two rows
    share a uuid), the acknowledgement of an armed turn is a stored main-scope typed
    prompt, appended since arming, whose normal form is the armed prompt, and no other
    main-scope prompt has been stored since. *)
Theorem engine_invariant_always_holds nfc l :
  N.of_nat (length l) <= U64_MAX -> engine_ok nfc (calls nfc l).
Proof. intros Hl. by apply engine_calls_ok. Qed.

(** Ingesting is idempotent and atomic: a row that carries a uuid and was accepted
    is recognised when the same transcript is read again and changes nothing, the same
    uuid with other content is then refused, and no refused row changes the engine. *)
Theorem ingest_is_idempotent nfc r e o e' u :
  uuid (common r) = Some u -> ingest nfc r e = (o, e') ->
  match o with
  | Ok out => ingest nfc r e' = (Ok (DuplicateIgnored u), e') /\
      (out <> DuplicateIgnored u -> forall r', uuid (common r') = Some u ->
         json_eqb (raw r) (raw r') = false ->
         ingest nfc r' e' = (fail (ConflictingDuplicateRow u), e'))
  | Err _ => e' = e
  end.
Proof.
  intros Hu H. unfold ingest at 1 in H. rewrite Hu in H. simpl in H.
  destruct (by_uuid e !! u) as [i|] eqn:Ei; simpl in H.
  { destruct (json_eqb (raw (row (rows e !!! i))) (raw r)) eqn:Ej; injection H as <- <-; [|done].
    split; [|done]. unfold ingest. by rewrite Hu; simpl; rewrite Ei; simpl; rewrite Ej. }
  destruct (acknowledges nfc (active_turn e) (next_ordinal e) r) as [o'|x] eqn:Eo;
    injection H as <- <-; [|done].
  split; [|intros _ r' Hu' Hne];
    rewrite (ingest_stored nfc _ _ u (length (rows e)) (mkStoredRow (next_ordinal e) r));
    simpl; rewrite ?json_eqb_refl, ?Hne, ?lookup_insert_eq; try done;
    by apply list_lookup_total_middle.
Qed.

(** ** Witnesses *)

Definition a_row (u : option string) (parent : option string) (k : RowKind) (payload : json) : ParsedRow :=
  mkParsedRow (mkSourceLocation 0 0) (mkCommonFields u parent None Main) k payload.

Definition a_prompt_row : ParsedRow :=
  a_row (Some "u1"%string) None (TypedUser "hello" None) (JStr "hello").

Lemma engine_invariant_always_holds_witness :
  engine_ok id (calls id [Ingest (a_row None None (Metadata "mode") JNull); Arm (text_of "hello");
                          Ingest a_prompt_row]) /\
  acknowledgement <$> active_turn (calls id [Ingest (a_row None None (Metadata "mode") JNull);
      Arm (text_of "hello"); Ingest a_prompt_row])
    = Some (Some (mkPromptAcknowledgement "u1" None 1)).
Proof. split; [apply (engine_invariant_always_holds id); done|reflexivity]. Defined.

Lemma ingest_is_idempotent_witness :
  let e := calls id [Arm (text_of "hello")] in
  let e' := snd (ingest id a_prompt_row e) in
  fst (ingest id a_prompt_row e) = Ok (PromptAcknowledged (mkPromptAcknowledgement "u1" None 0)) /\
  ingest id a_prompt_row e' = (Ok (DuplicateIgnored "u1"), e').
Proof.
  split; [reflexivity|].
  destruct (ingest id a_prompt_row (calls id [Arm (text_of "hello")])) as [o e'] eqn:E. simpl.
  pose proof (ingest_is_idempotent id a_prompt_row _ o e' "u1" eq_refl E) as H.
  vm_compute in E. injection E as <- <-. apply H.
Defined.
