(* ===== verification/EnginePath.v ===== *)
(** * The active path

    What [strict_active_indices] finds: the rows of the turn as one chain from the
    acknowledged prompt, complete, without repetition and with nothing semantic behind
    an inert marker; and that no panic and no fuel bound is ever reached on the way. *)

From S2P Require Import Prelude Text Protocol Composer Transcript Engine EngineIngest.

(** ** Calls that neither panic nor run out of fuel *)

Definition safe {A} (r : result A Fault) : Prop :=
  match r with Err (Panicked _) | Err OutOfFuel => False | _ => True end.

Lemma safe_bind {A B} (r : result A Fault) (k : A -> result B Fault) :
  safe r -> (forall a, r = Ok a -> safe (k a)) -> safe (result_bind r k).
Proof. destruct r as [a|]; simpl; auto. Qed.

Lemma safe_cases {A} (r : result A Fault) :
  safe r -> (exists a, r = Ok a) \/ exists x, r = fail x.
Proof. destruct r as [a|[x| |]]; simpl; eauto; done. Qed.

Lemma safe_ok_or {A} (o : option A) e : safe (ok_or o (Failed e)).
Proof. by destruct o. Qed.

Lemma safe_try_fold {A B} (P : list B -> A -> Prop) (f : A -> B -> result A Fault) l a :
  P [] a ->
  (forall pre b rest x, l = pre ++ b :: rest -> P pre x ->
     safe (f x b) /\ forall y, f x b = Ok y -> P (pre ++ [b]) y) ->
  safe (try_fold f l a).
Proof.
  intros H0 Hstep.
  assert (Hd : forall pre l0, l = pre ++ l0 -> forall a, P pre a -> safe (try_fold f l0 a)).
  { intros pre l0. revert pre. induction l0 as [|b l0 IH]; intros pre El x Hx; simpl; [done|].
    destruct (Hstep pre b l0 x El Hx) as [Hs Hn]. apply safe_bind; [done|].
    intros y Hy. apply (IH (pre ++ [b])); [by rewrite <-app_assoc|auto]. }
  by apply (Hd []).
Qed.

(** The common case: no state to track. *)
Lemma safe_try_fold_each {A B} (f : A -> B -> result A Fault) l a :
  (forall x b, b ∈ l -> safe (f x b)) -> safe (try_fold f l a).
Proof.
  intros H. apply (safe_try_fold (fun _ _ => True)); [done|].
  intros pre b rest x El _. split; [|done]. apply H. rewrite El, elem_of_app, elem_of_cons. auto.
Qed.

Lemma try_fold_each {B} (f : unit -> B -> result unit Fault) l :
  try_fold f l tt = Ok tt -> forall b, b ∈ l -> f tt b = Ok tt.
Proof.
  induction l as [|c l IH]; simpl; intros H b Hb; [by apply elem_of_nil in Hb|].
  apply result_bind_Ok in H as ([] & Hc & H). apply elem_of_cons in Hb as [->|Hb]; auto.
Qed.

#[export] Hint Resolve safe_ok_or : pmux.

(** ** Positions *)

Lemma elem_of_indices_from p l : forall k i,
  i ∈ indices_from p k l <-> exists j s, i = (k + j)%nat /\ l !! j = Some s /\ p i s = true.
Proof.
  induction l as [|s l IH]; intros k i; simpl.
  { split; [by intros ?%elem_of_nil|by intros (? & ? & _ & ? & _)]. }
  assert (Hrest : i ∈ indices_from p (S k) l <->
    exists j s', i = (k + S j)%nat /\ l !! j = Some s' /\ p i s' = true).
  { rewrite IH. split; intros (j & s' & -> & ?); exists j, s'; (split; [lia|done]). }
  destruct (p k s) eqn:E; rewrite ?elem_of_cons, Hrest.
  - split.
    + intros [->|(j & s' & -> & ?)]; [exists 0%nat, s; split; [lia|done]|exists (S j), s'; done].
    + intros ([|j] & s' & -> & Hj & Hp); [left; lia|right; exists j, s'; done].
  - split.
    + intros (j & s' & -> & ?). by exists (S j), s'.
    + intros ([|j] & s' & -> & Hj & Hp); [|by exists j, s'].
      injection Hj as ->. rewrite Nat.add_0_r in Hp. congruence.
Qed.

Lemma elem_of_indices p l i :
  i ∈ indices_from p 0 l <-> exists s, l !! i = Some s /\ p i s = true.
Proof.
  rewrite elem_of_indices_from. split.
  - by intros (j & s & -> & ?); exists s.
  - intros (s & ?). by exists i, s.
Qed.

Lemma indices_from_ge p l : forall k i, i ∈ indices_from p k l -> (k <= i)%nat.
Proof. intros k i (j & s & -> & _)%elem_of_indices_from. lia. Qed.

Lemma indices_from_NoDup p l : forall k, NoDup (indices_from p k l).
Proof.
  induction l as [|s l IH]; intros k; simpl; [constructor|].
  destruct (p k s); [|done]. constructor; [|done]. intros ?%indices_from_ge. lia.
Qed.

Lemma lookup_row (l : list StoredRow) i s : l !! i = Some s -> l !!! i = s.
Proof. intros H. by apply list_lookup_total_correct. Qed.

Lemma NoDup_bounded (l : list nat) n :
  NoDup l -> (forall i, i ∈ l -> (i < n)%nat) -> (length l <= n)%nat.
Proof.
  intros Hnd Hlt. rewrite <-(length_seq n 0). apply submseteq_length, NoDup_submseteq; [done|].
  intros i Hi%Hlt. apply elem_of_seq. lia.
Qed.

(** ** Children *)

(** The children of a uuid among the given rows, in append order. *)
Definition children_in (l : list StoredRow) (graph : list nat) (u : string) : list nat :=
  List.filter (fun i => bool_decide (row_parent (l !!! i) = Some u)) graph.

Lemma push_child_lookup m p i u :
  push_child m p i !! u = if decide (p = u) then Some (default [] (m !! u) ++ [i]) else m !! u.
Proof.
  unfold push_child. destruct (decide (p = u)) as [->|]; [apply lookup_insert_eq|by apply lookup_insert_ne].
Qed.

Lemma graph_children_spec l graph u :
  graph_children l graph !! u =
    match children_in l graph u with [] => None | cs => Some cs end.
Proof.
  unfold graph_children, children_in. induction graph as [|i graph IH] using rev_ind; [done|].
  rewrite foldl_app, List.filter_app. simpl.
  destruct (row_parent (l !!! i)) as [p|] eqn:Ep.
  - rewrite push_child_lookup, IH. destruct (decide (p = u)) as [->|Hne].
    + rewrite bool_decide_eq_true_2 by done. by destruct (List.filter _ graph).
    + rewrite bool_decide_eq_false_2 by naive_solver. by rewrite app_nil_r.
  - rewrite IH, bool_decide_eq_false_2 by done. by rewrite app_nil_r.
Qed.

Lemma elem_of_children_in l graph u i :
  i ∈ children_in l graph u <-> i ∈ graph /\ row_parent (l !!! i) = Some u.
Proof.
  unfold children_in. rewrite !list_elem_of_In, List.filter_In, bool_decide_eq_true. done.
Qed.

Lemma active_children_Ok l active m :
  active_children l active = Ok m ->
  m = graph_children l active /\ forall i, i ∈ active -> is_Some (row_parent (l !!! i)).
Proof.
  unfold active_children, graph_children.
  apply (try_fold_inv (fun done m =>
    m = foldl (fun m i => match row_parent (l !!! i) with Some p => push_child m p i | None => m end) ∅ done /\
    forall i, i ∈ done -> is_Some (row_parent (l !!! i)))).
  - split; [done|]. by intros i ?%elem_of_nil.
  - intros pre i x y [-> Hd] _ H. rewrite foldl_app. simpl.
    destruct (row_parent (l !!! i)) as [p|] eqn:Ep; simpl in H; [|done]. injection H as <-.
    split; [done|]. intros j [?| ->%list_elem_of_singleton]%elem_of_app; [auto|]. by rewrite Ep.
Qed.

Lemma active_children_safe l active :
  (forall i, i ∈ active -> is_Some (row_parent (l !!! i))) -> safe (active_children l active).
Proof.
  intros H. apply safe_try_fold_each. intros m i [p Hp]%H. by rewrite Hp.
Qed.

(** ** The search *)

Section Search.
Context (l : list StoredRow) (graph : list nat).

(** The loop's invariant: the children of a reached row are reached, or its uuid is
    still to be looked at. *)
Definition closed_upto (reachable : gset nat) (pending : list string) : Prop :=
  forall i u c, i ∈ reachable -> row_uuid (l !!! i) = Some u -> c ∈ children_in l graph u ->
    u ∈ pending \/ c ∈ reachable.

Definition in_bounds (reachable : gset nat) : Prop := forall i, i ∈ reachable -> (i < length l)%nat.

Lemma in_bounds_size R : in_bounds R -> (size R <= length l)%nat.
Proof.
  intros H. unfold size, set_size, compose. apply NoDup_bounded; [apply NoDup_elements|].
  intros i ?%elem_of_elements. by apply H.
Qed.

Lemma visit_children_spec cs : forall R P R' P',
  visit_children l cs (R, P) = (R', P') ->
  R' = list_to_set cs ∪ R /\ P ⊆ P' /\
  (forall i u, i ∈ R' -> i ∉ R -> row_uuid (l !!! i) = Some u -> u ∈ P') /\
  (length P' + size R <= length P + size R')%nat.
Proof.
  unfold visit_children. induction cs as [|c cs IH]; intros R P R' P' H; cbn [foldl] in H.
  { injection H as <- <-. split_and!; [set_solver|set_solver|set_solver|lia]. }
  case_bool_decide as Hc.
  { apply IH in H as (-> & HP & Hu & Hlen). 
    assert (E : list_to_set (c :: cs) ∪ R = list_to_set cs ∪ R) by set_solver. by rewrite E. }
  apply IH in H as (-> & HP & Hu & Hlen).
  assert (Hsz : size ({[c]} ∪ R) = S (size R)) by (rewrite size_union, size_singleton; [lia|set_solver]).
  split_and!.
  - set_solver.
  - intros x Hx. apply HP. destruct (row_uuid (l !!! c)); [by apply elem_of_cons; right|done].
  - intros i u Hi Hn Hiu. destruct (decide (i = c)) as [->|Hne].
    + apply HP. rewrite Hiu. by apply elem_of_cons; left.
    + apply (Hu i u); set_solver.
  - destruct (row_uuid (l !!! c)); simpl in Hlen; lia.
Qed.

Lemma child_search_step R P p cs R' P' :
  closed_upto R (p :: P) -> children_in l graph p = cs ->
  visit_children l cs (R, P) = (R', P') -> closed_upto R' P'.
Proof.
  intros Hcl Hcs (-> & HP & Hu & _)%visit_children_spec i u c Hi Hiu Hc.
  destruct (decide (i ∈ R)) as [HR|HR]; [|left; by eapply Hu].
  destruct (Hcl i u c HR Hiu Hc) as [[->|Hin]%elem_of_cons|?]; [|by left; apply HP|right; set_solver].
  right. subst cs. apply elem_of_union_l, elem_of_list_to_set. done.
Qed.

Lemma child_search_Ok fuel : forall R P R',
  child_search fuel l (graph_children l graph) R P = Ok R' -> closed_upto R P ->
  R ⊆ R' /\ closed_upto R' [] /\ forall i, i ∈ R' -> i ∈ R \/ i ∈ graph.
Proof.
  induction fuel as [|fuel IH]; intros R [|p P] R' H Hcl; simpl in H; try done;
    [by injection H as <-; auto..|].
  rewrite graph_children_spec in H. destruct (children_in l graph p) as [|c cs] eqn:Ec.
  { apply IH in H; [done|]. intros i u c0 Hi Hiu Hc0.
    destruct (Hcl i u c0 Hi Hiu Hc0) as [[->|?]%elem_of_cons|?]; [|by left|by right].
    rewrite Ec in Hc0. by apply elem_of_nil in Hc0. }
  destruct (visit_children l (c :: cs) (R, P)) as [R1 P1] eqn:Ev.
  apply IH in H as (Hsub & Hcl' & Hfrom); [|by eapply child_search_step].
  apply visit_children_spec in Ev as (-> & _). split; [set_solver|]. split; [done|].
  intros i [Hi|?]%Hfrom; [|by right]. apply elem_of_union in Hi as [Hi%elem_of_list_to_set|?]; [|by left].
  right. rewrite <-Ec in Hi. by apply elem_of_children_in in Hi as [? _].
Qed.

Hypothesis graph_bound : forall i, i ∈ graph -> (i < length l)%nat.

Lemma child_search_safe fuel : forall R P,
  in_bounds R -> (length P + (length l - size R) <= fuel)%nat ->
  safe (child_search fuel l (graph_children l graph) R P).
Proof.
  induction fuel as [|fuel IH]; intros R [|p P] Hb Hf; simpl in *; try done; [lia|].
  rewrite graph_children_spec. destruct (children_in l graph p) as [|c cs] eqn:Ec; [apply IH; [done|lia]|].
  destruct (visit_children l (c :: cs) (R, P)) as [R1 P1] eqn:Ev.
  apply visit_children_spec in Ev as (E1 & _ & _ & Hlen).
  assert (Hb1 : in_bounds R1).
  { subst R1. intros i [Hi%elem_of_list_to_set|?]%elem_of_union; [|by apply Hb].
    rewrite <-Ec in Hi. by apply elem_of_children_in in Hi as [?%graph_bound _]. }
  apply IH; [done|]. pose proof (in_bounds_size _ Hb1). pose proof (in_bounds_size _ Hb).
  assert ((size R <= size R1)%nat) by (apply subseteq_size; set_solver). lia.
Qed.

End Search.

(** ** Ancestors *)

Definition main_at (l : list StoredRow) (i : nat) : Prop :=
  exists s, l !! i = Some s /\ main_row s = true.

Lemma main_at_lt l i : main_at l i -> (i < length l)%nat.
Proof. intros (s & Hs & _). by eapply lookup_lt_Some. Qed.

Lemma elem_of_graph_rows l ack i :
  i ∈ graph_rows l ack <->
  exists s, l !! i = Some s /\ pa_ordinal ack <= ordinal s /\ main_row s = true.
Proof.
  unfold graph_rows. rewrite elem_of_indices. f_equiv. intros s.
  by rewrite andb_true_iff, N.leb_le.
Qed.

Lemma graph_rows_main l ack i : i ∈ graph_rows l ack -> main_at l i.
Proof. intros (s & ? & _ & ?)%elem_of_graph_rows. by exists s. Qed.

Lemma all_uuid_to_index_sound l u i :
  all_uuid_to_index l !! u = Some i -> main_at l i /\ row_uuid (l !!! i) = Some u.
Proof.
  unfold all_uuid_to_index.
  assert (Hin : forall j, j ∈ indices_from (fun _ s => main_row s) 0 l -> main_at l j)
    by (intros j (s & ? & ?)%elem_of_indices; by exists s).
  revert Hin. generalize (indices_from (fun _ s => main_row s) 0 l) as idx. intros idx.
  induction idx as [|j idx IH] using rev_ind; intros Hin; [done|].
  rewrite foldl_app. simpl.
  assert (Hj : main_at l j) by (apply Hin; set_solver).
  assert (IH' := IH (fun k Hk => Hin k (proj2 (elem_of_app _ _ _) (or_introl Hk)))).
  destruct (row_uuid (l !!! j)) as [v|] eqn:Ev; [|done].
  destruct (decide (v = u)) as [->|Hne]; [rewrite lookup_insert_eq; by intros [= <-]|].
  by rewrite lookup_insert_ne.
Qed.

Section Ancestors.
Context (l : list StoredRow) (ack_index : nat).
Let index := all_uuid_to_index l.

Lemma ancestor_walk_Ok fuel : forall seen current path path',
  ancestor_walk fuel l index ack_index seen current path = Ok (Some path') ->
  (forall i, i ∈ path -> main_at l i) -> forall i, i ∈ path' -> main_at l i.
Proof.
  induction fuel as [|fuel IH]; intros seen current path path' H Hp; simpl in H; [done|].
  destruct (row_parent (l !!! current)) as [p|]; simpl in H; [|done].
  destruct (index !! p) as [parent|] eqn:Ei; [|done].
  apply all_uuid_to_index_sound in Ei as [Hm _].
  assert (Hp' : forall i, i ∈ path ++ [parent] -> main_at l i)
    by (intros i [?| ->%list_elem_of_singleton]%elem_of_app; auto).
  destruct (Nat.eqb parent ack_index); [by injection H as <-|].
  case_bool_decide; [done|]. by eapply IH.
Qed.

Lemma ancestor_walk_safe fuel : forall seen current path,
  in_bounds l seen -> (length l < fuel + size seen)%nat ->
  safe (ancestor_walk fuel l index ack_index seen current path).
Proof.
  induction fuel as [|fuel IH]; intros seen current path Hb Hf.
  { pose proof (in_bounds_size _ _ Hb). lia. }
  simpl. destruct (row_parent (l !!! current)) as [p|]; simpl; [|done].
  destruct (index !! p) as [parent|] eqn:Ei; [|done].
  apply all_uuid_to_index_sound in Ei as [Hm%main_at_lt _].
  destruct (Nat.eqb parent ack_index); [done|]. case_bool_decide; [done|].
  apply IH; [by intros i [->%elem_of_singleton|?%Hb]%elem_of_union|].
  rewrite size_union, size_singleton by set_solver. lia.
Qed.

Lemma join_ancestors_Ok R i R' :
  join_ancestors l ack_index index R i = Ok R' -> main_at l i ->
  R ⊆ R' /\ forall j, j ∈ R' -> j ∈ R \/ main_at l j.
Proof.
  unfold join_ancestors, ancestor_path_to_ack. intros H Hi.
  destruct (Nat.eqb i ack_index || bool_decide (i ∈ R)); [injection H as <-; auto|].
  destruct (is_live_semantic_row (row_kind (l !!! i))); [|injection H as <-; auto].
  apply result_bind_Ok in H as ([ancestors|] & Hw & H); injection H as <-; [|auto].
  split; [set_solver|]. intros j [Hj%elem_of_list_to_set|[->%elem_of_singleton|?]%elem_of_union]%elem_of_union;
    [right|by right|by left].
  eapply ancestor_walk_Ok; [exact Hw| |done]. by intros ? ?%elem_of_nil.
Qed.

Lemma join_ancestors_safe R i : main_at l i -> safe (join_ancestors l ack_index index R i).
Proof.
  intros Hi%main_at_lt. unfold join_ancestors, ancestor_path_to_ack.
  destruct (Nat.eqb i ack_index || bool_decide (i ∈ R)); [done|].
  destruct (is_live_semantic_row _); [|done]. apply safe_bind; [|done].
  apply ancestor_walk_safe; [by intros j ->%elem_of_singleton|]. rewrite size_singleton. lia.
Qed.

End Ancestors.

(** ** The rows of the turn *)

Section Reachable.
Context (l : list StoredRow) (ack : PromptAcknowledgement) (ack_index : nat).
Hypothesis ack_uuid : row_uuid (l !!! ack_index) = Some (pa_row_uuid ack).
Hypothesis ack_main : main_at l ack_index.

Definition turn_rows (R : gset nat) : Prop := ack_index ∈ R /\ forall i, i ∈ R -> main_at l i.

Lemma first_search_closed :
  closed_upto l (graph_rows l ack) {[ack_index]} [pa_row_uuid ack].
Proof.
  intros i u c ->%elem_of_singleton Hu _. left. apply list_elem_of_singleton. congruence.
Qed.

Lemma next_search_closed R : closed_upto l (graph_rows l ack) R (uuids_of l R).
Proof.
  intros i u c Hi Hu _. left. unfold uuids_of. apply list_elem_of_omap. exists i.
  by rewrite elem_of_elements.
Qed.

Lemma search_turn_rows fuel R P R' :
  child_search fuel l (graph_children l (graph_rows l ack)) R P = Ok R' ->
  closed_upto l (graph_rows l ack) R P -> turn_rows R ->
  turn_rows R' /\ closed_upto l (graph_rows l ack) R' [].
Proof.
  intros H Hcl [Ha Hm]. apply child_search_Ok in H as (Hsub & Hcl' & Hfrom); [|done].
  split; [split; [by apply Hsub|]|done]. intros i [?|?%graph_rows_main]%Hfrom; auto.
Qed.

Lemma joined_turn_rows R R' :
  try_fold (join_ancestors l ack_index (all_uuid_to_index l)) (graph_rows l ack) R = Ok R' ->
  turn_rows R -> turn_rows R'.
Proof.
  intros H HR. revert H. apply (try_fold_inv (fun _ X => turn_rows X)); [done|].
  intros pre i X Y [Ha Hm] [rest El] H.
  apply join_ancestors_Ok in H as [Hsub Hfrom].
  - split; [by apply Hsub|]. intros j [?|?]%Hfrom; auto.
  - apply (graph_rows_main l ack). rewrite El, elem_of_app, elem_of_cons. auto.
Qed.

Lemma turn_rows_start : turn_rows {[ack_index]}.
Proof. split; [set_solver|]. by intros i ->%elem_of_singleton. Qed.

Lemma reachable_rows_Ok R :
  reachable_rows l ack ack_index = Ok R -> turn_rows R /\ closed_upto l (graph_rows l ack) R [].
Proof.
  unfold reachable_rows. intros (R1 & H1 & (R2 & H2 & H3)%result_bind_Ok)%result_bind_Ok.
  apply search_turn_rows in H1 as [H1 _]; [|apply first_search_closed|apply turn_rows_start].
  apply joined_turn_rows in H2; [|done].
  apply search_turn_rows in H3; [done|apply next_search_closed|done].
Qed.

Lemma turn_rows_in_bounds R : turn_rows R -> in_bounds l R.
Proof. intros [_ H] i ?%H%main_at_lt. done. Qed.

Lemma search_safe R P :
  turn_rows R ->
  safe (child_search (search_fuel l P) l (graph_children l (graph_rows l ack)) R P).
Proof.
  intros H. apply child_search_safe; [by intros i ?%graph_rows_main%main_at_lt|by apply turn_rows_in_bounds|].
  unfold search_fuel. lia.
Qed.

Lemma reachable_rows_safe : safe (reachable_rows l ack ack_index).
Proof.
  unfold reachable_rows. apply safe_bind; [apply search_safe, turn_rows_start|]. intros R1 H1.
  apply search_turn_rows in H1 as [H1 _]; [|apply first_search_closed|apply turn_rows_start].
  apply safe_bind.
  - apply safe_try_fold_each. intros R i Hi%graph_rows_main. by apply join_ancestors_safe.
  - intros R2 H2%joined_turn_rows; [|done]. by apply search_safe.
Qed.

End Reachable.

(** ** The walk *)

Section Walk.
Context (l : list StoredRow) (ack_index : nat) (active : list nat).
Hypothesis ack_lt : (ack_index < length l)%nat.
Hypothesis ack_not_active : ack_index ∉ active.
Hypothesis active_lt : forall i, i ∈ active -> (i < length l)%nat.
Hypothesis active_uuid : forall i, i ∈ active -> is_Some (row_uuid (l !!! i)).
Hypothesis uuid_unique : forall i j u, (i < length l)%nat -> (j < length l)%nat ->
  row_uuid (l !!! i) = Some u -> row_uuid (l !!! j) = Some u -> i = j.

(** A chain of parents from the acknowledgement. *)
Record chain (path : list nat) : Prop := {
  ch_head : exists rest, path = ack_index :: rest;
  ch_nodup : NoDup path;
  ch_in : forall i, i ∈ path -> i = ack_index \/ i ∈ active;
  ch_link : forall k i j, path !! k = Some i -> path !! S k = Some j ->
    is_Some (row_uuid (l !!! i)) /\ row_parent (l !!! j) = row_uuid (l !!! i);
}.

Lemma chain_start : chain [ack_index].
Proof.
  split; [by exists []|by apply NoDup_singleton|..].
  - intros i ->%list_elem_of_singleton. by left.
  - by intros [|k] i j.
Qed.

Lemma chain_lt path i : chain path -> i ∈ path -> (i < length l)%nat.
Proof. intros Hc Hi. destruct (ch_in _ Hc i Hi) as [->|?]; auto. Qed.

Lemma chain_fresh path i next u :
  chain path -> last path = Some i -> row_uuid (l !!! i) = Some u ->
  next ∈ active -> row_parent (l !!! next) = Some u -> next ∉ path.
Proof.
  intros Hc Hl Hu Hn Hp Hin. apply list_elem_of_lookup in Hin as [[|k] Hk].
  - destruct (ch_head _ Hc) as [rest ->]. injection Hk as ->. done.
  - destruct (path !! k) as [p|] eqn:Ek; [|apply lookup_ge_None in Ek; apply lookup_lt_Some in Hk; lia].
    destruct (ch_link _ Hc _ _ _ Ek Hk) as [_ Hlink].
    assert (p = i) as ->.
    { apply (uuid_unique p i u); [by eapply chain_lt, list_elem_of_lookup_2| |congruence|done].
      eapply chain_lt; [done|]. by apply last_Some_elem_of. }
    rewrite last_lookup in Hl. pose proof (NoDup_lookup _ _ _ _ (ch_nodup _ Hc) Ek Hl).
    apply lookup_lt_Some in Hk. lia.
Qed.

Lemma chain_extend path i next u :
  chain path -> last path = Some i -> row_uuid (l !!! i) = Some u ->
  next ∈ active -> row_parent (l !!! next) = Some u -> chain (path ++ [next]).
Proof.
  intros Hc Hl Hu Hn Hp. pose proof (chain_fresh _ _ _ _ Hc Hl Hu Hn Hp) as Hfresh. split.
  - destruct (ch_head _ Hc) as [rest ->]. by exists (rest ++ [next]).
  - apply NoDup_app. split; [apply Hc|]. split; [|by apply NoDup_singleton].
    intros x Hx ->%list_elem_of_singleton. done.
  - intros j [?%(ch_in _ Hc)| ->%list_elem_of_singleton]%elem_of_app; auto.
  - intros k a b Ha Hb. apply lookup_snoc_inv in Hb as [Hb|[Hk ->]].
    + apply lookup_snoc_inv in Ha as [Ha|[-> _]]; [by eapply ch_link|]. apply lookup_lt_Some in Hb. lia.
    + rewrite lookup_app_l in Ha by lia. rewrite last_lookup, <-Hk in Hl. simpl in Hl.
      rewrite Hl in Ha. injection Ha as <-. split; [by eexists|congruence].
Qed.

Lemma children_active u i : i ∈ children_in l active u -> i ∈ active /\ row_parent (l !!! i) = Some u.
Proof. apply elem_of_children_in. Qed.

(** What the walk answers: a maximal chain, or the branching it met. It runs out of
    neither rows nor fuel, and no row's uuid is met twice. *)
Lemma walk_spec fuel : forall u visited path i,
  chain path -> last path = Some i -> row_uuid (l !!! i) = Some u ->
  (forall v, v ∈ visited -> exists j, j ∈ path /\ row_uuid (l !!! j) = Some v) ->
  (length l < fuel + length path)%nat ->
  match walk fuel l (graph_children l active) u visited path with
  | Ok path' => chain path' /\ exists j v, last path' = Some j /\ row_uuid (l !!! j) = Some v /\
      children_in l active v = []
  | Err (Failed (AmbiguousActiveBranches n)) => 1 < n
  | Err _ => False
  end.
Proof.
  induction fuel as [|fuel IH]; intros u visited path i Hc Hl Hu Hv Hf.
  { pose proof (NoDup_bounded path (length l) (ch_nodup _ Hc) (fun j => chain_lt path j Hc)). lia. }
  cbn [walk]. rewrite graph_children_spec.
  destruct (children_in l active u) as [|next [|other more]] eqn:Ech; [by eauto 10| |simpl; lia].
  assert (Hn : next ∈ children_in l active u) by (rewrite Ech; by apply list_elem_of_singleton).
  apply children_active in Hn as [Hn Hp]. destruct (active_uuid _ Hn) as [v Hnv].
  rewrite Hnv. cbn [ok_or result_bind].
  pose proof (chain_fresh _ _ _ _ Hc Hl Hu Hn Hp) as Hfresh.
  pose proof (chain_extend _ _ _ _ Hc Hl Hu Hn Hp) as Hext.
  case_bool_decide as Hvis.
  { destruct (Hv v Hvis) as (j & Hj & Hju).
    pose proof (chain_lt _ _ Hc Hj) as Hlt.
    rewrite (uuid_unique j next v Hlt (active_lt _ Hn) Hju Hnv) in Hj. done. }
  apply (IH v _ _ next); [done|by rewrite last_snoc|done| |rewrite length_app; simpl; lia].
  intros w [->%elem_of_singleton|(j & ? & ?)%Hv]%elem_of_union; [exists next|exists j]; set_solver.
Qed.

End Walk.

(** ** The rows the chain admits *)

Definition chain_kind (k : RowKind) : bool :=
  match k with
  | Assistant _ | TypedUser _ _ | UserToolResults _ | Attachment _ => true
  | System s => is_admitted_on_active_chain s
  | UserOther | Metadata _ | Unknown _ => false
  end.

Definition is_system (k : RowKind) : bool := match k with System _ => true | _ => false end.

Definition inert (s : StoredRow) : bool :=
  match row_kind s with System m => is_proven_inert_marker m | _ => false end.

(** Nothing but markers behind an inert marker. *)
Definition trailing (l : list StoredRow) (path : list nat) : Prop :=
  forall k k' i j, path !! k = Some i -> path !! k' = Some j -> (k < k')%nat ->
    inert (l !!! i) = true -> is_system (row_kind (l !!! j)) = true.

Definition admits (l : list StoredRow) (path : list nat) (marker : option string) : Prop :=
  (forall i, i ∈ path -> chain_kind (row_kind (l !!! i)) = true) /\ trailing l path /\
  (marker = None -> forall i, i ∈ path -> inert (l !!! i) = false).

Lemma trailing_snoc l path i :
  trailing l path ->
  (is_system (row_kind (l !!! i)) = true \/ forall j, j ∈ path -> inert (l !!! j) = false) ->
  trailing l (path ++ [i]).
Proof.
  intros Ht Hi k k' a b Ha Hb Hlt Hin. apply lookup_snoc_inv in Hb as [Hb|[-> ->]].
  - apply lookup_snoc_inv in Ha as [Ha|[-> _]]; [exact (Ht _ _ _ _ Ha Hb Hlt Hin)|]. apply lookup_lt_Some in Hb. lia.
  - destruct Hi as [?|Hno]; [done|]. rewrite lookup_app_l in Ha by lia.
    apply list_elem_of_lookup_2, Hno in Ha. congruence.
Qed.

Lemma validate_path_row_Ok str_debug l path marker i marker' :
  admits l path marker -> validate_path_row str_debug l marker i = Ok marker' ->
  admits l (path ++ [i]) marker'.
Proof.
  intros (Hk & Ht & Hm) H. unfold validate_path_row in H. unfold admits, inert in *.
  assert (Hno : marker = None -> (match row_kind (l !!! i) with
     | System m => is_proven_inert_marker m | _ => false end = false) ->
     forall j, j ∈ path ++ [i] -> match row_kind (l !!! j) with
     | System m => is_proven_inert_marker m | _ => false end = false).
  { intros Hn Hi j [?| ->%list_elem_of_singleton]%elem_of_app; auto. }
  assert (Hall : chain_kind (row_kind (l !!! i)) = true ->
    forall j, j ∈ path ++ [i] -> chain_kind (row_kind (l !!! j)) = true).
  { intros Hi j [?| ->%list_elem_of_singleton]%elem_of_app; auto. }
  destruct (row_kind (l !!! i)) as [| | | | |s| |] eqn:Ek; simpl in H; try done.
  5: { destruct (is_admitted_on_active_chain s) eqn:Ea; simpl in H; [|done]. injection H as <-.
    split; [auto|]. split; [apply trailing_snoc; [done|left; by rewrite Ek]|].
    destruct (is_proven_inert_marker s) eqn:Ei; simpl; [|auto].
    case_bool_decide; [|by intros ->]. intros Hs. unfold is_proven_inert_marker, subtype_is in Ei.
    rewrite Hs in Ei. done. }
  all: destruct marker; [done|]; injection H as <-; split; [auto|];
    (split; [apply trailing_snoc; [done|right; by apply Hm]|auto]).
Qed.

Lemma validate_strict_active_path_Ok str_debug l path :
  validate_strict_active_path str_debug l path = Ok tt ->
  (forall i, i ∈ drop 1 path -> chain_kind (row_kind (l !!! i)) = true) /\ trailing l (drop 1 path).
Proof.
  unfold validate_strict_active_path. intros (m & H & _)%result_bind_Ok.
  apply (try_fold_inv (admits l)) in H as (? & ? & _); [done| |].
  - split; [by intros i ?%elem_of_nil|]. split; [by intros k k' i j H0|by intros _ i ?%elem_of_nil].
  - intros pre i x y Hx _. by apply validate_path_row_Ok.
Qed.

Lemma elem_of_drop_1 (path : list nat) i : i ∈ drop 1 path -> i ∈ path.
Proof. destruct path; simpl; [done|]. rewrite drop_0. intros ?. by apply elem_of_cons; right. Qed.

Lemma validate_strict_active_path_safe str_debug l path :
  (forall i, i ∈ path -> is_metadata (row_kind (l !!! i)) = false) ->
  safe (validate_strict_active_path str_debug l path).
Proof.
  intros H. apply safe_bind; [|done]. apply safe_try_fold_each. intros marker i Hi.
  specialize (H i (elem_of_drop_1 _ _ Hi)). unfold validate_path_row.
  destruct (row_kind (l !!! i)) as [| | | | |s| |]; simpl; try done; [by destruct marker..|].
  by destruct (is_admitted_on_active_chain s).
Qed.

(** ** Validation of the reached rows *)

Record validated (l : list StoredRow) (ack : PromptAcknowledgement) (i : nat) : Prop := {
  va_uuid : is_Some (row_uuid (l !!! i));
  va_parent : exists p j, row_parent (l !!! i) = Some p /\ row_uuid (l !!! j) = Some p /\ main_at l j /\
    (pa_ordinal ack <= ordinal (l !!! i) -> ordinal (l !!! j) < ordinal (l !!! i));
}.

Lemma validate_reachable_Ok l ack ack_index i :
  validate_reachable l ack ack_index (all_uuid_to_index l) tt i = Ok tt ->
  i = ack_index \/ validated l ack i.
Proof.
  unfold validate_reachable. destruct (Nat.eqb_spec i ack_index); [by left|]. right.
  destruct (row_uuid (l !!! i)) as [u|] eqn:Eu; simpl in *; [|done].
  destruct (row_parent (l !!! i)) as [p|] eqn:Ep; simpl in *; [|done].
  destruct (all_uuid_to_index l !! p) as [j|] eqn:Ej; simpl in *; [|done].
  apply all_uuid_to_index_sound in Ej as [Hm Hu]. split; [by rewrite Eu|]. exists p, j.
  split_and!; try done. intros Hle.
  destruct (N.leb_spec (pa_ordinal ack) (ordinal (l !!! i))); [|lia].
  by destruct (N.leb_spec (ordinal (l !!! i)) (ordinal (l !!! j))).
Qed.

Lemma validate_reachable_safe l ack ack_index index x i :
  safe (validate_reachable l ack ack_index index x i).
Proof.
  unfold validate_reachable. destruct (Nat.eqb i ack_index); [done|].
  repeat (apply safe_bind; [auto with pmux|intros]). by destruct (_ && _).
Qed.

Lemma refuse_disconnected_Ok l ack_index R i :
  refuse_disconnected l ack_index R tt i = Ok tt -> ack_index ∈ R ->
  is_live_semantic_row (row_kind (l !!! i)) = true -> i ∈ R.
Proof.
  unfold refuse_disconnected. intros H Ha Hl. rewrite Hl in H.
  destruct (Nat.eqb_spec i ack_index) as [Heq|_]; [by rewrite Heq|]. simpl in H. by case_bool_decide.
Qed.

Lemma refuse_disconnected_safe l ack_index R x i : safe (refuse_disconnected l ack_index R x i).
Proof. unfold refuse_disconnected. destruct (_ || _); [done|]. by destruct (is_live_semantic_row (row_kind (l !!! i))). Qed.

(** ** The path as a whole *)

(** What a turn's path is, over the rows of the engine. *)
Record active_path (e : TranscriptEngine) (ack : PromptAcknowledgement) (path : list nat) (leaf : nat)
  : Prop := {
  (** It starts at the acknowledged prompt and ends at its leaf, visiting no row twice. *)
  ap_head : exists ack_index rest prompt, path = ack_index :: rest /\
    row_uuid (rows e !!! ack_index) = Some (pa_row_uuid ack) /\
    ordinal (rows e !!! ack_index) = pa_ordinal ack /\
    row_kind (rows e !!! ack_index) = TypedUser prompt (pa_prompt_id ack);
  ap_leaf : last path = Some leaf;
  ap_nodup : NoDup path;
  (** Each row's parent is the row before it. *)
  ap_link : forall k i j, path !! k = Some i -> path !! S k = Some j ->
    is_Some (row_uuid (rows e !!! i)) /\ row_parent (rows e !!! j) = row_uuid (rows e !!! i) /\
    (pa_ordinal ack <= ordinal (rows e !!! j) -> ordinal (rows e !!! i) < ordinal (rows e !!! j));
  (** Only main-scope rows of the kinds the chain admits. *)
  ap_main : forall i, i ∈ path -> main_at (rows e) i;
  ap_kinds : forall i, i ∈ path -> chain_kind (row_kind (rows e !!! i)) = true;
  (** Behind an inert marker only system markers follow. *)
  ap_trailing : trailing (rows e) path;
  (** Nothing of the turn is left out: every live main-scope row since the prompt, and
      every main-scope row since the prompt whose parent is on the path, is on it. *)
  ap_complete : forall i s, rows e !! i = Some s -> main_row s = true -> pa_ordinal ack <= ordinal s ->
    (is_live_semantic_row (row_kind s) = true -> i ∈ path) /\
    (forall j, j ∈ path -> row_uuid (rows e !!! j) <> None ->
       row_parent s = row_uuid (rows e !!! j) -> i ∈ path);
}.

Section Path.
Variable nfc : list N -> list N.
Variable str_debug : string -> string.
Context (e : TranscriptEngine) (t : ActiveTurn) (ack : PromptAcknowledgement).
Hypothesis e_ok : engine_ok nfc e.
Hypothesis e_turn : active_turn e = Some t.
Hypothesis e_ack : acknowledgement t = Some ack.

Lemma ack_found : exists ack_index prompt,
  by_uuid e !! pa_row_uuid ack = Some ack_index /\ main_at (rows e) ack_index /\
  row_uuid (rows e !!! ack_index) = Some (pa_row_uuid ack) /\
  ordinal (rows e !!! ack_index) = pa_ordinal ack /\
  row_kind (rows e !!! ack_index) = TypedUser prompt (pa_prompt_id ack).
Proof.
  destruct (turn_ack _ _ _ (ok_turn _ _ e_ok _ e_turn) _ e_ack)
    as [_ (i & s & prompt & Hi & Ho & Hu & Hs & Hk & _)].
  exists i, prompt. rewrite (lookup_row _ _ _ Hi). split_and!; try done.
  - apply (ok_index _ _ e_ok). eauto.
  - exists s. split; [done|]. unfold main_row. by rewrite Hs, Hk.
Qed.

Lemma uuids_unique i j u :
  (i < length (rows e))%nat -> (j < length (rows e))%nat ->
  row_uuid (rows e !!! i) = Some u -> row_uuid (rows e !!! j) = Some u -> i = j.
Proof.
  intros [si Hi]%lookup_lt_is_Some_2 [sj Hj]%lookup_lt_is_Some_2.
  rewrite (lookup_row _ _ _ Hi), (lookup_row _ _ _ Hj). intros Hui Huj.
  assert (by_uuid e !! u = Some i) by (apply (ok_index _ _ e_ok); eauto).
  assert (by_uuid e !! u = Some j) by (apply (ok_index _ _ e_ok); eauto). congruence.
Qed.

(** The rows of the path: those of the turn, in append order. *)
Definition reached (R : gset nat) : list nat :=
  indices_from (fun i s => bool_decide (i ∈ R) && main_row s) 0 (rows e).

Definition others (ack_index : nat) (R : gset nat) : list nat :=
  List.filter (fun i => negb (Nat.eqb i ack_index)) (reached R).

Lemma elem_of_reached R i : (forall j, j ∈ R -> main_at (rows e) j) -> i ∈ reached R <-> i ∈ R.
Proof.
  intros HR. unfold reached. rewrite elem_of_indices. split.
  - by intros (s & _ & [?%bool_decide_eq_true _]%andb_true_iff).
  - intros Hi. destruct (HR i Hi) as (s & Hs & Hm). exists s. by rewrite bool_decide_eq_true_2, Hm.
Qed.

Lemma elem_of_others a R i :
  (forall j, j ∈ R -> main_at (rows e) j) -> i ∈ others a R <-> i ∈ R /\ i <> a.
Proof.
  intros HR. unfold others. rewrite list_elem_of_In, List.filter_In, <-list_elem_of_In, elem_of_reached by done.
  by rewrite negb_true_iff, Nat.eqb_neq.
Qed.

(** The chain found is every reached row: as long, and without repetition. *)
Lemma path_covers a R path :
  (forall j, j ∈ R -> main_at (rows e) j) -> a ∈ R ->
  chain (rows e) a (others a R) path -> length path = length (reached R) ->
  forall i, i ∈ path <-> i ∈ R.
Proof.
  intros HR Ha Hc Hlen.
  assert (Hsub : forall i, i ∈ path -> i ∈ reached R).
  { intros i [->|[? _]%elem_of_others]%(ch_in _ _ _ _ Hc); try done; by apply elem_of_reached. }
  assert (Hperm : path ≡ₚ reached R).
  { apply submseteq_length_Permutation; [by apply NoDup_submseteq; [apply Hc|]|lia]. }
  intros i. by rewrite Hperm, elem_of_reached.
Qed.

Section Found.
Context (a : nat) (prompt : string) (R : gset nat).
Hypothesis a_main : main_at (rows e) a.
Hypothesis a_uuid : row_uuid (rows e !!! a) = Some (pa_row_uuid ack).
Hypothesis R_turn : turn_rows (rows e) a R.
Hypothesis R_closed : closed_upto (rows e) (graph_rows (rows e) ack) R [].
Hypothesis R_valid : forall i, i ∈ R -> i = a \/ validated (rows e) ack i.

Lemma R_main : forall i, i ∈ R -> main_at (rows e) i.
Proof. apply R_turn. Qed.

Lemma others_valid i : i ∈ others a R -> validated (rows e) ack i.
Proof. intros [Hi ?]%elem_of_others; [|apply R_main]. by destruct (R_valid i Hi). Qed.

(** The walk over the reached rows, as [walk_spec] describes it. *)
Lemma walk_found :
  match walk (length (rows e)) (rows e) (graph_children (rows e) (others a R)) (pa_row_uuid ack)
          {[pa_row_uuid ack]} [a] with
  | Ok path => chain (rows e) a (others a R) path
  | Err (Failed (AmbiguousActiveBranches n)) => 1 < n
  | Err _ => False
  end.
Proof.
  assert (H := walk_spec (rows e) a (others a R) (main_at_lt _ _ a_main)).
  specialize (H ltac:(by intros [_ ?]%elem_of_others; [|apply R_main])).
  specialize (H ltac:(intros i [Hi _]%elem_of_others; [by apply main_at_lt, R_main|apply R_main])).
  specialize (H (fun i Hi => va_uuid _ _ _ (others_valid i Hi)) uuids_unique).
  specialize (H (length (rows e)) (pa_row_uuid ack) {[pa_row_uuid ack]} [a] a).
  specialize (H (chain_start _ _ _) eq_refl a_uuid).
  specialize (H ltac:(intros v ->%elem_of_singleton; exists a; split; [by apply list_elem_of_singleton|done])).
  specialize (H ltac:(simpl; lia)).
  destruct (walk _ _ _ _ _ _); [by destruct H|done].
Qed.

Lemma path_found path leaf :
  chain (rows e) a (others a R) path -> length path = length (reached R) ->
  ordinal (rows e !!! a) = pa_ordinal ack ->
  row_kind (rows e !!! a) = TypedUser prompt (pa_prompt_id ack) ->
  validate_strict_active_path str_debug (rows e) path = Ok tt -> last path = Some leaf ->
  (forall i, i ∈ graph_rows (rows e) ack -> is_live_semantic_row (row_kind (rows e !!! i)) = true -> i ∈ R) ->
  active_path e ack path leaf.
Proof.
  intros Hc Hlen Hord Hkind Hv Hleaf Hlive.
  pose proof (path_covers a R path R_main (proj1 R_turn) Hc Hlen) as Hcov.
  destruct (ch_head _ _ _ _ Hc) as [rest Ep].
  apply validate_strict_active_path_Ok in Hv as [Hkinds Htrail].
  assert (Hrest : drop 1 path = rest) by (by rewrite Ep). rewrite Hrest in Hkinds, Htrail.
  split.
  - by exists a, rest, prompt.
  - done.
  - apply Hc.
  - intros k i j Hi Hj. destruct (ch_link _ _ _ _ Hc _ _ _ Hi Hj) as [[u Hu] Hp]. split_and!; [by eexists|done|].
    assert (HjR : j ∈ others a R).
    { apply elem_of_others; [apply R_main|]. split; [by apply Hcov, (list_elem_of_lookup_2 _ (S k))|].
      intros ->. rewrite Ep in Hj.
      pose proof (NoDup_lookup path (S k) 0%nat a (ch_nodup _ _ _ _ Hc)) as Hnd. rewrite Ep in Hnd.
      by specialize (Hnd Hj eq_refl). }
    destruct (va_parent _ _ _ (others_valid _ HjR)) as (p & j' & Hp' & Hu' & Hm' & Hlt).
    intros Hle. rewrite (uuids_unique i j' p); [by apply Hlt| |by apply main_at_lt|congruence|done].
    apply main_at_lt, R_main, Hcov. by eapply list_elem_of_lookup_2.
  - intros i Hi%Hcov. by apply R_main.
  - intros i Hi. rewrite Ep in Hi. apply elem_of_cons in Hi as [->|Hi]; [by rewrite Hkind|auto].
  - rewrite Ep. intros [|k] k' i j Hi Hj Hlt Hin.
    + injection Hi as <-. unfold inert in Hin. by rewrite Hkind in Hin.
    + destruct k' as [|k']; [lia|]. exact (Htrail k k' i j Hi Hj ltac:(lia) Hin).
  - intros i s Hi Hm Hle. assert (Hg : i ∈ graph_rows (rows e) ack) by (apply elem_of_graph_rows; eauto).
    rewrite <-(lookup_row _ _ _ Hi). split; [intros ?; apply Hcov; auto|].
    intros j Hj Hu Hp. destruct (row_uuid (rows e !!! j)) as [u|] eqn:Eu; [|done].
    apply Hcov. destruct (R_closed j u i) as [?%elem_of_nil|?]; try done; [by apply Hcov|].
    by apply elem_of_children_in.
Qed.

End Found.

(** From the validated rows on: walk, compare, check the markers. *)
Definition follow (a : nat) (R : gset nat) : result ActiveIndices Fault :=
  let? children := active_children (rows e) (others a R) in
  let leaves := leaf_count (rows e) children (reached R) in
  if (1 <? leaves)%nat then fail (AmbiguousActiveBranches (N.of_nat leaves))
  else
    let? path := walk (length (rows e)) (rows e) children (pa_row_uuid ack) {[pa_row_uuid ack]} [a] in
    if negb (length path =? length (reached R))%nat then
      fail (AmbiguousActiveBranches (N.of_nat (Nat.max leaves 2)))
    else
      let? _ := validate_strict_active_path str_debug (rows e) path in
      let? leaf := ok_or (last path) (Panicked "the path always contains the acknowledgement") in
      Ok (mkActiveIndices path path leaf).

Definition path_or_failure (r : result ActiveIndices Fault) : Prop :=
  match r with
  | Ok ai => ai_included ai = ai_path ai /\ active_path e ack (ai_path ai) (ai_leaf_index ai)
  | Err f => safe (A := unit) (Err f)
  end.

Lemma follow_spec a prompt R :
  main_at (rows e) a -> row_uuid (rows e !!! a) = Some (pa_row_uuid ack) ->
  turn_rows (rows e) a R -> closed_upto (rows e) (graph_rows (rows e) ack) R [] ->
  (forall i, i ∈ R -> i = a \/ validated (rows e) ack i) ->
  ordinal (rows e !!! a) = pa_ordinal ack ->
  row_kind (rows e !!! a) = TypedUser prompt (pa_prompt_id ack) ->
  (forall i, i ∈ graph_rows (rows e) ack -> is_live_semantic_row (row_kind (rows e !!! i)) = true -> i ∈ R) ->
  path_or_failure (follow a R).
Proof.
  intros Hm Hu HR Hcl Hval Ho Hk Hlive. unfold follow.
  destruct (safe_cases (active_children (rows e) (others a R))) as [[C EC]|[x ->]]; [| |done].
  { apply active_children_safe. intros i Hi.
    destruct (va_parent _ _ _ (others_valid a R HR Hval i Hi)) as (p & ? & -> & _). by eexists. }
  rewrite EC. apply active_children_Ok in EC as [-> _]. cbn [result_bind].
  destruct (1 <? _)%nat; [done|].
  pose proof (walk_found a R Hm Hu HR Hval) as HW.
  destruct (walk _ _ _ _ _ _) as [path|f]; [|by destruct f as [[]| |]]. cbn [result_bind].
  destruct (Nat.eqb_spec (length path) (length (reached R))) as [Hlen|]; simpl; [|done].
  destruct (safe_cases (validate_strict_active_path str_debug (rows e) path)) as [[[] EP]|[x ->]]; [| |done].
  { apply validate_strict_active_path_safe.
    intros i Hi%(path_covers a R path (R_main a R HR) (proj1 HR) HW Hlen).
    destruct (proj2 HR i Hi) as (s & Hs & [_ ?%negb_true_iff]%andb_true_iff).
    by rewrite (lookup_row _ _ _ Hs). }
  rewrite EP. cbn [result_bind]. destruct (last path) as [leaf|] eqn:El; simpl.
  - split; [done|]. by eapply (path_found a prompt R).
  - apply last_None in El. destruct (ch_head _ _ _ _ HW) as [? ?]. congruence.
Qed.

Lemma strict_active_indices_spec : path_or_failure (strict_active_indices str_debug e ack).
Proof.
  destruct ack_found as (a & prompt & Hb & Hm & Hu & Ho & Hk).
  unfold strict_active_indices. rewrite Hb. cbn [ok_or result_bind].
  destruct (safe_cases _ (reachable_rows_safe (rows e) ack a Hu Hm)) as [[R ER]|[x ->]]; [|done].
  rewrite ER. cbn [result_bind]. apply reachable_rows_Ok in ER as [HR Hcl]; [|done|done].
  change (indices_from _ 0 (rows e)) with (reached R).
  change (List.filter _ (reached R)) with (others a R).
  destruct (safe_cases _ (safe_try_fold_each (validate_reachable (rows e) ack a (all_uuid_to_index (rows e)))
    (reached R) tt (fun x i _ => validate_reachable_safe _ _ _ _ x i))) as [[[] EV]|[x ->]]; [|done].
  rewrite EV. cbn [result_bind].
  destruct (safe_cases _ (safe_try_fold_each (refuse_disconnected (rows e) a R) (graph_rows (rows e) ack) tt
    (fun x i _ => refuse_disconnected_safe _ _ _ x i))) as [[[] ED]|[x ->]]; [|done].
  rewrite ED. cbn [result_bind]. apply (follow_spec a prompt R); try done.
  - intros i Hi. apply validate_reachable_Ok, (try_fold_each _ _ EV).
    apply elem_of_reached; [apply HR|done].
  - intros i Hi Hlive. eapply refuse_disconnected_Ok; [by apply (try_fold_each _ _ ED)|apply HR|done].
Qed.

End Path.

(** C14. The active path of an acknowledged turn, whenever one is found, is the whole
    turn and nothing else: one chain of parents from the acknowledged prompt to the
    leaf, no row twice, only main-scope rows of admitted kinds, only system markers
    behind an inert marker, each row since the prompt appended after its parent; and
    every live row since the prompt and every row since the prompt whose parent is on
    the chain is on it, so no branch is dropped. *)
Theorem active_path_is_the_turn nfc str_debug l t ack ai :
  N.of_nat (length l) <= U64_MAX ->
  active_turn (calls nfc l) = Some t -> acknowledgement t = Some ack ->
  active_indices str_debug (calls nfc l) ack = Ok ai ->
  ai_included ai = ai_path ai /\ active_path (calls nfc l) ack (ai_path ai) (ai_leaf_index ai).
Proof.
  intros Hl Ht Ha H. pose proof (engine_calls_ok nfc l Hl) as [He _].
  pose proof (strict_active_indices_spec nfc str_debug _ t ack He Ht Ha) as Hs.
  unfold active_indices in H. destruct (mode (calls nfc l)). by rewrite H in Hs.
Qed.

(** ** Witness: a turn whose chain runs through a row written before the prompt *)

Definition an_answer (id text stop : string) (tokens : N) : RowKind :=
  Assistant (mkAssistantFragment (Some id) None (Some "claude"%string) [Text text] (Some stop)
    (Some (mkUsageSnapshot (mkTokenUsage tokens 7 0 0) (JNum tokens))) false).

Definition snapshot_turn : list engine_call :=
  [ Ingest (a_row (Some "s"%string) (Some "r"%string) (Attachment "prompt_snapshot") (JNum 0));
    Arm (text_of "hello");
    Ingest a_prompt_row;
    Ingest (a_row (Some "r"%string) (Some "u1"%string) (Attachment "total_tokens_reminder") (JNum 2));
    Ingest (a_row (Some "a"%string) (Some "s"%string) (an_answer "m1" "hi" "end_turn" 11) (JNum 3)) ].

Definition snapshot_ack : PromptAcknowledgement := mkPromptAcknowledgement "u1" None 1.

Lemma active_path_is_the_turn_witness :
  active_indices id (calls id snapshot_turn) snapshot_ack
    = Ok (mkActiveIndices [1; 2; 0; 3]%nat [1; 2; 0; 3]%nat 3) /\
  active_path (calls id snapshot_turn) snapshot_ack [1; 2; 0; 3]%nat 3.
Proof.
  assert (E : active_indices id (calls id snapshot_turn) snapshot_ack
    = Ok (mkActiveIndices [1; 2; 0; 3]%nat [1; 2; 0; 3]%nat 3)) by (vm_compute; reflexivity).
  split; [exact E|].
  apply (active_path_is_the_turn id id snapshot_turn
    (mkActiveTurn (text_of "hello") 1 (Some snapshot_ack)) snapshot_ack
    (mkActiveIndices [1; 2; 0; 3]%nat [1; 2; 0; 3]%nat 3)); [done|vm_compute; reflexivity|reflexivity|exact E].
Defined.
