(* ===== verification/EngineTurn.v ===== *)
(** * What the analysis says of the turn

    Logical messages, usage, tools, the verdict; and that the analysis as a whole
    neither panics nor runs out of fuel. *)

From S2P Require Import Prelude Text Protocol Composer Transcript Engine EngineIngest EnginePath.

(** ** Sidechains *)

Lemma descend_safe fuel : forall e root allow cache visited path current,
  visited ⊆ dom (by_uuid e) -> (size (by_uuid e) < fuel + size visited)%nat ->
  safe (descend fuel e root allow cache visited path current).
Proof.
  induction fuel as [|fuel IH]; intros e root allow cache visited path [candidate|] Hv Hf; try done.
  { apply subseteq_size in Hv. rewrite size_dom in Hv. lia. }
  cbn [descend]. destruct (cache !! candidate); [done|].
  case_bool_decide as Hn; [done|].
  destruct (by_uuid e !! candidate) as [index|] eqn:Ei; [|done].
  destruct (_ && _); [done|]. destruct (String.eqb candidate root); [done|].
  apply IH; [|rewrite size_union, size_singleton by set_solver; lia].
  apply union_least; [|done]. apply singleton_subseteq_l, elem_of_dom. by eexists.
Qed.

Lemma sidechain_indices_safe e ack : safe (sidechain_indices e ack).
Proof.
  unfold sidechain_indices. apply safe_bind; [|by intros []].
  apply safe_try_fold_each. intros [indices cache] i _.
  destruct (_ || _); [done|]. destruct (row_uuid (rows e !!! i)) as [u|]; [|done].
  apply safe_bind; [|by intros []]. unfold is_descendant_cached.
  apply safe_bind; [|by intros []]. apply descend_safe; [set_solver|lia].
Qed.

(** ** Grouping *)

(** The assistant fragments of a key among the given rows, in order. *)
Definition fragment_of (l : list StoredRow) (key : LogicalMessageKey) (i : nat)
  : option (StoredRow * AssistantFragment) :=
  match row_kind (l !!! i) with
  | Assistant f =>
      match message_key (l !!! i) with
      | Ok (Some k) => if bool_decide (k = key) then Some (l !!! i, f) else None
      | _ => None
      end
  | _ => None
  end.

Definition fragments (l : list StoredRow) (key : LogicalMessageKey) (included : list nat)
  : list (StoredRow * AssistantFragment) :=
  omap (fragment_of l key) included.

Definition ends_in {A} (target : option A) (candidates : list (option A)) : Prop :=
  (forall c, Some c ∈ candidates -> target = Some c) /\
  (forall c, target = Some c -> Some c ∈ candidates).

(** A message is its fragments put together: their uuids and blocks in order, the one
    model and stop reason they agree on, their common usage. *)
Record puts_together (m : LogicalAssistantMessage) (fs : list (StoredRow * AssistantFragment)) : Prop := {
  pt_uuids : lm_row_uuids m = omap (fun f => row_uuid (fst f)) fs;
  pt_blocks : lm_blocks m = fs ≫= (fun f => af_blocks (snd f));
  pt_known : forall b, b ∈ lm_blocks m -> forall ty raw, b <> UnknownBlock ty raw;
  pt_error : lm_is_api_error m = existsb (fun f => af_is_api_error (snd f)) fs;
  pt_model : ends_in (lm_model m) ((fun f => af_model (snd f)) <$> fs);
  pt_stop : ends_in (lm_stop_reason m) ((fun f => StopReason_parse <$> af_stop_reason (snd f)) <$> fs);
  pt_usage : (forall u, lm_usage m = Some u -> Some u ∈ (fun f => af_usage (snd f)) <$> fs) /\
    (forall u, Some u ∈ (fun f => af_usage (snd f)) <$> fs ->
       exists u', lm_usage m = Some u' /\ us_tokens u' = us_tokens u);
  pt_first : forall f, head fs = Some f -> lm_first_ordinal m = ordinal (fst f);
  pt_last : forall f, last fs = Some f -> lm_last_ordinal m = ordinal (fst f);
}.

Lemma merge_owned_Ok {T} `{EqDecision T} (target candidate : option T) key field target' candidates :
  merge_optional_owned target candidate key field Strict = Ok target' ->
  ends_in target candidates -> ends_in target' (candidates ++ [candidate]).
Proof.
  unfold merge_optional_owned, ends_in. intros H [H1 H2].
  destruct candidate as [c|].
  2: { injection H as <-. split; intros c Hc; set_solver. }
  destruct target as [x|]; [case_bool_decide as E; [|done]; injection H as <-; subst x|injection H as <-].
  - split; [intros d [?| [=]%list_elem_of_singleton]%elem_of_app; [auto|by subst]|].
    intros d [= <-]. apply elem_of_app. right. by apply list_elem_of_singleton.
  - split; [intros d [Hd%H1| [=]%list_elem_of_singleton]%elem_of_app; [done|by subst]|].
    intros d [= <-]. apply elem_of_app. right. by apply list_elem_of_singleton.
Qed.

Lemma merge_usage_Ok key target candidate ws target' ws' candidates :
  merge_usage Strict key target candidate ws = Ok (target', ws') ->
  (forall u, target = Some u -> Some u ∈ candidates) /\
    (forall u, Some u ∈ candidates -> exists u', target = Some u' /\ us_tokens u' = us_tokens u) ->
  (forall u, target' = Some u -> Some u ∈ candidates ++ [candidate]) /\
    (forall u, Some u ∈ candidates ++ [candidate] ->
       exists u', target' = Some u' /\ us_tokens u' = us_tokens u) /\ ws' = ws.
Proof.
  unfold merge_usage. intros H [H1 H2]. destruct candidate as [c|].
  2: { injection H as <- <-. split_and!; try done; [set_solver|].
       intros u [?|?%list_elem_of_singleton]%elem_of_app; [auto|done]. }
  destruct target as [x|].
  - destruct (usage_eqb x c) eqn:E; [|done]. injection H as <- <-.
    unfold usage_eqb in E. apply andb_true_iff in E as [Et%bool_decide_eq_true _].
    split_and!; [intros u Hu; apply elem_of_app; left; auto| |done].
    intros u [?| [= ->]%list_elem_of_singleton]%elem_of_app; [auto|by exists x].
  - injection H as <- <-. split_and!; [intros u [= ->]; set_solver| |done].
    intros u [(u' & [=] & _)%H2| [= ->]%list_elem_of_singleton]%elem_of_app. by exists c.
Qed.

Lemma merge_blocks_Ok str_debug u key bs blocks ws blocks' ws' :
  try_fold (merge_block str_debug Strict u key) bs (blocks, ws) = Ok (blocks', ws') ->
  blocks' = blocks ++ bs /\ ws' = ws /\ forall b, b ∈ bs -> forall ty raw, b <> UnknownBlock ty raw.
Proof.
  intros H. apply (try_fold_inv (fun pre st => st = (blocks ++ pre, ws) /\
    forall b, b ∈ pre -> forall ty raw, b <> UnknownBlock ty raw)) in H as [[= -> ->] ?]; [done| |].
  - rewrite app_nil_r. split; [done|]. by intros b ?%elem_of_nil.
  - intros pre b [bl w] y [[= -> ->] Hb] _ Hm. unfold merge_block in Hm.
    destruct b; simpl in Hm; try done; injection Hm as <-; rewrite <-app_assoc;
      (split; [done|]); intros b' [?| ->%list_elem_of_singleton]%elem_of_app; auto.
Qed.

Lemma new_message_puts_together key at_ : puts_together (new_message key at_) [].
Proof.
  split; simpl; try done; try (by intros b ?%elem_of_nil);
    split; try done; intros c ?%elem_of_nil; done.
Qed.

Lemma merge_fragment_Ok str_debug stored f key m ws m' ws' fs :
  merge_fragment str_debug Strict stored f key m ws = Ok (m', ws') ->
  puts_together m fs -> (fs = [] -> lm_first_ordinal m = ordinal stored) ->
  puts_together m' (fs ++ [(stored, f)]) /\ ws' = ws /\ lm_key m' = lm_key m.
Proof.
  unfold merge_fragment. intros H Hm Hfirst.
  apply result_bind_Ok in H as (model & Hmodel & H). apply result_bind_Ok in H as (stop & Hstop & H).
  apply result_bind_Ok in H as ([usage ws1] & Husage & H). apply result_bind_Ok in H as ([blocks ws2] & Hblocks & H).
  injection H as <- <-. destruct Hm.
  eapply merge_owned_Ok in Hmodel; [|done].
  assert (Hs : ends_in stop (((fun f => StopReason_parse <$> af_stop_reason (snd f)) <$> fs)
                               ++ [StopReason_parse <$> af_stop_reason f])).
  { destruct (StopReason_parse <$> af_stop_reason f); [by eapply merge_owned_Ok|].
    injection Hstop as <-. destruct pt_stop0. split; intros c Hc; set_solver. }
  eapply merge_usage_Ok in Husage as (Hu1 & Hu2 & ->); [|done].
  apply merge_blocks_Ok in Hblocks as (-> & -> & Hknown).
  split; [|done]. split; simpl; rewrite ?fmap_app; try done.
  - rewrite omap_app, pt_uuids0. simpl. by destruct (row_uuid stored).
  - rewrite bind_app, pt_blocks0. simpl. by rewrite app_nil_r.
  - intros b [?|?]%elem_of_app; auto.
  - rewrite List.existsb_app, pt_error0. simpl. by rewrite orb_false_r.
  - intros g Hg. destruct fs as [|g' fs]; simpl in Hg; injection Hg as <-; auto.
  - intros g Hg. rewrite last_snoc in Hg. by injection Hg as <-.
Qed.

(** The state of the grouping loop over the rows [pre] already seen. *)
Record grouping_ok (l : list StoredRow) (ws : list EngineWarning) (pre : list nat) (g : Grouping) : Prop := {
  go_index : forall key p, positions g !! key = Some p <->
    exists m, messages g !! p = Some m /\ lm_key m = key;
  go_messages : forall m, m ∈ messages g ->
    fragments l (lm_key m) pre <> [] /\ puts_together m (fragments l (lm_key m) pre);
  go_all : forall key, fragments l key pre <> [] -> is_Some (positions g !! key);
  go_warnings : warnings g = ws;
}.

Lemma fragments_snoc l key pre i :
  fragments l key (pre ++ [i]) = fragments l key pre ++ option_list (fragment_of l key i).
Proof. unfold fragments. rewrite omap_app. simpl. by destruct (fragment_of l key i). Qed.

Lemma fragment_of_assistant l i f key key' :
  row_kind (l !!! i) = Assistant f -> message_key (l !!! i) = Ok (Some key) ->
  fragment_of l key' i = if bool_decide (key = key') then Some (l !!! i, f) else None.
Proof. intros Hk Hm. unfold fragment_of. by rewrite Hk, Hm. Qed.

Lemma position_of_ok l ws pre g key at_ p g' :
  grouping_ok l ws pre g -> position_of key at_ g = (p, g') ->
  (forall key p, positions g' !! key = Some p <-> exists m, messages g' !! p = Some m /\ lm_key m = key) /\
  (exists m, messages g' !! p = Some m /\ lm_key m = key /\ puts_together m (fragments l key pre) /\
     (fragments l key pre = [] -> lm_first_ordinal m = at_)) /\
  (forall q m, messages g' !! q = Some m -> q <> p -> messages g !! q = Some m) /\
  (forall key', is_Some (positions g !! key') -> is_Some (positions g' !! key')) /\ warnings g' = ws.
Proof.
  intros [Hi Hm Hall Hw]. unfold position_of. destruct (positions g !! key) as [q|] eqn:Eq.
  { intros [= <- <-]. apply Hi in Eq as (m & Hq & Hkey). split_and!; try done.
    exists m. destruct (Hm m) as [Hne Hp]; [by eapply list_elem_of_lookup_2|]. rewrite Hkey in *. done. }
  intros [= <- <-]. simpl.
  assert (Hempty : fragments l key pre = []).
  { destruct (fragments l key pre) eqn:E; [done|]. destruct (Hall key) as [? ?]; [by rewrite E|congruence]. }
  split_and!; try done.
  - intros k q. destruct (decide (k = key)) as [->|Hne].
    + rewrite lookup_insert_eq. split.
      * intros [= <-]. eexists. split; [by apply list_lookup_middle|done].
      * intros (m & [Hq|[-> _]]%lookup_snoc_inv & Hkey); [|done].
        assert (positions g !! key = Some q) by (apply Hi; eauto). congruence.
    + rewrite lookup_insert_ne, Hi by done. split.
      * intros (m & Hq & ?). exists m. split; [by apply lookup_app_l_Some|done].
      * intros (m & [Hq|[-> ->]]%lookup_snoc_inv & Hkey); [by exists m|]. done.
  - exists (new_message key at_). rewrite Hempty. split_and!; try done; [by apply list_lookup_middle|].
    apply new_message_puts_together.
  - intros q m [?|[-> _]]%lookup_snoc_inv; done.
  - intros k [x Hx]. destruct (decide (k = key)) as [->|]; [congruence|]. rewrite lookup_insert_ne by done. by eexists.
Qed.

Lemma message_key_assistant s f : row_kind s = Assistant f -> message_key s <> Ok None.
Proof.
  unfold message_key. intros ->. destruct (message_id f), (request_id f), (row_uuid s); done.
Qed.

Lemma fragment_of_other l i key :
  is_assistant (row_kind (l !!! i)) = false -> fragment_of l key i = None.
Proof. unfold fragment_of. by destruct (row_kind (l !!! i)). Qed.

Lemma group_row_skip l ws pre g i :
  grouping_ok l ws pre g -> is_assistant (row_kind (l !!! i)) = false -> grouping_ok l ws (pre ++ [i]) g.
Proof.
  intros [Hi Hm Hall Hw] Hk.
  assert (E : forall key, fragments l key (pre ++ [i]) = fragments l key pre).
  { intros key. by rewrite fragments_snoc, fragment_of_other, app_nil_r. }
  split; try done; intros ?; rewrite E; auto.
Qed.

Lemma group_row_Ok str_debug l ws pre g i g' :
  grouping_ok l ws pre g -> group_row str_debug Strict l g i = Ok g' -> grouping_ok l ws (pre ++ [i]) g'.
Proof.
  intros Hg H. destruct (is_assistant (row_kind (l !!! i))) eqn:Ea.
  2: { unfold group_row in H. destruct (row_kind (l !!! i)) eqn:Ek; try done; injection H as <-;
         apply group_row_skip; by rewrite ?Ek. }
  unfold group_row in H. destruct (row_kind (l !!! i)) as [| | |f| | | |] eqn:Ek; try done.
  apply result_bind_Ok in H as ([key|] & Hkey & H); [|done].
  destruct (position_of key (ordinal (l !!! i)) g) as [p g1] eqn:Ep.
  destruct (position_of_ok _ _ _ _ _ _ _ _ Hg Ep) as (Hi & (m & Hpm & Hmk & Hput & Hfirst) & Hold & Hmono & Hw).
  rewrite Hpm in H. cbn [ok_or result_bind] in H.
  apply result_bind_Ok in H as ([m' ws'] & Hmerge & H). injection H as <-.
  apply (merge_fragment_Ok _ _ _ _ _ _ _ _ (fragments l key pre)) in Hmerge as (Hput' & -> & Hmk'); [|done|done].
  assert (E : forall key', fragments l key' (pre ++ [i]) =
    if bool_decide (key = key') then fragments l key pre ++ [(l !!! i, f)] else fragments l key' pre).
  { intros key'. rewrite fragments_snoc, (fragment_of_assistant l i f key key' Ek Hkey).
    case_bool_decide; [by subst|]. by rewrite app_nil_r. }
  assert (Hlt : (p < length (messages g1))%nat) by (by eapply lookup_lt_Some).
  assert (Hkm' : lm_key m' = key) by congruence.
  split; simpl; [| | |done].
  - intros k q. rewrite Hi. destruct (decide (q = p)) as [->|Hne].
    + rewrite list_lookup_insert_eq by done. split; intros (x & Hx & <-); [|injection Hx as <-].
      * rewrite Hpm in Hx. injection Hx as <-. exists m'. by rewrite Hkm'.
      * exists m. by rewrite Hkm'.
    + by rewrite list_lookup_insert_ne.
  - intros x [q Hq]%list_elem_of_lookup. destruct (decide (q = p)) as [->|Hne].
    + rewrite list_lookup_insert_eq in Hq by done. injection Hq as <-. rewrite E, Hkm', bool_decide_eq_true_2 by done.
      split; [|done]. by destruct (fragments l key pre).
    + rewrite list_lookup_insert_ne in Hq by done.
      assert (Hxk : lm_key x <> key).
      { intros Hxk. assert (positions g1 !! key = Some q) by (apply Hi; eauto).
        assert (positions g1 !! key = Some p) by (apply Hi; eauto). congruence. }
      rewrite E, bool_decide_eq_false_2 by congruence. apply (go_messages _ _ _ _ Hg).
      eapply list_elem_of_lookup_2, Hold; eauto.
  - intros k Hk. rewrite E in Hk. case_bool_decide as Ekk; [subst k; exists p; apply Hi; eauto|].
    apply Hmono, (go_all _ _ _ _ Hg), Hk.
Qed.

Lemma merge_fragment_safe str_debug m s f key msg ws : safe (merge_fragment str_debug m s f key msg ws).
Proof.
  destruct m. unfold merge_fragment, merge_optional, merge_optional_owned, merge_usage.
  apply safe_bind; [by destruct (af_model f), (lm_model msg); repeat case_bool_decide|intros model _].
  apply safe_bind; [destruct (StopReason_parse <$> af_stop_reason f), (lm_stop_reason msg);
                    by repeat case_bool_decide|intros stop _].
  apply safe_bind; [destruct (af_usage f) as [u|], (lm_usage msg) as [u'|]; try done; by destruct (usage_eqb u' u)|].
  intros [usage ws1] _. apply safe_bind; [|by intros []].
  apply safe_try_fold_each. intros [bl w] b _. by destruct b.
Qed.

Lemma group_row_safe str_debug l ws pre g i :
  grouping_ok l ws pre g -> safe (group_row str_debug Strict l g i).
Proof.
  intros Hg. unfold group_row. destruct (row_kind (l !!! i)) as [| | |f| | | |] eqn:Ek; try done.
  apply safe_bind.
  { unfold message_key. rewrite Ek. by destruct (message_id f), (request_id f), (row_uuid (l !!! i)). }
  intros [key|] Hkey; [|by apply (message_key_assistant _ f) in Hkey].
  destruct (position_of key (ordinal (l !!! i)) g) as [p g1] eqn:Ep.
  destruct (position_of_ok _ _ _ _ _ _ _ _ Hg Ep) as (_ & (m & Hpm & _) & _).
  rewrite Hpm. cbn [ok_or result_bind]. apply safe_bind; [apply merge_fragment_safe|by intros []].
Qed.

Lemma grouping_start l ws : grouping_ok l ws [] (mkGrouping [] ∅ ws).
Proof.
  split; simpl; try done.
  - intros key p. rewrite lookup_empty. split; [done|by intros (? & ? & _)].
  - by intros m ?%elem_of_nil.
Qed.

Lemma grouped str_debug l included ws g :
  try_fold (group_row str_debug Strict l) included (mkGrouping [] ∅ ws) = Ok g ->
  grouping_ok l ws included g.
Proof.
  apply (try_fold_inv (grouping_ok l ws)); [apply grouping_start|].
  intros pre i x y Hx _. by apply group_row_Ok.
Qed.

Lemma logical_messages_safe str_debug e included ws rc :
  mode e = Strict -> safe (logical_messages str_debug e included ws rc).
Proof.
  intros Hm. unfold logical_messages. rewrite Hm. apply safe_bind.
  - destruct (is_strict Strict && rc); [|done]. apply safe_bind; [|done].
    apply safe_try_fold_each. intros [current closed] i _. unfold contiguity_row.
    destruct (closes_nothing _); [done|]. apply safe_bind.
    { unfold message_key. destruct (row_kind (rows e !!! i)) as [| | |f| | | |]; try done.
      by destruct (message_id f), (request_id f), (row_uuid (rows e !!! i)). }
    intros next _. case_bool_decide; [done|]. destruct next; [|done]. by case_bool_decide.
  - intros _ _. apply safe_bind; [|done].
    apply (safe_try_fold (grouping_ok (rows e) ws)); [apply grouping_start|].
    intros pre i rest g _ Hg. split; [by eapply group_row_safe|]. intros y. by apply group_row_Ok.
Qed.

(** ** Contiguity *)

(** The identities of the rows that can close a message, in order; [None] for a row
    that is not an assistant fragment. *)
Definition identity (l : list StoredRow) (i : nat) : option (option LogicalMessageKey) :=
  if closes_nothing (row_kind (l !!! i)) then None
  else match message_key (l !!! i) with Ok k => Some k | Err _ => Some None end.

Definition identities (l : list StoredRow) (included : list nat) : list (option LogicalMessageKey) :=
  omap (identity l) included.

(** Between two fragments of a message there is nothing of another identity. *)
Definition contiguous (ks : list (option LogicalMessageKey)) : Prop :=
  forall a b c key, ks !! a = Some (Some key) -> ks !! c = Some (Some key) -> (a < b < c)%nat ->
    ks !! b = Some (Some key).

Definition contiguity_ok (ks : list (option LogicalMessageKey))
    (st : option LogicalMessageKey * gset LogicalMessageKey) : Prop :=
  contiguous ks /\ fst st = default None (last ks) /\
  forall key, Some key ∈ ks -> fst st = Some key \/ key ∈ snd st.

Lemma contiguous_snoc_fresh ks k :
  contiguous ks -> (forall key, k = Some key -> Some key ∉ ks) -> contiguous (ks ++ [k]).
Proof.
  intros Hc Hf a b c key Ha Hcc Hlt. apply lookup_snoc_inv in Hcc as [Hcc|[-> <-]].
  - pose proof (lookup_lt_Some _ _ _ Hcc). rewrite lookup_app_l in Ha |- * by lia. by eapply (Hc a b c).
  - rewrite lookup_app_l in Ha by lia. destruct (Hf key eq_refl). by eapply list_elem_of_lookup_2.
Qed.

Lemma contiguous_snoc_same ks k :
  contiguous ks -> last ks = Some k -> contiguous (ks ++ [k]).
Proof.
  intros Hc Hl a b c key Ha Hcc Hlt. apply lookup_snoc_inv in Hcc as [Hcc|[-> <-]].
  - pose proof (lookup_lt_Some _ _ _ Hcc). rewrite lookup_app_l in Ha |- * by lia. by eapply (Hc a b c).
  - rewrite lookup_app_l in Ha |- * by lia. rewrite last_lookup in Hl.
    destruct (decide (b = Nat.pred (length ks))) as [->|Hne]; [done|].
    apply (Hc a b (Nat.pred (length ks))); [done|done|lia].
Qed.

Lemma identities_snoc l pre i :
  identities l (pre ++ [i]) = identities l pre ++ option_list (identity l i).
Proof. unfold identities. rewrite omap_app. simpl. by destruct (identity l i). Qed.

Lemma contiguity_row_Ok l pre i st st' :
  contiguity_ok (identities l pre) st -> contiguity_row l st i = Ok st' ->
  contiguity_ok (identities l (pre ++ [i])) st'.
Proof.
  destruct st as [current closed]. intros (Hc & Hcur & Hkeys) H. unfold contiguity_row in H.
  rewrite identities_snoc. unfold identity.
  destruct (closes_nothing (row_kind (l !!! i))); simpl; [by injection H as <-; rewrite app_nil_r|].
  apply result_bind_Ok in H as (next & Hnext & H). rewrite Hnext. simpl in Hcur |- *.
  set (ks := identities l pre) in *. unfold contiguity_ok. rewrite last_snoc.
  case_bool_decide as En.
  { injection H as <-. subst next. simpl. split_and!; try done.
    - destruct (last ks) as [k|] eqn:El; simpl in Hcur; subst current; [by apply contiguous_snoc_same|].
      by apply contiguous_snoc_fresh.
    - intros key [?| [= ]%list_elem_of_singleton]%elem_of_app; [auto|by left]. }
  assert (Hall : forall key, Some key ∈ ks ->
    key ∈ match current with Some previous => {[previous]} ∪ closed | None => closed end).
  { intros key [Hk|Hk]%Hkeys; simpl in Hk; [rewrite Hk; by apply elem_of_union_l, elem_of_singleton|]. by destruct current; [apply elem_of_union_r|]. }
  destruct next as [key|].
  - case_bool_decide as Hin; [done|]. injection H as <-. simpl. split_and!; [|done|].
    + apply contiguous_snoc_fresh; [done|]. intros k [= <-] Hk%Hall. done.
    + intros k [?%Hall| [= ->]%list_elem_of_singleton]%elem_of_app; auto.
  - injection H as <-. simpl. split_and!; [by apply contiguous_snoc_fresh|done|].
    intros k [?%Hall|?%list_elem_of_singleton]%elem_of_app; [auto|done].
Qed.

Lemma contiguity_Ok l included :
  validate_logical_message_contiguity l included = Ok tt -> contiguous (identities l included).
Proof.
  unfold validate_logical_message_contiguity. intros (st & H & _)%result_bind_Ok.
  apply (try_fold_inv (fun pre => contiguity_ok (identities l pre))) in H as [? _]; [done| |].
  - split_and!; [by intros a b c key|done|]. by intros key ?%elem_of_nil.
  - intros pre i x y Hx _. by apply contiguity_row_Ok.
Qed.

Lemma grouped_keys str_debug l included g g' :
  try_fold (group_row str_debug Strict l) included g = Ok g' ->
  forall i, i ∈ included -> is_assistant (row_kind (l !!! i)) = true ->
  exists key, message_key (l !!! i) = Ok (Some key).
Proof.
  apply (try_fold_inv (fun pre _ => forall i, i ∈ pre -> is_assistant (row_kind (l !!! i)) = true ->
    exists key, message_key (l !!! i) = Ok (Some key))); [by intros i ?%elem_of_nil|].
  intros pre i x y Hpre _ H j [?| ->%list_elem_of_singleton]%elem_of_app Ha; [auto|].
  unfold group_row in H. destruct (row_kind (l !!! i)) as [| | |f| | | |] eqn:Ek; try done.
  apply result_bind_Ok in H as ([key|] & Hkey & H); [eauto|done].
Qed.

Lemma fragments_nonempty l included i key :
  i ∈ included -> is_assistant (row_kind (l !!! i)) = true -> message_key (l !!! i) = Ok (Some key) ->
  fragments l key included <> [].
Proof.
  intros Hi Ha Hk Hnil. destruct (row_kind (l !!! i)) as [| | |f| | | |] eqn:Ek; try done.
  apply (elem_of_nil (l !!! i, f)). rewrite <-Hnil. apply list_elem_of_omap. exists i. split; [done|].
  rewrite (fragment_of_assistant l i f key key Ek Hk). by rewrite bool_decide_eq_true_2.
Qed.

Lemma grouped_messages str_debug e included ws contiguity ms ws' :
  logical_messages str_debug e included ws contiguity = Ok (ms, ws') ->
  (forall m, m ∈ ms -> puts_together m (fragments (rows e) (lm_key m) included)) /\ ws' = ws.
Proof.
  unfold logical_messages. destruct (mode e). intros H.
  apply result_bind_Ok in H as ([] & _ & H). apply result_bind_Ok in H as (g & Hg & H).
  injection H as <- <-. apply grouped in Hg as [_ Hm _ Hw]. split; [|done]. intros m Hin. by apply Hm.
Qed.

(** Logical messages are the assistant fragments of the rows grouped by identity:
    one message per identity, holding that identity's uuids and blocks in order with
    the model, stop reason and usage its fragments agree on and no unknown block;
    every fragment is in one. On the main chain nothing of another identity stands
    between two fragments of a message but tool results and attachments. *)
Theorem messages_are_grouped_fragments str_debug e included ws contiguity ms ws' :
  logical_messages str_debug e included ws contiguity = Ok (ms, ws') ->
  NoDup (lm_key <$> ms) /\
  (forall m, m ∈ ms -> fragments (rows e) (lm_key m) included <> [] /\
     puts_together m (fragments (rows e) (lm_key m) included)) /\
  (forall i, i ∈ included -> is_assistant (row_kind (rows e !!! i)) = true ->
     exists m, m ∈ ms /\ message_key (rows e !!! i) = Ok (Some (lm_key m))) /\
  (contiguity = true -> contiguous (identities (rows e) included)) /\ ws' = ws.
Proof.
  unfold logical_messages. destruct (mode e). intros H.
  apply result_bind_Ok in H as ([] & Hcont & H). apply result_bind_Ok in H as (g & Hg & H).
  injection H as <- <-. pose proof (grouped_keys _ _ _ _ _ Hg) as Hkeys.
  apply grouped in Hg as [Hi Hm Hall Hw].
  split_and!; try done.
  - apply NoDup_alt. intros p q k Hp Hq. rewrite list_lookup_fmap in Hp, Hq.
    apply fmap_Some in Hp as (mp & Hp & ->), Hq as (mq & Hq & Hk).
    assert (positions g !! lm_key mp = Some p) by (apply Hi; eauto).
    assert (positions g !! lm_key mp = Some q) by (apply Hi; exists mq; auto). congruence.
  - intros i Hin Ha. destruct (Hkeys i Hin Ha) as (key & Hkey).
    destruct (Hall key) as [p Hp].
    { by eapply fragments_nonempty. }
    apply Hi in Hp as (m & Hm' & <-). exists m. split; [by eapply list_elem_of_lookup_2|done].
  - intros ->. by apply contiguity_Ok.
Qed.

(** ** Usage *)

Definition add_usage (a b : TokenUsage) : TokenUsage :=
  mkTokenUsage (input_tokens a + input_tokens b) (output_tokens a + output_tokens b)
    (cache_creation_input_tokens a + cache_creation_input_tokens b)
    (cache_read_input_tokens a + cache_read_input_tokens b).

Definition add_totals (a b : UsageTotals) : UsageTotals :=
  mkUsageTotals (add_usage (ut_tokens a) (ut_tokens b))
    (model_calls_with_usage a + model_calls_with_usage b).

(** What one message contributes. *)
Definition contribution (m : LogicalAssistantMessage) : UsageTotals :=
  match lm_usage m with
  | Some u => mkUsageTotals (us_tokens u) 1
  | None => UsageTotals_default
  end.

Definition total (ms : list LogicalAssistantMessage) : UsageTotals :=
  foldl (fun t m => add_totals t (contribution m)) UsageTotals_default ms.

Record totals_safe (t : UsageTotals) : Prop := {
  ts_input : input_tokens (ut_tokens t) <= MAX_SAFE_JSON_INTEGER;
  ts_output : output_tokens (ut_tokens t) <= MAX_SAFE_JSON_INTEGER;
  ts_creation : cache_creation_input_tokens (ut_tokens t) <= MAX_SAFE_JSON_INTEGER;
  ts_read : cache_read_input_tokens (ut_tokens t) <= MAX_SAFE_JSON_INTEGER;
  ts_calls : model_calls_with_usage t <= MAX_SAFE_JSON_INTEGER;
}.

Lemma checked_add_Ok a b field n :
  checked_add a b field = Ok n <-> n = a + b /\ a + b <= MAX_SAFE_JSON_INTEGER.
Proof.
  unfold checked_add, Prelude.checked_add.
  assert (HM : MAX_SAFE_JSON_INTEGER <= U64_MAX) by done.
  destruct (N.leb_spec (a + b) U64_MAX); [destruct (N.leb_spec (a + b) MAX_SAFE_JSON_INTEGER)|];
    (split; [try done; by intros [= <-]|intros [-> ?]; try done; lia]).
Qed.

Lemma checked_add_fits a b field :
  a + b <= MAX_SAFE_JSON_INTEGER -> checked_add a b field = Ok (a + b).
Proof. intros H. by apply checked_add_Ok. Qed.

Lemma checked_add_safe a b field : safe (checked_add a b field).
Proof.
  unfold checked_add. destruct (Prelude.checked_add U64_MAX a b) as [n|]; [|done].
  by destruct (n <=? MAX_SAFE_JSON_INTEGER).
Qed.

Lemma add_tokens_Ok a b t :
  add_tokens a b = Ok t <->
  t = add_usage a b /\ totals_safe (mkUsageTotals (add_usage a b) 0).
Proof.
  unfold add_tokens, add_usage. split.
  - intros H. res_inv. subst. repeat match goal with H : checked_add _ _ _ = Ok _ |- _ =>
      apply checked_add_Ok in H as [-> ?] end. done.
  - intros [-> []]; simpl in *. rewrite !checked_add_fits by done. done.
Qed.

Lemma add_totals_Ok a b t (field : string) :
  (let? calls := checked_add (model_calls_with_usage a) (model_calls_with_usage b) field in
   let? tokens := add_tokens (ut_tokens a) (ut_tokens b) in Ok (mkUsageTotals tokens calls)) = Ok t <->
  t = add_totals a b /\ totals_safe (add_totals a b).
Proof.
  unfold add_totals. split.
  - intros H. res_inv. subst. match goal with H : checked_add _ _ _ = Ok _ |- _ =>
      apply checked_add_Ok in H as [-> ?] end.
    match goal with H : add_tokens _ _ = Ok _ |- _ => apply add_tokens_Ok in H as [-> []] end. done.
  - intros [-> []]; simpl in *.
    rewrite checked_add_fits by done. simpl.
    assert (E : add_tokens (ut_tokens a) (ut_tokens b) = Ok (add_usage (ut_tokens a) (ut_tokens b)))
      by (by apply add_tokens_Ok). by rewrite E.
Qed.

Lemma total_snoc ms m : total (ms ++ [m]) = add_totals (total ms) (contribution m).
Proof. unfold total. by rewrite foldl_app. Qed.

Lemma totals_safe_mono a b : totals_safe (add_totals a b) -> totals_safe a.
Proof. intros []; simpl in *. split; lia. Qed.

Lemma add_totals_default a : add_totals a UsageTotals_default = a.
Proof. destruct a as [[] ?]. unfold add_totals, add_usage. simpl. by rewrite !N.add_0_r. Qed.

Lemma aggregate_snoc ms m :
  aggregate_usage (ms ++ [m]) =
    let? t := aggregate_usage ms in
    match lm_usage m with
    | None => Ok t
    | Some u =>
        let? calls := checked_add (model_calls_with_usage t) 1 "model_calls_with_usage" in
        let? tokens := add_tokens (ut_tokens t) (us_tokens u) in Ok (mkUsageTotals tokens calls)
    end.
Proof.
  unfold aggregate_usage. rewrite try_fold_app. destruct (try_fold _ ms _) as [t|]; simpl; [|done].
  destruct (lm_usage m); [|done]. destruct (checked_add _ _ _); simpl; [|done]. by destruct (add_tokens _ _).
Qed.

(** Usage is exact: the aggregate of a turn's messages exists exactly when the
    true sums of the calls and of every token class stay within the protocol's safe
    integers, and then it is those sums; each message counts once. *)
Theorem usage_is_exact ms t :
  aggregate_usage ms = Ok t <-> t = total ms /\ totals_safe (total ms).
Proof.
  revert t. induction ms as [|m ms IH] using rev_ind; intros t.
  { unfold aggregate_usage, total; simpl. split; [intros [= <-]|by intros [-> _]]. by split. }
  rewrite aggregate_snoc, total_snoc. unfold contribution.
  destruct (aggregate_usage ms) as [t0|f]; simpl.
  2: { split; [done|]. intros [_ Hs%totals_safe_mono]. destruct (IH (total ms)) as [_ H]. by specialize (H (conj eq_refl Hs)). }
  destruct (IH t0) as [[-> Hs] _]; [done|].
  destruct (lm_usage m) as [u|].
  - apply (add_totals_Ok (total ms) (mkUsageTotals (us_tokens u) 1)).
  - rewrite add_totals_default. split; [by intros [= <-]|by intros [-> _]].
Qed.

Lemma add_tokens_safe a b : safe (add_tokens a b).
Proof. unfold add_tokens. repeat (apply safe_bind; [apply checked_add_safe|intros ? _]). done. Qed.

Lemma aggregate_usage_safe ms : safe (aggregate_usage ms).
Proof.
  apply safe_try_fold_each. intros t m _. destruct (lm_usage m); [|done].
  apply safe_bind; [apply checked_add_safe|intros calls _]. apply safe_bind; [apply add_tokens_safe|done].
Qed.

(** ** Tools *)

Inductive tool_event :=
| Call (id name : string) (input : json)
| Result (r : ToolResultBlock).

Definition row_events (l : list StoredRow) (i : nat) : list tool_event :=
  match row_kind (l !!! i) with
  | Assistant f =>
      omap (fun b => match b with ToolUse id name input => Some (Call id name input) | _ => None end)
        (af_blocks f)
  | UserToolResults results => Result <$> results
  | _ => []
  end.

Definition tool_step (m : ParseMode) (p : Pairing) (ev : tool_event) : result Pairing Fault :=
  match ev with
  | Call id name input => tool_call p (ToolUse id name input)
  | Result r => tool_result m p r
  end.

Lemma tool_row_events m l p i : tool_row m l p i = try_fold (tool_step m) (row_events l i) p.
Proof.
  unfold tool_row, row_events. destruct (row_kind (l !!! i)) as [|rs| |f| | | |]; try done.
  - revert p. induction rs as [|r rs IH]; intros p; simpl; [done|]. by destruct (tool_result m p r); simpl.
  - revert p. induction (af_blocks f) as [|b bs IH]; intros p; simpl; [done|].
    destruct b; simpl; try apply IH. by apply result_bind_ext.
Qed.

Lemma tool_rows_events m l included p :
  try_fold (tool_row m l) included p = try_fold (tool_step m) (included ≫= row_events l) p.
Proof.
  revert p. induction included as [|i included IH]; intros p; [done|]. cbn [try_fold mbind list_bind].
  rewrite try_fold_app, tool_row_events. destruct (try_fold (tool_step m) (row_events l i) p); simpl; [apply IH|done].
Qed.

(** The records after the events: one per call identity, in order of appearance,
    each with the result that answered it. *)
Record paired (evs : list tool_event) (ts : list ToolRecord) : Prop := {
  pd_unique : NoDup (tr_tool_use_id <$> ts);
  pd_order : forall k t, ts !! k = Some t -> tr_order t = N.of_nat k;
  pd_calls : forall id name input, Call id name input ∈ evs ->
    exists t, t ∈ ts /\ tr_tool_use_id t = id /\ tr_name t = name /\ json_eqb (tr_input t) input = true;
  pd_called : forall t, t ∈ ts -> Call (tr_tool_use_id t) (tr_name t) (tr_input t) ∈ evs;
  pd_results : forall r, Result r ∈ evs ->
    exists t r', t ∈ ts /\ tr_tool_use_id t = tool_use_id r /\ tr_result t = Some r' /\
      tool_result_eqb r' r = true;
  pd_answered : forall t r, t ∈ ts -> tr_result t = Some r ->
    Result r ∈ evs /\ tool_use_id r = tr_tool_use_id t;
}.

Record pairing_ok (ws : list EngineWarning) (evs : list tool_event) (p : Pairing) : Prop := {
  po_index : forall id k, pr_positions p !! id = Some k <->
    exists t, pr_tools p !! k = Some t /\ tr_tool_use_id t = id;
  po_paired : paired evs (pr_tools p);
  po_order : pr_order p = N.of_nat (length (pr_tools p));
  po_warnings : pr_warnings p = ws;
}.

Lemma indexed_NoDup (ts : list ToolRecord) (m : gmap string nat) :
  (forall id k, m !! id = Some k <-> exists t, ts !! k = Some t /\ tr_tool_use_id t = id) ->
  NoDup (tr_tool_use_id <$> ts).
Proof.
  intros Hi. apply NoDup_alt. intros p q k Hp Hq. rewrite list_lookup_fmap in Hp, Hq.
  apply fmap_Some in Hp as (tp & Hp & ->), Hq as (tq & Hq & Hk).
  assert (m !! tr_tool_use_id tp = Some p) by (apply Hi; eauto).
  assert (m !! tr_tool_use_id tp = Some q) by (apply Hi; exists tq; auto). congruence.
Qed.

(** An event that changes nothing and is already accounted for. *)
Lemma paired_again evs ts ev :
  paired evs ts ->
  match ev with
  | Call id name input =>
      exists t, t ∈ ts /\ tr_tool_use_id t = id /\ tr_name t = name /\ json_eqb (tr_input t) input = true
  | Result r =>
      exists t r', t ∈ ts /\ tr_tool_use_id t = tool_use_id r /\ tr_result t = Some r' /\
        tool_result_eqb r' r = true
  end -> paired (evs ++ [ev]) ts.
Proof.
  intros [] Hev. split; try done.
  - intros id name input [?| <-%list_elem_of_singleton]%elem_of_app; auto.
  - intros t Ht. apply elem_of_app. left. auto.
  - intros r [?| <-%list_elem_of_singleton]%elem_of_app; auto.
  - intros t r Ht Hr. rewrite elem_of_app. destruct (pd_answered0 t r Ht Hr). auto.
Qed.

Lemma paired_call evs ts id name input :
  paired evs ts -> NoDup (tr_tool_use_id <$> ts ++ [mkToolRecord id name input None (N.of_nat (length ts))]) ->
  paired (evs ++ [Call id name input]) (ts ++ [mkToolRecord id name input None (N.of_nat (length ts))]).
Proof.
  intros [] Hnd. split; try done.
  - intros k t [?|[-> ->]]%lookup_snoc_inv; auto.
  - intros i n j [(t & ? & ?)%pd_calls0| [= -> -> ->]%list_elem_of_singleton]%elem_of_app.
    + exists t. split; [apply elem_of_app; by left|done].
    + eexists. split; [apply elem_of_app; right; by apply list_elem_of_singleton|]. by rewrite json_eqb_refl.
  - intros t [?| ->%list_elem_of_singleton]%elem_of_app; apply elem_of_app; [left; auto|right].
    by apply list_elem_of_singleton.
  - intros r [(t & r' & ? & ?)%pd_results0|[=]%list_elem_of_singleton]%elem_of_app.
    exists t, r'. split; [apply elem_of_app; by left|done].
  - intros t r [Ht| ->%list_elem_of_singleton]%elem_of_app Hr; [|done].
    rewrite elem_of_app. destruct (pd_answered0 t r Ht Hr). auto.
Qed.

Lemma paired_result evs ts k t r :
  paired evs ts -> ts !! k = Some t -> tr_tool_use_id t = tool_use_id r -> tr_result t = None ->
  paired (evs ++ [Result r]) (<[k := with_result t r]> ts).
Proof.
  intros [] Hk Hid Hno. assert (Hlt := lookup_lt_Some _ _ _ Hk).
  assert (Hin : forall x, x ∈ <[k := with_result t r]> ts <->
    x = with_result t r \/ exists q, q <> k /\ ts !! q = Some x).
  { intros x. rewrite list_elem_of_lookup. split.
    - intros [q Hq]. destruct (decide (q = k)) as [->|Hne].
      + rewrite list_lookup_insert_eq in Hq by done. left. by injection Hq.
      + rewrite list_lookup_insert_ne in Hq by done. right. by exists q.
    - intros [->|(q & Hne & Hq)]; [exists k; by apply list_lookup_insert_eq|exists q].
      by rewrite list_lookup_insert_ne. }
  assert (Hmoved : forall x, x ∈ ts -> x = t \/ x ∈ <[k := with_result t r]> ts).
  { intros x [q Hq]%list_elem_of_lookup. destruct (decide (q = k)) as [->|Hne]; [left; congruence|].
    right. apply Hin. right. by exists q. }
  assert (Hnew : with_result t r ∈ <[k := with_result t r]> ts) by (apply Hin; by left).
  split.
  - rewrite list_fmap_insert. simpl. rewrite list_insert_id; [done|]. by rewrite list_lookup_fmap, Hk.
  - intros q x Hq. destruct (decide (q = k)) as [->|Hne].
    + rewrite list_lookup_insert_eq in Hq by done. injection Hq as <-. simpl. auto.
    + rewrite list_lookup_insert_ne in Hq by done. auto.
  - intros i n j [(x & Hx & Hx')%pd_calls0|[=]%list_elem_of_singleton]%elem_of_app.
    destruct (Hmoved x Hx) as [->|?]; [by exists (with_result t r)|by exists x].
  - intros x [->|(q & _ & Hq)]%Hin; apply elem_of_app; left.
    + apply (pd_called0 t). by eapply list_elem_of_lookup_2.
    + apply pd_called0. by eapply list_elem_of_lookup_2.
  - intros r0 [(x & r' & Hx & Hid' & Hr' & He)%pd_results0| [= ->]%list_elem_of_singleton]%elem_of_app.
    + destruct (Hmoved x Hx) as [->|?]; [congruence|]. by exists x, r'.
    + exists (with_result t r), r. by rewrite tool_result_eqb_refl.
  - intros x r0 [->|(q & _ & Hq)]%Hin Hr; rewrite elem_of_app.
    + injection Hr as <-. split; [right; by apply list_elem_of_singleton|done].
    + destruct (pd_answered0 x r0) as [? ?]; [by eapply list_elem_of_lookup_2|done|]. auto.
Qed.

Lemma tool_step_Ok ws evs p ev p' :
  pairing_ok ws evs p -> tool_step Strict p ev = Ok p' -> pairing_ok ws (evs ++ [ev]) p'.
Proof.
  intros [Hi Hp Ho Hw] H. destruct ev as [id name input|r]; simpl in H.
  - destruct (pr_positions p !! id) as [k|] eqn:Ek.
    + apply Hi in Ek as (t & Hk & Hid). rewrite Hk in H. simpl in H.
      destruct (String.eqb_spec (tr_name t) name); simpl in H; [|done].
      destruct (json_eqb (tr_input t) input) eqn:Ej; [|done]. injection H as <-.
      split; try done. apply paired_again; [done|]. exists t. split; [by eapply list_elem_of_lookup_2|done].
    + injection H as <-. rewrite Ho.
      assert (Hidx : forall id' k, <[id := length (pr_tools p)]> (pr_positions p) !! id' = Some k <->
        exists t, (pr_tools p ++ [mkToolRecord id name input None (N.of_nat (length (pr_tools p)))]) !! k = Some t
          /\ tr_tool_use_id t = id').
      { intros id' k. destruct (decide (id' = id)) as [->|Hne].
        - rewrite lookup_insert_eq. split.
          + intros [= <-]. eexists. split; [by apply list_lookup_middle|done].
          + intros (t & [Hk|[-> _]]%lookup_snoc_inv & Hid); [|done].
            assert (pr_positions p !! id = Some k) by (apply Hi; eauto). congruence.
        - rewrite lookup_insert_ne, Hi by done. split.
          + intros (t & Hk & ?). exists t. split; [by apply lookup_app_l_Some|done].
          + intros (t & [Hk|[-> ->]]%lookup_snoc_inv & Hid); [by exists t|done]. }
      split; simpl; try done; [|rewrite length_app; simpl; lia].
      apply paired_call; [done|]. by eapply indexed_NoDup.
  - unfold tool_result in H. destruct (pr_positions p !! tool_use_id r) as [k|] eqn:Ek; [|done].
    apply Hi in Ek as (t & Hk & Hid). rewrite Hk in H. simpl in H.
    destruct (tr_result t) as [r'|] eqn:Er.
    + destruct (tool_result_eqb r' r) eqn:Ej; [|done]. injection H as <-. split; try done.
      apply paired_again; [done|]. exists t, r'. split; [by eapply list_elem_of_lookup_2|done].
    + injection H as <-. split; simpl; try done; [|by apply paired_result|by rewrite length_insert].
      intros id' q. rewrite Hi. assert (Hlt := lookup_lt_Some _ _ _ Hk).
      destruct (decide (q = k)) as [->|Hne]; [|by rewrite list_lookup_insert_ne].
      rewrite list_lookup_insert_eq, Hk by done. split; intros (x & [= <-] & <-); eauto.
Qed.

Lemma pairing_start ws : pairing_ok ws [] (mkPairing [] ∅ 0 ws).
Proof.
  split; simpl; try done.
  - intros id k. rewrite lookup_empty. split; [done|by intros (? & ? & _)].
  - split; simpl; try done; [constructor|..]; intros *; by rewrite elem_of_nil.
Qed.

Lemma tool_step_safe ws evs p ev : pairing_ok ws evs p -> safe (tool_step Strict p ev).
Proof.
  intros [Hi _ _ _]. destruct ev as [id name input|r]; simpl.
  - destruct (pr_positions p !! id) as [k|] eqn:Ek; [|done].
    apply Hi in Ek as (t & Hk & _). rewrite Hk. simpl. by destruct (_ && _).
  - unfold tool_result. destruct (pr_positions p !! tool_use_id r) as [k|] eqn:Ek; [|done].
    apply Hi in Ek as (t & Hk & _). rewrite Hk. simpl. destruct (tr_result t) as [r'|]; [|done].
    by destruct (tool_result_eqb r' r).
Qed.

Lemma tools_safe e included ws : safe (tools e included ws).
Proof.
  unfold tools. destruct (mode e). apply safe_bind; [|done]. rewrite tool_rows_events.
  apply (safe_try_fold (pairing_ok ws)); [apply pairing_start|].
  intros pre ev rest p _ Hp. split; [by eapply tool_step_safe|]. intros y. by apply tool_step_Ok.
Qed.

(** Tool calls and results are paired: on a strict chain the records are one per
    call identity in order of appearance; every call on the chain has its record with
    the same name and input, every record comes from a call; every result on the chain
    answers a record of its identity, no record has a result the chain does not hold. *)
Theorem tools_are_paired e included ws ts ws' :
  tools e included ws = Ok (ts, ws') -> paired (included ≫= row_events (rows e)) ts /\ ws' = ws.
Proof.
  unfold tools. destruct (mode e). intros (p & H & [= <- <-])%result_bind_Ok.
  rewrite tool_rows_events in H.
  apply (try_fold_inv (pairing_ok ws)) in H as [_ Hp _ Hw]; [done|apply pairing_start|].
  intros pre ev x y Hx _. by apply tool_step_Ok.
Qed.
