(* ===== verification/EngineVerdict.v ===== *)
(** * The verdict, and the analysis as a whole

    When a turn is said to be over, what its answer is, and that the analysis returns a
    value or an error on every transcript: it never panics and no loop runs out of
    fuel. [append_order_is_not_enforced] exhibits a transcript the strict checks let
    through although its rows are not in append order along the chain. *)

From S2P Require Import Prelude Text Protocol Composer Transcript Engine EngineIngest EnginePath EngineTurn.

Lemma max_by_key_snoc {A} (key : A -> N) l x :
  max_by_key key (l ++ [x]) =
    match max_by_key key l with
    | None => Some x
    | Some y => if key y <=? key x then Some x else Some y
    end.
Proof. unfold max_by_key. by rewrite foldl_app. Qed.

Lemma max_by_key_Some {A} (key : A -> N) l x :
  max_by_key key l = Some x -> x ∈ l /\ forall y, y ∈ l -> key y <= key x.
Proof.
  revert x. induction l as [|a l IH] using rev_ind; intros x; [done|]. rewrite max_by_key_snoc.
  destruct (max_by_key key l) as [b|] eqn:E.
  - destruct (IH b eq_refl) as [Hb Hmax]. destruct (N.leb_spec (key b) (key a)); intros [= <-];
      rewrite elem_of_app, ?list_elem_of_singleton; (split; [auto|]);
      intros y [Hy%Hmax| ->%list_elem_of_singleton]%elem_of_app; lia.
  - intros [= <-]. assert (l = []) as ->.
    { destruct l as [|z l] using rev_ind; [done|]. rewrite max_by_key_snoc in E.
      destruct (max_by_key key l) as [w|]; [destruct (key w <=? key z)|]; done. }
    split; [by apply list_elem_of_singleton|]. intros y ->%list_elem_of_singleton. lia.
Qed.

(** The outcome a message's own fields give. *)
Definition outcome_of (m : LogicalAssistantMessage) (o : TerminalOutcome) : Prop :=
  match o with
  | ApiError => lm_is_api_error m = true
  | Completed => lm_is_api_error m = false /\
      (lm_stop_reason m = Some EndTurn \/ lm_stop_reason m = Some StopSequence) /\
      text_blocks (lm_blocks m) <> []
  | MaxTokensReached => lm_is_api_error m = false /\ lm_stop_reason m = Some MaxTokens /\
      text_blocks (lm_blocks m) <> []
  | Refused => lm_is_api_error m = false /\ lm_stop_reason m = Some Refusal
  end.

Definition final_turn (m : LogicalAssistantMessage) (o : TerminalOutcome) : FinalTurn :=
  mkFinalTurn o (lm_key m) (lm_stop_reason m) (concat_strings (text_blocks (lm_blocks m)))
    (text_blocks (lm_blocks m)) (lm_model m).

(** When the status is terminal, exactly. *)
Lemma turn_status_terminal str_debug e ms leaf f :
  turn_status str_debug e ms leaf = Ok (Terminal f) <->
  exists m o, max_by_key lm_last_ordinal ms = Some m /\
    leaf_allows_terminal (row_kind (rows e !!! leaf)) = true /\ outcome_of m o /\ f = final_turn m o.
Proof.
  unfold turn_status, terminal_outcome, outcome_of. destruct (mode e).
  destruct (max_by_key lm_last_ordinal ms) as [m|]; [|split; [done|by intros (? & ? & ? & _)]].
  destruct (leaf_allows_terminal _); simpl; [|split; [done|by intros (? & ? & _ & ? & _)]].
  split.
  - destruct (lm_is_api_error m) eqn:Ee; simpl; rewrite ?andb_false_r.
    { intros [= <-]. by exists m, ApiError. }
    destruct (lm_stop_reason m) as [[]|] eqn:Es; simpl; try done; rewrite ?andb_true_r, ?andb_false_r;
      try case_bool_decide; try done; intros [= <-]; unfold final_turn; rewrite <-?Es.
    + exists m, Completed. naive_solver.
    + exists m, MaxTokensReached. naive_solver.
    + exists m, Completed. naive_solver.
    + exists m, Refused. naive_solver.
  - intros (m' & o & [= <-] & _ & Ho & ->). unfold final_turn.
    destruct o; [destruct Ho as (-> & [-> | ->] & Ht)|destruct Ho as (-> & -> & Ht)|destruct Ho as (-> & ->)|rewrite Ho];
      simpl; rewrite ?bool_decide_eq_false_2 by done; simpl; rewrite ?andb_false_r; done.
Qed.

Lemma turn_status_safe str_debug e ms leaf : safe (turn_status str_debug e ms leaf).
Proof.
  unfold turn_status. destruct (max_by_key _ _) as [m|]; [|done].
  destruct (leaf_allows_terminal _); [|done]. simpl. apply safe_bind.
  - unfold terminal_outcome. destruct (mode e), (lm_is_api_error m); [done|].
    by destruct (lm_stop_reason m) as [[]|].
  - intros [o|] _; [|done]. by destruct (_ && _ && _).
Qed.

Lemma validate_active_unknowns_safe str_debug e path : safe (validate_active_unknowns str_debug e path).
Proof.
  apply safe_try_fold_each. intros x i _. cbv zeta. destruct (row_kind (rows e !!! i)); try done. by destruct (is_strict _).
Qed.

Lemma combine_usage_safe a b : safe (combine_usage a b).
Proof.
  unfold combine_usage. apply safe_bind; [apply checked_add_safe|intros calls _].
  apply safe_bind; [apply add_tokens_safe|done].
Qed.

(** No call of the analysis panics or runs out of fuel. *)
Lemma analyze_safe nfc str_debug l :
  N.of_nat (length l) <= U64_MAX -> safe (analyze str_debug (calls nfc l)).
Proof.
  intros Hl. destruct (engine_calls_ok nfc l Hl) as [He _]. unfold analyze.
  destruct (active_turn (calls nfc l)) as [t|] eqn:Et; simpl; [|done].
  destruct (acknowledgement t) as [ack|] eqn:Ea; [|done].
  apply safe_bind.
  { pose proof (strict_active_indices_spec nfc str_debug _ t ack He Et Ea) as H.
    unfold active_indices. destruct (mode (calls nfc l)).
    by destruct (strict_active_indices _ _ _) as [|[]]. }
  intros ai _. apply safe_bind; [apply validate_active_unknowns_safe|intros _ _].
  apply safe_bind; [apply logical_messages_safe; by destruct (mode (calls nfc l))|intros [ms ws] _].
  apply safe_bind; [apply aggregate_usage_safe|intros usage _].
  apply safe_bind; [apply sidechain_indices_safe|intros side _].
  apply safe_bind; [apply logical_messages_safe; by destruct (mode (calls nfc l))|intros [sms ws'] _].
  apply safe_bind; [apply aggregate_usage_safe|intros susage _].
  apply safe_bind; [apply combine_usage_safe|intros combined _].
  apply safe_bind; [apply tools_safe|intros [ts ws''] _].
  apply safe_bind; [apply turn_status_safe|done].
Qed.

(** Only an acknowledged turn has an end. *)
Lemma terminal_is_acknowledged str_debug e a f :
  analyze str_debug e = Ok a -> ta_status a = Terminal f -> is_Some (ta_acknowledgement a).
Proof.
  unfold analyze. intros H Hf. destruct (active_turn e) as [t|]; simpl in H; [|done].
  destruct (acknowledgement t) as [ack|]; [|by injection H as <-].
  repeat (apply result_bind_Ok in H as (? & _ & H); try case_match). injection H as <-. by eexists.
Qed.

(** The analysis always returns: on every engine that calls can build, with any
    rows, it answers with an analysis or with a [TranscriptError]. No [expect] or
    [unreachable!] is reached, no index is out of range where the code would panic,
    and no loop runs out of the fuel the model gives it, so the loops terminate. *)
Theorem analysis_never_panics nfc str_debug l :
  N.of_nat (length l) <= U64_MAX -> safe (analyze str_debug (calls nfc l)).
Proof. apply analyze_safe. Qed.

(** C8. A turn is said to be over only when the transcript proves it: its chain is a
    full active path whose leaf is an assistant row or an inert marker (never a retry
    record, a tool result or an attachment), the answering message is one of the
    chain's, the latest appended, its outcome is the one its own stop reason gives, and
    the answer is exactly the text of that message's fragments on the chain, in order. *)
Theorem verdict_is_earned nfc str_debug l a f :
  N.of_nat (length l) <= U64_MAX ->
  analyze str_debug (calls nfc l) = Ok a -> ta_status a = Terminal f ->
  exists ack path leaf m o,
    ta_acknowledgement a = Some ack /\ active_path (calls nfc l) ack path leaf /\
    ta_active_chain a = omap (fun i => row_uuid (rows (calls nfc l) !!! i)) path /\
    (is_assistant (row_kind (rows (calls nfc l) !!! leaf)) = true \/
     inert (rows (calls nfc l) !!! leaf) = true) /\
    m ∈ ta_messages a /\ (forall m', m' ∈ ta_messages a -> lm_last_ordinal m' <= lm_last_ordinal m) /\
    puts_together m (fragments (rows (calls nfc l)) (lm_key m) path) /\
    outcome_of m o /\ f = final_turn m o.
Proof.
  intros Hl H Hf. destruct (engine_calls_ok nfc l Hl) as [He _]. unfold analyze in H.
  destruct (active_turn (calls nfc l)) as [t|] eqn:Et; simpl in H; [|done].
  destruct (acknowledgement t) as [ack|] eqn:Ea; [|by injection H as <-].
  apply result_bind_Ok in H as (ai & Hai & H). apply result_bind_Ok in H as (? & _ & H).
  apply result_bind_Ok in H as ([ms ws] & Hms & H). apply result_bind_Ok in H as (usage & _ & H).
  apply result_bind_Ok in H as (side & _ & H). apply result_bind_Ok in H as ([sms ws'] & _ & H).
  apply result_bind_Ok in H as (susage & _ & H). apply result_bind_Ok in H as (combined & _ & H).
  apply result_bind_Ok in H as ([ts ws''] & _ & H). apply result_bind_Ok in H as (status & Hst & H).
  injection H as <-. simpl in Hf. subst status.
  pose proof (strict_active_indices_spec nfc str_debug _ t ack He Et Ea) as Hpath.
  unfold active_indices in Hai. destruct (mode (calls nfc l)). rewrite Hai in Hpath.
  destruct Hpath as [Hinc Hpath]. rewrite Hinc in Hms.
  apply grouped_messages in Hms as [Hput _].
  apply turn_status_terminal in Hst as (m & o & Hmax & Hleaf & Ho & ->).
  apply max_by_key_Some in Hmax as [Hin Hmax].
  exists ack, (ai_path ai), (ai_leaf_index ai), m, o. simpl. split_and!; try done; [|by apply Hput].
  pose proof (ap_kinds _ _ _ _ Hpath (ai_leaf_index ai)) as Hk.
  specialize (Hk (last_Some_elem_of _ _ (ap_leaf _ _ _ _ Hpath))). unfold inert.
  destruct (row_kind (rows (calls nfc l) !!! ai_leaf_index ai)) as [| | |fr| |s| |]; simpl in *; try done; [by left|right].
  unfold is_admitted_on_active_chain in Hk. destruct (is_proven_inert_marker s); [done|].
  simpl in Hk. by rewrite Hk in Hleaf.
Qed.

(** ** Witnesses *)

Lemma analysis_never_panics_witness :
  safe (analyze id (calls id snapshot_turn)) /\
  exists a, analyze id (calls id snapshot_turn) = Ok a /\
    ta_active_chain a = ["u1"; "r"; "s"; "a"]%string.
Proof.
  split; [apply (analysis_never_panics id id snapshot_turn); done|].
  eexists. split; vm_compute; reflexivity.
Defined.

Lemma verdict_is_earned_witness :
  exists a f m o, analyze id (calls id snapshot_turn) = Ok a /\ ta_status a = Terminal f /\
    m ∈ ta_messages a /\ f = final_turn m o /\ ft_final_text f = "hi"%string /\ ft_outcome f = Completed.
Proof.
  destruct (analyze id (calls id snapshot_turn)) as [a|] eqn:E; [|vm_compute in E; discriminate E].
  destruct (ta_status a) as [| |f] eqn:Ef;
    [vm_compute in E; injection E as <-; discriminate Ef..|].
  destruct (verdict_is_earned id id snapshot_turn a f ltac:(done) E Ef)
    as (ack & path & leaf & m & o & _ & _ & _ & _ & Hm & _ & _ & _ & Hf).
  exists a, f, m, o. split_and!; try done; vm_compute in E; injection E as <-; injection Ef as <-; reflexivity.
Defined.

Lemma messages_are_grouped_fragments_witness :
  exists ms, logical_messages id (calls id snapshot_turn) [1; 2; 0; 3]%nat [] true = Ok (ms, []) /\
    NoDup (lm_key <$> ms) /\ length ms = 1%nat.
Proof.
  destruct (logical_messages id (calls id snapshot_turn) [1; 2; 0; 3]%nat [] true) as [[ms ws]|] eqn:E;
    [|vm_compute in E; discriminate E].
  destruct (messages_are_grouped_fragments id _ _ _ _ _ _ E) as (Hnd & _ & _ & _ & ->).
  exists ms. split_and!; try done. vm_compute in E. by injection E as <-.
Defined.

Definition tool_turn : list engine_call :=
  [ Arm (text_of "hello"); Ingest a_prompt_row;
    Ingest (a_row (Some "a"%string) (Some "u1"%string)
      (Assistant (mkAssistantFragment (Some "m1"%string) None None [ToolUse "t1" "Read" JNull]
         (Some "tool_use"%string) None false)) (JNum 1));
    Ingest (a_row (Some "b"%string) (Some "a"%string)
      (UserToolResults [mkToolResultBlock "t1" (JStr "file") None]) (JNum 2)) ].

Lemma tools_are_paired_witness :
  exists ts, tools (calls id tool_turn) [0; 1; 2]%nat [] = Ok (ts, []) /\
    paired ([0; 1; 2]%nat ≫= row_events (rows (calls id tool_turn))) ts /\
    (tr_result <$> ts) = [Some (mkToolResultBlock "t1" (JStr "file") None)].
Proof.
  destruct (tools (calls id tool_turn) [0; 1; 2]%nat []) as [[ts ws]|] eqn:E;
    [|vm_compute in E; discriminate E].
  destruct (tools_are_paired _ _ _ _ _ E) as [Hp ->]. exists ts. split_and!; try done.
  vm_compute in E. by injection E as <-.
Defined.

(** ** Append order is not enforced along the chain

    A row since the prompt must be appended after its parent, but a chain may pass
    through a row written before the prompt (the measured launch snapshots do), and
    what follows that row is compared with it and not with what precedes it. Here the
    chain is prompt, [a1], [s], [a2] with [a2] appended before [a1]: every check passes,
    the included rows are not in append order (which a debug assertion of
    [logical_messages] states they are), and the verdict is taken from [a1], the latest
    appended, although the leaf is [a2], which asks for a tool. *)
Definition disordered_turn : list engine_call :=
  [ Ingest (a_row (Some "s"%string) (Some "a1"%string) (Attachment "prompt_snapshot") (JNum 0));
    Arm (text_of "hello");
    Ingest a_prompt_row;
    Ingest (a_row (Some "a2"%string) (Some "s"%string) (an_answer "m2" "wait" "tool_use" 11) (JNum 2));
    Ingest (a_row (Some "a1"%string) (Some "u1"%string) (an_answer "m1" "hi" "end_turn" 11) (JNum 3)) ].

Theorem append_order_is_not_enforced :
  exists a f, analyze id (calls id disordered_turn) = Ok a /\
    ta_active_chain a = ["u1"; "a1"; "s"; "a2"]%string /\
    (lm_first_ordinal <$> ta_messages a) = [3; 2] /\
    ta_status a = Terminal f /\ ft_message_key f = MessageId "m1" /\ ft_final_text f = "hi"%string.
Proof. eexists _, _. split; [vm_compute; reflexivity|]. vm_compute. done. Qed.
