(* ===== verification/Tombstones.v ===== *)
(** * Tombstones of closed sessions

    [crates/service/src/tombstones.rs]: the bounded record of recently closed
    generations that makes Close idempotent. A session or generation id is the number
    of its UUID. *)

From S2P Require Import Prelude.

Record ClosedGeneration := mkClosedGeneration { session_id : N; generation_id : N }.

#[global] Instance ClosedGeneration_eq_dec : EqDecision ClosedGeneration.
Proof. solve_decision. Defined.
#[global] Instance ClosedGeneration_countable : Countable ClosedGeneration.
Proof.
  refine (inj_countable' (fun g => (session_id g, generation_id g))
            (fun p => mkClosedGeneration p.1 p.2) _). by intros [].
Qed.

Record ClosedSessionTombstones := mkTombstones {
  tomb_capacity : nat;
  order : list ClosedGeneration;
  ids : gset ClosedGeneration;
}.

Definition Tombstones_new (capacity : nat) : ClosedSessionTombstones :=
  mkTombstones (Nat.max capacity 1) [] ∅.

Definition tomb_contains (g : ClosedGeneration) (t : ClosedSessionTombstones) : bool :=
  bool_decide (g ∈ ids t).

(** The [while] loop: the oldest are forgotten until the record fits. *)
Fixpoint evict (capacity : nat) (order : list ClosedGeneration) (ids : gset ClosedGeneration)
  : list ClosedGeneration * gset ClosedGeneration :=
  match order with
  | [] => (order, ids)
  | expired :: rest =>
      if (capacity <? length order)%nat then evict capacity rest (ids ∖ {[expired]}) else (order, ids)
  end.

Definition tomb_insert (g : ClosedGeneration) (t : ClosedSessionTombstones) : ClosedSessionTombstones :=
  if bool_decide (g ∈ ids t) then t
  else
    let '(order', ids') := evict (tomb_capacity t) (order t ++ [g]) ({[g]} ∪ ids t) in
    mkTombstones (tomb_capacity t) order' ids'.

(** A history of closes, oldest first. *)
Definition closes (history : list ClosedGeneration) (t : ClosedSessionTombstones) : ClosedSessionTombstones :=
  foldl (fun t g => tomb_insert g t) t history.

(** ** The record stays within its capacity *)

Record tomb_ok (t : ClosedSessionTombstones) : Prop := {
  tk_ids : ids t = list_to_set (order t);
  tk_nodup : NoDup (order t);
  tk_size : (length (order t) <= tomb_capacity t)%nat;
  tk_capacity : (1 <= tomb_capacity t)%nat;
}.

Lemma Tombstones_new_ok capacity : tomb_ok (Tombstones_new capacity).
Proof. split; cbn; [done|apply NoDup_nil_2|lia|lia]. Qed.

(** The loop drops exactly the overflow, from the front. *)
Lemma evict_drop capacity l : forall ids,
  NoDup l -> ids = list_to_set l ->
  evict capacity l ids = (drop (length l - capacity) l, list_to_set (drop (length l - capacity) l)).
Proof.
  induction l as [|x l IH]; intros ids Hnd ->; cbn [evict]; [done|].
  apply NoDup_cons in Hnd as [Hx Hnd]. destruct (Nat.ltb_spec capacity (length (x :: l))) as [Hlt|Hge].
  - cbn [length] in *. rewrite (IH _ Hnd) by set_solver.
    by replace (S (length l) - capacity)%nat with (S (length l - capacity)) by lia.
  - by replace (length (x :: l) - capacity)%nat with 0%nat by lia.
Qed.

(** The reference: a queue of distinct generations, truncated at the front. *)
Definition remember (capacity : nat) (g : ClosedGeneration) (l : list ClosedGeneration)
  : list ClosedGeneration :=
  if bool_decide (g ∈ l) then l else drop (S (length l) - capacity) (l ++ [g]).

Lemma tomb_insert_order g t :
  tomb_ok t -> order (tomb_insert g t) = remember (tomb_capacity t) g (order t) /\
    ids (tomb_insert g t) = list_to_set (order (tomb_insert g t)) /\
    tomb_capacity (tomb_insert g t) = tomb_capacity t.
Proof.
  intros [Hids Hnd Hsz Hcap]. unfold tomb_insert, remember.
  case_bool_decide as Hin; case_bool_decide as Hin'; try (exfalso; set_solver); [done|].
  rewrite (evict_drop (tomb_capacity t) (order t ++ [g])).
  - rewrite length_app. cbn [order ids tomb_capacity length].
    by replace (length (order t) + 1)%nat with (S (length (order t))) by lia.
  - apply NoDup_app. split_and!; [done|set_solver|apply NoDup_singleton].
  - rewrite Hids, list_to_set_app_L. cbn. set_solver.
Qed.

Lemma remember_incl capacity g l x : x ∈ remember capacity g l -> x = g \/ x ∈ l.
Proof.
  unfold remember. case_bool_decide; [by right|]. intros Hx.
  assert (x ∈ l ++ [g]) as H'%elem_of_app by (by eapply elem_of_submseteq, sublist_submseteq, sublist_drop).
  set_solver.
Qed.

Lemma tomb_insert_ok g t : tomb_ok t -> tomb_ok (tomb_insert g t).
Proof.
  intros Hok. destruct (tomb_insert_order g t Hok) as (Ho & Hi & Hc). destruct Hok as [Hids Hnd Hsz Hcap].
  split; [done| | |by rewrite Hc]; rewrite ?Hc, Ho; unfold remember; case_bool_decide as Hin; try done.
  - eapply sublist_NoDup; [|apply sublist_drop]. apply NoDup_app.
    split_and!; [done|set_solver|apply NoDup_singleton].
  - rewrite length_drop, length_app. cbn [length]. lia.
Qed.

Lemma closes_ok history : forall t, tomb_ok t -> tomb_ok (closes history t) /\
  tomb_capacity (closes history t) = tomb_capacity t /\
  forall g, g ∈ order (closes history t) -> g ∈ order t \/ g ∈ history.
Proof.
  induction history as [|h history IH]; intros t Hok; cbn [closes foldl]; [by auto|].
  destruct (tomb_insert_order h t Hok) as (Ho & _ & Hc).
  destruct (IH (tomb_insert h t) (tomb_insert_ok h t Hok)) as (H1 & H2 & H3).
  split; [done|]. unfold closes in *. split; [congruence|]. intros g Hg.
  destruct (H3 g Hg) as [Hg'|Hg']; [|set_solver]. rewrite Ho in Hg'.
  apply remember_incl in Hg' as [->|?]; set_solver.
Qed.

(** ** What is recent is remembered *)

(** [g] is in the queue, followed only by generations of [others]. *)
Definition followed_by (g : ClosedGeneration) (others : gset ClosedGeneration)
    (l : list ClosedGeneration) : Prop :=
  exists before after, l = before ++ g :: after /\ forall x, x ∈ after -> x ∈ others.

Lemma followed_by_insert g others h t :
  tomb_ok t -> (size others < tomb_capacity t)%nat -> h ∈ others ->
  followed_by g others (order t) -> followed_by g others (order (tomb_insert h t)).
Proof.
  intros Hok Hsz Hh (before & after & E & Hafter).
  destruct (tomb_insert_order h t Hok) as (-> & _ & _). unfold remember.
  case_bool_decide as Hin; [by exists before, after|].
  assert (NoDup (after ++ [h])) as Hnd.
  { pose proof (tk_nodup _ Hok) as H. rewrite E in H, Hin.
    apply NoDup_app in H as (_ & _ & [_ H]%NoDup_cons). apply NoDup_app.
    split_and!; [done|set_solver|apply NoDup_singleton]. }
  assert (length (after ++ [h]) <= size others)%nat as Hlen.
  { rewrite <-(size_list_to_set (C := gset ClosedGeneration)) by done. apply subseteq_size. set_solver. }
  rewrite length_app in Hlen. cbn [length] in Hlen.
  exists (drop (S (length (order t)) - tomb_capacity t) before), (after ++ [h]). split.
  - rewrite E, <-app_assoc. cbn [app]. rewrite drop_app_le; [done|].
    rewrite length_app. cbn [length]. lia.
  - intros x [?| ->%list_elem_of_singleton]%elem_of_app; auto.
Qed.

Lemma followed_by_closes g others history : forall t,
  tomb_ok t -> (size others < tomb_capacity t)%nat -> (forall h, h ∈ history -> h ∈ others) ->
  followed_by g others (order t) -> followed_by g others (order (closes history t)).
Proof.
  induction history as [|h history IH]; intros t Hok Hsz Hh Hf; cbn [closes foldl]; [done|].
  destruct (tomb_insert_order h t Hok) as (_ & _ & Hc).
  apply IH; [by apply tomb_insert_ok|by rewrite Hc|set_solver|].
  apply followed_by_insert; set_solver.
Qed.

(** Closing is remembered, boundedly and without duplicates. Whatever the history
    of closes, the record holds at most its capacity (at least one), each generation
    once, and only generations that were closed; and a generation closed for the
    first time is still reported as closed as long as fewer distinct
    generations than the capacity have been closed since. *)
Theorem tombstones_remember_recent_closes capacity before g since :
  let t := closes before (Tombstones_new capacity) in
  let t' := closes since (tomb_insert g t) in
  (length (order t') <= Nat.max capacity 1)%nat /\ NoDup (order t') /\
  (forall x, tomb_contains x t' = true -> x = g \/ x ∈ before \/ x ∈ since) /\
  (tomb_contains g t = false ->
   (size (list_to_set since : gset ClosedGeneration) < Nat.max capacity 1)%nat ->
   tomb_contains g t' = true).
Proof.
  intros t t'. pose proof (Tombstones_new_ok capacity) as Hnew.
  destruct (closes_ok before _ Hnew) as (Hok & Hcap & Hold). fold t in Hok, Hcap, Hold.
  pose proof (tomb_insert_ok g t Hok) as Hok1.
  destruct (tomb_insert_order g t Hok) as (Ho1 & _ & Hcap1).
  destruct (closes_ok since _ Hok1) as (Hok2 & Hcap2 & Hold2). fold t' in Hok2, Hcap2, Hold2.
  change (Nat.max capacity 1) with (tomb_capacity (Tombstones_new capacity)).
  rewrite <-Hcap, <-Hcap1. split_and!.
  - rewrite <-Hcap2. apply Hok2.
  - apply Hok2.
  - intros x Hx%bool_decide_eq_true. rewrite (tk_ids _ Hok2), elem_of_list_to_set in Hx.
    destruct (Hold2 x Hx) as [Hx'|]; [|by auto]. rewrite Ho1 in Hx'.
    apply remember_incl in Hx' as [->|Hx']; [by auto|].
    destruct (Hold x Hx') as [Hn|]; [by apply elem_of_nil in Hn|auto].
  - intros Hfirst Hsz. apply bool_decide_eq_false in Hfirst. apply bool_decide_eq_true.
    rewrite (tk_ids _ Hok), elem_of_list_to_set in Hfirst.
    rewrite (tk_ids _ Hok2), elem_of_list_to_set.
    destruct (followed_by_closes g (list_to_set since) since _ Hok1 Hsz) as (b & a & E & _).
    + intros h. by rewrite elem_of_list_to_set.
    + rewrite Ho1. unfold remember. rewrite bool_decide_false by done.
      exists (drop (S (length (order t)) - tomb_capacity t) (order t)), []. split; [|set_solver].
      rewrite drop_app_le; [done|]. pose proof (tk_capacity _ Hok). lia.
    + unfold t'. rewrite E. set_solver.
Qed.
