(* ===== verification/Messages.v ===== *)
(** * The Messages facade: requests in, replies out

    The pure part of [bin/pmuxd/src/messages_http.rs]: routing and the request line,
    the prompt made of a request, the tool calls read back from a reply, the documents
    and headers of a response. [serde_json]'s parser and printers are parameters, and
    so is the clock reading that names a message. Sockets, timeouts and the accept loop
    are I/O and left out. A Rust [String] is its bytes; a prompt that is about to be
    typed is a text. *)

From S2P Require Import Prelude Text Protocol Account Class Composer Parser.

Definition MAX_BODY_BYTES : N := 2 * 1024 * 1024.
Definition TOOL_CALL_OPEN : string := "<tool_call>".
Definition TOOL_CALL_CLOSE : string := "</tool_call>".

(** ** Strings *)

Definition string_of_bytes (l : list N) : string :=
  String.string_of_list_ascii (Ascii.ascii_of_N <$> l).

Definition NL : string := char_str 10.
Definition CRLF : string := (char_str 13 +:+ NL)%string.

Fixpoint str_strip_prefix (pre s : string) : option string :=
  match pre, s with
  | EmptyString, _ => Some s
  | String.String a pre', String.String b s' =>
      if Ascii.eqb a b then str_strip_prefix pre' s' else None
  | _, _ => None
  end.

Definition str_rev (s : string) : string :=
  String.string_of_list_ascii (reverse (String.list_ascii_of_string s)).

Definition str_strip_suffix (suf s : string) : option string :=
  str_rev <$> str_strip_prefix (str_rev suf) (str_rev s).

(** [str::find] with the two sides it separates: before and after the match. *)
Fixpoint str_split_at (pat s : string) : option (string * string) :=
  match str_strip_prefix pat s with
  | Some rest => Some (EmptyString, rest)
  | None =>
      match s with
      | EmptyString => None
      | String.String c s' =>
          '(before, after) ← str_split_at pat s'; Some (String.String c before, after)
      end
  end.

Definition is_empty (s : string) : bool := bool_decide (s = EmptyString).

Definition of_chars (t : list N) : string := string_of_bytes (utf8_encode t).

(** [str::trim]. *)
Definition str_trim (s : string) : string :=
  of_chars (trim_end_matches is_whitespace (trim_start_matches is_whitespace (chars s))).

(** [path.split('?').next()]: what precedes the first question mark. *)
Definition before_query (path : string) : string :=
  match str_split_at "?" path with Some (before, _) => before | None => path end.

(** ** Routing *)

Definition is_messages_path (path : string) : bool :=
  mem_str (before_query path) ["/v1/messages"; "/messages"; "/v1/v1/messages"]%string.

Definition is_models_path (path : string) : bool :=
  mem_str (before_query path) ["/v1/models"; "/models"; "/v1/v1/models"]%string.

Definition is_capabilities_path (path : string) : bool :=
  mem_str (before_query path) ["/v1/capabilities"; "/capabilities"; "/v1/v1/capabilities"]%string.

Definition has_any_auth (headers : list (string * string)) : bool :=
  existsb (fun h =>
      negb (is_empty (str_trim (snd h)))
      && (eq_ignore_ascii_case (fst h) "x-api-key" || eq_ignore_ascii_case (fst h) "authorization"))
    headers.

(** [require_path_safe_conversation_id] of [conversation.rs]. *)
Definition require_path_safe_conversation_id (id : string) : result string ErrorBody :=
  let id := str_trim id in
  if is_empty id then Err (ErrorBody_new InvalidConfig "conversation id must not be empty")
  else if existsb (fun c => (c =? 47) || (c =? 63) || (c =? 35)) (chars id)
          || existsb is_whitespace (chars id) then
    Err (ErrorBody_new InvalidConfig "conversation id is not path-safe")
  else Ok id.

Definition RELEASE_PREFIXES : list string := ["/v1/conversations/"; "/v1/v1/conversations/"]%string.

Fixpoint release_under (prefixes : list string) (path : string) : option string :=
  match prefixes with
  | [] => None
  | prefix :: rest =>
      match str_strip_prefix prefix path ≫= str_strip_suffix "/release" with
      | Some id =>
          if is_ok (require_path_safe_conversation_id id) then Some id else release_under rest path
      | None => release_under rest path
      end
  end.

Definition release_conversation_id (method path : string) : option string :=
  if negb (String.eqb method "POST") && negb (String.eqb method "DELETE") then None
  else release_under RELEASE_PREFIXES (before_query path).

(** ** The request line and headers *)

Fixpoint find_double_crlf_from (index : nat) (buf : list N) : option nat :=
  match strip_prefix [13; 10; 13; 10] buf with
  | Some _ => Some index
  | None => match buf with [] => None | _ :: rest => find_double_crlf_from (S index) rest end
  end.

Definition find_double_crlf (buf : list N) : option nat := find_double_crlf_from 0 buf.

(** [str::split("\r\n")]. *)
Fixpoint split_crlf (fuel : nat) (s : string) : list string :=
  match fuel with
  | O => [s]
  | S fuel =>
      match str_split_at CRLF s with
      | Some (before, after) => before :: split_crlf fuel after
      | None => [s]
      end
  end.

(** [str::split_whitespace]. *)
Fixpoint split_whitespace_from (acc : list N) (t : list N) : list string :=
  let flush := match acc with [] => [] | _ => [of_chars acc] end in
  match t with
  | [] => flush
  | c :: t' =>
      if is_whitespace c then flush ++ split_whitespace_from [] t'
      else split_whitespace_from (acc ++ [c]) t'
  end.

Fixpoint header_lines (lines : list string) : list (string * string) :=
  match lines with
  | [] => []
  | line :: rest =>
      if is_empty line then []
      else match str_split_at ":" line with
      | None => header_lines rest
      | Some (name, value) => (str_trim name, str_trim value) :: header_lines rest
      end
  end.

Definition parse_request_line_and_headers (text : string)
  : result (string * string * list (string * string)) string :=
  let lines := split_crlf (String.length text) text in
  let parts := split_whitespace_from [] (chars (default EmptyString (head lines))) in
  let method := default EmptyString (parts !! 0%nat) in
  let path := default EmptyString (parts !! 1%nat) in
  if is_empty method || is_empty path then Err "malformed request line"%string
  else Ok (method, path, header_lines (drop 1 lines)).

(** ** Model ids *)

Definition MODEL_SUFFIXES : list (string * EffortLevel) :=
  [("-xhigh", XHigh); ("-medium", Medium); ("-high", High); ("-low", Low); ("-max", Max)]%string.

Fixpoint split_suffixes (suffixes : list (string * EffortLevel)) (model : string)
  : string * option EffortLevel :=
  match suffixes with
  | [] => (model, None)
  | (suffix, level) :: rest =>
      match str_strip_suffix suffix model with
      | Some stem => if is_empty stem then split_suffixes rest model else (stem, Some level)
      | None => split_suffixes rest model
      end
  end.

Definition split_model_and_effort (model : string) : string * option EffortLevel :=
  split_suffixes MODEL_SUFFIXES model.

Definition messages_model_ids : list string :=
  MODEL_TABLE ≫= (fun entry =>
    match me_efforts entry with
    | [] => [me_canonical entry]
    | efforts => (fun effort => (me_canonical entry +:+ "-" +:+ ae_argv effort)%string) <$> efforts
    end).

Definition models_document : json :=
  jobj [("object", JStr "list");
        ("data", JArr ((fun id => jobj [("type", JStr "model"); ("id", JStr id)]%string) <$> messages_model_ids));
        ("has_more", JBool false)]%string.

(** A right arrow, as its bytes. *)
Definition ARROW : string := char_str 8594.

Definition capabilities_document (allow_implicit : bool) : json :=
  jobj [("pin_headers", JArr [JStr "x-pmux-conversation"; JStr "x-session-id"; JStr "x-session-affinity"]);
        ("account_header", JStr "x-pmux-account");
        ("release", JStr "POST /v1/conversations/{id}/release");
        ("stream", JStr "post_commit");
        ("images", JBool false);
        ("cache_control_on_tools", JBool false);
        ("temperature", JBool false);
        ("effort", JStr "model_id_suffix_or_output_config");
        ("effort_sources", JArr [JStr "model_id_suffix"; JStr "output_config.effort";
                                 JStr ("thinking.type != disabled " +:+ ARROW +:+ " high")]);
        ("implicit_conversation", JBool allow_implicit);
        ("models", JStr "GET /v1/models")]%string.

(** ** What a request may carry *)

Fixpoint walk_for_type (type_name : string) (value : json) : bool :=
  match value with
  | JObj object =>
      bool_decide (get_str "type" object = Some type_name)
      || (fix any (l : list (string * json)) : bool :=
            match l with [] => false | (_, child) :: l' => walk_for_type type_name child || any l' end) object
  | JArr items =>
      (fix any (l : list json) : bool :=
         match l with [] => false | child :: l' => walk_for_type type_name child || any l' end) items
  | _ => false
  end.

Definition reject_unsupported (body : json) : result unit string :=
  if walk_for_type "image" body then
    Err "image content is not supported on the stateless token engine"%string
  else Ok tt.

(** ** The prompt of a request *)

Definition json_str_at (key : string) (j : json) : option string := json_get key j ≫= json_as_str.

Definition system_text (value : option json) : string :=
  match value with
  | None | Some JNull => EmptyString
  | Some (JStr text) => text
  | Some (JArr blocks) =>
      join NL (omap (fun block =>
          if bool_decide (json_str_at "type" block = Some "text"%string)
          then json_str_at "text" block else json_as_str block) blocks)
  | Some other => default EmptyString (json_as_str other)
  end.

(** [sanitize_prompt]: tabs become four spaces, other controls but the newline go. *)
Definition sanitize_char (c : N) : list N :=
  if c =? 9 then [32; 32; 32; 32]
  else if c =? 10 then [10]
  else if is_control c then []
  else [c].

Definition sanitize_prompt (prompt : string) : list N := chars prompt ≫= sanitize_char.

Definition role_of (message : json) : string := default "user"%string (json_str_at "role" message).

Definition role_heading (role : string) : string :=
  if String.eqb role "assistant" then ("ASSISTANT:" +:+ NL)%string
  else if String.eqb role "system" then ("SYSTEM:" +:+ NL)%string
  else ("USER:" +:+ NL)%string.

Definition CONTINUE_LINE : string :=
  ("Continue as the assistant. Either answer in plain text or emit tool_call blocks." +:+ NL)%string.

Section Serde.
Variable to_string : json -> string.           (** [Value::to_string] *)
Variable to_string_pretty : list json -> result string string.  (** [serde_json::to_string_pretty] *)
Variable from_str : string -> result json string.  (** [serde_json::from_str] *)

Definition render_block (block : json) : string :=
  let ty := json_str_at "type" block in
  if bool_decide (ty = Some "text"%string) then default EmptyString (json_str_at "text" block)
  else if bool_decide (ty = Some "tool_use"%string) then
    ("[tool_use id=" +:+ default "?" (json_str_at "id" block) +:+ " name="
     +:+ default "?" (json_str_at "name" block) +:+ "]: "
     +:+ match json_get "input" block with Some input => to_string input | None => "{}" end)%string
  else if bool_decide (ty = Some "tool_result"%string) then
    let content :=
      match json_get "content" block with
      | Some (JStr text) => text
      | Some (JArr items) => join NL (omap (json_str_at "text") items)
      | Some other => to_string other
      | None => EmptyString
      end in
    ("[tool_result tool_use_id=" +:+ default "?" (json_str_at "tool_use_id" block)
     +:+ match json_get "is_error" block with Some (JBool true) => " is_error=true" | _ => EmptyString end
     +:+ "]: " +:+ content)%string
  else if bool_decide (ty = Some "thinking"%string) then default EmptyString (json_str_at "thinking" block)
  else default EmptyString (json_str_at "text" block).

Definition render_content (value : option json) : string :=
  match value with
  | None | Some JNull => EmptyString
  | Some (JStr text) => text
  | Some (JArr blocks) => join NL (render_block <$> blocks)
  | Some other => to_string other
  end.

(** One message of the history. *)
Definition render_message (message : json) : string :=
  (role_heading (role_of message) +:+ render_content (json_get "content" message) +:+ NL +:+ NL)%string.

Definition concat_str (l : list string) : string := foldr String.append EmptyString l.

Definition TOOL_EXAMPLE : string :=
  let q := char_str 34 in
  ("{" +:+ q +:+ "name" +:+ q +:+ ":" +:+ q +:+ "TOOL_NAME" +:+ q +:+ "," +:+ q +:+ "id" +:+ q +:+ ":"
   +:+ q +:+ "toolu_..." +:+ q +:+ "," +:+ q +:+ "input" +:+ q +:+ ":{}}")%string.

Definition tools_section (tools : list json) : string :=
  ("TOOLS:" +:+ NL +:+ "You may call tools by emitting one or more blocks of the form" +:+ NL
   +:+ TOOL_CALL_OPEN +:+ TOOL_EXAMPLE +:+ TOOL_CALL_CLOSE +:+ NL
   +:+ "The payload is strict JSON: escape newlines inside strings as \n." +:+ NL
   +:+ "Do not execute anything. The consumer will run the tool and send a tool_result." +:+ NL
   +:+ "If you can answer without a tool, answer in plain text and emit no tool_call blocks." +:+ NL
   +:+ "Available tools (JSON Schema):" +:+ NL
   +:+ match to_string_pretty tools with Ok s => s | Err _ => "[]" end +:+ NL +:+ NL)%string.

Definition flatten_prompt (body : json) : result string string :=
  let system := system_text (json_get "system" body) in
  let head := if is_empty system then EmptyString else ("SYSTEM:" +:+ NL +:+ system +:+ NL +:+ NL)%string in
  let tools :=
    match json_get "tools" body ≫= as_array with
    | Some (t :: ts) => tools_section (t :: ts)
    | _ => EmptyString
    end in
  let? messages := ok_or (json_get "messages" body ≫= as_array) "messages is required"%string in
  Ok (head +:+ tools +:+ "HISTORY:" +:+ NL +:+ concat_str (render_message <$> messages) +:+ CONTINUE_LINE)%string.

(** [continuation_prompt] of [conversation.rs]: the messages from [from] on. *)
Definition continuation_text (messages : list json) : string :=
  ("HISTORY:" +:+ NL +:+ concat_str (render_message <$> messages) +:+ CONTINUE_LINE)%string.

Definition continuation_prompt (body : json) (from : nat) : result (list N) string :=
  let? messages := ok_or (json_get "messages" body ≫= as_array) "messages is required"%string in
  if (length messages <=? from)%nat then Err "continuation produced an empty prompt"%string
  else
    let prompt := sanitize_prompt (continuation_text (drop from messages)) in
    if forallb is_whitespace prompt then Err "continuation produced an empty prompt"%string
    else Ok prompt.

(** ** The tool calls of a reply *)

Record ToolCall := mkToolCall { tc_id : string; tc_name : string; tc_input : json }.

Record ParsedCompletion := mkParsedCompletion { pc_text : string; pc_tool_calls : list ToolCall }.

Definition hex_lower (d : N) : N := if d <? 10 then 48 + d else 87 + d.

(** One raw control character inside a string, escaped. *)
Definition escape_control (c : N) : list N :=
  if c =? 10 then [92; 110]
  else if c =? 13 then [92; 114]
  else if c =? 9 then [92; 116]
  else if c <? 32 then [92; 117; 48; 48; hex_lower (c / 16); hex_lower (c mod 16)]
  else [c].

(** [escape_control_characters_in_strings], the two flags as arguments. *)
Fixpoint escape_from (in_string escaped : bool) (t : list N) : list N :=
  match t with
  | [] => []
  | c :: t' =>
      if in_string then
        if escaped then c :: escape_from true false t'
        else if c =? 92 then c :: escape_from true true t'
        else if c =? 34 then c :: escape_from false false t'
        else escape_control c ++ escape_from true false t'
      else c :: escape_from (c =? 34) false t'
  end.

Definition escape_control_characters_in_strings (payload : string) : string :=
  of_chars (escape_from false false (chars payload)).

Definition parse_tool_call_payload (payload : string) : result json string :=
  match from_str payload with
  | Ok value => Ok value
  | Err strict =>
      let escaped := escape_control_characters_in_strings payload in
      if String.eqb escaped payload then Err strict
      else map_err (fun _ => strict) (from_str escaped)
  end.

(** What one block between the tags is: a call, or text to keep as it stands. *)
Definition read_tool_call (payload : string) (already : nat) : option ToolCall :=
  match parse_tool_call_payload (str_trim payload) with
  | Err _ => None
  | Ok value =>
      let name := default EmptyString (json_str_at "name" value) in
      if is_empty name then None
      else
        let id :=
          match json_str_at "id" value with
          | Some id => if is_empty id then None else Some id
          | None => None
          end in
        Some (mkToolCall (default ("toolu_" +:+ pretty (N.of_nat (already + 1)))%string id) name
                (default (JObj []) (json_get "input" value)))
  end.

(** The loop of [parse_completion] over what is left of the reply. *)
Fixpoint completion_loop (fuel : nat) (cursor remaining : string) (calls : list ToolCall)
  : string * list ToolCall :=
  match fuel with
  | O => ((remaining +:+ cursor)%string, calls)
  | S fuel =>
      match str_split_at TOOL_CALL_OPEN cursor with
      | None => ((remaining +:+ cursor)%string, calls)
      | Some (before, after) =>
          match str_split_at TOOL_CALL_CLOSE after with
          | None => ((remaining +:+ before +:+ TOOL_CALL_OPEN +:+ after)%string, calls)
          | Some (payload, rest) =>
              match read_tool_call payload (length calls) with
              | Some call => completion_loop fuel rest (remaining +:+ before)%string (calls ++ [call])
              | None =>
                  completion_loop fuel rest
                    (remaining +:+ before +:+ TOOL_CALL_OPEN +:+ payload +:+ TOOL_CALL_CLOSE)%string calls
              end
          end
      end
  end.

Definition parse_completion (text : string) : ParsedCompletion :=
  let '(remaining, calls) := completion_loop (String.length text) text EmptyString [] in
  mkParsedCompletion (str_trim remaining) calls.

(** ** The reply *)

Definition stop_reason_name (result : StatelessResult) (completion : ParsedCompletion) : string :=
  match pc_tool_calls completion with
  | _ :: _ => "tool_use"
  | [] =>
      match sr_kind <$> sres_stop_reason result with
      | Some MaxTokens => "max_tokens"
      | Some Refusal => "refusal"
      | _ => "end_turn"
      end
  end.

Definition text_wanted (completion : ParsedCompletion) : bool :=
  negb (is_empty (pc_text completion))
  || match pc_tool_calls completion with [] => true | _ => false end.

Definition content_blocks (completion : ParsedCompletion) : list json :=
  ((fun call => jobj [("type", JStr "tool_use"); ("id", JStr (tc_id call));
                      ("name", JStr (tc_name call)); ("input", tc_input call)]%string)
     <$> pc_tool_calls completion)
  ++ (if text_wanted completion
      then [jobj [("type", JStr "text"); ("text", JStr (pc_text completion))]%string] else []).

Definition usage_json (u : TokenUsage) : json :=
  jobj [("input_tokens", JNum (input_tokens u)); ("output_tokens", JNum (output_tokens u));
        ("cache_creation_input_tokens", JNum (cache_creation_input_tokens u));
        ("cache_read_input_tokens", JNum (cache_read_input_tokens u))]%string.

(** [anthropic_message]; the id comes from the clock. *)
Definition anthropic_message (message_id model : string) (result : StatelessResult)
    (completion : ParsedCompletion) : json :=
  jobj [("id", JStr message_id); ("type", JStr "message"); ("role", JStr "assistant");
        ("model", JStr model); ("content", JArr (content_blocks completion));
        ("stop_reason", JStr (stop_reason_name result completion)); ("stop_sequence", JNull);
        ("usage", usage_json (ub_main (sres_usage result)))]%string.

Definition sse_event (event : string) (data : json) : string :=
  ("event: " +:+ event +:+ NL +:+ "data: " +:+ to_string data +:+ NL +:+ NL)%string.

(** A content block in three events. *)
Definition block_events (index : N) (start delta : json) : list (string * json) :=
  [("content_block_start", jobj [("type", JStr "content_block_start"); ("index", JNum index); ("content_block", start)]);
   ("content_block_delta", jobj [("type", JStr "content_block_delta"); ("index", JNum index); ("delta", delta)]);
   ("content_block_stop", jobj [("type", JStr "content_block_stop"); ("index", JNum index)])]%string.

Fixpoint call_events (index : N) (calls : list ToolCall) : list (string * json) :=
  match calls with
  | [] => []
  | call :: rest =>
      block_events index
        (jobj [("type", JStr "tool_use"); ("id", JStr (tc_id call)); ("name", JStr (tc_name call)); ("input", JObj [])]%string)
        (jobj [("type", JStr "input_json_delta"); ("partial_json", JStr (to_string (tc_input call)))]%string)
      ++ call_events (index + 1) rest
  end.

Definition sse_events (message : json) (completion : ParsedCompletion) : list (string * json) :=
  let model := default (JStr EmptyString) (json_get "model" message) in
  let id := default "msg_0"%string (json_str_at "id" message) in
  let usage := default (usage_json TokenUsage_default) (json_get "usage" message) in
  let count key := default (JNum 0) (json_get key usage) in
  let stop_reason := default "end_turn"%string (json_str_at "stop_reason" message) in
  [("message_start", jobj [("type", JStr "message_start");
      ("message", jobj [("id", JStr id); ("type", JStr "message"); ("role", JStr "assistant");
        ("content", JArr []); ("model", model); ("stop_reason", JNull); ("stop_sequence", JNull);
        ("usage", jobj [("input_tokens", count "input_tokens"); ("output_tokens", JNum 1);
          ("cache_creation_input_tokens", count "cache_creation_input_tokens");
          ("cache_read_input_tokens", count "cache_read_input_tokens")])])])]%string
  ++ call_events 0 (pc_tool_calls completion)
  ++ (if text_wanted completion
      then block_events (N.of_nat (length (pc_tool_calls completion)))
             (jobj [("type", JStr "text"); ("text", JStr EmptyString)]%string)
             (jobj [("type", JStr "text_delta"); ("text", JStr (pc_text completion))]%string)
      else [])
  ++ [("message_delta", jobj [("type", JStr "message_delta");
        ("delta", jobj [("stop_reason", JStr stop_reason); ("stop_sequence", JNull)]);
        ("usage", jobj [("output_tokens", count "output_tokens")])]);
      ("message_stop", jobj [("type", JStr "message_stop")])]%string.

Definition encode_sse (message : json) (completion : ParsedCompletion) : string :=
  concat_str ((fun e => sse_event (fst e) (snd e)) <$> sse_events message completion).

Definition dispatch_error_status (error : ErrorBody) : N :=
  match eb_code error with SessionBusy => 409 | _ => 400 end.

Definition dispatch_error_body (error : ErrorBody) : string :=
  to_string (jobj [("type", JStr "error");
    ("error", jobj [("type", JStr "api_error"); ("message", JStr (eb_message error));
                    ("details", eb_details error); ("retryable", JBool (eb_retryable error))])]%string).

(** The bytes of a response: status line, headers, body ([write_http_extra]). *)
Definition reason_phrase (status : N) : string :=
  if status =? 200 then "OK" else if status =? 400 then "Bad Request"
  else if status =? 401 then "Unauthorized" else if status =? 404 then "Not Found"
  else if status =? 409 then "Conflict" else if status =? 413 then "Payload Too Large"
  else if status =? 429 then "Too Many Requests" else "Error".

Definition http_response (status : N) (content_type body : string) (extra : list (string * string)) : string :=
  ("HTTP/1.1 " +:+ pretty status +:+ " " +:+ reason_phrase status +:+ CRLF
   +:+ "Content-Type: " +:+ content_type +:+ CRLF
   +:+ "Content-Length: " +:+ pretty (str_len body) +:+ CRLF +:+ "Connection: close"
   +:+ concat_str ((fun h => CRLF +:+ fst h +:+ ": " +:+ snd h) <$> extra)
   +:+ CRLF +:+ CRLF +:+ body)%string.

End Serde.

(** ** Strings: lemmas *)

#[local] Arguments String.append !_ _ / : simpl nomatch.

Lemma string_app_assoc a b c : ((a +:+ b) +:+ c = a +:+ b +:+ c)%string.
Proof. induction a as [|x a IH]; cbn; [done|]. f_equal. apply IH. Qed.

Lemma string_app_nil_r a : (a +:+ EmptyString = a)%string.
Proof. induction a as [|x a IH]; cbn; [done|]. f_equal. apply IH. Qed.

Lemma str_strip_prefix_Some pre s r : str_strip_prefix pre s = Some r <-> s = (pre +:+ r)%string.
Proof.
  revert s; induction pre as [|a pre IH]; intros s; cbn; [naive_solver|].
  destruct s as [|b s]; [naive_solver|]. destruct (Ascii.eqb_spec a b) as [->|Hab].
  - rewrite IH. naive_solver.
  - naive_solver.
Qed.

Lemma str_split_at_Some pat s before after :
  str_split_at pat s = Some (before, after) -> s = (before +:+ pat +:+ after)%string.
Proof.
  revert before; induction s as [|c s IH]; intros before; cbn [str_split_at].
  - destruct (str_strip_prefix pat EmptyString) eqn:E; [|done]. intros [= <- <-].
    by apply str_strip_prefix_Some in E.
  - destruct (str_strip_prefix pat (String.String c s)) eqn:E.
    + intros [= <- <-]. by apply str_strip_prefix_Some in E.
    + destruct (str_split_at pat s) as [[b a]|]; cbn; [|done]. intros [= <- <-].
      cbn. f_equal. by apply IH.
Qed.

(** A tag whose first character does not occur again in it cannot straddle its own
    next occurrence. *)
Lemma strip_prefix_before c pat s r :
  c ∉ String.list_ascii_of_string pat ->
  is_Some (str_strip_prefix pat (s +:+ String.String c r)%string) -> is_Some (str_strip_prefix pat s).
Proof.
  revert s; induction pat as [|a pat IH]; intros s; cbn; [by eauto|].
  intros [Hc Hp]%not_elem_of_cons. destruct s as [|b s]; cbn.
  - destruct (Ascii.eqb_spec a c); [congruence|]. by intros [].
  - destruct (Ascii.eqb a b); [by apply IH|]. by intros [].
Qed.

Definition starts_once (pat : string) : Prop :=
  match pat with
  | EmptyString => False
  | String.String c rest => c ∉ String.list_ascii_of_string rest
  end.

Lemma str_split_at_first pat t r :
  starts_once pat -> str_split_at pat t = None ->
  str_split_at pat (t +:+ pat +:+ r)%string = Some (t, r).
Proof.
  destruct pat as [|c pat]; [done|]. intros Honce.
  induction t as [|a t IH]; intros Hnone.
  - assert (str_strip_prefix (String.String c pat) (String.String c pat +:+ r)%string = Some r) as H
      by by apply str_strip_prefix_Some.
    cbn [String.append] in *. cbn [str_split_at]. by rewrite H.
  - cbn [str_split_at] in Hnone. cbn [String.append str_split_at].
    destruct (str_strip_prefix _ (String.String a t)) eqn:E; [done|].
    destruct (str_split_at _ t) as [[]|] eqn:E'; [done|].
    case_eq (str_strip_prefix (String.String c pat) (String.String a (t +:+ String.String c pat +:+ r)%string)).
    + intros s E2. exfalso. cbn in E, E2. destruct (Ascii.eqb c a); [|done].
      destruct (strip_prefix_before c pat t (pat +:+ r)%string Honce) as [? H]; [eauto|congruence].
    + intros E2. cbn [String.append] in E2, IH. by rewrite E2, IH.
Qed.

Lemma open_tag_starts_once : starts_once TOOL_CALL_OPEN.
Proof. apply (bool_decide_unpack _). vm_compute. exact I. Qed.

Lemma close_tag_starts_once : starts_once TOOL_CALL_CLOSE.
Proof. apply (bool_decide_unpack _). vm_compute. exact I. Qed.

(** ** Reading the tool calls of a reply

    A reply as its pieces: text that stays text, and blocks read as calls. *)

Inductive Piece :=
| Kept (text : string)
| Block (payload : string) (call : ToolCall).

Definition piece_source (p : Piece) : string :=
  match p with
  | Kept text => text
  | Block payload _ => (TOOL_CALL_OPEN +:+ payload +:+ TOOL_CALL_CLOSE)%string
  end.

Definition piece_kept (p : Piece) : string :=
  match p with Kept text => text | Block _ _ => EmptyString end.

Definition piece_call (p : Piece) : option ToolCall :=
  match p with Kept _ => None | Block _ call => Some call end.

Section Completion.
Variable from_str : string -> result json string.
Abbreviation read_call := (read_tool_call from_str).

(** Each block is what the reader makes of its payload, given the calls before it. *)
Fixpoint numbered (n : nat) (pieces : list Piece) : Prop :=
  match pieces with
  | [] => True
  | Kept _ :: rest => numbered n rest
  | Block payload call :: rest => read_call payload n = Some call /\ numbered (S n) rest
  end.

Lemma read_tool_call_named payload n call :
  read_call payload n = Some call -> tc_name call <> EmptyString /\ tc_id call <> EmptyString.
Proof.
  unfold read_tool_call. destruct (parse_tool_call_payload _ _) as [value|]; [|done].
  unfold is_empty. case_bool_decide as Hn; [done|]. intros [= <-]; cbn. split; [done|].
  destruct (json_str_at "id" value) as [id|]; cbn; [|done].
  by case_bool_decide.
Qed.

Lemma numbered_named n pieces :
  numbered n pieces ->
  Forall (fun call => tc_name call <> EmptyString /\ tc_id call <> EmptyString) (omap piece_call pieces).
Proof.
  revert n; induction pieces as [|[t|p c] pieces IH]; intros n; cbn; [constructor|eauto|].
  intros [Hc Hr]. constructor; eauto using read_tool_call_named.
Qed.

Lemma completion_loop_pieces fuel : forall cursor remaining calls,
  exists pieces,
    cursor = concat_str (piece_source <$> pieces) /\
    completion_loop from_str fuel cursor remaining calls
      = ((remaining +:+ concat_str (piece_kept <$> pieces))%string, calls ++ omap piece_call pieces) /\
    numbered (length calls) pieces.
Proof.
  assert (forall cursor remaining calls, exists pieces,
    cursor = concat_str (piece_source <$> pieces) /\
    ((remaining +:+ cursor)%string, calls) =
      ((remaining +:+ concat_str (piece_kept <$> pieces))%string, calls ++ omap piece_call pieces) /\
    numbered (length calls) pieces) as Hrest.
  { intros. exists [Kept cursor]; cbn. by rewrite string_app_nil_r, app_nil_r. }
  induction fuel as [|fuel IH]; intros cursor remaining calls; cbn [completion_loop]; [apply Hrest|].
  destruct (str_split_at TOOL_CALL_OPEN cursor) as [[before after]|] eqn:E1; [|apply Hrest].
  apply str_split_at_Some in E1 as ->.
  destruct (str_split_at TOOL_CALL_CLOSE after) as [[payload rest]|] eqn:E2; [|apply Hrest].
  apply str_split_at_Some in E2 as ->.
  destruct (read_call payload (length calls)) as [call|] eqn:E3.
  - destruct (IH rest (remaining +:+ before)%string (calls ++ [call])) as (ps & -> & -> & Hn).
    exists (Kept before :: Block payload call :: ps). cbn [fmap list_fmap concat_str foldr piece_source piece_kept omap list_omap piece_call numbered String.append].
    rewrite length_app, Nat.add_1_r in Hn. rewrite <-app_assoc, !string_app_assoc. done.
  - destruct (IH rest (remaining +:+ before +:+ TOOL_CALL_OPEN +:+ payload +:+ TOOL_CALL_CLOSE)%string calls)
      as (ps & -> & -> & Hn).
    exists (Kept (before +:+ TOOL_CALL_OPEN +:+ payload +:+ TOOL_CALL_CLOSE)%string :: ps).
    cbn [fmap list_fmap concat_str foldr piece_source piece_kept omap list_omap piece_call numbered].
    by rewrite !string_app_assoc.
Qed.

(** Nothing of a reply is lost or invented. The reply is cut into consecutive pieces:
    text, and delimited blocks that were read as calls. The text handed on is the trimmed
    concatenation of the text pieces, the calls are those of the blocks in order, each
    is what its payload reads as, and each has a name and an id; a block that cannot be
    read, or is never closed, stays text. *)
Theorem completion_loses_nothing text :
  exists pieces,
    text = concat_str (piece_source <$> pieces) /\
    parse_completion from_str text
      = mkParsedCompletion (str_trim (concat_str (piece_kept <$> pieces))) (omap piece_call pieces) /\
    numbered 0 pieces /\
    Forall (fun call => tc_name call <> EmptyString /\ tc_id call <> EmptyString) (omap piece_call pieces).
Proof.
  destruct (completion_loop_pieces (String.length text) text EmptyString []) as (ps & H & Hl & Hn).
  exists ps. unfold parse_completion. rewrite Hl. eauto using numbered_named.
Qed.

(** The payload is this JSON document, as it stands or once the raw control characters in
    its strings are escaped. *)
Definition is_document (payload : string) (value : json) : Prop :=
  from_str (str_trim payload) = Ok value \/
  is_ok (from_str (str_trim payload)) = false /\ from_str (escape_control_characters_in_strings (str_trim payload)) = Ok value.

(** The document asks for this call: the tool it names, its input, or an empty object when
    it has none, under its own id, or under the number of the call in the reply when it has
    none. *)
Definition asks_for (number : nat) (value : json) (call : ToolCall) : Prop :=
  json_get "name" value = Some (JStr (tc_name call)) /\ tc_name call <> EmptyString /\
  (json_get "id" value = Some (JStr (tc_id call)) /\ tc_id call <> EmptyString \/
   (forall id, json_get "id" value = Some (JStr id) -> id = EmptyString) /\
     tc_id call = ("toolu_" +:+ pretty (N.of_nat number))%string) /\
  (json_get "input" value = Some (tc_input call) \/ json_get "input" value = None /\ tc_input call = JObj []).

Lemma document_parsed payload value :
  is_document payload value -> parse_tool_call_payload from_str (str_trim payload) = Ok value.
Proof.
  unfold is_document, parse_tool_call_payload. intros [-> | [Hs He]]; [done|].
  destruct (from_str (str_trim payload)) as [|e] eqn:E; [done|].
  destruct (String.eqb_spec (escape_control_characters_in_strings (str_trim payload)) (str_trim payload)) as [Es|_]; [congruence|by rewrite He].
Qed.

Lemma asked_call payload value n call :
  is_document payload value -> asks_for (S n) value call -> read_call payload n = Some call.
Proof.
  intros Hd%document_parsed (Hname & Hn & Hid & Hin). unfold read_tool_call, json_str_at. rewrite Hd, Hname. cbn.
  unfold is_empty. rewrite bool_decide_eq_false_2 by done. destruct call as [i name input]; cbn in *.
  assert (Hinput : default (JObj []) (json_get "input" value) = input) by (by destruct Hin as [-> | [-> ->]]). rewrite Hinput, Nat.add_1_r.
  destruct Hid as [[-> Hi] | [Hi ->]]; cbn; [by rewrite bool_decide_eq_false_2|].
  destruct (json_get "id" value) as [[]|]; cbn; try done. by rewrite (Hi _ eq_refl).
Qed.

(** A reply as a model is asked to write it: plain text and blocks that hold a document that
    asks for a call. *)
Fixpoint written (n : nat) (segments : list (string * string * ToolCall)) (tail : string) : Prop :=
  match segments with
  | [] => str_split_at TOOL_CALL_OPEN tail = None
  | (t, payload, call) :: rest =>
      str_split_at TOOL_CALL_OPEN t = None /\ str_split_at TOOL_CALL_CLOSE payload = None /\
      (exists value, is_document payload value /\ asks_for (S n) value call) /\ written (S n) rest tail
  end.

Fixpoint reply_of (segments : list (string * string * ToolCall)) (tail : string) : string :=
  match segments with
  | [] => tail
  | (t, payload, _) :: rest =>
      (t +:+ TOOL_CALL_OPEN +:+ payload +:+ TOOL_CALL_CLOSE +:+ reply_of rest tail)%string
  end.

Lemma reply_of_length segments tail : (length segments <= String.length (reply_of segments tail))%nat.
Proof.
  induction segments as [|[[t p] c] l IH]; cbn [reply_of length]; [lia|].
  rewrite !string_length_app. cbn [TOOL_CALL_CLOSE String.length]. lia.
Qed.

Lemma completion_loop_written segments tail : forall fuel remaining calls,
  (length segments <= fuel)%nat -> written (length calls) segments tail ->
  completion_loop from_str fuel (reply_of segments tail) remaining calls
    = ((remaining +:+ concat_str ((fun s => s.1.1) <$> segments) +:+ tail)%string,
       calls ++ (snd <$> segments)).
Proof.
  induction segments as [|[[t p] c] l IH]; intros fuel remaining calls Hf Hw.
  - cbn [reply_of concat_str foldr fmap list_fmap String.append]. rewrite app_nil_r.
    cbn in Hw. destruct fuel; cbn [completion_loop]; by rewrite ?Hw.
  - destruct Hw as (Ht & Hp & (value & Hd & Ha) & Hw). pose proof (asked_call _ _ _ _ Hd Ha) as Hr. destruct fuel as [|fuel]; cbn [length] in Hf; [lia|].
    cbn [reply_of completion_loop].
    rewrite (str_split_at_first _ _ _ open_tag_starts_once Ht).
    rewrite (str_split_at_first _ _ _ close_tag_starts_once Hp), Hr.
    rewrite IH; [|lia|by rewrite length_app, Nat.add_1_r].
    cbn [fmap list_fmap concat_str foldr snd fst]. by rewrite <-app_assoc, !string_app_assoc.
Qed.

(** C35. A reply written as the primer asks is read back whole: text without an opening
    tag, and blocks whose payload has no closing tag and is a JSON document that names a
    tool, come out as exactly the calls these documents ask for, in order, and the trimmed
    text around them. A call has the name and the input of its document, and its id, or a
    number in the reply when it has none. *)
Theorem written_reply_reads_back segments tail (Hw : written 0 segments tail) :
  parse_completion from_str (reply_of segments tail)
    = mkParsedCompletion (str_trim (concat_str ((fun s => s.1.1) <$> segments) +:+ tail)%string)
        (snd <$> segments).
Proof.
  unfold parse_completion. rewrite completion_loop_written; [done|apply reply_of_length|done].
Qed.
End Completion.

(** One payload read as a call: a parser that knows only this one text. *)
Definition example_payload : string :=
  let q := char_str 34 in ("{" +:+ q +:+ "name" +:+ q +:+ ":" +:+ q +:+ "ls" +:+ q +:+ "," +:+ q +:+ "input" +:+ q
    +:+ ":{" +:+ q +:+ "path" +:+ q +:+ ":" +:+ q +:+ "/" +:+ q +:+ "}}")%string.
Definition example_document : json := jobj [("name", JStr "ls"); ("input", jobj [("path", JStr "/")])]%string.
Definition example_parser (s : string) : result json string :=
  if String.eqb s example_payload then Ok example_document else Err "no"%string.
Definition example_call (id : string) : ToolCall := mkToolCall id "ls" (jobj [("path", JStr "/")])%string.

Lemma written_reply_reads_back_witness :
  parse_completion example_parser
    (reply_of [("I look. "%string, example_payload, example_call "toolu_1"); (" Again."%string, example_payload, example_call "toolu_2")]
       " Then wait.")
    = mkParsedCompletion "I look.  Again. Then wait." [example_call "toolu_1"; example_call "toolu_2"].
Proof.
  apply (written_reply_reads_back example_parser
           [("I look. "%string, example_payload, example_call "toolu_1"); (" Again."%string, example_payload, example_call "toolu_2")]
           " Then wait.").
  repeat split; try reflexivity; exists example_document; (split; [left; reflexivity|]);
    (split; [reflexivity|split; [discriminate|split; [right; split; [intros id Hi; discriminate Hi|reflexivity]|left; reflexivity]]]).
Defined.

(** ** The advertised model ids *)

(** The id a class is advertised under. *)
Definition model_id (c : InstanceClass) : string :=
  match effort_argv c with
  | None => canonical_model c
  | Some effort => (canonical_model c +:+ "-" +:+ effort)%string
  end.

(** A class the pool tells its effort of, or one of a model without tiers. *)
Definition effort_decided (c : InstanceClass) (r : ResolvedModelEffort) : Prop :=
  is_Some (effort_argv c) \/ exists e, rme_entry r = Some e /\ me_efforts e = [].

Definition served (id : string) : option InstanceClass :=
  match resolve_pool_class (fst (split_model_and_effort id)) (snd (split_model_and_effort id)) with
  | Ok (class, _) => Some class
  | Err _ => None
  end.

Lemma advertised_served :
  Forall (fun id => model_id <$> served id = Some id) messages_model_ids /\ NoDup messages_model_ids.
Proof. apply (bool_decide_unpack _). vm_compute. exact I. Qed.

Lemma class_id_of_entry e a :
  e ∈ MODEL_TABLE ->
  (a ∈ me_efforts e -> (me_canonical e +:+ "-" +:+ ae_argv a)%string ∈ messages_model_ids) /\
  (me_efforts e = [] -> me_canonical e ∈ messages_model_ids).
Proof.
  intros He. unfold messages_model_ids. split; intros Ha; apply list_elem_of_bind; exists e; split; try done.
  - destruct (me_efforts e) eqn:E; [by apply not_elem_of_nil in Ha|]. apply list_elem_of_fmap. eauto.
  - rewrite Ha. apply list_elem_of_singleton. done.
Qed.

(** The advertised model list and the pool agree: the ids are distinct, each one
    splits into a model and an effort that the pool resolves to the class advertised
    under that very id, and every class the pool can resolve with its effort decided is
    in the list. *)
Theorem advertised_models_are_served :
  NoDup messages_model_ids /\
  (forall id, id ∈ messages_model_ids -> exists class, served id = Some class /\ model_id class = id) /\
  (forall model effort class resolved,
     resolve_pool_class model effort = Ok (class, resolved) -> effort_decided class resolved ->
     model_id class ∈ messages_model_ids).
Proof.
  destruct advertised_served as [Hall Hnd]. split_and!; [done| |].
  - intros id Hid. rewrite Forall_forall in Hall. specialize (Hall id Hid).
    destruct (served id) as [class|]; [|done]. injection Hall as Hall. eauto.
  - intros model effort class resolved. unfold resolve_pool_class, resolve_model_effort, resolve_named.
    destruct (lookup_model model) as [e|] eqn:El; [|by destruct effort].
    apply lookup_model_Some in El as [He _].
    destruct effort as [l|]; cbn.
    + destruct (entry_admit e l) as [a|] eqn:Ea; [|by destruct (bool_decide _)].
      apply find_first_Some in Ea as [Ha _]. intros [= <- <-] _. by apply (class_id_of_entry e a).
    + intros [= <- <-] [[? [=]]|(e' & [= <-] & Hn)]. by apply (class_id_of_entry e LOW).
Qed.

Lemma advertised_models_are_served_witness :
  exists class, served "claude-opus-5-xhigh" = Some class /\ model_id class = "claude-opus-5-xhigh"%string.
Proof.
  apply (proj1 (proj2 advertised_models_are_served)).
  apply (bool_decide_unpack _). vm_compute. exact I.
Defined.

(** ** What the facade types *)

Lemma utf8_decode_ascii_prefix p l :
  Forall (fun b => b < 128) p -> utf8_decode (p ++ l) = (app p) <$> utf8_decode l.
Proof.
  induction 1 as [|a p Ha _ IH]; cbn [app utf8_decode]; [by destruct (utf8_decode l)|].
  rewrite (proj2 (N.ltb_lt a 128) Ha), IH. by destruct (utf8_decode l).
Qed.

Lemma utf8_decode_snoc n : forall l b, (length l <= n)%nat -> b < 128 ->
  utf8_decode (l ++ [b]) = (fun t => t ++ [b]) <$> utf8_decode l.
Proof.
  induction n as [|n IH]; intros l b Hl Hb;
    (destruct l as [|a l]; [cbn; by rewrite (proj2 (N.ltb_lt b 128) Hb)|cbn in Hl; try lia]).
  assert (is_cont b = false) as Hc.
  { unfold is_cont, in_range. apply andb_false_iff. left. apply N.leb_gt. lia. }
  cbn [app utf8_decode]. destruct (a <? 128); [rewrite IH by (done || lia); by destruct (utf8_decode l)|].
  destruct l as [|x l]; cbn [app]; [by rewrite Hc, andb_false_r|].
  destruct (in_range 194 223 a && is_cont x).
  { rewrite IH by (done || cbn in *; lia). by destruct (utf8_decode l). }
  destruct l as [|y l]; cbn [app]; [by rewrite Hc, andb_false_r|].
  destruct (_ && is_cont y).
  { rewrite IH by (done || cbn in *; lia). by destruct (utf8_decode l). }
  destruct l as [|z l]; cbn [app]; [by rewrite Hc, andb_false_r|].
  destruct (_ && is_cont z); [|done].
  rewrite IH by (done || cbn in *; lia). by destruct (utf8_decode l).
Qed.

Lemma utf8_decode_ascii_suffix q l :
  Forall (fun b => b < 128) q -> utf8_decode (l ++ q) = (fun t => t ++ q) <$> utf8_decode l.
Proof.
  revert l; induction q as [|b q IH]; intros l Hq.
  - rewrite app_nil_r. destruct (utf8_decode l); cbn; [by rewrite app_nil_r|done].
  - apply Forall_cons in Hq as [Hb Hq]. rewrite cons_middle, app_assoc, IH by done.
    rewrite (utf8_decode_snoc (length l)) by done. destruct (utf8_decode l); cbn; [|done].
    by rewrite <-app_assoc.
Qed.

(** A string between two ASCII ones. *)
Lemma chars_between pre s post :
  Forall (fun b => b < 128) (bytes pre) -> Forall (fun b => b < 128) (bytes post) ->
  is_Some (utf8_decode (bytes (pre +:+ s +:+ post)%string)) ->
  chars (pre +:+ s +:+ post)%string = bytes pre ++ chars s ++ bytes post.
Proof.
  intros Hpre Hpost. unfold chars. rewrite !bytes_app, utf8_decode_ascii_prefix by done.
  rewrite utf8_decode_ascii_suffix by done.
  destruct (utf8_decode (bytes s)); cbn; [done|by intros []].
Qed.

Lemma sanitize_controls t c : c ∈ t ≫= sanitize_char -> is_control c = true -> c = NEWLINE.
Proof.
  rewrite list_elem_of_bind. intros (d & Hc & _) Hctl. revert Hc. unfold sanitize_char.
  destruct (d =? 9); [rewrite !elem_of_cons, elem_of_nil; naive_solver|].
  destruct (d =? 10); [by rewrite list_elem_of_singleton|].
  destruct (is_control d) eqn:E; [by rewrite elem_of_nil|].
  rewrite list_elem_of_singleton. congruence.
Qed.

(** What unicode normalization form C guarantees at ASCII boundaries, and that it
    composes nothing into a control character. *)
Class NfcLaws (nfc : list N -> list N) : Prop := {
  nfc_boundary : forall t c u, c < 128 -> nfc (t ++ c :: u) = nfc t ++ nfc (c :: u);
  nfc_ascii : forall t, Forall (fun c => c < 128) t -> nfc t = t;
  nfc_controls : forall t c, c ∈ nfc t -> is_control c = true -> c ∈ t;
}.

#[global] Instance identity_nfc_laws : NfcLaws (fun t => t).
Proof. split; auto. Qed.

Section Typed.
Context (nfc : list N -> list N) `{!NfcLaws nfc}.

(** A text whose first two characters and last two are ASCII keeps them. *)
Lemma nfc_between c d t e f :
  c < 128 -> d < 128 -> e < 128 -> f < 128 ->
  nfc (c :: d :: t ++ [e; f]) = c :: nfc (d :: t) ++ [e; f].
Proof.
  intros. change (c :: d :: t ++ [e; f]) with ([c] ++ d :: t ++ [e; f]).
  rewrite (nfc_boundary (nfc := nfc)), (nfc_ascii (nfc := nfc) [c]) by (done || by repeat constructor).
  change (d :: t ++ [e; f]) with ((d :: t) ++ [e; f]).
  rewrite (nfc_boundary (nfc := nfc)) by done. by rewrite (nfc_ascii (nfc := nfc) [e; f]) by by repeat constructor.
Qed.

(** The prompts of the facade open with a capital letter and end in a full stop and a
    newline; such a prompt without other controls is refused for its size only. *)
Lemma framed_prompt_only_too_long c d t :
  c ∈ [72; 83; 84] -> d < 128 -> (forall x, x ∈ c :: d :: t -> is_control x = true -> x = NEWLINE) ->
  let p := c :: d :: t ++ [46; 10] in
  let v := normalize_prompt nfc p in
  validate_prompt nfc p =
    if MAX_PROMPT_BYTES <? text_len v
    then Err (ErrorBody_new InvalidConfig ("prompt exceeds the " +:+ pretty MAX_PROMPT_BYTES +:+ "-byte service limit")%string)
    else Ok v.
Proof.
  intros Hc Hd Hctl p v.
  assert (c < 128) by (set_unfold in Hc; naive_solver lia).
  assert (CARRIAGE_RETURN ∉ p) as Hcr.
  { intros H13. change p with ((c :: d :: t) ++ [46; 10]) in H13. apply elem_of_app in H13 as [H13|H13].
    - by specialize (Hctl _ H13 eq_refl).
    - by set_unfold in H13; naive_solver. }
  assert (v = c :: nfc (d :: t) ++ [46]) as Hv.
  { unfold v, normalize_prompt. rewrite replace_crlf_id, replace_cr_id by done.
    unfold unwrap_pasted_content_envelope. cbn [strip_prefix ENVELOPE_OPEN app p].
    rewrite (proj2 (N.eqb_neq 10 c)) by (set_unfold in Hc; naive_solver lia).
    unfold p. rewrite nfc_between by done. unfold composer_submitted_text, trim_end_matches.
    rewrite app_comm_cons, reverse_app. change (reverse [46; 10]) with [10; 46].
    cbn [app trim_start_matches].
    change (is_trimmed_from_the_end 10) with true. change (is_trimmed_from_the_end 46) with false.
    cbv iota. by rewrite reverse_cons, reverse_involutive. }
  destruct (N.ltb_spec MAX_PROMPT_BYTES (text_len v)) as [Hlen|Hlen].
  - unfold validate_prompt. fold v. rewrite bool_decide_eq_false_2 by (rewrite Hv; done).
    by rewrite (proj2 (N.ltb_lt _ _) Hlen).
  - apply validate_prompt_accepts. fold v. split_and!; [by rewrite Hv|done| | |].
    + intros x Hx Hxc. rewrite Hv in Hx. apply elem_of_cons in Hx as [->|[Hx|Hx]%elem_of_app].
      * apply Hctl; [by left|done].
      * apply Hctl; [|done]. right. by eapply nfc_controls.
      * apply list_elem_of_singleton in Hx as ->. done.
    + intros pre x post Heq Hpre. rewrite Hv in Heq. set_unfold in Hc.
      destruct pre as [|y pre]; cbn in Heq; injection Heq as <- _; [set_unfold; naive_solver lia|].
      cbn in Hpre. exfalso. destruct_or? Hc; try rewrite Hc in Hpre; done.
    + rewrite Hv, app_comm_cons, last_snoc. done.
Qed.

(** The text of a prompt between its first two and last two characters. *)
Lemma sanitize_framed c d rest e f :
  is_control c = false -> is_control d = false -> is_control e = false ->
  f = NEWLINE ->
  (c :: d :: rest ++ [e; f]) ≫= sanitize_char = c :: d :: (rest ≫= sanitize_char) ++ [e; f].
Proof.
  assert (forall x, is_control x = false -> sanitize_char x = [x]) as Hk.
  { intros x Hx. unfold sanitize_char. rewrite Hx.
    destruct (N.eqb_spec x 9) as [->|]; [done|]. by destruct (N.eqb_spec x 10) as [->|]. }
  intros Hc Hd He ->. rewrite !bind_cons, bind_app, !Hk by done. cbn [mbind list_bind app].
  by rewrite (Hk e He).
Qed.

(** A string the facade may type: how it opens and how it ends. *)
Definition framed (s : string) : Prop :=
  exists pre mid, pre ∈ ["HI"; "SY"; "TO"]%string /\ s = (pre +:+ mid +:+ "." +:+ NL)%string.

Definition continues (s : string) : Prop := exists mid, s = (mid +:+ CONTINUE_LINE)%string.

Lemma continues_app a s : continues s -> continues (a +:+ s)%string.
Proof. intros [mid ->]. exists (a +:+ mid)%string. by rewrite string_app_assoc. Qed.

Lemma continues_line : continues CONTINUE_LINE.
Proof. by exists EmptyString. Qed.

Lemma framed_by pre s : pre ∈ ["HI"; "SY"; "TO"]%string -> continues s -> framed (pre +:+ s)%string.
Proof.
  intros Hpre [mid ->].
  exists pre, (mid +:+ "Continue as the assistant. Either answer in plain text or emit tool_call blocks")%string.
  split; [done|]. by rewrite !string_app_assoc.
Qed.

Lemma framed_only_too_long s :
  framed s -> is_Some (utf8_decode (bytes s)) ->
  let v := normalize_prompt nfc (sanitize_prompt s) in
  validate_prompt nfc (sanitize_prompt s) =
    if MAX_PROMPT_BYTES <? text_len v
    then Err (ErrorBody_new InvalidConfig ("prompt exceeds the " +:+ pretty MAX_PROMPT_BYTES +:+ "-byte service limit")%string)
    else Ok v.
Proof.
  intros (pre & mid & Hpre & ->) Hutf8. unfold sanitize_prompt.
  rewrite chars_between; [|set_unfold in Hpre; destruct_or? Hpre; subst; by repeat constructor
                          |by repeat constructor|done].
  set (t := chars mid). change (bytes ("." +:+ NL)) with [46; 10].
  assert (forall c d, c ∈ [72; 83; 84] -> is_control d = false -> d < 128 -> bytes pre = [c; d] ->
    exists u, (bytes pre ++ t ++ [46; 10]) ≫= sanitize_char = c :: d :: u ++ [46; 10] /\
      (forall x, x ∈ c :: d :: u -> is_control x = true -> x = NEWLINE)) as Hgo.
  { intros c d Hc Hd Hd' ->. exists (t ≫= sanitize_char).
    assert (is_control c = false) as Hcc by (set_unfold in Hc; destruct_or? Hc; by subst).
    split; [by apply sanitize_framed|]. intros x Hx Hxc.
    apply elem_of_cons in Hx as [->|[->|Hx]%elem_of_cons]; [congruence|congruence|].
    by eapply sanitize_controls. }
  set_unfold in Hpre. destruct_or? Hpre; subst pre;
    (edestruct Hgo as (u & -> & Hu); [| | |reflexivity|]; [set_solver|done|done|]);
    (apply framed_prompt_only_too_long; [set_solver|done|done]).
Qed.

Variable to_string : json -> string.
Variable to_string_pretty : list json -> result string string.

Lemma history_framed rest : framed ("HISTORY:" +:+ NL +:+ rest +:+ CONTINUE_LINE)%string.
Proof.
  apply (framed_by "HI" ("STORY:" +:+ NL +:+ rest +:+ CONTINUE_LINE)%string); [set_solver|].
  auto using continues_app, continues_line.
Qed.

Lemma flatten_prompt_framed body out :
  flatten_prompt to_string to_string_pretty body = Ok out -> framed out.
Proof.
  unfold flatten_prompt. destruct (json_get "messages" body ≫= as_array) as [messages|]; [|done].
  cbn [ok_or result_bind]. set (rest := concat_str _). 
  set (tools := match json_get "tools" body ≫= as_array with
                | Some (t :: ts) => tools_section to_string_pretty (t :: ts) | _ => EmptyString end).
  set (history := ("HISTORY:" +:+ _)%string).
  assert (continues history) as Hh by (unfold history; auto 6 using continues_app, continues_line).
  unfold is_empty. case_bool_decide; intros <-%Ok_inj.
  - change (framed (tools +:+ history)%string).
    unfold tools. destruct (json_get "tools" body ≫= as_array) as [[|tool ts]|]; try apply history_framed.
    unfold tools_section. rewrite (string_app_assoc "TOOLS:").
    match goal with |- framed (_ +:+ ?x)%string => apply (framed_by "TO" ("OLS:" +:+ x)%string) end;
      [set_solver|auto using continues_app].
  - rewrite (string_app_assoc "SYSTEM:").
    match goal with |- framed (_ +:+ ?x)%string => apply (framed_by "SY" ("STEM:" +:+ x)%string) end;
      [set_solver|auto using continues_app].
Qed.

(** What the facade has typed for a request: the whole conversation, or messages of it. *)
Definition typed_for (body : json) (s : string) : Prop :=
  flatten_prompt to_string to_string_pretty body = Ok s \/
  exists messages, s = continuation_text to_string messages.

(** What the facade types into a cell is never refused for what it says. Whatever the
    request carries, the primer made of it and the continuation made of its new messages
    are accepted by the composer's validation once sanitized, unless the normalized
    prompt is over the size limit; then that is the refusal. *)
Theorem typed_prompts_are_refused_only_for_size body s
  (Htyped : typed_for body s) (Hutf8 : is_Some (utf8_decode (bytes s))) :
  let v := normalize_prompt nfc (sanitize_prompt s) in
  validate_prompt nfc (sanitize_prompt s) =
    if MAX_PROMPT_BYTES <? text_len v
    then Err (ErrorBody_new InvalidConfig ("prompt exceeds the " +:+ pretty MAX_PROMPT_BYTES +:+ "-byte service limit")%string)
    else Ok v.
Proof.
  apply framed_only_too_long; [|done].
  destruct Htyped as [H|[messages ->]]; [by eapply flatten_prompt_framed|apply history_framed].
Qed.
End Typed.

(** One user message with a tab, an escape character and a mode prefix in it. *)
Definition example_body : json :=
  jobj [("messages", JArr [jobj [("role", JStr "user");
          ("content", JStr ("/clear" +:+ char_str 9 +:+ char_str 27 +:+ "now"))]])]%string.

Lemma typed_prompts_are_refused_only_for_size_witness :
  is_ok (validate_prompt (fun t => t) (sanitize_prompt
    (match flatten_prompt (fun _ => "null"%string) (fun _ => Err "unused"%string) example_body with
     | Ok s => s | Err _ => EmptyString end))) = true.
Proof.
  rewrite (typed_prompts_are_refused_only_for_size (fun t => t) (fun _ => "null"%string)
             (fun _ => Err "unused"%string) example_body).
  - vm_compute. reflexivity.
  - left. vm_compute. reflexivity.
  - vm_compute. eauto.
Defined.
