(* ===== verification/Pool.v ===== *)
(** * The pool's state and the code that runs under its lock

    [crates/service/src/pool/mod.rs]: [PoolState] with its helpers, the pure
    bookkeeping of [Pool] ([transition_locked], [publish_idle_locked],
    [reserve_locked], the four admission rules, the sweep and shutdown scans) and
    the checker [Pool::check_invariants]. The mutex is never held across an await,
    so each critical section is one function of the state (and of the clock read
    inside it). The data that crosses the host seam is from [pool/host.rs].

    A [BTreeMap] or [BTreeSet] is a [gmap] or [gset]; where the code iterates over
    one, the keys are sorted. *)

From S2P Require Import Prelude Text Protocol Account Class Machine Refusal Config Instance.

(** ** The host seam *)

Record MintSpec := mkMintSpec {
  ms_slot : SlotId;
  ms_epoch : Epoch;
  ms_class : InstanceClass;
  ms_root : Path;
  ms_cwd : Path;
  ms_claude_executable : Path;
  ms_securestorage_dir : string;
  ms_system_prompt : list N;
  ms_instance_idle_ttl_ms : N;
}.

Record HostTurn := mkHostTurn {
  ht_text : string;
  ht_reported_model : option string;
  ht_stop_reason : option StopReason;
  ht_usage : UsageBreakdown;
  ht_sidechain_rows : option N;
}.

Record HostFailure := mkHostFailure {
  hf_error : ErrorBody;
  process_may_survive : bool;
}.

Definition reaped (error : ErrorBody) : HostFailure := mkHostFailure error false.
Definition possibly_live (error : ErrorBody) : HostFailure := mkHostFailure error true.

Record ClearFailure := mkClearFailure {
  cf_error : ErrorBody;
  clear_not_submitted : bool;
  preamble_mismatch : option string;
}.

Record Destroyed := mkDestroyed { process_reaped : bool }.

(** ** The state behind the lock *)

Record PoolState := mkPoolState {
  instances : gmap SlotId Instance;
  idle : gmap InstanceClass (gset SlotId);
  next_epoch : gmap SlotId Epoch;
  leaked_slots : gset SlotId;
  rewarming : gset InstanceClass;
  pending_leases : gset string;
  protected_leases : gset string;
  halted : option string;
  shutting_down : bool;
}.

Definition PoolState_new : PoolState := mkPoolState ∅ ∅ ∅ ∅ ∅ ∅ ∅ None false.

Definition set_instances (m : gmap SlotId Instance) (st : PoolState) : PoolState :=
  mkPoolState m (idle st) (next_epoch st) (leaked_slots st) (rewarming st) (pending_leases st)
    (protected_leases st) (halted st) (shutting_down st).
Definition set_idle (m : gmap InstanceClass (gset SlotId)) (st : PoolState) : PoolState :=
  mkPoolState (instances st) m (next_epoch st) (leaked_slots st) (rewarming st) (pending_leases st)
    (protected_leases st) (halted st) (shutting_down st).
Definition set_next_epoch (m : gmap SlotId Epoch) (st : PoolState) : PoolState :=
  mkPoolState (instances st) (idle st) m (leaked_slots st) (rewarming st) (pending_leases st)
    (protected_leases st) (halted st) (shutting_down st).
Definition set_leaked (s : gset SlotId) (st : PoolState) : PoolState :=
  mkPoolState (instances st) (idle st) (next_epoch st) s (rewarming st) (pending_leases st)
    (protected_leases st) (halted st) (shutting_down st).
Definition set_rewarming (s : gset InstanceClass) (st : PoolState) : PoolState :=
  mkPoolState (instances st) (idle st) (next_epoch st) (leaked_slots st) s (pending_leases st)
    (protected_leases st) (halted st) (shutting_down st).
Definition set_pending (s : gset string) (st : PoolState) : PoolState :=
  mkPoolState (instances st) (idle st) (next_epoch st) (leaked_slots st) (rewarming st) s
    (protected_leases st) (halted st) (shutting_down st).
Definition set_protected (s : gset string) (st : PoolState) : PoolState :=
  mkPoolState (instances st) (idle st) (next_epoch st) (leaked_slots st) (rewarming st)
    (pending_leases st) s (halted st) (shutting_down st).
Definition set_halted (h : option string) (st : PoolState) : PoolState :=
  mkPoolState (instances st) (idle st) (next_epoch st) (leaked_slots st) (rewarming st)
    (pending_leases st) (protected_leases st) h (shutting_down st).
Definition set_shutting_down (b : bool) (st : PoolState) : PoolState :=
  mkPoolState (instances st) (idle st) (next_epoch st) (leaked_slots st) (rewarming st)
    (pending_leases st) (protected_leases st) (halted st) b.

(** Field updates of one instance. *)
Definition with_conversation (c : option string) (i : Instance) : Instance :=
  mkInstance (slot i) (epoch i) (class i) (prompt_fingerprint i) (paths i) (handle i)
    (mint_in_flight i) (turns_started i) (idle_since_ms i) (state i) (last_transition i)
    (was_quarantined i) c.
Definition with_idle_since (now : N) (i : Instance) : Instance :=
  mkInstance (slot i) (epoch i) (class i) (prompt_fingerprint i) (paths i) (handle i)
    (mint_in_flight i) (turns_started i) now (state i) (last_transition i)
    (was_quarantined i) (conversation_id i).
Definition with_mint (h : option InstanceHandle) (in_flight : bool) (i : Instance) : Instance :=
  mkInstance (slot i) (epoch i) (class i) (prompt_fingerprint i) (paths i) h
    in_flight (turns_started i) (idle_since_ms i) (state i) (last_transition i)
    (was_quarantined i) (conversation_id i).

(** Iteration order. *)
Definition slots_in_order (s : gset SlotId) : list SlotId := merge_sort N.le (elements s).
Definition classes_in_order (st : PoolState) : list InstanceClass :=
  merge_sort class_le (elements (dom (idle st))).
Definition live_slots (st : PoolState) : list SlotId := slots_in_order (dom (instances st)).
(** [instances.values()], in slot order. *)
Definition entries (st : PoolState) : list Instance :=
  omap (fun s => instances st !! s) (live_slots st).

Definition live (st : PoolState) : N := u32_of_len (size (instances st)).

Definition buckets (st : PoolState) : BucketCounts :=
  foldl (fun counts i => bc_record counts (state i)) BucketCounts_default (entries st).

Definition idle_count (st : PoolState) : N :=
  u32_of_len (sum_list ((fun c => match idle st !! c with Some m => size m | None => 0%nat end)
                          <$> classes_in_order st)).

Definition capacity (st : PoolState) (pool_size : N) : N :=
  pool_size - u32_of_len (size (leaked_slots st)).

Definition pressure (st : PoolState) (pool_size : N) : PoolPressure :=
  {| configured_instances := pool_size;
     usable_instances := capacity st pool_size;
     pp_counts := buckets st;
     pp_leaked := u32_of_len (size (leaked_slots st)) |}.

Definition free_slot (st : PoolState) (pool_size : N) : option SlotId :=
  find_first (fun s => negb (bool_decide (is_Some (instances st !! s)))
                       && negb (bool_decide (s ∈ leaked_slots st)))
    (N.of_nat <$> seq 0 (N.to_nat pool_size)).

Definition take_epoch (st : PoolState) (slot : SlotId) : Epoch * PoolState :=
  let current := default 0 (next_epoch st !! slot) in
  (current, set_next_epoch (<[slot := saturating_add U64_MAX current 1]> (next_epoch st)) st).

Definition remove_from_idle (st : PoolState) (class : InstanceClass) (slot : SlotId) : PoolState :=
  match idle st !! class with
  | None => st
  | Some members =>
      let members := members ∖ {[slot]} in
      if bool_decide (members = ∅) then set_idle (delete class (idle st)) st
      else set_idle (<[class := members]> (idle st)) st
  end.

(** [instances.get(slot).map_or(u64::MAX, |i| i.idle_since_ms)]. *)
Definition idle_key (st : PoolState) (s : SlotId) : N :=
  match instances st !! s with Some i => idle_since_ms i | None => U64_MAX end.

Definition lru_of (st : PoolState) (class : InstanceClass) : option SlotId :=
  members ← idle st !! class;
  min_by_key (idle_key st) (slots_in_order members).

(** ** Transitions under the lock *)

Inductive TransitionRefusal :=
| NoSuchSlot (slot : SlotId)
| Illegal (e : IllegalTransition)
| Invariant (v : InvariantViolation).

Definition transition_refusal_display (r : TransitionRefusal) : string :=
  match r with
  | NoSuchSlot slot => ("slot " +:+ pretty slot +:+ " is not live")%string
  | Illegal e => illegal_transition_message e
  | Invariant v => violation_display v
  end.

Definition internal (message : string) : ErrorBody :=
  with_details (jobj [("violation", JStr "path_b_pool_internal")]%string)
    (ErrorBody_new Internal message).

Definition counts_a_turn (t : Transition) : bool :=
  match t with CheckOut | ResumeLease => true | _ => false end.
Definition ends_conversation (t : Transition) : bool :=
  match t with
  | ReleaseLease | ShutdownDrain | TurnNotDelivered | ResponseDelivered => true
  | _ => false
  end.

(** The instance a transition would leave behind, before it is checked. *)
Definition candidate_of (i : Instance) (t : Transition) (next : InstanceState) : Instance :=
  mkInstance (slot i) (epoch i) (class i) (prompt_fingerprint i) (paths i) (handle i)
    (mint_in_flight i)
    (if counts_a_turn t then saturating_add U32_MAX (turns_started i) 1 else turns_started i)
    (idle_since_ms i) next (Some t)
    (was_quarantined i || bool_decide (next = Quarantined))
    (if ends_conversation t then None else conversation_id i).

Definition is_idle (s : InstanceState) : bool := bool_decide (s = Idle).

Section Locked.
Variable cfg : PoolConfig.

Definition transition_locked (st : PoolState) (slot : SlotId) (t : Transition)
  : result (InstanceState * PoolState) TransitionRefusal :=
  match instances st !! slot with
  | None => Err (NoSuchSlot slot)
  | Some i =>
      let? next := map_err Illegal (step (state i) t) in
      let candidate := candidate_of i t next in
      match check_invariants candidate (recycle_turns cfg) (system_prompt_fingerprint cfg) with
      | Err v => Err (Invariant v)
      | Ok _ =>
          let leaving_idle := is_idle (state i) && negb (is_idle next) in
          let st' := set_instances (<[slot := candidate]> (instances st)) st in
          Ok (next, if leaving_idle then remove_from_idle st' (class candidate) slot else st')
      end
  end.

(** [let _ = self.transition_locked(..)]. *)
Definition try_transition (st : PoolState) (slot : SlotId) (t : Transition) : PoolState :=
  match transition_locked st slot t with Ok (_, st') => st' | Err _ => st end.

(** [self.transition_locked(..).map_err(|v| internal(&v.to_string()))]. *)
Definition transition_or_internal (st : PoolState) (slot : SlotId) (t : Transition)
  : result (InstanceState * PoolState) ErrorBody :=
  map_err (fun v => internal (transition_refusal_display v)) (transition_locked st slot t).

Definition publish_idle_locked (now : N) (st : PoolState) (slot : SlotId) (t : Transition)
  : bool * PoolState :=
  match transition_locked st slot t with
  | Err _ => (false, st)
  | Ok (_, st1) =>
      match instances st1 !! slot with
      | None => (false, st1)
      | Some i =>
          let st2 := set_instances (<[slot := with_idle_since now i]> (instances st1)) st1 in
          (true, set_idle (<[class i := {[slot]} ∪ default ∅ (idle st2 !! class i)]> (idle st2)) st2)
      end
  end.

Definition reserve_locked (st : PoolState) (slot : SlotId) (class : InstanceClass) : PoolState :=
  let '(e, st1) := take_epoch st slot in
  set_instances
    (<[slot := reserved slot e class (SlotPaths_new (parent_dir cfg) slot e)
                 (system_prompt_fingerprint cfg)]> (instances st1)) st1.

(** ** Admission: one read of the pool under one lock *)

Inductive Admission :=
| Warm (slot : SlotId)
| ReservedSlot (slot : SlotId)
| ColdSwap (slot : SlotId).

Record AdmissionRefusal := mkAdmissionRefusal {
  ar_body : ErrorBody;
  ar_coming_back : N;
}.

Definition final_refusal (body : ErrorBody) : AdmissionRefusal := mkAdmissionRefusal body 0.

(** The victim of a cold swap: the least recently idle of the classes' own least
    recently idle members. *)
Definition cold_swap_victim (st : PoolState) : option SlotId :=
  min_by_key (idle_key st) (omap (lru_of st) (classes_in_order st)).

(** The section answers the decision and whether a re-warm is to be spawned after
    the lock is dropped. *)
Definition admit_once (class : InstanceClass) (waited_ms : N) (may_wait_longer : bool)
    (st : PoolState) : result (Admission * bool) AdmissionRefusal * PoolState :=
  if shutting_down st then (Err (final_refusal daemon_shutting_down), st)
  else match halted st with
  | Some viol => (Err (final_refusal (pool_halted viol)), st)
  | None =>
      match lru_of st class with
      | Some slot =>
          match transition_or_internal st slot CheckOut with
          | Err e => (Err (final_refusal e), st)
          | Ok (_, st1) =>
              let should_rewarm :=
                negb (bool_decide (is_Some (idle st1 !! class)))
                && (live st1 <? capacity st1 (pool_size cfg))
                && negb (bool_decide (class ∈ rewarming st1)) in
              (Ok (Warm slot, should_rewarm),
               if should_rewarm then set_rewarming ({[class]} ∪ rewarming st1) st1 else st1)
          end
      | None =>
          match (if live st <? capacity st (pool_size cfg) then free_slot st (pool_size cfg)
                 else None) with
          | Some slot => (Ok (ReservedSlot slot, false), reserve_locked st slot class)
          | None =>
              let pressure := pressure st (pool_size cfg) in
              let defer_cold_swap := may_wait_longer && (0 <? pp_coming_back pressure) in
              match (if defer_cold_swap then None else cold_swap_victim st) with
              | Some slot =>
                  match transition_or_internal st slot ColdSwapVictim with
                  | Err e => (Err (final_refusal e), st)
                  | Ok (_, st1) => (Ok (ColdSwap slot, false), st1)
                  end
              | None =>
                  (Err (mkAdmissionRefusal (pool_exhausted pressure class waited_ms)
                          (pp_coming_back pressure)), st)
              end
          end
      end
  end.

Definition reclaim_locked (slot : SlotId) (class : InstanceClass) (waited_ms : N) (st : PoolState)
  : result unit ErrorBody * PoolState :=
  if bool_decide (is_Some (instances st !! slot)) then
    (Err (internal "a reclaimed slot was still occupied"), st)
  else if bool_decide (slot ∈ leaked_slots st) then
    (Err (reclaimed_slot_leaked (pressure st (pool_size cfg)) class waited_ms), st)
  else (Ok tt, reserve_locked st slot class).

(** ** The idle sweep *)

Definition idle_held (st : PoolState) (class : InstanceClass) : N :=
  match idle st !! class with Some members => u32_of_len (size members) | None => 0 end.

Definition expired (now : N) (i : Instance) : bool :=
  instance_idle_ttl_ms cfg <=? now - idle_since_ms i.

(** The inner [loop] of the sweep for one class. Every turn of the loop that does
    not break takes one member out of the idle set, so one more than the members
    is fuel enough ([sweep_class_from] in [PoolSweep]). *)
Fixpoint sweep_class (fuel : nat) (now : N) (class : InstanceClass) (st : PoolState)
    (victims : list SlotId) : list SlotId * PoolState :=
  match fuel with
  | 0%nat => (victims, st)
  | S fuel =>
      if idle_held st class <=? warm_floor cfg class then (victims, st)
      else match lru_of st class with
      | None => (victims, st)
      | Some slot =>
          if negb (match instances st !! slot with Some i => expired now i | None => false end)
          then (victims, st)
          else match transition_locked st slot IdleExpired with
          | Ok (_, st') => sweep_class fuel now class st' (victims ++ [slot])
          | Err _ => (victims, st)
          end
      end
  end.

Definition sweep_fuel (st : PoolState) (class : InstanceClass) : nat :=
  S (match idle st !! class with Some members => size members | None => 0%nat end).

Definition sweep_idle_locked (now : N) (st : PoolState) : list SlotId * PoolState :=
  foldl (fun '(victims, st) class => sweep_class (sweep_fuel st class) now class st victims)
    ([], st) (classes_in_order st).

(** Leased conversations past the time to live, unless the book pinned them. *)
Definition lease_due (now : N) (st : PoolState) (slot : SlotId) : bool :=
  match instances st !! slot with
  | Some i =>
      bool_decide (state i = Leased) && expired now i
      && negb (match conversation_id i with
               | Some id => bool_decide (id ∈ protected_leases st)
               | None => false
               end)
  | None => false
  end.

Definition sweep_leases_locked (now : N) (st : PoolState) : list SlotId * PoolState :=
  foldl (fun '(due, st) slot =>
           if lease_due now st slot then
             match transition_locked st slot ReleaseLease with
             | Ok (_, st') => (due ++ [slot], st')
             | Err _ => (due, st)
             end
           else (due, st))
    ([], st) (live_slots st).

(** ** The shutdown scan *)

(** One turn of the scan's loop. *)
Definition shutdown_visit (r : list SlotId * PoolState) (slot : SlotId) : list SlotId * PoolState :=
  let '(victims, st) := r in
  match instances st !! slot with
  | None => (victims, st)
  | Some i =>
      match shutdown_action (state i) with
      | Drain t =>
          match transition_locked st slot t with
          | Ok (_, st') => (victims ++ [slot], st')
          | Err _ => (victims, st)
          end
      | Finish => (victims ++ [slot], st)
      | Keep => (victims, st)
      end
  end.

Definition shutdown_locked (st : PoolState) : list SlotId * PoolState :=
  let st := set_shutting_down true st in
  foldl shutdown_visit ([], st) (live_slots st).

(** ** The pool-level invariants, as the code checks them *)

Inductive PoolInvariantViolation :=
| IdleSetHoldsNonIdle (slot : SlotId) (state : InstanceState)
| IdleInstanceNotPublished (slot : SlotId)
| IdleSetClassMismatch (slot : SlotId)
| OverCapacity (live capacity : N)
| LeakedSlotStillLive (slot : SlotId)
| InstanceViolation (v : InvariantViolation).

Definition pool_violation_display (v : PoolInvariantViolation) : string :=
  match v with
  | IdleSetHoldsNonIdle slot s =>
      "the idle set holds slot " +:+ pretty slot +:+ ", which is " +:+ state_name s
  | IdleInstanceNotPublished slot =>
      "slot " +:+ pretty slot +:+ " is idle but is not published in its class's idle set"
  | IdleSetClassMismatch slot => "slot " +:+ pretty slot +:+ " is filed under another class"
  | OverCapacity live capacity =>
      pretty live +:+ " live instances against a budget of " +:+ pretty capacity
  | LeakedSlotStillLive slot => "slot " +:+ pretty slot +:+ " is both leaked and live"
  | InstanceViolation v => violation_display v
  end%string.

(** [for x in l { f(x)?; }]. *)
Fixpoint each_ok {A E} (f : A -> result unit E) (l : list A) : result unit E :=
  match l with
  | [] => Ok tt
  | x :: l' => let? _ := f x in each_ok f l'
  end.

Definition check_idle_member (st : PoolState) (c : InstanceClass) (slot : SlotId)
  : result unit PoolInvariantViolation :=
  match instances st !! slot with
  | None => Err (IdleSetHoldsNonIdle slot Retired)
  | Some i =>
      if negb (is_idle (state i)) then Err (IdleSetHoldsNonIdle slot (state i))
      else if negb (bool_decide (class i = c)) then Err (IdleSetClassMismatch slot)
      else Ok tt
  end.

Definition check_live_slot (st : PoolState) (slot : SlotId) : result unit PoolInvariantViolation :=
  match instances st !! slot with
  | None => Ok tt
  | Some i =>
      if bool_decide (slot ∈ leaked_slots st) then Err (LeakedSlotStillLive slot)
      else if is_idle (state i)
              && negb (match idle st !! class i with
                       | Some members => bool_decide (slot ∈ members)
                       | None => false
                       end)
      then Err (IdleInstanceNotPublished slot)
      else map_err InstanceViolation
             (check_invariants i (recycle_turns cfg) (system_prompt_fingerprint cfg))
  end.

Definition pool_check_invariants (st : PoolState) : result unit PoolInvariantViolation :=
  let capacity := capacity st (pool_size cfg) in
  if capacity <? live st then Err (OverCapacity (live st) capacity)
  else
    let? _ := each_ok (fun c =>
        match idle st !! c with
        | Some members => each_ok (check_idle_member st c) (slots_in_order members)
        | None => Ok tt
        end) (classes_in_order st) in
    each_ok (check_live_slot st) (live_slots st).

End Locked.

(** ** Reports *)

Record PoolCensus := mkPoolCensus {
  pc_live : N; pc_idle : N; pc_in_flight : N; pc_clearing : N; pc_leased : N; pc_reserved : N;
  pc_tearing_down : N; pc_leaked : N; pc_capacity : N; pc_halted : option string;
}.

Definition census (cfg : PoolConfig) (st : PoolState) : PoolCensus :=
  let counts := buckets st in
  mkPoolCensus (live st) (idle_count st) (bc_serving counts) (bc_clearing counts)
    (bc_leased counts) (bc_reserved counts) (bc_tearing_down counts)
    (u32_of_len (size (leaked_slots st))) (capacity st (pool_size cfg)) (halted st).

Record ConversationLease := mkConversationLease {
  cl_conversation_id : string; cl_cell : string; cl_state : string;
}.

Definition holds_conversation (s : InstanceState) : bool :=
  match s with Leased | CheckedOut | Delivering => true | _ => false end.

Definition cell_name (i : Instance) : string :=
  ("s" +:+ pretty (slot i) +:+ "e" +:+ pretty (epoch i))%string.

Definition cell_le (a b : ConversationLease) : Prop := str_compare (cl_cell a) (cl_cell b) <> Gt.
#[global] Instance cell_le_dec : RelDecision cell_le.
Proof. intros a b. unfold cell_le. apply _. Defined.

Definition conversation_leases (st : PoolState) : list ConversationLease :=
  merge_sort cell_le
    (omap (fun i =>
             c ← conversation_id i;
             if holds_conversation (state i)
             then Some (mkConversationLease c (cell_name i) (state_name (state i)))
             else None)
       (entries st)).
