(* ===== verification/PoolProg.v ===== *)
(** * The pool's operations as programs

    [crates/service/src/pool/mod.rs], every method of [Pool], and the helpers of
    [crates/service/src/private_dir.rs] they create directories with. An [async fn]
    is a program over the effects it performs: critical sections of the pool lock,
    clock reads, sleeps, the four calls of the host seam, file-system calls and
    spawned tasks. A program is a finite tree, so an operation that ran out of its
    loop bound is visible ([EOutOfFuel]) and so is a panic ([EPanic]). Logging is
    left out; [evidence::retain_instance_transcripts], which only reads below a
    reaped root and writes below the evidence directory, is one effect. *)

From S2P Require Import Prelude Text Protocol Account Class Machine Refusal Config Instance Composer Pool.

(** ** Effects *)

Inductive IoKind := NotFound | AlreadyExists | OtherIo.

Record IoError := mkIoError { io_kind : IoKind; io_display : string }.

Record Metadata := mkMetadata { md_symlink : bool; md_dir : bool; md_uid : N; md_mode : N }.

Inductive Task := TClear (slot : SlotId) | TRewarm (class : InstanceClass).

Inductive Eff : Set -> Type :=
| ELock {A : Set} (section : N -> PoolState -> A * PoolState) : Eff A
| ENow : Eff N
| EInstant : Eff N
| ESleep (ns : N) : Eff unit
| EMint (spec : MintSpec) : Eff (result InstanceHandle HostFailure)
| ERunTurn (h : InstanceHandle) (prompt : list N) (deadline : N) : Eff (result HostTurn HostFailure)
| EClear (h : InstanceHandle) : Eff (result unit ClearFailure)
| EDestroy (h : InstanceHandle) : Eff (result Destroyed HostFailure)
| EExists (p : Path) : Eff bool
| ESymlinkMetadata (p : Path) : Eff (result Metadata IoError)
| ECreateDir (p : Path) : Eff (result unit IoError)
| ESeal (p : Path) : Eff (result unit IoError)
| ERemoveDirAll (p : Path) : Eff (result unit IoError)
| ERename (from to : Path) : Eff (result unit IoError)
| EWritePid (p : Path) (pid : Z) : Eff unit
| EEvidence (root into : Path) : Eff unit
| EEuid : Eff N
| ESpawn (t : Task) : Eff unit
| EPanic (message : string) : Eff Empty_set
| EOutOfFuel : Eff Empty_set.

Inductive Prog (A : Type) : Type :=
| Ret (a : A)
| Do {X : Set} (e : Eff X) (k : X -> Prog A).
Arguments Ret {A} a.
Arguments Do {A X} e k.

Fixpoint pbind {A B} (p : Prog A) (k : A -> Prog B) : Prog B :=
  match p with
  | Ret a => k a
  | Do e c => Do e (fun x => pbind (c x) k)
  end.

Definition perform {X : Set} (e : Eff X) : Prog X := Do e Ret.

(** [p?] inside a fallible function. *)
Definition try_bind {A B E} (p : Prog (result A E)) (k : A -> Prog (result B E)) : Prog (result B E) :=
  pbind p (fun r => match r with Ok a => k a | Err e => Ret (Err e) end).

Notation "'let!' x := p 'in' k" := (pbind p (fun x => k))
  (at level 10, x name, p at level 100, k at level 200) : pmux_scope.
Notation "'let!' ' pat := p 'in' k" := (pbind p (fun x => match x with pat => k end))
  (at level 10, pat strict pattern, p at level 100, k at level 200) : pmux_scope.
Notation "'let!?' x := p 'in' k" := (try_bind p (fun x => k))
  (at level 10, x name, p at level 100, k at level 200) : pmux_scope.
Notation "'let!?' ' pat := p 'in' k" := (try_bind p (fun x => match x with pat => k end))
  (at level 10, pat strict pattern, p at level 100, k at level 200) : pmux_scope.

Definition lock {A : Set} (section : N -> PoolState -> A * PoolState) : Prog A := perform (ELock section).

(** A read under the lock. *)
Definition read {A : Set} (f : PoolState -> A) : Prog A := lock (fun _ st => (f st, st)).
(** An update under the lock. *)
Definition update (f : PoolState -> PoolState) : Prog unit := lock (fun _ st => (tt, f st)).

Definition panic {A} (message : string) : Prog A := Do (EPanic message) (fun x => match x with end).

Fixpoint for_each {A} (f : A -> Prog unit) (l : list A) : Prog unit :=
  match l with
  | [] => Ret tt
  | x :: l' => let! _ := f x in for_each f l'
  end.

(** [for x in l { f(x)?; }]. *)
Fixpoint for_each_ok {A E} (f : A -> Prog (result unit E)) (l : list A) : Prog (result unit E) :=
  match l with
  | [] => Ret (Ok tt)
  | x :: l' => let!? _ := f x in for_each_ok f l'
  end.

(** ** Directories *)

Definition path_display (p : Path) : string :=
  ((if path_absolute p then "/" else EmptyString) +:+ join "/" (path_components p))%string.

(** The missing ancestors of a path, innermost first. The walk ends at the first
    ancestor that exists, or at the empty path. *)
Fixpoint missing_ancestors (ancestors : list Path) : Prog (result (list Path) IoError) :=
  match ancestors with
  | [] => Ret (Ok [])
  | a :: rest =>
      if bool_decide (a = mkPath false []) then Ret (Ok [])
      else
        let! found := perform (ESymlinkMetadata a) in
        match found with
        | Ok _ => Ret (Ok [])
        | Err e =>
            match io_kind e with
            | NotFound => let!? up := missing_ancestors rest in Ret (Ok (a :: up))
            | _ => Ret (Err e)
            end
        end
  end.

Fixpoint create_down (missing : list Path) : Prog (result (list Path) IoError) :=
  match missing with
  | [] => Ret (Ok [])
  | d :: rest =>
      let! made := perform (ECreateDir d) in
      match made with
      | Ok _ =>
          let!? _ := perform (ESeal d) in
          let!? created := create_down rest in
          Ret (Ok (d :: created))
      | Err e =>
          match io_kind e with
          | AlreadyExists => create_down rest
          | _ => Ret (Err e)
          end
      end
  end.

Definition create_private_dir_all (path : Path) : Prog (result (list Path) IoError) :=
  let!? missing := missing_ancestors (path_ancestors path) in
  create_down (reverse missing).

(** [{mode:o}] of a mode masked to nine bits. *)
Definition octal3 (mode : N) : string :=
  ((if (64 <=? mode)%N then pretty (mode / 64)%N else EmptyString)
   +:+ (if (8 <=? mode)%N then pretty ((mode / 8) mod 8)%N else EmptyString)
   +:+ pretty (mode mod 8)%N)%string.

Definition owner_only_violation (m : Metadata) (effective_uid : N) : option string :=
  if negb (md_uid m =? effective_uid)%N then
    Some ("it is owned by uid " +:+ pretty (md_uid m) +:+ ", not the current user")%string
  else
    let mode := N.land (md_mode m) 511 in
    if negb (N.land mode 63 =? 0)%N then
      Some ("its mode is " +:+ octal3 mode +:+ ", not owner-only")%string
    else None.

Definition field_display (f : ConfigField) : string :=
  match f with
  | ParentDir => "--pool-parent"
  | ClaudeExecutable => "--pool-claude"
  | SecurestorageDir => "--pool-securestorage-dir"
  | RetainDir => "--pool-retain-dir"
  | EvidenceDir => "--pool-evidence-dir"
  end.

(** [p.map_err(f)?]. *)
Definition pmap_err {A E F} (f : E -> F) (p : Prog (result A E)) : Prog (result A F) :=
  let! r := p in Ret (map_err f r).

Definition require_private_parent (path : Path) (field : ConfigField) : Prog (result unit ErrorBody) :=
  let invalid (what : string) :=
    ErrorBody_new InvalidConfig (field_display field +:+ " " +:+ path_display path +:+ what)%string in
  let!? _ := pmap_err (fun e => invalid (": could not create it: " +:+ io_display e)%string)
               (create_private_dir_all path) in
  let!? metadata := pmap_err (fun e => invalid (": could not inspect it: " +:+ io_display e)%string)
                      (perform (ESymlinkMetadata path)) in
  if negb (md_dir metadata) then Ret (Err (invalid " is not a directory"))
  else
    let! uid := perform EEuid in
    match owner_only_violation metadata uid with
    | Some reason =>
        Ret (Err (invalid
          (" must be owner-only and owned by the daemon's user, the same bar the daemon's socket directory is held to, because every pool instance's config root and cwd live under it: "
           +:+ reason)%string))
    | None => Ret (Ok tt)
    end.

Definition create_owner_only (path : Path) : Prog (result unit ErrorBody) :=
  let!? _ := pmap_err (fun e => internal ("could not create " +:+ path_display path +:+ ": "
                                          +:+ io_display e)%string)
               (create_private_dir_all path) in
  pmap_err (fun e => internal ("could not seal " +:+ path_display path +:+ " to 0700: "
                               +:+ io_display e)%string)
    (perform (ESeal path)).

Definition mint_roots (parent : Path) (p : SlotPaths) : Prog (result unit ErrorBody) :=
  let! present := perform (EExists (epoch_dir p)) in
  if (present : bool) then
    Ret (Err (internal
      ("epoch directory " +:+ path_display (epoch_dir p)
       +:+ " already exists, so a previous daemon did not shut down cleanly; the pool never adopts a tree it did not create, and this mint erases that tree as it fails, so a repeated start passes this slot")%string))
  else match minted_dirs p parent with
  | None =>
      Ret (Err (internal (path_display (epoch_dir p) +:+ " is not under the pool parent "
                          +:+ path_display parent)%string))
  | Some minted => for_each_ok create_owner_only minted
  end.

(** The name of the retained tree: the slot and the epoch, from the path itself. *)
Definition stamp (p : Path) : string :=
  (default "slot" (path_parent p ≫= path_file_name) +:+ "-" +:+ default "epoch" (path_file_name p))%string.

Definition erase_tree (parent : Path) (p : SlotPaths) (retain_dir : option Path)
  : Prog (result unit IoError) :=
  let dir := epoch_dir p in
  if negb (path_starts_with dir parent) then
    Ret (Err (mkIoError OtherIo
      (path_display dir +:+ " is not under the pool parent " +:+ path_display parent)%string))
  else
    let! found := perform (ESymlinkMetadata dir) in
    match found with
    | Err e => match io_kind e with NotFound => Ret (Ok tt) | _ => Ret (Err e) end
    | Ok metadata =>
        if md_symlink metadata || negb (md_dir metadata) then
          Ret (Err (mkIoError OtherIo (path_display dir +:+ " is not a directory pmux minted")%string))
        else match retain_dir with
        | Some retain_dir =>
            let!? _ := create_private_dir_all retain_dir in
            let stamped := path_join retain_dir (stamp dir) in
            let! present := perform (EExists stamped) in
            let!? _ := if (present : bool) then perform (ERemoveDirAll stamped) else Ret (Ok tt) in
            perform (ERename dir stamped)
        | None => perform (ERemoveDirAll dir)
        end
    end.

(** ** The operations *)

Section Operations.
Variable cfg : PoolConfig.
(** Canonical composition, of the crate [unicode-normalization]. *)
Variable nfc : list N -> list N.
(** The [Debug] form of a string, in the one message that prints raw caller input. *)
Variable str_debug : string -> string.

Definition account_name_error_display (e : AccountNameError) : string :=
  match e with
  | InvalidName raw =>
      ("account name " +:+ str_debug raw +:+ " is not " +:+ pretty MAX_ACCOUNT_NAME_BYTES
       +:+ " or fewer ASCII letters, digits, `_` or `-`, starting with a letter (e.g. default, claude-1)")%string
  end.

Definition account_from_request (request : RunStatelessRequest) : result AccountName ErrorBody :=
  let? name :=
    match rq_account request with
    | None | Some EmptyString => Ok AccountName_DEFAULT
    | Some raw =>
        map_err (fun e => with_details (jobj [("violation", JStr "invalid_account_name")]%string)
                            (ErrorBody_new InvalidConfig (account_name_error_display e)))
          (account_parse raw)
    end in
  if has_account cfg name then Ok name
  else
    let known := (fun a => account_as_str (ca_name a)) <$> accounts cfg in
    Err (with_details
      (jobj [("violation", JStr "unknown_account"); ("account", JStr (account_as_str name));
             ("configured", JArr (JStr <$> known))]%string)
      (ErrorBody_new InvalidConfig
         ("account " +:+ dq +:+ account_as_str name +:+ dq
          +:+ " is not configured on this daemon; configured accounts: " +:+ join ", " known)%string)).

Definition handle_of (slot : SlotId) : Prog (option InstanceHandle) :=
  read (fun st => (instances st !! slot ≫= handle) : option InstanceHandle).

(** *** Teardown *)

Definition leak_locked (slot : SlotId) (st : PoolState) : PoolState :=
  let st := try_transition cfg st slot ReapFailed in
  match instances st !! slot with
  | Some _ => set_leaked ({[slot]} ∪ leaked_slots st) (set_instances (delete slot (instances st)) st)
  | None => st
  end.

Definition leak (slot : SlotId) : Prog unit := update (leak_locked slot).

Definition halt (viol : string) : Prog unit :=
  update (fun st => match halted st with None => set_halted (Some viol) st | Some _ => st end).

Definition release_slot_locked (slot : SlotId) (st : PoolState) : PoolState :=
  match transition_locked cfg st slot Reaped with
  | Ok (_, st') => set_instances (delete slot (instances st')) st'
  | Err _ => st
  end.

Definition was_reaped (r : result Destroyed HostFailure) : bool :=
  match r with Ok d => process_reaped d | Err _ => false end.

(** What [destroy] reads of the instance it tears down. *)
Definition teardown_view (slot : SlotId) (st : PoolState)
  : option (option InstanceHandle * bool * SlotPaths * bool) :=
  (fun i => (handle i, mint_in_flight i, paths i, was_quarantined i)) <$> instances st !! slot.

Definition destroy (slot : SlotId) : Prog unit :=
  let! got := read (teardown_view slot) in
  match got with
  | None => Ret tt
  | Some (h, in_flight, p, quarantined) =>
      let! unreaped :=
        match h with
        | Some h =>
            let! answer := perform (EDestroy h) in
            Ret (if was_reaped answer then None else Some "close_without_confirmed_reaping")
        | None =>
            Ret (if (in_flight : bool) then Some "destroyed_while_a_launch_was_in_flight" else None)
        end%string in
      match unreaped with
      | Some _ => leak slot
      | None =>
          let! _ := match evidence_dir cfg with
                    | Some dir => perform (EEvidence (root p) dir)
                    | None => Ret tt
                    end in
          let retain := if (quarantined : bool) then retain_dir cfg else None in
          let! erased := erase_tree (parent_dir cfg) p retain in
          match erased with
          | Err _ => leak slot
          | Ok _ => update (release_slot_locked slot)
          end
      end
  end.

Definition abandon_unpublishable (slot : SlotId) (teardown : list Transition) : Prog unit :=
  let! _ := update (fun st => foldl (fun st t => try_transition cfg st slot t) st teardown) in
  destroy slot.

Definition AFTER_WARM : list Transition := [MintFailed].
Definition AFTER_CLEAR : list Transition := [ClearFailedIncoherent; BeginDestroy].

Definition quarantine_and_destroy (slot : SlotId) : Prog unit :=
  let! _ := update (fun st =>
    try_transition cfg (try_transition cfg st slot TurnNotDelivered) slot BeginDestroy) in
  destroy slot.

(** *** Mint *)

Definition abandon_mint (slot : SlotId) (may_survive : bool) : Prog unit :=
  let! _ := update (fun st =>
    let st := try_transition cfg st slot MintFailed in
    match instances st !! slot with
    | Some i => set_instances (<[slot := with_mint (handle i) false i]> (instances st)) st
    | None => st
    end) in
  if may_survive then leak slot else destroy slot.

(** The section that begins a launch; [None] is a panic of its own ([expect] on the
    account pin, or the index into [instances]). *)
Definition begin_mint_locked (slot : SlotId) (st : PoolState)
  : option (result (MintSpec * SlotPaths) ErrorBody) * PoolState :=
  match transition_or_internal cfg st slot BeginWarm with
  | Err e => (Some (Err e), st)
  | Ok (_, st) =>
      match instances st !! slot with
      | None => (None, st)
      | Some i =>
          match pin_for cfg (class_account (class i)) with
          | None => (None, st)
          | Some pin =>
              (Some (Ok
                 ({| ms_slot := slot;
                     ms_epoch := epoch i;
                     ms_class := class i;
                     ms_root := root (paths i);
                     ms_cwd := cwd (paths i);
                     ms_claude_executable := claude_executable cfg;
                     ms_securestorage_dir := pin;
                     ms_system_prompt := system_prompt cfg;
                     ms_instance_idle_ttl_ms := instance_idle_ttl_ms cfg |},
                  paths i)), st)
          end
      end
  end.

(** Update the instance of a slot, and say whether there was one. *)
Definition update_instance (slot : SlotId) (f : Instance -> Instance) (st : PoolState)
  : bool * PoolState :=
  match instances st !! slot with
  | None => (false, st)
  | Some i => (true, set_instances (<[slot := f i]> (instances st)) st)
  end.

(** The host answered with a handle: record the pid, bind the handle to the slot, or
    close the child if the slot was torn down meanwhile. *)
Definition bind_handle (slot : SlotId) (spec : MintSpec) (h : InstanceHandle)
  : Prog (result unit ErrorBody) :=
  let! _ := match pid h with
            | Some pid =>
                perform (EWritePid
                  (pid_file (SlotPaths_new (parent_dir cfg) (ms_slot spec) (ms_epoch spec))) pid)
            | None => Ret tt
            end in
  let! bound := lock (fun _ => update_instance slot (with_mint (Some h) false)) in
  if (bound : bool) then Ret (Ok tt)
  else
    let! _ := perform (EDestroy h) in
    Ret (Err (internal "a launching slot was torn down before its mint returned")).

(** Mark the launch in flight, then launch. *)
Definition launch (slot : SlotId) (spec : MintSpec) : Prog (result unit ErrorBody) :=
  let! present := lock (fun _ => update_instance slot (fun i => with_mint (handle i) true i)) in
  if negb present then
    Ret (Err (internal "a launching slot was released before its mint began"))
  else
    let! minted := perform (EMint spec) in
    match minted with
    | Ok h => bind_handle slot spec h
    | Err failure =>
        let! _ := abandon_mint slot (process_may_survive failure) in
        Ret (Err (hf_error failure))
    end.

Definition mint (slot : SlotId) : Prog (result unit ErrorBody) :=
  let! begun := lock (fun _ => begin_mint_locked slot) in
  match begun with
  | None => panic "every live class account was admitted at boot"
  | Some (Err e) => Ret (Err e)
  | Some (Ok (spec, p)) =>
      let! rooted := mint_roots (parent_dir cfg) p in
      match rooted with
      | Err e => let! _ := abandon_mint slot false in Ret (Err e)
      | Ok _ => launch slot spec
      end
  end.

(** *** Publication *)

Definition publish_idle (slot : SlotId) : Prog unit :=
  let! published := lock (fun now st => publish_idle_locked cfg now st slot WarmProven) in
  if (published : bool) then Ret tt else abandon_unpublishable slot AFTER_WARM.

(** The section publishes and checks out; [None] means the publication was refused. *)
Definition publish_and_check_out_locked (slot : SlotId) (now : N) (st : PoolState)
  : option (result SlotId ErrorBody) * PoolState :=
  match publish_idle_locked cfg now st slot WarmProven with
  | (false, st) => (None, st)
  | (true, st) =>
      match transition_or_internal cfg st slot CheckOut with
      | Err e => (Some (Err e), st)
      | Ok (_, st') => (Some (Ok slot), st')
      end
  end.

Definition publish_idle_and_check_out (slot : SlotId) : Prog (result SlotId ErrorBody) :=
  let! outcome := lock (publish_and_check_out_locked slot) in
  match outcome with
  | None =>
      let! _ := abandon_unpublishable slot AFTER_WARM in
      Ret (Err (internal "a freshly proven instance could not enter the idle set"))
  | Some r => Ret r
  end.

(** *** Background work *)

Definition spawn_clear (slot : SlotId) : Prog unit := perform (ESpawn (TClear slot)).
Definition spawn_rewarm (class : InstanceClass) : Prog unit := perform (ESpawn (TRewarm class)).

Definition remint_if_below_floor (class : InstanceClass) : Prog unit :=
  let! should := lock (fun _ st =>
    if (idle_held st class <? warm_floor cfg class) && negb (bool_decide (class ∈ rewarming st))
    then (true, set_rewarming ({[class]} ∪ rewarming st) st)
    else (false, st)) in
  if (should : bool) then spawn_rewarm class else Ret tt.

Definition rewarm_reserve_locked (class : InstanceClass) (st : PoolState)
  : option SlotId * PoolState :=
  match (if negb (shutting_down st) && negb (bool_decide (is_Some (halted st)))
         then free_slot st (pool_size cfg) else None) with
  | Some slot =>
      if live st <? capacity st (pool_size cfg) then (Some slot, reserve_locked cfg st slot class)
      else (None, st)
  | None => (None, st)
  end.

(** The future [spawn_rewarm] hands to the spawner. *)
Definition rewarm (class : InstanceClass) : Prog unit :=
  let! slot := lock (fun _ => rewarm_reserve_locked class) in
  let! _ :=
    match slot with
    | Some slot =>
        let! minted := mint slot in
        if is_ok minted then publish_idle slot else Ret tt
    | None => Ret tt
    end in
  update (fun st => set_rewarming (rewarming st ∖ {[class]}) st).

Definition clear_failed_transition (f : ClearFailure) : Transition :=
  if clear_not_submitted f && negb (bool_decide (is_Some (preamble_mismatch f)))
  then ClearFailedCoherent else ClearFailedIncoherent.

Definition clear_success_view (slot : SlotId) (st : PoolState) : option Transition :=
  (fun i => clear_success_transition (turns_started i) (recycle_turns cfg)) <$> instances st !! slot.

Definition recycle_locked (slot : SlotId) (st : PoolState) : option InstanceClass * PoolState :=
  (class <$> instances st !! slot, try_transition cfg st slot RecycleDue).

Definition finish_turn (slot : SlotId) : Prog unit :=
  let! h := handle_of slot in
  match h with
  | None => destroy slot
  | Some h =>
      let! cleared := perform (EClear h) in
      match cleared with
      | Ok _ =>
          let! transition := read (clear_success_view slot) in
          match transition with
          | None => Ret tt
          | Some transition =>
              if bool_decide (transition = ClearProven) then
                let! published := lock (fun now st => publish_idle_locked cfg now st slot ClearProven) in
                if (published : bool) then Ret tt else abandon_unpublishable slot AFTER_CLEAR
              else
                let! class := lock (fun _ => recycle_locked slot) in
                let! _ := destroy slot in
                match class with
                | Some class => remint_if_below_floor class
                | None => Ret tt
                end
          end
      | Err failure =>
          let! _ := match preamble_mismatch failure with
                    | Some reason => halt reason
                    | None => Ret tt
                    end in
          let transition := clear_failed_transition failure in
          let! _ := update (fun st =>
            let st := try_transition cfg st slot transition in
            if bool_decide (transition = ClearFailedIncoherent)
            then try_transition cfg st slot BeginDestroy else st) in
          destroy slot
      end
  end.

(** *** Admission *)

Definition NS_PER_MS : N := 1000000.
Definition ADMIT_CEILING : N := ADMISSION_WAIT_CEILING_MS * NS_PER_MS.
Definition ADMIT_POLL : N := ADMISSION_POLL_MS * NS_PER_MS.

(** Every pass but the last sleeps a millisecond or up to the ceiling, so the
    ceiling in milliseconds and two more passes bound the loop
    ([clocked_admit_loop] in [PoolTime]). *)
Definition ADMIT_FUEL : nat := N.to_nat (ADMISSION_WAIT_CEILING_MS + 2).

Definition admit_budget (waited deadline_ms : N) : Prog (option N) :=
  match checked_sub ADMIT_CEILING waited with
  | None => Ret None
  | Some under_ceiling =>
      let! now := perform ENow in
      let budget := N.min under_ceiling ((deadline_ms - now) * NS_PER_MS) in
      Ret (if budget =? 0 then None else Some budget)
  end.

Record AdmittedSlot := mkAdmitted { admission : Admission; waited_ms : N }.

Fixpoint admit_loop (fuel : nat) (class : InstanceClass) (deadline_ms started : N)
  : Prog (result AdmittedSlot ErrorBody) :=
  match fuel with
  | 0%nat => Do EOutOfFuel (fun x => match x with end)
  | S fuel =>
      let! now := perform EInstant in
      let waited := now - started in
      let waited_ms := N.min (waited / NS_PER_MS) U64_MAX in
      let! budget := admit_budget waited deadline_ms in
      let! decision := lock (fun _ =>
        admit_once cfg class waited_ms (bool_decide (is_Some budget))) in
      match decision with
      | Ok (admission, should_rewarm) =>
          let! _ := if (should_rewarm : bool) then spawn_rewarm class else Ret tt in
          Ret (Ok (mkAdmitted admission waited_ms))
      | Err refusal =>
          match (if 0 <? ar_coming_back refusal then budget else None) with
          | None => Ret (Err (ar_body refusal))
          | Some budget =>
              let! _ := perform (ESleep (N.min budget ADMIT_POLL)) in
              admit_loop fuel class deadline_ms started
          end
      end
  end.

Definition pool_admit (class : InstanceClass) (deadline_ms : N) : Prog (result AdmittedSlot ErrorBody) :=
  let! started := perform EInstant in
  admit_loop ADMIT_FUEL class deadline_ms started.

Definition reclaim (slot : SlotId) (class : InstanceClass) (waited_ms : N) : Prog (result unit ErrorBody) :=
  lock (fun _ => reclaim_locked cfg slot class waited_ms).

(** *** Turns *)

Definition sidechain_is_default (turn : HostTurn) : bool :=
  bool_decide (ub_sidechain (ht_usage turn) = TokenUsage_default).

Definition result_of (class : InstanceClass) (resolved : ResolvedModelEffort) (turn : HostTurn)
    (claude_version : string) : StatelessResult :=
  {| sres_model := canonical_model class;
     sres_reported_model := ht_reported_model turn;
     sres_effort := rme_effort_level resolved;
     sres_text := ht_text turn;
     sres_stop_reason := ht_stop_reason turn;
     sres_usage := ht_usage turn;
     sres_claude_version := claude_version |}.

Definition deliver_locked (slot : SlotId) (st : PoolState) : result unit ErrorBody * PoolState :=
  match transition_or_internal cfg st slot TurnCommitted with
  | Err e => (Err e, st)
  | Ok (_, st1) =>
      match transition_or_internal cfg st1 slot ResponseDelivered with
      | Err e => (Err e, st1)
      | Ok (_, st2) => (Ok tt, st2)
      end
  end.

Definition commit (slot : SlotId) (class : InstanceClass) (resolved : ResolvedModelEffort)
    (turn : HostTurn) : Prog (result StatelessResult ErrorBody) :=
  match ht_sidechain_rows turn with
  | None => let! _ := quarantine_and_destroy slot in Ret (Err sidechain_rows_not_counted)
  | Some counted_rows =>
      if (0 <? counted_rows) || negb (sidechain_is_default turn) then
        let! _ := quarantine_and_destroy slot in Ret (Err (sidechain_on_toolless_cell counted_rows))
      else
        let! h := handle_of slot in
        match h with
        | None => Ret (Err (internal "a committed turn lost its process handle"))
        | Some h =>
            let!? _ := lock (fun _ => deliver_locked slot) in
            let! _ := spawn_clear slot in
            Ret (Ok (result_of class resolved turn (claude_version h)))
        end
  end.

Record StickyTurn := mkStickyTurn { st_result : StatelessResult; st_cell : string }.

Definition sticky_version_locked (slot : SlotId) (st : PoolState)
  : result (string * string) ErrorBody :=
  let? i := ok_or (instances st !! slot) (internal "a committed sticky turn lost its instance") in
  let? h := ok_or (handle i) (internal "a committed sticky turn lost its process handle") in
  Ok (claude_version h, cell_name i).

(** The answer says whether the slot is to be destroyed after the lock is dropped
    (the pool was shutting down). *)
Definition hold_lease_locked (slot : SlotId) (conversation : string) (now : N) (st : PoolState)
  : result bool ErrorBody * PoolState :=
  match transition_or_internal cfg st slot TurnCommitted with
  | Err e => (Err e, st)
  | Ok (_, st1) =>
      if shutting_down st1 then
        match transition_or_internal cfg st1 slot ResponseDelivered with
        | Err e => (Err e, st1)
        | Ok (_, st2) =>
            match transition_or_internal cfg st2 slot ShutdownDrain with
            | Err e => (Err e, st2)
            | Ok (_, st3) => (Ok true, st3)
            end
        end
      else
        let '(_, st2) := update_instance slot (with_conversation (Some conversation)) st1 in
        match transition_or_internal cfg st2 slot LeaseHeld with
        | Err e => (Err e, st2)
        | Ok (_, st3) => (Ok false, snd (update_instance slot (with_idle_since now) st3))
        end
  end.

Definition commit_sticky (slot : SlotId) (conversation : string) (class : InstanceClass)
    (resolved : ResolvedModelEffort) (turn : HostTurn) : Prog (result StickyTurn ErrorBody) :=
  match ht_sidechain_rows turn with
  | None => let! _ := quarantine_and_destroy slot in Ret (Err sidechain_rows_not_counted)
  | Some counted_rows =>
      if (0 <? counted_rows) || negb (sidechain_is_default turn) then
        let! _ := quarantine_and_destroy slot in Ret (Err (sidechain_on_toolless_cell counted_rows))
      else
        let!? '(version, cell) := read (sticky_version_locked slot) in
        let sticky := mkStickyTurn (result_of class resolved turn version) cell in
        let!? draining := lock (hold_lease_locked slot conversation) in
        if (draining : bool) then let! _ := destroy slot in Ret (Ok sticky) else Ret (Ok sticky)
  end.

(** What every turn resolves before it touches an instance: the prompt, the class
    and the deadline. *)
Definition resolve_request (request : RunStatelessRequest)
  : result (list N * InstanceClass * ResolvedModelEffort) ErrorBody :=
  let? prompt := validate_prompt nfc (rq_prompt request) in
  let? '(class, resolved) :=
    map_err refusal_into_error_body (resolve_pool_class (rq_model request) (rq_effort request)) in
  let? account := account_from_request request in
  Ok (prompt, with_account account class, resolved).

(** Make an admitted slot ready: mint it where the admission did not find it warm. *)
Definition ready_slot (admitted : AdmittedSlot) (class : InstanceClass) : Prog (result SlotId ErrorBody) :=
  match admission admitted with
  | Warm slot => Ret (Ok slot)
  | ReservedSlot slot =>
      let!? _ := mint slot in
      publish_idle_and_check_out slot
  | ColdSwap slot =>
      let! _ := destroy slot in
      let!? _ := reclaim slot class (waited_ms admitted) in
      let!? _ := mint slot in
      publish_idle_and_check_out slot
  end.

Definition run (request : RunStatelessRequest) : Prog (result StatelessResult ErrorBody) :=
  let!? '(prompt, class, resolved) := Ret (resolve_request request) in
  let! now := perform ENow in
  let deadline := effective_deadline_ms cfg now (rq_deadline_unix_ms request) in
  let!? admitted := pool_admit class deadline in
  let!? slot := ready_slot admitted class in
  let! h := handle_of slot in
  match h with
  | None => Ret (Err (internal "a checked-out instance lost its process handle"))
  | Some h =>
      let! answer := perform (ERunTurn h prompt deadline) in
      match answer with
      | Ok turn => commit slot class resolved turn
      | Err failure =>
          let! _ := quarantine_and_destroy slot in
          Ret (Err (hf_error failure))
      end
  end.

(** *** Conversations *)

(** The instances with their keys, in slot order. *)
Definition keyed (st : PoolState) : list (SlotId * Instance) :=
  omap (fun s => i ← instances st !! s; Some (s, i)) (live_slots st).

Definition names_conversation (c : string) (i : Instance) : bool :=
  bool_decide (conversation_id i = Some c).

Definition session_busy : ErrorBody :=
  retryable true (ErrorBody_new SessionBusy
    "this conversation already has a turn in flight; nothing is queued").

Definition release_locked (c : string) (st : PoolState) : result (option SlotId) ErrorBody * PoolState :=
  if bool_decide (c ∈ pending_leases st) then (Err session_busy, st)
  else match find_first (fun x => names_conversation c (snd x)) (keyed st) with
  | None => (Ok None, st)
  | Some (slot, i) =>
      match state i with
      | CheckedOut | Delivering => (Err session_busy, st)
      | Leased =>
          match transition_or_internal cfg st slot ReleaseLease with
          | Err e => (Err e, st)
          | Ok (_, st') => (Ok (Some slot), st')
          end
      | _ => (Ok None, st)
      end
  end.

Definition release_conversation (c : string) : Prog (result unit ErrorBody) :=
  let!? slot := lock (fun _ => release_locked c) in
  match slot with
  | None => Ret (Ok tt)
  | Some slot => let! _ := spawn_clear slot in Ret (Ok tt)
  end.

Definition begin_lease_locked (c : string) (st : PoolState) : result unit ErrorBody * PoolState :=
  if bool_decide (c ∈ pending_leases st)
     || existsb (fun i => names_conversation c i && holds_conversation (state i)) (entries st)
  then
    (Err (retryable true (ErrorBody_new SessionBusy
            ("conversation " +:+ c +:+ " already holds a pool instance")%string)), st)
  else (Ok tt, set_pending ({[c]} ∪ pending_leases st) st).

Definition unpend (c : string) : Prog unit :=
  update (fun st => set_pending (pending_leases st ∖ {[c]}) st).

(** [if let Err(error) = p { pending.remove(id); return Err(error) }]. *)
Definition or_unpend {A B} (c : string) (p : Prog (result A ErrorBody))
    (k : A -> Prog (result B ErrorBody)) : Prog (result B ErrorBody) :=
  let! r := p in
  match r with
  | Ok a => k a
  | Err e => let! _ := unpend c in Ret (Err e)
  end.

Definition bind_lease_locked (c : string) (slot : SlotId) (st : PoolState) : PoolState :=
  snd (update_instance slot (with_conversation (Some c))
         (set_pending (pending_leases st ∖ {[c]}) st)).

Definition claim_new_lease (c : string) (class : InstanceClass) (deadline : N)
  : Prog (result SlotId ErrorBody) :=
  let!? _ := lock (fun _ => begin_lease_locked c) in
  or_unpend c (pool_admit class deadline) (fun admitted =>
  or_unpend c (ready_slot admitted class)
    (fun slot =>
       let! _ := update (bind_lease_locked c slot) in
       Ret (Ok slot))).

Definition resume_locked (c : string) (requested : InstanceClass) (st : PoolState)
  : result SlotId ErrorBody * PoolState :=
  if bool_decide (c ∈ pending_leases st) then (Err session_busy, st)
  else match find_first (fun x => names_conversation c (snd x)
                                  && holds_conversation (state (snd x))) (keyed st) with
  | None =>
      (Err (ErrorBody_new SessionNotFound
              "this conversation has no leased instance; send the full primer"), st)
  | Some (slot, i) =>
      match state i with
      | CheckedOut | Delivering => (Err session_busy, st)
      | Leased =>
          if negb (bool_decide (class i = requested)) then
            (Err (ErrorBody_new InvalidConfig
               ("conversation " +:+ c +:+ " is leased on " +:+ class_display (class i) +:+ ", not "
                +:+ class_display requested +:+ "; release it first")%string), st)
          else match transition_or_internal cfg st slot ResumeLease with
          | Err e => (Err e, st)
          | Ok (_, st') => (Ok slot, st')
          end
      | other =>
          (Err (internal ("conversation " +:+ c +:+ " is bound to slot " +:+ pretty slot
                          +:+ " in state " +:+ state_name other)%string), st)
      end
  end.

Definition resume_lease (c : string) (class : InstanceClass) : Prog (result SlotId ErrorBody) :=
  lock (fun _ => resume_locked c class).

Definition run_sticky (c : string) (request : RunStatelessRequest) (resume : bool)
  : Prog (result StickyTurn ErrorBody) :=
  if trim_is_empty c then Ret (Err (ErrorBody_new InvalidConfig "conversation id must not be empty"))
  else
    let!? '(prompt, class, resolved) := Ret (resolve_request request) in
    let! now := perform ENow in
    let deadline := effective_deadline_ms cfg now (rq_deadline_unix_ms request) in
    let!? slot := if resume then resume_lease c class else claim_new_lease c class deadline in
    let! h := handle_of slot in
    match h with
    | None =>
        let! _ := quarantine_and_destroy slot in
        Ret (Err (internal "a checked-out instance lost its process handle"))
    | Some h =>
        let! answer := perform (ERunTurn h prompt deadline) in
        match answer with
        | Ok turn => commit_sticky slot c class resolved turn
        | Err failure =>
            let! _ := quarantine_and_destroy slot in
            Ret (Err (hf_error failure))
        end
    end.

Definition touch_locked (c : string) (now : N) (st : PoolState) : bool * PoolState :=
  match find_first (fun x => names_conversation c (snd x) && bool_decide (state (snd x) = Leased))
          (keyed st) with
  | None => (false, st)
  | Some (slot, i) => (true, set_instances (<[slot := with_idle_since now i]> (instances st)) st)
  end.

Definition touch_conversation (c : string) : Prog bool := lock (touch_locked c).

Definition protect_conversation (c : string) : Prog unit :=
  if trim_is_empty c then Ret tt
  else update (fun st => set_protected ({[c]} ∪ protected_leases st) st).

Definition unprotect_conversation (c : string) : Prog unit :=
  update (fun st => set_protected (protected_leases st ∖ {[c]}) st).

(** *** Sweep, shutdown, start *)

Definition sweep_idle : Prog unit :=
  let! now := perform ENow in
  let! victims := lock (fun _ => sweep_idle_locked cfg now) in
  let! _ := for_each destroy victims in
  let! expired_leases := lock (fun _ => sweep_leases_locked cfg now) in
  for_each spawn_clear expired_leases.

Definition shutdown : Prog unit :=
  let! victims := lock (fun _ => shutdown_locked cfg) in
  for_each destroy victims.

Definition start_reserve_locked (class : InstanceClass) (st : PoolState) : option SlotId * PoolState :=
  match free_slot st (pool_size cfg) with
  | None => (None, st)
  | Some slot => (Some slot, reserve_locked cfg st slot class)
  end.

(** The mints one declared class asks for; running out of slots breaks the loop. *)
Fixpoint start_class (count : nat) (class : InstanceClass) : Prog (result unit ErrorBody) :=
  match count with
  | 0%nat => Ret (Ok tt)
  | S count =>
      let! slot := lock (fun _ => start_reserve_locked class) in
      match slot with
      | None => Ret (Ok tt)
      | Some slot =>
          let!? _ := mint slot in
          let! _ := publish_idle slot in
          start_class count class
      end
  end.

Definition start : Prog (result unit ErrorBody) :=
  let!? _ := require_private_parent (parent_dir cfg) ParentDir in
  let!? _ := match retain_dir cfg with
             | Some dir => require_private_parent dir RetainDir
             | None => Ret (Ok tt)
             end in
  for_each_ok (fun warm => start_class (N.to_nat (wc_count warm)) (wc_class warm)) (warm_set cfg).

(** ** Calls *)

(** What a thread of the daemon runs: a call from outside, or a spawned task. *)
Inductive Call :=
| CStart
| CRun (request : RunStatelessRequest)
| CRunSticky (c : string) (request : RunStatelessRequest) (resume : bool)
| CRelease (c : string)
| CTouch (c : string)
| CProtect (c : string)
| CUnprotect (c : string)
| CSweep
| CShutdown
| CTask (t : Task).

Inductive Outcome :=
| OUnit
| OBool (b : bool)
| OResult (r : result unit ErrorBody)
| OTurn (r : result StatelessResult ErrorBody)
| OSticky (r : result StickyTurn ErrorBody).

Definition prog_of (call : Call) : Prog Outcome :=
  match call with
  | CStart => let! r := start in Ret (OResult r)
  | CRun request => let! r := run request in Ret (OTurn r)
  | CRunSticky c request resume => let! r := run_sticky c request resume in Ret (OSticky r)
  | CRelease c => let! r := release_conversation c in Ret (OResult r)
  | CTouch c => let! b := touch_conversation c in Ret (OBool b)
  | CProtect c => let! _ := protect_conversation c in Ret OUnit
  | CUnprotect c => let! _ := unprotect_conversation c in Ret OUnit
  | CSweep => let! _ := sweep_idle in Ret OUnit
  | CShutdown => let! _ := shutdown in Ret OUnit
  | CTask (TClear slot) => let! _ := finish_turn slot in Ret OUnit
  | CTask (TRewarm class) => let! _ := rewarm class in Ret OUnit
  end.

End Operations.
