(* ===== verification/PoolSem.v ===== *)
(** * How the pool's operations interleave

    A world is the state behind the lock, the threads of the daemon (calls in
    progress and spawned tasks) and, as ghost state, what the host has said about
    the process of every epoch directory. One step invokes a call or answers the
    pending effect of one thread; the host, the clock and the file system answer
    anything. The semantics is executable: a schedule is a list of choices. A call
    in progress runs to its end: a dropped future is not modelled. *)

From S2P Require Import Prelude Text Protocol Account Class Machine Refusal Config Instance Composer Pool PoolProg.

(** What is known about the process launched into one epoch directory. *)
Inductive Cell :=
| Running (h : InstanceHandle)
| Suspect
| Gone.

#[global] Instance Cell_eq_dec : EqDecision Cell.
Proof. solve_decision. Defined.

Abbreviation Cells := (gmap (SlotId * Epoch) Cell) (only parsing).

(** A process that may still be alive. *)
Definition maybe_live (c : option Cell) : bool :=
  match c with Some (Running _) | Some Suspect => true | _ => false end.

Definition cells_mint (spec : MintSpec) (r : result InstanceHandle HostFailure) (cells : Cells) : Cells :=
  <[(ms_slot spec, ms_epoch spec) :=
      match r with
      | Ok h => Running h
      | Err f => if process_may_survive f then Suspect else Gone
      end]> cells.

Definition cells_reap (h : InstanceHandle) (r : result Destroyed HostFailure) (cells : Cells) : Cells :=
  if was_reaped r then (fun c => if bool_decide (c = Running h) then Gone else c) <$> cells
  else cells.

(** What the environment may answer. *)
Inductive Ans :=
| ANum (n : N)
| AUnit
| AHandle (r : result InstanceHandle HostFailure)
| ATurn (r : result HostTurn HostFailure)
| ACleared (r : result unit ClearFailure)
| ADestroyed (r : result Destroyed HostFailure)
| ABool (b : bool)
| AMeta (r : result Metadata IoError)
| AIo (r : result unit IoError).

Record Thread := mkThread { th_call : Call; th_prog : Prog Outcome }.

Record World := mkWorld {
  w_state : PoolState;
  w_cells : Cells;
  w_threads : list Thread;
}.

Inductive Choice :=
| Invoke (call : Call)
| Answer (tid : nat) (a : Ans).

Section Semantics.
Variable cfg : PoolConfig.
Variable nfc : list N -> list N.
Variable str_debug : string -> string.

Definition thread_of (call : Call) : Thread := mkThread call (prog_of cfg nfc str_debug call).

Definition do_eff {X : Set} (e : Eff X) (a : Ans) (st : PoolState) (cells : Cells)
  : option (X * PoolState * Cells * list Thread) :=
  match e in Eff X return option (X * PoolState * Cells * list Thread) with
  | ELock f =>
      match a with ANum now => let '(x, st') := f now st in Some (x, st', cells, []) | _ => None end
  | ENow | EInstant | EEuid => match a with ANum n => Some (n, st, cells, []) | _ => None end
  | ESleep _ | EWritePid _ _ | EEvidence _ _ =>
      match a with AUnit => Some (tt, st, cells, []) | _ => None end
  | EMint spec =>
      match a with AHandle r => Some (r, st, cells_mint spec r cells, []) | _ => None end
  | ERunTurn _ _ _ => match a with ATurn r => Some (r, st, cells, []) | _ => None end
  | EClear _ => match a with ACleared r => Some (r, st, cells, []) | _ => None end
  | EDestroy h =>
      match a with ADestroyed r => Some (r, st, cells_reap h r cells, []) | _ => None end
  | EExists _ => match a with ABool b => Some (b, st, cells, []) | _ => None end
  | ESymlinkMetadata _ => match a with AMeta r => Some (r, st, cells, []) | _ => None end
  | ECreateDir _ | ESeal _ | ERemoveDirAll _ | ERename _ _ =>
      match a with AIo r => Some (r, st, cells, []) | _ => None end
  | ESpawn t =>
      match a with AUnit => Some (tt, st, cells, [thread_of (CTask t)]) | _ => None end
  | EPanic _ | EOutOfFuel => None
  end.

(** Tasks are spawned by the pool itself, everything else is called from outside. *)
Definition external (call : Call) : bool :=
  match call with CTask _ => false | _ => true end.

Definition do_step (w : World) (ch : Choice) : option World :=
  match ch with
  | Invoke call =>
      if external call
      then Some (mkWorld (w_state w) (w_cells w) (w_threads w ++ [thread_of call]))
      else None
  | Answer tid a =>
      match w_threads w !! tid with
      | None => None
      | Some th =>
          match th_prog th with
          | Ret _ => None
          | Do e k =>
              match do_eff e a (w_state w) (w_cells w) with
              | None => None
              | Some (x, st, cells, spawned) =>
                  Some (mkWorld st cells
                          (<[tid := mkThread (th_call th) (k x)]> (w_threads w) ++ spawned))
              end
          end
      end
  end.

Fixpoint do_steps (w : World) (l : list Choice) : option World :=
  match l with
  | [] => Some w
  | ch :: l' => match do_step w ch with Some w' => do_steps w' l' | None => None end
  end.

Definition world0 : World := mkWorld PoolState_new ∅ [].

(** Reachable by a schedule. *)
Definition reached (l : list Choice) (w : World) : Prop := do_steps world0 l = Some w.

End Semantics.
