(* ===== verification/PoolInv.v ===== *)
(** * The invariant of the pool's state

    What holds of the state behind the lock between two critical sections, that it
    implies [Pool::check_invariants], and that the section helpers preserve it. *)

From S2P Require Import Prelude Text Protocol Account Class Machine Refusal Config Instance Pool.

(** ** Iteration order *)

Lemma elem_of_merge_sort {A} (R : relation A) `{!RelDecision R} (l : list A) x :
  x ∈ merge_sort R l <-> x ∈ l.
Proof. by rewrite merge_sort_Permutation. Qed.

Lemma elem_of_slots_in_order s x : x ∈ slots_in_order s <-> x ∈ s.
Proof. unfold slots_in_order. by rewrite elem_of_merge_sort, elem_of_elements. Qed.

Lemma elem_of_live_slots st s : s ∈ live_slots st <-> is_Some (instances st !! s).
Proof. unfold live_slots. by rewrite elem_of_slots_in_order, elem_of_dom. Qed.

Lemma NoDup_live_slots st : NoDup (live_slots st).
Proof. unfold live_slots, slots_in_order. rewrite merge_sort_Permutation. apply NoDup_elements. Qed.

Lemma elem_of_classes_in_order st c : c ∈ classes_in_order st <-> is_Some (idle st !! c).
Proof. unfold classes_in_order. by rewrite elem_of_merge_sort, elem_of_elements, elem_of_dom. Qed.

Lemma elem_of_entries st i : i ∈ entries st <-> exists s, instances st !! s = Some i.
Proof.
  unfold entries. rewrite list_elem_of_omap. setoid_rewrite elem_of_live_slots. naive_solver.
Qed.

(** ** Idle membership *)

Definition idle_member (st : PoolState) (c : InstanceClass) (s : SlotId) : Prop :=
  exists m, idle st !! c = Some m /\ s ∈ m.

Lemma idle_member_remove st c s c' s' :
  idle_member (remove_from_idle st c s) c' s' <-> idle_member st c' s' /\ ~ (c' = c /\ s' = s).
Proof.
  unfold idle_member, remove_from_idle.
  destruct (idle st !! c) as [m|] eqn:E; [|naive_solver].
  case_bool_decide as He; simpl; setoid_rewrite lookup_delete_Some || setoid_rewrite lookup_insert_Some.
  - split.
    + intros (m' & [Hc Hm] & Hs). naive_solver.
    + intros [(m' & Hm & Hs) Hn]. exists m'. split; [|done]. split; [|done].
      intros <-. assert (m' = m) as -> by congruence. apply Hn. split; [done|].
      assert (s' ∉ m ∖ {[s]}) by (rewrite He; set_solver). set_solver.
  - split.
    + intros (m' & [[<- <-]|[Hc Hm]] & Hs).
      * split; [exists m|]; set_solver.
      * split; [naive_solver|naive_solver].
    + intros [(m' & Hm & Hs) Hn]. destruct (decide (c = c')) as [<-|Hc].
      * assert (m' = m) as -> by congruence. exists (m ∖ {[s]}). split; [by left|set_solver].
      * exists m'. split; [by right|done].
Qed.

Lemma remove_from_idle_fields st c s :
  instances (remove_from_idle st c s) = instances st /\
  next_epoch (remove_from_idle st c s) = next_epoch st /\
  leaked_slots (remove_from_idle st c s) = leaked_slots st /\
  rewarming (remove_from_idle st c s) = rewarming st /\
  pending_leases (remove_from_idle st c s) = pending_leases st /\
  protected_leases (remove_from_idle st c s) = protected_leases st /\
  halted (remove_from_idle st c s) = halted st /\
  shutting_down (remove_from_idle st c s) = shutting_down st.
Proof. unfold remove_from_idle. destruct (idle st !! c); [case_bool_decide|]; done. Qed.

Lemma remove_from_idle_nonempty st c s c' m :
  (forall c m, idle st !! c = Some m -> m <> ∅) ->
  idle (remove_from_idle st c s) !! c' = Some m -> m <> ∅.
Proof.
  intros H. unfold remove_from_idle. destruct (idle st !! c) as [m0|] eqn:E; [|apply H].
  case_bool_decide; simpl; rewrite ?lookup_delete_Some, ?lookup_insert_Some; [naive_solver|].
  intros [[_ <-]|[_ Hm]]; [done|eauto].
Qed.

(** ** The invariant *)

Definition next_of (st : PoolState) (s : SlotId) : N := default 0 (next_epoch st !! s).

Section Invariant.
Variable cfg : PoolConfig.

(** One instance, seen from its slot. *)
Record slot_ok (st : PoolState) (s : SlotId) (i : Instance) : Prop := {
  so_slot : slot i = s;
  so_range : s < pool_size cfg;
  so_paths : paths i = SlotPaths_new (parent_dir cfg) s (epoch i);
  so_epoch : epoch i < next_of st s;
  so_account : has_account cfg (class_account (class i)) = true;
  so_prompt : prompt_fingerprint i = system_prompt_fingerprint cfg;
  so_inst : inst_ok i (recycle_turns cfg) (system_prompt_fingerprint cfg);
  so_conv : forall c, conversation_id i = Some c -> holds_conversation (state i) = true;
}.

Record pool_ok (st : PoolState) : Prop := {
  po_slot : forall s i, instances st !! s = Some i -> slot_ok st s i;
  po_idle : forall c s, idle_member st c s <->
    exists i, instances st !! s = Some i /\ state i = Idle /\ class i = c;
  po_idle_ne : forall c m, idle st !! c = Some m -> m <> ∅;
  po_leaked : forall s, s ∈ leaked_slots st -> s < pool_size cfg /\ instances st !! s = None;
  po_conv : forall s s' i i' c, instances st !! s = Some i -> instances st !! s' = Some i' ->
    conversation_id i = Some c -> conversation_id i' = Some c -> s = s';
  po_pending : forall c s i, c ∈ pending_leases st -> instances st !! s = Some i ->
    conversation_id i <> Some c;
  po_serving : shutting_down st = false;
}.

Lemma pool_ok_new : pool_ok PoolState_new.
Proof.
  unfold PoolState_new. split; simpl; try done.
  - intros c s. split; [intros (m & Hm & _)|intros (i & Hi & _)];
      simpl in *; [by rewrite lookup_empty in Hm|by rewrite lookup_empty in Hi].
Qed.

(** ** The code's own checker accepts it *)

Lemma live_leaked_fit st : pool_ok st ->
  N.of_nat (size (instances st)) + N.of_nat (size (leaked_slots st)) <= pool_size cfg.
Proof.
  intros H. rewrite <-size_dom.
  set (all := list_to_set (C := gset N) (N.of_nat <$> seq 0 (N.to_nat (pool_size cfg)))).
  assert (dom (instances st) ## leaked_slots st) as Hdis.
  { intros s Hs Hl. apply elem_of_dom in Hs as [i Hi].
    destruct (po_leaked _ H s Hl) as [_ Hn]. congruence. }
  assert (size (dom (instances st) ∪ leaked_slots st) <= size all)%nat as Hle.
  { apply subseteq_size. intros s. unfold all. rewrite elem_of_list_to_set, list_elem_of_fmap.
    rewrite elem_of_union, elem_of_dom. intros Hs. exists (N.to_nat s).
    rewrite N2Nat.id, elem_of_seq. split; [done|].
    assert (s < pool_size cfg); [|lia].
    destruct Hs as [[i Hi]|Hs]; [by eapply so_range, po_slot|by apply (po_leaked _ H)]. }
  rewrite size_union in Hle by done.
  assert (size all <= N.to_nat (pool_size cfg))%nat; [|lia].
  unfold all. rewrite size_list_to_set.
  - by rewrite length_fmap, length_seq.
  - apply NoDup_fmap; [apply _|apply NoDup_seq].
Qed.

Lemma each_ok_Ok {A E} (f : A -> result unit E) l :
  (forall x, x ∈ l -> f x = Ok tt) -> each_ok f l = Ok tt.
Proof.
  induction l as [|a l IH]; intros H; simpl; [done|].
  rewrite (H a) by (apply elem_of_cons; auto). simpl. apply IH. intros x Hx. apply H.
  apply elem_of_cons; auto.
Qed.

Lemma u32_of_len_le n : u32_of_len n <= N.of_nat n.
Proof. unfold u32_of_len. lia. Qed.

Lemma pool_ok_checks st : pool_size cfg <= U32_MAX -> pool_ok st ->
  pool_check_invariants cfg st = Ok tt.
Proof.
  intros Hsz H. unfold pool_check_invariants, capacity, live.
  pose proof (live_leaked_fit _ H). unfold u32_of_len.
  destruct (N.ltb_spec (pool_size cfg - N.min (N.of_nat (size (leaked_slots st))) U32_MAX)
    (N.min (N.of_nat (size (instances st))) U32_MAX)); [lia|].
  rewrite each_ok_Ok; simpl.
  - apply each_ok_Ok. intros s [i Hi]%elem_of_live_slots. unfold check_live_slot. rewrite Hi.
    pose proof (po_slot _ H _ _ Hi) as Hs.
    rewrite bool_decide_eq_false_2.
    2:{ intros Hl. destruct (po_leaked _ H s Hl). congruence. }
    unfold is_idle. case_bool_decide as Hid; simpl.
    + destruct (proj2 (po_idle _ H (class i) s)) as (m & -> & Hm); [by eauto|].
      rewrite bool_decide_eq_true_2 by done. simpl.
      by rewrite (proj2 (check_invariants_ok _ _ _) (so_inst _ _ _ Hs)).
    + by rewrite (proj2 (check_invariants_ok _ _ _) (so_inst _ _ _ Hs)).
  - intros c _. destruct (idle st !! c) as [m|] eqn:E; [|done].
    apply each_ok_Ok. intros s Hs%elem_of_slots_in_order. unfold check_idle_member.
    destruct (proj1 (po_idle _ H c s)) as (i & -> & Hid & <-); [by exists m|].
    unfold is_idle. by rewrite !bool_decide_eq_true_2.
Qed.

(** ** Changing one slot *)

(** Every field but [instances] and [idle] is the same. *)
Definition same_rest (st st' : PoolState) : Prop :=
  next_epoch st' = next_epoch st /\ leaked_slots st' = leaked_slots st /\
  rewarming st' = rewarming st /\ pending_leases st' = pending_leases st /\
  protected_leases st' = protected_leases st /\ halted st' = halted st /\
  shutting_down st' = shutting_down st.

Lemma pool_ok_put st st' s i' :
  pool_ok st ->
  instances st' = <[s := i']> (instances st) ->
  (forall x, next_of st x <= next_of st' x) ->
  leaked_slots st' = leaked_slots st -> s ∉ leaked_slots st ->
  pending_leases st' ⊆ pending_leases st ->
  shutting_down st' = shutting_down st ->
  slot_ok st' s i' ->
  (forall c x, idle_member st' c x <->
     (x = s /\ state i' = Idle /\ class i' = c) \/ (x <> s /\ idle_member st c x)) ->
  (forall c m, idle st' !! c = Some m -> m <> ∅) ->
  (forall c, conversation_id i' = Some c -> (c ∉ pending_leases st') /\
     forall s2 i2, s2 <> s -> instances st !! s2 = Some i2 -> conversation_id i2 <> Some c) ->
  pool_ok st'.
Proof.
  intros H Hi Hn Hl Hs Hp Hsd Hso Hid Hne Hc. split.
  - intros x i. rewrite Hi, lookup_insert_Some. intros [[<- <-]|[Hx Hix]]; [done|].
    destruct (po_slot _ H _ _ Hix) as []. split; try done. specialize (Hn x). lia.
  - intros c x. rewrite Hid, Hi. setoid_rewrite lookup_insert_Some. rewrite (po_idle _ H).
    destruct (decide (x = s)) as [->|Hx]; naive_solver.
  - done.
  - intros x Hx. rewrite Hl in Hx. destruct (po_leaked _ H x Hx) as [? Hnone]. split; [done|].
    rewrite Hi, lookup_insert_ne; [done|]. intros ->. done.
  - intros s1 s2 i1 i2 c. rewrite Hi, !lookup_insert_Some.
    intros [[<- <-]|[Hn1 H1]] [[<- <-]|[Hn2 H2]] Hc1 Hc2; [done| | |by eapply po_conv].
    + destruct (Hc c Hc1) as [_ Hf]. exfalso. by eapply (Hf s2 i2).
    + destruct (Hc c Hc2) as [_ Hf]. exfalso. by eapply (Hf s1 i1).
  - intros c x i Hcp. rewrite Hi, lookup_insert_Some. intros [[<- <-]|[Hx Hix]].
    + intros Hci. by destruct (Hc c Hci).
    + eapply po_pending; [done|by apply Hp|done].
  - rewrite Hsd. apply (po_serving _ H).
Qed.

Lemma pool_ok_drop st st' s :
  pool_ok st ->
  instances st' = delete s (instances st) ->
  next_epoch st' = next_epoch st ->
  (leaked_slots st' = leaked_slots st \/
   leaked_slots st' = {[s]} ∪ leaked_slots st /\ s < pool_size cfg) ->
  pending_leases st' = pending_leases st ->
  shutting_down st' = shutting_down st ->
  (forall c x, idle_member st' c x <-> idle_member st c x /\ x <> s) ->
  (forall c m, idle st' !! c = Some m -> m <> ∅) ->
  pool_ok st'.
Proof.
  intros H Hi Hn Hl Hp Hsd Hid Hne. split.
  - intros x i. rewrite Hi, lookup_delete_Some. intros [Hx Hix].
    destruct (po_slot _ H _ _ Hix) as []. split; try done. unfold next_of in *. by rewrite Hn.
  - intros c x. rewrite Hid, Hi, (po_idle _ H). setoid_rewrite lookup_delete_Some. naive_solver.
  - done.
  - intros x Hx. rewrite Hi. destruct (decide (x = s)) as [->|Hxs].
    + rewrite lookup_delete_eq. split; [|done].
      destruct Hl as [Hl|[_ ?]]; [|done]. rewrite Hl in Hx. by apply (po_leaked _ H).
    + rewrite lookup_delete_ne by done. apply (po_leaked _ H).
      destruct Hl as [Hl|[Hl _]]; rewrite Hl in Hx; [done|].
      apply elem_of_union in Hx as [Hx%elem_of_singleton|?]; done.
  - intros s1 s2 i1 i2 c. rewrite Hi, !lookup_delete_Some. intros [_ H1] [_ H2]. by eapply po_conv.
  - intros c x i. rewrite Hp, Hi, lookup_delete_Some. intros Hc [_ Hx]. by eapply po_pending.
  - rewrite Hsd. apply (po_serving _ H).
Qed.

(** ** Transitions *)

Lemma transition_locked_Ok st s t next st' :
  transition_locked cfg st s t = Ok (next, st') <->
  exists i, instances st !! s = Some i /\ step (state i) t = Ok next /\
    inst_ok (candidate_of i t next) (recycle_turns cfg) (system_prompt_fingerprint cfg) /\
    st' = (let st1 := set_instances (<[s := candidate_of i t next]> (instances st)) st in
           if is_idle (state i) && negb (is_idle next) then remove_from_idle st1 (class i) s else st1).
Proof.
  unfold transition_locked. destruct (instances st !! s) as [i|]; [|naive_solver].
  rewrite result_bind_Ok. setoid_rewrite map_err_Ok. split.
  - intros (n & Hn & H). destruct (check_invariants _ _ _) as [[]|] eqn:E; [|done].
    apply check_invariants_ok in E. injection H as <- <-. eauto.
  - intros (i' & [= <-] & Hn & Hok & ->). exists next. split; [done|].
    by rewrite (proj2 (check_invariants_ok _ _ _) Hok).
Qed.

Lemma step_holds_conversation s t next :
  step s t = Ok next -> holds_conversation s = true -> ends_conversation t = false ->
  holds_conversation next = true.
Proof. destruct s, t; simpl; try done; by intros [= <-]. Qed.

Record trans_post (st : PoolState) (s : SlotId) (i : Instance) (t : Transition)
    (next : InstanceState) (st' : PoolState) : Prop := {
  tp_instances : instances st' = <[s := candidate_of i t next]> (instances st);
  tp_rest : same_rest st st';
  tp_idle : forall c x, idle_member st' c x <->
    idle_member st c x /\ ~ (state i = Idle /\ next <> Idle /\ c = class i /\ x = s);
}.

Lemma transition_post st s t next st' :
  transition_locked cfg st s t = Ok (next, st') ->
  exists i, instances st !! s = Some i /\ step (state i) t = Ok next /\
    inst_ok (candidate_of i t next) (recycle_turns cfg) (system_prompt_fingerprint cfg) /\
    trans_post st s i t next st'.
Proof.
  intros (i & Hi & Hstep & Hok & ->)%transition_locked_Ok. exists i. split_and!; try done.
  cbv zeta. unfold is_idle. set (st1 := set_instances _ st).
  destruct (bool_decide (state i = Idle) && negb (bool_decide (next = Idle))) eqn:E.
  - apply andb_true_iff in E as [E1%bool_decide_eq_true E2%negb_true_iff%bool_decide_eq_false].
    destruct (remove_from_idle_fields st1 (class i) s) as (F1 & F2 & F3 & F4 & F5 & F6 & F7 & F8).
    split; [by rewrite F1|unfold same_rest; rewrite F2, F3, F4, F5, F6, F7, F8; done|].
    intros c x. rewrite idle_member_remove. change (idle_member st1 c x) with (idle_member st c x).
    naive_solver.
  - split; [done|done|]. intros c x. change (idle_member st1 c x) with (idle_member st c x).
    apply andb_false_iff in E as [E%bool_decide_eq_false|E%negb_false_iff%bool_decide_eq_true]; naive_solver.
Qed.

Lemma transition_idle_ne st s t next st' c m :
  pool_ok st -> transition_locked cfg st s t = Ok (next, st') -> idle st' !! c = Some m -> m <> ∅.
Proof.
  intros H (i & Hi & Hstep & Hok & ->)%transition_locked_Ok. cbv zeta.
  destruct (_ && _); [|apply (po_idle_ne _ H)].
  apply remove_from_idle_nonempty. apply (po_idle_ne _ H).
Qed.

(** The candidate keeps the identity of its instance. *)
Lemma slot_ok_candidate st st' s i t next :
  slot_ok st s i -> (forall x, next_of st x <= next_of st' x) -> step (state i) t = Ok next ->
  inst_ok (candidate_of i t next) (recycle_turns cfg) (system_prompt_fingerprint cfg) ->
  slot_ok st' s (candidate_of i t next).
Proof.
  intros [] Hn Hstep Hok. split; try done.
  - simpl. specialize (Hn s). lia.
  - intros c. simpl. destruct (ends_conversation t) eqn:E; [done|]. intros Hc.
    eapply step_holds_conversation; eauto.
Qed.

Lemma same_rest_next st st' x : same_rest st st' -> next_of st' x = next_of st x.
Proof. unfold next_of. by intros (-> & _). Qed.

(** A transition whose target is not [Idle] preserves the invariant. *)
Lemma transition_ok st s t next st' :
  pool_ok st -> transition_locked cfg st s t = Ok (next, st') -> next <> Idle -> pool_ok st'.
Proof.
  intros H Ht Hne. destruct (transition_post _ _ _ _ _ Ht) as (i & Hi & Hstep & Hok & [Hin Hr Hid]).
  pose proof (po_slot _ H _ _ Hi) as Hs.
  assert (forall x, next_of st' x = next_of st x) as Hn by (intros; by apply same_rest_next).
  destruct Hr as (R1 & R2 & R3 & R4 & R5 & R6 & R7).
  eapply (pool_ok_put st st' s (candidate_of i t next)); try done.
  - intros x. rewrite Hn. lia.
  - intros Hl. destruct (po_leaked _ H s Hl). congruence.
  - by rewrite R4.
  - eapply slot_ok_candidate; try done. intros x. rewrite Hn. lia.
  - intros c x. rewrite Hid, (po_idle _ H). simpl. split.
    + intros [(i' & Hi' & Hst & Hc) Hn']. right. split; [|naive_solver].
      intros ->. apply Hn'. naive_solver.
    + intros [(_ & ? & _)|(Hx & i' & Hi' & Hst & Hc)]; [done|]. split; [naive_solver|naive_solver].
  - intros c m. by eapply transition_idle_ne.
  - intros c. simpl. destruct (ends_conversation t); [done|]. intros Hc. rewrite R4. split.
    + intros Hp. by eapply po_pending.
    + intros s2 i2 Hs2 Hi2 Hc2. apply Hs2. by eapply (po_conv _ H s2 s i2 i c).
Qed.

Lemma transition_succeeds st s i t next :
  instances st !! s = Some i -> step (state i) t = Ok next ->
  inst_ok (candidate_of i t next) (recycle_turns cfg) (system_prompt_fingerprint cfg) ->
  exists st', transition_locked cfg st s t = Ok (next, st') /\ trans_post st s i t next st'.
Proof.
  intros Hi Hstep Hok. eexists.
  assert (transition_locked cfg st s t = Ok (next, _)) as E by (apply transition_locked_Ok; eauto).
  split; [exact E|]. apply transition_post in E as (i' & Hi' & _ & _ & ?). congruence.
Qed.

(** ** Moves: a section that rewrites the instance of one slot *)

Record slot_move (st : PoolState) (s : SlotId) (st' : PoolState) (i' : Instance) : Prop := {
  sm_ok : pool_ok st';
  sm_rest : same_rest st st';
  sm_instances : instances st' = <[s := i']> (instances st);
}.

Lemma same_rest_trans st st1 st2 : same_rest st st1 -> same_rest st1 st2 -> same_rest st st2.
Proof. unfold same_rest. intuition congruence. Qed.

Lemma slot_move_lookup st s st' i' : slot_move st s st' i' -> instances st' !! s = Some i'.
Proof. intros []. by rewrite sm_instances0, lookup_insert_eq. Qed.

Lemma slot_move_trans st s st1 i1 st2 i2 :
  slot_move st s st1 i1 -> slot_move st1 s st2 i2 -> slot_move st s st2 i2.
Proof.
  intros [] []. split; [done|by eapply same_rest_trans|].
  by rewrite sm_instances1, sm_instances0, insert_insert_eq.
Qed.

Lemma slot_move_transition st s i t next :
  pool_ok st -> instances st !! s = Some i -> step (state i) t = Ok next -> next <> Idle ->
  inst_ok (candidate_of i t next) (recycle_turns cfg) (system_prompt_fingerprint cfg) ->
  exists st', transition_locked cfg st s t = Ok (next, st') /\
    slot_move st s st' (candidate_of i t next).
Proof.
  intros H Hi Hstep Hne Hok. destruct (transition_succeeds st s i t next) as (st' & E & []); try done.
  exists st'. split; [done|]. split; [by eapply transition_ok|done|done].
Qed.

(** An edit that keeps identity, class and state. *)
Lemma slot_move_edit st s i i' :
  pool_ok st -> instances st !! s = Some i -> slot_ok st s i' ->
  state i' = state i -> class i' = class i ->
  (forall c, conversation_id i' = Some c -> (c ∉ pending_leases st) /\
     forall s2 i2, s2 <> s -> instances st !! s2 = Some i2 -> conversation_id i2 <> Some c) ->
  slot_move st s (set_instances (<[s := i']> (instances st)) st) i'.
Proof.
  intros H Hi Hs Hst Hcl Hc. split; [|done|done].
  apply (pool_ok_put st _ s i'); try done.
  - intros Hl. destruct (po_leaked _ H s Hl). congruence.
  - by destruct Hs.
  - intros c x. change (idle_member (set_instances _ st) c x) with (idle_member st c x).
    rewrite (po_idle _ H), Hst, Hcl. destruct (decide (x = s)) as [->|]; naive_solver.
  - apply (po_idle_ne _ H).
Qed.

(** The conversation an instance already names is no obstacle to an edit. *)
Lemma own_conversation_ok st s i c :
  pool_ok st -> instances st !! s = Some i -> conversation_id i = Some c ->
  (c ∉ pending_leases st) /\
  forall s2 i2, s2 <> s -> instances st !! s2 = Some i2 -> conversation_id i2 <> Some c.
Proof.
  intros H Hi Hc. split.
  - intros Hp. by eapply po_pending.
  - intros s2 i2 Hne Hi2 Hc2. apply Hne. by eapply (po_conv _ H s2 s).
Qed.

Lemma try_transition_Ok st s t next st' :
  transition_locked cfg st s t = Ok (next, st') -> try_transition cfg st s t = st'.
Proof. unfold try_transition. by intros ->. Qed.

Lemma transition_or_internal_Ok st s t next st' :
  transition_locked cfg st s t = Ok (next, st') ->
  transition_or_internal cfg st s t = Ok (next, st').
Proof. unfold transition_or_internal. by intros ->. Qed.

Lemma transition_or_internal_inv st s t next st' :
  transition_or_internal cfg st s t = Ok (next, st') ->
  transition_locked cfg st s t = Ok (next, st').
Proof. unfold transition_or_internal. by rewrite map_err_Ok. Qed.

(** ** Publication *)

Lemma idle_member_publish st c s c' s' :
  idle_member (set_idle (<[c := {[s]} ∪ default ∅ (idle st !! c)]> (idle st)) st) c' s' <->
  (c' = c /\ s' = s) \/ idle_member st c' s'.
Proof.
  unfold idle_member. simpl. setoid_rewrite lookup_insert_Some. split.
  - intros (m & [[<- <-]|[Hc Hm]] & Hs); [|eauto].
    apply elem_of_union in Hs as [->%elem_of_singleton|Hs]; [auto|].
    destruct (idle st !! c) as [m|]; simpl in Hs; [eauto|set_solver].
  - intros [[-> ->]|(m & Hm & Hs)].
    + eexists. split; [by left|set_solver].
    + destruct (decide (c = c')) as [<-|]; [|eauto].
      eexists. split; [by left|]. rewrite Hm. set_solver.
Qed.

Lemma publish_idle_ok now st s t st' :
  pool_ok st -> is_proof_carrying t = true ->
  publish_idle_locked cfg now st s t = (true, st') ->
  exists i, instances st !! s = Some i /\ step (state i) t = Ok Idle /\
    slot_move st s st' (with_idle_since now (candidate_of i t Idle)) /\
    inst_ok (candidate_of i t Idle) (recycle_turns cfg) (system_prompt_fingerprint cfg).
Proof.
  intros H Ht. unfold publish_idle_locked.
  destruct (transition_locked cfg st s t) as [[next st1]|] eqn:E; [|done].
  destruct (transition_post _ _ _ _ _ E) as (i & Hi & Hstep & Hok & [Hin Hr Hid]).
  rewrite Hin, lookup_insert_eq. intros [= <-]. exists i.
  assert (next = Idle /\ state i <> Idle) as [-> Hni].
  { destruct t; try done; destruct (state i); simpl in Hstep; try done; by injection Hstep as <-. }
  split_and!; try done.
  assert (forall x, next_of st1 x = next_of st x) as Hn by (intros; by apply same_rest_next).
  set (st' := set_idle _ _). set (i' := with_idle_since now (candidate_of i t Idle)).
  assert (instances st' = <[s := i']> (instances st)) as Hinst.
  { simpl. by rewrite insert_insert_eq. }
  split; [|done|done].
  destruct Hr as (R1 & R2 & R3 & R4 & R5 & R6 & R7).
  eapply (pool_ok_put st st' s i'); try done.
  - intros x. change (next_of st' x) with (next_of st1 x). rewrite Hn. lia.
  - intros Hl. destruct (po_leaked _ H s Hl). congruence.
  - simpl. by rewrite R4.
  - assert (slot_ok st1 s (candidate_of i t Idle)) as [].
    { eapply (slot_ok_candidate st st1); [by apply (po_slot _ H)| |done|done].
      intros x. rewrite Hn. lia. }
    by split.
  - intros c x. etransitivity; [apply (idle_member_publish st1 (class i) s c x)|].
    rewrite Hid, (po_idle _ H). simpl. split.
    + intros [[-> ->]|[(i2 & Hi2 & Hst & Hc) _]]; [by left|].
      right. split; [|naive_solver]. intros ->. naive_solver.
    + intros [(-> & _ & <-)|[Hx (i2 & Hi2 & Hst & Hc)]]; [by left|]. right. naive_solver.
  - intros c m. unfold st'. simpl. rewrite lookup_insert_Some.
    intros [[_ <-]|[_ Hm]]; [set_solver|]. by eapply (transition_idle_ne st s t Idle st1).
  - intros c. simpl. destruct (ends_conversation t); [done|]. intros Hc. rewrite R4.
    by eapply own_conversation_ok.
Qed.

Lemma publish_idle_false now st s t st' :
  publish_idle_locked cfg now st s t = (false, st') -> st' = st.
Proof.
  unfold publish_idle_locked. destruct (transition_locked cfg st s t) as [[next st1]|] eqn:E.
  - destruct (transition_post _ _ _ _ _ E) as (i & Hi & _ & _ & [Hin _ _]).
    by rewrite Hin, lookup_insert_eq.
  - by intros [= <-].
Qed.

(** ** Reservation *)

Definition fresh (s : SlotId) (e : Epoch) (c : InstanceClass) : Instance :=
  reserved s e c (SlotPaths_new (parent_dir cfg) s e) (system_prompt_fingerprint cfg).

Lemma reserve_locked_ok st s c :
  pool_ok st -> instances st !! s = None -> s ∉ leaked_slots st -> s < pool_size cfg ->
  has_account cfg (class_account c) = true -> next_of st s < U64_MAX ->
  let st' := reserve_locked cfg st s c in
  pool_ok st' /\ instances st' = <[s := fresh s (next_of st s) c]> (instances st) /\
  next_epoch st' = <[s := next_of st s + 1]> (next_epoch st) /\
  pending_leases st' = pending_leases st /\ rewarming st' = rewarming st /\
  shutting_down st' = shutting_down st.
Proof.
  intros H Hi Hl Hs Hc He. unfold reserve_locked. simpl.
  change (default 0 (next_epoch st !! s)) with (next_of st s).
  rewrite saturating_add_small by (unfold U64_MAX in *; lia).
  split_and!; try done. set (st' := set_instances _ _).
  assert (next_of st' s = next_of st s + 1) as Hns.
  { unfold next_of, st'. simpl. by rewrite lookup_insert_eq. }
  eapply (pool_ok_put st st' s (fresh s (next_of st s) c)); try done.
  - intros x. destruct (decide (x = s)) as [->|Hx]; [lia|].
    unfold next_of, st'. simpl. rewrite lookup_insert_ne by done. lia.
  - split; try done. simpl. lia.
  - intros c' x. change (idle_member st' c' x) with (idle_member st c' x). split.
    + intros Hm. right. split; [|done]. intros ->. apply (po_idle _ H) in Hm as (i & ? & _). congruence.
    + by intros [(_ & ? & _)|[_ ?]].
  - apply (po_idle_ne _ H).
Qed.

(** ** Dropping an instance *)

Lemma pool_ok_remove st s i (leaked : bool) :
  pool_ok st -> instances st !! s = Some i -> state i <> Idle ->
  let st1 := set_instances (delete s (instances st)) st in
  pool_ok (if leaked then set_leaked ({[s]} ∪ leaked_slots st) st1 else st1).
Proof.
  intros H Hi Hst. simpl. pose proof (so_range _ _ _ (po_slot _ H _ _ Hi)) as Hr.
  assert (forall c x, idle_member st c x <-> idle_member st c x /\ x <> s) as Hid.
  { intros c x. rewrite (po_idle _ H). split; [|naive_solver]. intros (i2 & Hi2 & Hs2 & Hc2).
    split; [eauto|]. intros ->. congruence. }
  destruct leaked; apply (pool_ok_drop st _ s); try done; try (by left); try (by right);
    apply (po_idle_ne _ H).
Qed.

(** ** Looking slots up *)

Lemma free_slot_Some st s : free_slot st (pool_size cfg) = Some s ->
  instances st !! s = None /\ (s ∉ leaked_slots st) /\ s < pool_size cfg.
Proof.
  unfold free_slot. intros [Hin Hb]%find_first_Some.
  apply andb_true_iff in Hb as [H1%negb_true_iff%bool_decide_eq_false H2%negb_true_iff%bool_decide_eq_false].
  apply list_elem_of_fmap in Hin as (n & -> & Hn). apply elem_of_seq in Hn.
  split_and!; [by apply eq_None_not_Some|done|lia].
Qed.

Lemma lru_of_Some st c s : lru_of st c = Some s -> idle_member st c s /\
  forall s', idle_member st c s' -> idle_key st s <= idle_key st s'.
Proof.
  unfold lru_of, idle_member. destruct (idle st !! c) as [m|]; simpl; [|done].
  intros [Hin Hmin]%min_by_key_Some. split.
  - exists m. split; [done|]. by apply elem_of_slots_in_order.
  - intros s' (m' & [= <-] & Hs'). apply Hmin. by apply elem_of_slots_in_order.
Qed.

Lemma lru_of_None st c : pool_ok st -> lru_of st c = None <-> idle st !! c = None.
Proof.
  intros H. unfold lru_of. destruct (idle st !! c) as [m|] eqn:E; simpl; [|done].
  split; [|done]. rewrite min_by_key_None. intros Hn. exfalso. apply (po_idle_ne _ H c m E).
  apply set_eq. intros x. rewrite <-elem_of_slots_in_order, Hn. set_solver.
Qed.

Lemma lru_of_idle st c s : pool_ok st -> lru_of st c = Some s ->
  exists i, instances st !! s = Some i /\ state i = Idle /\ class i = c.
Proof. intros H [Hm _]%lru_of_Some. by apply (po_idle _ H). Qed.

Lemma cold_swap_victim_idle st s : pool_ok st -> cold_swap_victim st = Some s ->
  exists i, instances st !! s = Some i /\ state i = Idle.
Proof.
  intros H. unfold cold_swap_victim. intros [Hin _]%min_by_key_Some.
  apply list_elem_of_omap in Hin as (c & _ & Hl). apply lru_of_idle in Hl as (i & ? & ? & _); eauto.
Qed.

End Invariant.
