(* ===== verification/Ownership.v ===== *)
(** * Dividing a state between threads

    Threads that share a state own disjoint parts of it. [owns] says how a list of
    threads divides a map of resources, each thread with what it needs by [ok]; the
    program logics of the pool and of the conversation book are stated with it. *)

From S2P Require Import Prelude.

(** Splitting off the part of one thread. *)
Lemma frame_insert `{Countable K} {V} (R F : gmap K V) k v :
  R ##ₘ F -> is_Some (R !! k) \/ (R ∪ F) !! k = None ->
  <[k := v]> R ##ₘ F /\ <[k := v]> (R ∪ F) = <[k := v]> R ∪ F.
Proof.
  intros Hd Hk. assert (F !! k = None) as HF.
  { destruct Hk as [[x Hx]|Hn]; [by eapply map_disjoint_Some_l|by apply lookup_union_None in Hn as []]. }
  split; [by apply map_disjoint_insert_l|by rewrite insert_union_l].
Qed.

Lemma frame_delete `{Countable K} {V} (R F : gmap K V) k :
  R ##ₘ F -> is_Some (R !! k) ->
  delete k R ##ₘ F /\ delete k (R ∪ F) = delete k R ∪ F.
Proof.
  intros Hd [v Hv]. assert (F !! k = None) as HF by (by eapply map_disjoint_Some_l).
  split; [by apply map_disjoint_delete_l|]. by rewrite delete_union, (delete_id F).
Qed.

Section Owns.
Context `{Countable K} {V Th : Type} (ok : Th -> gmap K V -> Prop).

Inductive owns : list Th -> gmap K V -> Prop :=
| owns_nil : owns [] ∅
| owns_cons th ths R F : ok th R -> owns ths F -> R ##ₘ F -> owns (th :: ths) (R ∪ F).

Lemma owns_app l1 l2 T1 T2 : owns l1 T1 -> owns l2 T2 -> T1 ##ₘ T2 -> owns (l1 ++ l2) (T1 ∪ T2).
Proof.
  intros H1 H2. induction H1 as [|th ths R F Hth H1 IH Hd]; intros Hd2; simpl.
  - by rewrite (left_id_L ∅ (∪)).
  - apply map_disjoint_union_l in Hd2 as [Hd3 Hd4]. rewrite <-(assoc_L (∪)).
    constructor; [done|by apply IH|]. by apply map_disjoint_union_r.
Qed.

(** One thread may be replaced by another that shares as well with the rest. *)
Lemma owns_split ths T tid th :
  owns ths T -> ths !! tid = Some th ->
  exists R F, T = R ∪ F /\ R ##ₘ F /\ ok th R /\
    forall th' R', ok th' R' -> R' ##ₘ F -> owns (<[tid := th']> ths) (R' ∪ F).
Proof.
  intros Hown. revert tid. induction Hown as [|th0 ths R F Hth Hown IH Hd]; intros tid; [done|].
  destruct tid as [|tid]; simpl.
  - intros [= ->]. exists R, F. split_and!; try done. intros. by constructor.
  - intros Htid. destruct (IH _ Htid) as (R1 & F1 & -> & Hd1 & Hok & Hrec).
    apply map_disjoint_union_r in Hd as [HdR HdF].
    exists R1, (R ∪ F1). split_and!; try done.
    + rewrite (assoc_L (∪)), (map_union_comm R R1) by done. by rewrite <-(assoc_L (∪)).
    + apply map_disjoint_union_r. split; [done|done].
    + intros th' R' Hok' [Hd2 Hd3]%map_disjoint_union_r.
      rewrite (assoc_L (∪)), (map_union_comm R' R) by done. rewrite <-(assoc_L (∪)).
      constructor; [done|by apply Hrec|]. by apply map_disjoint_union_r.
Qed.

Lemma owns_thread th R : ok th R -> owns [th] R.
Proof.
  intros Hok. rewrite <-(right_id_L ∅ (∪) R). constructor; [done|constructor|apply map_disjoint_empty_r].
Qed.

Lemma owns_snoc ths th T : owns ths T -> ok th ∅ -> owns (ths ++ [th]) T.
Proof.
  intros Hown Hok. rewrite <-(right_id_L ∅ (∪) T).
  apply owns_app; [done|by apply owns_thread|apply map_disjoint_empty_r].
Qed.

(** What two threads own is disjoint. *)
Lemma owns_two ths T i j p q :
  owns ths T -> ths !! i = Some p -> ths !! j = Some q -> i <> j ->
  exists R S, ok p R /\ ok q S /\ R ##ₘ S.
Proof.
  intros Hown. revert i j p q. induction Hown as [|th ths R F Hth Hown IH Hd]; intros i j p q; [done|].
  destruct i as [|i], j as [|j]; cbn; intros Hi Hj Hne; [done| | |by eapply IH; eauto].
  - injection Hi as ->. destruct (owns_split _ _ _ _ Hown Hj) as (S & F' & -> & _ & HS & _).
    exists R, S. apply map_disjoint_union_r in Hd as [? _]. done.
  - injection Hj as ->. destruct (owns_split _ _ _ _ Hown Hi) as (S & F' & -> & _ & HS & _).
    exists S, R. apply map_disjoint_union_r in Hd as [? _]. done.
Qed.

(** Threads that need nothing own nothing. *)
Lemma owns_nothing ths T :
  owns ths T -> (forall th R, th ∈ ths -> ok th R -> R = ∅) -> T = ∅.
Proof.
  induction 1 as [|th ths R F Hth Hown IH Hd]; intros Hno; [done|].
  rewrite (Hno th R), IH by (done || set_solver). apply (left_id_L ∅ (∪)).
Qed.

(** The same division as a list of shares. *)
Lemma owns_list ths T : owns ths T ->
  exists Rs, length Rs = length ths /\
    (forall tid th R, ths !! tid = Some th -> Rs !! tid = Some R ->
       ok th R /\ R ⊆ T) /\
    (forall t1 t2 R1 R2 k, Rs !! t1 = Some R1 -> Rs !! t2 = Some R2 ->
       is_Some (R1 !! k) -> is_Some (R2 !! k) -> t1 = t2) /\
    (forall k v, T !! k = Some v -> exists tid R, Rs !! tid = Some R /\ R !! k = Some v).
Proof.
  induction 1 as [|th ths R F Hth Hown (Rs & Hlen & Hok & Hdis & Hcov) Hd].
  - exists []. split_and!; done.
  - exists (R :: Rs). split_and!; [simpl; by rewrite Hlen| | |].
    + intros [|tid] th' R'; simpl.
      * intros [= <-] [= <-]. split; [done|]. apply map_union_subseteq_l.
      * intros H1 H2. destruct (Hok _ _ _ H1 H2) as [? ?]. split; [done|].
        etransitivity; [done|]. by apply map_union_subseteq_r.
    + assert (forall t2 R2 k, Rs !! t2 = Some R2 -> is_Some (R !! k) -> is_Some (R2 !! k) -> False) as Hno.
      { intros t2 R2 k HR2 [v Hv] [v2 Hv2].
        destruct (lookup_lt_is_Some_2 ths t2) as [th2 Hth2].
        { rewrite <-Hlen. apply lookup_lt_is_Some_1. eauto. }
        destruct (Hok _ _ _ Hth2 HR2) as [_ Hsub].
        eapply map_disjoint_spec; [exact Hd|exact Hv|].
        by eapply lookup_weaken. }
      intros [|t1] [|t2] R1 R2 k; simpl; [done| | |].
      * intros [= <-] HR2 H1 H2. exfalso. eauto.
      * intros HR1 [= <-] H1 H2. exfalso. eauto.
      * intros HR1 HR2 H1 H2. f_equal. eauto.
    + intros k v Hv. apply lookup_union_Some in Hv as [Hv|Hv]; [by exists 0%nat, R| |done].
      destruct (Hcov k v Hv) as (tid & R' & ? & ?). by exists (S tid), R'.
Qed.

End Owns.
