(* ===== verification/PoolLogic.v ===== *)
(** * A program logic of ownership for the pool's operations

    Threads share the state behind the lock and own parts of it: the slots they
    are working on (with the exact instance, and what is known of its process), the
    conversations they are about to bind and the classes they are re-warming. An
    instance nobody owns is [Idle] or [Leased]. [wp] is a weakest precondition in
    which every critical section must preserve the pool invariant and everybody
    else's resources; [wf_reached] is its adequacy: in every interleaving without
    a shutdown, every reachable world is divided between its threads. *)

From S2P Require Import Prelude Text Protocol Account Class Machine Refusal Config Instance Composer Pool PoolProg PoolSem PoolInv Ownership.

(** ** Resources *)

Inductive Key :=
| KSlot (s : SlotId)
| KConv (c : string)
| KWarm (c : InstanceClass).

#[global] Instance Key_eq_dec : EqDecision Key.
Proof. solve_decision. Defined.
#[global] Instance Key_countable : Countable Key.
Proof.
  apply (inj_countable' (fun k => match k with KSlot s => inl s | KConv c => inr (inl c) | KWarm c => inr (inr c) end)
    (fun x => match x with inl s => KSlot s | inr (inl c) => KConv c | inr (inr c) => KWarm c end)).
  by intros [].
Defined.

(** What an owner knows of the process in its epoch directory: it is dead, it is
    dead or runs under this handle, or nothing. *)
Inductive Know :=
| KDead
| KMay (h : InstanceHandle)
| KAny.

Inductive Val :=
| VSlot (i : Instance) (k : Know)
| VTok.

Abbreviation Res := (gmap Key Val) (only parsing).

Definition cell_ok (k : Know) (c : option Cell) : Prop :=
  match k with
  | KDead => maybe_live c = false
  | KMay h => maybe_live c = false \/ c = Some (Running h)
  | KAny => True
  end.

(** The states in which nobody works on an instance. *)
Definition parked (s : InstanceState) : bool :=
  match s with Idle | Leased => true | _ => false end.

Record Own (st : PoolState) (cells : Cells) (T : Res) : Prop := {
  own_slot : forall s v, T !! KSlot s = Some v -> exists i k, v = VSlot i k /\
    instances st !! s = Some i /\ parked (state i) = false /\ cell_ok k (cells !! (s, epoch i));
  own_free : forall s i, instances st !! s = Some i -> T !! KSlot s = None ->
    parked (state i) = true /\
    exists h, handle i = Some h /\ cell_ok (KMay h) (cells !! (s, epoch i));
  own_conv : forall c, c ∈ pending_leases st <-> is_Some (T !! KConv c);
  own_warm : forall c, c ∈ rewarming st <-> is_Some (T !! KWarm c);
  own_epochs : forall s e, is_Some (cells !! (s, e)) -> e < next_of st s;
}.

Lemma Own_new : Own PoolState_new ∅ ∅.
Proof.
  split.
  - intros s v. by rewrite lookup_empty.
  - intros s i Hi. unfold PoolState_new in Hi. cbn [instances] in Hi. by rewrite lookup_empty in Hi.
  - intros c. rewrite lookup_empty. split; [|by intros []]. intros Hc.
    by apply (elem_of_empty (C := gset string)) in Hc.
  - intros c. rewrite lookup_empty. split; [|by intros []]. intros Hc.
    by apply (elem_of_empty (C := gset InstanceClass)) in Hc.
  - intros s e. rewrite lookup_empty. by intros [].
Qed.

(** ** Changing the division of the state *)

Definition same_tokens (st st' : PoolState) : Prop :=
  pending_leases st' = pending_leases st /\ rewarming st' = rewarming st /\
  (forall x, next_of st x <= next_of st' x).

Lemma same_rest_tokens st st' : same_rest st st' -> same_tokens st st'.
Proof.
  intros H. pose proof (fun x => same_rest_next st st' x H) as Hn.
  destruct H as (_ & _ & ? & ? & _). split_and!; try done. intros x. rewrite Hn. lia.
Qed.

Lemma Own_set st st' cells T s i' k' :
  Own st cells T -> same_tokens st st' -> instances st' = <[s := i']> (instances st) ->
  parked (state i') = false -> cell_ok k' (cells !! (s, epoch i')) ->
  Own st' cells (<[KSlot s := VSlot i' k']> T).
Proof.
  intros H (Hp & Hw & Hn) Hi Hst Hk. split.
  - intros x v. rewrite lookup_insert_Some, Hi. intros [[[= <-] <-]|[Hne Hx]].
    + exists i', k'. by rewrite lookup_insert_eq.
    + rewrite lookup_insert_ne by congruence. by apply (own_slot _ _ _ H).
  - intros x i. rewrite Hi, lookup_insert_Some, lookup_insert_None. intros [[<- <-]|[Hne Hx]] [Hnone Hk'].
    + done.
    + by apply (own_free _ _ _ H).
  - intros c. rewrite lookup_insert_ne by done. rewrite Hp. apply (own_conv _ _ _ H).
  - intros c. rewrite lookup_insert_ne by done. rewrite Hw. apply (own_warm _ _ _ H).
  - intros x e Hx. specialize (own_epochs _ _ _ H x e Hx). specialize (Hn x). lia.
Qed.

Lemma Own_park st st' cells T s i' h :
  Own st cells T -> same_tokens st st' -> instances st' = <[s := i']> (instances st) ->
  parked (state i') = true -> handle i' = Some h -> cell_ok (KMay h) (cells !! (s, epoch i')) ->
  Own st' cells (delete (KSlot s) T).
Proof.
  intros H (Hp & Hw & Hn) Hi Hst Hh Hk. split.
  - intros x v. rewrite lookup_delete_Some, Hi. intros [Hne Hx].
    rewrite lookup_insert_ne by congruence. by apply (own_slot _ _ _ H).
  - intros x i. rewrite Hi, lookup_insert_Some, lookup_delete_None.
    intros [[<- <-]|[Hne Hx]] Hd; [by eauto|].
    destruct Hd as [[= Heq]|Hnone]; [done|]. by apply (own_free _ _ _ H).
  - intros c. rewrite lookup_delete_ne by done. rewrite Hp. apply (own_conv _ _ _ H).
  - intros c. rewrite lookup_delete_ne by done. rewrite Hw. apply (own_warm _ _ _ H).
  - intros x e Hx. specialize (own_epochs _ _ _ H x e Hx). specialize (Hn x). lia.
Qed.

Lemma Own_drop st st' cells T s :
  Own st cells T -> same_tokens st st' -> instances st' = delete s (instances st) ->
  Own st' cells (delete (KSlot s) T).
Proof.
  intros H (Hp & Hw & Hn) Hi. split.
  - intros x v. rewrite lookup_delete_Some, Hi. intros [Hne Hx].
    rewrite lookup_delete_ne by congruence. by apply (own_slot _ _ _ H).
  - intros x i. rewrite Hi, lookup_delete_Some, lookup_delete_None.
    intros [Hne Hx] Hd. destruct Hd as [[= Heq]|Hnone]; [done|]. by apply (own_free _ _ _ H).
  - intros c. rewrite lookup_delete_ne by done. rewrite Hp. apply (own_conv _ _ _ H).
  - intros c. rewrite lookup_delete_ne by done. rewrite Hw. apply (own_warm _ _ _ H).
  - intros x e Hx. specialize (own_epochs _ _ _ H x e Hx). specialize (Hn x). lia.
Qed.

(** A section that leaves slots and tokens alone. *)
Lemma Own_same st st' cells T :
  Own st cells T -> same_tokens st st' -> instances st' = instances st -> Own st' cells T.
Proof.
  intros H (Hp & Hw & Hn) Hi. destruct H. split.
  - by rewrite Hi.
  - by rewrite Hi.
  - by rewrite Hp.
  - by rewrite Hw.
  - intros x e Hx. specialize (own_epochs0 x e Hx). specialize (Hn x). lia.
Qed.

Lemma Own_take_conv st cells T c :
  Own st cells T -> Own (set_pending ({[c]} ∪ pending_leases st) st) cells (<[KConv c := VTok]> T).
Proof.
  intros []. split; try done; simpl.
  - intros s v. rewrite lookup_insert_ne by done. apply own_slot0.
  - intros s i. rewrite lookup_insert_ne by done. apply own_free0.
  - intros c'. destruct (decide (c = c')) as [<-|Hne].
    + rewrite lookup_insert_eq. set_solver.
    + rewrite lookup_insert_ne by congruence. rewrite <-own_conv0. set_solver.
  - intros c'. rewrite lookup_insert_ne by done. apply own_warm0.
Qed.

Lemma Own_drop_conv st cells T c :
  Own st cells T -> Own (set_pending (pending_leases st ∖ {[c]}) st) cells (delete (KConv c) T).
Proof.
  intros []. split; try done; simpl.
  - intros s v. rewrite lookup_delete_ne by done. apply own_slot0.
  - intros s i. rewrite lookup_delete_ne by done. apply own_free0.
  - intros c'. destruct (decide (c = c')) as [<-|Hne].
    + rewrite lookup_delete_eq. split; [set_solver|by intros []].
    + rewrite lookup_delete_ne by congruence. rewrite <-own_conv0. set_solver.
  - intros c'. rewrite lookup_delete_ne by done. apply own_warm0.
Qed.

Lemma Own_take_warm st cells T c :
  Own st cells T -> Own (set_rewarming ({[c]} ∪ rewarming st) st) cells (<[KWarm c := VTok]> T).
Proof.
  intros []. split; try done; simpl.
  - intros s v. rewrite lookup_insert_ne by done. apply own_slot0.
  - intros s i. rewrite lookup_insert_ne by done. apply own_free0.
  - intros c'. rewrite lookup_insert_ne by done. apply own_conv0.
  - intros c'. destruct (decide (c = c')) as [<-|Hne].
    + rewrite lookup_insert_eq. set_solver.
    + rewrite lookup_insert_ne by congruence. rewrite <-own_warm0. set_solver.
Qed.

Lemma Own_drop_warm st cells T c :
  Own st cells T -> Own (set_rewarming (rewarming st ∖ {[c]}) st) cells (delete (KWarm c) T).
Proof.
  intros []. split; try done; simpl.
  - intros s v. rewrite lookup_delete_ne by done. apply own_slot0.
  - intros s i. rewrite lookup_delete_ne by done. apply own_free0.
  - intros c'. rewrite lookup_delete_ne by done. apply own_conv0.
  - intros c'. destruct (decide (c = c')) as [<-|Hne].
    + rewrite lookup_delete_eq. split; [set_solver|by intros []].
    + rewrite lookup_delete_ne by congruence. rewrite <-own_warm0. set_solver.
Qed.

Lemma Own_lookup st cells R F s i k :
  Own st cells (R ∪ F) -> R ##ₘ F -> R !! KSlot s = Some (VSlot i k) ->
  instances st !! s = Some i /\ parked (state i) = false /\ cell_ok k (cells !! (s, epoch i)).
Proof.
  intros H Hd HR. destruct (own_slot _ _ _ H s (VSlot i k)) as (i' & k' & [= <- <-] & ?); [|done].
  by rewrite (lookup_union_Some_l R F _ _ HR).
Qed.

Lemma Own_not_parked st cells T s i :
  Own st cells T -> instances st !! s = Some i -> parked (state i) = true -> T !! KSlot s = None.
Proof.
  intros H Hi Hp. destruct (T !! KSlot s) as [v|] eqn:E; [|done].
  destruct (own_slot _ _ _ H s v E) as (i' & k' & -> & Hi' & Hp' & _). congruence.
Qed.

(** ** Weakest preconditions *)

Section Logic.
Variable cfg : PoolConfig.
Variable nfc : list N -> list N.
Variable str_debug : string -> string.

(** A critical section takes at most one epoch per slot. *)
Definition grows (st st' : PoolState) : Prop := forall x, next_of st' x <= next_of st x + 1.

(** The turn a call may run on an instance: the class the request resolves to, the
    validated prompt, and for a sticky turn the conversation of the instance. *)
Definition serves (call : Call) (i : Instance) (prompt : list N) : Prop :=
  match call with
  | CRun rq =>
      exists resolved, resolve_request cfg nfc str_debug rq = Ok (prompt, class i, resolved)
  | CRunSticky c rq _ =>
      conversation_id i = Some c /\
      exists resolved, resolve_request cfg nfc str_debug rq = Ok (prompt, class i, resolved)
  | _ => False
  end.

(** The epoch directory of a slot this thread owns, its process dead. *)
Definition dead_dir (R : Res) (p : Path) : Prop :=
  exists s i, R !! KSlot s = Some (VSlot i KDead) /\ state i = Destroying /\
    p = epoch_dir (SlotPaths_new (parent_dir cfg) s (epoch i)).

(** A retained copy below the retention directory. *)
Definition retained_dir (p : Path) : Prop :=
  exists d s e, retain_dir cfg = Some d /\
    p = path_join d (stamp (epoch_dir (SlotPaths_new (parent_dir cfg) s e))).

(** What a spawned task is given. *)
Definition task_pre (t : Task) (R : Res) : Prop :=
  match t with
  | TClear s => exists i h, R = {[KSlot s := VSlot i (KMay h)]} /\ state i = Clearing /\ handle i = Some h
  | TRewarm c => R = {[KWarm c := VTok]} /\ has_account cfg (class_account c) = true
  end.

Definition wp_eff (call : Call) {X : Set} (e : Eff X) (R : Res) : (X -> Res -> Prop) -> Prop :=
  match e in Eff X return (X -> Res -> Prop) -> Prop with
  | ELock f => fun Φ =>
      forall now st cells F, pool_ok cfg st -> R ##ₘ F -> Own st cells (R ∪ F) ->
        (forall x, next_of st x < U64_MAX) ->
        exists R', R' ##ₘ F /\ pool_ok cfg (snd (f now st)) /\
          Own (snd (f now st)) cells (R' ∪ F) /\ grows st (snd (f now st)) /\
          Φ (fst (f now st)) R'
  | EMint spec => fun Φ =>
      exists i, R !! KSlot (ms_slot spec) = Some (VSlot i KDead) /\ ms_epoch spec = epoch i /\
        ms_root spec = root (paths i) /\ ms_class spec = class i /\ state i = Warming /\
        mint_in_flight i = true /\ handle i = None /\
        (forall h, Φ (Ok h) (<[KSlot (ms_slot spec) := VSlot i (KMay h)]> R)) /\
        (forall f, Φ (Err f)
           (<[KSlot (ms_slot spec) := VSlot i (if process_may_survive f then KAny else KDead)]> R))
  | ERunTurn h prompt _ => fun Φ =>
      (exists s i, R !! KSlot s = Some (VSlot i (KMay h)) /\ state i = CheckedOut /\
         handle i = Some h /\ serves call i prompt) /\
      forall x, Φ x R
  | EClear h => fun Φ =>
      (exists s i, R !! KSlot s = Some (VSlot i (KMay h)) /\ state i = Clearing /\
         handle i = Some h) /\
      forall x, Φ x R
  | EDestroy h => fun Φ =>
      exists s i, R !! KSlot s = Some (VSlot i (KMay h)) /\ state i = Destroying /\
        handle i = Some h /\
        forall x, Φ x (if was_reaped x then <[KSlot s := VSlot i KDead]> R else R)
  | ERemoveDirAll p => fun Φ => (dead_dir R p \/ retained_dir p) /\ forall x, Φ x R
  | ERename from to => fun Φ => (dead_dir R from /\ retained_dir to) /\ forall x, Φ x R
  | ESpawn t => fun Φ =>
      exists R1 R2, R = R1 ∪ R2 /\ R1 ##ₘ R2 /\ task_pre t R1 /\ Φ tt R2
  | EPanic _ => fun _ => False
  | EOutOfFuel => fun _ => True
  | _ => fun Φ => forall x, Φ x R
  end.

Fixpoint wp (call : Call) {A} (p : Prog A) (R : Res) (Q : A -> Res -> Prop) : Prop :=
  match p with
  | Ret a => Q a R
  | Do e k => wp_eff call e R (fun x R' => wp call (k x) R' Q)
  end.

Lemma wp_eff_mono call {X : Set} (e : Eff X) R (Φ Ψ : X -> Res -> Prop) :
  (forall x R', Φ x R' -> Ψ x R') -> wp_eff call e R Φ -> wp_eff call e R Ψ.
Proof.
  intros HΦ. destruct e; simpl; try (by eauto); try (by intros [??]; eauto).
  - intros H now st cells F H1 H2 H3 H4. destruct (H now st cells F H1 H2 H3 H4) as (R' & ?).
    exists R'. intuition.
  - intros (i & ?). exists i. intuition.
  - intros (s & i & ?). exists s, i. intuition.
  - intros (R1 & R2 & ?). exists R1, R2. intuition.
Qed.

Lemma wp_mono call {A} (p : Prog A) R (Q Q' : A -> Res -> Prop) :
  (forall a R', Q a R' -> Q' a R') -> wp call p R Q -> wp call p R Q'.
Proof.
  intros HQ. revert R. induction p as [a|X e k IH]; intros R; simpl; [apply HQ|].
  apply wp_eff_mono. eauto.
Qed.

Lemma wp_bind call {A B} (p : Prog A) (k : A -> Prog B) R Q :
  wp call p R (fun a R' => wp call (k a) R' Q) -> wp call (pbind p k) R Q.
Proof.
  revert R. induction p as [a|X e c IH]; intros R; simpl; [done|].
  apply wp_eff_mono. eauto.
Qed.

Lemma wp_try call {A B E} (p : Prog (result A E)) (k : A -> Prog (result B E)) R Q :
  wp call p R (fun r R' => match r with Ok a => wp call (k a) R' Q | Err e => Q (Err e) R' end) ->
  wp call (try_bind p k) R Q.
Proof. intros H. apply wp_bind. eapply wp_mono; [|exact H]. by intros [a|e] R'. Qed.

(** ** Adequacy *)

Definition thread_ok (th : Thread) (R : Res) : Prop :=
  wp (th_call th) (th_prog th) R (fun _ R' => R' = ∅).

Lemma Own_mint st cells T s i c k k' :
  pool_ok cfg st -> Own st cells T -> T !! KSlot s = Some (VSlot i k) -> cell_ok k' (Some c) ->
  Own st (<[(s, epoch i) := c]> cells) (<[KSlot s := VSlot i k']> T).
Proof.
  intros Hp H Hs Hk. destruct (own_slot _ _ _ H _ _ Hs) as (i0 & k0 & [= <- <-] & Hi & Hst & _).
  split.
  - intros x v. rewrite lookup_insert_Some. intros [[[= <-] <-]|[Hne Hx]].
    + exists i, k'. by rewrite lookup_insert_eq.
    + destruct (own_slot _ _ _ H _ _ Hx) as (i2 & k2 & -> & ? & ? & ?). exists i2, k2.
      split_and!; try done. rewrite lookup_insert_ne; [done|]. intros [= ??]. congruence.
  - intros x i2 Hi2. rewrite lookup_insert_None. intros [Hnone Hne].
    destruct (own_free _ _ _ H _ _ Hi2 Hnone) as (? & h & ? & ?). split; [done|]. exists h.
    split; [done|]. rewrite lookup_insert_ne; [done|]. intros [= ??]. congruence.
  - intros c'. rewrite lookup_insert_ne by done. apply (own_conv _ _ _ H).
  - intros c'. rewrite lookup_insert_ne by done. apply (own_warm _ _ _ H).
  - intros x e. destruct (decide ((s, epoch i) = (x, e))) as [[= <- <-]|Hne].
    + intros _. by apply (po_slot _ _ Hp).
    + rewrite lookup_insert_ne by done. apply (own_epochs _ _ _ H).
Qed.

Lemma cell_ok_reap k (c : option Cell) h r :
  cell_ok k c -> cell_ok k (if was_reaped r then (fun c => if bool_decide (c = Running h) then Gone else c) <$> c else c).
Proof.
  destruct (was_reaped r); [|done]. destruct c as [c|]; [|done]. simpl. case_bool_decide; [|done].
  destruct k; simpl; auto.
Qed.

Lemma lookup_reap (h : InstanceHandle) (r : result Destroyed HostFailure) (cells : Cells) (x : SlotId * Epoch) :
  cells_reap h r cells !! x =
  if was_reaped r then (fun c => if bool_decide (c = Running h) then Gone else c) <$> cells !! x
  else cells !! x.
Proof. unfold cells_reap. destruct (was_reaped r); [by rewrite lookup_fmap|done]. Qed.

Lemma Own_reap st cells T h r : Own st cells T -> Own st (cells_reap h r cells) T.
Proof.
  intros []. split; try done.
  - intros s v Hv. destruct (own_slot0 s v Hv) as (i & k & -> & ? & ? & ?). exists i, k.
    split_and!; try done. rewrite lookup_reap. by apply cell_ok_reap.
  - intros s i Hi HT. destruct (own_free0 s i Hi HT) as (? & h' & ? & ?). split; [done|].
    exists h'. split; [done|]. rewrite lookup_reap. by apply cell_ok_reap.
  - intros s e. rewrite lookup_reap. intros He. apply (own_epochs0 s e).
    destruct (was_reaped r); [|done]. destruct (cells !! (s, e)); [done|by destruct He].
Qed.

Lemma Own_reaped st cells T s i h r :
  Own st cells T -> T !! KSlot s = Some (VSlot i (KMay h)) -> was_reaped r = true ->
  Own st (cells_reap h r cells) (<[KSlot s := VSlot i KDead]> T).
Proof.
  intros H Hs Hr. destruct (own_slot _ _ _ H _ _ Hs) as (i0 & k0 & [= <- <-] & Hi & Hst & Hk).
  pose proof (Own_reap _ _ _ h r H) as H'.
  assert (same_tokens st st) as Hsame by (split_and!; try done; lia).
  eapply Own_set; [exact H'|exact Hsame| |done|].
  - by rewrite insert_id.
  - rewrite lookup_reap, Hr. destruct Hk as [Hk| ->]; simpl.
    + destruct (cells !! (s, epoch i)) as [[]|]; simpl in *; done.
    + by rewrite bool_decide_eq_true_2.
Qed.

Hypothesis calls_ok : forall call, external call = true -> call <> CShutdown ->
  wp call (prog_of cfg nfc str_debug call) ∅ (fun _ R => R = ∅).
Hypothesis tasks_ok : forall t R, task_pre t R ->
  wp (CTask t) (prog_of cfg nfc str_debug (CTask t)) R (fun _ R => R = ∅).

Record wf (n : N) (w : World) : Prop := {
  wf_pool : pool_ok cfg (w_state w);
  wf_epochs : forall x, next_of (w_state w) x <= n;
  wf_owns : exists T, Own (w_state w) (w_cells w) T /\ owns thread_ok (w_threads w) T;
}.

(** The host answered a launch. *)
Lemma mint_answered call spec r st cells R F (Φ : result InstanceHandle HostFailure -> Res -> Prop) :
  wp_eff call (EMint spec) R Φ -> pool_ok cfg st -> R ##ₘ F -> Own st cells (R ∪ F) ->
  exists R', R' ##ₘ F /\ Own st (cells_mint spec r cells) (R' ∪ F) /\ Φ r R'.
Proof.
  intros (i & Hi & He & _ & _ & _ & _ & _ & HOk & HErr) Hp Hd HT.
  assert ((R ∪ F) !! KSlot (ms_slot spec) = Some (VSlot i KDead)) as HT' by (by apply lookup_union_Some_l).
  unfold cells_mint. rewrite He.
  set (k := match r with Ok h => KMay h | Err f => if process_may_survive f then KAny else KDead end).
  destruct (frame_insert R F (KSlot (ms_slot spec)) (VSlot i k)) as [Hd' Heq]; [done|by left; eauto|].
  exists (<[KSlot (ms_slot spec) := VSlot i k]> R). split_and!; [done| |by destruct r].
  rewrite <-Heq. eapply (Own_mint _ _ _ _ _ _ _ k); [done|exact HT|exact HT'|].
  subst k. destruct r as [h|f]; [by right|by destruct (process_may_survive f)].
Qed.

(** The host answered a teardown. *)
Lemma destroy_answered call h r st cells R F (Φ : result Destroyed HostFailure -> Res -> Prop) :
  wp_eff call (EDestroy h) R Φ -> R ##ₘ F -> Own st cells (R ∪ F) ->
  exists R', R' ##ₘ F /\ Own st (cells_reap h r cells) (R' ∪ F) /\ Φ r R'.
Proof.
  intros (s & i & Hi & _ & _ & Hwp) Hd HT. specialize (Hwp r). destruct (was_reaped r) eqn:Er.
  - destruct (frame_insert R F (KSlot s) (VSlot i KDead)) as [Hd' Heq]; [done|by left; eauto|].
    eexists. split_and!; [exact Hd'| |exact Hwp]. rewrite <-Heq.
    eapply Own_reaped; [exact HT|by apply lookup_union_Some_l|done].
  - exists R. split_and!; [done|by apply Own_reap|done].
Qed.

(** One effect: the thread keeps a part that satisfies what it needs, and a spawned
    thread is handed the rest. *)
Lemma eff_answered call {X : Set} (e : Eff X) a st cells x st' cells' spawned R F
    (Φ : X -> Res -> Prop) :
  do_eff cfg nfc str_debug e a st cells = Some (x, st', cells', spawned) ->
  wp_eff call e R Φ -> pool_ok cfg st -> R ##ₘ F -> Own st cells (R ∪ F) ->
  (forall y, next_of st y < U64_MAX) ->
  exists R' S, R' ##ₘ F /\ R' ∪ F ##ₘ S /\ pool_ok cfg st' /\ grows st st' /\
    Own st' cells' ((R' ∪ F) ∪ S) /\ owns thread_ok spawned S /\ Φ x R'.
Proof.
  intros Ee Hwp Hp Hd HT Hn.
  assert (Hgo : forall cells0 R', spawned = [] -> st' = st -> cells' = cells0 -> R' ##ₘ F ->
    Own st cells0 (R' ∪ F) -> Φ x R' ->
    exists R' S, R' ##ₘ F /\ R' ∪ F ##ₘ S /\ pool_ok cfg st' /\ grows st st' /\
      Own st' cells' ((R' ∪ F) ∪ S) /\ owns thread_ok spawned S /\ Φ x R').
  { intros cells0 R' -> -> -> Hd' HO' HΦ. exists R', ∅. rewrite (right_id_L ∅ (∪)).
    split_and!; try done; [apply map_disjoint_empty_r|intros y; lia|constructor]. }
  destruct e; simpl in Ee; destruct a; try discriminate Ee; try (injection Ee as <- <- <- <-).
  all: try (eapply Hgo; [done|done|done|exact Hd|done|]; simpl in Hwp; by (destruct Hwp; eauto) || by eauto).
  - destruct (section n st) as [x0 st0] eqn:Es. injection Ee as <- <- <- <-.
    destruct (Hwp n st cells F) as (R' & Hd' & Hp' & HO' & Hg & HΦ); try done.
    rewrite Es in *. exists R', ∅. rewrite (right_id_L ∅ (∪)).
    split_and!; try done; [apply map_disjoint_empty_r|constructor].
  - destruct (mint_answered _ _ r _ _ _ _ _ Hwp Hp Hd HT) as (R' & ? & ? & ?). by eapply Hgo.
  - destruct (destroy_answered _ _ r _ _ _ _ _ Hwp Hd HT) as (R' & ? & ? & ?). by eapply Hgo.
  - destruct Hwp as (R1 & R2 & -> & Hd12 & Hpre & HΦ). apply map_disjoint_union_l in Hd as [Hd1 Hd2].
    exists R2, R1. split_and!; try done.
    + apply map_disjoint_union_l; by split.
    + intros y. lia.
    + rewrite (map_union_comm (R2 ∪ F) R1) by (apply map_disjoint_union_l; by split).
      by rewrite (assoc_L (∪)).
    + apply owns_thread. by apply (tasks_ok t).
Qed.

Lemma wf_step n w ch w' :
  n < U64_MAX -> wf n w -> ch <> Invoke CShutdown ->
  do_step cfg nfc str_debug w ch = Some w' -> wf (n + 1) w'.
Proof.
  intros Hn [Hpool Hep (T & HT & Hown)] Hch. destruct ch as [call|tid a]; simpl.
  - destruct (external call) eqn:E; [|done]. intros [= <-]. split; simpl; [done| |].
    + intros x. specialize (Hep x). lia.
    + exists (T ∪ ∅). rewrite (right_id_L ∅ (∪)). split; [done|].
      rewrite <-(right_id_L ∅ (∪) T). apply owns_app; [done| |apply map_disjoint_empty_r].
      apply owns_thread, (calls_ok call); [done|]. intros ->. done.
  - destruct (w_threads w !! tid) as [th|] eqn:Eth; [|done].
    destruct (th_prog th) as [|X e k] eqn:Ep; [done|].
    destruct (do_eff cfg nfc str_debug e a (w_state w) (w_cells w)) as [[[[x st] cells] spawned]|] eqn:Ee;
      [|done].
    intros [= <-]. destruct (owns_split _ _ _ _ _ Hown Eth) as (R & F & -> & Hd & Hok & Hput).
    unfold thread_ok in Hok. rewrite Ep in Hok.
    destruct (eff_answered _ e a _ _ x st cells spawned R F _ Ee Hok Hpool Hd HT)
      as (R' & S & Hd' & HdS & Hp' & Hg & HO' & Hsp & Hwp).
    { intros y. specialize (Hep y). lia. }
    split; simpl; [done| |].
    + intros y. specialize (Hg y). specialize (Hep y). lia.
    + exists ((R' ∪ F) ∪ S). split; [done|]. apply owns_app; [by apply Hput|done|done].
Qed.

Lemma wf_steps n w l w' :
  n + N.of_nat (length l) < U64_MAX -> wf n w -> Forall (fun ch => ch <> Invoke CShutdown) l ->
  do_steps cfg nfc str_debug w l = Some w' -> wf (n + N.of_nat (length l)) w'.
Proof.
  revert n w. induction l as [|ch l IH]; intros n w Hn Hw Hl; simpl.
  - intros [= <-]. by rewrite N.add_0_r.
  - apply Forall_cons in Hl as [Hch Hl]. destruct (do_step _ _ _ w ch) as [w1|] eqn:E; [|done].
    intros Hs. simpl in Hn. replace (n + N.of_nat (S (length l))) with (n + 1 + N.of_nat (length l)) by lia.
    apply (IH _ w1); try done; [lia|]. eapply wf_step; eauto. lia.
Qed.

Lemma wf_reached l w :
  N.of_nat (length l) < U64_MAX -> Forall (fun ch => ch <> Invoke CShutdown) l ->
  reached cfg nfc str_debug l w -> wf (N.of_nat (length l)) w.
Proof.
  intros Hn Hl Hr. change (N.of_nat (length l)) with (0 + N.of_nat (length l)).
  eapply wf_steps; [done| |done|exact Hr]. split; simpl.
  - apply pool_ok_new.
  - intros x. unfold next_of. simpl. by rewrite lookup_empty.
  - exists ∅. split; [apply Own_new|constructor].
Qed.

End Logic.
