(* ===== verification/PoolProofs.v ===== *)
(** * Every operation of the pool keeps its resources

    The weakest preconditions of the operations of [PoolProg]: each lemma names what
    the operation must own and what it leaves. The last two discharge the
    hypotheses of the adequacy theorem of [PoolLogic]. *)

From S2P Require Import Prelude Text Protocol Account Class Machine Refusal Config Instance Composer Pool PoolProg PoolSem PoolInv Ownership PoolLogic.

Section Proofs.
Variable cfg : PoolConfig.
Variable nfc : list N -> list N.
Variable str_debug : string -> string.
Context `{Hcfg : !ConfigOk cfg}.

#[local] Abbreviation wp := (wp cfg nfc str_debug).
#[local] Abbreviation iok i := (inst_ok i (recycle_turns cfg) (system_prompt_fingerprint cfg)).

(** ** Rules for critical sections *)

Lemma wp_ret call {A} (a : A) R Q : Q a R -> wp call (Ret a) R Q.
Proof. done. Qed.

Lemma wp_read call {A : Set} (f : PoolState -> A) R Q :
  (forall st cells F, pool_ok cfg st -> R ##ₘ F -> Own st cells (R ∪ F) -> Q (f st) R) ->
  wp call (read f) R Q.
Proof.
  intros H now st cells F Hp Hd HO He. exists R. simpl. split_and!; try done; eauto.
  intros x. lia.
Qed.

(** A read of an owned slot. *)
Lemma wp_read_slot call {A : Set} (f : PoolState -> A) R Q s i k :
  R !! KSlot s = Some (VSlot i k) ->
  (forall st, pool_ok cfg st -> instances st !! s = Some i -> Q (f st) R) ->
  wp call (read f) R Q.
Proof.
  intros HR H. apply wp_read. intros st cells F Hp Hd HO.
  destruct (Own_lookup _ _ _ _ _ _ _ HO Hd HR). eauto.
Qed.

Lemma same_rest_grows st st' : same_rest st st' -> grows st st'.
Proof. intros H x. rewrite (same_rest_next _ _ _ H). lia. Qed.

(** A section that rewrites one owned slot, and keeps it or parks it: an instance
    that becomes [Idle] or [Leased] is no longer owned. *)
Lemma wp_own_section call {A : Set} (f : N -> PoolState -> A * PoolState) R Q s i k :
  R !! KSlot s = Some (VSlot i k) ->
  (forall now st, pool_ok cfg st -> instances st !! s = Some i ->
     exists i', slot_move cfg st s (snd (f now st)) i' /\ epoch i' = epoch i /\
       (parked (state i') = false /\ Q (fst (f now st)) (<[KSlot s := VSlot i' k]> R) \/
        parked (state i') = true /\ (exists h, handle i' = Some h /\ k = KMay h) /\
          Q (fst (f now st)) (delete (KSlot s) R))) ->
  wp call (lock f) R Q.
Proof.
  intros HR H now st cells F Hp Hd HO He.
  destruct (Own_lookup _ _ _ _ _ _ _ HO Hd HR) as (Hi & Hpk & Hk).
  destruct (H now st Hp Hi) as (i' & [Hok Hr Hins] & Hep & [[Hpk' HQ]|(Hpk' & (h & Hh & ->) & HQ)]).
  - destruct (frame_insert R F (KSlot s) (VSlot i' k)) as [Hd' Heq]; [done|by left; eauto|].
    exists (<[KSlot s := VSlot i' k]> R). split_and!; try done.
    + rewrite <-Heq. eapply Own_set; [done|by apply same_rest_tokens|done|done|by rewrite Hep].
    + by apply same_rest_grows.
  - destruct (frame_delete R F (KSlot s)) as [Hd' Heq]; [done|by eauto|].
    exists (delete (KSlot s) R). split_and!; try done.
    + rewrite <-Heq. eapply Own_park; [done|by apply same_rest_tokens|done|done|done|by rewrite Hep].
    + by apply same_rest_grows.
Qed.

Lemma wp_slot_section call {A : Set} (f : N -> PoolState -> A * PoolState) R Q s i k :
  R !! KSlot s = Some (VSlot i k) ->
  (forall now st, pool_ok cfg st -> instances st !! s = Some i ->
     exists i', slot_move cfg st s (snd (f now st)) i' /\ parked (state i') = false /\
       epoch i' = epoch i /\ Q (fst (f now st)) (<[KSlot s := VSlot i' k]> R)) ->
  wp call (lock f) R Q.
Proof.
  intros HR H. eapply wp_own_section; [done|]. intros now st Hp Hi.
  destruct (H now st Hp Hi) as (i' & ? & ? & ? & ?). exists i'. auto.
Qed.

(** A section that takes an owned slot out of the map. *)
Lemma wp_drop_section call (f : PoolState -> PoolState) R Q s i k :
  R !! KSlot s = Some (VSlot i k) ->
  (forall st, pool_ok cfg st -> instances st !! s = Some i ->
     pool_ok cfg (f st) /\ instances (f st) = delete s (instances st) /\
     pending_leases (f st) = pending_leases st /\ rewarming (f st) = rewarming st /\
     next_epoch (f st) = next_epoch st) ->
  Q tt (delete (KSlot s) R) ->
  wp call (update f) R Q.
Proof.
  intros HR H HQ now st cells F Hp Hd HO He. simpl.
  destruct (Own_lookup _ _ _ _ _ _ _ HO Hd HR) as (Hi & _ & _).
  destruct (H st Hp Hi) as (Hok & Hins & Hpe & Hrw & Hne).
  destruct (frame_delete R F (KSlot s)) as [Hd' Heq]; [done|by eauto|].
  assert (forall x, next_of (f st) x = next_of st x) as Hn by (intros; unfold next_of; by rewrite Hne).
  exists (delete (KSlot s) R). split_and!; try done.
  - rewrite <-Heq. eapply Own_drop; [done| |done]. split_and!; [done|done|]. intros x. rewrite Hn. lia.
  - intros x. rewrite Hn. lia.
Qed.

(** ** File-system helpers own nothing and keep everything *)

Lemma wp_missing_ancestors call l R Q :
  (forall r, Q r R) -> wp call (missing_ancestors l) R Q.
Proof.
  revert Q. induction l as [|a l IH]; intros Q H; simpl; [apply H|].
  case_bool_decide; [apply H|]. intros [m|e]; [apply H|].
  destruct (io_kind e); try apply H. apply wp_try, IH. intros [up|e']; apply H.
Qed.

Lemma wp_create_down call l R Q : (forall r, Q r R) -> wp call (create_down l) R Q.
Proof.
  revert Q. induction l as [|d l IH]; intros Q H; simpl; [apply H|].
  intros [u|e].
  - intros [u'|e]; [|apply H]. simpl. apply wp_try, IH. intros [c|e]; apply H.
  - destruct (io_kind e); try apply H. by apply IH.
Qed.

Lemma wp_create_private_dir_all call p R Q :
  (forall r, Q r R) -> wp call (create_private_dir_all p) R Q.
Proof.
  intros H. apply wp_try, wp_missing_ancestors. intros [m|e]; [|apply H]. by apply wp_create_down.
Qed.

Lemma wp_pmap_err call {A E F} (f : E -> F) (p : Prog (result A E)) R Q :
  wp call p R (fun r R' => Q (map_err f r) R') -> wp call (pmap_err f p) R Q.
Proof. intros H. by apply wp_bind. Qed.

Lemma wp_create_owner_only call p R Q : (forall r, Q r R) -> wp call (create_owner_only p) R Q.
Proof.
  intros H. apply wp_try, wp_pmap_err, wp_create_private_dir_all. intros [c|e]; [|apply H].
  intros r. apply H.
Qed.

Lemma wp_for_each_ok call {A E} (f : A -> Prog (result unit E)) l R Q :
  (forall x Q', (forall r, Q' r R) -> wp call (f x) R Q') -> (forall r, Q r R) ->
  wp call (for_each_ok f l) R Q.
Proof.
  intros Hf. revert Q. induction l as [|x l IH]; intros Q H; simpl; [apply H|].
  apply wp_try, Hf. intros [u|e]; [by apply IH|apply H].
Qed.

Lemma wp_mint_roots call parent p R Q : (forall r, Q r R) -> wp call (mint_roots parent p) R Q.
Proof.
  intros H. unfold mint_roots. apply wp_bind. intros [|]; simpl; [apply H|].
  destruct (minted_dirs p parent); [|apply H]. apply wp_for_each_ok; [|done].
  intros. by apply wp_create_owner_only.
Qed.

Lemma wp_require_private_parent call p f R Q :
  (forall r, Q r R) -> wp call (require_private_parent p f) R Q.
Proof.
  intros H. unfold require_private_parent. apply wp_try, wp_pmap_err, wp_create_private_dir_all.
  intros [c|e]; [|apply H]. intros [m|e]; [|apply H]. simpl.
  destruct (md_dir m); simpl; [|apply H]. intros uid. simpl.
  destruct (owner_only_violation m uid); apply H.
Qed.

Lemma wp_erase_tree call s i retain R Q :
  R !! KSlot s = Some (VSlot i KDead) -> state i = Destroying ->
  paths i = SlotPaths_new (parent_dir cfg) s (epoch i) ->
  (retain = None \/ retain = retain_dir cfg) ->
  (forall r, Q r R) -> wp call (erase_tree (parent_dir cfg) (paths i) retain) R Q.
Proof.
  intros HR Hst Hpa Hret H. unfold erase_tree.
  assert (dead_dir cfg R (epoch_dir (paths i))) as Hdead by (exists s, i; by rewrite Hpa).
  destruct (negb _); [apply H|]. apply wp_bind. intros [m|e]; simpl.
  - destruct (_ || _); [apply H|]. destruct retain as [d|]; [|split; [by left|done]].
    apply wp_try, wp_create_private_dir_all. intros [c|e]; [|apply H].
    assert (retained_dir cfg (path_join d (stamp (epoch_dir (paths i))))) as Hr.
    { destruct Hret as [|Hd]; [done|]. exists d, s, (epoch i). by rewrite Hpa. }
    intros [|]; simpl.
    + split; [by right|]. intros [u|e]; [|apply H]. split; [by split|]. apply H.
    + split; [by split|]. apply H.
  - destruct (io_kind e); apply H.
Qed.

#[local] Arguments PoolLogic.wp : simpl never.
#[local] Arguments pbind : simpl never.
#[local] Arguments try_bind : simpl never.

(** ** Teardown *)

Lemma free_state_ok i t next :
  match next with Warming | Quarantined | Destroying | Leaked | Retired => True | _ => False end ->
  iok (candidate_of i t next).
Proof. unfold inst_ok. by destruct next. Qed.

Lemma leak_locked_ok st s i :
  pool_ok cfg st -> instances st !! s = Some i -> state i = Destroying ->
  let st' := leak_locked cfg s st in
  pool_ok cfg st' /\ instances st' = delete s (instances st) /\
  pending_leases st' = pending_leases st /\ rewarming st' = rewarming st /\
  next_epoch st' = next_epoch st.
Proof.
  intros Hp Hi Hst. simpl. unfold leak_locked.
  destruct (slot_move_transition cfg st s i ReapFailed Leaked) as (st1 & E & Hm); try done.
  { by rewrite Hst. }
  rewrite (try_transition_Ok _ _ _ _ _ _ E). rewrite (slot_move_lookup _ _ _ _ _ Hm).
  pose proof (pool_ok_remove cfg st1 s _ true (sm_ok _ _ _ _ _ Hm) (slot_move_lookup _ _ _ _ _ Hm)) as Hok.
  destruct Hm as [Hok1 (R1 & R2 & R3 & R4 & _) Hins]. split_and!; try done.
  - by apply Hok.
  - simpl. by rewrite Hins, delete_insert_eq.
Qed.

Lemma release_slot_locked_ok st s i :
  pool_ok cfg st -> instances st !! s = Some i -> state i = Destroying ->
  let st' := release_slot_locked cfg s st in
  pool_ok cfg st' /\ instances st' = delete s (instances st) /\
  pending_leases st' = pending_leases st /\ rewarming st' = rewarming st /\
  next_epoch st' = next_epoch st.
Proof.
  intros Hp Hi Hst. simpl. unfold release_slot_locked.
  destruct (slot_move_transition cfg st s i Reaped Retired) as (st1 & E & Hm); try done.
  { by rewrite Hst. }
  rewrite E.
  pose proof (pool_ok_remove cfg st1 s _ false (sm_ok _ _ _ _ _ Hm) (slot_move_lookup _ _ _ _ _ Hm)) as Hok.
  destruct Hm as [Hok1 (R1 & R2 & R3 & R4 & _) Hins]. split_and!; try done.
  - by apply Hok.
  - simpl. by rewrite Hins, delete_insert_eq.
Qed.

Lemma wp_leak call s i k R Q :
  R !! KSlot s = Some (VSlot i k) -> state i = Destroying -> Q tt (delete (KSlot s) R) ->
  wp call (leak cfg s) R Q.
Proof. intros HR Hst HQ. eapply wp_drop_section; [done| |done]. intros. by eapply leak_locked_ok. Qed.

(** What an owner must know to tear an instance down. *)
Definition teardown_ok (i : Instance) (k : Know) : Prop :=
  match handle i with
  | Some h => k = KMay h
  | None => mint_in_flight i = true \/ k = KDead
  end.

Lemma wp_destroy call s i k R Q :
  R !! KSlot s = Some (VSlot i k) -> state i = Destroying -> teardown_ok i k ->
  Q tt (delete (KSlot s) R) -> wp call (destroy cfg s) R Q.
Proof.
  intros HR Hst Hk HQ. unfold destroy. apply wp_bind. eapply wp_read_slot; [done|].
  intros st Hp Hi. unfold teardown_view. rewrite Hi. simpl. pose proof (so_paths _ _ _ _ (po_slot _ _ Hp _ _ Hi)) as Hpa.
  assert (Hrest : forall R', R' !! KSlot s = Some (VSlot i KDead) -> delete (KSlot s) R' = delete (KSlot s) R ->
    wp call (let! _ := match evidence_dir cfg with
                       | Some dir => perform (EEvidence (root (paths i)) dir)
                       | None => Ret tt
                       end in
             let! erased := erase_tree (parent_dir cfg) (paths i)
                              (if was_quarantined i then retain_dir cfg else None) in
             match erased with
             | Err _ => leak cfg s
             | Ok _ => update (release_slot_locked cfg s)
             end) R' Q).
  { intros R' HR' Hdel. apply wp_bind.
    assert (wp call (let! erased := erase_tree (parent_dir cfg) (paths i)
                              (if was_quarantined i then retain_dir cfg else None) in
             match erased with
             | Err _ => leak cfg s
             | Ok _ => update (release_slot_locked cfg s)
             end) R' Q) as Hw.
    { apply wp_bind. eapply wp_erase_tree; [done|done|done|by destruct (was_quarantined i); auto|].
      intros [u|e].
      - eapply wp_drop_section; [done| |by rewrite Hdel]. intros. by eapply release_slot_locked_ok.
      - eapply wp_leak; [done|done|by rewrite Hdel]. }
    destruct (evidence_dir cfg); [by intros []|exact Hw]. }
  unfold teardown_ok in Hk. destruct (handle i) as [h|] eqn:Eh.
  - subst k. apply wp_bind, wp_bind. exists s, i. split_and!; try done. intros x. do 2 apply wp_ret.
    destruct (was_reaped x).
    + apply Hrest; [by rewrite lookup_insert_eq|by rewrite delete_insert_eq].
    + by eapply wp_leak.
  - apply wp_bind, wp_ret. destruct (mint_in_flight i); [by eapply wp_leak|].
    destruct Hk as [|Hk]; [done|]. subst k. by apply Hrest.
Qed.

Lemma try_move st s i t next :
  pool_ok cfg st -> instances st !! s = Some i -> step (state i) t = Ok next -> next <> Idle ->
  iok (candidate_of i t next) ->
  slot_move cfg st s (try_transition cfg st s t) (candidate_of i t next).
Proof.
  intros Hp Hi Hs Hn Hok. destruct (slot_move_transition cfg st s i t next) as (st' & E & Hm); try done.
  by rewrite (try_transition_Ok _ _ _ _ _ _ E).
Qed.

(** Two transitions in a row, both checked by nothing but the machine. *)
Lemma try_move_twice st s i t1 n1 t2 n2 :
  pool_ok cfg st -> instances st !! s = Some i ->
  step (state i) t1 = Ok n1 -> n1 <> Idle -> iok (candidate_of i t1 n1) ->
  step n1 t2 = Ok n2 -> n2 <> Idle -> iok (candidate_of (candidate_of i t1 n1) t2 n2) ->
  slot_move cfg st s (try_transition cfg (try_transition cfg st s t1) s t2)
    (candidate_of (candidate_of i t1 n1) t2 n2).
Proof.
  intros Hp Hi H1 N1 O1 H2 N2 O2. pose proof (try_move st s i t1 n1 Hp Hi H1 N1 O1) as Hm.
  eapply slot_move_trans; [exact Hm|]. apply try_move; try done.
  - apply Hm.
  - by eapply slot_move_lookup.
Qed.

Lemma wp_quarantine_and_destroy call s i h R Q :
  R !! KSlot s = Some (VSlot i (KMay h)) -> state i = CheckedOut -> handle i = Some h ->
  Q tt (delete (KSlot s) R) -> wp call (quarantine_and_destroy cfg s) R Q.
Proof.
  intros HR Hst Hh HQ. apply wp_bind. eapply wp_slot_section; [done|]. intros now st Hp Hi.
  eexists. split; [apply (try_move_twice st s i _ Quarantined _ Destroying); try done; by rewrite Hst|].
  split_and!; [done|done|]. eapply wp_destroy; [by rewrite lookup_insert_eq|done| |by rewrite delete_insert_eq].
  unfold teardown_ok. simpl. by rewrite Hh.
Qed.

Lemma wp_abandon_unpublishable call s i h R Q teardown :
  R !! KSlot s = Some (VSlot i (KMay h)) -> handle i = Some h ->
  (teardown = AFTER_WARM /\ state i = Warming \/ teardown = AFTER_CLEAR /\ state i = Clearing) ->
  Q tt (delete (KSlot s) R) -> wp call (abandon_unpublishable cfg s teardown) R Q.
Proof.
  intros HR Hh Hst HQ. apply wp_bind. eapply wp_slot_section; [done|]. intros now st Hp Hi.
  destruct Hst as [[-> Hst]|[-> Hst]]; simpl.
  - eexists. split; [apply (try_move st s i _ Destroying); try done; by rewrite Hst|].
    split_and!; [done|done|]. eapply wp_destroy; [by rewrite lookup_insert_eq|done| |by rewrite delete_insert_eq].
    unfold teardown_ok. simpl. by rewrite Hh.
  - eexists. split; [apply (try_move_twice st s i _ Quarantined _ Destroying); try done; by rewrite Hst|].
    split_and!; [done|done|]. eapply wp_destroy; [by rewrite lookup_insert_eq|done| |by rewrite delete_insert_eq].
    unfold teardown_ok. simpl. by rewrite Hh.
Qed.

(** ** Mint *)

Lemma slot_ok_with_mint st s i h b :
  slot_ok cfg st s i -> (state i = Warming \/ state i = Destroying) -> slot_ok cfg st s (with_mint h b i).
Proof.
  intros [] Hst. split; try done. unfold inst_ok. simpl. by destruct Hst as [-> | ->].
Qed.

Lemma slot_move_mint st s i h b :
  pool_ok cfg st -> instances st !! s = Some i -> (state i = Warming \/ state i = Destroying) ->
  slot_move cfg st s (set_instances (<[s := with_mint h b i]> (instances st)) st) (with_mint h b i).
Proof.
  intros Hp Hi Hst. apply (slot_move_edit cfg st s i); try done.
  - apply slot_ok_with_mint; [by apply (po_slot _ _ Hp)|done].
  - intros c Hc. by eapply own_conversation_ok.
Qed.

Lemma wp_abandon_mint call s i k R Q (may_survive : bool) :
  R !! KSlot s = Some (VSlot i k) -> state i = Warming -> handle i = None ->
  (may_survive = false -> k = KDead) -> Q tt (delete (KSlot s) R) ->
  wp call (abandon_mint cfg s may_survive) R Q.
Proof.
  intros HR Hst Hh Hk HQ. apply wp_bind. eapply wp_slot_section; [done|]. intros now st Hp Hi. simpl.
  assert (slot_move cfg st s (try_transition cfg st s MintFailed) (candidate_of i MintFailed Destroying)) as Hm.
  { apply try_move; try done. by rewrite Hst. }
  rewrite (slot_move_lookup _ _ _ _ _ Hm). eexists. split.
  { eapply slot_move_trans; [exact Hm|]. apply slot_move_mint; [apply Hm|by eapply slot_move_lookup|by right]. }
  split_and!; [done|done|]. destruct may_survive.
  - eapply wp_leak; [by rewrite lookup_insert_eq|done|by rewrite delete_insert_eq].
  - eapply wp_destroy; [by rewrite lookup_insert_eq|done| |by rewrite delete_insert_eq].
    unfold teardown_ok. simpl. rewrite Hh. right. by apply Hk.
Qed.

(** A successfully minted instance: warming under its handle. *)
Definition minted (i : Instance) (h : InstanceHandle) : Instance :=
  with_mint (Some h) false (candidate_of i BeginWarm Warming).

Lemma wp_bind_handle call s spec i h R Q :
  R !! KSlot s = Some (VSlot i (KMay h)) -> state i = Warming ->
  Q (Ok tt) (<[KSlot s := VSlot (with_mint (Some h) false i) (KMay h)]> R) ->
  wp call (bind_handle cfg s spec h) R Q.
Proof.
  intros HR Hst HQ. apply wp_bind.
  assert (wp call (let! bound := lock (fun _ => update_instance s (with_mint (Some h) false)) in
    if (bound : bool) then Ret (Ok tt)
    else let! _ := perform (EDestroy h) in
         Ret (Err (internal "a launching slot was torn down before its mint returned"))) R Q) as Hw.
  { apply wp_bind. eapply wp_slot_section; [done|]. intros now st Hp Hi.
    unfold update_instance. rewrite Hi. eexists.
    split; [by apply slot_move_mint; [done|done|left]|]. split_and!; simpl; [by rewrite Hst|done|done]. }
  destruct (pid h); [by intros []|exact Hw].
Qed.

Lemma wp_launch call s spec i R Q :
  R !! KSlot s = Some (VSlot i KDead) -> state i = Warming -> handle i = None ->
  ms_slot spec = s -> ms_epoch spec = epoch i -> ms_root spec = root (paths i) ->
  ms_class spec = class i ->
  (forall e, Q (Err e) (delete (KSlot s) R)) ->
  (forall h, Q (Ok tt) (<[KSlot s := VSlot (with_mint (Some h) false i) (KMay h)]> R)) ->
  wp call (launch cfg s spec) R Q.
Proof.
  intros HR Hst Hh <- He Hr Hc HErr HOk. apply wp_bind. eapply wp_slot_section; [done|].
  intros now st Hp Hi. unfold update_instance. rewrite Hi. eexists.
  split; [by apply slot_move_mint; [done|done|left]|]. split_and!; simpl; [by rewrite Hst|done|].
  apply wp_bind. eexists. rewrite lookup_insert_eq. split_and!; try done.
  - intros h. rewrite insert_insert_eq. eapply wp_bind_handle; [by rewrite lookup_insert_eq|done|].
    rewrite insert_insert_eq. apply HOk.
  - intros f. apply wp_bind.
    eapply wp_abandon_mint; [by rewrite lookup_insert_eq|done|done|by intros ->|].
    rewrite !delete_insert_eq. apply HErr.
Qed.

Lemma wp_mint call s i R Q :
  R !! KSlot s = Some (VSlot i KDead) -> state i = Reserved -> handle i = None ->
  (forall e, Q (Err e) (delete (KSlot s) R)) ->
  (forall h, Q (Ok tt) (<[KSlot s := VSlot (minted i h) (KMay h)]> R)) ->
  wp call (mint cfg s) R Q.
Proof.
  intros HR Hst Hh HErr HOk. apply wp_bind. eapply wp_slot_section; [done|].
  intros now st Hp Hi. unfold begin_mint_locked.
  destruct (slot_move_transition cfg st s i BeginWarm Warming) as (st1 & E & Hmv); try done.
  { by rewrite Hst. }
  rewrite (transition_or_internal_Ok _ _ _ _ _ _ E), (slot_move_lookup _ _ _ _ _ Hmv).
  pose proof (so_account _ _ _ _ (po_slot _ _ Hp _ _ Hi)) as Hacc. unfold has_account in Hacc.
  change (class (candidate_of i BeginWarm Warming)) with (class i).
  destruct (pin_for cfg (class_account (class i))) as [pin|]; [|done].
  eexists. split_and!; [exact Hmv|done|done|]. cbn [fst].
  apply wp_bind, wp_mint_roots. intros [[]|e].
  - eapply (wp_launch _ s _ (candidate_of i BeginWarm Warming));
      [by rewrite lookup_insert_eq|done|done|done|done|done|done| |].
    + intros e. rewrite delete_insert_eq. apply HErr.
    + intros h. rewrite insert_insert_eq. apply HOk.
  - apply wp_bind. eapply wp_abandon_mint; [by rewrite lookup_insert_eq|done|done|done|].
    rewrite delete_insert_eq. apply HErr.
Qed.

(** ** Publication *)

Lemma slot_move_refl st s i : pool_ok cfg st -> instances st !! s = Some i -> slot_move cfg st s st i.
Proof. intros Hp Hi. split; [done|done|by rewrite insert_id]. Qed.

(** The section that publishes: the instance is parked, or nothing happened. *)
Lemma wp_publish_section call s i h t R Q :
  R !! KSlot s = Some (VSlot i (KMay h)) -> is_proof_carrying t = true ->
  handle i = Some h -> parked (state i) = false ->
  Q true (delete (KSlot s) R) -> Q false R ->
  wp call (lock (fun now st => publish_idle_locked cfg now st s t)) R Q.
Proof.
  intros HR Ht Hh Hpk HT HF. eapply wp_own_section; [done|]. intros now st Hp Hi.
  destruct (publish_idle_locked cfg now st s t) as [[|] st'] eqn:E.
  - apply publish_idle_ok in E as (i0 & Hi0 & _ & Hm & _); try done.
    assert (i0 = i) as -> by congruence. eexists. split_and!; [exact Hm|done|right]. split_and!; eauto.
  - apply publish_idle_false in E as ->. exists i. split_and!; [by apply slot_move_refl|done|left].
    split; [done|]. by rewrite insert_id.
Qed.

Lemma wp_publish_idle call s i h R Q :
  R !! KSlot s = Some (VSlot i (KMay h)) -> state i = Warming -> handle i = Some h ->
  Q tt (delete (KSlot s) R) -> wp call (publish_idle cfg s) R Q.
Proof.
  intros HR Hst Hh HQ. apply wp_bind. eapply wp_publish_section; try done; [by rewrite Hst|].
  eapply wp_abandon_unpublishable; [done|done|by left|done].
Qed.

Lemma wp_publish_and_check_out call s i h R Q :
  R !! KSlot s = Some (VSlot i (KMay h)) -> state i = Warming -> handle i = Some h ->
  (forall e, Q (Err e) (delete (KSlot s) R)) ->
  (forall i', state i' = CheckedOut -> handle i' = Some h -> class i' = class i ->
     Q (Ok s) (<[KSlot s := VSlot i' (KMay h)]> R)) ->
  wp call (publish_idle_and_check_out cfg s) R Q.
Proof.
  intros HR Hst Hh HErr HOk. apply wp_bind. eapply wp_own_section; [done|]. intros now st Hp Hi.
  unfold publish_and_check_out_locked.
  destruct (publish_idle_locked cfg now st s WarmProven) as [[|] st1] eqn:E.
  - apply publish_idle_ok in E as (i0 & Hi0 & _ & Hm & _); try done.
    assert (i0 = i) as -> by congruence. set (i1 := with_idle_since now _) in *.
    destruct (transition_or_internal cfg st1 s CheckOut) as [[next st2]|e] eqn:E2.
    + apply transition_or_internal_inv in E2.
      destruct (transition_post _ _ _ _ _ _ E2) as (i2 & Hi2 & Hstep & Hok & [Hin Hr _]).
      rewrite (slot_move_lookup _ _ _ _ _ Hm) in Hi2. injection Hi2 as <-.
      injection Hstep as <-. eexists. split_and!.
      * eapply slot_move_trans; [exact Hm|]. split; [|exact Hr|exact Hin].
        eapply transition_ok; [apply Hm|exact E2|done].
      * done.
      * left. split; [done|]. by apply HOk.
    + exists i1. split_and!; [exact Hm|done|right]. split_and!; [done|by eauto|apply HErr].
  - apply publish_idle_false in E as ->. exists i. split_and!; [by apply slot_move_refl|done|left].
    split; [by rewrite Hst|]. rewrite insert_id by done. apply wp_bind.
    eapply wp_abandon_unpublishable; [done|done|by left|apply HErr].
Qed.

(** ** Background work *)

Lemma wp_spawn_clear call s i h R Q :
  R !! KSlot s = Some (VSlot i (KMay h)) -> state i = Clearing -> handle i = Some h ->
  Q tt (delete (KSlot s) R) -> wp call (spawn_clear s) R Q.
Proof.
  intros HR Hst Hh HQ. exists {[KSlot s := VSlot i (KMay h)]}, (delete (KSlot s) R). split_and!.
  - by rewrite <-insert_union_singleton_l, insert_delete_id.
  - apply map_disjoint_singleton_l, lookup_delete_eq.
  - exists i, h. done.
  - done.
Qed.

Lemma wp_spawn_rewarm call c R Q :
  R !! KWarm c = Some VTok -> has_account cfg (class_account c) = true ->
  Q tt (delete (KWarm c) R) -> wp call (spawn_rewarm c) R Q.
Proof.
  intros HR Hacc HQ. exists {[KWarm c := VTok]}, (delete (KWarm c) R). split_and!.
  - by rewrite <-insert_union_singleton_l, insert_delete_id.
  - apply map_disjoint_singleton_l, lookup_delete_eq.
  - done.
  - done.
Qed.

(** The tokens are shared out exactly: a class nobody re-warms has no token. *)
Lemma warm_token_free st cells T c : Own st cells T -> c ∉ rewarming st -> T !! KWarm c = None.
Proof. intros HO Hc. apply eq_None_not_Some. by rewrite <-(own_warm _ _ _ HO). Qed.

Lemma pool_ok_tokens st st' :
  pool_ok cfg st -> instances st' = instances st -> idle st' = idle st ->
  next_epoch st' = next_epoch st -> leaked_slots st' = leaked_slots st ->
  shutting_down st' = shutting_down st ->
  (forall c, c ∈ pending_leases st' -> c ∉ pending_leases st ->
     forall s i, instances st !! s = Some i -> conversation_id i <> Some c) ->
  pool_ok cfg st'.
Proof.
  intros [P1 P2 P3 P4 P5 P6 P7] Hi Hid Hn Hl Hs Hp. split; rewrite ?Hi, ?Hl, ?Hs; try done.
  - intros s i His. destruct (P1 s i His). split; try done. unfold next_of. by rewrite Hn.
  - intros c s. unfold idle_member. rewrite Hid. apply P2.
  - intros c m. rewrite Hid. apply P3.
  - intros c s i Hc. destruct (decide (c ∈ pending_leases st)); eauto.
Qed.

Lemma wp_remint_if_below_floor call c R Q :
  has_account cfg (class_account c) = true -> Q tt R -> wp call (remint_if_below_floor cfg c) R Q.
Proof.
  intros Hacc HQ. apply wp_bind. intros now st cells F Hp Hd HO He.
  destruct (_ && _) eqn:E; simpl.
  - apply andb_true_iff in E as [_ E%negb_true_iff%bool_decide_eq_false].
    pose proof (warm_token_free _ _ _ _ HO E) as Hfree.
    destruct (frame_insert R F (KWarm c) VTok) as [Hd' Heq]; [done|by right|].
    exists (<[KWarm c := VTok]> R). split_and!; try done.
    + by apply (pool_ok_tokens st).
    + rewrite <-Heq. by apply Own_take_warm.
    + intros x. unfold next_of. simpl. lia.
    + eapply wp_spawn_rewarm; [by rewrite lookup_insert_eq|done|].
      rewrite delete_insert_id; [done|]. by apply lookup_union_None in Hfree as [].
  - exists R. split_and!; try done. intros x. lia.
Qed.

Lemma wp_finish_turn call s i h R Q :
  R !! KSlot s = Some (VSlot i (KMay h)) -> state i = Clearing -> handle i = Some h ->
  Q tt (delete (KSlot s) R) -> wp call (finish_turn cfg s) R Q.
Proof.
  intros HR Hst Hh HQ. apply wp_bind. eapply wp_read_slot; [done|]. intros st Hp Hi.
  rewrite Hi. simpl. rewrite Hh. apply wp_bind. split; [by exists s, i|]. intros [[]|f].
  - apply wp_ret, wp_bind. eapply wp_read_slot; [done|]. clear st Hp Hi. intros st Hp Hi.
    unfold clear_success_view. rewrite Hi. simpl. unfold clear_success_transition.
    pose proof (so_account _ _ _ _ (po_slot _ _ Hp _ _ Hi)) as Hacc.
    destruct (recycle_turns cfg <=? turns_started i); simpl.
    + apply wp_bind. eapply wp_slot_section; [done|]. clear st Hp Hi. intros now st Hp Hi.
      unfold recycle_locked. rewrite Hi.
      eexists. split_and!; [apply (try_move st s i _ Destroying); try done; by rewrite Hst|done|done|].
      simpl. apply wp_bind. eapply wp_destroy; [by rewrite lookup_insert_eq|done| |].
      { unfold teardown_ok. simpl. by rewrite Hh. }
      rewrite delete_insert_eq. by apply wp_remint_if_below_floor.
    + apply wp_bind. eapply wp_publish_section; try done; [by rewrite Hst|].
      eapply wp_abandon_unpublishable; [done|done|by right|done].
  - apply wp_ret, wp_bind.
    assert (wp call (let! _ := update (fun st =>
        let st := try_transition cfg st s (clear_failed_transition f) in
        if bool_decide (clear_failed_transition f = ClearFailedIncoherent)
        then try_transition cfg st s BeginDestroy else st) in destroy cfg s) R Q) as Hw.
    { apply wp_bind. eapply wp_slot_section; [done|]. clear st Hp Hi. intros now st Hp Hi. simpl.
      unfold clear_failed_transition. destruct (_ && _).
      - eexists. split_and!; [apply (try_move st s i _ Destroying); try done; by rewrite Hst|done|done|].
        eapply wp_destroy; [by rewrite lookup_insert_eq|done| |by rewrite delete_insert_eq].
        unfold teardown_ok. simpl. by rewrite Hh.
      - eexists. split_and!;
          [apply (try_move_twice st s i _ Quarantined _ Destroying); try done; by rewrite Hst|done|done|].
        eapply wp_destroy; [by rewrite lookup_insert_eq|done| |by rewrite delete_insert_eq].
        unfold teardown_ok. simpl. by rewrite Hh. }
    destruct (preamble_mismatch f) as [reason|]; [|exact Hw].
    intros now st' cells F Hp' Hd HO He. exists R. simpl. split_and!; try done.
    + destruct (halted st'); [done|]. by apply (pool_ok_tokens st').
    + eapply Own_same; [exact HO| |by destruct (halted st')]. destruct (halted st'); split_and!; try done;
        intros x; unfold next_of; simpl; lia.
    + destruct (halted st'); intros x; unfold next_of; simpl; lia.
Qed.

(** ** Acquiring slots *)

Lemma reserve_own st cells R F s c :
  pool_ok cfg st -> R ##ₘ F -> Own st cells (R ∪ F) -> (forall x, next_of st x < U64_MAX) ->
  instances st !! s = None -> s ∉ leaked_slots st -> s < pool_size cfg ->
  has_account cfg (class_account c) = true ->
  let st' := reserve_locked cfg st s c in
  let R' := <[KSlot s := VSlot (fresh cfg s (next_of st s) c) KDead]> R in
  R !! KSlot s = None /\ R' ##ₘ F /\ pool_ok cfg st' /\ Own st' cells (R' ∪ F) /\ grows st st'.
Proof.
  intros Hp Hd HO He Hi Hl Hs Hc. simpl.
  destruct (reserve_locked_ok cfg st s c) as (Hok & Hins & Hne & Hpe & Hrw & _); try done.
  set (st' := reserve_locked cfg st s c) in *.
  assert ((R ∪ F) !! KSlot s = None) as Hfree.
  { apply eq_None_not_Some. intros [v Hv]. destruct (own_slot _ _ _ HO s v Hv) as (i & k & _ & ? & _).
    congruence. }
  assert (forall x, next_of st' x = if decide (x = s) then next_of st s + 1 else next_of st x) as Hn.
  { intros x. unfold next_of. rewrite Hne. case_decide as Hx; [subst x; by rewrite lookup_insert_eq|].
    by rewrite lookup_insert_ne. }
  destruct (frame_insert R F (KSlot s) (VSlot (fresh cfg s (next_of st s) c) KDead)) as [Hd' Heq];
    [done|by right|].
  split_and!; try done.
  - by apply lookup_union_None in Hfree as [].
  - rewrite <-Heq. eapply Own_set; [done| |done|done|].
    + split_and!; [done|done|]. intros x. rewrite Hn. case_decide; subst; lia.
    + simpl. destruct (cells !! (s, next_of st s)) eqn:E; [|done].
      assert (next_of st s < next_of st s); [|lia]. apply (own_epochs _ _ _ HO). by rewrite E.
  - intros x. rewrite Hn. case_decide; subst; lia.
Qed.

(** Working on a parked instance makes it owned, with its handle. *)
Lemma acquire_own st st' cells R F s i i' :
  R ##ₘ F -> Own st cells (R ∪ F) ->
  instances st !! s = Some i -> parked (state i) = true ->
  slot_move cfg st s st' i' -> parked (state i') = false -> epoch i' = epoch i ->
  R !! KSlot s = None /\ exists h, handle i = Some h /\
    let R' := <[KSlot s := VSlot i' (KMay h)]> R in
    R' ##ₘ F /\ pool_ok cfg st' /\ Own st' cells (R' ∪ F) /\ grows st st'.
Proof.
  intros Hd HO Hi Hpk [Hok Hr Hins] Hpk' Hep.
  pose proof (Own_not_parked _ _ _ _ _ HO Hi Hpk) as Hfree.
  destruct (own_free _ _ _ HO s i Hi Hfree) as (_ & h & Hh & Hk).
  destruct (frame_insert R F (KSlot s) (VSlot i' (KMay h))) as [Hd' Heq]; [done|by right|].
  split; [by apply lookup_union_None in Hfree as []|]. exists h. split; [done|]. simpl. split_and!; try done.
  - rewrite <-Heq. eapply Own_set; [done|by apply same_rest_tokens|done|done|by rewrite Hep].
  - by apply same_rest_grows.
Qed.

(** ** Admission *)

(** A slot this thread did not own and has now checked out. *)
Definition checked_out (c : InstanceClass) (s : SlotId) (R R' : Res) : Prop :=
  exists i h, R !! KSlot s = None /\ R' = <[KSlot s := VSlot i (KMay h)]> R /\
    state i = CheckedOut /\ handle i = Some h /\ class i = c.

Definition admitted_own (c : InstanceClass) (a : Admission) (R R' : Res) : Prop :=
  match a with
  | Warm s => checked_out c s R R'
  | ReservedSlot s =>
      exists e, R !! KSlot s = None /\ R' = <[KSlot s := VSlot (fresh cfg s e c) KDead]> R
  | ColdSwap s =>
      exists i h, R !! KSlot s = None /\ R' = <[KSlot s := VSlot i (KMay h)]> R /\
        state i = Destroying /\ handle i = Some h /\ s < pool_size cfg
  end.

Lemma checkout_own st st' cells R F s i :
  pool_ok cfg st -> R ##ₘ F -> Own st cells (R ∪ F) ->
  instances st !! s = Some i -> state i = Idle ->
  transition_or_internal cfg st s CheckOut = Ok (CheckedOut, st') ->
  exists R', checked_out (class i) s R R' /\
    R' ##ₘ F /\ pool_ok cfg st' /\ Own st' cells (R' ∪ F) /\ grows st st'.
Proof.
  intros Hp Hd HO Hi Hst E%transition_or_internal_inv.
  destruct (transition_post _ _ _ _ _ _ E) as (i0 & Hi0 & Hstep & Hok & [Hin Hr _]).
  assert (i0 = i) as -> by congruence.
  destruct (acquire_own st st' cells R F s i (candidate_of i CheckOut CheckedOut)) as (Hnone & h & Hh & ?);
    try done.
  - by rewrite Hst.
  - split; [by eapply transition_ok|done|done].
  - eexists. split; [|done]. exists (candidate_of i CheckOut CheckedOut), h. done.
Qed.

Lemma checked_out_warm_token c s R R' k : checked_out c s R R' -> R' !! KWarm k = R !! KWarm k.
Proof. intros (i & h & _ & -> & _). by rewrite lookup_insert_ne. Qed.

Lemma admit_once_own c w b st cells R F :
  pool_ok cfg st -> R ##ₘ F -> Own st cells (R ∪ F) -> (forall x, next_of st x < U64_MAX) ->
  has_account cfg (class_account c) = true ->
  let r := admit_once cfg c w b st in
  exists R', R' ##ₘ F /\ pool_ok cfg (snd r) /\ Own (snd r) cells (R' ∪ F) /\ grows st (snd r) /\
    match fst r with
    | Err _ => R' = R
    | Ok (a, rewarm) => exists R1, admitted_own c a R R1 /\
        R' = (if rewarm then <[KWarm c := VTok]> R1 else R1) /\ (rewarm = true -> R1 !! KWarm c = None)
    end.
Proof.
  intros Hp Hd HO He Hacc. simpl.
  assert (exists R', R' ##ₘ F /\ pool_ok cfg st /\
    Own st cells (R' ∪ F) /\ grows st st /\ R' = R) as Hsame.
  { exists R. split_and!; try done. intros x. lia. }
  unfold admit_once. rewrite (po_serving _ _ Hp).
  destruct (halted st) as [viol|]; [exact Hsame|].
  destruct (lru_of st c) as [s|] eqn:El.
  { destruct (lru_of_idle _ _ _ _ Hp El) as (i & Hi & Hst & Hcl).
    destruct (transition_or_internal cfg st s CheckOut) as [[next st1]|e] eqn:E;
      [|exact Hsame].
    assert (next = CheckedOut) as ->.
    { apply transition_or_internal_inv, transition_post in E as (i0 & Hi0 & Hstep & _).
      rewrite Hi in Hi0. injection Hi0 as <-. rewrite Hst in Hstep. by injection Hstep. }
    destruct (checkout_own _ _ _ _ _ _ _ Hp Hd HO Hi Hst E) as (R1 & Hco & Hd1 & Hp1 & HO1 & Hg1).
    rewrite Hcl in Hco. simpl.
    destruct (_ && _ && _) eqn:Erw.
    - apply andb_true_iff in Erw as [_ Erw%negb_true_iff%bool_decide_eq_false].
      pose proof (warm_token_free _ _ _ _ HO1 Erw) as Hfree.
      destruct (frame_insert R1 F (KWarm c) VTok) as [Hd' Heq]; [done|by right|].
      exists (<[KWarm c := VTok]> R1). split_and!; try done.
      + by apply (pool_ok_tokens st1).
      + rewrite <-Heq. by apply Own_take_warm.
      + exists R1. split_and!; try done. intros _. by apply lookup_union_None in Hfree as [].
    - exists R1. split_and!; try done. by exists R1. }
  destruct (if live st <? capacity st (pool_size cfg) then free_slot st (pool_size cfg) else None)
    as [s|] eqn:Ef.
  { destruct (live st <? _); [|done]. apply free_slot_Some in Ef as (Hi & Hl & Hs).
    destruct (reserve_own st cells R F s c) as (Hnone & ? & ? & ? & ?); try done.
    eexists. split_and!; try done. eexists. split_and!; [|reflexivity|done]. by eexists. }
  destruct (if _ && _ then None else cold_swap_victim st) as [s|] eqn:Ev.
  - destruct (_ && _); [done|]. destruct (cold_swap_victim_idle _ _ _ Hp Ev) as (i & Hi & Hst).
    destruct (slot_move_transition cfg st s i ColdSwapVictim Destroying) as (st1 & E & Hm); try done.
    { by rewrite Hst. }
    rewrite (transition_or_internal_Ok _ _ _ _ _ _ E). simpl.
    destruct (acquire_own st st1 cells R F s i (candidate_of i ColdSwapVictim Destroying))
      as (Hnone & h & Hh & ? & ? & ? & ?); try done; [by rewrite Hst|].
    eexists. split_and!; try done. eexists. split_and!; [|reflexivity|done].
    exists (candidate_of i ColdSwapVictim Destroying), h. split_and!; try done.
    by eapply so_range, (po_slot _ _ Hp).
  - exact Hsame.
Qed.

Lemma wp_admit_loop call fuel c deadline started R Q :
  has_account cfg (class_account c) = true ->
  (forall e, Q (Err e) R) ->
  (forall a w R', admitted_own c a R R' -> Q (Ok (mkAdmitted a w)) R') ->
  wp call (admit_loop cfg fuel c deadline started) R Q.
Proof.
  intros Hacc HErr HOk. induction fuel as [|fuel IH]; [done|]. cbn [admit_loop].
  apply wp_bind. intros now. apply wp_ret.
  set (waited := N.min _ _). apply wp_bind.
  assert (forall budget, wp call
    (let! decision := lock (fun _ => admit_once cfg c waited (bool_decide (is_Some budget))) in
      match decision with
      | Ok (admission, should_rewarm) =>
          let! _ := if (should_rewarm : bool) then spawn_rewarm c else Ret tt in
          Ret (Ok (mkAdmitted admission waited))
      | Err refusal =>
          match (if 0 <? ar_coming_back refusal then budget else None) with
          | None => Ret (Err (ar_body refusal))
          | Some budget =>
              let! _ := perform (ESleep (N.min budget ADMIT_POLL)) in
              admit_loop cfg fuel c deadline started
          end
      end) R Q) as Hw.
  { intros budget. apply wp_bind. intros nw st cells F Hp Hd HO He.
    destruct (admit_once_own c waited (bool_decide (is_Some budget)) st cells R F)
      as (R' & Hd' & Hp' & HO' & Hg & Hpost); try done.
    exists R'. split_and!; try done. destruct (fst _) as [[a rewarm]|e].
    - destruct Hpost as (R1 & Had & -> & Hfree). apply wp_bind. destruct rewarm; [|by apply HOk].
      eapply wp_spawn_rewarm; [by rewrite lookup_insert_eq|done|].
      rewrite delete_insert_id by auto. by apply HOk.
    - subst R'. apply wp_ret. destruct (0 <? ar_coming_back e); [|apply HErr]. destruct budget; [|apply HErr].
      apply wp_bind. intros []. apply IH. }
  unfold admit_budget. destruct (checked_sub _ _); [|apply Hw]. apply wp_bind. intros nw. apply Hw.
Qed.

Lemma wp_admit call c deadline R Q :
  has_account cfg (class_account c) = true ->
  (forall e, Q (Err e) R) ->
  (forall a w R', admitted_own c a R R' -> Q (Ok (mkAdmitted a w)) R') ->
  wp call (pool_admit cfg c deadline) R Q.
Proof. intros. apply wp_bind. intros started. by apply wp_admit_loop. Qed.

Lemma wp_mint_and_check_out call c s e R Q :
  R !! KSlot s = None ->
  (forall e, Q (Err e) R) -> (forall R', checked_out c s R R' -> Q (Ok s) R') ->
  wp call (let!? _ := mint cfg s in publish_idle_and_check_out cfg s)
    (<[KSlot s := VSlot (fresh cfg s e c) KDead]> R) Q.
Proof.
  intros Hnone HErr HOk. apply wp_try. eapply wp_mint; [by rewrite lookup_insert_eq|done|done|..].
  - intros er. rewrite delete_insert_id by done. apply HErr.
  - intros h. rewrite insert_insert_eq.
    eapply wp_publish_and_check_out; [by rewrite lookup_insert_eq|done|done|..].
    + intros er. rewrite delete_insert_id by done. apply HErr.
    + intros i' Hst Hh Hcl. rewrite insert_insert_eq. apply HOk. by exists i', h.
Qed.

Lemma wp_ready_slot call a w c R R' Q :
  has_account cfg (class_account c) = true -> admitted_own c a R R' ->
  (forall e, Q (Err e) R) -> (forall s R', checked_out c s R R' -> Q (Ok s) R') ->
  wp call (ready_slot cfg (mkAdmitted a w) c) R' Q.
Proof.
  intros Hacc Had HErr HOk. destruct a as [s|s|s]; simpl in Had; unfold ready_slot; simpl.
  - by apply HOk.
  - destruct Had as (e & Hnone & ->). by apply wp_mint_and_check_out; [..|apply HOk].
  - destruct Had as (i & h & Hnone & -> & Hst & Hh & Hs). apply wp_bind.
    eapply wp_destroy; [by rewrite lookup_insert_eq|done|by unfold teardown_ok; rewrite Hh|].
    rewrite delete_insert_id by done. apply wp_try.
    intros nw st cells F Hp Hd HO He. unfold reclaim_locked.
    case_bool_decide as Hocc; [|case_bool_decide as Hleak].
    1,2: exists R; simpl; split_and!; try done; [intros x; lia|apply HErr].
    apply eq_None_not_Some in Hocc.
    destruct (reserve_own st cells R F s c) as (_ & ? & ? & ? & ?); try done.
    eexists. split_and!; try done. by apply wp_mint_and_check_out; [..|apply HOk].
Qed.

(** ** Turns *)

Lemma served_inst_ok st s i :
  pool_ok cfg st -> instances st !! s = Some i -> state i = CheckedOut ->
  is_Some (handle i) /\ 0 < turns_started i.
Proof.
  intros Hp Hi Hst. pose proof (so_inst _ _ _ _ (po_slot _ _ Hp _ _ Hi)) as H.
  unfold inst_ok in H. by rewrite Hst in H.
Qed.

Lemma deliver_locked_ok st s i :
  pool_ok cfg st -> instances st !! s = Some i -> state i = CheckedOut ->
  exists st', deliver_locked cfg s st = (Ok tt, st') /\
    slot_move cfg st s st'
      (candidate_of (candidate_of i TurnCommitted Delivering) ResponseDelivered Clearing).
Proof.
  intros Hp Hi Hst. destruct (served_inst_ok _ _ _ Hp Hi Hst) as [Hh Ht]. unfold deliver_locked.
  destruct (slot_move_transition cfg st s i TurnCommitted Delivering) as (st1 & E1 & Hm1); try done.
  { by rewrite Hst. }
  rewrite (transition_or_internal_Ok _ _ _ _ _ _ E1).
  destruct (slot_move_transition cfg st1 s (candidate_of i TurnCommitted Delivering)
    ResponseDelivered Clearing) as (st2 & E2 & Hm2); try done.
  { apply Hm1. }
  { by eapply slot_move_lookup. }
  rewrite (transition_or_internal_Ok _ _ _ _ _ _ E2). eexists. split; [done|].
  by eapply slot_move_trans.
Qed.

Lemma wp_commit call s i h c resolved turn R Q :
  R !! KSlot s = Some (VSlot i (KMay h)) -> state i = CheckedOut -> handle i = Some h ->
  (forall r, Q r (delete (KSlot s) R)) -> wp call (commit cfg s c resolved turn) R Q.
Proof.
  intros HR Hst Hh HQ. unfold commit. destruct (ht_sidechain_rows turn) as [rows|].
  2:{ apply wp_bind. by eapply wp_quarantine_and_destroy; [..|apply HQ]. }
  destruct (_ || _).
  { apply wp_bind. by eapply wp_quarantine_and_destroy; [..|apply HQ]. }
  apply wp_bind. eapply wp_read_slot; [done|]. intros st Hp Hi. rewrite Hi. simpl. rewrite Hh.
  apply wp_try. eapply wp_slot_section; [done|]. clear st Hp Hi. intros now st Hp Hi.
  destruct (deliver_locked_ok st s i) as (st' & E & Hm); try done. rewrite E.
  eexists. split_and!; [exact Hm|done|done|]. simpl. apply wp_bind.
  eapply wp_spawn_clear; [by rewrite lookup_insert_eq|done|done|].
  rewrite delete_insert_eq. apply HQ.
Qed.

Lemma slot_move_conversation st s i c :
  pool_ok cfg st -> instances st !! s = Some i -> holds_conversation (state i) = true ->
  (c ∉ pending_leases st) ->
  (forall s2 i2, s2 <> s -> instances st !! s2 = Some i2 -> conversation_id i2 <> Some c) ->
  slot_move cfg st s (set_instances (<[s := with_conversation (Some c) i]> (instances st)) st)
    (with_conversation (Some c) i).
Proof.
  intros Hp Hi Hst Hc Hu. destruct (po_slot _ _ Hp _ _ Hi) as [].
  apply (slot_move_edit cfg st s i); try done.
  - split; try done. unfold inst_ok in *. simpl in *. destruct (state i); naive_solver.
  - simpl. intros c' [= <-]. by split.
Qed.

(** A parked instance may be stamped: its idle time is no part of any invariant. *)
Lemma slot_move_idle_since st s i now :
  pool_ok cfg st -> instances st !! s = Some i ->
  slot_move cfg st s (set_instances (<[s := with_idle_since now i]> (instances st)) st)
    (with_idle_since now i).
Proof.
  intros Hp Hi. apply (slot_move_edit cfg st s i); try done.
  - by destruct (po_slot _ _ Hp _ _ Hi).
  - intros c Hc. by eapply own_conversation_ok.
Qed.

Lemma hold_lease_locked_ok st s i c now :
  pool_ok cfg st -> instances st !! s = Some i -> state i = CheckedOut ->
  conversation_id i = Some c ->
  exists st' i', hold_lease_locked cfg s c now st = (Ok false, st') /\ slot_move cfg st s st' i' /\
    state i' = Leased /\ handle i' = handle i /\ epoch i' = epoch i.
Proof.
  intros Hp Hi Hst Hc. destruct (served_inst_ok _ _ _ Hp Hi Hst) as [Hh Ht]. unfold hold_lease_locked.
  set (i1 := candidate_of i TurnCommitted Delivering).
  destruct (slot_move_transition cfg st s i TurnCommitted Delivering) as (st1 & E1 & Hm1); try done.
  { by rewrite Hst. }
  rewrite (transition_or_internal_Ok _ _ _ _ _ _ E1). pose proof (sm_ok _ _ _ _ _ Hm1) as Hp1.
  pose proof (slot_move_lookup _ _ _ _ _ Hm1) as Hi1.
  rewrite (po_serving _ _ Hp1). unfold update_instance at 1. rewrite Hi1.
  destruct (own_conversation_ok cfg st1 s i1 c) as [Hpend Hun]; try done.
  pose proof (slot_move_conversation st1 s i1 c Hp1 Hi1 eq_refl Hpend Hun) as Hm2.
  set (st2 := set_instances _ st1) in *. set (i2 := with_conversation (Some c) i1) in *.
  destruct (slot_move_transition cfg st2 s i2 LeaseHeld Leased) as (st3 & E3 & Hm3); try done.
  { apply Hm2. }
  { by eapply slot_move_lookup. }
  rewrite (transition_or_internal_Ok _ _ _ _ _ _ E3). unfold update_instance.
  rewrite (slot_move_lookup _ _ _ _ _ Hm3). eexists _, (with_idle_since now (candidate_of i2 LeaseHeld Leased)). split_and!; [done| |done|done|done].
  eapply slot_move_trans; [exact Hm1|]. eapply slot_move_trans; [exact Hm2|].
  eapply slot_move_trans; [exact Hm3|]. apply slot_move_idle_since; [apply Hm3|by eapply slot_move_lookup].
Qed.

Lemma wp_commit_sticky call s i h conv c resolved turn R Q :
  R !! KSlot s = Some (VSlot i (KMay h)) -> state i = CheckedOut -> handle i = Some h ->
  conversation_id i = Some conv ->
  (forall r, Q r (delete (KSlot s) R)) -> wp call (commit_sticky cfg s conv c resolved turn) R Q.
Proof.
  intros HR Hst Hh Hconv HQ. unfold commit_sticky. destruct (ht_sidechain_rows turn) as [rows|].
  2:{ apply wp_bind. by eapply wp_quarantine_and_destroy; [..|apply HQ]. }
  destruct (_ || _).
  { apply wp_bind. by eapply wp_quarantine_and_destroy; [..|apply HQ]. }
  apply wp_try. eapply wp_read_slot; [done|]. intros st Hp Hi. unfold sticky_version_locked.
  rewrite Hi. simpl. rewrite Hh. simpl. apply wp_try. eapply wp_own_section; [done|]. clear st Hp Hi.
  intros now st Hp Hi.
  destruct (hold_lease_locked_ok st s i conv now) as (st' & i' & E & Hm & Hst' & Hh' & He'); try done.
  rewrite E. exists i'. split_and!; [done|done|right]. rewrite Hst', Hh'. split_and!; [done|by eauto|].
  apply HQ.
Qed.

(** What the request resolves to is a class of a configured account. *)
Lemma resolve_request_account rq prompt c resolved :
  resolve_request cfg nfc str_debug rq = Ok (prompt, c, resolved) ->
  has_account cfg (class_account c) = true.
Proof.
  unfold resolve_request. intros H. res_inv. unfold account_from_request in *. res_inv.
  simplify_eq. done.
Qed.

Lemma wp_run rq : wp (CRun rq) (run cfg nfc str_debug rq) ∅ (fun _ R => R = ∅).
Proof.
  apply wp_try. apply wp_ret.
  destruct (resolve_request cfg nfc str_debug rq) as [[[prompt c] resolved]|e] eqn:Er; [|done].
  pose proof (resolve_request_account _ _ _ _ Er) as Hacc.
  apply wp_bind. intros now. apply wp_ret, wp_try, wp_admit; [done|done|].
  intros a w R1 Had. apply wp_try. eapply wp_ready_slot; [done|exact Had|done|].
  intros s R2 (i & h & Hnone & -> & Hst & Hh & Hcl).
  assert (forall v, delete (KSlot s) (<[KSlot s := v]> (∅ : Res)) = ∅) as Hdel.
  { intros v. by rewrite delete_insert_id. }
  apply wp_bind. eapply wp_read_slot; [by rewrite lookup_insert_eq|]. intros st Hp Hi.
  rewrite Hi. simpl. rewrite Hh. apply wp_bind. split.
  { exists s, i. rewrite lookup_insert_eq. split_and!; try done. simpl. exists resolved. by rewrite Hcl. }
  intros [turn|f]; apply wp_ret.
  - eapply wp_commit; [by rewrite lookup_insert_eq|done|done|]. intros r. apply Hdel.
  - apply wp_bind. eapply wp_quarantine_and_destroy; [by rewrite lookup_insert_eq|done|done|]. apply Hdel.
Qed.

(** ** Conversations *)

Lemma elem_of_keyed st s i : (s, i) ∈ keyed st <-> instances st !! s = Some i.
Proof.
  unfold keyed. rewrite list_elem_of_omap. split.
  - intros (x & _ & Hx). destruct (instances st !! x) eqn:E; simpl in Hx; [|done].
    by injection Hx as -> ->.
  - intros Hi. exists s. rewrite elem_of_live_slots, Hi. by split; [eexists|].
Qed.

Lemma wp_pending_update call (f : PoolState -> PoolState) R R' Q :
  (forall st cells F, pool_ok cfg st -> R ##ₘ F -> Own st cells (R ∪ F) ->
     R' ##ₘ F /\ pool_ok cfg (f st) /\ Own (f st) cells (R' ∪ F) /\
     next_epoch (f st) = next_epoch st) ->
  Q tt R' -> wp call (update f) R Q.
Proof.
  intros H HQ now st cells F Hp Hd HO He. destruct (H st cells F Hp Hd HO) as (? & ? & ? & Hn).
  exists R'. split_and!; try done. intros x. unfold next_of. simpl. rewrite Hn. lia.
Qed.

Lemma wp_unpend call c R Q :
  R !! KConv c = Some VTok -> Q tt (delete (KConv c) R) -> wp call (unpend c) R Q.
Proof.
  intros HR HQ. eapply wp_pending_update; [|exact HQ]. intros st cells F Hp Hd HO.
  destruct (frame_delete R F (KConv c)) as [Hd' Heq]; [done|by eauto|]. split_and!; try done.
  - apply (pool_ok_tokens st); try done. simpl. set_solver.
  - rewrite <-Heq. by apply Own_drop_conv.
Qed.

(** A conversation that may be claimed is named by no instance. *)
Lemma begin_lease_free st c :
  pool_ok cfg st ->
  bool_decide (c ∈ pending_leases st)
    || existsb (fun i => names_conversation c i && holds_conversation (state i)) (entries st) = false ->
  (c ∉ pending_leases st) /\
  forall s i, instances st !! s = Some i -> conversation_id i <> Some c.
Proof.
  intros Hp [H1%bool_decide_eq_false H2]%orb_false_iff. split; [done|]. intros s i Hi Hc.
  pose proof (so_conv _ _ _ _ (po_slot _ _ Hp _ _ Hi) c Hc) as Hh.
  rewrite (existsb_false _ _) in H2. specialize (H2 i). unfold names_conversation in H2.
  rewrite bool_decide_eq_true_2, Hh in H2 by done. discriminate H2.
  apply elem_of_entries. eauto.
Qed.

Lemma wp_or_unpend call {A B} c (p : Prog (result A ErrorBody)) (k : A -> Prog (result B ErrorBody)) R Q :
  wp call p R (fun r R' =>
    match r with
    | Ok a => wp call (k a) R' Q
    | Err e => R' !! KConv c = Some VTok /\ Q (Err e) (delete (KConv c) R')
    end) ->
  wp call (or_unpend c p k) R Q.
Proof.
  intros H. apply wp_bind. eapply wp_mono; [|exact H]. intros [a|e] R'; [done|]. intros [HR HQ].
  apply wp_bind. by apply wp_unpend.
Qed.

(** Binding the claimed conversation to the slot checked out for it. *)
Lemma wp_bind_lease call conv s i h R Q :
  R !! KConv conv = Some VTok -> R !! KSlot s = Some (VSlot i (KMay h)) -> state i = CheckedOut ->
  Q tt (<[KSlot s := VSlot (with_conversation (Some conv) i) (KMay h)]> (delete (KConv conv) R)) ->
  wp call (update (bind_lease_locked conv s)) R Q.
Proof.
  intros HC HS Hst HQ. eapply wp_pending_update; [|exact HQ]. intros st cells F Hp Hd HO.
  destruct (Own_lookup _ _ _ _ _ _ _ HO Hd HS) as (Hi & Hpk & Hk).
  assert (conv ∈ pending_leases st) as Hin.
  { apply (own_conv _ _ _ HO). rewrite (lookup_union_Some_l R F _ _ HC). by eexists. }
  set (st1 := set_pending (pending_leases st ∖ {[conv]}) st).
  assert (pool_ok cfg st1) as Hp1 by (apply (pool_ok_tokens st); try done; simpl; set_solver).
  assert (slot_move cfg st1 s (bind_lease_locked conv s st) (with_conversation (Some conv) i)) as Hm.
  { unfold bind_lease_locked, update_instance. simpl. rewrite Hi. simpl.
    apply (slot_move_conversation st1 s i conv Hp1 Hi); [by rewrite Hst|simpl; set_solver|].
    intros s2 i2 _ Hi2. by eapply (po_pending _ _ Hp). }
  destruct (frame_delete R F (KConv conv)) as [Hd1 Heq1]; [done|by eauto|].
  destruct (frame_insert (delete (KConv conv) R) F (KSlot s)
    (VSlot (with_conversation (Some conv) i) (KMay h))) as [Hd2 Heq2];
    [done|by left; rewrite lookup_delete_ne; eauto|].
  split_and!; try done.
  - apply Hm.
  - rewrite <-Heq2, <-Heq1. destruct Hm as [_ Hr Hins]. eapply Own_set; [by apply Own_drop_conv| |done|done|done].
    by apply same_rest_tokens.
  - by destruct Hm as [_ (? & _) _].
Qed.

Lemma wp_claim_new_lease call conv c deadline Q :
  has_account cfg (class_account c) = true ->
  (forall e, Q (Err e) ∅) ->
  (forall s i h, state i = CheckedOut -> handle i = Some h -> class i = c ->
     conversation_id i = Some conv -> Q (Ok s) {[KSlot s := VSlot i (KMay h)]}) ->
  wp call (claim_new_lease cfg conv c deadline) ∅ Q.
Proof.
  intros Hacc HErr HOk. apply wp_try. intros now st cells F Hp Hd HO He. unfold begin_lease_locked.
  destruct (_ || _) eqn:E.
  { exists ∅. simpl. split_and!; try done; [intros x; lia|apply HErr]. }
  apply begin_lease_free in E as [Hc Hno]; [|done].
  assert ((∅ ∪ F) !! KConv conv = None) as Hfree.
  { apply eq_None_not_Some. by rewrite <-(own_conv _ _ _ HO). }
  destruct (frame_insert ∅ F (KConv conv) VTok) as [Hd' Heq]; [done|by right|].
  exists (<[KConv conv := VTok]> ∅). simpl. split_and!; try done.
  { apply (pool_ok_tokens st); try done. simpl. intros c' Hc' Hn'.
    assert (c' = conv) as -> by set_solver. done. }
  { rewrite <-Heq. by apply Own_take_conv. }
  { intros x. unfold next_of. simpl. lia. }
  clear now st cells F Hp Hd HO He Hc Hno Hfree Hd' Heq. apply wp_or_unpend. apply wp_admit; [done| |].
  { intros e. rewrite lookup_insert_eq, delete_insert_id by done. split; [done|apply HErr]. }
  intros a w R1 Had. apply wp_or_unpend. eapply wp_ready_slot; [done|exact Had| |].
  { intros e. rewrite lookup_insert_eq, delete_insert_id by done. split; [done|apply HErr]. }
  intros s R2 (i & h & Hnone & -> & Hst & Hh & Hcl). apply wp_bind.
  eapply wp_bind_lease; [by rewrite lookup_insert_ne, lookup_insert_eq|by rewrite lookup_insert_eq|done|].
  rewrite delete_insert_ne, delete_insert_id, insert_insert_eq by done. by apply HOk.
Qed.

Lemma resume_candidate_ok i :
  is_Some (handle i) -> iok (candidate_of i ResumeLease CheckedOut).
Proof.
  intros Hh. unfold inst_ok. simpl. split; [done|]. unfold saturating_add, U32_MAX. lia.
Qed.

Lemma leased_inst_ok st s i :
  pool_ok cfg st -> instances st !! s = Some i -> state i = Leased ->
  is_Some (handle i) /\ 0 < turns_started i.
Proof.
  intros Hp Hi Hst. pose proof (so_inst _ _ _ _ (po_slot _ _ Hp _ _ Hi)) as H.
  unfold inst_ok in H. rewrite Hst in H. naive_solver.
Qed.

Lemma wp_resume_lease call conv c Q :
  (forall e, Q (Err e) ∅) ->
  (forall s i h, state i = CheckedOut -> handle i = Some h -> class i = c ->
     conversation_id i = Some conv -> Q (Ok s) {[KSlot s := VSlot i (KMay h)]}) ->
  wp call (resume_lease cfg conv c) ∅ Q.
Proof.
  intros HErr HOk now st cells F Hp Hd HO He.
  assert (forall e, exists R', R' ##ₘ F /\ pool_ok cfg st /\ Own st cells (R' ∪ F) /\ grows st st /\
    Q (Err e) R') as Hsame.
  { intros e. exists ∅. split_and!; try done. intros x. lia. }
  unfold resume_locked. case_bool_decide; [apply Hsame|].
  destruct (find_first _ _) as [[s i]|] eqn:Ef; [|apply Hsame].
  apply find_first_Some in Ef as [Hi%elem_of_keyed [Hn Hhold]%andb_true_iff]. simpl in Hn, Hhold.
  apply bool_decide_eq_true in Hn.
  destruct (state i) eqn:Hst; try discriminate Hhold; try apply Hsame.
  case_bool_decide as Hcl; [|apply Hsame]. simpl.
  destruct (leased_inst_ok _ _ _ Hp Hi Hst) as [Hh _].
  destruct (slot_move_transition cfg st s i ResumeLease CheckedOut) as (st' & E & Hm); try done.
  { by rewrite Hst. }
  { by apply resume_candidate_ok. }
  rewrite (transition_or_internal_Ok _ _ _ _ _ _ E). simpl.
  destruct (acquire_own st st' cells ∅ F s i (candidate_of i ResumeLease CheckedOut))
    as (_ & h & Hh' & ? & ? & ? & ?); try done; [by rewrite Hst|].
  eexists. split_and!; try done. by apply HOk.
Qed.

Lemma wp_run_sticky conv rq resume :
  wp (CRunSticky conv rq resume) (run_sticky cfg nfc str_debug conv rq resume) ∅ (fun _ R => R = ∅).
Proof.
  unfold run_sticky. destruct (trim_is_empty conv); [done|]. apply wp_try. apply wp_ret.
  destruct (resolve_request cfg nfc str_debug rq) as [[[prompt c] resolved]|e] eqn:Er; [|done].
  pose proof (resolve_request_account _ _ _ _ Er) as Hacc.
  apply wp_bind. intros now. apply wp_ret, wp_try.
  assert (forall s i h, state i = CheckedOut -> handle i = Some h -> class i = c ->
    conversation_id i = Some conv ->
    wp (CRunSticky conv rq resume)
      (let! h := handle_of s in
       match h with
       | None =>
           let! _ := quarantine_and_destroy cfg s in
           Ret (Err (internal "a checked-out instance lost its process handle"))
       | Some h =>
           let! answer := perform (ERunTurn h prompt (effective_deadline_ms cfg now (rq_deadline_unix_ms rq))) in
           match answer with
           | Ok turn => commit_sticky cfg s conv c resolved turn
           | Err failure =>
               let! _ := quarantine_and_destroy cfg s in
               Ret (Err (hf_error failure))
           end
       end) {[KSlot s := VSlot i (KMay h)]} (fun _ R => R = ∅)) as Hw.
  { intros s i h Hst Hh Hcl Hconv. apply wp_bind.
    eapply wp_read_slot; [by rewrite lookup_singleton_eq|]. intros st Hp Hi.
    rewrite Hi. simpl. rewrite Hh. apply wp_bind. split.
    { exists s, i. rewrite lookup_singleton_eq. split_and!; try done. simpl.
      split; [done|]. exists resolved. by rewrite Hcl. }
    intros [turn|f]; apply wp_ret.
    - eapply wp_commit_sticky; [by rewrite lookup_singleton_eq|done|done|done|]. intros r.
      apply delete_singleton_eq.
    - apply wp_bind. eapply wp_quarantine_and_destroy; [by rewrite lookup_singleton_eq|done|done|].
      apply delete_singleton_eq. }
  destruct resume; [apply wp_resume_lease|apply wp_claim_new_lease]; try done; intros; by apply Hw.
Qed.

Lemma wp_release conv call :
  wp call (release_conversation cfg conv) ∅ (fun _ R => R = ∅).
Proof.
  apply wp_try. intros now st cells F Hp Hd HO He.
  assert (forall r : result (option SlotId) ErrorBody,
    (match r with Ok (Some _) => False | _ => True end) ->
    exists R', R' ##ₘ F /\ pool_ok cfg st /\ Own st cells (R' ∪ F) /\ grows st st /\
    match r with
    | Ok slot => wp call (match slot with
        | None => Ret (Ok tt)
        | Some slot => let! _ := spawn_clear slot in Ret (Ok tt)
        end) R' (fun (_ : result unit ErrorBody) R => R = ∅)
    | Err e => R' = ∅
    end) as Hsame.
  { intros r Hr. exists ∅. split_and!; try done; [intros x; lia|]. by destruct r as [[|]|]. }
  unfold release_locked. case_bool_decide; [by apply (Hsame (Err session_busy))|].
  destruct (find_first _ _) as [[s i]|] eqn:Ef; [|by apply (Hsame (Ok None))].
  apply find_first_Some in Ef as [Hi%elem_of_keyed Hn].
  destruct (state i) eqn:Hst; try (by apply (Hsame (Err session_busy))); try (by apply (Hsame (Ok None))).
  destruct (leased_inst_ok _ _ _ Hp Hi Hst) as [Hh Ht].
  destruct (slot_move_transition cfg st s i ReleaseLease Clearing) as (st' & E & Hm); try done.
  { by rewrite Hst. }
  rewrite (transition_or_internal_Ok _ _ _ _ _ _ E). simpl.
  destruct (acquire_own st st' cells ∅ F s i (candidate_of i ReleaseLease Clearing))
    as (_ & h & Hh' & ? & ? & ? & ?); try done; [by rewrite Hst|].
  eexists. split_and!; try done. apply wp_bind.
  eapply wp_spawn_clear; [by rewrite lookup_insert_eq|done|done|]. by rewrite delete_insert_id.
Qed.

Lemma wp_touch conv call : wp call (touch_conversation conv) ∅ (fun _ R => R = ∅).
Proof.
  intros now st cells F Hp Hd HO He. exists ∅. unfold touch_locked.
  destruct (find_first _ _) as [[s i]|] eqn:Ef; simpl.
  - apply find_first_Some in Ef as [Hi%elem_of_keyed [_ Hst%bool_decide_eq_true]%andb_true_iff].
    simpl in Hst. pose proof (slot_move_idle_since st s i now Hp Hi) as Hm.
    assert (parked (state i) = true) as Hpk by (by rewrite Hst).
    pose proof (Own_not_parked _ _ _ _ _ HO Hi Hpk) as Hfree.
    destruct (own_free _ _ _ HO s i Hi Hfree) as (_ & h & Hh & Hk).
    split_and!; try done; [apply Hm| |by apply same_rest_grows, Hm].
    rewrite <-(delete_id (∅ ∪ F) (KSlot s)) by done.
    eapply Own_park; [done|by apply same_rest_tokens, Hm|apply Hm|done|done|done].
  - split_and!; try done. intros x. lia.
Qed.

Lemma wp_protected call f :
  (forall st, instances (f st) = instances st /\ idle (f st) = idle st /\
     next_epoch (f st) = next_epoch st /\ leaked_slots (f st) = leaked_slots st /\
     shutting_down (f st) = shutting_down st /\ pending_leases (f st) = pending_leases st /\
     rewarming (f st) = rewarming st) ->
  wp call (update f) ∅ (fun _ R => R = ∅).
Proof.
  intros Hf. eapply wp_pending_update; [|done]. intros st cells F Hp Hd HO.
  destruct (Hf st) as (H1 & H2 & H3 & H4 & H5 & H6 & H7). split_and!; try done.
  - apply (pool_ok_tokens st); try done. rewrite H6. set_solver.
  - eapply Own_same; [exact HO| |done]. split_and!; try done. intros x. unfold next_of. rewrite H3. lia.
Qed.

(** ** Sweeps own a batch of slots *)

Record batch (x : InstanceState) (l : list SlotId) (R : Res) : Prop := {
  bt_nodup : NoDup l;
  bt_own : forall s, s ∈ l -> exists i h, R !! KSlot s = Some (VSlot i (KMay h)) /\ state i = x /\ handle i = Some h;
  bt_only : forall k, is_Some (R !! k) -> exists s, s ∈ l /\ k = KSlot s;
}.

Lemma batch_nil x : batch x [] ∅.
Proof. split; [constructor|by intros s ?%elem_of_nil|intros k [v Hv]; by rewrite lookup_empty in Hv]. Qed.

Lemma batch_nil_inv x R : batch x [] R -> R = ∅.
Proof.
  intros [_ _ H]. apply map_eq. intros k. rewrite lookup_empty. apply eq_None_not_Some. intros Hk.
  destruct (H k Hk) as (s & Hs & _). by apply elem_of_nil in Hs.
Qed.

Lemma batch_snoc x l R s i h :
  batch x l R -> R !! KSlot s = None -> state i = x -> handle i = Some h ->
  batch x (l ++ [s]) (<[KSlot s := VSlot i (KMay h)]> R).
Proof.
  intros [Hn Ho Hk] Hs Hx Hh. split.
  - apply NoDup_app. split_and!; [done| |apply NoDup_singleton].
    intros y Hy ->%list_elem_of_singleton. destruct (Ho s Hy) as (? & ? & ? & _). congruence.
  - intros y [Hy| ->%list_elem_of_singleton]%elem_of_app.
    + destruct (Ho y Hy) as (i2 & h2 & Hy2 & ?). exists i2, h2. split; [|done].
      rewrite lookup_insert_ne; [done|]. intros [= ->]. congruence.
    + exists i, h. by rewrite lookup_insert_eq.
  - intros k [v Hv]. apply lookup_insert_Some in Hv as [[<- _]|[_ Hv]].
    + exists s. split; [|done]. apply elem_of_app. right. by apply list_elem_of_singleton.
    + destruct (Hk k) as (y & ? & ->); [by eexists|]. exists y. split; [|done]. apply elem_of_app. by left.
Qed.

Lemma batch_cons_inv x s l R :
  batch x (s :: l) R -> exists i h, R !! KSlot s = Some (VSlot i (KMay h)) /\ state i = x /\
    handle i = Some h /\ batch x l (delete (KSlot s) R).
Proof.
  intros [[Hs Hn]%NoDup_cons Ho Hk]. destruct (Ho s) as (i & h & ? & ? & ?); [apply elem_of_cons; by left|].
  exists i, h. split_and!; try done. split; [done| |].
  - intros y Hy. destruct (Ho y) as (i2 & h2 & ? & ?); [apply elem_of_cons; by right|]. exists i2, h2.
    split; [|done]. rewrite lookup_delete_ne; [done|]. intros [= ->]. done.
  - intros k [v Hv]. apply lookup_delete_Some in Hv as [Hne Hv].
    destruct (Hk k) as (y & [->|Hy]%elem_of_cons & ->); [by eexists|done|eauto].
Qed.

Lemma wp_destroy_batch call l R : batch Destroying l R ->
  wp call (for_each (destroy cfg) l) R (fun _ R => R = ∅).
Proof.
  revert R. induction l as [|s l IH]; intros R Hb; simpl; [by eapply batch_nil_inv|].
  apply batch_cons_inv in Hb as (i & h & HR & Hst & Hh & Hb). apply wp_bind.
  eapply wp_destroy; [done|done|by unfold teardown_ok; rewrite Hh|]. by apply IH.
Qed.

Lemma wp_clear_batch call l R : batch Clearing l R ->
  wp call (for_each spawn_clear l) R (fun _ R => R = ∅).
Proof.
  revert R. induction l as [|s l IH]; intros R Hb; simpl; [by eapply batch_nil_inv|].
  apply batch_cons_inv in Hb as (i & h & HR & Hst & Hh & Hb). apply wp_bind.
  eapply wp_spawn_clear; [done|done|done|]. by apply IH.
Qed.

(** What a sweep owns after a part of its scan. *)
Definition swept (x : InstanceState) (cells : Cells) (F : Res) (st0 : PoolState)
    (r : list SlotId * PoolState) : Prop :=
  exists R, batch x (fst r) R /\ R ##ₘ F /\ pool_ok cfg (snd r) /\ Own (snd r) cells (R ∪ F) /\
    next_epoch (snd r) = next_epoch st0.

Lemma swept_take x cells F st0 l st s i t st' :
  swept x cells F st0 (l, st) -> instances st !! s = Some i -> parked (state i) = true ->
  transition_locked cfg st s t = Ok (x, st') -> parked x = false ->
  swept x cells F st0 (l ++ [s], st').
Proof.
  intros (R & Hb & Hd & Hp & HO & Hn) Hi Hpk E Hx. simpl in *.
  destruct (transition_post _ _ _ _ _ _ E) as (i0 & Hi0 & Hstep & Hok & [Hin Hr _]).
  assert (i0 = i) as -> by congruence.
  assert (slot_move cfg st s st' (candidate_of i t x)) as Hm.
  { split; [|done|done]. eapply transition_ok; [done|done|]. by intros ->. }
  destruct (acquire_own st st' cells R F s i _ Hd HO Hi Hpk Hm Hx eq_refl)
    as (Hnone & h & Hh & ? & ? & ? & ?).
  exists (<[KSlot s := VSlot (candidate_of i t x) (KMay h)]> R).
  split_and!; [by apply batch_snoc|done|done|done|]. simpl. destruct Hr as (-> & _). done.
Qed.

Lemma swept_sweep_class now c fuel cells F st0 : forall l st,
  swept Destroying cells F st0 (l, st) ->
  swept Destroying cells F st0 (sweep_class cfg fuel now c st l).
Proof.
  induction fuel as [|fuel IH]; intros l st Hs; simpl; [done|].
  destruct (_ <=? _); [done|]. destruct (lru_of st c) as [s|] eqn:El; [|done].
  destruct (negb _); [done|].
  destruct (transition_locked cfg st s IdleExpired) as [[next st']|] eqn:E; [|done].
  apply IH. assert (pool_ok cfg st) as Hp by (by destruct Hs as (? & _ & _ & ? & _)).
  destruct (lru_of_idle _ _ _ _ Hp El) as (i & Hi & Hst & _).
  assert (next = Destroying) as ->.
  { apply transition_post in E as (i0 & Hi0 & Hstep & _). rewrite Hi in Hi0. injection Hi0 as <-.
    rewrite Hst in Hstep. by injection Hstep. }
  eapply swept_take; [done|exact Hi|by rewrite Hst|exact E|done].
Qed.

Lemma swept_foldl {A} (f : list SlotId * PoolState -> A -> list SlotId * PoolState) x cells F st0 l r :
  (forall r a, swept x cells F st0 r -> swept x cells F st0 (f r a)) ->
  swept x cells F st0 r -> swept x cells F st0 (foldl f r l).
Proof. intros Hf. revert r. induction l as [|a l IH]; intros r Hr; simpl; eauto. Qed.

Lemma wp_swept call x (f : PoolState -> list SlotId * PoolState) Q :
  (forall st cells F, swept x cells F st ([], st) -> swept x cells F st (f st)) ->
  (forall l R, batch x l R -> Q l R) -> wp call (lock (fun _ => f)) ∅ Q.
Proof.
  intros Hf HQ now st cells F Hp Hd HO He. destruct (Hf st cells F) as (R & Hb & Hd' & Hp' & HO' & Hn).
  { exists ∅. split_and!; try done. apply batch_nil. }
  exists R. split_and!; try done; [|by apply HQ]. intros y. unfold next_of. rewrite Hn. lia.
Qed.

Lemma wp_sweep_idle call : wp call (sweep_idle cfg) ∅ (fun _ R => R = ∅).
Proof.
  apply wp_bind. intros now. apply wp_ret, wp_bind.
  eapply (wp_swept _ Destroying).
  - intros st cells F Hs. apply swept_foldl; [|done]. intros [l st1] c. apply swept_sweep_class.
  - intros l R Hb. apply wp_bind. eapply wp_mono; [|by apply wp_destroy_batch]. intros [] R' ->.
    apply wp_bind. eapply (wp_swept _ Clearing).
    + intros st cells F Hs. apply swept_foldl; [|done]. intros [l1 st1] s Hs1.
      destruct (lease_due cfg now st1 s) eqn:Edue; [|done].
      destruct (transition_locked cfg st1 s ReleaseLease) as [[next st2]|] eqn:E; [|done].
      destruct (transition_post _ _ _ _ _ _ E) as (i & Hi & Hstep & _).
      assert (state i = Leased /\ next = Clearing) as [Hst ->].
      { destruct (state i); simpl in Hstep; try done. by injection Hstep. }
      eapply swept_take; [done|exact Hi|by rewrite Hst|exact E|done].
    + intros l2 R2. apply wp_clear_batch.
Qed.

(** ** Start and re-warm *)

Lemma wp_mint_and_publish call s e c Q R :
  R !! KSlot s = None -> (forall r, Q r R) ->
  wp call (let!? _ := mint cfg s in let! _ := publish_idle cfg s in Ret (Ok tt))
    (<[KSlot s := VSlot (fresh cfg s e c) KDead]> R) Q.
Proof.
  intros Hnone HQ. apply wp_try. eapply wp_mint; [by rewrite lookup_insert_eq|done|done|..].
  - intros er. rewrite delete_insert_id by done. apply HQ.
  - intros h. rewrite insert_insert_eq. apply wp_bind.
    eapply wp_publish_idle; [by rewrite lookup_insert_eq|done|done|].
    rewrite delete_insert_id by done. apply HQ.
Qed.

Lemma wp_start_class call n c Q :
  has_account cfg (class_account c) = true -> (forall r, Q r ∅) ->
  wp call (start_class cfg n c) ∅ Q.
Proof.
  intros Hacc HQ. induction n as [|n IH]; cbn [start_class]; [apply HQ|].
  apply wp_bind. intros now st cells F Hp Hd HO He. unfold start_reserve_locked.
  destruct (free_slot st (pool_size cfg)) as [s|] eqn:Ef; simpl.
  - apply free_slot_Some in Ef as (Hi & Hl & Hs).
    destruct (reserve_own st cells ∅ F s c) as (Hnone & ? & ? & ? & ?); try done.
    eexists. split_and!; try done. apply wp_try.
    eapply wp_mint; [by rewrite lookup_insert_eq|done|done|..].
    + intros er. rewrite delete_insert_id by done. apply HQ.
    + intros h. rewrite insert_insert_eq. apply wp_bind.
      eapply wp_publish_idle; [by rewrite lookup_insert_eq|done|done|].
      rewrite delete_insert_id by done. apply IH.
  - exists ∅. split_and!; try done; [intros x; lia|apply HQ].
Qed.

Lemma wp_start_classes call l Q :
  (forall w, w ∈ l -> has_account cfg (class_account (wc_class w)) = true) -> (forall r, Q r ∅) ->
  wp call (for_each_ok (fun w => start_class cfg (N.to_nat (wc_count w)) (wc_class w)) l) ∅ Q.
Proof.
  intros Hl HQ. induction l as [|w l IH]; cbn [for_each_ok]; [apply HQ|].
  apply wp_try, wp_start_class.
  - apply Hl, elem_of_cons. by left.
  - intros [[]|e]; [|apply HQ]. apply IH. intros w' Hw'. apply Hl, elem_of_cons. by right.
Qed.

Lemma wp_start call : wp call (start cfg) ∅ (fun _ R => R = ∅).
Proof.
  apply wp_try, wp_require_private_parent. intros [[]|e]; [|done]. apply wp_try.
  assert (wp call (for_each_ok (fun w => start_class cfg (N.to_nat (wc_count w)) (wc_class w)) (warm_set cfg))
    ∅ (fun _ R => R = ∅)) as Hw.
  { apply wp_start_classes; [|done]. apply co_warm_accounts. }
  destruct (retain_dir cfg); [|exact Hw]. apply wp_require_private_parent. by intros [[]|e].
Qed.

Lemma wp_rewarm call c :
  has_account cfg (class_account c) = true ->
  wp call (rewarm cfg c) {[KWarm c := VTok]} (fun _ R => R = ∅).
Proof.
  intros Hacc. apply wp_bind.
  assert (wp call (update (fun st => set_rewarming (rewarming st ∖ {[c]}) st))
    {[KWarm c := VTok]} (fun _ R => R = ∅)) as Hend.
  { eapply (wp_pending_update _ _ _ (delete (KWarm c) {[KWarm c := VTok]})); [|by rewrite delete_singleton_eq].
    intros st cells F Hp Hd HO.
    destruct (frame_delete {[KWarm c := VTok]} F (KWarm c)) as [Hd' Heq];
      [done|by rewrite lookup_singleton_eq; eexists|]. split_and!; try done.
    - apply (pool_ok_tokens st); try done.
    - rewrite <-Heq. by apply Own_drop_warm. }
  intros now st cells F Hp Hd HO He. unfold rewarm_reserve_locked.
  assert (exists R', R' ##ₘ F /\ pool_ok cfg st /\ Own st cells (R' ∪ F) /\ grows st st /\
    wp call (update (fun st => set_rewarming (rewarming st ∖ {[c]}) st)) R' (fun _ R => R = ∅)) as Hsame.
  { eexists. split_and!; try done. intros x. lia. }
  destruct (if negb (shutting_down st) && _ then free_slot st (pool_size cfg) else None) as [s|] eqn:Ef;
    [|exact Hsame].
  destruct (live st <? capacity st (pool_size cfg)); [|exact Hsame].
  destruct (negb _ && _); [|done]. apply free_slot_Some in Ef as (Hi & Hl & Hs).
  destruct (reserve_own st cells {[KWarm c := VTok]} F s c) as (Hnone & ? & ? & ? & ?); try done.
  eexists. split_and!; try done. apply wp_bind, wp_bind.
  eapply wp_mint; [by rewrite lookup_insert_eq|done|done|..].
  - intros er. rewrite delete_insert_id by done. exact Hend.
  - intros h. rewrite insert_insert_eq.
    eapply wp_publish_idle; [by rewrite lookup_insert_eq|done|done|].
    rewrite delete_insert_id by done. exact Hend.
Qed.

(** ** Every call and every task *)

Lemma wp_outcome call {A} (p : Prog A) (f : A -> Outcome) R :
  wp call p R (fun _ R => R = ∅) -> wp call (let! r := p in Ret (f r)) R (fun _ R => R = ∅).
Proof. intros H. apply wp_bind. eapply wp_mono; [|exact H]. by intros a R' ->. Qed.

Lemma calls_ok call : external call = true -> call <> CShutdown ->
  wp call (prog_of cfg nfc str_debug call) ∅ (fun _ R => R = ∅).
Proof.
  intros He Hs. destruct call as [|rq|c rq resume|c|c|c|c| | |t]; try done; apply wp_outcome.
  - apply wp_start.
  - apply wp_run.
  - apply wp_run_sticky.
  - apply wp_release.
  - apply wp_touch.
  - unfold protect_conversation. destruct (trim_is_empty c); [done|]. by apply wp_protected.
  - by apply wp_protected.
  - apply wp_sweep_idle.
Qed.

Lemma tasks_ok t R : task_pre cfg t R ->
  wp (CTask t) (prog_of cfg nfc str_debug (CTask t)) R (fun _ R => R = ∅).
Proof.
  destruct t as [s|c]; simpl; intros Hpre; apply wp_outcome.
  - destruct Hpre as (i & h & -> & Hst & Hh).
    eapply wp_finish_turn; [by rewrite lookup_singleton_eq|done|done|apply delete_singleton_eq].
  - destruct Hpre as [-> Hacc]. by apply wp_rewarm.
Qed.

(** Every world reached without a shutdown is divided between its threads. *)
Lemma wf_world l w :
  N.of_nat (length l) < U64_MAX -> Forall (fun ch => ch <> Invoke CShutdown) l ->
  reached cfg nfc str_debug l w -> wf cfg nfc str_debug (N.of_nat (length l)) w.
Proof. apply wf_reached; [apply calls_ok|apply tasks_ok]. Qed.

End Proofs.
