(* ===== verification/PoolTheorems.v ===== *)
(** * What the pool promises in every interleaving

    The theorems on [crates/service/src/pool/mod.rs] as a whole: whatever callers
    invoke, however the scheduler interleaves them and whatever the host, the
    clock and the file system answer, as long as nobody invokes [Pool::shutdown].
    (Fewer than 2{^64} - 1 steps: a slot's epoch counter saturates there.) *)

From S2P Require Import Prelude Text Protocol Account Class Machine Refusal Config Instance Composer Pool PoolProg PoolSem PoolInv Ownership PoolLogic PoolProofs.

(** ** A concrete daemon, for the witnesses *)

Module Demo.

(** Two slots, the rest as the defaults have it. *)
Definition config : PoolConfig := {|
  pool_size := 2;
  recycle_turns := 50;
  system_prompt := DEFAULT_SYSTEM_PROMPT;
  system_prompt_fingerprint := fingerprint DEFAULT_SYSTEM_PROMPT;
  instance_idle_ttl_ms := 300000;
  turn_timeout_ms := 600000;
  parent_dir := path_from "/pool";
  claude_executable := path_from "/bin/claude";
  securestorage_dir := EmptyString;
  accounts := [mkConfiguredAccount AccountName_DEFAULT EmptyString];
  retain_dir := None;
  evidence_dir := None;
  warm_set := [];
|}.

Definition small : PoolSettings :=
  mkPoolSettings 2 50 DEFAULT_SYSTEM_PROMPT 300000 600000 (path_from "/pool") (path_from "/bin/claude")
    EmptyString [] None None [] (2 * RSS_CEILING_MB_PER_INSTANCE).

Lemma config_validated : validate small = Ok config.
Proof. vm_compute. reflexivity. Qed.

#[global] Instance config_ok : ConfigOk config.
Proof.
  split; try (by vm_compute).
  - intros x Hx. assert (forallb (fun x => negb (bad_prompt_char x)) (system_prompt config) = true) as H
      by (vm_compute; reflexivity).
    rewrite forallb_forall in H. apply list_elem_of_In in Hx. specialize (H x Hx).
    by destruct (bad_prompt_char x).
  - apply NoDup_singleton.
  - apply NoDup_singleton.
  - constructor.
  - intros w Hw. by apply elem_of_nil in Hw.
  - intros w Hw. by apply elem_of_nil in Hw.
Qed.

Definition request (model : string) : RunStatelessRequest :=
  {| rq_model := model; rq_effort := None; rq_prompt := text_of "hello";
     rq_account := None; rq_deadline_unix_ms := None |}.

Definition handle_for (spec : MintSpec) : InstanceHandle :=
  mkInstanceHandle (ms_slot spec) (ms_epoch spec) None "2.1.0".

Definition turn : HostTurn :=
  mkHostTurn "hi" None None
    {| ub_main := TokenUsage_default; ub_sidechain := TokenUsage_default;
       ub_combined := TokenUsage_default; ub_cost_usd := None |} (Some 0).

(** An environment in which everything succeeds at once. *)
Definition answer {X : Set} (e : Eff X) : Ans :=
  match e with
  | ELock _ => ANum 5
  | ENow => ANum 1000
  | EInstant | EEuid => ANum 0
  | ESleep _ | EWritePid _ _ | EEvidence _ _ | ESpawn _ => AUnit
  | EMint spec => AHandle (Ok (handle_for spec))
  | ERunTurn _ _ _ => ATurn (Ok turn)
  | EClear _ => ACleared (Ok tt)
  | EDestroy _ => ADestroyed (Ok (mkDestroyed true))
  | EExists _ => ABool false
  | ESymlinkMetadata _ => AMeta (Ok (mkMetadata false true 0 448))
  | ECreateDir _ | ESeal _ | ERemoveDirAll _ | ERename _ _ => AIo (Ok tt)
  | EPanic _ | EOutOfFuel => AUnit
  end.

Definition step_all (w : World) (ch : Choice) : option World :=
  do_step config (fun t => t) (fun s => s) w ch.

(** [n] steps of one thread, each effect answered by [answer]. *)
Fixpoint drive (n : nat) (tid : nat) (w : World) : list Choice * World :=
  match n with
  | 0%nat => ([], w)
  | S n =>
      match w_threads w !! tid with
      | None => ([], w)
      | Some th =>
          match th_prog th with
          | Ret _ => ([], w)
          | Do e _ =>
              let ch := Answer tid (answer e) in
              match step_all w ch with
              | None => ([], w)
              | Some w' => let '(l, w'') := drive n tid w' in (ch :: l, w'')
              end
          end
      end
  end.

(** A script: calls to invoke, threads to run for so many steps, and answers given
    by hand. *)
Inductive Act := Call_ (call : Call) | Run_ (tid n : nat) | Say (tid : nat) (a : Ans).

Definition reached_by (l : list Choice) (w : World) : Prop :=
  reached config (fun t => t) (fun s => s) l w.

Lemma do_steps_app cfg nfc dbg w l1 l2 w1 :
  do_steps cfg nfc dbg w l1 = Some w1 ->
  do_steps cfg nfc dbg w (l1 ++ l2) = do_steps cfg nfc dbg w1 l2.
Proof.
  revert w. induction l1 as [|c l1 IH]; intros w; simpl; [by intros [= ->]|].
  destruct (do_step cfg nfc dbg w c); [apply IH|done].
Qed.

Lemma drive_steps n tid w l w' : drive n tid w = (l, w') ->
  do_steps config (fun t => t) (fun s => s) w l = Some w'.
Proof.
  revert w l. induction n as [|n IH]; intros w l; cbn [drive].
  { intros E. by injection E as <- <-. }
  destruct (w_threads w !! tid) as [th|] eqn:Et; [|intros E; by injection E as <- <-].
  destruct (th_prog th) as [|X e k] eqn:Ep; [intros E; by injection E as <- <-|].
  destruct (step_all w (Answer tid (answer e))) as [w1|] eqn:Es; [|intros E; by injection E as <- <-].
  destruct (drive n tid w1) as [l1 w2] eqn:Ed. intros E. injection E as <- <-. cbn [do_steps].
  unfold step_all in Es. rewrite Es. by apply IH.
Qed.

Definition act (a : Act) (w : World) : list Choice * World :=
  match a with
  | Call_ call => match step_all w (Invoke call) with
                  | Some w' => ([Invoke call], w') | None => ([], w) end
  | Run_ tid n => drive n tid w
  | Say tid ans => match step_all w (Answer tid ans) with
                   | Some w' => ([Answer tid ans], w') | None => ([], w) end
  end.

Fixpoint script (acts : list Act) (w : World) : list Choice * World :=
  match acts with
  | [] => ([], w)
  | a :: acts =>
      let '(l, w1) := act a w in
      let '(l', w') := script acts w1 in (l ++ l', w')
  end.

Lemma act_steps a w l w' : act a w = (l, w') ->
  do_steps config (fun t => t) (fun s => s) w l = Some w'.
Proof.
  destruct a as [call|tid n|tid ans]; cbn [act].
  - destruct (step_all w (Invoke call)) as [w0|] eqn:E; intros Ea; injection Ea as <- <-; [|done].
    unfold step_all in E. cbn [do_steps]. by rewrite E.
  - apply drive_steps.
  - destruct (step_all w (Answer tid ans)) as [w0|] eqn:E; intros Ea; injection Ea as <- <-; [|done].
    unfold step_all in E. cbn [do_steps]. by rewrite E.
Qed.

Lemma script_steps acts w l w' : script acts w = (l, w') ->
  do_steps config (fun t => t) (fun s => s) w l = Some w'.
Proof.
  revert w l. induction acts as [|a acts IH]; intros w l; cbn [script].
  - intros E. by injection E as <- <-.
  - destruct (act a w) as [l1 w1] eqn:Ea. destruct (script acts w1) as [l2 w2] eqn:Es.
    intros E. injection E as <- <-.
    rewrite (do_steps_app _ _ _ w l1 l2 w1); [by apply IH|]. by eapply act_steps.
Qed.

Lemma script_reached acts :
  reached_by (fst (script acts world0)) (snd (script acts world0)).
Proof. unfold reached_by, reached. eapply script_steps. apply surjective_pairing. Qed.

Definition no_shutdown (ch : Choice) : bool :=
  match ch with Invoke CShutdown => false | _ => true end.

Lemma no_shutdown_spec l : forallb no_shutdown l = true -> Forall (fun ch => ch <> Invoke CShutdown) l.
Proof.
  rewrite forallb_forall. intros H. apply Forall_forall. intros ch Hin%list_elem_of_In ->.
  by specialize (H _ Hin).
Qed.

Definition outcome_of (w : World) (tid : nat) : option Outcome :=
  match w_threads w !! tid with
  | Some th => match th_prog th with Ret o => Some o | Do _ _ => None end
  | None => None
  end.

End Demo.

(** ** The division of a world, read off *)

(** The part of a world each thread owns. *)
Record Division (cfg : PoolConfig) (nfc : list N -> list N) (str_debug : string -> string)
    (w : World) (part : nat -> Res) : Prop := {
  dv_pool : pool_ok cfg (w_state w);
  dv_thread : forall tid th, w_threads w !! tid = Some th -> thread_ok cfg nfc str_debug th (part tid);
  dv_slot : forall tid s v, part tid !! KSlot s = Some v -> exists i k, v = VSlot i k /\
    instances (w_state w) !! s = Some i /\ parked (state i) = false /\
    cell_ok k (w_cells w !! (s, epoch i));
  dv_exclusive : forall t1 t2 k, is_Some (part t1 !! k) -> is_Some (part t2 !! k) -> t1 = t2;
  dv_parked : forall s i, instances (w_state w) !! s = Some i ->
    (forall tid, part tid !! KSlot s = None) -> parked (state i) = true /\ is_Some (handle i);
  dv_pending : forall c, c ∈ pending_leases (w_state w) -> exists tid, is_Some (part tid !! KConv c);
  dv_rewarming : forall c, c ∈ rewarming (w_state w) -> exists tid, is_Some (part tid !! KWarm c);
  dv_thread_bound : forall tid k, is_Some (part tid !! k) -> is_Some (w_threads w !! tid);
}.

(** ** Paths and lists the theorems look at *)

Lemma epoch_dir_of_root parent s e s0 e0 :
  path_starts_with (root (SlotPaths_new parent s e)) (epoch_dir (SlotPaths_new parent s0 e0)) = true ->
  s = s0 /\ e = e0.
Proof.
  intros [l Hl]%path_starts_with_spec. apply (f_equal path_components) in Hl. simpl in Hl.
  rewrite <-!app_assoc in Hl. simpl in Hl. apply (inj (app _)) in Hl. injection Hl as H1 H2 _.
  by apply (inj pretty) in H1, H2.
Qed.

Lemma path_prefixes_comparable q a b :
  path_starts_with q a = true -> path_starts_with q b = true ->
  path_starts_with a b = true \/ path_starts_with b a = true.
Proof.
  rewrite !path_starts_with_spec. destruct a as [aa ca], b as [ab cb]. simpl.
  intros [l1 ->] [l2 Heq]. injection Heq as -> Hcomp.
  destruct (prefix_weak_total ca cb (ca ++ l1)) as [[l ->]|[l ->]].
  - by exists l1.
  - by exists l2.
  - right. by exists l.
  - left. by exists l.
Qed.

Lemma retained_dir_apart parent d s e x :
  path_starts_with (root (SlotPaths_new parent s e)) (path_join d x) = true ->
  path_starts_with parent d = true \/ path_starts_with d parent = true.
Proof.
  intros H. assert (path_starts_with (root (SlotPaths_new parent s e)) d = true) as Hd.
  { rewrite path_starts_with_spec in *. destruct H as [l Hl]. exists (x :: l). rewrite Hl.
    unfold path_join. simpl. by rewrite <-app_assoc. }
  apply (path_prefixes_comparable (root (SlotPaths_new parent s e))); [|done].
  simpl. by do 3 apply path_starts_with_join; apply path_starts_with_refl.
Qed.

Lemma omap_omap {A B C} (f : B -> option C) (h : A -> option B) (l : list A) :
  omap f (omap h l) = omap (fun x => h x ≫= f) l.
Proof.
  induction l as [|x l IH]; [done|]. cbn. destruct (h x) as [y|]; cbn; [|exact IH].
  destruct (f y); [|exact IH]. f_equal. exact IH.
Qed.

Lemma NoDup_fmap_omap {A B C} (f : A -> option B) (g : B -> C) (l : list A) :
  NoDup l ->
  (forall x y a b, x ∈ l -> y ∈ l -> f x = Some a -> f y = Some b -> g a = g b -> x = y) ->
  NoDup (g <$> omap f l).
Proof.
  induction 1 as [|x l Hx Hl IH]; intros Hinj; simpl; [constructor|].
  assert (NoDup (g <$> omap f l)) as Hrest.
  { apply IH. intros y z a b Hy Hz. apply Hinj; apply elem_of_cons; by right. }
  destruct (f x) as [a|] eqn:E; simpl; [|done]. constructor; [|done].
  intros (b & Hab & (y & Hy & Hb)%list_elem_of_omap)%list_elem_of_fmap. apply Hx.
  assert (x = y) as ->; [|done]. eapply Hinj; eauto; apply elem_of_cons; auto.
Qed.

Lemma lease_of_Some st s a :
  (i ← instances st !! s;
   c ← conversation_id i;
   if holds_conversation (state i)
   then Some (mkConversationLease c (cell_name i) (state_name (state i))) else None) = Some a ->
  exists i, instances st !! s = Some i /\ conversation_id i = Some (cl_conversation_id a).
Proof.
  destruct (instances st !! s) as [i|]; simpl; [|done].
  destruct (conversation_id i) as [c|] eqn:E; simpl; [|done].
  destruct (holds_conversation (state i)); [|done]. intros [= <-]. by exists i.
Qed.

(** ** What a thread is waiting for *)

Definition pending (w : World) (tid : nat) : option (Thread * {X : Set & Eff X}) :=
  match w_threads w !! tid with
  | Some th => match th_prog th with Do e _ => Some (th, existT _ e) | Ret _ => None end
  | None => None
  end.

Definition panicking (w : World) (tid : nat) : bool :=
  match pending w tid with Some (_, existT _ (EPanic _)) => true | _ => false end.

(** The directory a thread is about to take off its place. *)
Definition erasing (w : World) (tid : nat) : option Path :=
  match pending w tid with
  | Some (_, existT _ (ERemoveDirAll p)) => Some p
  | Some (_, existT _ (ERename from _)) => Some from
  | _ => None
  end.

(** The slot and epoch a thread is launching a process into. *)
Definition launching (w : World) (tid : nat) : option (SlotId * Epoch) :=
  match pending w tid with
  | Some (_, existT _ (EMint spec)) => Some (ms_slot spec, ms_epoch spec)
  | _ => None
  end.

(** A process may be alive under this slot and epoch: the host handed out its handle
    and has not reported it reaped, it said one may survive, or a launch is in
    flight. *)
Definition possibly_alive (w : World) (s : SlotId) (e : Epoch) : Prop :=
  maybe_live (w_cells w !! (s, e)) = true \/ exists tid, launching w tid = Some (s, e).

Lemma erasing_Some w tid p : erasing w tid = Some p ->
  exists th X (e : Eff X) k, w_threads w !! tid = Some th /\ th_prog th = Do e k /\
    match e with ERemoveDirAll q => p = q | ERename from _ => p = from | _ => False end.
Proof.
  unfold erasing, pending. destruct (w_threads w !! tid) as [th|] eqn:Et; [|done].
  destruct (th_prog th) as [|X e k] eqn:Ep; [done|]. intros H. exists th, X, e, k.
  split_and!; try done. destruct e; try done; by injection H.
Qed.

Lemma launching_Some w tid s ep : launching w tid = Some (s, ep) ->
  exists th spec k, w_threads w !! tid = Some th /\ th_prog th = Do (EMint spec) k /\
    ms_slot spec = s /\ ms_epoch spec = ep.
Proof.
  unfold launching, pending. destruct (w_threads w !! tid) as [th|] eqn:Et; [|done].
  destruct (th_prog th) as [|X e k] eqn:Ep; [done|]. destruct e; try done.
  intros [= <- <-]. by exists th, spec, k.
Qed.

(** The turn a thread has its host run. *)
Definition running (w : World) (tid : nat) : option (InstanceHandle * list N) :=
  match pending w tid with
  | Some (_, existT _ (ERunTurn h prompt _)) => Some (h, prompt)
  | _ => None
  end.

Lemma running_Some w tid h prompt : running w tid = Some (h, prompt) ->
  exists th deadline k, w_threads w !! tid = Some th /\ th_prog th = Do (ERunTurn h prompt deadline) k.
Proof.
  unfold running, pending. destruct (w_threads w !! tid) as [th|] eqn:Et; [|done].
  destruct (th_prog th) as [|X e k] eqn:Ep; [done|]. destruct e; try done.
  intros [= <- <-]. by exists th, deadline, k.
Qed.

Definition finished (w : World) : bool :=
  forallb (fun th => match th_prog th with Ret _ => true | Do _ _ => false end) (w_threads w).

Lemma finished_spec w tid th : finished w = true -> w_threads w !! tid = Some th ->
  exists o, th_prog th = Ret o.
Proof.
  unfold finished. rewrite forallb_forall. intros H Hth%list_elem_of_lookup_2%list_elem_of_In.
  specialize (H _ Hth). destruct (th_prog th); [by eexists|done].
Qed.

Section Promises.
Variable cfg : PoolConfig.
Variable nfc : list N -> list N.
Variable str_debug : string -> string.
Context `{Hcfg : !ConfigOk cfg}.
Variable l : list Choice.
Variable w : World.
Hypothesis steps_bounded : N.of_nat (length l) < U64_MAX.
Hypothesis no_shutdown : Forall (fun ch => ch <> Invoke CShutdown) l.
Hypothesis w_reached : reached cfg nfc str_debug l w.

Lemma world_divided : exists part, Division cfg nfc str_debug w part.
Proof.
  destruct (wf_world cfg nfc str_debug l w steps_bounded no_shutdown w_reached)
    as [Hp _ (T & HO & Hown)].
  destruct (owns_list _ _ _ Hown) as (Rs & Hlen & Hok & Hdis & Hcov).
  exists (fun tid => default ∅ (Rs !! tid)).
  assert (forall tid k v, default ∅ (Rs !! tid) !! k = Some v ->
    exists R, Rs !! tid = Some R /\ R !! k = Some v /\ is_Some (w_threads w !! tid) /\ T !! k = Some v) as Hpart.
  { intros tid k v. destruct (Rs !! tid) as [R|] eqn:E; simpl; [|by rewrite lookup_empty].
    intros Hv. exists R. split_and!; try done.
    - apply lookup_lt_is_Some_2. rewrite <-Hlen. apply lookup_lt_is_Some_1. eauto.
    - destruct (lookup_lt_is_Some_2 (w_threads w) tid) as [th Hth].
      { rewrite <-Hlen. apply lookup_lt_is_Some_1. eauto. }
      destruct (Hok _ _ _ Hth E) as [_ Hsub]. by eapply lookup_weaken. }
  split.
  - done.
  - intros tid th Hth. destruct (lookup_lt_is_Some_2 Rs tid) as [R HR].
    { rewrite Hlen. apply lookup_lt_is_Some_1. eauto. }
    rewrite HR. by eapply Hok.
  - intros tid s v (R & _ & _ & _ & HT)%Hpart. by apply (own_slot _ _ _ HO).
  - intros t1 t2 k [v1 (R1 & ? & ? & _)%Hpart] [v2 (R2 & ? & ? & _)%Hpart].
    eapply (Hdis t1 t2 R1 R2 k); eauto.
  - intros s i Hi Hnone. assert (T !! KSlot s = None) as Hfree.
    { destruct (T !! KSlot s) as [v|] eqn:E; [|done]. destruct (Hcov _ _ E) as (tid & R & HR & Hv).
      specialize (Hnone tid). rewrite HR in Hnone. simpl in Hnone. congruence. }
    destruct (own_free _ _ _ HO s i Hi Hfree) as (? & h & ? & _). split; [done|by eexists].
  - intros c [v Hv]%(own_conv _ _ _ HO). destruct (Hcov _ _ Hv) as (tid & R & HR & Hv').
    exists tid. rewrite HR. by eexists.
  - intros c [v Hv]%(own_warm _ _ _ HO). destruct (Hcov _ _ Hv) as (tid & R & HR & Hv').
    exists tid. rewrite HR. by eexists.
  - intros tid k [v (R & _ & _ & Ht & _)%Hpart]. done.
Qed.

(** What a thread that waits for an effect satisfies. *)
Lemma pending_effect part tid th X (e : Eff X) k :
  Division cfg nfc str_debug w part -> w_threads w !! tid = Some th -> th_prog th = Do e k ->
  wp_eff cfg nfc str_debug (th_call th) e (part tid)
    (fun x R => wp cfg nfc str_debug (th_call th) (k x) R (fun _ R => R = ∅)).
Proof.
  intros Hdv Hth Hp. pose proof (dv_thread _ _ _ _ _ Hdv _ _ Hth) as H. unfold thread_ok in H.
  by rewrite Hp in H.
Qed.

(** C1. The pool's own invariant check never fails: in every world any number of
    callers, sweeps and background tasks can reach, the idle sets hold exactly the
    idle instances of their class, no slot is both live and leaked, the live
    instances fit the remaining capacity and every instance satisfies the
    invariants of its state. *)
Theorem pool_invariants_always_hold : pool_check_invariants cfg (w_state w) = Ok tt.
Proof.
  destruct world_divided as [part Hdv]. apply pool_ok_checks; [|apply Hdv].
  pose proof co_pool_size as Hs. unfold MAX_POOL_SIZE, U32_MAX in *. lia.
Qed.

(** C11. As long as no shutdown was invoked, host calls are exclusive and land where they
    belong: there is an assignment of slots to threads such that a thread waiting for a turn, a clear, a teardown
    or a launch works on a slot that is its alone, in the state that call needs and
    under that instance's own handle; a turn runs the validated prompt of its
    request on an instance of exactly the class the request resolves to, and a
    sticky turn on the instance bound to its conversation. No assigned slot is idle
    or leased, so nobody else can be given it. *)
Theorem host_calls_are_exclusive :
  exists owner : SlotId -> option nat,
    (forall s tid i, owner s = Some tid -> instances (w_state w) !! s = Some i ->
       parked (state i) = false) /\
    forall tid th X (e : Eff X) k,
      w_threads w !! tid = Some th -> th_prog th = Do e k ->
      let on_own_slot (P : SlotId -> Instance -> Prop) :=
        exists s i, owner s = Some tid /\ instances (w_state w) !! s = Some i /\ P s i in
      match e with
      | ERunTurn h prompt _ => on_own_slot (fun s i =>
          state i = CheckedOut /\ handle i = Some h /\ serves cfg nfc str_debug (th_call th) i prompt)
      | EClear h => on_own_slot (fun s i => state i = Clearing /\ handle i = Some h)
      | EDestroy h => on_own_slot (fun s i => state i = Destroying /\ handle i = Some h)
      | EMint spec => on_own_slot (fun s i =>
          s = ms_slot spec /\ state i = Warming /\ mint_in_flight i = true /\ handle i = None /\
          ms_epoch spec = epoch i /\ ms_class spec = class i /\ ms_root spec = root (paths i))
      | _ => True
      end.
Proof.
  destruct world_divided as [part Hdv].
  exists (fun s => find_first (fun tid => bool_decide (is_Some (part tid !! KSlot s)))
                     (seq 0 (length (w_threads w)))).
  assert (forall tid s i k, part tid !! KSlot s = Some (VSlot i k) ->
    find_first (fun tid => bool_decide (is_Some (part tid !! KSlot s))) (seq 0 (length (w_threads w)))
      = Some tid /\ instances (w_state w) !! s = Some i) as Hown.
  { intros tid s i k Hs. split.
    - destruct (find_first _ _) as [t|] eqn:E.
      + apply find_first_Some in E as [_ E%bool_decide_eq_true]. f_equal.
        eapply (dv_exclusive _ _ _ _ _ Hdv); eauto.
      + exfalso. rewrite find_first_None in E. specialize (E tid).
        rewrite bool_decide_eq_true_2 in E by eauto. discriminate E.
        apply elem_of_seq. assert (is_Some (w_threads w !! tid)) as Ht by (eapply dv_thread_bound; eauto).
        apply lookup_lt_is_Some in Ht. lia.
    - destruct (dv_slot _ _ _ _ _ Hdv tid s _ Hs) as (i' & k' & [= <- <-] & ? & _). done. }
  split.
  - intros s tid i Ht Hi. apply find_first_Some in Ht as [_ [v Hv]%bool_decide_eq_true].
    destruct (dv_slot _ _ _ _ _ Hdv tid s _ Hv) as (i' & k' & _ & ? & ? & _). congruence.
  - intros tid th X e k Hth He. pose proof (pending_effect part tid th X e k Hdv Hth He) as H.
    destruct e; try exact I; simpl in H.
    + destruct H as (i & Hs & ? & ? & ? & ? & ? & ? & _). destruct (Hown _ _ _ _ Hs).
      exists (ms_slot spec), i. done.
    + destruct H as [(s & i & Hs & ? & ? & ?) _]. destruct (Hown _ _ _ _ Hs). by exists s, i.
    + destruct H as [(s & i & Hs & ? & ?) _]. destruct (Hown _ _ _ _ Hs). by exists s, i.
    + destruct H as (s & i & Hs & ? & ? & _). destruct (Hown _ _ _ _ Hs). by exists s, i.
Qed.

(** Nothing is stranded: once every call and every task has finished, each live
    instance is idle (and published) or leased, under a process handle, no
    conversation is half claimed and no class is marked as re-warming. *)
Theorem nothing_is_stranded :
  finished w = true ->
  (forall s i, instances (w_state w) !! s = Some i ->
     (state i = Idle \/ state i = Leased) /\ is_Some (handle i)) /\
  pending_leases (w_state w) = ∅ /\ rewarming (w_state w) = ∅.
Proof.
  intros Hdone. destruct world_divided as [part Hdv].
  assert (forall tid k, part tid !! k = None) as Hempty.
  { intros tid k. apply eq_None_not_Some. intros Hk.
    destruct (dv_thread_bound _ _ _ _ _ Hdv tid k Hk) as [th Hth].
    pose proof (dv_thread _ _ _ _ _ Hdv _ _ Hth) as H. unfold thread_ok in H.
    destruct (finished_spec _ _ _ Hdone Hth) as [o Ho]. rewrite Ho in H. simpl in H. rewrite H, lookup_empty in Hk.
    by destruct Hk. }
  split_and!.
  - intros s i Hi. destruct (dv_parked _ _ _ _ _ Hdv s i Hi) as [Hp Hh]; [done|].
    split; [|done]. destruct (state i); try done; auto.
  - apply set_eq. intros c. split; [|set_solver].
    intros (tid & v & Hv)%(dv_pending _ _ _ _ _ Hdv). by rewrite Hempty in Hv.
  - apply set_eq. intros c. split; [|set_solver].
    intros (tid & v & Hv)%(dv_rewarming _ _ _ _ _ Hdv). by rewrite Hempty in Hv.
Qed.

(** No operation panics: neither the [expect] on the account pin nor the index
    into the slot map is ever reached with nothing there. *)
Theorem no_thread_panics tid : panicking w tid = false.
Proof.
  unfold panicking, pending. destruct (w_threads w !! tid) as [th|] eqn:Hth; [|done].
  destruct (th_prog th) as [|X e k] eqn:Hp; [done|]. destruct world_divided as [part Hdv].
  pose proof (pending_effect part tid th X e k Hdv Hth Hp) as H. by destruct e.
Qed.

(** C12. As long as no shutdown was invoked, and when the pool's parent directory does not
    lie in the retention directory, no tree is erased or moved from under a process that
    may be alive: whenever a thread is about to remove or rename a directory, the config
    root of every slot and epoch whose process may be alive (and so everything below it)
    lies outside that directory. *)
Theorem no_live_root_is_erased :
  (forall d, retain_dir cfg = Some d -> path_starts_with (parent_dir cfg) d = false) ->
  forall tid p s ep, erasing w tid = Some p -> possibly_alive w s ep ->
    path_starts_with (root (SlotPaths_new (parent_dir cfg) s ep)) p = false.
Proof.
  intros Hret tid p s ep Her Halive. destruct world_divided as [part Hdv].
  assert (dead_dir cfg (part tid) p \/ retained_dir cfg p) as Hdir.
  { apply erasing_Some in Her as (th & X & e & k & Hth & He & Htk).
    pose proof (pending_effect part tid th X e k Hdv Hth He) as H.
    destruct e; try done; simpl in Htk, H; subst p; by destruct H as [? _]; naive_solver. }
  destruct (path_starts_with _ p) eqn:Ep; [|done]. exfalso. destruct Hdir as [Hd|Hd].
  - destruct Hd as (s0 & i0 & Hs0 & Hst0 & ->). apply epoch_dir_of_root in Ep as [-> ->].
    destruct (dv_slot _ _ _ _ _ Hdv _ _ _ Hs0) as (i & k' & [= <- <-] & Hi & _ & Hk).
    destruct Halive as [Hl|[tid2 (th2 & spec & k2 & Hth2 & He2 & <- & Hep)%launching_Some]];
      [simpl in Hk; congruence|].
    destruct (pending_effect part tid2 th2 _ _ k2 Hdv Hth2 He2) as (i2 & Hs2 & _ & _ & _ & Hst2 & _).
    assert (tid2 = tid) as -> by (eapply (dv_exclusive _ _ _ _ _ Hdv); eauto).
    congruence.
  - destruct Hd as (d & s0 & e0 & Hd & ->).
    destruct (retained_dir_apart (parent_dir cfg) d s ep _ Ep) as [Hc|Hc].
    + rewrite (Hret d Hd) in Hc. done.
    + rewrite (co_retain d Hd) in Hc. done.
Qed.

(** A conversation is in one place: the conversation report never names an id
    twice, and an id whose first turn is still being admitted is not in it. *)
Theorem conversations_are_unique :
  NoDup (cl_conversation_id <$> conversation_leases (w_state w)) /\
  forall c, c ∈ pending_leases (w_state w) ->
    c ∉ cl_conversation_id <$> conversation_leases (w_state w).
Proof.
  destruct world_divided as [part Hdv]. pose proof (dv_pool _ _ _ _ _ Hdv) as Hp.
  unfold conversation_leases. rewrite merge_sort_Permutation. split.
  - unfold entries. rewrite omap_omap. apply NoDup_fmap_omap; [apply NoDup_live_slots|].
    intros s1 s2 a b _ _ H1 H2 Hab.
    apply lease_of_Some in H1 as (i1 & Hi1 & Hc1). apply lease_of_Some in H2 as (i2 & Hi2 & Hc2).
    rewrite Hab in Hc1. by eapply (po_conv _ _ Hp s1 s2).
  - intros c Hc (a & -> & Ha)%list_elem_of_fmap. unfold entries in Ha. rewrite omap_omap in Ha.
    rewrite elem_of_merge_sort in Ha.
    apply list_elem_of_omap in Ha as (s & _ & (i & Hi & Hci)%lease_of_Some).
    by eapply (po_pending _ _ Hp).
Qed.

End Promises.

(** ** Witnesses *)

Module Witnesses.
Import Demo.

(** One call on a cold pool, to its end and its clear. *)
Definition one_turn : list Act := [Call_ (CRun (request "haiku")); Run_ 0 200; Run_ 1 200].

(** The same call, stopped while the host runs the turn. *)
Definition mid_turn : list Act := [Call_ (CRun (request "haiku")); Run_ 0 20].

(** After that, a second call whose turn fails: its instance is about to be erased
    while the first one's process is alive. *)
Definition failed_turn : list Act :=
  one_turn ++
  [Call_ (CRun (request "sonnet")); Run_ 2 20; Say 2 (ATurn (Err (reaped session_busy))); Run_ 2 4].

(** A sticky turn, to its lease. *)
Definition sticky_turn : list Act :=
  [Call_ (CRunSticky "conv" (request "haiku") false); Run_ 0 200].

Definition sched (acts : list Act) : list Choice := fst (script acts world0).
Definition world (acts : list Act) : World := snd (script acts world0).

Lemma one_turn_ok : pool_ok config (w_state (world one_turn)).
Proof.
  destruct (world_divided config (fun t => t) (fun s => s) (sched one_turn) (world one_turn))
    as [part []]; [vm_compute; reflexivity| |apply script_reached|done].
  apply no_shutdown_spec. vm_compute. reflexivity.
Qed.

Lemma pool_invariants_always_hold_witness :
  pool_check_invariants config (w_state (world one_turn)) = Ok tt.
Proof.
  apply (pool_invariants_always_hold config (fun t => t) (fun s => s) (sched one_turn)).
  - vm_compute. reflexivity.
  - apply no_shutdown_spec. vm_compute. reflexivity.
  - apply script_reached.
Defined.

(** Two callers, each with a turn the host runs. *)
Definition two_turns : list Act :=
  [Call_ (CRun (request "haiku")); Run_ 0 20; Call_ (CRun (request "sonnet")); Run_ 1 20].

Definition handle_at (s : SlotId) : InstanceHandle := mkInstanceHandle s 0 None "2.1.0".

Lemma turns_run :
  running (world two_turns) 0 = Some (handle_at 0, text_of "hello") /\
  running (world two_turns) 1 = Some (handle_at 1, text_of "hello").
Proof. vm_compute. split; reflexivity. Qed.

(** Each works on a slot of its own, checked out, under its own handle. *)
Lemma host_calls_are_exclusive_witness :
  exists s0 s1 i0 i1, s0 <> s1 /\
    instances (w_state (world two_turns)) !! s0 = Some i0 /\ state i0 = CheckedOut /\ handle i0 = Some (handle_at 0) /\
    instances (w_state (world two_turns)) !! s1 = Some i1 /\ state i1 = CheckedOut /\ handle i1 = Some (handle_at 1).
Proof.
  destruct turns_run as [(th0 & d0 & k0 & Ht0 & Hp0)%running_Some (th1 & d1 & k1 & Ht1 & Hp1)%running_Some].
  destruct (host_calls_are_exclusive config (fun t => t) (fun s => s) (sched two_turns) (world two_turns))
    as [owner [_ H]].
  - vm_compute. reflexivity.
  - apply no_shutdown_spec. vm_compute. reflexivity.
  - apply script_reached.
  - destruct (H 0%nat th0 _ _ k0 Ht0 Hp0) as (s0 & i0 & Ho0 & Hi0 & Hs0 & Hh0 & _).
    destruct (H 1%nat th1 _ _ k1 Ht1 Hp1) as (s1 & i1 & Ho1 & Hi1 & Hs1 & Hh1 & _).
    exists s0, s1, i0, i1. split; [intros ->; rewrite Ho0 in Ho1; discriminate Ho1|].
    exact (conj Hi0 (conj Hs0 (conj Hh0 (conj Hi1 (conj Hs1 Hh1))))).
Defined.

Lemma nothing_is_stranded_witness :
  pending_leases (w_state (world one_turn)) = ∅.
Proof.
  apply (nothing_is_stranded config (fun t => t) (fun s => s) (sched one_turn)).
  - vm_compute. reflexivity.
  - apply no_shutdown_spec. vm_compute. reflexivity.
  - apply script_reached.
  - vm_compute. reflexivity.
Defined.

Lemma no_thread_panics_witness : panicking (world mid_turn) 0 = false.
Proof.
  apply (no_thread_panics config (fun t => t) (fun s => s) (sched mid_turn)).
  - vm_compute. reflexivity.
  - apply no_shutdown_spec. vm_compute. reflexivity.
  - apply script_reached.
Defined.

Lemma no_live_root_is_erased_witness :
  path_starts_with (root (SlotPaths_new (parent_dir config) 0 0)) (path_from "/pool/1/0") = false.
Proof.
  apply (no_live_root_is_erased config (fun t => t) (fun s => s) (sched failed_turn) (world failed_turn))
    with (tid := 2%nat).
  - vm_compute. reflexivity.
  - apply no_shutdown_spec. vm_compute. reflexivity.
  - apply script_reached.
  - intros d Hd. discriminate Hd.
  - vm_compute. reflexivity.
  - left. vm_compute. reflexivity.
Defined.

Lemma conversations_are_unique_witness :
  NoDup (cl_conversation_id <$> conversation_leases (w_state (world sticky_turn))).
Proof.
  apply (conversations_are_unique config (fun t => t) (fun s => s) (sched sticky_turn)).
  - vm_compute. reflexivity.
  - apply no_shutdown_spec. vm_compute. reflexivity.
  - apply script_reached.
Defined.

End Witnesses.

(** ** Schedules the code does not rule out *)

Module Findings.
Import Demo Witnesses.

(** A third class on a full pool of two, and a fourth caller that arrives between
    the eviction and the reclaim. *)
Definition stolen : list Act :=
  one_turn ++
  [Call_ (CRun (request "opus")); Run_ 2 200; Run_ 3 200;
   Call_ (CRun (request "sonnet")); Run_ 4 10;
   Call_ (CRun (request "haiku")); Run_ 5 6;
   Run_ 4 200].

(** The slot a cold swap freed is not handed to the caller who evicted its occupant:
    another caller can reserve it first, and the evicting caller is refused with an
    internal error. *)
Theorem cold_swap_slot_can_be_stolen :
  exists l w, reached config (fun t => t) (fun s => s) l w /\
    forallb no_shutdown l = true /\
    outcome_of w 4 = Some (OTurn (Err (internal "a reclaimed slot was still occupied"))).
Proof.
  exists (sched stolen), (world stolen). split; [apply script_reached|].
  split; vm_compute; reflexivity.
Qed.

(** A stateless turn that is in flight when the pool shuts down. *)
Definition outlives_shutdown : list Act :=
  mid_turn ++ [Call_ CShutdown; Run_ 1 200; Run_ 0 200; Run_ 2 200].

(** A turn in flight at the shutdown scan is delivered, cleared and published idle
    again: when everything has finished, the shut-down pool still holds an idle
    instance whose process runs and whose root was not erased. *)
Theorem shutdown_leaves_an_idle_instance :
  exists l w, reached config (fun t => t) (fun s => s) l w /\
    finished w = true /\ shutting_down (w_state w) = true /\
    (state <$> instances (w_state w) !! 0) = Some Idle /\
    maybe_live (w_cells w !! (0, 0)) = true.
Proof.
  exists (sched outlives_shutdown), (world outlives_shutdown). split; [apply script_reached|].
  split_and!; vm_compute; reflexivity.
Qed.

(** A cold swap in progress when the pool shuts down: the shutdown scan names its
    slot, the swap re-mints it and serves a turn, and only then the shutdown thread
    tears the slot down, unable to prove its process reaped. *)
Definition shutdown_races_swap : list Act :=
  one_turn ++
  [Call_ (CRun (request "opus")); Run_ 2 200; Run_ 3 200;
   Call_ (CRun (request "sonnet")); Run_ 4 5;
   Call_ CShutdown; Run_ 5 1;
   Run_ 4 200; Run_ 6 200;
   Run_ 5 1; Say 5 (ADestroyed (Ok (mkDestroyed false))); Run_ 5 1].

(** [leak] takes whatever instance is in the slot out of the map, in whatever state
    it is: here a published idle one, which leaves the idle set naming a slot that
    holds nothing, and the pool's own invariant check fails. *)
Theorem shutdown_can_break_the_idle_set :
  exists l w, reached config (fun t => t) (fun s => s) l w /\
    pool_check_invariants config (w_state w) = Err (IdleSetHoldsNonIdle 0 Retired).
Proof.
  exists (sched shutdown_races_swap), (world shutdown_races_swap). split; [apply script_reached|].
  vm_compute. reflexivity.
Qed.

End Findings.
