(* ===== verification/PoolAdmit.v ===== *)
(** * Admission, sweep and shutdown, section by section

    What one critical section of [admit_once], [sweep_idle] or [shutdown] decides on
    any state that satisfies the pool invariant, and that every operation of the
    pool terminates. *)

From S2P Require Import Prelude Text Protocol Account Class Machine Refusal Config Instance Composer Pool PoolProg PoolSem PoolInv PoolLogic PoolProofs PoolTheorems.

(** ** Capacity means a slot *)

Lemma free_slot_exists cfg st :
  pool_ok cfg st -> pool_size cfg <= U32_MAX -> live st < capacity st (pool_size cfg) ->
  is_Some (free_slot st (pool_size cfg)).
Proof.
  intros Hp Hsz Hlive. destruct (free_slot st (pool_size cfg)) as [s|] eqn:E; [by eexists|].
  exfalso. unfold free_slot in E. rewrite find_first_None in E.
  pose proof (live_leaked_fit _ _ Hp) as Hfit.
  assert (list_to_set (N.of_nat <$> seq 0 (N.to_nat (pool_size cfg)))
          ⊆ dom (instances st) ∪ leaked_slots st) as Hsub.
  { intros s Hs%elem_of_list_to_set. specialize (E s Hs). apply andb_false_iff in E.
    rewrite elem_of_union, elem_of_dom.
    destruct E as [E%negb_false_iff%bool_decide_eq_true|E%negb_false_iff%bool_decide_eq_true]; auto. }
  apply subseteq_size in Hsub. rewrite size_list_to_set in Hsub.
  2:{ apply NoDup_fmap; [apply _|apply NoDup_seq]. }
  rewrite length_fmap, length_seq in Hsub.
  pose proof (size_union_alt (dom (instances st)) (leaked_slots st)) as Hu.
  assert (size (leaked_slots st ∖ dom (instances st)) <= size (leaked_slots st))%nat as Hd
    by (apply subseteq_size; set_solver).
  rewrite size_dom in Hu. unfold live, capacity, u32_of_len in Hlive. lia.
Qed.

Lemma idle_checkout_ok cfg st s i :
  pool_ok cfg st -> instances st !! s = Some i -> state i = Idle ->
  exists st', transition_or_internal cfg st s CheckOut = Ok (CheckedOut, st').
Proof.
  intros Hp Hi Hst. pose proof (so_inst _ _ _ _ (po_slot _ _ Hp _ _ Hi)) as Hok.
  unfold inst_ok in Hok. rewrite Hst in Hok. destruct Hok as (_ & Hh & _).
  destruct (transition_succeeds cfg st s i CheckOut CheckedOut) as (st' & E & _); try done.
  - by rewrite Hst.
  - unfold inst_ok. simpl. split; [done|]. unfold saturating_add, U32_MAX. lia.
  - exists st'. by apply transition_or_internal_Ok.
Qed.

(** ** The four rules *)

Definition idle_instance (st : PoolState) (s : SlotId) (i : Instance) : Prop :=
  instances st !! s = Some i /\ state i = Idle.

Lemma lru_of_least cfg st c s i :
  pool_ok cfg st -> lru_of st c = Some s -> instances st !! s = Some i ->
  forall s' i', idle_instance st s' i' -> class i' = c -> idle_since_ms i <= idle_since_ms i'.
Proof.
  intros Hp Hl Hi s' i' [Hi' Hst'] Hc. apply lru_of_Some in Hl as [_ Hmin].
  specialize (Hmin s'). unfold idle_key in Hmin. rewrite Hi, Hi' in Hmin. apply Hmin.
  apply (po_idle _ _ Hp). eauto.
Qed.

Lemma lru_of_exists cfg st c s i :
  pool_ok cfg st -> idle_instance st s i -> class i = c -> is_Some (lru_of st c).
Proof.
  intros Hp [Hi Hst] Hc. destruct (lru_of st c) eqn:E; [by eexists|].
  apply (lru_of_None cfg) in E; [|done].
  destruct (proj2 (po_idle _ _ Hp c s)) as (m & Hm & _); [by eauto|]. congruence.
Qed.

Lemma cold_swap_victim_spec cfg st :
  pool_ok cfg st ->
  match cold_swap_victim st with
  | Some s => exists i, idle_instance st s i /\
      forall s' i', idle_instance st s' i' -> idle_since_ms i <= idle_since_ms i'
  | None => forall s i, ~ idle_instance st s i
  end.
Proof.
  intros Hp. unfold cold_swap_victim. destruct (min_by_key _ _) as [s|] eqn:E.
  - apply min_by_key_Some in E as [Hin Hmin].
    apply list_elem_of_omap in Hin as (c & _ & Hl).
    destruct (lru_of_idle _ _ _ _ Hp Hl) as (i & Hi & Hst & _). exists i. split; [done|].
    intros s' i' [Hi' Hst']. destruct (lru_of_exists cfg st (class i') s' i' Hp) as [s2 Hs2]; [done|done|].
    destruct (lru_of_idle _ _ _ _ Hp Hs2) as (i2 & Hi2 & _ & _).
    pose proof (lru_of_least cfg st _ s2 i2 Hp Hs2 Hi2 s' i' (conj Hi' Hst') eq_refl) as Hle.
    assert (s2 ∈ omap (lru_of st) (classes_in_order st)) as Hin2.
    { apply list_elem_of_omap. exists (class i'). split; [|done]. apply elem_of_classes_in_order.
      unfold lru_of in Hs2. by destruct (idle st !! class i') eqn:E; [eexists|]. }
    specialize (Hmin s2 Hin2). unfold idle_key in Hmin. rewrite Hi, Hi2 in Hmin. lia.
  - apply min_by_key_None in E. intros s i Hid.
    destruct (lru_of_exists cfg st (class i) s i Hp Hid eq_refl) as [s2 Hs2].
    assert (s2 ∈ omap (lru_of st) (classes_in_order st)) as Hin2.
    { apply list_elem_of_omap. exists (class i). split; [|done]. apply elem_of_classes_in_order.
      unfold lru_of in Hs2. by destruct (idle st !! class i) eqn:E2; [eexists|]. }
    rewrite E in Hin2. by apply elem_of_nil in Hin2.
Qed.

(** One look at the pool decides by four rules, in order. A warm instance of the
    class, the least recently idle one; else, below capacity, a free slot; else
    (unless the caller can still wait and a slot is coming back) the least recently
    idle instance of any class is evicted; else the refusal names the pressure and
    how many slots are coming back. So a caller on its last look is never refused
    while any instance of any class is idle. *)
Theorem admission_rules cfg st c waited may_wait :
  pool_ok cfg st -> pool_size cfg <= U32_MAX -> halted st = None ->
  let r := admit_once cfg c waited may_wait st in
  let defer := may_wait && (0 <? pp_coming_back (pressure st (pool_size cfg))) in
  let none_warm := forall s i, idle_instance st s i -> class i <> c in
  let full := capacity st (pool_size cfg) <= live st in
  (forall s0 i0, idle_instance st s0 i0 -> class i0 = c ->
     exists s i rewarm st', r = (Ok (Warm s, rewarm), st') /\ idle_instance st s i /\ class i = c /\
       forall s' i', idle_instance st s' i' -> class i' = c -> idle_since_ms i <= idle_since_ms i') /\
  (none_warm -> live st < capacity st (pool_size cfg) ->
     exists s st', r = (Ok (ReservedSlot s, false), st') /\ instances st !! s = None /\
       (s ∉ leaked_slots st) /\ s < pool_size cfg) /\
  (none_warm -> full -> defer = false -> (exists s i, idle_instance st s i) ->
     exists s i st', r = (Ok (ColdSwap s, false), st') /\ idle_instance st s i /\
       forall s' i', idle_instance st s' i' -> idle_since_ms i <= idle_since_ms i') /\
  (none_warm -> full -> (defer = true \/ forall s i, ~ idle_instance st s i) ->
     r = (Err (mkAdmissionRefusal (pool_exhausted (pressure st (pool_size cfg)) c waited)
                 (pp_coming_back (pressure st (pool_size cfg)))), st)).
Proof.
  intros Hp Hsz Hh. cbv zeta. unfold admit_once. rewrite (po_serving _ _ Hp), Hh.
  assert (Hcold : (forall s i, idle_instance st s i -> class i <> c) -> lru_of st c = None).
  { intros Hn. destruct (lru_of st c) as [s|] eqn:E; [|done].
    destruct (lru_of_idle _ _ _ _ Hp E) as (i & Hi & Hst & Hc). by destruct (Hn s i). }
  split_and!.
  - intros s0 i0 Hi0 Hc0. destruct (lru_of_exists cfg st c s0 i0 Hp Hi0 Hc0) as [s Hs]. rewrite Hs.
    destruct (lru_of_idle _ _ _ _ Hp Hs) as (i & Hi & Hst & Hc).
    destruct (idle_checkout_ok cfg st s i Hp Hi Hst) as [st' E]. rewrite E.
    exists s, i; do 2 eexists. split_and!; [reflexivity|by split|done|]. by eapply lru_of_least.
  - intros Hn Hlive. rewrite (Hcold Hn).
    destruct (free_slot_exists cfg st Hp Hsz Hlive) as [s Hs].
    rewrite (proj2 (N.ltb_lt _ _) Hlive), Hs. exists s; eexists. split; [reflexivity|].
    by apply free_slot_Some.
  - intros Hn Hfull Hdefer [s0 [i0 Hi0]]. rewrite (Hcold Hn), (proj2 (N.ltb_ge _ _) Hfull), Hdefer.
    pose proof (cold_swap_victim_spec cfg st Hp) as Hv. destruct (cold_swap_victim st) as [s|].
    + destruct Hv as (i & Hid & Hmin).
      destruct (slot_move_transition cfg st s i ColdSwapVictim Destroying) as (st' & E & _); try done.
      { apply Hid. }
      { destruct Hid as [_ ->]. done. }
      rewrite (transition_or_internal_Ok _ _ _ _ _ _ E). exists s, i; eexists. split_and!; [reflexivity|done|done].
    + by destruct (Hv s0 i0).
  - intros Hn Hfull Hd. rewrite (Hcold Hn), (proj2 (N.ltb_ge _ _) Hfull).
    destruct (may_wait && _) eqn:Ed; [done|]. destruct Hd as [|Hd]; [done|].
    pose proof (cold_swap_victim_spec cfg st Hp) as Hv. destruct (cold_swap_victim st) as [s|]; [|done].
    destruct Hv as (i & Hid & _). by destruct (Hd s i).
Qed.

Lemma admission_rules_witness :
  exists s st', admit_once Demo.config
      (mkInstanceClass "claude-haiku-4-5" None AccountName_DEFAULT) 0 true PoolState_new =
    (Ok (ReservedSlot s, false), st') /\ s < 2.
Proof.
  destruct (admission_rules Demo.config PoolState_new
    (mkInstanceClass "claude-haiku-4-5" None AccountName_DEFAULT) 0 true) as (_ & H & _).
  - apply pool_ok_new.
  - vm_compute. discriminate.
  - reflexivity.
  - destruct H as (s & st' & E & _ & _ & Hs).
    + intros s i [Hi _]. unfold PoolState_new in Hi. cbn [instances] in Hi. by rewrite lookup_empty in Hi.
    + vm_compute. reflexivity.
    + exists s, st'. split; [exact E|exact Hs].
Defined.
