(* ===== verification/PoolTime.v ===== *)
(** * Every operation of the pool ends

    The only waiting loop of the pool is admission's ([Pool::admit] in
    [crates/service/src/pool/mod.rs]); every other loop runs over a finite list. Here
    a program runs against a monotonic clock: reading [Instant::now] never goes back
    and a sleep lasts at least as long as it was asked to. *)

From S2P Require Import Prelude Text Protocol Account Class Machine Refusal Config Instance Composer Pool PoolProg PoolSem PoolTheorems.

(** ** Running one program against a clock *)

(** [clock_after t e x t']: the answer [x] to [e], asked when the clock had reached
    [t], moves it to [t']. *)
Definition clock_after {X : Set} (t : N) (e : Eff X) : X -> N -> Prop :=
  match e in Eff X return X -> N -> Prop with
  | EInstant => fun n t' => t <= n /\ t' = n
  | ESleep d => fun _ t' => t' = t + d
  | _ => fun _ t' => t' = t
  end.

Definition tstep {A} (c c' : N * Prog A) : Prop :=
  match snd c with
  | Ret _ => False
  | Do e k => exists x, clock_after (fst c) e x (fst c') /\ snd c' = k x
  end.

Lemma rtc_do {A} {X : Set} t (e : Eff X) (k : X -> Prog A) x t' c :
  clock_after t e x t' -> rtc tstep (t', k x) c -> rtc tstep (t, Do e k) c.
Proof. intros Ht Hr. eapply rtc_l; [|exact Hr]. by exists x. Qed.

Definition returned {A} (p : Prog A) : Prop := match p with Ret _ => True | _ => False end.
Definition panicked {A} (p : Prog A) : Prop :=
  match p with Do (EPanic _) _ => True | _ => False end.

(** ** The proof rule *)

Section Clocked.
(** What is required of a sleep of [d] begun when the clock had reached [t]. *)
Variable sleep_ok : N -> N -> Prop.

(** The program never runs out of its loop bound, and its sleeps are as required. *)
Fixpoint clocked {A} (t : N) (p : Prog A) : Prop :=
  match p with
  | Ret _ => True
  | Do e k =>
      match e in Eff X return (X -> N -> Prop) -> Prop with
      | EInstant => fun K => forall n, t <= n -> K n n
      | ESleep d => fun K => sleep_ok t d /\ K tt (t + d)
      | EOutOfFuel => fun _ => False
      | _ => fun K => forall x, K x t
      end (fun x t' => clocked t' (k x))
  end.

Lemma clocked_step {A} (c c' : N * Prog A) :
  clocked (fst c) (snd c) -> tstep c c' -> clocked (fst c') (snd c').
Proof.
  destruct c as [t [a|X e k]]; [done|]. intros Hc (x & Hx & ->). cbn [fst snd clocked] in *.
  destruct e; cbn [clock_after] in Hx; try (rewrite Hx; by apply Hc).
  - destruct Hx as [Hle ->]. by apply Hc.
  - rewrite Hx. destruct x. by apply Hc.
  - done.
Qed.

Lemma clocked_run {A} (c c' : N * Prog A) :
  clocked (fst c) (snd c) -> rtc tstep c c' -> clocked (fst c') (snd c').
Proof. intros Hc Hr. revert Hc. induction Hr; eauto using clocked_step. Qed.

Lemma clocked_bind {A B} (p : Prog A) (k : A -> Prog B) t :
  clocked t p -> (forall x t', t <= t' -> clocked t' (k x)) -> clocked t (pbind p k).
Proof.
  revert t. induction p as [a|X e c IH]; intros t Hp Hk; cbn [pbind clocked] in *; [by apply Hk|].
  destruct e; try (intros x; apply IH; by auto); try done.
  - intros n Hn. apply IH; [by apply Hp|]. intros x t' Ht. apply Hk. lia.
  - destruct Hp as [Hs Hp]. split; [done|]. apply IH; [done|]. intros x t' Ht. apply Hk. lia.
Qed.

Lemma clocked_try {A B E} (p : Prog (result A E)) (k : A -> Prog (result B E)) t :
  clocked t p -> (forall x t', t <= t' -> clocked t' (k x)) -> clocked t (try_bind p k).
Proof. intros Hp Hk. apply clocked_bind; [done|]. intros [a|e] t' Ht; [by apply Hk|done]. Qed.

Lemma clocked_for_each {A} (f : A -> Prog unit) l t :
  (forall x t, clocked t (f x)) -> clocked t (for_each f l).
Proof.
  intros Hf. revert t. induction l as [|x l IH]; intros t; [done|].
  cbn [for_each]. apply clocked_bind; auto.
Qed.

Lemma clocked_for_each_ok {A E} (f : A -> Prog (result unit E)) l t :
  (forall x t, clocked t (f x)) -> clocked t (for_each_ok f l).
Proof.
  intros Hf. revert t. induction l as [|x l IH]; intros t; [done|].
  cbn [for_each_ok]. apply clocked_try; auto.
Qed.

End Clocked.

(** ** Runs end *)

Lemma tstep_sn {A} (c : N * Prog A) : sn tstep c.
Proof.
  destruct c as [t p]. revert t. induction p as [a|X e k IH]; intros t; constructor; intros [t' p'] Hs.
  - done.
  - destruct Hs as (x & _ & Hp). cbn [fst snd] in Hp. subst p'. apply IH.
Qed.

(** An answer to every effect but a panic and an exhausted bound. *)
Definition some_answer {X : Set} (e : Eff X) : option X :=
  match e in Eff X return option X with
  | ELock section => Some (fst (section 0 PoolState_new))
  | ENow | EInstant | EEuid => Some 0
  | ESleep _ | EWritePid _ _ | EEvidence _ _ | ESpawn _ => Some tt
  | EMint _ => Some (Err (reaped (internal EmptyString)))
  | ERunTurn _ _ _ => Some (Err (reaped (internal EmptyString)))
  | EClear _ => Some (Ok tt)
  | EDestroy _ => Some (Ok (mkDestroyed true))
  | EExists _ => Some true
  | ESymlinkMetadata _ => Some (Err (mkIoError NotFound EmptyString))
  | ECreateDir _ | ESeal _ | ERemoveDirAll _ | ERename _ _ => Some (Ok tt)
  | EPanic _ | EOutOfFuel => None
  end.

Lemma clock_moves {X : Set} t (e : Eff X) (x : X) : exists x' t', clock_after t e x' t'.
Proof. destruct e; try (by exists x, t); [by exists t, t | by exists tt; eexists]. Qed.

Lemma clocked_progress {A} (ok : N -> N -> Prop) (c : N * Prog A) :
  clocked ok (fst c) (snd c) -> returned (snd c) \/ panicked (snd c) \/ red tstep c.
Proof.
  destruct c as [t [a|X e k]]; [by left|]. intros Hc. right.
  assert (Hred : X -> red tstep (t, Do e k)).
  { intros x. destruct (clock_moves t e x) as (x' & t' & Ht). exists (t', k x'). by exists x'. }
  destruct (some_answer e) as [x|] eqn:E; [by auto|]. destruct e; try done. by left.
Qed.

(** A program that keeps within its bounds terminates, and ends by returning unless
    it panics. *)
Lemma clocked_terminates {A} (ok : N -> N -> Prop) (c : N * Prog A) :
  clocked ok (fst c) (snd c) ->
  sn tstep c /\ forall c', rtc tstep c c' -> returned (snd c') \/ panicked (snd c') \/ red tstep c'.
Proof.
  intros Hc. split; [apply tstep_sn|]. intros c' Hr. eapply clocked_progress, clocked_run; eauto.
Qed.

(** ** The operations *)

Create HintDb clocked.

Ltac clocked_eff :=
  match goal with
  | |- clocked _ _ (Ret _) => exact I
  | |- clocked _ _ (perform _) => cbn; intros; try split; exact I
  | |- clocked _ _ (Do _ _) => cbn; intros; try split; exact I
  | |- clocked _ _ (lock _) => cbn; intros; exact I
  | |- clocked _ _ (read _) => cbn; intros; exact I
  | |- clocked _ _ (update _) => cbn; intros; exact I
  | |- clocked _ _ (panic _) => cbn; intros []
  end.

Ltac clocked_go :=
  intros; cbv beta zeta;
  lazymatch goal with
  | |- clocked _ _ (pbind _ _) => apply clocked_bind; clocked_go
  | |- clocked _ _ (try_bind _ _) => apply clocked_try; clocked_go
  | |- clocked _ _ (for_each _ _) => apply clocked_for_each; clocked_go
  | |- clocked _ _ (for_each_ok _ _) => apply clocked_for_each_ok; clocked_go
  | |- clocked _ _ (pmap_err _ _) => unfold pmap_err; clocked_go
  | |- clocked _ _ (match ?x with _ => _ end) => destruct x; clocked_go
  | |- _ => first [clocked_eff | solve [eauto with clocked]]
  end.

Section Operations.
Variable cfg : PoolConfig.
Variable nfc : list N -> list N.
Variable str_debug : string -> string.
Variable ok : N -> N -> Prop.

Lemma clocked_missing_ancestors l t : clocked ok t (missing_ancestors l).
Proof. revert t. induction l as [|a l IH]; intros t; cbn [missing_ancestors]; clocked_go. Qed.
Lemma clocked_create_down l t : clocked ok t (create_down l).
Proof. revert t. induction l as [|a l IH]; intros t; cbn [create_down]; clocked_go. Qed.
#[local] Hint Resolve clocked_missing_ancestors clocked_create_down : clocked.
Lemma clocked_create_private_dir_all p t : clocked ok t (create_private_dir_all p).
Proof. unfold create_private_dir_all. clocked_go. Qed.
#[local] Hint Resolve clocked_create_private_dir_all : clocked.
Lemma clocked_create_owner_only p t : clocked ok t (create_owner_only p).
Proof. unfold create_owner_only. clocked_go. Qed.
#[local] Hint Resolve clocked_create_owner_only : clocked.
Lemma clocked_mint_roots p q t : clocked ok t (mint_roots p q).
Proof. unfold mint_roots. clocked_go. Qed.
Lemma clocked_erase_tree p q r t : clocked ok t (erase_tree p q r).
Proof. unfold erase_tree. clocked_go. Qed.
Lemma clocked_require_private_parent p f t : clocked ok t (require_private_parent p f).
Proof. unfold require_private_parent. clocked_go. Qed.
#[local] Hint Resolve clocked_mint_roots clocked_erase_tree clocked_require_private_parent : clocked.

Lemma clocked_destroy s t : clocked ok t (destroy cfg s).
Proof. unfold destroy, leak. clocked_go. Qed.
#[local] Hint Resolve clocked_destroy : clocked.
Lemma clocked_abandon_unpublishable s l t : clocked ok t (abandon_unpublishable cfg s l).
Proof. unfold abandon_unpublishable. clocked_go. Qed.
Lemma clocked_quarantine_and_destroy s t : clocked ok t (quarantine_and_destroy cfg s).
Proof. unfold quarantine_and_destroy. clocked_go. Qed.
Lemma clocked_abandon_mint s b t : clocked ok t (abandon_mint cfg s b).
Proof. unfold abandon_mint, leak. clocked_go. Qed.
#[local] Hint Resolve clocked_abandon_unpublishable clocked_quarantine_and_destroy clocked_abandon_mint : clocked.
Lemma clocked_mint s t : clocked ok t (mint cfg s).
Proof. unfold mint, launch, bind_handle. clocked_go. Qed.
#[local] Hint Resolve clocked_mint : clocked.
Lemma clocked_publish_idle s t : clocked ok t (publish_idle cfg s).
Proof. unfold publish_idle. clocked_go. Qed.
Lemma clocked_publish_idle_and_check_out s t : clocked ok t (publish_idle_and_check_out cfg s).
Proof. unfold publish_idle_and_check_out. clocked_go. Qed.
#[local] Hint Resolve clocked_publish_idle clocked_publish_idle_and_check_out : clocked.
Lemma clocked_rewarm c t : clocked ok t (rewarm cfg c).
Proof. unfold rewarm. clocked_go. Qed.
Lemma clocked_finish_turn s t : clocked ok t (finish_turn cfg s).
Proof. unfold finish_turn, remint_if_below_floor, spawn_rewarm, halt, handle_of. clocked_go. Qed.
Lemma clocked_commit s c r turn t : clocked ok t (commit cfg s c r turn).
Proof. unfold commit, spawn_clear, handle_of. clocked_go. Qed.
Lemma clocked_commit_sticky s i c r turn t : clocked ok t (commit_sticky cfg s i c r turn).
Proof. unfold commit_sticky. clocked_go. Qed.
Lemma clocked_ready_slot a c t : clocked ok t (ready_slot cfg a c).
Proof. unfold ready_slot, reclaim. clocked_go. Qed.
Lemma clocked_start_class n c t : clocked ok t (start_class cfg n c).
Proof. revert t. induction n as [|n IH]; intros t; cbn [start_class]; clocked_go. Qed.
#[local] Hint Resolve clocked_rewarm clocked_finish_turn clocked_commit clocked_commit_sticky
  clocked_ready_slot clocked_start_class : clocked.

(** *** Admission *)

(** A budget is positive, at most what is left of the ceiling, and at least a
    millisecond of it. *)
Definition budget_ok (waited : N) (b : option N) : Prop :=
  forall d, b = Some d -> N.min (ADMIT_CEILING - waited) NS_PER_MS <= d /\ 0 < d /\ waited + d <= ADMIT_CEILING.

Lemma clocked_admit_budget {B} waited deadline (k : option N -> Prog B) t :
  (forall b, budget_ok waited b -> clocked ok t (k b)) ->
  clocked ok t (pbind (admit_budget waited deadline) k).
Proof.
  intros Hk. unfold admit_budget, checked_sub. destruct (waited <=? ADMIT_CEILING) eqn:E.
  - apply N.leb_le in E. cbn [pbind perform clocked]. intros now. apply Hk. intros d.
    destruct (N.eqb_spec (N.min (ADMIT_CEILING - waited) ((deadline - now) * NS_PER_MS)) 0) as [|Hnz];
      [done|]. intros [= <-].
    assert (Hpos : 0 < deadline - now) by (destruct (deadline - now); lia).
    unfold NS_PER_MS in *. lia.
  - cbn [pbind]. by apply Hk.
Qed.

(** After [k] passes the clock has moved [k] milliseconds, or past the ceiling. *)
Definition passed (started t : N) (fuel : nat) : Prop :=
  started <= t /\ (0 < fuel)%nat /\
  N.min ADMIT_CEILING ((N.of_nat ADMIT_FUEL - N.of_nat fuel) * NS_PER_MS) <= t - started /\
  (fuel <= ADMIT_FUEL)%nat.

Lemma passed_sleep started t fuel n d :
  passed started t (S fuel) -> t <= n -> N.min (ADMIT_CEILING - (n - started)) NS_PER_MS <= d ->
  0 < d -> n - started + d <= ADMIT_CEILING -> passed started (n + N.min d ADMIT_POLL) fuel.
Proof.
  unfold passed, ADMIT_FUEL, ADMIT_CEILING, ADMIT_POLL, ADMISSION_WAIT_CEILING_MS, ADMISSION_POLL_MS,
    NS_PER_MS in *. lia.
Qed.

Lemma clocked_admit_loop started :
  (forall t d, 0 < d -> t + d <= started + ADMIT_CEILING -> ok t d) ->
  forall fuel c deadline t, passed started t fuel ->
  clocked ok t (admit_loop cfg fuel c deadline started).
Proof.
  intros Hok. induction fuel as [|fuel IH]; intros c deadline t Hp; [by destruct Hp as (_ & ? & _); lia|].
  cbn [admit_loop pbind perform clocked]. intros n Hn. apply clocked_admit_budget. intros b Hb.
  cbn [pbind perform lock clocked]. intros [[a rewarm]|refusal].
  { destruct rewarm; unfold spawn_rewarm; cbn; auto. }
  destruct (0 <? ar_coming_back refusal); [|done]. destruct b as [d|]; [|done].
  destruct (Hb d eq_refl) as (Hlo & Hpos & Hhi). destruct Hp as [Hst Hp].
  cbn [pbind perform clocked]. split.
  - apply Hok; unfold ADMIT_POLL, ADMISSION_POLL_MS, NS_PER_MS in *; lia.
  - apply IH. by apply (passed_sleep started t).
Qed.

Lemma passed_start started : passed started started ADMIT_FUEL.
Proof. unfold passed. split_and!; [lia|by vm_compute; lia| |lia]. rewrite N.sub_diag. lia. Qed.

End Operations.

Section Promises.
Variable cfg : PoolConfig.
Variable nfc : list N -> list N.
Variable str_debug : string -> string.

Definition any_sleep (_ _ : N) : Prop := True.

Lemma clocked_admit c deadline t : clocked any_sleep t (pool_admit cfg c deadline).
Proof.
  unfold pool_admit. cbn [pbind perform clocked]. intros n _. apply clocked_admit_loop; [done|].
  apply passed_start.
Qed.

#[local] Hint Resolve clocked_admit clocked_rewarm clocked_finish_turn clocked_commit
  clocked_commit_sticky clocked_ready_slot clocked_start_class clocked_destroy
  clocked_quarantine_and_destroy clocked_require_private_parent : clocked.

Lemma clocked_run_call request t : clocked any_sleep t (run cfg nfc str_debug request).
Proof. unfold run, handle_of. clocked_go. Qed.

Lemma clocked_run_sticky c request resume t :
  clocked any_sleep t (run_sticky cfg nfc str_debug c request resume).
Proof.
  unfold run_sticky, handle_of, resume_lease, claim_new_lease, or_unpend, unpend. clocked_go.
Qed.
#[local] Hint Resolve clocked_run_call clocked_run_sticky : clocked.

(** C30. Every operation of the pool terminates. Whatever the host, the file system, the
    wall clock and the other threads answer, a call cannot run for ever, and where it
    cannot go on it has returned its outcome (or panicked): in particular admission
    returns before its loop bound, because every pass but the last sleeps towards the
    ceiling. *)
Theorem operations_terminate call t :
  let c0 := (t, prog_of cfg nfc str_debug call) in
  sn tstep c0 /\
  forall c, rtc tstep c0 c -> returned (snd c) \/ panicked (snd c) \/ red tstep c.
Proof.
  cbv zeta. apply (clocked_terminates any_sleep). cbn [fst snd].
  destruct call as [| | | | | | | | |[]]; cbn [prog_of];
    unfold release_conversation, touch_conversation, protect_conversation, unprotect_conversation,
      sweep_idle, shutdown, start, spawn_clear; clocked_go.
Qed.

(** Waiting for a slot is bounded. However often it polls, admission never
    sleeps past the ceiling (2.5 s) after it began waiting, and never asks for an
    empty sleep, so it neither outwaits its promise nor spins. *)
Theorem admission_wait_is_bounded c deadline started t d k :
  rtc tstep (started, admit_loop cfg ADMIT_FUEL c deadline started) (t, Do (ESleep d) k) ->
  0 < d /\ t + d <= started + ADMIT_CEILING.
Proof.
  intros Hr. apply (clocked_run (fun t d => 0 < d /\ t + d <= started + ADMIT_CEILING)) in Hr.
  - apply Hr.
  - cbn [fst snd]. apply clocked_admit_loop; [done|]. apply passed_start.
Qed.

End Promises.

Lemma admission_wait_is_bounded_witness : 0 < 5000000 /\ 0 + 5000000 <= 0 + ADMIT_CEILING.
Proof.
  eapply (admission_wait_is_bounded Demo.config
            (mkInstanceClass "claude-haiku-4-5" None AccountName_DEFAULT) 1000 0 0 5000000).
  eapply (rtc_do _ EInstant _ 0); [split; [apply N.le_refl|reflexivity]|].
  eapply (rtc_do _ ENow _ 0); [reflexivity|].
  eapply (rtc_do _ (ELock _) _ (Err (mkAdmissionRefusal (internal EmptyString) 1))); [reflexivity|].
  apply rtc_refl.
Defined.
