(* ===== verification/PoolSweep.v ===== *)
(** * The idle sweep and the shutdown scan

    What [Pool::sweep_idle] and [Pool::shutdown] of [crates/service/src/pool/mod.rs]
    do to the state in their critical sections. *)

From S2P Require Import Prelude Text Protocol Account Class Machine Refusal Config Instance Composer Pool PoolProg PoolSem PoolInv PoolTheorems PoolAdmit.

(** ** Counting idle members *)

Definition members (st : PoolState) (c : InstanceClass) : gset SlotId := default ∅ (idle st !! c).

Lemma idle_held_members st c : idle_held st c = u32_of_len (size (members st c)).
Proof. unfold idle_held, members. by destruct (idle st !! c). Qed.

Lemma sweep_fuel_members st c : sweep_fuel st c = S (size (members st c)).
Proof. unfold sweep_fuel, members. by destruct (idle st !! c). Qed.

Lemma u32_of_len_pred f n :
  f < u32_of_len n -> f <= u32_of_len (n - 1).
Proof. unfold u32_of_len. lia. Qed.

Lemma members_spec st c s : s ∈ members st c <-> idle_member st c s.
Proof. unfold members, idle_member. destruct (idle st !! c); set_solver. Qed.

Section Sweep.
Variable cfg : PoolConfig.
Variable now : N.

(** [cs] are the classes swept so far, [vs] the victims taken from [st]. *)
Record sweep_from (cs : list InstanceClass) (st : PoolState) (vs : list SlotId) (st' : PoolState)
  : Prop := {
  sf_ok : pool_ok cfg st';
  sf_nodup : NoDup vs;
  sf_victims : forall s, s ∈ vs -> exists i, idle_instance st s i /\ class i ∈ cs /\
    expired cfg now i = true /\ instances st' !! s = Some (candidate_of i IdleExpired Destroying);
  sf_rest : forall s, s ∉ vs -> instances st' !! s = instances st !! s;
  sf_other : forall c, c ∉ cs -> members st' c = members st c;
  sf_floor : forall c, N.min (idle_held st c) (warm_floor cfg c) <= idle_held st' c;
  sf_done : forall c, c ∈ cs -> warm_floor cfg c < idle_held st' c ->
    forall s i, idle_instance st' s i -> class i = c -> expired cfg now i = false;
}.

(** An instance idle after the scan was idle before it, and is no victim. *)
Lemma sf_idle cs st vs st' s i :
  sweep_from cs st vs st' -> idle_instance st' s i -> idle_instance st s i /\ s ∉ vs.
Proof.
  intros H [Hi Hst]. destruct (decide (s ∈ vs)) as [Hs|Hs].
  - destruct (sf_victims _ _ _ _ H s Hs) as (j & _ & _ & _ & Hj).
    rewrite Hi in Hj. injection Hj as ->. done.
  - rewrite (sf_rest _ _ _ _ H s Hs) in Hi. by split.
Qed.

Lemma members_of_idle st st' c :
  pool_ok cfg st -> pool_ok cfg st' ->
  (forall s i, class i = c -> idle_instance st' s i <-> idle_instance st s i) ->
  members st' c = members st c.
Proof.
  intros Hp Hp' Hi. apply set_eq. intros s. rewrite !members_spec, (po_idle _ _ Hp), (po_idle _ _ Hp').
  unfold idle_instance in Hi. naive_solver.
Qed.

Lemma sweep_from_nil st : pool_ok cfg st -> sweep_from [] st [] st.
Proof. intros Hp. split; try done; [apply NoDup_nil_2|set_solver|lia|set_solver]. Qed.

Lemma sweep_from_app cs1 cs2 st1 vs1 st2 vs2 st3 :
  sweep_from cs1 st1 vs1 st2 -> sweep_from cs2 st2 vs2 st3 -> cs1 ## cs2 ->
  sweep_from (cs1 ++ cs2) st1 (vs1 ++ vs2) st3.
Proof.
  intros H1 H2 Hd.
  assert (forall s, s ∈ vs1 -> s ∈ vs2 -> False) as Hvs.
  { intros s Hs1 Hs2. destruct (sf_victims _ _ _ _ H2 s Hs2) as (i & Hi & _).
    by destruct (sf_idle _ _ _ _ _ _ H1 Hi). }
  split.
  - apply H2.
  - apply NoDup_app. split_and!; [apply H1|by eauto|apply H2].
  - intros s [Hs|Hs]%elem_of_app.
    + destruct (sf_victims _ _ _ _ H1 s Hs) as (i & Hi & Hc & He & Hi2). exists i.
      rewrite elem_of_app, (sf_rest _ _ _ _ H2); [by auto|]. eauto.
    + destruct (sf_victims _ _ _ _ H2 s Hs) as (i & Hi & Hc & He & Hi2). exists i.
      rewrite elem_of_app. split; [by eapply sf_idle|auto].
  - intros s Hs. rewrite elem_of_app in Hs.
    rewrite (sf_rest _ _ _ _ H2), (sf_rest _ _ _ _ H1); tauto.
  - intros c Hc. rewrite elem_of_app in Hc.
    rewrite (sf_other _ _ _ _ H2), (sf_other _ _ _ _ H1); tauto.
  - intros c. pose proof (sf_floor _ _ _ _ H1 c). pose proof (sf_floor _ _ _ _ H2 c). lia.
  - intros c Hc Hf s i Hi Hci. destruct (decide (c ∈ cs2)) as [H2c|H2c].
    + by eapply (sf_done _ _ _ _ H2).
    + apply elem_of_app in Hc as [Hc|Hc]; [|done].
      eapply (sf_done _ _ _ _ H1 c Hc); [|by eapply (sf_idle _ _ _ _ _ _ H2)|done].
      by rewrite idle_held_members, <-(sf_other _ _ _ _ H2) , <-idle_held_members.
Qed.

(** One eviction: the scan of the class goes on from a state with one member less. *)
Lemma sweep_evict c st s i :
  pool_ok cfg st -> idle_instance st s i -> class i = c ->
  exists st1, transition_locked cfg st s IdleExpired = Ok (Destroying, st1) /\ pool_ok cfg st1 /\
    instances st1 = <[s := candidate_of i IdleExpired Destroying]> (instances st) /\
    forall c', members st1 c' = if decide (c' = c) then members st c' ∖ {[s]} else members st c'.
Proof.
  intros Hp [Hi Hst] Hc.
  destruct (slot_move_transition cfg st s i IdleExpired Destroying) as (st1 & E & Hm); try done.
  { by rewrite Hst. }
  exists st1. split_and!; [done|apply Hm|apply Hm|]. intros c'. apply set_eq. intros x.
  destruct (transition_post _ _ _ _ _ _ E) as (i0 & Hi0 & _ & _ & [_ _ Hid]).
  assert (i0 = i) as -> by congruence.
  rewrite members_spec, Hid, <-members_spec. destruct (decide (c' = c)) as [->|Hne].
  - rewrite elem_of_difference, elem_of_singleton. subst c. naive_solver.
  - subst c. naive_solver.
Qed.

Lemma sweep_from_cons c st s i st1 vs st' :
  pool_ok cfg st -> idle_instance st s i -> class i = c -> expired cfg now i = true ->
  warm_floor cfg c < idle_held st c ->
  instances st1 = <[s := candidate_of i IdleExpired Destroying]> (instances st) ->
  (forall c', members st1 c' = if decide (c' = c) then members st c' ∖ {[s]} else members st c') ->
  sweep_from [c] st1 vs st' -> sweep_from [c] st (s :: vs) st'.
Proof.
  intros Hp [Hi Hst] Hc He Hf Hin Hmem H.
  assert (s ∈ members st c) as Hs.
  { rewrite members_spec. apply (po_idle _ _ Hp). eauto. }
  assert (s ∉ vs) as Hns.
  { intros Hsv. destruct (sf_victims _ _ _ _ H s Hsv) as (j & [Hj Hsj] & _).
    rewrite Hin, lookup_insert_eq in Hj. injection Hj as <-. done. }
  assert (idle_held st1 c = u32_of_len (size (members st c) - 1)) as Hheld.
  { rewrite idle_held_members, Hmem, decide_True by done. f_equal.
    rewrite size_difference, size_singleton by set_solver. done. }
  split.
  - apply H.
  - constructor; [done|apply H].
  - intros x [->|Hx]%elem_of_cons.
    + exists i. split_and!; [done|set_solver|done|].
      by rewrite (sf_rest _ _ _ _ H s Hns), Hin, lookup_insert_eq.
    + destruct (sf_victims _ _ _ _ H x Hx) as (j & [Hj Hsj] & ? & ? & ?). exists j.
      rewrite Hin, lookup_insert_ne in Hj by (intros ->; done). done.
  - intros x [Hx1 Hx2]%not_elem_of_cons.
    by rewrite (sf_rest _ _ _ _ H x Hx2), Hin, lookup_insert_ne.
  - intros c' Hc'. rewrite (sf_other _ _ _ _ H c' Hc'), Hmem. rewrite decide_False; [done|set_solver].
  - intros c'. pose proof (sf_floor _ _ _ _ H c') as Hf'. destruct (decide (c' = c)) as [->|Hne].
    + rewrite Hheld in Hf'. rewrite idle_held_members in Hf. apply u32_of_len_pred in Hf. clear -Hf Hf'. lia.
    + rewrite !idle_held_members, Hmem, decide_False in Hf' by done. by rewrite !idle_held_members.
  - apply H.
Qed.

Lemma sweep_from_stop c st :
  pool_ok cfg st ->
  (warm_floor cfg c < idle_held st c ->
   forall s i, idle_instance st s i -> class i = c -> expired cfg now i = false) ->
  sweep_from [c] st [] st.
Proof.
  intros Hp Hd. split; try done; [apply NoDup_nil_2|set_solver|lia|].
  intros c' ->%list_elem_of_singleton. apply Hd.
Qed.

(** What the least recently idle member says of the rest of its class. *)
Lemma lru_fresh st c s i :
  pool_ok cfg st -> lru_of st c = Some s -> instances st !! s = Some i -> expired cfg now i = false ->
  forall s' i', idle_instance st s' i' -> class i' = c -> expired cfg now i' = false.
Proof.
  intros Hp Hl Hi He s' i' Hi' Hc. pose proof (lru_of_least _ _ _ _ _ Hp Hl Hi s' i' Hi' Hc).
  unfold expired in *. apply N.leb_gt in He. apply N.leb_gt. lia.
Qed.

Lemma sweep_class_from c : forall fuel st l,
  pool_ok cfg st -> (size (members st c) < fuel)%nat ->
  exists vs st', sweep_class cfg fuel now c st l = (l ++ vs, st') /\ sweep_from [c] st vs st'.
Proof.
  induction fuel as [|fuel IH]; intros st l Hp Hfuel; [lia|]. cbn [sweep_class].
  assert (Hstop : (warm_floor cfg c < idle_held st c -> forall s i, idle_instance st s i ->
                     class i = c -> expired cfg now i = false) ->
                  exists vs st', (l, st) = (l ++ vs, st') /\ sweep_from [c] st vs st').
  { intros H. exists [], st. rewrite app_nil_r. split; [done|]. by apply sweep_from_stop. }
  destruct (N.leb_spec (idle_held st c) (warm_floor cfg c)) as [Hle|Hlt]; [by apply Hstop; lia|].
  destruct (lru_of st c) as [s|] eqn:El.
  2:{ apply Hstop. intros _ s i Hi Hc. destruct (lru_of_exists cfg st c s i Hp Hi Hc). congruence. }
  destruct (lru_of_idle _ _ _ _ Hp El) as (i & Hi & Hst & Hc). rewrite Hi.
  destruct (expired cfg now i) eqn:He; cbn [negb].
  2:{ apply Hstop. intros _. by eapply lru_fresh. }
  destruct (sweep_evict c st s i Hp (conj Hi Hst) Hc) as (st1 & -> & Hp1 & Hin & Hmem).
  assert (s ∈ members st c) as Hs by (rewrite members_spec; by apply lru_of_Some in El as [? _]).
  destruct (IH st1 (l ++ [s]) Hp1) as (vs & st' & -> & Hsf).
  { rewrite Hmem, decide_True, size_difference, size_singleton by set_solver.
    assert (size (members st c) <> 0%nat); [|lia]. intros H0%size_empty_iff. set_solver. }
  exists (s :: vs), st'. rewrite <-app_assoc. split; [done|].
  by eapply sweep_from_cons.
Qed.

Lemma sweep_classes_from st0 : forall cs cs0 vs0 st,
  NoDup (cs0 ++ cs) -> sweep_from cs0 st0 vs0 st ->
  exists vs st',
    foldl (fun '(victims, st) class => sweep_class cfg (sweep_fuel st class) now class st victims)
      (vs0, st) cs = (vs, st') /\ sweep_from (cs0 ++ cs) st0 vs st'.
Proof.
  induction cs as [|c cs IH]; intros cs0 vs0 st Hnd Hsf.
  { exists vs0, st. by rewrite app_nil_r. }
  cbn [foldl].
  destruct (sweep_class_from c (sweep_fuel st c) st vs0) as (vs & st' & -> & Hc).
  { apply Hsf. }
  { rewrite sweep_fuel_members. lia. }
  rewrite cons_middle, app_assoc. apply IH; [by rewrite <-app_assoc|].
  eapply sweep_from_app; [done..|]. apply NoDup_app in Hnd as (_ & Hd & _). set_solver.
Qed.

Lemma NoDup_classes_in_order st : NoDup (classes_in_order st).
Proof. unfold classes_in_order. rewrite merge_sort_Permutation. apply NoDup_elements. Qed.

(** The idle sweep keeps the floors and drains the rest. On any good state: its
    victims are distinct idle instances past their time to live, now on their way to
    destruction, and no other instance changed; every class keeps at least its warm
    floor (or all it had); and a class still above its floor has no expired member
    left. The invariant holds afterwards. *)
Theorem sweep_keeps_floors st :
  pool_ok cfg st ->
  let '(victims, st') := sweep_idle_locked cfg now st in
  pool_ok cfg st' /\ NoDup victims /\
  (forall s, s ∈ victims -> exists i, idle_instance st s i /\ expired cfg now i = true /\
     instances st' !! s = Some (candidate_of i IdleExpired Destroying)) /\
  (forall s, s ∉ victims -> instances st' !! s = instances st !! s) /\
  (forall c, N.min (idle_held st c) (warm_floor cfg c) <= idle_held st' c) /\
  (forall c s i, warm_floor cfg c < idle_held st' c -> idle_instance st' s i -> class i = c ->
     expired cfg now i = false).
Proof.
  intros Hp. unfold sweep_idle_locked.
  destruct (sweep_classes_from st (classes_in_order st) [] [] st) as (vs & st' & -> & H).
  { apply NoDup_classes_in_order. }
  { by apply sweep_from_nil. }
  cbn [app] in H. split_and!; try apply H.
  - intros s Hs. destruct (sf_victims _ _ _ _ H s Hs) as (i & ? & _ & ? & ?). eauto.
  - intros c s i Hf Hi Hc. eapply (sf_done _ _ _ _ H c); try done.
    apply elem_of_classes_in_order. destruct (sf_idle _ _ _ _ _ _ H Hi) as [[Hi0 Hst0] _].
    destruct (proj2 (po_idle _ _ Hp c s)) as (m & Hm & _); [by eauto|]. by eexists.
Qed.

End Sweep.

(** ** The shutdown scan *)

Definition drained (i : Instance) : Instance :=
  match shutdown_action (state i) with Drain t => candidate_of i t Destroying | _ => i end.

(** The instances the scan tears down: all but those in a turn. *)
Definition drains (st : PoolState) (s : SlotId) : bool :=
  match instances st !! s with
  | Some i => match shutdown_action (state i) with Keep => false | _ => true end
  | None => false
  end.

Section Shutdown.
Variable cfg : PoolConfig.

Lemma drain_step i t : shutdown_action (state i) = Drain t -> step (state i) t = Ok Destroying.
Proof. destruct (state i); cbn; try done; by intros [= <-]. Qed.

Record shut (done : list SlotId) (st : PoolState) (vs : list SlotId) (st' : PoolState) : Prop := {
  sh_victims : vs = List.filter (drains st) done;
  sh_instances : forall s, instances st' !! s =
    if decide (s ∈ done) then drained <$> instances st !! s else instances st !! s;
  sh_idle : forall c s, idle_member st' c s -> idle_member st c s /\
    ~ (s ∈ done /\ exists i, instances st !! s = Some i /\ state i = Idle /\ class i = c);
  sh_flag : shutting_down st' = true;
}.

(** One visit of the scan leaves the slot drained. *)
Lemma shut_snoc done st vs st' s i st2 v :
  shut done st vs st' -> s ∉ done -> instances st !! s = Some i ->
  v = (if drains st s then [s] else []) ->
  instances st2 = <[s := drained i]> (instances st') ->
  (forall c x, idle_member st2 c x -> idle_member st' c x /\ ~ (state i = Idle /\ c = class i /\ x = s)) ->
  shutting_down st2 = true -> shut (done ++ [s]) st (vs ++ v) st2.
Proof.
  intros H Hs Hi -> Hin Hid Hf. split.
  - rewrite (sh_victims _ _ _ _ H), List.filter_app. cbn [List.filter]. by destruct (drains st s).
  - intros x. rewrite Hin. destruct (decide (s = x)) as [<-|Hx].
    + rewrite lookup_insert_eq, decide_True, Hi by set_solver. done.
    + rewrite lookup_insert_ne, (sh_instances _ _ _ _ H) by done.
      destruct (decide (x ∈ done)); [by rewrite decide_True by set_solver|by rewrite decide_False by set_solver].
  - intros c x Hx. destruct (Hid c x Hx) as [Hx' Hn]. destruct (sh_idle _ _ _ _ H c x Hx') as [Hx0 Hn'].
    split; [done|]. intros [[Hd| ->%list_elem_of_singleton]%elem_of_app (j & Hj & Hst & Hc)]; [naive_solver|].
    rewrite Hi in Hj. injection Hj as <-. naive_solver.
  - done.
Qed.

Lemma shut_visit done st vs st1 s i :
  s ∉ done -> instances st !! s = Some i -> shut done st vs st1 ->
  let '(vs', st') := shutdown_visit cfg (vs, st1) s in shut (done ++ [s]) st vs' st'.
Proof.
  intros Hs Hi Hsh. unfold shutdown_visit.
  assert (instances st1 !! s = Some i) as Hi1 by (rewrite (sh_instances _ _ _ _ Hsh), decide_False; done).
  rewrite Hi1.
  assert (Hkeep : shutdown_action (state i) <> Drain ShutdownDrain -> drained i = i -> forall v,
            v = (if drains st s then [s] else []) -> shut (done ++ [s]) st (vs ++ v) st1).
  { intros Ha Hd v Hv. eapply shut_snoc; try done; [by rewrite Hd, insert_id| |apply Hsh].
    intros c x Hx. split; [done|]. intros [E _]. by rewrite E in Ha. }
  assert (Hdr : drains st s = match shutdown_action (state i) with Keep => false | _ => true end)
    by (unfold drains; by rewrite Hi).
  destruct (shutdown_action (state i)) as [t| |] eqn:Ea.
  - destruct (transition_succeeds cfg st1 s i t Destroying) as (st2 & -> & [Hin Hrest Hid]); try done.
    { by apply drain_step. }
    eapply shut_snoc; try done.
    + by rewrite Hdr.
    + unfold drained. by rewrite Ea.
    + intros c x [Hx Hn]%Hid. split; [done|]. intros (? & ? & ?). by apply Hn.
    + unfold same_rest in Hrest. destruct Hsh as [_ _ _ Hf]. intuition congruence.
  - apply Hkeep; [done|unfold drained; by rewrite Ea|by rewrite Hdr].
  - rewrite <-(app_nil_r vs). apply Hkeep; [done|unfold drained; by rewrite Ea|by rewrite Hdr].
Qed.

Lemma shut_foldl st : forall todo done vs st1,
  NoDup (done ++ todo) -> (forall s, s ∈ todo -> is_Some (instances st !! s)) ->
  shut done st vs st1 ->
  let '(vs', st') := foldl (shutdown_visit cfg) (vs, st1) todo in shut (done ++ todo) st vs' st'.
Proof.
  induction todo as [|s todo IH]; intros done vs st1 Hnd Hsome Hsh; [by rewrite app_nil_r|].
  cbn [foldl]. destruct (Hsome s) as [i Hi]; [set_solver|].
  assert (s ∉ done) as Hs by (apply NoDup_app in Hnd as (_ & Hd & _); intros ?; eapply Hd; set_solver).
  pose proof (shut_visit done st vs st1 s i Hs Hi Hsh) as Hv.
  destruct (shutdown_visit cfg (vs, st1) s) as [vs2 st2].
  rewrite cons_middle, app_assoc. apply IH; [by rewrite <-app_assoc| |done].
  intros x Hx. apply Hsome. set_solver.
Qed.

(** The shutdown scan takes everything that is not in a turn. From any good
    state it marks the pool shut down, empties every idle set, leaves the instances in
    a turn (and any already leaked or retired one) as they were, and sends every other one, with its handle and
    its directories, to destruction, naming each of them once for the teardown that
    follows. *)
Theorem shutdown_scan_drains st :
  pool_ok cfg st ->
  let '(victims, st') := shutdown_locked cfg st in
  let spared i := state i ∈ [CheckedOut; Delivering; Leaked; Retired] in
  shutting_down st' = true /\ NoDup victims /\ dom (instances st') = dom (instances st) /\
  (forall c s, ~ idle_member st' c s) /\
  (forall s i, instances st !! s = Some i -> spared i ->
     (s ∉ victims) /\ instances st' !! s = Some i) /\
  (forall s i, instances st !! s = Some i -> ~ spared i ->
     s ∈ victims /\ exists i', instances st' !! s = Some i' /\ state i' = Destroying /\
       handle i' = handle i /\ paths i' = paths i /\ mint_in_flight i' = mint_in_flight i).
Proof.
  intros Hp. unfold shutdown_locked. set (st0 := set_shutting_down true st).
  pose proof (shut_foldl st0 (live_slots st0) [] [] st0) as H. cbn [app] in H.
  destruct (foldl _ _ _) as [vs st'].
  assert (Hin : forall s, is_Some (instances st !! s) -> s ∈ live_slots st0).
  { intros s. apply elem_of_live_slots. }
  assert (shut (live_slots st0) st0 vs st') as Hsh.
  { apply H; [apply NoDup_live_slots|intros s; apply elem_of_live_slots|].
    split; try done. intros c s Hs. split; [done|]. intros [Hn _]. by apply elem_of_nil in Hn. }
  assert (Hv : forall s, s ∈ vs <-> drains st0 s = true /\ s ∈ live_slots st0).
  { intros s. rewrite (sh_victims _ _ _ _ Hsh), !list_elem_of_In, List.filter_In. tauto. }
  assert (Hget : forall s i, instances st !! s = Some i -> instances st' !! s = Some (drained i)).
  { intros s i Hi. rewrite (sh_instances _ _ _ _ Hsh), decide_True by (apply Hin; by eexists).
    change (instances st0) with (instances st). by rewrite Hi. }
  assert (Hd : forall s i, instances st !! s = Some i -> drains st0 s =
     match shutdown_action (state i) with Keep => false | _ => true end).
  { intros s i Hi. unfold drains. change (instances st0) with (instances st). by rewrite Hi. }
  split_and!.
  - apply Hsh.
  - rewrite (sh_victims _ _ _ _ Hsh). apply NoDup_ListNoDup, List.NoDup_filter, NoDup_ListNoDup, NoDup_live_slots.
  - apply set_eq. intros s. rewrite !elem_of_dom, (sh_instances _ _ _ _ Hsh).
    change (instances st0) with (instances st).
    destruct (decide _); [by rewrite fmap_is_Some|done].
  - intros c s Hs. destruct (sh_idle _ _ _ _ Hsh c s Hs) as [Hs0 Hn].
    destruct (proj1 (po_idle _ _ Hp c s) Hs0) as (i & Hi & Hst & Hc). apply Hn.
    split; [apply Hin; by eexists|by exists i].
  - intros s i Hi Ht. rewrite Hv, (Hd s i Hi), (Hget s i Hi). unfold drained.
    destruct (state i); cbn; (split; [by intros []|done]) || (exfalso; set_solver).
  - intros s i Hi Ht. rewrite Hv, (Hd s i Hi), (Hget s i Hi).
    split; [split; [|apply Hin; by eexists]|eexists; split; [done|]]; unfold drained;
      destruct (state i) eqn:E; cbn; try done; exfalso; set_solver.
Qed.

End Shutdown.

(** ** Witnesses *)

Lemma sweep_keeps_floors_witness :
  exists victims st', sweep_idle_locked Demo.config 1000000 (w_state (Witnesses.world Witnesses.one_turn))
    = (victims, st') /\ victims = [0] /\ pool_ok Demo.config st'.
Proof.
  pose proof (sweep_keeps_floors Demo.config 1000000 (w_state (Witnesses.world Witnesses.one_turn))
                (Witnesses.one_turn_ok)) as H.
  destruct (sweep_idle_locked _ _ _) as [victims st'] eqn:E. exists victims, st'.
  split; [reflexivity|]. split; [|apply H].
  assert (fst (sweep_idle_locked Demo.config 1000000 (w_state (Witnesses.world Witnesses.one_turn))) = [0])
    as Hv by (vm_compute; reflexivity). rewrite E in Hv. exact Hv.
Defined.

Lemma shutdown_scan_drains_witness :
  exists victims st', shutdown_locked Demo.config (w_state (Witnesses.world Witnesses.one_turn))
    = (victims, st') /\ victims = [0] /\ (forall c s, ~ idle_member st' c s).
Proof.
  pose proof (shutdown_scan_drains Demo.config (w_state (Witnesses.world Witnesses.one_turn))
                Witnesses.one_turn_ok) as H.
  destruct (shutdown_locked _ _) as [victims st'] eqn:E. exists victims, st'.
  split; [reflexivity|]. split; [|apply H].
  assert (fst (shutdown_locked Demo.config (w_state (Witnesses.world Witnesses.one_turn))) = [0])
    as Hv by (vm_compute; reflexivity). rewrite E in Hv. exact Hv.
Defined.
