(* ===== verification/Conversation.v ===== *)
(** * Sticky conversations of the Messages facade

    [bin/pmuxd/src/conversation.rs] and the request handler of
    [bin/pmuxd/src/messages_http.rs] that calls it. The book of leases sits behind an
    async mutex that is held across two pool calls, so an operation is a program whose
    effects are taking and dropping that mutex, a step on the guarded book, the pool's
    calls and the connection's reads. Whatever the pool answers is an answer here; its
    own behaviour is in the pool's files. SHA-256 is the variable [sha256], and
    [serde_json]'s parser and printers are variables as in [Messages]. *)

From S2P Require Import Prelude Text Protocol Account Class Config Composer Pool PoolProg Messages.

Definition CONVERSATION_HEADER : string := "x-pmux-conversation".
Definition ACCOUNT_HEADER : string := "x-pmux-account".

Record ConversationConfig := mkConversationConfig {
  cc_idle_ttl_ms : N;    (** whole milliseconds of [idle_ttl] *)
  max_leases : N;
  allow_implicit : bool;
}.

Inductive LeaseKind := Primed | Continued | Reprimed | Replayed.

Definition lease_kind_as_str (k : LeaseKind) : string :=
  match k with
  | Primed => "primed" | Continued => "continued" | Reprimed => "reprimed" | Replayed => "replayed"
  end.

Record LeaseTurn := mkLeaseTurn {
  lt_conversation_id : string;
  lt_cell : string;
  lt_kind : LeaseKind;
  lt_idle_ttl_ms : N;
  lt_requested_model : string;
  lt_result : StatelessResult;
}.

Record ConversationFingerprint := mkFingerprint {
  fp_model : string;
  fp_effort : option EffortLevel;
  fp_account : string;
  fp_system_tools : string;
  fp_messages : list string;
}.

#[global] Instance ConversationFingerprint_eq_dec : EqDecision ConversationFingerprint.
Proof. solve_decision. Defined.

Inductive PrefixDecision := Continue (from : nat) | Replay | Reprime.

(** ** Comparing two requests of a conversation *)

Definition class_on (model : string) (effort : option EffortLevel) (account : string)
  : option InstanceClass :=
  match resolve_pool_class model effort with
  | Ok (class, _) =>
      Some (with_account (match account_parse account with Ok a => a | Err _ => AccountName_DEFAULT end) class)
  | Err _ => None
  end.

Definition pool_class_changed (previous next : ConversationFingerprint) : bool :=
  match class_on (fp_model previous) (fp_effort previous) (fp_account previous),
        class_on (fp_model next) (fp_effort next) (fp_account next) with
  | Some a, Some b => negb (bool_decide (a = b))
  | _, _ =>
      negb (bool_decide (fp_model previous = fp_model next))
      || negb (bool_decide (fp_effort previous = fp_effort next))
      || negb (bool_decide (fp_account previous = fp_account next))
  end.

Fixpoint starts_with (pre l : list string) : bool :=
  match pre, l with
  | [], _ => true
  | p :: pre', x :: l' => String.eqb p x && starts_with pre' l'
  | _ :: _, [] => false
  end.

Definition classify_prefix (previous next : ConversationFingerprint) : PrefixDecision :=
  if pool_class_changed previous next then Reprime
  else if negb (String.eqb (fp_system_tools previous) (fp_system_tools next)) then Reprime
  else if bool_decide (fp_messages next = fp_messages previous) then Replay
  else if starts_with (fp_messages previous) (fp_messages next)
          && (length (fp_messages previous) <? length (fp_messages next))%nat
  then Continue (length (fp_messages previous))
  else Reprime.

(** ** What a request says *)

Definition header (headers : list (string * string)) (name : string) : option string :=
  snd <$> find_first (fun h => eq_ignore_ascii_case (fst h) name) headers.

Fixpoint first_pin (headers : list (string * string)) (names : list string) : option string :=
  match names with
  | [] => None
  | name :: rest =>
      match header headers name with
      | Some explicit =>
          let trimmed := str_trim explicit in
          if is_empty trimmed then first_pin headers rest else Some trimmed
      | None => first_pin headers rest
      end
  end.

Definition explicit_conversation_id (headers : list (string * string)) : option string :=
  first_pin headers [CONVERSATION_HEADER; "x-session-id"; "x-session-affinity"]%string.

Definition missing_conversation_header : ErrorBody :=
  advising "set x-pmux-conversation to the harness session id, or start pmuxd with --messages-allow-implicit for a single-session implicit hash"
    (ErrorBody_new InvalidConfig "a conversation pin is required: send x-pmux-conversation (or x-session-id / x-session-affinity) on every POST /v1/messages").

Definition session_busy_in_flight : ErrorBody :=
  retryable true (ErrorBody_new SessionBusy "this conversation already has a turn in flight; nothing is queued").

Definition session_busy_cap (max : N) : ErrorBody :=
  retryable true (ErrorBody_new SessionBusy
    ("conversation lease cap is " +:+ pretty max +:+ "; release an idle conversation or raise --pool-size")%string).

(** [serde_json::from_value::<EffortLevel>]. *)
Definition effort_from_str (s : string) : option EffortLevel :=
  find_first (fun e => String.eqb (effort_as_str e) s) [Low; Medium; High; XHigh; Max].

Record Lease := mkLease {
  le_fingerprint : ConversationFingerprint;
  le_last_result : StatelessResult;
  le_last_used : N;
  le_in_flight : bool;
  le_cell : string;
}.

Record BookState := mkBook { live : gmap string Lease; reserved : gset string }.

Definition Book_new : BookState := mkBook ∅ ∅.

Definition occupied (st : BookState) : N :=
  N.min (N.of_nat (size (live st)) + N.of_nat (size (reserved st))) (2 ^ 64 - 1).

(** [u32::try_from(n).unwrap_or(u32::MAX)]. *)
Definition saturating_u32 (n : N) : N := if n <? 2 ^ 32 then n else 2 ^ 32 - 1.

Definition set_live (f : gmap string Lease -> gmap string Lease) (st : BookState) : BookState :=
  mkBook (f (live st)) (reserved st).

Definition set_reserved (f : gset string -> gset string) (st : BookState) : BookState :=
  mkBook (live st) (f (reserved st)).

Definition with_in_flight (b : bool) (l : Lease) : Lease :=
  mkLease (le_fingerprint l) (le_last_result l) (le_last_used l) b (le_cell l).

Definition with_last_used (now : N) (l : Lease) : Lease :=
  mkLease (le_fingerprint l) (le_last_result l) now (le_in_flight l) (le_cell l).

Definition drop_orphans (pool_ids : gset string) (st : BookState) : BookState :=
  set_live (filter (fun row => le_in_flight (snd row) = true \/ fst row ∈ pool_ids)) st.

Inductive PlannedKind := PPrime | PContinue (from : nat) | PReprime.

Record Planned := mkPlanned {
  pl_conversation_id : string;
  pl_model : string;
  pl_requested_model : string;
  pl_effort : option EffortLevel;
  pl_account : AccountName;
  pl_next : ConversationFingerprint;
  pl_kind : PlannedKind;
}.

(** ** Effects *)

Inductive BEff : Set -> Type :=
| BLock : BEff unit
| BUnlock : BEff unit
| BBook {A : Set} (section : N -> BookState -> A * BookState) : BEff A
| BLeases : BEff (list ConversationLease)
| BTouch (c : string) : BEff bool
| BProtect (c : string) : BEff unit
| BUnprotect (c : string) : BEff unit
| BRunSticky (c : string) (request : RunStatelessRequest) (resume : bool) : BEff (result StickyTurn ErrorBody)
| BRelease (c : string) : BEff (result unit ErrorBody)
| BReadHeaders : BEff (result (string * list N) string)
| BReadBody (already : list N) (length : N) : BEff (result (list N) string)
| BNanos : BEff N.

Inductive BProg (A : Type) : Type :=
| BRet (a : A)
| BDo {X : Set} (e : BEff X) (k : X -> BProg A).
Arguments BRet {A} a.
Arguments BDo {A X} e k.

Fixpoint bbind {A B} (p : BProg A) (k : A -> BProg B) : BProg B :=
  match p with
  | BRet a => k a
  | BDo e c => BDo e (fun x => bbind (c x) k)
  end.

Definition bperform {X : Set} (e : BEff X) : BProg X := BDo e BRet.

Definition btry {A B E} (p : BProg (result A E)) (k : A -> BProg (result B E)) : BProg (result B E) :=
  bbind p (fun r => match r with Ok a => k a | Err e => BRet (Err e) end).

Notation "'do!' x := p 'in' k" := (bbind p (fun x => k))
  (at level 10, x name, p at level 100, k at level 200) : pmux_scope.
Notation "'do!?' x := p 'in' k" := (btry p (fun x => k))
  (at level 10, x name, p at level 100, k at level 200) : pmux_scope.

(** A step on the book under its mutex, and one that takes and drops it. *)
Definition book {A : Set} (f : N -> BookState -> A * BookState) : BProg A := bperform (BBook f).
Definition book_update (f : N -> BookState -> BookState) : BProg unit := book (fun now st => (tt, f now st)).

(** What the look-up of an existing row decides. *)
Inductive Existing :=
| NoRow
| RowInFlight
| RowReplay (cell : string) (last_result : StatelessResult)
| RowContinue (from : nat)
| RowReprime.

Definition look_up (c : string) (next : ConversationFingerprint) (st : BookState) : Existing :=
  match live st !! c with
  | None => NoRow
  | Some l =>
      if le_in_flight l then RowInFlight
      else match classify_prefix (le_fingerprint l) next with
      | Replay => RowReplay (le_cell l) (le_last_result l)
      | Continue from => RowContinue from
      | Reprime => RowReprime
      end
  end.

(** ** The operations *)

Section Book.
Variable cfg : PoolConfig.
Variable config : ConversationConfig.
Variable nfc : list N -> list N.
Variable str_debug : string -> string.
Variable sha256 : list N -> list N.
Variable to_string : json -> string.
Variable to_string_pretty : list json -> result string string.
Variable from_slice : list N -> result json string.
Variable from_str : string -> result json string.

Definition hex (bs : list N) : string :=
  string_of_bytes (bs ≫= (fun b => [hex_lower (b / 16); hex_lower (b mod 16)])).

Definition sha_hex (text : string) : string := hex (sha256 (bytes text)).

Definition account_from_headers (headers : list (string * string)) : result AccountName ErrorBody :=
  match header headers ACCOUNT_HEADER with
  | None | Some EmptyString => Ok AccountName_DEFAULT
  | Some name =>
      map_err (fun e => with_details (jobj [("violation", JStr "invalid_account_name")]%string)
                          (ErrorBody_new InvalidConfig (account_name_error_display str_debug e)))
        (account_parse name)
  end.

(** What is hashed of one message. *)
Definition message_text (message : json) : string :=
  (role_of message +:+ NL +:+ render_content to_string (json_get "content" message))%string.

Definition messages_of (body : json) : list json := default [] (json_get "messages" body ≫= as_array).

Definition tools_text (body : json) : string :=
  match json_get "tools" body with Some tools => to_string tools | None => EmptyString end.

Definition fingerprint_body_on (body : json) (model : string) (effort : option EffortLevel)
    (account : AccountName) : ConversationFingerprint :=
  mkFingerprint model effort (account_as_str account)
    (hex (sha256 (bytes (system_text (json_get "system" body)) ++ [0] ++ bytes (tools_text body))))
    ((fun message => sha_hex (message_text message)) <$> messages_of body).

Definition implicit_conversation_id (body : json) (model : string) (effort : option EffortLevel)
    (account : AccountName) : string :=
  let first := match head (messages_of body) with Some message => message_text message | None => EmptyString end in
  let effort_token := match effort with Some e => effort_as_str e | None => "-"%string end in
  sha_hex (model +:+ NL +:+ effort_token +:+ NL +:+ account_as_str account +:+ NL
           +:+ system_text (json_get "system" body) +:+ NL +:+ tools_text body +:+ NL +:+ first)%string.

Definition conversation_id_from (headers : list (string * string)) (body : json) (model : string)
    (effort : option EffortLevel) (account : AccountName) (allow_implicit : bool) : result string ErrorBody :=
  match explicit_conversation_id headers with
  | Some explicit => require_path_safe_conversation_id explicit
  | None =>
      if allow_implicit then Ok (implicit_conversation_id body model effort account)
      else Err missing_conversation_header
  end.

Definition effort_from_body (body : json) : result (option EffortLevel) ErrorBody :=
  let named : option string := json_get "output_config" body ≫= json_str_at "effort" in
  let raw : option string :=
    match named with
    | Some _ => named
    | None =>
        kind ← json_get "thinking" body ≫= json_str_at "type";
        if String.eqb kind "disabled" then None else Some "high"%string
    end in
  match raw with
  | None => Ok None
  | Some value =>
      match effort_from_str value with
      | Some e => Ok (Some e)
      | None => Err (ErrorBody_new InvalidConfig ("unsupported effort " +:+ str_debug value)%string)
      end
  end.

Definition validate_typed_prompt (prompt : list N) : result unit ErrorBody :=
  let? _ := validate_prompt nfc prompt in Ok tt.

Definition idle_ttl_ms : N := N.min (cc_idle_ttl_ms config) (2 ^ 64 - 1).

Definition pool_conversation_ids : BProg (gset string) :=
  do! leases := bperform BLeases in BRet (list_to_set (cl_conversation_id <$> leases)).

Definition account_unknown (account : AccountName) : ErrorBody :=
  let known := (fun a => account_as_str (ca_name a)) <$> accounts cfg in
  with_details
    (jobj [("violation", JStr "unknown_account"); ("account", JStr (account_as_str account));
           ("configured", JArr (JStr <$> known))]%string)
    (ErrorBody_new InvalidConfig
       ("account " +:+ str_debug (account_as_str account)
        +:+ " is not configured on this daemon; configured accounts: " +:+ join ", " known)%string).

(** What [complete] works out before it touches the book: the plan of a first turn and
    the primer that would be typed for it. *)
Definition understand (headers : list (string * string)) (body : json)
  : result (Planned * list N) ErrorBody :=
  let? raw_model := ok_or (json_str_at "model" body) (ErrorBody_new InvalidConfig "model is required") in
  let '(model, effort_from_id) := split_model_and_effort raw_model in
  let? from_body := effort_from_body body in
  let effort := match effort_from_id with Some e => Some e | None => from_body end in
  let? '(class, resolved) := map_err refusal_into_error_body (resolve_pool_class model effort) in
  let? account := account_from_headers headers in
  if negb (has_account cfg account) then Err (account_unknown account)
  else
    let model := canonical_model class in
    let effort := rme_effort_level resolved in
    let? c := conversation_id_from headers body model effort account (allow_implicit config) in
    let next := fingerprint_body_on body model effort account in
    let? flat := map_err (ErrorBody_new InvalidConfig) (flatten_prompt to_string to_string_pretty body) in
    Ok (mkPlanned c model raw_model effort account next PPrime, sanitize_prompt flat).

Definition plan_as (kind : PlannedKind) (p : Planned) : Planned :=
  mkPlanned (pl_conversation_id p) (pl_model p) (pl_requested_model p) (pl_effort p) (pl_account p)
    (pl_next p) kind.

Definition mark_in_flight (b : bool) (c : string) (st : BookState) : BookState :=
  set_live (alter (with_in_flight b) c) st.

(** No row is left for the conversation: it may be reserved. *)
Definition reserve (c : string) (st : BookState) : result unit ErrorBody * BookState :=
  if bool_decide (c ∈ reserved st) then (Err session_busy_in_flight, st)
  else if max_leases config <=? saturating_u32 (occupied st) then (Err (session_busy_cap (max_leases config)), st)
  else (Ok tt, set_reserved (union {[c]}) st).

(** The planning block, which runs with the mutex held from its first line to its last:
    a turn to run, or the answer. *)
Definition plan (p : Planned) (pool_ids : gset string) : BProg (result (Planned + LeaseTurn) ErrorBody) :=
  let c := pl_conversation_id p in
  let reserve_it :=
    do!? _ := book (fun _ => reserve c) in BRet (Ok (inl p)) in
  do! _ := book_update (fun _ => drop_orphans pool_ids) in
  do! existing := book (fun _ st => (look_up c (pl_next p) st, st)) in
  match existing with
  | NoRow => reserve_it
  | RowInFlight => BRet (Err session_busy_in_flight)
  | RowReplay cell last_result =>
      do! touched := bperform (BTouch c) in
      if (touched : bool) then
        do! _ := book_update (fun now => set_live (alter (with_last_used now) c)) in
        BRet (Ok (inr (mkLeaseTurn c cell Replayed idle_ttl_ms (pl_requested_model p) last_result)))
      else
        do! _ := book_update (fun _ => set_live (delete c)) in
        reserve_it
  | RowContinue from =>
      do! _ := book_update (fun _ => mark_in_flight true c) in
      do! _ := bperform (BProtect c) in
      BRet (Ok (inl (plan_as (PContinue from) p)))
  | RowReprime =>
      do! _ := book_update (fun _ => mark_in_flight true c) in
      BRet (Ok (inl (plan_as PReprime p)))
  end.

Definition locked {A} (p : BProg A) : BProg A :=
  do! _ := bperform BLock in
  do! a := p in
  do! _ := bperform BUnlock in
  BRet a.

Definition request_for (p : Planned) (prompt : list N) : RunStatelessRequest :=
  {| rq_model := pl_model p; rq_effort := pl_effort p; rq_prompt := prompt;
     rq_account := if is_default (pl_account p) then None else Some (account_as_str (pl_account p));
     rq_deadline_unix_ms := None |}.

Definition run_sticky_turn (p : Planned) (prompt : list N) (resume : bool) : BProg (result StickyTurn ErrorBody) :=
  bperform (BRunSticky (pl_conversation_id p) (request_for p prompt) resume).

(** The primer, validated and typed into a fresh lease. *)
Definition prime_turn (p : Planned) (primer : list N) : BProg (result StickyTurn ErrorBody) :=
  do!? _ := BRet (validate_typed_prompt primer) in run_sticky_turn p primer false.

Definition turn_of (p : Planned) (body : json) (primer : list N)
  : BProg (result (LeaseKind * StickyTurn) ErrorBody) :=
  match pl_kind p with
  | PPrime => do!? turn := prime_turn p primer in BRet (Ok (Primed, turn))
  | PContinue from =>
      do!? prompt := BRet (map_err (ErrorBody_new InvalidConfig) (continuation_prompt to_string body from)) in
      do!? _ := BRet (validate_typed_prompt prompt) in
      do! answer := run_sticky_turn p prompt true in
      match answer with
      | Ok turn => BRet (Ok (Continued, turn))
      | Err error =>
          if bool_decide (eb_code error = SessionNotFound)
          then do!? turn := prime_turn p primer in BRet (Ok (Reprimed, turn))
          else BRet (Err error)
      end
  | PReprime =>
      do!? _ := BRet (validate_typed_prompt primer) in
      do! _ := bperform (BRelease (pl_conversation_id p)) in
      do!? turn := run_sticky_turn p primer false in BRet (Ok (Reprimed, turn))
  end.

Definition settle (p : Planned) (turn : StickyTurn) (now : N) (st : BookState) : BookState :=
  let c := pl_conversation_id p in
  mkBook (<[c := mkLease (pl_next p) (st_result turn) now false (st_cell turn)]> (live st))
    (reserved st ∖ {[c]}).

Definition execute (p : Planned) (body : json) (primer : list N) : BProg (result LeaseTurn ErrorBody) :=
  do!? answer := turn_of p body primer in
  let '(kind, turn) := answer in
  do! _ := locked (book_update (settle p turn)) in
  BRet (Ok (mkLeaseTurn (pl_conversation_id p) (st_cell turn) kind idle_ttl_ms
              (pl_requested_model p) (st_result turn))).

Definition recover_failed_turn (c : string) (kind : PlannedKind) (code : ErrorCode) : BProg unit :=
  do! keep_leased_continue :=
    match kind with
    | PContinue _ =>
        if bool_decide (code = InvalidConfig)
        then do! pool_ids := pool_conversation_ids in BRet (bool_decide (c ∈ pool_ids))
        else BRet false
    | _ => BRet false
    end in
  if (keep_leased_continue : bool) then locked (book_update (fun _ => mark_in_flight false c))
  else
    do! _ := locked (book_update (fun _ st => set_live (delete c) (set_reserved (fun r => r ∖ {[c]}) st))) in
    do! _ := bperform (BRelease c) in
    BRet tt.

Definition complete (headers : list (string * string)) (body : json) : BProg (result LeaseTurn ErrorBody) :=
  do!? understood := BRet (understand headers body) in
  let '(first, primer) := understood in
  let c := pl_conversation_id first in
  do! pool_ids := pool_conversation_ids in
  do!? planned := locked (plan first pool_ids) in
  match planned with
  | inr turn => BRet (Ok turn)
  | inl planned =>
      do! outcome := execute planned body primer in
      do! _ := bperform (BUnprotect c) in
      match outcome with
      | Err error => do! _ := recover_failed_turn c (pl_kind planned) (eb_code error) in BRet outcome
      | Ok _ => BRet outcome
      end
  end.

Definition release_locked (c : string) (st : BookState) : result unit ErrorBody * BookState :=
  if bool_decide (c ∈ reserved st) || match live st !! c with Some l => le_in_flight l | None => false end
  then (Err session_busy_in_flight, st)
  else (Ok tt, set_live (delete c) st).

Definition release (c : string) : BProg (result unit ErrorBody) :=
  do!? _ := locked (book (fun _ => release_locked c)) in
  bperform (BRelease c).

Definition sweep_expired : BProg unit :=
  do! pool_ids := pool_conversation_ids in
  locked (book_update (fun _ => drop_orphans pool_ids)).

(** ** One connection *)

Definition NOT_FOUND_MESSAGE : string :=
  "GET /v1/models, GET /v1/capabilities, POST /v1/messages, or POST /v1/conversations/{id}/release".

Definition lease_headers (lease : LeaseTurn) : list (string * string) :=
  [("x-pmux-conversation", lt_conversation_id lease); ("x-pmux-cell", lt_cell lease);
   ("x-pmux-lease", lease_kind_as_str (lt_kind lease)); ("x-pmux-idle-ttl-ms", pretty (lt_idle_ttl_ms lease))]%string.

(** [str::parse::<usize>]: an optional plus sign, then digits, within 64 bits. *)
Definition parse_usize (s : string) : option N :=
  let digits := match bytes s with 43 :: rest => rest | l => l end in
  if bool_decide (digits = []) || negb (forallb is_ascii_digit digits) then None
  else
    let value := foldl (fun acc d => acc * 10 + (d - 48)) 0 digits in
    if value <? 2 ^ 64 then Some value else None.

Definition content_length (headers : list (string * string)) : N :=
  default 0 (header headers "content-length" ≫= parse_usize).

(** The digits of [{:x}], most significant first. *)
Fixpoint hex_digits (fuel : nat) (n : N) (acc : list N) : list N :=
  match fuel with
  | O => acc
  | S fuel =>
      let acc := hex_lower (n mod 16) :: acc in
      if n / 16 =? 0 then acc else hex_digits fuel (n / 16) acc
  end.

Definition message_id (nanos : N) : string :=
  ("msg_" +:+ string_of_bytes (hex_digits (S (N.to_nat (N.log2 nanos))) nanos []))%string.

Definition api_error (kind message : string) : string :=
  to_string (jobj [("type", JStr "error");
    ("error", jobj [("type", JStr kind); ("message", JStr message)])]%string).

Definition write_http (status : N) (body : string) : BProg (result string string) :=
  BRet (Ok (http_response status "application/json" body [])).

Definition write_dispatch_error (error : ErrorBody) : BProg (result string string) :=
  write_http (dispatch_error_status error) (dispatch_error_body to_string error).

(** From the parsed body on. *)
Definition handle_messages (headers : list (string * string)) (body : list N)
  : BProg (result string string) :=
  match from_slice body with
  | Err message => write_http 400 (api_error "invalid_request_error" message)
  | Ok request =>
      match reject_unsupported request with
      | Err message => write_http 400 (api_error "invalid_request_error" message)
      | Ok _ =>
          let stream_wanted := match json_get "stream" request with Some (JBool b) => b | _ => false end in
          do! answer := complete headers request in
          match answer with
          | Err error => write_dispatch_error error
          | Ok lease =>
              do! nanos := bperform BNanos in
              let completion := parse_completion from_str (sres_text (lt_result lease)) in
              let message :=
                anthropic_message (message_id nanos) (lt_requested_model lease) (lt_result lease) completion in
              BRet (Ok (if (stream_wanted : bool)
                        then http_response 200 "text/event-stream" (encode_sse to_string message completion)
                               (lease_headers lease)
                        else http_response 200 "application/json" (to_string message) (lease_headers lease)))
          end
      end
  end.

(** The response written, or why the connection was dropped without one. *)
Definition handle_connection : BProg (result string string) :=
  do!? read := bperform BReadHeaders in
  let '(header_text, rest) := read in
  do!? request := BRet (parse_request_line_and_headers header_text) in
  let '(method, path, headers) := request in
  if negb (has_any_auth headers) && negb (String.eqb method "OPTIONS") then
    write_http 401 (api_error "authentication_error" "x-api-key or Authorization required")
  else match release_conversation_id method path with
  | Some c =>
      do! released := release c in
      match released with
      | Err error => write_dispatch_error error
      | Ok _ => write_http 200 (to_string (jobj [("released", JBool true); ("conversation", JStr c)]%string))
      end
  | None =>
      if String.eqb method "GET" && is_models_path path then write_http 200 (to_string models_document)
      else if String.eqb method "GET" && is_capabilities_path path then
        write_http 200 (to_string (capabilities_document (allow_implicit config)))
      else if negb (String.eqb method "POST") || negb (is_messages_path path) then
        write_http 404 (api_error "not_found_error" NOT_FOUND_MESSAGE)
      else
        let wanted := content_length headers in
        if (wanted =? 0) || (MAX_BODY_BYTES <? wanted) then
          write_http 413 (api_error "invalid_request_error" "body length out of range")
        else
          do!? body := bperform (BReadBody rest wanted) in
          handle_messages headers body
  end.

(** ** Threads *)

(** What the listener runs: one task per connection, and the sweeper's ticks. *)
Inductive BCall := BConnection | BSweep.

Definition bprog_of (call : BCall) : BProg unit :=
  match call with
  | BConnection => do! _ := handle_connection in BRet tt
  | BSweep => sweep_expired
  end.

(** ** Interleaving

    Threads step one effect at a time. The mutex has at most one owner, taking it waits
    for it to be free, and the book is only touched by its owner; the pool and the
    network answer anything. *)

Inductive BAns :=
| BUnit
| BNum (n : N)
| BBool (b : bool)
| BLeaseList (l : list ConversationLease)
| BSticky (r : result StickyTurn ErrorBody)
| BReleased (r : result unit ErrorBody)
| BHead (r : result (string * list N) string)
| BBody (r : result (list N) string).

Record BWorld := mkBWorld { bw_book : BookState; bw_owner : option nat; bw_threads : list (BProg unit) }.

Definition do_beff {X : Set} (tid : nat) (e : BEff X) (a : BAns) (st : BookState) (owner : option nat)
  : option (X * BookState * option nat) :=
  match e in BEff X return option (X * BookState * option nat) with
  | BLock => match a, owner with BUnit, None => Some (tt, st, Some tid) | _, _ => None end
  | BUnlock =>
      match a, owner with
      | BUnit, Some o => if (o =? tid)%nat then Some (tt, st, None) else None
      | _, _ => None
      end
  | BBook f =>
      match a, owner with
      | BNum now, Some o => if (o =? tid)%nat then let '(x, st') := f now st in Some (x, st', owner) else None
      | _, _ => None
      end
  | BLeases => match a with BLeaseList l => Some (l, st, owner) | _ => None end
  | BTouch _ => match a with BBool b => Some (b, st, owner) | _ => None end
  | BProtect _ | BUnprotect _ => match a with BUnit => Some (tt, st, owner) | _ => None end
  | BRunSticky _ _ _ => match a with BSticky r => Some (r, st, owner) | _ => None end
  | BRelease _ => match a with BReleased r => Some (r, st, owner) | _ => None end
  | BReadHeaders => match a with BHead r => Some (r, st, owner) | _ => None end
  | BReadBody _ _ => match a with BBody r => Some (r, st, owner) | _ => None end
  | BNanos => match a with BNum n => Some (n, st, owner) | _ => None end
  end.

Inductive BChoice := BInvoke (call : BCall) | BAnswer (tid : nat) (a : BAns).

Definition do_bstep (w : BWorld) (ch : BChoice) : option BWorld :=
  match ch with
  | BInvoke call => Some (mkBWorld (bw_book w) (bw_owner w) (bw_threads w ++ [bprog_of call]))
  | BAnswer tid a =>
      match bw_threads w !! tid with
      | Some (BDo e k) =>
          match do_beff tid e a (bw_book w) (bw_owner w) with
          | Some (x, st, owner) => Some (mkBWorld st owner (<[tid := k x]> (bw_threads w)))
          | None => None
          end
      | _ => None
      end
  end.

Fixpoint do_bsteps (w : BWorld) (l : list BChoice) : option BWorld :=
  match l with
  | [] => Some w
  | ch :: l' => match do_bstep w ch with Some w' => do_bsteps w' l' | None => None end
  end.

Definition bworld0 : BWorld := mkBWorld Book_new None [].

(** Reachable by a schedule. *)
Definition breached (l : list BChoice) (w : BWorld) : Prop := do_bsteps bworld0 l = Some w.

End Book.
