(* ===== verification/ConversationProofs.v ===== *)
(** * The book of conversations keeps its promises

    For every interleaving of connections and sweeps, and whatever the pool answers: the
    book never holds more rows and reservations than its cap, a conversation has at most
    one turn in the pool at a time, a reservation or an in-flight mark outlives no
    request, and nothing waits for ever on the book's mutex. *)

From S2P Require Import Prelude Text Protocol Account Class Config Composer Pool PoolProg Ownership Messages Conversation.

(** ** What a request may hold *)

Inductive Hold := HReserved | HInFlight.

Abbreviation Holds := (gmap string Hold).

(** What the book says of a conversation that a request is working on. *)
Definition hold_in (st : BookState) (c : string) : option Hold :=
  if bool_decide (c ∈ reserved st) then Some HReserved
  else match live st !! c with
       | Some l => if le_in_flight l then Some HInFlight else None
       | None => None
       end.

Definition rows (st : BookState) : N := N.of_nat (size (live st)) + N.of_nat (size (reserved st)).

Section Proofs.
Variable cfg : PoolConfig.
Variable config : ConversationConfig.
Variable nfc : list N -> list N.
Variable str_debug : string -> string.
Variable sha256 : list N -> list N.
Variable to_string : json -> string.
Variable to_string_pretty : list json -> result string string.
Variable from_slice : list N -> result json string.
Variable from_str : string -> result json string.

Record book_ok (st : BookState) (T : Holds) : Prop := {
  bk_disjoint : forall c, c ∈ reserved st -> live st !! c = None;
  bk_holds : forall c, T !! c = hold_in st c;
  bk_cap : rows st <= max_leases config;
}.

(** ** The steps on the book *)

Lemma Book_new_ok : book_ok Book_new ∅.
Proof.
  split; [set_solver|intros c; by rewrite !lookup_empty|].
  unfold rows, Book_new; cbn [live reserved]. rewrite map_size_empty, size_empty. lia.
Qed.

(** A change of rows that takes none away from its request and adds none. *)
Lemma book_ok_live st T f :
  book_ok st T ->
  (forall c, match f (live st) !! c with
             | Some l' => exists l, live st !! c = Some l /\ le_in_flight l' = le_in_flight l
             | None => forall l, live st !! c = Some l -> le_in_flight l = false
             end) ->
  book_ok (set_live f st) T.
Proof.
  intros [Hd Hh Hc] Hf. split; cbn [set_live live reserved].
  - intros c Hr. specialize (Hf c). rewrite (Hd c Hr) in Hf.
    destruct (f (live st) !! c); [by destruct Hf as (? & ? & _)|done].
  - intros c. rewrite Hh. unfold hold_in; cbn [set_live live reserved]. case_bool_decide; [done|].
    specialize (Hf c). destruct (f (live st) !! c) as [l'|].
    + by destruct Hf as (l & -> & ->).
    + destruct (live st !! c) as [l|]; [|done]. by rewrite (Hf l).
  - unfold rows in *; cbn [set_live live reserved]. etrans; [|exact Hc].
    apply N.add_le_mono_r. apply N2Z.inj_le; rewrite !nat_N_Z; apply inj_le. rewrite <-!size_dom.
    apply subseteq_size. intros c [l Hl]%elem_of_dom. apply elem_of_dom.
    specialize (Hf c). rewrite Hl in Hf. destruct Hf as (l0 & -> & _). eauto.
Qed.

Lemma book_ok_drop_orphans ids st T : book_ok st T -> book_ok (drop_orphans ids st) T.
Proof.
  intros H. apply book_ok_live; [done|]. intros c.
  destruct (filter _ (live st) !! c) as [l|] eqn:E.
  - apply map_lookup_filter_Some in E as [? _]. eauto.
  - intros l Hl. apply map_lookup_filter_None in E as [E|E]; [congruence|].
    specialize (E l Hl). cbn in E. destruct (le_in_flight l); [|done]. exfalso. auto.
Qed.

Lemma book_ok_touched now c st T :
  book_ok st T -> book_ok (set_live (alter (with_last_used now) c) st) T.
Proof.
  intros H. apply book_ok_live; [done|]. intros c'. rewrite lookup_alter.
  case_decide; subst; destruct (live st !! _) eqn:E; cbn; rewrite ?E; naive_solver.
Qed.

Lemma book_ok_forget c st T :
  book_ok st T -> (forall l, live st !! c = Some l -> le_in_flight l = false) ->
  book_ok (set_live (delete c) st) T.
Proof.
  intros H Hc. apply book_ok_live; [done|]. intros c'. rewrite lookup_delete.
  case_decide; subst; [done|]. destruct (live st !! c') eqn:E; naive_solver.
Qed.

(** A change of one conversation only. *)
Lemma book_ok_at c st st' T T' :
  book_ok st T ->
  (forall c', c' <> c -> live st' !! c' = live st !! c' /\ (c' ∈ reserved st' <-> c' ∈ reserved st)) ->
  (c ∈ reserved st' -> live st' !! c = None) ->
  rows st' <= max_leases config ->
  T' = partial_alter (fun _ => hold_in st' c) c T ->
  book_ok st' T'.
Proof.
  intros [Hd Hh Hc] Hother Hself Hcap ->. split; [| |done].
  - intros c' Hr. destruct (decide (c' = c)) as [->|Hne]; [by apply Hself|].
    destruct (Hother c' Hne) as [-> Hiff]. apply Hd. by apply Hiff.
  - intros c'. destruct (decide (c' = c)) as [->|Hne].
    + by rewrite lookup_partial_alter_eq.
    + rewrite lookup_partial_alter_ne by done. rewrite Hh. unfold hold_in.
      destruct (Hother c' Hne) as [-> Hiff]. by rewrite (bool_decide_ext _ _ Hiff).
Qed.

Lemma mark_rows b c st : rows (mark_in_flight b c st) = rows st.
Proof.
  unfold rows, mark_in_flight; cbn [set_live live reserved]. do 2 f_equal.
  rewrite <-!size_dom. by rewrite dom_alter_L.
Qed.

Lemma mark_hold b c st l :
  c ∉ reserved st -> live st !! c = Some l ->
  hold_in (mark_in_flight b c st) c = if b then Some HInFlight else None.
Proof.
  intros Hr Hl. unfold hold_in, mark_in_flight; cbn [set_live live reserved].
  rewrite bool_decide_eq_false_2 by done. by rewrite lookup_alter_eq, Hl.
Qed.

Lemma book_ok_mark b c st T l :
  book_ok st T -> live st !! c = Some l ->
  book_ok (mark_in_flight b c st) (if b then <[c := HInFlight]> T else delete c T).
Proof.
  intros H Hl. assert (c ∉ reserved st) as Hr by (intros Hr; apply (bk_disjoint _ _ H) in Hr; congruence).
  eapply (book_ok_at c); [exact H| |done| |].
  - intros c' Hne. unfold mark_in_flight; cbn [set_live live reserved]. by rewrite lookup_alter_ne.
  - rewrite mark_rows. apply (bk_cap _ _ H).
  - rewrite (mark_hold _ _ _ _ Hr Hl). by destruct b.
Qed.

(** A row that no request works on is free to take. *)
Lemma free_row c st T l : book_ok st T -> live st !! c = Some l -> le_in_flight l = false -> T !! c = None.
Proof.
  intros H Hl Hf. rewrite (bk_holds _ _ H). unfold hold_in. rewrite bool_decide_eq_false_2.
  - by rewrite Hl, Hf.
  - intros Hr%(bk_disjoint _ _ H). congruence.
Qed.

Lemma held_row c st T : book_ok st T -> T !! c = Some HInFlight -> exists l, live st !! c = Some l.
Proof.
  intros H. rewrite (bk_holds _ _ H). unfold hold_in. case_bool_decide; [done|].
  destruct (live st !! c); [eauto|done].
Qed.

Hypothesis max_leases_u32 : max_leases config < 2 ^ 32.

Lemma book_ok_reserve c st T :
  book_ok st T -> live st !! c = None ->
  match reserve config c st with
  | (Ok _, st') => T !! c = None /\ book_ok st' (<[c := HReserved]> T)
  | (Err _, st') => st' = st
  end.
Proof.
  intros H Hl. unfold reserve. case_bool_decide as Hr; [done|].
  destruct (N.leb_spec (max_leases config) (saturating_u32 (occupied st))) as [|Hlt]; [done|].
  assert (rows st < max_leases config) as Hrows.
  { unfold saturating_u32, occupied in Hlt. fold (rows st) in Hlt.
    destruct (N.ltb_spec (N.min (rows st) (2 ^ 64 - 1)) (2 ^ 32)); lia. }
  split.
  { rewrite (bk_holds _ _ H). unfold hold_in. by rewrite bool_decide_eq_false_2, Hl. }
  eapply (book_ok_at c); [exact H| |done| |]; unfold set_reserved; cbn [live reserved].
  - intros c' Hne. set_solver.
  - unfold rows; cbn [live reserved]. rewrite size_union, size_singleton by set_solver. unfold rows in Hrows. lia.
  - unfold hold_in; cbn [reserved]. by rewrite bool_decide_eq_true_2 by set_solver.
Qed.

Lemma rows_drop c st T :
  book_ok st T -> rows (mkBook (delete c (live st)) (reserved st ∖ {[c]})) <= rows st /\
  (is_Some (T !! c) -> rows (mkBook (delete c (live st)) (reserved st ∖ {[c]})) < rows st).
Proof.
  intros H. unfold rows; cbn [live reserved]. rewrite map_size_delete.
  destruct (decide (c ∈ reserved st)) as [Hr|Hr].
  - rewrite (bk_disjoint _ _ H c Hr). rewrite size_difference by set_solver. rewrite size_singleton.
    assert (size (reserved st) <> 0%nat) by (apply size_non_empty_iff; set_solver). unfold id. split; [lia|intros _; lia].
  - assert (reserved st ∖ {[c]} = reserved st) as -> by set_solver. rewrite (bk_holds _ _ H). unfold hold_in.
    rewrite bool_decide_eq_false_2 by done. destruct (live st !! c) eqn:E; unfold id; [|split; [lia|by intros []]].
    assert (size (live st) <> 0%nat); [|split; [lia|intros _; lia]].
    intros Hz%map_size_empty_inv. by rewrite Hz, lookup_empty in E.
Qed.

(** The row of a request that failed. *)
Lemma book_ok_drop_row c st T :
  book_ok st T ->
  book_ok (set_live (delete c) (set_reserved (fun r => r ∖ {[c]}) st)) (delete c T).
Proof.
  intros H. eapply (book_ok_at c); [exact H| | | |]; cbn [set_live set_reserved live reserved].
  - intros c' Hne. rewrite lookup_delete_ne by done. set_solver.
  - intros ?. by rewrite lookup_delete_eq.
  - etrans; [|apply (bk_cap _ _ H)]. by apply (rows_drop c st T).
  - unfold hold_in; cbn [set_live set_reserved live reserved]. by rewrite bool_decide_eq_false_2, lookup_delete_eq by set_solver.
Qed.

(** The row of a request that succeeded. *)
Lemma book_ok_settle p turn now st T :
  book_ok st T -> is_Some (T !! pl_conversation_id p) ->
  book_ok (settle p turn now st) (delete (pl_conversation_id p) T).
Proof.
  intros H HT. set (c := pl_conversation_id p) in *.
  eapply (book_ok_at c); [exact H| | | |]; unfold settle; cbn [live reserved]; fold c.
  - intros c' Hne. rewrite lookup_insert_ne by done. set_solver.
  - set_solver.
  - pose proof (proj2 (rows_drop c st T H) HT) as Hlt. etrans; [|apply (bk_cap _ _ H)].
    unfold rows in *; cbn [live reserved] in *.
    rewrite <-insert_delete_eq, map_size_insert_None by apply lookup_delete_eq. lia.
  - unfold hold_in; cbn [live reserved]. by rewrite bool_decide_eq_false_2, lookup_insert_eq by set_solver.
Qed.

(** ** The proof rule

    A thread holds [R]; while it owns the mutex it also knows the book and what the other
    threads hold. It must put the book back in order to drop the mutex, never takes the
    mutex twice, and runs a turn only outside the mutex and only for a conversation it
    holds. *)

Definition Locked : Type := option (BookState * Holds).

Definition bwp_eff {X : Set} (e : BEff X) (h : Locked) (R : Holds)
  : (X -> Locked -> Holds -> Prop) -> Prop :=
  match e in BEff X return (X -> Locked -> Holds -> Prop) -> Prop with
  | BLock => fun K =>
      h = None /\ forall st F, R ##ₘ F -> book_ok st (R ∪ F) -> K tt (Some (st, F)) R
  | BUnlock => fun K =>
      exists st F R', h = Some (st, F) /\ R' ##ₘ F /\ book_ok st (R' ∪ F) /\ K tt None R'
  | BBook f => fun K =>
      exists st F, h = Some (st, F) /\ forall now, K (fst (f now st)) (Some (snd (f now st), F)) R
  | BRunSticky c _ _ => fun K => h = None /\ is_Some (R !! c) /\ forall x, K x h R
  | _ => fun K => forall x, K x h R
  end.

Fixpoint bwp {A} (p : BProg A) (h : Locked) (R : Holds) (Q : A -> Locked -> Holds -> Prop) : Prop :=
  match p with
  | BRet a => Q a h R
  | BDo e k => bwp_eff e h R (fun x h' R' => bwp (k x) h' R' Q)
  end.

Lemma bwp_eff_mono {X : Set} (e : BEff X) h R (K K' : X -> Locked -> Holds -> Prop) :
  (forall x h R, K x h R -> K' x h R) -> bwp_eff e h R K -> bwp_eff e h R K'.
Proof.
  intros HK. destruct e; cbn [bwp_eff]; try (intros H x; by auto).
  - intros [? H]. split; [done|]. auto.
  - intros (st & F & R' & ? & ? & ? & ?). exists st, F, R'. auto.
  - intros (st & F & ? & H). exists st, F. auto.
  - intros (? & ? & H). auto.
Qed.

Lemma bwp_mono {A} (p : BProg A) h R (Q Q' : A -> Locked -> Holds -> Prop) :
  (forall a h R, Q a h R -> Q' a h R) -> bwp p h R Q -> bwp p h R Q'.
Proof.
  intros HQ. revert h R. induction p as [a|X e k IH]; intros h R; cbn [bwp]; [auto|].
  apply bwp_eff_mono. auto.
Qed.

Lemma bwp_bind {A B} (p : BProg A) (k : A -> BProg B) h R Q :
  bwp p h R (fun a h' R' => bwp (k a) h' R' Q) -> bwp (bbind p k) h R Q.
Proof.
  revert h R. induction p as [a|X e c IH]; intros h R; cbn [bwp bbind]; [done|].
  apply bwp_eff_mono. auto.
Qed.

Lemma bwp_try {A B E} (p : BProg (result A E)) (k : A -> BProg (result B E)) h R Q :
  bwp p h R (fun r h' R' => match r with Ok a => bwp (k a) h' R' Q | Err e => Q (Err e) h' R' end) ->
  bwp (btry p k) h R Q.
Proof. intros H. apply bwp_bind. eapply bwp_mono; [|exact H]. by intros [a|e] h' R'. Qed.

(** A block under the mutex: it finds the book in order and leaves it so, exchanging what
    the thread holds. *)
Lemma bwp_locked {A} (p : BProg A) R Q :
  (forall st F, R ##ₘ F -> book_ok st (R ∪ F) ->
     bwp p (Some (st, F)) R (fun a h _ => exists st' R',
       h = Some (st', F) /\ R' ##ₘ F /\ book_ok st' (R' ∪ F) /\ Q a None R')) ->
  bwp (locked p) None R Q.
Proof.
  intros H. unfold locked. cbn [bbind bperform bwp bwp_eff]. split; [done|].
  intros st F HR Hok. apply bwp_bind. eapply bwp_mono; [|by apply H].
  intros a h R0 (st' & R' & -> & Hd & Hok' & HQ). cbn [bwp bwp_eff bbind].
  exists st', F, R'. auto.
Qed.

(** ** Adequacy *)

Definition finished (_ : unit) (h : Locked) (R : Holds) : Prop := h = None /\ R = ∅.

Definition bthread_ok (p : BProg unit) (R : Holds) : Prop := bwp p None R finished.

(** Stands for the owner of the mutex while the others are looked at. *)
Definition idle : BProg unit := BRet tt.

(** The mutex is free and the book in order, or its owner is at work on it. *)
Definition world_ok (w : BWorld) : Prop :=
  match bw_owner w with
  | None => exists T, owns bthread_ok (bw_threads w) T /\ book_ok (bw_book w) T
  | Some o => exists p R F, bw_threads w !! o = Some p /\
      bwp p (Some (bw_book w, F)) R finished /\ owns bthread_ok (<[o := idle]> (bw_threads w)) F
  end.

(** An effect other than on the mutex and under it changes neither. *)
Definition passive {X : Set} (e : BEff X) : bool :=
  match e with BLock | BUnlock | BBook _ => false | _ => true end.

Lemma passive_step {X : Set} tid (e : BEff X) a st owner x st' owner' h R K :
  passive e = true -> do_beff tid e a st owner = Some (x, st', owner') ->
  st' = st /\ owner' = owner /\ (bwp_eff e h R K -> K x h R).
Proof.
  destruct e; cbn [passive do_beff bwp_eff]; try done; intros _; destruct a; try done;
    intros [= <- <- <-]; (split_and!; [done|done|]); try (by auto); by intros (_ & _ & ?).
Qed.

Lemma owner_in w o p : bw_threads w !! o = Some p -> forall q, <[o := q]> (bw_threads w) !! o = Some q.
Proof. intros Ho q. apply list_lookup_insert_eq. by eapply lookup_lt_Some. Qed.

(** A step while the mutex is free. *)
Lemma step_free {X : Set} w tid (e : BEff X) k a x st owner :
  world_ok w -> bw_owner w = None -> bw_threads w !! tid = Some (BDo e k) ->
  do_beff tid e a (bw_book w) None = Some (x, st, owner) ->
  world_ok (mkBWorld st owner (<[tid := k x]> (bw_threads w))).
Proof.
  intros Hw Ho Ht Hs. unfold world_ok in Hw. rewrite Ho in Hw. destruct Hw as (T & Hown & Hok).
  destruct (owns_split _ _ _ _ _ Hown Ht) as (R & F & -> & Hd & Hth & Hput).
  destruct (passive e) eqn:Ep.
  - destruct (passive_step _ _ _ _ _ _ _ _ None R
                (fun x h' R' => bwp (k x) h' R' finished) Ep Hs) as (-> & -> & HK).
    exists (R ∪ F). split; [|done]. apply Hput; [by apply HK|done].
  - destruct e; cbn [passive do_beff] in *; try done; destruct a; try done.
    injection Hs as <- <- <-. destruct Hth as [_ Hth]. cbn [world_ok bw_owner bw_threads bw_book].
    exists (k tt), R, F. split_and!; [by eapply owner_in|by apply Hth|].
    rewrite list_insert_insert_eq. rewrite <-(left_id_L ∅ (∪) F).
    apply Hput; [done|apply map_disjoint_empty_l].
Qed.

(** A step of the owner of the mutex. *)
Lemma step_owner {X : Set} w tid (e : BEff X) k a x st owner :
  world_ok w -> bw_owner w = Some tid -> bw_threads w !! tid = Some (BDo e k) ->
  do_beff tid e a (bw_book w) (Some tid) = Some (x, st, owner) ->
  world_ok (mkBWorld st owner (<[tid := k x]> (bw_threads w))).
Proof.
  intros Hw Ho Ht Hs. unfold world_ok in Hw. rewrite Ho in Hw. destruct Hw as (p & R & F & Hp & Hth & Hown).
  rewrite Ht in Hp. injection Hp as <-. destruct (passive e) eqn:Ep.
  - destruct (passive_step _ _ _ _ _ _ _ _ (Some (bw_book w, F)) R
                (fun x h' R' => bwp (k x) h' R' finished) Ep Hs) as (-> & -> & HK).
    exists (k x), R, F. cbn [bw_threads]. rewrite list_insert_insert_eq. eauto using owner_in.
  - destruct e; cbn [passive do_beff] in *; try done; destruct a; try done; rewrite Nat.eqb_refl in Hs.
    + injection Hs as <- <- <-. destruct Hth as (st & F' & R' & [= <- <-] & Hd & Hok & Hk).
      exists (R' ∪ F). split; [|done]. cbn [bw_threads].
      destruct (owns_split _ _ _ _ _ Hown (owner_in _ _ _ Ht idle)) as (R0 & F0 & -> & _ & [_ ->] & Hput).
      rewrite (left_id_L ∅ (∪) F0) in Hd |- *. specialize (Hput _ _ Hk Hd).
      by rewrite list_insert_insert_eq in Hput.
    + destruct Hth as (st0 & F' & [= <- <-] & Hk). specialize (Hk n).
      destruct (section n (bw_book w)) as [y st1]. injection Hs as <- <- <-.
      exists (k y), R, F. cbn [bw_threads]. rewrite list_insert_insert_eq. eauto using owner_in.
Qed.

(** A step of another thread while the mutex is taken. *)
Lemma step_other {X : Set} w o tid (e : BEff X) k a x st owner :
  world_ok w -> bw_owner w = Some o -> o <> tid -> bw_threads w !! tid = Some (BDo e k) ->
  do_beff tid e a (bw_book w) (Some o) = Some (x, st, owner) ->
  world_ok (mkBWorld st owner (<[tid := k x]> (bw_threads w))).
Proof.
  intros Hw Ho Hne Ht Hs. unfold world_ok in Hw. rewrite Ho in Hw. destruct Hw as (p & R & F & Hp & Hth & Hown).
  destruct (passive e) eqn:Ep.
  - assert (<[o := idle]> (bw_threads w) !! tid = Some (BDo e k)) as Ht' by by rewrite list_lookup_insert_ne.
    destruct (owns_split _ _ _ _ _ Hown Ht') as (R1 & F1 & -> & Hd & Hth1 & Hput).
    destruct (passive_step _ _ _ _ _ _ _ _ None R1
                (fun x h' R' => bwp (k x) h' R' finished) Ep Hs) as (-> & -> & HK).
    exists p, R, (R1 ∪ F1). cbn [bw_threads bw_book]. rewrite list_lookup_insert_ne by done.
    split_and!; [done|done|]. rewrite list_insert_insert_ne by done. apply Hput; [by apply HK|done].
  - destruct e; cbn [passive do_beff] in *; try done; destruct a; try done;
      by rewrite (proj2 (Nat.eqb_neq o tid)) in Hs.
Qed.
(** ** The operations *)

(** What a request holds while its turn runs. *)
Definition hold_of (kind : PlannedKind) : Hold :=
  match kind with PPrime => HReserved | _ => HInFlight end.

Definition holding (p : Planned) : Holds := {[ pl_conversation_id p := hold_of (pl_kind p) ]}.

Lemma bwp_pool_ids h R Q : (forall ids, Q ids h R) -> bwp pool_conversation_ids h R Q.
Proof. intros H x. apply H. Qed.

Lemma bwp_update {A} f (k : unit -> BProg A) st F R Q :
  (forall now, bwp (k tt) (Some (f now st, F)) R Q) ->
  bwp (bbind (book_update f) k) (Some (st, F)) R Q.
Proof. intros H. exists st, F. split; [done|]. intros now. apply H. Qed.

(** How a block under the mutex ends: the book in order, the thread with its new holds. *)
Definition unlocks {A} (F : Holds) (Q : A -> Holds -> Prop) (a : A) (h : Locked) (_ : Holds) : Prop :=
  exists st' R', h = Some (st', F) /\ R' ##ₘ F /\ book_ok st' (R' ∪ F) /\ Q a R'.

Lemma unlocks_empty {A} F (Q : A -> Holds -> Prop) a st R :
  book_ok st F -> Q a ∅ -> unlocks F Q a (Some (st, F)) R.
Proof.
  intros Hok HQ. exists st, ∅. split_and!; [done|apply map_disjoint_empty_l| |done].
  by rewrite (left_id_L ∅ (∪)).
Qed.

Lemma unlocks_one {A} F (Q : A -> Holds -> Prop) a st R c v :
  F !! c = None -> book_ok st (<[c := v]> F) -> Q a {[c := v]} -> unlocks F Q a (Some (st, F)) R.
Proof.
  intros Hc Hok HQ. exists st, {[c := v]}. split_and!; [done|by apply map_disjoint_singleton_l| |done].
  by rewrite <-insert_union_singleton_l.
Qed.

Definition planned (p : Planned) (r : result (Planned + LeaseTurn) ErrorBody) (R : Holds) : Prop :=
  match r with
  | Ok (inl p') => pl_conversation_id p' = pl_conversation_id p /\ R = holding p'
  | _ => R = ∅
  end.

Lemma bwp_reserve_it p st F R :
  pl_kind p = PPrime -> book_ok st F -> live st !! pl_conversation_id p = None ->
  bwp (do!? _ := book (fun _ => reserve config (pl_conversation_id p)) in BRet (Ok (inl p)))
    (Some (st, F)) R (unlocks F (planned p)).
Proof.
  intros Hk Hok Hl. apply bwp_try. exists st, F. split; [done|]. intros _.
  pose proof (book_ok_reserve _ _ _ Hok Hl) as Hr. destruct (reserve _ _ _) as [[[]|e] st']; cbn [fst snd bwp].
  - destruct Hr as [Hn Hok']. eapply unlocks_one; [exact Hn|exact Hok'|]. split; [done|].
    unfold holding. by rewrite Hk.
  - subst st'. by apply unlocks_empty.
Qed.

Lemma look_up_row c next st ex :
  look_up c next st = ex ->
  match ex with
  | NoRow => live st !! c = None
  | RowInFlight => True
  | _ => exists l, live st !! c = Some l /\ le_in_flight l = false
  end.
Proof.
  unfold look_up. destruct (live st !! c) as [l|]; [|by intros <-].
  destruct (le_in_flight l) eqn:E; [by intros <-|]. destruct (classify_prefix _ _); intros <-; eauto.
Qed.

Lemma bwp_plan p ids st F R :
  pl_kind p = PPrime -> book_ok st F ->
  bwp (plan config p ids) (Some (st, F)) R (unlocks F (planned p)).
Proof.
  intros Hk Hok. unfold plan. cbv zeta. apply bwp_update. intros _.
  apply (book_ok_drop_orphans ids) in Hok. revert Hok. generalize (drop_orphans ids st). clear st. intros st Hok.
  exists st, F. split; [done|]. intros _. cbn [fst snd bbind].
  pose proof (look_up_row (pl_conversation_id p) (pl_next p) st _ eq_refl) as Hrow.
  destruct (look_up (pl_conversation_id p) (pl_next p) st) as [| |cell result|from|].
  - by apply bwp_reserve_it.
  - by apply unlocks_empty.
  - destruct Hrow as (l & Hl & Hf). intros [].
    + apply bwp_update. intros now. apply unlocks_empty; [by apply book_ok_touched|done].
    + apply bwp_update. intros _. apply bwp_reserve_it; [done| |by apply lookup_delete_eq].
      apply book_ok_forget; [done|]. intros l' Hl'. congruence.
  - destruct Hrow as (l & Hl & Hf). apply bwp_update. intros _ [].
    eapply (unlocks_one _ _ _ _ _ _ HInFlight); [by eapply free_row| |done].
    by apply (book_ok_mark true _ _ _ l).
  - destruct Hrow as (l & Hl & Hf). apply bwp_update. intros _.
    eapply (unlocks_one _ _ _ _ _ _ HInFlight); [by eapply free_row| |done].
    by apply (book_ok_mark true _ _ _ l).
Qed.
(** Steps that need nothing and take nothing. *)
Definition keeps {A} (R : Holds) (_ : A) (h : Locked) (R' : Holds) : Prop := h = None /\ R' = R.

Lemma bwp_run_turn p prompt resume Q :
  (forall x, Q x None (holding p)) -> bwp (run_sticky_turn p prompt resume) None (holding p) Q.
Proof.
  intros H. split; [done|]. split; [|done]. unfold holding. rewrite lookup_singleton_eq. eauto.
Qed.

Lemma bwp_prime_turn p primer : bwp (prime_turn nfc p primer) None (holding p) (keeps (holding p)).
Proof.
  unfold prime_turn. apply bwp_try. cbn [bwp]. destruct (validate_typed_prompt nfc primer); [|done].
  by apply bwp_run_turn.
Qed.

(** A fallible step that keeps what is held, followed by another. *)
Lemma bwp_try_keeps {A B E} (p : BProg (result A E)) (k : A -> BProg (result B E)) R :
  bwp p None R (keeps R) -> (forall a, bwp (k a) None R (keeps R)) ->
  bwp (btry p k) None R (keeps R).
Proof.
  intros Hp Hk. apply bwp_try. eapply bwp_mono; [|exact Hp].
  intros [a|e] h R' [-> ->]; [apply Hk|done].
Qed.

Lemma bwp_turn_of p body primer :
  bwp (turn_of nfc to_string p body primer) None (holding p) (keeps (holding p)).
Proof.
  unfold turn_of. destruct (pl_kind p) as [|from|].
  - apply bwp_try_keeps; [apply bwp_prime_turn|done].
  - apply bwp_try_keeps; [done|]. intros prompt. apply bwp_try_keeps; [done|]. intros ?.
    apply bwp_bind, bwp_run_turn. intros [turn|error]; [done|].
    case_bool_decide; [|done]. apply bwp_try_keeps; [apply bwp_prime_turn|done].
  - apply bwp_try_keeps; [done|]. intros ? ?. apply bwp_try_keeps; [by apply bwp_run_turn|done].
Qed.

(** Giving back what is held under the mutex. *)
Lemma bwp_give_back p f Q :
  (forall st F now, F !! pl_conversation_id p = None -> book_ok st (<[pl_conversation_id p := hold_of (pl_kind p)]> F) ->
     book_ok (f now st) F) ->
  Q tt None ∅ -> bwp (locked (book_update f)) None (holding p) Q.
Proof.
  intros Hf HQ. apply bwp_locked. intros st F Hd Hok. exists st, F. split; [done|]. intros now.
  cbn [fst snd bwp]. exists (f now st), ∅. split_and!; [done|apply map_disjoint_empty_l| |done].
  rewrite (left_id_L ∅ (∪)). unfold holding in Hd, Hok.
  rewrite <-insert_union_singleton_l in Hok. apply map_disjoint_singleton_l in Hd. by apply Hf.
Qed.

Lemma bwp_execute p body primer :
  bwp (execute config nfc to_string p body primer) None (holding p)
    (fun r h R => h = None /\ R = match r with Ok _ => ∅ | Err _ => holding p end).
Proof.
  unfold execute. apply bwp_try. eapply bwp_mono; [|apply bwp_turn_of].
  intros [[kind turn]|e] h R [-> ->]; [|done]. apply bwp_bind, bwp_give_back; [|done].
  intros st F now Hn Hok. rewrite <-(delete_insert_id F (pl_conversation_id p) (hold_of (pl_kind p))) by done.
  apply book_ok_settle; [done|]. rewrite lookup_insert_eq. eauto.
Qed.

Lemma bwp_recover p code :
  bwp (recover_failed_turn (pl_conversation_id p) (pl_kind p) code) None (holding p) (keeps ∅).
Proof.
  assert (bwp (do! _ := locked (book_update (fun _ st => set_live (delete (pl_conversation_id p))
            (set_reserved (fun r => r ∖ {[pl_conversation_id p]}) st))) in
          do! _ := bperform (BRelease (pl_conversation_id p)) in BRet tt) None (holding p) (keeps ∅)) as Hdrop.
  { apply bwp_bind, bwp_give_back; [|done]. intros st F now Hn Hok.
    rewrite <-(delete_insert_id F (pl_conversation_id p) (hold_of (pl_kind p))) by done. by apply book_ok_drop_row. }
  unfold recover_failed_turn. destruct (pl_kind p) as [|from|] eqn:Ek; try exact Hdrop.
  case_bool_decide; [|exact Hdrop]. apply bwp_bind, bwp_bind, bwp_pool_ids. intros ids. cbn [bwp].
  case_bool_decide; [|exact Hdrop]. apply bwp_give_back; [|done]. rewrite Ek. intros st F _ Hn Hok.
  destruct (held_row (pl_conversation_id p) st _ Hok) as [l Hl]; [by rewrite lookup_insert_eq|].
  rewrite <-(delete_insert_id F (pl_conversation_id p) HInFlight) by done.
  by apply (book_ok_mark false _ _ _ l).
Qed.

Lemma understand_primes headers body p primer :
  understand cfg config str_debug sha256 to_string to_string_pretty headers body = Ok (p, primer) ->
  pl_kind p = PPrime.
Proof.
  unfold understand. intros H. res_inv. by simplify_eq/=.
Qed.
Lemma bwp_complete headers body :
  bwp (complete cfg config nfc str_debug sha256 to_string to_string_pretty headers body) None ∅ (keeps ∅).
Proof.
  unfold complete. apply bwp_try. cbn [bwp].
  destruct (understand _ _ _ _ _ _ _ _) as [[p primer]|e] eqn:Eu; [|done].
  apply understand_primes in Eu. apply bwp_bind, bwp_pool_ids. intros ids. apply bwp_try, bwp_locked.
  intros st F _ Hok. rewrite (left_id_L ∅ (∪)) in Hok.
  eapply bwp_mono; [|by apply bwp_plan]. intros r h _ (st' & R' & -> & Hd & Hok' & Hr).
  exists st', R'. split_and!; [done..|]. destruct r as [[p'|turn]|e]; cbn [planned] in Hr; [|by subst..].
  destruct Hr as [Hid ->]. rewrite <-Hid. apply bwp_bind. eapply bwp_mono; [|apply bwp_execute].
  intros [turn|error] h R [-> ->] []; cbn [bbind]; [done|]. apply bwp_bind.
  eapply bwp_mono; [|apply bwp_recover]. by intros [] h R [-> ->].
Qed.

Lemma bwp_sweep_expired : bwp sweep_expired None ∅ (keeps ∅).
Proof.
  apply bwp_bind, bwp_pool_ids. intros ids. apply bwp_locked. intros st F _ Hok.
  exists st, F. split; [done|]. intros _. rewrite (left_id_L ∅ (∪)) in Hok.
  apply (unlocks_empty F (fun a R => keeps ∅ a None R) _ _ ∅); [by apply book_ok_drop_orphans|done].
Qed.

Lemma bwp_release c : bwp (release c) None ∅ (keeps ∅).
Proof.
  apply bwp_try, bwp_locked. intros st F _ Hok. exists st, F. split; [done|]. intros _.
  rewrite (left_id_L ∅ (∪)) in Hok. unfold release_locked.
  destruct (bool_decide _ || _) eqn:E; cbn [fst snd bwp].
  - exists st, ∅. split_and!; [done|apply map_disjoint_empty_l|by rewrite (left_id_L ∅ (∪))|done].
  - apply orb_false_iff in E as [_ E].
    exists (set_live (delete c) st), ∅. split_and!; [done|apply map_disjoint_empty_l| |done].
    rewrite (left_id_L ∅ (∪)). apply book_ok_forget; [done|]. intros l Hl. by rewrite Hl in E.
Qed.

Lemma bwp_write_http status body R : bwp (write_http status body) None R (keeps R).
Proof. done. Qed.

Lemma bwp_handle_messages headers body :
  bwp (handle_messages cfg config nfc str_debug sha256 to_string to_string_pretty from_slice from_str headers body)
    None ∅ (keeps ∅).
Proof.
  unfold handle_messages. destruct (from_slice body) as [request|]; [|done].
  destruct (reject_unsupported request); [|done]. cbv zeta. apply bwp_bind.
  eapply bwp_mono; [|apply bwp_complete]. intros [lease|error] h R [-> ->]; [|done]. by intros nanos.
Qed.

Lemma bwp_handle_connection :
  bwp (handle_connection cfg config nfc str_debug sha256 to_string to_string_pretty from_slice from_str)
    None ∅ (keeps ∅).
Proof.
  unfold handle_connection. apply bwp_try_keeps; [done|]. intros [text rest].
  apply bwp_try_keeps; [done|]. intros [[method path] headers].
  destruct (negb _ && _); [done|]. destruct (release_conversation_id method path) as [c|].
  { apply bwp_bind. eapply bwp_mono; [|apply bwp_release]. by intros [] h R [-> ->]. }
  destruct (_ && is_models_path _); [done|]. destruct (_ && is_capabilities_path _); [done|].
  destruct (_ || negb (is_messages_path _)); [done|]. cbv zeta. destruct (_ || _); [done|].
  apply bwp_try_keeps; [done|]. intros body. apply bwp_handle_messages.
Qed.

Lemma bcall_ok call :
  bthread_ok (bprog_of cfg config nfc str_debug sha256 to_string to_string_pretty from_slice from_str call) ∅.
Proof.
  destruct call; cbn [bprog_of]; [|apply bwp_sweep_expired]. apply bwp_bind.
  eapply bwp_mono; [|apply bwp_handle_connection]. by intros a h R [-> ->].
Qed.

Abbreviation reached :=
  (breached cfg config nfc str_debug sha256 to_string to_string_pretty from_slice from_str).

Lemma world_ok_step w ch w' :
  world_ok w ->
  do_bstep cfg config nfc str_debug sha256 to_string to_string_pretty from_slice from_str w ch = Some w' ->
  world_ok w'.
Proof.
  intros Hw. destruct ch as [call|tid a]; cbn [do_bstep].
  - intros [= <-]. unfold world_ok in *. cbn [bw_owner bw_threads bw_book].
    destruct (bw_owner w) as [o|].
    + destruct Hw as (p & R & F & Hp & Hth & Hown). exists p, R, F. split_and!; [by apply lookup_app_l_Some|done|].
      rewrite insert_app_l by (by eapply lookup_lt_Some). apply owns_snoc; [done|apply bcall_ok].
    + destruct Hw as (T & Hown & Hok). exists T. split; [|done]. apply owns_snoc; [done|apply bcall_ok].
  - destruct (bw_threads w !! tid) as [[x|X e k]|] eqn:Ht; [done| |done].
    destruct (do_beff tid e a (bw_book w) (bw_owner w)) as [[[x st] owner]|] eqn:Hs; [|done].
    intros [= <-]. destruct (bw_owner w) as [o|] eqn:Ho; [|by eapply step_free].
    destruct (decide (o = tid)) as [->|]; [by eapply step_owner|by eapply step_other].
Qed.

Lemma world_ok_steps l : forall w w', world_ok w ->
  do_bsteps cfg config nfc str_debug sha256 to_string to_string_pretty from_slice from_str w l = Some w' ->
  world_ok w'.
Proof.
  induction l as [|ch l IH]; intros w w' Hw; cbn [do_bsteps]; [by intros [= <-]|].
  destruct (do_bstep _ _ _ _ _ _ _ _ _ w ch) as [w1|] eqn:E; [|done]. eauto using world_ok_step.
Qed.

Lemma world_ok_reached l w : reached l w -> world_ok w.
Proof.
  apply world_ok_steps. exists ∅. split; [constructor|apply Book_new_ok].
Qed.
(** ** The theorems *)

Definition breturned (p : BProg unit) : Prop := match p with BRet _ => True | _ => False end.

#[local] Instance breturned_dec p : Decision (breturned p).
Proof. destruct p; cbn; apply _. Defined.

(** The owner of the mutex has not returned. *)
Lemma all_returned_unlocked w : world_ok w -> Forall breturned (bw_threads w) -> bw_owner w = None.
Proof.
  unfold world_ok. destruct (bw_owner w) as [o|]; [|done]. intros (p & R & F & Hp & Hth & _) Hall.
  eapply Forall_lookup_1 in Hall; [|exact Hp]. destruct p; [|done]. by destruct Hth as [? _].
Qed.

(** The book stays within its cap and forgets nothing it reserved. In every reachable
    world, when nobody is at work on the book, its rows and reservations together are at
    most [max_leases] and no conversation is both; and once every request has returned,
    the mutex is free, nothing is reserved and no row is marked in flight, so no
    conversation is left busy. *)
Theorem book_is_bounded_and_left_clean l w (Hr : reached l w) :
  (bw_owner w = None ->
     rows (bw_book w) <= max_leases config /\
     forall c, c ∈ reserved (bw_book w) -> live (bw_book w) !! c = None) /\
  (Forall breturned (bw_threads w) ->
     bw_owner w = None /\ reserved (bw_book w) = ∅ /\
     forall c row, live (bw_book w) !! c = Some row -> le_in_flight row = false).
Proof.
  apply world_ok_reached in Hr. split.
  - intros Ho. unfold world_ok in Hr. rewrite Ho in Hr. destruct Hr as (T & _ & [Hd _ Hc]). done.
  - intros Hall. pose proof (all_returned_unlocked _ Hr Hall) as Ho. split; [done|].
    unfold world_ok in Hr. rewrite Ho in Hr. destruct Hr as (T & Hown & Hok).
    assert (T = ∅) as ->.
    { eapply owns_nothing; [exact Hown|]. intros p R Hin Hp. rewrite Forall_forall in Hall.
      specialize (Hall p Hin). destruct p; [|done]. by destruct Hp. }
    assert (forall c, hold_in (bw_book w) c = None) as Hno.
    { intros c. by rewrite <-(bk_holds _ _ Hok), lookup_empty. }
    split.
    + apply set_eq. intros c. specialize (Hno c). unfold hold_in in Hno. case_bool_decide; [done|set_solver].
    + intros c row Hrow. specialize (Hno c). unfold hold_in in Hno. rewrite Hrow in Hno.
      case_bool_decide; [done|]. by destruct (le_in_flight row).
Qed.

(** The conversation a thread waits for the pool to run a turn of. *)
Definition turn_of (p : option (BProg unit)) : option string :=
  match p with Some (BDo (BRunSticky c _ _) _) => Some c | _ => None end.

Lemma turn_of_Some p c : turn_of p = Some c -> exists request resume k, p = Some (BDo (BRunSticky c request resume) k).
Proof. destruct p as [[|X [] k]|]; try done. intros [= <-]. eauto. Qed.

(** C19. A conversation has at most one turn in the pool: in every reachable world, two
    threads that are waiting for the pool to run a turn of the same conversation are the
    same thread. *)
Theorem one_turn_per_conversation l w i j c
  (Hr : reached l w)
  (Hi : turn_of (bw_threads w !! i) = Some c)
  (Hj : turn_of (bw_threads w !! j) = Some c) :
  i = j.
Proof.
  apply turn_of_Some in Hi as (r1 & b1 & k1 & Hi). apply turn_of_Some in Hj as (r2 & b2 & k2 & Hj).
  apply world_ok_reached in Hr. destruct (decide (i = j)) as [|Hne]; [done|exfalso].
  assert (exists ps T, owns bthread_ok ps T /\ ps !! i = bw_threads w !! i /\ ps !! j = bw_threads w !! j)
    as (ps & T & Hown & Hpi & Hpj).
  { unfold world_ok in Hr. destruct (bw_owner w) as [o|]; [|naive_solver].
    destruct Hr as (p & R & F & Hp & Hth & Hown). exists (<[o := idle]> (bw_threads w)), F.
    assert (o <> i /\ o <> j) as [? ?].
    { split; intros ->; simplify_eq; by destruct Hth as [? _]. }
    by rewrite !list_lookup_insert_ne. }
  rewrite Hi in Hpi. rewrite Hj in Hpj.
  destruct (owns_two _ _ _ _ _ _ _ Hown Hpi Hpj Hne) as (R & S & (_ & [x Hx] & _) & (_ & [y Hy] & _) & Hd).
  by eapply map_disjoint_spec.
Qed.

(** *** Every request returns *)

Abbreviation step :=
  (fun w w' => exists tid a,
     do_bstep cfg config nfc str_debug sha256 to_string to_string_pretty from_slice from_str w (BAnswer tid a)
       = Some w').

(** Some thread moves on; which answer it got does not matter. *)
Definition lstep (ps ps' : list (BProg unit)) : Prop :=
  exists tid, match ps !! tid with
              | Some (BDo e k) => exists x, ps' = <[tid := k x]> ps
              | _ => False
              end.

Lemma lstep_cons_sn p : forall ps, sn lstep ps -> sn lstep (p :: ps).
Proof.
  induction p as [a|X e k IH]; intros ps Hps; induction Hps as [ps Hps IHps];
    constructor; intros ps' [[|tid] Ht]; simpl in Ht; try contradiction.
  2: { destruct Ht as [x ->]. apply IH. constructor. exact Hps. }
  all: case_match eqn:E; try contradiction; case_match; try contradiction; destruct Ht as [x ->].
  all: apply IHps; exists tid; rewrite E; exists x; reflexivity.
Qed.

Lemma lstep_sn ps : sn lstep ps.
Proof.
  induction ps as [|p ps IH]; [|by apply lstep_cons_sn].
  constructor. intros ps' [tid Ht]. contradiction.
Qed.

Lemma step_lstep w w' : step w w' -> lstep (bw_threads w) (bw_threads w').
Proof.
  intros (tid & a & Hs). cbn [do_bstep] in Hs. exists tid.
  destruct (bw_threads w !! tid) as [[|X e k]|]; [done| |done].
  destruct (do_beff _ _ _ _ _) as [[[x st] owner]|]; [|done]. injection Hs as <-. by exists x.
Qed.

Lemma step_sn w : sn step w.
Proof.
  remember (bw_threads w) as ps eqn:Hps. revert w Hps.
  induction (lstep_sn ps) as [ps _ IH]. intros w ->. constructor. intros w' Hs.
  eapply IH; [by apply step_lstep|done].
Qed.

Lemma passive_answer {X : Set} tid (e : BEff X) st owner :
  passive e = true -> exists a x, do_beff tid e a st owner = Some (x, st, owner).
Proof.
  destruct e; cbn [passive]; try done; intros _;
    [exists (BLeaseList [])|exists (BBool true)|exists BUnit|exists BUnit|exists (BSticky (Err session_busy_in_flight))
    |exists (BReleased (Ok tt))|exists (BHead (Err EmptyString))|exists (BBody (Err EmptyString))|exists (BNum 0)];
    eexists; reflexivity.
Qed.

Lemma thread_steps {X : Set} w tid (e : BEff X) k a x st owner :
  bw_threads w !! tid = Some (BDo e k) -> do_beff tid e a (bw_book w) (bw_owner w) = Some (x, st, owner) ->
  exists w', step w w'.
Proof. intros Ht Hs. exists (mkBWorld st owner (<[tid := k x]> (bw_threads w))), tid, a. cbn [do_bstep]. by rewrite Ht, Hs. Qed.

(** Nobody waits for a mutex that is never dropped. *)
Lemma world_progress w :
  world_ok w -> ~ Forall breturned (bw_threads w) -> exists w', step w w'.
Proof.
  intros Hw Hnot. unfold world_ok in Hw. destruct (bw_owner w) as [o|] eqn:Ho.
  - destruct Hw as (p & R & F & Hp & Hth & _). destruct p as [|X e k]; [by destruct Hth|].
    destruct (passive e) eqn:Ep.
    { destruct (passive_answer o e (bw_book w) (Some o) Ep) as (a & x & Ha).
      rewrite <-Ho in Ha. by eapply thread_steps. }
    destruct e; try done; [by destruct Hth|..].
    + eapply (thread_steps _ _ _ _ BUnit); [exact Hp|]. cbn. by rewrite Ho, Nat.eqb_refl.
    + destruct (section 0 (bw_book w)) as [y st1] eqn:Es.
      eapply (thread_steps _ _ _ _ (BNum 0)); [exact Hp|]. cbn. by rewrite Ho, Nat.eqb_refl, Es.
  - destruct Hw as (T & Hown & _). apply not_Forall_Exists in Hnot; [|apply _].
    apply Exists_exists in Hnot as (p & Hin & Hp). apply list_elem_of_lookup in Hin as [tid Ht].
    destruct p as [|X e k]; [by destruct Hp|].
    destruct (owns_split _ _ _ _ _ Hown Ht) as (R & F & _ & _ & Hth & _).
    destruct (passive e) eqn:Ep.
    { destruct (passive_answer tid e (bw_book w) None Ep) as (a & x & Ha).
      rewrite <-Ho in Ha. by eapply thread_steps. }
    destruct e; try done.
    + eapply (thread_steps _ _ _ _ BUnit); [exact Ht|]. cbn. by rewrite Ho.
    + by destruct Hth as (? & ? & ? & [=] & _).
    + by destruct Hth as (? & ? & [=] & _).
Qed.

Lemma world_ok_rtc w w' : world_ok w -> rtc step w w' -> world_ok w'.
Proof. intros Hw Hr. induction Hr as [|w w1 w' (tid & a & Hs) _ IH]; eauto using world_ok_step. Qed.

(** C29. Every request returns. From any reachable world, as long as the pool and the
    network answer and no new connection comes, every schedule is finite, and where it
    can go no further every request and sweep has returned: none waits for ever for the
    book's mutex. *)
Theorem every_request_returns l w (Hr : reached l w) :
  sn step w /\
  forall w', rtc step w w' -> (forall w'', ~ step w' w'') -> Forall breturned (bw_threads w').
Proof.
  split; [apply step_sn|]. intros w' Hrtc Hstuck.
  apply world_ok_reached in Hr. pose proof (world_ok_rtc _ _ Hr Hrtc) as Hw'.
  destruct (decide (Forall breturned (bw_threads w'))) as [|Hnot]; [done|].
  destruct (world_progress _ Hw' Hnot) as [w'' Hs]. by destruct (Hstuck w'').
Qed.
End Proofs.
