(* ===== verification/ConversationTurns.v ===== *)
(** * What a conversation's turns type and answer

    When a request of the Messages facade continues, replays or restarts its conversation
    ([classify_prefix] of [bin/pmuxd/src/conversation.rs]), that a continuation completes
    the history the cell has already seen, and that a request sent again after it was
    answered is answered from the book. *)

From S2P Require Import Prelude Text Protocol Account Class Config Composer Pool PoolProg PoolTheorems Messages Conversation ConversationProofs.

(** ** The decision *)

(** Two requests for the same kind of cell, with the same system prompt and tools. *)
Definition same_cell (previous next : ConversationFingerprint) : Prop :=
  pool_class_changed previous next = false /\ fp_system_tools previous = fp_system_tools next.

Lemma starts_with_spec pre l : starts_with pre l = true <-> exists more, l = pre ++ more.
Proof.
  revert l; induction pre as [|p pre IH]; intros l; cbn [starts_with app]; [naive_solver|].
  destruct l as [|x l]; [naive_solver|]. rewrite andb_true_iff, String.eqb_eq, IH. naive_solver.
Qed.

Lemma pool_class_changed_same f g :
  fp_model f = fp_model g -> fp_effort f = fp_effort g -> fp_account f = fp_account g ->
  pool_class_changed f g = false.
Proof.
  unfold pool_class_changed. intros -> -> ->. destruct (class_on _ _ _); by rewrite !bool_decide_eq_true_2.
Qed.

Lemma classify_prefix_refl f : classify_prefix f f = Replay.
Proof.
  unfold classify_prefix. by rewrite pool_class_changed_same, String.eqb_refl, bool_decide_eq_true_2.
Qed.

(** A conversation is continued exactly when the new request is for the same kind of
    cell with the same system prompt and tools, and its messages are the previous ones
    followed by at least one more, from which the continuation starts; it is replayed
    exactly when the messages are the same; in every other case it starts again. *)
Theorem classify_prefix_is_exact previous next :
  (forall from, classify_prefix previous next = Continue from <->
     same_cell previous next /\ from = length (fp_messages previous) /\
     exists more, more <> [] /\ fp_messages next = fp_messages previous ++ more) /\
  (classify_prefix previous next = Replay <->
     same_cell previous next /\ fp_messages next = fp_messages previous) /\
  (classify_prefix previous next = Reprime <->
     ~ (same_cell previous next /\ exists more, fp_messages next = fp_messages previous ++ more)).
Proof.
  unfold classify_prefix, same_cell. destruct (pool_class_changed previous next); [naive_solver|].
  destruct (String.eqb_spec (fp_system_tools previous) (fp_system_tools next)) as [Hs|Hs]; cbn [negb]; [|naive_solver].
  case_bool_decide as Hm.
  { rewrite Hm. split_and!; [|naive_solver|].
    - intros from. split; [done|]. intros (_ & _ & more & Hne & Heq).
      rewrite <-(app_nil_r (fp_messages previous)) in Heq at 1. by apply app_inv_head in Heq.
    - split; [done|]. intros []. split; [done|]. exists []. by rewrite app_nil_r. }
  destruct (starts_with (fp_messages previous) (fp_messages next)) eqn:E; cbn [andb].
  - apply starts_with_spec in E as [more Hmore].
    assert (more <> []) by (intros ->; rewrite app_nil_r in Hmore; done).
    destruct (Nat.ltb_spec (length (fp_messages previous)) (length (fp_messages next))) as [|Hle]; [naive_solver|].
    rewrite Hmore, length_app in Hle. destruct more; [done|cbn in Hle; lia].
  - assert (~ exists more, fp_messages next = fp_messages previous ++ more) as Hno.
    { rewrite <-starts_with_spec. congruence. }
    split_and!; [naive_solver| |naive_solver]. split; [done|]. intros [_ Heq]. congruence.
Qed.

(** ** What a continuation types *)

Section Continuation.
Variable sha256 : list N -> list N.
Variable to_string : json -> string.

Abbreviation fingerprint := (fingerprint_body_on sha256 to_string).

(** Roles are words: none has a newline in it. *)
Definition plain_role (message : json) : Prop := str_split_at NL (role_of message) = None.

(** The hash tells the messages of the two requests apart. *)
Definition no_collision (l1 l2 : list json) : Prop :=
  forall m1 m2, m1 ∈ l1 -> m2 ∈ l2 ->
    sha_hex sha256 (message_text to_string m1) = sha_hex sha256 (message_text to_string m2) ->
    message_text to_string m1 = message_text to_string m2.

Lemma message_text_renders m1 m2 :
  plain_role m1 -> plain_role m2 -> message_text to_string m1 = message_text to_string m2 ->
  render_message to_string m1 = render_message to_string m2.
Proof.
  unfold plain_role, message_text, render_message. intros H1 H2 Heq.
  assert (starts_once NL) as Hnl by (apply (bool_decide_unpack _); vm_compute; exact I).
  pose proof (str_split_at_first NL _ (render_content to_string (json_get "content" m1)) Hnl H1) as E1.
  pose proof (str_split_at_first NL _ (render_content to_string (json_get "content" m2)) Hnl H2) as E2.
  rewrite Heq in E1. rewrite E1 in E2. by injection E2 as -> ->.
Qed.

Lemma hashed_prefix_renders l1 : forall l2 more,
  no_collision l1 l2 -> Forall plain_role l1 -> Forall plain_role l2 ->
  (fun m => sha_hex sha256 (message_text to_string m)) <$> l2
    = ((fun m => sha_hex sha256 (message_text to_string m)) <$> l1) ++ more ->
  render_message to_string <$> take (length l1) l2 = render_message to_string <$> l1.
Proof.
  induction l1 as [|m1 l1 IH]; intros l2 more Hnc Hp1 Hp2 Heq; [done|].
  destruct l2 as [|m2 l2]; [done|]. apply Forall_cons in Hp1 as [Hm1 Hp1]. apply Forall_cons in Hp2 as [Hm2 Hp2].
  cbn in Heq. injection Heq as Hh Heq. cbn [length take fmap list_fmap]. f_equal.
  - symmetry. apply message_text_renders; [done..|]. apply Hnc; [by left|by left|done].
  - eapply IH; [|done|done|exact Heq]. intros a b Ha Hb. apply Hnc; by right.
Qed.

Lemma continuation_prompt_typed body from messages :
  json_get "messages" body ≫= as_array = Some messages -> (from < length messages)%nat ->
  is_Some (utf8_decode (bytes (continuation_text to_string (drop from messages)))) ->
  continuation_prompt to_string body from = Ok (sanitize_prompt (continuation_text to_string (drop from messages))).
Proof.
  intros Hm Hlt Hutf8. unfold continuation_prompt. rewrite Hm. cbn [ok_or result_bind].
  rewrite (proj2 (Nat.leb_gt _ _) Hlt). unfold sanitize_prompt, continuation_text in *.
  pose proof (chars_between "HISTORY:" (NL +:+ concat_str (render_message to_string <$> drop from messages))%string
                CONTINUE_LINE) as Hc.
  rewrite !string_app_assoc in Hc. rewrite Hc; [done| | |done];
    apply (bool_decide_unpack _); vm_compute; exact I.
Qed.

(** A continuation completes the history. When a request is classified as a
    continuation of the one before it (the hash telling their messages apart, and roles
    being single lines), the history of the new request is the history of the previous
    one followed by exactly the messages the continuation types: the cell has then seen
    what a fresh primer would have shown it. *)
Theorem continuation_completes_the_history before after model effort account from
  (Hclass : classify_prefix (fingerprint before model effort account) (fingerprint after model effort account)
            = Continue from)
  (Hnc : no_collision (messages_of before) (messages_of after))
  (Hbefore : Forall plain_role (messages_of before))
  (Hafter : Forall plain_role (messages_of after))
  (Hutf8 : is_Some (utf8_decode (bytes (continuation_text to_string (drop from (messages_of after)))))) :
  render_message to_string <$> messages_of after
    = (render_message to_string <$> messages_of before)
      ++ (render_message to_string <$> drop from (messages_of after)) /\
  drop from (messages_of after) <> [] /\
  continuation_prompt to_string after from
    = Ok (sanitize_prompt (continuation_text to_string (drop from (messages_of after)))).
Proof.
  revert Hclass. unfold classify_prefix. rewrite pool_class_changed_same by done.
  destruct (negb _); [done|]. case_bool_decide; [done|]. destruct (starts_with _ _) eqn:E; [|done].
  destruct (Nat.ltb_spec (length (fp_messages (fingerprint before model effort account)))
              (length (fp_messages (fingerprint after model effort account)))) as [Hlt|]; [|done].
  intros [= <-]. apply starts_with_spec in E as [more Hmore].
  cbn [fingerprint_body_on fp_messages] in *. rewrite !length_fmap in *.
  split_and!.
  - rewrite <-(hashed_prefix_renders _ _ _ Hnc Hbefore Hafter Hmore), <-fmap_app. by rewrite take_drop.
  - intros Hnil%(f_equal length). rewrite length_drop in Hnil. cbn in Hnil. lia.
  - apply continuation_prompt_typed; [|done|done]. unfold messages_of in *.
    destruct (json_get "messages" after ≫= as_array); [done|cbn in Hlt; lia].
Qed.
End Continuation.

(** ** A request sent again *)

(** One program run on its own against the book, its answers in order: the answer it
    gives and the book it leaves. *)
Fixpoint solo {A} (p : BProg A) (owner : option nat) (st : BookState) (answers : list BAns)
  : option (A * BookState) :=
  match p with
  | BRet a => match answers with [] => Some (a, st) | _ => None end
  | BDo e k =>
      match answers with
      | [] => None
      | a :: rest =>
          match do_beff 0 e a st owner with
          | Some (x, st', owner') => solo (k x) owner' st' rest
          | None => None
          end
      end
  end.

(** What holds of the result of every such run. *)
Definition after_eff {X : Set} (e : BEff X) (st : BookState) : (X -> BookState -> Prop) -> Prop :=
  match e in BEff X return (X -> BookState -> Prop) -> Prop with
  | BBook f => fun K => forall now, K (fst (f now st)) (snd (f now st))
  | _ => fun K => forall x, K x st
  end.

Fixpoint after {A} (p : BProg A) (st : BookState) (Q : A -> BookState -> Prop) : Prop :=
  match p with
  | BRet a => Q a st
  | BDo e k => after_eff e st (fun x st' => after (k x) st' Q)
  end.

Lemma after_eff_mono {X : Set} (e : BEff X) st (K K' : X -> BookState -> Prop) :
  (forall x st, K x st -> K' x st) -> after_eff e st K -> after_eff e st K'.
Proof. intros HK. destruct e; cbn [after_eff]; auto. Qed.

Lemma after_mono {A} (p : BProg A) st (Q Q' : A -> BookState -> Prop) :
  (forall a st, Q a st -> Q' a st) -> after p st Q -> after p st Q'.
Proof.
  intros HQ. revert st. induction p as [a|X e k IH]; intros st; cbn [after]; [auto|].
  apply after_eff_mono. auto.
Qed.

Lemma after_bind {A B} (p : BProg A) (k : A -> BProg B) st Q :
  after p st (fun a st' => after (k a) st' Q) -> after (bbind p k) st Q.
Proof.
  revert st. induction p as [a|X e c IH]; intros st; cbn [after bbind]; [done|].
  apply after_eff_mono. auto.
Qed.

Lemma after_try {A B E} (p : BProg (result A E)) (k : A -> BProg (result B E)) st (Q : result B E -> BookState -> Prop) :
  (forall e st, Q (Err e) st) ->
  after p st (fun r st' => match r with Ok a => after (k a) st' Q | Err _ => True end) ->
  after (btry p k) st Q.
Proof. intros HE H. apply after_bind. eapply after_mono; [|exact H]. by intros [a|e] st'; cbn [after]. Qed.

Lemma after_any {A} (p : BProg A) st : after p st (fun _ _ => True).
Proof.
  revert st. induction p as [a|X e k IH]; intros st; cbn [after]; [done|]. destruct e; cbn [after_eff]; auto.
Qed.

Lemma after_locked {A} (p : BProg A) st Q : after p st Q -> after (locked p) st Q.
Proof.
  intros H. unfold locked. cbn [bbind bperform after after_eff]. intros _.
  apply after_bind. eapply after_mono; [|exact H]. by intros a st' HQ [].
Qed.

Lemma solo_after {A} (p : BProg A) st owner answers a st' Q :
  after p st Q -> solo p owner st answers = Some (a, st') -> Q a st'.
Proof.
  revert st owner answers. induction p as [b|X e k IH]; intros st owner answers Hp; cbn [solo].
  - destruct answers; [|done]. by intros [= <- <-].
  - destruct answers as [|ans rest]; [done|].
    destruct (do_beff 0 e ans st owner) as [[[x st1] owner1]|] eqn:E; [|done]. apply IH.
    destruct e; cbn [do_beff after after_eff] in *; destruct ans; try done; try (simplify_eq; by auto).
    1, 2: by destruct owner as [[|o]|]; simplify_eq/=.
    destruct owner as [[|o]|]; [|done..]. cbn [Nat.eqb] in E. specialize (Hp n).
    destruct (section n st) as [y st2]. by injection E as <- <- <-.
Qed.

Section Retry.
Variable cfg : PoolConfig.
Variable config : ConversationConfig.
Variable nfc : list N -> list N.
Variable str_debug : string -> string.
Variable sha256 : list N -> list N.
Variable to_string : json -> string.
Variable to_string_pretty : list json -> result string string.

Abbreviation complete := (complete cfg config nfc str_debug sha256 to_string to_string_pretty).
Abbreviation understand := (understand cfg config str_debug sha256 to_string to_string_pretty).

(** The row that answers a request the way a turn answered it. *)
Definition remembers (st : BookState) (next : ConversationFingerprint) (turn : LeaseTurn) : Prop :=
  exists row, live st !! lt_conversation_id turn = Some row /\ le_in_flight row = false /\
    classify_prefix (le_fingerprint row) next = Replay /\
    le_last_result row = lt_result turn /\ le_cell row = lt_cell turn.

Definition answered (p : Planned) (r : result LeaseTurn ErrorBody) (st : BookState) : Prop :=
  match r with
  | Ok turn =>
      lt_conversation_id turn = pl_conversation_id p /\ lt_requested_model turn = pl_requested_model p /\
      remembers st (pl_next p) turn
  | Err _ => True
  end.

Lemma after_execute p body primer st : after (execute config nfc to_string p body primer) st (answered p).
Proof.
  unfold execute. apply after_try; [done|]. eapply after_mono; [|apply after_any].
  intros [[kind turn]|e] st' _; [|done]. apply after_bind, after_locked. intros now. cbn [after fst snd].
  split_and!; [done..|]. eexists. split; [apply lookup_insert_eq|]. cbn. by rewrite classify_prefix_refl.
Qed.

Lemma after_plan p ids st :
  after (plan config p ids) st (fun r st' =>
    match r with
    | Ok (inl p') => pl_conversation_id p' = pl_conversation_id p /\ pl_next p' = pl_next p /\
                     pl_requested_model p' = pl_requested_model p
    | Ok (inr turn) => answered p (Ok turn) st'
    | Err _ => True
    end).
Proof.
  assert (forall st, after (do!? _ := book (fun _ => reserve config (pl_conversation_id p)) in BRet (Ok (inl p))) st
    (fun r st' => match r with
    | Ok (inl p') => pl_conversation_id p' = pl_conversation_id p /\ pl_next p' = pl_next p /\
                     pl_requested_model p' = pl_requested_model p
    | Ok (inr turn) => answered p (Ok turn) st'
    | Err _ => True
    end)) as Hres.
  { intros st1. apply after_try; [done|]. eapply after_mono; [|apply after_any]. by intros [] ? _. }
  unfold plan. cbv zeta. intros _. cbn [fst snd bbind]. generalize (drop_orphans ids st). clear st. intros st _.
  cbn [fst snd bbind]. unfold look_up. destruct (live st !! pl_conversation_id p) as [row|] eqn:Hl; [|apply Hres].
  destruct (le_in_flight row) eqn:Hf; [done|].
  destruct (classify_prefix (le_fingerprint row) (pl_next p)) eqn:Hc.
  - by intros _ [].
  - intros []; [|intros _; apply Hres]. intros now. cbn [after fst snd answered].
    split_and!; [done..|]. exists (with_last_used now row). cbn. by rewrite lookup_alter_eq, Hl.
  - by intros _.
Qed.

Lemma after_complete headers body p primer st :
  understand headers body = Ok (p, primer) -> after (complete headers body) st (answered p).
Proof.
  intros Hu. unfold Conversation.complete. rewrite Hu. apply after_try; [done|]. cbn [after].
  apply after_bind. intros leases. apply after_try; [done|]. apply after_locked.
  eapply after_mono; [|apply after_plan]. intros [[p'|turn]|e] st' Hp; [|done..].
  destruct Hp as (Hid & Hnext & Hmodel). apply after_bind. eapply after_mono; [|apply after_execute].
  intros [turn|error] st2 Ha []; cbn [bbind after].
  - unfold answered in *. by rewrite <-Hid, <-Hnext, <-Hmodel.
  - eapply after_bind, after_mono; [|apply after_any]. done.
Qed.
(** The planning block on a row that answers the request. *)
Lemma plan_replays p ids st row n1 n2 n3 :
  live st !! pl_conversation_id p = Some row -> le_in_flight row = false ->
  classify_prefix (le_fingerprint row) (pl_next p) = Replay -> pl_conversation_id p ∈ ids ->
  exists st', forall (k : result (Planned + LeaseTurn) ErrorBody -> BProg (result LeaseTurn ErrorBody)) rest,
    solo (bbind (locked (plan config p ids)) k) None st (BUnit :: BNum n1 :: BNum n2 :: BBool true :: BNum n3 :: BUnit :: rest)
      = solo (k (Ok (inr (mkLeaseTurn (pl_conversation_id p) (le_cell row) Replayed (idle_ttl_ms config)
                            (pl_requested_model p) (le_last_result row))))) None st' rest.
Proof.
  intros Hl Hf Hc Hin. set (c := pl_conversation_id p) in *.
  assert (live (drop_orphans ids st) !! c = Some row) as Hl'.
  { unfold drop_orphans, set_live; cbn [live]. apply map_lookup_filter_Some. split; [done|]. by right. }
  assert (look_up c (pl_next p) (drop_orphans ids st) = RowReplay (le_cell row) (le_last_result row)) as Hlook.
  { unfold look_up. by rewrite Hl', Hf, Hc. }
  exists (set_live (alter (with_last_used n3) c) (drop_orphans ids st)). intros k rest.
  unfold locked, plan. cbv zeta. fold c.
  cbn [bbind bperform solo do_beff book book_update Nat.eqb fst snd].
  rewrite Hlook. cbn [bbind bperform solo do_beff book book_update Nat.eqb fst snd]. done.
Qed.

(** A request that was answered is answered the same again. After a successful
    completion, if the conversation's row has not changed and the pool still holds the
    conversation, the same request is answered from the book, with the same result,
    from the same cell, as a replay: no turn is run for it. *)
Theorem answered_request_is_replayed headers body st answers turn st' st2 leases n1 n2 n3
  (Hfirst : solo (complete headers body) None st answers = Some (Ok turn, st'))
  (Hrow : live st2 !! lt_conversation_id turn = live st' !! lt_conversation_id turn)
  (Hheld : lt_conversation_id turn ∈ cl_conversation_id <$> leases) :
  exists st3,
    solo (complete headers body) None st2
      [BLeaseList leases; BUnit; BNum n1; BNum n2; BBool true; BNum n3; BUnit]
    = Some (Ok (mkLeaseTurn (lt_conversation_id turn) (lt_cell turn) Replayed (idle_ttl_ms config)
                  (lt_requested_model turn) (lt_result turn)), st3).
Proof.
  destruct (understand headers body) as [[p primer]|e] eqn:Hu.
  2: { unfold Conversation.complete in Hfirst. rewrite Hu in Hfirst. by destruct answers. }
  pose proof (solo_after _ _ _ _ _ _ _ (after_complete _ _ _ _ st Hu) Hfirst)
    as (Hid & Hmodel & row & Hl & Hf & Hc & Hres & Hcell).
  rewrite Hid in *. rewrite <-Hres, <-Hcell, Hmodel.
  destruct (plan_replays p (list_to_set (cl_conversation_id <$> leases)) st2 row n1 n2 n3) as [st3 Hplan];
    [by rewrite Hrow|done|done|by apply elem_of_list_to_set|].
  exists st3. unfold Conversation.complete. rewrite Hu. unfold btry at 1. cbn [bbind].
  unfold pool_conversation_ids. cbn [bbind bperform solo do_beff]. unfold btry. rewrite Hplan. done.
Qed.
End Retry.

(** ** Concrete runs *)

Module BookDemo.

Definition book_config : ConversationConfig := mkConversationConfig 300000 2 false.

Definition text_message (text : string) : json :=
  jobj [("role", JStr "user"); ("content", JStr text)]%string.

Definition body_of (texts : list string) : json :=
  jobj [("model", JStr "claude-opus-5-high"); ("messages", JArr (text_message <$> texts))]%string.

(** The body of a connection is one byte here: how many messages the request has. *)
Definition demo_parser (body : list N) : result json string :=
  if bool_decide (body = [1]) then Ok (body_of ["hello"%string])
  else if bool_decide (body = [2]) then Ok (body_of ["hello"; "again"]%string)
  else Err "bad json"%string.

Definition demo_headers : list (string * string) :=
  [("x-api-key", "k"); ("x-pmux-conversation", "conv"); ("content-length", "1")]%string.

Definition demo_head : string :=
  ("POST /v1/messages HTTP/1.1" +:+ CRLF
   +:+ concat_str ((fun h => fst h +:+ ": " +:+ snd h +:+ CRLF) <$> demo_headers) +:+ CRLF)%string.

Definition to_text (_ : json) : string := "json".
Definition pretty_text (_ : list json) : result string string := Ok "[]"%string.
Definition no_calls (_ : string) : result json string := Err "not json"%string.

Abbreviation steps :=
  (do_bsteps Demo.config book_config (fun t => t) (fun s => s) (fun l => l) to_text pretty_text demo_parser no_calls).
Abbreviation complete_demo :=
  (complete Demo.config book_config (fun t => t) (fun s => s) (fun l => l) to_text pretty_text demo_headers).

Definition world_after (l : list BChoice) : BWorld := default bworld0 (steps bworld0 l).

Definition demo_result : StatelessResult :=
  {| sres_model := "claude-opus-5"; sres_reported_model := None; sres_effort := Some High; sres_text := "hi";
     sres_usage := {| ub_main := TokenUsage_default; ub_sidechain := TokenUsage_default;
                      ub_combined := TokenUsage_default; ub_cost_usd := None |};
     sres_stop_reason := None; sres_claude_version := "2.1.258" |}.

Definition demo_turn : result StickyTurn ErrorBody := Ok (mkStickyTurn demo_result "s0e0").

(** One connection up to the pool, and to its answer. *)
Definition up_to_the_pool : list BChoice :=
  BInvoke BConnection :: (BAnswer 0 <$>
    [BHead (Ok (demo_head, [])); BBody (Ok [1]); BLeaseList []; BUnit; BNum 1; BNum 2; BNum 3; BUnit]).

Definition to_the_answer : list BChoice :=
  up_to_the_pool ++ (BAnswer 0 <$> [BSticky demo_turn; BUnit; BNum 4; BUnit; BUnit; BNum 5]).

Definition reached_demo (l : list BChoice) : bool :=
  match steps bworld0 l with Some _ => true | None => false end.

Lemma demo_reached l : reached_demo l = true -> steps bworld0 l = Some (world_after l).
Proof. unfold reached_demo, world_after. by destruct (steps bworld0 l). Qed.

Lemma book_is_bounded_and_left_clean_witness :
  reserved (bw_book (world_after to_the_answer)) = ∅ /\
  forall c row, live (bw_book (world_after to_the_answer)) !! c = Some row -> le_in_flight row = false.
Proof.
  refine (proj2 (proj2 (book_is_bounded_and_left_clean Demo.config book_config (fun t => t) (fun s => s)
    (fun l => l) to_text pretty_text demo_parser no_calls _ to_the_answer (world_after to_the_answer) _) _)).
  - vm_compute. reflexivity.
  - apply demo_reached. vm_compute. reflexivity.
  - vm_compute. repeat constructor.
Defined.

(** A second connection for the same conversation, as far as it gets while the first one's
    turn is in the pool: it is answered without a turn of its own. *)
Definition second_connection : list BChoice :=
  up_to_the_pool ++ BInvoke BConnection :: (BAnswer 1 <$>
    [BHead (Ok (demo_head, [])); BBody (Ok [1]); BLeaseList []; BUnit; BNum 1; BNum 2; BNum 3; BUnit]).

Lemma one_turn_per_conversation_witness :
  let w := world_after second_connection in
  turn_of (bw_threads w !! 0%nat) = Some "conv"%string /\ is_Some (bw_threads w !! 1%nat) /\
  turn_of (bw_threads w !! 1%nat) <> Some "conv"%string.
Proof.
  assert (H0 : turn_of (bw_threads (world_after second_connection) !! 0%nat) = Some "conv"%string) by (vm_compute; reflexivity).
  split; [exact H0|]. split; [vm_compute; eauto|]. intros H1.
  enough (E : 0%nat = 1%nat) by discriminate E.
  eapply (one_turn_per_conversation Demo.config book_config (fun t => t) (fun s => s)
    (fun l => l) to_text pretty_text demo_parser no_calls _ second_connection (world_after second_connection));
    [apply demo_reached; vm_compute; reflexivity|exact H0|exact H1].
  Unshelve. vm_compute. reflexivity.
Defined.

Lemma every_request_returns_witness :
  sn (fun w w' => exists tid a,
        do_bstep Demo.config book_config (fun t => t) (fun s => s) (fun l => l) to_text pretty_text demo_parser
          no_calls w (BAnswer tid a) = Some w') (world_after up_to_the_pool).
Proof.
  refine (proj1 (every_request_returns Demo.config book_config (fun t => t) (fun s => s)
    (fun l => l) to_text pretty_text demo_parser no_calls _ up_to_the_pool (world_after up_to_the_pool) _)).
  - vm_compute. reflexivity.
  - apply demo_reached. vm_compute. reflexivity.
Defined.

Lemma continuation_completes_the_history_witness :
  drop 1 (messages_of (body_of ["hello"; "again"]%string)) <> [].
Proof.
  refine (proj1 (proj2 (continuation_completes_the_history (fun l => l) to_text (body_of ["hello"%string])
    (body_of ["hello"; "again"]%string) "claude-opus-5" (Some High) AccountName_DEFAULT 1 _ _ _ _ _))).
  - vm_compute. reflexivity.
  - intros m1 m2 H1 H2. change (messages_of (body_of ["hello"%string])) with [text_message "hello"] in H1.
    change (messages_of (body_of ["hello"; "again"]%string)) with [text_message "hello"; text_message "again"] in H2.
    apply list_elem_of_singleton in H1 as ->.
    apply elem_of_cons in H2 as [->|H2%list_elem_of_singleton]; [done|subst m2].
    intros H. exfalso. revert H. vm_compute. discriminate.
  - repeat constructor.
  - repeat constructor.
  - vm_compute. eauto.
Defined.

Definition first_answers : list BAns :=
  [BLeaseList []; BUnit; BNum 1; BNum 2; BNum 3; BUnit; BSticky demo_turn; BUnit; BNum 4; BUnit; BUnit].

Definition first_outcome : result LeaseTurn ErrorBody * BookState :=
  default (Err session_busy_in_flight, Book_new) (solo (complete_demo (body_of ["hello"%string])) None Book_new first_answers).

Lemma answered_request_is_replayed_witness :
  exists st3, solo (complete_demo (body_of ["hello"%string])) None (snd first_outcome)
      [BLeaseList [mkConversationLease "conv" "s0e0" "leased"]; BUnit; BNum 5; BNum 6; BBool true; BNum 7; BUnit]
    = Some (Ok (mkLeaseTurn "conv" "s0e0" Replayed 300000 "claude-opus-5-high" demo_result), st3).
Proof.
  apply (answered_request_is_replayed Demo.config book_config (fun t => t) (fun s => s) (fun l => l)
    to_text pretty_text demo_headers (body_of ["hello"%string]) Book_new first_answers
    (mkLeaseTurn "conv" "s0e0" Primed 300000 "claude-opus-5-high" demo_result) (snd first_outcome)).
  - vm_compute. reflexivity.
  - reflexivity.
  - by left.
Defined.

(** A turn fails in the pool; before its clean-up has released the conversation, a second
    connection primes it again and is answered. *)
Definition late_release : list BChoice :=
  up_to_the_pool ++ (BAnswer 0 <$> [BSticky (Err (ErrorBody_new TurnTimeout "late")); BUnit; BUnit; BNum 4; BUnit])
  ++ BInvoke BConnection :: (BAnswer 1 <$>
       [BHead (Ok (demo_head, [])); BBody (Ok [1]); BLeaseList []; BUnit; BNum 5; BNum 6; BNum 7; BUnit;
        BSticky demo_turn; BUnit; BNum 8; BUnit; BUnit; BNum 9]).

(** The clean-up of a failed turn ([recover_failed_turn]) releases the conversation by its
    name after it has dropped the book's mutex, so it can end a lease that a later request
    of the same conversation has been answered from in the meantime. *)
Theorem failed_turn_can_release_a_later_lease :
  reached_demo late_release = true /\
  (exists k, bw_threads (world_after late_release) !! 0%nat = Some (BDo (BRelease "conv") k)) /\
  breturned (default idle (bw_threads (world_after late_release) !! 1%nat)) /\
  (le_in_flight <$> live (bw_book (world_after late_release)) !! "conv"%string) = Some false.
Proof. split_and!; [vm_compute; reflexivity|vm_compute; eauto|exact I|vm_compute; reflexivity]. Qed.

(** Role and content are joined by a newline before they are hashed, so two messages of
    different content can have the same hash when a role has a newline in it. *)
Theorem fingerprint_confuses_multiline_roles :
  let a := jobj [("role", JStr ("user" +:+ NL +:+ "x")); ("content", JStr "y")]%string in
  let b := jobj [("role", JStr "user"); ("content", JStr ("x" +:+ NL +:+ "y"))]%string in
  message_text to_text a = message_text to_text b /\ render_message to_text a <> render_message to_text b.
Proof. split; vm_compute; [reflexivity|discriminate]. Qed.

End BookDemo.
