(* ===== verification/Session.v ===== *)
(** * The session messages of the wire protocol

    The types of [crates/protocol/src/v1.rs] that the session actor keeps, publishes and
    answers with. An id is the number of its UUID; a [u64] or [usize] is a natural number
    below [2^64]. *)

From S2P Require Import Prelude Text Protocol.

Definition SessionId : Set := N.
Definition SessionGenerationId : Set := N.
Definition TurnId : Set := N.
Definition TimestampMs : Set := N.

Definition MAX_NATIVE_FRAME_BYTES : N := 8 * 1024 * 1024.

Module S.
Inductive SessionState :=
| Creating | Booting | Ready | Submitting | AwaitingPromptAck | Running | NeedsInput
| TerminalCandidate | Draining | Cancelling | Tainted | Closing | Closed | Failed.
End S.

#[global] Instance SessionState_eq_dec : EqDecision S.SessionState.
Proof. solve_decision. Defined.

Inductive SessionCell := Full | Minified.

#[global] Instance SessionCell_eq_dec : EqDecision SessionCell.
Proof. solve_decision. Defined.

Inductive TerminalProfile := Transparent | RmuxStandard.
Inductive InputTransport := Auto | Sdk | AttachedStream.

Record CompatibilityReport := mkCompatibility {
  cr_claude_version : string;
  cr_os : string;
  cr_arch : string;
  cr_terminal_profile : TerminalProfile;
  cr_input_transport : InputTransport;
  cr_tested : bool;
  cr_unpromoted : bool;
  cr_transcript_drain_ms : N;
}.

Record SessionAgentPin := mkAgentPin { ap_agent_id : N; ap_version : N; ap_config_digest : string }.

Inductive DisconnectAction := ContinueTurn | CancelTurn | CloseSession.

Record TurnLeasePolicy := mkLeasePolicy {
  on_disconnect : DisconnectAction;
  heartbeat_timeout_ms : option N;
}.

Record TurnRequest := mkTurnRequest {
  tr_turn_id : TurnId;
  tr_prompt : list N;
  tr_deadline_unix_ms : option TimestampMs;
  tr_lease : TurnLeasePolicy;
}.

Record TurnAccepted := mkTurnAccepted {
  ta_session_id : SessionId;
  ta_generation_id : SessionGenerationId;
  ta_turn_id : TurnId;
  ta_replayed : bool;
  ta_state : S.SessionState;
  ta_next_sequence : N;
}.

Inductive TurnOutcome := OutcomeCompleted | OutcomeCancelled | OutcomeFailed.

Inductive MessageBlock :=
| MbText (text : string)
| MbToolUse (id name : string) (input : json)
| MbToolResult (tool_use_id : string) (content : json) (is_error : bool)
| MbUnknown (block_type : string) (data : json).

Inductive ToolStatus := ToolRequested | ToolDone | ToolFailed | ToolCancelled.

Record ToolReport := mkToolReport {
  tl_tool_use_id : string;
  tl_name : string;
  tl_input : json;
  tl_output : option json;
  tl_status : ToolStatus;
  tl_started_at_ms : option TimestampMs;
  tl_completed_at_ms : option TimestampMs;
}.

Definition UsageBreakdown_default : UsageBreakdown :=
  {| ub_main := TokenUsage_default; ub_sidechain := TokenUsage_default;
     ub_combined := TokenUsage_default; ub_cost_usd := None |}.

Record TurnTimings := mkTimings {
  tt_submitted_at_ms : TimestampMs;
  tt_prompt_acknowledged_at_ms : option TimestampMs;
  tt_terminal_candidate_at_ms : option TimestampMs;
  tt_completed_at_ms : TimestampMs;
  tt_drain_ms : option N;
  tt_last_transcript_activity_at_ms : option TimestampMs;
  tt_stop_hook_at_ms : option TimestampMs;
  tt_turn_duration_observed_at_ms : option TimestampMs;
  tt_post_turn_duration_row_observed_at_ms : option TimestampMs;
}.

Inductive CompletionAuthority : Set := TranscriptAuthority.

Record CompletionProvenance := mkProvenance {
  cp_authority : CompletionAuthority;
  cp_prompt_acknowledged : bool;
  cp_terminal_message_observed : bool;
  cp_terminal_prompt_observed : bool;
  cp_terminal_quiet_observed : bool;
  cp_transcript_drained : bool;
  cp_lifecycle_hook_observed : bool;
}.

Record ProtocolWarning := mkWarning { pw_code : string; pw_message : string; pw_details : json }.

Record TurnResult := mkTurnResult {
  res_session_id : SessionId;
  res_generation_id : SessionGenerationId;
  res_turn_id : TurnId;
  res_outcome : TurnOutcome;
  res_text : string;
  res_final_blocks : list MessageBlock;
  res_tools : list ToolReport;
  res_model : option string;
  res_stop_reason : option StopReason;
  res_usage : UsageBreakdown;
  res_sidechain_rows : N;
  res_timings : TurnTimings;
  res_warnings : list ProtocolWarning;
  res_claude_version : string;
  res_compatibility : CompatibilityReport;
  res_completion : CompletionProvenance;
  res_final_sequence : N;
}.

Definition with_final_sequence (n : N) (r : TurnResult) : TurnResult :=
  mkTurnResult (res_session_id r) (res_generation_id r) (res_turn_id r) (res_outcome r) (res_text r)
    (res_final_blocks r) (res_tools r) (res_model r) (res_stop_reason r) (res_usage r)
    (res_sidechain_rows r) (res_timings r) (res_warnings r) (res_claude_version r)
    (res_compatibility r) (res_completion r) n.

Record TurnSummary := mkTurnSummary {
  ts_turn_id : TurnId;
  ts_outcome : TurnOutcome;
  ts_completed_at_ms : TimestampMs;
  ts_final_sequence : N;
}.

Inductive NeedsInputKind := KindTrust | KindLogin | KindPermission | KindUpdate | KindQuota | KindUnknownModal.

#[global] Instance NeedsInputKind_eq_dec : EqDecision NeedsInputKind.
Proof. solve_decision. Defined.

Record NeedsInputInfo := mkNeedsInput { ni_kind : NeedsInputKind; ni_message : string; ni_details : json }.

Inductive CancelOutcome := CancelDone | CancelAlreadyTerminal | CancelRecoveryFailed.

Record CancelTurnResult := mkCancelResult {
  ctr_session_id : SessionId;
  ctr_generation_id : SessionGenerationId;
  ctr_turn_id : TurnId;
  ctr_outcome : CancelOutcome;
  ctr_session_state : S.SessionState;
}.

Inductive ClosePolicy := Graceful | Force.

Record CloseSessionResult := mkCloseResult {
  csr_session_id : SessionId;
  csr_generation_id : SessionGenerationId;
  csr_already_closed : bool;
  csr_process_reaped : bool;
}.

Record ClearSessionResult := mkClearResult {
  clr_session_id : SessionId;
  clr_generation_id : SessionGenerationId;
  clr_transcript_session_id : SessionId;
  clr_rotated : bool;
  clr_state : S.SessionState;
}.

Record SessionHandle := mkSessionHandle {
  sh_session_id : SessionId;
  sh_generation_id : SessionGenerationId;
  sh_state : S.SessionState;
  sh_compatibility : CompatibilityReport;
  sh_created_at_ms : TimestampMs;
  sh_last_sequence : N;
  sh_agent : option SessionAgentPin;
}.

Record SessionSnapshot := mkSnapshot {
  ss_session_id : SessionId;
  ss_generation_id : SessionGenerationId;
  ss_transcript_session_id : SessionId;
  ss_cell : SessionCell;
  ss_state : S.SessionState;
  ss_cwd : string;
  ss_active_turn_id : option TurnId;
  ss_claude_version : option string;
  ss_compatibility : CompatibilityReport;
  ss_created_at_ms : TimestampMs;
  ss_updated_at_ms : TimestampMs;
  ss_idle_deadline_ms : option TimestampMs;
  ss_resumable : bool;
  ss_last_sequence : N;
  ss_last_turn : option TurnSummary;
  ss_needs_input : option NeedsInputInfo;
  ss_agent : option SessionAgentPin;
}.

Record ReplayGap := mkReplayGap {
  rg_requested_after : N;
  rg_oldest_available : N;
  rg_next_sequence : N;
  rg_snapshot : SessionSnapshot;
}.

Inductive MessageScope := ScopeMain | ScopeSidechain | ScopeTeam | ScopeMetadata.

Record LogicalMessage := mkLogicalMessage {
  lm_message_id : string;
  lm_request_id : option string;
  lm_scope : MessageScope;
  lm_blocks : list MessageBlock;
  lm_model : option string;
  lm_stop_reason : option StopReason;
  lm_usage : option TokenUsage;
  lm_terminal : bool;
}.

Inductive RateLimitStatus := RateAllowed | RateRejected | RateUnknown.

(** The payload structs with few fields are the arguments of their constructor. *)
Inductive EventPayload :=
| SessionStateChanged (previous current : S.SessionState) (reason : option string)
| PromptAcknowledged (prompt_uuid : string) (prompt_id : option string) (transcript_offset : N)
| LogicalMessageEvent (message : LogicalMessage)
| ToolStarted (tool_use_id name : string) (input : json)
| ToolCompleted (tool_use_id : string) (output : json) (is_error : bool)
| RateLimit (status : RateLimitStatus) (resets_at_ms : option TimestampMs) (message : option string)
| NeedsInputEvent (info : NeedsInputInfo)
| TerminalCandidateEvent (message_id : string) (stop_reason : option StopReason)
| TurnCompleted (result : TurnResult)
| TurnCancelled (outcome : CancelOutcome) (recovered_to_ready : bool)
| TurnFailed (error : ErrorBody)
| Warning (warning : ProtocolWarning)
| ReplayGapEvent (gap : ReplayGap)
| Heartbeat (session_state : S.SessionState).

Definition PROTOCOL_VERSION : N := 1.

Record EventEnvelope := mkEvent {
  ev_schema_version : N;
  ev_session_id : SessionId;
  ev_generation_id : SessionGenerationId;
  ev_turn_id : option TurnId;
  ev_sequence : N;
  ev_timestamp_ms : TimestampMs;
  ev_event : EventPayload;
}.

Definition EventEnvelope_new (session_id : SessionId) (generation_id : SessionGenerationId)
    (turn_id : option TurnId) (sequence : N) (timestamp_ms : TimestampMs) (event : EventPayload) : EventEnvelope :=
  mkEvent PROTOCOL_VERSION session_id generation_id turn_id sequence timestamp_ms event.

Record EventBatch := mkEventBatch {
  bt_events : list EventEnvelope;
  bt_next_sequence : N;
  bt_replay_gap : option ReplayGap;
}.
