(* ===== verification/Screen.v ===== *)
(** * Terminal screens

    What [crates/service/src/driver_io.rs] reads off a captured frame: where the composer
    is, what it holds, whether the screen is ready, blocked on a person, recognised as
    something else or not recognised at all, and whether the highlighted entry of the
    command menu is the command pmux typed. The frames themselves are the structs of
    [crates/rmux/src/backend.rs]. Text is a list of scalar values; a row or column is a
    [u16], and a conversion that does not fit fails as it does there. *)

From S2P Require Import Prelude Text Protocol Composer Session.

Definition U16_MAX : N := 65535.

(** ** Frames *)

Record TerminalCursor := mkCursor { cur_row : N; cur_col : N; cur_visible : bool; cur_style : N }.

#[global] Instance TerminalCursor_eq_dec : EqDecision TerminalCursor.
Proof. solve_decision. Defined.

Record TerminalSnapshot := mkSnapshotOf {
  sn_revision : N;
  sn_rows : N;
  sn_cols : N;
  sn_cursor : option TerminalCursor;
  sn_visible_text : list N;
}.

#[global] Instance TerminalSnapshot_eq_dec : EqDecision TerminalSnapshot.
Proof. solve_decision. Defined.

Inductive CellColor := Unstyled | Explicit (encoded : Z).

#[global] Instance CellColor_eq_dec : EqDecision CellColor.
Proof. solve_decision. Defined.

Definition is_styled (c : CellColor) : bool := match c with Explicit _ => true | Unstyled => false end.

Record StyledCell := mkCell { cl_text : list N; cl_foreground : CellColor; cl_padding : bool }.

Record StyledScreen := mkStyled {
  sc_revision : N;
  sc_rows : N;
  sc_cols : N;
  sc_cursor : option TerminalCursor;
  sc_cells : list (list StyledCell);
}.

Definition SPACE : N := 32.

Definition render_cells_lossy (cells : list StyledCell) : list N :=
  trim_end_matches (fun c => c =? SPACE)
    (concat (cl_text <$> filter (fun cell => cl_padding cell = false) cells)).

Definition screen_row (s : StyledScreen) (row : N) : list StyledCell :=
  default [] (sc_cells s !! N.to_nat row).

Definition row_text (s : StyledScreen) (row : N) : list N := render_cells_lossy (screen_row s row).

(** The rows of the range [lo..hi]. *)
Definition row_range (lo hi : N) : list N := N.of_nat <$> seq (N.to_nat lo) (N.to_nat hi - N.to_nat lo).

Fixpoint join_lines (l : list (list N)) : list N :=
  match l with
  | [] => []
  | [x] => x
  | x :: l => x ++ NEWLINE :: join_lines l
  end.

Definition visible_text (s : StyledScreen) : list N :=
  join_lines (row_text s <$> row_range 0 (sc_rows s)).

Definition to_terminal_snapshot (s : StyledScreen) : TerminalSnapshot :=
  mkSnapshotOf (sc_revision s) (sc_rows s) (sc_cols s) (sc_cursor s) (visible_text s).

(** ** Lines *)

(** [str::split] on a line feed: never empty. *)
Fixpoint split_lines (t : list N) : list (list N) :=
  match t with
  | [] => [[]]
  | c :: t =>
      if c =? NEWLINE then [] :: split_lines t
      else match split_lines t with
           | [] => [[c]]
           | line :: lines => (c :: line) :: lines
           end
  end.

Definition is_blank (line : list N) : bool := forallb is_whitespace line.

(** [Iterator::rposition]. *)
Fixpoint rposition {A} (p : A -> bool) (l : list A) : option nat :=
  match l with
  | [] => None
  | x :: l =>
      match rposition p l with
      | Some i => Some (S i)
      | None => if p x then Some 0%nat else None
      end
  end.

Fixpoint starts_with (pre t : list N) : bool :=
  match pre, t with
  | [], _ => true
  | _, [] => false
  | p :: pre, c :: t => (p =? c) && starts_with pre t
  end.

Fixpoint contains (needle t : list N) : bool :=
  starts_with needle t || match t with [] => false | _ :: t => contains needle t end.

Definition to_u16 (n : N) : option N := if n <=? U16_MAX then Some n else None.

(** ** The shape of a frame *)

Definition PROMPT_GLYPH : N := 10095.

Record ScreenShape := mkShape {
  sp_revision_nonzero : bool;
  sp_rows : N;
  sp_cols : N;
  sp_cursor_present : bool;
  sp_cursor_visible : bool;
  sp_line_count : N;
  sp_non_empty_line_count : N;
  sp_contains_prompt_glyph : bool;
}.

Definition ScreenShape_of (s : TerminalSnapshot) : ScreenShape :=
  let lines := split_lines (sn_visible_text s) in
  mkShape (negb (sn_revision s =? 0)) (sn_rows s) (sn_cols s)
    (bool_decide (is_Some (sn_cursor s)))
    (match sn_cursor s with Some c => cur_visible c | None => false end)
    (N.of_nat (length lines))
    (N.of_nat (length (List.filter (fun l => negb (is_blank l)) lines)))
    (contains [PROMPT_GLYPH] (sn_visible_text s)).

Definition diagnostic_u64 (value : N) : json :=
  if value <=? MAX_SAFE_JSON_INTEGER then JNum value else JStr (pretty value).

Definition shape_json (s : ScreenShape) : json :=
  jobj [("revision_nonzero", JBool (sp_revision_nonzero s)); ("rows", JNum (sp_rows s)); ("cols", JNum (sp_cols s));
        ("cursor_present", JBool (sp_cursor_present s)); ("cursor_visible", JBool (sp_cursor_visible s));
        ("line_count", diagnostic_u64 (sp_line_count s));
        ("non_empty_line_count", diagnostic_u64 (sp_non_empty_line_count s));
        ("contains_prompt_glyph", JBool (sp_contains_prompt_glyph s))]%string.

(** ** The composer *)

Definition MAX_RENDERED_ROWS_BELOW_ACTIVE_CURSOR : N := 4.

(** What stands before the first prompt glyph and after it. *)
Fixpoint split_at_glyph (line : list N) : option (list N * list N) :=
  match line with
  | [] => None
  | c :: line =>
      if c =? PROMPT_GLYPH then Some ([], line)
      else match split_at_glyph line with Some (pre, post) => Some (c :: pre, post) | None => None end
  end.

Definition prompt_glyph_split (line : list N) : option (N * list N) :=
  '(prefix, suffix) ← split_at_glyph line;
  if negb (forallb is_whitespace prefix) then None
  else match suffix with
       | [] => col ← to_u16 (N.of_nat (length prefix)); Some (col, [])
       | separator :: rest =>
           if is_whitespace separator
           then col ← to_u16 (N.of_nat (length prefix)); Some (col, rest)
           else None
       end.

Definition prompt_glyph_col (line : list N) : option N := fst <$> prompt_glyph_split line.

Record EditorSignature := mkSignature {
  es_rendered_rows : list (list N);
  es_cursor_row_from_anchor : N;
  es_cursor_col_from_prompt : N;
}.

#[global] Instance EditorSignature_eq_dec : EqDecision EditorSignature.
Proof. solve_decision. Defined.

Record ActiveEditor := mkEditor {
  ed_signature : EditorSignature;
  ed_anchor_row : N;
  ed_cursor_row : N;
  ed_prompt_col : N;
  ed_empty_cursor_position : bool;
}.

(** The last line at or above [row] that opens a composer. *)
Fixpoint find_anchor (lines : list (list N)) (row : nat) : option (nat * N) :=
  match lines !! row ≫= prompt_glyph_col with
  | Some col => Some (row, col)
  | None => match row with O => None | S row => find_anchor lines row end
  end.

(** The lines [first..=last]. *)
Definition line_range {A} (first last : nat) (lines : list A) : list A :=
  take (S last - first) (drop first lines).

Definition active_editor (s : TerminalSnapshot) : option ActiveEditor :=
  cursor ← sn_cursor s;
  if (sn_revision s =? 0) || negb (cur_visible cursor) || (sn_rows s <=? cur_row cursor)
     || (sn_cols s <=? cur_col cursor)
  then None
  else
    let lines := split_lines (sn_visible_text s) in
    if negb (N.of_nat (length lines) =? sn_rows s) then None
    else
      let cursor_row := N.to_nat (cur_row cursor) in
      last_rendered_row ← rposition (fun l => negb (is_blank l)) lines;
      if (last_rendered_row <? cursor_row)%nat
         || (MAX_RENDERED_ROWS_BELOW_ACTIVE_CURSOR <? N.of_nat (last_rendered_row - cursor_row))
      then None
      else
        '(anchor_row, prompt_col) ← find_anchor lines cursor_row;
        cursor_row_from_anchor ← to_u16 (N.of_nat (cursor_row - anchor_row));
        cursor_col_from_prompt ←
          (if (cursor_row =? anchor_row)%nat then checked_sub (cur_col cursor) prompt_col
           else Some (cur_col cursor));
        if (cursor_row =? anchor_row)%nat && (cursor_col_from_prompt <? 2) then None
        else
          anchor ← to_u16 (N.of_nat anchor_row);
          Some (mkEditor
            (mkSignature (line_range anchor_row cursor_row lines) cursor_row_from_anchor cursor_col_from_prompt)
            anchor (cur_row cursor) prompt_col
            ((cursor_row_from_anchor =? 0) && (cursor_col_from_prompt =? 2))).

Definition composer_head (editor : ActiveEditor) : option (list N) :=
  row ← head (es_rendered_rows (ed_signature editor));
  '(column, head) ← prompt_glyph_split row;
  if column =? ed_prompt_col editor then Some head else None.

Definition continuation_content (gutter : nat) (row : list N) : option (list N) :=
  if forallb is_whitespace (take gutter row) then Some (drop gutter row) else None.

Definition composer_rows (editor : ActiveEditor) : option (list (list N)) :=
  head ← composer_head editor;
  match es_rendered_rows (ed_signature editor) with
  | [] => None
  | first :: rest =>
      rows ← mapM (continuation_content (length first - length head)) rest;
      Some (head :: rows)
  end.

Record ScreenGeometry := mkGeometry {
  sg_anchor_row : N;
  sg_cursor_row : N;
  sg_prompt_col : N;
  sg_cursor_row_from_anchor : N;
  sg_cursor_col_from_prompt : N;
  sg_last_rendered_row : N;
  sg_rendered_rows_below_cursor : N;
  sg_empty_cursor_position : bool;
}.

Definition screen_geometry (s : TerminalSnapshot) : option ScreenGeometry :=
  editor ← active_editor s;
  last ← rposition (fun l => negb (is_blank l)) (split_lines (sn_visible_text s));
  last_rendered_row ← to_u16 (N.of_nat last);
  Some (mkGeometry (ed_anchor_row editor) (ed_cursor_row editor) (ed_prompt_col editor)
          (es_cursor_row_from_anchor (ed_signature editor)) (es_cursor_col_from_prompt (ed_signature editor))
          last_rendered_row (last_rendered_row - ed_cursor_row editor) (ed_empty_cursor_position editor)).

(** ** Screens that wait for a person *)

Definition typed_needs_input (kind : NeedsInputKind) : NeedsInputInfo :=
  mkNeedsInput kind
    (match kind with
     | KindTrust => "Claude requires workspace trust confirmation"
     | KindLogin => "Claude requires interactive login"
     | KindPermission => "Claude requires a permission decision"
     | KindUpdate => "Claude requires interactive update input"
     | KindQuota => "Claude requires quota or rate-limit input"
     | KindUnknownModal => "Claude requires interactive input"
     end)%string JNull.

Definition blocking_screen (visible_text : list N) : option NeedsInputInfo :=
  let lower := ascii_lower <$> visible_text in
  let says (s : string) := contains (text_of s) lower in
  if says "do you trust the files" || says "trust this folder" || says "trust this directory"
  then Some (typed_needs_input KindTrust)
  else if (says "log in to claude" || says "login to claude" || says "not logged in")
          || says "authentication required" && says "claude"
  then Some (typed_needs_input KindLogin)
  else if says "update required" || says "please update claude code"
          || says "new version of claude code is required"
  then Some (typed_needs_input KindUpdate)
  else if says "usage limit exceeded" || says "usage limit reached"
          || (says "rate limit" && (says "exceeded" || says "reached"))
          || (says "quota" && (says "exceeded" || says "reached"))
  then Some (typed_needs_input KindQuota)
  else if says "permission" && (says "allow" || says "deny") || says "allow this tool"
          || (says "do you want to proceed" && says "yes" && says "no")
  then Some (typed_needs_input KindPermission)
  else if says "esc to cancel"
          && (says "enter to confirm" || says "enter to select" || says "press enter"
              || says "yes" && says "no")
  then Some (typed_needs_input KindUnknownModal)
  else None.

(** ** The verdict on a frame *)

Inductive RecognisedScreen := NoFrameYet | ComposerHoldingText.

Definition recognised_label (r : RecognisedScreen) : string :=
  match r with NoFrameYet => "no_frame_yet" | ComposerHoldingText => "composer_holding_text" end.

Inductive TerminalScreenState :=
| StReady
| StNeedsInput (info : NeedsInputInfo)
| StRecognised (screen : RecognisedScreen)
| StUnrecognised (shape : ScreenShape).

Definition state_label (s : TerminalScreenState) : string :=
  match s with
  | StReady => "ready"
  | StNeedsInput _ => "needs_input"
  | StRecognised r => recognised_label r
  | StUnrecognised _ => "unrecognised"
  end.

(** The test-only fallback for a frame without a cursor is not part of the program. *)
Definition classify_terminal_snapshot (s : TerminalSnapshot) : TerminalScreenState :=
  if sn_revision s =? 0 then StRecognised NoFrameYet
  else match sn_cursor s with
  | None =>
      match blocking_screen (sn_visible_text s) with
      | Some info => StNeedsInput info
      | None => StUnrecognised (ScreenShape_of s)
      end
  | Some _ =>
      match active_editor s with
      | Some editor =>
          if ed_empty_cursor_position editor then StReady else StRecognised ComposerHoldingText
      | None =>
          match blocking_screen (sn_visible_text s) with
          | Some info => StNeedsInput info
          | None => StUnrecognised (ScreenShape_of s)
          end
      end
  end.

Definition is_ready (s : TerminalScreenState) : bool := match s with StReady => true | _ => false end.
Definition is_modal (s : TerminalScreenState) : bool := match s with StNeedsInput _ => true | _ => false end.

(** Whether the fenced composer now holds the prompt. *)
Definition rendered_prompt_is_proven (s : TerminalSnapshot) (baseline_revision : N) (baseline : ActiveEditor)
    (prompt : list N) : bool :=
  match active_editor s with
  | None => false
  | Some editor =>
      let rows_are_this_prompt :=
        bool_decide (is_Some (rows ← composer_rows editor; composer_render_proof rows prompt)) in
      let same_editor_geometry :=
        (ed_prompt_col editor =? ed_prompt_col baseline)
        && (((ed_cursor_row editor =? ed_cursor_row baseline) && (ed_anchor_row editor <=? ed_anchor_row baseline))
            || ((ed_anchor_row editor =? ed_anchor_row baseline) && (ed_cursor_row baseline <=? ed_cursor_row editor))) in
      negb (sn_revision s =? 0) && negb (sn_revision s =? baseline_revision)
      && ed_empty_cursor_position baseline && negb (ed_empty_cursor_position editor)
      && same_editor_geometry && rows_are_this_prompt
  end.
