(* ===== verification/Backend.v ===== *)
(** * What the session actor asks of its terminal and its transcript

    [crates/service/src/v1/backend.rs]: the failures a driver reports, what it answers
    about the screen, the transcript and the end of a turn, and how long a transcript has
    to stand still before a turn may end; the admissibility checks of the minified cell's
    shorter wait, from [minified.rs]. *)

From S2P Require Import Prelude Text Protocol Composer Transcript Session Screen.

Record DriverFailure := mkDriverFailure {
  df_code : ErrorCode;
  df_message : string;
  df_retryable : bool;
  df_details : json;
}.

Definition DriverFailure_new (code : ErrorCode) (message : string) : DriverFailure :=
  mkDriverFailure code message false JNull.

Definition df_with_retryable (retryable : bool) (f : DriverFailure) : DriverFailure :=
  mkDriverFailure (df_code f) (df_message f) retryable (df_details f).

Definition df_with_details (details : json) (f : DriverFailure) : DriverFailure :=
  mkDriverFailure (df_code f) (df_message f) (df_retryable f) details.

(** ** Clocks *)

Definition INVALID_CLOCK_TIMESTAMP : TimestampMs := MAX_SAFE_JSON_INTEGER + 1.

(** The elapsed time is absent when the clock stands before the epoch. *)
Definition protocol_clock_milliseconds (milliseconds : option N) : TimestampMs :=
  default INVALID_CLOCK_TIMESTAMP
    (value ← milliseconds;
     if (value <=? U64_MAX) && (value <=? MAX_SAFE_JSON_INTEGER) then Some value else None).

(** ** The terminal *)

Record TerminalEvidence := mkEvidence {
  te_ready_prompt : bool;
  te_quiet : bool;
  te_lifecycle_expected : bool;
  te_lifecycle_hook_observed : bool;
  te_lifecycle_hook_at_ms : option N;
}.

Definition TerminalEvidence_default : TerminalEvidence := mkEvidence false false false false None.

Inductive TerminalScreenObservation :=
| ScreenReady
| ScreenNeedsInput (info : NeedsInputInfo)
| ScreenRecognised (screen : RecognisedScreen)
| ScreenUnrecognised (shape : ScreenShape).

Definition UNRECOGNISED_SCREEN_VETO_MS : N := 30000.

Inductive InterruptRecovery := RecoveredToReady | InterruptFailed.

(** ** The transcript *)

Record TranscriptPosition := mkPosition { pos_generation : N; pos_offset : N }.

#[global] Instance TranscriptPosition_eq_dec : EqDecision TranscriptPosition.
Proof. solve_decision. Defined.

Record TranscriptArm := mkArm { arm_position : TranscriptPosition; arm_historical_rows : list ParsedRow }.

Record TranscriptDrainEvidence := mkDrain {
  dr_at_eof : bool;
  dr_has_partial_line : bool;
  dr_stable_for_ms : N;
}.

Definition satisfies (d : TranscriptDrainEvidence) (required_stable_ms : N) : bool :=
  dr_at_eof d && negb (dr_has_partial_line d) && (required_stable_ms <=? dr_stable_for_ms d).

Record TranscriptBatch := mkBatch {
  ba_position : TranscriptPosition;
  ba_rows : list ParsedRow;
  ba_drain : TranscriptDrainEvidence;
}.

Definition TURN_DURATION_DRAIN_FLOOR_MS : N := 250.

Definition graduated_drain_ms (configured_drain_ms : N) (turn_duration_seen : bool) : N :=
  if turn_duration_seen && (TURN_DURATION_DRAIN_FLOOR_MS <? configured_drain_ms)
  then TURN_DURATION_DRAIN_FLOOR_MS else configured_drain_ms.

Definition POST_MARKER_CATCH_WINDOW_FLOOR_MS : N := 438.
Definition LINUX_MINIFIED_POST_ANSWER_ARRIVAL_MAX_MS : N := 46.

Definition div_ceil (a b : N) : N := if a mod b =? 0 then a / b else a / b + 1.

Definition post_marker_catch_window_ms (required_stable_ms period_ms : N) : N :=
  let period_ms := if period_ms =? 0 then 1 else period_ms in
  N.min U64_MAX (saturating_add U64_MAX (div_ceil required_stable_ms period_ms) 1 * period_ms).

(** ** The minified cell *)

Definition MINIFIED_FAST_PATH_DRAIN_FLOOR_MS : N := 50.

Definition minified_drain_ms (full_drain_ms : N) (admissible : bool) : N :=
  if admissible && (MINIFIED_FAST_PATH_DRAIN_FLOOR_MS <? full_drain_ms)
  then MINIFIED_FAST_PATH_DRAIN_FLOOR_MS else full_drain_ms.

#[global] Instance UsageTotals_eq_dec : EqDecision UsageTotals.
Proof. solve_decision. Defined.

Inductive FastPathRefusal :=
| ToolRecordsPresent (tool_count : N)
| ToolUseBlockPresent (message_index : N) (name : string)
| SidechainActivity (usage : UsageTotals)
| ApiErrorRetriesSeen (retries : N)
| EngineWarningsPresent (warning_count : N)
| StopHookObserved
| TurnDurationMarkerAbsent
| StopReasonNotEndTurn (observed : option StopReason)
| NeedsInputObserved
| LateAnalysisChangingRow (observed_at_ms : TimestampMs)
| TurnNotTerminal.

Definition refusal_code (r : FastPathRefusal) : string :=
  match r with
  | ToolRecordsPresent _ => "tool_records_present"
  | ToolUseBlockPresent _ _ => "tool_use_block_present"
  | SidechainActivity _ => "sidechain_activity"
  | ApiErrorRetriesSeen _ => "api_error_retries_seen"
  | EngineWarningsPresent _ => "engine_warnings_present"
  | StopHookObserved => "stop_hook_observed"
  | TurnDurationMarkerAbsent => "turn_duration_marker_absent"
  | StopReasonNotEndTurn _ => "stop_reason_not_end_turn"
  | NeedsInputObserved => "needs_input_observed"
  | LateAnalysisChangingRow _ => "late_analysis_changing_row"
  | TurnNotTerminal => "turn_not_terminal"
  end.

Definition tool_use_name (b : ContentBlock) : option string :=
  match b with ToolUse _ name _ => Some name | _ => None end.

(** Every tool-use block with the index of its message. *)
Definition tool_use_blocks (ms : list LogicalAssistantMessage) : list (N * string) :=
  concat (imap (fun i m => pair (N.of_nat i) <$> omap tool_use_name (Transcript.lm_blocks m)) ms).

Definition refuse_if (b : bool) (r : FastPathRefusal) : list FastPathRefusal := if b then [r] else [].

(** The refusals, in the order of the checks; none means the shorter wait is admissible. *)
Definition evaluate_minified_fast_path (analysis : TranscriptAnalysis) (timings : TurnTimings)
    (needs_input_observed : bool) : list FastPathRefusal :=
  refuse_if (negb (N.of_nat (length (ta_tools analysis)) =? 0))
    (ToolRecordsPresent (N.of_nat (length (ta_tools analysis))))
  ++ match head (tool_use_blocks (ta_messages analysis)) with
     | Some (message_index, name) => [ToolUseBlockPresent message_index name]
     | None => []
     end
  ++ refuse_if (negb (bool_decide (ta_sidechain_usage analysis = UsageTotals_default)))
       (SidechainActivity (ta_sidechain_usage analysis))
  ++ refuse_if (negb (ta_api_error_retries_seen analysis =? 0))
       (ApiErrorRetriesSeen (ta_api_error_retries_seen analysis))
  ++ refuse_if (negb (N.of_nat (length (ta_warnings analysis)) =? 0))
       (EngineWarningsPresent (N.of_nat (length (ta_warnings analysis))))
  ++ refuse_if (ta_stop_hook_summary_seen analysis) StopHookObserved
  ++ refuse_if (negb (ta_turn_duration_seen analysis)) TurnDurationMarkerAbsent
  ++ match ta_status analysis with
     | Terminal final_turn =>
         refuse_if (negb (bool_decide (ft_stop_reason final_turn = Some EndTurn)))
           (StopReasonNotEndTurn (ft_stop_reason final_turn))
     | AwaitingPromptAcknowledgement | Running _ => [TurnNotTerminal]
     end
  ++ refuse_if needs_input_observed NeedsInputObserved
  ++ match tt_post_turn_duration_row_observed_at_ms timings with
     | Some observed_at_ms => [LateAnalysisChangingRow observed_at_ms]
     | None => []
     end.

Definition is_admissible (refusals : list FastPathRefusal) : bool :=
  match refusals with [] => true | _ => false end.
