(* ===== verification/Actor.v ===== *)
(** * The session actor

    [crates/service/src/v1/actor.rs]: the one owner of a session's state. It takes its
    messages one at a time, so every handler is one function on the actor; what the
    terminal, the transcript source and the turn worker answer while it waits is an
    argument of the handler. A handler may panic (an [expect] that fails): the monad
    [M] keeps that visible. The wall clock and the monotonic clock are arbitrary
    sequences of readings, read one after the other. Encoded sizes come from
    [serde_json] and are variables. *)

From S2P Require Import Prelude Text Protocol Composer Session.

Definition USIZE_MAX : N := 2 ^ 64 - 1.

Definition TERMINAL_FAILURE_RESERVE_BYTES : N := 4 * 1024.
(** The bytes of ["events":[] and of [],]. *)
Definition EVENT_ARRAY_FIELD_OVERHEAD_BYTES : N := 10 + 2.
Definition MAX_EVENT_SEQUENCE : N := MAX_SAFE_JSON_INTEGER - 1.
Definition CLOSE_SEQUENCE_RESERVE : N := 2.
Definition TERMINAL_SEQUENCE_EVENTS : N := 2.

Record SessionActorConfig := mkActorConfig {
  replay_capacity : N;
  replay_byte_capacity : N;
  default_event_batch_size : N;
  default_turn_timeout_ms : N;
  cfg_idle_ttl_ms : N;
  turn_history_capacity : N;
  turn_history_byte_capacity : N;
  max_frame_bytes : N;
  cfg_event_sequence_ceiling : N;
}.

Inductive StoredTurnTerminal :=
| StoredResult (result : TurnResult)
| StoredFailed (error : ErrorBody).

Inductive WritableAttachCompletion := Unused | PotentiallyMutated.

Inductive AttachReconciliation := AttachReady | AttachNeedsInput (info : NeedsInputInfo).

Record TurnDeadline := mkDeadline { dl_unix_ms : TimestampMs; dl_monotonic : option N }.

(** What the other tasks of a session send to its actor. *)
Inductive WorkerUpdate :=
| UState (turn_id : TurnId) (state : S.SessionState)
| UEvent (turn_id : TurnId) (payload : EventPayload)
| UNeedsInput (turn_id : TurnId) (info : option NeedsInputInfo) (resume_state : S.SessionState)
| UCompleted (turn_id : TurnId) (result : TurnResult) (deadline : TurnDeadline)
| UFailed (turn_id : TurnId) (error : ErrorBody) (process_reaped : bool)
| UCancelled (turn_id : TurnId) (outcome : CancelOutcome) (recovered_to_ready : bool)
    (completed_at_ms : TimestampMs) (process_reaped : bool)
| UAttachReconciled (attach_id : N) (outcome : result AttachReconciliation ErrorBody).

(** A cancel request waits under the number of its reply channel. *)
Record ActiveTurn := mkActive { at_turn_id : TurnId; at_cancel_waiters : list N }.

Record TurnRecord := mkTurnRecord {
  rec_prompt_fingerprint : N;
  rec_normalized_prompt : list N;
  rec_submitted_at_ms : TimestampMs;
  rec_terminal : option StoredTurnTerminal;
}.

Record ReplayRecord := mkReplay { rp_event : EventEnvelope; rp_encoded_bytes : N }.

(** What a handler does to the other tasks. *)
Inductive Act :=
| SpawnWorker (turn : TurnRequest) (submitted_at_ms : TimestampMs) (transcript : SessionId) (cell : SessionCell)
| SpawnCancelRecovery (turn_id : TurnId)
| SpawnAttachReconciliation (attach_id : N)
| SignalAbort (turn_id : TurnId)
| CloseTerminal (policy : ClosePolicy)
| TypeClear (bound : SessionId) (deadline_unix_ms : TimestampMs)
| ArmTranscript (id : SessionId)
| ReplyCancel (waiter : N) (answer : result CancelTurnResult ErrorBody).

Record SessionActor := mkActor {
  session_id : SessionId;
  transcript_session_id : SessionId;
  generation_id : SessionGenerationId;
  cwd : string;
  compatibility : CompatibilityReport;
  dangerous_permission_bypass : bool;
  resumable : bool;
  config : SessionActorConfig;
  idle_ttl_ms : N;
  state : S.SessionState;
  created_at_ms : TimestampMs;
  updated_at_ms : TimestampMs;
  needs_input : option NeedsInputInfo;
  needs_input_resume : option S.SessionState;
  last_turn : option TurnSummary;
  active : option ActiveTurn;
  turns : gmap TurnId TurnRecord;
  turn_history_bytes : N;
  replay : list ReplayRecord;
  replay_bytes : N;
  next_sequence : N;
  sequence : N;
  process_reaped : bool;
  writable_attach : option N;
  writable_attach_release_pending : bool;
  cell : SessionCell;
  agent : option SessionAgentPin;
  (** How far the clocks have been read, what was done to other tasks, and (a history
      variable) every event published. *)
  clock_reads : nat;
  instant_reads : nat;
  acts : list Act;
  history : list EventEnvelope;
}.

(** One assignment per mutable field. *)
Definition set_transcript_session_id (v : SessionId) (a : SessionActor) : SessionActor :=
  mkActor (session_id a) v (generation_id a) (cwd a) (compatibility a) (dangerous_permission_bypass a)
    (resumable a) (config a) (idle_ttl_ms a) (state a) (created_at_ms a) (updated_at_ms a) (needs_input a)
    (needs_input_resume a) (last_turn a) (active a) (turns a) (turn_history_bytes a) (replay a) (replay_bytes a)
    (next_sequence a) (sequence a) (process_reaped a) (writable_attach a) (writable_attach_release_pending a)
    (cell a) (agent a) (clock_reads a) (instant_reads a) (acts a) (history a).
Definition set_state (v : S.SessionState) (a : SessionActor) : SessionActor :=
  mkActor (session_id a) (transcript_session_id a) (generation_id a) (cwd a) (compatibility a)
    (dangerous_permission_bypass a) (resumable a) (config a) (idle_ttl_ms a) v (created_at_ms a)
    (updated_at_ms a) (needs_input a) (needs_input_resume a) (last_turn a) (active a) (turns a)
    (turn_history_bytes a) (replay a) (replay_bytes a) (next_sequence a) (sequence a) (process_reaped a)
    (writable_attach a) (writable_attach_release_pending a) (cell a) (agent a) (clock_reads a) (instant_reads a)
    (acts a) (history a).
Definition set_updated_at_ms (v : TimestampMs) (a : SessionActor) : SessionActor :=
  mkActor (session_id a) (transcript_session_id a) (generation_id a) (cwd a) (compatibility a)
    (dangerous_permission_bypass a) (resumable a) (config a) (idle_ttl_ms a) (state a) (created_at_ms a) v
    (needs_input a) (needs_input_resume a) (last_turn a) (active a) (turns a) (turn_history_bytes a) (replay a)
    (replay_bytes a) (next_sequence a) (sequence a) (process_reaped a) (writable_attach a)
    (writable_attach_release_pending a) (cell a) (agent a) (clock_reads a) (instant_reads a) (acts a)
    (history a).
Definition set_needs_input (v : option NeedsInputInfo) (a : SessionActor) : SessionActor :=
  mkActor (session_id a) (transcript_session_id a) (generation_id a) (cwd a) (compatibility a)
    (dangerous_permission_bypass a) (resumable a) (config a) (idle_ttl_ms a) (state a) (created_at_ms a)
    (updated_at_ms a) v (needs_input_resume a) (last_turn a) (active a) (turns a) (turn_history_bytes a)
    (replay a) (replay_bytes a) (next_sequence a) (sequence a) (process_reaped a) (writable_attach a)
    (writable_attach_release_pending a) (cell a) (agent a) (clock_reads a) (instant_reads a) (acts a)
    (history a).
Definition set_needs_input_resume (v : option S.SessionState) (a : SessionActor) : SessionActor :=
  mkActor (session_id a) (transcript_session_id a) (generation_id a) (cwd a) (compatibility a)
    (dangerous_permission_bypass a) (resumable a) (config a) (idle_ttl_ms a) (state a) (created_at_ms a)
    (updated_at_ms a) (needs_input a) v (last_turn a) (active a) (turns a) (turn_history_bytes a) (replay a)
    (replay_bytes a) (next_sequence a) (sequence a) (process_reaped a) (writable_attach a)
    (writable_attach_release_pending a) (cell a) (agent a) (clock_reads a) (instant_reads a) (acts a)
    (history a).
Definition set_last_turn (v : option TurnSummary) (a : SessionActor) : SessionActor :=
  mkActor (session_id a) (transcript_session_id a) (generation_id a) (cwd a) (compatibility a)
    (dangerous_permission_bypass a) (resumable a) (config a) (idle_ttl_ms a) (state a) (created_at_ms a)
    (updated_at_ms a) (needs_input a) (needs_input_resume a) v (active a) (turns a) (turn_history_bytes a)
    (replay a) (replay_bytes a) (next_sequence a) (sequence a) (process_reaped a) (writable_attach a)
    (writable_attach_release_pending a) (cell a) (agent a) (clock_reads a) (instant_reads a) (acts a)
    (history a).
Definition set_active (v : option ActiveTurn) (a : SessionActor) : SessionActor :=
  mkActor (session_id a) (transcript_session_id a) (generation_id a) (cwd a) (compatibility a)
    (dangerous_permission_bypass a) (resumable a) (config a) (idle_ttl_ms a) (state a) (created_at_ms a)
    (updated_at_ms a) (needs_input a) (needs_input_resume a) (last_turn a) v (turns a) (turn_history_bytes a)
    (replay a) (replay_bytes a) (next_sequence a) (sequence a) (process_reaped a) (writable_attach a)
    (writable_attach_release_pending a) (cell a) (agent a) (clock_reads a) (instant_reads a) (acts a)
    (history a).
Definition set_turns (v : gmap TurnId TurnRecord) (a : SessionActor) : SessionActor :=
  mkActor (session_id a) (transcript_session_id a) (generation_id a) (cwd a) (compatibility a)
    (dangerous_permission_bypass a) (resumable a) (config a) (idle_ttl_ms a) (state a) (created_at_ms a)
    (updated_at_ms a) (needs_input a) (needs_input_resume a) (last_turn a) (active a) v (turn_history_bytes a)
    (replay a) (replay_bytes a) (next_sequence a) (sequence a) (process_reaped a) (writable_attach a)
    (writable_attach_release_pending a) (cell a) (agent a) (clock_reads a) (instant_reads a) (acts a)
    (history a).
Definition set_turn_history_bytes (v : N) (a : SessionActor) : SessionActor :=
  mkActor (session_id a) (transcript_session_id a) (generation_id a) (cwd a) (compatibility a)
    (dangerous_permission_bypass a) (resumable a) (config a) (idle_ttl_ms a) (state a) (created_at_ms a)
    (updated_at_ms a) (needs_input a) (needs_input_resume a) (last_turn a) (active a) (turns a) v (replay a)
    (replay_bytes a) (next_sequence a) (sequence a) (process_reaped a) (writable_attach a)
    (writable_attach_release_pending a) (cell a) (agent a) (clock_reads a) (instant_reads a) (acts a)
    (history a).
Definition set_replay (v : list ReplayRecord) (a : SessionActor) : SessionActor :=
  mkActor (session_id a) (transcript_session_id a) (generation_id a) (cwd a) (compatibility a)
    (dangerous_permission_bypass a) (resumable a) (config a) (idle_ttl_ms a) (state a) (created_at_ms a)
    (updated_at_ms a) (needs_input a) (needs_input_resume a) (last_turn a) (active a) (turns a)
    (turn_history_bytes a) v (replay_bytes a) (next_sequence a) (sequence a) (process_reaped a)
    (writable_attach a) (writable_attach_release_pending a) (cell a) (agent a) (clock_reads a) (instant_reads a)
    (acts a) (history a).
Definition set_replay_bytes (v : N) (a : SessionActor) : SessionActor :=
  mkActor (session_id a) (transcript_session_id a) (generation_id a) (cwd a) (compatibility a)
    (dangerous_permission_bypass a) (resumable a) (config a) (idle_ttl_ms a) (state a) (created_at_ms a)
    (updated_at_ms a) (needs_input a) (needs_input_resume a) (last_turn a) (active a) (turns a)
    (turn_history_bytes a) (replay a) v (next_sequence a) (sequence a) (process_reaped a) (writable_attach a)
    (writable_attach_release_pending a) (cell a) (agent a) (clock_reads a) (instant_reads a) (acts a)
    (history a).
Definition set_next_sequence (v : N) (a : SessionActor) : SessionActor :=
  mkActor (session_id a) (transcript_session_id a) (generation_id a) (cwd a) (compatibility a)
    (dangerous_permission_bypass a) (resumable a) (config a) (idle_ttl_ms a) (state a) (created_at_ms a)
    (updated_at_ms a) (needs_input a) (needs_input_resume a) (last_turn a) (active a) (turns a)
    (turn_history_bytes a) (replay a) (replay_bytes a) v (sequence a) (process_reaped a) (writable_attach a)
    (writable_attach_release_pending a) (cell a) (agent a) (clock_reads a) (instant_reads a) (acts a)
    (history a).
Definition set_sequence (v : N) (a : SessionActor) : SessionActor :=
  mkActor (session_id a) (transcript_session_id a) (generation_id a) (cwd a) (compatibility a)
    (dangerous_permission_bypass a) (resumable a) (config a) (idle_ttl_ms a) (state a) (created_at_ms a)
    (updated_at_ms a) (needs_input a) (needs_input_resume a) (last_turn a) (active a) (turns a)
    (turn_history_bytes a) (replay a) (replay_bytes a) (next_sequence a) v (process_reaped a)
    (writable_attach a) (writable_attach_release_pending a) (cell a) (agent a) (clock_reads a) (instant_reads a)
    (acts a) (history a).
Definition set_process_reaped (v : bool) (a : SessionActor) : SessionActor :=
  mkActor (session_id a) (transcript_session_id a) (generation_id a) (cwd a) (compatibility a)
    (dangerous_permission_bypass a) (resumable a) (config a) (idle_ttl_ms a) (state a) (created_at_ms a)
    (updated_at_ms a) (needs_input a) (needs_input_resume a) (last_turn a) (active a) (turns a)
    (turn_history_bytes a) (replay a) (replay_bytes a) (next_sequence a) (sequence a) v (writable_attach a)
    (writable_attach_release_pending a) (cell a) (agent a) (clock_reads a) (instant_reads a) (acts a)
    (history a).
Definition set_writable_attach (v : option N) (a : SessionActor) : SessionActor :=
  mkActor (session_id a) (transcript_session_id a) (generation_id a) (cwd a) (compatibility a)
    (dangerous_permission_bypass a) (resumable a) (config a) (idle_ttl_ms a) (state a) (created_at_ms a)
    (updated_at_ms a) (needs_input a) (needs_input_resume a) (last_turn a) (active a) (turns a)
    (turn_history_bytes a) (replay a) (replay_bytes a) (next_sequence a) (sequence a) (process_reaped a) v
    (writable_attach_release_pending a) (cell a) (agent a) (clock_reads a) (instant_reads a) (acts a)
    (history a).
Definition set_writable_attach_release_pending (v : bool) (a : SessionActor) : SessionActor :=
  mkActor (session_id a) (transcript_session_id a) (generation_id a) (cwd a) (compatibility a)
    (dangerous_permission_bypass a) (resumable a) (config a) (idle_ttl_ms a) (state a) (created_at_ms a)
    (updated_at_ms a) (needs_input a) (needs_input_resume a) (last_turn a) (active a) (turns a)
    (turn_history_bytes a) (replay a) (replay_bytes a) (next_sequence a) (sequence a) (process_reaped a)
    (writable_attach a) v (cell a) (agent a) (clock_reads a) (instant_reads a) (acts a) (history a).
Definition set_cell (v : SessionCell) (a : SessionActor) : SessionActor :=
  mkActor (session_id a) (transcript_session_id a) (generation_id a) (cwd a) (compatibility a)
    (dangerous_permission_bypass a) (resumable a) (config a) (idle_ttl_ms a) (state a) (created_at_ms a)
    (updated_at_ms a) (needs_input a) (needs_input_resume a) (last_turn a) (active a) (turns a)
    (turn_history_bytes a) (replay a) (replay_bytes a) (next_sequence a) (sequence a) (process_reaped a)
    (writable_attach a) (writable_attach_release_pending a) v (agent a) (clock_reads a) (instant_reads a)
    (acts a) (history a).
Definition set_clock_reads (v : nat) (a : SessionActor) : SessionActor :=
  mkActor (session_id a) (transcript_session_id a) (generation_id a) (cwd a) (compatibility a)
    (dangerous_permission_bypass a) (resumable a) (config a) (idle_ttl_ms a) (state a) (created_at_ms a)
    (updated_at_ms a) (needs_input a) (needs_input_resume a) (last_turn a) (active a) (turns a)
    (turn_history_bytes a) (replay a) (replay_bytes a) (next_sequence a) (sequence a) (process_reaped a)
    (writable_attach a) (writable_attach_release_pending a) (cell a) (agent a) v (instant_reads a) (acts a)
    (history a).
Definition set_instant_reads (v : nat) (a : SessionActor) : SessionActor :=
  mkActor (session_id a) (transcript_session_id a) (generation_id a) (cwd a) (compatibility a)
    (dangerous_permission_bypass a) (resumable a) (config a) (idle_ttl_ms a) (state a) (created_at_ms a)
    (updated_at_ms a) (needs_input a) (needs_input_resume a) (last_turn a) (active a) (turns a)
    (turn_history_bytes a) (replay a) (replay_bytes a) (next_sequence a) (sequence a) (process_reaped a)
    (writable_attach a) (writable_attach_release_pending a) (cell a) (agent a) (clock_reads a) v (acts a)
    (history a).
Definition set_acts (v : list Act) (a : SessionActor) : SessionActor :=
  mkActor (session_id a) (transcript_session_id a) (generation_id a) (cwd a) (compatibility a)
    (dangerous_permission_bypass a) (resumable a) (config a) (idle_ttl_ms a) (state a) (created_at_ms a)
    (updated_at_ms a) (needs_input a) (needs_input_resume a) (last_turn a) (active a) (turns a)
    (turn_history_bytes a) (replay a) (replay_bytes a) (next_sequence a) (sequence a) (process_reaped a)
    (writable_attach a) (writable_attach_release_pending a) (cell a) (agent a) (clock_reads a) (instant_reads a)
    v (history a).
Definition set_history (v : list EventEnvelope) (a : SessionActor) : SessionActor :=
  mkActor (session_id a) (transcript_session_id a) (generation_id a) (cwd a) (compatibility a)
    (dangerous_permission_bypass a) (resumable a) (config a) (idle_ttl_ms a) (state a) (created_at_ms a)
    (updated_at_ms a) (needs_input a) (needs_input_resume a) (last_turn a) (active a) (turns a)
    (turn_history_bytes a) (replay a) (replay_bytes a) (next_sequence a) (sequence a) (process_reaped a)
    (writable_attach a) (writable_attach_release_pending a) (cell a) (agent a) (clock_reads a) (instant_reads a)
    (acts a) v.

(** ** Handlers *)

(** A handler changes the actor and answers, or panics. *)
Definition M (A : Type) : Type := SessionActor -> option (A * SessionActor).

Definition mret {A} (x : A) : M A := fun a => Some (x, a).
Definition mpanic {A} : M A := fun _ => None.
Definition mbind {A B} (m : M A) (k : A -> M B) : M B :=
  fun a => match m a with Some (x, a') => k x a' | None => None end.
Definition mtry {A B} (m : M (result A ErrorBody)) (k : A -> M (result B ErrorBody)) : M (result B ErrorBody) :=
  mbind m (fun r => match r with Ok x => k x | Err e => mret (Err e) end).
Definition gets {A} (f : SessionActor -> A) : M A := fun a => Some (f a, a).
Definition modify (f : SessionActor -> SessionActor) : M unit := fun a => Some (tt, f a).
Definition act (x : Act) : M unit := modify (fun a => set_acts (acts a ++ [x]) a).

(** [let _ = m]: the answer is dropped. *)
Definition ignore {A} (m : M A) : M unit := mbind m (fun _ => mret tt).

Notation "'let*' x := m 'in' k" := (mbind m (fun x => k))
  (at level 10, x name, m at level 100, k at level 200) : pmux_scope.
Notation "'let*?' x := m 'in' k" := (mtry m (fun x => k))
  (at level 10, x name, m at level 100, k at level 200) : pmux_scope.
Notation "m1 ';*' m2" := (mbind m1 (fun _ => m2)) (at level 95, right associativity) : pmux_scope.

(** ** Small functions *)

(** The [Debug] names. *)
Definition state_debug (s : S.SessionState) : string :=
  match s with
  | S.Creating => "Creating" | S.Booting => "Booting" | S.Ready => "Ready" | S.Submitting => "Submitting"
  | S.AwaitingPromptAck => "AwaitingPromptAck" | S.Running => "Running" | S.NeedsInput => "NeedsInput"
  | S.TerminalCandidate => "TerminalCandidate" | S.Draining => "Draining" | S.Cancelling => "Cancelling"
  | S.Tainted => "Tainted" | S.Closing => "Closing" | S.Closed => "Closed" | S.Failed => "Failed"
  end.

Definition kind_debug (k : NeedsInputKind) : string :=
  match k with
  | KindTrust => "Trust" | KindLogin => "Login" | KindPermission => "Permission" | KindUpdate => "Update"
  | KindQuota => "Quota" | KindUnknownModal => "UnknownModal"
  end.

(** The serialized name of a kind. *)
Definition kind_json (k : NeedsInputKind) : json :=
  JStr (match k with
        | KindTrust => "trust" | KindLogin => "login" | KindPermission => "permission" | KindUpdate => "update"
        | KindQuota => "quota" | KindUnknownModal => "unknown_modal"
        end)%string.

Definition code_debug (c : ErrorCode) : string :=
  match c with
  | InvalidConfig => "InvalidConfig" | UnsupportedFeature => "UnsupportedFeature"
  | UnsupportedClaudeVersion => "UnsupportedClaudeVersion" | ClaudeNotFound => "ClaudeNotFound"
  | RmuxUnavailable => "RmuxUnavailable" | RmuxIncompatible => "RmuxIncompatible"
  | PersistenceDisabled => "PersistenceDisabled" | TranscriptUnavailable => "TranscriptUnavailable"
  | SchemaDrift => "SchemaDrift" | PromptNotAcknowledged => "PromptNotAcknowledged"
  | ResultTooLarge => "ResultTooLarge" | TurnHistoryCapacityExceeded => "TurnHistoryCapacityExceeded"
  | SessionBusy => "SessionBusy" | IdConflict => "IdConflict" | IdCollision => "IdCollision"
  | SessionNotFound => "SessionNotFound" | StaleSessionGeneration => "StaleSessionGeneration"
  | NeedsTrust => "NeedsTrust" | NeedsLogin => "NeedsLogin" | NeedsPermission => "NeedsPermission"
  | NeedsUpdate => "NeedsUpdate" | Protocol.NeedsInput => "NeedsInput" | RateLimited => "RateLimited"
  | AuthenticationFailed => "AuthenticationFailed" | BillingFailed => "BillingFailed"
  | PermissionDenied => "PermissionDenied" | TurnTimeout => "TurnTimeout" | Cancelled => "Cancelled"
  | RecoveryFailed => "RecoveryFailed" | ClaudeExited => "ClaudeExited" | DaemonLost => "DaemonLost"
  | Protocol.ReplayGap => "ReplayGap" | ProtocolVersionMismatch => "ProtocolVersionMismatch"
  | Internal => "Internal"
  end.

Definition is_valid_session_transition (previous current : S.SessionState) : bool :=
  match previous, current with
  | S.Creating, S.Booting
  | S.Booting, (S.Ready | S.NeedsInput | S.Failed | S.Closing)
  | S.Ready, (S.Submitting | S.NeedsInput | S.Tainted | S.Closing)
  | S.Submitting, (S.AwaitingPromptAck | S.NeedsInput | S.Cancelling | S.Failed | S.Closing)
  | S.AwaitingPromptAck, (S.Running | S.NeedsInput | S.Cancelling | S.Failed | S.Closing)
  | S.Running, (S.NeedsInput | S.TerminalCandidate | S.Cancelling | S.Failed | S.Closing)
  | S.TerminalCandidate, (S.NeedsInput | S.Draining | S.Cancelling | S.Failed | S.Closing)
  | S.Draining, (S.Ready | S.NeedsInput | S.Cancelling | S.Failed | S.Closing)
  | S.NeedsInput, (S.Ready | S.AwaitingPromptAck | S.Running | S.TerminalCandidate | S.Draining
                   | S.Cancelling | S.Tainted | S.Failed | S.Closing)
  | S.Cancelling, (S.Ready | S.Tainted | S.Closing)
  | S.Tainted, S.Closing
  | S.Failed, S.Closing
  | S.Closing, (S.Closed | S.Failed) => true
  | _, _ => false
  end.

Definition needs_input_error_code (info : NeedsInputInfo) : ErrorCode :=
  match ni_kind info with
  | KindTrust => NeedsTrust
  | KindLogin => NeedsLogin
  | KindPermission => NeedsPermission
  | KindUpdate => NeedsUpdate
  | KindQuota => RateLimited
  | KindUnknownModal => Protocol.NeedsInput
  end.

Definition needs_input_recommendation (k : NeedsInputKind) : string :=
  match k with
  | KindTrust => "Claude is holding its workspace-trust modal. The pool must mint a pre-trusted empty cwd; remint the cell. pmux will not answer the modal."
  | KindLogin => "Claude is not authenticated in this configuration root. Run `claude` against the pool Claude once and log in. pmux will not answer the modal."
  | KindPermission => "Claude is holding a permission prompt. A minified cell denies tools; remint the cell. pmux will not answer the modal."
  | KindUpdate => "Claude is holding an update prompt. Update the pool's `--pool-claude` executable and remint. pmux will not answer the modal."
  | KindQuota => "Claude reports the account is out of quota. Wait for the window to reset or use a different account; pmux cannot clear this from here."
  | KindUnknownModal => "Claude is holding a modal pmux does not recognize. Remint the cell. pmux will not answer the modal."
  end.

Definition prompt_fingerprint (prompt : list N) : N :=
  foldl (fun hash byte => wrapping_mul (U64_MAX + 1) (N.lxor hash byte) 1099511628211)
    14695981039346656037 (utf8_encode prompt).

Definition diagnostic_u64 (value : N) : json :=
  if value <=? MAX_SAFE_JSON_INTEGER then JNum value else JStr (pretty value).

(** [usize] is 64 bits wide, so the conversion to [u64] succeeds. *)
Definition diagnostic_usize (value : N) : json := diagnostic_u64 value.

Definition checked_actor_timestamp (timestamp_ms : TimestampMs) (resource : string) : result TimestampMs ErrorBody :=
  if timestamp_ms <=? MAX_SAFE_JSON_INTEGER then Ok timestamp_ms
  else Err (with_details (jobj [("resource", JStr resource); ("maximum", JNum MAX_SAFE_JSON_INTEGER)]%string)
              (ErrorBody_new RecoveryFailed "actor timestamp is outside protocol-v1's safe-integer domain")).

Definition safe_sum (a b : N) : option N :=
  c ← checked_add U64_MAX a b; if c <=? MAX_SAFE_JSON_INTEGER then Some c else None.

Definition checked_idle_deadline (updated_at_ms : TimestampMs) (idle_ttl_ms : N) : result TimestampMs ErrorBody :=
  ok_or (safe_sum updated_at_ms idle_ttl_ms)
    (with_details
       (jobj [("updated_at_ms", diagnostic_u64 updated_at_ms); ("idle_ttl_ms", diagnostic_u64 idle_ttl_ms);
              ("maximum", JNum MAX_SAFE_JSON_INTEGER)]%string)
       (ErrorBody_new InvalidConfig "idle deadline is outside protocol-v1's safe-integer domain")).

Definition checked_turn_deadline_unix_ms (requested : option TimestampMs) (submitted_at_ms : TimestampMs)
    (default_timeout_ms : N) : result TimestampMs ErrorBody :=
  match requested with
  | Some requested =>
      if requested <=? MAX_SAFE_JSON_INTEGER then Ok requested
      else Err (ErrorBody_new InvalidConfig "turn deadline is outside protocol-v1's safe-integer domain")
  | None =>
      ok_or (safe_sum submitted_at_ms default_timeout_ms)
        (ErrorBody_new InvalidConfig "default turn deadline is outside protocol-v1's safe-integer domain")
  end.

Definition turn_timeout_error : ErrorBody := ErrorBody_new TurnTimeout "turn deadline elapsed".

Definition event_payload_name (payload : EventPayload) : string :=
  match payload with
  | SessionStateChanged _ _ _ => "session_state_changed"
  | PromptAcknowledged _ _ _ => "prompt_acknowledged"
  | LogicalMessageEvent _ => "logical_message"
  | ToolStarted _ _ _ => "tool_started"
  | ToolCompleted _ _ _ => "tool_completed"
  | RateLimit _ _ _ => "rate_limit"
  | NeedsInputEvent _ => "needs_input"
  | TerminalCandidateEvent _ _ => "terminal_candidate"
  | TurnCompleted _ => "turn_completed"
  | TurnCancelled _ _ => "turn_cancelled"
  | TurnFailed _ => "turn_failed"
  | Warning _ => "warning"
  | ReplayGapEvent _ => "replay_gap"
  | Heartbeat _ => "heartbeat"
  end.

(** Where a page starts and ends in the replay ring. *)
Definition replay_page_range (oldest_available replay_len after_sequence limit : N) : N * N :=
  let start :=
    N.min (default replay_len
             (first_requested ← checked_add U64_MAX after_sequence 1;
              checked_sub first_requested oldest_available)) replay_len in
  (start, N.min (saturating_add USIZE_MAX start (N.max limit 1)) replay_len).

Definition require_tested_for_minified_cell (c : CompatibilityReport) : result unit ErrorBody :=
  if cr_tested c || cr_unpromoted c then Ok tt
  else Err (with_details
    (jobj [("claude_version", JStr (cr_claude_version c)); ("os", JStr (cr_os c)); ("arch", JStr (cr_arch c));
           ("recommendation", JStr "measure this os/arch with tools/dev/drain_n50.py, tools/dev/operator_eval.py and tools/dev/living_pmux_run.py, then promote it with tools/dev/promote.py (tools/dev/README.md)")]%string)
    (ErrorBody_new UnsupportedClaudeVersion "the minified cell requires a tested compatibility profile")).

Definition refuse_writable_attach_on_minified_cell (c : SessionCell) : result unit ErrorBody :=
  if bool_decide (c <> Minified) then Ok tt
  else Err (with_details
    (jobj [("field", JStr "writable"); ("violation", JStr "writable_attach_forbidden_on_minified_cell");
           ("recommendation", JStr "remint the cell; writable attach and run_turn are not a product")]%string)
    (ErrorBody_new UnsupportedFeature "a minified cell does not grant writable terminal attachments")).

Definition profile_json (p : TerminalProfile) : json :=
  JStr (match p with Transparent => "transparent" | RmuxStandard => "rmux_standard" end)%string.
Definition transport_json (t : InputTransport) : json :=
  JStr (match t with Auto => "auto" | Sdk => "sdk" | AttachedStream => "attached_stream" end)%string.

Definition compatibility_warnings (r : CompatibilityReport) : list ProtocolWarning :=
  if cr_tested r then []
  else
    let '(code, message) :=
      if cr_unpromoted r
      then ("unpromoted_compatibility_profile", "this daemon runs --allow-unpromoted-claude: no measurement backs this cell")
      else ("untested_compatibility_profile", "this turn used an explicit allow_untested compatibility override") in
    [mkWarning code message
       (jobj [("claude_version", JStr (cr_claude_version r)); ("os", JStr (cr_os r)); ("arch", JStr (cr_arch r));
              ("terminal_profile", profile_json (cr_terminal_profile r));
              ("input_transport", transport_json (cr_input_transport r));
              ("tested", JBool false); ("unpromoted", JBool (cr_unpromoted r));
              ("transcript_drain_ms", JNum (cr_transcript_drain_ms r))]%string)]%string.

Definition permission_bypass_warnings (bypass : bool) : list ProtocolWarning :=
  if bypass
  then [mkWarning "dangerous_permission_bypass" "this session launched Claude with --dangerously-skip-permissions" JNull]
  else [].

(** [clear_was_not_submitted] of [driver_io.rs]. *)
Definition clear_was_not_submitted (details : json) : bool :=
  match json_get "clear_not_submitted" details with Some (JBool b) => b | _ => false end.
