(* ===== verification/ActorOps.v ===== *)
(** * The handlers of the session actor

    The methods of [SessionActor] in [crates/service/src/v1/actor.rs], each one a
    computation in [M], and the message loop over them. What the actor gets from the
    host (the clocks, the serializer, the size of a record, the text of an id, Unicode
    normalization) is the class [Host]; what a terminal or transcript call answers while
    the handler awaits it is an argument of the handler. *)

From S2P Require Import Prelude Text Protocol Composer Session Screen Backend Actor.

(** Everything the actor measures with [serde_json]. *)
Inductive Wire :=
| WEvent (event : EventEnvelope)
| WEvents (batch : EventBatch)          (** the response that carries a batch *)
| WTurnResponse (result : TurnResult)   (** the response that carries a result *)
| WFailure (error : ErrorBody)          (** the response that carries an error *)
| WResult (result : TurnResult)
| WError (error : ErrorBody)
| WTurn (turn : TurnRequest)
| WPayload (payload : EventPayload).

Class Host := {
  clock : nat -> N;
  instant : nat -> N;
  (** [serialized_bytes]: [USIZE_MAX] when the serializer refuses the value. *)
  serialized_bytes : Wire -> N;
  record_size : N;
  show_uuid : N -> string;
  nfc : list N -> list N;
}.

Definition needs_input_eqb (x y : NeedsInputInfo) : bool :=
  bool_decide (ni_kind x = ni_kind y) && String.eqb (ni_message x) (ni_message y)
  && json_eqb (ni_details x) (ni_details y).

(** The states a later try may find changed. *)
Definition state_moves_on (s : S.SessionState) : bool :=
  match s with
  | S.Creating | S.Booting | S.Submitting | S.AwaitingPromptAck | S.Running | S.TerminalCandidate
  | S.Draining | S.Cancelling => true
  | _ => false
  end.

Definition idle_state (s : S.SessionState) : bool :=
  match s with S.Ready | S.NeedsInput => true | _ => false end.

Section Ops.
Context `{Host}.

Definition validate_v1_serializable (w : Wire) : bool := negb (serialized_bytes w =? USIZE_MAX).

Definition into_protocol (f : DriverFailure) : ErrorBody :=
  let error := mkErrorBody (df_code f) (df_message f) (df_retryable f) (df_details f) in
  if validate_v1_serializable (WError error) then error else with_details JNull error.

(** ** Clocks *)

Definition now_ms : M TimestampMs :=
  fun a => Some (clock (clock_reads a), set_clock_reads (S (clock_reads a)) a).

Definition instant_now : M N :=
  fun a => Some (instant (instant_reads a), set_instant_reads (S (instant_reads a)) a).

Definition checked_now_ms (resource : string) : M (result TimestampMs ErrorBody) :=
  let* now := now_ms in
  let* ttl := gets idle_ttl_ms in
  mret (let? timestamp_ms := checked_actor_timestamp now resource in
        let? _ := checked_idle_deadline timestamp_ms ttl in
        Ok timestamp_ms).

(** [TurnDeadline::expired]: the monotonic boundary first, then the wall clock. *)
Definition expired (deadline : TurnDeadline) : M bool :=
  let* monotonic :=
    match dl_monotonic deadline with
    | Some d => let* t := instant_now in mret (d <=? t)
    | None => mret false
    end in
  if monotonic then mret true
  else let* t := now_ms in mret (dl_unix_ms deadline <=? t).

(** ** Event sequences *)

Definition frame_limit (a : SessionActor) : N := N.min (max_frame_bytes (config a)) MAX_NATIVE_FRAME_BYTES.

Definition event_sequence_ceiling (a : SessionActor) : N :=
  N.min (cfg_event_sequence_ceiling (config a)) MAX_EVENT_SEQUENCE.

Definition remaining_sequence_slots (a : SessionActor) : N :=
  match checked_sub (event_sequence_ceiling a) (next_sequence a) with
  | Some remaining => remaining + 1
  | None => 0
  end.

Definition sequence_capacity_error (required : N) (a : SessionActor) : ErrorBody :=
  with_details
    (jobj [("resource", JStr "event_sequence"); ("next_sequence", JNum (next_sequence a));
           ("maximum_event_sequence", JNum (event_sequence_ceiling a));
           ("remaining_events", JNum (remaining_sequence_slots a)); ("required_events", JNum required)]%string)
    (ErrorBody_new RecoveryFailed "session event-sequence capacity is exhausted; close and explicitly resume").

Definition ensure_sequence_slots (required : N) : M (result unit ErrorBody) :=
  let*? _ := checked_now_ms "event_timestamp" in
  gets (fun a => if remaining_sequence_slots a <? required then Err (sequence_capacity_error required a) else Ok tt).

(** ** Encoded sizes *)

Definition event_batch_response_bytes (batch : EventBatch) : N := serialized_bytes (WEvents batch).

Definition empty_event_batch_response_bytes (next_sequence : N) : N :=
  event_batch_response_bytes (mkEventBatch [] next_sequence None).

Definition single_event_response_bytes (event : EventEnvelope) : N :=
  event_batch_response_bytes (mkEventBatch [event] MAX_SAFE_JSON_INTEGER None).

Definition turn_result_wire_bytes (result : TurnResult) : N :=
  let worst_case := with_final_sequence MAX_SAFE_JSON_INTEGER result in
  let event :=
    EventEnvelope_new (res_session_id worst_case) (res_generation_id worst_case) (Some (res_turn_id worst_case))
      MAX_EVENT_SEQUENCE MAX_SAFE_JSON_INTEGER (TurnCompleted worst_case) in
  N.max (serialized_bytes (WTurnResponse worst_case)) (single_event_response_bytes event).

Definition terminal_error_wire_bytes (session_id : SessionId) (generation_id : SessionGenerationId)
    (turn_id : TurnId) (error : ErrorBody) : N :=
  let event :=
    EventEnvelope_new session_id generation_id (Some turn_id) MAX_EVENT_SEQUENCE MAX_SAFE_JSON_INTEGER
      (TurnFailed error) in
  N.max (serialized_bytes (WFailure error)) (single_event_response_bytes event).

Definition stored_terminal_bytes (terminal : StoredTurnTerminal) : N :=
  match terminal with
  | StoredResult result => serialized_bytes (WResult result)
  | StoredFailed error => serialized_bytes (WError error)
  end.

(** The loop of [fitting_event_page], with the events taken so far and their bytes. *)
Fixpoint fitting_from (records : list ReplayRecord) (frame_limit : N) (events : list EventEnvelope)
    (event_array_bytes : N) : result (list EventEnvelope) ErrorBody :=
  match records with
  | [] => Ok events
  | record :: records =>
      let separator := if bool_decide (events = []) then 0 else 1 in
      let? candidate_event_array_bytes :=
        ok_or (b ← checked_add USIZE_MAX event_array_bytes separator; checked_add USIZE_MAX b (rp_encoded_bytes record))
          (ErrorBody_new RecoveryFailed "event page byte accounting overflowed") in
      let? candidate_next_sequence :=
        ok_or (checked_add U64_MAX (ev_sequence (rp_event record)) 1)
          (ErrorBody_new RecoveryFailed "event cursor cannot advance without overflow") in
      let? candidate_bytes :=
        ok_or (checked_add USIZE_MAX (empty_event_batch_response_bytes candidate_next_sequence) candidate_event_array_bytes)
          (ErrorBody_new RecoveryFailed "event page envelope accounting overflowed") in
      if frame_limit <? candidate_bytes then Ok events
      else fitting_from records frame_limit (events ++ [rp_event record]) candidate_event_array_bytes
  end.

Definition fitting_event_page (records : list ReplayRecord) (frame_limit : N) : result (list EventEnvelope) ErrorBody :=
  fitting_from records frame_limit [] EVENT_ARRAY_FIELD_OVERHEAD_BYTES.

(** ** Publishing *)

Definition fit_error (code : ErrorCode) (message : string) (actual limit : N) : ErrorBody :=
  with_details
    (jobj [("actual_bytes", diagnostic_usize actual); ("maximum_bytes", diagnostic_usize limit)]%string)
    (ErrorBody_new code message).

Definition oversized_event_warning (payload_type : string) (actual limit : N) : EventPayload :=
  Warning (mkWarning "event_payload_too_large" "event payload was omitted because it exceeds the native frame limit"
    (jobj [("event_type", JStr payload_type); ("actual_bytes", JNum actual);
           ("maximum_bytes", diagnostic_usize limit)])%string).

(** The event that is published for a payload: the payload, or a warning in its place. *)
Definition bounded_event (mk : EventPayload -> EventEnvelope) (payload : EventPayload) (limit : N) :
    result EventEnvelope ErrorBody :=
  let actual_bytes := single_event_response_bytes (mk payload) in
  if actual_bytes =? USIZE_MAX then
    Err (ErrorBody_new RecoveryFailed "event payload cannot be serialized within the protocol-v1 domain")
  else if limit <? actual_bytes then
    if MAX_SAFE_JSON_INTEGER <? actual_bytes then
      Err (ErrorBody_new RecoveryFailed "event size cannot be represented within the protocol-v1 domain")
    else
      let event := mk (oversized_event_warning (event_payload_name payload) actual_bytes limit) in
      let bounded_bytes := single_event_response_bytes event in
      if (bounded_bytes =? USIZE_MAX) || (limit <? bounded_bytes) then
        Err (fit_error ResultTooLarge "bounded event warning exceeds the configured native frame limit" bounded_bytes limit)
      else Ok event
  else Ok (mk payload).

(** The loop that drops the oldest records until the ring is within both capacities. *)
Fixpoint trim_replay (capacity byte_capacity : N) (replay : list ReplayRecord) (replay_bytes : N) :
    list ReplayRecord * N :=
  match replay with
  | [] => ([], replay_bytes)
  | removed :: replay' =>
      if (capacity <? N.of_nat (length replay)) || (byte_capacity <? replay_bytes)
      then trim_replay capacity byte_capacity replay' (replay_bytes - rp_encoded_bytes removed)
      else (replay, replay_bytes)
  end.

Definition push_event (timestamp_ms : TimestampMs) (event : EventEnvelope) (encoded_bytes sequence next : N)
    (a : SessionActor) : SessionActor :=
  let '(ring, bytes) :=
    trim_replay (replay_capacity (config a)) (replay_byte_capacity (config a))
      (replay a ++ [mkReplay event encoded_bytes]) (replay_bytes a + encoded_bytes) in
  set_history (history a ++ [event])
    (set_sequence sequence
       (set_next_sequence next
          (set_replay ring (set_replay_bytes bytes (set_updated_at_ms timestamp_ms a))))).

Definition emit (turn_id : option TurnId) (payload : EventPayload) : M (result N ErrorBody) :=
  let*? timestamp_ms := checked_now_ms "event_timestamp" in
  let* a := gets id in
  let sequence := next_sequence a in
  if event_sequence_ceiling a <? sequence then mret (Err (sequence_capacity_error 1 a))
  else
    let*? next := mret (ok_or (checked_add U64_MAX sequence 1)
      (ErrorBody_new RecoveryFailed "event sequence cannot advance without overflow")) in
    let*? event := mret (bounded_event
      (EventEnvelope_new (session_id a) (generation_id a) turn_id sequence timestamp_ms) payload (frame_limit a)) in
    let encoded_bytes := serialized_bytes (WEvent event) in
    if encoded_bytes =? USIZE_MAX then
      mret (Err (ErrorBody_new RecoveryFailed "bounded event payload cannot be serialized within the protocol-v1 domain"))
    else
      let*? _ := mret (ok_or (checked_add USIZE_MAX (replay_bytes a) encoded_bytes)
        (ErrorBody_new RecoveryFailed "event replay byte accounting overflowed")) in
      modify (push_event timestamp_ms event encoded_bytes sequence next) ;*
      mret (Ok sequence).

Definition transition (current : S.SessionState) (reason : option string) (turn_id : option TurnId) :
    M (result unit ErrorBody) :=
  let* previous := gets state in
  if bool_decide (previous = current) then mret (Ok tt)
  else if negb (is_valid_session_transition previous current) then
    mret (Err (ErrorBody_new Internal
      ("invalid session transition " +:+ state_debug previous +:+ " -> " +:+ state_debug current)%string))
  else
    let*? _ := emit turn_id (SessionStateChanged previous current reason) in
    (if bool_decide (previous = S.NeedsInput) && bool_decide (current <> S.NeedsInput)
     then modify (set_needs_input None) ;* modify (set_needs_input_resume None)
     else mret tt) ;*
    modify (set_state current) ;*
    mret (Ok tt).

Definition set_needs_input_to (info : NeedsInputInfo) (resume_state : S.SessionState) (turn_id : option TurnId) :
    M (result unit ErrorBody) :=
  let* changed := gets (fun a => match needs_input a with Some x => negb (needs_input_eqb x info) | None => true end) in
  let* transition_needed := gets (fun a => bool_decide (state a <> S.NeedsInput)) in
  let required := N.b2n transition_needed + N.b2n changed + CLOSE_SEQUENCE_RESERVE in
  let*? _ := ensure_sequence_slots required in
  let*? _ := (if transition_needed
              then transition S.NeedsInput (Some "interactive_input_required"%string) turn_id
              else mret (Ok tt)) in
  modify (set_needs_input (Some info)) ;*
  modify (set_needs_input_resume (Some resume_state)) ;*
  if changed then let*? _ := emit turn_id (NeedsInputEvent info) in mret (Ok tt) else mret (Ok tt).

Definition resolve_needs_input (fallback : S.SessionState) (turn_id : option TurnId) : M unit :=
  let* blocked := gets (fun a => bool_decide (is_Some (needs_input a)) && bool_decide (state a = S.NeedsInput)) in
  if negb blocked then mret tt
  else
    let* resume_state := gets (fun a => default fallback (needs_input_resume a)) in
    ignore (transition resume_state (Some "interactive_input_resolved"%string) turn_id).

(** ** Reading *)

Definition snapshot : M SessionSnapshot := fun a =>
  let idle := idle_state (state a) && bool_decide (active a = None) && bool_decide (writable_attach a = None) in
  match checked_add U64_MAX (updated_at_ms a) (idle_ttl_ms a), checked_sub (next_sequence a) 1 with
  | deadline, Some last_sequence =>
      let body idle_deadline_ms :=
        Some (mkSnapshot (session_id a) (generation_id a) (transcript_session_id a) (cell a) (state a) (cwd a)
                (at_turn_id <$> active a) (Some (cr_claude_version (compatibility a))) (compatibility a)
                (created_at_ms a) (updated_at_ms a) idle_deadline_ms (resumable a) last_sequence (last_turn a)
                (needs_input a) (agent a), a) in
      if idle then match deadline with Some d => body (Some d) | None => None end else body None
  | _, None => None
  end.

Definition ensure_event_batch_fits (batch : EventBatch) : M (result EventBatch ErrorBody) :=
  let actual_bytes := event_batch_response_bytes batch in
  let* limit := gets frame_limit in
  mret
    (if actual_bytes =? USIZE_MAX then
       Err (ErrorBody_new RecoveryFailed "event batch cannot be serialized within the protocol-v1 domain")
     else if actual_bytes <=? limit then Ok batch
     else Err (fit_error ResultTooLarge "event batch exceeds the native frame limit" actual_bytes limit)).

Definition oldest_available (a : SessionActor) : N :=
  match replay a with record :: _ => ev_sequence (rp_event record) | [] => next_sequence a end.

Definition event_batch (after_sequence max_events : N) : M (result EventBatch ErrorBody) :=
  let* a := gets id in
  if next_sequence a <=? after_sequence then
    mret (Err (with_details
      (jobj [("requested_after", diagnostic_u64 after_sequence); ("last_sequence", JNum (next_sequence a - 1))]%string)
      (ErrorBody_new InvalidConfig "event cursor is ahead of the session's published history")))
  else if after_sequence <? oldest_available a - 1 then
    let* snap := snapshot in
    ensure_event_batch_fits (mkEventBatch [] (next_sequence a)
      (Some (mkReplayGap after_sequence (oldest_available a) (next_sequence a) snap)))
  else
    let limit := if max_events =? 0 then default_event_batch_size (config a) else max_events in
    let '(first, stop) := replay_page_range (oldest_available a) (N.of_nat (length (replay a))) after_sequence limit in
    let page := take (N.to_nat (stop - first)) (drop (N.to_nat first) (replay a)) in
    let*? events := mret (fitting_event_page page (frame_limit a)) in
    if (first <? stop) && bool_decide (events = []) then
      mret (Err (ErrorBody_new RecoveryFailed "retained event cannot fit without skipping its replay cursor"))
    else
      let*? next := mret (match last events with
        | Some event =>
            ok_or (checked_add U64_MAX (ev_sequence event) 1)
              (ErrorBody_new RecoveryFailed "event cursor cannot advance without overflow")
        | None =>
            if after_sequence <? next_sequence a
            then ok_or (safe_sum after_sequence 1) (sequence_capacity_error 1 a)
            else Ok (next_sequence a)
        end) in
      ensure_event_batch_fits (mkEventBatch events next None).

(** ** Storing the outcome of a turn *)

Definition turn_history_capacity_error (message : string) (additional_bytes : N) (a : SessionActor) : ErrorBody :=
  with_details
    (jobj [("retained_turns", diagnostic_usize (N.of_nat (size (turns a))));
           ("maximum_turns", diagnostic_usize (turn_history_capacity (config a)));
           ("retained_bytes", diagnostic_usize (turn_history_bytes a));
           ("additional_bytes", diagnostic_usize additional_bytes);
           ("maximum_bytes", diagnostic_usize (turn_history_byte_capacity (config a)))]%string)
    (ErrorBody_new TurnHistoryCapacityExceeded message).

(** Whether the turn history has no room for this many more bytes. *)
Definition history_is_full (additional_bytes : N) (a : SessionActor) : bool :=
  match checked_add USIZE_MAX (turn_history_bytes a) additional_bytes with
  | Some total => turn_history_byte_capacity (config a) <? total
  | None => true
  end.

Definition with_terminal (terminal : option StoredTurnTerminal) (r : TurnRecord) : TurnRecord :=
  mkTurnRecord (rec_prompt_fingerprint r) (rec_normalized_prompt r) (rec_submitted_at_ms r) terminal.

Definition try_store_terminal_with_bytes (turn_id : TurnId) (terminal : StoredTurnTerminal) (encoded_bytes : N) :
    M (result unit ErrorBody) :=
  if encoded_bytes =? USIZE_MAX then
    mret (Err (ErrorBody_new RecoveryFailed "terminal outcome cannot be serialized within the protocol-v1 domain"))
  else
    let additional_bytes := encoded_bytes - TERMINAL_FAILURE_RESERVE_BYTES in
    let* a := gets id in
    if history_is_full additional_bytes a then
      mret (Err (turn_history_capacity_error
        "the exact terminal outcome does not fit the per-session turn history" additional_bytes a))
    else
      match turns a !! turn_id with
      | None => mret (Err (ErrorBody_new Internal "terminal outcome has no reserved TurnId record"))
      | Some record =>
          match rec_terminal record with
          | Some _ => mret (Err (ErrorBody_new Internal "terminal outcome was already recorded"))
          | None =>
              modify (set_turns (<[turn_id := with_terminal (Some terminal) record]> (turns a))) ;*
              modify (set_turn_history_bytes (saturating_add USIZE_MAX (turn_history_bytes a) additional_bytes)) ;*
              mret (Ok tt)
          end
      end.

Definition try_store_terminal (turn_id : TurnId) (terminal : StoredTurnTerminal) : M (result unit ErrorBody) :=
  try_store_terminal_with_bytes turn_id terminal (stored_terminal_bytes terminal).

Definition bounded_terminal_error (turn_id : TurnId) (error : ErrorBody) (a : SessionActor) : ErrorBody :=
  let actual_bytes := terminal_error_wire_bytes (session_id a) (generation_id a) turn_id error in
  if actual_bytes =? USIZE_MAX then
    ErrorBody_new RecoveryFailed "terminal error cannot be serialized within the protocol-v1 domain"
  else if actual_bytes <=? frame_limit a then error
  else
    with_details
      (jobj [("actual_bytes", diagnostic_usize actual_bytes); ("maximum_bytes", diagnostic_usize (frame_limit a));
             ("original_code", JStr (code_debug (eb_code error)))]%string)
      (ErrorBody_new ResultTooLarge "terminal error exceeds the native frame limit").

(** The second try fails only by a panic. *)
Definition store_bounded_failure (turn_id : TurnId) (error : ErrorBody) : M ErrorBody :=
  let* error := gets (bounded_terminal_error turn_id error) in
  let* stored := try_store_terminal turn_id (StoredFailed error) in
  match stored with
  | Ok _ => mret error
  | Err capacity_error =>
      let* capacity_error := gets (bounded_terminal_error turn_id capacity_error) in
      let* stored := try_store_terminal turn_id (StoredFailed capacity_error) in
      match stored with Ok _ => mret capacity_error | Err _ => mpanic end
  end.

Definition replace_terminal_with_failure (turn_id : TurnId) (error : ErrorBody) : M ErrorBody :=
  let* a := gets id in
  (match turns a !! turn_id with
   | Some record =>
       modify (set_turns (<[turn_id := with_terminal None record]> (turns a))) ;*
       match rec_terminal record with
       | Some previous =>
           modify (set_turn_history_bytes
             (turn_history_bytes a - (stored_terminal_bytes previous - TERMINAL_FAILURE_RESERVE_BYTES)))
       | None => mret tt
       end
   | None => mret tt
   end) ;*
  store_bounded_failure turn_id error.

(** ** Releasing a writable attachment *)

Definition release_attach_after_failed_turn : M unit :=
  let* pending := gets writable_attach_release_pending in
  if pending then
    modify (set_writable_attach None) ;*
    modify (set_writable_attach_release_pending false) ;*
    let* now := checked_now_ms "session_timestamp" in
    match now with Ok updated_at_ms => modify (set_updated_at_ms updated_at_ms) | Err _ => mret tt end
  else mret tt.

Definition release_attach_after_proven_turn : M unit :=
  let* a := gets id in
  match writable_attach_release_pending a, writable_attach a with
  | true, Some attach_id => act (SpawnAttachReconciliation attach_id)
  | _, _ => mret tt
  end.

(** ** Ending a turn *)

Definition poison_after_unpublishable_terminal (turn_id : TurnId) (error : ErrorBody) : M unit :=
  ignore (replace_terminal_with_failure turn_id error) ;*
  modify (set_state S.Tainted) ;*
  modify (set_needs_input None) ;*
  modify (set_needs_input_resume None) ;*
  release_attach_after_failed_turn ;*
  modify (set_last_turn None).

(** One answer to every cancel request that waits on the turn. *)
Fixpoint answer_waiters (waiters : list N) (answer : SessionActor -> result CancelTurnResult ErrorBody) : M unit :=
  match waiters with
  | [] => mret tt
  | waiter :: waiters =>
      let* reply := gets answer in
      act (ReplyCancel waiter reply) ;* answer_waiters waiters answer
  end.

Definition cancel_result (turn_id : TurnId) (outcome : CancelOutcome) (a : SessionActor) :
    result CancelTurnResult ErrorBody :=
  Ok (mkCancelResult (session_id a) (generation_id a) turn_id outcome (state a)).

Definition take_active : M ActiveTurn :=
  let* active := gets active in
  match active with
  | Some active => modify (set_active None) ;* mret active
  | None => mpanic
  end.

Definition fail_active (turn_id : TurnId) (error : ErrorBody) (reaped : bool) : M unit :=
  let* active := take_active in
  modify (fun a => set_process_reaped (process_reaped a || reaped) a) ;*
  let* completed_at_ms := checked_now_ms "turn_completed_at" in
  let* error := store_bounded_failure turn_id error in
  let* target := gets (fun a => if bool_decide (state a = S.Cancelling) then S.Tainted else S.Failed) in
  let* moved := transition target (Some (eb_message error)) (Some turn_id) in
  release_attach_after_failed_turn ;*
  let* final_sequence := gets next_sequence in
  let* terminal_event :=
    match moved with
    | Ok _ => let*? _ := emit (Some turn_id) (TurnFailed error) in mret (Ok tt)
    | Err e => mret (Err e)
    end in
  (match terminal_event with
   | Err publish_error => poison_after_unpublishable_terminal turn_id publish_error
   | Ok _ =>
       modify (set_last_turn (match completed_at_ms with
                              | Ok t => Some (mkTurnSummary turn_id OutcomeFailed t final_sequence)
                              | Err _ => None
                              end))
   end) ;*
  answer_waiters (at_cancel_waiters active) (cancel_result turn_id CancelRecoveryFailed).

Definition finish_completed_with_error (turn_id : TurnId) (completed_at_ms : TimestampMs) (error : ErrorBody) : M unit :=
  let completed_at_ms := checked_actor_timestamp completed_at_ms "turn_completed_at" in
  let error := match completed_at_ms with Ok _ => error | Err timestamp_error => timestamp_error end in
  let* error := store_bounded_failure turn_id error in
  let* final_sequence := gets next_sequence in
  let* emitted := emit (Some turn_id) (TurnFailed error) in
  match emitted with
  | Err emit_error => poison_after_unpublishable_terminal turn_id emit_error
  | Ok _ =>
      modify (set_last_turn (match completed_at_ms with
                             | Ok t => Some (mkTurnSummary turn_id OutcomeFailed t final_sequence)
                             | Err _ => None
                             end))
  end.

Definition complete_active (turn_id : TurnId) (result : TurnResult) (deadline : TurnDeadline) : M unit :=
  modify (set_active None) ;*
  let* moved := transition S.Ready None (Some turn_id) in
  match moved with
  | Err error => poison_after_unpublishable_terminal turn_id error
  | Ok _ =>
      release_attach_after_proven_turn ;*
      let* final_sequence := gets next_sequence in
      let result := with_final_sequence final_sequence result in
      let completed_at_ms := tt_completed_at_ms (res_timings result) in
      let wire_bytes := turn_result_wire_bytes result in
      let stored := StoredResult result in
      let stored_bytes := stored_terminal_bytes stored in
      let* late := expired deadline in
      let* limit := gets frame_limit in
      if late then
        let* now := now_ms in finish_completed_with_error turn_id now turn_timeout_error
      else if wire_bytes =? USIZE_MAX then
        finish_completed_with_error turn_id completed_at_ms
          (ErrorBody_new RecoveryFailed "turn result cannot be serialized within the protocol-v1 domain")
      else if limit <? wire_bytes then
        finish_completed_with_error turn_id completed_at_ms
          (fit_error ResultTooLarge "exact turn result exceeds the native frame limit" wire_bytes limit)
      else
        let* kept := try_store_terminal_with_bytes turn_id stored stored_bytes in
        match kept with
        | Err error => finish_completed_with_error turn_id completed_at_ms error
        | Ok _ =>
            let* emitted := emit (Some turn_id) (TurnCompleted result) in
            match emitted with
            | Err error => poison_after_unpublishable_terminal turn_id error
            | Ok _ =>
                modify (set_last_turn (Some (mkTurnSummary turn_id (res_outcome result) completed_at_ms
                                               (res_final_sequence result))))
            end
        end
  end.

Definition timeout_completed_at_commit (turn_id : TurnId) : M unit :=
  modify (set_active None) ;*
  let* moved := transition S.Ready None (Some turn_id) in
  match moved with
  | Err error => poison_after_unpublishable_terminal turn_id error
  | Ok _ =>
      release_attach_after_proven_turn ;*
      let* now := now_ms in
      finish_completed_with_error turn_id now turn_timeout_error
  end.

(** The result of a cancelled turn: nothing was read of its transcript. *)
Definition cancelled_result (turn_id : TurnId) (completed_at_ms : TimestampMs) (final_sequence : N)
    (a : SessionActor) : TurnResult :=
  let submitted_at_ms :=
    match turns a !! turn_id with Some record => rec_submitted_at_ms record | None => completed_at_ms end in
  mkTurnResult (session_id a) (generation_id a) turn_id OutcomeCancelled EmptyString [] [] None None
    UsageBreakdown_default 0
    (mkTimings submitted_at_ms None None completed_at_ms None None None None None)
    (compatibility_warnings (compatibility a) ++ permission_bypass_warnings (dangerous_permission_bypass a))
    (cr_claude_version (compatibility a)) (compatibility a)
    (mkProvenance TranscriptAuthority false false true true true false) final_sequence.

Definition finish_cancel (turn_id : TurnId) (outcome : CancelOutcome) (recovered_to_ready : bool)
    (completed_at_ms : TimestampMs) (reaped : bool) : M unit :=
  match checked_actor_timestamp completed_at_ms "turn_completed_at" with
  | Err error => fail_active turn_id error reaped
  | Ok _ =>
      let* active := take_active in
      modify (fun a => set_process_reaped (process_reaped a || reaped) a) ;*
      let unpublishable error :=
        poison_after_unpublishable_terminal turn_id error ;*
        answer_waiters (at_cancel_waiters active) (cancel_result turn_id CancelRecoveryFailed) in
      let finish terminal_outcome final_sequence :=
        modify (set_last_turn (Some (mkTurnSummary turn_id terminal_outcome completed_at_ms final_sequence))) ;*
        answer_waiters (at_cancel_waiters active) (cancel_result turn_id outcome) in
      let* target := gets (fun a =>
        if recovered_to_ready && negb (writable_attach_release_pending a) then S.Ready else S.Tainted) in
      let* moved := transition target None (Some turn_id) in
      match moved with
      | Err error => unpublishable error
      | Ok _ =>
          release_attach_after_failed_turn ;*
          let* final_sequence := gets next_sequence in
          let* emitted := emit (Some turn_id) (TurnCancelled outcome recovered_to_ready) in
          match emitted with
          | Err error => unpublishable error
          | Ok _ =>
              if recovered_to_ready then
                let* result := gets (cancelled_result turn_id completed_at_ms final_sequence) in
                let* stored := try_store_terminal turn_id (StoredResult result) in
                match stored with
                | Ok _ => finish OutcomeCancelled final_sequence
                | Err error =>
                    let* error := store_bounded_failure turn_id error in
                    let* final_sequence := gets next_sequence in
                    let* emitted := emit (Some turn_id) (TurnFailed error) in
                    match emitted with
                    | Err emit_error => unpublishable emit_error
                    | Ok _ => finish OutcomeFailed final_sequence
                    end
                end
              else
                ignore (store_bounded_failure turn_id
                  (ErrorBody_new RecoveryFailed "Claude did not recover to a ready prompt after cancellation")) ;*
                finish OutcomeFailed final_sequence
          end
      end
  end.

(** ** Taking and cancelling turns *)

(** Why a session that is not ready refuses a turn. *)
Definition not_ready_message (a : SessionActor) : string :=
  match needs_input a with
  | Some info =>
      ("session is not ready: " +:+ state_debug (state a) +:+ " (" +:+ kind_debug (ni_kind info) +:+ ": "
       +:+ ni_message info +:+ ")")%string
  | None => ("session is not ready: " +:+ state_debug (state a))%string
  end.

Definition not_ready_error (a : SessionActor) : ErrorBody :=
  let '(code, retry) :=
    match state a with
    | S.NeedsInput =>
        (match needs_input a with Some info => needs_input_error_code info | None => Protocol.NeedsInput end, true)
    | S.Tainted => (RecoveryFailed, false)
    | S.Closed | S.Closing => (SessionNotFound, false)
    | S.Failed => (TranscriptUnavailable, false)
    | _ => (SessionBusy, true)
    end in
  let error := retryable retry (ErrorBody_new code (not_ready_message a)) in
  match needs_input a with
  | Some info =>
      with_details
        (jobj [("violation", JStr "session_not_ready"); ("state", JStr (state_debug (state a)));
               ("needs_input_kind", kind_json (ni_kind info)); ("needs_input_message", JStr (ni_message info));
               ("recommendation", JStr (needs_input_recommendation (ni_kind info)))]%string) error
  | None => error
  end.

(** The answer to a turn id that was used before. *)
Definition resubmit (turn : TurnRequest) (record : TurnRecord) (fingerprint : N) (normalized_prompt : list N) :
    M (result TurnAccepted ErrorBody) :=
  if negb (rec_prompt_fingerprint record =? fingerprint) || negb (bool_decide (rec_normalized_prompt record = normalized_prompt))
  then mret (Err (ErrorBody_new IdConflict "turn_id was already used with a different prompt"))
  else
    let* replay_from_sequence := gets next_sequence in
    let*? _ :=
      match rec_terminal record with
      | Some terminal =>
          let*? _ := ensure_sequence_slots (1 + CLOSE_SEQUENCE_RESERVE) in
          match terminal with
          | StoredResult result =>
              emit (Some (tr_turn_id turn)) (TurnCompleted (with_final_sequence replay_from_sequence result))
          | StoredFailed error => emit (Some (tr_turn_id turn)) (TurnFailed error)
          end
      | None => mret (Ok 0)
      end in
    gets (fun a => Ok (mkTurnAccepted (session_id a) (generation_id a) (tr_turn_id turn) true (state a) replay_from_sequence)).

(** The guards between the clock reading and the reservation of a turn. *)
Definition admits_turn (a : SessionActor) : result unit ErrorBody :=
  match active a with
  | Some active =>
      Err (retryable true (ErrorBody_new SessionBusy
        ("session already has active turn " +:+ show_uuid (at_turn_id active))%string))
  | None =>
      if bool_decide (is_Some (writable_attach a)) then
        Err (retryable true (ErrorBody_new SessionBusy "a writable terminal attachment currently owns interactive input"))
      else if bool_decide (state a <> S.Ready) then Err (not_ready_error a)
      else Ok tt
  end.

Definition record_bytes (normalized_prompt : list N) : N :=
  saturating_add USIZE_MAX (saturating_add USIZE_MAX record_size (text_len normalized_prompt))
    TERMINAL_FAILURE_RESERVE_BYTES.

(** Reserve the turn, publish it and start its worker. *)
Definition accept_turn (turn : TurnRequest) (fingerprint : N) (normalized_prompt : list N)
    (submitted_at_ms : TimestampMs) : M (result TurnAccepted ErrorBody) :=
  let*? _ := gets admits_turn in
  let*? _ := ensure_sequence_slots (1 + TERMINAL_SEQUENCE_EVENTS + CLOSE_SEQUENCE_RESERVE) in
  let* a := gets id in
  if turn_history_capacity (config a) <=? N.of_nat (size (turns a)) then
    mret (Err (turn_history_capacity_error "the per-session TurnId capacity is exhausted" 0 a))
  else if history_is_full (record_bytes normalized_prompt) a then
    mret (Err (turn_history_capacity_error "the per-session turn history byte capacity is exhausted"
                 (record_bytes normalized_prompt) a))
  else
    modify (set_turn_history_bytes (turn_history_bytes a + record_bytes normalized_prompt)) ;*
    modify (set_turns (<[tr_turn_id turn := mkTurnRecord fingerprint normalized_prompt submitted_at_ms None]> (turns a))) ;*
    modify (set_active (Some (mkActive (tr_turn_id turn) []))) ;*
    let*? _ := transition S.Submitting None (Some (tr_turn_id turn)) in
    act (SpawnWorker turn submitted_at_ms (transcript_session_id a) (cell a)) ;*
    let* b := gets id in
    match active b with
    | Some active =>
        mret (Ok (mkTurnAccepted (session_id b) (generation_id b) (at_turn_id active) false (state b) (next_sequence b)))
    | None => mpanic
    end.

Definition submit (turn : TurnRequest) : M (result TurnAccepted ErrorBody) :=
  if negb (validate_v1_serializable (WTurn turn)) then
    mret (Err (ErrorBody_new InvalidConfig "turn request is outside the protocol-v1 wire domain"))
  else if match on_disconnect (tr_lease turn) with ContinueTurn => false | _ => true end
          || bool_decide (is_Some (heartbeat_timeout_ms (tr_lease turn)))
  then mret (Err (ErrorBody_new UnsupportedFeature
    "disconnect actions and heartbeat leases require a future leased connection API"))
  else
    let*? normalized_prompt := mret (validate_prompt nfc (tr_prompt turn)) in
    let fingerprint := prompt_fingerprint normalized_prompt in
    let* known := gets (fun a => turns a !! tr_turn_id turn) in
    match known with
    | Some record => resubmit turn record fingerprint normalized_prompt
    | None =>
        let*? submitted_at_ms := checked_now_ms "turn_submitted_at" in
        let* timeout := gets (fun a => default_turn_timeout_ms (config a)) in
        let*? effective_deadline_ms :=
          mret (checked_turn_deadline_unix_ms (tr_deadline_unix_ms turn) submitted_at_ms timeout) in
        if effective_deadline_ms <=? submitted_at_ms then
          mret (Err (ErrorBody_new TurnTimeout "turn deadline already elapsed"))
        else accept_turn turn fingerprint normalized_prompt submitted_at_ms
    end.

(** The request waits under [reply]; every answer to it is an act. *)
Definition cancel (turn_id : TurnId) (reply : N) : M unit :=
  let* a := gets id in
  if match turns a !! turn_id with Some record => bool_decide (is_Some (rec_terminal record)) | None => false end
  then act (ReplyCancel reply (cancel_result turn_id CancelAlreadyTerminal a))
  else match active a with
  | None => act (ReplyCancel reply (Err (ErrorBody_new IdConflict "turn is not active in this session")))
  | Some active0 =>
      if negb (at_turn_id active0 =? turn_id) then
        act (ReplyCancel reply (Err (ErrorBody_new IdConflict "turn_id does not match the active turn")))
      else
        let begin_recovery := bool_decide (state a <> S.Cancelling) in
        let* begun :=
          if begin_recovery then
            let*? _ := ensure_sequence_slots (1 + TERMINAL_SEQUENCE_EVENTS + CLOSE_SEQUENCE_RESERVE) in
            transition S.Cancelling None (Some turn_id)
          else mret (Ok tt) in
        match begun with
        | Err error => act (ReplyCancel reply (Err error))
        | Ok _ =>
            let* now_active := gets active in
            match now_active with
            | None => mpanic
            | Some active =>
                modify (set_active (Some (mkActive (at_turn_id active) (at_cancel_waiters active ++ [reply])))) ;*
                act (SignalAbort (at_turn_id active)) ;*
                if begin_recovery then act (SpawnCancelRecovery turn_id) else mret tt
            end
        end
  end.

(** ** Closing *)

(** [answer] is what [terminal.close] returns, if it is asked. *)
Definition close (policy : ClosePolicy) (answer : result bool DriverFailure) : M (result CloseSessionResult ErrorBody) :=
  let closed already reaped :=
    gets (fun a => Ok (mkCloseResult (session_id a) (generation_id a) already reaped)) in
  let* a := gets id in
  if bool_decide (state a = S.Closed) then closed true (process_reaped a)
  else
    modify (set_writable_attach None) ;*
    modify (set_writable_attach_release_pending false) ;*
    (match active a with
     | Some active =>
         modify (set_active None) ;*
         act (SignalAbort (at_turn_id active)) ;*
         answer_waiters (at_cancel_waiters active)
           (fun _ => Err (ErrorBody_new Cancelled "session closed while cancellation was pending"))
     | None => mret tt
     end) ;*
    let*? _ := transition S.Closing None None in
    let* reaped := gets process_reaped in
    if reaped then
      let*? _ := transition S.Closed None None in closed false true
    else
      act (CloseTerminal policy) ;*
      match answer with
      | Ok reaped =>
          modify (set_process_reaped reaped) ;*
          let*? _ := (if reaped then transition S.Closed None None else mret (Ok tt)) in
          closed false reaped
      | Err failure =>
          let protocol := into_protocol failure in
          ignore (transition S.Failed (Some (eb_message protocol)) None) ;*
          mret (Err protocol)
      end.

Definition expire_idle (at_ms : TimestampMs) (answer : result bool DriverFailure) :
    M (result (option CloseSessionResult) ErrorBody) :=
  let* a := gets id in
  let*? deadline := mret (checked_idle_deadline (updated_at_ms a) (idle_ttl_ms a)) in
  if negb (idle_state (state a)) || bool_decide (is_Some (active a)) || bool_decide (is_Some (writable_attach a))
     || (at_ms <? deadline)
  then mret (Ok None)
  else let*? r := close Force answer in mret (Ok (Some r)).

(** ** Writable attachments *)

Definition busy (message : string) : ErrorBody := retryable true (ErrorBody_new SessionBusy message).

Definition reserve_writable_attach (attach_id : N) : M (result unit ErrorBody) :=
  let* a := gets id in
  let*? _ := mret (refuse_writable_attach_on_minified_cell (cell a)) in
  if bool_decide (is_Some (writable_attach a)) then
    mret (Err (busy "session already has a writable terminal attachment"))
  else if negb (idle_state (state a)) then
    mret (Err (retryable (state_moves_on (state a)) (ErrorBody_new SessionBusy
      ("writable attach is unavailable while session is " +:+ state_debug (state a))%string)))
  else
    let*? updated_at_ms := checked_now_ms "session_timestamp" in
    modify (set_writable_attach (Some attach_id)) ;*
    modify (set_writable_attach_release_pending false) ;*
    modify (set_updated_at_ms updated_at_ms) ;*
    mret (Ok tt).

Definition release_writable_attach (attach_id : N) (completion : WritableAttachCompletion) : M (result unit ErrorBody) :=
  let* a := gets id in
  match writable_attach a with
  | None => mret (Ok tt)
  | Some current =>
      if negb (current =? attach_id) then
        mret (Err (ErrorBody_new IdConflict "writable attach reservation does not match the active attachment"))
      else
        let*? updated_at_ms := checked_now_ms "session_timestamp" in
        match completion with
        | Unused =>
            modify (set_writable_attach None) ;*
            modify (set_writable_attach_release_pending false) ;*
            modify (set_updated_at_ms updated_at_ms) ;*
            mret (Ok tt)
        | PotentiallyMutated =>
            modify (set_writable_attach_release_pending true) ;*
            modify (set_updated_at_ms updated_at_ms) ;*
            (if bool_decide (is_Some (active a)) then mret tt else act (SpawnAttachReconciliation attach_id)) ;*
            mret (Ok tt)
        end
  end.

Definition finish_attach_reconciliation (attach_id : N) (outcome : result AttachReconciliation ErrorBody) : M unit :=
  let* a := gets id in
  if negb (bool_decide (writable_attach a = Some attach_id)) || negb (writable_attach_release_pending a) then mret tt
  else
    let* now := checked_now_ms "session_timestamp" in
    match now with
    | Err _ => mret tt
    | Ok updated_at_ms =>
        modify (set_writable_attach None) ;*
        modify (set_writable_attach_release_pending false) ;*
        modify (set_updated_at_ms updated_at_ms) ;*
        let taint error := ignore (transition S.Tainted (Some (eb_message error)) None) in
        match outcome with
        | Ok AttachReady => resolve_needs_input S.Ready None
        | Ok (AttachNeedsInput info) =>
            let* r := set_needs_input_to info S.Ready None in
            match r with Err error => taint error | Ok _ => mret tt end
        | Err error => taint error
        end
    end.

(** ** The minified cell *)

Definition select_minified_cell : M (result unit ErrorBody) :=
  let* a := gets id in
  let*? _ := mret (require_tested_for_minified_cell (compatibility a)) in
  if bool_decide (is_Some (active a)) then mret (Err (busy "the cell cannot change while a turn is active"))
  else if bool_decide (is_Some (writable_attach a)) then
    mret (Err (busy "the cell cannot change while a writable terminal attachment is held"))
  else
    let*? updated_at_ms := checked_now_ms "session_timestamp" in
    modify (set_cell Minified) ;*
    modify (set_updated_at_ms updated_at_ms) ;*
    mret (Ok tt).

(** The state is tainted even when the change cannot be published. *)
Definition poison_after_failed_rebind (error : ErrorBody) : M ErrorBody :=
  let* moved := transition S.Tainted (Some (eb_message error)) None in
  (match moved with Err _ => modify (set_state S.Tainted) | Ok _ => mret tt end) ;*
  mret error.

Definition cleared_result (a : SessionActor) : ClearSessionResult :=
  mkClearResult (session_id a) (generation_id a) (transcript_session_id a) true (state a).

(** [rebind] is what typing [/clear] returns, [arm] what arming the new transcript does. *)
Definition clear_and_rebind (expected : option SessionId) (deadline_unix_ms : TimestampMs)
    (rebind : result SessionId DriverFailure) (arm : result unit DriverFailure) :
    M (result ClearSessionResult ErrorBody) :=
  let* a := gets id in
  if match expected with Some e => negb (e =? transcript_session_id a) | None => false end then
    mret (Err (with_details
      (jobj [("field", JStr "expected_transcript_session_id"); ("violation", JStr "stale_transcript_fence")]%string)
      (ErrorBody_new IdConflict "the clear names a transcript this session is not bound to")))
  else if bool_decide (cell a <> Minified) then
    mret (Err (ErrorBody_new UnsupportedFeature
      "clearing between turns is a minified-cell operation and this session is not one"))
  else if bool_decide (is_Some (active a)) then
    mret (Err (busy "a turn is active and its transcript must not be abandoned underneath it"))
  else if bool_decide (state a <> S.Ready) then
    mret (Err (retryable (state_moves_on (state a) || bool_decide (state a = S.NeedsInput))
      (ErrorBody_new SessionBusy ("session is not ready to be cleared: " +:+ state_debug (state a))%string)))
  else
    act (TypeClear (transcript_session_id a) deadline_unix_ms) ;*
    match rebind with
    | Err failure =>
        let error := into_protocol failure in
        if clear_was_not_submitted (eb_details error) then mret (Err error)
        else let* error := poison_after_failed_rebind error in mret (Err error)
    | Ok rebound =>
        act (ArmTranscript rebound) ;*
        match arm with
        | Err failure => let* error := poison_after_failed_rebind (into_protocol failure) in mret (Err error)
        | Ok _ =>
            modify (set_transcript_session_id rebound) ;*
            let*? updated_at_ms := checked_now_ms "session_timestamp" in
            modify (set_updated_at_ms updated_at_ms) ;*
            gets (fun a => Ok (cleared_result a))
        end
    end.

(** ** The message loop *)

Definition poll_startup_screen (screen : result TerminalScreenObservation DriverFailure) : M unit :=
  match screen with
  | Ok ScreenReady => resolve_needs_input S.Ready None
  | Ok (ScreenNeedsInput info) =>
      let* r := set_needs_input_to info S.Ready None in
      match r with
      | Err error => ignore (transition S.Failed (Some (eb_message error)) None)
      | Ok _ => mret tt
      end
  | Ok (ScreenRecognised _ | ScreenUnrecognised _) => mret tt
  | Err failure =>
      modify (set_needs_input None) ;*
      modify (set_needs_input_resume None) ;*
      ignore (transition S.Failed (Some (df_message failure)) None)
  end.

Definition update_turn_id (update : WorkerUpdate) : option TurnId :=
  match update with
  | UState t _ | UEvent t _ | UNeedsInput t _ _ | UCompleted t _ _ | UFailed t _ _ | UCancelled t _ _ _ _ => Some t
  | UAttachReconciled _ _ => None
  end.

Definition ends_turn (update : WorkerUpdate) : bool :=
  match update with UFailed _ _ _ | UCancelled _ _ _ _ _ => true | _ => false end.

Definition required_sequence_slots (update : WorkerUpdate) : N :=
  match update with
  | UNeedsInput _ (Some _) _ => 2 + TERMINAL_SEQUENCE_EVENTS + CLOSE_SEQUENCE_RESERVE
  | UState _ _ | UEvent _ _ | UNeedsInput _ None _ => 1 + TERMINAL_SEQUENCE_EVENTS + CLOSE_SEQUENCE_RESERVE
  | _ => TERMINAL_SEQUENCE_EVENTS + CLOSE_SEQUENCE_RESERVE
  end.

Definition apply_update (turn_id : TurnId) (update : WorkerUpdate) : M unit :=
  match update with
  | UState _ new_state =>
      let* a := gets id in
      if bool_decide (state a = S.Cancelling) then mret tt
      else if bool_decide (state a = S.NeedsInput) && bool_decide (is_Some (needs_input a))
      then modify (set_needs_input_resume (Some new_state))
      else ignore (transition new_state None (Some turn_id))
  | UEvent _ payload =>
      let* r := emit (Some turn_id) payload in
      match r with Err error => fail_active turn_id error false | Ok _ => mret tt end
  | UNeedsInput _ (Some info) resume_state =>
      let* r := set_needs_input_to info resume_state (Some turn_id) in
      match r with Err error => fail_active turn_id error false | Ok _ => mret tt end
  | UNeedsInput _ None resume_state => resolve_needs_input resume_state (Some turn_id)
  | UCompleted _ result deadline =>
      let* late := expired deadline in
      if late then timeout_completed_at_commit turn_id else complete_active turn_id result deadline
  | UFailed _ error reaped => fail_active turn_id error reaped
  | UCancelled _ outcome recovered_to_ready completed_at_ms reaped =>
      finish_cancel turn_id outcome recovered_to_ready completed_at_ms reaped
  | UAttachReconciled _ _ => mpanic
  end.

Definition handle_worker (update : WorkerUpdate) : M unit :=
  match update with
  | UAttachReconciled attach_id outcome => finish_attach_reconciliation attach_id outcome
  | _ =>
      match update_turn_id update with
      | None => mpanic
      | Some turn_id =>
          let* a := gets id in
          if negb (bool_decide (at_turn_id <$> active a = Some turn_id)) then mret tt
          else if bool_decide (state a = S.Cancelling) && negb (ends_turn update) then mret tt
          else
            let* room := ensure_sequence_slots (required_sequence_slots update) in
            match room with
            | Err error => fail_active turn_id error false
            | Ok _ => apply_update turn_id update
            end
      end
  end.

(** A command with what the boundary answers while its handler waits; a cancel request
    carries the number of its reply channel. *)
Inductive Command :=
| CSubmit (turn : TurnRequest)
| CCancel (turn_id : TurnId) (reply : N)
| CSnapshot
| CEvents (after_sequence max_events : N)
| CStoredTurn (turn_id : TurnId)
| CClose (policy : ClosePolicy) (answer : result bool DriverFailure)
| CReserveWritableAttach (attach_id : N)
| CReleaseWritableAttach (attach_id : N) (completion : WritableAttachCompletion)
| CExpireIdle (at_ms : TimestampMs) (answer : result bool DriverFailure)
| CSelectMinifiedCell
| CClearAndRebind (expected : option SessionId) (deadline_unix_ms : TimestampMs)
    (rebind : result SessionId DriverFailure) (arm : result unit DriverFailure).

Inductive Reply :=
| RSubmit (r : result TurnAccepted ErrorBody)
| RCancel
| RSnapshot (r : SessionSnapshot)
| REvents (r : result EventBatch ErrorBody)
| RStoredTurn (r : option StoredTurnTerminal)
| RClose (r : result CloseSessionResult ErrorBody)
| RUnit (r : result unit ErrorBody)
| RExpire (r : result (option CloseSessionResult) ErrorBody)
| RClear (r : result ClearSessionResult ErrorBody).

Definition reply_with {A} (k : A -> Reply) (m : M A) : M Reply := let* x := m in mret (k x).

Definition handle_command (command : Command) : M Reply :=
  match command with
  | CSubmit turn => reply_with RSubmit (submit turn)
  | CCancel turn_id reply => cancel turn_id reply ;* mret RCancel
  | CSnapshot => reply_with RSnapshot snapshot
  | CEvents after_sequence max_events => reply_with REvents (event_batch after_sequence max_events)
  | CStoredTurn turn_id => reply_with RStoredTurn (gets (fun a => turns a !! turn_id ≫= rec_terminal))
  | CClose policy answer => reply_with RClose (close policy answer)
  | CReserveWritableAttach attach_id => reply_with RUnit (reserve_writable_attach attach_id)
  | CReleaseWritableAttach attach_id completion => reply_with RUnit (release_writable_attach attach_id completion)
  | CExpireIdle at_ms answer => reply_with RExpire (expire_idle at_ms answer)
  | CSelectMinifiedCell => reply_with RUnit select_minified_cell
  | CClearAndRebind expected deadline_unix_ms rebind arm =>
      reply_with RClear (clear_and_rebind expected deadline_unix_ms rebind arm)
  end.

(** What wakes the loop: a message, or the tick of the screen poll. *)
Inductive Input :=
| InCommand (command : Command)
| InWorker (update : WorkerUpdate)
| InTick (screen : result TerminalScreenObservation DriverFailure).

(** The guard of the tick's branch of the [select]. *)
Definition polls_screen (a : SessionActor) : bool :=
  bool_decide (active a = None) && bool_decide (state a = S.NeedsInput) && bool_decide (writable_attach a = None).

(** One turn of the loop, with the reply it sends if it sends one. *)
Definition step (input : Input) : M (option Reply) :=
  match input with
  | InCommand command => let* r := handle_command command in mret (Some r)
  | InWorker update => handle_worker update ;* mret None
  | InTick screen =>
      let* a := gets id in
      (if polls_screen a then poll_startup_screen screen else mret tt) ;* mret None
  end.

(** The loop over the inputs in the order they come; it ends when the session is closed.
    When it ends a turn that is still active is told to abort. *)
Fixpoint run (inputs : list Input) : M (list (option Reply)) :=
  match inputs with
  | [] => mret []
  | input :: inputs =>
      let* r := step input in
      let* a := gets id in
      if bool_decide (state a = S.Closed) then
        (match active a with
         | Some active => modify (set_active None) ;* act (SignalAbort (at_turn_id active))
         | None => mret tt
         end) ;* mret [r]
      else let* rs := run inputs in mret (r :: rs)
  end.

(** ** Starting a session *)

Record ActorInit := mkActorInit {
  init_session_id : SessionId;
  init_generation_id : SessionGenerationId;
  init_cwd : string;
  init_compatibility : CompatibilityReport;
  init_dangerous_permission_bypass : bool;
  init_resumable : bool;
  init_cell : SessionCell;
  init_agent : option SessionAgentPin;
  init_idle_ttl_ms : option N;
  init_initial_needs_input : option NeedsInputInfo;
}.

(** The actor [spawn] builds, the clock read once. *)
Definition fresh_actor (init : ActorInit) (config : SessionActorConfig) (idle_ttl_ms now : N) : SessionActor :=
  mkActor (init_session_id init) (init_session_id init) (init_generation_id init) (init_cwd init)
    (init_compatibility init) (init_dangerous_permission_bypass init) (init_resumable init) config idle_ttl_ms
    S.Creating now now None None None None ∅ 0 [] 0 1 0 false None false (init_cell init) (init_agent init)
    1 0 [] [].

(** [None] stands for a panic. *)
Definition spawn (init : ActorInit) (config : SessionActorConfig) :
    option (result (SessionHandle * SessionActor) ErrorBody) :=
  let idle_ttl_ms := default (cfg_idle_ttl_ms config) (init_idle_ttl_ms init) in
  match (let? now := checked_actor_timestamp (clock 0) "event_timestamp" in
         let? _ := checked_idle_deadline now idle_ttl_ms in Ok now) with
  | Err e => Some (Err e)
  | Ok now =>
      let boot : M (result SessionHandle ErrorBody) :=
        let*? _ := transition S.Booting (Some "actor_registered"%string) None in
        let*? _ :=
          match init_initial_needs_input init with
          | Some info => set_needs_input_to info S.Ready None
          | None => transition S.Ready (Some "backend_ready"%string) None
          end in
        let* a := gets id in
        match checked_sub (next_sequence a) 1 with
        | None => mpanic
        | Some last_sequence =>
            mret (Ok (mkSessionHandle (session_id a) (generation_id a) (state a) (compatibility a)
                        (created_at_ms a) last_sequence (agent a)))
        end in
      match boot (fresh_actor init config idle_ttl_ms now) with
      | None => None
      | Some (Err e, _) => Some (Err e)
      | Some (Ok handle, actor) => Some (Ok (handle, actor))
      end
  end.

End Ops.
