(* ===== verification/ActorProofs.v ===== *)
(** * What every session keeps

    A weakest precondition for handlers (a handler that panics satisfies none), the
    invariant of the session actor in three parts (the published log, the book of turns,
    the face it shows), and the specification of every handler against them. *)

From S2P Require Import Prelude Text Protocol Composer Session Screen Backend Actor ActorOps.

(** ** Weakest preconditions *)

Definition wp {A} (m : M A) (Q : A -> SessionActor -> Prop) (a : SessionActor) : Prop :=
  match m a with Some (x, a') => Q x a' | None => False end.

Lemma awp_ret {A} (x : A) Q a : Q x a -> wp (mret x) Q a.
Proof. done. Qed.
Lemma awp_gets {A} (f : SessionActor -> A) (Q : A -> SessionActor -> Prop) a : Q (f a) a -> wp (gets f) Q a.
Proof. done. Qed.
Lemma awp_modify f (Q : unit -> SessionActor -> Prop) a : Q tt (f a) -> wp (modify f) Q a.
Proof. done. Qed.
Lemma awp_act x (Q : unit -> SessionActor -> Prop) a : Q tt (set_acts (acts a ++ [x]) a) -> wp (act x) Q a.
Proof. done. Qed.
Lemma awp_bind {A B} (m : M A) (k : A -> M B) Q a : wp m (fun x => wp (k x) Q) a -> wp (mbind m k) Q a.
Proof. unfold wp, mbind. by destruct (m a) as [[x a']|]. Qed.
Lemma awp_try {A B} (m : M (result A ErrorBody)) (k : A -> M (result B ErrorBody)) Q a :
  wp m (fun r a' => match r with Ok x => wp (k x) Q a' | Err e => Q (Err e) a' end) a -> wp (mtry m k) Q a.
Proof. intros Hm. apply awp_bind. revert Hm. unfold wp. destruct (m a) as [[[x|e] a']|]; done. Qed.
Lemma awp_mono {A} (m : M A) (P Q : A -> SessionActor -> Prop) a :
  wp m P a -> (forall x a', P x a' -> Q x a') -> wp m Q a.
Proof. unfold wp. destruct (m a) as [[x a']|]; eauto. Qed.
Lemma awp_ignore {A} (m : M A) (Q : unit -> SessionActor -> Prop) a : wp m (fun _ => Q tt) a -> wp (ignore m) Q a.
Proof. intros Hm. unfold ignore. by apply awp_bind. Qed.
Lemma awp_run {A} (m : M A) Q a x a' : m a = Some (x, a') -> wp m Q a -> Q x a'.
Proof. unfold wp. by intros ->. Qed.
Lemma awp_total {A} (m : M A) Q a : wp m Q a -> exists x a', m a = Some (x, a') /\ Q x a'.
Proof. unfold wp. destruct (m a) as [[x a']|]; [eauto|done]. Qed.

(** Take one step of a handler apart. *)
Ltac wp_step :=
  lazymatch goal with
  | |- wp (mbind _ _) _ _ => apply awp_bind
  | |- wp (mtry _ _) _ _ => apply awp_try
  | |- wp (mret _) _ _ => apply awp_ret
  | |- wp (gets _) _ _ => apply awp_gets
  | |- wp (modify _) _ _ => apply awp_modify
  | |- wp (act _) _ _ => apply awp_act
  | |- wp (ignore _) _ _ => apply awp_ignore
  end; cbn beta zeta.
Ltac wp_steps := repeat wp_step.
(** Use the specification of the handler that runs next. *)
Tactic Notation "wp_use" uconstr(H) "as" simple_intropattern(x) simple_intropattern(b) simple_intropattern(p) :=
  eapply awp_mono; [eapply H|cbn beta; intros x b p].

(** Close a goal that is a hypothesis up to computation of the actor's fields. *)
Ltac by_conv :=
  repeat match goal with |- _ /\ _ => split end;
  first [reflexivity | match goal with Hc : _ |- _ => exact Hc end].

(** ** What the serializer promises *)

Definition small_value (v : json) : Prop :=
  (exists n, n <= USIZE_MAX /\ v = diagnostic_usize n) \/ (exists s, str_len s <= 64 /\ v = JStr s).

(** An error with a short message and at most five short details. *)
Definition compact_error (e : ErrorBody) : Prop :=
  str_len (eb_message e) <= 128 /\
  (eb_details e = JNull \/
   exists l, eb_details e = JObj l /\ (length l <= 5)%nat /\ Forall (fun kv => str_len kv.1 <= 32 /\ small_value kv.2) l).

(** A length is a [usize], and a compact error encodes within the reserve of a turn. *)
Class HostLaws `{Host} : Prop := {
  serialized_bytes_usize w : serialized_bytes w <= USIZE_MAX;
  compact_error_fits e : compact_error e -> serialized_bytes (WError e) <= TERMINAL_FAILURE_RESERVE_BYTES;
}.

(** Capacities are [usize]s. *)
Definition config_ok (c : SessionActorConfig) : Prop :=
  turn_history_capacity c <= USIZE_MAX /\ turn_history_byte_capacity c <= USIZE_MAX.

Section Invariant.
Context `{Host}.

(** ** The published log *)

Definition record_fits (limit : N) (r : ReplayRecord) : Prop :=
  rp_encoded_bytes r = serialized_bytes (WEvent (rp_event r)) /\ rp_encoded_bytes r <> USIZE_MAX /\
  single_event_response_bytes (rp_event r) <= limit.

Definition replay_total (l : list ReplayRecord) : N := foldr (fun r n => rp_encoded_bytes r + n) 0 l.

(** The log: sequences count from one without a hole, the ring is the end of the history
    and within its capacities, every retained event fits a frame alone. *)
Record log_inv (c : SessionActorConfig) (ttl sid gid updated : N) (ring : list ReplayRecord) (bytes next last : N)
    (hist : list EventEnvelope) : Prop := {
  log_next : next = N.of_nat (length hist) + 1;
  log_last : last = next - 1;
  log_sequence i e : hist !! i = Some e -> ev_sequence e = N.of_nat i + 1;
  log_ceiling : next <= N.min (cfg_event_sequence_ceiling c) MAX_EVENT_SEQUENCE + 1;
  log_suffix : exists dropped, hist = dropped ++ (rp_event <$> ring);
  log_bytes : bytes = replay_total ring;
  log_length_bound : N.of_nat (length ring) <= replay_capacity c;
  log_bytes_bound : bytes <= replay_byte_capacity c;
  log_fits : Forall (record_fits (N.min (max_frame_bytes c) MAX_NATIVE_FRAME_BYTES)) ring;
  log_small : Forall (fun e => single_event_response_bytes e <= N.min (max_frame_bytes c) MAX_NATIVE_FRAME_BYTES /\
                              serialized_bytes (WEvent e) <> USIZE_MAX) hist;
  log_stamped : Forall (fun e => ev_schema_version e = PROTOCOL_VERSION /\ ev_session_id e = sid /\ ev_generation_id e = gid /\
                                 ev_timestamp_ms e <= MAX_SAFE_JSON_INTEGER) hist;
  log_idle : updated + ttl <= MAX_SAFE_JSON_INTEGER;
}.

Definition log_ok (a : SessionActor) : Prop :=
  log_inv (config a) (idle_ttl_ms a) (session_id a) (generation_id a) (updated_at_ms a) (replay a)
    (replay_bytes a) (next_sequence a) (sequence a) (history a).

(** The actor without its log and clocks: what publishing leaves alone. *)
Definition beyond_log (a : SessionActor) : SessionActor :=
  set_updated_at_ms 0 (set_replay [] (set_replay_bytes 0 (set_next_sequence 0 (set_sequence 0
    (set_clock_reads 0 (set_instant_reads 0 (set_history [] a))))))).

(** Without its state and pending question either: what a transition leaves alone. *)
Definition beyond_face (a : SessionActor) : SessionActor :=
  set_state S.Creating (set_needs_input None (set_needs_input_resume None (beyond_log a))).

Lemma beyond_log_face a b : beyond_log b = beyond_log a -> beyond_face b = beyond_face a.
Proof. unfold beyond_face. by intros ->. Qed.

(** ** Trimming *)

Lemma replay_total_app l1 l2 : replay_total (l1 ++ l2) = replay_total l1 + replay_total l2.
Proof. induction l1 as [|r l1 IH]; simpl; [done|]. rewrite IH. lia. Qed.

Lemma trim_replay_spec cap bcap ring bytes ring' bytes' :
  bytes = replay_total ring -> trim_replay cap bcap ring bytes = (ring', bytes') ->
  (exists dropped, ring = dropped ++ ring') /\ bytes' = replay_total ring' /\
  N.of_nat (length ring') <= cap /\ bytes' <= bcap.
Proof.
  revert bytes. induction ring as [|r ring IH]; intros bytes ->.
  - intros [= <- <-]. simpl. repeat split; [by exists []|lia|lia].
  - cbn [trim_replay]. destruct (_ || _) eqn:E.
    + intros Ht. apply IH in Ht as ((dropped & ->) & -> & ? & ?); [|simpl; lia].
      split; [by exists (r :: dropped)|done].
    + intros [= <- <-]. apply orb_false_iff in E as [E1%N.ltb_ge E2%N.ltb_ge].
      split; [by exists []|done].
Qed.

Lemma checked_actor_timestamp_Ok t res t' :
  checked_actor_timestamp t res = Ok t' -> t' = t /\ t <= MAX_SAFE_JSON_INTEGER.
Proof. unfold checked_actor_timestamp. intros. res_inv. subst. split; [done|]. by apply N.leb_le. Qed.

Lemma safe_sum_Some x y z : safe_sum x y = Some z <-> z = x + y /\ x + y <= MAX_SAFE_JSON_INTEGER.
Proof.
  unfold safe_sum. split.
  - destruct (checked_add U64_MAX x y) as [c|] eqn:E; [|done].
    apply checked_add_Some in E as [-> _]. cbn.
    destruct (x + y <=? MAX_SAFE_JSON_INTEGER) eqn:E2; [|done].
    intros [= <-]. by apply N.leb_le in E2.
  - intros [-> Hle]. rewrite (proj2 (checked_add_Some U64_MAX x y (x + y))); cbn.
    + by rewrite (proj2 (N.leb_le _ _) Hle).
    + split; [done|]. unfold MAX_SAFE_JSON_INTEGER, U64_MAX in *; lia.
Qed.

Lemma checked_idle_deadline_Ok u ttl d :
  checked_idle_deadline u ttl = Ok d <-> d = u + ttl /\ u + ttl <= MAX_SAFE_JSON_INTEGER.
Proof. unfold checked_idle_deadline. rewrite ok_or_Ok. apply safe_sum_Some. Qed.

Lemma checked_now_ms_wp res a :
  wp (checked_now_ms res)
    (fun r b => b = set_clock_reads (S (clock_reads a)) a /\
    match r with
       | Ok t => t <= MAX_SAFE_JSON_INTEGER /\ t + idle_ttl_ms a <= MAX_SAFE_JSON_INTEGER
       | Err _ => True
       end) a.
Proof.
  unfold checked_now_ms, now_ms. apply awp_bind. unfold wp at 1. wp_steps. split; [done|].
  destruct (let? _ := _ in _) eqn:E; [|done]. res_inv.
  match goal with H : checked_actor_timestamp _ _ = _ |- _ => apply checked_actor_timestamp_Ok in H as [-> ?] end.
  match goal with H : checked_idle_deadline _ _ = _ |- _ => apply checked_idle_deadline_Ok in H as [_ ?] end.
  simplify_eq. done.
Qed.

Lemma expired_wp d a : wp (expired d) (fun _ b => beyond_log b = beyond_log a /\ (log_ok a -> log_ok b) /\ history b = history a) a.
Proof.
  unfold expired, instant_now, now_ms. apply awp_bind.
  destruct (dl_monotonic d) as [m|]; [apply awp_bind; unfold wp at 1; wp_steps|wp_steps];
    [destruct (m <=? _)|]; wp_steps; try (split; [|split]; done);
    apply awp_bind; unfold wp at 1; wp_steps; (split; [|split]; done).
Qed.

Lemma ensure_sequence_slots_wp n a :
  wp (ensure_sequence_slots n)
    (fun r b => b = set_clock_reads (S (clock_reads a)) a /\
    match r with Ok _ => n <= remaining_sequence_slots a | Err _ => True end) a.
Proof.
  unfold ensure_sequence_slots. wp_step. wp_use checked_now_ms_wp as [t|e] b [-> Hb].
  - wp_steps. split; [done|]. change (remaining_sequence_slots (set_clock_reads _ a)) with (remaining_sequence_slots a).
    destruct (N.ltb_spec (remaining_sequence_slots a) n); [done|lia].
  - done.
Qed.

(** ** Publishing *)

(** [b] is [a] after one event that carries the payload, or says that it was too large. *)
Definition published (a : SessionActor) (turn_id : option TurnId) (payload : EventPayload) (b : SessionActor) : Prop :=
  exists e, history b = history a ++ [e] /\ ev_turn_id e = turn_id /\
    (ev_event e = payload \/ exists n l, ev_event e = oversized_event_warning (event_payload_name payload) n l).

Lemma bounded_event_Ok mk payload limit e :
  bounded_event mk payload limit = Ok e ->
  single_event_response_bytes e <= limit /\
  exists p, e = mk p /\ (p = payload \/ exists n l, p = oversized_event_warning (event_payload_name payload) n l).
Proof.
  unfold bounded_event. intros. res_inv; subst e; [|].
  - match goal with H : _ || _ = false |- _ => apply orb_false_iff in H as [_ ?%N.ltb_ge] end.
    split; [done|]. eexists. split; [done|]. right. eauto.
  - match goal with H : (limit <? _) = false |- _ => apply N.ltb_ge in H end.
    split; [done|]. eauto.
Qed.

Lemma push_event_ok a t e sequence :
  log_ok a -> sequence = next_sequence a -> sequence <= event_sequence_ceiling a ->
  t <= MAX_SAFE_JSON_INTEGER -> t + idle_ttl_ms a <= MAX_SAFE_JSON_INTEGER ->
  ev_schema_version e = PROTOCOL_VERSION ->
  ev_session_id e = session_id a -> ev_generation_id e = generation_id a -> ev_sequence e = sequence ->
  ev_timestamp_ms e = t ->
  single_event_response_bytes e <= frame_limit a -> serialized_bytes (WEvent e) <> USIZE_MAX ->
  let b := push_event t e (serialized_bytes (WEvent e)) sequence (sequence + 1) a in
  log_ok b /\ beyond_log b = beyond_log (set_clock_reads 0 a) /\
  history b = history a ++ [e] /\ next_sequence b = next_sequence a + 1.
Proof.
  intros Hlog -> Hceil Ht Httl Hver Hs Hg Hseq Hts Hfit Hser b. subst b. unfold push_event.
  destruct (trim_replay _ _ _ _) as [ring bytes] eqn:Etrim.
  apply trim_replay_spec in Etrim as ((dropped & Hdrop) & -> & Hlen & Hbytes);
    [|rewrite replay_total_app, (log_bytes _ _ _ _ _ _ _ _ _ _ Hlog); simpl; lia].
  assert (Hring : Forall (record_fits (frame_limit a)) (replay a ++ [mkReplay e (serialized_bytes (WEvent e))])).
  { apply Forall_app. split; [apply Hlog|]. apply Forall_singleton. done. }
  rewrite Hdrop, Forall_app in Hring. destruct Hring as [_ Hring].
  split; [|done]. destruct Hlog as [Hn Hl Hsq Hc [d0 Hd] _ _ _ _ Hsm Hst _].
  unfold log_ok; cbn. constructor; cbn; [|lia| | | |done|done|done|done| | |done].
  - rewrite length_app. simpl. lia.
  - intros i e' Hi. apply lookup_snoc_Some in Hi as [[Hi Hi']|[-> ->]]; [by apply Hsq|].
    rewrite Hseq. lia.
  - unfold event_sequence_ceiling in Hceil. lia.
  - exists (d0 ++ (rp_event <$> dropped)). rewrite <-app_assoc, <-fmap_app, <-Hdrop, fmap_app. simpl.
    by rewrite Hd, <-app_assoc.
  - apply Forall_app. split; [done|]. by apply Forall_singleton.
  - apply Forall_app. split; [done|]. apply Forall_singleton. by rewrite Hts.
Qed.

Lemma emit_wp turn_id payload a :
  log_ok a ->
  wp (emit turn_id payload)
    (fun r b => log_ok b /\ beyond_log b = beyond_log a /\
       match r with
       | Ok n => n = next_sequence a /\ next_sequence b = next_sequence a + 1 /\ published a turn_id payload b
       | Err _ => b = set_clock_reads (S (clock_reads a)) a
       end) a.
Proof.
  intros Hlog. unfold emit. wp_step. wp_use checked_now_ms_wp as [t|e] b [-> Hnow]; [|done].
  destruct Hnow as [Ht Httl]. do 2 wp_step. unfold id.
  destruct (N.ltb_spec (event_sequence_ceiling (set_clock_reads (S (clock_reads a)) a))
              (next_sequence (set_clock_reads (S (clock_reads a)) a))) as [|Hceil]; [done|].
  do 2 wp_step. destruct (checked_add _ _ _) as [next|] eqn:En; [|done]. cbn [ok_or].
  apply checked_add_Some in En as [-> _]. do 2 wp_step.
  destruct (bounded_event _ _ _) as [e|err] eqn:Ee; [|done].
  apply bounded_event_Ok in Ee as (Hfit & p & -> & Hp).
  destruct (N.eqb_spec (serialized_bytes (WEvent (EventEnvelope_new (session_id (set_clock_reads (S (clock_reads a)) a))
    (generation_id (set_clock_reads (S (clock_reads a)) a)) turn_id (next_sequence (set_clock_reads (S (clock_reads a)) a)) t p)))
    USIZE_MAX) as [|Hser]; [done|].
  do 2 wp_step. destruct (checked_add USIZE_MAX _ _) as [z|]; [|done]. cbn [ok_or]. do 3 wp_step.
  match goal with |- log_ok (push_event ?t ?e _ ?s _ ?b) /\ _ =>
    destruct (push_event_ok b t e s) as (Hok & Hbeyond & Hhist & Hnext); try done end.
  split; [done|]. split; [by rewrite Hbeyond|]. split; [done|]. split; [done|].
  eexists. split; [exact Hhist|]. split; [done|]. exact Hp.
Qed.

(** ** The face: the state, the pending question, the writable attachment *)

Definition is_state_change (p : EventPayload) : bool :=
  match p with SessionStateChanged _ _ _ => true | _ => false end.

(** The states a published history accounts for, one event at a time. A change is a step
    of the transition table; when its event was too large a warning stands for it; and a
    session may be tainted without an event. *)
Inductive state_path : list EventEnvelope -> S.SessionState -> Prop :=
| path_start : state_path [] S.Creating
| path_change l e previous current reason :
    state_path l previous -> is_valid_session_transition previous current = true ->
    ev_event e = SessionStateChanged previous current reason -> state_path (l ++ [e]) current
| path_omitted l e previous current n limit :
    state_path l previous -> is_valid_session_transition previous current = true ->
    ev_event e = oversized_event_warning "session_state_changed" n limit -> state_path (l ++ [e]) current
| path_other l e s : state_path l s -> is_state_change (ev_event e) = false -> state_path (l ++ [e]) s
| path_taint l s : state_path l s -> state_path l S.Tainted.

Record face_inv (needs : option NeedsInputInfo) (st : S.SessionState) (hist : list EventEnvelope) (c : SessionCell)
    (attach : option N) : Prop := {
  face_needs : is_Some needs -> st = S.NeedsInput;
  face_path : state_path hist st;
  face_minified : c = Minified -> attach = None;
}.

Definition face_ok (a : SessionActor) : Prop :=
  face_inv (needs_input a) (state a) (history a) (cell a) (writable_attach a).

(** The log and the face together. *)
Definition shown (a : SessionActor) : Prop := log_ok a /\ face_ok a.

(** What publishing and transitions may do: extend the history and change the face. *)
Definition faced (a b : SessionActor) : Prop := beyond_face b = beyond_face a /\ history a `prefix_of` history b.

Lemma faced_trans a b c : faced a b -> faced b c -> faced a c.
Proof. intros [H1 P1] [H2 P2]. split; [congruence|]. by etrans. Qed.

Lemma faced_history a b : beyond_face b = beyond_face a -> history b = history a -> faced a b.
Proof. intros Hb Hh. split; [exact Hb|]. rewrite Hh. done. Qed.

Lemma faced_refl a : faced a a.
Proof. by apply faced_history. Qed.

Lemma faced_clock n a : faced a (set_clock_reads n a).
Proof. apply faced_history; reflexivity. Qed.

Lemma published_faced a t p b : published a t p b -> beyond_log b = beyond_log a -> faced a b.
Proof. intros (e & Hh & _) Hb. split; [by apply beyond_log_face|]. rewrite Hh. by exists [e]. Qed.

Lemma published_other a t p b :
  published a t p b -> is_state_change p = false -> beyond_log b = beyond_log a -> face_ok a -> face_ok b.
Proof.
  intros (e & Hh & _ & Hp) Hc Hb [Hn Hpath Hm]. unfold face_ok.
  rewrite (f_equal needs_input Hb : needs_input b = needs_input a), (f_equal state Hb : state b = state a),
    (f_equal cell Hb : cell b = cell a), (f_equal writable_attach Hb : writable_attach b = writable_attach a), Hh.
  split; [done| |done]. apply path_other; [done|].
  destruct Hp as [->|(n & l & ->)]; done.
Qed.

(** Publishing something else than a change of state. *)
Lemma emit_shown turn_id payload a :
  shown a -> is_state_change payload = false ->
  wp (emit turn_id payload)
    (fun r b => shown b /\ faced a b /\ state b = state a /\ match r with Ok _ => published a turn_id payload b | Err _ => True end) a.
Proof.
  intros [Hlog Hface] Hp. wp_use emit_wp as r b (Hlog' & Hb & Hr); [done|]. destruct r as [n|e].
  - destruct Hr as (_ & _ & Hpub). pose proof (published_faced _ _ _ _ Hpub Hb) as H0.
    pose proof (published_other _ _ _ _ Hpub Hp Hb Hface) as H1. exact (conj (conj Hlog' H1) (conj H0 (conj (f_equal state Hb) Hpub))).
  - subst b. split; [exact (conj Hlog Hface)|]. split; [apply faced_clock|]. split; [reflexivity|exact I].
Qed.

Lemma transition_wp current reason turn_id a :
  shown a ->
  wp (transition current reason turn_id)
    (fun r b => shown b /\ faced a b /\
       match r with
       | Ok _ => state b = current /\ (is_valid_session_transition (state a) current = true \/ b = a)
       | Err _ => state b = state a /\ needs_input b = needs_input a
       end) a.
Proof.
  intros [Hlog Hface]. unfold transition. do 2 wp_step.
  case_bool_decide as Heq; [wp_step; split; [done|]; split; [apply faced_refl|]; split; [done|by right]|].
  destruct (is_valid_session_transition (state a) current) eqn:Hv; cbn [negb]; [|wp_step; split; [done|]; split; [apply faced_refl|done]].
  wp_step. wp_use emit_wp as [n|e] b (Hlog' & Hb & Hr); [done| |].
  - destruct Hr as (_ & _ & e & Hh & _ & He). destruct Hface as [Hn Hpath Hm].
    assert (Hgrow : history a `prefix_of` history b) by (rewrite Hh; by exists [e]).
    assert (Hpath' : state_path (history b) current).
    { rewrite Hh. destruct He as [He|(k & l & He)];
        [by eapply path_change|by eapply path_omitted]. }
    assert (Hc : cell b = Minified -> writable_attach b = None).
    { by rewrite (f_equal cell Hb : cell b = cell a), (f_equal writable_attach Hb : writable_attach b = writable_attach a). }
    destruct (bool_decide (state a = S.NeedsInput)) eqn:E1; cbn [andb];
      [destruct (bool_decide (current ≠ S.NeedsInput)) eqn:E2|]; wp_steps.
    + apply beyond_log_face in Hb. split; [split; [exact Hlog'|split]|split; [exact (conj Hb Hgrow)|split; [done|by left]]];
        [by intros [? ?]|exact Hpath'|exact Hc].
    + apply bool_decide_eq_true in E1. apply bool_decide_eq_false, dec_stable in E2. congruence.
    + assert (Hnb : needs_input b = needs_input a) by exact (f_equal needs_input Hb).
      apply beyond_log_face in Hb. split; [split; [exact Hlog'|split]|split; [exact (conj Hb Hgrow)|split; [done|by left]]];
        [|exact Hpath'|exact Hc].
      cbn. rewrite Hnb. intros ?%Hn. by apply bool_decide_eq_false in E1.
  - subst b. split; [exact (conj Hlog Hface)|]. split; [apply faced_clock|split; reflexivity].
Qed.

Lemma set_needs_input_to_wp info resume turn_id a :
  shown a ->
  wp (set_needs_input_to info resume turn_id) (fun _ b => shown b /\ faced a b) a.
Proof.
  intros Hs. unfold set_needs_input_to. do 4 wp_step. set (changed := match needs_input a with Some x => negb (needs_input_eqb x info) | None => true end).
  set (needed := bool_decide (state a <> S.NeedsInput)). wp_step.
  assert (Hs' : shown (set_clock_reads (S (clock_reads a)) a)) by exact Hs.
  wp_use ensure_sequence_slots_wp as [x|e] b [-> _]; [|split; [exact Hs|apply faced_clock]]. wp_step.
  assert (Ht : wp (if needed then transition S.NeedsInput (Some "interactive_input_required"%string) turn_id else mret (Ok tt))
    (fun r b => shown b /\ faced a b /\ match r with Ok _ => state b = S.NeedsInput | Err _ => True end)
    (set_clock_reads (S (clock_reads a)) a)).
  { destruct needed eqn:En.
    - wp_use transition_wp as [y|e] b (Hb & Hf & Hr); [exact Hs'| |]; (split; [done|]; split; [exact Hf|]); [apply Hr|done].
    - wp_step. split; [exact Hs|]. split; [apply faced_clock|]. apply bool_decide_eq_false in En. by apply dec_stable in En. }
  wp_use Ht as [y|e] b (Hb & Hf & Hr); [|by split]. do 4 wp_step.
  set (b1 := set_needs_input_resume _ _).
  assert (Hb1 : shown b1).
  { destruct Hb as [Hl [Hn Hp Hm]]. split; [exact Hl|]. split; [done|exact Hp|exact Hm]. }
  assert (Hf1 : faced a b1) by exact Hf.
  clearbody b1. destruct changed; [|by wp_step]. wp_step.
  wp_use emit_shown as [n|e] c (Hc & Hcb & _); [done|done| |];
    [wp_step|]; (split; [done|by eapply faced_trans]).
Qed.

Lemma resolve_needs_input_wp fallback turn_id a :
  shown a -> wp (resolve_needs_input fallback turn_id) (fun _ b => shown b /\ faced a b) a.
Proof.
  intros Hs. unfold resolve_needs_input. do 2 wp_step. destruct (negb _); [wp_step; split; [done|apply faced_refl]|]. do 3 wp_step.
  wp_use transition_wp as r b (Hb & Hf & _); done.
Qed.

(** ** The book of turns *)

Definition open_turn (id : TurnId) (ts : gmap TurnId TurnRecord) : Prop :=
  exists r, ts !! id = Some r /\ rec_terminal r = None.

(** What a record counts for: its prompt, its reserve, and what its outcome takes beyond it. *)
Definition record_cost (r : TurnRecord) : N :=
  record_bytes (rec_normalized_prompt r) +
  match rec_terminal r with Some t => stored_terminal_bytes t - TERMINAL_FAILURE_RESERVE_BYTES | None => 0 end.

Definition accounted (ts : gmap TurnId TurnRecord) : N := map_fold (fun _ r n => record_cost r + n) 0 ts.

Definition spawned (l : list Act) : list TurnId :=
  omap (fun x => match x with SpawnWorker turn _ _ _ => Some (tr_turn_id turn) | _ => None end) l.

(** The book: its bytes are exactly those of its records, it is within its capacities, the
    active turn has no outcome yet, and a worker was started at most once per turn. *)
Record book_inv (c : SessionActorConfig) (ts : gmap TurnId TurnRecord) (bytes : N) (act : option ActiveTurn)
    (done : list Act) : Prop := {
  book_bytes : bytes = accounted ts;
  book_bytes_bound : bytes <= turn_history_byte_capacity c;
  book_count_bound : N.of_nat (size ts) <= turn_history_capacity c;
  book_active t : act = Some t -> open_turn (at_turn_id t) ts;
  book_spawned : NoDup (spawned done);
  book_spawned_known id : id ∈ spawned done -> is_Some (ts !! id);
}.

Definition book_ok (a : SessionActor) : Prop :=
  book_inv (config a) (turns a) (turn_history_bytes a) (active a) (acts a).

(** The actor without its book: what storing an outcome leaves alone. *)
Definition beyond_book (a : SessionActor) : SessionActor := set_turns ∅ (set_turn_history_bytes 0 a).

Lemma accounted_insert ts id r : ts !! id = None -> accounted (<[id := r]> ts) = record_cost r + accounted ts.
Proof. intros Hn. unfold accounted. rewrite map_fold_insert_L; [done|intros; lia|done]. Qed.

Lemma accounted_update ts id r r' :
  ts !! id = Some r -> accounted (<[id := r']> ts) + record_cost r = accounted ts + record_cost r'.
Proof.
  intros Hr. rewrite <-(insert_delete_eq ts), <-(insert_delete_id ts id r Hr) at 1.
  rewrite delete_insert_eq, !accounted_insert, (delete_id (delete id ts)) by (rewrite lookup_delete_eq; done).
  pose proof (insert_delete_id ts id r Hr) as E. rewrite <-E at 2. rewrite accounted_insert by apply lookup_delete_eq. lia.
Qed.

Lemma spawned_app l1 l2 : spawned (l1 ++ l2) = spawned l1 ++ spawned l2.
Proof. apply omap_app. Qed.

(** ** Storing outcomes *)

Lemma obj_insert_Forall (P : string * json -> Prop) k v l :
  P (k, v) -> Forall P l -> Forall P (obj_insert k v l) /\ (length (obj_insert k v l) <= S (length l))%nat.
Proof.
  intros Hkv. induction 1 as [|[k' v'] l Hx Hl IH]; simpl; [by split; [apply Forall_singleton|lia]|].
  destruct (str_compare k k'); simpl; (split; [|lia]);
    repeat (apply Forall_cons; split); try done. apply IH.
Qed.

Lemma jobj_Forall (P : string * json -> Prop) l :
  Forall P l -> exists l', jobj l = JObj l' /\ (length l' <= length l)%nat /\ Forall P l'.
Proof.
  intros Hl. unfold jobj. eexists. split; [done|].
  assert (Hg : forall acc, Forall P acc ->
    (length (foldl (fun acc kv => obj_insert kv.1 kv.2 acc) acc l) <= length acc + length l)%nat /\
    Forall P (foldl (fun acc kv => obj_insert kv.1 kv.2 acc) acc l)).
  { induction Hl as [|[k v] l Hx Hl IH]; intros acc Ha; simpl; [split; [lia|done]|].
    destruct (obj_insert_Forall P k v acc) as [Hf Hn]; [done|done|].
    destruct (IH _ Hf) as [Hn' Hf']. split; [lia|done]. }
  destruct (Hg [] (Forall_nil_2 _)) as [Hn Hf]. done.
Qed.

Lemma compact_plain c m : str_len m <= 128 -> compact_error (ErrorBody_new c m).
Proof. intros Hm. split; [done|by left]. Qed.

Lemma compact_detailed c m l :
  str_len m <= 128 -> (length l <= 5)%nat -> Forall (fun kv => str_len kv.1 <= 32 /\ small_value kv.2) l ->
  compact_error (with_details (jobj l) (ErrorBody_new c m)).
Proof.
  intros Hm Hl Hf. split; [done|]. right. apply jobj_Forall in Hf as (l' & Hj & Hn & Hf').
  exists l'. split; [exact Hj|]. split; [lia|done].
Qed.

Lemma small_number n : n <= USIZE_MAX -> small_value (diagnostic_usize n).
Proof. intros. left. eauto. Qed.
Lemma small_text s : str_len s <= 64 -> small_value (JStr s).
Proof. intros. right. eauto. Qed.

End Invariant.

#[export] Hint Resolve small_number small_text : pmux.

(** A list of short literal keys with small values. *)
Ltac small_entries := repeat (apply Forall_cons; split; [split; [vm_compute; congruence|cbn [snd]]|]); try apply Forall_nil_2.

Section Storing.
Context `{HostLaws}.

Lemma compact_history_error n a :
  config_ok (config a) -> book_ok a -> n <= USIZE_MAX ->
  compact_error (turn_history_capacity_error "the exact terminal outcome does not fit the per-session turn history" n a).
Proof.
  intros [Hc1 Hc2] Hb Hn. pose proof (book_count_bound _ _ _ _ _ Hb). pose proof (book_bytes_bound _ _ _ _ _ Hb).
  apply compact_detailed; [vm_compute; congruence|simpl; lia|].
  small_entries; apply small_number; lia.
Qed.

Lemma frame_limit_usize a : frame_limit a <= USIZE_MAX.
Proof. unfold frame_limit. transitivity MAX_NATIVE_FRAME_BYTES; [lia|vm_compute; congruence]. Qed.

Lemma bounded_terminal_error_compact tid e a : compact_error e -> compact_error (bounded_terminal_error tid e a).
Proof.
  intros He. unfold bounded_terminal_error. destruct (_ =? _); [apply compact_plain; vm_compute; congruence|].
  destruct (_ <=? _); [done|]. apply compact_detailed; [vm_compute; congruence|simpl; lia|].
  small_entries; [apply small_number|apply small_number, frame_limit_usize|apply small_text; by destruct (eb_code e)].
  unfold terminal_error_wire_bytes. apply N.max_lub; apply serialized_bytes_usize.
Qed.

(** The record of the turn now has this outcome; nothing else of the book changed. *)
Definition stored (tid : TurnId) (term : StoredTurnTerminal) (ts ts' : gmap TurnId TurnRecord) : Prop :=
  exists r, ts !! tid = Some r /\ ts' = <[tid := with_terminal (Some term) r]> ts.

Lemma stored_open tid term ts ts' other :
  stored tid term ts ts' -> other <> tid -> open_turn other ts -> open_turn other ts'.
Proof. intros (r & _ & ->) Hne (r' & Hr' & Hn). exists r'. by rewrite lookup_insert_ne. Qed.

Lemma try_store_wp tid term a :
  config_ok (config a) -> book_ok a -> active a = None -> open_turn tid (turns a) ->
  wp (try_store_terminal_with_bytes tid term (stored_terminal_bytes term))
    (fun r b => match r with
                | Ok _ => book_ok b /\ beyond_book b = beyond_book a /\ stored tid term (turns a) (turns b)
                | Err e => b = a /\ compact_error e /\
                    (stored_terminal_bytes term = USIZE_MAX \/
                     history_is_full (stored_terminal_bytes term - TERMINAL_FAILURE_RESERVE_BYTES) a = true)
                end) a.
Proof.
  intros Hc Hb Hact (r & Hr & Hterm). unfold try_store_terminal_with_bytes.
  assert (Hsz : stored_terminal_bytes term <= USIZE_MAX) by (destruct term; apply serialized_bytes_usize).
  destruct (N.eqb_spec (stored_terminal_bytes term) USIZE_MAX) as [|Hne].
  { wp_step. split; [done|]. split; [apply compact_plain; vm_compute; congruence|by left]. }
  do 2 wp_step. unfold id.
  destruct (history_is_full (stored_terminal_bytes term - TERMINAL_FAILURE_RESERVE_BYTES) a) eqn:Hfull.
  { wp_step. split; [done|]. split; [apply compact_history_error; [done|done|lia]|by right]. }
  rewrite Hr, Hterm. wp_steps.
  unfold history_is_full in Hfull. destruct (checked_add _ _ _) as [total|] eqn:Et; [|done].
  apply checked_add_Some in Et as [-> Hmax]. apply N.ltb_ge in Hfull.
  split; [|split; [reflexivity|by exists r]].
  destruct Hb as [Hbytes Hbound Hcount Hopen Hnd Hknown]. unfold book_ok; cbn. rewrite saturating_add_small by done.
  pose proof (accounted_update (turns a) tid r (with_terminal (Some term) r) Hr) as Hacc.
  assert (Hcost : record_cost (with_terminal (Some term) r)
    = record_cost r + (stored_terminal_bytes term - TERMINAL_FAILURE_RESERVE_BYTES)).
  { unfold record_cost. cbn. rewrite Hterm. lia. }
  split; [lia|done| | |done|].
  - by rewrite map_size_insert_Some by eauto.
  - rewrite Hact. done.
  - intros other Hid'%Hknown. destruct (decide (other = tid)) as [->|]; [by rewrite lookup_insert_eq|by rewrite lookup_insert_ne].
Qed.

(** A compact failure always finds room: its reserve was counted when the turn was taken. *)
Lemma try_store_compact tid e a :
  config_ok (config a) -> book_ok a -> active a = None -> open_turn tid (turns a) -> compact_error e ->
  wp (try_store_terminal tid (StoredFailed e))
    (fun r b => exists u, r = Ok u /\ book_ok b /\ beyond_book b = beyond_book a /\
                stored tid (StoredFailed e) (turns a) (turns b)) a.
Proof.
  intros Hc Hb Hact Hopen He%compact_error_fits. unfold try_store_terminal.
  wp_use try_store_wp as [u|err] b Hr; [done..|by eauto|].
  exfalso. destruct Hr as (_ & _ & [Hmax|Hfull]); cbn [stored_terminal_bytes] in *.
  - rewrite Hmax in He. by vm_compute in He.
  - revert Hfull. unfold history_is_full.
    rewrite (proj2 (N.sub_0_le _ _) He), (proj2 (checked_add_Some USIZE_MAX (turn_history_bytes a) 0 (turn_history_bytes a))).
    + pose proof (book_bytes_bound _ _ _ _ _ Hb). rewrite (proj2 (N.ltb_ge _ _)); done.
    + pose proof (book_bytes_bound _ _ _ _ _ Hb). destruct Hc. split; lia.
Qed.

Lemma store_bounded_failure_wp tid e a :
  config_ok (config a) -> book_ok a -> active a = None -> open_turn tid (turns a) ->
  wp (store_bounded_failure tid e)
    (fun e' b => book_ok b /\ beyond_book b = beyond_book a /\ stored tid (StoredFailed e') (turns a) (turns b)) a.
Proof.
  intros Hc Hb Hact Hopen. unfold store_bounded_failure. do 3 wp_step. unfold try_store_terminal at 1.
  wp_use try_store_wp as [u|err] b Hr; [done..|by wp_step|]. destruct Hr as (-> & Hcompact & _).
  do 3 wp_step. wp_use try_store_compact as r b (u & -> & Hr); [done..|by apply bounded_terminal_error_compact|by wp_step].
Qed.

Lemma with_terminal_twice x y r : with_terminal x (with_terminal y r) = with_terminal x r.
Proof. done. Qed.

Lemma replace_terminal_wp tid e a :
  config_ok (config a) -> book_ok a -> active a = None -> is_Some (turns a !! tid) ->
  wp (replace_terminal_with_failure tid e)
    (fun e' b => book_ok b /\ beyond_book b = beyond_book a /\ stored tid (StoredFailed e') (turns a) (turns b)) a.
Proof.
  intros Hc Hb Hact [r Hr]. unfold replace_terminal_with_failure. do 2 wp_step. unfold id. wp_step. rewrite Hr. do 2 wp_step.
  set (a1 := set_turns _ a).
  assert (Hgo : forall bytes, bytes = accounted (turns a1) -> bytes <= turn_history_bytes a ->
    wp (store_bounded_failure tid e)
      (fun e' b => book_ok b /\ beyond_book b = beyond_book a /\ stored tid (StoredFailed e') (turns a) (turns b))
      (set_turn_history_bytes bytes a1)).
  { intros bytes Hbytes Hle. destruct Hb as [_ Hbound Hcount _ Hnd Hknown].
    wp_use store_bounded_failure_wp as e' b (Hb' & Hbb & Hst); [exact Hc| |exact Hact| |].
    - split; [exact Hbytes|cbn; lia| |cbn; by rewrite Hact|exact Hnd|].
      + cbn. by rewrite map_size_insert_Some by eauto.
      + cbn. intros other Ho%Hknown. destruct (decide (other = tid)) as [->|]; [by rewrite lookup_insert_eq|by rewrite lookup_insert_ne].
    - eexists. split; [apply lookup_insert_eq|done].
    - split; [exact Hb'|]. split; [exact Hbb|]. destruct Hst as (r1 & Hr1 & ->). cbn in Hr1.
      rewrite lookup_insert_eq in Hr1. simplify_eq. exists r. split; [done|]. cbn. by rewrite insert_insert_eq. }
  pose proof (accounted_update (turns a) tid r (with_terminal None r) Hr) as Hacc.
  pose proof (book_bytes _ _ _ _ _ Hb) as Hbytes.
  destruct (rec_terminal r) as [previous|] eqn:Hterm.
  - wp_step. apply Hgo; cbn; [|lia]. unfold record_cost in Hacc. rewrite Hterm in Hacc. cbn in Hacc. lia.
  - wp_step. apply (Hgo (turn_history_bytes a)); [|done]. cbn.
    unfold record_cost in Hacc. rewrite Hterm in Hacc. cbn in Hacc. lia.
Qed.

End Storing.
