(* ===== verification/ActorTurns.v ===== *)
(** * How a turn ends

    The invariant of the whole actor and, against it, the handlers that end a turn:
    whatever the worker reports and whatever cannot be stored or published, the turn is
    no longer active, has exactly one stored outcome, and no other turn is touched. *)

From S2P Require Import Prelude Text Protocol Composer Session Screen Backend Actor ActorOps ActorProofs.

(** What no handler changes. *)
Definition frozen (a : SessionActor) :=
  (session_id a, generation_id a, config a, idle_ttl_ms a, created_at_ms a, compatibility a).

(** One actor after the other in time: the same session, and nothing published is taken back. *)
Definition evolves (a b : SessionActor) : Prop := frozen b = frozen a /\ history a `prefix_of` history b.

#[export] Instance evolves_preorder : PreOrder evolves.
Proof.
  split.
  - intros a. done.
  - intros a b c [H1 P1] [H2 P2]. split; [congruence|by etrans].
Qed.

Lemma evolves_same a b : frozen b = frozen a -> history b = history a -> evolves a b.
Proof. intros Hf Hh. split; [exact Hf|]. by rewrite Hh. Qed.

Lemma faced_evolves a b : faced a b -> evolves a b.
Proof. intros [Hb Hh]. split; [exact (f_equal frozen Hb)|done]. Qed.

Section Ending.
Context `{HostLaws}.

Definition wf (a : SessionActor) : Prop := config_ok (config a) /\ shown a /\ book_ok a.

(** Between [a0] and [b] the turn was ended: it is not active, its record has the outcome
    [x], the other records are as they were, and no worker was started. *)
Definition ending (tid : TurnId) (x : option StoredTurnTerminal) (a0 b : SessionActor) : Prop :=
  wf b /\ active b = None /\
  (exists r, turns a0 !! tid = Some r /\ turns b = <[tid := with_terminal x r]> (turns a0)) /\
  spawned (acts b) = spawned (acts a0) /\ evolves a0 b.

Lemma book_faced a b : faced a b -> book_ok a -> book_ok b.
Proof.
  intros [Hb _]. unfold book_ok.
  by rewrite (f_equal config Hb : config b = config a), (f_equal turns Hb : turns b = turns a),
    (f_equal turn_history_bytes Hb : turn_history_bytes b = turn_history_bytes a),
    (f_equal active Hb : active b = active a), (f_equal acts Hb : acts b = acts a).
Qed.

Lemma wf_faced a b : faced a b -> shown b -> wf a -> wf b.
Proof.
  intros Hf Hs (Hc & _ & Hb). split; [|split; [done|by eapply book_faced]].
  by rewrite (f_equal config (proj1 Hf) : config b = config a).
Qed.

Lemma ending_faced tid x a0 a b : faced a b -> shown b -> ending tid x a0 a -> ending tid x a0 b.
Proof.
  intros Hf Hs (Hwf & Hact & Hst & Hsp & Hev). split; [by eapply wf_faced|].
  pose proof (faced_evolves a b Hf) as Hev'. destruct Hf as [Hb _].
  rewrite (f_equal turns Hb : turns b = turns a), (f_equal active Hb : active b = active a),
    (f_equal acts Hb : acts b = acts a).
  split; [done|]. split; [done|]. split; [done|]. by etrans.
Qed.

Lemma ending_open tid a0 a : ending tid None a0 a -> open_turn tid (turns a).
Proof. intros (_ & _ & (r & _ & ->) & _). eexists. by rewrite lookup_insert_eq. Qed.

Lemma ending_stored tid x y a0 a b :
  ending tid x a0 a -> book_ok b -> beyond_book b = beyond_book a -> stored tid y (turns a) (turns b) ->
  ending tid (Some y) a0 b.
Proof.
  intros ((Hc & Hs & _) & Hact & (r & Hr & Ht) & Hsp & Hev) Hb Hbb (r' & Hr' & Ht').
  assert (Hs' : shown b).
  { change (shown (beyond_book b)). rewrite Hbb. exact Hs. }
  split; [split; [|by split]|].
  - change (config_ok (config (beyond_book b))). rewrite Hbb. exact Hc.
  - rewrite (f_equal active Hbb : active b = active a), (f_equal acts Hbb : acts b = acts a).
    split; [done|]. split; [|split; [done|]].
    + exists r. split; [done|]. rewrite Ht', Ht in *. rewrite lookup_insert_eq in Hr'. simplify_eq.
      by rewrite insert_insert_eq.
    + etrans; [exact Hev|]. split; [exact (f_equal frozen Hbb)|].
      by rewrite (f_equal history Hbb : history b = history a).
Qed.

(** ** The steps of an ending *)

Lemma ending_transition tid x a0 a current reason t :
  ending tid x a0 a ->
  wp (transition current reason t)
    (fun r b => ending tid x a0 b /\ match r with Ok _ => state b = current | Err _ => state b = state a end) a.
Proof.
  intros He. wp_use transition_wp as [u|e] b (Hs & Hf & Hr); [apply He| |];
    (split; [by eapply ending_faced|apply Hr]).
Qed.

Lemma ending_emit tid x a0 a t p :
  ending tid x a0 a -> is_state_change p = false ->
  wp (emit t p)
    (fun r b => ending tid x a0 b /\ state b = state a /\ match r with Ok _ => published a t p b | Err _ => True end) a.
Proof.
  intros He Hp. wp_use emit_shown as r b (Hs & Hf & Hst & Hr); [apply He|done|].
  split; [by eapply ending_faced|done].
Qed.

Lemma ending_failure tid a0 a e :
  ending tid None a0 a ->
  wp (store_bounded_failure tid e) (fun e' b => ending tid (Some (StoredFailed e')) a0 b /\ state b = state a) a.
Proof.
  intros He. pose proof He as ((Hc & Hs & Hb) & Hact & _).
  wp_use store_bounded_failure_wp as e' b (Hb' & Hbb & Hst); [done|done|done|by eapply ending_open|].
  split; [by eapply ending_stored|exact (f_equal state Hbb)].
Qed.

Lemma ending_store tid a0 a term :
  ending tid None a0 a ->
  wp (try_store_terminal_with_bytes tid term (stored_terminal_bytes term))
    (fun r b => match r with
                | Ok _ => ending tid (Some term) a0 b /\ state b = state a
                | Err _ => b = a
                end) a.
Proof.
  intros He. pose proof He as ((Hc & Hs & Hb) & Hact & _).
  wp_use try_store_wp as [u|e] b Hr; [done|done|done|by eapply ending_open| |by apply Hr].
  destruct Hr as (Hb' & Hbb & Hst). split; [by eapply ending_stored|exact (f_equal state Hbb)].
Qed.

Lemma log_ok_touch a t : log_ok a -> t + idle_ttl_ms a <= MAX_SAFE_JSON_INTEGER -> log_ok (set_updated_at_ms t a).
Proof. intros [] Ht. split; done. Qed.

(** Dropping the attachment: the face stays as it is. *)
Lemma shown_detach a : shown a -> shown (set_writable_attach_release_pending false (set_writable_attach None a)).
Proof. intros [Hl [Hn Hp Hm]]. split; [exact Hl|]. by split. Qed.

Lemma wf_touch a t : wf a -> t + idle_ttl_ms a <= MAX_SAFE_JSON_INTEGER -> wf (set_updated_at_ms t a).
Proof. intros (Hc & [Hl Hf] & Hb) Ht. split; [exact Hc|]. split; [split; [by apply log_ok_touch|exact Hf]|exact Hb]. Qed.

Lemma wf_detach a : wf a -> wf (set_writable_attach_release_pending false (set_writable_attach None a)).
Proof. intros (Hc & Hs & Hb). split; [exact Hc|]. split; [by apply shown_detach|exact Hb]. Qed.

(** The fields releasing an attachment leaves alone. *)
Definition beyond_attach (a : SessionActor) : SessionActor :=
  set_writable_attach None (set_writable_attach_release_pending false (set_updated_at_ms 0 (set_clock_reads 0 a))).

Lemma release_failed_wp a :
  wf a -> wp release_attach_after_failed_turn (fun _ b => wf b /\ beyond_attach b = beyond_attach a) a.
Proof.
  intros Hwf. unfold release_attach_after_failed_turn. do 2 wp_step.
  destruct (writable_attach_release_pending a); [|by wp_step]. do 5 wp_step.
  pose proof (wf_detach a Hwf) as Hd.
  wp_use checked_now_ms_wp as [t|e] b [-> Ht]; wp_step; (split; [|reflexivity]).
  - apply wf_touch; [exact Hd|apply Ht].
  - exact Hd.
Qed.

Lemma ending_detached tid x a0 a b :
  ending tid x a0 a -> wf b -> beyond_attach b = beyond_attach a -> ending tid x a0 b.
Proof.
  intros (_ & Hact & Hst & Hsp & Hev) Hwf Hb. split; [done|].
  rewrite (f_equal turns Hb : turns b = turns a), (f_equal active Hb : active b = active a),
    (f_equal acts Hb : acts b = acts a).
  split; [done|]. split; [done|]. split; [done|]. etrans; [exact Hev|].
  split; [exact (f_equal frozen Hb)|]. by rewrite (f_equal history Hb : history b = history a).
Qed.

Lemma ending_release tid x a0 a :
  ending tid x a0 a ->
  wp release_attach_after_failed_turn (fun _ b => ending tid x a0 b /\ state b = state a) a.
Proof.
  intros He. wp_use release_failed_wp as u b [Hwf Hb]; [apply He|].
  split; [by eapply ending_detached|exact (f_equal state Hb)].
Qed.

Lemma spawned_acts a x : (forall t s i c, x <> SpawnWorker t s i c) -> spawned (acts a ++ [x]) = spawned (acts a).
Proof. intros Hx. rewrite spawned_app. destruct x; cbn; try apply app_nil_r. by edestruct Hx. Qed.

Lemma wf_act a x : (forall t s i c, x <> SpawnWorker t s i c) -> wf a -> wf (set_acts (acts a ++ [x]) a).
Proof.
  intros Hx (Hc & Hs & [H1 H2 H3 H4 H5 H6]). split; [exact Hc|]. split; [exact Hs|].
  split; cbn; try done; by rewrite spawned_acts.
Qed.

Lemma ending_act tid x a0 a y :
  (forall t s i c, y <> SpawnWorker t s i c) -> ending tid x a0 a -> ending tid x a0 (set_acts (acts a ++ [y]) a).
Proof.
  intros Hy (Hwf & Hact & Hst & Hsp & Hev). split; [by apply wf_act|]. split; [exact Hact|]. split; [exact Hst|].
  split; [|exact Hev]. cbn. by rewrite spawned_acts.
Qed.

Lemma ending_proven tid x a0 a :
  ending tid x a0 a ->
  wp release_attach_after_proven_turn (fun _ b => ending tid x a0 b /\ state b = state a) a.
Proof.
  intros He. unfold release_attach_after_proven_turn. do 2 wp_step. unfold id.
  destruct (writable_attach_release_pending a), (writable_attach a); wp_step; try done.
  split; [by apply ending_act|done].
Qed.

Lemma ending_answers tid x a0 waiters f a :
  ending tid x a0 a -> wp (answer_waiters waiters f) (fun _ b => ending tid x a0 b /\ state b = state a) a.
Proof.
  revert a. induction waiters as [|w ws IH]; intros a He; cbn [answer_waiters]; [by wp_step|].
  do 4 wp_step. wp_use IH as u b Hb; [by apply ending_act|]. exact Hb.
Qed.

Lemma ending_poison tid x a0 a e :
  ending tid x a0 a ->
  wp (poison_after_unpublishable_terminal tid e)
    (fun _ b => (exists e', ending tid (Some (StoredFailed e')) a0 b) /\ state b = S.Tainted) a.
Proof.
  intros He. pose proof He as ((Hc & Hs & Hb) & Hact & (r & Hr & Ht) & _).
  unfold poison_after_unpublishable_terminal. do 2 wp_step.
  wp_use replace_terminal_wp as e' b (Hb' & Hbb & Hst); [done|done|done|rewrite Ht, lookup_insert_eq; by eauto|].
  pose proof (ending_stored _ _ _ _ _ _ He Hb' Hbb Hst) as ((Hc1 & [Hl1 [_ Hp1 Hm1]] & Hbk1) & Hrest).
  do 7 wp_step. set (c := set_needs_input_resume None _).
  assert (Hec : ending tid (Some (StoredFailed e')) a0 c).
  { split; [|exact Hrest]. split; [exact Hc1|]. split; [split; [exact Hl1|]|exact Hbk1].
    split; [by intros [? ?]|by eapply path_taint|exact Hm1]. }
  wp_use ending_release as u d [Hd Hsd]; [exact Hec|]. wp_step.
  split; [exists e'; exact Hd|]. exact Hsd.
Qed.

(** ** The handlers that end a turn *)

Lemma with_terminal_open r : rec_terminal r = None -> with_terminal None r = r.
Proof. by destruct r; cbn; intros ->. Qed.

Lemma ending_start a t : wf a -> active a = Some t -> ending (at_turn_id t) None a (set_active None a).
Proof.
  intros (Hc & Hs & [H1 H2 H3 Hact H5 H6]) Ht. destruct (Hact t Ht) as (r & Hr & Hn).
  split; [|split; [done|split; [|split; [done|by apply evolves_same]]]].
  - split; [exact Hc|]. split; [exact Hs|]. by split.
  - exists r. split; [done|]. rewrite with_terminal_open, insert_id by done. done.
Qed.

(** What ending a turn leaves, with the outcome that was stored. *)
Definition ended (tid : TurnId) (a b : SessionActor) : Prop := exists x, ending tid (Some x) a b.

Lemma ending_summary tid x a0 a s : ending tid x a0 a -> ending tid x a0 (set_last_turn s a).
Proof. intros He. exact He. Qed.

Lemma fail_active_wp t e reaped a :
  wf a -> active a = Some t -> wp (fail_active (at_turn_id t) e reaped) (fun _ b => ended (at_turn_id t) a b) a.
Proof.
  intros Hwf Ht. set (tid := at_turn_id t). unfold fail_active, take_active. wp_steps. rewrite Ht. wp_steps.
  pose proof (ending_start a t Hwf Ht) as He.
  wp_use checked_now_ms_wp as now b [-> _]. wp_step.
  wp_use ending_failure as e' b [Hb _]; [exact He|]. wp_steps.
  wp_use ending_transition as moved c [Hc Hmoved]; [exact Hb|]. wp_step.
  wp_use ending_release as u d [Hd _]; [exact Hc|]. wp_steps.
  assert (Hpub : wp match moved with
      | Ok _ => let*? _ := emit (Some tid) (TurnFailed e') in mret (Ok tt)
      | Err e => mret (Err e)
      end (fun _ g => ending tid (Some (StoredFailed e')) a g) d).
  { destruct moved as [v|me]; [|by wp_step]. wp_step.
    wp_use ending_emit as [n|ee] g (Hg & _); [exact Hd|done|by wp_step|done]. }
  wp_use Hpub as published g Hg. wp_step.
  assert (Hlast : wp match published with
      | Err publish_error => poison_after_unpublishable_terminal tid publish_error
      | Ok _ => modify (set_last_turn (match now with
                   | Ok t => Some (mkTurnSummary tid OutcomeFailed t (next_sequence d)) | Err _ => None end))
      end (fun _ k => ended tid a k) g).
  { destruct published as [v|pe]; [wp_step; by exists (StoredFailed e')|].
    wp_use ending_poison as u' k [[e'' Hk] _]; [exact Hg|]. by exists (StoredFailed e''). }
  wp_use Hlast as v k [x Hk]. wp_use ending_answers as v' l [Hl _]; [exact Hk|]. by exists x.
Qed.

Lemma finish_completed_with_error_wp tid a0 a at_ms e :
  ending tid None a0 a -> wp (finish_completed_with_error tid at_ms e) (fun _ b => ended tid a0 b) a.
Proof.
  intros He. unfold finish_completed_with_error. wp_step.
  wp_use ending_failure as e' b [Hb _]; [exact He|]. wp_steps.
  wp_use ending_emit as [n|ee] c (Hc & _); [exact Hb|done| |].
  - wp_step. by exists (StoredFailed e').
  - wp_use ending_poison as u d [[e'' Hd] _]; [exact Hc|]. by exists (StoredFailed e'').
Qed.

Lemma ending_expired tid x a0 a d :
  ending tid x a0 a -> wp (expired d) (fun _ b => ending tid x a0 b /\ state b = state a) a.
Proof.
  intros He. wp_use expired_wp as late b (Hb & Hl & Hh).
  assert (Hs : shown b).
  { destruct He as ((_ & [Hla Hfa] & _) & _). split; [by apply Hl|]. revert Hfa. unfold face_ok.
    by rewrite (f_equal needs_input Hb : needs_input b = needs_input a), (f_equal state Hb : state b = state a),
      (f_equal cell Hb : cell b = cell a), (f_equal writable_attach Hb : writable_attach b = writable_attach a), Hh. }
  split; [|exact (f_equal state Hb)]. eapply ending_faced; [|exact Hs|exact He].
  apply faced_history; [by apply beyond_log_face|done].
Qed.

Lemma now_ms_wp (Q : TimestampMs -> SessionActor -> Prop) a :
  Q (clock (clock_reads a)) (set_clock_reads (S (clock_reads a)) a) -> wp now_ms Q a.
Proof. done. Qed.

Lemma timeout_completed_wp t a :
  wf a -> active a = Some t -> wp (timeout_completed_at_commit (at_turn_id t)) (fun _ b => ended (at_turn_id t) a b) a.
Proof.
  intros Hwf Ht. unfold timeout_completed_at_commit. wp_steps. pose proof (ending_start a t Hwf Ht) as He.
  wp_use ending_transition as [u|e] b [Hb _]; [exact He| |].
  - wp_step. wp_use ending_proven as u' c [Hc _]; [exact Hb|]. wp_step. apply now_ms_wp.
    wp_use finish_completed_with_error_wp as v d Hd; [exact Hc|exact Hd].
  - wp_use ending_poison as u d [[e' Hd] _]; [exact Hb|]. by exists (StoredFailed e').
Qed.

Lemma complete_active_wp t result deadline a :
  wf a -> active a = Some t ->
  wp (complete_active (at_turn_id t) result deadline) (fun _ b => ended (at_turn_id t) a b) a.
Proof.
  intros Hwf Ht. set (tid := at_turn_id t). unfold complete_active. wp_steps. pose proof (ending_start a t Hwf Ht) as He.
  wp_use ending_transition as [u|e] b [Hb _]; [exact He| |];
    [|wp_use ending_poison as u d [[e' Hd] _]; [exact Hb|by exists (StoredFailed e')]].
  wp_step. wp_use ending_proven as u' c [Hc _]; [exact Hb|]. wp_steps.
  set (res := with_final_sequence _ result).
  wp_use ending_expired as late d [Hd _]; [exact Hc|]. wp_steps.
  assert (Hfail : forall at_ms e, wp (finish_completed_with_error tid at_ms e) (fun _ b => ended tid a b) d)
    by (intros; by apply finish_completed_with_error_wp).
  destruct late; [wp_step; apply now_ms_wp; apply finish_completed_with_error_wp; exact Hd|].
  destruct (_ =? USIZE_MAX); [apply Hfail|]. destruct (_ <? _); [apply Hfail|]. wp_step.
  wp_use (ending_store tid a d (StoredResult res)) as [v|e] g Hg; [exact Hd| |subst g; apply Hfail].
  destruct Hg as [Hg _]. wp_step. wp_use ending_emit as [n|e] k (Hk & _); [exact Hg|done| |].
  - wp_step. by exists (StoredResult res).
  - wp_use ending_poison as w l [[e' Hl] _]; [exact Hk|by exists (StoredFailed e')].
Qed.

Lemma finish_cancel_wp t outcome recovered at_ms reaped a :
  wf a -> active a = Some t ->
  wp (finish_cancel (at_turn_id t) outcome recovered at_ms reaped) (fun _ b => ended (at_turn_id t) a b) a.
Proof.
  intros Hwf Ht. set (tid := at_turn_id t). unfold finish_cancel.
  destruct (checked_actor_timestamp _ _); [|by apply fail_active_wp].
  unfold take_active. wp_steps. rewrite Ht. wp_steps. pose proof (ending_start a t Hwf Ht) as He.
  assert (Hans : forall x f b, ending tid (Some x) a b -> wp (answer_waiters (at_cancel_waiters t) f) (fun _ b => ended tid a b) b).
  { intros x f b Hb. wp_use ending_answers as v c [Hc _]; [exact Hb|]. by exists x. }
  assert (Hpoison : forall x e b, ending tid x a b ->
    wp (poison_after_unpublishable_terminal tid e ;*
        answer_waiters (at_cancel_waiters t) (cancel_result tid CancelRecoveryFailed)) (fun _ b => ended tid a b) b).
  { intros x e b Hb. wp_step. wp_use ending_poison as v c [[e' Hc] _]; [exact Hb|]. by eapply Hans. }
  wp_use ending_transition as [u|e] b [Hb _]; [exact He| |by eapply Hpoison].
  wp_step. wp_use ending_release as v c [Hc _]; [exact Hb|]. wp_steps.
  wp_use ending_emit as [n|e] d (Hd & _); [exact Hc|done| |by eapply Hpoison].
  destruct recovered.
  - wp_steps. wp_use ending_store as [w|e] g Hg; [exact Hd| |].
    + destruct Hg as [Hg _]. wp_steps. by eapply Hans.
    + subst g. wp_step. wp_use ending_failure as e' g [Hg _]; [exact Hd|]. wp_steps.
      wp_use ending_emit as [m|ee] k (Hk & _); [exact Hg|done| |by eapply Hpoison]. wp_steps. by eapply Hans.
  - wp_steps. wp_use ending_failure as e' g [Hg _]; [exact Hd|]. wp_steps. by eapply Hans.
Qed.

End Ending.
