(* ===== verification/ActorSteps.v ===== *)
(** * Every handler keeps the session

    Each command, each report of a worker and each tick of the screen poll takes a
    well-formed session to a well-formed session that continues it, and returns. *)

From S2P Require Import Prelude Text Protocol Composer Session Screen Backend Actor ActorOps ActorProofs ActorTurns.

(** A later book keeps every turn with its prompt, and every outcome as it was stored. *)
Definition turns_kept (ts ts' : gmap TurnId TurnRecord) : Prop :=
  forall tid r, ts !! tid = Some r ->
    exists r', ts' !! tid = Some r' /\ rec_normalized_prompt r' = rec_normalized_prompt r /\
               (is_Some (rec_terminal r) -> r' = r).

#[export] Instance turns_kept_preorder : PreOrder turns_kept.
Proof.
  split.
  - intros ts tid r Hr. by exists r.
  - intros t1 t2 t3 H12 H23 tid r Hr. destruct (H12 tid r Hr) as (r' & Hr' & Hp & Hx).
    destruct (H23 tid r' Hr') as (r'' & Hr'' & Hp' & Hx'). exists r''. split; [done|]. split; [congruence|].
    intros Hs. rewrite (Hx Hs) in Hx'. auto.
Qed.

(** One session continued: nothing published, stored or started is taken back. *)
Definition continues (a b : SessionActor) : Prop :=
  evolves a b /\ turns_kept (turns a) (turns b) /\ spawned (acts a) `prefix_of` spawned (acts b).

#[export] Instance continues_preorder : PreOrder continues.
Proof.
  split.
  - intros a. split; [reflexivity|]. by split.
  - intros a b c (E1 & T1 & S1) (E2 & T2 & S2). split; [by etrans|]. split; [by etrans|]. by etrans.
Qed.

Lemma faced_continues a b : faced a b -> continues a b.
Proof.
  intros Hf. split; [by apply faced_evolves|]. destruct Hf as [Hb _].
  rewrite (f_equal turns Hb : turns b = turns a), (f_equal acts Hb : acts b = acts a). by split.
Qed.

Lemma continues_same a b :
  frozen b = frozen a -> history b = history a -> turns b = turns a -> spawned (acts b) = spawned (acts a) -> continues a b.
Proof. intros Hf Hh Ht Hs. split; [by apply evolves_same|]. by rewrite Ht, Hs. Qed.

Section Steps.
Context `{HostLaws}.

(** The specification every handler meets. *)
Definition safe {A} (m : M A) : Prop := forall a, wf a -> wp m (fun _ b => wf b /\ continues a b) a.

Lemma ended_continues tid a b : wf a -> open_turn tid (turns a) -> ended tid a b -> wf b /\ continues a b.
Proof.
  intros Hwf (r0 & Hr0 & Hn0) (x & Hb & _ & (r & Hr & Ht) & Hsp & Hev). split; [done|]. split; [done|].
  split; [|by rewrite Hsp]. simplify_eq. intros tid' r' Hr'. rewrite Ht.
  destruct (decide (tid' = tid)) as [->|Hne].
  - rewrite lookup_insert_eq. simplify_eq. eexists. split; [done|]. split; [done|]. rewrite Hn0. by intros [? ?].
  - rewrite lookup_insert_ne by done. by exists r'.
Qed.

Lemma wf_active a t : wf a -> active a = Some t -> open_turn (at_turn_id t) (turns a).
Proof. intros (_ & _ & Hb). apply (book_active _ _ _ _ _ Hb). Qed.

(** A handler that only changes the face, run from any point of a session. *)
Lemma faced_safe {A} (m : M A) a0 a :
  (shown a -> wp m (fun _ b => shown b /\ faced a b) a) -> wf a -> continues a0 a ->
  wp m (fun _ b => wf b /\ continues a0 b) a.
Proof.
  intros Hm Hwf Hc. wp_use Hm as x b [Hs Hf]; [apply Hwf|]. split; [by eapply wf_faced|].
  etrans; [exact Hc|by apply faced_continues].
Qed.

Lemma transition_faced current reason t a : shown a -> wp (transition current reason t) (fun _ b => shown b /\ faced a b) a.
Proof. intros Hs. wp_use transition_wp as r b (Hb & Hf & _); done. Qed.

Lemma emit_faced t p a : is_state_change p = false -> shown a -> wp (emit t p) (fun _ b => shown b /\ faced a b) a.
Proof. intros Hp Hs. wp_use emit_shown as r b (Hb & Hf & _); done. Qed.

Lemma continues_clock a n : continues a (set_clock_reads n a).
Proof. by apply continues_same. Qed.

Lemma wf_clock a n : wf a -> wf (set_clock_reads n a).
Proof. intros Hw. exact Hw. Qed.

(** ** Reading *)

Lemma snapshot_wp a : wf a -> wp snapshot (fun _ b => b = a) a.
Proof.
  intros (_ & [Hl _] & _). unfold snapshot, wp.
  pose proof (log_idle _ _ _ _ _ _ _ _ _ _ Hl). pose proof (log_next _ _ _ _ _ _ _ _ _ _ Hl).
  rewrite (proj2 (checked_sub_Some (next_sequence a) 1 (next_sequence a - 1))) by lia.
  assert (Hidle : updated_at_ms a + idle_ttl_ms a <= U64_MAX) by (unfold MAX_SAFE_JSON_INTEGER, U64_MAX in *; lia).
  rewrite (proj2 (checked_add_Some U64_MAX _ _ _) (conj eq_refl Hidle)).
  by destruct (_ && _).
Qed.

Lemma ensure_event_batch_fits_wp batch a : wp (ensure_event_batch_fits batch) (fun _ b => b = a) a.
Proof. unfold ensure_event_batch_fits. by wp_steps. Qed.

Lemma event_batch_wp after n a : wf a -> wp (event_batch after n) (fun _ b => b = a) a.
Proof.
  intros Hwf. unfold event_batch. wp_steps. unfold id. destruct (_ <=? _); [by wp_step|].
  destruct (_ <? _).
  { wp_step. wp_use snapshot_wp as s b ->; [done|]. apply ensure_event_batch_fits_wp. }
  destruct (replay_page_range _ _ _ _) as [first stop]. wp_steps.
  destruct (fitting_event_page _ _) as [events|e]; [|done].
  destruct (_ && _); wp_steps; [done|]. lazymatch goal with |- match ?r with Ok _ => _ | Err _ => _ end => destruct r end; [|done].
  apply ensure_event_batch_fits_wp.
Qed.

(** ** Taking and cancelling turns *)

Lemma resubmit_safe turn record fp prompt : safe (resubmit turn record fp prompt).
Proof.
  intros a Hwf. unfold resubmit. destruct (_ || _); [by wp_step|]. wp_steps.
  assert (Hgo : wp match rec_terminal record with
      | Some terminal =>
          let*? _ := ensure_sequence_slots (1 + CLOSE_SEQUENCE_RESERVE) in
          match terminal with
          | StoredResult result => emit (Some (tr_turn_id turn)) (TurnCompleted (with_final_sequence (next_sequence a) result))
          | StoredFailed error => emit (Some (tr_turn_id turn)) (TurnFailed error)
          end
      | None => mret (Ok 0)
      end (fun _ b => wf b /\ continues a b) a).
  { destruct (rec_terminal record) as [terminal|]; [|by wp_step]. wp_step.
    wp_use ensure_sequence_slots_wp as [u|e] b [-> _]; [|split; [exact Hwf|apply continues_clock]].
    destruct terminal; (eapply faced_safe; [by apply emit_faced|exact Hwf|apply continues_clock]). }
  wp_use Hgo as [n|e] b Hb; [wp_step|]; done.
Qed.

Lemma wf_reserve a tid record :
  wf a -> turns a !! tid = None -> rec_terminal record = None ->
  N.of_nat (size (turns a)) < turn_history_capacity (config a) ->
  history_is_full (record_bytes (rec_normalized_prompt record)) a = false ->
  wf (set_active (Some (mkActive tid []))
       (set_turns (<[tid := record]> (turns a))
          (set_turn_history_bytes (turn_history_bytes a + record_bytes (rec_normalized_prompt record)) a))).
Proof.
  intros (Hc & Hs & [H1 H2 H3 H4 H5 H6]) Hnew Hterm Hcount Hfull. split; [exact Hc|]. split; [exact Hs|].
  unfold history_is_full in Hfull. destruct (checked_add _ _ _) as [total|] eqn:Et; [|done].
  apply checked_add_Some in Et as [-> _]. apply N.ltb_ge in Hfull. split; cbn; [|done| | |done|].
  - rewrite accounted_insert by done. unfold record_cost. rewrite Hterm. lia.
  - rewrite map_size_insert_None by done. lia.
  - intros t [= <-]. cbn. exists record. by rewrite lookup_insert_eq.
  - intros other Ho%H6. destruct (decide (other = tid)) as [->|]; [by rewrite lookup_insert_eq|by rewrite lookup_insert_ne].
Qed.

Lemma turns_kept_new ts tid r : ts !! tid = None -> turns_kept ts (<[tid := r]> ts).
Proof. intros Hn other r' Hr'. exists r'. rewrite lookup_insert_ne by congruence. done. Qed.

Lemma accept_turn_safe turn fp prompt at_ms a :
  wf a -> turns a !! tr_turn_id turn = None ->
  wp (accept_turn turn fp prompt at_ms) (fun _ b => wf b /\ continues a b) a.
Proof.
  intros Hwf Hnew. unfold accept_turn. wp_steps. destruct (admits_turn a) as [u|e]; [|done]. wp_step.
  wp_use ensure_sequence_slots_wp as [u'|e] b [-> _]; [|split; [exact Hwf|apply continues_clock]]. wp_steps. unfold id.
  destruct (N.leb_spec (turn_history_capacity (config (set_clock_reads (S (clock_reads a)) a)))
    (N.of_nat (size (turns (set_clock_reads (S (clock_reads a)) a))))) as [|Hcount];
    [wp_step; split; [exact Hwf|apply continues_clock]|].
  destruct (history_is_full _ _) eqn:Hfull; [wp_step; split; [exact Hwf|apply continues_clock]|]. wp_steps.
  set (c := set_active _ _).
  assert (Hc : wf c) by (apply (wf_reserve (set_clock_reads (S (clock_reads a)) a) (tr_turn_id turn)
    (mkTurnRecord fp prompt at_ms None)); done).
  assert (Hac : continues a c).
  { split; [by apply evolves_same|]. split; [by apply turns_kept_new|done]. }
  assert (Hfresh : tr_turn_id turn ∉ spawned (acts c)).
  { intros Hin. apply (book_spawned_known _ _ _ _ _ (proj2 (proj2 Hwf))) in Hin. rewrite Hnew in Hin. by destruct Hin. }
  assert (Hin : is_Some (turns c !! tr_turn_id turn)) by (cbn; rewrite lookup_insert_eq; eauto).
  assert (Hactive : active c = Some (mkActive (tr_turn_id turn) [])) by done. clearbody c.
  wp_use transition_faced as [v|e] d [Hsd Hf]; [apply Hc| |split; [by eapply wf_faced|etrans; [exact Hac|by apply faced_continues]]].
  pose proof (wf_faced _ _ Hf Hsd Hc) as Hd. pose proof (faced_continues _ _ Hf) as Hcd. destruct Hf as [Hb _].
  wp_steps. unfold id. cbn [active set_acts]. rewrite (f_equal active Hb : active d = active c), Hactive. wp_step.
  pose proof (f_equal acts Hb : acts d = acts c) as Hacts. pose proof (f_equal turns Hb : turns d = turns c) as Hturns.
  split.
  - destruct Hd as (H1 & H2 & [B1 B2 B3 B4 B5 B6]). split; [exact H1|]. split; [exact H2|]. split; cbn; [done..| |].
    + rewrite spawned_app, Hacts in *. cbn. apply NoDup_app. split; [done|]. split; [|apply NoDup_singleton].
      intros x Hx Hx'. apply list_elem_of_singleton in Hx' as ->. done.
    + intros x. rewrite spawned_app, elem_of_app. cbn. rewrite list_elem_of_singleton. intros [Hx|Hx]; [by apply B6|subst x].
      by rewrite Hturns.
  - etrans; [exact Hac|]. etrans; [exact Hcd|]. split; [by apply evolves_same|]. split; [reflexivity|].
    cbn. rewrite spawned_app. by eexists.
Qed.

Lemma submit_safe turn : safe (submit turn).
Proof.
  intros a Hwf. unfold submit. destruct (negb _); [by wp_step|]. destruct (_ || _); [by wp_step|]. wp_steps.
  destruct (validate_prompt nfc (tr_prompt turn)) as [prompt|e]; [|done]. wp_steps.
  destruct (turns a !! tr_turn_id turn) as [record|] eqn:Hknown; [by apply resubmit_safe|]. wp_step.
  wp_use checked_now_ms_wp as [t|e] b [-> _]; [|split; [exact Hwf|apply continues_clock]]. wp_steps.
  destruct (checked_turn_deadline_unix_ms _ _ _); [|split; [exact Hwf|apply continues_clock]].
  destruct (_ <=? _); [wp_step; split; [exact Hwf|apply continues_clock]|].
  wp_use accept_turn_safe as r b [Hb Hcb]; [exact Hwf|exact Hknown|]. split; [done|].
  etrans; [apply continues_clock|exact Hcb].
Qed.

Lemma continues_act a x : (forall t s i c, x <> SpawnWorker t s i c) -> continues a (set_acts (acts a ++ [x]) a).
Proof. intros Hx. apply continues_same; try done. cbn. by apply spawned_acts. Qed.

Lemma act_safe x : (forall t s i c, x <> SpawnWorker t s i c) -> safe (act x).
Proof. intros Hx a Hwf. wp_step. split; [by apply wf_act|by apply continues_act]. Qed.

(** Continue a session with a safe handler. *)
Lemma session_from {A} (m : M A) a0 a : safe m -> wf a -> continues a0 a -> wp m (fun _ b => wf b /\ continues a0 b) a.
Proof. intros Hm Hwf Hc. wp_use Hm as x b [Hb Hcb]; [done|]. split; [done|by etrans]. Qed.

Lemma session_bind {A B} (m : M A) (k : A -> M B) : safe m -> (forall x, safe (k x)) -> safe (mbind m k).
Proof. intros Hm Hk a Hwf. wp_step. wp_use Hm as x b [Hb Hc]; [done|]. by apply session_from. Qed.

Lemma session_ret {A} (x : A) : safe (mret x).
Proof. intros a Hwf. by wp_step. Qed.

Lemma session_gets {A} (f : SessionActor -> A) : safe (gets f).
Proof. intros a Hwf. by wp_step. Qed.

Lemma session_try {A B} (m : M (result A ErrorBody)) (k : A -> M (result B ErrorBody)) :
  safe m -> (forall x, safe (k x)) -> safe (mtry m k).
Proof. intros Hm Hk. apply session_bind; [done|]. intros [x|e]; [done|apply session_ret]. Qed.

Lemma session_ignore {A} (m : M A) : safe m -> safe (ignore m).
Proof. intros Hm. apply session_bind; [done|]. intros. apply session_ret. Qed.

Lemma transition_safe current reason t : safe (transition current reason t).
Proof. intros a Hwf. eapply faced_safe; [apply transition_faced|done|reflexivity]. Qed.

Lemma emit_safe t p : is_state_change p = false -> safe (emit t p).
Proof. intros Hp a Hwf. eapply faced_safe; [by apply emit_faced|done|reflexivity]. Qed.

Lemma set_needs_input_to_safe info resume t : safe (set_needs_input_to info resume t).
Proof. intros a Hwf. eapply faced_safe; [apply set_needs_input_to_wp|done|reflexivity]. Qed.

Lemma resolve_needs_input_safe fallback t : safe (resolve_needs_input fallback t).
Proof. intros a Hwf. eapply faced_safe; [apply resolve_needs_input_wp|done|reflexivity]. Qed.

Lemma ensure_sequence_slots_safe n : safe (ensure_sequence_slots n).
Proof. intros a Hwf. wp_use ensure_sequence_slots_wp as r b [-> _]. split; [exact Hwf|apply continues_clock]. Qed.

Lemma checked_now_ms_safe res : safe (checked_now_ms res).
Proof. intros a Hwf. wp_use checked_now_ms_wp as r b [-> _]. split; [exact Hwf|apply continues_clock]. Qed.

Lemma answer_waiters_safe ws f : safe (answer_waiters ws f).
Proof.
  induction ws as [|w ws IH]; cbn [answer_waiters]; [apply session_ret|].
  apply session_bind; [apply session_gets|]. intros r. apply session_bind; [by apply act_safe|done].
Qed.

(** An assignment that keeps the session. *)
Lemma modify_safe f : (forall a, wf a -> wf (f a)) -> (forall a, continues a (f a)) -> safe (modify f).
Proof. intros Hf Hc a Hwf. wp_step. split; [by apply Hf|apply Hc]. Qed.

End Steps.

#[export] Hint Resolve session_ret session_gets session_ignore transition_safe set_needs_input_to_safe resolve_needs_input_safe
  ensure_sequence_slots_safe checked_now_ms_safe answer_waiters_safe submit_safe resubmit_safe : pmux.
#[export] Hint Extern 1 (safe (act _)) => (by apply act_safe) : pmux.
#[export] Hint Extern 1 (safe (emit _ _)) => (by apply emit_safe) : pmux.

(** Follow the structure of a handler down to the operations it calls. *)
Ltac safe_step :=
  lazymatch goal with
  | |- safe (mbind _ _) => apply session_bind; [|intros ?]
  | |- safe (mtry _ _) => apply session_try; [|intros ?]
  | |- safe (if ?b then _ else _) => destruct b
  | |- safe (match ?x with _ => _ end) => destruct x
  | |- safe _ => solve [eauto with pmux]
  end.
Ltac safe_steps := repeat safe_step.

Section Handlers.
Context `{HostLaws}.

Lemma wf_inactive a : wf a -> wf (set_active None a).
Proof. intros (Hc & Hs & [H1 H2 H3 H4 H5 H6]). split; [exact Hc|]. split; [exact Hs|]. by split. Qed.

Lemma wf_waiters a t ws : wf a -> active a = Some t -> wf (set_active (Some (mkActive (at_turn_id t) ws)) a).
Proof.
  intros (Hc & Hs & [H1 H2 H3 H4 H5 H6]) Ht. split; [exact Hc|]. split; [exact Hs|]. split; [done..| |done|done].
  intros t' [= <-]. cbn. by apply H4.
Qed.

Lemma cancel_safe tid reply : safe (cancel tid reply).
Proof.
  intros a Hwf. unfold cancel. wp_steps. unfold id.
  lazymatch goal with |- wp (if ?b then _ else _) _ _ => destruct b end; [by apply act_safe|].
  destruct (active a) as [t|] eqn:Ht; [|by apply act_safe]. destruct (negb _); [by apply act_safe|]. wp_steps.
  assert (Hbegin : wp (if bool_decide (state a <> S.Cancelling)
      then let*? _ := ensure_sequence_slots (1 + TERMINAL_SEQUENCE_EVENTS + CLOSE_SEQUENCE_RESERVE) in
           transition S.Cancelling None (Some tid)
      else mret (Ok tt)) (fun _ b => wf b /\ continues a b /\ active b = Some t) a).
  { case_bool_decide; [|wp_step; split; [done|by split]]. wp_step.
    wp_use ensure_sequence_slots_wp as [u|e] b [-> _]; [|split; [exact Hwf|split; [apply continues_clock|exact Ht]]].
    wp_use transition_faced as r b [Hs Hf]; [apply Hwf|]. split; [by eapply wf_faced|].
    split; [etrans; [apply continues_clock|by apply faced_continues]|].
    rewrite (f_equal active (proj1 Hf) : active b = active a). done. }
  wp_use Hbegin as [u|e] b (Hb & Hc & Htb); [|by apply session_from; [apply act_safe|..]].
  wp_steps. rewrite Htb. do 2 wp_step.
  apply session_from; [|by apply wf_waiters|etrans; [exact Hc|by apply continues_same]].
  apply session_bind; [by apply act_safe|]. intros _. destruct (bool_decide _); eauto with pmux.
Qed.

(** ** Closing *)

Lemma close_safe policy answer : safe (close policy answer).
Proof.
  intros a Hwf. unfold close. wp_steps. unfold id. case_bool_decide; [by wp_step|]. do 5 wp_step.
  set (b := set_writable_attach_release_pending false (set_writable_attach None a)).
  assert (Hb : wf b) by (by apply wf_detach). assert (Hc : continues a b) by (by apply continues_same).
  clearbody b.
  assert (Hdrop : wp match active a with
      | Some active =>
          modify (set_active None) ;* act (SignalAbort (at_turn_id active)) ;*
          answer_waiters (at_cancel_waiters active)
            (fun _ => Err (ErrorBody_new Cancelled "session closed while cancellation was pending"))
      | None => mret tt
      end (fun _ c => wf c /\ continues a c) b).
  { destruct (active a) as [t|]; [|by wp_step]. do 2 wp_step.
    apply session_from; [apply session_bind; [by apply act_safe|eauto with pmux]|by apply wf_inactive|].
    etrans; [exact Hc|by apply continues_same]. }
  wp_use Hdrop as u c [Hwc Hcc]. clear Hdrop. revert Hwc Hcc. apply session_from.
  apply session_try; [eauto with pmux|]. intros _. apply session_bind; [eauto with pmux|]. intros [].
  - apply session_try; eauto with pmux.
  - apply session_bind; [by apply act_safe|]. intros _. destruct answer as [reaped|f].
    + apply session_bind; [by apply modify_safe; [done|intros; apply continues_same]|]. intros _.
      apply session_try; [destruct reaped; eauto with pmux|eauto with pmux].
    + apply session_bind; eauto with pmux.
Qed.

Lemma expire_idle_safe at_ms answer : safe (expire_idle at_ms answer).
Proof.
  apply session_bind; [apply session_gets|]. intros a. apply session_try; [apply session_ret|]. intros d.
  destruct (_ || _); [apply session_ret|]. apply session_try; [apply close_safe|]. intros r. apply session_ret.
Qed.

(** ** Writable attachments and the minified cell *)

Lemma wf_attach a attach_id :
  wf a -> cell a <> Minified -> wf (set_writable_attach_release_pending false (set_writable_attach (Some attach_id) a)).
Proof.
  intros (Hc & [Hl [Hn Hp Hm]] & Hb) Hcell. split; [exact Hc|]. split; [|exact Hb].
  split; [exact Hl|]. by split.
Qed.

Lemma wf_minify a : wf a -> writable_attach a = None -> wf (set_cell Minified a).
Proof. intros (Hc & [Hl [Hn Hp Hm]] & Hb) Ha. split; [exact Hc|]. split; [|exact Hb]. split; [exact Hl|]. by split. Qed.

Lemma reserve_writable_attach_safe attach_id : safe (reserve_writable_attach attach_id).
Proof.
  intros a Hwf. unfold reserve_writable_attach. wp_steps. unfold id.
  unfold refuse_writable_attach_on_minified_cell. case_bool_decide as Hcell; [|done].
  case_bool_decide; [by wp_step|]. destruct (negb _); [by wp_step|]. wp_step.
  wp_use checked_now_ms_wp as [t|e] b [-> Ht]; [|split; [exact Hwf|apply continues_clock]]. wp_steps.
  split; [|by apply continues_same]. apply wf_touch; [|apply Ht].
  apply (wf_attach (set_clock_reads (S (clock_reads a)) a)); [exact Hwf|exact Hcell].
Qed.

Lemma wf_pending a v : wf a -> wf (set_writable_attach_release_pending v a).
Proof. intros Hw. exact Hw. Qed.

Lemma release_writable_attach_safe attach_id completion : safe (release_writable_attach attach_id completion).
Proof.
  intros a Hwf. unfold release_writable_attach. wp_steps. unfold id.
  destruct (writable_attach a) as [current|]; [|by wp_step]. destruct (negb _); [by wp_step|]. wp_step.
  wp_use checked_now_ms_wp as [t|e] b [-> Ht]; [|split; [exact Hwf|apply continues_clock]].
  destruct completion; [wp_steps|do 4 wp_step].
  - split; [|by apply continues_same]. apply wf_touch; [|apply Ht]. by apply (wf_detach (set_clock_reads _ a)).
  - apply session_from; [|apply wf_touch; [exact Hwf|apply Ht]|by apply continues_same].
    apply session_bind; [case_bool_decide; eauto with pmux|intros _; apply session_ret].
Qed.

Lemma finish_attach_reconciliation_safe attach_id outcome : safe (finish_attach_reconciliation attach_id outcome).
Proof.
  intros a Hwf. unfold finish_attach_reconciliation. wp_steps. unfold id. destruct (_ || _); [by wp_step|]. wp_step.
  wp_use checked_now_ms_wp as [t|e] b [-> Ht]; [|wp_step; split; [exact Hwf|apply continues_clock]].
  do 6 wp_step. apply session_from; [|apply wf_touch; [by apply (wf_detach (set_clock_reads _ a))|apply Ht]|by apply continues_same].
  destruct outcome as [[|info]|e]; eauto with pmux.
  apply session_bind; [eauto with pmux|]. intros [u|e]; eauto with pmux.
Qed.

Lemma select_minified_cell_safe : safe select_minified_cell.
Proof.
  intros a Hwf. unfold select_minified_cell. wp_steps. unfold id.
  destruct (require_tested_for_minified_cell _); [|done]. case_bool_decide; [by wp_step|].
  case_bool_decide as Hatt; [by wp_step|]. wp_step.
  wp_use checked_now_ms_wp as [t|e] b [-> Ht]; [|split; [exact Hwf|apply continues_clock]]. wp_steps.
  split; [|by apply continues_same]. apply wf_touch; [|apply Ht].
  apply (wf_minify (set_clock_reads (S (clock_reads a)) a)); [exact Hwf|]. by apply eq_None_not_Some.
Qed.

Lemma wf_taint a : wf a -> state a <> S.NeedsInput -> wf (set_state S.Tainted a).
Proof.
  intros (Hc & [Hl [Hn Hp Hm]] & Hb) Hst. split; [exact Hc|]. split; [|exact Hb]. split; [exact Hl|].
  split; [|by eapply path_taint|exact Hm]. intros Hs. by apply Hn in Hs.
Qed.

Lemma poison_after_failed_rebind_wp e a :
  wf a -> state a = S.Ready ->
  wp (poison_after_failed_rebind e) (fun _ b => wf b /\ continues a b /\ state b = S.Tainted) a.
Proof.
  intros Hwf Hready. unfold poison_after_failed_rebind. wp_step.
  wp_use transition_wp as r b (Hs & Hf & Hr); [apply Hwf|].
  pose proof (wf_faced _ _ Hf Hs Hwf) as Hb. pose proof (faced_continues _ _ Hf) as Hc.
  destruct r as [u|err]; wp_steps; [by destruct Hr|]. destruct Hr as [Hst _].
  split; [apply wf_taint; [done|congruence]|]. split; [|done]. etrans; [exact Hc|by apply continues_same].
Qed.

Lemma clear_and_rebind_safe expected deadline rebind arm : safe (clear_and_rebind expected deadline rebind arm).
Proof.
  intros a Hwf. unfold clear_and_rebind. wp_steps. unfold id.
  lazymatch goal with |- wp (if ?b then _ else _) _ _ => destruct b end; [by wp_step|].
  case_bool_decide; [by wp_step|]. case_bool_decide; [by wp_step|]. case_bool_decide as Hst; [by wp_step|].
  assert (Hpoison : forall e b, wf b -> continues a b -> state b = S.Ready ->
    wp (let* error := poison_after_failed_rebind e in mret (Err (A := ClearSessionResult) error))
      (fun _ b => wf b /\ continues a b) b).
  { intros e b Hb Hc Hs. wp_step. wp_use poison_after_failed_rebind_wp as e' c (Hwc & Hcc & _); [done|done|].
    wp_step. split; [done|by etrans]. }
  do 2 wp_step. pose proof (wf_act a (TypeClear (transcript_session_id a) deadline) ltac:(done) Hwf) as Hb.
  pose proof (continues_act a (TypeClear (transcript_session_id a) deadline) ltac:(done)) as Hc.
  destruct rebind as [rebound|f].
  - do 2 wp_step. pose proof (wf_act _ (ArmTranscript rebound) ltac:(done) Hb) as Hb'.
    pose proof (continues_act (set_acts (acts a ++ [TypeClear (transcript_session_id a) deadline]) a)
      (ArmTranscript rebound) ltac:(done)) as Hc'.
    destruct arm as [u|f]; [|apply Hpoison; [exact Hb'|by etrans|exact Hst]]. do 3 wp_step.
    wp_use checked_now_ms_wp as [t|e] d [-> Ht].
    + wp_steps. split; [apply wf_touch; [exact Hb'|apply Ht]|]. etrans; [exact Hc|]. etrans; [exact Hc'|by apply continues_same].
    + split; [exact Hb'|]. etrans; [exact Hc|]. etrans; [exact Hc'|by apply continues_same].
  - destruct (clear_was_not_submitted _); [wp_step; by split|]. by apply Hpoison.
Qed.

(** ** The message loop *)

Lemma wf_unblock a : wf a -> wf (set_needs_input_resume None (set_needs_input None a)).
Proof. intros (Hc & [Hl [Hn Hp Hm]] & Hb). split; [exact Hc|]. split; [|exact Hb]. split; [exact Hl|]. split; [by intros [? ?]|done|done]. Qed.

Lemma poll_startup_screen_safe screen : safe (poll_startup_screen screen).
Proof.
  destruct screen as [[|info| |]|f]; cbn [poll_startup_screen]; eauto with pmux.
  - apply session_bind; [eauto with pmux|]. intros [u|e]; eauto with pmux.
  - intros a Hwf. do 4 wp_step. apply session_from; [eauto with pmux|by apply wf_unblock|by apply continues_same].
Qed.

(** What the actor relies on in its workers: they move a turn forward and never publish a
    change of state. *)
Definition worker_state (s : S.SessionState) : bool :=
  match s with S.AwaitingPromptAck | S.Running | S.TerminalCandidate | S.Draining => true | _ => false end.

Definition input_ok (i : Input) : Prop :=
  match i with
  | InWorker (UState _ s) => worker_state s = true
  | InWorker (UEvent _ payload) => is_state_change payload = false
  | _ => True
  end.

Lemma fail_active_safe tid e reaped a t :
  wf a -> active a = Some t -> at_turn_id t = tid ->
  wp (fail_active tid e reaped) (fun _ b => wf b /\ continues a b) a.
Proof.
  intros Hwf Ht <-. wp_use fail_active_wp as u b Hb; [done|done|]. apply (ended_continues (at_turn_id t)); [done|by apply wf_active|done].
Qed.

Lemma active_faced a b t : faced a b -> active a = Some t -> active b = Some t.
Proof. intros [Hb _] <-. exact (f_equal active Hb). Qed.

(** A handler that changes the face and fails the turn when it cannot. *)
Lemma or_fail {A} (m : M (result A ErrorBody)) tid a t :
  (shown a -> wp m (fun _ b => shown b /\ faced a b) a) -> wf a -> active a = Some t -> at_turn_id t = tid ->
  wp (let* r := m in match r with Err error => fail_active tid error false | Ok _ => mret tt end)
    (fun _ b => wf b /\ continues a b) a.
Proof.
  intros Hm Hwf Ht Hid. wp_step. wp_use Hm as r b [Hs Hf]; [apply Hwf|].
  pose proof (wf_faced _ _ Hf Hs Hwf) as Hb. pose proof (faced_continues _ _ Hf) as Hc.
  destruct r as [x|e]; [by wp_step|]. wp_use fail_active_safe as u c [Hwc Hcc]; [done|by eapply active_faced|done|].
  split; [done|by etrans].
Qed.

Lemma expired_faced d a : shown a -> wp (expired d) (fun _ b => shown b /\ faced a b) a.
Proof.
  intros [Hl Hfa]. wp_use expired_wp as late b (Hb & Hlb & Hh). split; [split; [by apply Hlb|]|].
  - revert Hfa. unfold face_ok.
    by rewrite (f_equal needs_input Hb : needs_input b = needs_input a), (f_equal state Hb : state b = state a),
      (f_equal cell Hb : cell b = cell a), (f_equal writable_attach Hb : writable_attach b = writable_attach a), Hh.
  - apply faced_history; [by apply beyond_log_face|done].
Qed.

Lemma apply_update_safe tid update a t :
  input_ok (InWorker update) -> update_turn_id update <> None -> wf a -> active a = Some t -> at_turn_id t = tid ->
  wp (apply_update tid update) (fun _ b => wf b /\ continues a b) a.
Proof.
  intros Hin Hup Hwf Ht Hid. destruct update as [? s|? p|? [info|] s|? res d|? e reaped|? o rec at_ms reaped|? ?];
    cbn [apply_update]; try done.
  - wp_steps. unfold id. case_bool_decide; [by wp_step|]. destruct (_ && _).
    + wp_step. split; [exact Hwf|by apply continues_same].
    + apply session_from; [eauto with pmux|done|reflexivity].
  - eapply or_fail; [by apply emit_faced|done..].
  - eapply or_fail; [apply set_needs_input_to_wp|done..].
  - by apply resolve_needs_input_safe.
  - wp_step. wp_use expired_faced as late b [Hs Hf]; [apply Hwf|].
    pose proof (wf_faced _ _ Hf Hs Hwf) as Hb. pose proof (faced_continues _ _ Hf) as Hc.
    pose proof (active_faced _ _ _ Hf Ht) as Htb. subst tid.
    assert (Hend : forall c, ended (at_turn_id t) b c -> wf c /\ continues a c).
    { intros c Hec. destruct (ended_continues (at_turn_id t) b c) as [Hwc Hcc]; [done|by apply wf_active|done|].
      split; [done|by etrans]. }
    destruct late; [wp_use timeout_completed_wp as u c Hec|wp_use complete_active_wp as u c Hec]; eauto.
  - by eapply fail_active_safe.
  - subst tid. wp_use finish_cancel_wp as u c Hec; [done|done|].
    apply (ended_continues (at_turn_id t)); [done|by apply wf_active|done].
Qed.

Lemma handle_worker_safe update : input_ok (InWorker update) -> safe (handle_worker update).
Proof.
  intros Hin. assert (Hatt := finish_attach_reconciliation_safe).
  assert (Hgo : forall tid, update_turn_id update = Some tid -> safe (
      let* a := gets id in
      if negb (bool_decide (at_turn_id <$> active a = Some tid)) then mret tt
      else if bool_decide (state a = S.Cancelling) && negb (ends_turn update) then mret tt
      else
        let* room := ensure_sequence_slots (required_sequence_slots update) in
        match room with
        | Err error => fail_active tid error false
        | Ok _ => apply_update tid update
        end)).
  { intros tid Htid a Hwf. wp_steps. unfold id. case_bool_decide as Hact; cbn [negb]; [|by wp_step].
    destruct (_ && _); [by wp_step|]. wp_step.
    apply fmap_Some in Hact as (t & Ht & ->).
    wp_use ensure_sequence_slots_wp as [u|e] b [-> _].
    - wp_use apply_update_safe as v c [Hwc Hcc]; [done|by rewrite Htid|exact Hwf|exact Ht|done|].
      split; [done|etrans; [apply continues_clock|done]].
    - wp_use fail_active_safe as v c [Hwc Hcc]; [exact Hwf|exact Ht|done|].
      split; [done|etrans; [apply continues_clock|done]]. }
  destruct update; cbn [handle_worker update_turn_id]; first [apply Hatt|by apply Hgo].
Qed.

Lemma handle_command_safe command : safe (handle_command command).
Proof.
  assert (Hread : forall A (m : M A), (forall a, wf a -> wp m (fun _ b => b = a) a) -> safe m).
  { intros A m Hm a Hwf. wp_use Hm as x b ->; [done|]. done. }
  destruct command; cbn [handle_command]; (apply session_bind; [|intros ?; apply session_ret]);
    first [apply submit_safe|apply cancel_safe|apply session_gets|apply close_safe|apply reserve_writable_attach_safe
          |apply release_writable_attach_safe|apply expire_idle_safe|apply select_minified_cell_safe
          |apply clear_and_rebind_safe|idtac]; apply Hread; intros a Hwf.
  - by apply snapshot_wp.
  - by apply event_batch_wp.
Qed.

Lemma step_safe i : input_ok i -> safe (step i).
Proof.
  intros Hin. destruct i as [c|u|screen]; cbn [step].
  - apply session_bind; [apply handle_command_safe|eauto with pmux].
  - apply session_bind; [by apply handle_worker_safe|eauto with pmux].
  - apply session_bind; [apply session_gets|]. intros a. apply session_bind; [|eauto with pmux].
    destruct (polls_screen a); [apply poll_startup_screen_safe|apply session_ret].
Qed.

Lemma run_safe inputs : Forall input_ok inputs -> safe (run inputs).
Proof.
  induction 1 as [|i inputs Hi _ IH]; cbn [run]; [apply session_ret|].
  apply session_bind; [by apply step_safe|]. intros r a Hwf. wp_steps. unfold id. case_bool_decide.
  - apply session_from; [|done|reflexivity]. apply session_bind; [|eauto with pmux].
    destruct (active a); [|apply session_ret]. apply session_bind; [|eauto with pmux].
    apply modify_safe; [apply wf_inactive|]. intros. by apply continues_same.
  - apply session_from; [|done|reflexivity]. apply session_bind; [done|eauto with pmux].
Qed.

(** ** The first state of a session *)

Lemma wf_fresh init c ttl now :
  config_ok c -> now + ttl <= MAX_SAFE_JSON_INTEGER -> wf (fresh_actor init c ttl now).
Proof.
  intros Hc Hidle. split; [done|]. split; [split|].
  - split; cbn; try done; [lia|by exists []|lia|lia].
  - split; cbn; [by intros [? ?]|apply path_start|done].
  - split; cbn; try done; [apply N.le_0_l|rewrite map_size_empty; apply N.le_0_l|apply NoDup_nil_2|]. intros tid Hin. by apply not_elem_of_nil in Hin.
Qed.

Lemma path_nil_state s : state_path [] s -> s = S.Creating \/ s = S.Tainted.
Proof. inversion 1 as [|l ????? ? E|l ?????? E|l ??? ? E|]; subst; eauto; by destruct l. Qed.

Lemma spawn_wf init c :
  config_ok c -> exists r, spawn init c = Some r /\
    match r with Ok (handle, a) => wf a /\ config a = c /\ spawned (acts a) = [] /\ history a <> [] /\
      session_id a = init_session_id init /\ generation_id a = init_generation_id init | Err _ => True end.
Proof.
  intros Hc. unfold spawn. destruct (let? _ := _ in _) as [now|e] eqn:E; [|by eexists].
  assert (Hidle : now + default (cfg_idle_ttl_ms c) (init_idle_ttl_ms init) <= MAX_SAFE_JSON_INTEGER).
  { res_inv. subst. by match goal with Hd : checked_idle_deadline _ _ = _ |- _ => apply checked_idle_deadline_Ok in Hd as [_ ?] end. }
  pose proof (wf_fresh init c _ now Hc Hidle) as Hf. set (a0 := fresh_actor _ _ _ _) in *.
  set (boot := mtry _ _).
  assert (Hboot : wp boot (fun r b => wf b /\ faced a0 b /\ (is_ok r = true -> history b <> [])) a0).
  { unfold boot. wp_step. wp_use transition_wp as [u|e] b (Hs & Hb & Hst); [apply Hf| |split; [by eapply wf_faced|done]]. wp_step.
    assert (Hne : history b <> []).
    { intros E0. pose proof (face_path _ _ _ _ _ (proj2 Hs)) as Hpath. rewrite E0, (proj1 Hst) in Hpath.
      apply path_nil_state in Hpath as [?|?]; done. }
    assert (Hnext : wp match init_initial_needs_input init with
        | Some info => set_needs_input_to info S.Ready None
        | None => transition S.Ready (Some "backend_ready"%string) None
        end (fun _ c => shown c /\ faced b c) b)
      by (destruct (init_initial_needs_input init); [by apply set_needs_input_to_wp|by apply transition_faced]).
    pose proof (wf_faced _ _ Hb Hs Hf) as Hwb.
    wp_use Hnext as [v|e] d [Hsd Hd];
      (assert (Hwd : wf d) by (by eapply wf_faced)); (assert (Hfd : faced a0 d) by (by eapply faced_trans)); [|done].
    wp_steps. unfold id. pose proof (log_next _ _ _ _ _ _ _ _ _ _ (proj1 Hsd)) as Hn.
    rewrite (proj2 (checked_sub_Some (next_sequence d) 1 (next_sequence d - 1))) by lia. wp_step.
    split; [done|]. split; [done|]. intros _ E0. destruct Hd as [_ [l Hl]]. rewrite E0 in Hl. by destruct (history b). }
  apply awp_total in Hboot as ([handle|e] & b & Eb & Hb & [Hfb _] & Hne); rewrite Eb; [|by eexists].
  eexists. split; [done|]. split; [done|]. split; [exact (f_equal config Hfb)|].
  rewrite (f_equal acts Hfb : acts b = acts a0). split; [done|]. split; [by apply Hne|].
  split; [exact (f_equal session_id Hfb)|exact (f_equal generation_id Hfb)].
Qed.

End Handlers.
