(* ===== verification/ActorEvents.v ===== *)
(** * What a subscriber reads

    [event_batch] and the page it takes from the replay ring: a subscriber gets exactly
    the events after its cursor, in order, and always makes progress; a cursor before the
    ring gets a gap and a snapshot. *)

From S2P Require Import Prelude Text Protocol Composer Session Screen Backend Actor ActorOps ActorProofs ActorTurns ActorSteps.

(** The bytes of a page's event array: its frame, its events and the commas between. *)
Definition array_bytes `{Host} (events : list EventEnvelope) : N :=
  EVENT_ARRAY_FIELD_OVERHEAD_BYTES + foldr (fun e n => serialized_bytes (WEvent e) + n) 0 events
  + N.of_nat (length events - 1).

(** How [serde_json] writes a page: the empty response with the event array in it; a
    smaller cursor is not longer. *)
Class PageLaws `{Host} : Prop := {
  page_length events next :
    events <> [] -> Forall (fun e => serialized_bytes (WEvent e) <> USIZE_MAX) events -> next <= MAX_SAFE_JSON_INTEGER ->
    event_batch_response_bytes (mkEventBatch events next None)
    = N.min USIZE_MAX (empty_event_batch_response_bytes next + array_bytes events);
  cursor_length n m :
    n <= m -> m <= MAX_SAFE_JSON_INTEGER -> empty_event_batch_response_bytes n <= empty_event_batch_response_bytes m;
}.

Section Events.
Context `{HostLaws} `{!PageLaws}.

Lemma array_bytes_snoc events e :
  array_bytes (events ++ [e])
  = array_bytes events + (if bool_decide (events = []) then 0 else 1) + serialized_bytes (WEvent e).
Proof.
  unfold array_bytes. rewrite foldr_app, length_app. simpl.
  assert (Hf : forall n, foldr (fun e n => serialized_bytes (WEvent e) + n) n events
    = foldr (fun e n => serialized_bytes (WEvent e) + n) 0 events + n).
  { intros n. induction events as [|x l IH]; simpl; [lia|]. rewrite IH. lia. }
  rewrite Hf. case_bool_decide as He; [subst; simpl; lia|]. destruct events; [done|]. simpl. lia.
Qed.

Lemma cursor_safe n : n <= MAX_EVENT_SEQUENCE -> n + 1 <= MAX_SAFE_JSON_INTEGER.
Proof. unfold MAX_EVENT_SEQUENCE, MAX_SAFE_JSON_INTEGER. lia. Qed.

(** A retained event fits a frame alone, whatever its cursor. *)
Lemma single_fits limit e :
  limit <= MAX_NATIVE_FRAME_BYTES -> single_event_response_bytes e <= limit -> serialized_bytes (WEvent e) <> USIZE_MAX ->
  empty_event_batch_response_bytes MAX_SAFE_JSON_INTEGER + array_bytes [e] <= limit.
Proof.
  intros Hl Hs Hser. unfold single_event_response_bytes in Hs. rewrite page_length in Hs; [|done|by apply Forall_singleton|done].
  assert (limit < USIZE_MAX) by (eapply N.le_lt_trans; [exact Hl|by vm_compute]). lia.
Qed.

Definition page_fits (limit : N) (events : list EventEnvelope) : Prop :=
  match last events with
  | Some e => empty_event_batch_response_bytes (ev_sequence e + 1) + array_bytes events <= limit
  | None => True
  end.

Lemma fitting_from_spec limit records : limit <= MAX_NATIVE_FRAME_BYTES ->
  Forall (fun r => record_fits limit r /\ ev_sequence (rp_event r) <= MAX_EVENT_SEQUENCE) records ->
  forall events, page_fits limit events ->
  exists k, fitting_from records limit events (array_bytes events) = Ok (events ++ take k (rp_event <$> records)) /\
    page_fits limit (events ++ take k (rp_event <$> records)) /\ (k <= length records)%nat /\
    (events = [] -> records <> [] -> (1 <= k)%nat).
Proof.
  intros Hlimit. assert (Hlt : limit < USIZE_MAX) by (eapply N.le_lt_trans; [exact Hlimit|by vm_compute]).
  induction 1 as [|r records [(Henc & Hser & Hsingle) Hseq] Hall IH]; intros events Hev; cbn [fitting_from].
  { exists 0%nat. simpl. rewrite app_nil_r. done. }
  pose proof (single_fits limit (rp_event r) Hlimit Hsingle ltac:(congruence)) as Hone.
  assert (Hcursor : empty_event_batch_response_bytes (ev_sequence (rp_event r) + 1)
    <= empty_event_batch_response_bytes MAX_SAFE_JSON_INTEGER).
  { apply cursor_length; [by apply cursor_safe|done]. }
  assert (Hsep : (if bool_decide (events = []) then 0 else 1) <= 1) by (destruct (bool_decide _); lia).
  unfold array_bytes at 1 in Hone. cbn [foldr length] in Hone.
  pose proof (array_bytes_snoc events (rp_event r)) as Hsnoc. rewrite <-Henc in Hsnoc, Hone.
  assert (Hab : array_bytes events <= limit + EVENT_ARRAY_FIELD_OVERHEAD_BYTES).
  { unfold page_fits in Hev. destruct (last events) as [e|] eqn:El; [lia|]. apply last_None in El as ->.
    unfold array_bytes. simpl. lia. }
  assert (Hbig : limit + EVENT_ARRAY_FIELD_OVERHEAD_BYTES + 1 + limit + limit <= USIZE_MAX).
  { transitivity (3 * MAX_NATIVE_FRAME_BYTES + 100); [unfold EVENT_ARRAY_FIELD_OVERHEAD_BYTES; lia|by vm_compute]. }
  set (sep := if bool_decide (events = []) then 0 else 1) in *.
  assert (Henc_le : rp_encoded_bytes r <= limit) by lia.
  assert (C1 : checked_add USIZE_MAX (array_bytes events) sep = Some (array_bytes events + sep))
    by (apply checked_add_Some; split; [done|lia]).
  assert (C2 : checked_add USIZE_MAX (array_bytes events + sep) (rp_encoded_bytes r) = Some (array_bytes (events ++ [rp_event r])))
    by (apply checked_add_Some; split; [done|lia]).
  assert (C3 : checked_add U64_MAX (ev_sequence (rp_event r)) 1 = Some (ev_sequence (rp_event r) + 1)).
  { apply checked_add_Some. apply cursor_safe in Hseq. unfold MAX_SAFE_JSON_INTEGER, U64_MAX in *. split; [done|lia]. }
  assert (C4 : checked_add USIZE_MAX (empty_event_batch_response_bytes (ev_sequence (rp_event r) + 1))
    (array_bytes (events ++ [rp_event r])) = Some (empty_event_batch_response_bytes (ev_sequence (rp_event r) + 1)
    + array_bytes (events ++ [rp_event r]))) by (apply checked_add_Some; split; [done|lia]).
  rewrite C1. cbn [base.mbind option_bind]. rewrite C2. cbn [ok_or result_bind]. rewrite C3. cbn [ok_or result_bind].
  rewrite C4. cbn [ok_or result_bind].
  destruct (N.ltb_spec limit (empty_event_batch_response_bytes (ev_sequence (rp_event r) + 1)
    + array_bytes (events ++ [rp_event r]))) as [Hover|Hfit].
  - exists 0%nat. simpl. rewrite app_nil_r. split; [done|]. split; [done|]. split; [lia|]. intros -> _. exfalso.
    rewrite Hsnoc in Hover. cbn in Hover, Hone. unfold array_bytes in Hover. cbn in Hover. lia.
  - destruct (IH (events ++ [rp_event r])) as (k & Hk & Hf & Hle & _).
    { unfold page_fits. rewrite last_snoc. exact Hfit. }
    exists (S k). rewrite Hk, fmap_cons, firstn_cons, <-!app_assoc in *. simpl in *. split; [done|]. split; [done|]. split; [lia|]. intros. lia.
Qed.

(** ** The ring in the history *)

Lemma ring_geometry a :
  log_ok a -> exists d, rp_event <$> replay a = drop d (history a) /\
    (d + length (replay a) = length (history a))%nat /\ oldest_available a = N.of_nat d + 1.
Proof.
  intros Hl. destruct (log_suffix _ _ _ _ _ _ _ _ _ _ Hl) as [dropped Hh]. exists (length dropped).
  rewrite Hh, drop_app_length, length_app, length_fmap. split; [done|]. split; [done|]. unfold oldest_available.
  destruct (replay a) as [|r ring] eqn:Er.
  - rewrite (log_next _ _ _ _ _ _ _ _ _ _ Hl), Hh, length_app. simpl. lia.
  - apply (log_sequence _ _ _ _ _ _ _ _ _ _ Hl). rewrite Hh. simpl. by apply list_lookup_middle.
Qed.

Definition page_limit (n : N) (a : SessionActor) : N :=
  N.max (if n =? 0 then default_event_batch_size (config a) else n) 1.

Lemma replay_page_range_spec oldest len after limit :
  oldest <= after + 1 -> after + 1 - oldest <= len -> after + 1 <= U64_MAX -> len <= USIZE_MAX ->
  replay_page_range oldest len after limit = (after + 1 - oldest, N.min (after + 1 - oldest + N.max limit 1) len).
Proof.
  intros Ho Hl Ha Hlen. unfold replay_page_range.
  rewrite (proj2 (checked_add_Some U64_MAX after 1 (after + 1)) (conj eq_refl Ha)). cbn [base.mbind option_bind].
  rewrite (proj2 (checked_sub_Some (after + 1) oldest _) (conj Ho eq_refl)). cbn [default from_option id].
  unfold saturating_add. f_equal; [lia|]. rewrite (N.min_l (after + 1 - oldest) len) by lia. lia.
Qed.

Lemma log_sequence_small a e : log_ok a -> e ∈ history a -> ev_sequence e <= MAX_EVENT_SEQUENCE.
Proof.
  intros Hl [i Hi]%list_elem_of_lookup. rewrite (log_sequence _ _ _ _ _ _ _ _ _ _ Hl i e Hi).
  apply lookup_lt_Some in Hi. pose proof (log_next _ _ _ _ _ _ _ _ _ _ Hl). pose proof (log_ceiling _ _ _ _ _ _ _ _ _ _ Hl). lia.
Qed.

(** The empty page of a session that has published fits its frame. *)
Lemma empty_page_fits a n :
  log_ok a -> history a <> [] -> n <= MAX_SAFE_JSON_INTEGER -> empty_event_batch_response_bytes n <= frame_limit a.
Proof.
  intros Hl Hne Hn. destruct (history a) as [|e l] eqn:Eh; [done|].
  pose proof (log_small _ _ _ _ _ _ _ _ _ _ Hl) as Hs. rewrite Eh in Hs. apply Forall_cons in Hs as [[Hs Hser] _].
  pose proof (single_fits (frame_limit a) e ltac:(unfold frame_limit; lia) Hs Hser).
  pose proof (cursor_length n MAX_SAFE_JSON_INTEGER Hn (N.le_refl _)). lia.
Qed.

Lemma ensure_event_batch_fits_ok batch a :
  event_batch_response_bytes batch <= frame_limit a -> ensure_event_batch_fits batch a = Some (Ok batch, a).
Proof.
  intros Hb. unfold ensure_event_batch_fits, mbind, gets, mret.
  assert (frame_limit a < USIZE_MAX).
  { eapply N.le_lt_trans; [apply N.le_min_r|by vm_compute]. }
  rewrite (proj2 (N.eqb_neq _ _)) by lia. by rewrite (proj2 (N.leb_le _ _) Hb).
Qed.

(** The page at a retained cursor: its events and where it ends. *)
Lemma retained_page a after n :
  log_ok a -> oldest_available a <= after + 1 -> after < next_sequence a ->
  let '(first, stop) := replay_page_range (oldest_available a) (N.of_nat (length (replay a))) after
                          (if n =? 0 then default_event_batch_size (config a) else n) in
  let page := take (N.to_nat (stop - first)) (drop (N.to_nat first) (replay a)) in
  (forall k, (k <= length page)%nat -> take k (rp_event <$> page) = take k (drop (N.to_nat after) (history a))) /\
  N.of_nat (length page) = stop - first /\ stop - first <= page_limit n a /\
  (after + 1 < next_sequence a <-> first < stop) /\
  (length page <= length (drop (N.to_nat after) (history a)))%nat /\
  Forall (fun r => record_fits (frame_limit a) r /\ ev_sequence (rp_event r) <= MAX_EVENT_SEQUENCE) page.
Proof.
  intros Hl Hold Hnext. destruct (ring_geometry a Hl) as (d & Hring & Hlen & Ho).
  pose proof (log_next _ _ _ _ _ _ _ _ _ _ Hl) as Hn. pose proof (log_ceiling _ _ _ _ _ _ _ _ _ _ Hl) as Hc.
  assert (Hmax : next_sequence a <= MAX_SAFE_JSON_INTEGER).
  { etrans; [exact Hc|]. transitivity (MAX_EVENT_SEQUENCE + 1); [lia|by apply cursor_safe]. }
  assert (Hwide : MAX_SAFE_JSON_INTEGER <= U64_MAX) by by vm_compute.
  change USIZE_MAX with U64_MAX in *.
  rewrite replay_page_range_spec by (try change USIZE_MAX with U64_MAX; lia).
  set (first := after + 1 - oldest_available a). set (stop := N.min _ _). cbn zeta.
  assert (Hfirst : first = after - N.of_nat d) by lia.
  assert (Hpl : length (take (N.to_nat (stop - first)) (drop (N.to_nat first) (replay a))) = N.to_nat (stop - first)).
  { rewrite length_take, length_drop. lia. }
  split; [|split; [lia|split; [unfold page_limit; lia|split; [lia|split]]]].
  - intros k Hk. rewrite fmap_take, fmap_drop, Hring, drop_drop, take_take.
    rewrite Hpl in Hk. f_equal; [lia|]. f_equal. lia.
  - rewrite Hpl, length_drop. lia.
  - apply Forall_take, Forall_drop. apply Forall_forall. intros r Hr. split.
    + pose proof (log_fits _ _ _ _ _ _ _ _ _ _ Hl) as Hf. rewrite Forall_forall in Hf. by apply Hf.
    + apply (log_sequence_small a); [done|]. apply (list_elem_of_fmap_2 rp_event) in Hr. rewrite Hring in Hr.
      eapply subseteq_drop; eauto.
Qed.

Lemma last_take_history a after k e :
  log_ok a -> last (take k (drop after (history a))) = Some e -> (k <= length (drop after (history a)))%nat ->
  ev_sequence e = N.of_nat after + N.of_nat k.
Proof.
  intros Hl Hlast Hk. rewrite last_lookup, length_take, length_drop in Hlast. rewrite length_drop in Hk.
  apply lookup_take_Some in Hlast as [Hi Hlt]. rewrite lookup_drop in Hi.
  rewrite (log_sequence _ _ _ _ _ _ _ _ _ _ Hl _ _ Hi). lia.
Qed.

Lemma event_batch_retained a after n :
  log_ok a -> history a <> [] -> oldest_available a <= after + 1 -> after < next_sequence a ->
  exists k, event_batch after n a
    = Some (Ok (mkEventBatch (take k (drop (N.to_nat after) (history a))) (after + N.of_nat k + 1) None), a) /\
    N.of_nat k <= page_limit n a /\ (k <= length (drop (N.to_nat after) (history a)))%nat /\
    (after + 1 < next_sequence a -> (1 <= k)%nat).
Proof.
  intros Hl Hne Hold Hnext. pose proof (retained_page a after n Hl Hold Hnext) as Hpage.
  pose proof (log_ceiling _ _ _ _ _ _ _ _ _ _ Hl) as Hceil.
  assert (Hmax : next_sequence a <= MAX_SAFE_JSON_INTEGER).
  { etrans; [exact Hceil|]. transitivity (MAX_EVENT_SEQUENCE + 1); [lia|by apply cursor_safe]. }
  unfold event_batch, mbind at 1, gets, id. rewrite (proj2 (N.leb_gt _ _) Hnext), (proj2 (N.ltb_ge _ _)) by lia.
  destruct (replay_page_range _ _ _ _) as [first stop]. cbn zeta in Hpage.
  set (page := take _ _) in *. destruct Hpage as (Htake & Hlen & Hlim & Hfirst & Hshort & Hall).
  destruct (fitting_from_spec (frame_limit a) page ltac:(unfold frame_limit; lia) Hall [] I)
    as (k & Hk & Hfits & Hkle & Hk1).
  assert (Hfit : fitting_event_page page (frame_limit a) = Ok (take k (drop (N.to_nat after) (history a)))).
  { rewrite <-Htake by done. exact Hk. }
  rewrite Htake in Hfits by done. cbn [app] in Hfits. exists k.
  assert (Hprogress : after + 1 < next_sequence a -> (1 <= k)%nat).
  { intros Hmore%Hfirst. apply Hk1; [done|]. intros Ep. rewrite Ep in Hlen. simpl in Hlen. lia. }
  split; [|split; [lia|split; [lia|exact Hprogress]]].
  unfold mtry, mbind at 1, mret at 1. rewrite Hfit. set (events := take k (drop (N.to_nat after) (history a))) in *.
  assert (Hguard : (first <? stop) && bool_decide (events = []) = false).
  { destruct (N.ltb_spec first stop) as [Hlt|]; [|done]. apply bool_decide_eq_false. intros Ev.
    apply Hfirst, Hprogress in Hlt. apply (f_equal length) in Ev. unfold events in Ev. rewrite length_take in Ev. cbn [length] in Ev. lia. }
  rewrite Hguard. unfold mbind at 1.
  assert (Hnextk : after + N.of_nat k + 1 <= next_sequence a).
  { pose proof (log_next _ _ _ _ _ _ _ _ _ _ Hl). rewrite length_drop in Hshort. lia. }
  destruct (last events) as [e|] eqn:Elast.
  - pose proof (last_take_history a (N.to_nat after) k e Hl Elast ltac:(lia)) as Hseq.
    unfold mret. rewrite (proj2 (checked_add_Some U64_MAX (ev_sequence e) 1 (after + N.of_nat k + 1))).
    + cbn [ok_or]. apply ensure_event_batch_fits_ok. rewrite page_length; [|by intros Ev; rewrite Ev in Elast| |lia].
      * unfold page_fits in Hfits. rewrite Elast in Hfits. replace (after + N.of_nat k + 1) with (ev_sequence e + 1) by lia. lia.
      * apply Forall_take, Forall_drop. eapply Forall_impl; [apply (log_small _ _ _ _ _ _ _ _ _ _ Hl)|]. by intros ? [_ ?].
    + assert (MAX_SAFE_JSON_INTEGER <= U64_MAX) by by vm_compute. split; lia.
  - apply last_None in Elast. unfold mret. rewrite (proj2 (N.ltb_lt _ _) Hnext).
    assert (Hk0 : k = 0%nat).
    { apply (f_equal length) in Elast. unfold events in Elast. rewrite length_take in Elast. cbn [length] in Elast. lia. }
    rewrite (proj2 (safe_sum_Some after 1 (after + 1))) by lia. cbn [ok_or]. rewrite Elast, Hk0.
    replace (after + N.of_nat 0 + 1) with (after + 1) by lia. apply ensure_event_batch_fits_ok.
    apply empty_page_fits; [done|done|lia].
Qed.

(** A cursor whose events were dropped. *)
Lemma event_batch_gap a after n :
  wf a -> after + 1 < oldest_available a ->
  exists snap r, snapshot a = Some (snap, a) /\ event_batch after n a = Some (r, a) /\
    (r = Ok (mkEventBatch [] (next_sequence a) (Some (mkReplayGap after (oldest_available a) (next_sequence a) snap))) \/
     exists e, r = Err e).
Proof.
  intros Hwf Hgap. destruct (ring_geometry a (proj1 (proj1 (proj2 Hwf)))) as (d & _ & Hlen & Ho).
  pose proof (log_next _ _ _ _ _ _ _ _ _ _ (proj1 (proj1 (proj2 Hwf)))) as Hn.
  destruct (awp_total _ _ _ (snapshot_wp a Hwf)) as (snap & ? & Hsnap & ->). exists snap.
  unfold event_batch, mbind at 1, gets, id.
  rewrite (proj2 (N.leb_gt _ _)) by lia. rewrite (proj2 (N.ltb_lt _ _)) by lia. unfold mbind. rewrite Hsnap.
  unfold ensure_event_batch_fits, mbind, gets, mret. eexists. split; [done|]. split; [done|].
  destruct (_ =? _); [by eauto|]. destruct (_ <=? _); eauto.
Qed.

End Events.
