(* ===== verification/EventStream.v ===== *)
(** * The client's event stream

    [crates/client/src/lib.rs]: the validation of an event batch and the stream that
    polls for one batch after the other, and what it delivers when it polls the session
    actor. Of the client's errors only those of the event path are here. *)

From S2P Require Import Prelude Text Protocol Composer Session Screen Backend Actor ActorOps ActorProofs ActorTurns ActorSteps ActorEvents.

Inductive ClientError :=
| UnsupportedProtocolVersion (expected actual : N)
| Server (error : ErrorBody)
| EventSessionMismatch (expected actual : SessionId)
| EventGenerationMismatch (expected actual : SessionGenerationId)
| InvalidEventSequence (expected actual : N)
| EventCursorOverflow (cursor : N)
| InvalidBatchCursor (expected actual : N)
| ReplayGapRequestMismatch (expected actual : N)
| InvalidReplayGap (gap_next_sequence snapshot_last_sequence batch_next_sequence : N).

Definition is_supported_version (version : N) : bool := version =? PROTOCOL_VERSION.

Definition next_event_sequence (cursor : N) : result N ClientError := ok_or (safe_sum cursor 1) (EventCursorOverflow cursor).

Definition validate_event (session_id : SessionId) (generation_id : SessionGenerationId) (event : EventEnvelope) :
    result unit ClientError :=
  if negb (is_supported_version (ev_schema_version event)) then
    Err (UnsupportedProtocolVersion PROTOCOL_VERSION (ev_schema_version event))
  else if negb (ev_session_id event =? session_id) then Err (EventSessionMismatch session_id (ev_session_id event))
  else if negb (ev_generation_id event =? generation_id) then
    Err (EventGenerationMismatch generation_id (ev_generation_id event))
  else Ok tt.

(** The gap's part of [validate_event_batch]; it answers the cursor to go on from. *)
Definition validate_gap (session_id : SessionId) (generation_id : SessionGenerationId) (requested_after : N)
    (batch : EventBatch) (gap : ReplayGap) : result N ClientError :=
  let snapshot := rg_snapshot gap in
  if negb (rg_requested_after gap =? requested_after) then
    Err (ReplayGapRequestMismatch requested_after (rg_requested_after gap))
  else if negb (ss_session_id snapshot =? session_id) then Err (EventSessionMismatch session_id (ss_session_id snapshot))
  else if negb (ss_generation_id snapshot =? generation_id) then
    Err (EventGenerationMismatch generation_id (ss_generation_id snapshot))
  else
    let? snapshot_next := next_event_sequence (ss_last_sequence snapshot) in
    let? first_requested := next_event_sequence (rg_requested_after gap) in
    if negb (bool_decide (bt_events batch = [])) || negb (rg_next_sequence gap =? snapshot_next)
       || negb (bt_next_sequence batch =? snapshot_next) || (rg_oldest_available gap <=? first_requested)
       || (snapshot_next <? rg_oldest_available gap)
    then Err (InvalidReplayGap (rg_next_sequence gap) (ss_last_sequence snapshot) (bt_next_sequence batch))
    else Ok (ss_last_sequence snapshot).

Definition validate_event_batch (session_id : SessionId) (generation_id : SessionGenerationId) (requested_after : N)
    (batch : EventBatch) : result unit ClientError :=
  let? cursor :=
    match bt_replay_gap batch with
    | Some gap => validate_gap session_id generation_id requested_after batch gap
    | None => Ok requested_after
    end in
  let? cursor :=
    try_fold (fun cursor event =>
      let? _ := validate_event session_id generation_id event in
      let? expected := next_event_sequence cursor in
      if negb (ev_sequence event =? expected) then Err (InvalidEventSequence expected (ev_sequence event))
      else Ok (ev_sequence event)) (bt_events batch) cursor in
  let? expected_next := next_event_sequence cursor in
  if negb (bt_next_sequence batch =? expected_next) then
    Err (InvalidBatchCursor expected_next (bt_next_sequence batch))
  else Ok tt.

(** ** The stream *)

Inductive EventStreamItem :=
| StreamEvent (event : EventEnvelope)
| StreamGap (gap : ReplayGap).

Record SequencedEventStream := mkStream {
  st_session_id : SessionId;
  st_generation_id : SessionGenerationId;
  st_after_sequence : N;
  st_pending : list (EventStreamItem * N);
}.

Definition ingest (st : SequencedEventStream) (batch : EventBatch) : result SequencedEventStream ClientError :=
  let? _ := validate_event_batch (st_session_id st) (st_generation_id st) (st_after_sequence st) batch in
  let gap := match bt_replay_gap batch with
             | Some gap => [(StreamGap gap, ss_last_sequence (rg_snapshot gap))]
             | None => []
             end in
  Ok (mkStream (st_session_id st) (st_generation_id st) (st_after_sequence st)
        (st_pending st ++ gap ++ ((fun e => (StreamEvent e, ev_sequence e)) <$> bt_events batch))).

(** [subscribe_events], given what the daemon answers. *)
Definition subscribe_events (session_id : SessionId) (generation_id : SessionGenerationId) (after_sequence : N)
    (response : result EventBatch ErrorBody) : result EventBatch ClientError :=
  match response with
  | Err e => Err (Server e)
  | Ok batch => let? _ := validate_event_batch session_id generation_id after_sequence batch in Ok batch
  end.

Inductive Poll :=
| PollPending
| PollReady (item : result EventStreamItem ClientError).

(** [poll_next]: a pending item, or else one answer of the daemon to [subscribe_events],
    whose first item is delivered at once. The answer is only asked for when needed. *)
Definition poll_next (respond : N -> result EventBatch ErrorBody) (st : SequencedEventStream) :
    Poll * SequencedEventStream :=
  let pop st :=
    match st_pending st with
    | (item, cursor) :: pending =>
        Some (PollReady (Ok item), mkStream (st_session_id st) (st_generation_id st) cursor pending)
    | [] => None
    end in
  match pop st with
  | Some r => r
  | None =>
      match subscribe_events (st_session_id st) (st_generation_id st) (st_after_sequence st)
              (respond (st_after_sequence st)) with
      | Err e => (PollReady (Err e), st)
      | Ok batch =>
          match ingest st batch with
          | Err e => (PollReady (Err e), st)
          | Ok st' => match pop st' with Some r => r | None => (PollPending, st') end
          end
      end
  end.

(** Poll this many times and collect what is ready. *)
Fixpoint poll_times (respond : N -> result EventBatch ErrorBody) (n : nat) (st : SequencedEventStream) :
    list (result EventStreamItem ClientError) * SequencedEventStream :=
  match n with
  | O => ([], st)
  | S n =>
      let '(p, st) := poll_next respond st in
      let '(items, st) := poll_times respond n st in
      (match p with PollReady r => r :: items | PollPending => items end, st)
  end.

(** The daemon in front of one session, as it is. *)
Definition actor_responds `{Host} (max_events : N) (a : SessionActor) (after : N) : result EventBatch ErrorBody :=
  match event_batch after max_events a with
  | Some (r, _) => r
  | None => Err (ErrorBody_new Internal "the session panicked")
  end.

Section Composition.
Context `{HostLaws} `{!PageLaws}.

Lemma next_event_sequence_ok n : n + 1 <= MAX_SAFE_JSON_INTEGER -> next_event_sequence n = Ok (n + 1).
Proof. intros Hn. unfold next_event_sequence. by rewrite (proj2 (safe_sum_Some n 1 (n + 1)) (conj eq_refl Hn)). Qed.

Lemma next_sequence_safe a : log_ok a -> next_sequence a <= MAX_SAFE_JSON_INTEGER.
Proof.
  intros Hl. etrans; [exact (log_ceiling _ _ _ _ _ _ _ _ _ _ Hl)|].
  transitivity (MAX_EVENT_SEQUENCE + 1); [lia|by apply cursor_safe].
Qed.

Lemma validate_history_event a e : log_ok a -> e ∈ history a -> validate_event (session_id a) (generation_id a) e = Ok tt.
Proof.
  intros Hl He. pose proof (log_stamped _ _ _ _ _ _ _ _ _ _ Hl) as Hst. rewrite Forall_forall in Hst.
  destruct (Hst e He) as (Hv & Hs & Hg & _). unfold validate_event, is_supported_version.
  by rewrite Hv, Hs, Hg, !N.eqb_refl.
Qed.

(** Events that follow the cursor pass the loop of the validation. *)
Lemma validate_page a after k :
  log_ok a -> (after + k <= length (history a))%nat ->
  try_fold (fun cursor event =>
      let? _ := validate_event (session_id a) (generation_id a) event in
      let? expected := next_event_sequence cursor in
      if negb (ev_sequence event =? expected) then Err (InvalidEventSequence expected (ev_sequence event))
      else Ok (ev_sequence event)) (take k (drop after (history a))) (N.of_nat after)
  = Ok (N.of_nat (after + k)).
Proof.
  intros Hl. revert after. induction k as [|k IH]; intros after Hle; cbn [take try_fold]; [by rewrite Nat.add_0_r|].
  destruct (lookup_lt_is_Some_2 (history a) after ltac:(lia)) as [e He].
  rewrite (drop_S _ _ _ He). cbn [take try_fold].
  rewrite (validate_history_event a e Hl) by (by eapply list_elem_of_lookup_2). cbn [result_bind].
  pose proof (log_sequence _ _ _ _ _ _ _ _ _ _ Hl _ _ He) as Hseq.
  pose proof (next_sequence_safe a Hl). pose proof (log_next _ _ _ _ _ _ _ _ _ _ Hl).
  rewrite next_event_sequence_ok by lia. cbn [result_bind]. rewrite Hseq, N.eqb_refl. cbn [negb result_bind].
  replace (N.of_nat after + 1) with (N.of_nat (S after)) by lia. rewrite IH by lia. f_equal. lia.
Qed.

Lemma snapshot_fields a snap b : snapshot a = Some (snap, b) ->
  ss_session_id snap = session_id a /\ ss_generation_id snap = generation_id a /\ ss_last_sequence snap = next_sequence a - 1.
Proof.
  unfold snapshot. destruct (checked_sub _ _) as [n|] eqn:E; [|done].
  apply checked_sub_Some in E as [_ ->].
  destruct (_ && _); [destruct (checked_add U64_MAX _ _); [|done]|]; by intros [= <- <-].
Qed.

(** Whatever batch the actor answers, the client accepts. *)
Lemma actor_batch_is_valid a after n batch :
  wf a -> history a <> [] -> actor_responds n a after = Ok batch ->
  validate_event_batch (session_id a) (generation_id a) after batch = Ok tt.
Proof.
  intros Hwf Hne Hr. pose proof Hwf as (_ & [Hl _] & _). pose proof (next_sequence_safe a Hl) as Hsafe.
  pose proof (log_next _ _ _ _ _ _ _ _ _ _ Hl) as Hn. unfold actor_responds in Hr.
  destruct (N.lt_ge_cases after (next_sequence a)) as [Hlt|Hge].
  2: { revert Hr. unfold event_batch, mbind, gets, id, mret. by rewrite (proj2 (N.leb_le _ _) Hge). }
  destruct (N.le_gt_cases (oldest_available a) (after + 1)) as [Hold|Hgap].
  - destruct (event_batch_retained a after n Hl Hne Hold Hlt) as (k & Hk & _ & Hshort & _).
    rewrite Hk in Hr. simplify_eq. unfold validate_event_batch. cbn [bt_replay_gap bt_events bt_next_sequence result_bind].
    rewrite length_drop in Hshort. rewrite <-(N2Nat.id after) at 2. rewrite validate_page by (done || lia).
    cbn [result_bind]. rewrite next_event_sequence_ok by lia. cbn [result_bind].
    rewrite (proj2 (N.eqb_eq _ _)) by lia. done.
  - destruct (event_batch_gap a after n Hwf Hgap) as (snap & r & Hsnap & Hb & [->|[e ->]]); rewrite Hb in Hr; [|done].
    simplify_eq. apply snapshot_fields in Hsnap as (Hs & Hg & Hls).
    destruct (ring_geometry a Hl) as (d & _ & Hlen & Ho).
    unfold validate_event_batch, validate_gap. cbn [bt_replay_gap bt_events bt_next_sequence rg_snapshot rg_requested_after rg_next_sequence rg_oldest_available].
    rewrite Hs, Hg, Hls, !N.eqb_refl. cbn [negb]. rewrite next_event_sequence_ok by lia. cbn [result_bind].
    rewrite next_event_sequence_ok by lia. cbn [result_bind]. rewrite bool_decide_eq_true_2 by done.
    rewrite (proj2 (N.eqb_eq (next_sequence a) (next_sequence a - 1 + 1))) by lia.
    rewrite (proj2 (N.leb_gt _ _)) by lia. rewrite (proj2 (N.ltb_ge _ _)) by lia. cbn [negb orb result_bind try_fold].
    rewrite next_event_sequence_ok by lia. cbn [result_bind].
    by rewrite (proj2 (N.eqb_eq (next_sequence a) (next_sequence a - 1 + 1))) by lia.
Qed.

(** A stream of this session whose pending items are the next of its history. *)
Definition stream_on (a : SessionActor) (st : SequencedEventStream) : Prop :=
  st_session_id st = session_id a /\ st_generation_id st = generation_id a /\
  oldest_available a <= st_after_sequence st + 1 /\
  exists k, st_pending st = (fun e => (StreamEvent e, ev_sequence e)) <$> take k (drop (N.to_nat (st_after_sequence st)) (history a)).

Lemma pop_pending a after k e :
  log_ok a -> history a !! after = Some e ->
  take (S k) (drop after (history a)) = e :: take k (drop (S after) (history a)) /\ ev_sequence e = N.of_nat (S after).
Proof.
  intros Hl He. rewrite (drop_S _ _ _ He). split; [done|].
  rewrite (log_sequence _ _ _ _ _ _ _ _ _ _ Hl _ _ He). lia.
Qed.

(** One poll delivers the next event. *)
Lemma poll_next_event a n st e :
  wf a -> history a <> [] -> stream_on a st -> history a !! N.to_nat (st_after_sequence st) = Some e ->
  exists st', poll_next (actor_responds n a) st = (PollReady (Ok (StreamEvent e)), st') /\ stream_on a st' /\
    st_after_sequence st' = st_after_sequence st + 1.
Proof.
  intros Hwf Hne (Hs & Hg & Hold & k & Hpend) He. pose proof Hwf as (_ & [Hl _] & _).
  pose proof (log_next _ _ _ _ _ _ _ _ _ _ Hl) as Hn. pose proof (lookup_lt_Some _ _ _ He) as Hlt.
  assert (Hdone : forall j, exists st', mkStream (session_id a) (generation_id a) (ev_sequence e)
      ((fun e => (StreamEvent e, ev_sequence e)) <$> take j (drop (S (N.to_nat (st_after_sequence st))) (history a))) = st' /\
      stream_on a st' /\ st_after_sequence st' = st_after_sequence st + 1).
  { intros j. destruct (pop_pending a _ j e Hl He) as [_ Hseq]. eexists. split; [done|]. unfold stream_on. cbn.
    split; [|lia]. split; [done|]. split; [done|]. split; [lia|]. exists j. do 3 f_equal. lia. }
  unfold poll_next. destruct k as [|k].
  - cbn in Hpend. rewrite Hpend.
    destruct (event_batch_retained a (st_after_sequence st) n Hl Hne Hold ltac:(lia)) as (j & Hj & _ & Hshort & Hj1).
    assert (Hresp : actor_responds n a (st_after_sequence st) = Ok (mkEventBatch
      (take j (drop (N.to_nat (st_after_sequence st)) (history a))) (st_after_sequence st + N.of_nat j + 1) None))
      by (unfold actor_responds; by rewrite Hj).
    pose proof (actor_batch_is_valid a _ n _ Hwf Hne Hresp) as Hvalid.
    rewrite Hresp, Hs, Hg. unfold subscribe_events. rewrite Hvalid. cbn [result_bind].
    unfold ingest. rewrite Hs, Hg, Hvalid, Hpend. cbn [result_bind bt_replay_gap bt_events app st_pending].
    rewrite length_drop in Hshort. destruct j as [|j]; [exfalso; lia|].
    destruct (pop_pending a _ j e Hl He) as [-> _]. cbn. destruct (Hdone j) as (st' & Hst' & Hon & Hafter).
    exists st'. rewrite <-Hst'. split; [done|]. by rewrite Hst'.
  - destruct (pop_pending a _ k e Hl He) as [Htake _]. rewrite Htake in Hpend. rewrite Hpend, Hs, Hg. cbn.
    destruct (Hdone k) as (st' & Hst' & Hon & Hafter). exists st'. rewrite <-Hst'. split; [done|]. by rewrite Hst'.
Qed.

Lemma poll_times_events a n m st :
  wf a -> history a <> [] -> stream_on a st -> (N.to_nat (st_after_sequence st) + m <= length (history a))%nat ->
  exists st', poll_times (actor_responds n a) m st
    = ((fun e => Ok (StreamEvent e)) <$> take m (drop (N.to_nat (st_after_sequence st)) (history a)), st') /\
    stream_on a st' /\ st_after_sequence st' = st_after_sequence st + N.of_nat m.
Proof.
  intros Hwf Hne. revert st. induction m as [|m IH]; intros st Hon Hle; cbn [poll_times].
  { exists st. split; [done|]. split; [done|lia]. }
  destruct (lookup_lt_is_Some_2 (history a) (N.to_nat (st_after_sequence st)) ltac:(lia)) as [e He].
  destruct (poll_next_event a n st e Hwf Hne Hon He) as (st1 & -> & Hon1 & Hafter).
  destruct (IH st1 Hon1 ltac:(lia)) as (st2 & -> & Hon2 & Hafter2). exists st2.
  destruct (pop_pending a _ m e (proj1 (proj1 (proj2 Hwf))) He) as [-> _]. rewrite Hafter.
  split; [|split; [done|lia]]. cbn. do 5 f_equal. lia.
Qed.

End Composition.
