(* ===== verification/ActorClose.v ===== *)
(** * A session is closed only when its process is gone, and no cancel is left unanswered

    Two properties kept by every handler on its own: the state is [Closed] only after the
    process was reaped; and every cancel request was answered once or waits in the active
    turn. *)

From S2P Require Import Prelude Text Protocol Composer Session Screen Backend Actor ActorOps ActorProofs ActorTurns ActorSteps.

(** Every run of the handler that returns keeps the property. *)
Definition keeps (I : SessionActor -> Prop) {A} (m : M A) : Prop := forall a x b, m a = Some (x, b) -> I a -> I b.

Lemma keeps_ret I {A} (x : A) : keeps I (mret x).
Proof. by intros a y b [= _ <-]. Qed.
Lemma keeps_panic I {A} : keeps I (mpanic (A := A)).
Proof. done. Qed.
Lemma keeps_gets I {A} (f : SessionActor -> A) : keeps I (gets f).
Proof. by intros a y b [= _ <-]. Qed.
Lemma keeps_modify (I : SessionActor -> Prop) f : (forall a, I a -> I (f a)) -> keeps I (modify f).
Proof. intros Hf a y b [= _ <-]. apply Hf. Qed.
Lemma keeps_bind I {A B} (m : M A) (k : A -> M B) : keeps I m -> (forall x, keeps I (k x)) -> keeps I (mbind m k).
Proof.
  intros Hm Hk a y b. unfold mbind. destruct (m a) as [[x a']|] eqn:E; [|done]. intros Hrun Ha.
  eapply Hk; [exact Hrun|]. by eapply Hm.
Qed.
Lemma keeps_try I {A B} (m : M (result A ErrorBody)) (k : A -> M (result B ErrorBody)) :
  keeps I m -> (forall x, keeps I (k x)) -> keeps I (mtry m k).
Proof. intros Hm Hk. apply keeps_bind; [done|]. intros [x|e]; [apply Hk|apply keeps_ret]. Qed.
Lemma keeps_ignore I {A} (m : M A) : keeps I m -> keeps I (ignore m).
Proof. intros Hm. apply keeps_bind; [done|]. intros. apply keeps_ret. Qed.

Definition closed_reaped (a : SessionActor) : Prop := state a = S.Closed -> process_reaped a = true.

Create HintDb keeps.
#[export] Hint Resolve keeps_ret keeps_panic keeps_gets : keeps.

(** Follow the structure of a handler down to what is already known to keep the property. *)
Ltac keeps_step :=
  lazymatch goal with
  | |- keeps _ (mbind _ _) => apply keeps_bind; [|intros ?]
  | |- keeps _ (mtry _ _) => apply keeps_try; [|intros ?]
  | |- keeps _ (ignore _) => apply keeps_ignore
  | |- keeps _ (modify _) => apply keeps_modify; intros ?; unfold closed_reaped; cbn; solve [done | intros ? ?; exfalso; congruence | intros Hk ?; by rewrite Hk]
  | |- keeps _ (if ?b then _ else _) => destruct b
  | |- keeps _ (match ?x with _ => _ end) => destruct x
  | |- keeps _ (let _ := _ in _) => cbv zeta
  | |- keeps _ _ => solve [eauto 2 with keeps]
  end.
Ltac keeps_steps := repeat keeps_step.

Section Closed.
Context `{Host}.

Lemma keeps_now : keeps closed_reaped now_ms.
Proof. by intros a x b [= _ <-]. Qed.
Lemma keeps_instant : keeps closed_reaped instant_now.
Proof. by intros a x b [= _ <-]. Qed.
Hint Resolve keeps_now keeps_instant : keeps.

Lemma keeps_checked_now res : keeps closed_reaped (checked_now_ms res).
Proof. unfold checked_now_ms. keeps_steps. Qed.
Hint Resolve keeps_checked_now : keeps.

Lemma keeps_expired d : keeps closed_reaped (expired d).
Proof. unfold expired. keeps_steps. Qed.
Lemma keeps_ensure n : keeps closed_reaped (ensure_sequence_slots n).
Proof. unfold ensure_sequence_slots. keeps_steps. Qed.
Lemma keeps_act x : keeps closed_reaped (act x).
Proof. unfold act. keeps_steps. Qed.
Hint Resolve keeps_expired keeps_ensure keeps_act : keeps.

Lemma push_event_face t e n s s' a :
  state (push_event t e n s s' a) = state a /\ process_reaped (push_event t e n s s' a) = process_reaped a.
Proof. unfold push_event. by destruct (trim_replay _ _ _ _). Qed.

(** What is told from the state and the process alone survives publishing. *)
Lemma emit_keeps (I : SessionActor -> Prop) t p :
  (forall a b, state b = state a -> process_reaped b = process_reaped a -> I a -> I b) -> keeps I (emit t p).
Proof.
  intros HI. assert (Hnow : forall res, keeps I (checked_now_ms res)).
  { intros res. apply keeps_bind; [intros a x b [= _ <-]; by apply HI|]. intros now.
    apply keeps_bind; [apply keeps_gets|]. intros. apply keeps_ret. }
  unfold emit. apply keeps_try; [apply Hnow|]. intros ts. apply keeps_bind; [apply keeps_gets|]. intros a.
  destruct (_ <? _); [apply keeps_ret|]. repeat (apply keeps_try; [apply keeps_ret|intros ?]).
  destruct (_ =? _); [apply keeps_ret|]. apply keeps_try; [apply keeps_ret|]. intros ?.
  apply keeps_bind; [|intros; apply keeps_ret]. apply keeps_modify. intros b. apply HI; apply push_event_face.
Qed.

Lemma keeps_emit t p : keeps closed_reaped (emit t p).
Proof. apply emit_keeps. unfold closed_reaped. by intros a b -> ->. Qed.
Hint Resolve keeps_emit : keeps.

Lemma emit_fields t p a r b :
  emit t p a = Some (r, b) -> state b = state a /\ process_reaped b = process_reaped a.
Proof.
  intros Hrun. eapply (emit_keeps (fun b => state b = state a /\ process_reaped b = process_reaped a)); [|exact Hrun|done].
  by intros c d -> ->.
Qed.

Lemma transition_fields current reason t a r b :
  transition current reason t a = Some (r, b) ->
  state b = (match r with Ok _ => current | Err _ => state a end) /\ process_reaped b = process_reaped a.
Proof.
  unfold transition, mbind at 1, gets, mret. case_bool_decide; [by intros [= <- <-]|].
  destruct (negb _); [by intros [= <- <-]|]. unfold mtry, mbind at 1.
  destruct (emit _ _ a) as [[r' d]|] eqn:Ee; [|done]. apply emit_fields in Ee as [Hs Hp].
  destruct r'; [|by intros [= <- <-]]. unfold mbind, modify, mret. destruct (_ && _); intros [= <- <-]; by cbn.
Qed.

(** A transition to anything else than [Closed]. *)
Lemma keeps_transition current reason t : current <> S.Closed -> keeps closed_reaped (transition current reason t).
Proof.
  intros Hne. unfold transition. apply keeps_bind; [apply keeps_gets|]. intros previous.
  destruct (bool_decide _); [apply keeps_ret|]. destruct (negb _); [apply keeps_ret|].
  apply keeps_try; [apply keeps_emit|]. intros _. keeps_steps.
Qed.

(** From anything else than [Closing] no transition reaches [Closed]. *)
Lemma transition_not_closed current reason t a r b :
  state a <> S.Closing -> transition current reason t a = Some (r, b) -> closed_reaped a -> closed_reaped b.
Proof.
  intros Hst. destruct (decide (current = S.Closed)) as [->|Hne]; [|by apply keeps_transition].
  unfold transition, mbind at 1, gets. case_bool_decide; [by intros [= _ <-]|].
  replace (is_valid_session_transition (state a) S.Closed) with false by (by destruct (state a)).
  by intros [= _ <-].
Qed.

Hint Extern 1 (keeps closed_reaped (transition _ _ _)) => (by apply keeps_transition) : keeps.

Lemma keeps_needs_input info resume t : keeps closed_reaped (set_needs_input_to info resume t).
Proof. unfold set_needs_input_to. keeps_steps. Qed.

Lemma keeps_resolve fallback t : keeps closed_reaped (resolve_needs_input fallback t).
Proof.
  intros a x b. unfold resolve_needs_input, mbind at 1, gets.
  destruct (bool_decide _ && bool_decide (state a = S.NeedsInput)) eqn:E; cbn [negb]; [|by intros [= _ <-]].
  apply andb_true_iff in E as [_ E%bool_decide_eq_true]. unfold mbind at 1, ignore, mbind.
  destruct (transition _ _ _ a) as [[r c]|] eqn:Et; [|done]. intros [= _ <-].
  eapply transition_not_closed; [|exact Et]. congruence.
Qed.
Hint Resolve keeps_needs_input keeps_resolve : keeps.

Lemma keeps_try_store tid term n : keeps closed_reaped (try_store_terminal_with_bytes tid term n).
Proof. unfold try_store_terminal_with_bytes. keeps_steps. Qed.
Hint Resolve keeps_try_store : keeps.
Lemma keeps_store_failure tid e : keeps closed_reaped (store_bounded_failure tid e).
Proof. unfold store_bounded_failure, try_store_terminal. keeps_steps. Qed.
Hint Resolve keeps_store_failure : keeps.
Lemma keeps_release_failed : keeps closed_reaped release_attach_after_failed_turn.
Proof. unfold release_attach_after_failed_turn. keeps_steps. Qed.
Lemma keeps_release_proven : keeps closed_reaped release_attach_after_proven_turn.
Proof. unfold release_attach_after_proven_turn. keeps_steps. Qed.
Hint Resolve keeps_release_failed keeps_release_proven : keeps.
Lemma keeps_poison tid e : keeps closed_reaped (poison_after_unpublishable_terminal tid e).
Proof. unfold poison_after_unpublishable_terminal, replace_terminal_with_failure. keeps_steps. Qed.
Lemma keeps_answers ws f : keeps closed_reaped (answer_waiters ws f).
Proof. induction ws as [|w ws IH]; cbn [answer_waiters]; keeps_steps. Qed.
Hint Resolve keeps_poison keeps_answers : keeps.

(** A value read from the actor, with what is known of every such value. *)
Lemma keeps_read I {A B} (P : A -> Prop) (f : SessionActor -> A) (k : A -> M B) :
  (forall a, P (f a)) -> (forall x, P x -> keeps I (k x)) -> keeps I (mbind (gets f) k).
Proof. intros Hf Hk a y b. unfold mbind, gets. apply Hk, Hf. Qed.

Lemma keeps_take_active : keeps closed_reaped take_active.
Proof. unfold take_active. keeps_steps. Qed.
Hint Resolve keeps_take_active : keeps.

Lemma keeps_fail_active tid e reaped : keeps closed_reaped (fail_active tid e reaped).
Proof.
  unfold fail_active. do 4 (apply keeps_bind; [solve [keeps_steps]|intros ?]).
  apply (keeps_read _ (fun s => s <> S.Closed)); [intros a; by destruct (bool_decide _)|]. intros target Ht.
  apply keeps_bind; [by apply keeps_transition|]. intros moved. keeps_steps.
Qed.
Hint Resolve keeps_fail_active : keeps.

Lemma keeps_finish_error tid at_ms e : keeps closed_reaped (finish_completed_with_error tid at_ms e).
Proof. unfold finish_completed_with_error. keeps_steps. Qed.
Hint Resolve keeps_finish_error : keeps.

Lemma keeps_complete tid res d : keeps closed_reaped (complete_active tid res d).
Proof. unfold complete_active. keeps_steps. Qed.
Lemma keeps_timeout tid : keeps closed_reaped (timeout_completed_at_commit tid).
Proof. unfold timeout_completed_at_commit. keeps_steps. Qed.
Hint Resolve keeps_complete keeps_timeout : keeps.

Lemma keeps_finish_cancel tid o recovered at_ms reaped : keeps closed_reaped (finish_cancel tid o recovered at_ms reaped).
Proof.
  unfold finish_cancel, try_store_terminal. destruct (checked_actor_timestamp _ _); [|apply keeps_fail_active].
  do 2 (apply keeps_bind; [solve [keeps_steps]|intros ?]).
  apply (keeps_read _ (fun s => s <> S.Closed)); [intros b; by destruct (recovered && _)|]. intros target Ht.
  apply keeps_bind; [by apply keeps_transition|]. intros moved. keeps_steps.
Qed.
Hint Resolve keeps_finish_cancel : keeps.

Lemma keeps_submit turn : keeps closed_reaped (submit turn).
Proof. unfold submit, resubmit, accept_turn. keeps_steps. Qed.
Lemma keeps_cancel tid reply : keeps closed_reaped (cancel tid reply).
Proof. unfold cancel. keeps_steps. Qed.
Lemma keeps_attach attach_id completion :
  keeps closed_reaped (reserve_writable_attach attach_id) /\ keeps closed_reaped (release_writable_attach attach_id completion).
Proof. unfold reserve_writable_attach, release_writable_attach. split; keeps_steps. Qed.
Lemma keeps_reconciled attach_id outcome : keeps closed_reaped (finish_attach_reconciliation attach_id outcome).
Proof. unfold finish_attach_reconciliation. keeps_steps. Qed.
Lemma keeps_minify : keeps closed_reaped select_minified_cell.
Proof. unfold select_minified_cell. keeps_steps. Qed.
Lemma keeps_clear expected deadline rebind arm : keeps closed_reaped (clear_and_rebind expected deadline rebind arm).
Proof. unfold clear_and_rebind, poison_after_failed_rebind. keeps_steps. Qed.
Lemma keeps_poll screen : keeps closed_reaped (poll_startup_screen screen).
Proof. unfold poll_startup_screen. keeps_steps. Qed.
Lemma keeps_snapshot : keeps closed_reaped snapshot.
Proof.
  intros a x b. unfold snapshot. destruct (checked_sub _ _); [|done].
  destruct (_ && _); [destruct (checked_add U64_MAX _ _); [|done]|]; by intros [= _ <-].
Qed.
Hint Resolve keeps_submit keeps_cancel keeps_reconciled keeps_minify keeps_clear keeps_poll keeps_snapshot : keeps.
Lemma keeps_events after n : keeps closed_reaped (event_batch after n).
Proof. unfold event_batch, ensure_event_batch_fits. keeps_steps. Qed.
Hint Resolve keeps_events : keeps.

(** The one handler that closes: it asks for the process first. *)
Definition close_tail (policy : ClosePolicy) (answer : result bool DriverFailure) : M (result CloseSessionResult ErrorBody) :=
  let closed already reaped := gets (fun a => Ok (mkCloseResult (session_id a) (generation_id a) already reaped)) in
  let* reaped := gets process_reaped in
  if reaped then
    let*? _ := transition S.Closed None None in closed false true
  else
    act (CloseTerminal policy) ;*
    match answer with
    | Ok reaped =>
        modify (set_process_reaped reaped) ;*
        let*? _ := (if reaped then transition S.Closed None None else mret (Ok tt)) in
        closed false reaped
    | Err failure =>
        let protocol := into_protocol failure in
        ignore (transition S.Failed (Some (eb_message protocol)) None) ;*
        mret (Err protocol)
    end.

Lemma close_transition A (k : unit -> M (result A ErrorBody)) a x b :
  process_reaped a = true -> (forall u, keeps closed_reaped (k u)) ->
  mtry (transition S.Closed None None) k a = Some (x, b) -> closed_reaped b.
Proof.
  intros Hr Hk. unfold mtry, mbind. destruct (transition _ _ _ a) as [[r c]|] eqn:E; [|done].
  apply transition_fields in E as [_ Hp]. destruct r as [u|e].
  - intros Hrun. eapply Hk; [exact Hrun|]. intros _. congruence.
  - intros [= _ <-] _. congruence.
Qed.

Lemma close_tail_reaped policy answer a x b :
  state a = S.Closing -> close_tail policy answer a = Some (x, b) -> closed_reaped b.
Proof.
  intros Hst. unfold close_tail, mbind at 1, gets at 1. destruct (process_reaped a) eqn:Hr.
  { apply close_transition; [done|]. intros. apply keeps_gets. }
  unfold mbind at 1, act, modify at 1. destruct answer as [[|]|f].
  - unfold mbind at 1, modify. apply close_transition; [done|]. intros. apply keeps_gets.
  - intros [= _ <-]. unfold closed_reaped. cbn. congruence.
  - intros Hrun. eapply keeps_bind; [| |exact Hrun|].
    + apply keeps_ignore. by apply keeps_transition.
    + intros. apply keeps_ret.
    + unfold closed_reaped. cbn. congruence.
Qed.

Lemma keeps_close policy answer : keeps closed_reaped (close policy answer).
Proof.
  unfold close. apply keeps_bind; [apply keeps_gets|]. intros a0. destruct (bool_decide _); [apply keeps_gets|].
  do 3 (apply keeps_bind; [solve [keeps_steps]|intros ?]).
  intros a y b. unfold mtry, mbind at 1. destruct (transition S.Closing None None a) as [[r c]|] eqn:E; [|done].
  destruct r as [u|e].
  - apply transition_fields in E as [Hst _]. intros Hrun _. by apply (close_tail_reaped policy answer c y b).
  - intros [= _ <-]. by apply (keeps_transition S.Closing None None ltac:(done) _ _ _ E).
Qed.

Lemma keeps_step_input i : input_ok i -> keeps closed_reaped (step i).
Proof.
  intros Hi. destruct i as [command|update|screen]; cbn [step].
  - apply keeps_bind; [|intros; apply keeps_ret].
    destruct command; cbn [handle_command]; unfold reply_with; (apply keeps_bind; [|intros; apply keeps_ret]);
      first [apply keeps_close|apply keeps_attach; exact Unused|apply keeps_attach|solve [keeps_steps]|idtac].
    unfold expire_idle. apply keeps_bind; [apply keeps_gets|]. intros a. apply keeps_try; [apply keeps_ret|]. intros d.
    destruct (_ || _); [apply keeps_ret|]. apply keeps_try; [apply keeps_close|]. intros. apply keeps_ret.
  - apply keeps_bind; [|intros; apply keeps_ret].
    assert (Happly : forall tid, update_turn_id update = Some tid -> keeps closed_reaped (apply_update tid update)).
    { intros tid _. destruct update as [? s|? p|? [info|] s|? res d|? e reaped|? o rec at_ms reaped|? ?];
        cbn [apply_update]; try solve [keeps_steps].
      apply keeps_bind; [apply keeps_gets|]. intros a. destruct (bool_decide _); [apply keeps_ret|].
      destruct (_ && _); [solve [keeps_steps]|]. apply keeps_ignore, keeps_transition. by destruct s. }
    destruct update; cbn [handle_worker update_turn_id]; try apply keeps_reconciled;
      (apply keeps_bind; [apply keeps_gets|]); intros a; (destruct (negb _); [apply keeps_ret|]);
      (destruct (_ && _); [apply keeps_ret|]); (apply keeps_bind; [apply keeps_ensure|]);
      intros [u|e]; first [by apply Happly|apply keeps_fail_active].
  - apply keeps_bind; [apply keeps_gets|]. intros a. apply keeps_bind; [|intros; apply keeps_ret].
    destruct (polls_screen a); [apply keeps_poll|apply keeps_ret].
Qed.

Lemma keeps_run inputs : Forall input_ok inputs -> keeps closed_reaped (run inputs).
Proof.
  induction 1 as [|i inputs Hi _ IH]; cbn [run]; [apply keeps_ret|].
  apply keeps_bind; [by apply keeps_step_input|]. intros r. apply keeps_bind; [apply keeps_gets|]. intros a.
  destruct (bool_decide _); keeps_steps.
Qed.

Lemma spawn_open init c handle a : spawn init c = Some (Ok (handle, a)) -> closed_reaped a.
Proof.
  unfold spawn. destruct (let? _ := _ in _) as [now|e]; [|done].
  set (boot := mtry _ _). assert (Hb : keeps closed_reaped boot) by (unfold boot; keeps_steps).
  destruct (boot _) as [[[h|e] b]|] eqn:E; [|done..]. intros [= _ <-]. by apply (Hb _ _ _ E).
Qed.

End Closed.

(** ** Every cancel request is answered once

    A request that is not answered at once waits in the active turn, and a turn with
    requests waiting is being cancelled. [answered] are the channels answered so far. *)

Definition cancel_answered (x : Act) : option N := match x with ReplyCancel w _ => Some w | _ => None end.
Definition answered (a : SessionActor) : list N := omap cancel_answered (acts a).
Definition waiting (a : SessionActor) : list N := match active a with Some t => at_cancel_waiters t | None => [] end.
Definition cancel_asked (i : Input) : option N := match i with InCommand (CCancel _ w) => Some w | _ => None end.

(** The ledger balances: [asked] have been answered or wait. *)
Definition balanced (asked : list N) (a : SessionActor) : Prop :=
  answered a ++ waiting a ≡ₚ asked /\ (waiting a <> [] -> state a = S.Cancelling).

(** Nobody waits, or the turn [t] is being cancelled; nobody else was answered. *)
Definition nobody_waits (told : list N) (a : SessionActor) : Prop := answered a = told /\ waiting a = [].
Definition cancelling (t : ActiveTurn) (told : list N) (a : SessionActor) : Prop :=
  active a = Some t /\ state a = S.Cancelling /\ answered a = told.

(** What is told from the state, the turn and the answers survives whatever leaves them. *)
Class SameFace (I : SessionActor -> Prop) : Prop :=
  same_face : forall a b, state b = state a -> active b = active a -> acts b = acts a -> I a -> I b.

#[global] Instance nobody_waits_faced told : SameFace (nobody_waits told).
Proof. intros a b _ Ea Ec. unfold nobody_waits, answered, waiting. by rewrite Ea, Ec. Qed.
#[global] Instance cancelling_faced t told : SameFace (cancelling t told).
Proof. intros a b Es Ea Ec. unfold cancelling, answered. by rewrite Es, Ea, Ec. Qed.

Create HintDb faced.
#[export] Hint Resolve keeps_ret keeps_panic keeps_gets nobody_waits_faced cancelling_faced : faced.

Ltac faced_step :=
  lazymatch goal with
  | |- keeps _ (mbind _ _) => apply keeps_bind; [|intros ?]
  | |- keeps _ (mtry _ _) => apply keeps_try; [|intros ?]
  | |- keeps _ (ignore _) => apply keeps_ignore
  | |- keeps _ (modify _) => apply keeps_modify; intros ?; solve [by apply same_face | exact id | intros [Hk _]; split; [exact Hk|reflexivity]]
  | |- keeps _ (if ?b then _ else _) => destruct b
  | |- keeps _ (match ?x with _ => _ end) => destruct x
  | |- keeps _ (let _ := _ in _) => cbv zeta
  | |- keeps _ _ => solve [eauto 2 with faced]
  end.
Ltac faced_steps := repeat faced_step.

Section Faces.
Context `{Host}.
Variable I : SessionActor -> Prop.
Context `{!SameFace I}.

Lemma faced_now : keeps I now_ms.
Proof. intros a x b [= _ <-]. by apply same_face. Qed.
Lemma faced_instant : keeps I instant_now.
Proof. intros a x b [= _ <-]. by apply same_face. Qed.
Hint Resolve faced_now faced_instant : faced.
Lemma faced_checked_now res : keeps I (checked_now_ms res).
Proof. unfold checked_now_ms. faced_steps. Qed.
Hint Resolve faced_checked_now : faced.
Lemma faced_expired d : keeps I (expired d).
Proof. unfold expired. faced_steps. Qed.
Lemma faced_ensure n : keeps I (ensure_sequence_slots n).
Proof. unfold ensure_sequence_slots. faced_steps. Qed.
Lemma faced_emit t p : keeps I (emit t p).
Proof.
  unfold emit. faced_steps. apply keeps_modify. intros b. apply same_face; unfold push_event; by destruct (trim_replay _ _ _ _).
Qed.
Hint Resolve faced_emit : faced.
Lemma faced_try_store tid term n : keeps I (try_store_terminal_with_bytes tid term n).
Proof. unfold try_store_terminal_with_bytes. faced_steps. Qed.
Hint Resolve faced_try_store : faced.
Lemma faced_store_failure tid e : keeps I (store_bounded_failure tid e).
Proof. unfold store_bounded_failure, try_store_terminal. faced_steps. Qed.
Hint Resolve faced_store_failure : faced.
Lemma faced_release_failed : keeps I release_attach_after_failed_turn.
Proof. unfold release_attach_after_failed_turn. faced_steps. Qed.
Lemma faced_snapshot : keeps I snapshot.
Proof.
  intros a x b. unfold snapshot. destruct (checked_sub _ _); [|done].
  destruct (_ && _); [destruct (checked_add U64_MAX _ _); [|done]|]; by intros [= _ <-].
Qed.
Hint Resolve faced_snapshot : faced.
Lemma faced_events after n : keeps I (event_batch after n).
Proof. unfold event_batch, ensure_event_batch_fits. faced_steps. Qed.
Lemma faced_resubmit turn record fp prompt : keeps I (resubmit turn record fp prompt).
Proof. unfold resubmit. pose proof faced_ensure. faced_steps; auto. Qed.
End Faces.
#[export] Hint Resolve faced_now faced_instant faced_checked_now faced_expired faced_ensure faced_emit faced_try_store
  faced_store_failure faced_release_failed faced_snapshot faced_events faced_resubmit : faced.

Section Nobody.
Context `{Host}.
Variable told : list N.
Abbreviation I := (nobody_waits told).

Lemma nobody_act x : cancel_answered x = None -> keeps I (act x).
Proof.
  intros Hx. apply keeps_modify. intros a [<- Hw]. split; [|done]. unfold answered. cbn. rewrite omap_app. cbn. by rewrite Hx, app_nil_r.
Qed.
Hint Extern 1 (keeps (nobody_waits _) (act _)) => (by apply nobody_act) : faced.
Lemma nobody_transition current reason t : keeps I (transition current reason t).
Proof. unfold transition. faced_steps. Qed.
Hint Resolve nobody_transition : faced.
Lemma nobody_needs_input info resume t : keeps I (set_needs_input_to info resume t).
Proof. unfold set_needs_input_to. faced_steps. Qed.
Lemma nobody_resolve fallback t : keeps I (resolve_needs_input fallback t).
Proof. unfold resolve_needs_input. faced_steps. Qed.
Hint Resolve nobody_needs_input nobody_resolve : faced.
Lemma nobody_release : keeps I release_attach_after_proven_turn.
Proof. unfold release_attach_after_proven_turn. faced_steps. Qed.
Lemma nobody_poison tid e : keeps I (poison_after_unpublishable_terminal tid e).
Proof. unfold poison_after_unpublishable_terminal, replace_terminal_with_failure. faced_steps. Qed.
Hint Resolve nobody_release nobody_poison : faced.
Lemma nobody_finish tid at_ms e : keeps I (finish_completed_with_error tid at_ms e).
Proof. unfold finish_completed_with_error. faced_steps. Qed.
Hint Resolve nobody_finish : faced.
Lemma nobody_complete tid res d : keeps I (complete_active tid res d) /\ keeps I (timeout_completed_at_commit tid).
Proof. unfold complete_active, timeout_completed_at_commit. split; faced_steps. Qed.
Lemma nobody_submit turn : keeps I (submit turn).
Proof. unfold submit, accept_turn. faced_steps. Qed.
Lemma nobody_reconciled attach_id outcome : keeps I (finish_attach_reconciliation attach_id outcome).
Proof. unfold finish_attach_reconciliation. faced_steps. Qed.
Lemma nobody_attach attach_id completion :
  keeps I (reserve_writable_attach attach_id) /\ keeps I (release_writable_attach attach_id completion).
Proof. unfold reserve_writable_attach, release_writable_attach. split; faced_steps. Qed.
Lemma nobody_minify : keeps I select_minified_cell.
Proof. unfold select_minified_cell. faced_steps. Qed.
Lemma nobody_clear expected deadline rebind arm : keeps I (clear_and_rebind expected deadline rebind arm).
Proof. unfold clear_and_rebind, poison_after_failed_rebind. faced_steps. Qed.
Lemma nobody_poll screen : keeps I (poll_startup_screen screen).
Proof. unfold poll_startup_screen. faced_steps. Qed.
End Nobody.

(** The end of a turn: whoever waited is answered, and nobody else. *)
Section Settles.
Context `{Host}.

Definition settles {A} (m : M A) : Prop :=
  forall a x b, m a = Some (x, b) -> answered b = answered a ++ waiting a /\ waiting b = [].

Lemma answer_waiters_told ws f : forall told a x b,
  answer_waiters ws f a = Some (x, b) -> nobody_waits told a -> nobody_waits (told ++ ws) b.
Proof.
  induction ws as [|w ws IH]; intros told a x b; cbn [answer_waiters].
  { intros [= _ <-]. by rewrite app_nil_r. }
  unfold mbind, gets, act, modify. intros Hrun [Ht Hw]. rewrite cons_middle, app_assoc. eapply IH; [exact Hrun|].
  split; [|done]. unfold answered. cbn. rewrite omap_app. cbn. f_equal. exact Ht.
Qed.

(** A program that ends by answering the requests [ws], whatever it does before. *)
Definition answers {A} (ws : list N) (m : M A) : Prop :=
  forall told a x b, m a = Some (x, b) -> nobody_waits told a -> nobody_waits (told ++ ws) b.

Lemma answers_waiters ws f : answers ws (answer_waiters ws f).
Proof. intros told a x b. apply answer_waiters_told. Qed.
Lemma answers_bind {A B} ws (m : M A) (k : A -> M B) :
  (forall told, keeps (nobody_waits told) m) -> (forall x, answers ws (k x)) -> answers ws (mbind m k).
Proof.
  intros Hm Hk told a y b. unfold mbind. destruct (m a) as [[x c]|] eqn:E; [|done]. intros Hrun Ha.
  eapply Hk; [exact Hrun|]. by eapply Hm.
Qed.

Lemma take_settles {A} (k : ActiveTurn -> M A) :
  (forall t, answers (at_cancel_waiters t) (k t)) -> settles (mbind take_active k).
Proof.
  intros Hk a x b. unfold take_active, mbind at 1, gets at 1. unfold mbind at 1. destruct (active a) as [t|] eqn:Ea; [|done].
  unfold mbind, modify, mret. intros Hrun. unfold waiting at 1. rewrite Ea.
  eapply (Hk t (answered a)); [exact Hrun|]. by split.
Qed.

Ltac answers_steps :=
  repeat lazymatch goal with
  | |- answers _ (answer_waiters _ _) => apply answers_waiters
  | |- answers _ (mbind _ _) => apply answers_bind; [intros ?; solve [faced_steps; eauto using nobody_transition, nobody_poison, nobody_release with faced]|intros ?]
  | |- answers _ (if ?b then _ else _) => destruct b
  | |- answers _ (match ?x with _ => _ end) => destruct x
  | |- answers _ (let _ := _ in _) => cbv zeta
  end.

Lemma fail_active_settles tid e reaped : settles (fail_active tid e reaped).
Proof.
  unfold fail_active. apply take_settles. intros t. pose proof nobody_transition. pose proof nobody_poison. answers_steps.
Qed.
Lemma finish_cancel_settles tid o recovered at_ms reaped : settles (finish_cancel tid o recovered at_ms reaped).
Proof.
  unfold finish_cancel, try_store_terminal. destruct (checked_actor_timestamp _ _); [|apply fail_active_settles].
  apply take_settles. intros t. answers_steps.
Qed.

Lemma settles_balanced {A} (m : M A) asked a x b : settles m -> m a = Some (x, b) -> balanced asked a -> balanced asked b.
Proof.
  intros Hm Hrun [Hl _]. destruct (Hm _ _ _ Hrun) as [Ha Hw]. split; [|by rewrite Hw].
  by rewrite Ha, Hw, app_nil_r.
Qed.

(** When nobody waits. *)
Lemma nobody_balanced {A} (m : M A) asked a x b :
  (forall told, keeps (nobody_waits told) m) -> m a = Some (x, b) -> waiting a = [] -> balanced asked a -> balanced asked b.
Proof.
  intros Hm Hrun Hw [Hl _]. destruct (Hm (answered a) _ _ _ Hrun) as [Ha Hb]; [done|]. split; [|by rewrite Hb].
  by rewrite Ha, Hb, <-Hw.
Qed.

End Settles.

(** A turn that is being cancelled is touched by nothing but its end, a close and another
    cancel request. *)
Section Cancelling.
Context `{Host}.
Variables (t : ActiveTurn) (told : list N).
Abbreviation I := (cancelling t told).

Lemma cancelling_read {A B} (f : SessionActor -> A) (k : A -> M B) :
  (forall a, I a -> keeps I (k (f a))) -> keeps I (mbind (gets f) k).
Proof. intros Hk a y b. unfold mbind, gets. intros Hrun Ha. by eapply Hk. Qed.

Lemma cancelling_submit turn : keeps I (submit turn).
Proof.
  unfold submit. faced_steps. unfold accept_turn, mtry. apply cancelling_read. intros a (Ha & _ & _).
  unfold admits_turn. rewrite Ha. apply keeps_ret.
Qed.
Lemma cancelling_reserve attach_id : keeps I (reserve_writable_attach attach_id).
Proof.
  unfold reserve_writable_attach. apply cancelling_read. intros a (_ & Hs & _). apply keeps_try; [apply keeps_ret|]. intros _.
  unfold id. rewrite Hs. cbn [idle_state negb]. destruct (bool_decide _); apply keeps_ret.
Qed.
Lemma cancelling_release attach_id completion : keeps I (release_writable_attach attach_id completion).
Proof.
  unfold release_writable_attach. apply cancelling_read. intros a (Ha & _ & _). unfold id. rewrite Ha.
  rewrite (bool_decide_true (is_Some (Some t))) by by eexists. faced_steps.
Qed.
Lemma cancelling_minify : keeps I select_minified_cell.
Proof.
  unfold select_minified_cell. apply cancelling_read. intros a (Ha & _ & _). apply keeps_try; [apply keeps_ret|]. intros _.
  unfold id. rewrite Ha, bool_decide_true by by eexists. apply keeps_ret.
Qed.
Lemma cancelling_clear expected deadline rebind arm : keeps I (clear_and_rebind expected deadline rebind arm).
Proof.
  unfold clear_and_rebind. apply cancelling_read. intros a (Ha & _ & _). unfold id. rewrite Ha.
  rewrite (bool_decide_true (is_Some (Some t))) by by eexists.
  destruct (match expected with Some _ => _ | None => _ end); [apply keeps_ret|]. destruct (bool_decide _); apply keeps_ret.
Qed.
Lemma cancelling_expire at_ms answer : keeps I (expire_idle at_ms answer).
Proof.
  unfold expire_idle. apply cancelling_read. intros a (_ & Hs & _). apply keeps_try; [apply keeps_ret|]. intros d.
  unfold id. rewrite Hs. apply keeps_ret.
Qed.
End Cancelling.

Section Ledger.
Context `{Host}.

Lemma waiting_cancelling asked a :
  balanced asked a -> waiting a = [] \/ exists t, cancelling t (answered a) a /\ waiting a = at_cancel_waiters t.
Proof.
  intros [_ Hc]. unfold waiting in *. destruct (active a) as [t|] eqn:Ea; [|by left].
  destruct (at_cancel_waiters t) eqn:Ew; [by left|]. right. exists t. split; [split; [done|split; [by apply Hc|done]]|done].
Qed.

(** A handler that leaves the requests alone. *)
Lemma bystander_balanced {A} (m : M A) asked a x b :
  (forall told, keeps (nobody_waits told) m) -> (forall t told, keeps (cancelling t told) m) ->
  m a = Some (x, b) -> balanced asked a -> balanced asked b.
Proof.
  intros Hn Hc Hrun Hb. destruct (waiting_cancelling _ _ Hb) as [Hw|(t & Ht & Hw)]; [by eapply nobody_balanced|].
  destruct (Hc t (answered a) _ _ _ Hrun Ht) as (Ea & Es & Et). destruct Hb as [Hl _].
  unfold balanced, waiting. rewrite Ea, Et. by rewrite Hw in Hl.
Qed.

Lemma answers_then {A B} ws (m : M A) (k : A -> M B) :
  answers ws m -> (forall x told, keeps (nobody_waits told) (k x)) -> answers ws (mbind m k).
Proof.
  intros Hm Hk told a y b. unfold mbind. destruct (m a) as [[x c]|] eqn:E; [|done]. intros Hrun Ha.
  eapply Hk; [exact Hrun|]. by eapply Hm.
Qed.

Lemma close_balanced policy answer asked a x b :
  close policy answer a = Some (x, b) -> balanced asked a -> balanced asked b.
Proof.
  unfold close. cbv zeta. unfold mbind at 1, gets at 1, id. case_bool_decide; [by intros [= _ <-]|].
  set (rest := mtry (transition S.Closing None None) _).
  assert (Hrest : forall told, keeps (nobody_waits told) rest).
  { intros told. pose proof (nobody_transition told). pose proof (nobody_act told). unfold rest. faced_steps; auto. }
  unfold mbind at 1 2 3, modify at 1 2. set (a2 := set_writable_attach_release_pending false _).
  set (ending := match active a with Some _ => _ | None => _ end).
  assert (Hend : forall y c, ending a2 = Some (y, c) -> nobody_waits (answered a ++ waiting a) c).
  { intros y c. unfold ending, waiting. destruct (active a) as [t|] eqn:Ea.
    - intros Hr. refine (answers_bind (at_cancel_waiters t) (act _) (fun _ => answer_waiters _ _) _ _ (answered a)
        (set_active None a2) y c Hr _); [intros told; by apply nobody_act|intros []; apply answers_waiters|by split].
    - intros [= _ <-]. rewrite app_nil_r. split; [done|]. unfold waiting. cbn. by rewrite Ea. }
  destruct (ending a2) as [[y c]|]; [|done]. intros Hrun [Hl _].
  destruct (Hrest _ _ _ _ Hrun (Hend y c eq_refl)) as [Ht Hw]. split; [|by rewrite Hw]. by rewrite Ht, Hw, app_nil_r.
Qed.

(** Where the recovery begins. *)
Lemma begin_cancelling tid a begun c :
  (let*? _ := ensure_sequence_slots (1 + TERMINAL_SEQUENCE_EVENTS + CLOSE_SEQUENCE_RESERVE) in
   transition S.Cancelling None (Some tid)) a = Some (begun, c) ->
  active c = active a /\ (forall u, begun = Ok u -> state c = S.Cancelling).
Proof.
  intros Hrun. split.
  - assert (Hk : keeps (fun b => active b = active a) (let*? _ := ensure_sequence_slots (1 + TERMINAL_SEQUENCE_EVENTS + CLOSE_SEQUENCE_RESERVE) in
      transition S.Cancelling None (Some tid))); [|by apply (Hk _ _ _ Hrun)].
    assert (Hf : SameFace (fun b => active b = active a)) by (by intros b d _ -> _).
    apply keeps_try; [by apply faced_ensure|]. intros _. unfold transition. pose proof (faced_emit (fun b => active b = active a)).
    faced_steps; auto.
  - intros u ->. unfold mtry, mbind in Hrun. destruct (ensure_sequence_slots _ a) as [[[v|e] d]|]; [|done..].
    fold (transition S.Cancelling None (Some tid)) in Hrun. by apply transition_fields in Hrun as [-> _].
Qed.

(** Another request: answered at once, or put behind those that wait. *)
Lemma cancel_balanced tid reply asked a x b :
  cancel tid reply a = Some (x, b) -> balanced asked a -> balanced (asked ++ [reply]) b.
Proof.
  assert (Hact : forall r c, balanced asked c -> balanced (asked ++ [reply]) (set_acts (acts c ++ [ReplyCancel reply r]) c)).
  { intros r c [Hl Hc]. split; [|exact Hc]. unfold answered, waiting. cbn. rewrite omap_app. cbn. rewrite <-Hl. solve_Permutation. }
  intros Hrun Hb. unfold cancel, mbind at 1, gets at 1, id in Hrun.
  destruct (match turns a !! tid with Some _ => _ | None => _ end); [injection Hrun as <- <-; by apply Hact|].
  destruct (active a) as [t|] eqn:Ea; [|injection Hrun as <- <-; by apply Hact].
  destruct (negb _); [injection Hrun as <- <-; by apply Hact|].
  set (begin := if bool_decide (state a <> S.Cancelling) then _ else _) in Hrun.
  unfold mbind at 1 in Hrun. destruct (begin a) as [[begun c]|] eqn:Eb; [|done].
  assert (Hbegin : balanced asked c /\ active c = active a /\ (forall u, begun = Ok u -> state c = S.Cancelling)).
  { unfold begin in Eb. case_bool_decide as Hst.
    - assert (Hw : waiting a = []).
      { destruct Hb as [_ Hb]. destruct (waiting a); [done|]. by destruct (Hst (Hb ltac:(done))). }
      split; [|by apply (begin_cancelling tid a begun)]. eapply nobody_balanced; [|exact Eb|done|done].
      intros told. apply keeps_try; [by eauto with faced|]. intros _. apply nobody_transition.
    - injection Eb as <- <-. split_and!; [done|done|]. intros _ _. by destruct (decide (state a = S.Cancelling)). }
  destruct Hbegin as (Hbc & Hac & Hsc). destruct begun as [u|e]; [|injection Hrun as <- <-; by apply Hact].
  specialize (Hsc u eq_refl). unfold mbind at 1, gets at 1 in Hrun. rewrite Hac, Ea in Hrun.
  destruct Hbc as [Hl _]. unfold waiting in Hl. rewrite Hac, Ea in Hl.
  unfold mbind, modify, act, mret in Hrun. unfold balanced, answered, waiting.
  destruct (bool_decide _); injection Hrun as <- <-; cbn; rewrite !omap_app; cbn; rewrite !app_nil_r;
    (split; [|done]); rewrite <-Hl; unfold answered; solve_Permutation.
Qed.
(** The report of a reconciliation comes between turns, which is when one is started. *)
Definition reconciled_between_turns (inputs : list Input) (a : SessionActor) : Prop :=
  forall pre attach_id outcome post rs b,
    inputs = pre ++ InWorker (UAttachReconciled attach_id outcome) :: post -> run pre a = Some (rs, b) -> active b = None.

Lemma no_reconciliation inputs a :
  Forall (fun i => match i with InWorker (UAttachReconciled _ _) => False | _ => True end) inputs ->
  reconciled_between_turns inputs a.
Proof. by intros Hf pre attach_id outcome post rs b -> _; apply Forall_app in Hf as [_ Hf]; apply Forall_cons in Hf as [[] _]. Qed.

Lemma update_balanced tid update asked a x b :
  update_turn_id update = Some tid -> (ends_turn update = true \/ waiting a = []) ->
  apply_update tid update a = Some (x, b) -> balanced asked a -> balanced asked b.
Proof.
  intros Hu Hw Hrun Hb. pose proof nobody_transition.
  assert (Hfail : forall e c y d, fail_active tid e false c = Some (y, d) -> balanced asked c -> balanced asked d).
  { intros e c y d. eapply settles_balanced, fail_active_settles. }
  assert (Hnobody : forall A (m : M (result A ErrorBody)), waiting a = [] -> (forall told, keeps (nobody_waits told) m) ->
    (let* r := m in match r with Err error => fail_active tid error false | Ok _ => mret tt end) a = Some (x, b) -> balanced asked b).
  { intros A m Hw' Hm. unfold mbind. destruct (m a) as [[[y|e] c]|] eqn:E; [| |done].
    - intros [= _ <-]. by eapply nobody_balanced.
    - intros Hf. eapply Hfail; [exact Hf|]. by eapply nobody_balanced. }
  destruct update as [? s|? p|? [info|] s|? res d|? e reaped|? o rec at_ms reaped|? ?]; cbn [apply_update ends_turn] in *;
    try (destruct Hw as [Hw|Hw]; [discriminate Hw|]); try done.
  - eapply nobody_balanced; [|exact Hrun|done|done]. intros told. faced_steps; auto.
  - eapply (Hnobody _ (emit (Some tid) p)); [done| |exact Hrun]. intros told. by eauto with faced.
  - eapply (Hnobody _ (set_needs_input_to info s (Some tid))); [done|intros told; apply nobody_needs_input|exact Hrun].
  - eapply nobody_balanced; [intros told; apply nobody_resolve|exact Hrun|done|done].
  - eapply nobody_balanced; [|exact Hrun|done|done]. intros told. pose proof (nobody_complete told tid res d) as [? ?].
    faced_steps; auto.
  - eapply settles_balanced; [apply fail_active_settles|exact Hrun|done].
  - eapply settles_balanced; [apply finish_cancel_settles|exact Hrun|done].
Qed.

Lemma worker_balanced update asked a x b :
  (forall attach_id outcome, update = UAttachReconciled attach_id outcome -> active a = None) ->
  handle_worker update a = Some (x, b) -> balanced asked a -> balanced asked b.
Proof.
  intros Hrec Hrun Hb. destruct (update_turn_id update) as [tid|] eqn:Hu.
  2: { destruct update as [| | | | | |attach_id outcome]; try done. eapply nobody_balanced; [|exact Hrun| |done].
       - intros told. apply nobody_reconciled.
       - unfold waiting. by rewrite (Hrec attach_id outcome eq_refl). }
  assert (Hcase : (let* a := gets id in
      if negb (bool_decide (at_turn_id <$> active a = Some tid)) then mret tt
      else if bool_decide (state a = S.Cancelling) && negb (ends_turn update) then mret tt
      else let* room := ensure_sequence_slots (required_sequence_slots update) in
           match room with Err error => fail_active tid error false | Ok _ => apply_update tid update end) a = Some (x, b)).
  { destruct update; simplify_eq/=; exact Hrun. }
  clear Hrun. unfold mbind at 1, gets at 1, id in Hcase. destruct (negb _); [by injection Hcase as <- <-|].
  destruct (bool_decide (state a = S.Cancelling) && negb (ends_turn update)) eqn:Ec; [by injection Hcase as <- <-|].
  unfold mbind in Hcase. destruct (ensure_sequence_slots _ a) as [[room c]|] eqn:Er; [|done].
  assert (Hbc : balanced asked c /\ (waiting c = waiting a /\ state c = state a)).
  { assert (Hk : keeps (fun d => (answered d = answered a /\ waiting d = waiting a) /\ state d = state a) (ensure_sequence_slots (required_sequence_slots update))).
    { apply faced_ensure. intros d d' Es Ea Ex. unfold answered, waiting. by rewrite Es, Ea, Ex. }
    destruct (Hk _ _ _ Er ltac:(done)) as [[E1 E2] E3]. unfold balanced. by rewrite E1, E2, E3. }
  destruct Hbc as [Hbc [Hwc Hsc]]. destruct room as [u|e].
  - eapply update_balanced; [exact Hu| |exact Hcase|done]. destruct (ends_turn update); [by left|right].
    rewrite andb_true_r in Ec. apply bool_decide_eq_false in Ec. rewrite Hwc. destruct Hb as [_ Hb].
    destruct (waiting a); [done|]. by destruct (Ec (Hb ltac:(done))).
  - eapply settles_balanced; [apply fail_active_settles|exact Hcase|done].
Qed.

Lemma command_balanced command asked a x b :
  handle_command command a = Some (x, b) -> balanced asked a -> balanced (asked ++ option_list (cancel_asked (InCommand command))) b.
Proof.
  assert (Hby : forall A (m : M A) k, (forall told, keeps (nobody_waits told) m) -> (forall t told, keeps (cancelling t told) m) ->
    reply_with k m a = Some (x, b) -> balanced asked a -> balanced (asked ++ []) b).
  { intros A m k Hn Hc Hrun Hb. rewrite app_nil_r. unfold reply_with, mbind in Hrun. destruct (m a) as [[y c]|] eqn:E; [|done].
    injection Hrun as <- <-. by eapply bystander_balanced. }
  destruct command as [turn|tid w|  |after n|tid|policy answer|attach_id|attach_id completion|at_ms answer| |expected dl rebind arm];
    cbn [handle_command cancel_asked option_list].
  - apply Hby; intros; [apply nobody_submit|apply cancelling_submit].
  - unfold mbind. destruct (cancel tid w a) as [[y c]|] eqn:E; [|done]. intros [= _ <-]. by eapply cancel_balanced.
  - apply Hby; intros; by eauto with faced.
  - apply Hby; intros; by eauto with faced.
  - apply Hby; intros; apply keeps_gets.
  - rewrite app_nil_r. unfold reply_with, mbind. destruct (close policy answer a) as [[y c]|] eqn:E; [|done].
    intros [= _ <-]. by eapply close_balanced.
  - apply Hby; intros; [by apply nobody_attach; exact Unused|apply cancelling_reserve].
  - apply Hby; intros; [by apply nobody_attach|apply cancelling_release].
  - rewrite app_nil_r. unfold reply_with, mbind. destruct (expire_idle at_ms answer a) as [[y c]|] eqn:E; [|done].
    intros [= _ <-] Hb. revert E. unfold expire_idle, mbind at 1, gets at 1, mtry, mbind, mret.
    destruct (checked_idle_deadline _ _); [|by intros [= _ <-]]. destruct (_ || _); [by intros [= _ <-]|].
    destruct (close Force answer a) as [[[r|e] d]|] eqn:E; [| |done]; intros [= _ <-]; by eapply close_balanced.
  - apply Hby; intros; [apply nobody_minify|apply cancelling_minify].
  - apply Hby; intros; [apply nobody_clear|apply cancelling_clear].
Qed.

Lemma step_balanced i asked a x b :
  (forall attach_id outcome, i = InWorker (UAttachReconciled attach_id outcome) -> active a = None) ->
  step i a = Some (x, b) -> balanced asked a -> balanced (asked ++ option_list (cancel_asked i)) b.
Proof.
  intros Hrec. destruct i as [command|update|screen]; cbn [step]; unfold mbind at 1.
  - destruct (handle_command command a) as [[y c]|] eqn:E; [|done]. intros [= _ <-]. by eapply command_balanced.
  - destruct (handle_worker update a) as [[y c]|] eqn:E; [|done]. intros [= _ <-]. cbn. rewrite app_nil_r.
    eapply worker_balanced; [|exact E]. intros attach_id outcome ->. by eapply Hrec.
  - cbn. rewrite app_nil_r. unfold gets, id. intros Hrun Hb. unfold mbind in Hrun.
    destruct (polls_screen a) eqn:Ep; [|by injection Hrun as <- <-].
    destruct (poll_startup_screen screen a) as [[y c]|] eqn:E; [|done]. injection Hrun as <- <-.
    eapply nobody_balanced; [intros told; apply nobody_poll|exact E| |done]. unfold polls_screen in Ep.
    rewrite !andb_true_iff, !bool_decide_eq_true in Ep. unfold waiting. by destruct Ep as [[-> _] _].
Qed.

Lemma run_balanced inputs : forall asked a rs b,
  reconciled_between_turns inputs a -> run inputs a = Some (rs, b) -> balanced asked a ->
  balanced (asked ++ omap cancel_asked (take (length rs) inputs)) b.
Proof.
  induction inputs as [|i inputs IH]; intros asked a rs b Hrec Hrun Hb; cbn [run] in Hrun.
  { injection Hrun as <- <-. cbn. by rewrite app_nil_r. }
  unfold mbind at 1 in Hrun. destruct (step i a) as [[r c]|] eqn:Es; [|done].
  assert (Hc : balanced (asked ++ option_list (cancel_asked i)) c).
  { eapply step_balanced; [|exact Es|done]. intros attach_id outcome ->. by apply (Hrec [] attach_id outcome inputs [] a). }
  unfold mbind at 1, gets, id in Hrun. case_bool_decide as Hcl.
  - assert (Hw : waiting c = []).
    { destruct Hc as [_ Hc]. destruct (waiting c); [done|]. specialize (Hc ltac:(done)). congruence. }
    assert (omap cancel_asked (take 1 (i :: inputs)) = option_list (cancel_asked i)) as E by (cbn; by destruct (cancel_asked i)).
    destruct (active c) as [t|] eqn:Ea; unfold mbind, modify, act, mret in Hrun; injection Hrun as <- <-; cbn [length]; rewrite E; [|done].
    destruct Hc as [Hl _]. rewrite Hw in Hl. split; [|done]. unfold answered, waiting. cbn. rewrite omap_app. cbn. by rewrite app_nil_r.
  - unfold mbind in Hrun. destruct (run inputs c) as [[rs' d]|] eqn:Er; [|done]. injection Hrun as <- <-.
    assert (Hrec' : reconciled_between_turns inputs c).
    { intros pre attach_id outcome post rs0 b0 -> Hpre. eapply (Hrec (i :: pre) attach_id outcome post (r :: rs0)); [done|].
      cbn [run]. unfold mbind at 1. rewrite Es. unfold mbind at 1, gets, id. rewrite bool_decide_false by done.
      unfold mbind. by rewrite Hpre. }
    specialize (IH _ _ _ _ Hrec' Er Hc). cbn [length take]. rewrite <-app_assoc in IH.
    replace (omap cancel_asked (i :: take (length rs') inputs))
      with (option_list (cancel_asked i) ++ omap cancel_asked (take (length rs') inputs)); [done|].
    cbn. by destruct (cancel_asked i).
Qed.

(** The reply fits the command, and only commands have one. *)
Definition replied (i : Input) (r : option Reply) : Prop :=
  match i, r with
  | InCommand (CSubmit _), Some (RSubmit _) | InCommand (CCancel _ _), Some RCancel | InCommand CSnapshot, Some (RSnapshot _)
  | InCommand (CEvents _ _), Some (REvents _) | InCommand (CStoredTurn _), Some (RStoredTurn _)
  | InCommand (CClose _ _), Some (RClose _) | InCommand (CReserveWritableAttach _), Some (RUnit _)
  | InCommand (CReleaseWritableAttach _ _), Some (RUnit _) | InCommand (CExpireIdle _ _), Some (RExpire _)
  | InCommand CSelectMinifiedCell, Some (RUnit _) | InCommand (CClearAndRebind _ _ _ _), Some (RClear _)
  | InWorker _, None | InTick _, None => True
  | _, _ => False
  end.

Lemma step_replied i a r b : step i a = Some (r, b) -> replied i r.
Proof.
  destruct i as [command|update|screen]; cbn [step]; unfold mbind at 1.
  - destruct (handle_command command a) as [[y c]|] eqn:E; [|done]. intros [= <- _].
    destruct command; cbn [handle_command] in E; unfold reply_with, mbind, mret in E; repeat case_match; by simplify_eq.
  - destruct (handle_worker update a) as [[y c]|]; [|done]. by intros [= <- _].
  - unfold gets, mbind, mret. destruct (polls_screen (id a)); [destruct (poll_startup_screen screen a) as [[y c]|]; [|by intros [=]]|]; by intros [= <- _].
Qed.

Lemma run_replied inputs : forall a rs b, run inputs a = Some (rs, b) -> Forall2 replied (take (length rs) inputs) rs.
Proof.
  induction inputs as [|i inputs IH]; intros a rs b; cbn [run]; [intros [= <- _]; constructor|].
  unfold mbind at 1. destruct (step i a) as [[r c]|] eqn:Es; [|done]. apply step_replied in Es.
  unfold mbind at 1, gets, id. case_bool_decide.
  - destruct (active c); unfold mbind, modify, act, mret; intros [= <- _]; by repeat constructor.
  - unfold mbind. destruct (run inputs c) as [[rs' d]|] eqn:Er; [|done]. intros [= <- _]. constructor; [done|by eapply IH].
Qed.

Lemma spawn_balanced init c handle a : spawn init c = Some (Ok (handle, a)) -> balanced [] a.
Proof.
  unfold spawn. destruct (let? _ := _ in _) as [now|e]; [|done]. set (boot := mtry _ _).
  assert (Hb : keeps (nobody_waits []) boot).
  { pose proof (nobody_transition []). pose proof (nobody_needs_input []). unfold boot. faced_steps; auto. }
  destruct (boot _) as [[[h|e] b]|] eqn:E; [|done..]. intros [= _ <-].
  destruct (Hb _ _ _ E) as [Ha Hw]; [done|]. unfold balanced. by rewrite Ha, Hw.
Qed.

End Ledger.
