(* ===== verification/ActorTheorems.v ===== *)
(** * What the session service promises

    Theorems about whole sessions: an actor started by [spawn] and run over any sequence
    of commands, worker reports and screen polls, with any answers of the terminal, any
    clocks and any encoder that meets [HostLaws]. *)

From S2P Require Import Prelude Text Protocol Composer Session Screen Backend Actor ActorOps ActorProofs ActorTurns ActorSteps ActorEvents EventStream ActorClose.

Section Sessions.
Context `{HostLaws}.

(** [a] is a session after these inputs. *)
Definition session (init : ActorInit) (c : SessionActorConfig) (inputs : list Input) (a : SessionActor) : Prop :=
  exists handle a0 replies, spawn init c = Some (Ok (handle, a0)) /\ run inputs a0 = Some (replies, a).

Lemma session_wf init c inputs a :
  config_ok c -> Forall input_ok inputs -> session init c inputs a -> wf a /\ config a = c /\ history a <> [].
Proof.
  intros Hc Hi (handle & a0 & replies & Hspawn & Hrun).
  destruct (spawn_wf init c Hc) as (r & Hr & Hok). rewrite Hspawn in Hr. simplify_eq. destruct Hok as (Hwf & Hcfg & _ & Hne & _).
  pose proof (awp_run _ _ _ _ _ Hrun (run_safe inputs Hi a0 Hwf)) as [Hwa [[Hfr [l Hl]] _]].
  split; [done|]. split; [rewrite <-Hcfg; exact (f_equal (fun x => x.1.1.1.2) Hfr)|].
  intros E. rewrite E in Hl. by destruct (history a0).
Qed.

Lemma run_replies inputs a rs b :
  run inputs a = Some (rs, b) -> length rs = length inputs \/ state b = S.Closed.
Proof.
  revert a rs. induction inputs as [|i inputs IH]; intros a rs; cbn [run]; [by intros [= <- <-]; left|].
  unfold mbind at 1. destruct (step i a) as [[r a1]|]; [|done]. unfold mbind at 1, gets, id.
  case_bool_decide as Hst.
  - destruct (active a1); intros [= <- <-]; by right.
  - unfold mbind. destruct (run inputs a1) as [[rs' a2]|] eqn:E; [|done]. intros [= <- <-].
    destruct (IH _ _ E) as [Hn|]; [left; simpl; congruence|by right].
Qed.

(** No handler of a session ever panics, so every session runs on: [spawn] returns, and the
    loop consumes every input it is given with a reply to each command, or ends because the
    session is closed. Its [expect]s (a reserve for the failure of each accepted turn, a
    representable idle deadline, an active turn where one was checked) never fire. *)
Theorem session_never_panics init c inputs :
  config_ok c -> Forall input_ok inputs ->
  exists r, spawn init c = Some r /\
    forall handle a0, r = Ok (handle, a0) ->
      exists replies a, run inputs a0 = Some (replies, a) /\ (length replies = length inputs \/ state a = S.Closed).
Proof.
  intros Hc Hi. destruct (spawn_wf init c Hc) as (r & Hr & Hok). exists r. split; [done|].
  intros handle a0 ->. destruct Hok as (Hwf & _).
  destruct (awp_total _ _ _ (run_safe inputs Hi a0 Hwf)) as (rs & a & Hrun & _).
  exists rs, a. split; [done|]. by eapply run_replies.
Qed.

(** C32. A session stays within its bounds whatever happens to it: the replay ring holds at most
    its two capacities and counts its bytes exactly, each retained event fits a frame alone,
    event sequences and the idle deadline stay safe JSON integers, and the turn history is
    within its capacities with its byte count exactly the cost of its records. *)
Theorem session_stays_bounded init c inputs a :
  config_ok c -> Forall input_ok inputs -> session init c inputs a ->
  N.of_nat (length (replay a)) <= replay_capacity c /\
  replay_bytes a = replay_total (replay a) /\ replay_bytes a <= replay_byte_capacity c /\
  Forall (record_fits (frame_limit a)) (replay a) /\
  next_sequence a <= MAX_SAFE_JSON_INTEGER /\ sequence a = next_sequence a - 1 /\
  updated_at_ms a + idle_ttl_ms a <= MAX_SAFE_JSON_INTEGER /\
  N.of_nat (size (turns a)) <= turn_history_capacity c /\
  turn_history_bytes a = accounted (turns a) /\ turn_history_bytes a <= turn_history_byte_capacity c.
Proof.
  intros Hc Hi Hs. destruct (session_wf _ _ _ _ Hc Hi Hs) as ((_ & [Hl _] & Hb) & <- & _).
  pose proof Hl as [H1 H2 H3 H4 H5 H6 H7 H8 H9 H10 H11 H12]. destruct Hb as [B1 B2 B3 B4 B5 B6].
  do 3 (split; [done|]). split; [exact H9|]. split; [|by auto 10].
  etrans; [exact H4|]. transitivity (MAX_EVENT_SEQUENCE + 1); [lia|by apply cursor_safe].
Qed.

(** The state the changes of a history lead to, and what stands for a change whose event was
    too large to publish. *)
Definition told_state (l : list EventEnvelope) : S.SessionState :=
  foldl (fun s e => match ev_event e with SessionStateChanged _ current _ => current | _ => s end) S.Creating l.
Definition omits_change (e : EventEnvelope) : Prop :=
  exists n limit, ev_event e = oversized_event_warning "session_state_changed" n limit.

Lemma told_state_snoc l e :
  told_state (l ++ [e]) = match ev_event e with SessionStateChanged _ current _ => current | _ => told_state l end.
Proof. unfold told_state. by rewrite foldl_app. Qed.

(** Without omitted changes the state is the told one, but for a taint that was not told. *)
Lemma path_told l s : state_path l s -> Forall (fun e => ~ omits_change e) l -> s = told_state l \/ s = S.Tainted.
Proof.
  induction 1 as [|l e p c r Hp IH Hv He|l e p c n m Hp IH Hv He|l e s Hp IH He|l s Hp IH]; intros Hf; [by left|..|by right];
    rewrite told_state_snoc; apply Forall_app in Hf as [Hf [Hn _]%Forall_cons].
  - left. by rewrite He.
  - destruct Hn. by exists n, m.
  - destruct (ev_event e); try (by apply IH). done.
Qed.

(** A change that was told starts where the ones before it led, or from a taint. *)
Lemma path_steps l s : state_path l s -> Forall (fun e => ~ omits_change e) l -> forall n e p c r,
  l !! n = Some e -> ev_event e = SessionStateChanged p c r ->
  is_valid_session_transition p c = true /\ (p = told_state (take n l) \/ p = S.Tainted).
Proof.
  induction 1 as [|l e0 p0 c0 r0 Hp IH Hv He0|l e0 p0 c0 n0 m0 Hp IH Hv He0|l e0 s Hp IH He0|l s Hp IH];
    intros Hf n e p c r Hn He; [done|..|by eapply IH]; apply Forall_app in Hf as [Hf Hf'];
    apply lookup_snoc_Some in Hn as [[Hlt Hn]|[-> ->]];
    try (rewrite take_app_le by lia; by eapply IH);
    rewrite take_app_length, He in *; try discriminate.
  simplify_eq. split; [done|]. by apply path_told in Hp.
Qed.

(** C31. The published events tell the story of a session: they are numbered from one without
    a hole, the subscriber's ring is their end, and the state the session is in is one they
    lead to along the transition table, with two exceptions that are part of the relation:
    a session can be tainted without an event (when the event of its failure could not be
    published), and a change whose event was too large to publish is stood for by a warning.
    So when no warning stands for a change, the state is the target of the last change that
    was told or [Tainted], and every change that was told is a step of the table from where
    the ones before it led or from [Tainted]. A session that shows a pending question is
    waiting for input, and a minified one has no writable attachment. *)
Theorem history_explains_the_session init c inputs a :
  config_ok c -> Forall input_ok inputs -> session init c inputs a ->
  (forall i e, history a !! i = Some e -> ev_sequence e = N.of_nat i + 1) /\
  rp_event <$> replay a `suffix_of` history a /\
  state_path (history a) (state a) /\
  (Forall (fun e => ~ omits_change e) (history a) ->
     (state a = told_state (history a) \/ state a = S.Tainted) /\
     forall n e previous current reason,
       history a !! n = Some e -> ev_event e = SessionStateChanged previous current reason ->
       is_valid_session_transition previous current = true /\
       (previous = told_state (take n (history a)) \/ previous = S.Tainted)) /\
  (is_Some (needs_input a) -> state a = S.NeedsInput) /\
  (cell a = Minified -> writable_attach a = None).
Proof.
  intros Hc Hi Hs. destruct (session_wf _ _ _ _ Hc Hi Hs) as ((_ & [Hl Hf] & _) & _ & _).
  destruct Hf as [F1 F2 F3]. split; [apply (log_sequence _ _ _ _ _ _ _ _ _ _ Hl)|].
  split; [apply (log_suffix _ _ _ _ _ _ _ _ _ _ Hl)|]. split; [done|]. split; [|done].
  intros Ho. split; [by apply path_told|by eapply path_steps].
Qed.

(** C20. Nothing a session published, stored or started is ever taken back: after any further
    inputs its events are still there in the same places, every recorded outcome of a turn
    is the same, and over its whole life at most one worker was started per turn id. *)
Theorem session_takes_nothing_back init c inputs more a replies b :
  config_ok c -> Forall input_ok inputs -> Forall input_ok more ->
  session init c inputs a -> run more a = Some (replies, b) ->
  history a `prefix_of` history b /\
  (forall tid r x, turns a !! tid = Some r -> rec_terminal r = Some x -> turns b !! tid = Some r) /\
  spawned (acts a) `prefix_of` spawned (acts b) /\ NoDup (spawned (acts b)).
Proof.
  intros Hc Hi Hm Hs Hrun. destruct (session_wf _ _ _ _ Hc Hi Hs) as (Hwf & _ & _).
  pose proof (awp_run _ _ _ _ _ Hrun (run_safe more Hm a Hwf)) as [Hwb ((_ & Hh) & Ht & Hsp)].
  split; [done|]. split; [|split; [done|apply Hwb]].
  intros tid r x Hr Hx. destruct (Ht tid r Hr) as (r' & Hr' & _ & Hsame). rewrite Hr'. f_equal. apply Hsame. by rewrite Hx.
Qed.

(** Whether this report ends the turn, in this state. *)
Definition ends_active (tid : TurnId) (st : S.SessionState) (update : WorkerUpdate) : bool :=
  match update with
  | UCompleted t _ _ => (t =? tid) && bool_decide (st <> S.Cancelling)
  | UFailed t _ _ => t =? tid
  | UCancelled t _ _ _ _ => t =? tid
  | _ => false
  end.

Lemma ended_faced tid a b d : faced a b -> ended tid b d -> ended tid a d.
Proof.
  intros Hf (x & Hw & Hact & Hst & Hsp & Hev). pose proof (faced_evolves a b Hf). destruct Hf as [Hb _]. exists x.
  rewrite (f_equal turns Hb : turns b = turns a) in Hst. rewrite (f_equal acts Hb : acts b = acts a) in Hsp.
  split; [done|]. split; [done|]. split; [done|]. split; [done|]. by etrans.
Qed.

Lemma handle_worker_ends update a t :
  wf a -> active a = Some t -> ends_active (at_turn_id t) (state a) update = true ->
  wp (handle_worker update) (fun _ b => ended (at_turn_id t) a b) a.
Proof.
  intros Hwf Ht Hend. set (a1 := set_clock_reads (S (clock_reads a)) a).
  assert (Hwf1 : wf a1) by exact Hwf. assert (Ht1 : active a1 = Some t) by exact Ht.
  destruct update as [| | |tid res d|tid e reaped|tid o rec at_ms reaped|]; try done; cbn [ends_active] in Hend.
  1: apply andb_true_iff in Hend as [Hend Hst%bool_decide_eq_true].
  all: apply N.eqb_eq in Hend as ->; cbn [handle_worker update_turn_id]; wp_steps; unfold id; rewrite Ht;
    rewrite bool_decide_eq_true_2 by done; cbn [negb ends_turn].
  1: rewrite (bool_decide_eq_false_2 _ Hst).
  2, 3: rewrite andb_false_r.
  all: cbn [andb]; wp_step; wp_use ensure_sequence_slots_wp as [u|e'] b [-> _];
    [cbn [apply_update]|apply (fail_active_wp t e' false a1 Hwf1 Ht1)].
  - wp_step. wp_use (expired_faced d a1) as late b [Hs Hf]; [apply Hwf|].
    pose proof (wf_faced _ _ Hf Hs Hwf1) as Hb. pose proof (active_faced _ _ _ Hf Ht1) as Htb.
    assert (Hup : forall c, ended (at_turn_id t) b c -> ended (at_turn_id t) a c).
    { intros c Hc. exact (ended_faced _ a1 b c Hf Hc). }
    destruct late; [wp_use timeout_completed_wp as v c Hc|wp_use complete_active_wp as v c Hc]; eauto.
  - apply (fail_active_wp t e reaped a1 Hwf1 Ht1).
  - apply (finish_cancel_wp t o rec at_ms reaped a1 Hwf1 Ht1).
Qed.

(** The last report of a turn always settles it: whatever could not be encoded, stored or
    published, the turn is no longer active, its record now has an outcome where it had
    none, and no other turn changed. *)
Theorem last_report_settles_the_turn init c inputs a t update :
  config_ok c -> Forall input_ok inputs -> session init c inputs a ->
  active a = Some t -> ends_active (at_turn_id t) (state a) update = true ->
  exists b r x, handle_worker update a = Some (tt, b) /\ active b = None /\
    turns a !! at_turn_id t = Some r /\ rec_terminal r = None /\
    turns b = <[at_turn_id t := with_terminal (Some x) r]> (turns a).
Proof.
  intros Hc Hi Hs Ht Hend. destruct (session_wf _ _ _ _ Hc Hi Hs) as (Hwf & _ & _).
  destruct (wf_active a t Hwf Ht) as (r & Hr & Hterm).
  assert (Hgo : wp (handle_worker update) (fun _ b => ended (at_turn_id t) a b) a).
  { by apply handle_worker_ends. }
  apply awp_total in Hgo as ([] & b & Hrun & x & _ & Hact & (r' & Hr' & Hturns) & _). simplify_eq.
  by exists b, r, x.
Qed.

(** ** Taking a turn *)

(** What a first submission did when it was accepted. *)
Definition started (turn : TurnRequest) (accepted : TurnAccepted) (a b : SessionActor) : Prop :=
  ta_replayed accepted = false /\ active a = None /\ writable_attach a = None /\ state a = S.Ready /\
  state b = S.Submitting /\ active b = Some (mkActive (tr_turn_id turn) []) /\
  exists at_ms, acts b = acts a ++ [SpawnWorker turn at_ms (transcript_session_id a) (cell a)].

(** What a repeated one did: nothing but to publish the outcome again, if there is one. *)
Definition repeated (record : TurnRecord) (turn : TurnRequest) (accepted : TurnAccepted) (a b : SessionActor) : Prop :=
  ta_replayed accepted = true /\ validate_prompt nfc (tr_prompt turn) = Ok (rec_normalized_prompt record) /\
  turns b = turns a /\ active b = active a /\ acts b = acts a /\ state b = state a /\
  ta_next_sequence accepted = next_sequence a /\
  match rec_terminal record with
  | None => history b = history a
  | Some (StoredResult x) => published a (Some (tr_turn_id turn)) (TurnCompleted (with_final_sequence (next_sequence a) x)) b
  | Some (StoredFailed e) => published a (Some (tr_turn_id turn)) (TurnFailed e) b
  end.

Lemma resubmit_wp turn record fp prompt a :
  shown a -> validate_prompt nfc (tr_prompt turn) = Ok prompt ->
  wp (resubmit turn record fp prompt)
    (fun r b => match r with Ok accepted => repeated record turn accepted a b | Err _ => True end) a.
Proof.
  intros Hs Hp. unfold resubmit. destruct (_ || _) eqn:E; [by wp_step|].
  apply orb_false_iff in E as [_ E%negb_false_iff%bool_decide_eq_true]. subst prompt. wp_steps. unfold repeated.
  assert (Hemit : forall p b, is_state_change p = false -> b = set_clock_reads (S (clock_reads a)) a ->
    wp (emit (Some (tr_turn_id turn)) p) (fun r c => match r with
      | Ok _ => turns c = turns a /\ active c = active a /\ acts c = acts a /\ state c = state a /\
          published a (Some (tr_turn_id turn)) p c
      | Err _ => True end) b).
  { intros p b Hpc ->. wp_use emit_shown as [m|e] c (_ & Hf & Hst & Hpub); [exact Hs|done| |done]. destruct Hf as [Hb _].
    split; [exact (f_equal turns Hb)|]. split; [exact (f_equal active Hb)|]. split; [exact (f_equal acts Hb)|].
    split; [exact Hst|exact Hpub]. }
  destruct (rec_terminal record) as [[x|e]|].
  - wp_step. wp_use ensure_sequence_slots_wp as [u|e] b [-> _]; [|done].
    wp_use Hemit as [m|e] c Hc; [done|done| |done]. wp_step. cbn. by destruct Hc as (-> & -> & -> & -> & ?).
  - wp_step. wp_use ensure_sequence_slots_wp as [u|e'] b [-> _]; [|done].
    wp_use Hemit as [m|e'] c Hc; [done|done| |done]. wp_step. cbn. by destruct Hc as (-> & -> & -> & -> & ?).
  - wp_steps. done.
Qed.

Lemma admits_turn_Ok a u : admits_turn a = Ok u -> active a = None /\ writable_attach a = None /\ state a = S.Ready.
Proof.
  unfold admits_turn. destruct (active a); [done|]. case_bool_decide as Ha; [done|]. case_bool_decide as Hst; [done|].
  intros _. split; [done|]. split; [by apply eq_None_not_Some|done].
Qed.

Lemma accept_turn_wp turn fp prompt at_ms a :
  wf a -> turns a !! tr_turn_id turn = None ->
  wp (accept_turn turn fp prompt at_ms)
    (fun r b => match r with Ok accepted => started turn accepted a b | Err _ => True end) a.
Proof.
  intros Hwf Hnew. unfold accept_turn. wp_steps. destruct (admits_turn a) as [u|e] eqn:Ea; [|done].
  apply admits_turn_Ok in Ea as (Hact & Hatt & Hst). wp_step.
  wp_use ensure_sequence_slots_wp as [u'|e] b [-> _]; [|done]. wp_steps. unfold id.
  destruct (_ <=? _); [by wp_step|]. destruct (history_is_full _ _); [by wp_step|]. wp_steps.
  set (c := set_active _ _).
  wp_use transition_wp as [v|e] d (_ & [Hb _] & Hd); [|clear Hwf|done].
  - destruct Hwf as (_ & Hs & _). exact Hs.
  - assert (Hac : active d = Some (mkActive (tr_turn_id turn) [])) by exact (f_equal active Hb).
    wp_steps. unfold id. cbn [active set_acts]. rewrite Hac. wp_step.
    destruct Hd as [Hd _]. unfold started. cbn. split; [done|]. do 3 (split; [done|]). split; [exact Hd|].
    split; [exact Hac|]. exists at_ms. by rewrite (f_equal acts Hb : acts d = acts c).
Qed.

(** A turn that is accepted runs alone and runs once. A new turn id is accepted only by a
    ready session without an active turn and without a writable attachment, and starts
    exactly one worker. A turn id that was used before is accepted only with the same
    prompt, and then starts nothing: its stored outcome is published again and the caller
    is pointed at that event. *)
Theorem accepted_turn_runs_alone_and_once init c inputs a turn accepted b :
  config_ok c -> Forall input_ok inputs -> session init c inputs a ->
  submit turn a = Some (Ok accepted, b) ->
  match turns a !! tr_turn_id turn with
  | None => started turn accepted a b
  | Some record => repeated record turn accepted a b
  end.
Proof.
  intros Hc Hi Hs Hsub. destruct (session_wf _ _ _ _ Hc Hi Hs) as (Hwf & _ & _).
  assert (Hwp : wp (submit turn) (fun r b => match r with
    | Ok accepted => match turns a !! tr_turn_id turn with
                     | None => started turn accepted a b
                     | Some record => repeated record turn accepted a b end
    | Err _ => True end) a); [|exact (awp_run _ _ _ _ _ Hsub Hwp)].
  unfold submit. destruct (negb _); [by wp_step|]. destruct (_ || _); [by wp_step|]. wp_steps.
  destruct (validate_prompt nfc (tr_prompt turn)) as [prompt|e] eqn:Ep; [|done]. wp_steps.
  destruct (turns a !! tr_turn_id turn) as [record|] eqn:Hknown; [apply resubmit_wp; [apply Hwf|done]|]. wp_step.
  wp_use checked_now_ms_wp as [t|e] d [-> _]; [|done]. wp_steps.
  destruct (checked_turn_deadline_unix_ms _ _ _); [|done]. destruct (_ <=? _); [by wp_step|].
  wp_use accept_turn_wp as [acc|e] d Hd; [exact Hwf|exact Hknown|exact Hd|done].
Qed.

(** ** Clearing the context *)

(** A ready minified cell with no turn and no writable attachment, and a caller that names
    the bound transcript if it names one. *)
Definition may_clear (expected : option SessionId) (a : SessionActor) : Prop :=
  cell a = Minified /\ active a = None /\ writable_attach a = None /\ state a = S.Ready /\
  (forall e, expected = Some e -> e = transcript_session_id a).

(** How a clear of [a] can end. *)
Inductive clear_outcome (expected : option SessionId) (deadline : TimestampMs) (rebind : result SessionId DriverFailure)
    (a : SessionActor) : result ClearSessionResult ErrorBody -> SessionActor -> Prop :=
| clear_refused e : clear_outcome expected deadline rebind a (Err e) a
| clear_unsubmitted f b :
    may_clear expected a -> rebind = Err f -> clear_was_not_submitted (eb_details (into_protocol f)) = true ->
    state b = S.Ready -> transcript_session_id b = transcript_session_id a ->
    clear_outcome expected deadline rebind a (Err (into_protocol f)) b
| clear_tainted e b : may_clear expected a -> state b = S.Tainted -> clear_outcome expected deadline rebind a (Err e) b
| clear_rebound rebound r b :
    may_clear expected a -> rebind = Ok rebound -> state b = S.Ready -> transcript_session_id b = rebound ->
    acts b = acts a ++ [TypeClear (transcript_session_id a) deadline; ArmTranscript rebound] ->
    clear_outcome expected deadline rebind a r b.

Lemma clear_and_rebind_wp expected deadline rebind arm a :
  wf a -> wp (clear_and_rebind expected deadline rebind arm) (clear_outcome expected deadline rebind a) a.
Proof.
  intros Hwf. unfold clear_and_rebind. wp_steps. unfold id.
  destruct (match expected with Some e => negb (e =? transcript_session_id a) | None => false end) eqn:Hfence;
    [wp_step; apply clear_refused|].
  case_bool_decide as Hcell; [wp_step; apply clear_refused|]. case_bool_decide as Hact; [wp_step; apply clear_refused|].
  case_bool_decide as Hst; [wp_step; apply clear_refused|].
  assert (Hpre : may_clear expected a).
  { split; [done|]. split; [by apply eq_None_not_Some|].
    split; [by apply (face_minified _ _ _ _ _ (proj2 (proj1 (proj2 Hwf))))|].
    split; [done|]. intros e ->. by apply negb_false_iff, N.eqb_eq in Hfence. }
  assert (Hpoison : forall e d, wf d -> state d = S.Ready ->
    wp (let* error := poison_after_failed_rebind e in mret (Err (A := ClearSessionResult) error))
      (clear_outcome expected deadline rebind a) d).
  { intros e d Hd Hdr. wp_step. wp_use poison_after_failed_rebind_wp as e' f (_ & _ & Hf); [done|done|].
    wp_step. by apply clear_tainted. }
  do 2 wp_step. destruct rebind as [rebound|f].
  - do 2 wp_step. destruct arm as [u|f]; [|apply Hpoison; [by apply wf_act, wf_act|done]].
    do 3 wp_step. wp_use checked_now_ms_wp as [t|e] d [-> _]; [wp_steps|]; apply (clear_rebound _ _ _ _ rebound); try done;
      cbn; by rewrite <-app_assoc.
  - destruct (clear_was_not_submitted _) eqn:Hmark; [wp_step; by apply clear_unsubmitted|].
    apply Hpoison; [by apply wf_act|done].
Qed.

(** A clear leaves a session with one transcript authority or with none it would use. When
    [/clear] is not typed nothing changed. When it is, the session was a ready minified cell
    with no turn and no writable attachment and the caller named the bound transcript; and
    then either the driver says nothing was submitted and the session is as it was, or the
    session is tainted, or it is bound to the new transcript, which was armed. *)
Theorem clear_leaves_one_authority init c inputs a expected deadline rebind arm r b :
  config_ok c -> Forall input_ok inputs -> session init c inputs a ->
  clear_and_rebind expected deadline rebind arm a = Some (r, b) -> clear_outcome expected deadline rebind a r b.
Proof.
  intros Hc Hi Hs Hclear. destruct (session_wf _ _ _ _ Hc Hi Hs) as (Hwf & _ & _).
  exact (awp_run _ _ _ _ _ Hclear (clear_and_rebind_wp expected deadline rebind arm a Hwf)).
Qed.

(** A session is closed only when its Claude process was reaped: no command, report or poll
    ever leaves a session [Closed] over a process that may still run. *)
Theorem closed_session_is_reaped init c inputs a :
  Forall input_ok inputs -> session init c inputs a -> state a = S.Closed -> process_reaped a = true.
Proof.
  intros Hi (handle & a0 & rs & Hspawn & Hrun).
  exact (keeps_run inputs Hi _ _ _ Hrun (spawn_open init c handle a0 Hspawn)).
Qed.

(** ** Reading the events *)

(** C13. The client's event stream over a session delivers every event exactly once and in order:
    from any cursor whose events are still retained, the next [m] polls are the next [m]
    published events, whatever the page size, and the cursor has moved past them. A cursor
    whose events were dropped gets the gap, with the session as it is now, and goes on after
    it (or the snapshot does not fit a frame). Whatever batch a session answers passes the
    client's validation. *)
Theorem stream_delivers_every_event `{!PageLaws} init c inputs a n st :
  config_ok c -> Forall input_ok inputs -> session init c inputs a ->
  st_session_id st = session_id a -> st_generation_id st = generation_id a -> st_pending st = [] ->
  (forall m, oldest_available a <= st_after_sequence st + 1 ->
     (N.to_nat (st_after_sequence st) + m <= length (history a))%nat ->
     exists st', poll_times (actor_responds n a) m st
       = ((fun e => Ok (StreamEvent e)) <$> take m (drop (N.to_nat (st_after_sequence st)) (history a)), st') /\
       st_after_sequence st' = st_after_sequence st + N.of_nat m) /\
  (st_after_sequence st + 1 < oldest_available a ->
     (exists gap st', poll_next (actor_responds n a) st = (PollReady (Ok (StreamGap gap)), st') /\
        st_after_sequence st' + 1 = next_sequence a) \/
     exists e, poll_next (actor_responds n a) st = (PollReady (Err (Server e)), st)) /\
  (forall after batch, actor_responds n a after = Ok batch ->
     validate_event_batch (session_id a) (generation_id a) after batch = Ok tt).
Proof.
  intros Hc Hi Hs Hsid Hgid Hpend. destruct (session_wf _ _ _ _ Hc Hi Hs) as (Hwf & _ & Hne).
  split; [|split].
  - intros m Hold Hle. destruct (poll_times_events a n m st Hwf Hne) as (st' & Hp & _ & Hafter);
      [|done|by exists st']. split; [done|]. split; [done|]. split; [done|]. by exists 0%nat.
  - intros Hgap. destruct (event_batch_gap a (st_after_sequence st) n Hwf Hgap) as (snap & r & Hsnap & Hb & Hr).
    assert (Hresp : actor_responds n a (st_after_sequence st) = r) by (unfold actor_responds; by rewrite Hb).
    unfold poll_next. rewrite Hpend, Hresp, Hsid, Hgid. destruct Hr as [->|[e ->]]; [left|right; by exists e].
    pose proof (actor_batch_is_valid a _ n _ Hwf Hne Hresp) as Hvalid.
    unfold subscribe_events. rewrite Hvalid. cbn [result_bind]. unfold ingest. rewrite Hsid, Hgid, Hvalid, Hpend. cbn.
    apply snapshot_fields in Hsnap as (_ & _ & Hls). do 2 eexists. split; [done|]. cbn.
    pose proof (log_next _ _ _ _ _ _ _ _ _ _ (proj1 (proj1 (proj2 Hwf)))). lia.
  - intros after batch Hr. by eapply actor_batch_is_valid.
Qed.

End Sessions.

(** ** A concrete session *)

Module SessionDemo.

(** An encoder with round numbers that meets both classes of laws. *)
Definition demo_bytes (w : Wire) : N :=
  match w with
  | WEvent _ => 100
  | WEvents batch =>
      N.min USIZE_MAX
        (60 + match bt_events batch with
              | [] => 0
              | l => EVENT_ARRAY_FIELD_OVERHEAD_BYTES + 100 * N.of_nat (length l) + N.of_nat (length l - 1)
              end)
  | _ => 200
  end.

#[local] Instance demo_host : Host := {|
  clock n := 1000 + N.of_nat n; instant n := N.of_nat n; serialized_bytes := demo_bytes;
  record_size := 96; show_uuid n := pretty n; nfc := id |}.

#[local] Instance demo_laws : HostLaws.
Proof.
  split.
  - assert (Hsmall : forall n, n <= 200 -> n <= USIZE_MAX) by (intros n Hn; etrans; [exact Hn|by vm_compute]).
    intros [e|b|r|e|r|e|t|p]; cbn [serialized_bytes demo_host demo_bytes];
      [|apply N.le_min_l|..]; apply Hsmall; lia.
  - intros e _. by vm_compute.
Qed.

Lemma demo_sum l : foldr (fun e n => demo_bytes (WEvent e) + n) 0 l = 100 * N.of_nat (length l).
Proof. induction l as [|e l IH]; cbn [foldr length]; [done|]. rewrite IH. cbn [demo_bytes]. lia. Qed.

#[local] Instance demo_pages : PageLaws.
Proof.
  split.
  - intros events next Hne _ _. destruct events as [|e l]; [done|].
    unfold event_batch_response_bytes, empty_event_batch_response_bytes, array_bytes. cbn [serialized_bytes demo_host].
    rewrite demo_sum. unfold event_batch_response_bytes. cbn [serialized_bytes demo_host demo_bytes bt_events].
    change (N.min USIZE_MAX (60 + 0)) with 60. apply (f_equal (N.min USIZE_MAX)). lia.
  - done.
Qed.

Definition demo_config : SessionActorConfig :=
  mkActorConfig 4 (16 * 1024 * 1024) 2 600000 1800000 128 (64 * 1024 * 1024) MAX_NATIVE_FRAME_BYTES MAX_EVENT_SEQUENCE.

Definition demo_report : CompatibilityReport := mkCompatibility "2.1.0" "linux" "x86_64" Transparent Auto true false 250.

Definition demo_init (c : SessionCell) : ActorInit :=
  mkActorInit 1 2 "/work" demo_report false true c None None None.

Definition demo_turn (tid : TurnId) : TurnRequest :=
  mkTurnRequest tid [104; 105] None (mkLeasePolicy ContinueTurn None).

Definition demo_result (tid : TurnId) : TurnResult :=
  mkTurnResult 1 2 tid OutcomeCompleted "hello" [] [] None None UsageBreakdown_default 0
    (mkTimings 1000 None None 1010 None None None None None) [] "2.1.0" demo_report
    (mkProvenance TranscriptAuthority true true true true true false) 0.

(** One turn from its submission to its result. *)
Definition demo_inputs : list Input :=
  [InCommand (CSubmit (demo_turn 7));
   InWorker (UState 7 S.AwaitingPromptAck); InWorker (UState 7 S.Running);
   InWorker (UState 7 S.TerminalCandidate); InWorker (UState 7 S.Draining)].

Definition demo_done : Input := InWorker (UCompleted 7 (demo_result 7) (mkDeadline 600000 None)).

(** The actor after these inputs. *)
Definition demo_actor (c : SessionCell) (inputs : list Input) : SessionActor :=
  match spawn (demo_init c) demo_config with
  | Some (Ok (_, a0)) => match run inputs a0 with Some (_, a) => a | None => a0 end
  | _ => fresh_actor (demo_init c) demo_config 0 0
  end.

Lemma demo_config_ok : config_ok demo_config.
Proof. split; by vm_compute. Qed.

Lemma demo_session c inputs :
  match spawn (demo_init c) demo_config with
  | Some (Ok (_, a0)) => is_Some (run inputs a0)
  | _ => False
  end -> session (demo_init c) demo_config inputs (demo_actor c inputs).
Proof.
  unfold session, demo_actor. destruct (spawn _ _) as [[[handle a0]|e]|]; [|done..].
  intros [[rs a] Hrun]. exists handle, a0, rs. by rewrite Hrun.
Qed.

(** A turn runs to its result: the result is stored and published. *)
Example demo_turn_completes :
  let a := demo_actor Full (demo_inputs ++ [demo_done]) in
  state a = S.Ready /\ active a = None /\ next_sequence a = 10 /\
  (rec_terminal <$> turns a !! 7) = Some (Some (StoredResult (with_final_sequence 9 (demo_result 7)))) /\
  length (replay a) = 4%nat /\ length (history a) = 9%nat.
Proof. vm_compute. repeat split. Qed.

Lemma demo_inputs_ok : Forall input_ok (demo_inputs ++ [demo_done]).
Proof. repeat (apply Forall_cons; split; [done|]). apply Forall_nil_2. Qed.

Lemma session_never_panics_witness :
  exists r, spawn (demo_init Full) demo_config = Some r /\
    forall handle a0, r = Ok (handle, a0) ->
      exists replies a, run (demo_inputs ++ [demo_done]) a0 = Some (replies, a) /\ (length replies = 6%nat \/ state a = S.Closed).
Proof. exact (session_never_panics (demo_init Full) demo_config (demo_inputs ++ [demo_done]) demo_config_ok demo_inputs_ok). Defined.

Lemma demo_session_done : session (demo_init Full) demo_config (demo_inputs ++ [demo_done]) (demo_actor Full (demo_inputs ++ [demo_done])).
Proof. apply demo_session. vm_compute. by eexists. Qed.

Lemma session_stays_bounded_witness :
  let a := demo_actor Full (demo_inputs ++ [demo_done]) in
  N.of_nat (length (replay a)) <= 4 /\ turn_history_bytes a = accounted (turns a) /\ turn_history_bytes a <= 64 * 1024 * 1024.
Proof.
  pose proof (session_stays_bounded (demo_init Full) demo_config (demo_inputs ++ [demo_done]) _ demo_config_ok demo_inputs_ok
    demo_session_done) as (H1 & _ & _ & _ & _ & _ & _ & _ & H9 & H10).
  exact (conj H1 (conj H9 H10)).
Defined.

Lemma history_explains_the_session_witness :
  let a := demo_actor Full (demo_inputs ++ [demo_done]) in state_path (history a) (state a) /\ state a = told_state (history a).
Proof.
  split; [|vm_compute; reflexivity].
  exact (proj1 (proj2 (proj2 (history_explains_the_session (demo_init Full) demo_config (demo_inputs ++ [demo_done]) _
    demo_config_ok demo_inputs_ok demo_session_done)))).
Defined.

(** The same turn id again: its result is published again and no worker is started. *)
Definition demo_again : list Input := [InCommand (CSubmit (demo_turn 7))].

Lemma session_takes_nothing_back_witness :
  let a := demo_actor Full (demo_inputs ++ [demo_done]) in
  exists rs b, run demo_again a = Some (rs, b) /\ history a `prefix_of` history b /\ NoDup (spawned (acts b)) /\
    turns b !! 7 = turns a !! 7.
Proof.
  destruct (run demo_again (demo_actor Full (demo_inputs ++ [demo_done]))) as [[rs b]|] eqn:E; [|vm_compute in E; discriminate E].
  pose proof (session_takes_nothing_back (demo_init Full) demo_config (demo_inputs ++ [demo_done]) demo_again _ rs b
    demo_config_ok demo_inputs_ok ltac:(by apply Forall_singleton) demo_session_done E) as (H1 & H2 & _ & H4).
  exists rs, b. split; [exact E|]. split; [exact H1|]. split; [exact H4|].
  destruct (turns (demo_actor Full (demo_inputs ++ [demo_done])) !! 7) as [r|] eqn:Er; [|vm_compute in Er; discriminate Er].
  destruct (rec_terminal r) as [x|] eqn:Ex; [exact (H2 7 r x Er Ex)|].
  exfalso. revert Ex. vm_compute in Er. injection Er as <-. discriminate.
Defined.

Lemma demo_inputs_running : Forall input_ok demo_inputs.
Proof. repeat (apply Forall_cons; split; [done|]). apply Forall_nil_2. Qed.

Lemma demo_session_running : session (demo_init Full) demo_config demo_inputs (demo_actor Full demo_inputs).
Proof. apply demo_session. vm_compute. by eexists. Qed.

(** A report of failure while the turn drains. *)
Lemma last_report_settles_the_turn_witness :
  let a := demo_actor Full demo_inputs in
  let update := UFailed 7 (ErrorBody_new ClaudeExited "exited") true in
  exists b r x, handle_worker update a = Some (tt, b) /\ active b = None /\
    turns a !! 7 = Some r /\ rec_terminal r = None /\ turns b = <[7 := with_terminal (Some x) r]> (turns a).
Proof.
  exact (last_report_settles_the_turn (demo_init Full) demo_config demo_inputs (demo_actor Full demo_inputs) (mkActive 7 [])
    (UFailed 7 (ErrorBody_new ClaudeExited "exited") true) demo_config_ok demo_inputs_running demo_session_running
    ltac:(vm_compute; reflexivity) ltac:(vm_compute; reflexivity)).
Defined.

Lemma demo_session_new c : session (demo_init c) demo_config [] (demo_actor c []).
Proof. apply demo_session. destruct c; vm_compute; by eexists. Qed.

Lemma accepted_turn_runs_alone_and_once_witness :
  exists accepted b, submit (demo_turn 7) (demo_actor Full []) = Some (Ok accepted, b) /\
    started (demo_turn 7) accepted (demo_actor Full []) b.
Proof.
  destruct (submit (demo_turn 7) (demo_actor Full [])) as [[[accepted|e] b]|] eqn:E; [|vm_compute in E; discriminate E..].
  pose proof (accepted_turn_runs_alone_and_once (demo_init Full) demo_config [] _ (demo_turn 7) accepted b
    demo_config_ok (Forall_nil_2 _) (demo_session_new Full) E) as Hacc.
  exists accepted, b. split; [reflexivity|].
  assert (Hn : turns (demo_actor Full []) !! tr_turn_id (demo_turn 7) = None) by (vm_compute; reflexivity).
  rewrite Hn in Hacc. exact Hacc.
Defined.

(** A clear of a minified cell that rotates to transcript 9. *)
Lemma clear_leaves_one_authority_witness :
  exists r b, clear_and_rebind (Some 1) 5000 (Ok 9) (Ok tt) (demo_actor Minified []) = Some (r, b) /\
    clear_outcome (Some 1) 5000 (Ok 9) (demo_actor Minified []) r b /\ transcript_session_id b = 9.
Proof.
  destruct (clear_and_rebind (Some 1) 5000 (Ok 9) (Ok tt) (demo_actor Minified [])) as [[r b]|] eqn:E; [|vm_compute in E; discriminate E].
  pose proof (clear_leaves_one_authority (demo_init Minified) demo_config [] _ (Some 1) 5000 (Ok 9) (Ok tt) r b
    demo_config_ok (Forall_nil_2 _) (demo_session_new Minified) E) as Hc.
  exists r, b. split; [reflexivity|]. split; [exact Hc|]. vm_compute in E. by injection E as _ <-.
Defined.

Definition demo_close : list Input := [InCommand (CClose Force (Ok true))].

Lemma closed_session_is_reaped_witness :
  state (demo_actor Full demo_close) = S.Closed /\ process_reaped (demo_actor Full demo_close) = true.
Proof.
  assert (Hs : session (demo_init Full) demo_config demo_close (demo_actor Full demo_close))
    by (apply demo_session; vm_compute; by eexists).
  assert (Hc : state (demo_actor Full demo_close) = S.Closed) by (vm_compute; reflexivity).
  split; [exact Hc|].
  exact (closed_session_is_reaped (demo_init Full) demo_config demo_close _ ltac:(by apply Forall_singleton) Hs Hc).
Defined.

(** The four retained events after cursor five, read two at a time. *)
Lemma stream_delivers_every_event_witness :
  let a := demo_actor Full (demo_inputs ++ [demo_done]) in
  exists st', poll_times (actor_responds 2 a) 4 (mkStream 1 2 5 [])
    = ((fun e => Ok (StreamEvent e)) <$> take 4 (drop 5 (history a)), st') /\ st_after_sequence st' = 9.
Proof.
  exact (proj1 (stream_delivers_every_event (demo_init Full) demo_config (demo_inputs ++ [demo_done]) _ 2 (mkStream 1 2 5 [])
    demo_config_ok demo_inputs_ok demo_session_done ltac:(vm_compute; reflexivity) ltac:(vm_compute; reflexivity) eq_refl)
    4%nat ltac:(vm_compute; discriminate) ltac:(vm_compute; lia)).
Defined.

(** A turn whose first event cannot be published is refused after it was reserved: the
    session stays ready, yet the turn is active, no worker runs, the caller's retry is told
    that it was accepted, and its cancellation is refused. Here one reading of the clock is
    outside the safe integers. *)
Definition jumping_host : Host := {|
  clock n := if bool_decide (n = 5)%nat then MAX_SAFE_JSON_INTEGER + 1 else 1000; instant := instant;
  serialized_bytes := demo_bytes; record_size := 96; show_uuid := show_uuid; nfc := nfc |}.

Example refused_turn_is_stranded :
  match @spawn jumping_host (demo_init Full) demo_config with
  | Some (Ok (_, a0)) =>
      match @run jumping_host [InCommand (CSubmit (demo_turn 7)); InCommand (CSubmit (demo_turn 7)); InCommand (CCancel 7 1)] a0 with
      | Some ([Some (RSubmit (Err _)); Some (RSubmit (Ok again)); Some RCancel], a) =>
          ta_replayed again = true /\ state a = S.Ready /\ (at_turn_id <$> active a) = Some 7 /\
          match acts a with [ReplyCancel 1 (Err e)] => eb_code e = Internal | _ => False end
      | _ => False
      end
  | _ => False
  end.
Proof. vm_compute. repeat split. Qed.

End SessionDemo.
