(* ===== verification/Registry.v ===== *)
(** * The session registry

    [SessionRegistry] of [crates/service/src/v1/registry.rs] and the handles it gives out
    ([SessionActorHandle] of [v1/actor.rs]): which session a request reaches, and that a
    session of the pool is reached by the pool alone. A session's actor runs apart from the
    registry: a handle names its mailbox, which a daemon ([Daemon]) keeps for ever, also
    after the session was unregistered. Every actor reads clocks of its own. *)

From S2P Require Import Prelude Text Protocol Composer Session Screen Backend Actor ActorOps.

Definition MAX_SUBSCRIBE_WAIT_MS : N := 30000.
Definition MAX_SUBSCRIBE_EVENTS : N := 512.

(** [Caller] and [Pool] in the source. *)
Inductive SessionOwner := CallerOwned | PoolOwned.

#[global] Instance SessionOwner_eq_dec : EqDecision SessionOwner.
Proof. solve_decision. Defined.

Record SessionActorHandle := mkHandle {
  h_session_id : SessionId;
  h_generation_id : SessionGenerationId;
  h_mailbox : nat;
}.

Record SessionRegistration := mkRegistration {
  rn_owner : SessionOwner;
  rn_init : ActorInit;
}.

(** The registry and the actors it ever started. *)
Record Daemon := mkDaemon {
  dm_actors : gmap SessionId (SessionOwner * SessionActorHandle);
  dm_config : SessionActorConfig;
  dm_mailboxes : list SessionActor;
}.

Definition SessionRegistry_new (config : SessionActorConfig) : Daemon := mkDaemon ∅ config [].

Record SubscribeEventsRequest := mkSubscribe {
  sb_after_sequence : N;
  sb_wait_ms : N;
  sb_max_events : N;
}.

(** The requests that name a session. [answer] is what the terminal says to a close. *)
Inductive Request :=
| RunTurn (turn : TurnRequest)
| CancelTurnRequest (turn_id : TurnId) (reply : N)
| InspectSession
| SubscribeEvents (request : SubscribeEventsRequest)
| CloseSessionRequest (policy : ClosePolicy) (answer : result bool DriverFailure)
| ReserveWritableAttach (attach_id : N)
| ReleaseWritableAttach (attach_id : N) (completion : WritableAttachCompletion)
| StoredTurn (turn_id : TurnId)
| ExpireIdle (at_ms : TimestampMs) (answer : result bool DriverFailure).

Definition command_of (r : Request) : Command :=
  match r with
  | RunTurn turn => CSubmit turn
  | CancelTurnRequest turn_id reply => CCancel turn_id reply
  | InspectSession => CSnapshot
  | SubscribeEvents request => CEvents (sb_after_sequence request) (sb_max_events request)
  | CloseSessionRequest policy answer => CClose policy answer
  | ReserveWritableAttach attach_id => CReserveWritableAttach attach_id
  | ReleaseWritableAttach attach_id completion => CReleaseWritableAttach attach_id completion
  | StoredTurn turn_id => CStoredTurn turn_id
  | ExpireIdle at_ms answer => CExpireIdle at_ms answer
  end.

Definition daemon_lost : ErrorBody :=
  mkErrorBody DaemonLost "session actor is unavailable" true JNull.

Definition validate_v1_terminal_support (terminal_profile : TerminalProfile) (input_transport : InputTransport) :
    result unit ErrorBody :=
  match terminal_profile, input_transport with
  | RmuxStandard, _ => Err (ErrorBody_new UnsupportedFeature
      "rmux-standard terminal identity is reserved and is not implemented in protocol v1")
  | _, AttachedStream => Err (ErrorBody_new UnsupportedFeature
      "attached-stream prompt injection is reserved and is not implemented in protocol v1")
  | _, _ => Ok tt
  end.

(** The encodings of [serde_json], and the text of an id. *)
Class Registrar := {
  compatibility_serializable : CompatibilityReport -> bool;
  needs_input_serializable : NeedsInputInfo -> bool;
  subscription_serializable : SubscribeEventsRequest -> bool;
  uuid_text : N -> string;
  (** The host of each actor. *)
  host_of : nat -> Host;
}.

Section Registry.
Context `{Registrar}.

Definition session_not_found (session_id : SessionId) : ErrorBody :=
  ErrorBody_new SessionNotFound ("session " +:+ uuid_text session_id +:+ " is not registered")%string.

Definition stale_generation (session_id : SessionId) (requested : SessionGenerationId) : ErrorBody :=
  with_details (jobj [("requested_generation_id", JStr (uuid_text requested))]%string)
    (ErrorBody_new StaleSessionGeneration
       ("session " +:+ uuid_text session_id +:+ " no longer refers to the requested process generation")%string).

Definition validate_event_subscription_request (request : SubscribeEventsRequest) : result unit ErrorBody :=
  if negb (subscription_serializable request)
  then Err (ErrorBody_new InvalidConfig "event subscription cannot be represented within protocol v1")
  else if (MAX_SUBSCRIBE_WAIT_MS <? sb_wait_ms request) || (MAX_SUBSCRIBE_EVENTS <? sb_max_events request)
  then Err (ErrorBody_new InvalidConfig "event subscription exceeds the public wait or batch bound")
  else Ok tt.

Definition validate_registration_domain (init : ActorInit) : result unit ErrorBody :=
  if negb (compatibility_serializable (init_compatibility init))
  then Err (ErrorBody_new InvalidConfig "session compatibility is outside the protocol-v1 wire domain")
  else
    let? _ := validate_v1_terminal_support (cr_terminal_profile (init_compatibility init))
                (cr_input_transport (init_compatibility init)) in
    if match init_idle_ttl_ms init with Some ttl => MAX_SAFE_JSON_INTEGER <? ttl | None => false end
    then Err (ErrorBody_new InvalidConfig "session idle TTL is outside the protocol-v1 safe-integer domain")
    else match init_initial_needs_input init with
         | Some needs_input =>
             if needs_input_serializable needs_input then Ok tt
             else Err (ErrorBody_new InvalidConfig "initial needs-input state is outside the protocol-v1 wire domain")
         | None => Ok tt
         end.

(** ** Registration *)

(** What the transcript says of having served no work is asked before the lock is taken. *)
Definition admit_cell (host : Host) (init : ActorInit) (empty_at_launch : result unit DriverFailure) : result unit ErrorBody :=
  match init_cell init with
  | Full => Ok tt
  | Minified =>
      let? _ := require_tested_for_minified_cell (init_compatibility init) in
      map_err into_protocol empty_at_launch
  end.

(** [None]: the actor panics. *)
Definition register (registration : SessionRegistration) (empty_at_launch : result unit DriverFailure) (d : Daemon) :
    option (result SessionHandle ErrorBody * Daemon) :=
  let init := rn_init registration in
  let i := init_session_id init in
  let mailbox := length (dm_mailboxes d) in
  match (let? _ := validate_registration_domain init in admit_cell (host_of mailbox) init empty_at_launch) with
  | Err error => Some (Err error, d)
  | Ok _ =>
      if bool_decide (is_Some (dm_actors d !! i))
      then Some (Err (ErrorBody_new IdCollision ("session " +:+ uuid_text i +:+ " is already registered")%string), d)
      else
        match @spawn (host_of mailbox) init (dm_config d) with
        | None => None
        | Some (Err error) => Some (Err error, d)
        | Some (Ok (handle, actor)) =>
            Some (Ok handle,
                  mkDaemon (<[i := (rn_owner registration, mkHandle i (init_generation_id init) mailbox)]> (dm_actors d))
                    (dm_config d) (dm_mailboxes d ++ [actor]))
        end
  end.

Definition unregister (session_id : SessionId) (generation_id : SessionGenerationId) (d : Daemon) :
    result unit ErrorBody * Daemon :=
  match dm_actors d !! session_id with
  | None => (Ok tt, d)
  | Some (_, actor) =>
      if negb (h_generation_id actor =? generation_id) then (Err (stale_generation session_id generation_id), d)
      else (Ok tt, mkDaemon (delete session_id (dm_actors d)) (dm_config d) (dm_mailboxes d))
  end.

(** ** Requests *)

Definition actor_owned (session_id : SessionId) (generation_id : SessionGenerationId) (expected : SessionOwner) (d : Daemon) :
    result SessionActorHandle ErrorBody :=
  match dm_actors d !! session_id with
  | None => Err (session_not_found session_id)
  | Some (owner, actor) =>
      if negb (bool_decide (owner = expected)) then Err (session_not_found session_id)
      else if negb (h_generation_id actor =? generation_id) then Err (stale_generation session_id generation_id)
      else Ok actor
  end.

Definition actor (session_id : SessionId) (generation_id : SessionGenerationId) := actor_owned session_id generation_id CallerOwned.
Definition pool_actor (session_id : SessionId) (generation_id : SessionGenerationId) := actor_owned session_id generation_id PoolOwned.

Definition set_mailbox (n : nat) (a : SessionActor) (d : Daemon) : Daemon :=
  mkDaemon (dm_actors d) (dm_config d) (<[n := a]> (dm_mailboxes d)).

(** One message of a mailbox. The loop of a closed session has ended, and its mailbox with
    it. [None]: the actor panics. *)
Definition deliver (n : nat) (input : Input) (d : Daemon) : option (option Reply * Daemon) :=
  match dm_mailboxes d !! n with
  | None => Some (None, d)
  | Some a =>
      if bool_decide (state a = S.Closed) then Some (None, d)
      else match @ActorOps.run (host_of n) [input] a with
           | None => None
           | Some (replies, a') => Some (mjoin (head replies), set_mailbox n a' d)
           end
  end.

(** The command of a handle and its reply; without one the actor is lost. *)
Definition send (h : SessionActorHandle) (command : Command) (d : Daemon) : option (result Reply ErrorBody * Daemon) :=
  match deliver (h_mailbox h) (InCommand command) d with
  | None => None
  | Some (Some reply, d') => Some (Ok reply, d')
  | Some (None, d') => Some (Err daemon_lost, d')
  end.

Definition call_as (owner : SessionOwner) (session_id : SessionId) (generation_id : SessionGenerationId) (r : Request)
    (d : Daemon) : option (result Reply ErrorBody * Daemon) :=
  match (let? _ := match r with SubscribeEvents request => validate_event_subscription_request request | _ => Ok tt end in
         actor_owned session_id generation_id owner d) with
  | Err error => Some (Err error, d)
  | Ok h => send h (command_of r) d
  end.

Definition call := call_as CallerOwned.
Definition close_as (owner : SessionOwner) (session_id : SessionId) (generation_id : SessionGenerationId) (policy : ClosePolicy)
    (answer : result bool DriverFailure) := call_as owner session_id generation_id (CloseSessionRequest policy answer).

(** ** Everything that happens to a daemon *)

Inductive Move :=
| MRegister (registration : SessionRegistration) (empty_at_launch : result unit DriverFailure)
| MUnregister (session_id : SessionId) (generation_id : SessionGenerationId)
| MCall (owner : SessionOwner) (session_id : SessionId) (generation_id : SessionGenerationId) (r : Request)
(** A command of a handle that was resolved before, or a worker's report, or a tick. *)
| MDeliver (mailbox : nat) (input : Input).

Definition move (m : Move) (d : Daemon) : option Daemon :=
  match m with
  | MRegister registration empty_at_launch => snd <$> register registration empty_at_launch d
  | MUnregister session_id generation_id => Some (snd (unregister session_id generation_id d))
  | MCall owner session_id generation_id r => snd <$> call_as owner session_id generation_id r d
  | MDeliver mailbox input => snd <$> deliver mailbox input d
  end.

Fixpoint moves (l : list Move) (d : Daemon) : option Daemon :=
  match l with
  | [] => Some d
  | m :: l => d' ← move m d; moves l d'
  end.

(** [SessionActorHandle::events]: an empty batch is waited on, and asked for once more when
    something was published; [meanwhile] is what happens until then, [None] a timeout. *)
Definition events (session_id : SessionId) (generation_id : SessionGenerationId) (request : SubscribeEventsRequest)
    (meanwhile : option (list Move)) (d : Daemon) : option (result Reply ErrorBody * Daemon) :=
  match (let? _ := validate_event_subscription_request request in actor session_id generation_id d) with
  | Err error => Some (Err error, d)
  | Ok h =>
      let command := CEvents (sb_after_sequence request) (sb_max_events request) in
      match send h command d with
      | Some (Ok (REvents (Ok batch)), d1) =>
          if (sb_wait_ms request =? 0) || negb (bool_decide (bt_events batch = [])) || bool_decide (is_Some (bt_replay_gap batch))
          then Some (Ok (REvents (Ok batch)), d1)
          else match meanwhile with
               | None => Some (Ok (REvents (Ok batch)), d1)
               | Some l => d2 ← moves l d1; send h command d2
               end
      | answer => answer
      end
  end.

End Registry.
