(* ===== verification/RegistryTheorems.v ===== *)
(** * Who reaches which session

    The invariant of a daemon under any moves, that requests reach the session, generation
    and owner they name, and that the sessions of one owner cannot be told from sessions
    that do not exist by the other. *)

From S2P Require Import Prelude Text Protocol Composer Session Screen Backend Actor ActorOps ActorProofs ActorTurns ActorSteps ActorTheorems Registry.

Section Registry.
Context `{Registrar}.
Context (laws : forall n, @HostLaws (host_of n)).

(** ** The invariant *)

(** An entry names a mailbox of its own, whose actor has the entry's id and generation. *)
Definition entry_ok (d : Daemon) (i : SessionId) (h : SessionActorHandle) : Prop :=
  h_session_id h = i /\ exists a, dm_mailboxes d !! h_mailbox h = Some a /\ session_id a = i /\ generation_id a = h_generation_id h.

Record daemon_ok (d : Daemon) : Prop := {
  dm_cfg : config_ok (dm_config d);
  dm_sound : forall n a, dm_mailboxes d !! n = Some a -> @wf (host_of n) a;
  dm_entries : forall i o h, dm_actors d !! i = Some (o, h) -> entry_ok d i h;
  dm_apart : forall i j o p h k, dm_actors d !! i = Some (o, h) -> dm_actors d !! j = Some (p, k) ->
    h_mailbox h = h_mailbox k -> i = j;
}.

Definition move_ok (m : Move) : Prop := match m with MDeliver _ input => input_ok input | _ => True end.

Lemma daemon_ok_new c : config_ok c -> daemon_ok (SessionRegistry_new c).
Proof. intros Hc. by split. Qed.

(** An actor after one message is the same session. *)
Lemma run_one n input a :
  input_ok input -> @wf (host_of n) a ->
  exists replies b, @ActorOps.run (host_of n) [input] a = Some (replies, b) /\ @wf (host_of n) b /\
    session_id b = session_id a /\ generation_id b = generation_id a.
Proof.
  intros Hi Hw. assert (Hin : Forall input_ok [input]) by by constructor.
  destruct (awp_total _ _ _ (run_safe [input] Hin a Hw)) as (rs & b & Hrun & Hb & (Hf & _) & _).
  exists rs, b. split; [done|]. split; [done|]. by injection Hf as <- <-.
Qed.

Lemma daemon_ok_mailbox d n a b :
  daemon_ok d -> dm_mailboxes d !! n = Some a -> @wf (host_of n) b ->
  session_id b = session_id a -> generation_id b = generation_id a -> daemon_ok (set_mailbox n b d).
Proof.
  intros [Hc Hs He Ha] Hn Hb Ei Eg. split; cbn; [done| |intros i o h Hh|done].
  - intros m x Hm. destruct (decide (m = n)) as [->|Hne].
    + rewrite list_lookup_insert_eq in Hm by (by eapply lookup_lt_Some). by injection Hm as <-.
    + rewrite list_lookup_insert_ne in Hm by done. by apply Hs.
  - destruct (He i o h Hh) as (Hi & x & Hx & Exi & Exg). split; [done|]. cbn. destruct (decide (h_mailbox h = n)) as [E|Hne].
    + rewrite E in *. rewrite Hn in Hx. injection Hx as <-. exists b. rewrite list_lookup_insert_eq by (by eapply lookup_lt_Some).
      split; [done|]. split; congruence.
    + exists x. rewrite list_lookup_insert_ne by done. done.
Qed.

(** A delivery changes its own mailbox at most. *)
Lemma deliver_ok n input d :
  daemon_ok d -> input_ok input ->
  exists reply d', deliver n input d = Some (reply, d') /\ daemon_ok d' /\ dm_actors d' = dm_actors d /\ dm_config d' = dm_config d /\
    (forall m, m <> n -> dm_mailboxes d' !! m = dm_mailboxes d !! m).
Proof.
  intros Hd Hi. unfold deliver. destruct (dm_mailboxes d !! n) as [a|] eqn:Hn; [|by exists None, d].
  case_bool_decide; [by exists None, d|]. destruct (run_one n input a Hi (dm_sound _ Hd _ _ Hn)) as (rs & b & -> & Hb & Ei & Eg).
  eexists _, _. split; [done|]. split; [by eapply daemon_ok_mailbox|]. split; [done|]. split; [done|].
  intros m Hm. cbn. by rewrite list_lookup_insert_ne by done.
Qed.

Lemma actor_owned_Ok i g o d h :
  actor_owned i g o d = Ok h <-> dm_actors d !! i = Some (o, h) /\ h_generation_id h = g.
Proof.
  unfold actor_owned. destruct (dm_actors d !! i) as [[p k]|]; [|naive_solver]. case_bool_decide; cbn; [|naive_solver].
  destruct (N.eqb_spec (h_generation_id k) g); cbn; naive_solver.
Qed.

Lemma call_ok o i g r d :
  daemon_ok d ->
  exists answer d', call_as o i g r d = Some (answer, d') /\ daemon_ok d' /\ dm_actors d' = dm_actors d /\ dm_config d' = dm_config d /\
    (d' = d \/ exists h, dm_actors d !! i = Some (o, h) /\ h_generation_id h = g /\
       forall m, m <> h_mailbox h -> dm_mailboxes d' !! m = dm_mailboxes d !! m).
Proof.
  intros Hd. unfold call_as. destruct (result_bind _ _) as [h|e] eqn:Hr; [|eexists _, d; by split_and!; try left].
  apply result_bind_Ok in Hr as (u & _ & Hh). apply actor_owned_Ok in Hh as [Hh Hg].
  destruct (deliver_ok (h_mailbox h) (InCommand (command_of r)) d Hd I) as (reply & d' & E & Hd' & Ea & Ec & Em).
  unfold send. rewrite E. exists (match reply with Some x => Ok x | None => Err daemon_lost end), d'.
  split; [by destruct reply|]. split_and!; [done..|]. right. by exists h.
Qed.

Lemma register_ok registration empty d :
  daemon_ok d ->
  exists answer d', register registration empty d = Some (answer, d') /\ daemon_ok d' /\
    match answer with
    | Ok _ => dm_actors d !! init_session_id (rn_init registration) = None /\ dm_config d' = dm_config d /\
        dm_mailboxes d `prefix_of` dm_mailboxes d' /\
        dm_actors d' = <[init_session_id (rn_init registration) := (rn_owner registration,
          mkHandle (init_session_id (rn_init registration)) (init_generation_id (rn_init registration)) (length (dm_mailboxes d)))]> (dm_actors d)
    | Err _ => d' = d
    end.
Proof.
  intros Hd. unfold register. cbv zeta. destruct (result_bind _ _) as [u|e]; [|by eexists _, d].
  case_bool_decide as Hin; [by eexists _, d|]. apply eq_None_not_Some in Hin.
  set (n := length (dm_mailboxes d)). set (i := init_session_id (rn_init registration)) in *.
  destruct (@spawn_wf (host_of n) (rn_init registration) (dm_config d) (dm_cfg _ Hd)) as (r & Hr & Hok). rewrite Hr.
  destruct r as [[handle a]|e]; [|by eexists _, d]. destruct Hok as (Hwf & _ & _ & _ & Ei & Eg).
  eexists _, _. split; [done|]. split; [|split; [done|split; [done|split; [by eexists|done]]]].
  assert (Hn : (dm_mailboxes d ++ [a]) !! n = Some a) by (by apply list_lookup_middle).
  assert (Hlt : forall j o h, dm_actors d !! j = Some (o, h) -> (h_mailbox h < n)%nat).
  { intros j o h Hh. destruct (dm_entries _ Hd _ _ _ Hh) as (_ & x & Hx & _). by eapply lookup_lt_Some. }
  destruct Hd as [Hc Hs He Ha]. split; cbn; [done|..].
  - intros m x Hm. apply lookup_app_Some in Hm as [Hm|[Hge [Hm <-]%list_lookup_singleton_Some]]; [by apply Hs|].
    by replace m with n by lia.
  - intros j o h Hh. apply lookup_insert_Some in Hh as [[<- [= <- <-]]|[Hne Hh]].
    + split; [done|]. by exists a.
    + destruct (He _ _ _ Hh) as (Hj & x & Hx & Hr'). split; [done|]. exists x. split; [by apply lookup_app_l_Some|done].
  - intros j k o p h h'. rewrite !lookup_insert_Some. intros [[<- [= <- <-]]|[Hne Hh]] [[<- [= <- <-]]|[Hne' Hh']]; cbn; [done|..].
    + intros E. apply Hlt in Hh'. lia.
    + intros E. apply Hlt in Hh. lia.
    + by eapply Ha.
Qed.

Lemma unregister_ok i g d : daemon_ok d -> daemon_ok (snd (unregister i g d)).
Proof.
  intros Hd. unfold unregister. destruct (dm_actors d !! i) as [[o h]|]; [|done]. destruct (negb _); [done|].
  destruct Hd as [Hc Hs He Ha]. split; cbn; [done|done|..].
  - intros j p k Hk. apply lookup_delete_Some in Hk as [_ Hk]. exact (He _ _ _ Hk).
  - intros j k o' p h' k'. rewrite !lookup_delete_Some. intros [_ H1] [_ H2]. by eapply Ha.
Qed.

Lemma move_keeps m d : daemon_ok d -> move_ok m -> exists d', move m d = Some d' /\ daemon_ok d'.
Proof.
  intros Hd Hm. destruct m as [registration empty|i g|o i g r|n input]; cbn.
  - destruct (register_ok registration empty d Hd) as (x & d' & -> & Hd' & _). by exists d'.
  - eexists. split; [done|by apply unregister_ok].
  - destruct (call_ok o i g r d Hd) as (x & d' & -> & Hd' & _). by exists d'.
  - destruct (deliver_ok n input d Hd Hm) as (x & d' & -> & Hd' & _). by exists d'.
Qed.

Lemma moves_keep l : forall d, daemon_ok d -> Forall move_ok l -> exists d', moves l d = Some d' /\ daemon_ok d'.
Proof.
  induction l as [|m l IH]; intros d Hd Hl; [by exists d|]. apply Forall_cons in Hl as [Hm Hl].
  destruct (move_keeps m d Hd Hm) as (d' & E & Hd'). cbn. rewrite E. by apply IH.
Qed.

(** ** What an owner sees *)

(** The daemon without the sessions of the other owner. *)
Definition visible (o : SessionOwner) (d : Daemon) : Daemon :=
  mkDaemon (filter (fun p => fst (snd p) = o) (dm_actors d)) (dm_config d) (dm_mailboxes d).

Lemma visible_lookup o d i h : dm_actors (visible o d) !! i = Some (o, h) <-> dm_actors d !! i = Some (o, h).
Proof. cbn. rewrite map_lookup_filter_Some. cbn. naive_solver. Qed.

Lemma visible_actor_owned o i g d : actor_owned i g o (visible o d) = actor_owned i g o d.
Proof.
  unfold actor_owned. destruct (dm_actors d !! i) as [[p h]|] eqn:Hi.
  - destruct (decide (p = o)) as [->|Hne].
    + by rewrite (proj2 (visible_lookup o d i h) Hi).
    + rewrite (bool_decide_eq_false_2 (p = o)) by done. cbn [negb].
      destruct (dm_actors (visible o d) !! i) as [[q k]|] eqn:Hv; [|done]. cbn in Hv. apply map_lookup_filter_Some in Hv as [Hv Hq].
      cbn in Hq. congruence.
  - destruct (dm_actors (visible o d) !! i) as [[q k]|] eqn:Hv; [|done]. cbn in Hv. apply map_lookup_filter_Some in Hv as [Hv _]. congruence.
Qed.

Lemma visible_deliver o n input d :
  deliver n input (visible o d) = (fun p => (fst p, visible o (snd p))) <$> deliver n input d.
Proof.
  unfold deliver. cbn [visible dm_mailboxes]. destruct (dm_mailboxes d !! n) as [a|]; [|done]. destruct (bool_decide _); [done|].
  by destruct (@ActorOps.run (host_of n) [input] a) as [[rs b]|].
Qed.

Lemma visible_call o i g r d :
  call_as o i g r (visible o d) = (fun p => (fst p, visible o (snd p))) <$> call_as o i g r d.
Proof.
  unfold call_as. rewrite visible_actor_owned. destruct (result_bind _ _) as [h|e]; [|done]. unfold send. rewrite visible_deliver.
  by destruct (deliver _ _ d) as [[[x|] d']|].
Qed.

(** A list of requests of one owner, and their answers. *)
Fixpoint calls_as (o : SessionOwner) (l : list (SessionId * SessionGenerationId * Request)) (d : Daemon) :
    option (list (result Reply ErrorBody) * Daemon) :=
  match l with
  | [] => Some ([], d)
  | (i, g, r) :: l =>
      '(x, d') ← call_as o i g r d;
      '(xs, d'') ← calls_as o l d';
      Some (x :: xs, d'')
  end.

Lemma registry_calls_ok o l : forall d, daemon_ok d ->
  exists answers d', calls_as o l d = Some (answers, d') /\ daemon_ok d' /\ dm_actors d' = dm_actors d /\
    calls_as o l (visible o d) = Some (answers, visible o d') /\
    (forall j p h, dm_actors d !! j = Some (p, h) -> p <> o -> dm_mailboxes d' !! h_mailbox h = dm_mailboxes d !! h_mailbox h).
Proof.
  induction l as [|[[i g] r] l IH]; intros d Hd; [by exists [], d|]. cbn.
  destruct (call_ok o i g r d Hd) as (x & d1 & E & Hd1 & Ea & _ & Hm). rewrite E. cbn.
  destruct (IH d1 Hd1) as (xs & d' & E' & Hd' & Ea' & Ev & Hm'). rewrite E'. cbn.
  exists (x :: xs), d'. split_and!; [done|done|congruence| |].
  - rewrite visible_call, E. cbn. by rewrite Ev.
  - intros j p h Hj Hne. rewrite (Hm' j p h) by congruence.
    destruct Hm as [->|(k & Hk & _ & Hmk)]; [done|]. apply Hmk. intros Emb.
    rewrite (dm_apart _ Hd j i p o h k Hj Hk Emb) in Hj. congruence.
Qed.

End Registry.

(** ** The claims *)

(** A daemon never mixes sessions up. However sessions are registered, unregistered and
    addressed, and whatever their workers report, in any order: nothing panics; every
    entry of the registry leads to an actor of exactly its id and generation, two entries
    never to one actor, and every actor ever started stays well formed. *)
Theorem registry_is_sound `{Registrar} (laws : forall n, @HostLaws (host_of n)) c l :
  config_ok c -> Forall move_ok l ->
  exists d, moves l (SessionRegistry_new c) = Some d /\
    (forall n a, dm_mailboxes d !! n = Some a -> @wf (host_of n) a) /\
    (forall i o h, dm_actors d !! i = Some (o, h) -> entry_ok d i h) /\
    (forall i j o p h k, dm_actors d !! i = Some (o, h) -> dm_actors d !! j = Some (p, k) -> h_mailbox h = h_mailbox k -> i = j).
Proof.
  intros Hc Hl. destruct (moves_keep laws l _ (daemon_ok_new c Hc) Hl) as (d & E & []). by exists d.
Qed.

(** C39. A session of the pool cannot be told from one that does not exist. In any reachable
    daemon, any requests of one owner get the answers they would get if the sessions of the
    other owner were not registered at all, whatever ids and generations they name; and
    they leave those sessions exactly as they were. *)
Theorem owners_do_not_see_each_other `{Registrar} (laws : forall n, @HostLaws (host_of n)) c l d o requests :
  config_ok c -> Forall move_ok l -> moves l (SessionRegistry_new c) = Some d ->
  exists answers d', calls_as o requests d = Some (answers, d') /\
    calls_as o requests (visible o d) = Some (answers, visible o d') /\
    dm_actors d' = dm_actors d /\
    (forall j p h, dm_actors d !! j = Some (p, h) -> p <> o -> dm_mailboxes d' !! h_mailbox h = dm_mailboxes d !! h_mailbox h).
Proof.
  intros Hc Hl E. destruct (moves_keep laws l _ (daemon_ok_new c Hc) Hl) as (d1 & E1 & Hd). rewrite E in E1. injection E1 as <-.
  destruct (registry_calls_ok laws o requests d Hd) as (answers & d' & E' & _ & Ea & Ev & Hm). by exists answers, d'.
Qed.

(** ** A daemon, run

    A session of a caller and one of the pool. *)

Module RegistryDemo.

Definition host (n : nat) : Host := {|
  clock k := 1000 + 100 * N.of_nat k; instant k := N.of_nat k; serialized_bytes _ := 200;
  record_size := 96; show_uuid i := pretty i; nfc := id |}.

#[local] Instance registrar : Registrar := {|
  compatibility_serializable _ := true;
  needs_input_serializable _ := true;
  subscription_serializable _ := true;
  uuid_text i := pretty i;
  host_of := host |}.

Lemma host_laws n : @HostLaws (host_of n).
Proof. split; intros; by vm_compute. Qed.

Definition configuration : SessionActorConfig :=
  mkActorConfig 64 (8 * 1024 * 1024) 16 600000 600000 16 (64 * 1024 * 1024) (8 * 1024 * 1024) 1000000.

Lemma configuration_ok : config_ok configuration.
Proof. split; by vm_compute. Qed.

Definition report : CompatibilityReport := mkCompatibility "2.1.226" "linux" "x86_64" Transparent Sdk true false 500.

Definition an_init (i : SessionId) (cell : SessionCell) : ActorInit :=
  mkActorInit i (i + 100) "/work" report false false cell None None None.

Definition two_sessions : list Move :=
  [MRegister (mkRegistration CallerOwned (an_init 1 Full)) (Ok tt);
   MRegister (mkRegistration PoolOwned (an_init 2 Minified)) (Ok tt)].

Lemma two_ok : Forall move_ok two_sessions.
Proof. repeat constructor. Qed.

Definition with_two : Daemon := default (SessionRegistry_new configuration) (moves two_sessions (SessionRegistry_new configuration)).

Lemma two_run : moves two_sessions (SessionRegistry_new configuration) = Some with_two.
Proof. vm_compute. reflexivity. Qed.

(** The pool's session is not found by a caller, also under its own generation; the pool
    finds it, and only under that one. *)
Example pool_is_hidden :
  fst <$> call 2 102 InspectSession with_two = Some (Err (session_not_found 2)) /\
  fst <$> call 3 103 InspectSession with_two = Some (Err (session_not_found 3)) /\
  (is_ok <$> (fst <$> call_as PoolOwned 2 102 InspectSession with_two)) = Some true /\
  fst <$> call_as PoolOwned 2 103 InspectSession with_two = Some (Err (stale_generation 2 103)).
Proof. vm_compute. auto. Qed.

(** A minified session is admitted only over a transcript proven empty. *)
Example minified_needs_the_proof :
  let dirty := DriverFailure_new TranscriptUnavailable "not empty" in
  fst <$> register (mkRegistration PoolOwned (an_init 3 Minified)) (Err dirty) with_two
  = Some (Err (@into_protocol (host 2) dirty)).
Proof. vm_compute. reflexivity. Qed.

(** An id can be used again once its session was unregistered, and not before. *)
Example ids_come_back :
  (is_ok <$> (fst <$> register (mkRegistration CallerOwned (an_init 1 Full)) (Ok tt) with_two)) = Some false /\
  (is_ok <$> (fst <$> register (mkRegistration CallerOwned (an_init 1 Full)) (Ok tt) (snd (unregister 1 101 with_two)))) = Some true.
Proof. vm_compute. auto. Qed.

Lemma registry_is_sound_witness :
  exists d, moves two_sessions (SessionRegistry_new configuration) = Some d /\
    (forall n a, dm_mailboxes d !! n = Some a -> @wf (host n) a) /\
    (forall i o h, dm_actors d !! i = Some (o, h) -> entry_ok d i h) /\
    (forall i j o p h k, dm_actors d !! i = Some (o, h) -> dm_actors d !! j = Some (p, k) -> h_mailbox h = h_mailbox k -> i = j).
Proof. exact (registry_is_sound host_laws configuration two_sessions configuration_ok two_ok). Defined.

Lemma owners_do_not_see_each_other_witness :
  exists answers d', calls_as CallerOwned [(2, 102, InspectSession); (1, 101, InspectSession)] with_two = Some (answers, d') /\
    calls_as CallerOwned [(2, 102, InspectSession); (1, 101, InspectSession)] (visible CallerOwned with_two)
      = Some (answers, visible CallerOwned d') /\
    dm_actors d' = dm_actors with_two /\
    (forall j p h, dm_actors with_two !! j = Some (p, h) -> p <> CallerOwned ->
       dm_mailboxes d' !! h_mailbox h = dm_mailboxes with_two !! h_mailbox h).
Proof.
  exact (owners_do_not_see_each_other host_laws configuration two_sessions with_two CallerOwned
           [(2, 102, InspectSession); (1, 101, InspectSession)] configuration_ok two_ok two_run).
Defined.

End RegistryDemo.
