(* ===== verification/Tasks.v ===== *)
(** * The fence of detached tasks

    [TrackedTasks] of [crates/service/src/tasks.rs]: the counter of the tasks that run on
    after their requester is gone, and the fence that shutdown waits on. Every atomic
    operation is a step, and any number of tasks and waiters interleave. A [watch] channel
    tells a receiver that it was written since the receiver last looked. *)

From S2P Require Import Prelude.

(** The largest [usize]. *)
Definition USIZE_MAX : N := U64_MAX.

(** Where a call of [wait_idle] is: it has subscribed and looks at the counter, or found it
    positive and waits for a change after version [seen], or has returned. *)
Inductive Waiter :=
| Looking (seen : nat)
| Awaiting (seen : nat)
| Returned.

Record TrackedTasks := mkTasks {
  tt_active : N;
  (** How often [changed] was written. *)
  tt_version : nat;
}.

(** [TrackedTasks] with its users: the permits that are held, the ones whose drop has
    counted down and not told yet, and the waiters. *)
Record World := mkWorld {
  w_tasks : TrackedTasks;
  w_held : nat;
  w_dropping : nat;
  w_waiters : list Waiter;
}.

Definition TrackedTasks_default : TrackedTasks := mkTasks 0 0.
Definition fresh : World := mkWorld TrackedTasks_default 0 0 [].

(** [fetch_update] with [checked_add]; [None] is the panic of [expect]. *)
Definition track (t : TrackedTasks) : option TrackedTasks :=
  active ← checked_add USIZE_MAX (tt_active t) 1; Some (mkTasks active (tt_version t)).

(** The two halves of [drop]. [fetch_sub] wraps. *)
Definition count_down (t : TrackedTasks) : TrackedTasks :=
  mkTasks (if tt_active t =? 0 then USIZE_MAX else tt_active t - 1) (tt_version t).
Definition tell (t : TrackedTasks) : TrackedTasks := mkTasks (tt_active t) (S (tt_version t)).

(** One step of a waiter, if it can take one. *)
Definition waiter_step (t : TrackedTasks) (w : Waiter) : option Waiter :=
  match w with
  | Looking seen => Some (if tt_active t =? 0 then Returned else Awaiting seen)
  | Awaiting seen => if (seen =? tt_version t)%nat then None else Some (Looking (tt_version t))
  | Returned => None
  end.

Inductive step : World -> World -> Prop :=
| step_track t held dropping waiters t' :
    track t = Some t' -> step (mkWorld t held dropping waiters) (mkWorld t' (S held) dropping waiters)
| step_count_down t held dropping waiters :
    step (mkWorld t (S held) dropping waiters) (mkWorld (count_down t) held (S dropping) waiters)
| step_tell t held dropping waiters :
    step (mkWorld t held (S dropping) waiters) (mkWorld (tell t) held dropping waiters)
| step_wait t held dropping waiters :
    step (mkWorld t held dropping waiters) (mkWorld t held dropping (waiters ++ [Looking (tt_version t)]))
| step_waiter t held dropping waiters n w w' :
    waiters !! n = Some w -> waiter_step t w = Some w' ->
    step (mkWorld t held dropping waiters) (mkWorld t held dropping (<[n := w']> waiters)).

Definition reachable : World -> Prop := rtc step fresh.

(** ** The invariant *)

(** A waiter that sleeps on an idle counter has been written to, or is about to be. *)
Definition waiter_ok (t : TrackedTasks) (dropping : nat) (w : Waiter) : Prop :=
  match w with
  | Looking seen => (seen <= tt_version t)%nat
  | Awaiting seen => (seen <= tt_version t)%nat /\ (tt_active t = 0 -> (0 < dropping)%nat \/ (seen < tt_version t)%nat)
  | Returned => True
  end.

Record world_ok (w : World) : Prop := {
  w_counted : tt_active (w_tasks w) = N.of_nat (w_held w);
  w_bounded : N.of_nat (w_held w) <= USIZE_MAX;
  w_awake : Forall (waiter_ok (w_tasks w) (w_dropping w)) (w_waiters w);
}.

Lemma step_keeps w w' : world_ok w -> step w w' -> world_ok w'.
Proof.
  intros [Hc Hb Hw] Hs. destruct Hs as [t h d ws t' Ht|t h d ws|t h d ws|t h d ws|t h d ws n x x' Hn Hx]; cbn in *.
  - unfold track in Ht. destruct (checked_add _ _ _) as [n|] eqn:Hn; [|done]. apply checked_add_Some in Hn as [-> Hle].
    injection Ht as <-. split; cbn; [lia|lia|]. eapply Forall_impl; [exact Hw|]. intros [seen|seen|]; cbn; [lia| |done].
    intros [Hle' _]. split; [done|lia].
  - split; unfold count_down; cbn; [|lia|].
    + rewrite Hc. destruct (N.eqb_spec (N.of_nat (S h)) 0); lia.
    + eapply Forall_impl; [exact Hw|]. intros [seen|seen|]; cbn; [lia| |done]. intros [Hle _]. split; [done|]. left. lia.
  - split; cbn; [done|done|]. eapply Forall_impl; [exact Hw|]. intros [seen|seen|]; cbn; [lia| |done]. intros [Hle _]. split; [lia|]. right. lia.
  - split; cbn; [done|done|]. apply Forall_app_2; [done|]. repeat constructor.
  - split; cbn; [done|done|]. apply Forall_insert; [done|].
    pose proof (Forall_lookup_1 _ _ _ _ Hw Hn) as Hx0. destruct x as [seen|seen|]; cbn in *; [| |done].
    + destruct (N.eqb_spec (tt_active t) 0) as [E|E]; injection Hx as <-; cbn; [done|]. split; [done|]. by intros ?.
    + destruct (Nat.eqb_spec seen (tt_version t)); [done|]. injection Hx as <-. cbn. lia.
Qed.

Lemma reachable_ok w : reachable w -> world_ok w.
Proof.
  intros Hr. assert (H0 : world_ok fresh) by (split; cbn; [done|done|constructor]).
  unfold reachable in Hr. revert H0. generalize fresh, Hr. clear Hr. intros w0 Hr.
  induction Hr as [|w0 w1 w2 Hs _ IH]; [done|]. intros H0. by eapply IH, step_keeps.
Qed.

(** ** The claim *)

(** A waiter left to itself. *)
Fixpoint alone (fuel : nat) (t : TrackedTasks) (w : Waiter) : Waiter :=
  match fuel with
  | O => w
  | S fuel => match waiter_step t w with Some w' => alone fuel t w' | None => w end
  end.

(** The shutdown fence is exact. In every interleaving: a waiter returns only at a moment
    when no permit is held (the counter is the number of permits, and neither overflows nor
    wraps); and no wake-up is lost: once no permit is held and every finished drop has told,
    every waiter, however it was interrupted, returns within two steps of its own. *)
Theorem fence_is_exact w :
  reachable w ->
  tt_active (w_tasks w) = N.of_nat (w_held w) /\
  (forall n x, w_waiters w !! n = Some x -> waiter_step (w_tasks w) x = Some Returned -> w_held w = 0%nat) /\
  (w_held w = 0%nat -> w_dropping w = 0%nat -> forall x, x ∈ w_waiters w -> alone 2 (w_tasks w) x = Returned).
Proof.
  intros [Hc Hb Hw]%reachable_ok. split; [done|]. split.
  - intros n x _ Hx. destruct x as [seen|seen|]; cbn in Hx; [| |done].
    + destruct (N.eqb_spec (tt_active (w_tasks w)) 0); [lia|done].
    + by destruct (_ =? _)%nat.
  - intros Hh Hd x Hx. rewrite Hh in Hc. apply (proj1 (Forall_forall _ _) Hw) in Hx. cbn. destruct x as [seen|seen|]; cbn in *; [| |done].
    + by rewrite Hc.
    + destruct Hx as [_ Hx]. destruct (Nat.eqb_spec seen (tt_version (w_tasks w))); [|cbn; by rewrite Hc].
      destruct (Hx Hc); lia.
Qed.

(** A task is tracked, a waiter finds it, and the task ends. *)
Definition one_waiter : World := mkWorld (mkTasks 0 1) 0 0 [Awaiting 0].

Lemma one_waiter_reachable : reachable one_waiter.
Proof.
  eapply rtc_l; [by apply (step_track TrackedTasks_default 0 0 [] (mkTasks 1 0))|].
  eapply rtc_l; [apply step_wait|].
  eapply rtc_l; [apply (step_waiter _ _ _ _ 0 (Looking 0) (Awaiting 0)); reflexivity|].
  eapply rtc_l; [apply step_count_down|]. eapply rtc_l; [apply step_tell|]. apply rtc_refl.
Qed.

Lemma fence_is_exact_witness :
  tt_active (w_tasks one_waiter) = 0 /\
  (forall n x, w_waiters one_waiter !! n = Some x -> waiter_step (w_tasks one_waiter) x = Some Returned -> 0%nat = 0%nat) /\
  (0%nat = 0%nat -> 0%nat = 0%nat -> forall x, x ∈ w_waiters one_waiter -> alone 2 (w_tasks one_waiter) x = Returned).
Proof. exact (fence_is_exact one_waiter one_waiter_reachable). Defined.
