(* ===== verification/Task.v ===== *)
(** * Tasks

    A task that talks to the outside and keeps its own variables: the turn worker, the
    recovery tasks, the input gate. It asks the environment questions, which are answered
    by arbitrary functions of how many were asked before; it reads the wall clock and the
    monotonic clock, which are arbitrary sequences of readings; and everything it does or
    learns is an event of its trace. A task may end early ([Returned], a [return] in the
    middle of the function), panic, or, when a loop is run for too few rounds, run out of
    fuel.

    [twp] is the weakest precondition: the first postcondition is of a task that goes on,
    the second of one that ended. *)

From S2P Require Import Prelude.

Inductive Exit := Returned | Panicking | OutOfRounds.

Inductive outcome (A : Type) :=
| Done (x : A)
| Ended (e : Exit).
Arguments Done {A} x.
Arguments Ended {A} e.

Section Task.
Context {Ev : Type}.

Record World := mkWorld {
  tk_clocks : nat;
  tk_instants : nat;
  tk_asks : nat;
  tk_trace : list Ev;
}.

Definition start : World := mkWorld 0 0 0 [].

Definition T (A : Type) : Type := World -> outcome A * World.

Definition tret {A} (x : A) : T A := fun w => (Done x, w).
Definition tend {A} (e : Exit) : T A := fun w => (Ended e, w).
Definition tbind {A B} (m : T A) (k : A -> T B) : T B :=
  fun w => match m w with
           | (Done x, w') => k x w'
           | (Ended e, w') => (Ended e, w')
           end.
Definition ttry {A B F} (m : T (result A F)) (k : A -> T (result B F)) : T (result B F) :=
  tbind m (fun r => match r with Ok x => k x | Err e => tret (Err e) end).

(** The next answer of the environment. *)
Definition ask {A} (answers : nat -> A) : T A :=
  fun w => (Done (answers (tk_asks w)), mkWorld (tk_clocks w) (tk_instants w) (S (tk_asks w)) (tk_trace w)).
Definition read_clock {A} (clock : nat -> A) : T A :=
  fun w => (Done (clock (tk_clocks w)), mkWorld (S (tk_clocks w)) (tk_instants w) (tk_asks w) (tk_trace w)).
Definition read_instant {A} (instant : nat -> A) : T A :=
  fun w => (Done (instant (tk_instants w)), mkWorld (tk_clocks w) (S (tk_instants w)) (tk_asks w) (tk_trace w)).
Definition log (e : Ev) : T unit :=
  fun w => (Done tt, mkWorld (tk_clocks w) (tk_instants w) (tk_asks w) (tk_trace w ++ [e])).

(** [loop { ... }]: [inl] is [continue], [inr] is [break]. *)
Fixpoint iterate {L R} (rounds : nat) (body : L -> T (L + R)) (l : L) : T R :=
  match rounds with
  | O => tend OutOfRounds
  | S rounds =>
      tbind (body l) (fun r => match r with inl l' => iterate rounds body l' | inr x => tret x end)
  end.

Fixpoint each {A} (f : A -> T unit) (l : list A) : T unit :=
  match l with
  | [] => tret tt
  | x :: l => tbind (f x) (fun _ => each f l)
  end.

(** ** Weakest preconditions *)

Definition twp {A} (m : T A) (w : World) (Q : A -> World -> Prop) (X : Exit -> World -> Prop) : Prop :=
  match m w with
  | (Done x, w') => Q x w'
  | (Ended e, w') => X e w'
  end.

Lemma twp_ret {A} (x : A) w Q X : Q x w -> twp (tret x) w Q X.
Proof. done. Qed.

Lemma twp_end {A} e w (Q : A -> World -> Prop) X : X e w -> twp (tend e) w Q X.
Proof. done. Qed.

Lemma twp_bind {A B} (m : T A) (k : A -> T B) w Q X :
  twp m w (fun x w' => twp (k x) w' Q X) X -> twp (tbind m k) w Q X.
Proof. unfold twp, tbind. by destruct (m w) as [[x|e] w']. Qed.

Lemma twp_try {A B F} (m : T (result A F)) (k : A -> T (result B F)) w Q X :
  twp m w (fun r w' => match r with Ok x => twp (k x) w' Q X | Err e => Q (Err e) w' end) X ->
  twp (ttry m k) w Q X.
Proof.
  intros H. apply twp_bind. unfold twp in *. destruct (m w) as [[[x|e]|e] w']; [exact H|exact H|exact H].
Qed.

Lemma twp_mono {A} (m : T A) w (Q Q' : A -> World -> Prop) (X X' : Exit -> World -> Prop) :
  twp m w Q X -> (forall x w', Q x w' -> Q' x w') -> (forall e w', X e w' -> X' e w') -> twp m w Q' X'.
Proof. unfold twp. destruct (m w) as [[x|e] w']; eauto. Qed.

Lemma twp_ask {A} (answers : nat -> A) w Q X :
  (forall x w', tk_trace w' = tk_trace w -> tk_clocks w' = tk_clocks w ->
     tk_instants w' = tk_instants w -> Q x w') -> twp (ask answers) w Q X.
Proof. intros H. by apply H. Qed.

Lemma twp_read_clock {A} (clock : nat -> A) w Q X :
  (forall w', tk_trace w' = tk_trace w -> tk_clocks w' = S (tk_clocks w) -> tk_instants w' = tk_instants w ->
     Q (clock (tk_clocks w)) w') ->
  twp (read_clock clock) w Q X.
Proof. intros H. by apply H. Qed.

Lemma twp_read_instant {A} (instant : nat -> A) w Q X :
  (forall w', tk_trace w' = tk_trace w -> tk_clocks w' = tk_clocks w -> tk_instants w' = S (tk_instants w) ->
     Q (instant (tk_instants w)) w') ->
  twp (read_instant instant) w Q X.
Proof. intros H. by apply H. Qed.

Lemma twp_log e w (Q : unit -> World -> Prop) X :
  (forall w', tk_trace w' = tk_trace w ++ [e] -> tk_clocks w' = tk_clocks w -> tk_instants w' = tk_instants w ->
     Q tt w') ->
  twp (log e) w Q X.
Proof. intros H. by apply H. Qed.

(** A loop keeps its invariant, and whatever holds of a loop stopped between two rounds. *)
Lemma twp_iterate {L R} (I : L -> World -> Prop) (body : L -> T (L + R)) Q (X : Exit -> World -> Prop) :
  (forall l w, I l w ->
     twp (body l) w (fun r w' => match r with inl l' => I l' w' | inr x => Q x w' end) X) ->
  (forall l w, I l w -> X OutOfRounds w) ->
  forall rounds l w, I l w -> twp (iterate rounds body l) w Q X.
Proof.
  intros Hbody Hend. induction rounds as [|rounds IH]; intros l w Hl; simpl; [by eapply twp_end, Hend|].
  apply twp_bind. eapply twp_mono; [by apply Hbody| |done]. intros [l'|x] w' H; [by apply IH|done].
Qed.

(** A loop whose rounds use up a measure ends within as many rounds. *)
Lemma twp_iterate_measure {L R} (I : L -> World -> Prop) (measure : World -> nat) (body : L -> T (L + R)) Q X :
  (forall l w, I l w ->
     twp (body l) w (fun r w' => match r with inl l' => I l' w' /\ (measure w' < measure w)%nat | inr x => Q x w' end) X) ->
  forall rounds l w, I l w -> (measure w < rounds)%nat -> twp (iterate rounds body l) w Q X.
Proof.
  intros Hbody. induction rounds as [|rounds IH]; intros l w Hl Hm; simpl; [lia|].
  apply twp_bind. eapply twp_mono; [by apply Hbody| |done].
  intros [l'|x] w' H; [|done]. destruct H as [H Hlt]. apply IH; [done|lia].
Qed.

Lemma twp_each {A} (I : list A -> World -> Prop) (f : A -> T unit) (Q : unit -> World -> Prop) X l :
  (forall x rest w, I (x :: rest) w -> twp (f x) w (fun _ w' => I rest w') X) ->
  (forall w, I [] w -> Q tt w) ->
  forall w, I l w -> twp (each f l) w Q X.
Proof.
  intros Hf Hd. induction l as [|x l IH]; intros w H; simpl; [by apply Hd|].
  apply twp_bind. eapply twp_mono; [by apply Hf| |done]. intros [] w' H'. by apply IH.
Qed.

(** ** What a task adds to its trace

    [says m Q X]: wherever [m] is run, the events it adds satisfy [Q] with its result when
    it goes on, and [X] when it ends. *)

Definition says {A} (m : T A) (Q : A -> list Ev -> Prop) (X : Exit -> list Ev -> Prop) : Prop :=
  forall w, twp m w (fun x w' => exists t, tk_trace w' = tk_trace w ++ t /\ Q x t)
              (fun e w' => exists t, tk_trace w' = tk_trace w ++ t /\ X e t).

Lemma says_mono {A} (m : T A) (Q Q' : A -> list Ev -> Prop) (X X' : Exit -> list Ev -> Prop) :
  says m Q X -> (forall x t, Q x t -> Q' x t) -> (forall e t, X e t -> X' e t) -> says m Q' X'.
Proof. intros H HQ HX w. eapply twp_mono; [apply H|naive_solver|naive_solver]. Qed.

Lemma says_and {A} (m : T A) (Q Q' : A -> list Ev -> Prop) (X X' : Exit -> list Ev -> Prop) :
  says m Q X -> says m Q' X' -> says m (fun x t => Q x t /\ Q' x t) (fun e t => X e t /\ X' e t).
Proof.
  intros H H' w. specialize (H w). specialize (H' w). unfold twp in *.
  destruct (m w) as [[x|e] w']; destruct H as (t & Ht & Hx), H' as (t' & Ht' & Hx'); rewrite Ht in Ht';
    apply app_inv_head in Ht' as <-; by exists t.
Qed.

Lemma says_run {A} (m : T A) Q X :
  says m Q X -> match m start with (Done x, w) => Q x (tk_trace w) | (Ended e, w) => X e (tk_trace w) end.
Proof.
  intros Hm. specialize (Hm start). unfold twp in Hm. destruct (m start) as [[x|e] w];
    destruct Hm as (t & Ht & Hx); simpl in Ht; by subst t.
Qed.

Lemma says_ret {A} (x : A) (Q : A -> list Ev -> Prop) X : Q x [] -> says (tret x) Q X.
Proof. intros H w. apply twp_ret. exists []. by rewrite app_nil_r. Qed.

Lemma says_bind {A B} (m : T A) (k : A -> T B) P Q X :
  says m P X ->
  (forall x t, P x t -> says (k x) (fun y t' => Q y (t ++ t')) (fun e t' => X e (t ++ t'))) ->
  says (tbind m k) Q X.
Proof.
  intros Hm Hk w. apply twp_bind. eapply twp_mono; [apply Hm| |done]. intros x w' (t & Ht & Hx).
  eapply twp_mono; [by apply Hk| |]; intros y w'' (t' & Ht' & Hy); exists (t ++ t');
    (split; [by rewrite app_assoc, <-Ht|done]).
Qed.

Lemma says_try {A B F} (m : T (result A F)) (k : A -> T (result B F)) P Q X :
  says m P X ->
  (forall x t, P (Ok x) t -> says (k x) (fun y t' => Q y (t ++ t')) (fun e t' => X e (t ++ t'))) ->
  (forall f t, P (Err f) t -> Q (Err f) t) ->
  says (ttry m k) Q X.
Proof.
  intros Hm Hk He. eapply says_bind; [exact Hm|]. intros [x|f] t Hx; [by apply Hk|].
  apply says_ret. rewrite app_nil_r. by apply He.
Qed.

Lemma says_ask {A} (answers : nat -> A) (Q : A -> list Ev -> Prop) X : (forall x, Q x []) -> says (ask answers) Q X.
Proof. intros H w. exists []. simpl. rewrite app_nil_r. by split. Qed.
Lemma says_read_clock {A} (clock : nat -> A) (Q : A -> list Ev -> Prop) X : (forall x, Q x []) -> says (read_clock clock) Q X.
Proof. intros H w. exists []. simpl. rewrite app_nil_r. by split. Qed.
Lemma says_read_instant {A} (instant : nat -> A) (Q : A -> list Ev -> Prop) X : (forall x, Q x []) -> says (read_instant instant) Q X.
Proof. intros H w. exists []. simpl. rewrite app_nil_r. by split. Qed.
Lemma says_log e (Q : unit -> list Ev -> Prop) X : Q tt [e] -> says (log e) Q X.
Proof. intros H w. by exists [e]. Qed.

(** The first step of a task: an event, or an answer of the environment. *)
Lemma log_step {A} e (k : unit -> T A) Q X :
  says (k tt) (fun y t => Q y (e :: t)) (fun x t => X x (e :: t)) -> says (tbind (log e) k) Q X.
Proof. intros Hk. eapply says_bind; [by apply (says_log _ (fun _ t => t = [e]))|]. intros [] t ->. exact Hk. Qed.

Lemma says_ask_at {A B} (answers : nat -> A) (k : A -> T B) Q X :
  (forall n, says (k (answers n)) Q X) -> says (tbind (ask answers) k) Q X.
Proof.
  intros Hk. eapply says_bind; [|intros x t Hx; exact Hx]. intros w. exists []. rewrite app_nil_r. split; [done|]. apply Hk.
Qed.

(** The invariant of a loop speaks of the events since its start. *)
Lemma says_iterate {L R} (I : L -> list Ev -> Prop) (body : L -> T (L + R)) Q X :
  (forall l t, I l t ->
     says (body l) (fun r t' => match r with inl l' => I l' (t ++ t') | inr x => Q x (t ++ t') end)
       (fun e t' => X e (t ++ t'))) ->
  (forall l t, I l t -> X OutOfRounds t) ->
  forall rounds l, I l [] -> says (iterate rounds body l) Q X.
Proof.
  intros Hbody Hend rounds l Hl w0.
  apply (twp_iterate (fun l w => exists t, tk_trace w = tk_trace w0 ++ t /\ I l t)).
  - intros l' w (t & Ht & Hl'). eapply twp_mono; [by apply Hbody| |].
    + intros [l''|x] w' (t' & Ht' & H'); exists (t ++ t'); (split; [by rewrite Ht', Ht, app_assoc|done]).
    + intros e w' (t' & Ht' & H'). exists (t ++ t'). split; [by rewrite Ht', Ht, app_assoc|done].
  - intros l' w (t & Ht & Hl'). exists t. split; [done|by eapply Hend].
  - exists []. rewrite app_nil_r. by split.
Qed.

End Task.
Arguments World : clear implicits.
Arguments T : clear implicits.

(** A task of one kind of events inside a task of another. *)
Definition embed {Ev Ev' A} (f : Ev -> Ev') (m : T Ev A) : T Ev' A :=
  fun w =>
    let '(o, w') := m (mkWorld (tk_clocks w) (tk_instants w) (tk_asks w) []) in
    (o, mkWorld (tk_clocks w') (tk_instants w') (tk_asks w') (tk_trace w ++ (f <$> tk_trace w'))).

Lemma says_embed {Ev Ev' A} (f : Ev -> Ev') (m : T Ev A) Q X :
  says m Q X ->
  says (embed f m) (fun x t => exists t0, t = f <$> t0 /\ Q x t0) (fun e t => exists t0, t = f <$> t0 /\ X e t0).
Proof.
  intros Hm w. specialize (Hm (mkWorld (tk_clocks w) (tk_instants w) (tk_asks w) [])). unfold twp, embed in *.
  destruct (m _) as [[x|e] w']; destruct Hm as (t & Ht & Hx); cbn in Ht; subst t; exists (f <$> tk_trace w'); (split; [done|]);
    by exists (tk_trace w').
Qed.

Notation "'let%' x := m 'in' k" := (tbind m (fun x => k))
  (at level 10, x name, m at level 100, k at level 200) : pmux_scope.
Notation "'let%?' x := m 'in' k" := (ttry m (fun x => k))
  (at level 10, x name, m at level 100, k at level 200) : pmux_scope.
Notation "m1 ';%' m2" := (tbind m1 (fun _ => m2)) (at level 95, right associativity) : pmux_scope.
