(* ===== verification/Menu.v ===== *)
(** * The command menu

    [prove_control_command_selection] of [crates/service/src/driver_io.rs]: the entry that
    Enter would select is the command pmux typed. The composer is found by the cursor, the
    candidates by the rules around it, the selected one by the colour of the typed text. *)

From S2P Require Import Prelude Text Protocol Composer Transcript Session Screen Backend.

Inductive ControlCommand : Set := Clear.

Definition command_literal (c : ControlCommand) : list N := match c with Clear => text_of "/clear" end.

Definition MENU_RULE_ROWS_BELOW_COMPOSER : N := 1.
Definition MENU_RULE_GLYPH : N := 9472.
Definition COMPOSER_TEXT_OFFSET : N := 2.
Definition MAX_MENU_TOKEN_INDENT : nat := 2.
Definition SOLIDUS : N := 47.

Definition control_selection_refusal (reason : string) : DriverFailure :=
  df_with_details
    (jobj [("field", JStr "terminal"); ("violation", JStr "control_command_selection_unproven");
           ("reason", JStr reason)]%string)
    (DriverFailure_new PromptNotAcknowledged
       "the menu entry Enter would select was not proven to be the typed command").

Definition control_selection_refusal_with (reason key : string) (value : json) : DriverFailure :=
  let refusal := control_selection_refusal reason in
  match df_details refusal with
  | JObj details => df_with_details (JObj (obj_insert key value details)) refusal
  | _ => refusal
  end.

(** [str::split_whitespace().next()]. *)
Definition first_word (t : list N) : option (list N) :=
  match take_while (fun c => negb (is_whitespace c)) (trim_start_matches is_whitespace t) with
  | [] => None
  | word => Some word
  end.

Record MenuCandidate := mkCandidate { mc_row : N; mc_token : list N }.

Definition MAX_DIAGNOSTIC_TOKEN_BYTES : N := 40.

Definition is_schema_character (c : N) : bool :=
  is_ascii_alphanumeric c || existsb (N.eqb c) [47; 45; 95; 58; 46].

Definition ascii_string (t : list N) : string := String.string_of_list_ascii (Ascii.ascii_of_N <$> t).

(** A token of the screen is published only when it is short and plain. *)
Definition redacted_schema_token (token : list N) : string :=
  if (text_len token <=? MAX_DIAGNOSTIC_TOKEN_BYTES) && negb (bool_decide (token = []))
     && forallb is_schema_character token
  then ascii_string token else "unrecognized".

Definition proven_composer_row (screen : StyledScreen) (literal : list N) : result N DriverFailure :=
  let? cursor := ok_or
    (c ← sc_cursor screen; if cur_visible c && (cur_row c <? sc_rows screen) then Some c else None)
    (control_selection_refusal "composer_not_rendered") in
  let rendered := row_text screen (cur_row cursor) in
  let? prompt_col := ok_or (prompt_glyph_col rendered) (control_selection_refusal "composer_not_rendered") in
  let? caret := ok_or
    (typed ← to_u16 (N.of_nat (length literal));
     text ← checked_add U16_MAX prompt_col COMPOSER_TEXT_OFFSET;
     checked_add U16_MAX text typed)
    (control_selection_refusal "composer_text_unproven") in
  let typed := drop (N.to_nat prompt_col + N.to_nat COMPOSER_TEXT_OFFSET) rendered in
  if negb (bool_decide (typed = literal)) || negb (cur_col cursor =? caret)
  then Err (control_selection_refusal "composer_text_unproven")
  else Ok (cur_row cursor).

Definition is_menu_rule (rendered : list N) : bool :=
  negb (bool_decide (rendered = [])) && forallb (N.eqb MENU_RULE_GLYPH) rendered.

Definition menu_candidate_at (screen : StyledScreen) (row : N) : option MenuCandidate :=
  let rendered := row_text screen row in
  let indent := length (take_while (N.eqb SPACE) rendered) in
  if (MAX_MENU_TOKEN_INDENT <? indent)%nat then None
  else
    let stripped := trim_start_matches (N.eqb SPACE) rendered in
    if negb (starts_with [SOLIDUS] stripped) then None
    else token ← first_word stripped; Some (mkCandidate row token).

(** The rows below the lower rule. *)
Definition rows_below (screen : StyledScreen) (composer_row : N) : list N :=
  default []
    (below ← checked_add U16_MAX composer_row MENU_RULE_ROWS_BELOW_COMPOSER;
     if (below <? sc_rows screen) && is_menu_rule (row_text screen below)
     then first ← checked_add U16_MAX below 1; Some (row_range first (sc_rows screen))
     else None).

(** The rows above the upper rule. *)
Definition rows_above (screen : StyledScreen) (composer_row : N) : list N :=
  default []
    (above ← checked_sub composer_row 1;
     if is_menu_rule (row_text screen above) then Some (row_range 0 above) else None).

(** [sort_unstable] then [dedup]: the rows above come first, and none is in both. *)
Definition menu_candidates (screen : StyledScreen) (composer_row : N) : list MenuCandidate :=
  omap (menu_candidate_at screen) (rows_above screen composer_row ++ rows_below screen composer_row).

Definition composer_command_colour (screen : StyledScreen) (composer_row : N) : option CellColor :=
  prompt_col ← prompt_glyph_col (row_text screen composer_row);
  start ← checked_add U16_MAX prompt_col COMPOSER_TEXT_OFFSET;
  cell ← screen_row screen composer_row !! N.to_nat start;
  if is_styled (cl_foreground cell) then Some (cl_foreground cell) else None.

(** Whether a cell opens the body of a row: not the indent. *)
Definition opens_body (cell : StyledCell) : bool :=
  negb (cl_padding cell) && (is_styled (cl_foreground cell) || negb (is_blank (cl_text cell))).

Fixpoint first_index {A} (p : A -> bool) (l : list A) : option nat :=
  match l with
  | [] => None
  | x :: l => if p x then Some 0%nat else S <$> first_index p l
  end.

(** The one colour of the cells, [None] when there are two. *)
Fixpoint uniform_colour (colour : option CellColor) (cells : list StyledCell) : option (option CellColor) :=
  match cells with
  | [] => Some colour
  | cell :: cells =>
      if cl_padding cell then uniform_colour colour cells
      else match colour with
           | None => uniform_colour (Some (cl_foreground cell)) cells
           | Some seen =>
               if bool_decide (seen = cl_foreground cell) then uniform_colour colour cells else None
           end
  end.

Definition candidate_body_colour (cells : list StyledCell) : option CellColor :=
  last_glyph ← rposition (fun cell => negb (cl_padding cell) && negb (is_blank (cl_text cell))) cells;
  start ← first_index opens_body (take (S last_glyph) cells);
  colour ← uniform_colour None (drop start (take (S last_glyph) cells));
  colour ← colour;
  if is_styled colour then Some colour else None.

Definition prove_control_command_selection (screen : StyledScreen) (command : ControlCommand) :
    result unit DriverFailure :=
  let literal := command_literal command in
  let? composer_row := proven_composer_row screen literal in
  let candidates := menu_candidates screen composer_row in
  if bool_decide (length candidates = 0%nat) then Err (control_selection_refusal "menu_not_rendered")
  else match composer_command_colour screen composer_row with
  | None => Err (control_selection_refusal_with "menu_selection_not_unique" "highlighted_rows" (JNum 0))
  | Some command_colour =>
      let highlighted :=
        List.filter (fun c => bool_decide (candidate_body_colour (screen_row screen (mc_row c)) = Some command_colour))
          candidates in
      match highlighted with
      | [selected] =>
          if bool_decide (mc_token selected = literal) then Ok tt
          else Err (control_selection_refusal_with "menu_selects_a_different_command" "selected_command"
                      (JStr (redacted_schema_token (mc_token selected))))
      | _ => Err (control_selection_refusal_with "menu_selection_not_unique" "highlighted_rows"
                    (JNum (N.of_nat (length highlighted))))
      end
  end.
