(* ===== verification/Gate.v ===== *)
(** * The input gate

    [RmuxTerminalControl] of [crates/service/src/driver_io.rs]: how a prompt or a control
    command is typed into the terminal. A stable empty composer is proven and fenced, the
    text is pasted once, the rendering is proven to be that text (or the menu to have
    selected that command), and Enter is sent once. What the terminal, the lease and the
    clocks answer is the class [Pty]; the trace of the task records the screens it decided
    on and what it sent. Durations are in nanoseconds. *)

From S2P Require Import Prelude Text Protocol Composer Transcript Session Screen Backend Menu Task.

Inductive TerminalBackendError :=
| InvalidLaunch
| ControlPlaneLost
| RmuxFailed
| ProcessBoundary.

Class Pty := {
  (** Milliseconds since the epoch; absent when the clock stands before it. *)
  unix_clock : nat -> option N;
  pty_instant : nat -> N;
  lease_lost : nat -> bool;
  terminal_present : nat -> bool;
  (** A read that is waited for. *)
  snapshot_read : nat -> result TerminalSnapshot TerminalBackendError;
  (** [None]: not in time. *)
  snapshot_answer : nat -> option (result TerminalSnapshot TerminalBackendError);
  styled_answer : nat -> option (result StyledScreen TerminalBackendError);
  paste_answer : nat -> option (result unit TerminalBackendError);
  enter_answer : nat -> option (result unit TerminalBackendError);
  interrupt_sent : nat -> result unit TerminalBackendError;
  pty_close : nat -> result bool TerminalBackendError;
  stop_sequence : nat -> N;
  stop_at_ms : nat -> N;
}.

Inductive PtyEvent :=
| Snapped (s : TerminalSnapshot)
| Styled (s : StyledScreen)
| Pasting (text : list N)
| Entering
| Interrupted
| Closing
| Waited
(** The stop sequence a turn starts from. *)
| Baselined (sequence : N)
(** A reading of the monotonic clock that dates the screen, or how long it has held. *)
| At (now : N).

Record RmuxTerminalControl := mkControl {
  rt_quiet_for : N;
  rt_evidence_timeout : N;
  rt_recovery_timeout : N;
  rt_lifecycle_expected : bool;
  rt_input_gate_timeout : N;
}.

Abbreviation G := (T PtyEvent).
Abbreviation DriverResult A := (result A DriverFailure).

(** ** Failures *)

Definition ENTER_ATTEMPTED : string := "enter_attempted".

Definition mark (key : string) (f : DriverFailure) : DriverFailure :=
  match df_details f with
  | JObj details => df_with_details (JObj (obj_insert key (JBool true) details)) f
  | _ => df_with_details (jobj [(key, JBool true)]) f
  end.

Definition mark_enter_attempted (f : DriverFailure) : DriverFailure := mark ENTER_ATTEMPTED f.

Definition marked (key : string) (f : DriverFailure) : bool :=
  match json_get key (df_details f) with Some (JBool b) => b | _ => false end.

Definition enter_was_attempted (f : DriverFailure) : bool := marked ENTER_ATTEMPTED f.

Definition turn_deadline_failure : DriverFailure :=
  DriverFailure_new TurnTimeout "turn deadline elapsed before prompt submission".
Definition input_gate_failure : DriverFailure :=
  DriverFailure_new PromptNotAcknowledged "terminal editor state could not be proven before prompt submission".
Definition input_render_failure : DriverFailure :=
  DriverFailure_new PromptNotAcknowledged "the composer's rendered rows were not proven to hold this prompt before Enter".
Definition paste_ambiguity_failure : DriverFailure :=
  DriverFailure_new PromptNotAcknowledged "terminal paste acknowledgement was ambiguous; Enter was not attempted".
Definition enter_ambiguity_failure : DriverFailure :=
  mark_enter_attempted
    (DriverFailure_new RecoveryFailed "terminal Enter acknowledgement was ambiguous; submission was not retried").
Definition closed_terminal : DriverFailure := DriverFailure_new SessionNotFound "terminal session is closed".
Definition lease_failure (message : string) : DriverFailure :=
  df_with_retryable true (DriverFailure_new DaemonLost message).

Definition needs_input_failure (info : NeedsInputInfo) : DriverFailure :=
  DriverFailure_new
    (match ni_kind info with
     | KindTrust => NeedsTrust
     | KindLogin => NeedsLogin
     | KindPermission => NeedsPermission
     | KindUpdate => NeedsUpdate
     | KindQuota => RateLimited
     | KindUnknownModal => Protocol.NeedsInput
     end) (ni_message info).

(** A refused prompt, as the driver reports it. *)
Definition prompt_failure (e : ErrorBody) : DriverFailure :=
  mkDriverFailure (eb_code e) (eb_message e) (eb_retryable e) (eb_details e).

(** ** Clocks *)

Definition protocol_milliseconds (milliseconds : N) (field : string) : DriverResult N :=
  if (milliseconds <=? U64_MAX) && (milliseconds <=? MAX_SAFE_JSON_INTEGER) then Ok milliseconds
  else Err (DriverFailure_new RecoveryFailed (field +:+ " is outside protocol-v1's safe integer domain")%string).

Definition validate_turn_deadline_domain (deadline_unix_ms : N) : DriverResult unit :=
  if MAX_SAFE_JSON_INTEGER <? deadline_unix_ms
  then Err (DriverFailure_new InvalidConfig "turn deadline is outside protocol-v1's safe timestamp domain")
  else Ok tt.

Record InputGateBudget := mkBudget { bg_cap : N; bg_turn_deadline_unix_ms : N }.

(** The largest [Instant], in nanoseconds. *)
Definition INSTANT_MAX : N := 2 ^ 63 * 1000000000 - 1.

Section Gate.
Context `{Pty}.
Variable nfc : list N -> list N.
(** How many rounds a loop of the gate is run for. *)
Variable rounds : nat.

Definition lift {A} (r : DriverResult A) : G (DriverResult A) := tret r.

Definition now_unix_ms : G (DriverResult N) :=
  let% elapsed := read_clock unix_clock in
  tret (let? milliseconds := ok_or elapsed
          (DriverFailure_new RecoveryFailed "current time precedes the Unix epoch") in
        protocol_milliseconds milliseconds "current time").

Definition ensure_before_turn_deadline (deadline_unix_ms : N) : G (DriverResult unit) :=
  let%? _ := lift (validate_turn_deadline_domain deadline_unix_ms) in
  let%? now := now_unix_ms in
  tret (if deadline_unix_ms <=? now then Err turn_deadline_failure else Ok tt).

Definition InputGateBudget_new (turn_deadline_unix_ms maximum : N) : G (DriverResult InputGateBudget) :=
  let%? _ := lift (validate_turn_deadline_domain turn_deadline_unix_ms) in
  let%? now_ms := now_unix_ms in
  let%? remaining_ms := lift (ok_or
    (remaining ← checked_sub turn_deadline_unix_ms now_ms; if 0 <? remaining then Some remaining else None)
    turn_deadline_failure) in
  let% now := read_instant pty_instant in
  tret (let? cap := ok_or (checked_add INSTANT_MAX now (N.min maximum (remaining_ms * 1000000)))
          (DriverFailure_new InvalidConfig "terminal input gate duration overflows the monotonic clock domain") in
        Ok (mkBudget cap turn_deadline_unix_ms)).

Definition phase_failure (after_paste : bool) : DriverFailure :=
  if after_paste then input_render_failure else input_gate_failure.

Definition remaining (budget : InputGateBudget) (after_paste : bool) : G (DriverResult N) :=
  let%? _ := ensure_before_turn_deadline (bg_turn_deadline_unix_ms budget) in
  let% now := read_instant pty_instant in
  tret (if bg_cap budget <=? now then Err (phase_failure after_paste) else Ok (bg_cap budget - now)).

Definition expiry (budget : InputGateBudget) (ambiguity : DriverFailure) : G DriverFailure :=
  let% now := now_unix_ms in
  tret (match now with
        | Ok now => if bg_turn_deadline_unix_ms budget <=? now then turn_deadline_failure else ambiguity
        | Err clock => clock
        end).

Definition expired_with {A} (budget : InputGateBudget) (ambiguity : DriverFailure) : G (DriverResult A) :=
  let% failure := expiry budget ambiguity in tret (Err failure).

(** ** Reads *)

(** A lost control plane is told apart by the lease. *)
Definition map_terminal_error (error : TerminalBackendError) : G DriverFailure :=
  match error with
  | InvalidLaunch => tret (DriverFailure_new InvalidConfig "terminal request was invalid")
  | ControlPlaneLost =>
      let% lost := ask lease_lost in
      tret (lease_failure (if lost then "private rmux session lease was lost"
                           else "private rmux session control plane was lost"))
  | RmuxFailed => tret (df_with_retryable true (DriverFailure_new RmuxUnavailable "private rmux operation failed"))
  | ProcessBoundary =>
      tret (df_with_retryable true (DriverFailure_new RmuxUnavailable "terminal process-boundary operation failed"))
  end.

Definition fail_backend {A} (error : TerminalBackendError) : G (DriverResult A) :=
  let% failure := map_terminal_error error in tret (Err failure).

Definition require_lease (message : string) : G (DriverResult unit) :=
  let% lost := ask lease_lost in
  tret (if lost then Err (lease_failure message) else Ok tt).

Definition SUBMISSION_LEASE : string := "private rmux lease was lost during prompt submission".

(** A read under the budget: the lease and the budget hold before it and after it. *)
Definition gated_read {A} (answer : nat -> option (result A TerminalBackendError)) (event : A -> PtyEvent)
    (budget : InputGateBudget) (after_paste : bool) : G (DriverResult A) :=
  let%? _ := require_lease SUBMISSION_LEASE in
  let%? _ := remaining budget after_paste in
  let% read := ask answer in
  match read with
  | None => expired_with budget (phase_failure after_paste)
  | Some (Err error) => fail_backend error
  | Some (Ok x) =>
      let%? _ := require_lease SUBMISSION_LEASE in
      let%? _ := remaining budget after_paste in
      log (event x) ;% tret (Ok x)
  end.

Definition gated_snapshot := gated_read snapshot_answer Snapped.
Definition gated_styled_screen (budget : InputGateBudget) := gated_read styled_answer Styled budget true.

Definition sleep_for_input_poll (budget : InputGateBudget) (after_paste : bool) : G (DriverResult unit) :=
  let%? _ := remaining budget after_paste in
  log Waited ;%
  let%? _ := remaining budget after_paste in
  tret (Ok tt).

Definition stamp : G N :=
  let% now := read_instant pty_instant in log (At now) ;% tret now.

(** A candidate keeps the moment it was first seen for as long as it is seen again. *)
Definition see {A} `{EqDecision A} (candidate : option (A * N)) (x : A) : G (A * N) :=
  match candidate with
  | Some (observed, since) =>
      if bool_decide (observed = x) then tret (observed, since)
      else let% now := stamp in tret (x, now)
  | None => let% now := stamp in tret (x, now)
  end.

Definition held (since stable_for : N) : G bool :=
  let% now := stamp in tret (stable_for <=? now - since).

(** ** Gate 1: a stable empty composer *)

Definition empty_editor (s : TerminalSnapshot) : option ActiveEditor :=
  editor ← active_editor s; if ed_empty_cursor_position editor then Some editor else None.

Definition empty_round (budget : InputGateBudget) (stable_for : N) (candidate : option (EditorSignature * N)) :
    G (option (EditorSignature * N) + DriverResult TerminalSnapshot) :=
  let% read := gated_snapshot budget false in
  match read with
  | Err failure => tret (inr (Err failure))
  | Ok snapshot =>
      let again (c : option (EditorSignature * N)) : G (option (EditorSignature * N) + DriverResult TerminalSnapshot) :=
        let% slept := sleep_for_input_poll budget false in
        tret (match slept with Ok _ => inl c | Err failure => inr (Err failure) end) in
      match classify_terminal_snapshot snapshot with
      | StReady =>
          match empty_editor snapshot with
          | None => tret (inr (Err input_gate_failure))
          | Some editor =>
              let% c := see candidate (ed_signature editor) in
              let% stable := held (snd c) stable_for in
              if stable then tret (inr (Ok snapshot)) else again (Some c)
          end
      | StNeedsInput info => tret (inr (Err (needs_input_failure info)))
      | StRecognised _ | StUnrecognised _ => again None
      end
  end.

Definition wait_for_stable_empty_editor (budget : InputGateBudget) (stable_for : N) : G (DriverResult TerminalSnapshot) :=
  iterate rounds (empty_round budget stable_for) None.

(** A screen that shows no composer and waits for a person. *)
Definition modal_screen (s : TerminalSnapshot) : option NeedsInputInfo :=
  match active_editor s with None => blocking_screen (sn_visible_text s) | Some _ => None end.

Definition fence_round (budget : InputGateBudget) (stable_for : N) (_ : unit) :
    G (unit + DriverResult (TerminalSnapshot * ActiveEditor)) :=
  let% stable := wait_for_stable_empty_editor budget stable_for in
  match stable with
  | Err failure => tret (inr (Err failure))
  | Ok baseline =>
      match empty_editor baseline with
      | None => tret (inr (Err input_gate_failure))
      | Some baseline_editor =>
          let% read := gated_snapshot budget false in
          match read with
          | Err failure => tret (inr (Err failure))
          | Ok fence =>
              if bool_decide (fence = baseline) then tret (inr (Ok (fence, baseline_editor)))
              else match modal_screen fence with
                   | Some info => tret (inr (Err (needs_input_failure info)))
                   | None => tret (inl tt)
                   end
          end
      end
  end.

Definition prove_stable_empty_editor (budget : InputGateBudget) (stable_for : N) :
    G (DriverResult (TerminalSnapshot * ActiveEditor)) :=
  iterate rounds (fence_round budget stable_for) tt.

(** ** The two writes *)

Definition paste_once (budget : InputGateBudget) (text : list N) : G (DriverResult unit) :=
  let%? _ := remaining budget false in
  log (Pasting text) ;%
  let% answer := ask paste_answer in
  match answer with
  | Some (Ok _) => tret (Ok tt)
  | Some (Err _) => tret (Err paste_ambiguity_failure)
  | None => expired_with budget paste_ambiguity_failure
  end.

Definition enter_once (budget : InputGateBudget) : G (DriverResult unit) :=
  let%? _ := require_lease "private rmux lease was lost before Enter" in
  let%? _ := remaining budget true in
  log Entering ;%
  let% answer := ask enter_answer in
  match answer with
  | Some (Ok _) => tret (Ok tt)
  | Some (Err _) => tret (Err enter_ambiguity_failure)
  | None => let% failure := expiry budget enter_ambiguity_failure in tret (Err (mark_enter_attempted failure))
  end.

(** ** Gate 2: the rendered prompt *)

Definition render_round (budget : InputGateBudget) (baseline : TerminalSnapshot) (baseline_editor : ActiveEditor)
    (prompt : list N) (stable_for : N) (candidate : option (EditorSignature * N)) :
    G (option (EditorSignature * N) + DriverResult TerminalSnapshot) :=
  let% read := gated_snapshot budget true in
  match read with
  | Err failure => tret (inr (Err failure))
  | Ok snapshot =>
      let again (c : option (EditorSignature * N)) : G (option (EditorSignature * N) + DriverResult TerminalSnapshot) :=
        let% slept := sleep_for_input_poll budget true in
        tret (match slept with Ok _ => inl c | Err failure => inr (Err failure) end) in
      if rendered_prompt_is_proven snapshot (sn_revision baseline) baseline_editor prompt then
        match active_editor snapshot with
        | None => tend Panicking
        | Some editor =>
            let% c := see candidate (ed_signature editor) in
            let% stable := held (snd c) stable_for in
            if stable then tret (inr (Ok snapshot)) else again (Some c)
        end
      else
        match modal_screen snapshot with
        | Some info => tret (inr (Err (needs_input_failure info)))
        | None => again None
        end
  end.

Definition wait_for_stable_prompt_render (budget : InputGateBudget) (baseline : TerminalSnapshot)
    (baseline_editor : ActiveEditor) (prompt : list N) (stable_for : N) : G (DriverResult TerminalSnapshot) :=
  iterate rounds (render_round budget baseline baseline_editor prompt stable_for) None.

Definition confirm_round (budget : InputGateBudget) (baseline : TerminalSnapshot) (baseline_editor : ActiveEditor)
    (prompt : list N) (stable_for : N) (_ : unit) : G (unit + DriverResult unit) :=
  let% stable := wait_for_stable_prompt_render budget baseline baseline_editor prompt stable_for in
  match stable with
  | Err failure => tret (inr (Err failure))
  | Ok rendered =>
      match active_editor rendered with
      | None => tend Panicking
      | Some rendered_editor =>
          let% read := gated_snapshot budget true in
          match read with
          | Err failure => tret (inr (Err failure))
          | Ok fence =>
              if bool_decide (fence = rendered)
                 && rendered_prompt_is_proven fence (sn_revision baseline) baseline_editor prompt
                 && match active_editor fence with
                    | Some editor => bool_decide (ed_signature editor = ed_signature rendered_editor)
                    | None => false
                    end
              then tret (inr (Ok tt))
              else match modal_screen fence with
                   | Some info => tret (inr (Err (needs_input_failure info)))
                   | None => tret (inl tt)
                   end
          end
      end
  end.

Definition require_terminal : G (DriverResult unit) :=
  let% present := ask terminal_present in
  tret (if present then Ok tt else Err closed_terminal).

(** The baseline of a turn is set before the terminal is taken. *)
Definition arm_lifecycle : G (DriverResult unit) :=
  let% sequence := ask stop_sequence in
  log (Baselined sequence) ;% require_terminal.

Definition submit_prompt (self : RmuxTerminalControl) (prompt : list N) (deadline_unix_ms : N) :
    G (DriverResult unit) :=
  let%? prompt := lift (map_err prompt_failure (validate_prompt nfc prompt)) in
  let%? budget := InputGateBudget_new deadline_unix_ms (rt_input_gate_timeout self) in
  let%? _ := arm_lifecycle in
  let%? fenced := prove_stable_empty_editor budget (rt_quiet_for self) in
  let%? _ := paste_once budget prompt in
  let%? _ := iterate rounds (confirm_round budget (fst fenced) (snd fenced) prompt (rt_quiet_for self)) tt in
  enter_once budget.

(** ** The control channel *)

Definition control_round (budget : InputGateBudget) (baseline : TerminalSnapshot) (stable_for : N)
    (candidate : option (StyledScreen * (TerminalSnapshot * N))) :
    G (option (StyledScreen * (TerminalSnapshot * N)) + DriverResult StyledScreen) :=
  let% read := gated_styled_screen budget in
  match read with
  | Err failure => tret (inr (Err failure))
  | Ok screen =>
      let again (c : option (StyledScreen * (TerminalSnapshot * N))) :
          G (option (StyledScreen * (TerminalSnapshot * N)) + DriverResult StyledScreen) :=
        let% slept := sleep_for_input_poll budget true in
        tret (match slept with Ok _ => inl c | Err failure => inr (Err failure) end) in
      let snapshot := to_terminal_snapshot screen in
      if negb (sn_revision snapshot =? 0) && negb (sn_revision snapshot =? sn_revision baseline)
         && negb (bool_decide (snapshot = baseline)) then
        let% seen := see (snd <$> candidate) snapshot in
        let settled :=
          match candidate with
          | Some (first, (observed, _)) => if bool_decide (observed = snapshot) then first else screen
          | None => screen
          end in
        let% stable := held (snd seen) stable_for in
        if stable then tret (inr (Ok settled)) else again (Some (settled, seen))
      else
        match modal_screen snapshot with
        | Some info => tret (inr (Err (needs_input_failure info)))
        | None => again None
        end
  end.

Definition wait_for_stable_control_render (budget : InputGateBudget) (baseline : TerminalSnapshot) (stable_for : N) :
    G (DriverResult StyledScreen) :=
  iterate rounds (control_round budget baseline stable_for) None.

Definition type_control_command (self : RmuxTerminalControl) (command : ControlCommand) (deadline_unix_ms : N) :
    G (DriverResult unit) :=
  let%? budget := InputGateBudget_new deadline_unix_ms (rt_input_gate_timeout self) in
  let%? _ := require_terminal in
  let%? fenced := prove_stable_empty_editor budget (rt_quiet_for self) in
  let%? _ := paste_once budget (command_literal command) in
  let%? rendered := wait_for_stable_control_render budget (fst fenced) (rt_quiet_for self) in
  let%? _ := lift (prove_control_command_selection rendered command) in
  enter_once budget.

End Gate.
