(* ===== verification/GateProofs.v ===== *)
(** * What the input gate does

    The trace of a submission: the screens that were read, what was typed, and the clock
    readings that say how long a screen has held. [stood] is a stretch of screens that
    agree, long enough to be believed. The lemmas are the specifications of the functions
    of [Gate]: what they append to the trace, and that no failure raised before Enter
    carries the mark of one raised after it. *)

From S2P Require Import Prelude Text Protocol Composer Transcript Session Screen Backend Menu Task Gate.

(** ** Reading a trace *)

Definition is_write (e : PtyEvent) : bool :=
  match e with Pasting _ | Entering | Interrupted | Closing => true | _ => false end.

Definition reads (t : list PtyEvent) : Prop := Forall (fun e => is_write e = false) t.

Definition screen_of (e : PtyEvent) : option TerminalSnapshot :=
  match e with
  | Snapped s => Some s
  | Styled s => Some (to_terminal_snapshot s)
  | _ => None
  end.
Definition screens (t : list PtyEvent) : list TerminalSnapshot := omap screen_of t.

(** The trace ends in a stretch of screens that all satisfy [P], the first of them read
    at [since]. *)
Definition stretch (P : TerminalSnapshot -> Prop) (t : list PtyEvent) (since : N) (mid : list PtyEvent) : Prop :=
  exists pre first, t = pre ++ [first; At since] ++ mid /\ is_Some (screen_of first) /\ Forall P (screens (first :: mid)).

(** The stretch has lasted for [quiet]. *)
Definition stood (P : TerminalSnapshot -> Prop) (quiet : N) (t : list PtyEvent) : Prop :=
  exists since now mid, stretch P t since (mid ++ [At now]) /\ quiet <= now - since.

(** A screen with an empty composer of this appearance. *)
Definition shows_empty (signature : EditorSignature) (s : TerminalSnapshot) : Prop :=
  classify_terminal_snapshot s = StReady /\ exists editor, empty_editor s = Some editor /\ ed_signature editor = signature.

(** A screen whose composer, of this appearance, holds the prompt. *)
Definition shows_prompt (baseline : TerminalSnapshot) (baseline_editor : ActiveEditor) (prompt : list N)
    (signature : EditorSignature) (s : TerminalSnapshot) : Prop :=
  rendered_prompt_is_proven s (sn_revision baseline) baseline_editor prompt = true /\
  exists editor, active_editor s = Some editor /\ ed_signature editor = signature.

Lemma reads_app t1 t2 : reads t1 -> reads t2 -> reads (t1 ++ t2).
Proof. unfold reads. by rewrite Forall_app. Qed.
Lemma reads_nil : reads [].
Proof. constructor. Qed.
Lemma reads_one e : is_write e = false -> reads [e].
Proof. by constructor. Qed.
#[export] Hint Resolve reads_app reads_nil reads_one : pmux.

Lemma screens_app t1 t2 : screens (t1 ++ t2) = screens t1 ++ screens t2.
Proof. apply omap_app. Qed.

Lemma stretch_app P t since mid more :
  stretch P t since mid -> Forall P (screens more) -> stretch P (t ++ more) since (mid ++ more).
Proof.
  intros (pre & first & -> & Hf & Hall) Hm. exists pre, first. split; [by rewrite <-!app_assoc|]. split; [done|].
  change (first :: mid ++ more) with ((first :: mid) ++ more). rewrite screens_app. by apply Forall_app.
Qed.

Lemma stretch_one P t e since s : screen_of e = Some s -> P s -> stretch P (t ++ [e; At since]) since [].
Proof. intros He Hs. exists t, e. split; [done|]. rewrite He. split; [by eexists|]. unfold screens. simpl. rewrite He. by constructor. Qed.

Lemma stretch_mono (P P' : TerminalSnapshot -> Prop) t since mid :
  (forall s, P s -> P' s) -> stretch P t since mid -> stretch P' t since mid.
Proof. intros H (pre & first & -> & Hf & Hall). exists pre, first. split; [done|]. split; [done|]. by eapply Forall_impl. Qed.

(** The last screen of a stretch is one of it. *)
Lemma stretch_last P t0 e since mid s : screen_of e = Some s -> stretch P (t0 ++ [e]) since (mid ++ [e]) -> P s.
Proof.
  intros He (pre & first & _ & _ & Hall). change (first :: mid ++ [e]) with ((first :: mid) ++ [e]) in Hall.
  rewrite screens_app in Hall. apply Forall_app in Hall as [_ Hall]. unfold screens in Hall. simpl in Hall.
  rewrite He in Hall. by inversion Hall.
Qed.

Lemma stretch_prefix P t0 t since mid : stretch P t since mid -> stretch P (t0 ++ t) since mid.
Proof. intros (pre & first & -> & H). exists (t0 ++ pre), first. split; [by rewrite <-app_assoc|done]. Qed.

Lemma stood_prefix P quiet t0 t : stood P quiet t -> stood P quiet (t0 ++ t).
Proof. intros (since & now & mid & H & Hq). exists since, now, mid. split; [by apply stretch_prefix|done]. Qed.

(** ** Marks *)

(** A failure that does not claim that Enter was sent. *)
Definition unmarked (f : DriverFailure) : Prop := enter_was_attempted f = false.

Lemma new_unmarked code message : unmarked (DriverFailure_new code message).
Proof. done. Qed.
Lemma retryable_unmarked b f : unmarked f -> unmarked (df_with_retryable b f).
Proof. done. Qed.
#[export] Hint Resolve new_unmarked retryable_unmarked : pmux.

Lemma needs_input_unmarked info : unmarked (needs_input_failure info).
Proof. done. Qed.
Lemma phase_unmarked b : unmarked (phase_failure b).
Proof. by destruct b. Qed.
Lemma lease_unmarked m : unmarked (lease_failure m).
Proof. done. Qed.
Lemma gate_failures_unmarked :
  unmarked turn_deadline_failure /\ unmarked input_gate_failure /\ unmarked input_render_failure /\
  unmarked paste_ambiguity_failure /\ unmarked closed_terminal.
Proof. done. Qed.
#[export] Hint Extern 1 (unmarked _) => apply gate_failures_unmarked : pmux.
#[export] Hint Resolve needs_input_unmarked phase_unmarked lease_unmarked : pmux.

Lemma marked_mark key f : marked key (mark key f) = true.
Proof.
  unfold marked, mark. destruct (df_details f); simpl; rewrite ?obj_get_insert, ?bool_decide_eq_true_2; done.
Qed.

Lemma prompt_refusal_unmarked nfc p e : validate_prompt nfc p = Err e -> unmarked (prompt_failure e).
Proof.
  unfold validate_prompt. intros H. case_bool_decide; [by injection H as <-|]. case_match; [by injection H as <-|].
  case_match; [by injection H as <-|]. case_match; [by injection H as <-|discriminate].
Qed.

(** ** Specifications *)

(** What a step that only reads leaves behind: nothing typed, and no mark on its failure. *)
Definition quietly {A} (Q : A -> list PtyEvent -> Prop) (r : result A DriverFailure) (t : list PtyEvent) : Prop :=
  reads t /\ match r with Ok x => Q x t | Err f => unmarked f end.
Definition cut_short (e : Exit) (t : list PtyEvent) : Prop := e = OutOfRounds /\ reads t.

Section Proofs.
Context `{Pty}.

(** Nothing at all is added to the trace. *)
Definition silent {A} (Q : A -> Prop) (x : A) (t : list PtyEvent) : Prop := t = [] /\ Q x.
Definition clean {A} (r : DriverResult A) : Prop := match r with Ok _ => True | Err f => unmarked f end.

Lemma says_step {A B} (m : G A) (k : A -> G B) (P : A -> Prop) Q X :
  says m (silent P) X -> (forall x, P x -> says (k x) Q X) -> says (tbind m k) Q X.
Proof. intros Hm Hk. eapply says_bind; [exact Hm|]. intros x t [-> Hx]. by apply Hk. Qed.

Lemma says_ask_step {A B} (answers : nat -> A) (k : A -> G B) Q X :
  (forall x, says (k x) Q X) -> says (tbind (ask answers) k) Q X.
Proof. intros Hk. apply (says_step _ _ (fun _ => True)); [by apply says_ask|by intros x _]. Qed.

Lemma says_check {A B} (m : G (DriverResult A)) (k : A -> G (DriverResult B)) Q X :
  says m (silent clean) X -> (forall x, says (k x) Q X) -> (forall f, unmarked f -> Q (Err f) []) ->
  says (ttry m k) Q X.
Proof.
  intros Hm Hk He. eapply says_try; [exact Hm| |].
  - intros x t [-> _]. apply Hk.
  - intros f t [-> Hf]. by apply He.
Qed.

Lemma now_unix_ms_says X : says now_unix_ms (silent clean) X.
Proof.
  apply (says_step _ _ (fun _ => True)); [by apply says_read_clock|]. intros [ms|] _; apply says_ret; [|by split].
  simpl. unfold protocol_milliseconds. by case_match.
Qed.

Lemma ensure_before_turn_deadline_says d X : says (ensure_before_turn_deadline d) (silent clean) X.
Proof.
  apply says_check; [|intros _|by split].
  - apply says_ret. split; [done|]. unfold validate_turn_deadline_domain. by case_match.
  - apply says_check; [apply now_unix_ms_says|intros now|by split]. apply says_ret. split; [done|]. by case_match.
Qed.

Lemma remaining_says budget b X : says (remaining budget b) (silent clean) X.
Proof.
  apply says_check; [apply ensure_before_turn_deadline_says|intros _|by split].
  apply (says_step _ _ (fun _ => True)); [by apply says_read_instant|]. intros now _. apply says_ret. split; [done|].
  case_match; simpl; auto with pmux.
Qed.

Lemma budget_says d m X : says (InputGateBudget_new d m) (silent clean) X.
Proof.
  apply says_check; [|intros _|by split].
  { apply says_ret. split; [done|]. unfold validate_turn_deadline_domain. by case_match. }
  apply says_check; [apply now_unix_ms_says|intros now|by split].
  apply says_check; [|intros left|by split].
  { apply says_ret. split; [done|]. by destruct (_ ≫= _). }
  apply (says_step _ _ (fun _ => True)); [by apply says_read_instant|]. intros i _. apply says_ret. split; [done|].
  by destruct (checked_add _ _ _).
Qed.

Lemma require_lease_says m X : says (require_lease m) (silent clean) X.
Proof. apply says_ask_step. intros x. apply says_ret. split; [done|]. by destruct x. Qed.

Lemma require_terminal_says X : says require_terminal (silent clean) X.
Proof. apply says_ask_step. intros x. apply says_ret. split; [done|]. by destruct x. Qed.

Lemma silent_quietly {A} (m : G (DriverResult A)) X :
  says m (silent clean) X -> says m (quietly (fun _ _ => True)) X.
Proof. intros Hm. eapply says_mono; [exact Hm| |done]. intros r t [-> Hr]. split; [apply reads_nil|]. by destruct r. Qed.

Lemma arm_lifecycle_says X : says arm_lifecycle (quietly (fun _ _ => True)) X.
Proof.
  apply says_ask_step. intros n. eapply says_bind; [by apply (says_log _ (fun _ t => t = [Baselined n]))|]. intros [] t ->.
  eapply says_mono; [apply silent_quietly, require_terminal_says| |intros e t He; exact He]. intros r t [Hr Hq].
  split; [by constructor|done].
Qed.

Lemma expiry_says budget f X : unmarked f -> says (expiry budget f) (silent unmarked) X.
Proof.
  intros Hf. eapply says_step; [apply now_unix_ms_says|]. intros [now|e] He; apply says_ret; (split; [done|]);
    [by case_match|exact He].
Qed.

Definition fails {A} (r : DriverResult A) : Prop := exists f, r = Err f /\ unmarked f.

Lemma expired_says {A} budget f X : unmarked f -> says (expired_with (A := A) budget f) (silent fails) X.
Proof. intros Hf. eapply says_step; [by apply expiry_says|]. intros e He. apply says_ret. split; [done|by exists e]. Qed.

Lemma fail_backend_says {A} e X : says (fail_backend (A := A) e) (silent fails) X.
Proof.
  apply (says_step _ _ unmarked); [|intros f Hf; apply says_ret; split; [done|by exists f]].
  destruct e; try (apply says_ret; by split). apply says_ask_step. intros x. by apply says_ret.
Qed.

Lemma quietly_failed {A} (Q : A -> list PtyEvent -> Prop) f t : reads t -> unmarked f -> quietly Q (Err f) t.
Proof. by split. Qed.
Lemma quietly_silent {A} (Q : A -> list PtyEvent -> Prop) r t : silent fails r t -> quietly Q r t.
Proof. intros [-> (f & -> & Hf)]. split; auto with pmux. Qed.
Hint Resolve quietly_failed quietly_silent : pmux.

(** A read shows what it returns. *)
Lemma gated_read_says {A} answer (event : A -> PtyEvent) budget b X :
  (forall x, is_write (event x) = false) ->
  says (gated_read answer event budget b) (quietly (fun x t => t = [event x])) X.
Proof.
  intros Hev. apply says_check; [apply require_lease_says|intros _|auto with pmux].
  apply says_check; [apply remaining_says|intros _|auto with pmux]. apply says_ask_step. intros [[x|e]|].
  - apply says_check; [apply require_lease_says|intros _|auto with pmux].
    apply says_check; [apply remaining_says|intros _|auto with pmux].
    eapply says_bind; [by apply (says_log _ (fun _ t => t = [event x]))|]. intros _ t ->.
    apply says_ret. split; auto with pmux.
  - eapply says_mono; [apply fail_backend_says|auto with pmux|done].
  - eapply says_mono; [apply expired_says, phase_unmarked|auto with pmux|done].
Qed.

Lemma sleep_says budget b X : says (sleep_for_input_poll budget b) (quietly (fun _ t => t = [Waited])) X.
Proof.
  apply says_check; [apply remaining_says|intros _|auto with pmux].
  eapply says_bind; [by apply (says_log _ (fun _ t => t = [Waited]))|]. intros _ t ->.
  apply says_check; [apply remaining_says|intros _|]; [apply says_ret|]; [split; [|done]|intros f Hf]; auto with pmux.
Qed.

Lemma stamp_says X : says stamp (fun now t => t = [At now]) X.
Proof.
  eapply says_bind; [by apply (says_read_instant _ (fun _ t => t = []))|]. intros now t ->.
  eapply says_bind; [by apply (says_log _ (fun _ t => t = [At now]))|]. intros _ t ->. by apply says_ret.
Qed.

(** What a candidate stands for: the stretch the trace ends in. *)
Definition candidate_ok {A} (P : A -> TerminalSnapshot -> Prop) (c : option (A * N)) (t : list PtyEvent) : Prop :=
  match c with
  | Some (x, since) => exists mid, stretch (P x) t since mid
  | None => True
  end.

Lemma see_says {A} `{EqDecision A} (P : A -> TerminalSnapshot -> Prop) c x t e s X :
  candidate_ok P c t -> screen_of e = Some s -> P x s ->
  says (see c x) (fun p t' => reads t' /\ screens t' = [] /\ p.1 = x /\ candidate_ok P (Some p) ((t ++ [e]) ++ t')) X.
Proof.
  intros Hc He Hs.
  assert (Hnew : says (let% now := stamp in tret (x, now))
    (fun p t' => reads t' /\ screens t' = [] /\ p.1 = x /\ candidate_ok P (Some p) ((t ++ [e]) ++ t')) X).
  { eapply says_bind; [apply stamp_says|]. intros now t' ->. apply says_ret. rewrite app_nil_r. split; [auto with pmux|].
    split; [done|]. split; [done|]. exists []. rewrite <-app_assoc. by eapply stretch_one. }
  destruct c as [[y since]|]; simpl; [|exact Hnew]. case_bool_decide as Heq; [subst y|exact Hnew].
  apply says_ret. rewrite app_nil_r. split; [auto with pmux|]. split; [done|]. split; [done|].
  destruct Hc as (mid & Hm). exists (mid ++ [e]). apply stretch_app; [done|]. unfold screens. simpl. rewrite He. by constructor.
Qed.

Lemma held_says {A} (P : A -> TerminalSnapshot -> Prop) x since quiet t X :
  candidate_ok P (Some (x, since)) t ->
  says (held since quiet)
    (fun long t' => reads t' /\ screens t' = [] /\ candidate_ok P (Some (x, since)) (t ++ t') /\
       (long = true -> stood (P x) quiet (t ++ t'))) X.
Proof.
  intros (mid & Hm). eapply says_bind; [apply stamp_says|]. intros now t' ->. apply says_ret. rewrite app_nil_r.
  assert (Hm' : stretch (P x) (t ++ [At now]) since (mid ++ [At now])) by (apply stretch_app; [done|constructor]).
  split; [auto with pmux|]. split; [done|]. split; [by exists (mid ++ [At now])|].
  intros Hlong%N.leb_le. by exists since, now, mid.
Qed.

(** ** The loops *)

Lemma candidate_ok_app {A} (P : A -> TerminalSnapshot -> Prop) c t more :
  candidate_ok P c t -> screens more = [] -> candidate_ok P c (t ++ more).
Proof.
  destruct c as [[x since]|]; [|done]. intros (mid & Hm) E. exists (mid ++ more). apply stretch_app; [done|]. by rewrite E.
Qed.

(** Where a round of a gate leaves its candidate, or what it answers. *)
Definition round_ok {C R} (inv : C -> list PtyEvent -> Prop) (ok : R -> list PtyEvent -> Prop)
    (t : list PtyEvent) (r : C + DriverResult R) (t' : list PtyEvent) : Prop :=
  reads t' /\
  match r with
  | inl c => inv c (t ++ t')
  | inr (Ok x) => ok x (t ++ t')
  | inr (Err f) => unmarked f
  end.

Lemma again_says {C R} (inv : C -> list PtyEvent -> Prop) ok budget b c t X :
  inv c (t ++ [Waited]) ->
  says (let% slept := sleep_for_input_poll budget b in
        tret (match slept with Ok _ => inl c | Err failure => inr (Err failure) end : C + DriverResult R))
    (round_ok inv ok t) X.
Proof.
  intros Hc. eapply says_bind; [apply sleep_says|].
  intros [u|f] t' [Hr Ht']; apply says_ret; rewrite app_nil_r; (split; [done|]); [by subst t'|done].
Qed.

(** The last screen read is [s], and it ends a long enough stretch of its like. *)
Definition believed {A} (P : A -> TerminalSnapshot -> Prop) (quiet : N) (s : TerminalSnapshot) (t : list PtyEvent) : Prop :=
  last (screens t) = Some s /\ exists x, P x s /\ stood (P x) quiet t.

Lemma screens_snoc t e s : screen_of e = Some s -> screens (t ++ [e]) = screens t ++ [s].
Proof. intros He. rewrite screens_app. unfold screens at 2. simpl. by rewrite He. Qed.

Lemma last_quiet t t' : screens t' = [] -> last (screens (t ++ t')) = last (screens t).
Proof. intros E. by rewrite screens_app, E, app_nil_r. Qed.

(** The part the gates share: date the screen, and answer once it has held. *)
Lemma settle_says {A C R} `{EqDecision A} (P : A -> TerminalSnapshot -> Prop) (inv : C -> list PtyEvent -> Prop)
    (pack : A * N -> C) (ok : R -> list PtyEvent -> Prop) budget b c x (y : R) quiet t e s X :
  candidate_ok P c t -> screen_of e = Some s -> P x s ->
  (forall p t', p.1 = x -> candidate_ok P (Some p) ((t ++ [e]) ++ t') -> inv (pack p) ((t ++ [e]) ++ t')) ->
  (forall t', believed P quiet s ((t ++ [e]) ++ t') -> ok y ((t ++ [e]) ++ t')) ->
  says (let% p := see c x in
        let% stable := held (snd p) quiet in
        if stable then tret (inr (Ok y))
        else let% slept := sleep_for_input_poll budget b in
             tret (match slept with Ok _ => inl (pack p) | Err failure => inr (Err failure) end : C + DriverResult R))
    (round_ok inv ok (t ++ [e])) X.
Proof.
  intros Hc He Hs Hpack Hok. eapply says_bind; [by eapply see_says|]. intros [x' since] t1 (Hr1 & Hq1 & Hx & Hc1).
  simpl in Hx. subst x'.
  eapply says_bind; [exact (held_says P x since quiet _ _ Hc1)|]. intros long t2 (Hr2 & Hq2 & Hc2 & Hst).
  rewrite <-app_assoc in Hc2, Hst. destruct long.
  - apply says_ret. rewrite app_nil_r. split; [by apply reads_app|]. apply Hok.
    assert (Hq : screens (t1 ++ t2) = []) by (by rewrite screens_app, Hq1, Hq2).
    split; [by rewrite (last_quiet _ _ Hq), (screens_snoc _ _ _ He), last_snoc|]. exists x. split; [done|by apply Hst].
  - eapply says_mono; [apply (again_says inv ok _ _ _ ((t ++ [e]) ++ t1 ++ t2))| |].
    + rewrite <-app_assoc. apply Hpack; [done|]. rewrite app_assoc. by apply candidate_ok_app.
    + intros r t' [Hr3 Hr]. split; [auto with pmux|].
      assert (E : ((t ++ [e]) ++ t1 ++ t2) ++ t' = (t ++ [e]) ++ t1 ++ t2 ++ t') by (by rewrite <-!app_assoc).
      by rewrite E in Hr.
    + intros e' t' H'. exact H'.
Qed.

(** A gate answers only a screen that held, and otherwise types nothing. *)
Lemma gate_loop_says {C R} (inv : C -> list PtyEvent -> Prop) (ok : R -> list PtyEvent -> Prop)
    (body : C -> G (C + DriverResult R)) rounds c :
  inv c [] -> (forall c t, inv c t -> says (body c) (round_ok inv ok t) cut_short) ->
  says (iterate rounds body c) (quietly ok) cut_short.
Proof.
  intros H0 Hbody. apply (says_iterate (fun c t => reads t /\ inv c t)); [| |by split; [apply reads_nil|]].
  - intros c' t [Hr Hc]. eapply says_mono; [by apply Hbody| |].
    + intros [c''|[x|f]] t' [Hr' Hc']; (split; [by apply reads_app|exact Hc']).
    + intros e t' [-> Hr']. split; [done|by apply reads_app].
  - intros c' t [Hr Hc]. by split.
Qed.

(** A round begins with a read. *)
Lemma after_read_says {C R} (inv : C -> list PtyEvent -> Prop) (ok : R -> list PtyEvent -> Prop)
    {B} (m : G (DriverResult B)) (event : B -> PtyEvent) (k : B -> G (C + DriverResult R)) t X :
  says m (quietly (fun x t => t = [event x])) X ->
  (forall x, is_write (event x) = false) ->
  (forall x, says (k x) (round_ok inv ok (t ++ [event x])) (fun e t' => X e ([event x] ++ t'))) ->
  says (let% read := m in match read with Err failure => tret (inr (Err failure)) | Ok x => k x end) (round_ok inv ok t) X.
Proof.
  intros Hm Hev Hk. eapply says_bind; [exact Hm|]. intros [x|f] t' [Hr Ht'].
  - subst t'. eapply says_mono; [apply Hk| |done]. intros r t' [Hr' H']. split; [by apply reads_app|].
    rewrite app_assoc. exact H'.
  - apply says_ret. rewrite app_nil_r. by split.
Qed.

Lemma round_failed {C R} (inv : C -> list PtyEvent -> Prop) (ok : R -> list PtyEvent -> Prop) t f X :
  unmarked f -> says (tret (inr (Err f) : C + DriverResult R)) (round_ok inv ok t) X.
Proof. intros Hf. apply says_ret. split; auto with pmux. Qed.

Lemma wait_for_stable_empty_editor_says rounds budget quiet :
  says (wait_for_stable_empty_editor rounds budget quiet) (quietly (believed shows_empty quiet)) cut_short.
Proof.
  apply (gate_loop_says (candidate_ok shows_empty)); [done|]. intros c t Hc.
  apply (after_read_says _ _ _ Snapped); [by apply gated_read_says|done|]. intros s.
  destruct (classify_terminal_snapshot s) eqn:Hcl; try (apply again_says; done); [|apply round_failed; auto with pmux].
  destruct (empty_editor s) as [editor|] eqn:Hed; [|apply round_failed; auto with pmux].
  apply (settle_says shows_empty (candidate_ok shows_empty) Some _ _ _ _ _ _ _ _ (Snapped s) s); try done. split; [done|]. by exists editor.
Qed.

Lemma proven_has_editor s revision baseline prompt :
  rendered_prompt_is_proven s revision baseline prompt = true -> is_Some (active_editor s).
Proof. unfold rendered_prompt_is_proven. by destruct (active_editor s). Qed.

Lemma wait_for_stable_prompt_render_says rounds budget baseline editor prompt quiet :
  says (wait_for_stable_prompt_render rounds budget baseline editor prompt quiet)
    (quietly (believed (shows_prompt baseline editor prompt) quiet)) cut_short.
Proof.
  apply (gate_loop_says (candidate_ok (shows_prompt baseline editor prompt))); [done|]. intros c t Hc.
  apply (after_read_says _ _ _ Snapped); [by apply gated_read_says|done|]. intros s.
  destruct (rendered_prompt_is_proven _ _ _ _) eqn:Hp.
  - destruct (proven_has_editor _ _ _ _ Hp) as [ed Hed]. rewrite Hed.
    apply (settle_says (shows_prompt baseline editor prompt) (candidate_ok (shows_prompt baseline editor prompt)) Some _ _ _ _ _ _ _ _ (Snapped s) s); try done. split; [done|]. by exists ed.
  - destruct (modal_screen s); [apply round_failed; auto with pmux|]. by apply again_says.
Qed.

(** ** The fences *)

(** The screen [s] held, and the next read showed it again: the trace up to that read. *)
Definition fenced {A} (P : A -> TerminalSnapshot -> Prop) (quiet : N) (s : TerminalSnapshot) (t : list PtyEvent) : Prop :=
  exists t0, t = t0 ++ [Snapped s] /\ believed P quiet s t0 /\ reads t0.

Lemma believed_prefix {A} (P : A -> TerminalSnapshot -> Prop) quiet s t0 t :
  believed P quiet s t -> believed P quiet s (t0 ++ t).
Proof.
  intros (Hl & x & Hx & Hst). split; [|exists x; split; [done|by apply stood_prefix]].
  rewrite screens_app. apply last_app_Some. by left.
Qed.

Lemma fenced_prefix {A} (P : A -> TerminalSnapshot -> Prop) quiet s t0 t :
  reads t0 -> fenced P quiet s t -> fenced P quiet s (t0 ++ t).
Proof.
  intros Hr (t1 & -> & Hb & Hr1). exists (t0 ++ t1). split; [by rewrite app_assoc|].
  split; [by apply believed_prefix|by apply reads_app].
Qed.

Lemma prove_stable_empty_editor_says rounds budget quiet :
  says (prove_stable_empty_editor rounds budget quiet)
    (quietly (fun p t => empty_editor p.1 = Some p.2 /\ fenced shows_empty quiet p.1 t)) cut_short.
Proof.
  apply (says_iterate (fun _ t => reads t)); [|by split|apply reads_nil]. intros [] t Hr.
  eapply says_bind; [eapply says_mono; [apply wait_for_stable_empty_editor_says|done|]|].
  { intros e t' [-> Hr']. split; [done|by apply reads_app]. }
  intros [s|f] t1 [Hr1 H1]; [|apply says_ret; rewrite app_nil_r; split; auto with pmux].
  destruct (empty_editor s) as [editor|] eqn:Hed; [|apply says_ret; rewrite app_nil_r; split; auto with pmux].
  eapply says_bind; [by apply gated_read_says|]. intros [s2|f] t2 [Hr2 H2];
    [|apply says_ret; rewrite app_nil_r; split; auto with pmux].
  case_bool_decide as Heq.
  - subst s2 t2. apply says_ret. rewrite app_nil_r. split; [auto with pmux|]. split; [done|].
    apply fenced_prefix; [done|]. by exists t1.
  - destruct (modal_screen s2); apply says_ret; rewrite app_nil_r; [split|]; auto with pmux.
Qed.

Lemma confirm_says rounds rounds' budget baseline editor prompt quiet :
  says (iterate rounds (confirm_round rounds' budget baseline editor prompt quiet) tt)
    (quietly (fun _ t => exists s, fenced (shows_prompt baseline editor prompt) quiet s t)) cut_short.
Proof.
  apply (says_iterate (fun _ t => reads t)); [|by split|apply reads_nil]. intros [] t Hr.
  eapply says_bind; [eapply says_mono; [apply wait_for_stable_prompt_render_says|done|]|].
  { intros e t' [-> Hr']. split; [done|by apply reads_app]. }
  intros [s|f] t1 [Hr1 H1]; [|apply says_ret; rewrite app_nil_r; split; auto with pmux].
  assert (Hed : is_Some (active_editor s)).
  { destruct H1 as (_ & x & (Hp & _) & _). by eapply proven_has_editor. }
  destruct Hed as [ed Hed]. rewrite Hed.
  eapply says_bind; [by apply gated_read_says|]. intros [s2|f] t2 [Hr2 H2];
    [|apply says_ret; rewrite app_nil_r; split; auto with pmux].
  case_match eqn:Hsame.
  - rewrite !andb_true_iff in Hsame. destruct Hsame as [[->%bool_decide_eq_true _] _]. subst t2.
    apply says_ret. rewrite app_nil_r. split; [auto with pmux|]. exists s. apply fenced_prefix; [done|]. by exists t1.
  - destruct (modal_screen s2); apply says_ret; rewrite app_nil_r; [split|]; auto with pmux.
Qed.

(** ** The writes *)

Lemma paste_once_says budget text X :
  says (paste_once budget text)
    (fun r t => clean r /\ (t = [Pasting text] \/ t = [] /\ exists f, r = Err f)) X.
Proof.
  apply says_check; [apply remaining_says|intros _|]; [|by intros f Hf; split; [|right; split; [|exists f]]].
  eapply says_bind; [by apply (says_log _ (fun _ t => t = [Pasting text]))|]. intros _ t ->.
  apply says_ask_step. intros [[[]|e]|].
  - apply says_ret. by split; [|left].
  - apply says_ret. by split; [|left].
  - eapply says_mono; [by apply expired_says|intros r t [-> (f & -> & Hf)]; by split; [|left]|].
    intros e t He. exact He.
Qed.

Definition result_sent {A} (r : DriverResult A) : bool :=
  match r with Ok _ => true | Err f => enter_was_attempted f end.

Lemma enter_once_says budget X :
  says (enter_once budget) (fun r t => t = if result_sent r then [Entering] else []) X.
Proof.
  assert (Hf : forall f, unmarked f -> [] = if result_sent (Err (A := unit) f) then [Entering] else []).
  { intros f Hf. simpl. by rewrite Hf. }
  apply says_check; [apply require_lease_says|intros _|exact Hf].
  apply says_check; [apply remaining_says|intros _|exact Hf].
  eapply says_bind; [by apply (says_log _ (fun _ t => t = [Entering]))|]. intros _ t ->.
  apply says_ask_step. intros [[[]|e]|]; [by apply says_ret..|].
  eapply (says_step _ _ (fun _ => True)).
  - apply (says_step _ _ (fun _ => True)); [|by intros n _; apply says_ret].
    eapply says_mono; [apply now_unix_ms_says|by intros r t [-> _]|intros e t He; exact He].
  - intros f _. apply says_ret. simpl. unfold enter_was_attempted, mark_enter_attempted. by rewrite marked_mark.
Qed.

(** How far the typing of [text] got, and whether Enter was sent: nothing was typed; or
    the text was, once, over a composer that had been empty for long enough and still was
    at the last read; or Enter followed, once, on a rendering that satisfies [shows]. *)
Inductive typed (quiet : N) (text : list N) (shows : TerminalSnapshot -> ActiveEditor -> list PtyEvent -> Prop) :
    bool -> list PtyEvent -> Prop :=
| typed_nothing t : reads t -> typed quiet text shows false t
| typed_pasted before s editor t :
    empty_editor s = Some editor -> fenced shows_empty quiet s before -> reads t ->
    typed quiet text shows false (before ++ [Pasting text] ++ t)
| typed_entered before s editor t :
    empty_editor s = Some editor -> fenced shows_empty quiet s before -> reads t -> shows s editor t ->
    typed quiet text shows true (before ++ [Pasting text] ++ t ++ [Entering]).

(** Whether Enter was sent, as the caller is told. *)
Definition sent {A} (o : outcome (DriverResult A)) : bool :=
  match o with Done r => result_sent r | Ended _ => false end.

(** Enter, or nothing typed. *)
Definition enters (shows : list PtyEvent -> Prop) (r : DriverResult unit) (t : list PtyEvent) : Prop :=
  if result_sent r then exists t0, t = t0 ++ [Entering] /\ reads t0 /\ shows t0 else reads t.

Lemma enter_on_proof_says {B} budget (proof : G (DriverResult B)) shows :
  says proof (quietly (fun _ => shows)) cut_short ->
  says (let%? _ := proof in enter_once budget) (enters shows) cut_short.
Proof.
  intros Hproof. eapply says_try; [exact Hproof| |].
  - intros x t [Hr Hs]. eapply says_mono; [apply enter_once_says| |intros e t' He; exact He]. intros r t' ->. unfold enters.
    destruct (result_sent r); [by exists t|by rewrite app_nil_r].
  - intros f t [Hr Hf]. unfold enters. simpl. by rewrite Hf.
Qed.

Lemma typed_prefix quiet text shows sent t0 t :
  reads t0 -> typed quiet text shows sent t -> typed quiet text shows sent (t0 ++ t).
Proof.
  intros Hr []; [constructor; by apply reads_app|rewrite app_assoc|rewrite app_assoc].
  - by apply (typed_pasted _ _ _ _ s editor); [|apply fenced_prefix|].
  - by apply (typed_entered _ _ _ _ s editor); [|apply fenced_prefix|..].
Qed.

(** The part the prompt and the commands share. *)
Lemma typing_says rounds self deadline text (take_terminal : G (DriverResult unit)) (rest : InputGateBudget -> TerminalSnapshot * ActiveEditor -> G (DriverResult unit))
    (shows : TerminalSnapshot -> ActiveEditor -> list PtyEvent -> Prop) :
  (forall budget s editor, empty_editor s = Some editor ->
     says (rest budget (s, editor)) (enters (shows s editor)) cut_short) ->
  says take_terminal (quietly (fun _ _ => True)) (fun _ _ => False) ->
  says
    (let%? budget := InputGateBudget_new deadline (rt_input_gate_timeout self) in
     let%? _ := take_terminal in
     let%? fenced := prove_stable_empty_editor rounds budget (rt_quiet_for self) in
     let%? _ := paste_once budget text in
     rest budget fenced)
    (fun r t => typed (rt_quiet_for self) text shows (result_sent r) t)
    (fun e t => e = OutOfRounds /\ typed (rt_quiet_for self) text shows false t).
Proof.
  intros Hrest Htake. set (quiet := rt_quiet_for self).
  assert (Hnone : forall f t, reads t -> unmarked f -> typed quiet text shows (result_sent (Err (A := unit) f)) t).
  { intros f t Hr Hf. simpl. rewrite Hf. by constructor. }
  apply says_check; [apply budget_says|intros budget|auto with pmux].
  eapply (says_try _ _ (quietly (fun _ _ => True))); [eapply says_mono; [exact Htake|done|done]|intros _ t0 [Hr0 _]|].
  2: { intros f t [Hr Hf]. by apply Hnone. }
  eapply (says_mono _ (fun r t => typed quiet text shows (result_sent r) t)
    (fun r t => typed quiet text shows (result_sent r) (t0 ++ t)) (fun e t => e = OutOfRounds /\ typed quiet text shows false t));
    [|intros r t; by apply typed_prefix|intros e t [-> Ht]; split; [done|by apply typed_prefix]].
  eapply says_try; [eapply says_mono; [apply prove_stable_empty_editor_says|done|]| |].
  { intros e t [-> Hr]. split; [done|by constructor]. }
  2: { intros f t [Hr Hf]. by apply Hnone. }
  intros [s editor] before (Hb & Hed & Hfence). simpl in Hed, Hfence.
  assert (Hpasted : forall t, reads t -> typed quiet text shows false (before ++ [Pasting text] ++ t)).
  { intros t Hr. by apply (typed_pasted _ _ _ _ s editor). }
  eapply says_try; [apply paste_once_says| |].
  2: { intros f t (Hf & [->|[-> _]]); [|rewrite app_nil_r; by apply Hnone].
       simpl. rewrite Hf. apply (Hpasted []), reads_nil. }
  intros [] t (_ & [->|[_ [f Hf]]]); [|discriminate].
  eapply says_mono; [by apply Hrest| |].
  - intros r t Ht. unfold enters in Ht. destruct (result_sent r); [|by apply Hpasted].
    destruct Ht as (t1 & -> & Hr & Hshows). by apply (typed_entered _ _ _ _ s editor).
  - intros e t [-> Hr]. split; [done|by apply Hpasted].
Qed.

(** ** The control channel *)

(** A screen that differs from the one before the command was typed, with this text. *)
Definition shows_change (baseline s' s : TerminalSnapshot) : Prop :=
  s = s' /\ sn_revision s <> 0 /\ sn_revision s <> sn_revision baseline /\ s <> baseline.

(** The frame the gate settled on was read, with the text of the screen that held. *)
Definition settled_on (baseline : TerminalSnapshot) (quiet : N) (screen : StyledScreen) (t : list PtyEvent) : Prop :=
  Styled screen ∈ t /\ believed (shows_change baseline) quiet (to_terminal_snapshot screen) t.

Definition control_inv (baseline : TerminalSnapshot) (c : option (StyledScreen * (TerminalSnapshot * N))) (t : list PtyEvent) : Prop :=
  candidate_ok (shows_change baseline) (snd <$> c) t /\
  forall first p, c = Some (first, p) -> Styled first ∈ t /\ to_terminal_snapshot first = p.1.

Lemma wait_for_stable_control_render_says rounds budget baseline quiet :
  says (wait_for_stable_control_render rounds budget baseline quiet) (quietly (settled_on baseline quiet)) cut_short.
Proof.
  apply (gate_loop_says (control_inv baseline)); [by split|]. intros c t [Hc Hfirst].
  apply (after_read_says _ _ _ Styled); [by apply gated_read_says|done|]. intros screen.
  case_match eqn:Hch.
  - rewrite !andb_true_iff, !negb_true_iff, !N.eqb_neq, bool_decide_eq_false in Hch. destruct Hch as [[Hr0 Hrb] Hne].
    set (settled := match c with
      | Some (first, (observed, _)) => if bool_decide (observed = to_terminal_snapshot screen) then first else screen
      | None => screen end).
    assert (Hs : forall t', Styled settled ∈ (t ++ [Styled screen]) ++ t' /\ to_terminal_snapshot settled = to_terminal_snapshot screen).
    { intros t'. subst settled. destruct c as [[first [observed since]]|]; [|split; [set_solver|done]].
      case_bool_decide as Ho; [|split; [set_solver|done]]. destruct (Hfirst first (observed, since) eq_refl) as [Hin Heq].
      split; [set_solver|]. by rewrite Heq. }
    apply (settle_says (shows_change baseline) (control_inv baseline) (fun p => Some (settled, p)) _ _ _ _ _ _ _ _
             (Styled screen) (to_terminal_snapshot screen)); try done.
    + intros p t' Hp Hcand. split; [done|]. intros f q [= <- <-]. rewrite Hp. apply Hs.
    + intros t' Hb. split; [apply Hs|]. by rewrite (proj2 (Hs t')).
  - destruct (modal_screen _); [apply round_failed; auto with pmux|]. by apply again_says.
Qed.

End Proofs.
