(* ===== verification/GateTheorems.v ===== *)
(** * The input gate is exact

    What a submission types, that its caller is told whether Enter was sent, and that it
    answers once the turn's deadline has passed. *)

From S2P Require Import Prelude Text Protocol Composer Transcript Session Screen Backend Menu Task Gate GateProofs.

(** ** Every submission ends *)

Section Ends.
Context `{Pty}.
Variable deadline : N.
Variable n : nat.
(** From the [n]th reading on the clock shows the deadline, or cannot be read. *)
Hypothesis late : forall k ms, (n <= k)%nat -> unix_clock k = Some ms -> deadline <= ms.

(** [halts m P]: [m] ends, and a result in [P] shows that the deadline had not passed. *)
Definition halts {A} (m : G A) (P : A -> bool) : Prop :=
  forall w, twp m w
    (fun x w' => (tk_clocks w <= tk_clocks w')%nat /\
       (P x = true -> (tk_clocks w < tk_clocks w')%nat /\ (tk_clocks w < n)%nat)) (fun _ _ => False).

Abbreviation any := (fun _ => false).

Lemma halts_mono {A} (m : G A) (P P' : A -> bool) : halts m P -> (forall x, P' x = true -> P x = true) -> halts m P'.
Proof. intros Hm HP w. eapply twp_mono; [apply Hm| |done]. naive_solver. Qed.

Lemma halts_any {A} (m : G A) P : halts m P -> halts m any.
Proof. intros Hm. by eapply halts_mono. Qed.

Lemma halts_ret {A} (x : A) : halts (tret x) any.
Proof. intros w. by split. Qed.

Lemma halts_bind {A B} (m : G A) (k : A -> G B) P Q :
  halts m P -> (forall x, halts (k x) (fun y => Q y && negb (P x))) -> halts (tbind m k) Q.
Proof.
  intros Hm Hk w. apply twp_bind. eapply twp_mono; [apply Hm| |done]. intros x w' [Hle HP].
  eapply twp_mono; [apply Hk| |done]. intros y w'' [Hle' HQ]. split; [lia|]. intros Hy. rewrite Hy in HQ. simpl in HQ.
  destruct (P x); [specialize (HP eq_refl)|specialize (HQ eq_refl)]; lia.
Qed.

Lemma halts_step {A B} (m : G A) (k : A -> G B) Q :
  halts m any -> (forall x, halts (k x) Q) -> halts (tbind m k) Q.
Proof. intros Hm Hk. eapply halts_bind; [exact Hm|]. intros x. eapply halts_mono; [apply Hk|]. intros y. by rewrite andb_true_r. Qed.

(** Once the deadline was seen to lie ahead, nothing more is asked of the rest. *)
Lemma halts_pass {A B} (m : G (DriverResult A)) (k : DriverResult A -> G B) Q :
  halts m is_ok -> (forall x, halts (k (Ok x)) any) -> (forall f, halts (k (Err f)) Q) -> halts (tbind m k) Q.
Proof.
  intros Hm Hk He. eapply halts_bind; [exact Hm|]. intros [x|f]; simpl.
  - eapply halts_mono; [apply Hk|]. intros y. by rewrite andb_false_r.
  - eapply halts_mono; [apply He|]. intros y. by rewrite andb_true_r.
Qed.

Lemma halts_ret_as {A} (x : A) Q : Q x = false -> halts (tret x) Q.
Proof. intros HQ w. split; [done|]. simpl. by rewrite HQ. Qed.

Lemma halts_ask {A} (answers : nat -> A) : halts (ask answers) any.
Proof. intros w. by split. Qed.
Lemma halts_instant {A} (answers : nat -> A) : halts (read_instant answers) any.
Proof. intros w. by split. Qed.
Lemma halts_log e : halts (log e) any.
Proof. intros w. by split. Qed.

Lemma halts_iterate {L R} (body : L -> G (L + R)) rounds l :
  (forall l, halts (body l) (fun r => match r with inl _ => true | inr _ => false end)) ->
  (n < rounds)%nat -> halts (iterate rounds body l) any.
Proof.
  intros Hbody Hn w0.
  apply (twp_iterate_measure (fun _ w => tk_clocks w0 <= tk_clocks w)%nat (fun w => n - tk_clocks w)%nat); [|done|lia].
  intros l' w Hw. eapply twp_mono; [apply Hbody| |done]. intros [l''|x] w' [Hle Hp]; [|by split; [lia|]].
  specialize (Hp eq_refl). lia.
Qed.

(** ** The parts *)

Lemma now_halts : halts now_unix_ms any.
Proof. intros w. unfold now_unix_ms. apply twp_bind. apply twp_read_clock. intros w' _ Hc _. apply twp_ret. split; [lia|done]. Qed.

Lemma ensure_halts : halts (ensure_before_turn_deadline deadline) is_ok.
Proof.
  intros w. unfold ensure_before_turn_deadline. apply twp_try. unfold lift. apply twp_ret.
  destruct (validate_turn_deadline_domain deadline); [|by split].
  apply twp_try. unfold now_unix_ms. apply twp_bind. apply twp_read_clock. intros w' _ Hc _. apply twp_ret.
  destruct (unix_clock (tk_clocks w)) as [ms|] eqn:Hclock; simpl; [|split; [lia|done]].
  unfold protocol_milliseconds. destruct (_ && _); [|split; [lia|done]]. apply twp_ret.
  split; [lia|]. destruct (deadline <=? _) eqn:Hd; [by intros [=]|]. intros _. split; [lia|]. apply N.leb_gt in Hd.
  destruct (decide (n <= tk_clocks w)%nat) as [Hn|]; [|lia]. specialize (late _ _ Hn Hclock). lia.
Qed.

Lemma remaining_halts budget b : bg_turn_deadline_unix_ms budget = deadline -> halts (remaining budget b) is_ok.
Proof.
  intros Hb. unfold remaining. rewrite Hb. apply halts_pass; [apply ensure_halts| |by intros f; apply halts_ret_as].
  intros x. apply halts_step; [apply halts_instant|]. intros now. apply halts_ret.
Qed.


(** A program whose parts end, ends. *)
Create HintDb halting.

Ltac halt :=
  lazymatch goal with
  | |- forall _, _ => let x := fresh "x" in intros x; cbv zeta beta; halt
  | |- halts (tret _) _ => apply halts_ret
  | |- halts (ask _) _ => apply halts_ask
  | |- halts (log _) _ => apply halts_log
  | |- halts (read_instant _) _ => apply halts_instant
  | |- halts (lift _) _ => apply halts_ret
  | |- halts (tbind _ _) _ => apply halts_step; halt
  | |- halts (ttry _ _) _ => apply halts_step; halt
  | |- halts (match ?x with _ => _ end) _ => destruct x; cbv zeta beta; halt
  | |- halts _ _ => solve [eauto with halting | eapply halts_any; eauto with halting]
  end.

Hint Resolve now_halts ensure_halts remaining_halts : halting.

(** What a part adds to the trace may tell how it went. *)
Lemma halts_step_says {A B} (m : G A) (k : A -> G B) P X Q :
  says m P X -> halts m any -> (forall x t, P x t -> halts (k x) Q) -> halts (tbind m k) Q.
Proof.
  intros Hs Hm Hk w. specialize (Hs w). specialize (Hm w). unfold twp, tbind in *.
  destruct (m w) as [[x|e] w']; [|done]. destruct Hs as (t & _ & Hx). destruct Hm as [Hle _].
  specialize (Hk x t Hx w'). unfold twp in Hk. destruct (k x w') as [[y|e] w'']; [|done].
  destruct Hk as [Hle' HQ]. split; [lia|]. intros Hy. specialize (HQ Hy). lia.
Qed.

Section Budget.
Variable budget : InputGateBudget.
Hypothesis Hbudget : bg_turn_deadline_unix_ms budget = deadline.

Lemma gated_read_halts {A} answer (event : A -> PtyEvent) b : halts (gated_read answer event budget b) is_ok.
Proof.
  apply halts_step; [unfold require_lease; halt|]. intros [[]|f]; [|by apply halts_ret_as].
  apply halts_pass; [by apply remaining_halts| |by intros f; apply halts_ret_as].
  unfold require_lease, expired_with, expiry, fail_backend, map_terminal_error. halt.
Qed.
Hint Resolve gated_read_halts : halting.

Lemma sleep_halts b : halts (sleep_for_input_poll budget b) any.
Proof. unfold sleep_for_input_poll. halt. Qed.
Hint Resolve sleep_halts : halting.

Lemma see_halts {A} `{EqDecision A} c (x : A) : halts (see c x) any.
Proof. unfold see, stamp. halt. Qed.
Lemma held_halts since quiet : halts (held since quiet) any.
Proof. unfold held, stamp. halt. Qed.
Hint Resolve see_halts held_halts : halting.

Abbreviation goes_on := (fun r => match r with inl _ => true | inr _ => false end).

Lemma empty_round_halts quiet c : halts (empty_round budget quiet c) goes_on.
Proof. apply halts_pass; [apply gated_read_halts|unfold empty_editor; halt|by intros f; apply halts_ret_as]. Qed.

Lemma render_round_halts baseline editor prompt quiet c :
  halts (render_round budget baseline editor prompt quiet c) goes_on.
Proof.
  apply halts_pass; [apply gated_read_halts| |by intros f; apply halts_ret_as]. intros s. cbv zeta beta.
  destruct (rendered_prompt_is_proven _ _ _ _) eqn:Hp; [|halt].
  destruct (proven_has_editor _ _ _ _ Hp) as [ed Hed]. rewrite Hed. halt.
Qed.

Lemma control_round_halts baseline quiet c : halts (control_round budget baseline quiet c) goes_on.
Proof. apply halts_pass; [apply gated_read_halts|halt|by intros f; apply halts_ret_as]. Qed.

Variable rounds : nat.
Hypothesis Hrounds : (n < rounds)%nat.

Lemma prove_stable_empty_editor_halts quiet : halts (prove_stable_empty_editor rounds budget quiet) any.
Proof.
  apply halts_iterate; [|done]. intros l. apply halts_step; [apply halts_iterate; [apply empty_round_halts|done]|].
  intros [s|f]; [|by apply halts_ret_as]. destruct (empty_editor s); [|by apply halts_ret_as].
  apply halts_pass; [apply gated_read_halts|halt|by intros f; apply halts_ret_as].
Qed.

Lemma wait_for_stable_prompt_render_halts baseline editor prompt quiet :
  halts (wait_for_stable_prompt_render rounds budget baseline editor prompt quiet) any.
Proof. apply halts_iterate; [apply render_round_halts|done]. Qed.

Lemma paste_halts text : halts (paste_once budget text) any.
Proof. unfold paste_once, expired_with, expiry. halt. Qed.
Lemma enter_halts : halts (enter_once budget) any.
Proof. unfold enter_once, require_lease, expiry. halt. Qed.
Lemma require_terminal_halts : halts require_terminal any.
Proof. unfold require_terminal. halt. Qed.
Lemma arm_lifecycle_halts : halts arm_lifecycle any.
Proof. unfold arm_lifecycle, require_terminal. halt. Qed.

Lemma confirm_halts baseline editor prompt quiet :
  halts (iterate rounds (confirm_round rounds budget baseline editor prompt quiet) tt) any.
Proof.
  apply halts_iterate; [|done]. intros l.
  eapply halts_step_says; [apply wait_for_stable_prompt_render_says|apply wait_for_stable_prompt_render_halts|].
  intros [s|f] t [_ Hs]; [|by apply halts_ret_as]. destruct Hs as (_ & x & (_ & ed & Hed & _) & _). rewrite Hed.
  apply halts_pass; [apply gated_read_halts|halt|by intros f; apply halts_ret_as].
Qed.

Lemma wait_for_stable_control_render_halts baseline quiet :
  halts (wait_for_stable_control_render rounds budget baseline quiet) any.
Proof. apply halts_iterate; [apply control_round_halts|done]. Qed.

End Budget.

Hint Resolve prove_stable_empty_editor_halts paste_halts enter_halts require_terminal_halts arm_lifecycle_halts confirm_halts
  wait_for_stable_control_render_halts : halting.

(** A budget carries the deadline it was made for. *)
Lemma budget_says_deadline d m X :
  says (InputGateBudget_new d m) (fun r _ => forall budget, r = Ok budget -> bg_turn_deadline_unix_ms budget = d) X.
Proof.
  assert (Hsub : forall A (r : DriverResult A) X, says (lift r) (fun _ _ => True) X) by (intros; by apply says_ret).
  eapply says_try; [apply Hsub|intros _ t _|done].
  eapply says_try; [eapply says_mono; [apply now_unix_ms_says|done|intros e t' He; exact He]|intros now t1 _|done].
  eapply says_try; [apply Hsub|intros left t2 _|done].
  eapply says_bind; [by apply (says_read_instant _ (fun _ _ => True))|]. intros i t3 _. apply says_ret. intros budget.
  destruct (checked_add _ _ _); [|done]. by intros [= <-].
Qed.

Lemma budget_halts m : halts (InputGateBudget_new deadline m) any.
Proof. unfold InputGateBudget_new. halt. Qed.

Variable rounds : nat.
Hypothesis Hrounds : (n < rounds)%nat.

Lemma typing_halts {B} self (body : InputGateBudget -> G (DriverResult B)) :
  (forall budget, bg_turn_deadline_unix_ms budget = deadline -> halts (body budget) any) ->
  halts (let%? budget := InputGateBudget_new deadline (rt_input_gate_timeout self) in body budget) any.
Proof.
  intros Hbody. eapply halts_step_says; [exact (budget_says_deadline _ _ (fun _ _ => True))|apply budget_halts|].
  intros [budget|f] t Hd; [by apply Hbody, Hd|apply halts_ret].
Qed.

Lemma submit_prompt_halts nfc self prompt : halts (submit_prompt nfc rounds self prompt deadline) any.
Proof.
  apply halts_step; [apply halts_ret|]. intros [p|f]; [|apply halts_ret]. apply typing_halts. intros budget Hb. halt.
Qed.

Lemma type_control_command_halts self command : halts (type_control_command rounds self command deadline) any.
Proof. apply typing_halts. intros budget Hb. halt. Qed.

End Ends.

Lemma says_try_assoc {A B C} (m : G (DriverResult A)) (k : A -> G (DriverResult B)) (h : B -> G (DriverResult C)) Q X :
  says (ttry (ttry m k) h) Q X -> says (ttry m (fun x => ttry (k x) h)) Q X.
Proof.
  intros Hm w. specialize (Hm w). unfold twp, ttry, tbind in *. destruct (m w) as [[[x|f]|e] w']; exact Hm.
Qed.

Lemma selection_unmarked screen command f : prove_control_command_selection screen command = Err f -> unmarked f.
Proof.
  assert (Hrow : forall literal g, proven_composer_row screen literal = Err g -> unmarked g).
  { intros literal g. unfold proven_composer_row. destruct (_ ≫= _); [|by intros [= <-]]. simpl.
    destruct (prompt_glyph_col _); [|by intros [= <-]]. simpl. destruct (_ ≫= _); [|by intros [= <-]]. simpl.
    destruct (_ || _); [by intros [= <-]|done]. }
  unfold prove_control_command_selection. destruct (proven_composer_row _ _) as [row|g] eqn:Hg.
  2: { intros [= <-]. by eapply Hrow. }
  simpl. case_bool_decide; [by intros [= <-]|]. destruct (composer_command_colour _ _); [|by intros [= <-]].
  destruct (List.filter _ _) as [|selected [|]]; [by intros [= <-]| |by intros [= <-]].
  case_bool_decide; [done|by intros [= <-]].
Qed.

(** The whole of a command. *)
Lemma type_control_command_says `{Pty} rounds self command deadline :
  let shows := fun (baseline : TerminalSnapshot) (_ : ActiveEditor) t =>
    exists screen, settled_on baseline (rt_quiet_for self) screen t /\ prove_control_command_selection screen command = Ok tt in
  says (type_control_command rounds self command deadline)
    (fun r t => typed (rt_quiet_for self) (command_literal command) shows (result_sent r) t)
    (fun e t => e = OutOfRounds /\ typed (rt_quiet_for self) (command_literal command) shows false t).
Proof.
  intros shows. apply (typing_says rounds self deadline (command_literal command) require_terminal
    (fun budget fenced =>
       let%? rendered := wait_for_stable_control_render rounds budget (fst fenced) (rt_quiet_for self) in
       let%? _ := lift (prove_control_command_selection rendered command) in
       enter_once budget)).
  2: apply silent_quietly, require_terminal_says.
  intros budget s editor _. apply says_try_assoc, enter_on_proof_says.
  eapply says_try; [apply wait_for_stable_control_render_says| |by intros f t [Hr Hf]].
  intros screen t [Hr Hset]. unfold lift. apply says_ret. rewrite app_nil_r. split; [done|].
  destruct (prove_control_command_selection screen command) as [[]|f] eqn:Hp; [by exists screen|].
  by eapply selection_unmarked.
Qed.

Section Claims.
Context `{Pty}.
Variable nfc : list N -> list N.

(** C4. A submission types the validated prompt at most once and sends Enter at most once. A
    prompt that is refused touches nothing. The prompt is pasted only when a composer was
    read as empty, unchanged for the quiet period and once more after it; Enter follows
    only when the rows of that composer were proven to be this prompt, unchanged for the
    quiet period and once more after it, and it is the last thing done. The caller is told
    exactly whether Enter was sent: by success, or by the mark on the failure. *)
Theorem prompt_is_typed_exactly rounds self prompt deadline :
  let '(o, w) := submit_prompt nfc rounds self prompt deadline start in
  match validate_prompt nfc prompt with
  | Err e => o = Done (Err (prompt_failure e)) /\ unmarked (prompt_failure e) /\ tk_trace w = []
  | Ok text =>
      typed (rt_quiet_for self) text
        (fun baseline editor t => exists s, fenced (shows_prompt baseline editor text) (rt_quiet_for self) s t)
        (sent o) (tk_trace w)
  end.
Proof.
  destruct (submit_prompt _ _ _ _ _ _) as [o w] eqn:Hrun. unfold submit_prompt, lift in Hrun.
  destruct (validate_prompt nfc prompt) as [text|e] eqn:Hv.
  - assert (Hs := typing_says rounds self deadline text arm_lifecycle
      (fun budget fenced =>
         let%? _ := iterate rounds (confirm_round rounds budget (fst fenced) (snd fenced) text (rt_quiet_for self)) tt in
         enter_once budget)
      (fun baseline editor t => exists s, fenced (shows_prompt baseline editor text) (rt_quiet_for self) s t)).
    apply says_run in Hs; [|by intros budget s editor _; apply enter_on_proof_says, confirm_says|apply arm_lifecycle_says].
    simpl in Hrun. unfold ttry at 1, tbind at 1, tret at 1 in Hrun. rewrite Hrun in Hs.
    destruct o as [r|ex]; [exact Hs|exact (proj2 Hs)].
  - injection Hrun as <- <-. split; [done|]. split; [by eapply prompt_refusal_unmarked|done].
Qed.

(** A control command is typed under the same rules, and Enter is sent only when the frame
    the screen settled on was proven to have this command selected in the menu. *)
Theorem command_is_typed_exactly rounds self command deadline :
  let '(o, w) := type_control_command rounds self command deadline start in
  typed (rt_quiet_for self) (command_literal command)
    (fun baseline _ t => exists screen, settled_on baseline (rt_quiet_for self) screen t /\
       prove_control_command_selection screen command = Ok tt)
    (sent o) (tk_trace w).
Proof.
  pose proof (says_run _ _ _ (type_control_command_says rounds self command deadline)) as Hs.
  destruct (type_control_command _ _ _ _ _) as [[r|e] w]; [exact Hs|exact (proj2 Hs)].
Qed.

(** Every submission answers: once the clock shows the turn's deadline, or cannot be read,
    from its [n]th reading on, [n + 1] rounds of each loop are enough for an answer, and
    nothing panics on the way. *)
Theorem submission_answers rounds n self prompt command deadline :
  (forall k ms, (n <= k)%nat -> unix_clock k = Some ms -> deadline <= ms) -> (n < rounds)%nat ->
  (exists r w, submit_prompt nfc rounds self prompt deadline start = (Done r, w)) /\
  (exists r w, type_control_command rounds self command deadline start = (Done r, w)).
Proof.
  intros Hlate Hn. split.
  - pose proof (submit_prompt_halts deadline n Hlate rounds Hn nfc self prompt start) as Hs. unfold twp in Hs.
    destruct (submit_prompt _ _ _ _ _ _) as [[r|e] w]; [by exists r, w|done].
  - pose proof (type_control_command_halts deadline n Hlate rounds Hn self command start) as Hs. unfold twp in Hs.
    destruct (type_control_command _ _ _ _ _) as [[r|e] w]; [by exists r, w|done].
Qed.

End Claims.

(** ** The input gate, run

    A terminal that shows an empty composer and then what was pasted into it. *)

Module GateDemo.

Definition row (t : list N) : list StyledCell := (fun c => mkCell [c] Unstyled false) <$> t.
Definition tinted (colour : Z) (t : list N) : list StyledCell := (fun c => mkCell [c] (Explicit colour) false) <$> t.

Definition composer (revision : N) (text : string) : StyledScreen :=
  mkStyled revision 5 20 (Some (mkCursor 1 (2 + N.of_nat (String.length text)) true 0))
    [[]; row [PROMPT_GLYPH; SPACE] ++ tinted 4 (text_of text);
     row [MENU_RULE_GLYPH; MENU_RULE_GLYPH];
     if bool_decide (text = "/clear"%string) then row [SPACE] ++ tinted 4 (text_of "/clear") else [];
     if bool_decide (text = "/clear"%string) then row [SPACE] ++ tinted 7 (text_of "/compact") else []].

(** The paste is the event the [switch]th answer follows. *)
Definition terminal (switch : nat) (text : string) : Pty := {|
  unix_clock k := Some (1000 + N.of_nat k);
  pty_instant k := N.of_nat k * 1000;
  lease_lost _ := false;
  terminal_present _ := true;
  snapshot_read k := Ok (to_terminal_snapshot (if (k <? switch)%nat then composer 1 EmptyString else composer 2 text));
  snapshot_answer k := Some (Ok (to_terminal_snapshot (if (k <? switch)%nat then composer 1 EmptyString else composer 2 text)));
  styled_answer k := Some (Ok (if (k <? switch)%nat then composer 1 EmptyString else composer 2 text));
  paste_answer _ := Some (Ok tt);
  enter_answer _ := Some (Ok tt);
  interrupt_sent _ := Ok tt;
  pty_close _ := Ok true;
  stop_sequence _ := 0;
  stop_at_ms _ := 0;
|}.

Definition control : RmuxTerminalControl := mkControl 4000 0 0 false 1000000000.

Definition writes (t : list PtyEvent) : list PtyEvent := List.filter is_write t.

Definition told {A} (r : outcome A * World PtyEvent) : outcome A * list PtyEvent := (r.1, writes (tk_trace r.2)).

Example prompt_is_entered :
  told (@submit_prompt (terminal 30 "hi") id 100 control (text_of "hi") 5000 start)
  = (Done (Ok tt), [Pasting (text_of "hi"); Entering]).
Proof. vm_compute. reflexivity. Qed.

(** A composer that shows something else is not submitted. *)
Example other_text_is_not_entered :
  told (@submit_prompt (terminal 30 "ho") id 100 control (text_of "hi") 1050 start)
  = (Done (Err turn_deadline_failure), [Pasting (text_of "hi")]).
Proof. vm_compute. reflexivity. Qed.

Example clear_is_entered :
  told (@type_control_command (terminal 30 "/clear") 100 control Clear 5000 start)
  = (Done (Ok tt), [Pasting (text_of "/clear"); Entering]).
Proof. vm_compute. reflexivity. Qed.

Lemma demo_late : forall k ms, (4000 <= k)%nat -> @unix_clock (terminal 30 "hi") k = Some ms -> 5000 <= ms.
Proof. intros k ms Hk. simpl. intros [= <-]. lia. Qed.

Lemma submission_answers_witness :
  (exists r w, @submit_prompt (terminal 30 "hi") id 4001 control (text_of "hi") 5000 start = (Done r, w)) /\
  (exists r w, @type_control_command (terminal 30 "hi") 4001 control Clear 5000 start = (Done r, w)).
Proof. exact (@submission_answers (terminal 30 "hi") id 4001 4000 control (text_of "hi") Clear 5000 demo_late (le_n _)). Defined.

End GateDemo.
