(* ===== verification/Control.v ===== *)
(** * Watching and stopping a terminal

    The rest of [RmuxTerminalControl] of [crates/service/src/driver_io.rs]: the evidence
    that a turn is over, the observation of a screen, the one interrupt and the wait for a
    ready prompt after it, and the close. *)

From S2P Require Import Prelude Text Protocol Composer Transcript Session Screen Backend Menu Task Gate.

Definition LEASE : string := "private rmux lease was lost".

Section Control.
Context `{Pty}.
Variable rounds : nat.

(** ** A screen that holds still *)

Definition stability_round (deadline stable_for : N) (c : TerminalSnapshot * N) :
    G ((TerminalSnapshot * N) + DriverResult (option TerminalSnapshot)) :=
  let% lost := ask lease_lost in
  if lost
  then tret (inr (Err (lease_failure "private rmux lease was lost while observing terminal stability")))
  else
    let% stable := held (snd c) stable_for in
    if stable then tret (inr (Ok (Some (fst c))))
    else
      let% now := read_instant pty_instant in
      if deadline <=? now then tret (inr (Ok None))
      else
        log Waited ;%
        let% now := read_instant pty_instant in
        if deadline - now =? 0 then tret (inr (Ok None))
        else
          let% read := ask snapshot_answer in
          match read with
          | None => tret (inr (Ok None))
          | Some (Err error) => let% failure := map_terminal_error error in tret (inr (Err failure))
          | Some (Ok snapshot) =>
              log (Snapped snapshot) ;%
              let% c := see (Some c) snapshot in
              tret (inl c)
          end.

Definition wait_for_snapshot_stability (first : TerminalSnapshot) (stable_for timeout : N) :
    G (DriverResult (option TerminalSnapshot)) :=
  let% now := read_instant pty_instant in
  match checked_add INSTANT_MAX now timeout with
  | None =>
      tret (Err (DriverFailure_new InvalidConfig "terminal stability timeout overflows the monotonic clock domain"))
  | Some deadline =>
      let% stable_since := stamp in
      iterate rounds (stability_round deadline stable_for) (first, stable_since)
  end.

(** ** Evidence *)

(** Whether a stop hook came since the baseline, and when. *)
Definition lifecycle_hook (baseline : N) : G (bool * option N) :=
  let% sequence := ask stop_sequence in
  if baseline <? sequence
  then let% at_ms := ask stop_at_ms in tret (true, if at_ms =? 0 then None else Some at_ms)
  else tret (false, None).

(** The evidence of a screen that waits for a person. *)
Definition modal_evidence (self : RmuxTerminalControl) (baseline : N) : G (DriverResult TerminalEvidence) :=
  let% hook := lifecycle_hook baseline in
  tret (Ok (mkEvidence false false (rt_lifecycle_expected self) (fst hook) (snd hook))).

Definition read_screen (recheck : bool) : G (DriverResult TerminalSnapshot) :=
  let%? _ := require_terminal in
  let%? _ := require_lease LEASE in
  let% read := ask snapshot_read in
  match read with
  | Err error => fail_backend error
  | Ok snapshot =>
      let%? _ := (if recheck then require_lease LEASE else tret (Ok tt)) in
      log (Snapped snapshot) ;% tret (Ok snapshot)
  end.

Definition completion_evidence (self : RmuxTerminalControl) (baseline : N) : G (DriverResult TerminalEvidence) :=
  let%? snapshot := read_screen true in
  if is_modal (classify_terminal_snapshot snapshot) then modal_evidence self baseline
  else
    let%? stable := wait_for_snapshot_stability snapshot (rt_quiet_for self) (rt_evidence_timeout self) in
    let conclude (ready_prompt quiet : bool) : G (DriverResult TerminalEvidence) :=
      let% hook := lifecycle_hook baseline in
      tret (Ok (mkEvidence ready_prompt quiet (rt_lifecycle_expected self) (fst hook) (snd hook))) in
    match stable with
    | Some stable =>
        if is_modal (classify_terminal_snapshot stable) then modal_evidence self baseline
        else conclude (is_ready (classify_terminal_snapshot stable)) true
    | None => conclude (is_ready (classify_terminal_snapshot snapshot)) false
    end.

(** ** Observation *)

Definition redacted (s : TerminalScreenState) : TerminalScreenObservation :=
  match s with
  | StReady => ScreenReady
  | StNeedsInput info => ScreenNeedsInput info
  | StRecognised recognised => ScreenRecognised recognised
  | StUnrecognised shape => ScreenUnrecognised shape
  end.

Definition observe_screen : G (DriverResult TerminalScreenObservation) :=
  let%? snapshot := read_screen false in
  tret (Ok (redacted (classify_terminal_snapshot snapshot))).

(** ** Interrupt *)

Definition interrupt_round (self : RmuxTerminalControl) (deadline : N) (_ : unit) :
    G (unit + DriverResult InterruptRecovery) :=
  let% now := read_instant pty_instant in
  if deadline <=? now then tret (inr (Ok InterruptFailed))
  else
    let% lost := ask lease_lost in
    if lost then tret (inr (Ok InterruptFailed))
    else
      let% read := ask snapshot_read in
      let% recovered :=
        match read with
        | Err _ => tret false
        | Ok snapshot =>
            log (Snapped snapshot) ;%
            if is_ready (classify_terminal_snapshot snapshot) then
              let% now := read_instant pty_instant in
              let% stable := wait_for_snapshot_stability snapshot (rt_quiet_for self)
                               (N.min (rt_evidence_timeout self) (deadline - now)) in
              tret (match stable with
                    | Ok (Some stable) => is_ready (classify_terminal_snapshot stable)
                    | _ => false
                    end)
            else tret false
        end in
      if (recovered : bool) then tret (inr (Ok RecoveredToReady))
      else log Waited ;% tret (inl tt).

Definition interrupt (self : RmuxTerminalControl) : G (DriverResult InterruptRecovery) :=
  let%? _ := require_terminal in
  log Interrupted ;%
  let% sent := ask interrupt_sent in
  match sent with
  | Err error => fail_backend error
  | Ok _ =>
      let% now := read_instant pty_instant in
      match checked_add INSTANT_MAX now (rt_recovery_timeout self) with
      | None =>
          tret (Err (DriverFailure_new InvalidConfig "terminal recovery timeout overflows the monotonic clock domain"))
      | Some deadline => iterate rounds (interrupt_round self deadline) tt
      end
  end.

(** ** Close *)

(** The terminal is kept until its process is reaped. *)
Definition close (present : bool) : G (DriverResult bool * bool) :=
  if negb present then tret (Ok true, false)
  else
    log Closing ;%
    let% closed := ask pty_close in
    match closed with
    | Err error => let% failure := map_terminal_error error in tret (Err failure, true)
    | Ok process_reaped => tret (Ok process_reaped, negb process_reaped)
    end.

End Control.
