(* ===== verification/ControlTheorems.v ===== *)
(** * Evidence is seen, and one interrupt is sent

    What [completion_evidence], [observe_screen] and [interrupt] report of a terminal, and
    that they end. *)

From S2P Require Import Prelude Text Protocol Composer Transcript Session Screen Backend Menu Task Gate GateProofs GateTheorems Control.

(** The same screen. *)
Definition same (x s : TerminalSnapshot) : Prop := s = x.

Section Says.
Context `{Pty}.

(** Steps that read a clock or ask. *)
Lemma instant_step {A B} (answers : nat -> A) (k : A -> G B) Q X :
  (forall x, says (k x) Q X) -> says (tbind (read_instant answers) k) Q X.
Proof. intros Hk. apply (says_step _ _ (fun _ => True)); [by apply says_read_instant|by intros x _]. Qed.

Lemma says_nested {A} (m : G A) (a b : list PtyEvent) (Q : A -> list PtyEvent -> Prop) X :
  says m (fun y t => Q y ((a ++ b) ++ t)) (fun x t => X x ((a ++ b) ++ t)) ->
  says m (fun y t => Q y (a ++ b ++ t)) (fun x t => X x (a ++ b ++ t)).
Proof. intros Hm. eapply says_mono; [exact Hm| |]; intros; by rewrite app_assoc. Qed.

Lemma map_error_silent e X : says (map_terminal_error e) (fun _ t => t = []) X.
Proof. destruct e; simpl; try by apply says_ret. apply says_ask_step. intros x. by apply says_ret. Qed.

Lemma fail_backend_silent {A} e X : says (fail_backend (A := A) e) (fun r t => t = [] /\ exists f, r = Err f) X.
Proof. eapply says_bind; [apply map_error_silent|]. intros f t ->. apply says_ret. split; [done|by exists f]. Qed.

Lemma hook_silent baseline X : says (lifecycle_hook baseline) (fun _ t => t = []) X.
Proof.
  apply says_ask_step. intros n. destruct (_ <? _); [|by apply says_ret]. apply says_ask_step. intros m. by apply says_ret.
Qed.

(** ** A screen that holds still *)

(** The candidate is the last screen, and the stretch since it was first seen. *)
Definition holding (t0 : list PtyEvent) (c : TerminalSnapshot * N) (t : list PtyEvent) : Prop :=
  reads t /\ last (screens (t0 ++ t)) = Some (fst c) /\ candidate_ok same (Some c) (t0 ++ t).

Definition stable_answer (quiet : N) (t0 : list PtyEvent) (r : DriverResult (option TerminalSnapshot)) (t : list PtyEvent) : Prop :=
  reads t /\ match r with Ok (Some s) => believed same quiet s (t0 ++ t) | _ => True end.

Lemma holding_app t0 c t t' : holding t0 c t -> reads t' -> screens t' = [] -> holding t0 c (t ++ t').
Proof.
  intros (Hr & Hl & Hc) Hr' E. split; [by apply reads_app|]. rewrite app_assoc. split; [by rewrite last_quiet|].
  by apply candidate_ok_app.
Qed.

Lemma stability_round_says deadline quiet t0 c t :
  holding t0 c t ->
  says (stability_round deadline quiet c)
    (fun r t' => match r with inl c' => holding t0 c' (t ++ t') | inr x => stable_answer quiet t0 x (t ++ t') end) (fun _ _ => False).
Proof.
  intros Hh. assert (Hdone : forall t', reads t' -> screens t' = [] -> stable_answer quiet t0 (Ok None) (t ++ t')).
  { intros t' Hr' E. split; [|done]. destruct Hh as [Hr _]. by apply reads_app. }
  assert (Hfail : forall t' f, reads t' -> stable_answer quiet t0 (Err f) (t ++ t')).
  { intros t' f Hr'. split; [|done]. destruct Hh as [Hr _]. by apply reads_app. }
  apply says_ask_step. intros [|]; [apply says_ret, Hfail, reads_nil|].
  destruct c as [x since]. destruct Hh as (Hr & Hl & Hc).
  eapply says_bind; [exact (held_says same x since quiet (t0 ++ t) _ Hc)|]. intros b t1 (Hr1 & E1 & Hc1 & Hst).
  cbn [fst snd] in *. destruct b.
  { apply says_ret. rewrite app_nil_r. split; [by apply reads_app|]. rewrite app_assoc.
    split; [by rewrite last_quiet|]. exists x. split; [done|by apply Hst]. }
  apply instant_step. intros now. destruct (_ <=? _); [apply says_ret; rewrite app_nil_r; by apply Hdone|].
  apply log_step. apply instant_step. intros now'. destruct (_ =? 0).
  { apply says_ret. apply Hdone; [by apply reads_app, reads_one|by rewrite screens_app, E1]. }
  apply says_ask_step. intros [[s|e]|].
  - apply log_step. eapply says_bind; [apply (see_says same _ s ((t0 ++ t) ++ t1 ++ [Waited]) (Snapped s) s)|].
    + rewrite app_assoc. by apply (candidate_ok_app same (Some (x, since))).
    + done.
    + done.
    + intros p t2 (Hr2 & E2 & Hp & Hc2). apply says_ret. rewrite app_nil_r.
      assert (E : t0 ++ t ++ t1 ++ Waited :: Snapped s :: t2 = (((t0 ++ t) ++ t1 ++ [Waited]) ++ [Snapped s]) ++ t2)
        by (by rewrite <-!app_assoc).
      split; [repeat (apply reads_app; [done|]); by apply (reads_app [Waited; Snapped s]); [repeat constructor|]|].
      rewrite E. split; [|done]. by rewrite (last_quiet _ _ E2), (screens_snoc _ _ s), last_snoc, Hp.
  - eapply says_bind; [apply map_error_silent|]. intros f t2 ->. apply says_ret. apply Hfail. by apply reads_app, reads_one.
  - apply says_ret. apply Hdone; [by apply reads_app, reads_one|by rewrite screens_app, E1].
Qed.

Lemma stability_says rounds first quiet timeout :
  says (wait_for_snapshot_stability rounds first quiet timeout) (stable_answer quiet [Snapped first]) cut_short.
Proof.
  apply instant_step. intros now. destruct (checked_add _ _ _) as [deadline|]; [|by apply says_ret; split; [apply reads_nil|]].
  eapply says_bind; [apply stamp_says|]. intros since t ->.
  apply (says_iterate (fun c t => holding [Snapped first] c ([At since] ++ t))).
  - intros c t Hc. eapply says_mono; [by eapply stability_round_says|done|done].
  - intros c t [Hr _]. by split.
  - split; [by apply reads_one|]. split; [done|]. exists []. by apply (stretch_one _ [] (Snapped first) since first).
Qed.

(** ** Evidence *)

(** What a read of the screen adds. *)
Lemma read_screen_says recheck X :
  says (read_screen recheck) (fun r t => match r with Ok s => t = [Snapped s] | Err _ => t = [] end) X.
Proof.
  eapply says_try; [apply require_terminal_says|intros [] t [-> _]|by intros f t [-> _]].
  eapply says_try; [apply require_lease_says|intros [] t [-> _]|by intros f t [-> _]].
  apply says_ask_step. intros [s|e]; [|eapply says_mono; [apply fail_backend_silent|by intros r t [-> [f ->]]|intros x t Hx; exact Hx]].
  assert (Hre : says (if recheck then require_lease LEASE else tret (Ok tt)) (silent clean) X).
  { destruct recheck; [apply require_lease_says|by apply says_ret]. }
  eapply says_try; [exact Hre|intros [] t [-> _]|by intros f t [-> _]]. apply log_step. by apply says_ret.
Qed.

(** What a screen proves: a quiet one held still, and is the one the prompt was looked for on. *)
Definition evidence_ok (quiet : N) (ev : TerminalEvidence) (t : list PtyEvent) : Prop :=
  (te_ready_prompt ev = true -> exists s, s ∈ screens t /\ classify_terminal_snapshot s = StReady) /\
  (te_quiet ev = true -> exists s, believed same quiet s t /\ is_modal (classify_terminal_snapshot s) = false /\
     te_ready_prompt ev = is_ready (classify_terminal_snapshot s)).

Lemma is_ready_true s : is_ready s = true -> s = StReady.
Proof. by destruct s. Qed.

Lemma believed_seen {A} (P : A -> TerminalSnapshot -> Prop) quiet s t : believed P quiet s t -> s ∈ screens t.
Proof. intros [Hl _]. by apply last_Some_elem_of. Qed.

Lemma evidence_says rounds self baseline :
  says (completion_evidence rounds self baseline)
    (fun r t => reads t /\ match r with Ok ev => evidence_ok (rt_quiet_for self) ev t | Err _ => True end) cut_short.
Proof.
  eapply says_try; [apply read_screen_says|intros s t ->|by intros f t ->; split; [apply reads_nil|]].
  assert (Hmodal : forall t, reads t -> says (modal_evidence self baseline)
    (fun r t' => reads (t ++ t') /\ match r with Ok ev => evidence_ok (rt_quiet_for self) ev (t ++ t') | Err _ => True end)
    (fun e t' => cut_short e (t ++ t'))).
  { intros t Hr. eapply says_bind; [apply hook_silent|]. intros hook t' ->. apply says_ret. by rewrite app_nil_r. }
  assert (Hconclude : forall t ready quiet, reads t -> (forall l hook at_ms, evidence_ok (rt_quiet_for self) (mkEvidence ready quiet l hook at_ms) t) ->
    says (let% hook := lifecycle_hook baseline in
          tret (Ok (E := DriverFailure) (mkEvidence ready quiet (rt_lifecycle_expected self) (fst hook) (snd hook))))
    (fun r t' => reads (t ++ t') /\ match r with Ok ev => evidence_ok (rt_quiet_for self) ev (t ++ t') | Err _ => True end)
    (fun e t' => cut_short e (t ++ t'))).
  { intros t ready quiet Hr Hev. eapply says_bind; [apply hook_silent|]. intros hook t' ->. apply says_ret. rewrite app_nil_r.
    split; [done|apply Hev]. }
  destruct (is_modal _) eqn:Hm; [by apply Hmodal, reads_one|].
  eapply says_try; [eapply says_mono; [apply stability_says|done|]| |].
  { intros e t [-> Hr]. split; [done|by apply (reads_app [Snapped s]); [apply reads_one|]]. }
  2: { intros f t [Hr _]. split; [by apply (reads_app [Snapped s]); [apply reads_one|]|done]. }
  intros stable t [Hr Hst]. cbv zeta.
  match goal with |- says ?m _ _ => apply (says_nested m [Snapped s] t
    (fun r t => reads t /\ match r with Ok ev => evidence_ok (rt_quiet_for self) ev t | Err _ => True end) cut_short) end.
  assert (Hr' : reads ([Snapped s] ++ t)) by (apply reads_app; [by apply reads_one|done]).
  destruct stable as [s'|].
  - destruct (is_modal (classify_terminal_snapshot s')) eqn:Hm'; [by apply Hmodal|]. apply Hconclude; [done|]. intros l hook at_ms.
    split; cbn.
    + intros Hrd%is_ready_true. exists s'. split; [exact (believed_seen _ _ _ _ Hst)|done].
    + intros _. by exists s'.
  - apply Hconclude; [done|]. intros l hook at_ms. split; cbn; [|done]. intros Hrd%is_ready_true. exists s. split; [by left|done].
Qed.

(** ** Interrupt *)

Definition recovered_ok (quiet : N) (r : DriverResult InterruptRecovery) (t : list PtyEvent) : Prop :=
  reads t /\ (r = Ok RecoveredToReady -> exists s, believed same quiet s t /\ classify_terminal_snapshot s = StReady).

Lemma recovered_err quiet f : recovered_ok quiet (Err f) [].
Proof. by split; [apply reads_nil|]. Qed.

Lemma interrupt_round_says rounds self deadline u :
  says (interrupt_round rounds self deadline u)
    (fun r t => match r with inl _ => reads t | inr x => recovered_ok (rt_quiet_for self) x t end) cut_short.
Proof.
  apply instant_step. intros now. destruct (_ <=? _); [by apply says_ret; split; [apply reads_nil|]|].
  apply says_ask_step. intros [|]; [by apply says_ret; split; [apply reads_nil|]|]. apply says_ask_step. intros read.
  eapply (says_bind _ _ (fun (b : bool) t => reads t /\ (b = true -> exists s, believed same (rt_quiet_for self) s t /\
    classify_terminal_snapshot s = StReady))).
  - destruct read as [s|e]; [|by apply says_ret; split; [apply reads_nil|]]. apply log_step.
    destruct (is_ready _); [|by apply says_ret; split; [by apply reads_one|]]. apply instant_step. intros n.
    eapply says_bind; [eapply says_mono; [apply stability_says|done|]|].
    { intros e t [-> Hr]. split; [done|by apply (reads_app [Snapped s]); [apply reads_one|]]. }
    intros stable t [Hr Hst]. apply says_ret. rewrite app_nil_r.
    split; [by apply (reads_app [Snapped s]); [apply reads_one|]|].
    destruct stable as [[s'|]|f]; [|done|done]. intros Hrd%is_ready_true. by exists s'.
  - intros [|] t [Hr Hrec]; [apply says_ret; rewrite app_nil_r; split; [done|]; intros _; by apply Hrec|].
    apply log_step. apply says_ret. by apply reads_app, reads_one.
Qed.

Lemma interrupt_says rounds self :
  says (interrupt rounds self)
    (fun r t => (t = [] /\ r = Err closed_terminal) \/ exists t', t = Interrupted :: t' /\ recovered_ok (rt_quiet_for self) r t')
    (fun e t => e = OutOfRounds /\ exists t', t = Interrupted :: t' /\ reads t').
Proof.
  eapply (says_try _ _ (fun r t => t = [] /\ (r = Ok tt \/ r = Err closed_terminal))).
  { apply says_ask_step. intros present. apply says_ret. split; [done|]. destruct present; auto. }
  2: { intros f t (-> & [E|E]); simplify_eq. by left. }
  intros [] t (-> & _). apply log_step. apply says_ask_step. intros [[]|e].
  2: { eapply says_mono; [apply (fail_backend_silent e (fun _ _ => False))| |done]. intros r t [-> [f ->]]. right.
       by exists []; split; [|apply recovered_err]. }
  apply instant_step. intros now.
  destruct (checked_add _ _ _) as [deadline|]; [|by apply says_ret; right; exists []; split; [|apply recovered_err]].
  eapply says_mono; [apply (says_iterate (fun _ t => reads t) _ (recovered_ok (rt_quiet_for self)) cut_short)| |].
  - intros u t Hr. eapply says_mono; [apply interrupt_round_says| |].
    + intros [u'|r] t' Hx; [by apply reads_app|]. destruct Hx as [Hr' Hrec]. split; [by apply reads_app|]. intros E.
      destruct (Hrec E) as (s & Hs & Hc). exists s. split; [by apply believed_prefix|done].
    + intros e t' [-> Hr']. split; [done|by apply reads_app].
  - intros u t Hr. by split.
  - apply reads_nil.
  - intros r t Hr. right. by exists t.
  - intros e t [-> Hr]. split; [done|]. by exists t.
Qed.

End Says.

(** ** Every call ends *)

Section ControlEnds.
Context `{Pty}.
Variable timeout : N.
Variable n : nat.
(** Of any [n] readings the last is [timeout] after the first. *)
Hypothesis passes : forall k k', (k + n <= k')%nat -> pty_instant k + timeout <= pty_instant k'.

(** A program that runs to its end. *)
Definition ends {A} (m : G A) : Prop :=
  forall w, twp m w (fun _ w' => (tk_instants w <= tk_instants w')%nat) (fun _ _ => False).

Lemma ends_ret {A} (x : A) : ends (tret x).
Proof. intros w. unfold twp. cbn. lia. Qed.
Lemma ends_ask {A} (a : nat -> A) : ends (ask a).
Proof. intros w. unfold twp. cbn. lia. Qed.
Lemma ends_log e : ends (log e).
Proof. intros w. unfold twp. cbn. lia. Qed.
Lemma ends_instant {A} (a : nat -> A) : ends (read_instant a).
Proof. intros w. unfold twp. cbn. lia. Qed.
Lemma ends_bind {A B} (m : G A) (k : A -> G B) : ends m -> (forall x, ends (k x)) -> ends (tbind m k).
Proof.
  intros Hm Hk w. apply twp_bind. eapply twp_mono; [apply Hm| |done]. intros x w' Hle.
  eapply twp_mono; [apply Hk| |done]. intros y w'' Hle'. simpl in *. lia.
Qed.

Ltac finish :=
  lazymatch goal with
  | |- forall _, _ => let x := fresh "x" in intros x; cbv zeta beta; finish
  | |- ends (tret _) => apply ends_ret
  | |- ends (ask _) => apply ends_ask
  | |- ends (log _) => apply ends_log
  | |- ends (read_instant _) => apply ends_instant
  | |- ends (tbind _ _) => apply ends_bind; finish
  | |- ends (ttry _ _) => apply ends_bind; finish
  | |- ends (match ?x with _ => _ end) => destruct x; cbv zeta beta; finish
  | |- _ => auto with pmux
  end.

(** A loop whose rounds read the clock, and stop once it shows the deadline. *)
Lemma loop_ends {L R} (body : L -> G (L + R)) k0 rounds l :
  (forall l w, (k0 <= tk_instants w)%nat -> twp (body l) w (fun r w' => (tk_instants w <= tk_instants w')%nat /\
     match r with inl _ => (tk_instants w < tk_instants w')%nat /\ (tk_instants w < k0 + n)%nat | inr _ => True end) (fun _ _ => False)) ->
  (n < rounds)%nat ->
  forall w, (k0 <= tk_instants w)%nat ->
    twp (iterate rounds body l) w (fun _ w' => (tk_instants w <= tk_instants w')%nat) (fun _ _ => False).
Proof.
  intros Hb Hn w Hk. apply (twp_iterate_measure (fun _ w' => tk_instants w <= tk_instants w')%nat (fun w => k0 + n - tk_instants w)%nat);
    [|done|lia].
  intros l' w' Hw. eapply twp_mono; [apply Hb; lia| |done]. intros [l''|x] w'' [Hle Hr]; lia.
Qed.

Variable rounds : nat.
Hypothesis enough : (n < rounds)%nat.

Lemma held_ends since quiet : ends (held since quiet).
Proof. unfold held, stamp. finish. Qed.
Lemma map_error_ends e : ends (map_terminal_error e).
Proof. unfold map_terminal_error. finish. Qed.
Lemma see_ends c (s : TerminalSnapshot) : ends (see c s).
Proof. unfold see, stamp. finish. Qed.
Lemma hook_ends baseline : ends (lifecycle_hook baseline).
Proof. unfold lifecycle_hook. finish. Qed.
Hint Resolve held_ends map_error_ends see_ends hook_ends : pmux.

Lemma stability_round_ends quiet deadline k0 c w :
  deadline <= pty_instant k0 + timeout -> (k0 <= tk_instants w)%nat ->
  twp (stability_round deadline quiet c) w (fun r w' => (tk_instants w <= tk_instants w')%nat /\
     match r with inl _ => (tk_instants w < tk_instants w')%nat /\ (tk_instants w < k0 + n)%nat | inr _ => True end) (fun _ _ => False).
Proof.
  intros Hd Hk. apply twp_bind, twp_ask. intros lost w1 _ _ Hi1. destruct lost; [apply twp_ret; split; [lia|done]|].
  apply twp_bind. eapply twp_mono; [apply held_ends| |done]. intros b w2 Hi2. simpl in Hi2. destruct b; [apply twp_ret; split; [lia|done]|].
  apply twp_bind, twp_read_instant. intros w3 _ _ Hi3.
  destruct (N.leb_spec deadline (pty_instant (tk_instants w2))) as [Hle|Hlt]; [apply twp_ret; split; [lia|done]|].
  assert (Hn : (tk_instants w < k0 + n)%nat).
  { destruct (decide (k0 + n <= tk_instants w2)%nat) as [Hn|]; [specialize (passes _ _ Hn); lia|lia]. }
  apply twp_bind, twp_log. intros w4 _ _ Hi4. apply twp_bind, twp_read_instant. intros w5 _ _ Hi5.
  destruct (_ =? 0); [apply twp_ret; split; [lia|done]|]. apply twp_bind, twp_ask. intros read w6 _ _ Hi6.
  destruct read as [[s|e]|]; [| |apply twp_ret; split; [lia|done]].
  - apply twp_bind, twp_log. intros w7 _ _ Hi7. apply twp_bind. eapply twp_mono; [apply see_ends| |done]. intros c' w8 Hi8.
    simpl in Hi8. apply twp_ret. lia.
  - apply twp_bind. eapply twp_mono; [apply map_error_ends| |done]. intros f w7 Hi7. simpl in Hi7. apply twp_ret. split; [lia|done].
Qed.

Lemma stability_ends first quiet t : t <= timeout -> ends (wait_for_snapshot_stability rounds first quiet t).
Proof.
  intros Ht w. apply twp_bind, twp_read_instant. intros w1 _ _ Hi1.
  destruct (checked_add _ _ _) as [deadline|] eqn:Hd; [|apply twp_ret; lia].
  apply checked_add_Some in Hd as [-> _]. unfold stamp. apply twp_bind, twp_bind, twp_read_instant. intros w2 _ _ Hi2.
  apply twp_bind, twp_log. intros w3 _ _ Hi3. apply twp_ret.
  eapply twp_mono; [apply (loop_ends _ (tk_instants w)); [|done|lia]| |done]; [|intros x w'; simpl; lia].
  intros c w' Hk. apply stability_round_ends; [lia|done].
Qed.
Hint Resolve stability_ends : pmux.

Lemma evidence_ends self baseline : rt_evidence_timeout self <= timeout -> ends (completion_evidence rounds self baseline).
Proof.
  intros Ht. unfold completion_evidence, read_screen, modal_evidence, require_terminal, require_lease, fail_backend. finish.
Qed.

Lemma interrupt_ends self :
  rt_evidence_timeout self <= timeout -> rt_recovery_timeout self <= timeout -> ends (interrupt rounds self).
Proof.
  intros Het Hrt. unfold interrupt, require_terminal, fail_backend. apply ends_bind; [finish|]. intros [[]|f]; [|finish].
  apply ends_bind; [finish|]. intros _. apply ends_bind; [finish|]. intros [[]|e]; [|finish].
  intros w. apply twp_bind, twp_read_instant. intros w1 _ _ Hi1.
  destruct (checked_add _ _ _) as [deadline|] eqn:Hd; [|apply twp_ret; lia]. apply checked_add_Some in Hd as [-> _].
  eapply twp_mono; [apply (loop_ends _ (tk_instants w)); [|done|lia]| |done]; [|intros x w'; simpl; lia].
  intros [] w2 Hk. apply twp_bind, twp_read_instant. intros w3 _ _ Hi3.
  destruct (N.leb_spec (pty_instant (tk_instants w) + rt_recovery_timeout self) (pty_instant (tk_instants w2))) as [Hle|Hlt];
    [apply twp_ret; split; [lia|done]|].
  assert (Hn : (tk_instants w2 < tk_instants w + n)%nat).
  { destruct (decide (tk_instants w + n <= tk_instants w2)%nat) as [Hn|]; [specialize (passes _ _ Hn); lia|lia]. }
  eapply twp_mono with (Q := fun _ w' => (tk_instants w3 <= tk_instants w')%nat) (X := fun _ _ => False); [| |done].
  - match goal with |- twp ?m _ _ _ => assert (Hm : ends m); [|apply Hm] end.
    finish. apply stability_ends. lia.
  - intros r w' Hle. split; [lia|]. destruct r; [|done]. lia.
Qed.

End ControlEnds.

(** ** The claims *)

(** The evidence that ends a turn is something that was seen. Asking for it types nothing and
    always ends once the clock has passed its budget. When it says "quiet", the last screen
    had been the same at every read for the quiet period, did not wait for a person, and is
    the very screen the ready prompt was looked for on; when it says "ready", a screen read
    on the way showed an empty composer. *)
Theorem evidence_is_seen `{Pty} rounds self baseline (n : nat) timeout :
  (forall k k', (k + n <= k')%nat -> pty_instant k + timeout <= pty_instant k') ->
  rt_evidence_timeout self <= timeout -> (n < rounds)%nat ->
  exists r w, completion_evidence rounds self baseline start = (Done r, w) /\ reads (tk_trace w) /\
    match r with Ok ev => evidence_ok (rt_quiet_for self) ev (tk_trace w) | Err _ => True end.
Proof.
  intros Hpass He Hn. pose proof (says_run _ _ _ (evidence_says rounds self baseline)) as Hs.
  pose proof (evidence_ends timeout n Hpass rounds Hn self baseline He start) as Hend. unfold twp in Hend.
  destruct (completion_evidence rounds self baseline start) as [[r|e] w]; [|done]. by exists r, w.
Qed.

(** C27. Cancelling sends one interrupt and types nothing else, whatever the terminal does: there is
    no second one on an ambiguous answer. It reports a recovery only after an empty composer
    was read that held still for the quiet period, and it always ends once the clock has
    passed its budget. *)
Theorem interrupt_is_sent_once `{Pty} rounds self (n : nat) timeout :
  (forall k k', (k + n <= k')%nat -> pty_instant k + timeout <= pty_instant k') ->
  rt_evidence_timeout self <= timeout -> rt_recovery_timeout self <= timeout -> (n < rounds)%nat ->
  exists r w, interrupt rounds self start = (Done r, w) /\
    ((tk_trace w = [] /\ r = Err closed_terminal) \/
     exists t, tk_trace w = Interrupted :: t /\ recovered_ok (rt_quiet_for self) r t).
Proof.
  intros Hpass He Hr Hn. pose proof (says_run _ _ _ (interrupt_says rounds self)) as Hs.
  pose proof (interrupt_ends timeout n Hpass rounds Hn self He Hr start) as Hend. unfold twp in Hend.
  destruct (interrupt rounds self start) as [[r|e] w]; [|done]. by exists r, w.
Qed.

(** ** Evidence, interrupts and closes, run

    The terminal of [GateDemo] shows an empty composer up to an answer and another screen after it. *)

Import GateDemo.

Module ControlDemo.

Definition control : RmuxTerminalControl := mkControl 4000 20000 100000 false 1000000000.

Definition outcome_of {A} (r : outcome A * World PtyEvent) : outcome A * list PtyEvent := (r.1, writes (tk_trace r.2)).

(** A composer that stands empty is quiet and ready. *)
Example idle_is_ready :
  outcome_of (@completion_evidence (terminal 1000 "hi") 101 control 0 start)
  = (Done (Ok (mkEvidence true true false false None)), []).
Proof. vm_compute. reflexivity. Qed.

(** A composer that holds text is quiet and not ready. *)
Example text_is_not_ready :
  outcome_of (@completion_evidence (terminal 0 "hi") 101 control 0 start)
  = (Done (Ok (mkEvidence false true false false None)), []).
Proof. vm_compute. reflexivity. Qed.

Example recovers :
  outcome_of (@interrupt (terminal 1000 "hi") 101 control start) = (Done (Ok RecoveredToReady), [Interrupted]).
Proof. vm_compute. reflexivity. Qed.

(** A composer that keeps its text is not recovered, and no second interrupt is sent. *)
Example gives_up :
  outcome_of (@interrupt (terminal 0 "hi") 101 control start) = (Done (Ok InterruptFailed), [Interrupted]).
Proof. vm_compute. reflexivity. Qed.

Example close_releases : (@close (terminal 0 "hi") true start).1 = Done (Ok true, false).
Proof. vm_compute. reflexivity. Qed.

Lemma clock_passes k k' :
  (k + 100 <= k')%nat -> @pty_instant (terminal 1000 "hi") k + 100000 <= @pty_instant (terminal 1000 "hi") k'.
Proof. simpl. lia. Qed.

Lemma evidence_is_seen_witness :
  exists r w, @completion_evidence (terminal 1000 "hi") 101 control 0 start = (Done r, w) /\ reads (tk_trace w) /\
    match r with Ok ev => evidence_ok 4000 ev (tk_trace w) | Err _ => True end.
Proof.
  apply (@evidence_is_seen (terminal 1000 "hi") 101 control 0 100 100000 clock_passes); [vm_compute; discriminate|lia].
Defined.

Lemma interrupt_is_sent_once_witness :
  exists r w, @interrupt (terminal 1000 "hi") 101 control start = (Done r, w) /\
    ((tk_trace w = [] /\ r = Err closed_terminal) \/
     exists t, tk_trace w = Interrupted :: t /\ recovered_ok 4000 r t).
Proof.
  apply (@interrupt_is_sent_once (terminal 1000 "hi") 101 control 100 100000 clock_passes);
    [vm_compute; discriminate|vm_compute; discriminate|lia].
Defined.

End ControlDemo.
