(* ===== verification/TurnResults.v ===== *)
(** * From a transcript analysis to what a turn publishes

    The pure functions the turn worker of [crates/service/src/v1/actor.rs] ends with: the
    text of a transcript error ([crates/claude/src/error.rs]), the wire form of messages,
    tools, usage and warnings, and the result of a completed turn. *)

From S2P Require Import Prelude Text Protocol Composer Transcript Engine Session Screen Backend Actor.

Section Text.
(** How [Debug] prints a string. *)
Variable str_debug : string -> string.

Definition opt_str_debug (o : option string) : string :=
  match o with Some s => "Some(" +:+ str_debug s +:+ ")" | None => "None" end%string.

Definition key_debug (key : LogicalMessageKey) : string :=
  match key with
  | MessageId s => "MessageId(" +:+ str_debug s +:+ ")"
  | RequestId s => "RequestId(" +:+ str_debug s +:+ ")"
  | RowUuid s => "RowUuid(" +:+ str_debug s +:+ ")"
  end%string.

Definition location_debug (l : SourceLocation) : string :=
  ("SourceLocation { line: " +:+ pretty (line l) +:+ ", byte_offset: " +:+ pretty (byte_offset l) +:+ " }")%string.

Definition identity_debug (f : FileIdentity) : string :=
  ("FileIdentity { device: " +:+ pretty (device f) +:+ ", inode: " +:+ pretty (inode f) +:+ " }")%string.

Definition row_suffix (row_uuid : option string) : string :=
  match row_uuid with Some uuid => " (row " +:+ uuid +:+ ")" | None => EmptyString end%string.

Definition transcript_error_display (e : TranscriptError) : string :=
  (match e with
   | CursorOffsetMismatch expected actual =>
       "read offset " +:+ pretty actual +:+ " does not match cursor offset " +:+ pretty expected
   | ReadBeyondObservedFile read_end file_len =>
       "read ending at " +:+ pretty read_end +:+ " exceeds observed file length " +:+ pretty file_len
   | LineTooLong bytes limit byte_offset =>
       "transcript JSONL record at byte " +:+ pretty byte_offset +:+ " is " +:+ pretty bytes
       +:+ " bytes, exceeding limit " +:+ pretty limit
   | InvalidUtf8 location message => "invalid UTF-8 at line " +:+ location_debug location +:+ ": " +:+ message
   | MalformedJson location message => "malformed JSON at line " +:+ location_debug location +:+ ": " +:+ message
   | Transcript.SchemaDrift row_uuid path message =>
       "Claude transcript schema drift at " +:+ path +:+ row_suffix row_uuid +:+ ": " +:+ message
   | ConflictingDuplicateRow uuid => "row UUID " +:+ uuid +:+ " was observed with different content"
   | TurnAlreadyArmed => "a turn is already armed"
   | NoTurnArmed => "no turn is armed"
   | UnexpectedTypedPrompt _ _ => "a different typed prompt appeared while awaiting the active turn"
   | MultiplePromptAcknowledgements => "multiple typed prompt acknowledgements appeared for the active turn"
   | AmbiguousActiveBranches leaf_count =>
       "active turn has " +:+ pretty leaf_count +:+ " ambiguous main-chain branches"
   | ActiveRowMissingUuid ordinal =>
       "active main-chain row at ordinal " +:+ pretty ordinal +:+ " has no graph UUID"
   | DisconnectedActiveRow row_uuid =>
       "post-prompt semantic row " +:+ row_uuid +:+ " is disconnected from the active graph"
   | ParentAppendOrder row_uuid parent_uuid =>
       "active row " +:+ row_uuid +:+ " was appended before its parent " +:+ parent_uuid
   | ParentCycle uuid => "parentUuid graph contains a cycle at " +:+ uuid
   | InterleavedLogicalMessage key =>
       "logical assistant message " +:+ key_debug key +:+ " reappeared after another active graph node"
   | LogicalMessageConflict key field =>
       "logical assistant message " +:+ key_debug key +:+ " has conflicting " +:+ field +:+ " values"
   | UsageOverflow field => "token usage overflow while aggregating " +:+ field
   | DuplicateToolCall tool_use_id => "duplicate tool call id " +:+ tool_use_id
   | DuplicateToolResult tool_use_id => "duplicate tool result id " +:+ tool_use_id
   | OrphanToolResult tool_use_id => "tool result " +:+ tool_use_id +:+ " has no tool call on the active chain"
   | TerminalMessageMissingText key =>
       "terminal logical assistant message " +:+ key_debug key +:+ " has no text block"
   | FileIdentityMismatch expected actual =>
       "file identity changed while applying a read: expected " +:+ identity_debug expected
       +:+ ", got " +:+ identity_debug actual
   end)%string.

Definition warning_debug (w : EngineWarning) : string :=
  (match w with
   | UnknownRow ordinal declared_type =>
       "UnknownRow { ordinal: " +:+ pretty ordinal +:+ ", declared_type: " +:+ opt_str_debug declared_type +:+ " }"
   | UnknownContentBlock message declared_type =>
       "UnknownContentBlock { message: " +:+ key_debug message +:+ ", declared_type: "
       +:+ opt_str_debug declared_type +:+ " }"
   | ConflictingUsage message => "ConflictingUsage { message: " +:+ key_debug message +:+ " }"
   | OrphanToolResultWarning tool_use_id =>
       "OrphanToolResult { tool_use_id: " +:+ str_debug tool_use_id +:+ " }"
   end)%string.

Definition map_transcript_error (e : TranscriptError) : ErrorBody :=
  let code :=
    match e with
    | UnexpectedTypedPrompt _ _ | MultiplePromptAcknowledgements => PromptNotAcknowledged
    | NoTurnArmed | TurnAlreadyArmed => Internal
    | _ => Protocol.SchemaDrift
    end in
  with_details (jobj [("source", JStr "pseudomux_claude")]%string)
    (ErrorBody_new code (transcript_error_display e)).

Definition map_warning (w : EngineWarning) : ProtocolWarning :=
  mkWarning
    (match w with
     | UnknownRow _ _ => "unknown_transcript_row"
     | UnknownContentBlock _ _ => "unknown_content_block"
     | ConflictingUsage _ => "conflicting_usage"
     | OrphanToolResultWarning _ => "orphan_tool_result"
     end)%string (warning_debug w) JNull.

End Text.

(** ** The wire forms *)

Definition map_usage (u : Transcript.TokenUsage) : Protocol.TokenUsage :=
  {| Protocol.input_tokens := Transcript.input_tokens u;
     Protocol.output_tokens := Transcript.output_tokens u;
     Protocol.cache_creation_input_tokens := Transcript.cache_creation_input_tokens u;
     Protocol.cache_read_input_tokens := Transcript.cache_read_input_tokens u |}.

Definition map_stop_reason (r : Transcript.StopReason) : Protocol.StopReason :=
  let '(kind, raw) :=
    match r with
    | Transcript.EndTurn => (Protocol.EndTurn, None)
    | Transcript.MaxTokens => (Protocol.MaxTokens, None)
    | Transcript.StopSequence => (Protocol.StopSequence, None)
    | ToolUseStop => (Protocol.ToolUse, None)
    | Transcript.PauseTurn => (Protocol.PauseTurn, None)
    | Transcript.Refusal => (Protocol.Refusal, None)
    | Transcript.UnknownStop value => (Protocol.UnknownStop, Some value)
    end in
  {| sr_kind := kind; sr_raw := raw |}.

Definition map_message_block (b : ContentBlock) : option MessageBlock :=
  match b with
  | Text text => Some (MbText text)
  | Thinking _ => None
  | ToolUse i name input => Some (MbToolUse i name input)
  | UnknownBlock declared_type raw => Some (MbUnknown (default "unknown"%string declared_type) raw)
  end.

(** The stop reasons that end a turn. *)
Definition stop_ends_turn (r : option Transcript.StopReason) : bool :=
  match r with
  | Some (Transcript.EndTurn | Transcript.MaxTokens | Transcript.StopSequence | Transcript.Refusal) => true
  | _ => false
  end.

Definition map_logical_message (m : LogicalAssistantMessage) : LogicalMessage :=
  let '(message_id, request_id) :=
    match lm_key m with
    | MessageId i => (i, None)
    | RequestId i => (("request:" +:+ i)%string, Some i)
    | RowUuid u => (u, None)
    end in
  mkLogicalMessage message_id request_id ScopeMain
    (omap map_message_block (Transcript.lm_blocks m)) (Transcript.lm_model m)
    (map_stop_reason <$> Transcript.lm_stop_reason m)
    ((fun u => map_usage (us_tokens u)) <$> Transcript.lm_usage m)
    (lm_is_api_error m || stop_ends_turn (Transcript.lm_stop_reason m)).

Definition map_tool_record (t : ToolRecord) : ToolReport :=
  let failed := default false (r ← tr_result t; is_error r) in
  mkToolReport (tr_tool_use_id t) (tr_name t) (tr_input t) (content <$> tr_result t)
    (match tr_result t with
     | None => ToolRequested
     | Some _ => if failed then ToolFailed else ToolDone
     end) None None.

Definition logical_key_string (key : LogicalMessageKey) : string :=
  match key with MessageId v | RequestId v | RowUuid v => v end.

Definition unserializable_transcript_payload_error : ErrorBody :=
  ErrorBody_new RecoveryFailed "transcript-derived output cannot be serialized within protocol v1".

(** ** Arrival order *)

Definition publishable_instant (timestamp_ms : TimestampMs) : option TimestampMs :=
  if timestamp_ms <=? MAX_SAFE_JSON_INTEGER then Some timestamp_ms else None.

Record ArrivalOrderObservations := mkArrival {
  ao_marker_observed : bool;
  ao_turn_duration_observed_at_ms : option TimestampMs;
  ao_post_turn_duration_row_observed_at_ms : option TimestampMs;
}.

Definition ArrivalOrderObservations_default : ArrivalOrderObservations := mkArrival false None None.

(** ** The result *)

Record ResultContext := mkContext {
  rc_session_id : SessionId;
  rc_generation_id : SessionGenerationId;
  rc_turn_id : TurnId;
  rc_submitted_at_ms : TimestampMs;
  rc_prompt_acknowledged_at_ms : option TimestampMs;
  rc_terminal_candidate_at_ms : option TimestampMs;
  rc_completed_at_ms : TimestampMs;
  rc_drain_stable_for_ms : N;
  rc_compatibility : CompatibilityReport;
  rc_dangerous_permission_bypass : bool;
  rc_evidence : TerminalEvidence;
  rc_arrival_order : ArrivalOrderObservations;
}.

Section Result.
Variable str_debug : string -> string.

Definition result_warnings (c : ResultContext) (a : TranscriptAnalysis) : list ProtocolWarning :=
  (map_warning str_debug <$> ta_warnings a)
  ++ compatibility_warnings (rc_compatibility c)
  ++ permission_bypass_warnings (rc_dangerous_permission_bypass c)
  ++ (if te_lifecycle_expected (rc_evidence c) && negb (te_lifecycle_hook_observed (rc_evidence c))
      then [mkWarning "lifecycle_hook_missing"
              "Hybrid lifecycle hook was not observed before transcript completion" JNull]
      else [])
  ++ (if ta_stop_hook_summary_seen a && negb (te_lifecycle_expected (rc_evidence c))
      then [mkWarning "caller_stop_hook_observed"
              "a caller-installed Claude Stop hook ran during this turn" JNull]
      else [])
  ++ (if 0 <? ta_api_error_retries_seen a
      then [mkWarning "claude_api_retry_observed"
              "Claude retried the model request after a transport error during this turn"
              (jobj [("api_error_rows", JNum (ta_api_error_retries_seen a))]%string)]
      else []).

Definition result_timings (c : ResultContext) : TurnTimings :=
  mkTimings (rc_submitted_at_ms c) (rc_prompt_acknowledged_at_ms c) (rc_terminal_candidate_at_ms c)
    (rc_completed_at_ms c) (Some (rc_drain_stable_for_ms c))
    (checked_sub (rc_completed_at_ms c) (rc_drain_stable_for_ms c))
    (te_lifecycle_hook_at_ms (rc_evidence c))
    (ao_turn_duration_observed_at_ms (rc_arrival_order c))
    (ao_post_turn_duration_row_observed_at_ms (rc_arrival_order c)).

(** [None] is the panic of [unreachable!]. *)
Definition build_turn_result (c : ResultContext) (a : TranscriptAnalysis) : option TurnResult :=
  match ta_status a with
  | Terminal final_turn =>
      Some (mkTurnResult (rc_session_id c) (rc_generation_id c) (rc_turn_id c)
        (match ft_outcome final_turn with ApiError => OutcomeFailed | _ => OutcomeCompleted end)
        (ft_final_text final_turn)
        (MbText <$> ft_final_text_blocks final_turn)
        (map_tool_record <$> ta_tools a)
        (ft_model final_turn)
        (map_stop_reason <$> ft_stop_reason final_turn)
        {| ub_main := map_usage (ut_tokens (ta_usage a));
           ub_sidechain := map_usage (ut_tokens (ta_sidechain_usage a));
           ub_combined := map_usage (ut_tokens (ta_combined_usage a));
           ub_cost_usd := None |}
        (ta_sidechain_rows a)
        (result_timings c)
        (result_warnings c a)
        (cr_claude_version (rc_compatibility c))
        (rc_compatibility c)
        (mkProvenance TranscriptAuthority (bool_decide (is_Some (ta_acknowledgement a))) true
           (te_ready_prompt (rc_evidence c)) (te_quiet (rc_evidence c)) true
           (te_lifecycle_hook_observed (rc_evidence c)))
        0)
  | _ => None
  end.

End Result.
