(* ===== verification/RowIdentity.v ===== *)
(** * Whose row it is

    The identity checks of [FileTranscriptSource] in [crates/service/src/driver_io.rs]: a
    row of the transcript is believed only when it carries the session id the tail is armed
    on and a working directory inside the task. *)

From S2P Require Import Prelude Text Protocol Transcript Cursor Parser Session Screen Backend TurnResults.

(** What the checks use of other packages and of the operating system. *)
Class Outside := {
  (** The [Debug] form of a string. *)
  out_str_debug : string -> string;
  (** [serde_json::from_slice] into a [Value]; the error is its message. *)
  out_from_slice : list N -> result json string;
  (** [Uuid::parse_str] and [Uuid]'s [Display]. *)
  parse_uuid : string -> option SessionId;
  print_uuid : SessionId -> string;
  (** [nfc] of a path as text. *)
  nfc_str : string -> string;
  (** [Path::canonicalize], then lossily as text. *)
  canonicalize : string -> option string;
}.

Section RowIdentity.
Context `{Outside}.

Definition parse_row (l : CompleteLine) : result ParsedRow TranscriptError :=
  Parser.parse out_str_debug out_from_slice Strict l.

Definition map_transcript_error (e : TranscriptError) : DriverFailure :=
  DriverFailure_new Protocol.SchemaDrift (transcript_error_display out_str_debug e).

Definition identity_bound_row_kind (k : RowKind) : option string :=
  match k with
  | TypedUser _ _ => Some "typed_user"
  | Assistant _ => Some "assistant"
  | UserToolResults _ => Some "user_tool_results"
  | UserOther => Some "user_other"
  | Attachment _ => Some "attachment"
  | System _ | Unknown _ | Metadata _ => None
  end%string.

Definition OMITS_CWD : list string :=
  ["session_context"; "date"; "prompt_snapshot"; "environment"; "model"; "total_tokens_reminder";
   "remote_session_change"; "instructions"; "mcp_instructions_delta"; "deferred_tools_record"]%string.

Definition prompt_chain_attachment_omits_top_level_cwd (attachment_type : string) : bool :=
  mem_str attachment_type OMITS_CWD.

Definition identity_failure (row : ParsedRow) (row_kind field violation : string) : DriverFailure :=
  df_with_details
    (jobj [("field", JStr field); ("violation", JStr violation); ("row_kind", JStr row_kind);
           ("line", diagnostic_u64 (line (source row)))]%string)
    (DriverFailure_new Protocol.SchemaDrift
       ("semantic transcript row identity validation failed (" +:+ row_kind +:+ "." +:+ field +:+ "=" +:+ violation
        +:+ " line=" +:+ pretty (line (source row)) +:+ ")")%string).

(** ** The working directory *)

Definition normalize_candidate_cwd (value : string) : string :=
  match canonicalize value with None => nfc_str value | Some path => nfc_str path end.

Definition slashed (value : string) : list N := (fun b => if b =? 92 then 47 else b) <$> bytes value.

Definition cwd_relation_class (expected actual : string) : string :=
  let actual_n := normalize_candidate_cwd actual in
  if String.eqb actual_n expected then "task"
  else if path_starts_with (path_from actual_n) (path_from expected) then "descendant"
  else if path_starts_with (path_from expected) (path_from actual_n) then "ancestor"
  else
    let s := slashed actual_n in
    if contains (text_of "/stateful/") s || contains (text_of "/tmp/pmux") s then "isolation"
    else if starts_with (text_of "/home/") s || starts_with (text_of "/Users/") s then "home"
    else "other".

Definition cwd_matches_task (expected actual : string) : bool :=
  mem_str (cwd_relation_class expected actual) ["task"; "descendant"]%string.

Definition identity_cwd_mismatch (row : ParsedRow) (row_kind actual expected : string) : DriverFailure :=
  let actual_class := cwd_relation_class expected actual in
  df_with_details
    (jobj [("field", JStr "cwd"); ("violation", JStr "mismatch"); ("row_kind", JStr row_kind);
           ("line", diagnostic_u64 (line (source row))); ("actual_class", JStr actual_class);
           ("expected_class", JStr "task")]%string)
    (DriverFailure_new Protocol.SchemaDrift
       ("semantic transcript row identity validation failed (" +:+ row_kind +:+ ".cwd=mismatch line="
        +:+ pretty (line (source row)) +:+ " actual=" +:+ actual_class +:+ " expected=task)")%string).

(** The checks of a working directory a row carries. *)
Definition validate_cwd_value (expected_cwd : string) (row : ParsedRow) (row_kind : string) (value : json) :
    result unit DriverFailure :=
  let? cwd := ok_or (json_as_str value) (identity_failure row row_kind "cwd" "invalid_type") in
  if negb (path_absolute (path_from cwd)) then Err (identity_failure row row_kind "cwd" "not_absolute")
  else if negb (cwd_matches_task expected_cwd cwd) then Err (identity_cwd_mismatch row row_kind cwd expected_cwd)
  else Ok tt.

Definition validate_semantic_cwd (expected_cwd : string) (row : ParsedRow) (row_kind : string) (required : bool) :
    result unit DriverFailure :=
  match json_get "cwd" (raw row) with
  | None => if required then Err (identity_failure row row_kind "cwd" "missing") else Ok tt
  | Some value => validate_cwd_value expected_cwd row row_kind value
  end.

(** ** The session *)

Definition validate_session (expected : SessionId) (row : ParsedRow) (row_kind s : string) : result unit DriverFailure :=
  let? parsed := ok_or (parse_uuid s) (identity_failure row row_kind "session_id" "invalid_uuid") in
  if negb (parsed =? expected) then Err (identity_failure row row_kind "session_id" "mismatch") else Ok tt.

Definition validate_semantic_identity (expected_cwd : string) (expected : SessionId) (row : ParsedRow) :
    result unit DriverFailure :=
  match identity_bound_row_kind (kind row) with
  | None => Ok tt
  | Some row_kind =>
      let? s := ok_or (session_id (common row)) (identity_failure row row_kind "session_id" "missing") in
      let? _ := validate_session expected row row_kind s in
      validate_semantic_cwd expected_cwd row row_kind
        (match kind row with
         | Attachment attachment_type => negb (prompt_chain_attachment_omits_top_level_cwd attachment_type)
         | _ => true
         end)
  end.

(** What an allowlisted metadata row of a preamble says about itself. *)
Inductive MetadataIdentity := Stamped | Unstamped.

Definition LAST_PROMPT_RECORD_TYPE : string := "last-prompt".
Definition LAST_PROMPT_FIELD : string := "lastPrompt".

Definition preamble_metadata_disposition (record_type : string) : option MetadataIdentity :=
  if mem_str record_type ["mode"; "permission-mode"; "bridge-session"; LAST_PROMPT_RECORD_TYPE]%string then Some Stamped
  else if String.eqb record_type "file-history-snapshot" then Some Unstamped
  else None.

Definition validate_metadata_identity (expected_cwd : string) (expected : SessionId) (row : ParsedRow)
    (disposition : MetadataIdentity) : result unit DriverFailure :=
  let? _ :=
    match disposition, session_id (common row) with
    | Stamped, None => Err (identity_failure row "metadata" "session_id" "missing")
    | _, Some s => validate_session expected row "metadata" s
    | Unstamped, None => Ok tt
    end in
  match json_get "cwd" (raw row) with
  | None => Ok tt
  | Some value => validate_cwd_value expected_cwd row "metadata" value
  end.

(** ** What the checks establish *)

(** The row carries this session's id. *)
Definition stamped_by (expected : SessionId) (row : ParsedRow) : Prop :=
  exists s, session_id (common row) = Some s /\ parse_uuid s = Some expected.

(** A working directory the row carries is an absolute path that names the task's
    directory or one inside it, once links and composed characters are resolved. *)
Definition inside_task (expected_cwd : string) (row : ParsedRow) : Prop :=
  forall value, json_get "cwd" (raw row) = Some value ->
    exists cwd, value = JStr cwd /\ path_absolute (path_from cwd) = true /\
      (normalize_candidate_cwd cwd = expected_cwd \/
       path_starts_with (path_from (normalize_candidate_cwd cwd)) (path_from expected_cwd) = true).

Lemma cwd_matches_task_spec expected actual :
  cwd_matches_task expected actual = true <->
  normalize_candidate_cwd actual = expected \/
  path_starts_with (path_from (normalize_candidate_cwd actual)) (path_from expected) = true.
Proof.
  unfold cwd_matches_task, cwd_relation_class. set (a := normalize_candidate_cwd actual).
  destruct (String.eqb_spec a expected) as [->|Hne]; [split; [by left|done]|].
  destruct (path_starts_with (path_from a) (path_from expected)) eqn:Hd; [split; [by right|done]|].
  repeat case_match; (split; [discriminate|by intros [?|?]]).
Qed.

Lemma validate_cwd_value_Ok expected_cwd row k value :
  validate_cwd_value expected_cwd row k value = Ok tt <->
  exists cwd, value = JStr cwd /\ path_absolute (path_from cwd) = true /\ cwd_matches_task expected_cwd cwd = true.
Proof.
  unfold validate_cwd_value. destruct value; simpl; try (split; [discriminate|by intros (? & ? & ?)]).
  destruct (path_absolute _) eqn:Ha; simpl; [|split; [discriminate|intros (c & [= <-] & Hc & _); congruence]].
  destruct (cwd_matches_task _ _) eqn:Hm; simpl; [|split; [discriminate|intros (c & [= <-] & _ & Hc); congruence]].
  split; [|done]. intros _. by exists s.
Qed.

Lemma validate_session_Ok expected row k s :
  validate_session expected row k s = Ok tt <-> parse_uuid s = Some expected.
Proof.
  unfold validate_session. destruct (parse_uuid s) as [i|]; simpl; [|naive_solver].
  destruct (N.eqb_spec i expected); simpl; naive_solver.
Qed.

Lemma inside_task_of expected_cwd row k :
  match json_get "cwd" (raw row) with None => Ok tt | Some value => validate_cwd_value expected_cwd row k value end = Ok tt ->
  inside_task expected_cwd row.
Proof.
  intros Hv value Hg. rewrite Hg in Hv. apply validate_cwd_value_Ok in Hv as (cwd & -> & Ha & Hm).
  exists cwd. split; [done|]. split; [done|]. by apply cwd_matches_task_spec.
Qed.

Lemma validate_semantic_identity_Ok expected_cwd expected row :
  validate_semantic_identity expected_cwd expected row = Ok tt ->
  identity_bound_row_kind (kind row) = None \/ stamped_by expected row /\ inside_task expected_cwd row.
Proof.
  unfold validate_semantic_identity. destruct (identity_bound_row_kind (kind row)) as [k|] eqn:Hk; [|by left].
  intros Hv. right. res_inv. destruct (session_id (common row)) as [s|] eqn:Hs; [|discriminate].
  simplify_eq. match goal with u : unit |- _ => destruct u end.
  match goal with H' : validate_session _ _ _ _ = _ |- _ => apply validate_session_Ok in H' as Hu end.
  split; [by exists x|]. unfold validate_semantic_cwd in Hv.
  apply (inside_task_of _ _ k). destruct (json_get "cwd" (raw row)); [done|done].
Qed.

Lemma validate_metadata_identity_Ok expected_cwd expected row d :
  validate_metadata_identity expected_cwd expected row d = Ok tt ->
  (d = Stamped -> stamped_by expected row) /\ (forall s, session_id (common row) = Some s -> parse_uuid s = Some expected) /\
  inside_task expected_cwd row.
Proof.
  unfold validate_metadata_identity. intros (u & Hs & Hc)%result_bind_Ok. destruct u.
  assert (Hall : forall s, session_id (common row) = Some s -> parse_uuid s = Some expected).
  { intros s E. rewrite E in Hs. destruct d; by apply validate_session_Ok in Hs. }
  split; [|split; [done|by apply inside_task_of in Hc]]. intros ->.
  destruct (session_id (common row)) as [s|] eqn:E; [|discriminate]. exists s. by split; [|apply Hall].
Qed.

End RowIdentity.
