(* ===== verification/Tail.v ===== *)
(** * The transcript tail

    [FileTranscriptSource] of [crates/service/src/driver_io.rs]: arming at the end of a
    transcript, polling what was appended, and the record of the session ids a [/clear]
    abandoned. The file system answers every call anew ([Files]); the source is threaded
    through, on the error paths too, because a failed poll may have moved the cursor.
    Durations are in nanoseconds. *)

From S2P Require Import Prelude Text Protocol Composer Transcript Cursor Parser Session Screen Backend Menu Task Gate TurnResults RowIdentity.

Definition MAX_TRANSCRIPT_READ_BYTES : N := 64 * 1024 * 1024.
Definition MAX_REMEMBERED_ROTATIONS : nat := 8.
Definition CLEAR_REBIND_TIMEOUT : N := 2000 * 1000000.
Definition ROTATION_POLL_INTERVAL : N := 10 * 1000000.

Record LocatedTranscript := mkLocated { lt_path : string; lt_project_directory : string }.

(** A [source] is the [Display] of the operating system's error. *)
Inductive TranscriptLocationError :=
| RelativeConfigRoot (path : string)
| InvalidCwd (path source : string)
| LocationIo (path source : string)
| ScanLimit
| LocationNotFound (session_id : string)
| Ambiguous (session_id : string) (paths : list string).

Class Files := {
  locate_answer : nat -> SessionId -> result LocatedTranscript TranscriptLocationError;
  (** [std::fs::metadata] of the path and [File::metadata] of the file opened there. *)
  path_metadata : nat -> string -> result FileMetadata string;
  file_metadata : nat -> string -> result FileMetadata string;
  open_answer : nat -> string -> result unit string;
  seek_answer : nat -> string -> result unit string;
  (** What the file opened there holds from an offset on. *)
  file_bytes : nat -> string -> N -> result (list N) string;
  (** [read_dir]: the failure of the listing, or per entry its own failure, or its path,
      and whether it is a file, which may not be known. *)
  dir_entries : nat -> string -> result (list (result (string * result bool string) string)) string;
  tail_poisoned : nat -> bool;
  tail_instant : nat -> N;
}.

(** What a transcript that has served no work looks like. *)
Record EmptinessProof := mkEmptiness {
  em_session_id : SessionId;
  em_rows : N;
  em_bytes : N;
  em_clear_command_seen : bool;
  em_pending_bytes : N;
}.

Inductive TailEvent :=
| StatPath (m : FileMetadata)
| ReadBytes (identity : FileIdentity) (from : N) (bytes : list N)
(** A look at a transcript that should have served no work, and a dated reading of the clock. *)
| Judged (proof : option EmptinessProof)
| JudgedAt (now : N)
(** The transcripts a directory held, and the session id the first row of a new one names. *)
| Listed (transcripts : list string)
| Anchored (path : string) (anchor : option SessionId).

Record TailState := mkTail {
  tl_session_id : SessionId;
  tl_armed : bool;
  tl_path : option string;
  tl_cursor : TranscriptCursor;
  tl_generation : N;
  tl_last_change : N;
}.

Record RotationRecord := mkRotation {
  rr_abandoned : SessionId;
  rr_successor : option SessionId;
  rr_observed_at : N;
}.

Record FileTranscriptSource := mkSource {
  ft_expected_cwd : string;
  ft_state : TailState;
  ft_rotations : list RotationRecord;
  ft_rebind_timeout : N;
}.

Definition TailState_new (session_id : SessionId) (now : N) : TailState :=
  mkTail session_id false None TranscriptCursor_new 1 now.

Definition tail_position (s : TailState) : TranscriptPosition :=
  mkPosition (tl_generation s) (next_offset (tl_cursor s)).

Definition set_tail (t : TailState) (s : FileTranscriptSource) : FileTranscriptSource :=
  mkSource (ft_expected_cwd s) t (ft_rotations s) (ft_rebind_timeout s).
Definition set_rotations (r : list RotationRecord) (s : FileTranscriptSource) : FileTranscriptSource :=
  mkSource (ft_expected_cwd s) (ft_state s) r (ft_rebind_timeout s).
Definition with_armed (t : TailState) : TailState :=
  mkTail (tl_session_id t) true (tl_path t) (tl_cursor t) (tl_generation t) (tl_last_change t).
Definition with_path (path : string) (t : TailState) : TailState :=
  mkTail (tl_session_id t) (tl_armed t) (Some path) (tl_cursor t) (tl_generation t) (tl_last_change t).
Definition with_cursor (c : TranscriptCursor) (t : TailState) : TailState :=
  mkTail (tl_session_id t) (tl_armed t) (tl_path t) c (tl_generation t) (tl_last_change t).
Definition with_generation (g : N) (t : TailState) : TailState :=
  mkTail (tl_session_id t) (tl_armed t) (tl_path t) (tl_cursor t) g (tl_last_change t).
Definition with_last_change (now : N) (t : TailState) : TailState :=
  mkTail (tl_session_id t) (tl_armed t) (tl_path t) (tl_cursor t) (tl_generation t) now.

(** ** The monad: a task over the source, which may fail *)

Abbreviation TT := (T TailEvent).
Definition M (A : Type) : Type := FileTranscriptSource -> TT (DriverResult A * FileTranscriptSource).

Definition ret {A} (x : A) : M A := fun s => tret (Ok x, s).
Definition fail {A} (f : DriverFailure) : M A := fun s => tret (Err f, s).
Definition bind {A B} (m : M A) (k : A -> M B) : M B :=
  fun s => let% p := m s in
           match p with (Ok x, s') => k x s' | (Err f, s') => tret (Err f, s') end.
Definition get : M FileTranscriptSource := fun s => tret (Ok s, s).
Definition modify_tail (f : TailState -> TailState) : M unit := fun s => tret (Ok tt, set_tail (f (ft_state s)) s).
(** A step that leaves the source as it is. *)
Definition perform {A} (t : TT A) : M A := fun s => let% x := t in tret (Ok x, s).
Definition check {A} (r : DriverResult A) : M A := fun s => tret (r, s).

Notation "'let&' x := m 'in' k" := (bind m (fun x => k))
  (at level 10, x name, m at level 100, k at level 200) : pmux_scope.
Notation "m1 ';&' m2" := (bind m1 (fun _ => m2)) (at level 95, right associativity) : pmux_scope.

(** [loop { ... }]: [inl] is the next round, [inr] is [return]. *)
Definition repeat_m {L R} (rounds : nat) (body : L -> M (L + R)) (l : L) : M R :=
  fun s =>
    iterate rounds (fun '(l, s) =>
      let% p := body l s in
      tret (match p with
            | (Ok (inl l'), s') => inl (l', s')
            | (Ok (inr x), s') => inr (Ok x, s')
            | (Err f, s') => inr (Err f, s')
            end)) (l, s).

(** ** Failures *)

Definition drift (message : string) : DriverFailure := DriverFailure_new Protocol.SchemaDrift message.

Definition poisoned_tail : DriverFailure := DriverFailure_new Internal "transcript tail lock was poisoned".

Definition io_failure (path error : string) : DriverFailure :=
  DriverFailure_new TranscriptUnavailable ("failed to read transcript " +:+ path +:+ ": " +:+ error)%string.

Definition unarmed_tail_failure (message : string) : DriverFailure :=
  df_with_details (jobj [("field", JStr "session_id"); ("violation", JStr "rebind_requires_rearm")]%string) (drift message).

Definition path_unavailable : DriverFailure :=
  DriverFailure_new TranscriptUnavailable "transcript path is unavailable".

Definition location_error_display (paths_debug : list string -> string) (e : TranscriptLocationError) : string :=
  match e with
  | RelativeConfigRoot path => "Claude configuration root must be absolute: " +:+ path
  | InvalidCwd path source => "Claude cwd is unavailable: " +:+ path +:+ ": " +:+ source
  | LocationIo path source => "failed to inspect Claude transcript storage at " +:+ path +:+ ": " +:+ source
  | ScanLimit => "transcript scan exceeded 10000 project directories"
  | LocationNotFound session_id => "no validated main transcript exists yet for session " +:+ session_id
  | Ambiguous session_id paths =>
      "multiple validated transcripts exist for session " +:+ session_id +:+ ": " +:+ paths_debug paths
  end%string.

Definition ensure_same_transcript_generation (expected actual : FileIdentity) : DriverResult unit :=
  if bool_decide (expected = actual) then Ok tt
  else Err (DriverFailure_new TranscriptUnavailable
              "transcript file generation changed during an active filesystem observation").

Definition ensure_same_transcript_length (expected actual : N) (message : string) : DriverResult unit :=
  if expected =? actual then Ok tt else Err (drift message).

Definition ensure_protocol_transcript_offset (offset : N) : DriverResult unit :=
  if offset <=? MAX_SAFE_JSON_INTEGER then Ok tt
  else Err (df_with_details (jobj [("offset", diagnostic_u64 offset)]%string)
              (drift "transcript row offset is outside protocol-v1's safe integer domain")).

Section Tail.
Context `{Outside} `{Files}.

(** [Debug] of a list of paths. *)
Definition paths_debug (paths : list string) : string :=
  ("[" +:+ join ", " (out_str_debug <$> paths) +:+ "]")%string.

Definition map_location_error (e : TranscriptLocationError) : DriverFailure :=
  DriverFailure_new
    (match e with
     | RelativeConfigRoot _ | InvalidCwd _ _ => InvalidConfig
     | LocationNotFound _ => TranscriptUnavailable
     | Ambiguous _ _ | ScanLimit => Protocol.SchemaDrift
     | LocationIo _ _ => TranscriptUnavailable
     end) (location_error_display paths_debug e).

(** ** The calls *)

Definition now : M N := perform (read_instant tail_instant).

(** [since.elapsed().as_millis()]. *)
Definition elapsed_ms (since : N) : M N := let& t := now in ret ((t - since) / 1000000).

Definition lock : M unit :=
  let& poisoned := perform (ask tail_poisoned) in if (poisoned : bool) then fail poisoned_tail else ret tt.

Definition io {A} (path : string) (answers : nat -> result A string) : M A :=
  let& r := perform (ask answers) in check (map_err (io_failure path) r).

Definition metadata_for (path : string) : M FileMetadata :=
  let& m := io path (fun k => path_metadata k path) in perform (log (StatPath m)) ;& ret m.

Definition metadata_for_file (path : string) : M FileMetadata := io path (fun k => file_metadata k path).

Definition open_file (path : string) : M unit := io path (fun k => open_answer k path).
Definition seek (path : string) : M unit := io path (fun k => seek_answer k path).

(** [Read::read_exact] after a seek. *)
Definition read_exact (path : string) (from len : N) : M (list N) :=
  let& bytes := io path (fun k => file_bytes k path from) in
  if N.of_nat (length bytes) <? len then fail (io_failure path "failed to fill whole buffer")
  else ret (take (N.to_nat len) bytes).

Definition tail : M TailState := let& s := get in ret (ft_state s).

(** ** Rotations *)

Definition rotation_record (session_id : SessionId) : M (option RotationRecord) :=
  lock ;&
  let& s := get in
  ret (find (fun r => rr_abandoned r =? session_id) (reverse (ft_rotations s))).

(** At most [MAX_REMEMBERED_ROTATIONS] are kept, the newest last. *)
Definition remember (r : RotationRecord) (l : list RotationRecord) : list RotationRecord :=
  let l := l ++ [r] in drop (length l - MAX_REMEMBERED_ROTATIONS) l.

Definition record_rotation (abandoned : SessionId) (successor : option SessionId) : M unit :=
  lock ;&
  let& t := now in
  fun s => tret (Ok tt, set_rotations (remember (mkRotation abandoned successor t) (ft_rotations s)) s).

Record BoundTranscriptQuiet := mkQuiet { bq_quiet_ms : N; bq_offset : N }.

Definition rotation_failure (r : RotationRecord) (cleared_ms_ago : N) (quiet : option BoundTranscriptQuiet) : DriverFailure :=
  let '(message, violation) :=
    match rr_successor r with
    | Some _ => ("the bound transcript was abandoned by /clear and this tail was never re-armed on the rotated session",
                 "transcript_rotated")
    | None => ("/clear abandoned the bound transcript and no replacement transcript could be identified",
               "clear_rebind_failed")
    end%string in
  df_with_details
    (jobj ([("field", JStr "session_id"); ("violation", JStr violation);
            ("abandoned_session_id", JStr (print_uuid (rr_abandoned r)));
            ("rebound_session_id", match rr_successor r with Some i => JStr (print_uuid i) | None => JNull end);
            ("cleared_ms_ago", diagnostic_u64 (N.min cleared_ms_ago U64_MAX))]%string ++
           match quiet with
           | Some q => [("bound_transcript_quiet_ms", diagnostic_u64 (bq_quiet_ms q));
                        ("bound_transcript_offset", diagnostic_u64 (bq_offset q))]%string
           | None => []
           end))
    (DriverFailure_new TranscriptUnavailable message).

Definition into_failure {A} (r : RotationRecord) (quiet : option BoundTranscriptQuiet) : M A :=
  let& ago := elapsed_ms (rr_observed_at r) in fail (rotation_failure r ago quiet).

(** ** Arming *)

Definition ARM_LENGTH : string := "transcript length changed while establishing the arm boundary".

(** The file is still the one of [metadata], no longer and no shorter. *)
Definition same_file (metadata actual : FileMetadata) : M unit :=
  check (ensure_same_transcript_generation (fm_identity metadata) (fm_identity actual)) ;&
  check (ensure_same_transcript_length (fm_len metadata) (fm_len actual) ARM_LENGTH).

Definition seek_to_observed_eof (path : string) (metadata : FileMetadata) : M unit :=
  open_file path ;&
  let& opened := metadata_for_file path in
  same_file metadata opened ;&
  (if 0 <? fm_len metadata then
     seek path ;&
     let& final := read_exact path (fm_len metadata - 1) 1 in
     if bool_decide (final = [LF]) then ret tt
     else fail (df_with_details
                  (jobj [("field", JStr "jsonl_boundary"); ("violation", JStr "unterminated_record");
                         ("offset", diagnostic_u64 (fm_len metadata - 1))]%string)
                  (drift "cannot arm at an incomplete transcript record"))
   else ret tt) ;&
  let& read := metadata_for_file path in
  same_file metadata read ;&
  let& again := metadata_for path in
  same_file metadata again ;&
  modify_tail (fun t => with_cursor (seek_to_eof metadata (tl_cursor t)) t) ;&
  let& t := now in
  modify_tail (with_last_change t).

Definition seek_to_validated_eof : M unit :=
  let& t := tail in
  let& path := check (ok_or (tl_path t) path_unavailable) in
  let& metadata := metadata_for path in
  seek_to_observed_eof path metadata.

Definition locate (session_id : SessionId) : M (result LocatedTranscript TranscriptLocationError) :=
  perform (ask (fun k => locate_answer k session_id)).

Definition arm_sync (session_id : SessionId) : M TranscriptArm :=
  let& record := rotation_record session_id in
  match record with
  | Some record => into_failure record None
  | None =>
      lock ;&
      let& t := now in
      modify_tail (fun _ => TailState_new session_id t) ;&
      let& located := locate session_id in
      (match located with
       | Ok located => modify_tail (with_path (lt_path located)) ;& seek_to_validated_eof
       | Err (LocationNotFound _) => ret tt
       | Err error => fail (map_location_error error)
       end) ;&
      modify_tail with_armed ;&
      let& t := tail in
      ret (mkArm (tail_position t) [])
  end.

(** ** Polling *)

Fixpoint collect_rows (expected_cwd : string) (expected : SessionId) (lines : list CompleteLine) :
    DriverResult (list ParsedRow) :=
  match lines with
  | [] => Ok []
  | l :: lines =>
      let? _ := ensure_protocol_transcript_offset (byte_offset (location l)) in
      let? row := map_err map_transcript_error (parse_row l) in
      let? _ := validate_semantic_identity expected_cwd expected row in
      let? rows := collect_rows expected_cwd expected lines in
      Ok (row :: rows)
  end.

Definition INVERTED : DriverFailure := drift "transcript cursor produced an inverted read range".

Definition read_observed_range (path : string) (metadata : FileMetadata) (from to : N) :
    M (list ParsedRow * FileIdentity) :=
  open_file path ;&
  let& opened := metadata_for_file path in
  check (ensure_same_transcript_generation (fm_identity metadata) (fm_identity opened)) ;&
  (if fm_len opened <? to
   then fail (drift "transcript was truncated before an active range could be read") else ret tt) ;&
  seek path ;&
  let& read_len := check (ok_or (checked_sub to from) INVERTED) in
  let& bytes := read_exact path from read_len in
  perform (log (ReadBytes (fm_identity metadata) from bytes)) ;&
  let& s := get in
  let expected := tl_session_id (ft_state s) in
  let '(pushed, cursor) := push (fm_identity metadata) from bytes (tl_cursor (ft_state s)) in
  modify_tail (with_cursor cursor) ;&
  let& update := check (map_err map_transcript_error pushed) in
  let& t := now in
  modify_tail (with_last_change t) ;&
  let& rows := check (collect_rows (ft_expected_cwd s) expected (cu_lines update)) in
  let& read := metadata_for_file path in
  check (ensure_same_transcript_generation (fm_identity metadata) (fm_identity read)) ;&
  (if fm_len read <? cu_next_offset update
   then fail (drift "transcript was truncated while an active range was being read") else ret tt) ;&
  ret (rows, fm_identity metadata).

Definition read_available : M (list ParsedRow * FileIdentity) :=
  let& t := tail in
  let& path := check (ok_or (tl_path t) path_unavailable) in
  let& metadata := metadata_for path in
  let& t := tail in
  let '(observation, cursor) := observe metadata (tl_cursor t) in
  modify_tail (with_cursor cursor) ;&
  (match co_change observation with
   | Replaced _ _ | Truncated _ _ =>
       let& next := check (ok_or (Prelude.checked_add U64_MAX (tl_generation t) 1)
                             (drift "transcript cursor generation overflowed")) in
       modify_tail (with_generation next)
   | Initialized | Unchanged => ret tt
   end) ;&
  let& read_len := check (ok_or (checked_sub (read_to observation) (read_from observation)) INVERTED) in
  if MAX_TRANSCRIPT_READ_BYTES <? read_len then
    fail (df_with_details (jobj [("bytes", diagnostic_u64 read_len); ("limit", JNum MAX_TRANSCRIPT_READ_BYTES)]%string)
            (drift "transcript append exceeds the bounded read limit"))
  else if read_len =? 0 then ret ([], fm_identity metadata)
  else read_observed_range path metadata (read_from observation) (read_to observation).

Definition stable_for : M N :=
  let& t := tail in
  let& ms := elapsed_ms (tl_last_change t) in
  check (protocol_milliseconds ms "transcript stability duration").

Definition position_mismatch (t : TailState) (position : TranscriptPosition) : DriverFailure :=
  df_with_details
    (jobj [("expected_generation", diagnostic_u64 (tl_generation t));
           ("expected_offset", diagnostic_u64 (next_offset (tl_cursor t)));
           ("actual_generation", diagnostic_u64 (pos_generation position));
           ("actual_offset", diagnostic_u64 (pos_offset position))]%string)
    (drift "transcript poll position does not match the source cursor").

(** Reading the located transcript. *)
Definition poll_located : M TranscriptBatch :=
  let& read := read_available in
  let& t := tail in
  match tl_path t with
  | None => perform (tend Panicking)
  | Some path =>
      let& metadata := metadata_for path in
      check (ensure_same_transcript_generation (snd read) (fm_identity metadata)) ;&
      let& t := tail in
      (if fm_len metadata <? next_offset (tl_cursor t)
       then fail (drift "transcript was truncated during an active filesystem observation") else ret tt) ;&
      let& stable_for_ms := stable_for in
      ret (mkBatch (tail_position t) (fst read)
             (mkDrain (next_offset (tl_cursor t) =? fm_len metadata) (has_partial_line (tl_cursor t)) stable_for_ms))
  end.

Definition poll_sync (session_id : SessionId) (position : TranscriptPosition) : M TranscriptBatch :=
  let& rotation := rotation_record session_id in
  lock ;&
  let& t := tail in
  match rotation with
  | Some record =>
      let& quiet_ms := stable_for in
      into_failure record (Some (mkQuiet quiet_ms (next_offset (tl_cursor t))))
  | None =>
      if negb (tl_session_id t =? session_id) then
        let& n := now in
        modify_tail (fun _ => TailState_new session_id n) ;&
        fail (unarmed_tail_failure "transcript poll session identity does not match the armed tail")
      else if negb (tl_armed t) then
        fail (unarmed_tail_failure "transcript poll requires an arm boundary this tail does not have")
      else if negb (bool_decide (tail_position t = position)) then fail (position_mismatch t position)
      else match tl_path t with
      | Some _ => poll_located
      | None =>
          let& located := locate session_id in
          match located with
          | Ok located => modify_tail (with_path (lt_path located)) ;& poll_located
          | Err (LocationNotFound _) =>
              let& stable_for_ms := stable_for in
              ret (mkBatch (tail_position t) [] (mkDrain true false stable_for_ms))
          | Err error => fail (map_location_error error)
          end
      end
  end.

End Tail.
