(* ===== verification/TailProofs.v ===== *)
(** * What the transcript tail does

    The specifications of [Tail]: what an operation leaves of the source and which bytes it
    read. A poll that delivers rows read the bytes that follow the ones delivered before;
    a poll that fails after reading leaves the tail at another position than its caller. *)

From S2P Require Import Prelude Text Protocol Composer Transcript Cursor Parser Session Screen Backend Menu Task Gate TurnResults RowIdentity Tail.

(** ** Cursors *)

Abbreviation cursor_of s := (tl_cursor (ft_state s)).

(** Two cursors that frame the same way. *)
Definition like (c c' : TranscriptCursor) : Prop :=
  next_offset c' = next_offset c /\ pending_offset c' = pending_offset c /\ pending c' = pending c /\
  scan_from c' = scan_from c /\ next_line_number c' = next_line_number c.

(** A cursor at the start of a file has numbered no line, and only such a cursor may not
    know its file. *)
Definition good (c : TranscriptCursor) : Prop :=
  cursor_ok c /\ (next_offset c = 0 -> next_line_number c = 1) /\ (tc_identity c = None -> next_offset c = 0).

#[global] Instance like_equivalence : Equivalence like.
Proof.
  split.
  - intros c. by split_and!.
  - intros c d (? & ? & ? & ? & ?). by split_and!.
  - intros c d e (? & ? & ? & ? & ?) (? & ? & ? & ? & ?). split_and!; congruence.
Qed.

Lemma like_framed c c' bytes : like c c' -> framed c' bytes = framed c bytes.
Proof. intros (_ & E1 & E2 & _ & E3). unfold framed. by rewrite E1, E2, E3. Qed.

Lemma like_advanced c c' bytes : like c c' -> like (advanced c bytes) (advanced c' bytes).
Proof.
  intros Hl. unfold advanced. rewrite (like_framed c c' bytes Hl). destruct (framed c bytes) as [ls tail].
  destruct Hl as (E1 & E2 & E3 & E4 & E5). split_and!; cbn; congruence.
Qed.

Lemma like_ok c c' : like c c' -> cursor_ok c -> cursor_ok c'.
Proof.
  intros (E1 & E2 & E3 & E4 & E5) [Hs Ho Hl]. split; congruence.
Qed.

Lemma advanced_nil c : cursor_ok c -> like c (advanced c []).
Proof.
  intros [Hs Ho Hl]. unfold advanced, framed. cbn. split_and!; cbn; try done; lia.
Qed.

Lemma advanced_app c b1 b2 : cursor_ok c -> like (advanced (advanced c b1) b2) (advanced c (b1 ++ b2)).
Proof.
  intros Hok. pose proof (framed_app c b1 b2 Hok) as Hf. pose proof (advanced_ok c b1 Hok) as Hok1.
  unfold advanced at 3. rewrite Hf. unfold advanced at 1.
  set (d := advanced c b1) in *. assert (Hn : next_offset d = next_offset c + N.of_nat (length b1)).
  { subst d. unfold advanced. by destruct (framed c b1). }
  assert (Hl : next_line_number d = next_line_number c + N.of_nat (length (fst (framed c b1)))).
  { subst d. unfold advanced. by destruct (framed c b1). }
  destruct (framed d b2) as [ls tail]. cbn [fst snd]. rewrite !length_app in *. split_and!; cbn; try done; try lia.
Qed.

Lemma next_offset_advanced c bytes : next_offset (advanced c bytes) = next_offset c + N.of_nat (length bytes).
Proof. unfold advanced. by destruct (framed c bytes). Qed.
Lemma identity_advanced c bytes : tc_identity (advanced c bytes) = tc_identity c.
Proof. unfold advanced. by destruct (framed c bytes). Qed.

Lemma good_advanced c bytes : good c -> bytes <> [] -> is_Some (tc_identity c) -> good (advanced c bytes).
Proof.
  intros (Hok & _ & _) Hne [i Hi]. split; [by apply advanced_ok|]. rewrite next_offset_advanced, identity_advanced, Hi.
  split; [|done]. destruct bytes; [done|]. cbn [length]. lia.
Qed.

Lemma good_reset i c : good (reset_for i c).
Proof. split; [split; [done..|apply not_elem_of_nil]|]. by split. Qed.

(** Looking at the file: nothing is consumed, or the cursor starts over. *)
Lemma observe_cases m c o c' :
  good c -> observe m c = (o, c') ->
  tc_identity c' = Some (fm_identity m) /\ good c' /\ read_from o = next_offset c' /\ read_to o = fm_len m /\
  observed_len c' = fm_len m /\
  match co_change o with
  | Unchanged => like c c' /\ tc_identity c = Some (fm_identity m)
  | Initialized => like c c' /\ tc_identity c = None
  | Replaced _ _ | Truncated _ _ => next_offset c' = 0 /\ (next_offset c = 0 -> like c c')
  end.
Proof.
  intros (Hok & Hline & Hnone). unfold observe.
  assert (Hreset : forall i n, good (with_observed n (reset_for i c))).
  { intros i n. split; [split; [done..|apply not_elem_of_nil]|]. by split. }
  assert (Hstart : forall i n, next_offset c = 0 -> like c (with_observed n (reset_for i c))).
  { intros i n H0. destruct Hok as [Hs Ho Hl]. rewrite H0 in Ho. specialize (Hline H0).
    assert (pending c = []) as Hp by (destruct (pending c); [done|cbn in Ho; lia]). rewrite Hp in *. cbn in *.
    split_and!; cbn; try done; try lia. }
  destruct (tc_identity c) as [i|] eqn:Hi.
  - case_bool_decide as Heq; cbn [negb].
    + subst i. destruct (N.ltb_spec (fm_len m) (next_offset c)) as [Hlt|Hge]; intros [= <- <-]; cbn.
      * split_and!; try done; try apply Hreset; apply Hstart.
      * split_and!; try done. split; [by destruct Hok|]. split; [done|]. cbn. by rewrite Hi.
    + intros [= <- <-]. cbn. split_and!; try done; try apply Hreset; apply Hstart.
  - intros [= <- <-]. cbn. split_and!; try done; try apply Hreset. apply Hstart. by apply Hnone.
Qed.

(** ** Specifications *)

Definition tells {A} (m : M A) (s : FileTranscriptSource) (Q : DriverResult A -> FileTranscriptSource -> list TailEvent -> Prop) : Prop :=
  says (m s) (fun p t => Q p.1 p.2 t) (fun _ _ => False).

Section Rules.
Context {A B : Type}.
Implicit Types (s : FileTranscriptSource) (t : list TailEvent).

Lemma tells_mono (m : M A) s (Q Q' : DriverResult A -> FileTranscriptSource -> list TailEvent -> Prop) :
  tells m s Q -> (forall r s' t, Q r s' t -> Q' r s' t) -> tells m s Q'.
Proof. intros Hm HQ. eapply says_mono; [exact Hm| |done]. intros [r s'] t. apply HQ. Qed.

Lemma tells_ret (x : A) s (Q : DriverResult A -> FileTranscriptSource -> list TailEvent -> Prop) :
  Q (Ok x) s [] -> tells (ret x) s Q.
Proof. intros HQ. by apply says_ret. Qed.

Lemma tells_fail f s (Q : DriverResult A -> FileTranscriptSource -> list TailEvent -> Prop) :
  Q (Err f) s [] -> tells (fail f) s Q.
Proof. intros HQ. by apply says_ret. Qed.

Lemma tells_bind (m : M A) (k : A -> M B) s P (Q : DriverResult B -> FileTranscriptSource -> list TailEvent -> Prop) :
  tells m s P ->
  (forall x s' t, P (Ok x) s' t -> tells (k x) s' (fun r s'' t' => Q r s'' (t ++ t'))) ->
  (forall f s' t, P (Err f) s' t -> Q (Err f) s' t) ->
  tells (bind m k) s Q.
Proof.
  intros Hm Hk He. eapply says_bind; [exact Hm|]. intros [[x|f] s'] t Hx; cbn [fst snd] in *; [by apply Hk|].
  apply says_ret. rewrite app_nil_r. by apply He.
Qed.

(** A step that touches nothing. *)
Lemma tells_step (m : M A) (k : A -> M B) s (P : A -> Prop) Q :
  tells m s (fun r s' t => s' = s /\ t = [] /\ forall x, r = Ok x -> P x) ->
  (forall x, P x -> tells (k x) s Q) -> (forall f, Q (Err f) s []) -> tells (bind m k) s Q.
Proof.
  intros Hm Hk He. eapply tells_bind; [exact Hm| |].
  - intros x s' t (-> & -> & Hx). apply Hk. by apply Hx.
  - intros f s' t (-> & -> & _). apply He.
Qed.

End Rules.

Section Proofs.
Context `{Outside} `{Files}.

Definition quiet {A} (P : A -> Prop) (s : FileTranscriptSource) (r : DriverResult A) (s' : FileTranscriptSource)
    (t : list TailEvent) : Prop := s' = s /\ t = [] /\ forall x, r = Ok x -> P x.

Lemma now_tells s : tells now s (quiet (fun _ => True) s).
Proof. eapply says_bind; [by apply (says_read_instant _ (fun _ t => t = []))|]. intros x t ->. by apply says_ret. Qed.

Lemma ask_tells {A} (answers : nat -> A) s : tells (perform (ask answers)) s (quiet (fun x => exists k, x = answers k) s).
Proof. apply says_ask_at. intros k. apply says_ret. split_and!; [done..|]. intros x [= <-]. by exists k. Qed.

Lemma check_tells {A} (r : DriverResult A) s : tells (check r) s (quiet (fun x => r = Ok x) s).
Proof. apply says_ret. by split_and!. Qed.

Lemma get_tells s : tells get s (quiet (fun x => x = s) s).
Proof. apply says_ret. split_and!; [done..|]. by intros x [= <-]. Qed.

Lemma tail_tells s : tells tail s (quiet (fun x => x = ft_state s) s).
Proof.
  eapply tells_step; [apply get_tells| |done]. intros x ->. apply tells_ret. split_and!; [done..|]. by intros x [= <-].
Qed.

Lemma lock_tells s : tells lock s (quiet (fun _ => True) s).
Proof.
  eapply tells_step; [apply ask_tells| |done]. intros [] _; [by apply tells_fail|by apply tells_ret].
Qed.

Lemma io_tells {A} path (answers : nat -> result A string) s : tells (io path answers) s (quiet (fun x => exists k, answers k = Ok x) s).
Proof.
  eapply tells_step; [apply ask_tells| |done]. intros r [k ->]. eapply tells_mono; [apply check_tells|].
  intros r' s' t (-> & -> & Hr). split_and!; [done..|]. intros x ->. exists k. destruct (answers k); [|by specialize (Hr x eq_refl)].
  specialize (Hr x eq_refl). by injection Hr as ->.
Qed.

Lemma elapsed_tells since s : tells (elapsed_ms since) s (quiet (fun _ => True) s).
Proof. eapply tells_step; [apply now_tells| |done]. intros x _. by apply tells_ret. Qed.

Lemma modify_tells {A} f (k : unit -> M A) s Q :
  tells (k tt) (set_tail (f (ft_state s)) s) Q -> tells (bind (modify_tail f) k) s Q.
Proof.
  intros Hk. eapply (tells_bind _ _ _ (fun r s' t => r = Ok tt /\ s' = set_tail (f (ft_state s)) s /\ t = [])).
  - by apply says_ret.
  - intros [] s' t (_ & -> & ->). exact Hk.
  - by intros f' s' t (? & _).
Qed.

Lemma check_step {A B} (r : DriverResult A) (k : A -> M B) s Q :
  (forall x, r = Ok x -> tells (k x) s Q) -> (forall f, r = Err f -> Q (Err f) s []) -> tells (bind (check r) k) s Q.
Proof.
  intros Hk He. destruct r as [x|f]; [exact (Hk x eq_refl)|]. apply (tells_fail f s Q). by apply He.
Qed.

Lemma tail_step {B} (k : TailState -> M B) s Q : tells (k (ft_state s)) s Q -> tells (bind tail k) s Q.
Proof. intros Hk. exact Hk. Qed.

(** The bytes a trace shows as read. *)
Definition read_of (e : TailEvent) : option (FileIdentity * N * list N) :=
  match e with ReadBytes i from bytes => Some (i, from, bytes) | _ => None end.
Definition read_events (t : list TailEvent) : list (FileIdentity * N * list N) := omap read_of t.

Lemma read_events_app t t' : read_events (t ++ t') = read_events t ++ read_events t'.
Proof. apply omap_app. Qed.

Lemma metadata_tells path s :
  tells (metadata_for path) s (fun r s' t => s' = s /\ read_events t = [] /\
    match r with Ok m => t = [StatPath m] | Err _ => t = [] end).
Proof.
  eapply tells_step; [apply io_tells| |by intros f]. intros m _.
  eapply (tells_bind _ _ _ (fun r s' t => r = Ok tt /\ s' = s /\ t = [StatPath m])).
  - eapply says_bind; [by apply (says_log _ (fun _ t => t = [StatPath m]))|]. intros [] t ->. by apply says_ret.
  - intros [] s' t (_ & -> & ->). by apply tells_ret.
  - by intros f s' t (? & _).
Qed.

Lemma read_exact_tells path from len s :
  tells (read_exact path from len) s (quiet (fun bytes => N.of_nat (length bytes) = len) s).
Proof.
  eapply tells_step; [apply io_tells| |done]. intros bytes _. destruct (N.ltb_spec (N.of_nat (length bytes)) len).
  - by apply tells_fail.
  - apply tells_ret. split_and!; [done..|]. intros x [= <-]. rewrite length_take. lia.
Qed.

Lemma stable_for_tells s : tells stable_for s (quiet (fun _ => True) s).
Proof.
  eapply tells_step; [apply tail_tells| |done]. intros t ->. eapply tells_step; [apply elapsed_tells| |done].
  intros ms _. eapply tells_mono; [apply check_tells|]. intros r s' t (-> & -> & _). by split_and!.
Qed.

Lemma rotation_record_tells i s :
  tells (rotation_record i) s
    (quiet (fun r => r = find (fun r => rr_abandoned r =? i) (reverse (ft_rotations s))) s).
Proof.
  eapply tells_step; [apply lock_tells| |done]. intros _ _. eapply tells_step; [apply get_tells| |done]. intros x ->.
  apply tells_ret. split_and!; [done..|]. by intros x [= <-].
Qed.

Lemma into_failure_tells {A} r q s :
  tells (into_failure (A := A) r q) s (fun r' s' t => s' = s /\ t = [] /\ exists f, r' = Err f).
Proof.
  eapply tells_step; [apply elapsed_tells| |by intros f; split_and!; [..|exists f]]. intros ms _. apply tells_fail.
  split_and!; [done..|by eexists].
Qed.

(** ** Reading *)

(** What no read touches. *)
Definition frame (s s' : FileTranscriptSource) : Prop :=
  ft_expected_cwd s' = ft_expected_cwd s /\ ft_rotations s' = ft_rotations s /\
  tl_session_id (ft_state s') = tl_session_id (ft_state s) /\ tl_armed (ft_state s') = tl_armed (ft_state s) /\
  tl_generation (ft_state s) <= tl_generation (ft_state s') /\
  (tl_path (ft_state s) = None \/ tl_path (ft_state s') = tl_path (ft_state s)).

(** Nothing was consumed. *)
Definition stays (s s' : FileTranscriptSource) : Prop :=
  tl_generation (ft_state s') = tl_generation (ft_state s) /\ like (cursor_of s) (cursor_of s') /\ good (cursor_of s') /\
  (next_offset (cursor_of s) = 0 \/ tc_identity (cursor_of s') = tc_identity (cursor_of s)).

(** The bytes were consumed, and the rows are those they complete. *)
Definition took (s : FileTranscriptSource) (i : FileIdentity) (bytes : list N) (rows : list ParsedRow)
    (s' : FileTranscriptSource) : Prop :=
  bytes <> [] /\ tl_generation (ft_state s') = tl_generation (ft_state s) /\
  (next_offset (cursor_of s) = 0 \/ tc_identity (cursor_of s) = Some i) /\
  like (advanced (cursor_of s) bytes) (cursor_of s') /\ good (cursor_of s') /\ tc_identity (cursor_of s') = Some i /\
  collect_rows (ft_expected_cwd s) (tl_session_id (ft_state s)) (fst (framed (cursor_of s) bytes)) = Ok rows.

(** What a read did: nothing; it took the next bytes; it failed and left another position,
    so that what it consumed is not passed over in silence; or it found another life of the
    file. *)
Definition moved {A} (rows_of : A -> list ParsedRow) (s : FileTranscriptSource) (r : DriverResult A)
    (s' : FileTranscriptSource) (t : list TailEvent) : Prop :=
  frame s s' /\
  (stays s s' /\ (forall x, r = Ok x -> rows_of x = [] /\ read_events t = []) \/
   (exists x i bytes, r = Ok x /\ read_events t = [(i, next_offset (cursor_of s), bytes)] /\ took s i bytes (rows_of x) s') \/
   (exists f, r = Err f) /\ tail_position (ft_state s') <> tail_position (ft_state s) \/
   tl_generation (ft_state s) < tl_generation (ft_state s') /\ (forall x, r = Ok x -> good (cursor_of s'))).

Lemma frame_refl s : frame s s.
Proof. split_and!; try done. by right. Qed.
Lemma frame_trans s s1 s2 : frame s s1 -> frame s1 s2 -> frame s s2.
Proof.
  intros (E1 & E2 & E3 & E4 & Eg & Ep) (F1 & F2 & F3 & F4 & Fg & Fp). split_and!; try congruence; try lia.
  destruct Ep as [Ep|Ep]; [by left|]. destruct Fp as [Fp|Fp]; [left|right]; congruence.
Qed.
Ltac frame_done := split_and!; first [done | by right | cbn; lia].
Lemma stays_refl s : good (cursor_of s) -> stays s s.
Proof. intros Hg. split_and!; try done. by right. Qed.

Lemma moved_refl {A} (rows_of : A -> list ParsedRow) s f t : good (cursor_of s) -> moved rows_of s (Err f) s t.
Proof. intros Hg. split; [apply frame_refl|]. left. split; [by apply stays_refl|done]. Qed.

Lemma moved_lost {A} (rows_of : A -> list ParsedRow) s f s' t :
  frame s s' -> next_offset (cursor_of s') <> next_offset (cursor_of s) -> moved rows_of s (Err f) s' t.
Proof.
  intros Hf Hn. split; [done|]. right. right. left. split; [by exists f|]. unfold tail_position. intros [= _ E]. done.
Qed.

(** After the cursor was looked at under [metadata]. *)
Lemma read_observed_range_tells path metadata from to s :
  good (cursor_of s) -> tc_identity (cursor_of s) = Some (fm_identity metadata) -> next_offset (cursor_of s) = from ->
  from < to ->
  tells (read_observed_range path metadata from to) s (moved fst s).
Proof.
  intros Hg Hi Hfrom Hlt. assert (Hno : forall f t, moved (A := list ParsedRow * FileIdentity) fst s (Err f) s t)
    by (intros f t; by apply moved_refl).
  unfold read_observed_range.
  eapply tells_step; [apply io_tells|intros _ _|done]. eapply tells_step; [apply io_tells|intros opened _|done].
  apply check_step; [intros _ _|done].
  eapply (tells_step _ _ _ (fun _ => True)); [by case_match; [apply tells_fail|apply tells_ret]|intros _ _|done].
  eapply tells_step; [apply io_tells|intros _ _|done]. apply check_step; [intros len Hlen%ok_or_Ok|done].
  eapply tells_step; [apply read_exact_tells|intros bytes Hbytes|done].
  assert (Hne : N.of_nat (length bytes) <> 0).
  { unfold checked_sub in Hlen. destruct (N.leb_spec from to); [|lia]. injection Hlen as <-. lia. }
  eapply (tells_bind _ _ _ (fun r s' t => r = Ok tt /\ s' = s /\ t = [ReadBytes (fm_identity metadata) from bytes])).
  { eapply says_bind; [by apply (says_log _ (fun _ t => t = [ReadBytes (fm_identity metadata) from bytes]))|].
    intros [] t ->. by apply says_ret. }
  2: by intros f s' t (? & _).
  intros [] s' t (_ & -> & ->).
  eapply tells_step; [apply get_tells|intros x ->|done]. cbv zeta.
  destruct (push _ _ _ _) as [pushed c'] eqn:Hpush. apply modify_tells.
  destruct pushed as [u|e].
  2: { apply check_step; [done|]. intros f _. apply push_Err in Hpush as [->|Hn]; [|apply moved_lost; [frame_done|cbn; lia]].
       split; [frame_done|]. left. split; [|done]. split_and!; try done. by right. }
  apply push_Ok in Hpush as (_ & _ & Hlines & Hnext & ->); [|apply Hg]. apply check_step; [intros update [= <-]|done].
  assert (Hlost : forall g f t, frame s (set_tail (g (with_cursor (advanced (cursor_of s) bytes) (ft_state s))) s) ->
    tl_cursor (g (with_cursor (advanced (cursor_of s) bytes) (ft_state s))) = advanced (cursor_of s) bytes ->
    moved (A := list ParsedRow * FileIdentity) fst s (Err f)
      (set_tail (g (with_cursor (advanced (cursor_of s) bytes) (ft_state s))) s) t).
  { intros g f t Hf Hc. apply moved_lost; [done|]. cbn. rewrite Hc, next_offset_advanced. lia. }
  eapply tells_step; [apply now_tells|intros n _|by intros f; apply (Hlost id); [frame_done|]]. apply modify_tells.
  apply check_step; [intros rows Hrows|by intros f _; apply (Hlost (with_last_change n)); [frame_done|]].
  eapply tells_step; [apply io_tells|intros read _|by intros f; apply (Hlost (with_last_change n)); [frame_done|]].
  apply check_step; [intros _ _|by intros f _; apply (Hlost (with_last_change n)); [frame_done|]].
  eapply (tells_step _ _ _ (fun _ => True));
    [by case_match; [apply tells_fail|apply tells_ret]|intros _ _|by intros f; apply (Hlost (with_last_change n)); [frame_done|]].
  apply tells_ret. split; [frame_done|]. right. left. exists (rows, fm_identity metadata), (fm_identity metadata), bytes.
  split; [done|]. split; [by rewrite Hfrom|]. split; [by destruct bytes|]. split; [done|]. split; [by right|]. split; [done|].
  split; [apply good_advanced; [done|by destruct bytes|by rewrite Hi]|].
  split; [by rewrite <-Hi; apply identity_advanced|]. by rewrite <-Hlines.
Qed.

(** A step before a read that consumed nothing. *)
Lemma moved_after {A} (rows_of : A -> list ParsedRow) s s1 r s' t :
  frame s s1 -> stays s s1 -> moved rows_of s1 r s' t -> moved rows_of s r s' t.
Proof.
  intros Hf Hs (Hf' & Hm).
  assert (Hframe : frame s s') by (by eapply frame_trans).
  assert (Hpos : tail_position (ft_state s1) = tail_position (ft_state s)).
  { unfold tail_position. f_equal; [apply Hs|apply Hs]. }
  destruct Hs as (Hg & Hl & Hgood & Hid). split; [done|]. destruct Hm as [(Hs' & Hr)|[Ht|[(He & Hp)|Hlt]]].
  - left. split; [|done]. destruct Hs' as (Hg' & Hl' & Hgood' & Hid'). split_and!; [congruence|by etrans|done|].
    destruct Hid as [?|Hid]; [by left|]. destruct Hid' as [Hz|Hid']; [left; rewrite <-Hz; symmetry; apply Hl|right; congruence].
  - right. left. destruct Ht as (x & i & bytes & -> & Hr & (Hne & Hg' & Hid' & Hl' & Hgood' & Hi' & Hc)).
    assert (Ho : next_offset (cursor_of s1) = next_offset (cursor_of s)) by apply Hl.
    exists x, i, bytes. split; [done|]. split; [by rewrite Hr, Ho|]. split_and!; try done; [congruence| |..].
    + destruct Hid' as [Hz|Hid']; [left; congruence|]. destruct Hid as [Hz|Hid]; [by left|right; congruence].
    + etrans; [|exact Hl']. by apply like_advanced.
    + destruct Hf as (E1 & _ & E3 & _). by rewrite <-E1, <-E3, <-(like_framed _ _ bytes Hl).
  - right. right. left. split; [done|]. by rewrite <-Hpos.
  - right. right. right. by rewrite <-Hg.
Qed.

(** A failure after a read. *)
Lemma moved_fail {A B} (rows_of : A -> list ParsedRow) (rows_of' : B -> list ParsedRow) s r s' t f t' :
  moved rows_of s r s' t -> moved rows_of' s (Err f) s' t'.
Proof.
  intros (Hf & Hm). split; [done|]. destruct Hm as [(Hs & _)|[Ht|[(_ & Hp)|Hlt]]].
  - left. by split.
  - right. right. left. split; [by exists f|]. destruct Ht as (x & i & bytes & _ & _ & (Hne & _ & _ & Hl & _)).
    unfold tail_position. intros [= _ E]. destruct Hl as (Ho & _). rewrite next_offset_advanced in Ho.
    destruct bytes; [done|]. cbn [length] in Ho. lia.
  - right. right. left. by split; [exists f|].
  - right. right. right. by split; [apply Hlt|].
Qed.

(** An answer after a read that says the same, and no more bytes were read. *)
Lemma moved_map {A B} (rows_of : A -> list ParsedRow) (rows_of' : B -> list ParsedRow) s x y s' t t' :
  moved rows_of s (Ok x) s' t -> rows_of' y = rows_of x -> read_events t' = [] -> moved rows_of' s (Ok y) s' (t ++ t').
Proof.
  intros (Hf & Hm) Hy Ht'. split; [done|]. rewrite read_events_app, Ht', app_nil_r.
  destruct Hm as [(Hs & Hr)|[(x' & i & bytes & [= <-] & Hr & Ht)|[([f Hf'] & _)|[Hlt Hgd]]]]; [|..|right; right; right; split; [done|by intros z _; eapply Hgd]].
  - left. split; [done|]. intros z [= <-]. rewrite Hy. by apply Hr.
  - right. left. exists y, i, bytes. by rewrite Hy.
  - discriminate.
Qed.

(** Reading what the look at the file offered, from the state it left. *)
Lemma read_offered_tells s metadata o path :
  good (cursor_of s) -> tc_identity (cursor_of s) = Some (fm_identity metadata) -> read_from o = next_offset (cursor_of s) ->
  tells
    (let& read_len := check (ok_or (checked_sub (read_to o) (read_from o)) INVERTED) in
     if MAX_TRANSCRIPT_READ_BYTES <? read_len
     then fail (df_with_details (jobj [("bytes", diagnostic_u64 read_len); ("limit", JNum MAX_TRANSCRIPT_READ_BYTES)]%string)
                  (drift "transcript append exceeds the bounded read limit"))
     else if read_len =? 0 then ret ([], fm_identity metadata)
     else read_observed_range path metadata (read_from o) (read_to o)) s (moved fst s).
Proof.
  intros Hg Hi Hfrom. assert (Hno : forall f t, moved (A := list ParsedRow * FileIdentity) fst s (Err f) s t)
    by (intros f t; by apply moved_refl).
  apply check_step; [intros len Hlen%ok_or_Ok|done]. destruct (_ <? _); [by apply tells_fail|].
  destruct (N.eqb_spec len 0) as [->|Hne].
  - apply tells_ret. split; [apply frame_refl|]. left. split; [by apply stays_refl|]. by intros x [= <-].
  - unfold checked_sub in Hlen. destruct (N.leb_spec (read_from o) (read_to o)); [|done]. injection Hlen as <-.
    apply read_observed_range_tells; [done|done|done|lia].
Qed.

Lemma read_available_tells s :
  good (cursor_of s) -> tells read_available s (moved fst s).
Proof.
  intros Hg. assert (Hno : forall f t, moved (A := list ParsedRow * FileIdentity) fst s (Err f) s t)
    by (intros f t; by apply moved_refl).
  unfold read_available. eapply tells_step; [apply tail_tells|intros t0 ->|done]. apply check_step; [intros path _|done].
  eapply tells_bind; [apply metadata_tells| |by intros f s' t (-> & _)]. intros metadata s' t1 (-> & Ht1 & _).
  eapply tells_step; [apply tail_tells|intros t0 ->|done].
  destruct (observe metadata (cursor_of s)) as [o c1] eqn:Ho.
  destruct (observe_cases _ _ _ _ Hg Ho) as (Hi & Hg1 & Hfrom & _ & _ & Hch). apply modify_tells.
  set (s1 := set_tail _ _). assert (Hf1 : frame s s1) by frame_done.
  assert (Hpre : forall s2 r s' t, frame s s2 -> stays s s2 -> moved fst s2 r s' t ->
    moved (A := list ParsedRow * FileIdentity) fst s r s' (t1 ++ t)).
  { intros s2 r s' t Hf Hs Hm. apply (moved_after fst s s2) in Hm; [|done|done]. destruct Hm as (Hf' & Hm). split; [done|].
    by rewrite read_events_app, Ht1. }
  assert (Hsame : like (cursor_of s) c1 -> (next_offset (cursor_of s) = 0 \/ Some (fm_identity metadata) = tc_identity (cursor_of s)) ->
    stays s s1) by (intros Hl Hid; split_and!; try done; by rewrite <-Hi in Hid).
  assert (Hnew : tells (let& next := check (ok_or (Prelude.checked_add U64_MAX (tl_generation (ft_state s)) 1)
                               (drift "transcript cursor generation overflowed")) in modify_tail (with_generation next)) s1
    (fun r s' t => t = [] /\ match r with
       | Ok _ => frame s s' /\ cursor_of s' = c1 /\ tl_generation (ft_state s) < tl_generation (ft_state s')
       | Err _ => s' = s1 end)).
  { apply check_step; [intros g Hgen%ok_or_Ok|by intros f _]. apply Prelude.checked_add_Some in Hgen as [-> _].
    apply says_ret. split; [done|]. split; [frame_done|]. split; [done|]. cbn. lia. }
  assert (Hcont : stays s s1 -> forall (k : unit -> M (list ParsedRow * FileIdentity)),
    tells (k tt) s1 (moved fst s1) -> tells (bind (ret tt) k) s1 (fun r s' t => moved fst s r s' (t1 ++ t))).
  { intros Hs k Hk. eapply tells_mono; [exact Hk|]. intros r s' t Hm. by apply (Hpre s1). }
  assert (Hgone : next_offset c1 = 0 -> (next_offset (cursor_of s) = 0 -> like (cursor_of s) c1) ->
    forall (k : unit -> M (list ParsedRow * FileIdentity)),
    (forall s2, good (cursor_of s2) -> tc_identity (cursor_of s2) = Some (fm_identity metadata) ->
       read_from o = next_offset (cursor_of s2) -> tells (k tt) s2 (moved fst s2)) ->
    tells (bind (let& next := check (ok_or (Prelude.checked_add U64_MAX (tl_generation (ft_state s)) 1)
                               (drift "transcript cursor generation overflowed")) in modify_tail (with_generation next)) k) s1
      (fun r s' t => moved fst s r s' (t1 ++ t))).
  { intros Hn Hl k Hk. eapply tells_bind; [exact Hnew| |].
    - intros [] s2 t (-> & Hf2 & Hc2 & Hlt). eapply tells_mono; [apply Hk; by rewrite Hc2|]. intros r s' t (Hf & Hm).
      split; [by eapply frame_trans|]. right. right. right.
      split; [destruct Hf as (_ & _ & _ & _ & Hle & _); lia|]. intros x ->.
      destruct Hm as [((_ & _ & Hgd & _) & _)|[(y & i & bytes & _ & _ & (_ & _ & _ & _ & Hgd & _))|[((f & [=]) & _)|[_ Hgd]]]];
        [done|done|by eapply Hgd].
    - intros f s' t (-> & ->). split; [done|]. destruct (decide (next_offset (cursor_of s) = 0)) as [Hz|Hz].
      + left. split; [|done]. apply Hsame; [by apply Hl|by left].
      + right. right. left. split; [by exists f|]. unfold tail_position. cbn. intros [= E]. congruence. }
  assert (Hread : forall s2, good (cursor_of s2) -> tc_identity (cursor_of s2) = Some (fm_identity metadata) ->
       read_from o = next_offset (cursor_of s2) -> tells _ s2 (moved fst s2)) by (intros s2; apply read_offered_tells).
  destruct (co_change o) eqn:Hco.
  - apply Hcont; [|by apply Hread]. apply Hsame; [apply Hch|]. left. apply Hg, Hch.
  - apply Hcont; [|by apply Hread]. apply Hsame; [apply Hch|]. right. symmetry. apply Hch.
  - apply Hgone; [apply Hch|apply Hch|exact Hread].
  - apply Hgone; [apply Hch|apply Hch|exact Hread].
Qed.

(** ** Polling *)

(** What the batch says of the tail it was taken from. *)
Definition batch_ok (b : TranscriptBatch) (s' : FileTranscriptSource) (t : list TailEvent) : Prop :=
  ba_position b = tail_position (ft_state s') /\
  dr_has_partial_line (ba_drain b) = has_partial_line (cursor_of s') /\
  exists metadata t0, t = t0 ++ [StatPath metadata] /\ dr_at_eof (ba_drain b) = (next_offset (cursor_of s') =? fm_len metadata).

Definition polled (s : FileTranscriptSource) (r : DriverResult TranscriptBatch) (s' : FileTranscriptSource)
    (t : list TailEvent) : Prop :=
  moved ba_rows s r s' t /\ forall b, r = Ok b -> batch_ok b s' t.

Lemma poll_located_tells s path :
  good (cursor_of s) -> tl_path (ft_state s) = Some path -> tells poll_located s (polled s).
Proof.
  intros Hg Hpath. unfold poll_located.
  eapply tells_bind; [by apply read_available_tells| |].
  2: { intros f s' t Hm. split; [by eapply moved_fail|done]. }
  intros [rows i] s1 t1 Hm.
  assert (Hno : forall f t, polled s (Err f) s1 (t1 ++ t)) by (intros f t; split; [by eapply moved_fail|done]).
  eapply tells_step; [apply tail_tells|intros t0 ->|done].
  assert (Hp1 : tl_path (ft_state s1) = Some path).
  { destruct Hm as ((_ & _ & _ & _ & _ & [Hn|Hn]) & _); congruence. }
  rewrite Hp1. eapply tells_bind; [apply metadata_tells| |by intros f s' t (-> & _)].
  intros metadata s' t2 (-> & Ht2 & ->). cbn [snd].
  apply check_step; [intros _ _|done]. eapply tells_step; [apply tail_tells|intros t0 ->|done].
  eapply (tells_step _ _ _ (fun _ => True)); [by case_match; [apply tells_fail|apply tells_ret]|intros _ _|done].
  eapply tells_step; [apply stable_for_tells|intros ms _|done]. apply tells_ret.
  split; [by eapply (moved_map fst ba_rows)|]. intros b [= <-]. split; [done|]. split; [done|]. by exists metadata, t1.
Qed.

(** The tail holds a boundary for this id, at this position. *)
Definition stands (i : SessionId) (p : TranscriptPosition) (s : FileTranscriptSource) : Prop :=
  find (fun r => rr_abandoned r =? i) (reverse (ft_rotations s)) = None /\
  tl_session_id (ft_state s) = i /\ tl_armed (ft_state s) = true /\ tail_position (ft_state s) = p.

(** A poll away from the boundary answers nothing; it may drop a boundary of another id. *)
Definition refused (i : SessionId) (s : FileTranscriptSource) (r : DriverResult TranscriptBatch) (s' : FileTranscriptSource)
    (t : list TailEvent) : Prop :=
  (exists f, r = Err f) /\ t = [] /\
  (s' = s \/ tl_session_id (ft_state s) <> i /\ find (fun r => rr_abandoned r =? i) (reverse (ft_rotations s)) = None /\
             exists n, s' = set_tail (TailState_new i n) s).

Lemma stands_dec i p s : stands i p s \/ ~ stands i p s.
Proof.
  unfold stands. destruct (find _ _); [by right; intros (? & _)|].
  destruct (decide (tl_session_id (ft_state s) = i)); [|by right; intros (_ & ? & _)].
  destruct (decide (tl_armed (ft_state s) = true)); [|by right; intros (_ & _ & ? & _)].
  destruct (decide (tail_position (ft_state s) = p)); [by left|by right; intros (_ & _ & _ & ?)].
Qed.

Lemma poll_sync_refuses i p s : ~ stands i p s -> tells (poll_sync i p) s (refused i s).
Proof.
  intros Hn. unfold poll_sync.
  assert (Hsame : forall f, refused i s (Err f) s []) by (intros f; split; [by exists f|]; split; [done|by left]).
  eapply tells_step; [apply rotation_record_tells|intros rec Hrec|done].
  eapply tells_step; [apply lock_tells|intros _ _|done]. eapply tells_step; [apply tail_tells|intros t0 ->|done].
  destruct rec as [rec|].
  { eapply tells_step; [apply stable_for_tells|intros ms _|done]. eapply tells_mono; [apply into_failure_tells|].
    intros r s' t (-> & -> & Hf). split; [done|]. split; [done|by left]. }
  destruct (N.eqb_spec (tl_session_id (ft_state s)) i) as [Hi|Hi]; cbn [negb].
  2: { eapply tells_step; [apply now_tells|intros n _|done]. apply modify_tells, tells_fail. split; [by eexists|].
       split; [done|]. right. split; [done|]. split; [done|]. by exists n. }
  destruct (tl_armed (ft_state s)) eqn:Ha; cbn [negb]; [|by apply tells_fail].
  case_bool_decide as Hp; cbn [negb]; [|by apply tells_fail]. by destruct Hn.
Qed.

Lemma poll_sync_stands i p s :
  stands i p s -> good (cursor_of s) ->
  tells (poll_sync i p) s (fun r s' t => polled s r s' t \/
    (tl_path (ft_state s) = None /\ s' = s /\ t = [] /\ exists ms, r = Ok (mkBatch p [] (mkDrain true false ms)))).
Proof.
  intros (Hrot & Hi & Ha & Hp) Hg. unfold poll_sync.
  assert (Hsame : forall f, polled s (Err f) s [] \/
    (tl_path (ft_state s) = None /\ s = s /\ [] = ([] : list TailEvent) /\ exists ms, Err f = Ok (E := DriverFailure) (mkBatch p [] (mkDrain true false ms)))).
  { intros f. left. split; [by apply moved_refl|done]. }
  eapply tells_step; [apply rotation_record_tells|intros rec Hrec|done]. rewrite Hrot in Hrec. subst rec.
  eapply tells_step; [apply lock_tells|intros _ _|done]. eapply tells_step; [apply tail_tells|intros t0 ->|done].
  rewrite Hi, N.eqb_refl, Ha, bool_decide_true by done. cbn [negb].
  destruct (tl_path (ft_state s)) as [path|] eqn:Hpath.
  { eapply tells_mono; [by eapply poll_located_tells|]. intros r s' t Hpoll. by left. }
  eapply tells_step; [apply ask_tells|intros located _|done]. destruct located as [located|e].
  - apply modify_tells. set (s1 := set_tail _ _). eapply tells_mono; [by eapply (poll_located_tells s1)|].
    intros r s' t [Hm Hb]. left. split; [|done]. apply (moved_after _ _ s1); [split_and!; first [done|by left|cbn; lia]| |done].
    split_and!; try done. by right.
  - destruct e; try by apply tells_fail. eapply tells_step; [apply stable_for_tells|intros ms _|done]. apply tells_ret.
    right. split; [done|]. split; [done|]. split; [done|]. exists ms. by rewrite Hp.
Qed.

(** ** Arming *)

(** The boundary a successful arm establishes: the end of the file as it stood, or the
    beginning of one that is not there yet. *)
Definition armed_at (i : SessionId) (arm : TranscriptArm) (s : FileTranscriptSource) (t : list TailEvent) : Prop :=
  stands i (arm_position arm) s /\ arm_historical_rows arm = [] /\ good (cursor_of s) /\ pending (cursor_of s) = [] /\
  next_line_number (cursor_of s) = 1 /\ read_events t = [] /\
  (tl_path (ft_state s) = None /\ pos_offset (arm_position arm) = 0 \/
   exists metadata t0, t = t0 ++ [StatPath metadata] /\ pos_offset (arm_position arm) = fm_len metadata /\
     tc_identity (cursor_of s) = Some (fm_identity metadata)).

(** A step of arming that fails leaves the tail unarmed. *)
Definition arming {A} (i : SessionId) (s : FileTranscriptSource) (Q : A -> FileTranscriptSource -> list TailEvent -> Prop)
    (r : DriverResult A) (s' : FileTranscriptSource) (t : list TailEvent) : Prop :=
  ft_rotations s' = ft_rotations s /\ ft_expected_cwd s' = ft_expected_cwd s /\ read_events t = [] /\
  match r with
  | Ok x => Q x s' t
  | Err _ => s' = s \/ tl_armed (ft_state s') = false
  end.

Lemma same_file_tells m m' s : tells (same_file m m') s (quiet (fun _ => fm_identity m = fm_identity m' /\ fm_len m = fm_len m') s).
Proof.
  apply check_step; [|done]. intros v Hg. eapply tells_mono; [apply check_tells|]. intros r s' t (-> & -> & Hl).
  split_and!; [done..|]. intros u ->. specialize (Hl u eq_refl). unfold ensure_same_transcript_generation in Hg.
  unfold ensure_same_transcript_length in Hl. case_bool_decide; [|done]. by destruct (N.eqb_spec (fm_len m) (fm_len m')).
Qed.

Lemma seek_tells path metadata s :
  tl_armed (ft_state s) = false ->
  tells (seek_to_observed_eof path metadata) s
    (arming (tl_session_id (ft_state s)) s (fun _ s' t =>
       exists n t0 again, s' = set_tail (with_last_change n (with_cursor (seek_to_eof metadata (cursor_of s)) (ft_state s))) s /\
         t = t0 ++ [StatPath again] /\ fm_identity again = fm_identity metadata /\ fm_len again = fm_len metadata)).
Proof.
  intros Hn. unfold seek_to_observed_eof.
  set (Q := arming _ _ _). assert (Hno : forall f t, read_events t = [] -> Q (Err f) s t).
  { intros f t Ht. split_and!; try done. by left. }
  eapply tells_step; [apply io_tells|intros _ _|by intros f; apply Hno].
  eapply tells_step; [apply io_tells|intros opened _|by intros f; apply Hno].
  eapply tells_step; [apply same_file_tells|intros _ _|by intros f; apply Hno].
  eapply (tells_step _ _ _ (fun _ => True)); [|intros _ _|by intros f; apply Hno].
  { destruct (_ <? _); [|by apply tells_ret]. eapply tells_step; [apply io_tells|intros _ _|done].
    eapply tells_step; [apply read_exact_tells|intros final _|done]. case_bool_decide; [by apply tells_ret|by apply tells_fail]. }
  eapply tells_step; [apply io_tells|intros read _|by intros f; apply Hno].
  eapply tells_step; [apply same_file_tells|intros _ _|by intros f; apply Hno].
  eapply tells_bind; [apply metadata_tells| |by intros f s' t (-> & Ht & _); apply Hno].
  intros again s' t (-> & Ht & ->).
  eapply tells_step; [apply same_file_tells|intros _ [Hi Hl]|by intros f; apply Hno].
  apply modify_tells. eapply tells_step; [apply now_tells|intros n _|].
  - apply says_ret. split_and!; try done. exists n, [], again. by split_and!.
  - intros f. split_and!; try done. by right.
Qed.

Lemma seek_validated_tells s :
  tl_armed (ft_state s) = false ->
  tells seek_to_validated_eof s
    (arming (tl_session_id (ft_state s)) s (fun _ s' t =>
       exists metadata n t0 again, s' = set_tail (with_last_change n (with_cursor (seek_to_eof metadata (cursor_of s)) (ft_state s))) s /\
         t = t0 ++ [StatPath again] /\ fm_identity again = fm_identity metadata /\ fm_len again = fm_len metadata)).
Proof.
  intros Hn. set (Q := arming _ _ _). assert (Hno : forall f t, read_events t = [] -> Q (Err f) s t).
  { intros f t Ht. split_and!; try done. by left. }
  apply tail_step. apply check_step; [intros p _|by intros f _; apply Hno].
  eapply tells_bind; [apply metadata_tells| |by intros f s' t (-> & Ht & _); apply Hno].
  intros metadata s' t (-> & Ht & _). eapply tells_mono; [by apply seek_tells|].
  intros r s' t' (E1 & E2 & E3 & Hr). split_and!; [done|done|by rewrite read_events_app, Ht, E3|].
  destruct r as [u|f]; [|exact Hr]. destruct Hr as (n' & t0 & again & -> & -> & Hi & Hl).
  exists metadata, n', (t ++ t0), again. by rewrite app_assoc.
Qed.

Lemma arm_sync_tells i s : tells (arm_sync i) s (arming i s (armed_at i)).
Proof.
  unfold arm_sync. assert (Hno : forall f, arming i s (armed_at i) (Err f) s []) by (intros f; split_and!; try done; by left).
  eapply tells_step; [apply rotation_record_tells|intros rec Hrec|done]. destruct rec as [rec|].
  { eapply tells_mono; [apply into_failure_tells|]. intros r s' t (-> & -> & (f & ->)). apply Hno. }
  eapply tells_step; [apply lock_tells|intros _ _|done]. eapply tells_step; [apply now_tells|intros n _|done].
  apply modify_tells. set (s1 := set_tail _ _).
  assert (Hout : forall f s' t, ft_rotations s' = ft_rotations s -> ft_expected_cwd s' = ft_expected_cwd s -> read_events t = [] ->
    tl_armed (ft_state s') = false -> arming i s (armed_at i) (Err f) s' t) by (intros; split_and!; try done; by right).
  eapply tells_step; [apply ask_tells|intros located _|by intros f; apply Hout].
  destruct located as [located|e].
  - eapply tells_bind; [apply modify_tells, seek_validated_tells; done| |].
    + intros [] s' t (_ & _ & Ht & metadata & n' & t0 & again & -> & -> & Hi & Hl). apply modify_tells, tail_step, tells_ret.
      rewrite app_nil_r. split_and!; try done. split_and!; try done.
      * split; [split; [done|cbn; lia|apply not_elem_of_nil]|]. by split.
      * right. exists again, t0. cbn. by rewrite Hl, Hi.
    + intros f s' t (E1 & E2 & E3 & Hr). apply Hout; [done..|]. by destruct Hr as [->|?].
  - destruct e; try (by apply tells_fail, Hout). apply modify_tells, tail_step, tells_ret.
    split_and!; try done. split_and!; try done; [|by left].
    split; [split; [done..|apply not_elem_of_nil]|]. by split.
Qed.

End Proofs.
