(* ===== verification/TailTheorems.v ===== *)
(** * The transcript is followed without a gap

    From a successful arm on, a caller that polls at the position it was last given is
    told every complete line of the transcript once, in order; nothing is told without an
    arm, or under an id a [/clear] abandoned. *)

From S2P Require Import Prelude Text Protocol Composer Transcript Cursor Parser Session Screen Backend Menu Task Gate TurnResults RowIdentity Tail TailProofs.

(** ** Running an operation *)

Lemma tells_run {A} (m : M A) s Q w :
  tells m s Q -> exists r s' w' t, m s w = (Done (r, s'), w') /\ tk_trace w' = tk_trace w ++ t /\ Q r s' t.
Proof.
  intros Hm. specialize (Hm w). unfold twp in Hm. destruct (m s w) as [[[r s']|e] w'].
  - destruct Hm as (t & Ht & HQ). by exists r, s', w', t.
  - by destruct Hm as (t & _ & ?).
Qed.

Lemma tells_inv {A} (m : M A) s Q w r s' w' :
  tells m s Q -> m s w = (Done (r, s'), w') -> exists t, tk_trace w' = tk_trace w ++ t /\ Q r s' t.
Proof.
  intros Hm Hrun. apply (tells_run _ _ _ w) in Hm as (r2 & s2 & w2 & t & Hrun2 & Ht & HQ).
  rewrite Hrun in Hrun2. injection Hrun2 as <- <- <-. by exists t.
Qed.

Section Follow.
Context `{Outside} `{Files}.
Variable i : SessionId.

(** A caller that polls at the position of the last batch it was given, and tries again
    when a poll fails: the reads of the polls that answered, their rows, and where it
    stands in the end. *)
Inductive follow : TranscriptPosition -> FileTranscriptSource -> World TailEvent ->
    list (FileIdentity * N * list N) -> list ParsedRow ->
    TranscriptPosition -> FileTranscriptSource -> World TailEvent -> Prop :=
| follow_stop p s w : follow p s w [] [] p s w
| follow_answered p s w b s' w' t reads rows p2 s2 w2 :
    poll_sync i p s w = (Done (Ok b, s'), w') -> tk_trace w' = tk_trace w ++ t ->
    follow (ba_position b) s' w' reads rows p2 s2 w2 ->
    follow p s w (read_events t ++ reads) (ba_rows b ++ rows) p2 s2 w2
| follow_failed p s w f s' w' reads rows p2 s2 w2 :
    poll_sync i p s w = (Done (Err f, s'), w') -> follow p s' w' reads rows p2 s2 w2 ->
    follow p s w reads rows p2 s2 w2.

(** Reads of one file, each beginning where the one before ended. *)
Fixpoint contiguous (file : FileIdentity) (offset : N) (reads : list (FileIdentity * N * list N)) : Prop :=
  match reads with
  | [] => True
  | (file', from, bytes) :: reads =>
      file' = file /\ from = offset /\ contiguous file (offset + N.of_nat (length bytes)) reads
  end.

(** Where the caller stands: as long as the tail stands there too, its cursor is the one
    the stream leads to. *)
Definition caught_up (c0 : TranscriptCursor) (cwd : string) (stream : list N) (file : option FileIdentity)
    (p : TranscriptPosition) (s : FileTranscriptSource) : Prop :=
  cursor_ok c0 /\ pos_offset p = next_offset c0 + N.of_nat (length stream) /\ ft_expected_cwd s = cwd /\
  (stands i p s -> like (advanced c0 stream) (cursor_of s) /\ good (cursor_of s) /\
     (pos_offset p = 0 \/ tc_identity (cursor_of s) = file)).

(** One poll of such a caller. *)
Lemma poll_failed c0 cwd stream file p s w f s' w' :
  caught_up c0 cwd stream file p s -> poll_sync i p s w = (Done (Err f, s'), w') -> caught_up c0 cwd stream file p s'.
Proof.
  intros (Hok & Hp & Hcwd & Hs) Hrun. destruct (stands_dec i p s) as [Hst|Hst].
  - destruct (Hs Hst) as (Hl & Hg & Hid).
    destruct (tells_inv _ _ _ _ _ _ _ (poll_sync_stands i p s Hst Hg) Hrun) as (t & _ & [[Hm _]|(_ & _ & _ & ms & [=])]).
    destruct Hm as ((E1 & E2 & E3 & E4 & E5 & _) & Hm). split_and!; try done; [congruence|].
    intros (_ & _ & _ & Hpos). destruct Hst as (_ & _ & _ & Hpos0).
    destruct Hm as [((Hg' & Hl' & Hgood' & Hid') & _)|[(x & _ & _ & [=] & _)|[(_ & Hne)|[Hlt _]]]].
    + split; [by etrans|]. split; [done|]. destruct Hid as [?|Hid]; [by left|]. destruct Hid' as [Hz|Hid']; [|right; congruence].
      left. rewrite <-Hpos0. exact Hz.
    + by rewrite Hpos, Hpos0 in Hne.
    + exfalso. rewrite <-Hpos0 in Hpos. injection Hpos as E _. lia.
  - destruct (tells_inv _ _ _ _ _ _ _ (poll_sync_refuses i p s Hst) Hrun) as (t & _ & (_ & _ & [->|(_ & _ & n & ->)])); [done|].
    split_and!; try done. by intros (_ & _ & [=] & _).
Qed.

Lemma poll_answered c0 cwd stream file p s w b s' w' t :
  caught_up c0 cwd stream file p s -> poll_sync i p s w = (Done (Ok b, s'), w') -> tk_trace w' = tk_trace w ++ t ->
  pos_generation p <= pos_generation (ba_position b) /\ stands i (ba_position b) s' /\ good (cursor_of s') /\
  (pos_generation (ba_position b) = pos_generation p ->
   exists file' bytes,
     (read_events t = [] /\ bytes = [] /\ file' = file \/
      exists n, read_events t = [(n, pos_offset p, bytes)] /\ bytes <> [] /\ file' = Some n /\ (pos_offset p = 0 \/ file = Some n)) /\
     caught_up c0 cwd (stream ++ bytes) file' (ba_position b) s' /\
     collect_rows cwd i (fst (framed (advanced c0 stream) bytes)) = Ok (ba_rows b)).
Proof.
  intros (Hok & Hp & Hcwd & Hs) Hrun Ht. destruct (stands_dec i p s) as [Hst|Hst].
  2: { by destruct (tells_inv _ _ _ _ _ _ _ (poll_sync_refuses i p s Hst) Hrun) as (? & _ & ((f & [=]) & _)). }
  destruct (Hs Hst) as (Hl & Hg & Hid). pose proof Hst as (Hrot & Hi & Ha & Hpos).
  destruct (tells_inv _ _ _ _ _ _ _ (poll_sync_stands i p s Hst Hg) Hrun) as (t' & Ht' & Hr).
  rewrite Ht in Ht'. apply app_inv_head in Ht'. subst t'.
  destruct Hr as [[Hm Hb]|(_ & -> & -> & ms & [= ->])].
  2: { split; [done|]. split; [done|]. split; [done|]. intros _. exists file, []. split; [by left|].
       rewrite app_nil_r. by split; [split_and!|]. }
  destruct (Hb b eq_refl) as (Hbp & _ & _). destruct Hm as ((E1 & E2 & E3 & E4 & E5 & _) & Hm).
  assert (Hgp : pos_generation p = tl_generation (ft_state s)) by (by rewrite <-Hpos).
  assert (Hop : pos_offset p = next_offset (cursor_of s)) by (by rewrite <-Hpos).
  rewrite Hbp. split; [cbn; lia|]. split; [split_and!; congruence|].
  destruct Hm as [((Hg' & Hl' & Hgood' & Hid') & Hempty)|[(x & n & bytes & [= <-] & Hread & Htook)|[((f & [=]) & _)|[Hlt Hgd]]]].
  - destruct (Hempty b eq_refl) as (Hrows & Hread). split; [done|]. intros _.
    exists file, []. split; [by left|]. rewrite app_nil_r.
    assert (Ho' : next_offset (cursor_of s') = next_offset (cursor_of s)) by apply Hl'.
    split; [|by rewrite Hrows]. split_and!; [done|cbn; congruence|congruence|].
    intros _. split; [by etrans|]. split; [done|]. cbn [pos_offset tail_position]. rewrite Ho'.
    destruct Hid as [?|Hid]; [left; congruence|]. destruct Hid' as [Hz|Hid']; [by left|right; congruence].
  - destruct Htook as (Hne & Hg' & Hn & Hl' & Hgood' & Hi' & Hc). split; [done|]. intros _. exists (Some n), bytes.
    split; [right; exists n; rewrite Hop; split; [done|]; split; [done|]; split; [done|]|].
    { destruct Hn as [?|Hn]; [by left|]. destruct Hid as [?|Hid]; [left; congruence|right; congruence]. }
    split; [|by rewrite <-Hcwd, <-Hi, <-(like_framed _ _ bytes Hl)].
    assert (Hla : like (advanced c0 (stream ++ bytes)) (cursor_of s')).
    { etrans; [symmetry; by apply advanced_app|]. etrans; [by apply like_advanced|done]. }
    split_and!; [done| |congruence|].
    + cbn. destruct Hla as (-> & _). by rewrite next_offset_advanced.
    + intros _. split; [done|]. split; [done|]. by right.
  - split; [by eapply Hgd|]. intros Hsame. cbn in Hsame. lia.
Qed.

Lemma caught_up_here p s :
  stands i p s -> good (cursor_of s) -> caught_up (cursor_of s) (ft_expected_cwd s) [] (tc_identity (cursor_of s)) p s.
Proof.
  intros (_ & _ & _ & <-) (Hok & Hg). split_and!; [done|cbn; lia|done|]. intros _. split; [|by split; [split|right]].
  symmetry. by apply advanced_nil.
Qed.

(** A whole run of such a caller. *)
Lemma follow_generation p s w reads rows p2 s2 w2 :
  follow p s w reads rows p2 s2 w2 ->
  forall c0 cwd stream file, caught_up c0 cwd stream file p s -> pos_generation p <= pos_generation p2.
Proof.
  induction 1 as [p s w|p s w b s' w' t reads rows p2 s2 w2 Hp Ht Hf IH|p s w f s' w' reads rows p2 s2 w2 Hp Hf IH];
    intros c0 cwd stream file Hc; [done| |by eapply IH, poll_failed].
  destruct (poll_answered _ _ _ _ _ _ _ _ _ _ _ Hc Hp Ht) as (Hle & Hst & Hg & _).
  etrans; [exact Hle|]. by eapply IH, caught_up_here.
Qed.

Lemma collect_rows_app cwd l1 : forall l2 r1 r2,
  collect_rows cwd i l1 = Ok r1 -> collect_rows cwd i l2 = Ok r2 -> collect_rows cwd i (l1 ++ l2) = Ok (r1 ++ r2).
Proof.
  induction l1 as [|l l1 IH]; intros l2 r1 r2; [by intros [= <-]|]. cbn [collect_rows app].
  intros (u & Hu & (row & Hrow & (v & Hv & (rows & Hr & [= <-])%result_bind_Ok)%result_bind_Ok)%result_bind_Ok)%result_bind_Ok H2.
  rewrite Hu. cbn. rewrite Hrow. cbn. rewrite Hv. cbn. by rewrite (IH _ _ _ Hr H2).
Qed.

Lemma follow_delivers p s w reads rows p2 s2 w2 :
  follow p s w reads rows p2 s2 w2 ->
  forall c0 cwd stream file, caught_up c0 cwd stream file p s -> pos_generation p2 = pos_generation p ->
  exists file', caught_up c0 cwd (stream ++ concat (snd <$> reads)) file' p2 s2 /\
    (exists n, contiguous n (pos_offset p) reads /\ (reads = [] \/ pos_offset p = 0 \/ file = Some n)) /\
    collect_rows cwd i (fst (framed (advanced c0 stream) (concat (snd <$> reads)))) = Ok rows.
Proof.
  induction 1 as [p s w|p s w b s' w' t reads rows p2 s2 w2 Hp Ht Hf IH|p s w f s' w' reads rows p2 s2 w2 Hp Hf IH];
    intros c0 cwd stream file Hc Hgen.
  - exists file. cbn. rewrite app_nil_r. split; [done|]. split; [|done]. exists (mkFileIdentity 0 0). by split; [|left].
  - destruct (poll_answered _ _ _ _ _ _ _ _ _ _ _ Hc Hp Ht) as (Hle & Hst & Hg & Hsame).
    assert (Hge : pos_generation (ba_position b) <= pos_generation p2) by (by eapply follow_generation, caught_up_here).
    destruct Hsame as (file' & bytes & Hread & Hc' & Hrows); [lia|].
    destruct (IH _ _ _ _ Hc') as (file2 & Hc2 & (n & Hn & Hid) & Hrows2); [lia|].
    pose proof Hc as (Hok & Hoff & _). pose proof Hc' as (_ & Hoff' & _).
    assert (Hbytes : concat (snd <$> read_events t ++ reads) = bytes ++ concat (snd <$> reads)).
    { rewrite fmap_app, concat_app. f_equal. destruct Hread as [(-> & -> & _)|(m & -> & _ & _)]; [done|]. cbn. by rewrite app_nil_r. }
    exists file2. rewrite Hbytes. split; [by rewrite app_assoc|]. split.
    + destruct Hread as [(-> & -> & ->)|(m & -> & Hne & -> & Hm)].
      * rewrite app_nil_r in Hoff'. exists n. rewrite Hoff, <-Hoff'. split; [done|]. cbn. destruct Hid as [?|[?|?]]; [by left|..]; right; [by left|by right].
      * exists m. cbn. rewrite length_app in Hoff'. replace (pos_offset p + N.of_nat (length bytes)) with (pos_offset (ba_position b)) by lia.
        split; [|right; tauto]. split; [done|]. split; [done|].
        destruct Hid as [->|[Hz|[= ->]]]; [done| |done]. destruct bytes; [done|]. cbn [length] in Hoff'. lia.
    + rewrite framed_app by (by apply advanced_ok). cbn [fst]. apply collect_rows_app; [done|].
      rewrite <-(like_framed _ _ (concat (snd <$> reads)) (advanced_app c0 stream bytes Hok)) in *. done.
  - eapply IH; [by eapply poll_failed|done].
Qed.

(** A row of a prompt, an answer, a tool or an attachment carries the session's id and no
    directory outside the task; system, metadata and unknown rows carry no identity that is
    looked at. *)
Definition ours (cwd : string) (row : ParsedRow) : Prop :=
  match kind row with
  | TypedUser _ _ | Assistant _ | UserToolResults _ | UserOther | Attachment _ => stamped_by i row /\ inside_task cwd row
  | System _ | Metadata _ | Unknown _ => True
  end.

Lemma collect_rows_ours cwd lines : forall rows, collect_rows cwd i lines = Ok rows -> Forall (ours cwd) rows.
Proof.
  induction lines as [|l lines IH]; intros rows; [by intros [= <-]|]. cbn [collect_rows]. intros Hc. res_inv. subst rows.
  constructor; [|by eapply IH]. match goal with u : unit, Hv : validate_semantic_identity _ _ _ = Ok _ |- _ => destruct u end.
  match goal with Hv : validate_semantic_identity _ _ _ = Ok ?u |- _ => destruct u; apply validate_semantic_identity_Ok in Hv end.
  unfold ours, identity_bound_row_kind in *. destruct (kind _); naive_solver.
Qed.

Lemma collect_rows_parse cwd lines : forall rows,
  collect_rows cwd i lines = Ok rows -> Forall2 (fun l row => parse_row l = Ok row) lines rows.
Proof.
  induction lines as [|l lines IH]; intros rows; [intros [= <-]; constructor|]. cbn [collect_rows]. intros Hc. res_inv. subst rows.
  constructor; [|by apply IH]. destruct (parse_row l); [|discriminate].
  cbn in *. by simplify_eq.
Qed.

Lemma armed_caught_up arm s w s' w' :
  arm_sync i s w = (Done (Ok arm, s'), w') ->
  caught_up (cursor_of s') (ft_expected_cwd s) [] (tc_identity (cursor_of s')) (arm_position arm) s' /\
  (forall bytes, framed (advanced (cursor_of s') []) bytes = frames (pos_offset (arm_position arm)) 1 [] bytes).
Proof.
  intros Hrun. destruct (tells_inv _ _ _ _ _ _ _ (arm_sync_tells i s) Hrun) as (t & _ & (_ & <- & _ & Ha)).
  destruct Ha as (Hst & _ & Hg & Hpend & Hline & _). split; [by apply caught_up_here|]. intros bytes.
  rewrite (like_framed _ _ _ (advanced_nil _ (proj1 Hg))). destruct Hst as (_ & _ & _ & <-). unfold framed.
  destruct Hg as ([_ Ho _] & _). rewrite Hpend, Hline in *. cbn in Ho |- *. f_equal. lia.
Qed.

Lemma follow_caught_up p s w reads rows p2 s2 w2 :
  follow p s w reads rows p2 s2 w2 ->
  forall c0 cwd stream file, caught_up c0 cwd stream file p s ->
  exists c0' cwd' stream' file', caught_up c0' cwd' stream' file' p2 s2.
Proof.
  induction 1 as [p s w|p s w b s' w' t reads rows p2 s2 w2 Hp Ht Hf IH|p s w f s' w' reads rows p2 s2 w2 Hp Hf IH];
    intros c0 cwd stream file Hc; [by eauto| |by eapply IH, poll_failed].
  destruct (poll_answered _ _ _ _ _ _ _ _ _ _ _ Hc Hp Ht) as (_ & Hst & Hg & _). by eapply IH, caught_up_here.
Qed.

Lemma poll_reports c0 cwd stream file p s w b s' w' t :
  caught_up c0 cwd stream file p s -> poll_sync i p s w = (Done (Ok b, s'), w') -> tk_trace w' = tk_trace w ++ t ->
  batch_ok b s' t \/ tl_path (ft_state s') = None /\ t = [].
Proof.
  intros (_ & _ & _ & Hs) Hrun Ht. destruct (stands_dec i p s) as [Hst|Hst].
  2: { by destruct (tells_inv _ _ _ _ _ _ _ (poll_sync_refuses i p s Hst) Hrun) as (? & _ & ((f & [=]) & _)). }
  destruct (Hs Hst) as (_ & Hg & _).
  destruct (tells_inv _ _ _ _ _ _ _ (poll_sync_stands i p s Hst Hg) Hrun) as (t' & Ht' & Hr).
  rewrite Ht in Ht'. apply app_inv_head in Ht'. subst t'.
  destruct Hr as [[_ Hb]|(Hn & -> & -> & _)]; [left; by apply Hb|by right].
Qed.

Lemma follow_snoc p s w reads rows p2 s2 w2 b s3 w3 t :
  follow p s w reads rows p2 s2 w2 -> poll_sync i p2 s2 w2 = (Done (Ok b, s3), w3) -> tk_trace w3 = tk_trace w2 ++ t ->
  follow p s w (reads ++ read_events t) (rows ++ ba_rows b) (ba_position b) s3 w3.
Proof.
  intros Hfollow Hpoll Ht.
  induction Hfollow as [p s w|p s w b' s' w' t' reads rows p2 s2 w2 Hp' Ht' Hf IH|p s w f s' w' reads rows p2 s2 w2 Hp' Hf IH].
  - cbn. rewrite <-(app_nil_r (read_events t)), <-(app_nil_r (ba_rows b)). eapply follow_answered; [done|done|constructor].
  - rewrite <-!app_assoc. eapply follow_answered; [done|done|by apply IH].
  - eapply follow_failed; [done|by apply IH].
Qed.

(** The last poll of a run, and what it said about the file. *)
Lemma follow_last p s w reads rows p2 s2 w2 b s3 w3 t :
  follow p s w reads rows p2 s2 w2 -> poll_sync i p2 s2 w2 = (Done (Ok b, s3), w3) -> tk_trace w3 = tk_trace w2 ++ t ->
  forall c0 cwd stream file, caught_up c0 cwd stream file p s -> pos_generation (ba_position b) = pos_generation p ->
  exists file', caught_up c0 cwd (stream ++ concat (snd <$> reads ++ read_events t)) file' (ba_position b) s3 /\
    stands i (ba_position b) s3 /\
    collect_rows cwd i (fst (framed (advanced c0 stream) (concat (snd <$> reads ++ read_events t)))) = Ok (rows ++ ba_rows b) /\
    (batch_ok b s3 t \/ tl_path (ft_state s3) = None /\ t = []).
Proof.
  intros Hfollow Hpoll Ht c0 cwd stream file Hc Hgen.
  pose proof (follow_snoc _ _ _ _ _ _ _ _ _ _ _ _ Hfollow Hpoll Ht) as Hall.
  destruct (follow_delivers _ _ _ _ _ _ _ _ Hall _ _ _ _ Hc Hgen) as (file' & Hc3 & _ & Hrows).
  destruct (follow_caught_up _ _ _ _ _ _ _ _ Hfollow _ _ _ _ Hc) as (c1 & cwd1 & stream1 & file1 & Hc1).
  destruct (poll_answered _ _ _ _ _ _ _ _ _ _ _ Hc1 Hpoll Ht) as (_ & Hst & _).
  exists file'. split; [done|]. split; [done|]. split; [done|]. by eapply poll_reports.
Qed.

(** A whole run from an arm on. *)
Lemma armed_delivers s0 w0 arm s1 w1 reads rows p s2 w2 :
  arm_sync i s0 w0 = (Done (Ok arm, s1), w1) ->
  follow (arm_position arm) s1 w1 reads rows p s2 w2 ->
  pos_generation p = pos_generation (arm_position arm) ->
  let stream := concat (snd <$> reads) in
  let boundary := pos_offset (arm_position arm) in
  (exists file, contiguous file boundary reads) /\
  pos_offset p = boundary + N.of_nat (length stream) /\
  collect_rows (ft_expected_cwd s0) i (fst (frames boundary 1 [] stream)) = Ok rows.
Proof.
  intros Harm Hfollow Hgen. destruct (armed_caught_up _ _ _ _ _ Harm) as [Hc Hf].
  destruct (follow_delivers _ _ _ _ _ _ _ _ Hfollow _ _ _ _ Hc Hgen) as (file & Hc2 & (n & Hn & _) & Hrows).
  cbv zeta. rewrite Hf in Hrows. split; [by exists n|]. split; [|done].
  destruct Hc as (_ & Ho & _), Hc2 as (_ & Ho2 & _). cbn in Ho. cbn [app] in Ho2. lia.
Qed.

(** And of its last poll, when that reports the end of the file. *)
Lemma armed_drained s0 w0 arm s1 w1 reads rows p s2 w2 b s3 w3 t :
  arm_sync i s0 w0 = (Done (Ok arm, s1), w1) ->
  follow (arm_position arm) s1 w1 reads rows p s2 w2 ->
  poll_sync i p s2 w2 = (Done (Ok b, s3), w3) -> tk_trace w3 = tk_trace w2 ++ t ->
  pos_generation (ba_position b) = pos_generation (arm_position arm) ->
  dr_at_eof (ba_drain b) = true -> dr_has_partial_line (ba_drain b) = false ->
  let stream := concat (snd <$> reads ++ read_events t) in
  let boundary := pos_offset (arm_position arm) in
  tl_path (ft_state s3) = None /\ t = [] \/
  exists metadata t0, t = t0 ++ [StatPath metadata] /\ fm_len metadata = boundary + N.of_nat (length stream) /\
    snd (frames boundary 1 [] stream) = [].
Proof.
  intros Harm Hfollow Hpoll Ht Hgen Heof Hpart. destruct (armed_caught_up _ _ _ _ _ Harm) as [Hc Hf].
  destruct (follow_last _ _ _ _ _ _ _ _ _ _ _ _ Hfollow Hpoll Ht _ _ _ _ Hc Hgen) as (file & Hc3 & Hst & _ & Hb).
  cbv zeta. destruct Hb as [(Hbp & Hbpart & metadata & t0 & Et & Hbeof)|[Hnone Et]]; [right|by left].
  exists metadata, t0. split; [done|]. destruct Hc3 as (Hok & Ho3 & _ & Hs3). destruct (Hs3 Hst) as (Hl & _ & _).
  destruct Hc as (_ & Ho & _). cbn in Ho. cbn [app] in Ho3. rewrite Hbp in Ho3. cbn in Ho3.
  rewrite Hbeof in Heof. apply N.eqb_eq in Heof. split; [lia|].
  rewrite <-Hf, (like_framed _ _ _ (advanced_nil _ Hok)). destruct Hl as (_ & _ & Hp & _).
  rewrite Hbpart in Hpart. unfold has_partial_line in Hpart. rewrite Hp in Hpart. unfold advanced in Hpart. cbn [app] in Hpart.
  destruct (framed _ _) as [ls [|x tl]]; done.
Qed.

End Follow.

(** ** Any use of the tail *)

Section Lives.
Context `{Outside} `{Files}.

(** What reading leaves alone, whatever state the cursor is in. *)
Definition kept (s s' : FileTranscriptSource) : Prop :=
  ft_rotations s' = ft_rotations s /\ tl_session_id (ft_state s') = tl_session_id (ft_state s) /\
  tl_armed (ft_state s') = tl_armed (ft_state s) /\ tl_path (ft_state s') = tl_path (ft_state s).

Abbreviation keeps m s := (tells m s (fun _ s' _ => kept s s')).

Lemma same_path_bind {A B} (m : M A) (k : A -> M B) s :
  keeps m s -> (forall x s', kept s s' -> keeps (k x) s') -> keeps (bind m k) s.
Proof.
  intros Hm Hk. eapply tells_bind; [exact Hm| |done]. intros x s' t Hs. eapply tells_mono; [by apply Hk|].
  intros r s'' t' (E1 & E2 & E3 & E4). destruct Hs as (F1 & F2 & F3 & F4). split_and!; congruence.
Qed.

Lemma keeps_quiet {A} (m : M A) P s : tells m s (quiet P s) -> keeps m s.
Proof. intros Hm. eapply tells_mono; [exact Hm|]. by intros r s' t (-> & _). Qed.

Lemma keeps_log e s : keeps (perform (log e)) s.
Proof. eapply says_bind; [by apply (says_log _ (fun _ _ => True))|]. intros x t _. by apply says_ret. Qed.

Ltac keep :=
  lazymatch goal with
  | |- keeps (ret _) _ => apply tells_ret; done
  | |- keeps (fail _) _ => apply tells_fail; done
  | |- keeps (check _) _ => eapply keeps_quiet, check_tells
  | |- keeps (perform (log _)) _ => apply keeps_log
  | |- keeps (perform (ask _)) _ => eapply keeps_quiet, ask_tells
  | |- keeps (modify_tail _) _ => apply says_ret; done
  | |- keeps get _ => eapply keeps_quiet, get_tells
  | |- keeps tail _ => eapply keeps_quiet, tail_tells
  | |- keeps now _ => eapply keeps_quiet, now_tells
  | |- keeps lock _ => eapply keeps_quiet, lock_tells
  | |- keeps (io _ _) _ => eapply keeps_quiet, io_tells
  | |- keeps stable_for _ => eapply keeps_quiet, stable_for_tells
  | |- keeps (bind _ _) _ => apply same_path_bind; [keep|let x := fresh "x" in let Hk := fresh "Hk" in intros x ? Hk; keep]
  | |- keeps (match ?x with _ => _ end) _ => destruct x; keep
  | |- keeps _ _ => idtac
  end.

Lemma read_available_keeps s : keeps read_available s.
Proof.
  unfold read_available, metadata_for. keep.
  unfold read_observed_range, open_file, metadata_for_file, seek, read_exact. keep.
Qed.

Lemma poll_located_keeps s path : tl_path (ft_state s) = Some path -> keeps poll_located s.
Proof.
  intros Hp. unfold poll_located. apply same_path_bind; [apply read_available_keeps|]. intros read s' (_ & _ & _ & E).
  apply tail_step. rewrite E, Hp. unfold metadata_for. keep.
Qed.

(** A poll keeps the boundary or drops it. *)
Lemma poll_sync_keeps i p s :
  tells (poll_sync i p) s (fun r s' _ => ft_rotations s' = ft_rotations s /\
    (tl_armed (ft_state s') = true -> tl_armed (ft_state s) = true /\ tl_session_id (ft_state s') = tl_session_id (ft_state s))).
Proof.
  destruct (stands_dec i p s) as [(Hrot & Hi & Ha & Hp)|Hn].
  2: { eapply tells_mono; [by apply poll_sync_refuses|]. intros r s' t (_ & _ & [->|(_ & _ & n & ->)]); [by split|].
       split; [done|]. intros [=]. }
  eapply (tells_mono _ _ (fun _ s' _ => ft_rotations s' = ft_rotations s /\ tl_session_id (ft_state s') = tl_session_id (ft_state s))).
  2: { intros r s' t (E1 & E2). split; [done|]. by intros _. }
  unfold poll_sync. eapply tells_step; [apply rotation_record_tells|intros rec Hrec|by intros f]. rewrite Hrot in Hrec. subst rec.
  eapply tells_step; [apply lock_tells|intros _ _|by intros f]. apply tail_step.
  rewrite Hi, N.eqb_refl, Ha, bool_decide_true by done. cbn [negb].
  destruct (tl_path (ft_state s)) as [path|] eqn:Hpath.
  { eapply tells_mono; [by eapply poll_located_keeps|]. intros r s' t (E1 & E2 & _). split; congruence. }
  eapply tells_step; [apply ask_tells|intros located _|by intros f]. destruct located as [located|e].
  - apply modify_tells. eapply tells_mono; [by eapply poll_located_keeps|]. intros r s' t (E1 & E2 & _). split; [done|]. by rewrite E2.
  - destruct e; try (by apply tells_fail). eapply tells_step; [apply stable_for_tells|intros ms _|by intros f]. by apply tells_ret.
Qed.

(** What happened to a source, as far as it succeeded. *)
Inductive deed := Armed (i : SessionId) | Abandoned (i : SessionId).

Definition armed_by (d : deed) : option SessionId := match d with Armed i => Some i | Abandoned _ => None end.
Definition abandoned_by (d : deed) : option SessionId := match d with Abandoned i => Some i | Armed _ => None end.

(** The sources that can be reached, by any calls at all. *)
Inductive lived (cwd : string) : list deed -> FileTranscriptSource -> World TailEvent -> Prop :=
| lived_new i n timeout w : lived cwd [] (mkSource cwd (TailState_new i n) [] timeout) w
| lived_arm h s w i r s' w' :
    lived cwd h s w -> arm_sync i s w = (Done (r, s'), w') -> lived cwd (h ++ if is_ok r then [Armed i] else []) s' w'
| lived_poll h s w i p r s' w' :
    lived cwd h s w -> poll_sync i p s w = (Done (r, s'), w') -> lived cwd h s' w'
| lived_rotation h s w i successor r s' w' :
    lived cwd h s w -> record_rotation i successor s w = (Done (r, s'), w') ->
    lived cwd (h ++ if is_ok r then [Abandoned i] else []) s' w'.

(** The ids that were abandoned last. *)
Definition remembered (h : list deed) : list SessionId :=
  let l := omap abandoned_by h in drop (length l - MAX_REMEMBERED_ROTATIONS) l.

Lemma record_rotation_tells i successor s :
  tells (record_rotation i successor) s (fun r s' _ => ft_state s' = ft_state s /\
    match r with
    | Ok _ => exists n, ft_rotations s' = remember (mkRotation i successor n) (ft_rotations s)
    | Err _ => ft_rotations s' = ft_rotations s
    end).
Proof.
  eapply tells_step; [apply lock_tells|intros _ _|by intros f]. eapply tells_step; [apply now_tells|intros n _|by intros f].
  apply says_ret. split; [done|]. by exists n.
Qed.

Lemma drop_snoc_bounded {A} (l : list A) (x : A) (k : nat) :
  (0 < k)%nat ->
  drop (length (drop (length l - k) l ++ [x]) - k) (drop (length l - k) l ++ [x]) = drop (length (l ++ [x]) - k) (l ++ [x]).
Proof.
  intros Hk. rewrite !length_app, length_drop. cbn [length].
  destruct (decide (length l < k)%nat) as [Hlt|Hge].
  - replace (length l - k)%nat with 0%nat by lia. rewrite drop_0. f_equal. lia.
  - replace (length l - (length l - k) + 1 - k)%nat with 1%nat by lia.
    rewrite !drop_app_le by (rewrite ?length_drop; lia). rewrite drop_drop. do 2 f_equal. lia.
Qed.

Lemma lived_rotations cwd h s w : lived cwd h s w -> rr_abandoned <$> ft_rotations s = remembered h.
Proof.
  induction 1 as [| h s w i r s' w' Hl IH Hrun| h s w i p r s' w' Hl IH Hrun | h s w i successor r s' w' Hl IH Hrun]; [done|..].
  - destruct (tells_inv _ _ _ _ _ _ _ (arm_sync_tells i s) Hrun) as (t & _ & (E & _)). rewrite E, IH.
    unfold remembered. rewrite omap_app. destruct r; cbn; by rewrite app_nil_r.
  - destruct (tells_inv _ _ _ _ _ _ _ (poll_sync_keeps i p s) Hrun) as (t & _ & (E & _)). by rewrite E.
  - destruct (tells_inv _ _ _ _ _ _ _ (record_rotation_tells i successor s) Hrun) as (t & _ & (_ & E)).
    destruct r as [u|f]; [|by rewrite E, IH, app_nil_r]. destruct E as (n & ->). unfold remember, remembered in *.
    rewrite omap_app. cbn [omap list_omap abandoned_by]. rewrite fmap_drop, fmap_app, length_app, <-(length_fmap rr_abandoned), IH.
    cbn. rewrite <-drop_snoc_bounded by (unfold MAX_REMEMBERED_ROTATIONS; lia). by rewrite length_app.
Qed.

Lemma lived_armed cwd h s w :
  lived cwd h s w -> tl_armed (ft_state s) = true -> last (omap armed_by h) = Some (tl_session_id (ft_state s)).
Proof.
  induction 1 as [| h s w i r s' w' Hl IH Hrun| h s w i p r s' w' Hl IH Hrun | h s w i successor r s' w' Hl IH Hrun]; [done|..].
  - destruct (tells_inv _ _ _ _ _ _ _ (arm_sync_tells i s) Hrun) as (t & _ & (_ & _ & _ & Hr)). rewrite omap_app.
    destruct r as [arm|f]; cbn.
    + intros _. destruct Hr as ((_ & <- & _) & _). by rewrite last_snoc.
    + rewrite app_nil_r. destruct Hr as [->|Hr]; [done|by rewrite Hr].
  - destruct (tells_inv _ _ _ _ _ _ _ (poll_sync_keeps i p s) Hrun) as (t & _ & (_ & E)). intros Ha.
    destruct (E Ha) as [Ha' ->]. by apply IH.
  - destruct (tells_inv _ _ _ _ _ _ _ (record_rotation_tells i successor s) Hrun) as (t & _ & (-> & _)).
    rewrite omap_app. destruct r; cbn; by rewrite app_nil_r.
Qed.

End Lives.

Section Claims.
Context `{Outside} `{Files}.

(** C6. From a successful arm on, and as long as the tail stays at the file generation of the
    arm (the caller sees a new one in the position), the transcript is told without a gap, a
    repetition or a stranger's row. A caller polls at the position it was last given,
    whatever the file system does and however many polls fail in between: the reads that
    were answered are of one file and each begins where the last one ended; the rows are
    what the complete lines of these bytes parse to, one for one and in order; each row of a
    prompt, an answer, a tool or an attachment carries the session's id and no directory
    outside the task (system, metadata and unknown rows are told whatever they carry); and
    the caller's offset is the end of what it was told. *)
Theorem tail_delivers_every_line i s0 w0 arm s1 w1 reads rows p s2 w2 :
  arm_sync i s0 w0 = (Done (Ok arm, s1), w1) ->
  follow i (arm_position arm) s1 w1 reads rows p s2 w2 ->
  pos_generation p = pos_generation (arm_position arm) ->
  let stream := concat (snd <$> reads) in
  let boundary := pos_offset (arm_position arm) in
  (exists file, contiguous file boundary reads) /\
  pos_offset p = boundary + N.of_nat (length stream) /\
  Forall2 (fun l row => parse_row l = Ok row) (fst (frames boundary 1 [] stream)) rows /\
  Forall (ours i (ft_expected_cwd s0)) rows.
Proof.
  intros Harm Hfollow Hgen. destruct (armed_delivers _ _ _ _ _ _ _ _ _ _ _ Harm Hfollow Hgen) as (Hc & Ho & Hr).
  split; [done|]. split; [done|]. split; [by eapply collect_rows_parse|by eapply collect_rows_ours].
Qed.

(** What a batch says about being drained is so. When a batch reports the end of the file
    and no partial line, then the file, at the length it had when it was last looked at,
    holds nothing after the bytes the caller was told, and these end with a complete line;
    or there is no file yet and nothing was told. *)
Theorem drained_batch_is_complete i s0 w0 arm s1 w1 reads rows p s2 w2 b s3 w3 t :
  arm_sync i s0 w0 = (Done (Ok arm, s1), w1) ->
  follow i (arm_position arm) s1 w1 reads rows p s2 w2 ->
  poll_sync i p s2 w2 = (Done (Ok b, s3), w3) -> tk_trace w3 = tk_trace w2 ++ t ->
  pos_generation (ba_position b) = pos_generation (arm_position arm) ->
  dr_at_eof (ba_drain b) = true -> dr_has_partial_line (ba_drain b) = false ->
  let stream := concat (snd <$> reads ++ read_events t) in
  let boundary := pos_offset (arm_position arm) in
  collect_rows (ft_expected_cwd s0) i (fst (frames boundary 1 [] stream)) = Ok (rows ++ ba_rows b) /\
  (tl_path (ft_state s3) = None /\ t = [] \/
   exists metadata t0, t = t0 ++ [StatPath metadata] /\ fm_len metadata = boundary + N.of_nat (length stream) /\
     snd (frames boundary 1 [] stream) = []).
Proof.
  intros Harm Hfollow Hpoll Ht Hgen Heof Hpart.
  pose proof (follow_snoc _ _ _ _ _ _ _ _ _ _ _ _ _ Hfollow Hpoll Ht) as Hall.
  destruct (armed_delivers _ _ _ _ _ _ _ _ _ _ _ Harm Hall Hgen) as (_ & _ & Hr).
  split; [done|]. by eapply armed_drained.
Qed.

(** Nothing is told without a boundary. However a source was used before, by any calls in
    any order: a poll that answers is of the id that was armed last, at the position the
    tail stands at, and that id is not among the last eight that a [/clear] abandoned. *)
Theorem polls_follow_the_last_arm cwd h s w i p b s' w' :
  lived cwd h s w -> poll_sync i p s w = (Done (Ok b, s'), w') ->
  last (omap armed_by h) = Some i /\ p = tail_position (ft_state s) /\ i ∉ remembered h.
Proof.
  intros Hl Hpoll. destruct (stands_dec i p s) as [(Hrot & Hi & Ha & Hp)|Hn].
  2: { by destruct (tells_inv _ _ _ _ _ _ _ (poll_sync_refuses i p s Hn) Hpoll) as (? & _ & ((f & [=]) & _)). }
  split; [by rewrite <-Hi; apply (lived_armed _ _ _ _ Hl)|]. split; [done|]. rewrite <-(lived_rotations _ _ _ _ Hl).
  intros (record & -> & Hin)%list_elem_of_fmap. apply elem_of_reverse, list_elem_of_In in Hin.
  apply (find_none _ _ Hrot) in Hin. by rewrite N.eqb_refl in Hin.
Qed.

End Claims.

(** ** The transcript tail, run

    A transcript of one line that grows by another after it was armed. *)

Module TailDemo.

Definition a_row : json :=
  jobj [("type", JStr "user"); ("uuid", JStr "u1"); ("sessionId", JStr "seven"); ("cwd", JStr "/work/src");
        ("message", jobj [("role", JStr "user"); ("content", JStr "hello")])]%string.

#[export] Instance outside : Outside := {|
  out_str_debug s := s;
  out_from_slice _ := Ok a_row;
  parse_uuid s := if bool_decide (s = "seven"%string) then Some 7 else None;
  print_uuid n := pretty n;
  nfc_str s := s;
  canonicalize s := Some s;
|}.

Definition content : list N := text_of "a" ++ [LF] ++ text_of "bc" ++ [LF].

(** The file grows after the questions of the arm. *)
Definition size (k : nat) : N := if (k <? 10)%nat then 2 else 5.
Definition the_file (k : nat) : FileMetadata := mkFileMetadata (mkFileIdentity 1 2) (size k).

#[export] Instance files : Files := {|
  locate_answer _ _ := Ok (mkLocated "/root/7.jsonl" "/root");
  path_metadata k _ := Ok (the_file k);
  file_metadata k _ := Ok (the_file k);
  open_answer _ _ := Ok tt;
  seek_answer _ _ := Ok tt;
  file_bytes _ _ from := Ok (drop (N.to_nat from) content);
  dir_entries _ _ := Ok [];
  tail_poisoned _ := false;
  tail_instant k := N.of_nat k * 1000000;
|}.

Definition fresh_source : FileTranscriptSource := mkSource "/work" (TailState_new 7 0) [] CLEAR_REBIND_TIMEOUT.

Definition source_of {A} (r : outcome (DriverResult A * FileTranscriptSource) * World TailEvent) : FileTranscriptSource :=
  match r with (Done (_, s), _) => s | _ => fresh_source end.

Definition armed : FileTranscriptSource := Eval vm_compute in source_of (arm_sync 7 fresh_source start).
Definition armed_world : World TailEvent := Eval vm_compute in snd (arm_sync 7 fresh_source start).
Definition the_arm : TranscriptArm := mkArm (mkPosition 1 2) [].

Definition the_batch : TranscriptBatch := Eval vm_compute in
  match poll_sync 7 (arm_position the_arm) armed armed_world with
  | (Done (Ok b, _), _) => b
  | _ => mkBatch (arm_position the_arm) [] (mkDrain false false 0)
  end.
Definition polled_source : FileTranscriptSource := Eval vm_compute in source_of (poll_sync 7 (arm_position the_arm) armed armed_world).
Definition polled_world : World TailEvent := Eval vm_compute in snd (poll_sync 7 (arm_position the_arm) armed armed_world).
Definition poll_trace : list TailEvent := Eval vm_compute in drop (length (tk_trace armed_world)) (tk_trace polled_world).

Lemma demo_arm : arm_sync 7 fresh_source start = (Done (Ok the_arm, armed), armed_world).
Proof. vm_compute. reflexivity. Qed.
Lemma demo_poll : poll_sync 7 (arm_position the_arm) armed armed_world = (Done (Ok the_batch, polled_source), polled_world).
Proof. vm_compute. reflexivity. Qed.
Lemma demo_trace : tk_trace polled_world = tk_trace armed_world ++ poll_trace.
Proof. reflexivity. Qed.

Lemma demo_follow :
  follow 7 (arm_position the_arm) armed armed_world (read_events poll_trace ++ []) (ba_rows the_batch ++ [])
    (ba_position the_batch) polled_source polled_world.
Proof. eapply follow_answered; [exact demo_poll|exact demo_trace|constructor]. Qed.

(** The line that was there is passed over, the one appended is told. *)
Example one_row_is_told :
  read_events poll_trace = [(mkFileIdentity 1 2, 2, text_of "bc" ++ [LF])] /\ length (ba_rows the_batch) = 1%nat /\
  ba_drain the_batch = mkDrain true false 1.
Proof. vm_compute. split_and!; reflexivity. Qed.

Lemma tail_delivers_every_line_witness :
  let stream := concat (snd <$> read_events poll_trace ++ []) in
  (exists file, contiguous file 2 (read_events poll_trace ++ [])) /\
  pos_offset (ba_position the_batch) = 2 + N.of_nat (length stream) /\
  Forall2 (fun l row => parse_row l = Ok row) (fst (frames 2 1 [] stream)) (ba_rows the_batch ++ []) /\
  Forall (ours 7 "/work") (ba_rows the_batch ++ []).
Proof.
  exact (tail_delivers_every_line 7 fresh_source start the_arm armed armed_world _ _ _ polled_source polled_world
           demo_arm demo_follow eq_refl).
Defined.

Lemma drained_batch_is_complete_witness :
  let stream := concat (snd <$> [] ++ read_events poll_trace) in
  collect_rows "/work" 7 (fst (frames 2 1 [] stream)) = Ok ([] ++ ba_rows the_batch) /\
  (tl_path (ft_state polled_source) = None /\ poll_trace = [] \/
   exists metadata t0, poll_trace = t0 ++ [StatPath metadata] /\ fm_len metadata = 2 + N.of_nat (length stream) /\
     snd (frames 2 1 [] stream) = []).
Proof.
  exact (drained_batch_is_complete 7 fresh_source start the_arm armed armed_world [] [] _ armed armed_world the_batch
           polled_source polled_world poll_trace demo_arm (follow_stop 7 _ _ _) demo_poll demo_trace eq_refl eq_refl eq_refl).
Defined.

Lemma demo_lived : lived "/work" [Armed 7] armed armed_world.
Proof. exact (lived_arm "/work" [] fresh_source start 7 (Ok the_arm) armed armed_world (lived_new _ _ _ _ _) demo_arm). Qed.

Lemma polls_follow_the_last_arm_witness :
  last (omap armed_by [Armed 7]) = Some 7 /\ arm_position the_arm = tail_position (ft_state armed) /\ 7 ∉ remembered [Armed 7].
Proof.
  exact (polls_follow_the_last_arm "/work" [Armed 7] armed armed_world 7 _ the_batch polled_source polled_world demo_lived demo_poll).
Defined.

End TailDemo.
