(* ===== verification/Locator.v ===== *)
(** * Finding a transcript

    [crates/claude/src/locator.rs]: the search for the transcript of a session among the
    project directories of a configuration root. The file system answers every question
    anew (class [Disk]); the trace records the files that were read and what they held. *)

From S2P Require Import Prelude Text Protocol Composer Transcript Cursor Parser Session Screen Backend Menu Task Gate TurnResults RowIdentity Tail.

Definition MAX_PROJECT_DIRECTORIES : N := 10000.
Definition MAX_VALIDATION_LINES : nat := 256.
Definition MAX_VALIDATION_BYTES : N := 2 * 1024 * 1024.

Class Disk := {
  is_file : nat -> string -> bool;
  is_dir : nat -> string -> bool;
  (** [read_dir]: the failure of the listing, or per entry its own failure, or its name and
      whether it is a directory, which may not be known. *)
  listing : nat -> string -> result (list (result (string * result bool string) string)) string;
  open_file_answer : nat -> string -> result unit string;
  (** What an open file gives before its end, or before the error that ends it. *)
  file_stream : nat -> string -> list N * option string;
  (** [Path::canonicalize]. *)
  canonical : nat -> string -> result string string;
}.

Inductive LocatorEvent :=
| Probed (path : string) (found : bool)
| Listing (names : list string)
| Examined (path : string) (bytes : list N) (failed : option string).

Record TranscriptLocator := mkLocator {
  lc_config_root : string;
  lc_projects_root : string;
  lc_canonical_cwd : string;
  lc_normalized_cwd : string;
  lc_session_id : string;
  lc_project_directories : N;
  lc_validation_lines : nat;
  lc_validation_bytes : N;
}.

(** ** Paths *)

(** [Path::join]. *)
Definition join_path (base p : string) : string :=
  if path_absolute (path_from p) then p
  else if bool_decide (base = EmptyString) || bool_decide (last (bytes base) = Some 47) then (base +:+ p)%string
  else (base +:+ "/" +:+ p)%string.

(** Equality and order of paths are those of their components. *)
Definition same_path (p q : string) : bool := bool_decide (path_from p = path_from q).

Fixpoint components_compare (a b : list string) : comparison :=
  match a, b with
  | [], [] => Eq
  | [], _ => Lt
  | _, [] => Gt
  | x :: a, y :: b => match str_compare x y with Eq => components_compare a b | c => c end
  end.

Definition path_leb (p q : string) : bool :=
  match path_absolute (path_from p), path_absolute (path_from q) with
  | true, false => true
  | false, true => false
  | _, _ =>
      match components_compare (path_components (path_from p)) (path_components (path_from q)) with
      | Gt => false
      | _ => true
      end
  end.

Fixpoint insert_path (p : string) (l : list string) : list string :=
  match l with
  | [] => [p]
  | q :: l' => if path_leb p q then p :: l else q :: insert_path p l'
  end.
Fixpoint sort_paths (l : list string) : list string :=
  match l with [] => [] | p :: l => insert_path p (sort_paths l) end.

Definition push_unique (values : list string) (path : string) : list string :=
  if existsb (same_path path) values then values else values ++ [path].

(** [Path::parent] of a path that [join_path] made: what stands before the last slash. *)
Fixpoint before_last_slash (l : list N) : option (list N) :=
  match l with
  | [] => None
  | b :: l => match before_last_slash l with
              | Some p => Some (b :: p)
              | None => if b =? 47 then Some [] else None
              end
  end.
Definition parent_path (p : string) : option string := ascii_string <$> before_last_slash (bytes p).

Definition DASH : N := 45.

(** One dash for every character that is not a letter or a digit of ASCII. *)
Definition sanitize_project_path (path : string) : string :=
  ascii_string ((fun c => if is_ascii_alphanumeric c then c else DASH) <$> chars path).

Fixpoint collapse_from (previous_dash : bool) (l : list N) : list N :=
  match l with
  | [] => []
  | c :: l =>
      if negb (c =? DASH) || negb previous_dash then c :: collapse_from (c =? DASH) l
      else collapse_from (c =? DASH) l
  end.
Definition collapse_dashes (value : string) : string := ascii_string (collapse_from false (chars value)).

Section Locator.
Context `{Outside} `{Disk}.
Abbreviation L := (T LocatorEvent).
Abbreviation Located A := (result A TranscriptLocationError).

Definition TranscriptLocator_new (config_root cwd session_id : string) : L (Located TranscriptLocator) :=
  if negb (path_absolute (path_from config_root)) then tret (Err (RelativeConfigRoot config_root))
  else
    let% answer := ask (fun k => canonical k cwd) in
    tret (match answer with
          | Err source => Err (InvalidCwd cwd source)
          | Ok canonical_cwd =>
              Ok (mkLocator config_root (join_path config_root "projects") canonical_cwd (nfc_str canonical_cwd) session_id
                    MAX_PROJECT_DIRECTORIES MAX_VALIDATION_LINES MAX_VALIDATION_BYTES)
          end).

Definition session_file (session_id : string) : string := (session_id +:+ ".jsonl")%string.

Definition expected_candidates (self : TranscriptLocator) (session_id : string) : list string :=
  let slug := sanitize_project_path (lc_normalized_cwd self) in
  let collapsed := collapse_dashes slug in
  join_path (join_path (lc_projects_root self) slug) (session_file session_id) ::
  (if negb (String.eqb collapsed slug)
   then [join_path (join_path (lc_projects_root self) collapsed) (session_file session_id)] else []).

(** The file is pushed when it is there. *)
Definition probe (matches : list string) (candidate : string) : L (list string) :=
  let% found := ask (fun k => is_file k candidate) in
  log (Probed candidate found) ;%
  tret (if (found : bool) then push_unique matches candidate else matches).

Fixpoint probe_all (candidates matches : list string) : L (list string) :=
  match candidates with
  | [] => tret matches
  | c :: candidates => let% matches := probe matches c in probe_all candidates matches
  end.

Fixpoint scan_entries (self : TranscriptLocator) (session_id : string)
    (entries : list (result (string * result bool string) string)) (scanned_directories : N) (matches : list string) :
    L (Located (list string)) :=
  match entries with
  | [] => tret (Ok matches)
  | Err source :: _ => tret (Err (LocationIo (lc_projects_root self) source))
  | Ok (name, Err source) :: _ => tret (Err (LocationIo (join_path (lc_projects_root self) name) source))
  | Ok (_, Ok false) :: entries => scan_entries self session_id entries scanned_directories matches
  | Ok (name, Ok true) :: entries =>
      if lc_project_directories self <=? scanned_directories then tret (Err ScanLimit)
      else
        let% matches := probe matches (join_path (join_path (lc_projects_root self) name) (session_file session_id)) in
        scan_entries self session_id entries (scanned_directories + 1) matches
  end.

Definition entry_name (e : result (string * result bool string) string) : option string :=
  match e with Ok (name, Ok true) => Some name | _ => None end.

Definition existing_session_files_for (self : TranscriptLocator) (session_id : string) : L (Located (list string)) :=
  let% matches := probe_all (expected_candidates self session_id) [] in
  let% present := ask (fun k => is_dir k (lc_projects_root self)) in
  let% scanned :=
    (if (present : bool) then
       let% answer := ask (fun k => listing k (lc_projects_root self)) in
       match answer with
       | Err source => tret (Err (LocationIo (lc_projects_root self) source))
       | Ok entries =>
           log (Listing (omap entry_name entries)) ;%
           scan_entries self session_id entries 0 matches
       end
     else tret (Ok matches)) in
  tret (match scanned with Ok matches => Ok (sort_paths matches) | Err e => Err e end).

Definition existing_session_files (self : TranscriptLocator) : L (Located (list string)) :=
  existing_session_files_for self (lc_session_id self).

(** ** Validation *)

Definition CR : N := 13.

(** A line as [read_until] gives it, without its end. *)
Definition strip_cr (line : list N) : list N :=
  if bool_decide (last line = Some CR) then take (length line - 1) line else line.

(** The row carries the session and the directory, both. *)
Definition corroborates (self : TranscriptLocator) (session_id : string) (line : list N) : bool :=
  match out_from_slice line with
  | Err _ => false
  | Ok row =>
      bool_decide (json_get "sessionId" row ≫= json_as_str = Some session_id)
      && match json_get "cwd" row ≫= json_as_str with
         | Some cwd => String.eqb (normalize_candidate_cwd cwd) (lc_normalized_cwd self)
         | None => false
         end
  end.

Fixpoint scan_lines (self : TranscriptLocator) (session_id : string) (lines : nat) (bytes : list N) (failed : option string) :
    result bool string :=
  match lines with
  | O => Ok false
  | S lines =>
      match split_once [LF] bytes with
      | None => match failed with Some e => Err e | None => Ok false end
      | Some (line, rest) =>
          if corroborates self session_id (strip_cr line) then Ok true
          else scan_lines self session_id lines rest failed
      end
  end.

(** At the byte limit the file ends, whatever follows. *)
Definition limited (limit : N) (stream : list N * option string) : list N * option string :=
  if limit <=? N.of_nat (length (fst stream)) then (take (N.to_nat limit) (fst stream), None) else stream.

Definition validate_candidate (self : TranscriptLocator) (session_id path : string) : L (Located bool) :=
  let% opened := ask (fun k => open_file_answer k path) in
  match opened with
  | Err source => tret (Err (LocationIo path source))
  | Ok _ =>
      let% stream := ask (fun k => file_stream k path) in
      let stream := limited (lc_validation_bytes self) stream in
      log (Examined path (fst stream) (snd stream)) ;%
      tret (map_err (LocationIo path) (scan_lines self session_id (lc_validation_lines self) (fst stream) (snd stream)))
  end.

Fixpoint validate_all (self : TranscriptLocator) (session_id : string) (candidates matches : list string) :
    L (Located (list string)) :=
  match candidates with
  | [] => tret (Ok matches)
  | candidate :: candidates =>
      let%? valid := validate_candidate self session_id candidate in
      validate_all self session_id candidates (if (valid : bool) then push_unique matches candidate else matches)
  end.

Definition locate_for (self : TranscriptLocator) (session_id : string) : L (Located LocatedTranscript) :=
  let%? files := existing_session_files_for self session_id in
  let%? matches := validate_all self session_id files [] in
  tret (match matches with
        | [] => Err (LocationNotFound session_id)
        | [path] => Ok (mkLocated path (default (lc_projects_root self) (parent_path path)))
        | paths => Err (Ambiguous session_id paths)
        end).

Definition locate (self : TranscriptLocator) : L (Located LocatedTranscript) := locate_for self (lc_session_id self).

End Locator.
