(* ===== verification/LocatorTheorems.v ===== *)
(** * The transcript that is found

    What a search reports, whatever the file system answers, and that it is exhaustive when
    the file system stands still. *)

From S2P Require Import Prelude Text Protocol Composer Transcript Cursor Parser Session Screen Backend Menu Task Gate TurnResults RowIdentity Tail Locator.

(** ** Lists of paths *)

Definition identities (l : list string) : list Path := path_from <$> l.

Lemma push_unique_cases l p :
  (path_from p ∈ identities l /\ push_unique l p = l) \/ (~ path_from p ∈ identities l /\ push_unique l p = l ++ [p]).
Proof.
  unfold push_unique. destruct (existsb (same_path p) l) eqn:He; [left|right]; (split; [|done]).
  - apply existsb_exists in He as (q & Hq & Hs%bool_decide_eq_true). rewrite Hs. unfold identities.
    apply list_elem_of_fmap. exists q. split; [done|by apply list_elem_of_In].
  - intros (q & E & Hq)%list_elem_of_fmap. apply not_true_iff_false in He. apply He, existsb_exists.
    exists q. split; [by apply list_elem_of_In|by apply bool_decide_eq_true].
Qed.

Lemma push_unique_distinct l p : NoDup (identities l) -> NoDup (identities (push_unique l p)).
Proof.
  intros Hl. destruct (push_unique_cases l p) as [[_ ->]|[Hn ->]]; [done|].
  unfold identities in *. rewrite fmap_app. apply NoDup_app.
  split_and!; [done| |apply NoDup_singleton]. intros x Hx ->%list_elem_of_singleton. done.
Qed.

Lemma push_unique_identities l p x : x ∈ identities (push_unique l p) <-> x ∈ identities l \/ x = path_from p.
Proof.
  destruct (push_unique_cases l p) as [[Hin ->]|[_ ->]]; [naive_solver|].
  unfold identities. rewrite fmap_app, elem_of_app. cbn. by rewrite list_elem_of_singleton.
Qed.

Lemma push_unique_old l p x : x ∈ l -> x ∈ push_unique l p.
Proof. intros Hx. destruct (push_unique_cases l p) as [[_ ->]|[_ ->]]; [done|]. apply elem_of_app. by left. Qed.

Lemma push_unique_in l p x : x ∈ push_unique l p -> x ∈ l \/ x = p.
Proof.
  destruct (push_unique_cases l p) as [[_ ->]|[_ ->]]; [by left|]. rewrite elem_of_app, list_elem_of_singleton. done.
Qed.

Lemma insert_path_perm p l : insert_path p l ≡ₚ p :: l.
Proof. induction l as [|q l IH]; [done|]. cbn. destruct (path_leb p q); [done|]. rewrite IH. apply Permutation_swap. Qed.

Lemma sort_paths_perm l : sort_paths l ≡ₚ l.
Proof. induction l as [|p l IH]; [done|]. cbn. by rewrite insert_path_perm, IH. Qed.

(** The paths a list of events pushes, one by one. *)
Section Pushes.
Context {E : Type} (pushes : E -> option string).

Definition pushed (l : list string) (t : list E) : list string :=
  foldl (fun l e => match pushes e with Some p => push_unique l p | None => l end) l t.

Lemma pushed_app l t t' : pushed l (t ++ t') = pushed (pushed l t) t'.
Proof. apply foldl_app. Qed.

Lemma pushed_distinct t : forall l, NoDup (identities l) -> NoDup (identities (pushed l t)).
Proof.
  induction t as [|e t IH]; intros l Hl; [done|]. apply IH. destruct (pushes e); [by apply push_unique_distinct|done].
Qed.

Lemma pushed_identities t : forall l x,
  x ∈ identities (pushed l t) <-> x ∈ identities l \/ exists e p, e ∈ t /\ pushes e = Some p /\ x = path_from p.
Proof.
  induction t as [|e t IH]; intros l x.
  { split; [by left|]. intros [?|(e & p & Hin & _)]; [done|by apply not_elem_of_nil in Hin]. }
  unfold pushed in *. cbn. rewrite IH.
  assert (He : x ∈ identities (match pushes e with Some p => push_unique l p | None => l end) <->
    x ∈ identities l \/ exists p, pushes e = Some p /\ x = path_from p).
  { destruct (pushes e) as [p|]; [rewrite push_unique_identities|]; naive_solver. }
  rewrite He. split.
  - intros [[?|(p & Hp & ->)]|(e' & p & Hin & Hp & ->)]; [by left|right; exists e, p; set_solver|right; exists e', p; set_solver].
  - intros [?|(e' & p & [->|Hin]%elem_of_cons & Hp & ->)]; [by left; left|left; right; by exists p|right; by exists e', p].
Qed.

Lemma pushed_in t : forall l x, x ∈ pushed l t -> x ∈ l \/ exists e, e ∈ t /\ pushes e = Some x.
Proof.
  induction t as [|e t IH]; intros l x; cbn; [by left|]. intros [Hx|(e' & Hin & Hp)]%IH; [|right; exists e'; set_solver].
  destruct (pushes e) as [p|] eqn:Hp; [|by left]. apply push_unique_in in Hx as [Hx| ->]; [by left|right; exists e; set_solver].
Qed.

End Pushes.

(** ** Lines *)

(** One of the first complete lines, of at most [lines]. *)
Definition among_lines (lines : nat) (bytes line : list N) : Prop :=
  exists before post, bytes = concat ((fun l => l ++ [LF]) <$> before) ++ line ++ [LF] ++ post /\ (length before < lines)%nat /\
    Forall (fun l => LF ∉ l) (line :: before).

Lemma split_line bytes line rest : split_once [LF] bytes = Some (line, rest) -> bytes = line ++ [LF] ++ rest /\ LF ∉ line.
Proof.
  intros Hs. split; [by apply split_once_Some|]. revert line Hs.
  induction bytes as [|c bytes IH]; intros line; cbn [split_once strip_prefix]; [done|].
  destruct (N.eqb_spec LF c) as [<-|Hc]; [intros [= <- _]; apply not_elem_of_nil|].
  destruct (split_once [LF] bytes) as [[a b]|]; [|done]. intros [= <- ->]. apply not_elem_of_cons. split; [done|]. by apply (IH a).
Qed.

(** What reading a file gives: its beginning, all of it unless it is longer than the limit. *)
Definition first_bytes (limit : N) (stream bytes : list N) : Prop :=
  bytes `prefix_of` stream /\ N.of_nat (length bytes) <= limit /\ (bytes = stream \/ N.of_nat (length bytes) = limit).

Lemma limited_first limit stream bytes failed : limited limit stream = (bytes, failed) -> first_bytes limit (fst stream) bytes.
Proof.
  unfold limited, first_bytes. destruct (N.leb_spec limit (N.of_nat (length (fst stream)))) as [Hl|Hl]; intros E.
  - injection E as <- _. rewrite length_take, Nat.min_l by lia. rewrite N2Nat.id. split_and!; [|lia|by right].
    exists (drop (N.to_nat limit) (fst stream)). by rewrite take_drop.
  - subst stream. cbn in *. split_and!; [done|lia|by left].
Qed.

Section Runs.
Context `{Outside} `{Disk}.
Abbreviation root self := (lc_projects_root self).

Lemma scan_lines_true self sid lines : forall bytes failed,
  scan_lines self sid lines bytes failed = Ok true ->
  exists line, among_lines lines bytes line /\ corroborates self sid (strip_cr line) = true.
Proof.
  induction lines as [|lines IH]; intros bytes failed; [done|]. cbn. destruct (split_once [LF] bytes) as [[line rest]|] eqn:Hs.
  2: { by destruct failed. }
  apply split_line in Hs as [-> Hlf]. destruct (corroborates self sid (strip_cr line)) eqn:Hc.
  { intros _. exists line. split; [|done]. exists [], rest. split_and!; [done|cbn; lia|by repeat constructor]. }
  intros (l & (before & post & -> & Hlen & [Hfl Hfb]%Forall_cons) & Hl)%IH. exists l. split; [|done].
  exists (line :: before), post. split_and!; [cbn; by rewrite <-!app_assoc|cbn; lia|by repeat constructor].
Qed.

(** Every line before the limit was looked at. *)
Lemma scan_lines_other self sid lines : forall bytes failed,
  scan_lines self sid lines bytes failed <> Ok true ->
  forall line, among_lines lines bytes line -> corroborates self sid (strip_cr line) = false.
Proof.
  induction lines as [|lines IH]; intros bytes failed Hs line (before & post & -> & Hlen & Hf); [cbn in Hlen; lia|].
  cbn [scan_lines] in Hs. apply Forall_cons in Hf as [Hl Hf]. destruct before as [|l before].
  - change (concat ((fun l => l ++ [LF]) <$> []) ++ line ++ [LF] ++ post) with (line ++ [LF] ++ post) in Hs.
    rewrite (split_once_char LF line post [] Hl) in Hs. by destruct (corroborates _ _ _).
  - apply Forall_cons in Hf as [Hl' Hf]. cbn [fmap list_fmap concat] in Hs. rewrite <-!app_assoc in Hs.
    rewrite (split_once_char LF l _ [] Hl') in Hs. destruct (corroborates self sid (strip_cr l)); [done|].
    apply (IH _ _ Hs). exists before, post. split_and!; [done|cbn in Hlen; lia|by constructor].
Qed.

(** ** What a search leaves behind *)

(** The trace is what the file system answered at some moment. *)
Definition truthful (self : TranscriptLocator) (e : LocatorEvent) : Prop :=
  match e with
  | Probed p found => exists k, is_file k p = found
  | Listing names => exists k entries, listing k (root self) = Ok entries /\ names = omap entry_name entries
  | Examined p bytes failed => exists k, limited (lc_validation_bytes self) (file_stream k p) = (bytes, failed)
  end.
Abbreviation honest self := (Forall (truthful self)).

Definition found_of (e : LocatorEvent) : option string := match e with Probed p true => Some p | _ => None end.
Definition probed_of (e : LocatorEvent) : option string := match e with Probed p _ => Some p | _ => None end.
Definition examined_of (e : LocatorEvent) : option string := match e with Examined p _ _ => Some p | _ => None end.
Definition valid_of (self : TranscriptLocator) (sid : string) (e : LocatorEvent) : option string :=
  match e with
  | Examined p bytes failed =>
      match scan_lines self sid (lc_validation_lines self) bytes failed with Ok true => Some p | _ => None end
  | _ => None
  end.

Abbreviation never := (fun (_ : Exit) (_ : list LocatorEvent) => False).

Definition place (self : TranscriptLocator) (sid dir : string) : string := join_path (join_path (root self) dir) (session_file sid).

Lemma probe_says self matches c :
  says (probe matches c) (fun m t => honest self t /\ m = pushed found_of matches t /\ omap probed_of t = [c] /\ omap examined_of t = []) never.
Proof.
  apply says_ask_at. intros n. apply log_step, says_ret. split_and!; [|by destruct (is_file n c)|done|done].
  constructor; [by exists n|constructor].
Qed.

Lemma probe_all_says self candidates : forall matches,
  says (probe_all candidates matches)
    (fun m t => honest self t /\ m = pushed found_of matches t /\ omap probed_of t = candidates /\ omap examined_of t = []) never.
Proof.
  induction candidates as [|c candidates IH]; intros matches; cbn; [by apply says_ret|].
  eapply says_bind; [apply (probe_says self)|]. intros m t (Ht & -> & Hp & He). eapply says_mono; [apply IH| |done].
  intros m' t' (Ht' & -> & Hp' & He'). rewrite pushed_app, !omap_app, Hp, Hp', He, He'. split_and!; try done. by apply Forall_app_2.
Qed.

(** A listing that says of every entry what it is, and names no more directories than are looked into. *)
Definition clean_entry (e : result (string * result bool string) string) : Prop :=
  match e with Ok (_, Ok _) => True | _ => False end.
Definition clean_listing (self : TranscriptLocator) (entries : list (result (string * result bool string) string)) : Prop :=
  Forall clean_entry entries /\ N.of_nat (length (omap entry_name entries)) <= lc_project_directories self.

Lemma scan_entries_says self sid entries : forall scanned matches,
  says (scan_entries self sid entries scanned matches)
    (fun r t => honest self t /\ omap examined_of t = [] /\
       match r with
       | Ok m => m = pushed found_of matches t /\ omap probed_of t = (place self sid <$> omap entry_name entries)
       | Err _ => ~ (Forall clean_entry entries /\ scanned + N.of_nat (length (omap entry_name entries)) <= lc_project_directories self)
       end) never.
Proof.
  induction entries as [|e entries IH]; intros scanned matches; [by apply says_ret|].
  destruct e as [[name [[|]|source]]|source]; cbn [scan_entries].
  - destruct (N.leb_spec (lc_project_directories self) scanned) as [Hle|Hlt].
    { apply says_ret. split_and!; try done. intros [_ Hn]. cbn in Hn. lia. }
    eapply says_bind; [apply (probe_says self)|]. intros m t (Ht & -> & Hp & He). eapply says_mono; [apply IH| |done].
    intros r t' (Ht' & He' & Hr). rewrite !omap_app, pushed_app, He, He', Hp. split_and!; [by apply Forall_app_2|done|].
    destruct r; [by destruct Hr as [-> ->]|]. intros [Hc Hn]. apply Hr. split; [by apply Forall_cons in Hc as [_ Hc]|cbn in Hn; lia].
  - eapply says_mono; [apply IH| |done]. intros r t (Ht & He & Hr). split_and!; [done|done|]. destruct r; [done|].
    intros [Hc Hn]. apply Hr. split; [by apply Forall_cons in Hc as [_ Hc]|done].
  - apply says_ret. split_and!; try done. intros [Hc _]. by apply Forall_cons in Hc as [[] _].
  - apply says_ret. split_and!; try done. intros [Hc _]. by apply Forall_cons in Hc as [[] _].
Qed.

(** The directories the search looked into: all the listing named, or none without a root. *)
Definition searched (self : TranscriptLocator) (dirs : list string) : Prop :=
  (exists k entries, listing k (root self) = Ok entries /\ dirs = omap entry_name entries) \/
  (dirs = [] /\ exists k, is_dir k (root self) = false).

Lemma existing_says self sid :
  says (existing_session_files_for self sid)
    (fun r t => honest self t /\ omap examined_of t = [] /\
       match r with
       | Ok files => files = sort_paths (pushed found_of [] t) /\
           exists dirs, searched self dirs /\ omap probed_of t = expected_candidates self sid ++ (place self sid <$> dirs)
       | Err _ => exists k, match listing k (root self) with Ok entries => ~ clean_listing self entries | Err _ => True end
       end) never.
Proof.
  unfold existing_session_files_for. eapply says_bind; [apply (probe_all_says self)|]. intros m t (Ht & -> & Hp & He).
  apply says_ask_at. intros n. destruct (is_dir n (root self)) eqn:Hd.
  2: { apply says_ret. rewrite app_nil_r. split_and!; [done|done|done|]. exists []. split; [right; split; [done|by exists n]|].
       cbn. by rewrite app_nil_r. }
  eapply says_bind with (P := fun r t' => honest self t' /\ omap examined_of t' = [] /\
    match r with
    | Ok m => m = pushed found_of (pushed found_of [] t) t' /\
        exists dirs, searched self dirs /\ omap probed_of t' = (place self sid <$> dirs)
    | Err _ => exists k, match listing k (root self) with Ok entries => ~ clean_listing self entries | Err _ => True end
    end).
  - apply says_ask_at. intros n'. destruct (listing n' (root self)) as [entries|source] eqn:Hl.
    2: { apply says_ret. split_and!; try done. exists n'. by rewrite Hl. }
    apply log_step. eapply says_mono; [apply scan_entries_says| |done]. intros r t' (Ht' & He' & Hr). split_and!; [|done|].
    + constructor; [by exists n', entries|done].
    + destruct r as [m|e]; [|exists n'; by rewrite Hl]. destruct Hr as [-> Hr]. split; [done|].
      exists (omap entry_name entries). split; [left; by exists n', entries|done].
  - intros r t' (Ht' & He' & Hr). apply says_ret. rewrite app_nil_r, !omap_app, He, He', Hp.
    split_and!; [by apply Forall_app_2|done|]. destruct r as [m|e]; [|done]. destruct Hr as (-> & dirs & Hs & ->).
    rewrite pushed_app. split; [done|]. by exists dirs.
Qed.

Lemma scan_lines_fails self sid lines : forall bytes failed e, scan_lines self sid lines bytes failed = Err e -> failed = Some e.
Proof.
  induction lines as [|lines IH]; intros bytes failed e; [done|]. cbn. destruct (split_once [LF] bytes) as [[line rest]|].
  - destruct (corroborates _ _ _); [done|]. apply IH.
  - by destruct failed as [f|]; [intros [= ->]|].
Qed.

(** A file that could not be read. *)
Definition unreadable (p : string) : Prop :=
  (exists k source, open_file_answer k p = Err source) \/ (exists k, is_Some (snd (file_stream k p))).

Lemma validate_candidate_says self sid p :
  says (validate_candidate self sid p)
    (fun r t => honest self t /\ omap probed_of t = [] /\
       match r with
       | Ok valid => exists bytes failed, t = [Examined p bytes failed] /\
           scan_lines self sid (lc_validation_lines self) bytes failed = Ok valid
       | Err _ => unreadable p
       end) never.
Proof.
  apply says_ask_at. intros n. destruct (open_file_answer n p) as [[]|source] eqn:Ho.
  2: { apply says_ret. split_and!; try done. left. by exists n, source. }
  apply says_ask_at. intros n'. cbv zeta. destruct (limited _ _) as [bytes failed] eqn:Hl. cbn [fst snd].
  apply log_step, says_ret. split_and!; [constructor; [by exists n'|constructor]|done|].
  destruct (scan_lines _ _ _ bytes failed) as [valid|e] eqn:Hs; cbn; [by exists bytes, failed|].
  right. exists n'. apply scan_lines_fails in Hs as ->. unfold limited in Hl. destruct (_ <=? _); [done|]. rewrite Hl. by eexists.
Qed.

Lemma validate_all_says self sid candidates : forall matches,
  says (validate_all self sid candidates matches)
    (fun r t => honest self t /\ omap probed_of t = [] /\
       match r with
       | Ok m => omap examined_of t = candidates /\ m = pushed (valid_of self sid) matches t
       | Err _ => exists p, p ∈ candidates /\ unreadable p
       end) never.
Proof.
  induction candidates as [|c candidates IH]; intros matches; cbn [validate_all]; [by apply says_ret|].
  eapply says_try; [apply validate_candidate_says| |].
  - intros valid t (Ht & Hp & bytes & failed & -> & Hs). eapply says_mono; [apply IH| |done]. intros r t' (Ht' & Hp' & Hr).
    rewrite omap_app, Hp, Hp', pushed_app. split_and!; [by apply Forall_app_2|done|].
    destruct r as [m|e]; [|destruct Hr as (p & Hin & Hr); exists p; split; [by right|done]].
    destruct Hr as [<- ->]. split; [done|]. f_equal. cbn. rewrite Hs. by destruct valid.
  - intros f t (Ht & Hp & Hr). split_and!; [done|done|]. exists c. split; [by left|done].
Qed.

(** The trace of a whole search. *)
Record search (self : TranscriptLocator) (sid : string) (t1 t2 : list LocatorEvent) (dirs : list string) : Prop := {
  se_honest : honest self (t1 ++ t2);
  se_searched : searched self dirs;
  se_probed : omap probed_of t1 = expected_candidates self sid ++ (place self sid <$> dirs);
  se_examined : omap examined_of t2 = sort_paths (pushed found_of [] t1);
  se_apart : omap examined_of t1 = [];
  se_quiet : omap probed_of t2 = [];
}.

Definition verdict (self : TranscriptLocator) (sid : string) (matches : list string) (r : result LocatedTranscript TranscriptLocationError) : Prop :=
  match matches with
  | [] => r = Err (LocationNotFound sid)
  | [path] => r = Ok (mkLocated path (default (root self) (parent_path path)))
  | paths => r = Err (Ambiguous sid paths)
  end.

Lemma locate_says self sid :
  says (locate_for self sid)
    (fun r t =>
       (exists t1 t2 dirs, t = t1 ++ t2 /\ search self sid t1 t2 dirs /\ verdict self sid (pushed (valid_of self sid) [] t2) r) \/
       (exists e, r = Err e) /\
         ((exists k, match listing k (root self) with Ok entries => ~ clean_listing self entries | Err _ => True end) \/
          exists p, (exists k, is_file k p = true) /\ unreadable p)) never.
Proof.
  eapply says_try; [apply existing_says| |].
  2: { intros f t (Ht & He & Hr). right. split; [by exists f|by left]. }
  intros files t1 (Ht1 & He1 & -> & dirs & Hs & Hp). eapply says_try; [apply validate_all_says| |].
  - intros matches t2 (Ht2 & Hp2 & He2 & ->). apply says_ret. rewrite app_nil_r. left. exists t1, t2, dirs.
    split; [done|]. split; [split; try done; by apply Forall_app_2|].
    unfold verdict. by destruct (pushed _ _ t2) as [|? [|? ?]].
  - intros f t2 (Ht2 & _ & p & Hin & Hu). right. split; [by exists f|]. right. exists p. split; [|done].
    rewrite sort_paths_perm in Hin. apply pushed_in in Hin as [Hin|(e & Hin & He)]; [by apply not_elem_of_nil in Hin|].
    apply (proj1 (Forall_forall _ _) Ht1) in Hin. destruct e as [q [|]| |]; simplify_eq/=. done.
Qed.

(** What a member of the first part of the trace, and of the second, stands for. *)
Lemma search_examined self sid t1 t2 dirs p bytes failed :
  search self sid t1 t2 dirs -> Examined p bytes failed ∈ t1 ++ t2 -> Examined p bytes failed ∈ t2.
Proof.
  intros [_ _ _ _ Ha _] [Hin|Hin]%elem_of_app; [|done]. exfalso.
  apply (not_elem_of_nil (A := string) p). rewrite <-Ha. apply list_elem_of_omap. by exists (Examined p bytes failed).
Qed.

Lemma valid_of_Some self sid e p :
  valid_of self sid e = Some p <->
  exists bytes failed, e = Examined p bytes failed /\ scan_lines self sid (lc_validation_lines self) bytes failed = Ok true.
Proof.
  destruct e as [| |q bytes failed]; cbn; try naive_solver.
  destruct (scan_lines _ _ _ bytes failed) as [[|]|] eqn:Hs; naive_solver congruence.
Qed.

Lemma search_found self sid t1 t2 dirs p :
  search self sid t1 t2 dirs -> p ∈ omap examined_of t2 ->
  p ∈ expected_candidates self sid ++ (place self sid <$> dirs) /\ exists k, is_file k p = true.
Proof.
  intros [Hh _ Hp He _ _] Hin. rewrite He, sort_paths_perm in Hin.
  apply pushed_in in Hin as [Hin|(e & Hin & Hf)]; [by apply not_elem_of_nil in Hin|].
  destruct e as [q [|]| |]; simplify_eq/=. split.
  - rewrite <-Hp. apply list_elem_of_omap. by exists (Probed p true).
  - apply Forall_app in Hh as [Hh _]. by apply (proj1 (Forall_forall _ _) Hh) in Hin.
Qed.

Lemma expected_places self sid p :
  p ∈ expected_candidates self sid -> exists dir, p = place self sid dir.
Proof.
  unfold expected_candidates. intros [->|Hin]%elem_of_cons; [by eexists|].
  destruct (negb _); [|by apply not_elem_of_nil in Hin]. apply list_elem_of_singleton in Hin as ->. by eexists.
Qed.

End Runs.

(** ** The claims *)

Section Claims.
Context `{Outside} `{Disk}.

(** The row names the session and, once links and composed characters are resolved, the
    directory. *)
Definition identifies (directory sid : string) (line : list N) : Prop :=
  exists row cwd, out_from_slice (strip_cr line) = Ok row /\ json_get "sessionId" row ≫= json_as_str = Some sid /\
    json_get "cwd" row ≫= json_as_str = Some cwd /\ normalize_candidate_cwd cwd = directory.

Lemma corroborates_identifies self sid line :
  corroborates self sid (strip_cr line) = true <-> identifies (lc_normalized_cwd self) sid line.
Proof.
  unfold corroborates. split.
  - destruct (out_from_slice _) as [row|] eqn:Hr; [|done]. intros [Hs Hc]%andb_true_iff.
    apply bool_decide_eq_true in Hs. destruct (json_get "cwd" row ≫= json_as_str) as [cwd|] eqn:Hcwd; [|done].
    apply String.eqb_eq in Hc. by exists row, cwd.
  - intros (row & cwd & -> & Hs & -> & <-). by rewrite bool_decide_eq_true_2, String.eqb_refl.
Qed.

(** What was read of a file at some moment: its first two megabytes. *)
Definition read_of (p : string) (bytes : list N) : Prop :=
  exists k, first_bytes (2 * 1024 * 1024) (fst (file_stream k p)) bytes.

(** A new locator: where it looks, for which directory, and how far it reads. *)
Lemma new_locator config_root cwd sid self w :
  TranscriptLocator_new config_root cwd sid start = (Done (Ok self), w) ->
  tk_trace w = [] /\ lc_projects_root self = join_path config_root "projects" /\
  lc_validation_lines self = 256%nat /\ lc_validation_bytes self = 2 * 1024 * 1024 /\
  exists k canonical_cwd, canonical k cwd = Ok canonical_cwd /\ lc_normalized_cwd self = nfc_str canonical_cwd.
Proof.
  unfold TranscriptLocator_new. destruct (negb _); [done|]. unfold tbind, ask, tret. cbn [fst snd start tk_asks tk_trace].
  destruct (canonical 0 cwd) as [canonical_cwd|source] eqn:Hc; [|done]. intros [= <- <-]. split_and!; try done. eauto.
Qed.

(** Every file the search saw was read. *)
Lemma seen_was_read self sid t1 t2 dirs p :
  search self sid t1 t2 dirs -> Probed p true ∈ t1 ++ t2 ->
  exists q bytes failed, path_from q = path_from p /\ Examined q bytes failed ∈ t2.
Proof.
  intros Hse Hin. pose proof Hse as [_ _ _ He _ _].
  assert (Hx : path_from p ∈ identities (pushed found_of [] (t1 ++ t2))) by (apply pushed_identities; right; by exists (Probed p true), p).
  rewrite pushed_app in Hx. apply pushed_identities in Hx as [Hx|(e & q & Hq & Hf & Ep)].
  - apply list_elem_of_fmap in Hx as (q & Eq & Hq). rewrite <-(sort_paths_perm (pushed found_of [] t1)), <-He in Hq.
    apply list_elem_of_omap in Hq as (e & Hq & Hf). destruct e as [| |q' bytes failed]; simplify_eq/=. by exists q, bytes, failed.
  - exfalso. destruct e as [q' [|]| |]; simplify_eq/=. apply (not_elem_of_nil (A := string) q).
    rewrite <-(se_quiet _ _ _ _ _ Hse). apply list_elem_of_omap. by exists (Probed q true).
Qed.

(** C40. A transcript is found only on the evidence of its own content, whatever the file system
    does meanwhile: the file is named after the session and lies in a project directory of
    the configuration root; of the first two megabytes this file held when it was read, one
    complete line among the first 256 names both the session and the directory, once links
    and composed characters are resolved; and every other file of that name the search saw
    was read too, and no such line of it does. *)
Theorem located_is_corroborated config_root cwd sid self w0 named located w :
  TranscriptLocator_new config_root cwd sid start = (Done (Ok self), w0) ->
  locate_for self named w0 = (Done (Ok located), w) ->
  exists k canonical_cwd dir bytes line,
    canonical k cwd = Ok canonical_cwd /\
    lt_path located = join_path (join_path (join_path config_root "projects") dir) (named +:+ ".jsonl")%string /\
    read_of (lt_path located) bytes /\ among_lines 256 bytes line /\ identifies (nfc_str canonical_cwd) named line /\
    (forall p, Probed p true ∈ tk_trace w -> path_from p <> path_from (lt_path located) ->
       exists q bytes', path_from q = path_from p /\ read_of q bytes' /\
         forall line', among_lines 256 bytes' line' -> ~ identifies (nfc_str canonical_cwd) named line').
Proof.
  intros (Ht0 & Hroot & Hlines & Hbytes & k & canonical_cwd & Hcan & Hcwd)%new_locator Hrun.
  pose proof (locate_says self named w0) as Hs. unfold twp in Hs. rewrite Hrun in Hs.
  destruct Hs as (t & Ht & [(t1 & t2 & dirs & -> & Hse & Hv)|[(e & [=]) _]]). rewrite Ht0, app_nil_l in Ht.
  destruct (pushed (valid_of self named) [] t2) as [|path [|? ?]] eqn:Hm; simplify_eq/=.
  assert (Hread : forall p bytes failed, Examined p bytes failed ∈ t2 -> read_of p bytes).
  { intros p bytes failed Hin. pose proof (se_honest _ _ _ _ _ Hse) as [_ Hh]%Forall_app.
    apply (proj1 (Forall_forall _ _) Hh) in Hin as [n Hn]. exists n. rewrite <-Hbytes. by eapply limited_first. }
  assert (Hin : path ∈ pushed (valid_of self named) [] t2) by (rewrite Hm; by left).
  apply pushed_in in Hin as [Hin|(e & Hin & (bytes & failed & -> & Hscan)%valid_of_Some)]; [by apply not_elem_of_nil in Hin|].
  destruct (scan_lines_true _ _ _ _ _ Hscan) as (line & Hline & Hc%corroborates_identifies).
  assert (Hd : exists dir, path = place self named dir).
  { destruct (search_found _ _ _ _ _ path Hse) as [[Hp|Hp]%elem_of_app _].
    - apply list_elem_of_omap. by exists (Examined path bytes failed).
    - by eapply expected_places.
    - apply list_elem_of_fmap in Hp as (dir & -> & _). by exists dir. }
  destruct Hd as [dir Hd]. unfold place, session_file in Hd. rewrite Hroot in Hd. rewrite Hlines in Hline. rewrite Hcwd in Hc.
  exists k, canonical_cwd, dir, bytes, line. split_and!; [done..|by eapply Hread|done|done|].
  intros p Hp Hne. rewrite Ht in Hp. destruct (seen_was_read _ _ _ _ _ _ Hse Hp) as (q & bytes' & failed' & Hq & Hin').
  exists q, bytes'. split; [done|]. split; [by eapply Hread|]. rewrite <-Hlines. intros line' Hl' Hi. rewrite <-Hcwd in Hi.
  apply corroborates_identifies in Hi. rewrite (scan_lines_other self named (lc_validation_lines self) bytes' failed') in Hi; [done| |done].
  intros Hscan'. apply Hne. rewrite <-Hq. assert (Hx : path_from q ∈ identities (pushed (valid_of self named) [] t2)).
  { apply pushed_identities. right. exists (Examined q bytes' failed'), q. split_and!; [done| |done]. cbn. by rewrite Hscan'. }
  rewrite Hm in Hx. by apply list_elem_of_singleton in Hx.
Qed.

(** The file system does not change, and answers the same for two names of one path. *)
Definition still : Prop :=
  forall k k' p q, path_from p = path_from q ->
    is_file k p = is_file k' q /\ file_stream k p = file_stream k' q /\ listing k p = listing k' q /\ is_dir k p = is_dir k' q.

(** A transcript of the session that a search should see. *)
Definition there (self : TranscriptLocator) (sid : string) (dirs : list string) (c : string) : Prop :=
  c ∈ expected_candidates self sid ++ (place self sid <$> dirs) /\ is_file 0 c = true /\
  scan_lines self sid (lc_validation_lines self) (fst (limited (lc_validation_bytes self) (file_stream 0 c)))
    (snd (limited (lc_validation_bytes self) (file_stream 0 c))) = Ok true.

Lemma search_exact self sid t1 t2 dirs :
  still -> search self sid t1 t2 dirs ->
  (forall c, c ∈ pushed (valid_of self sid) [] t2 -> there self sid dirs c) /\
  (forall c, there self sid dirs c -> path_from c ∈ identities (pushed (valid_of self sid) [] t2)).
Proof.
  intros Hstill Hse. pose proof Hse as [Hh _ Hp He _ _]. apply Forall_app in Hh as [Hh1 Hh2]. split; intros c.
  - intros [Hin|(e & Hin & (bytes & failed & -> & Hscan)%valid_of_Some)]%pushed_in; [by apply not_elem_of_nil in Hin|].
    destruct (search_found _ _ _ _ _ c Hse) as [Hc [k Hk]].
    { apply list_elem_of_omap. by exists (Examined c bytes failed). }
    apply (proj1 (Forall_forall _ _) Hh2) in Hin as [k' Hk']. destruct (Hstill 0%nat k c c eq_refl) as (Hf & _).
    destruct (Hstill 0%nat k' c c eq_refl) as (_ & Hst & _). split_and!; [done|congruence|]. by rewrite Hst, Hk'.
  - intros (Hc & Hf & Hscan). rewrite <-Hp in Hc. apply list_elem_of_omap in Hc as (e & Hin & Hpe).
    destruct e as [q b| |]; simplify_eq/=. pose proof (proj1 (Forall_forall _ _) Hh1 _ Hin) as [k Hk].
    destruct (Hstill 0%nat k c c eq_refl) as (Hf' & _). assert (b = true) as -> by congruence.
    assert (Hx : path_from c ∈ identities (pushed found_of [] t1)).
    { apply pushed_identities. right. by exists (Probed c true), c. }
    apply list_elem_of_fmap in Hx as (q & Hq & Hqin). rewrite <-(sort_paths_perm (pushed found_of [] t1)), <-He in Hqin.
    apply list_elem_of_omap in Hqin as (e & Hin' & He'). destruct e as [| |q' bytes failed]; simplify_eq/=.
    pose proof (proj1 (Forall_forall _ _) Hh2 _ Hin') as [k' Hk']. destruct (Hstill 0%nat k' c q Hq) as (_ & Hst & _).
    apply pushed_identities. right. exists (Examined q bytes failed), q. split_and!; [done| |done].
    cbn. rewrite Hst, Hk' in Hscan. cbn in Hscan. by rewrite Hscan.
Qed.

(** The search is exhaustive. When the file system stands still, the listing of the projects
    says of every entry what it is and names no more than the limit, and every file can be
    read, then the search answers: the one transcript of the session and the directory, if
    there is one only; "not found" if there is none; and the two or more of them, all
    different, if there are more. *)
Theorem search_is_exhaustive self sid entries :
  still -> is_dir 0 (lc_projects_root self) = true -> listing 0 (lc_projects_root self) = Ok entries ->
  clean_listing self entries -> (forall p, is_file 0 p = true -> ~ unreadable p) ->
  let there := there self sid (omap entry_name entries) in
  exists r w, locate_for self sid start = (Done r, w) /\
    match r with
    | Ok located => there (lt_path located) /\ forall c, there c -> path_from c = path_from (lt_path located)
    | Err (LocationNotFound i) => i = sid /\ forall c, ~ there c
    | Err (Ambiguous i paths) => i = sid /\ (2 <= length paths)%nat /\ NoDup (identities paths) /\ Forall there paths
    | Err _ => False
    end.
Proof.
  intros Hstill Hdir Hlist Hclean Hread. cbv zeta. pose proof (says_run _ _ _ (locate_says self sid)) as Hs.
  destruct (locate_for self sid start) as [[r|e] w]; [|done]. exists r, w. split; [done|].
  destruct Hs as [(t1 & t2 & dirs & _ & Hse & Hv)|[_ [[k Hk]|(p & [k Hk] & Hu)]]].
  2: { destruct (Hstill 0%nat k (lc_projects_root self) _ eq_refl) as (_ & _ & El & _). rewrite <-El, Hlist in Hk. by destruct Hk. }
  2: { destruct (Hread p); [|done]. destruct (Hstill 0%nat k p p eq_refl) as (-> & _). done. }
  assert (Hdirs : dirs = omap entry_name entries).
  { destruct (se_searched _ _ _ _ _ Hse) as [(k & es & Hk & ->)|(-> & k & Hk)];
      destruct (Hstill 0%nat k (lc_projects_root self) _ eq_refl) as (_ & _ & El & Ed); [|congruence].
    rewrite <-El, Hlist in Hk. by injection Hk as ->. }
  subst dirs. destruct (search_exact _ _ _ _ _ Hstill Hse) as [Hin Hall].
  pose proof (pushed_distinct (valid_of self sid) t2 [] (NoDup_nil_2)) as Hnd.
  destruct (pushed (valid_of self sid) [] t2) as [|path [|path' paths]]; cbn in Hv; subst r.
  - split; [done|]. intros c Hc. by apply Hall, not_elem_of_nil in Hc.
  - split; [apply Hin; by left|]. intros c Hc. apply Hall in Hc. by apply list_elem_of_singleton in Hc.
  - split_and!; [done|cbn; lia|done|]. apply Forall_forall. intros c Hc. by apply Hin.
Qed.

End Claims.

(** ** A search, run

    A disk of two project directories, one of which holds the transcript. *)

Module LocatorDemo.

Definition row_json : json := jobj [("sessionId", JStr "seven"); ("cwd", JStr "/work")]%string.

#[local] Instance outside : Outside := {|
  out_str_debug s := s;
  out_from_slice l := if bool_decide (l = text_of "r") then Ok row_json else Err "expected value"%string;
  parse_uuid _ := Some 7;
  print_uuid n := pretty n;
  nfc_str s := s;
  canonicalize s := Some s;
|}.

Definition transcript : string := "/c/projects/-work/seven.jsonl".

Definition entries : list (result (string * result bool string) string) :=
  [Ok ("-work", Ok true); Ok ("notes", Ok false); Ok ("other", Ok true)]%string.

(** The second line of the file is the row; the third has no end. *)
#[local] Instance disk : Disk := {|
  is_file _ p := bool_decide (path_from p = path_from transcript);
  is_dir _ p := bool_decide (path_from p = path_from "/c/projects");
  listing _ p := Ok entries;
  open_file_answer _ _ := Ok tt;
  file_stream _ _ := (text_of "x" ++ [LF] ++ text_of "r" ++ [CR; LF] ++ text_of "r", None);
  canonical _ p := Ok p;
|}.

Definition locator : TranscriptLocator :=
  mkLocator "/c" "/c/projects" "/work" "/work" "seven" MAX_PROJECT_DIRECTORIES MAX_VALIDATION_LINES MAX_VALIDATION_BYTES.

Example locator_is_made : fst (TranscriptLocator_new "/c" "/work" "seven" start) = Done (Ok locator).
Proof. reflexivity. Qed.

Definition found : LocatedTranscript := mkLocated transcript "/c/projects/-work".

Lemma demo_found : exists w0 w,
  TranscriptLocator_new "/c" "/work" "seven" start = (Done (Ok locator), w0) /\ locate_for locator "seven" w0 = (Done (Ok found), w).
Proof. do 2 eexists. split; [reflexivity|]. vm_compute. reflexivity. Qed.

(** A line without its end proves nothing. *)
Example needs_a_whole_line : scan_lines locator "seven" 256 (text_of "x" ++ [LF] ++ text_of "r") None = Ok false.
Proof. vm_compute. reflexivity. Qed.

Example one_dash_per_character : sanitize_project_path "/a.b//c" = "-a-b--c"%string /\ collapse_dashes "-a-b--c" = "-a-b-c"%string.
Proof. vm_compute. auto. Qed.

Lemma located_is_corroborated_witness :
  exists bytes line, read_of transcript bytes /\ among_lines 256 bytes line /\ identifies "/work" "seven" line.
Proof.
  destruct demo_found as (w0 & w & Hw0 & Hw).
  destruct (located_is_corroborated "/c" "/work" "seven" locator w0 "seven" found w Hw0 Hw)
    as (k & canonical_cwd & dir & bytes & line & Hc & _ & Hr & Hl & Hi & _).
  exists bytes, line. cbn in Hc. injection Hc as <-. split; [exact Hr|]. split; [exact Hl|exact Hi].
Defined.

Lemma disk_still : still.
Proof. intros k k' p q E. cbn. rewrite E. auto. Qed.

Lemma disk_clean : clean_listing locator entries.
Proof. split; [repeat constructor|vm_compute; discriminate]. Qed.

Lemma disk_readable p : is_file 0 p = true -> ~ unreadable p.
Proof. intros _ [(k & source & [=])|(k & [x [=]])]. Qed.

Lemma search_is_exhaustive_witness :
  let there := there locator "seven" (omap entry_name entries) in
  exists r w, locate_for locator "seven" start = (Done r, w) /\
    match r with
    | Ok located => there (lt_path located) /\ forall c, there c -> path_from c = path_from (lt_path located)
    | Err (LocationNotFound i) => i = "seven"%string /\ forall c, ~ there c
    | Err (Ambiguous i paths) => i = "seven"%string /\ (2 <= length paths)%nat /\ NoDup (identities paths) /\ Forall there paths
    | Err _ => False
    end.
Proof. exact (search_is_exhaustive locator "seven" entries disk_still eq_refl eq_refl disk_clean disk_readable). Defined.

End LocatorDemo.
