(* ===== verification/Preamble.v ===== *)
(** * A transcript that has served no work

    The [assert_empty] predicate of [crates/service/src/driver_io.rs]: the file a [/clear]
    opened (or a launch) must hold Claude's own preamble and nothing else before the
    instance is used. Every row is judged; the file must show the echo of the command and
    stop growing. *)

From S2P Require Import Prelude Text Protocol Refusal Composer Transcript Cursor Parser Session Screen Backend Menu Task Gate TurnResults RowIdentity Tail.

Definition MAX_ASSERT_EMPTY_ROWS : N := 16.
Definition MAX_ASSERT_EMPTY_BYTES : N := 64 * 1024.
Definition MAX_ASSERT_EMPTY_USER_ROWS : N := 2.
Definition ASSERT_EMPTY_QUIET_FOR : N := 50 * 1000000.
Definition LOCAL_COMMAND_CAVEAT_OPEN : string := "<local-command-caveat>".
Definition COMMAND_NAME_OPEN : string := "<command-name>".
Definition COMMAND_NAME_CLOSE : string := "</command-name>".
Definition CLEAR_COMMAND_NAME : string := "/clear".
Definition LOCAL_COMMAND_SUBTYPE : string := "local_command".

(** ** Refusals *)

Inductive AssertEmptyRefusal :=
| RowBudgetExceeded | ByteBudgetExceeded | UnparseableRow | UnexpectedMetadataRecord | MetadataPromptPresent
| TurnMarkerPresent | UnexpectedSystemSubtype | UnexpectedUserRow | WrongLocalCommand | SemanticRowPresent
| UnknownPreambleRow | PreambleNotSettled | ClearCommandMissing | UnexpectedClearEcho.

#[global] Instance AssertEmptyRefusal_eq_dec : EqDecision AssertEmptyRefusal.
Proof. solve_decision. Defined.

Definition ALL : list AssertEmptyRefusal :=
  [RowBudgetExceeded; ByteBudgetExceeded; UnparseableRow; UnexpectedMetadataRecord; MetadataPromptPresent;
   TurnMarkerPresent; UnexpectedSystemSubtype; UnexpectedUserRow; WrongLocalCommand; SemanticRowPresent;
   UnknownPreambleRow; PreambleNotSettled; ClearCommandMissing; UnexpectedClearEcho].

Definition reason (r : AssertEmptyRefusal) : string :=
  match r with
  | RowBudgetExceeded => "row_budget_exceeded"
  | ByteBudgetExceeded => "byte_budget_exceeded"
  | UnparseableRow => "unparseable_row"
  | UnexpectedMetadataRecord => "unexpected_metadata_record"
  | MetadataPromptPresent => "metadata_prompt_present"
  | TurnMarkerPresent => "turn_marker_present"
  | UnexpectedSystemSubtype => "unexpected_system_subtype"
  | UnexpectedUserRow => "unexpected_user_row"
  | WrongLocalCommand => "wrong_local_command"
  | SemanticRowPresent => "semantic_row_present"
  | UnknownPreambleRow => "unknown_row"
  | PreambleNotSettled => "preamble_not_settled"
  | ClearCommandMissing => "clear_command_missing"
  | UnexpectedClearEcho => "unexpected_clear_echo"
  end.

Definition is_a_version_drift_signal (r : AssertEmptyRefusal) : bool :=
  match r with
  | RowBudgetExceeded | UnparseableRow | UnexpectedMetadataRecord | UnexpectedSystemSubtype | UnexpectedUserRow
  | WrongLocalCommand | UnknownPreambleRow => true
  | ByteBudgetExceeded | MetadataPromptPresent | TurnMarkerPresent | SemanticRowPresent | PreambleNotSettled
  | ClearCommandMissing | UnexpectedClearEcho => false
  end.

Definition from_reason (value : string) : option AssertEmptyRefusal := find (fun r => String.eqb (reason r) value) ALL.

Definition clear_refusal_repromotion_trigger (details : json) : option string :=
  r ← json_get "reason" details ≫= json_as_str;
  refusal ← from_reason r;
  if is_a_version_drift_signal refusal then Some (reason refusal) else None.

Definition assert_empty_refusal (r : AssertEmptyRefusal) : DriverFailure :=
  drift ("a transcript claimed to have served no work was refused: " +:+ reason r)%string.

Definition assert_empty_details (r : AssertEmptyRefusal) : list (string * json) :=
  ([("field", JStr "session_id"); ("violation", JStr "assert_empty_refused"); ("reason", JStr (reason r))]%string ++
   if is_a_version_drift_signal r then [("repromotion_trigger"%string, JStr clear_mismatch_id)] else []).

Definition assert_empty_refusal_with (r : AssertEmptyRefusal) (extra : list (string * json)) : DriverFailure :=
  df_with_details (jobj (assert_empty_details r ++ extra)) (assert_empty_refusal r).

Definition assert_empty_row_refusal (r : AssertEmptyRefusal) (row_kind : string) (line : N) : DriverFailure :=
  assert_empty_refusal_with r [("row_kind", JStr row_kind); ("line", JNum line)]%string.

(** ** The user rows of a preamble *)

Inductive PreambleUserRow :=
| Caveat
| ClearCommandEcho
| OtherCommandEcho (name : list N)
| UnrecognizedUserRow.

Definition classify_preamble_user_row (raw : json) : PreambleUserRow :=
  match (message ← json_get "message" raw; content ← json_get "content" message; json_as_str content) with
  | None => UnrecognizedUserRow
  | Some content =>
      let text := chars content in
      if starts_with (text_of LOCAL_COMMAND_CAVEAT_OPEN) text then Caveat
      else match strip_prefix (text_of COMMAND_NAME_OPEN) text with
      | None => UnrecognizedUserRow
      | Some rest =>
          match split_once (text_of COMMAND_NAME_CLOSE) rest with
          | None => UnrecognizedUserRow
          | Some (name, _) =>
              if bool_decide (name = text_of CLEAR_COMMAND_NAME) then ClearCommandEcho else OtherCommandEcho name
          end
      end
  end.

(** [split_inclusive] at the newlines: the complete records, and what follows the last. *)
Fixpoint split_inclusive (acc bytes : list N) : list (list N) * list N :=
  match bytes with
  | [] => ([], acc)
  | b :: rest =>
      if b =? LF then let '(chunks, tail) := split_inclusive [] rest in ((acc ++ [b]) :: chunks, tail)
      else split_inclusive (acc ++ [b]) rest
  end.

Section Preamble.
Context `{Outside} `{Files}.

(** What was counted while the rows are judged. *)
Record Tally := mkTally { ta_rows : N; ta_user_rows : N; ta_clear_seen : bool; ta_offset : N }.

Definition judge_row (expected_cwd : string) (session_id : SessionId) (row : ParsedRow) (t : Tally) : DriverResult Tally :=
  let rows := ta_rows t in
  let refuse_kind (k : string) := Err (assert_empty_row_refusal SemanticRowPresent k rows) in
  match kind row with
  | Metadata record_type =>
      match preamble_metadata_disposition record_type with
      | None =>
          Err (assert_empty_refusal_with UnexpectedMetadataRecord
                 [("row_kind", JStr "metadata"); ("line", JNum rows);
                  ("record_type", JStr (redacted_schema_token (chars record_type)))]%string)
      | Some disposition =>
          let? _ := validate_metadata_identity expected_cwd session_id row disposition in
          if String.eqb record_type LAST_PROMPT_RECORD_TYPE
             && negb (match json_get LAST_PROMPT_FIELD (raw row) with None | Some JNull => true | _ => false end)
          then Err (assert_empty_row_refusal MetadataPromptPresent "metadata" rows)
          else Ok t
      end
  | System system =>
      if is_admitted_on_active_chain system then Err (assert_empty_row_refusal TurnMarkerPresent "system" rows)
      else if negb (bool_decide (subtype system = Some LOCAL_COMMAND_SUBTYPE)) then
        Err (assert_empty_refusal_with UnexpectedSystemSubtype
               [("row_kind", JStr "system"); ("line", JNum rows);
                ("subtype", match subtype system with
                            | Some s => JStr (redacted_schema_token (chars s)) | None => JNull end)]%string)
      else Ok t
  | UserOther =>
      let user_rows := ta_user_rows t + 1 in
      if MAX_ASSERT_EMPTY_USER_ROWS <? user_rows then Err (assert_empty_row_refusal UnexpectedUserRow "user_other" rows)
      else match classify_preamble_user_row (raw row) with
      | Caveat => Ok (mkTally rows user_rows (ta_clear_seen t) (ta_offset t))
      | ClearCommandEcho => Ok (mkTally rows user_rows true (ta_offset t))
      | OtherCommandEcho name =>
          Err (assert_empty_refusal_with WrongLocalCommand
                 [("row_kind", JStr "user_other"); ("line", JNum rows);
                  ("command_name", JStr (redacted_schema_token name))]%string)
      | UnrecognizedUserRow => Err (assert_empty_row_refusal UnexpectedUserRow "user_other" rows)
      end
  | TypedUser _ _ => refuse_kind "typed_user"
  | Assistant _ => refuse_kind "assistant"
  | UserToolResults _ => refuse_kind "user_tool_results"
  | Attachment _ => refuse_kind "attachment"
  | Unknown _ => Err (assert_empty_row_refusal UnknownPreambleRow "unknown" rows)
  end.

(** One terminated record. *)
Definition judge_chunk (expected_cwd : string) (session_id : SessionId) (t : Tally) (chunk : list N) : DriverResult Tally :=
  let rows := ta_rows t + 1 in
  if MAX_ASSERT_EMPTY_ROWS <? rows then
    Err (assert_empty_refusal_with RowBudgetExceeded
           [("rows", JNum rows); ("row_budget", JNum MAX_ASSERT_EMPTY_ROWS)]%string)
  else
    let line := strip_cr (removelast chunk) in
    let t := mkTally rows (ta_user_rows t) (ta_clear_seen t) (ta_offset t + N.of_nat (length chunk)) in
    match parse_row (mkCompleteLine (mkSourceLocation rows (ta_offset t - N.of_nat (length chunk))) line) with
    | Err _ => Err (assert_empty_refusal_with UnparseableRow [("line", JNum rows)]%string)
    | Ok row =>
        let? _ := validate_semantic_identity expected_cwd session_id row in
        judge_row expected_cwd session_id row t
    end.

(** The whole file, of which [bytes] is the length it had and [contents] what was read. *)
Definition judge_transcript (expected_cwd : string) (session_id : SessionId) (bytes : N) (contents : list N) :
    DriverResult EmptinessProof :=
  let '(chunks, rest) := split_inclusive [] contents in
  let? t := try_fold (judge_chunk expected_cwd session_id) chunks (mkTally 0 0 false 0) in
  Ok (mkEmptiness session_id (ta_rows t) bytes (ta_clear_seen t) (N.of_nat (length rest))).

Definition prove_transcript_inert (path : string) (session_id : SessionId) : M EmptinessProof :=
  open_file path ;&
  let& metadata := metadata_for_file path in
  let bytes := fm_len metadata in
  if MAX_ASSERT_EMPTY_BYTES <? bytes then
    fail (assert_empty_refusal_with ByteBudgetExceeded
            [("bytes", diagnostic_u64 bytes); ("byte_budget", JNum MAX_ASSERT_EMPTY_BYTES)]%string)
  else
    let& contents := io path (fun k => file_bytes k path 0) in
    let& s := get in
    check (judge_transcript (ft_expected_cwd s) session_id bytes (take (N.to_nat MAX_ASSERT_EMPTY_BYTES) contents)).

Definition assert_empty_at (session_id : SessionId) : M (option EmptinessProof) :=
  let& located := locate session_id in
  match located with
  | Ok located => let& proof := prove_transcript_inert (lt_path located) session_id in ret (Some proof)
  | Err (LocationNotFound _) => ret None
  | Err error => fail (map_location_error error)
  end.

(** ** After a clear *)

(** A reading of the monotonic clock that goes into the record. *)
Definition stamp_tail : M N := let& n := now in perform (log (JudgedAt n)) ;& ret n.

Definition settled (proof : EmptinessProof) (bytes : N) : bool :=
  (em_bytes proof =? bytes) && em_clear_command_seen proof && (em_pending_bytes proof =? 0).

Definition not_settled_failure (look : option EmptinessProof) (waited_ms : N) : DriverFailure :=
  let '(refusal, rows) :=
    match look with
    | Some proof =>
        (if em_clear_command_seen proof then PreambleNotSettled else ClearCommandMissing, Some (em_rows proof))
    | None => (ClearCommandMissing, None)
    end in
  assert_empty_refusal_with refusal
    [("rows", match rows with Some n => JNum n | None => JNull end); ("waited_ms", diagnostic_u64 waited_ms)]%string.

(** The clock is read only when every other part of the guard holds. *)
Definition settled_for (look : option EmptinessProof) (quiet_since : option (N * N)) : M bool :=
  match look, quiet_since with
  | Some proof, Some (bytes, since) =>
      if settled proof bytes then let& n := stamp_tail in ret (ASSERT_EMPTY_QUIET_FOR <=? n - since) else ret false
  | _, _ => ret false
  end.

Definition next_quiet (look : option EmptinessProof) (quiet_since : option (N * N)) : M (option (N * N)) :=
  match look with
  | None => ret None
  | Some proof =>
      let fresh := let& n := stamp_tail in ret (Some (em_bytes proof, n)) in
      match quiet_since with
      | Some (bytes, since) => if em_bytes proof =? bytes then ret quiet_since else fresh
      | None => fresh
      end
  end.

Definition after_clear_round (session_id : SessionId) (started : N) (quiet_since : option (N * N)) :
    M (option (N * N) + EmptinessProof) :=
  let& look := assert_empty_at session_id in
  perform (log (Judged look)) ;&
  let& done := settled_for look quiet_since in
  match look, done with
  | Some proof, true => ret (inr proof)
  | _, _ =>
      let& quiet_since := next_quiet look quiet_since in
      let& s := get in
      let& n := now in
      if ft_rebind_timeout s <=? n - started then
        let& ms := elapsed_ms started in
        let& waited_ms := check (protocol_milliseconds ms "assert-empty settle duration") in
        fail (not_settled_failure look waited_ms)
      else ret (inl quiet_since)
  end.

Definition assert_empty_after_clear (rounds : nat) (session_id : SessionId) : M EmptinessProof :=
  let& started := now in
  repeat_m rounds (after_clear_round session_id started) None.

(** ** At launch *)

Definition prove_empty_at_launch (session_id : SessionId) : M unit :=
  let& look := assert_empty_at session_id in
  match look with
  | None => ret tt
  | Some proof =>
      if em_clear_command_seen proof
      then fail (assert_empty_refusal_with UnexpectedClearEcho [("rows", JNum (em_rows proof))]%string)
      else ret tt
  end.

End Preamble.
