(* ===== verification/Rotation.v ===== *)
(** * Clearing a context and finding the transcript it opened

    [crates/service/src/driver_io.rs]: the listing of a project directory before [/clear]
    is typed, the search for the one new transcript after it, and [clear_and_rebind], which
    puts the terminal, the rotation and the emptiness proof together. *)

From S2P Require Import Prelude Text Protocol Refusal Composer Transcript Cursor Parser Session Screen Backend Menu Task Gate TurnResults RowIdentity Tail Preamble.

Definition MAX_ROTATION_DIRECTORY_ENTRIES : N := 20000.
Definition MAX_ROTATION_ANCHOR_BYTES : N := 64 * 1024.
Definition ROTATION_ANCHOR_ROW_TYPE : string := "mode".

(** ** File names *)

(** The last path segment, and its parts before and after the last dot; a name whose only
    dot comes first has no extension. *)
Definition file_name (path : string) : string := default EmptyString (last (split_slash EmptyString path)).

Fixpoint split_last_dot (s : string) : option (string * string) :=
  match s with
  | EmptyString => None
  | String c s' =>
      match split_last_dot s' with
      | Some (stem, extension) => Some (String c stem, extension)
      | None => if bool_decide (Ascii.N_of_ascii c = 46) then Some (EmptyString, s') else None
      end
  end.

Definition extension (path : string) : option string :=
  match split_last_dot (file_name path) with
  | Some (EmptyString, _) | None => None
  | Some (_, extension) => Some extension
  end.

Definition file_stem (path : string) : string :=
  match split_last_dot (file_name path) with
  | Some (EmptyString, _) | None => file_name path
  | Some (stem, _) => stem
  end.

(** Lower case; ids are ASCII, and no other character's lower case is one of an id's. *)
Definition lower (s : string) : string :=
  String.string_of_list_ascii (Ascii.ascii_of_N <$> (ascii_lower <$> bytes s)).

(** [BTreeSet::insert] of a path of one directory. *)
Fixpoint insert_path (path : string) (l : list string) : list string :=
  match l with
  | [] => [path]
  | x :: l' =>
      match str_compare path x with
      | Lt => path :: l
      | Eq => l
      | Gt => x :: insert_path path l'
      end
  end.

Definition rotation_anchor_failure (reason : string) : DriverFailure :=
  df_with_details
    (jobj [("field", JStr "rotation_anchor"); ("violation", JStr "clear_rebind_anchor_unrecognized");
           ("reason", JStr reason)]%string)
    (drift "a transcript that appeared after /clear does not carry the expected rotation anchor").

Record RotationWatch := mkWatch {
  rw_abandoned : SessionId;
  rw_project_directory : string;
  rw_before : list string;
  rw_before_session_ids : list string;
  rw_started : N;
}.

Section Rotation.
Context `{Outside} `{Files}.

(** ** Listings *)

Fixpoint list_entries (directory : string) (limit scanned : N) (acc : list string)
    (entries : list (result (string * result bool string) string)) : DriverResult (list string) :=
  match entries with
  | [] => Ok acc
  | entry :: entries =>
      let? entry := map_err (io_failure directory) entry in
      let scanned := scanned + 1 in
      if limit <? scanned then
        Err (df_with_details (jobj [("limit", JNum limit)]%string)
               (drift "project directory exceeds the bounded rotation scan"))
      else
        let '(path, is_file) := entry in
        match extension path with
        | Some e =>
            if eq_ignore_ascii_case e "jsonl" then
              let? is_file := map_err (io_failure path) is_file in
              list_entries directory limit scanned (if (is_file : bool) then insert_path path acc else acc) entries
            else list_entries directory limit scanned acc entries
        | None => list_entries directory limit scanned acc entries
        end
  end.

Definition list_transcripts_within (directory : string) (limit : N) : M (list string) :=
  let& entries := io directory (fun k => dir_entries k directory) in
  let& transcripts := check (list_entries directory limit 0 [] entries) in
  perform (log (Listed transcripts)) ;& ret transcripts.

Definition list_transcripts (directory : string) : M (list string) :=
  list_transcripts_within directory MAX_ROTATION_DIRECTORY_ENTRIES.

Definition watch_rotation (session_id : SessionId) : M RotationWatch :=
  let& located := locate session_id in
  let& located := check (map_err map_location_error located) in
  let& before := list_transcripts (lt_project_directory located) in
  let& started := now in
  ret (mkWatch session_id (lt_project_directory located) before (lower ∘ file_stem <$> before) started).

(** ** The first row of a new transcript *)

Definition anchor_of (row : json) : DriverResult SessionId :=
  if negb (bool_decide ((json_get "type" row ≫= json_as_str) = Some ROTATION_ANCHOR_ROW_TYPE))
  then Err (rotation_anchor_failure "unexpected_row_type")
  else ok_or (s ← (json_get "sessionId" row ≫= json_as_str); parse_uuid s) (rotation_anchor_failure "missing_session_id").

(** The bytes before the first newline. *)
Fixpoint before_newline (bytes : list N) : option (list N) :=
  match bytes with
  | [] => None
  | b :: rest => if b =? LF then Some [] else cons b <$> before_newline rest
  end.

Definition judge_anchor (bytes : list N) : DriverResult (option SessionId) :=
  match before_newline bytes with
  | None =>
      if MAX_ROTATION_ANCHOR_BYTES <=? N.of_nat (length bytes) then Err (rotation_anchor_failure "oversized_row") else Ok None
  | Some line =>
      let? row := map_err (fun _ => rotation_anchor_failure "unparseable_row") (out_from_slice (strip_cr line)) in
      let? anchor := anchor_of row in
      Ok (Some anchor)
  end.

Definition read_rotation_anchor (path : string) : M (option SessionId) :=
  open_file path ;&
  let& bytes := io path (fun k => file_bytes k path 0) in
  let& anchor := check (judge_anchor (take (N.to_nat MAX_ROTATION_ANCHOR_BYTES) bytes)) in
  perform (log (Anchored path anchor)) ;& ret anchor.

(** ** The rotation *)

Definition anchor_not_new (watch : RotationWatch) : DriverFailure :=
  df_with_details
    (jobj [("field", JStr "session_id"); ("violation", JStr "clear_rebind_anchor_not_new");
           ("abandoned_session_id", JStr (print_uuid (rw_abandoned watch)))]%string)
    (drift "a transcript that appeared after /clear carries a session id that already existed").

Definition is_new_id (watch : RotationWatch) (anchor : SessionId) : bool :=
  negb (anchor =? rw_abandoned watch) && negb (mem_str (print_uuid anchor) (rw_before_session_ids watch)).

(** The ids the new transcripts name, each once. *)
Fixpoint gather_anchors (watch : RotationWatch) (rotated : list SessionId) (paths : list string) : M (list SessionId) :=
  match paths with
  | [] => ret rotated
  | path :: paths =>
      let& anchor := read_rotation_anchor path in
      match anchor with
      | None => gather_anchors watch rotated paths
      | Some anchor =>
          if negb (is_new_id watch anchor) then fail (anchor_not_new watch)
          else gather_anchors watch (if existsb (N.eqb anchor) rotated then rotated else rotated ++ [anchor]) paths
      end
  end.

Definition observe_rotation (watch : RotationWatch) : M (option SessionId) :=
  let& observed := list_transcripts (rw_project_directory watch) in
  let& rotated := gather_anchors watch [] (List.filter (fun path => negb (mem_str path (rw_before watch))) observed) in
  match rotated with
  | [] => ret None
  | [anchor] => ret (Some anchor)
  | candidates =>
      fail (df_with_details
              (jobj [("field", JStr "session_id"); ("violation", JStr "clear_rebind_ambiguous");
                     ("abandoned_session_id", JStr (print_uuid (rw_abandoned watch)));
                     ("candidates", JNum (N.of_nat (length candidates)))]%string)
              (drift "more than one transcript appeared after /clear; the rebind was refused"))
  end.

Definition rotation_round (watch : RotationWatch) (_ : unit) : M (unit + SessionId) :=
  let& seen := observe_rotation watch in
  match seen with
  | Some rotated => ret (inr rotated)
  | None =>
      let& s := get in
      let& n := now in
      if ft_rebind_timeout s <=? n - rw_started watch then
        let& observed := list_transcripts (rw_project_directory watch) in
        let& ms := elapsed_ms (rw_started watch) in
        let& waited_ms := check (protocol_milliseconds ms "rebind wait duration") in
        fail (df_with_details
                (jobj [("field", JStr "session_id"); ("violation", JStr "clear_rebind_not_observed");
                       ("abandoned_session_id", JStr (print_uuid (rw_abandoned watch)));
                       ("waited_ms", diagnostic_u64 waited_ms);
                       ("transcripts_before", JNum (N.of_nat (length (rw_before watch))));
                       ("transcripts_after", JNum (N.of_nat (length observed)))]%string)
                (DriverFailure_new TranscriptUnavailable
                   "the transcript /clear opens never appeared; the rebind was refused"))
      else ret (inl tt)
  end.

Definition await_rotation (rounds : nat) (watch : RotationWatch) : M SessionId :=
  repeat_m rounds (rotation_round watch) tt.

(** Either outcome records the abandonment. *)
Definition resolve_rotation (rounds : nat) (watch : RotationWatch) : M SessionId :=
  let& started := now in
  let watch := mkWatch (rw_abandoned watch) (rw_project_directory watch) (rw_before watch) (rw_before_session_ids watch) started in
  fun s =>
    let% p := await_rotation rounds watch s in
    let '(outcome, s) := p in
    (let& _ := record_rotation (rw_abandoned watch) (match outcome with Ok i => Some i | Err _ => None end) in check outcome) s.

End Rotation.

(** ** The clear *)

Definition CLEAR_NOT_SUBMITTED : string := "clear_not_submitted".
Definition refusal_before_clear_submission (f : DriverFailure) : DriverFailure := mark CLEAR_NOT_SUBMITTED f.

Inductive ClearEvent :=
| OnTerminal (e : PtyEvent)
| OnFiles (e : TailEvent).

Section Clear.
Context `{Pty} `{Outside} `{Files}.
Variable rounds : nat.

Definition on_files {A} (m : M A) (s : FileTranscriptSource) : T ClearEvent (DriverResult A * FileTranscriptSource) :=
  embed OnFiles (m s).

Definition clear_and_rebind (terminal : RmuxTerminalControl) (transcript : FileTranscriptSource) (session_id : SessionId)
    (deadline_unix_ms : N) : T ClearEvent (DriverResult SessionId * FileTranscriptSource) :=
  let% watched := on_files (watch_rotation session_id) transcript in
  match watched with
  | (Err error, s) => tret (Err (refusal_before_clear_submission error), s)
  | (Ok watch, s) =>
      let% typed := embed OnTerminal (type_control_command rounds terminal Clear deadline_unix_ms) in
      let refused := match typed with Err error => if enter_was_attempted error then None else Some error | Ok _ => None end in
      match refused with
      | Some error => tret (Err (refusal_before_clear_submission error), s)
      | None =>
          let% resolved := on_files (resolve_rotation rounds watch) s in
          match resolved with
          | (Err error, s) => tret (Err error, s)
          | (Ok rebound, s) =>
              let% proven := on_files (assert_empty_after_clear rounds rebound) s in
              match proven with
              | (Err error, s) => tret (Err error, s)
              | (Ok _, s) => tret (Ok rebound, s)
              end
          end
      end
  end.

End Clear.
