(* ===== verification/RotationTheorems.v ===== *)
(** * The clear is exact

    An accepted preamble holds only inert rows, of this session; what the wait after a clear
    saw, and what the caller of [clear_and_rebind] is told. *)

From S2P Require Import Prelude Text Protocol Composer Session Actor.
From S2P Require Import Refusal Transcript Cursor Parser Screen Backend Menu Task Gate GateProofs GateTheorems.
From S2P Require Import TurnResults RowIdentity Tail TailProofs TailTheorems Preamble Rotation.

(** ** The rows of a preamble *)

Section Inert.
Context `{Outside} `{Files}.

(** The text of a user row, and the two a preamble may have: Claude's caveat about local
    commands, and the echo of [/clear]. *)
Definition says_text (row : ParsedRow) (text : list N) : Prop :=
  exists message content, json_get "message" (raw row) = Some message /\ json_get "content" message = Some (JStr content) /\
    chars content = text.
Definition says_caveat (row : ParsedRow) : Prop := exists rest, says_text row (text_of "<local-command-caveat>" ++ rest).
Definition says_clear (row : ParsedRow) : Prop :=
  exists rest, says_text row (text_of "<command-name>/clear</command-name>" ++ rest).

(** The metadata records a preamble may have; all but the last say whose they are. *)
Definition PREAMBLE_RECORDS : list string :=
  ["mode"; "permission-mode"; "bridge-session"; "last-prompt"; "file-history-snapshot"]%string.

(** A row that says nothing of any work, and is of this session where it says whose it is. *)
Definition inert (cwd : string) (i : SessionId) (row : ParsedRow) : Prop :=
  match kind row with
  | Metadata record_type =>
      record_type ∈ PREAMBLE_RECORDS /\ (record_type <> "file-history-snapshot"%string -> stamped_by i row) /\
      (forall s, session_id (common row) = Some s -> parse_uuid s = Some i) /\ inside_task cwd row /\
      (record_type = "last-prompt"%string -> json_get "lastPrompt" (raw row) ∈ [None; Some JNull])
  | System system => subtype system = Some "local_command"%string
  | UserOther =>
      stamped_by i row /\ inside_task cwd row /\ (says_caveat row \/ says_clear row)
  | TypedUser _ _ | Assistant _ | UserToolResults _ | Attachment _ | Unknown _ => False
  end.

Definition is_user_row (row : ParsedRow) : bool := match kind row with UserOther => true | _ => false end.
Definition is_clear_echo (row : ParsedRow) : bool :=
  is_user_row row && match classify_preamble_user_row (raw row) with ClearCommandEcho => true | _ => false end.
Definition user_rows (rows : list ParsedRow) : N := N.of_nat (length (List.filter is_user_row rows)).

Lemma starts_with_app pre : forall t, starts_with pre t = true -> exists rest, t = pre ++ rest.
Proof.
  induction pre as [|c pre IH]; intros t; [by exists t|]. destruct t as [|d t]; [done|]. cbn [starts_with].
  intros [->%N.eqb_eq (rest & ->)%IH]%andb_true_iff. by exists rest.
Qed.

Lemma classified row :
  match classify_preamble_user_row (raw row) with
  | Caveat => says_caveat row
  | ClearCommandEcho => says_clear row
  | _ => True
  end.
Proof.
  unfold classify_preamble_user_row. match goal with |- context [match ?o with Some _ => _ | None => _ end] => destruct o as [content|] eqn:Ho end; [|done].
  apply bind_Some in Ho as (message & Hm & (v & Hc & Hv)%bind_Some).
  assert (v = JStr content) as -> by (destruct v; simplify_eq/=; done).
  assert (Htext : forall text, chars content = text -> says_text row text) by (intros text E; by exists message, content).
  destruct (starts_with _ _) eqn:Hs.
  { apply starts_with_app in Hs as [r Hr]. exists r. by apply Htext. }
  destruct (strip_prefix _ _) as [rest|] eqn:Hp; [|done]. destruct (split_once _ rest) as [[name after]|] eqn:Ho; [|done].
  case_bool_decide as Hn; [|done]. apply strip_prefix_Some in Hp. apply split_once_Some in Ho. subst. exists after.
  apply Htext. by rewrite Hp.
Qed.

Lemma preamble_records record_type d :
  preamble_metadata_disposition record_type = Some d ->
  record_type ∈ PREAMBLE_RECORDS /\ (record_type <> "file-history-snapshot"%string -> d = Stamped).
Proof.
  unfold preamble_metadata_disposition, mem_str. destruct (existsb _ _) eqn:He.
  - intros [= <-]. apply existsb_exists in He as (x & Hx & <-%String.eqb_eq). apply list_elem_of_In in Hx. split; [|done].
    unfold PREAMBLE_RECORDS. set_solver.
  - destruct (String.eqb_spec record_type "file-history-snapshot") as [->|]; [|done]. intros _. split; [unfold PREAMBLE_RECORDS; set_solver|done].
Qed.

Lemma clear_echo_says row : is_clear_echo row = true -> says_clear row.
Proof.
  unfold is_clear_echo. intros [_ Hc]%andb_true_iff. pose proof (classified row) as Hs.
  by destruct (classify_preamble_user_row (raw row)).
Qed.

Lemma judge_row_inert cwd i row t t' :
  validate_semantic_identity cwd i row = Ok tt -> judge_row cwd i row t = Ok t' ->
  inert cwd i row /\ ta_rows t' = ta_rows t /\ ta_offset t' = ta_offset t /\
  ta_user_rows t' = ta_user_rows t + (if is_user_row row then 1 else 0) /\
  (is_user_row row = true -> ta_user_rows t' <= MAX_ASSERT_EMPTY_USER_ROWS) /\
  ta_clear_seen t' = ta_clear_seen t || is_clear_echo row.
Proof.
  intros Hid. unfold judge_row, inert, is_clear_echo, is_user_row. destruct (kind row) as [| | |a|a|sys|rt|u] eqn:Hk; try discriminate.
  - destruct (N.ltb_spec MAX_ASSERT_EMPTY_USER_ROWS (ta_user_rows t + 1)) as [|Hle]; [discriminate|].
    apply validate_semantic_identity_Ok in Hid as [Hid|[Hst Hin]]; [by rewrite Hk in Hid|].
    pose proof (classified row) as Hsays.
    destruct (classify_preamble_user_row (raw row)) eqn:Hc; try discriminate; intros [= <-]; cbn;
      (split; [split_and!; auto|]); split_and!; try done; by rewrite ?orb_false_r, ?orb_true_r.
  - destruct (is_admitted_on_active_chain sys); [discriminate|]. case_bool_decide as Hs; cbn [negb]; [|discriminate].
    intros [= <-]. split_and!; try done; [lia|by rewrite orb_false_r].
  - destruct (preamble_metadata_disposition rt) as [d|] eqn:Hd; [|discriminate]. intros (u & Hu & Hp)%result_bind_Ok.
    destruct u. apply validate_metadata_identity_Ok in Hu as (Hst & Hall & Hin).
    destruct (_ && _) eqn:Hlast; [discriminate|]. injection Hp as <-. split; [|split_and!; try done; [lia|by rewrite orb_false_r]].
    apply preamble_records in Hd as [Hd Hd']. split; [done|]. split; [auto|]. split; [done|]. split; [done|].
    intros ->. unfold LAST_PROMPT_RECORD_TYPE, LAST_PROMPT_FIELD in Hlast. rewrite String.eqb_refl in Hlast. cbn in Hlast.
    destruct (json_get "lastPrompt" (raw row)) as [[]|]; try discriminate; set_solver.
Qed.

(** ** The records of a file *)

Fixpoint lines_of (offset number : N) (chunks : list (list N)) : list CompleteLine :=
  match chunks with
  | [] => []
  | chunk :: chunks =>
      mkCompleteLine (mkSourceLocation number offset) (strip_cr (removelast chunk))
      :: lines_of (offset + N.of_nat (length chunk)) (number + 1) chunks
  end.

(** They are the lines the tail would be told. *)
Lemma split_inclusive_frames bytes : forall offset number acc,
  frames offset number acc bytes =
  (lines_of offset number (fst (split_inclusive acc bytes)), snd (split_inclusive acc bytes)).
Proof.
  induction bytes as [|b bytes IH]; intros offset number acc; cbn [frames split_inclusive]; [done|].
  destruct (b =? LF); [|apply IH]. specialize (IH (offset + N.of_nat (length acc) + 1) (number + 1) []).
  destruct (frames _ _ [] bytes) as [ls tail] eqn:Hf. destruct (split_inclusive [] bytes) as [cs tl] eqn:Hs.
  injection IH as -> ->. cbn [fst snd lines_of]. rewrite removelast_last, length_app. cbn [length]. do 3 f_equal. lia.
Qed.

Lemma judge_chunks cwd i chunks : forall t t',
  try_fold (judge_chunk cwd i) chunks t = Ok t' ->
  ta_rows t <= MAX_ASSERT_EMPTY_ROWS -> ta_user_rows t <= MAX_ASSERT_EMPTY_USER_ROWS ->
  exists rows,
    Forall2 (fun l r => parse_row l = Ok r) (lines_of (ta_offset t) (ta_rows t + 1) chunks) rows /\
    Forall (inert cwd i) rows /\
    ta_rows t' = ta_rows t + N.of_nat (length rows) /\ ta_rows t' <= MAX_ASSERT_EMPTY_ROWS /\
    ta_user_rows t' = ta_user_rows t + user_rows rows /\ ta_user_rows t' <= MAX_ASSERT_EMPTY_USER_ROWS /\
    ta_clear_seen t' = ta_clear_seen t || existsb is_clear_echo rows.
Proof.
  induction chunks as [|chunk chunks IH]; intros t t' Hf Hr Hu.
  { injection Hf as <-. exists []. cbn. unfold user_rows. cbn. split_and!; try done; try lia; [constructor..|by rewrite orb_false_r]. }
  cbn [try_fold] in Hf. apply result_bind_Ok in Hf as (t1 & Hc & Hf). unfold judge_chunk in Hc.
  destruct (N.ltb_spec MAX_ASSERT_EMPTY_ROWS (ta_rows t + 1)) as [|Hle]; [discriminate|]. cbv zeta in Hc. cbn [ta_offset] in Hc.
  replace (ta_offset t + N.of_nat (length chunk) - N.of_nat (length chunk)) with (ta_offset t) in Hc by lia.
  destruct (parse_row _) as [row|] eqn:Hrow; [|discriminate]. apply result_bind_Ok in Hc as (u & Hid & Hj). destruct u.
  apply judge_row_inert in Hj as (Hin & Hr1 & Ho1 & Hu1 & Hub & Hs1); [|done]. cbn [ta_rows ta_offset ta_user_rows ta_clear_seen] in *.
  assert (Hu1' : ta_user_rows t1 <= MAX_ASSERT_EMPTY_USER_ROWS).
  { destruct (is_user_row row); [by apply Hub|lia]. }
  destruct (IH t1 t' Hf) as (rows & H2 & Hall & Hrows & Hmax & Husers & Humax & Hseen); [lia|done|].
  exists (row :: rows). cbn [lines_of]. rewrite Hr1, Ho1 in H2. split_and!; try done.
  - by constructor.
  - by constructor.
  - rewrite Hrows, Hr1. cbn [length]. lia.
  - rewrite Husers, Hu1. unfold user_rows. cbn [List.filter]. destruct (is_user_row row); cbn [length]; lia.
  - rewrite Hseen, Hs1. cbn [existsb]. by rewrite orb_assoc.
Qed.

(** What an accepted file holds: every complete line of it is an inert row, and the proof
    tells their number, whether the echo is one of them, and what is left behind the last. *)
Definition preamble_only (cwd : string) (i : SessionId) (bytes : N) (contents : list N) (proof : EmptinessProof) : Prop :=
  exists rows,
    Forall2 (fun l r => parse_row l = Ok r) (fst (frames 0 1 [] contents)) rows /\
    Forall (inert cwd i) rows /\
    N.of_nat (length rows) <= MAX_ASSERT_EMPTY_ROWS /\ user_rows rows <= MAX_ASSERT_EMPTY_USER_ROWS /\
    (em_clear_command_seen proof = true -> Exists says_clear rows) /\
    proof = mkEmptiness i (N.of_nat (length rows)) bytes (existsb is_clear_echo rows)
              (N.of_nat (length (snd (frames 0 1 [] contents)))).

(** A transcript is taken to have served no work only when it holds none. When the judgement
    accepts a file, every complete line of it (the lines the tail would be told) is a row
    that says nothing of any prompt, answer, tool, turn or attachment, is stamped with this
    session wherever it is stamped, and lies in the task's directory wherever it says; there
    are at most sixteen, two of them user rows; the echo of [/clear] is reported exactly when
    one of them is it; and the unfinished rest is reported and not judged. *)
Theorem accepted_preamble_is_inert cwd i bytes contents proof :
  judge_transcript cwd i bytes contents = Ok proof -> preamble_only cwd i bytes contents proof.
Proof.
  unfold judge_transcript, preamble_only. rewrite split_inclusive_frames. destruct (split_inclusive [] contents) as [chunks rest].
  cbn [fst snd]. intros (t & Hf & [= <-])%result_bind_Ok.
  destruct (judge_chunks _ _ _ _ _ Hf) as (rows & H2 & Hall & Hr & Hmax & Hu & Humax & Hs); [done|done|].
  exists rows. cbn in *. split_and!; try done; [lia|lia| |].
  - rewrite Hs. cbn. intros (row & Hin & He)%existsb_exists. apply Exists_exists. exists row.
    split; [by apply list_elem_of_In|by apply clear_echo_says].
  - rewrite Hr, Hs. cbn. f_equal.
Qed.

End Inert.

(** ** Failures that do not claim the command unsent *)

Definition unclaimed (f : DriverFailure) : Prop := marked CLEAR_NOT_SUBMITTED f = false.

Lemma jobj_lacks k l : Forall (fun kv => fst kv <> k) l -> json_get k (jobj l) = None.
Proof.
  unfold jobj, json_get. assert (Hgen : forall acc, obj_get k acc = None -> Forall (fun kv => fst kv <> k) l ->
    obj_get k (foldl (fun acc kv => obj_insert (fst kv) (snd kv) acc) acc l) = None).
  { induction l as [|[k' v] l IH]; intros acc Hacc Hl; cbn; [done|]. apply Forall_cons in Hl as [Hk Hl]. apply IH; [|done].
    cbn in *. by rewrite obj_get_insert, bool_decide_false. }
  by apply Hgen.
Qed.

Lemma unclaimed_details l f : Forall (fun kv => fst kv <> CLEAR_NOT_SUBMITTED) l -> unclaimed (df_with_details (jobj l) f).
Proof. intros Hl. unfold unclaimed, marked. cbn [df_details df_with_details]. by rewrite jobj_lacks. Qed.

Ltac keys := repeat (apply Forall_cons; split; [discriminate|]); apply Forall_nil; done.

Lemma unclaimed_new c m : unclaimed (DriverFailure_new c m).
Proof. done. Qed.
Hint Resolve unclaimed_new : pmux.
Hint Extern 1 (unclaimed (df_with_details (jobj _) _)) => apply unclaimed_details; keys : pmux.
Hint Extern 3 (unclaimed _) => reflexivity : pmux.

(** A result whose failure makes no claim. *)
Definition modest {A} (r : DriverResult A) : Prop := forall f, r = Err f -> unclaimed f.

Lemma modest_Ok {A} (x : A) : modest (Ok x).
Proof. by intros f. Qed.
Lemma modest_Err {A} f : unclaimed f -> modest (Err (A := A) f).
Proof. by intros Hf f' [= <-]. Qed.
Lemma modest_bind {A B} (r : DriverResult A) (k : A -> DriverResult B) :
  modest r -> (forall x, modest (k x)) -> modest (result_bind r k).
Proof. intros Hr Hk. destruct r as [x|f]; [apply Hk|]. intros f' [= <-]. by apply Hr. Qed.
Lemma modest_ok_or {A} (o : option A) f : unclaimed f -> modest (ok_or o f).
Proof. intros Hf. destruct o; [apply modest_Ok|by apply modest_Err]. Qed.
Lemma modest_map_err {A E} (g : E -> DriverFailure) (r : result A E) : (forall e, unclaimed (g e)) -> modest (map_err g r).
Proof. intros Hg. destruct r; [apply modest_Ok|by apply modest_Err]. Qed.
Hint Resolve modest_Ok modest_Err modest_bind modest_ok_or modest_map_err : pmux.

(** A program whose failures make no claim; it may run out of rounds. *)
Definition humble {A} (m : M A) : Prop :=
  forall s, says (m s) (fun p _ => modest (fst p)) (fun e _ => e = OutOfRounds).

Lemma humble_ret {A} (x : A) : humble (ret x).
Proof. intros s. apply says_ret. apply modest_Ok. Qed.
Lemma humble_fail {A} f : unclaimed f -> humble (fail (A := A) f).
Proof. intros Hf s. apply says_ret. by apply modest_Err. Qed.
Lemma humble_check {A} (r : DriverResult A) : modest r -> humble (check r).
Proof. intros Hr s. by apply says_ret. Qed.
Lemma humble_bind {A B} (m : M A) (k : A -> M B) : humble m -> (forall x, humble (k x)) -> humble (bind m k).
Proof.
  intros Hm Hk s. eapply says_bind; [apply Hm|]. intros [[x|f] s'] t Hx; cbn in *; [apply Hk|].
  apply says_ret. cbn. intros f' [= <-]. by apply Hx.
Qed.
Lemma humble_perform {A} (t : T TailEvent A) : (forall Q : A -> list TailEvent -> Prop, (forall x tr, Q x tr) -> says t Q (fun _ _ => False)) -> humble (perform t).
Proof.
  intros Ht s. eapply says_bind.
  - eapply says_mono; [by apply (Ht (fun _ _ => True))|done|done].
  - intros x tr _. apply says_ret, modest_Ok.
Qed.
Lemma humble_ask {A} (a : nat -> A) : humble (perform (ask a)).
Proof. apply humble_perform. intros Q HQ. by apply says_ask. Qed.
Lemma humble_log e : humble (perform (log e)).
Proof. apply humble_perform. intros Q HQ. by apply says_log. Qed.
Lemma humble_now `{Files} : humble now.
Proof. apply humble_perform. intros Q HQ. by apply says_read_instant. Qed.
Lemma humble_get : humble get.
Proof. intros s. apply says_ret, modest_Ok. Qed.

Lemma humble_repeat {L R} rounds (body : L -> M (L + R)) l : (forall l, humble (body l)) -> humble (repeat_m rounds body l).
Proof.
  intros Hb s. apply (says_iterate (fun _ _ => True)); [|done|done]. intros [l' s'] t _.
  eapply says_bind; [eapply says_mono; [apply Hb|done|done]|]. intros [[[l''|x]|f] s''] t' Hx; apply says_ret; cbn in *;
    [done|apply modest_Ok|]. intros f' [= <-]. by apply Hx.
Qed.

Ltac humbly :=
  lazymatch goal with
  | |- forall _, _ => let x := fresh "x" in intros x; humbly
  | |- humble (ret _) => apply humble_ret
  | |- humble (fail _) => apply humble_fail; auto with pmux
  | |- humble (check _) => apply humble_check; auto 10 with pmux
  | |- humble (perform (ask _)) => apply humble_ask
  | |- humble (perform (log _)) => apply humble_log
  | |- humble now => apply humble_now
  | |- humble get => apply humble_get
  | |- humble (bind _ _) => apply humble_bind; humbly
  | |- humble (repeat_m _ _ _) => apply humble_repeat; humbly
  | |- humble (match ?x with _ => _ end) => destruct x; humbly
  | |- _ => auto with pmux
  end.

Section Modest.
Context `{Outside} `{Files}.

Lemma humble_io {A} path (a : nat -> result A string) : humble (io path a).
Proof. unfold io. humbly. Qed.
Lemma humble_elapsed since : humble (elapsed_ms since).
Proof. unfold elapsed_ms. humbly. Qed.
Lemma humble_lock : humble lock.
Proof. unfold lock. humbly. Qed.
Hint Resolve humble_io humble_elapsed humble_lock : pmux.

Lemma modest_milliseconds n field : modest (protocol_milliseconds n field).
Proof. unfold protocol_milliseconds. destruct (_ && _); auto with pmux. Qed.
Hint Resolve modest_milliseconds : pmux.

Lemma modest_entries directory limit entries : forall scanned acc, modest (list_entries directory limit scanned acc entries).
Proof.
  induction entries as [|e entries IH]; intros scanned acc; cbn [list_entries]; [apply modest_Ok|].
  apply modest_bind; [apply modest_map_err; auto with pmux|]. intros [path f]. destruct (_ <? _); [auto with pmux|].
  destruct (extension path); [|apply IH]. destruct (eq_ignore_ascii_case _ _); [|apply IH].
  apply modest_bind; [apply modest_map_err; auto with pmux|]. intros x. apply IH.
Qed.
Hint Resolve modest_entries : pmux.

Lemma humble_list directory : humble (list_transcripts directory).
Proof. unfold list_transcripts, list_transcripts_within. humbly. Qed.
Hint Resolve humble_list : pmux.

Lemma modest_anchor bytes : modest (judge_anchor bytes).
Proof.
  unfold judge_anchor, anchor_of. destruct (before_newline bytes); [|destruct (_ <=? _); auto with pmux].
  apply modest_bind; [apply modest_map_err; auto with pmux|]. intros row. apply modest_bind; [|auto with pmux].
  destruct (negb _); auto with pmux.
Qed.
Hint Resolve modest_anchor : pmux.

Lemma humble_anchor path : humble (read_rotation_anchor path).
Proof. unfold read_rotation_anchor, open_file. humbly. Qed.
Hint Resolve humble_anchor : pmux.

Lemma humble_gather watch paths : forall rotated, humble (gather_anchors watch rotated paths).
Proof.
  induction paths as [|path paths IH]; intros rotated; cbn [gather_anchors]; [apply humble_ret|]. humbly. all: apply IH.
Qed.
Hint Resolve humble_gather : pmux.

Lemma humble_observe watch : humble (observe_rotation watch).
Proof. unfold observe_rotation. humbly. Qed.
Hint Resolve humble_observe : pmux.

Lemma humble_record i j : humble (record_rotation i j).
Proof. unfold record_rotation. humbly. intros s. apply says_ret, modest_Ok. Qed.
Hint Resolve humble_record : pmux.

Lemma humble_resolve rounds watch : humble (resolve_rotation rounds watch).
Proof.
  unfold resolve_rotation. apply humble_bind; [apply humble_now|]. intros n s.
  eapply says_bind; [apply humble_repeat|].
  - intros []. unfold rotation_round. humbly.
  - intros [[i|f] s'] t Hx; apply humble_bind; humbly.
Qed.
Hint Resolve humble_resolve : pmux.

(** ** The judgement of a preamble makes no claim either *)

Lemma identity_unclaimed row k f v : unclaimed (identity_failure row k f v).
Proof. apply unclaimed_details. keys. Qed.
Lemma cwd_unclaimed row k a e : unclaimed (identity_cwd_mismatch row k a e).
Proof. apply unclaimed_details. keys. Qed.
Hint Resolve identity_unclaimed cwd_unclaimed : pmux.

Lemma refusal_unclaimed r extra : Forall (fun kv => fst kv <> CLEAR_NOT_SUBMITTED) extra -> unclaimed (assert_empty_refusal_with r extra).
Proof.
  intros He. apply unclaimed_details. apply Forall_app. split; [|done]. unfold assert_empty_details. apply Forall_app.
  split; [keys|]. destruct (is_a_version_drift_signal r); keys.
Qed.
Hint Extern 1 (unclaimed (assert_empty_refusal_with _ _)) => apply refusal_unclaimed; keys : pmux.
Hint Extern 1 (unclaimed (assert_empty_row_refusal _ _ _)) => apply refusal_unclaimed; keys : pmux.

Lemma modest_cwd cwd row k v : modest (validate_cwd_value cwd row k v).
Proof. unfold validate_cwd_value. apply modest_bind; [auto with pmux|]. intros x. repeat case_match; auto with pmux. Qed.
Lemma modest_session i row k s : modest (validate_session i row k s).
Proof. unfold validate_session. apply modest_bind; [auto with pmux|]. intros x. case_match; auto with pmux. Qed.
Hint Resolve modest_cwd modest_session : pmux.

Lemma modest_semantic cwd i row : modest (validate_semantic_identity cwd i row).
Proof.
  unfold validate_semantic_identity. destruct (identity_bound_row_kind _); [|auto with pmux].
  apply modest_bind; [auto with pmux|]. intros x. apply modest_bind; [auto with pmux|]. intros u.
  unfold validate_semantic_cwd. destruct (json_get _ _); [auto with pmux|]. case_match; auto with pmux.
Qed.
Lemma modest_metadata cwd i row d : modest (validate_metadata_identity cwd i row d).
Proof.
  unfold validate_metadata_identity. apply modest_bind; [destruct d, (session_id _); auto with pmux|]. intros u.
  destruct (json_get _ _); auto with pmux.
Qed.
Hint Resolve modest_semantic modest_metadata : pmux.

Lemma modest_judge_row cwd i row t : modest (judge_row cwd i row t).
Proof.
  unfold judge_row. destruct (kind row) as [| | |a|a|sys|rt|u]; try (auto with pmux).
  - destruct (_ <? _); [auto with pmux|]. destruct (classify_preamble_user_row _); auto with pmux.
  - destruct (is_admitted_on_active_chain sys); [auto with pmux|]. destruct (negb _); auto with pmux.
  - destruct (preamble_metadata_disposition rt); [|auto with pmux]. apply modest_bind; [auto with pmux|]. intros u.
    destruct (_ && _); auto with pmux.
Qed.
Hint Resolve modest_judge_row : pmux.

Lemma modest_judge cwd i bytes contents : modest (judge_transcript cwd i bytes contents).
Proof.
  unfold judge_transcript. destruct (split_inclusive _ _) as [chunks rest]. apply modest_bind; [|auto with pmux].
  generalize (mkTally 0 0 false 0). induction chunks as [|chunk chunks IH]; intros t; [apply modest_Ok|]. cbn [try_fold].
  apply modest_bind; [|intros x; apply IH]. unfold judge_chunk. destruct (_ <? _); [auto with pmux|].
  destruct (parse_row _); [|auto with pmux]. apply modest_bind; auto with pmux.
Qed.
Hint Resolve modest_judge : pmux.

Lemma humble_assert_at i : humble (assert_empty_at i).
Proof.
  unfold assert_empty_at, locate, prove_transcript_inert, open_file, metadata_for_file. humbly.
Qed.
Hint Resolve humble_assert_at : pmux.

Lemma humble_assert_after rounds i : humble (assert_empty_after_clear rounds i).
Proof.
  unfold assert_empty_after_clear, after_clear_round, settled_for, next_quiet, stamp_tail, not_settled_failure. humbly.
Qed.

End Modest.

(** ** What the search for the new transcript finds *)

Section Found.
Context `{Outside} `{Files}.

(** The ids the transcripts read in a trace name. *)
Definition anchor_seen (e : TailEvent) : option SessionId := match e with Anchored _ a => a | _ => None end.
Definition anchors (t : list TailEvent) : list SessionId := omap anchor_seen t.

Lemma anchors_app t t' : anchors (t ++ t') = anchors t ++ anchors t'.
Proof. apply omap_app. Qed.

Lemma log_tells e s : tells (perform (log e)) s (fun r s' t => r = Ok tt /\ s' = s /\ t = [e]).
Proof. eapply says_bind; [by apply (says_log _ (fun _ t => t = [e]))|]. intros [] t ->. by apply says_ret. Qed.

Lemma list_tells directory s :
  tells (list_transcripts directory) s (fun r s' t => s' = s /\ anchors t = []).
Proof.
  eapply tells_step; [apply io_tells|intros entries _|done]. apply check_step; [intros l _|done].
  eapply tells_bind; [apply log_tells| |by intros f s' t (? & _)]. intros [] s' t (_ & -> & ->). by apply tells_ret.
Qed.

Lemma anchor_tells path s :
  tells (read_rotation_anchor path) s (fun r s' t => s' = s /\ forall a, r = Ok a -> anchors t = match a with Some i => [i] | None => [] end).
Proof.
  eapply tells_step; [apply io_tells|intros _ _|done]. eapply tells_step; [apply io_tells|intros bytes _|done].
  apply check_step; [intros a _|done]. eapply tells_bind; [apply log_tells| |by intros f s' t (? & _)].
  intros [] s' t (_ & -> & ->). apply tells_ret. split; [done|]. intros a' [= <-]. by destruct a.
Qed.

(** The ids gathered are new, and are all the ids that were read. *)
Lemma gather_tells watch paths : forall rotated s,
  Forall (fun i => is_new_id watch i = true) rotated ->
  tells (gather_anchors watch rotated paths) s (fun r s' t => s' = s /\ forall l, r = Ok l ->
    Forall (fun i => is_new_id watch i = true) l /\ rotated ⊆ l /\ anchors t ⊆ l /\ l ⊆ rotated ++ anchors t).
Proof.
  induction paths as [|path paths IH]; intros rotated s Hr; cbn [gather_anchors].
  { apply tells_ret. split; [done|]. intros l [= <-]. split_and!; [done|done|set_solver|set_solver]. }
  eapply tells_bind; [apply anchor_tells| |by intros f s' t (-> & _)]. intros a s' t (-> & Ht). specialize (Ht a eq_refl).
  destruct a as [a|].
  - destruct (is_new_id watch a) eqn:Hn; cbn [negb]; [|by apply tells_fail].
    set (rotated' := if existsb (N.eqb a) rotated then rotated else rotated ++ [a]).
    assert (Hr' : Forall (fun i => is_new_id watch i = true) rotated' /\ rotated ⊆ rotated' /\ a ∈ rotated' /\ rotated' ⊆ rotated ++ [a]).
    { subst rotated'. destruct (existsb (N.eqb a) rotated) eqn:He.
      - apply existsb_exists in He as (x & Hx & <-%N.eqb_eq). split_and!; [done|done|by apply list_elem_of_In|set_solver].
      - split_and!; [apply Forall_app; by split; [|constructor]|set_solver|set_solver|done]. }
    destruct Hr' as (Hr1 & Hr2 & Hr3 & Hr4). eapply tells_mono; [by apply IH|]. intros r s' t' (-> & Hl). split; [done|]. intros l El.
    destruct (Hl l El) as (Hn' & Hsub & Hanc & Honly). rewrite anchors_app, Ht. split_and!; set_solver.
  - eapply tells_mono; [by apply IH|]. intros r s' t' (-> & Hl). split; [done|]. intros l El.
    destruct (Hl l El) as (Hn' & Hsub & Hanc & Honly). rewrite anchors_app, Ht. by split_and!.
Qed.

(** A look that found the transcript: one id, a new one, and no other was read. *)
Definition found (watch : RotationWatch) (i : SessionId) (t : list TailEvent) : Prop :=
  is_new_id watch i = true /\ anchors t ⊆ [i] /\ i ∈ anchors t.

Lemma observe_tells watch s :
  tells (observe_rotation watch) s (fun r s' t => s' = s /\ forall i, r = Ok (Some i) -> found watch i t).
Proof.
  eapply tells_bind; [apply list_tells| |by intros f s' t (-> & _)]. intros observed s' t (-> & Ht).
  eapply tells_bind; [by apply gather_tells| |by intros f s' t' (-> & _)]. intros rotated s' t' (-> & Hl).
  destruct (Hl rotated eq_refl) as (Hn & _ & Hanc & Honly). destruct rotated as [|a [|b rotated]].
  - by apply tells_ret.
  - apply tells_ret. split; [done|]. intros i [= <-]. apply Forall_cons in Hn as [Hn _]. split; [exact Hn|].
    rewrite app_nil_r, anchors_app, Ht. split; [done|set_solver].
  - by apply tells_fail.
Qed.

(** The search ends with the look that found it. *)
Lemma await_says rounds watch s :
  says (await_rotation rounds watch s)
    (fun p t => snd p = s /\ forall i, fst p = Ok i -> exists t0 t1, t = t0 ++ t1 /\ found watch i t1) (fun e _ => e = OutOfRounds).
Proof.
  apply (says_iterate (fun p _ => snd p = s)); [|done|done]. intros [[] s'] t Hs. cbn in Hs. subst s'.
  assert (Hround : tells (rotation_round watch tt) s (fun r s' t => s' = s /\ forall i, r = Ok (inr i) -> found watch i t)).
  { eapply tells_bind; [apply observe_tells| |by intros f s' t' (-> & _)]. intros [i|] s' t' (-> & Hf).
    - apply tells_ret. split; [done|]. intros j [= <-]. rewrite app_nil_r. by apply Hf.
    - eapply tells_step; [apply get_tells|intros x ->|by intros f]. eapply tells_step; [apply now_tells|intros n _|by intros f].
      destruct (_ <=? _); [|by apply tells_ret]. eapply tells_bind; [apply list_tells| |by intros f s' t'' (-> & _)].
      intros l s' t'' (-> & _). eapply tells_step; [apply elapsed_tells|intros ms _|by intros f].
      apply check_step; [intros w _|by intros f _]. by apply tells_fail. }
  eapply says_bind; [eapply says_mono; [exact Hround|done|done]|]. intros [[[u|i]|f] s'] t' (E & Hf); cbn in E; subst s'; apply says_ret.
  - done.
  - rewrite app_nil_r. split; [done|]. cbn. intros j [= <-]. exists t, t'. split; [done|]. by apply Hf.
  - by rewrite app_nil_r.
Qed.

Lemma now_step {A} (k : N -> M A) s Q X : (forall n, says (k n s) Q X) -> says (bind now k s) Q X.
Proof.
  intros Hk. eapply (says_bind _ _ (fun p t => t = [] /\ exists n, p = (Ok n, s))).
  - eapply says_bind; [by apply (says_read_instant _ (fun _ t => t = []))|]. intros n t ->. apply says_ret. split; [done|by exists n].
  - intros p t (-> & n & ->). apply Hk.
Qed.

Lemma ask_step {A B} (a : nat -> A) (k : A -> M B) s Q X : (forall x, says (k x s) Q X) -> says (bind (perform (ask a)) k s) Q X.
Proof.
  intros Hk. eapply (says_bind _ _ (fun p t => t = [] /\ exists x, p = (Ok x, s))).
  - eapply says_bind; [by apply (says_ask _ (fun _ t => t = []))|]. intros x t ->. apply says_ret. split; [done|by exists x].
  - intros p t (-> & x & ->). apply Hk.
Qed.

Lemma remember_last r l : r ∈ remember r l.
Proof.
  unfold remember. rewrite length_app. cbn [length]. rewrite drop_app_le by (unfold MAX_REMEMBERED_ROTATIONS; lia). set_solver.
Qed.

Lemma record_says i j s :
  says (record_rotation i j s)
    (fun p _ => ft_expected_cwd (snd p) = ft_expected_cwd s /\
       match fst p with Ok _ => i ∈ rr_abandoned <$> ft_rotations (snd p) | Err f => f = poisoned_tail end) (fun _ _ => False).
Proof.
  unfold record_rotation, lock. eapply (says_bind _ _ (fun p _ => snd p = s /\ (fst p = Ok tt \/ fst p = Err poisoned_tail))).
  - apply ask_step. intros []; apply says_ret; auto.
  - intros [r s'] t [E2 [E1|E1]]; cbn in E1, E2; subst r s'; [|by apply says_ret]. apply now_step. intros n.
    apply says_ret. cbn. split; [done|]. apply list_elem_of_fmap. eexists. split; [|apply remember_last]. done.
Qed.

(** Whatever comes of it, the old id is remembered as abandoned. *)
Lemma resolve_says rounds watch s :
  says (resolve_rotation rounds watch s)
    (fun p t => ft_expected_cwd (snd p) = ft_expected_cwd s /\
       (rw_abandoned watch ∈ rr_abandoned <$> ft_rotations (snd p) \/ fst p = Err poisoned_tail) /\
       forall i, fst p = Ok i -> is_new_id watch i = true /\ i ∈ anchors t) (fun e _ => e = OutOfRounds).
Proof.
  apply now_step. intros n.
  eapply says_bind; [apply await_says|]. intros [outcome s'] t (E & Hf); cbn in E, Hf; subst s'.
  eapply (says_mono _ (fun p _ => ft_expected_cwd (snd p) = ft_expected_cwd s /\
    (rw_abandoned watch ∈ rr_abandoned <$> ft_rotations (snd p) \/ fst p = Err poisoned_tail) /\
    forall i, fst p = Ok i -> outcome = Ok i)); [|intros [r s'] t' (Hsame & Hgone & Hout); split; [done|]; split; [done|]|intros e t' He; exact He].
  2: { intros i Hi. destruct (Hf i (Hout i Hi)) as (t0 & t1 & -> & Hnew & _ & Hin). split; [exact Hnew|]. rewrite !anchors_app. set_solver. }
  eapply (says_bind _ _ (fun p _ => ft_expected_cwd (snd p) = ft_expected_cwd s /\ match fst p with
    | Ok _ => rw_abandoned watch ∈ rr_abandoned <$> ft_rotations (snd p) | Err f => f = poisoned_tail end)).
  - eapply says_mono; [apply record_says|done|intros e t' []].
  - intros [[u|f] s'] t' [Hcwd Hp]; cbn in Hp, Hcwd; apply says_ret; cbn; (split; [done|]); [split; [by left|done]|]. subst f. split; [by right|done].
Qed.

(** ** The wait after a clear *)

(** A look at the transcript of the session [i]: the file located for it, no longer than the
    limit, held inert rows only, and the proof tells of that file. *)
Definition looked (cwd : string) (i : SessionId) (proof : EmptinessProof) : Prop :=
  exists located metadata contents,
    (exists k, locate_answer k i = Ok located) /\
    (exists k, file_metadata k (lt_path located) = Ok metadata) /\
    (exists k, file_bytes k (lt_path located) 0 = Ok contents) /\
    fm_len metadata <= MAX_ASSERT_EMPTY_BYTES /\
    preamble_only cwd i (fm_len metadata) (take (N.to_nat MAX_ASSERT_EMPTY_BYTES) contents) proof.

Section Looks.
Variables (cwd : string) (i : SessionId).

Definition steady (bytes : N) (e : TailEvent) : Prop :=
  match e with
  | Judged (Some p) => em_bytes p = bytes /\ looked cwd i p
  | Judged None => False
  | _ => True
  end.

(** Since [since] every look found the transcript with this length. *)
Definition quiet_stretch (q : option (N * N)) (t : list TailEvent) : Prop :=
  match q with
  | None => True
  | Some (bytes, since) =>
      exists pre first mid, t = pre ++ [Judged (Some first); JudgedAt since] ++ mid /\ em_bytes first = bytes /\
        looked cwd i first /\ Forall (steady bytes) mid
  end.

(** The last look of an accepted wait, and the stretch it ends: the echo of the command is
    there, and no line is half written. *)
Definition settled_look (proof : EmptinessProof) (t : list TailEvent) : Prop :=
  looked cwd i proof /\ em_clear_command_seen proof = true /\ em_pending_bytes proof = 0 /\
  exists pre first since mid now,
    t = pre ++ [Judged (Some first); JudgedAt since] ++ mid ++ [Judged (Some proof); JudgedAt now] /\
    em_bytes first = em_bytes proof /\ looked cwd i first /\ Forall (steady (em_bytes proof)) mid /\
    ASSERT_EMPTY_QUIET_FOR <= now - since.

Lemma quiet_stretch_app q t t' :
  quiet_stretch q t -> (forall bytes since, q = Some (bytes, since) -> Forall (steady bytes) t') -> quiet_stretch q (t ++ t').
Proof.
  destruct q as [[bytes since]|]; [|done]. intros (pre & first & mid & -> & Hb & Hl & Hm) Ht'. exists pre, first, (mid ++ t').
  split; [by rewrite <-!app_assoc|]. split; [done|]. split; [done|]. apply Forall_app. split; [done|]. by eapply Ht'.
Qed.

Lemma stamp_tells s : tells stamp_tail s (fun r s' t => s' = s /\ forall n, r = Ok n -> t = [JudgedAt n]).
Proof.
  eapply tells_step; [apply now_tells|intros n _|by intros f]. eapply tells_bind; [apply log_tells| |by intros f s' t (? & _)].
  intros [] s' t (_ & -> & ->). apply tells_ret. split; [done|]. by intros m [= <-].
Qed.

Lemma assert_at_tells s :
  ft_expected_cwd s = cwd ->
  tells (assert_empty_at i) s (fun r s' t => s' = s /\ t = [] /\ forall look, r = Ok look -> forall p, look = Some p -> looked cwd i p).
Proof.
  intros Hcwd. eapply tells_step; [apply ask_tells|intros located [k0 Hk0]|by intros f]. destruct located as [located|e].
  - eapply (tells_step _ _ _ (looked cwd i)); [|intros p Hp; apply tells_ret; split_and!; [done|done|by intros look [= <-] p' [= <-]]|by intros f].
    unfold prove_transcript_inert.
    eapply tells_step; [apply io_tells|intros _ _|by intros f]. eapply tells_step; [apply io_tells|intros m Hm|by intros f].
    destruct (N.ltb_spec MAX_ASSERT_EMPTY_BYTES (fm_len m)); [by apply tells_fail|].
    eapply tells_step; [apply io_tells|intros c Hc|by intros f].
    eapply tells_step; [apply get_tells|intros x ->|by intros f]. eapply tells_mono; [apply check_tells|].
    intros r s' t (-> & -> & Hr). split_and!; [done..|]. intros p ->. exists located, m, c. split_and!; [by exists k0|done|done|lia|].
    apply accepted_preamble_is_inert. rewrite <-Hcwd. by apply Hr.
  - destruct e; try (by apply tells_fail). apply tells_ret. split_and!; [done|done|by intros look [= <-]].
Qed.

(** A round keeps the stretch or starts another. *)
Definition round_result (t : list TailEvent) (r : DriverResult (option (N * N) + EmptinessProof)) (s s' : FileTranscriptSource)
    (t' : list TailEvent) : Prop :=
  s' = s /\ forall x, r = Ok x -> match x with inl q => quiet_stretch q (t ++ t') | inr proof => settled_look proof (t ++ t') end.

Lemma next_quiet_tells look q s t :
  quiet_stretch q t -> (forall p, look = Some p -> looked cwd i p) ->
  tells (next_quiet look q) s (fun r s' t' => s' = s /\ forall q', r = Ok q' -> quiet_stretch q' ((t ++ [Judged look]) ++ t') /\
    (forall bytes since, q' = Some (bytes, since) -> exists p, look = Some p)).
Proof.
  intros Hq Hlook. destruct look as [p|]; [|apply tells_ret; split; [done|by intros q' [= <-]]].
  specialize (Hlook p eq_refl). assert (Hfresh : tells (let& n := stamp_tail in ret (Some (em_bytes p, n))) s (fun r s' t' => s' = s /\
    forall q', r = Ok q' -> quiet_stretch q' ((t ++ [Judged (Some p)]) ++ t') /\ (forall bytes since, q' = Some (bytes, since) -> exists p', Some p = Some p'))).
  { eapply tells_bind; [apply stamp_tells| |by intros f s' t' (-> & _)]. intros n s' t' (-> & Ht'). rewrite (Ht' n eq_refl).
    apply tells_ret. split; [done|]. intros q' [= <-]. split; [|by exists p]. exists t, p, []. cbn. by rewrite <-app_assoc. }
  cbn [next_quiet]. destruct q as [[bytes since]|]; [|exact Hfresh].
  destruct (N.eqb_spec (em_bytes p) bytes) as [E|]; [|exact Hfresh]. apply tells_ret. split; [done|]. intros q' [= <-].
  split; [|by exists p]. rewrite app_nil_r. apply quiet_stretch_app; [done|]. intros b n [= <- <-]. by constructor.
Qed.

Lemma settled_Ok proof bytes :
  settled proof bytes = true -> em_bytes proof = bytes /\ em_clear_command_seen proof = true /\ em_pending_bytes proof = 0.
Proof. unfold settled. rewrite !andb_true_iff, !N.eqb_eq. tauto. Qed.

(** The age of the stretch is read only of a settled look, and is enough only at its end. *)
Lemma settled_for_tells look q s t :
  quiet_stretch q t -> (forall p, look = Some p -> looked cwd i p) ->
  tells (settled_for look q) s (fun r s' t' => s' = s /\ forall b, r = Ok b ->
    t' = [] /\ b = false \/
    exists proof since n, look = Some proof /\ q = Some (em_bytes proof, since) /\ t' = [JudgedAt n] /\
      (b = true -> settled_look proof (t ++ [Judged look; JudgedAt n]))).
Proof.
  intros Hq Hlook. assert (Hno : forall Q : DriverResult bool -> FileTranscriptSource -> list TailEvent -> Prop,
    Q (Ok false) s [] -> tells (ret false) s Q) by (intros; by apply tells_ret).
  assert (Hnever : forall (P : bool -> Prop) b, Ok (A := bool) (E := DriverFailure) false = Ok b -> (@nil TailEvent = [] /\ b = false) \/ P b)
    by (intros P b [= <-]; by left).
  destruct look as [proof|]; [|apply Hno; split; [done|apply (Hnever _)]]. destruct q as [[bytes since]|]; [|apply Hno; split; [done|apply (Hnever _)]].
  cbn [settled_for]. destruct (settled proof bytes) eqn:Hs; [|apply Hno; split; [done|apply (Hnever _)]].
  apply settled_Ok in Hs as (<- & Hseen & Hpend). destruct Hq as (pre & first & mid & -> & Hb & Hl & Hm).
  specialize (Hlook proof eq_refl). eapply tells_bind; [apply stamp_tells| |by intros f s' t' (-> & _)]. intros n s' t' (-> & Ht').
  rewrite (Ht' n eq_refl). apply tells_ret. split; [done|]. intros b [= <-]. right. exists proof, since, n.
  split_and!; [done..|]. intros Hn%N.leb_le. split_and!; [done..|]. exists pre, first, since, mid, n. split_and!; [|done..].
  by rewrite <-!app_assoc.
Qed.

(** The end of a round that goes on. *)
Lemma round_tail_tells started look q s (P : option (N * N) -> list TailEvent -> Prop) :
  P q [] ->
  tells
    (let& s := get in
     let& n := now in
     if ft_rebind_timeout s <=? n - started then
       let& ms := elapsed_ms started in
       let& waited_ms := check (protocol_milliseconds ms "assert-empty settle duration") in
       fail (not_settled_failure look waited_ms)
     else ret (inl (B := EmptinessProof) q)) s (fun r s' t' => s' = s /\ forall x, r = Ok x -> x = inl q /\ P q t').
Proof.
  intros HP. eapply tells_step; [apply get_tells|intros x ->|by intros f]. eapply tells_step; [apply now_tells|intros n _|by intros f].
  destruct (_ <=? _); [|apply tells_ret; split; [done|by intros x [= <-]]].
  eapply tells_step; [apply elapsed_tells|intros ms _|by intros f]. apply check_step; [intros w _; by apply tells_fail|by intros f _].
Qed.

Lemma round_tells started q s t :
  ft_expected_cwd s = cwd -> quiet_stretch q t -> tells (after_clear_round i started q) s (fun r s' t' => round_result t r s s' t').
Proof.
  intros Hcwd Hq. eapply tells_bind; [by apply assert_at_tells| |by intros f s' t' (-> & -> & _)]. intros look s' t' (-> & -> & Hlook).
  specialize (Hlook look eq_refl).
  eapply tells_bind; [apply log_tells| |by intros f s' t' (? & _)]. intros [] s' t' (_ & -> & ->).
  eapply tells_bind; [by apply settled_for_tells| |by intros f s' t' (-> & _)]. intros b s' t' (-> & Hb).
  destruct (Hb b eq_refl) as [(-> & ->)|(proof & since & n & -> & -> & -> & Hset)].
  - assert (Hnext : tells (let& q' := next_quiet look q in
       let& s := get in let& n := now in
       if ft_rebind_timeout s <=? n - started then
         let& ms := elapsed_ms started in
         let& waited_ms := check (protocol_milliseconds ms "assert-empty settle duration") in
         fail (not_settled_failure look waited_ms)
       else ret (inl q')) s (fun r s' t' => round_result t r s s' ([Judged look] ++ t'))); [|by destruct look].
    eapply tells_bind; [by apply next_quiet_tells| |by intros f s' t' (-> & _)]. intros q' s' t' (-> & Hq').
    destruct (Hq' q' eq_refl) as [Hq'' _].
    eapply tells_mono; [apply (round_tail_tells started look q' s (fun q'' t'' => quiet_stretch q'' (t ++ [Judged look] ++ t' ++ t'')))|].
    { by rewrite app_nil_r, app_assoc. }
    intros r s' t'' (-> & Hr). split; [done|]. intros x Hx. by destruct (Hr x Hx) as [-> ?].
  - destruct b.
    { apply tells_ret. split; [done|]. intros x [= <-]. rewrite !app_nil_r. by apply Hset. }
    unfold next_quiet. rewrite N.eqb_refl. eapply (tells_step _ _ _ (fun x => x = Some (em_bytes proof, since))).
    { apply tells_ret. split_and!; [done..|]. by intros x [= <-]. }
    2: by intros f. intros q' ->.
    eapply tells_mono; [apply (round_tail_tells started _ _ s (fun q'' t'' => quiet_stretch q'' (t ++ [Judged (Some proof); JudgedAt n] ++ t'')))|].
    { apply quiet_stretch_app; [done|]. intros b n' [= <- <-]. repeat constructor. by apply Hlook. }
    intros r s' t'' (-> & Hr). split; [done|]. intros x Hx. by destruct (Hr x Hx) as [-> ?].
Qed.

(** An accepted wait ends in a look that settled. *)
Lemma assert_after_says rounds s :
  ft_expected_cwd s = cwd ->
  says (assert_empty_after_clear rounds i s)
    (fun p t => snd p = s /\ forall proof, fst p = Ok proof -> settled_look proof t) (fun e _ => e = OutOfRounds).
Proof.
  intros Hcwd. apply now_step. intros started. apply (says_iterate (fun p t => snd p = s /\ quiet_stretch (fst p) t)); [|done|done].
  intros [q s'] t [E Hq]. cbn in E, Hq. subst s'.
  eapply says_bind; [eapply says_mono; [by apply round_tells|done|done]|].
  intros [[[q'|proof]|f] s'] t' (E & Hr); cbn in E; subst s'; apply says_ret; rewrite app_nil_r.
  - split; [done|]. by apply (Hr (inl q')).
  - split; [done|]. cbn. intros p [= <-]. by apply (Hr (inr proof)).
  - by split.
Qed.
End Looks.
End Found.

(** ** The whole of a clear *)

Section Clear.
Context `{Pty} `{Outside} `{Files}.

Definition command_entered (t : list ClearEvent) : Prop := OnTerminal Entering ∈ t.

(** What the session actor reads off the failure. *)
Lemma told_unsent f : clear_was_not_submitted (df_details f) = marked CLEAR_NOT_SUBMITTED f.
Proof. done. Qed.

(** The selection that was proven before the command was sent. *)
Definition clear_selected (quiet : N) (baseline : TerminalSnapshot) (_ : ActiveEditor) (t : list PtyEvent) : Prop :=
  exists screen, settled_on baseline quiet screen t /\ prove_control_command_selection screen Clear = Ok tt.

(** How a clear of the session [i] came out: its answer, the source after it, its trace. *)
Inductive clear_told (quiet : N) (i : SessionId) (s : FileTranscriptSource) :
    DriverResult SessionId -> FileTranscriptSource -> list ClearEvent -> Prop :=
| clear_unsent f t :
    ~ command_entered t -> clear_was_not_submitted (df_details f) = true -> clear_told quiet i s (Err f) s t
| clear_lost f s' t :
    command_entered t -> clear_was_not_submitted (df_details f) = false -> i ∈ rr_abandoned <$> ft_rotations s' \/ f = poisoned_tail ->
    clear_told quiet i s (Err f) s' t
| clear_done j s' before typing search looks proof :
    i ∈ rr_abandoned <$> ft_rotations s' ->
    j <> i -> mem_str (print_uuid j) (lower ∘ file_stem <$> before) = false ->
    typed quiet (command_literal Clear) (clear_selected quiet) true typing ->
    j ∈ anchors search -> settled_look (ft_expected_cwd s) j proof looks ->
    clear_told quiet i s (Ok j) s'
      (OnFiles (Listed before) :: (OnTerminal <$> typing) ++ (OnFiles <$> search) ++ (OnFiles <$> looks)).

Lemma entered_app t t' : command_entered (t ++ t') <-> command_entered t \/ command_entered t'.
Proof. unfold command_entered. set_solver. Qed.
Lemma files_not_entered t : ~ command_entered (OnFiles <$> t).
Proof. unfold command_entered. rewrite list_elem_of_fmap. by intros (e & ? & _). Qed.
Lemma reads_not_entering t : reads t -> Entering ∉ t.
Proof. intros Ht Hin. apply (Forall_forall _ _) with (x := Entering) in Ht; [discriminate|done]. Qed.

Lemma typed_entered_iff quiet text shows sent t :
  typed quiet text shows sent t -> command_entered (OnTerminal <$> t) <-> sent = true.
Proof.
  unfold command_entered. intros Ht. assert (Hiff : OnTerminal Entering ∈ OnTerminal <$> t <-> Entering ∈ t).
  { rewrite list_elem_of_fmap. split; [by intros (e & [= <-] & He)|by exists Entering]. }
  rewrite Hiff. destruct Ht as [t Hr|before s editor t _ Hf Hr|before s editor t _ Hf Hr _].
  - split; [|done]. by intros Hin%reads_not_entering.
  - assert (Hb : reads before) by (by destruct Hf as (t0 & -> & _ & Hr0); apply reads_app; [|by repeat constructor]). apply reads_not_entering in Hr, Hb. split; [set_solver|done].
  - split; [done|set_solver].
Qed.

Lemma list_exact directory s :
  tells (list_transcripts directory) s (fun r s' t => s' = s /\ forall l, r = Ok l -> t = [Listed l]).
Proof.
  eapply tells_step; [apply io_tells|intros entries _|done]. apply check_step; [intros l _|done].
  eapply tells_bind; [apply log_tells| |by intros f s' t (? & _)]. intros [] s' t (_ & -> & ->). apply tells_ret.
  split; [done|]. by intros l' [= <-].
Qed.

Lemma humble_watch i : humble (watch_rotation i).
Proof. unfold watch_rotation, locate. humbly; try apply humble_list. Qed.

(** The watch lists the directory and does nothing else. *)
Lemma watch_tells i s :
  tells (watch_rotation i) s (fun r s' t => s' = s /\ ~ command_entered (OnFiles <$> t) /\ forall watch, r = Ok watch ->
    rw_abandoned watch = i /\ exists before, t = [Listed before] /\ rw_before_session_ids watch = lower ∘ file_stem <$> before).
Proof.
  eapply tells_mono with (Q := fun r s' t => s' = s /\ forall watch, r = Ok watch ->
    rw_abandoned watch = i /\ exists before, t = [Listed before] /\ rw_before_session_ids watch = lower ∘ file_stem <$> before).
  2: { intros r s' t [-> Hw]. split_and!; [done|apply files_not_entered|done]. }
  eapply tells_step; [apply ask_tells|intros located _|by intros f]. apply check_step; [intros l _|by intros f _].
  eapply tells_bind; [apply list_exact| |by intros f s' t (-> & _)]. intros before s' t (-> & Ht). specialize (Ht before eq_refl).
  subst t. eapply tells_step; [apply now_tells|intros n _|by intros f]. apply tells_ret. split; [done|].
  intros watch [= <-]. split; [done|]. by exists before.
Qed.

(** Once Enter was sent, the rest finds the new transcript or fails without a claim. *)
Lemma rest_says rounds watch s i before typing quiet :
  rw_abandoned watch = i -> rw_before_session_ids watch = lower ∘ file_stem <$> before ->
  typed quiet (command_literal Clear) (clear_selected quiet) true typing ->
  says
    (let% resolved := on_files (resolve_rotation rounds watch) s in
     match resolved with
     | (Err error, s) => tret (Err error, s)
     | (Ok rebound, s) =>
         let% proven := on_files (assert_empty_after_clear rounds rebound) s in
         match proven with
         | (Err error, s) => tret (Err error, s)
         | (Ok _, s) => tret (Ok rebound, s)
         end
     end)
    (fun p t => clear_told quiet i s (fst p) (snd p) (OnFiles (Listed before) :: (OnTerminal <$> typing) ++ t))
    (fun e _ => e = OutOfRounds).
Proof.
  intros Hi Hids Htyped.
  assert (Hent : forall t, command_entered (OnFiles (Listed before) :: (OnTerminal <$> typing) ++ t)).
  { intros t. apply (entered_app [_]). right. apply entered_app. left. by apply (typed_entered_iff _ _ _ _ _ Htyped). }
  eapply says_bind.
  { eapply says_mono; [apply says_embed, (says_and _ _ _ _ _ (resolve_says rounds watch s) (humble_resolve rounds watch s))|done|].
    by intros e t (t0 & _ & He & _). }
  intros [[rebound|f] s'] t (search & -> & [(Hcwd & Hab & Hnew) Hm]); cbn in Hcwd, Hab, Hnew, Hm.
  2: { apply says_ret. rewrite app_nil_r. cbn. rewrite Hi in Hab. apply clear_lost; [apply Hent| |naive_solver].
       rewrite told_unsent. by apply Hm. }
  destruct Hab as [Hab|[=]]. rewrite Hi in Hab. eapply says_bind.
  { eapply says_mono; [apply says_embed, (says_and _ _ _ _ _ (assert_after_says (ft_expected_cwd s) rebound rounds s' Hcwd) (humble_assert_after rounds rebound s'))|done|].
    by intros e t (t0 & _ & He & _). }
  intros [[proof|f] s''] t (looks & -> & [[E Hset] Hm']); cbn in E, Hset, Hm'; subst s''; apply says_ret; rewrite app_nil_r; cbn.
  - destruct (Hnew rebound eq_refl) as [Hn Hin]. clear Hnew. rename Hn into Hnew. unfold is_new_id in Hnew. rewrite Hi, Hids in Hnew.
    apply andb_true_iff in Hnew as [Hne%negb_true_iff%N.eqb_neq Hmem%negb_true_iff]. by eapply clear_done; [..|exact Hin|by apply Hset].
  - apply clear_lost; [apply Hent| |by left]. rewrite told_unsent. by apply Hm'.
Qed.

(** The whole of it. *)
Lemma clear_and_rebind_says rounds terminal s i deadline :
  says (clear_and_rebind rounds terminal s i deadline)
    (fun p t => clear_told (rt_quiet_for terminal) i s (fst p) (snd p) t) (fun e _ => e = OutOfRounds).
Proof.
  eapply says_bind; [eapply says_mono; [apply says_embed, watch_tells|done|by intros e t (t0 & _ & [])]|].
  intros [[watch|f] s'] t (t0 & -> & E & Hn & Hw); cbn in E; subst s'.
  2: { apply says_ret. rewrite app_nil_r. apply clear_unsent; [done|]. by rewrite told_unsent, marked_mark. }
  destruct (Hw watch eq_refl) as (Hi & before & -> & Hids). eapply says_bind.
  { eapply says_mono; [apply says_embed, type_control_command_says|done|]. by intros e t (t1 & _ & He & _). }
  cbv zeta. intros r t (typing & -> & Htyped). fold (clear_selected (rt_quiet_for terminal)) in Htyped.
  set (refused := match r with Err error => if enter_was_attempted error then None else Some error | Ok _ => None end).
  assert (Hsent : result_sent r = match refused with None => true | Some _ => false end).
  { subst refused. destruct r as [u|f]; [done|]. cbn. by destruct (enter_was_attempted f). }
  rewrite Hsent in Htyped. destruct refused as [f|].
  - apply says_ret. rewrite app_nil_r. cbn. apply clear_unsent; [|by rewrite told_unsent, marked_mark].
    intros [Hin|Hin]%(entered_app [_]); [by apply (files_not_entered [Listed before])|].
    by apply (typed_entered_iff _ _ _ _ _ Htyped) in Hin.
  - eapply says_mono; [by apply (rest_says rounds watch s i before typing)|done|done].
Qed.


End Clear.

(** ** A clear ends *)

(** A program that only reads, and runs to its end. *)
Definition lasting {A} (m : M A) : Prop :=
  forall s w, twp (m s) w (fun p w' => snd p = s /\ (tk_instants w <= tk_instants w')%nat) (fun _ _ => False).

Lemma lasting_ret {A} (x : A) : lasting (ret x).
Proof. by intros s w. Qed.
Lemma lasting_fail {A} f : lasting (fail (A := A) f).
Proof. by intros s w. Qed.
Lemma lasting_check {A} (r : DriverResult A) : lasting (check r).
Proof. by intros s w. Qed.
Lemma lasting_get : lasting get.
Proof. by intros s w. Qed.
Lemma lasting_ask {A} (a : nat -> A) : lasting (perform (ask a)).
Proof. by intros s w. Qed.
Lemma lasting_log e : lasting (perform (log e)).
Proof. by intros s w. Qed.
Lemma lasting_now `{Files} : lasting now.
Proof. intros s w. split; [done|]. cbn. lia. Qed.
Lemma lasting_bind {A B} (m : M A) (k : A -> M B) : lasting m -> (forall x, lasting (k x)) -> lasting (bind m k).
Proof.
  intros Hm Hk s w. apply twp_bind. eapply twp_mono; [apply Hm| |done]. intros [[x|f] s'] w' [E Hle]; cbn in E; subst s'; [|done].
  eapply twp_mono; [apply Hk| |done]. intros p w'' [E Hle']. split; [done|lia].
Qed.

Ltac endure :=
  lazymatch goal with
  | |- forall _, _ => let x := fresh "x" in intros x; endure
  | |- lasting (ret _) => apply lasting_ret
  | |- lasting (fail _) => apply lasting_fail
  | |- lasting (check _) => apply lasting_check
  | |- lasting (perform (ask _)) => apply lasting_ask
  | |- lasting (perform (log _)) => apply lasting_log
  | |- lasting now => apply lasting_now
  | |- lasting get => apply lasting_get
  | |- lasting (bind _ _) => apply lasting_bind; endure
  | |- lasting (match ?x with _ => _ end) => destruct x; endure
  | |- _ => auto with pmux
  end.

Section ClearEnds.
Context `{Outside} `{Files}.

Lemma lasting_io {A} path (a : nat -> result A string) : lasting (io path a).
Proof. unfold io. endure. Qed.
Hint Resolve lasting_io : pmux.
Lemma lasting_list directory : lasting (list_transcripts directory).
Proof. unfold list_transcripts, list_transcripts_within. endure. Qed.
Lemma lasting_anchor path : lasting (read_rotation_anchor path).
Proof. unfold read_rotation_anchor, open_file. endure. Qed.
Hint Resolve lasting_list lasting_anchor : pmux.
Lemma lasting_gather watch paths : forall rotated, lasting (gather_anchors watch rotated paths).
Proof. induction paths as [|path paths IH]; intros rotated; cbn [gather_anchors]; endure; apply IH. Qed.
Hint Resolve lasting_gather : pmux.
Lemma lasting_observe watch : lasting (observe_rotation watch).
Proof. unfold observe_rotation. endure. Qed.
Lemma lasting_assert_at i : lasting (assert_empty_at i).
Proof. unfold assert_empty_at, locate, prove_transcript_inert, open_file, metadata_for_file. endure. Qed.
Lemma lasting_settled look q : lasting (settled_for look q).
Proof. unfold settled_for, stamp_tail. endure. Qed.
Lemma lasting_next look q : lasting (next_quiet look q).
Proof. unfold next_quiet, stamp_tail. endure. Qed.
Lemma lasting_watch i : lasting (watch_rotation i).
Proof. unfold watch_rotation, locate. endure. Qed.
Lemma lasting_elapsed since : lasting (elapsed_ms since).
Proof. unfold elapsed_ms. endure. Qed.

Variable timeout : N.
Variable n : nat.
(** Of any [n] readings the last is the timeout after the first. *)
Hypothesis passes : forall k k', (k + n <= k')%nat -> timeout <= tail_instant k' - tail_instant k.

(** A round that goes on read a clock that had not reached the timeout. *)
Definition patient {L R} (k0 : nat) (m : M (L + R)) : Prop :=
  forall s w, ft_rebind_timeout s = timeout ->
    twp (m s) w (fun p w' => snd p = s /\ (tk_instants w <= tk_instants w')%nat /\
      match fst p with Ok (inl _) => (tk_instants w < tk_instants w')%nat /\ (tk_instants w < k0 + n)%nat | _ => True end)
      (fun _ _ => False).

Lemma patient_lasting {L R} k0 (x : R) : patient (L := L) k0 (ret (inr x)).
Proof. by intros s w Hs. Qed.

Lemma patient_bind {A L R} k0 (m : M A) (k : A -> M (L + R)) : lasting m -> (forall x, patient k0 (k x)) -> patient k0 (bind m k).
Proof.
  intros Hm Hk s w Hs. apply twp_bind. eapply twp_mono; [apply Hm| |done]. intros [[x|f] s'] w' [E Hle]; cbn in E; subst s'; [|done].
  eapply twp_mono; [by apply Hk| |done]. intros [[[l|r]|f] s'] w'' (E & Hle' & Hp); cbn in E; subst s'; split_and!; try done; cbn in *; lia.
Qed.

(** A program that reads and then refuses. *)
Definition refuses {A} (m : M A) : Prop :=
  forall s w, twp (m s) w (fun p w' => snd p = s /\ (tk_instants w <= tk_instants w')%nat /\ exists f, fst p = Err f) (fun _ _ => False).

Lemma refuses_fail {A} f : refuses (fail (A := A) f).
Proof. intros s w. split_and!; [done|done|by exists f]. Qed.
Lemma refuses_bind {A B} (m : M A) (k : A -> M B) : lasting m -> (forall x, refuses (k x)) -> refuses (bind m k).
Proof.
  intros Hm Hk s w. apply twp_bind. eapply twp_mono; [apply Hm| |done]. intros [[x|f] s'] w' [E Hle]; cbn in E; subst s'.
  - eapply twp_mono; [apply Hk| |done]. intros p w'' (E & Hle' & Hf). split_and!; [done|lia|done].
  - split_and!; [done|done|by exists f].
Qed.

(** The end of a round that goes on unless the wait is over. *)
Lemma patient_clock {L R} k0 (l : L) (over : M (L + R)) :
  refuses over ->
  patient k0 (let& s := get in let& n := now in if ft_rebind_timeout s <=? n - tail_instant k0 then over else ret (inl l)).
Proof.
  intros Hover s w Hs. apply twp_bind, twp_ret. apply twp_bind. apply twp_bind. apply twp_read_instant. intros w' _ _ Hi.
  apply twp_ret. rewrite Hs. destruct (N.leb_spec timeout (tail_instant (tk_instants w) - tail_instant k0)) as [Hle|Hlt].
  - eapply twp_mono; [apply Hover| |done]. intros [r s'] w'' (E & Hle' & f & Ef). cbn in E, Ef. subst. split; [done|]. split; [lia|done].
  - apply twp_ret. split; [done|]. split; [lia|]. cbn. split; [lia|]. destruct (decide (k0 + n <= tk_instants w)%nat) as [Hn|]; [|lia].
    specialize (passes _ _ Hn). lia.
Qed.

Lemma repeat_ends {L R} k0 (body : L -> M (L + R)) rounds l s w :
  (forall l, patient k0 (body l)) -> ft_rebind_timeout s = timeout -> (k0 <= tk_instants w)%nat -> (n < rounds)%nat ->
  twp (repeat_m rounds body l s) w (fun p _ => snd p = s) (fun _ _ => False).
Proof.
  intros Hb Hs Hk Hn. apply (twp_iterate_measure (fun p w' => snd p = s /\ (tk_instants w <= tk_instants w')%nat)
    (fun w => k0 + n - tk_instants w)%nat); [|done|lia].
  intros [l' s'] w' [E Hw]. cbn in E. subst s'. apply twp_bind. eapply twp_mono; [by apply Hb| |done].
  intros [[[l''|x]|f] s'] w'' (E & Hle & Hp); cbn in E; subst s'; apply twp_ret; cbn in *; [|done..]. split_and!; [done|lia|lia].
Qed.

Lemma rotation_round_patient k0 watch u : rw_started watch = tail_instant k0 -> patient k0 (rotation_round watch u).
Proof.
  intros Hk. unfold rotation_round. rewrite Hk. apply patient_bind; [apply lasting_observe|]. intros [j|]; [apply patient_lasting|].
  apply patient_clock. apply refuses_bind; [apply lasting_list|]. intros l. apply refuses_bind; [apply lasting_elapsed|].
  intros ms. apply refuses_bind; [apply lasting_check|]. intros waited. apply refuses_fail.
Qed.

Lemma after_clear_round_patient k0 i q : patient k0 (after_clear_round i (tail_instant k0) q).
Proof.
  unfold after_clear_round. apply patient_bind; [apply lasting_assert_at|]. intros look. apply patient_bind; [apply lasting_log|].
  intros u. apply patient_bind; [apply lasting_settled|]. intros b.
  assert (Hgo : patient k0 (let& q' := next_quiet look q in
    let& s := get in let& n := now in
    if ft_rebind_timeout s <=? n - tail_instant k0 then
      let& ms := elapsed_ms (tail_instant k0) in
      let& waited_ms := check (protocol_milliseconds ms "assert-empty settle duration") in
      fail (not_settled_failure look waited_ms)
    else ret (inl (B := EmptinessProof) q'))).
  { apply patient_bind; [apply lasting_next|]. intros q'. apply patient_clock. apply refuses_bind; [apply lasting_elapsed|].
    intros ms. apply refuses_bind; [apply lasting_check|]. intros waited. apply refuses_fail. }
  destruct look as [proof|]; [|exact Hgo]. destruct b; [apply patient_lasting|exact Hgo].
Qed.

Variable rounds : nat.
Hypothesis enough : (n < rounds)%nat.

Lemma assert_after_ends i s w :
  ft_rebind_timeout s = timeout ->
  twp (assert_empty_after_clear rounds i s) w (fun p _ => snd p = s) (fun _ _ => False).
Proof.
  intros Hs. apply twp_bind. apply twp_bind. apply twp_read_instant. intros w' _ _ Hi. apply twp_ret.
  eapply repeat_ends; [intros q; apply after_clear_round_patient|done|lia|done].
Qed.

Lemma record_ends i j s w :
  twp (record_rotation i j s) w (fun p _ => ft_rebind_timeout (snd p) = ft_rebind_timeout s) (fun _ _ => False).
Proof. unfold record_rotation, lock, twp, bind, perform, tbind, ask. cbn. by destruct (tail_poisoned _). Qed.

Lemma resolve_ends watch s w :
  ft_rebind_timeout s = timeout ->
  twp (resolve_rotation rounds watch s) w (fun p _ => ft_rebind_timeout (snd p) = timeout) (fun _ _ => False).
Proof.
  intros Hs. apply twp_bind. apply twp_bind. apply twp_read_instant. intros w' _ _ Hi. apply twp_ret. apply twp_bind.
  eapply twp_mono; [eapply (repeat_ends (tk_instants w)); [intros u; by apply rotation_round_patient|done|lia|done]| |done].
  intros [outcome s'] w'' E. cbn in E. subst s'. apply twp_bind. eapply twp_mono; [apply record_ends| |done].
  intros [[u|f] s'] w3 E; cbn in E; apply twp_ret; cbn; congruence.
Qed.

Lemma twp_embed {Ev Ev' A} (f : Ev -> Ev') (m : T Ev A) w (Q : A -> Prop) :
  (forall w, twp m w (fun x _ => Q x) (fun _ _ => False)) -> twp (embed f m) w (fun x _ => Q x) (fun _ _ => False).
Proof.
  intros Hm. specialize (Hm (mkWorld (tk_clocks w) (tk_instants w) (tk_asks w) [])). unfold twp, embed in *.
  by destruct (m _) as [[x|e] w'].
Qed.

(** C28. A clear always answers. When the wall clock reaches the deadline (or cannot be read) and the
    monotonic clock the rebind timeout, each within [n] readings, then [n] rounds and one
    more are enough for every loop of the clear: it ends, with a new id or with a failure. *)
Theorem clear_answers `{Pty} terminal s i deadline :
  (forall k ms, (n <= k)%nat -> unix_clock k = Some ms -> deadline <= ms) ->
  ft_rebind_timeout s = timeout ->
  exists r s' w, clear_and_rebind rounds terminal s i deadline start = (Done (r, s'), w).
Proof.
  intros Hlate Hs. cut (twp (clear_and_rebind rounds terminal s i deadline) start (fun _ _ => True) (fun _ _ => False)).
  { unfold twp. destruct (clear_and_rebind _ _ _ _ _ start) as [[[r s']|e] w]; [by exists r, s', w|done]. }
  apply twp_bind. eapply twp_mono; [apply (twp_embed OnFiles _ _ (fun p => snd p = s))| |done].
  { intros w. eapply twp_mono; [apply lasting_watch| |done]. by intros p w' [E _]. }
  intros [[watch|f] s'] w E; cbn in E; subst s'; [|done]. apply twp_bind.
  eapply twp_mono; [apply (twp_embed OnTerminal _ _ (fun _ => True))| |done].
  { intros w'. eapply twp_mono; [by apply (type_control_command_halts deadline n)|done|done]. }
  intros typed w' _. destruct (match typed with Err error => _ | Ok _ => _ end); [done|]. apply twp_bind.
  eapply twp_mono; [apply (twp_embed OnFiles _ _ (fun p => ft_rebind_timeout (snd p) = timeout)); intros; by apply resolve_ends| |done].
  intros [[rebound|f] s'] w'' E; cbn in E; [|done]. apply twp_bind.
  eapply twp_mono; [apply (twp_embed OnFiles _ _ (fun p => snd p = s')); intros; by apply assert_after_ends| |done].
  by intros [[proof|f] s''] w3 E'.
Qed.

End ClearEnds.

(** ** A clear, run

    The session 7 is cleared; the new transcript of the session 8 holds its anchor and the
    echo of the command. *)

Module RotationDemo.

Definition mode_row : json := jobj [("type", JStr "mode"); ("sessionId", JStr "eight"); ("mode", JStr "normal")]%string.
Definition echo_row : json :=
  jobj [("type", JStr "user"); ("uuid", JStr "u1"); ("parentUuid", JNull); ("sessionId", JStr "eight"); ("cwd", JStr "/work");
        ("message", jobj [("role", JStr "user"); ("content", JStr "<command-name>/clear</command-name>")])]%string.

#[export] Instance outside : Outside := {|
  out_str_debug s := s;
  out_from_slice line := Ok (if bool_decide (line = text_of "m") then mode_row else echo_row);
  parse_uuid s := if bool_decide (s = "eight"%string) then Some 8 else None;
  print_uuid n := pretty n;
  nfc_str s := s;
  canonicalize s := Some s;
|}.

Definition content : list N := text_of "m" ++ [LF] ++ text_of "c" ++ [LF].

#[export] Instance files : Files := {|
  locate_answer _ i := Ok (mkLocated ("/root/" +:+ pretty i +:+ ".jsonl") "/root");
  path_metadata _ _ := Ok (mkFileMetadata (mkFileIdentity 1 2) 4);
  file_metadata _ _ := Ok (mkFileMetadata (mkFileIdentity 1 2) 4);
  open_answer _ _ := Ok tt;
  seek_answer _ _ := Ok tt;
  file_bytes _ _ from := Ok (drop (N.to_nat from) content);
  dir_entries k _ := Ok (Ok ("/root/7.jsonl"%string, Ok true) :: if (k <? 10)%nat then [] else [Ok ("/root/8.jsonl"%string, Ok true)]);
  tail_poisoned _ := false;
  tail_instant k := N.of_nat k * 1000000;
|}.

Definition source : FileTranscriptSource := mkSource "/work" (TailState_new 7 0) [] CLEAR_REBIND_TIMEOUT.
#[export] Instance pty : Pty := GateDemo.terminal 32 "/clear".

(** The clear succeeds and remembers the id it left behind. *)
Example session_is_rebound :
  match clear_and_rebind 100 GateDemo.control source 7 5000 start with
  | (Done (Ok j, s), _) => (j, rr_abandoned <$> ft_rotations s) = (8, [7])
  | _ => False
  end.
Proof. vm_compute. reflexivity. Qed.

(** With a screen that never shows the command, the caller is told it was not sent. *)
Example unsent_clear_is_told :
  match @clear_and_rebind (GateDemo.terminal 32 "other") _ _ 100 GateDemo.control source 7 1060 start with
  | (Done (Err f, s), _) => marked CLEAR_NOT_SUBMITTED f = true /\ s = source
  | _ => False
  end.
Proof. vm_compute. split; reflexivity. Qed.

Lemma accepted_preamble_is_inert_witness : preamble_only "/work" 8 4 content (mkEmptiness 8 2 4 true 0).
Proof. apply (accepted_preamble_is_inert "/work" 8 4 content (mkEmptiness 8 2 4 true 0)). vm_compute. reflexivity. Defined.

Lemma demo_passes : forall k k', (k + 4000 <= k')%nat -> CLEAR_REBIND_TIMEOUT <= tail_instant k' - tail_instant k.
Proof. intros k k' Hk. unfold CLEAR_REBIND_TIMEOUT. cbn [tail_instant files]. lia. Qed.
Lemma demo_deadline : forall k ms, (4000 <= k)%nat -> unix_clock k = Some ms -> 5000 <= ms.
Proof. intros k ms Hk. cbn [unix_clock pty GateDemo.terminal]. intros [= <-]. lia. Qed.

Lemma clear_answers_witness :
  exists r s' w, clear_and_rebind 4001 GateDemo.control source 7 5000 start = (Done (r, s'), w).
Proof.
  exact (clear_answers CLEAR_REBIND_TIMEOUT 4000 demo_passes 4001 (le_n _) GateDemo.control source 7 5000 demo_deadline eq_refl).
Defined.

End RotationDemo.
