(* ===== verification/Worker.v ===== *)
(** * The turn worker and the recovery tasks

    [TurnWorker] of [crates/service/src/v1/actor.rs]: the task that types one prompt,
    watches the screen and the transcript, and reports to the session actor; and the two
    tasks the actor starts after a cancel and after a writable attachment. What the
    terminal, the transcript source, the tokio timers and the abort signal answer is the
    class [Driver]; the trace of a task records each answer it went on with and each
    update it sent. The variables of the monitoring loop are the record [Locals]. *)

From S2P Require Import Prelude Text Protocol Composer Transcript Engine Session Screen Backend Actor ActorOps Task TurnResults.

(** The branch of the biased [select!] that wins. *)
Inductive Race := DeadlineElapsed | SignalChanged | FutureReady.

Class Driver := {
  race : nat -> Race;
  signal_runs : nat -> bool;
  arm_answer : nat -> result TranscriptArm DriverFailure;
  submit_answer : nat -> result unit DriverFailure;
  screen_answer : nat -> result TerminalScreenObservation DriverFailure;
  poll_answer : nat -> TranscriptPosition -> result TranscriptBatch DriverFailure;
  evidence_answer : nat -> result TerminalEvidence DriverFailure;
  interrupt_answer : nat -> result InterruptRecovery DriverFailure;
  (** [None]: no answer in time. *)
  close_answer : nat -> option (result bool DriverFailure);
  (** Whether a call bounded by a timer beats it. *)
  in_time : nat -> bool;
  show_debug : string -> string;
}.

(** What a task does and learns. *)
Inductive WorkerEvent :=
| Armed (arm : TranscriptArm)
| Typing (prompt : list N) (deadline_unix_ms : TimestampMs)
| Typed
| Observed (screen : TerminalScreenObservation)
| Polled (from : TranscriptPosition) (batch : TranscriptBatch)
| Confirmed (from : TranscriptPosition) (batch : TranscriptBatch)
| Evidenced (evidence : TerminalEvidence)
| Slept
| AbortSeen
| Stamped (now : TimestampMs)
| Vetoed (held_ms : N)
| Interrupting
| ForceClosing
| Sent (update : WorkerUpdate).

(** ** The worker and its variables *)

Record TurnWorker := mkWorker {
  wk_session_id : SessionId;
  wk_cell : SessionCell;
  wk_generation_id : SessionGenerationId;
  wk_turn : TurnRequest;
  wk_submitted_at_ms : TimestampMs;
  wk_compatibility : CompatibilityReport;
  wk_dangerous_permission_bypass : bool;
  wk_default_turn_timeout_ms : N;
}.

(** What the screens so far have said. *)
Record Watch := mkWatch {
  wa_active_needs_input : option NeedsInputInfo;
  wa_needs_input_observed : bool;
  wa_consecutive_other_screens : N;
  wa_unrecognised_screen_since : option N;
}.

(** What has been published already. *)
Record Emitted := mkEmitted {
  em_messages : gset LogicalMessageKey;
  em_started_tools : gset string;
  em_completed_tools : gset string;
  em_warnings : gset string;
}.

Record Progress := mkProgress {
  pr_emitted_ack : bool;
  pr_prompt_acknowledged_at_ms : option TimestampMs;
  pr_terminal_candidate_at_ms : option TimestampMs;
  pr_resume_state : S.SessionState;
}.

Record Locals := mkLocals {
  lo_watch : Watch;
  lo_emitted : Emitted;
  lo_progress : Progress;
  lo_engine : TranscriptEngine;
  lo_position : TranscriptPosition;
  lo_arrival : ArrivalOrderObservations;
}.

Definition no_watch : Watch := mkWatch None false 0 None.
Definition no_emitted : Emitted := mkEmitted ∅ ∅ ∅ ∅.
Definition no_progress : Progress := mkProgress false None None S.AwaitingPromptAck.

(** The largest [Instant], in nanoseconds. *)
Definition INSTANT_MAX : N := 2 ^ 63 * 1000000000 - 1.

Definition unrecognised_screen_veto (shape : ScreenShape) (held_ms : N) : ErrorBody :=
  advising "Claude rendered something pmux has no rule for and stopped producing transcript rows. Remint the cell. If this screen is legitimate, it is a rendering pmux must be taught rather than one it should wait out."
    (with_details
       (jobj [("violation", JStr "unrecognised_screen_veto"); ("held_ms", diagnostic_u64 held_ms);
              ("veto_after_ms", diagnostic_u64 UNRECOGNISED_SCREEN_VETO_MS); ("screen", shape_json shape)]%string)
       (ErrorBody_new Protocol.NeedsInput
          "Claude held a screen pmux does not recognize and the transcript stopped advancing")).

Definition validate_position (previous : TranscriptPosition) (batch : TranscriptBatch) : result unit DriverFailure :=
  if negb (pos_generation (ba_position batch) =? pos_generation previous)
  then Err (DriverFailure_new TranscriptUnavailable "transcript file generation changed during an active turn")
  else if pos_offset (ba_position batch) <? pos_offset previous
  then Err (DriverFailure_new Protocol.SchemaDrift "transcript cursor moved backwards during an active turn")
  else Ok tt.

Abbreviation W := (T WorkerEvent).

Inductive TurnAwait (A : Type) := AwaitReady (x : A) | AwaitAborted | AwaitTimedOut.
Arguments AwaitReady {A} x.
Arguments AwaitAborted {A}.
Arguments AwaitTimedOut {A}.

Section Worker.
Context `{Host} `{Driver}.
Variable self : TurnWorker.

Definition turn_id : TurnId := tr_turn_id (wk_turn self).

(** ** Clocks and waiting *)

Definition TurnDeadline_new : W (result TurnDeadline ErrorBody) :=
  match checked_turn_deadline_unix_ms (tr_deadline_unix_ms (wk_turn self)) (wk_submitted_at_ms self)
          (wk_default_turn_timeout_ms self) with
  | Err error => tret (Err error)
  | Ok unix_ms =>
      let% now := read_clock clock in
      let remaining_ms := unix_ms - now in
      let% instant_now := read_instant instant in
      tret (Ok (mkDeadline unix_ms (Prelude.checked_add INSTANT_MAX instant_now (remaining_ms * 1000000))))
  end.

Definition deadline_expired (deadline : TurnDeadline) : W bool :=
  let% monotonic :=
    match dl_monotonic deadline with
    | Some d => let% t := read_instant instant in tret (d <=? t)
    | None => tret false
    end in
  if monotonic then tret true
  else let% t := read_clock clock in tret (dl_unix_ms deadline <=? t).

Definition await_turn_step {A} (deadline : TurnDeadline) (future : nat -> A) : W (TurnAwait A) :=
  let% late := deadline_expired deadline in
  if late then tret AwaitTimedOut
  else
    let% winner := ask race in
    match winner with
    | DeadlineElapsed => tret AwaitTimedOut
    | SignalChanged => tret AwaitAborted
    | FutureReady =>
        let% value := ask future in
        let% late := deadline_expired deadline in
        tret (if late then AwaitTimedOut else AwaitReady value)
    end.

(** ** Reports *)

Definition send (update : WorkerUpdate) : W unit := log (Sent update).

(** Whether the reap was proven in time. *)
Definition force_reap_terminal : W bool :=
  log ForceClosing ;%
  let% answer := ask close_answer in
  tret (match answer with Some (Ok true) => true | _ => false end).

Definition fail_turn {A} (error : ErrorBody) : W A :=
  let% process_reaped := force_reap_terminal in
  send (UFailed turn_id error process_reaped) ;% tend Returned.

Definition timeout_turn {A} : W A :=
  send (UFailed turn_id turn_timeout_error false) ;%
  let% _ := force_reap_terminal in
  tend Returned.

Definition fail_driver {A} (failure : DriverFailure) : W A :=
  if bool_decide (df_code failure = TurnTimeout) then timeout_turn else fail_turn (into_protocol failure).

(** A call of the driver and every way it ends the turn. *)
Definition await_driver {A} (deadline : TurnDeadline) (future : nat -> result A DriverFailure) : W A :=
  let% answer := await_turn_step deadline future in
  match answer with
  | AwaitReady (Ok x) => tret x
  | AwaitReady (Err failure) => fail_driver failure
  | AwaitAborted => log AbortSeen ;% tend Returned
  | AwaitTimedOut => timeout_turn
  end.

Definition sleep_poll_interval (deadline : TurnDeadline) : W unit :=
  let% answer := await_turn_step deadline (fun _ => tt) in
  match answer with
  | AwaitReady _ => log Slept
  | AwaitAborted => log AbortSeen ;% tend Returned
  | AwaitTimedOut => timeout_turn
  end.

Definition return_if_expired (deadline : TurnDeadline) : W unit :=
  let% late := deadline_expired deadline in
  if late then timeout_turn else tret tt.

(** [Err] ends the turn. *)
Definition ok_or_fail {A} (r : result A ErrorBody) : W A :=
  match r with Ok x => tret x | Err error => fail_turn error end.

(** A panic of the engine is a panic of the worker. *)
Definition engine_result {A} (r : result A Fault) : W A :=
  match r with
  | Ok x => tret x
  | Err (Engine.Failed e) => fail_turn (map_transcript_error show_debug e)
  | Err (Panicked _) => tend Panicking
  | Err OutOfFuel => tend Panicking
  end.

(** ** The screen *)

Definition report_needs_input (info : option NeedsInputInfo) (resume_state : S.SessionState) : W unit :=
  send (UNeedsInput turn_id info resume_state).

(** The veto on a screen no rule matched, and when it started. *)
Definition veto_unrecognised (since : option N) (shape : ScreenShape) : W (option N) :=
  let% now := read_clock clock in
  log (Stamped now) ;%
  let '(since', held_ms) :=
    match since with None => (now, 0) | Some since => (since, now - since) end in
  if UNRECOGNISED_SCREEN_VETO_MS <=? held_ms then log (Vetoed held_ms) ;% fail_turn (unrecognised_screen_veto shape held_ms)
  else tret (Some since').

(** A screen that is neither ready nor a modal clears a modal the second time. *)
Definition clear_stale_modal (w : Watch) (resume_state : S.SessionState) (since : option N) : W Watch :=
  match wa_active_needs_input w with
  | Some info =>
      let others := saturating_add 255 (wa_consecutive_other_screens w) 1 in
      if 2 <=? others
      then report_needs_input None resume_state ;% tret (mkWatch None (wa_needs_input_observed w) 0 since)
      else tret (mkWatch (Some info) (wa_needs_input_observed w) others since)
  | None => tret (mkWatch None (wa_needs_input_observed w) 0 since)
  end.

Definition watch_screen (w : Watch) (resume_state : S.SessionState) (screen : TerminalScreenObservation) : W Watch :=
  match screen with
  | ScreenNeedsInput info =>
      if match wa_active_needs_input w with Some active => needs_input_eqb active info | None => false end
      then tret (mkWatch (wa_active_needs_input w) true 0 None)
      else report_needs_input (Some info) resume_state ;% tret (mkWatch (Some info) true 0 None)
  | ScreenReady =>
      (match wa_active_needs_input w with
       | Some _ => report_needs_input None resume_state
       | None => tret tt
       end) ;% tret (mkWatch None (wa_needs_input_observed w) 0 None)
  | ScreenUnrecognised shape =>
      let% since := veto_unrecognised (wa_unrecognised_screen_since w) shape in
      clear_stale_modal w resume_state since
  | ScreenRecognised _ => clear_stale_modal w resume_state None
  end.

(** ** The transcript *)

(** The trace tells the read of a round from the confirming one, once its position is accepted. *)
Definition poll_transcript (confirming : bool) (deadline : TurnDeadline) (position : TranscriptPosition) :
    W TranscriptBatch :=
  let% batch := await_driver deadline (fun n => poll_answer n position) in
  match validate_position position batch with
  | Ok _ => log (if confirming then Confirmed position batch else Polled position batch) ;% tret batch
  | Err failure => fail_driver failure
  end.

Definition observe_read (o : ArrivalOrderObservations) (rows : list ParsedRow) : W ArrivalOrderObservations :=
  if ao_marker_observed o then
    if bool_decide (is_Some (ao_turn_duration_observed_at_ms o))
       && bool_decide (ao_post_turn_duration_row_observed_at_ms o = None)
       && existsb is_analysis_changing rows
    then let% now := read_clock clock in
         tret (mkArrival true (ao_turn_duration_observed_at_ms o) (publishable_instant now))
    else tret o
  else if existsb is_turn_duration_marker rows
  then let% now := read_clock clock in
       tret (mkArrival true (publishable_instant now) (ao_post_turn_duration_row_observed_at_ms o))
  else tret o.

Fixpoint ingest_rows (rows : list ParsedRow) (e : TranscriptEngine) : W TranscriptEngine :=
  match rows with
  | [] => tret e
  | row :: rows =>
      let '(r, e) := Engine.ingest nfc row e in
      let% _ := engine_result r in
      ingest_rows rows e
  end.

(** ** Events of the analysis *)

Definition send_event (payload : EventPayload) : W unit := send (UEvent turn_id payload).

Definition transcript_event (payload : EventPayload) : W (result unit ErrorBody) :=
  if validate_v1_serializable (WPayload payload) then send_event payload ;% tret (Ok tt)
  else tret (Err unserializable_transcript_payload_error).

Fixpoint emit_messages (ms : list LogicalAssistantMessage) (e : Emitted) : W (result Emitted ErrorBody) :=
  match ms with
  | [] => tret (Ok e)
  | m :: ms =>
      if (bool_decide (is_Some (Transcript.lm_stop_reason m)) || lm_is_api_error m)
         && negb (bool_decide (lm_key m ∈ em_messages e))
      then
        let%? _ := transcript_event (LogicalMessageEvent (map_logical_message m)) in
        emit_messages ms (mkEmitted ({[lm_key m]} ∪ em_messages e) (em_started_tools e) (em_completed_tools e)
                            (em_warnings e))
      else emit_messages ms e
  end.

Definition emit_tool (t : ToolRecord) (e : Emitted) : W (result Emitted ErrorBody) :=
  let%? e :=
    (if bool_decide (tr_tool_use_id t ∈ em_started_tools e) then tret (Ok e)
     else
       let%? _ := transcript_event (ToolStarted (tr_tool_use_id t) (tr_name t) (tr_input t)) in
       tret (Ok (mkEmitted (em_messages e) ({[tr_tool_use_id t]} ∪ em_started_tools e) (em_completed_tools e)
                   (em_warnings e)))) in
  match tr_result t with
  | Some r =>
      if bool_decide (tr_tool_use_id t ∈ em_completed_tools e) then tret (Ok e)
      else
        let%? _ := transcript_event (ToolCompleted (tr_tool_use_id t) (content r) (default false (is_error r))) in
        tret (Ok (mkEmitted (em_messages e) (em_started_tools e) ({[tr_tool_use_id t]} ∪ em_completed_tools e)
                    (em_warnings e)))
  | None => tret (Ok e)
  end.

Fixpoint emit_tools (ts : list ToolRecord) (e : Emitted) : W (result Emitted ErrorBody) :=
  match ts with
  | [] => tret (Ok e)
  | t :: ts => let%? e := emit_tool t e in emit_tools ts e
  end.

Fixpoint emit_warnings (ws : list EngineWarning) (e : Emitted) : W (result Emitted ErrorBody) :=
  match ws with
  | [] => tret (Ok e)
  | w :: ws =>
      let key := warning_debug show_debug w in
      if bool_decide (key ∈ em_warnings e) then emit_warnings ws e
      else
        let%? _ := transcript_event (Warning (map_warning show_debug w)) in
        emit_warnings ws (mkEmitted (em_messages e) (em_started_tools e) (em_completed_tools e)
                            ({[key]} ∪ em_warnings e))
  end.

Definition emit_analysis_deltas (a : TranscriptAnalysis) (e : Emitted) : W (result Emitted ErrorBody) :=
  let%? e := emit_messages (ta_messages a) e in
  let%? e := emit_tools (ta_tools a) e in
  emit_warnings (ta_warnings a) e.

(** Where the acknowledged row starts. *)
Definition acknowledged_offset (e : TranscriptEngine) (ack : PromptAcknowledgement) : N :=
  match List.find (fun s => bool_decide (row_uuid s = Some (pa_row_uuid ack))) (Engine.rows e) with
  | Some s => byte_offset (source (row s))
  | None => 0
  end.

Definition send_state (s : S.SessionState) : W unit := send (UState turn_id s).

Definition acknowledge (a : TranscriptAnalysis) (e : TranscriptEngine) (p : Progress) : W Progress :=
  match ta_acknowledgement a with
  | Some ack =>
      if pr_emitted_ack p then tret p
      else
        let% read := read_clock clock in
        let% now := ok_or_fail (checked_actor_timestamp read "prompt_acknowledged_at") in
        send_event (Session.PromptAcknowledged (pa_row_uuid ack) (pa_prompt_id ack) (acknowledged_offset e ack)) ;%
        send_state S.Running ;%
        tret (mkProgress true (Some now) (pr_terminal_candidate_at_ms p) S.Running)
  | None => tret p
  end.

Definition announce_candidate (final_turn : FinalTurn) (p : Progress) : W Progress :=
  match pr_terminal_candidate_at_ms p with
  | Some _ => tret p
  | None =>
      let% read := read_clock clock in
      let% now := ok_or_fail (checked_actor_timestamp read "terminal_candidate_at") in
      send_state S.TerminalCandidate ;%
      send_event (TerminalCandidateEvent (logical_key_string (ft_message_key final_turn))
                    (map_stop_reason <$> ft_stop_reason final_turn)) ;%
      send_state S.Draining ;%
      tret (mkProgress (pr_emitted_ack p) (pr_prompt_acknowledged_at_ms p) (Some now) S.Draining)
  end.

(** ** Completion *)

Definition full_drain_ms (a : TranscriptAnalysis) : N :=
  graduated_drain_ms (cr_transcript_drain_ms (wk_compatibility self)) (ta_turn_duration_seen a).

Definition offered_drain_ms (a : TranscriptAnalysis) : N :=
  minified_drain_ms (full_drain_ms a) (bool_decide (wk_cell self = Minified)).

Definition earned_drain_ms (a : TranscriptAnalysis) (timings : TurnTimings) (needs_input_observed : bool) : N :=
  minified_drain_ms (full_drain_ms a)
    (is_admissible (evaluate_minified_fast_path a timings needs_input_observed)).

(** After the last confirmation: the result, unless the turn owes more drain. *)
Definition commit (deadline : TurnDeadline) (l : Locals) (a : TranscriptAnalysis) (evidence : TerminalEvidence)
    (confirmation : TranscriptBatch) : W (Locals + unit) :=
  return_if_expired deadline ;%
  let% read := read_clock clock in
  let% completed_at_ms := ok_or_fail (checked_actor_timestamp read "turn_completed_at") in
  match build_turn_result show_debug
          (mkContext (wk_session_id self) (wk_generation_id self) turn_id (wk_submitted_at_ms self)
             (pr_prompt_acknowledged_at_ms (lo_progress l)) (pr_terminal_candidate_at_ms (lo_progress l))
             completed_at_ms (dr_stable_for_ms (ba_drain confirmation)) (wk_compatibility self)
             (wk_dangerous_permission_bypass self) evidence (lo_arrival l)) a with
  | None => tend Panicking
  | Some result =>
      if bool_decide (wk_cell self = Minified)
         && negb (satisfies (ba_drain confirmation)
                    (earned_drain_ms a (res_timings result) (wa_needs_input_observed (lo_watch l))))
      then tret (inl l)
      else if negb (validate_v1_serializable (WResult result)) then fail_turn unserializable_transcript_payload_error
      else
        return_if_expired deadline ;%
        send (UCompleted turn_id result deadline) ;%
        tend Returned
  end.

Definition confirm (deadline : TurnDeadline) (l : Locals) (a : TranscriptAnalysis) (evidence : TerminalEvidence) :
    W (Locals + unit) :=
  let% confirmation := poll_transcript true deadline (lo_position l) in
  let% arrival := observe_read (lo_arrival l) (ba_rows confirmation) in
  let% engine := ingest_rows (ba_rows confirmation) (lo_engine l) in
  let l' := mkLocals (lo_watch l) (lo_emitted l) (lo_progress l) engine (ba_position confirmation) arrival in
  if negb (bool_decide (ba_position confirmation = lo_position l))
     || negb (match ba_rows confirmation with [] => true | _ => false end)
     || negb (satisfies (ba_drain confirmation) (offered_drain_ms a))
  then tret (inl l')
  else commit deadline l' a evidence confirmation.

(** A terminal analysis: what is left before the turn is over. *)
Definition try_complete (deadline : TurnDeadline) (l : Locals) (a : TranscriptAnalysis) (batch : TranscriptBatch) :
    W (Locals + unit) :=
  match wa_active_needs_input (lo_watch l) with
  | Some _ => sleep_poll_interval deadline ;% tret (inl l)
  | None =>
      let% evidence := await_driver deadline evidence_answer in
      log (Evidenced evidence) ;%
      if te_ready_prompt evidence && te_quiet evidence && satisfies (ba_drain batch) (offered_drain_ms a)
      then confirm deadline l a evidence
      else sleep_poll_interval deadline ;% tret (inl l)
  end.

(** The rest of a round once the analysis is in hand. *)
Definition conclude (deadline : TurnDeadline) (l : Locals) (a : TranscriptAnalysis) (batch : TranscriptBatch) :
    W (Locals + unit) :=
  match ta_status a with
  | Terminal final_turn =>
      let% progress := announce_candidate final_turn (lo_progress l) in
      try_complete deadline
        (mkLocals (lo_watch l) (lo_emitted l) progress (lo_engine l) (lo_position l) (lo_arrival l)) a batch
  | _ => sleep_poll_interval deadline ;% tret (inl l)
  end.

(** A row restarts the clock of the veto. *)
Definition rows_restart_veto (w : Watch) (rows : list ParsedRow) : Watch :=
  match rows with
  | [] => w
  | _ => mkWatch (wa_active_needs_input w) (wa_needs_input_observed w) (wa_consecutive_other_screens w) None
  end.

Definition round (deadline : TurnDeadline) (l : Locals) : W (Locals + unit) :=
  return_if_expired deadline ;%
  let% runs := ask signal_runs in
  if negb runs then log AbortSeen ;% tend Returned
  else
    let% screen := await_driver deadline screen_answer in
    log (Observed screen) ;%
    let% watch := watch_screen (lo_watch l) (pr_resume_state (lo_progress l)) screen in
    let% batch := poll_transcript false deadline (lo_position l) in
    let watch := rows_restart_veto watch (ba_rows batch) in
    let% arrival := observe_read (lo_arrival l) (ba_rows batch) in
    let% engine := ingest_rows (ba_rows batch) (lo_engine l) in
    let% a := engine_result (analyze show_debug engine) in
    let% progress := acknowledge a engine (lo_progress l) in
    let% r := emit_analysis_deltas a (lo_emitted l) in
    let% emitted := ok_or_fail r in
    conclude deadline (mkLocals watch emitted progress engine (ba_position batch) arrival) a batch.

(** Arming and typing, up to the acknowledgement of the submission. *)
Definition submit_turn (deadline : TurnDeadline) : W Locals :=
  let% arm := await_driver deadline arm_answer in
  log (Armed arm) ;%
  let% engine := ingest_rows (arm_historical_rows arm) (TranscriptEngine_new Strict) in
  let '(armed, engine) := arm_turn nfc (tr_prompt (wk_turn self)) engine in
  let% _ := engine_result (map_err Engine.Failed armed) in
  return_if_expired deadline ;%
  log (Typing (tr_prompt (wk_turn self)) (dl_unix_ms deadline)) ;%
  let% _ := await_driver deadline submit_answer in
  log Typed ;%
  send_state S.AwaitingPromptAck ;%
  tret (mkLocals no_watch no_emitted no_progress engine (arm_position arm) ArrivalOrderObservations_default).

Definition run_worker (rounds : nat) : W unit :=
  let% r := TurnDeadline_new in
  let% deadline := ok_or_fail r in
  let% runs := ask signal_runs in
  if negb runs then log AbortSeen ;% tend Returned
  else
    let% l := submit_turn deadline in
    iterate rounds (round deadline) l.

End Worker.

(** ** After a cancel and after a writable attachment

    A call under a tokio timer is answered in time or not. *)

Section Recovery.
Context `{Host} `{Driver}.

Definition bounded {A} (future : nat -> A) : W (option A) :=
  let% ok := ask in_time in
  if ok then let% x := ask future in tret (Some x) else tret None.

(** One round of the wait for a still transcript, [inr] its verdict. *)
Definition stabilize_round (required_stable_ms deadline : N) (position : TranscriptPosition) :
    W (TranscriptPosition + bool) :=
  let% now := read_instant instant in
  if deadline <=? now then tret (inr false)
  else
    let% answer := bounded (fun n => poll_answer n position) in
    match answer with
    | Some (Ok batch) =>
        log (Polled position batch) ;%
        match validate_position position batch with
        | Err _ => tret (inr false)
        | Ok _ =>
            let unchanged :=
              bool_decide (ba_position batch = position) && match ba_rows batch with [] => true | _ => false end in
            if unchanged && satisfies (ba_drain batch) required_stable_ms then tret (inr true)
            else
              let% now := read_instant instant in
              if deadline <=? now then tret (inr false)
              else log Slept ;% tret (inl (ba_position batch))
        end
    | _ => tret (inr false)
    end.

Definition stabilize_cancelled_transcript (rounds : nat) (required_stable_ms deadline : N) : W bool :=
  let% answer := bounded arm_answer in
  match answer with
  | Some (Ok arm) =>
      log (Armed arm) ;%
      iterate rounds (stabilize_round required_stable_ms deadline) (arm_position arm)
  | _ => tret false
  end.

(** The task of [spawn_cancel_recovery]; times in nanoseconds. *)
Definition cancel_recovery (rounds : nat) (turn : TurnId) (recovery_timeout transcript_drain_ms : N) : W unit :=
  log Interrupting ;%
  let% interrupt := bounded interrupt_answer in
  match interrupt with
  | Some (Err failure) =>
      let% process_reaped := force_reap_terminal in
      send (UFailed turn (into_protocol failure) process_reaped)
  | _ =>
      let% recovered :=
        match interrupt with
        | Some (Ok RecoveredToReady) =>
            let% now := read_instant instant in
            stabilize_cancelled_transcript rounds transcript_drain_ms
              (now + recovery_timeout + transcript_drain_ms * 1000000)
        | _ => tret false
        end in
      let% completed_at_ms := read_clock clock in
      if recovered then send (UCancelled turn CancelDone true completed_at_ms false)
      else
        let% process_reaped := force_reap_terminal in
        send (UCancelled turn CancelRecoveryFailed false completed_at_ms process_reaped)
  end.

Definition unchanged_from (cursor : TranscriptPosition) (batch : TranscriptBatch) : bool :=
  bool_decide (ba_position batch = cursor) && match ba_rows batch with [] => true | _ => false end.

(** A call inside the timed block: no answer ends the block, a failure is its result. *)
Definition reconcile_call {A} (future : nat -> result A DriverFailure)
    (k : A -> W (unit + option (result AttachReconciliation DriverFailure))) :
    W (unit + option (result AttachReconciliation DriverFailure)) :=
  let% answer := bounded future in
  match answer with
  | None => tret (inr None)
  | Some (Err failure) => tret (inr (Some (Err failure)))
  | Some (Ok x) => k x
  end.

Definition attach_failure (message : string) : result AttachReconciliation DriverFailure :=
  Err (DriverFailure_new RecoveryFailed message).

Definition reconcile_round (required_drain_ms : N) (cursor : TranscriptPosition) (_ : unit) :
    W (unit + option (result AttachReconciliation DriverFailure)) :=
  reconcile_call (fun n => poll_answer n cursor) (fun batch =>
    log (Polled cursor batch) ;%
    if negb (unchanged_from cursor batch)
    then tret (inr (Some (attach_failure "transcript changed after writable-attach reconciliation was armed")))
    else
      let% verdict :=
        if satisfies (ba_drain batch) required_drain_ms then
          reconcile_call evidence_answer (fun evidence =>
            log (Evidenced evidence) ;%
            if te_ready_prompt evidence && te_quiet evidence then
              reconcile_call (fun n => poll_answer n cursor) (fun final_batch =>
                log (Polled cursor final_batch) ;%
                tret (inr (Some
                  (if unchanged_from cursor final_batch && satisfies (ba_drain final_batch) required_drain_ms
                   then Ok AttachReady
                   else attach_failure "transcript changed during writable-attach terminal reconciliation"))))
            else
              reconcile_call screen_answer (fun screen =>
                log (Observed screen) ;%
                match screen with
                | ScreenNeedsInput info => tret (inr (Some (Ok (AttachNeedsInput info))))
                | _ => tret (inl tt)
                end))
        else tret (inl tt) in
      match verdict with
      | inr r => tret (inr r)
      | inl _ => log Slept ;% tret (inl tt)
      end).

(** The task of [spawn_attach_reconciliation]. *)
Definition attach_reconciliation (rounds : nat) (attach_id required_drain_ms : N) : W unit :=
  let% armed := bounded arm_answer in
  let% reconciliation :=
    match armed with
    | None => tret None
    | Some (Err failure) => tret (Some (Err failure))
    | Some (Ok arm) =>
        log (Armed arm) ;% iterate rounds (reconcile_round required_drain_ms (arm_position arm)) tt
    end in
  let% outcome :=
    match reconciliation with
    | Some (Ok outcome) => tret (Ok outcome)
    | Some (Err failure) => tret (Err (into_protocol failure))
    | None =>
        let% screen := ask screen_answer in
        tret (match screen with
              | Ok (ScreenNeedsInput info) => Ok (AttachNeedsInput info)
              | _ => Err (ErrorBody_new RecoveryFailed
                       "writable attachment did not reconcile to ready+quiet with an exact drained transcript cursor")
              end)
    end in
  send (UAttachReconciled attach_id outcome).

End Recovery.
