(* ===== verification/WorkerProofs.v ===== *)
(** * What a turn worker does

    The trace of a worker and the invariant of its monitoring loop. [orderly] is what
    holds of the trace at every moment before the worker ends, [tracks] relates the
    variables of the loop to it, and the lemmas are the specifications of the worker's
    functions: what they append to the trace when they go on, and that the trace was
    orderly up to the events a worker ends with otherwise. *)

From S2P Require Import Prelude Text Protocol Composer Transcript Engine EngineIngest EnginePath EngineTurn EngineVerdict.
From S2P Require Import Session Screen Backend Actor ActorOps ActorProofs ActorTurns ActorSteps Task TurnResults Worker.

(** ** Reading a trace *)

Definition sent_of (e : WorkerEvent) : option WorkerUpdate :=
  match e with Sent u => Some u | _ => None end.
Definition state_of (e : WorkerEvent) : option S.SessionState :=
  match e with Sent (UState _ s) => Some s | _ => None end.
Definition started_of (e : WorkerEvent) : option string :=
  match e with Sent (UEvent _ (ToolStarted i _ _)) => Some i | _ => None end.
Definition completed_of (e : WorkerEvent) : option string :=
  match e with Sent (UEvent _ (ToolCompleted i _ _)) => Some i | _ => None end.

(** The calls of the transcript engine an event causes, for the prompt of the turn. *)
Definition calls_of (prompt : list N) (e : WorkerEvent) : list engine_call :=
  match e with
  | Armed arm => (Ingest <$> arm_historical_rows arm) ++ [Arm prompt]
  | Polled _ batch | Confirmed _ batch => Ingest <$> ba_rows batch
  | _ => []
  end.
Definition engine_calls (prompt : list N) (t : list WorkerEvent) : list engine_call :=
  t ≫= calls_of prompt.

(** Where the last read of the transcript ended. *)
Definition position_after (p : option TranscriptPosition) (e : WorkerEvent) : option TranscriptPosition :=
  match e with
  | Armed arm => Some (arm_position arm)
  | Polled _ batch | Confirmed _ batch => Some (ba_position batch)
  | _ => p
  end.
Definition position_of (t : list WorkerEvent) : option TranscriptPosition := foldl position_after None t.

(** Where a read of the transcript began. *)
Definition read_from (e : WorkerEvent) : option TranscriptPosition :=
  match e with Polled from _ | Confirmed from _ => Some from | _ => None end.

(** A read of the file the reads before it were of. *)
Definition keeps_generation (e : WorkerEvent) : Prop :=
  match e with
  | Polled from batch | Confirmed from batch => pos_generation (ba_position batch) = pos_generation from
  | _ => True
  end.

(** Nothing but screens without a rule and rounds without a row. *)
Definition still (e : WorkerEvent) : Prop :=
  match e with
  | Observed (ScreenUnrecognised _) => True
  | Observed _ => False
  | Polled _ batch => ba_rows batch = []
  | _ => True
  end.

(** The trace ends in a stretch without a rule for the screen and without a row, that
    began at [since]. *)
Definition still_since (t : list WorkerEvent) (since : TimestampMs) : Prop :=
  exists pre shape mid,
    t = pre ++ [Observed (ScreenUnrecognised shape); Stamped since] ++ mid /\ Forall still mid.

(** The stretch has lasted for [held] when the last screen is read. *)
Definition stood_still (t : list WorkerEvent) (held : N) : Prop :=
  exists since now shape t0,
    t = t0 ++ [Observed (ScreenUnrecognised shape); Stamped now] /\ still_since t0 since /\
    held = now - since /\ UNRECOGNISED_SCREEN_VETO_MS <= held.

(** The screens read, the latest first. *)
Definition screen_of (e : WorkerEvent) : option TerminalScreenObservation :=
  match e with Observed screen => Some screen | _ => None end.
Definition screens (t : list WorkerEvent) : list TerminalScreenObservation := reverse (omap screen_of t).
Definition is_modal (screen : TerminalScreenObservation) : bool :=
  match screen with ScreenNeedsInput _ => true | _ => false end.

(** How many screens ago a question was drawn that still stands: a ready screen or two
    others in a row take it away. *)
Definition question_stands (seen : list TerminalScreenObservation) : option N :=
  match seen with
  | ScreenNeedsInput _ :: _ => Some 0
  | (ScreenRecognised _ | ScreenUnrecognised _) :: ScreenNeedsInput _ :: _ => Some 1
  | _ => None
  end.

(** The rows of every read since the prompt was armed, in order. *)
Definition read_of (e : WorkerEvent) : option (list ParsedRow) :=
  match e with Polled _ batch | Confirmed _ batch => Some (ba_rows batch) | _ => None end.
Definition reads (t : list WorkerEvent) : list (list ParsedRow) := omap read_of t.

(** A row that changes the analysis came in a read after the one with the turn-duration
    marker. *)
Fixpoint late_row (rs : list (list ParsedRow)) : bool :=
  match rs with
  | [] => false
  | rows :: rs => if existsb is_turn_duration_marker rows then existsb (existsb is_analysis_changing) rs else late_row rs
  end.

Definition LIFE : list S.SessionState := [S.AwaitingPromptAck; S.Running; S.TerminalCandidate; S.Draining].

Section Proofs.
Context `{Host} `{Driver}.
Variable self : TurnWorker.
Abbreviation tid := (turn_id self).
Abbreviation prompt := (tr_prompt (wk_turn self)).

(** An update that leaves the turn open, as the actor expects it. *)
Definition open_update (u : WorkerUpdate) : Prop :=
  match u with
  | UState t s => t = tid /\ worker_state s = true
  | UEvent t payload => t = tid /\ is_state_change payload = false
  | UNeedsInput t _ _ => t = tid
  | _ => False
  end.
Definition open_event (e : WorkerEvent) : Prop :=
  match e with Sent u => open_update u | _ => True end.

Record orderly (t : list WorkerEvent) : Prop := {
  o_open : Forall open_event t;
  o_states : omap state_of t `prefix_of` LIFE;
  o_started : NoDup (omap started_of t);
  o_completed : NoDup (omap completed_of t);
  o_paired : forall i, i ∈ omap completed_of t -> i ∈ omap started_of t;
  o_vetoed : forall n held, t !! n = Some (Vetoed held) -> stood_still (take n t) held;
  o_chained : forall n e from, t !! n = Some e -> read_from e = Some from -> position_of (take n t) = Some from;
  o_armed : forall n arm, t !! n = Some (Armed arm) -> n = 0%nat;
  o_generations : Forall keeps_generation t;
}.

(** The states a progress has reported. *)
Definition states_so_far (p : Progress) : list S.SessionState :=
  [S.AwaitingPromptAck] ++ (if pr_emitted_ack p then [S.Running] else [])
  ++ (if bool_decide (is_Some (pr_terminal_candidate_at_ms p)) then [S.TerminalCandidate; S.Draining] else []).

(** What has been published, how far the turn is, the engine and the cursor. *)
Record base (em : Emitted) (p : Progress) (e : TranscriptEngine) (pos : TranscriptPosition)
    (t : list WorkerEvent) : Prop := {
  b_orderly : orderly t;
  b_engine : e = calls nfc (engine_calls prompt t);
  b_position : position_of t = Some pos;
  b_states : omap state_of t = states_so_far p;
  b_candidate : is_Some (pr_terminal_candidate_at_ms p) -> pr_emitted_ack p = true;
  b_started : forall i, i ∈ omap started_of t <-> i ∈ em_started_tools em;
  b_completed : forall i, i ∈ omap completed_of t <-> i ∈ em_completed_tools em;
}.

Definition since_ok (wa : Watch) (t : list WorkerEvent) : Prop :=
  forall since, wa_unrecognised_screen_since wa = Some since -> still_since t since.

(** What the screens so far make of the variables that watch them. *)
Record watched (wa : Watch) (seen : list TerminalScreenObservation) : Prop := {
  w_observed : wa_needs_input_observed wa = existsb is_modal seen;
  w_active : is_Some (wa_active_needs_input wa) <-> is_Some (question_stands seen);
  w_others : wa_consecutive_other_screens wa = default 0 (question_stands seen);
}.

(** What the reads so far make of the arrival order, on clocks a result can carry. *)
Record arrived (o : ArrivalOrderObservations) (rs : list (list ParsedRow)) : Prop := {
  a_marker : ao_marker_observed o = existsb (existsb is_turn_duration_marker) rs;
  a_seen : (forall n, clock n <= MAX_SAFE_JSON_INTEGER) ->
    is_Some (ao_turn_duration_observed_at_ms o) <-> ao_marker_observed o = true;
  a_late : (forall n, clock n <= MAX_SAFE_JSON_INTEGER) ->
    is_Some (ao_post_turn_duration_row_observed_at_ms o) <-> late_row rs = true;
}.

(** The screens and the arrival order in step with the trace. *)
Definition follows (wa : Watch) (o : ArrivalOrderObservations) (t : list WorkerEvent) : Prop :=
  since_ok wa t /\ watched wa (screens t) /\ arrived o (reads t).

Definition tracks (l : Locals) (t : list WorkerEvent) : Prop :=
  base (lo_emitted l) (lo_progress l) (lo_engine l) (lo_position l) t /\ follows (lo_watch l) (lo_arrival l) t.

(** ** What a worker ends with *)

Inductive dying : list WorkerEvent -> Prop :=
| dying_aborted : dying [AbortSeen]
| dying_failed error reaped : dying [ForceClosing; Sent (UFailed tid error reaped)]
| dying_late : dying [Sent (UFailed tid turn_timeout_error false); ForceClosing].

(** The ten conditions of the shorter wait of a minified cell. *)
Definition plain_turn (a : TranscriptAnalysis) (modal : bool) (late : option TimestampMs) : Prop :=
  ta_tools a = [] /\
  (forall m b, m ∈ ta_messages a -> b ∈ Transcript.lm_blocks m -> tool_use_name b = None) /\
  ta_sidechain_usage a = UsageTotals_default /\ ta_api_error_retries_seen a = 0 /\ ta_warnings a = [] /\
  ta_stop_hook_summary_seen a = false /\ ta_turn_duration_seen a = true /\
  (exists f, ta_status a = Terminal f /\ ft_stop_reason f = Some EndTurn) /\ modal = false /\ late = None.

(** What the measured profile asks for, less behind the turn-duration marker. *)
Definition measured_drain_ms (a : TranscriptAnalysis) : N :=
  let configured := cr_transcript_drain_ms (wk_compatibility self) in
  if ta_turn_duration_seen a then configured `min` TURN_DURATION_DRAIN_FLOOR_MS else configured.

(** The end of the file was reached, no line is half written, and the file has not moved
    for what the turn owes. *)
Definition drained (a : TranscriptAnalysis) (modal : bool) (late : option TimestampMs) (d : TranscriptDrainEvidence) : Prop :=
  dr_at_eof d = true /\ dr_has_partial_line d = false /\
  (measured_drain_ms a <= dr_stable_for_ms d \/
   wk_cell self = Minified /\ plain_turn a modal late /\ MINIFIED_FAST_PATH_DRAIN_FLOOR_MS <= dr_stable_for_ms d).

(** Everything a completed turn rests on. [mid] is what was reported between the read
    that was analysed and the evidence; only the instants of the context are the
    worker's own. *)
Definition committed (t : list WorkerEvent) (result : TurnResult) : Prop :=
  exists t0 from batch mid evidence confirmation a acknowledged candidate completed arrival final_turn,
    t = t0 ++ [Polled from batch] ++ mid ++ [Evidenced evidence; Confirmed (ba_position batch) confirmation] /\
    Forall (fun e => is_Some (sent_of e)) mid /\
    ba_position confirmation = ba_position batch /\ ba_rows confirmation = [] /\
    te_ready_prompt evidence = true /\ te_quiet evidence = true /\
    analyze show_debug (calls nfc (engine_calls prompt t)) = Ok a /\ ta_status a = Terminal final_turn /\
    is_Some (ta_acknowledgement a) /\
    build_turn_result show_debug
      (mkContext (wk_session_id self) (wk_generation_id self) tid (wk_submitted_at_ms self) acknowledged candidate
         completed (dr_stable_for_ms (ba_drain confirmation)) (wk_compatibility self)
         (wk_dangerous_permission_bypass self) evidence arrival) a = Some result /\
    question_stands (screens t) = None /\
    ((forall n, clock n <= MAX_SAFE_JSON_INTEGER) ->
       is_Some (tt_post_turn_duration_row_observed_at_ms (res_timings result)) <-> late_row (reads t) = true) /\
    satisfies (ba_drain batch) (offered_drain_ms self a) = true /\
    drained a (existsb is_modal (screens t)) (tt_post_turn_duration_row_observed_at_ms (res_timings result))
      (ba_drain confirmation).

(** ** Traces, one event at a time *)

Lemma omap_snoc {A B} (f : A -> option B) l x :
  omap f (l ++ [x]) = omap f l ++ match f x with Some y => [y] | None => [] end.
Proof. rewrite omap_app. simpl. by destruct (f x). Qed.

Lemma engine_calls_snoc t e : engine_calls prompt (t ++ [e]) = engine_calls prompt t ++ calls_of prompt e.
Proof. unfold engine_calls. rewrite bind_app. simpl. by rewrite app_nil_r. Qed.

Lemma position_of_snoc t e : position_of (t ++ [e]) = position_after (position_of t) e.
Proof. unfold position_of. by rewrite foldl_app. Qed.

Lemma calls_app l l' : calls nfc (l ++ l') = foldl (fun e c => call nfc c e) (calls nfc l) l'.
Proof. unfold calls. by rewrite foldl_app. Qed.

(** An event that says nothing of what the trace is read for. *)
Definition plain (e : WorkerEvent) : Prop :=
  open_event e /\ state_of e = None /\ started_of e = None /\ completed_of e = None /\
  (forall held, e <> Vetoed held) /\ read_from e = None /\ (forall arm, e <> Armed arm).

Lemma prefix_lookups {A} (P : A -> list A -> Prop) (t : list A) e :
  (forall n x, t !! n = Some x -> P x (take n t)) -> P e t ->
  forall n x, (t ++ [e]) !! n = Some x -> P x (take n (t ++ [e])).
Proof.
  intros Ht He n x Hn. apply lookup_snoc_inv in Hn as [Hn|[-> ->]].
  - rewrite take_app_le by (apply lookup_lt_Some in Hn; lia). by apply Ht.
  - by rewrite take_app_length.
Qed.

(** The general step: what each part asks of the new event. *)
Lemma orderly_snoc t e :
  orderly t -> open_event e ->
  (omap state_of t ++ match state_of e with Some s => [s] | None => [] end) `prefix_of` LIFE ->
  (forall i, started_of e = Some i -> i ∉ omap started_of t) ->
  (forall i, completed_of e = Some i -> (i ∉ omap completed_of t) /\ i ∈ omap started_of t) ->
  (forall held, e = Vetoed held -> stood_still t held) ->
  (forall from, read_from e = Some from -> position_of t = Some from) ->
  (forall arm, e = Armed arm -> t = []) -> keeps_generation e ->
  orderly (t ++ [e]).
Proof.
  intros [] Hopen Hst Hs Hc Hv Hp Ha Hg. split.
  - by apply Forall_app_2; [|apply Forall_singleton].
  - by rewrite omap_snoc.
  - rewrite omap_snoc. destruct (started_of e) as [i|]; [|by rewrite app_nil_r].
    apply NoDup_app. split_and!; [done| |apply NoDup_singleton]. intros j Hj ->%list_elem_of_singleton.
    by apply (Hs i).
  - rewrite omap_snoc. destruct (completed_of e) as [i|]; [|by rewrite app_nil_r].
    apply NoDup_app. split_and!; [done| |apply NoDup_singleton]. intros j Hj ->%list_elem_of_singleton.
    by apply (Hc i).
  - intros i. rewrite !omap_snoc, !elem_of_app. intros [Hi|Hi]; [left; by apply o_paired0|].
    destruct (completed_of e) as [j|]; [|by apply not_elem_of_nil in Hi].
    apply list_elem_of_singleton in Hi as ->. left. by apply Hc.
  - intros n held Hn.
    refine (prefix_lookups (fun x pre => forall held, x = Vetoed held -> stood_still pre held) t e _ _ n _ Hn held eq_refl);
      [by intros m x Hm h ->; eapply o_vetoed0|done].
  - intros n x from Hn.
    refine (prefix_lookups (fun x pre => forall from, read_from x = Some from -> position_of pre = Some from)
              t e _ _ n x Hn from);
      [by intros m y Hm f; eapply o_chained0|done].
  - intros n arm Hn. apply lookup_snoc_inv in Hn as [Hn|[-> E]]; [by eapply o_armed0|]. by rewrite (Ha arm (eq_sym E)).
  - by apply Forall_app_2; [|apply Forall_singleton].
Qed.

Lemma orderly_plain t e : orderly t -> plain e -> orderly (t ++ [e]).
Proof.
  intros Ht (Ho & Hst & Hs & Hc & Hv & Hp & Ha). apply orderly_snoc; try done.
  - rewrite Hst, app_nil_r. apply Ht.
  - intros i. by rewrite Hs.
  - intros i. by rewrite Hc.
  - intros held He. by destruct (Hv held).
  - intros f. by rewrite Hp.
  - intros arm E. by destruct (Ha arm).
  - by destruct e.
Qed.

(** What a plain event leaves as it was. *)
Lemma plain_keeps t e :
  plain e -> omap state_of (t ++ [e]) = omap state_of t /\ omap started_of (t ++ [e]) = omap started_of t /\
    omap completed_of (t ++ [e]) = omap completed_of t.
Proof. intros (_ & Hst & Hs & Hc & _). by rewrite !omap_snoc, Hst, Hs, Hc, !app_nil_r. Qed.

Lemma orderly_state t s :
  orderly t -> (omap state_of t ++ [s]) `prefix_of` LIFE -> orderly (t ++ [Sent (UState tid s)]).
Proof.
  intros Ht Hs. apply orderly_snoc; try done. split; [done|].
  assert (Hin : s ∈ LIFE).
  { destruct Hs as [k Hk]. rewrite Hk, !elem_of_app, list_elem_of_singleton. auto. }
  unfold LIFE in Hin. rewrite !elem_of_cons in Hin.
  destruct Hin as [->|[->|[->|[->|Hn]]]]; try done. by apply not_elem_of_nil in Hn.
Qed.

Lemma orderly_started t i name input :
  orderly t -> i ∉ omap started_of t -> orderly (t ++ [Sent (UEvent tid (ToolStarted i name input))]).
Proof.
  intros Ht Hi. apply orderly_snoc; try done.
  - simpl. rewrite app_nil_r. apply Ht.
  - by intros j [= <-].
Qed.

Lemma orderly_completed t i output failed :
  orderly t -> i ∉ omap completed_of t -> i ∈ omap started_of t ->
  orderly (t ++ [Sent (UEvent tid (ToolCompleted i output failed))]).
Proof.
  intros Ht Hi Hs. apply orderly_snoc; try done.
  - simpl. rewrite app_nil_r. apply Ht.
  - by intros j [= <-].
Qed.

Lemma orderly_read t (e : WorkerEvent) from batch :
  orderly t -> position_of t = Some from -> pos_generation (ba_position batch) = pos_generation from ->
  e = Polled from batch \/ e = Confirmed from batch -> orderly (t ++ [e]).
Proof.
  intros Ht Hp Hg He. apply orderly_snoc; try by destruct He as [-> | ->].
  - assert (state_of e = None) as -> by by destruct He as [-> | ->]. rewrite app_nil_r. apply Ht.
  - destruct He as [-> | ->]; by intros f [= <-].
Qed.

Lemma orderly_vetoed t held : orderly t -> stood_still t held -> orderly (t ++ [Vetoed held]).
Proof.
  intros Ht Hs. apply orderly_snoc; try done.
  - simpl. rewrite app_nil_r. apply Ht.
  - by intros h [= <-].
Qed.

Lemma still_since_snoc t since e : still_since t since -> still e -> still_since (t ++ [e]) since.
Proof.
  intros (pre & shape & mid & -> & Hmid) He. exists pre, shape, (mid ++ [e]).
  rewrite <-!app_assoc. split; [done|]. by apply Forall_app_2; [|apply Forall_singleton].
Qed.

(** A plain event changes nothing the variables record. *)
Lemma base_plain em p en pos t e :
  base em p en pos t -> plain e -> calls_of prompt e = [] -> position_after (position_of t) e = position_of t ->
  base em p en pos (t ++ [e]).
Proof.
  intros [] Hp Hc Hpos. destruct (plain_keeps t e Hp) as (E1 & E2 & E3).
  split; [by apply orderly_plain|by rewrite engine_calls_snoc, Hc, app_nil_r|by rewrite position_of_snoc, Hpos
         |by rewrite E1|done|by rewrite E2|by rewrite E3].
Qed.

Lemma since_ok_snoc wa t e : since_ok wa t -> still e -> since_ok wa (t ++ [e]).
Proof. intros Hs He since E. by apply still_since_snoc; [apply Hs|]. Qed.

Lemma since_ok_app wa t l : since_ok wa t -> Forall still l -> since_ok wa (t ++ l).
Proof.
  intros Hs Hl. revert t Hs. induction Hl as [|e l He Hl IH]; intros t Hs; [by rewrite app_nil_r|].
  rewrite cons_middle, app_assoc. by apply IH, since_ok_snoc.
Qed.

Lemma since_ok_none wa t : wa_unrecognised_screen_since wa = None -> since_ok wa t.
Proof. intros E since. by rewrite E. Qed.

(** *** The screens and the arrival order *)

Lemma screens_of_app t l : screens (t ++ l) = screens l ++ screens t.
Proof. unfold screens. by rewrite omap_app, reverse_app. Qed.

Lemma reads_of_app t l : reads (t ++ l) = reads t ++ reads l.
Proof. apply omap_app. Qed.

(** An event that is no screen and no read, and does not end a stretch. *)
Definition inert (e : WorkerEvent) : Prop := still e /\ screen_of e = None /\ read_of e = None.

Lemma inert_app l : Forall inert l -> Forall still l /\ screens l = [] /\ reads l = [].
Proof.
  induction 1 as [|e l (Hs & Ho & Hr) Hl (IHs & IHo & IHr)]; [done|].
  split; [by constructor|]. change (e :: l) with ([e] ++ l). rewrite screens_of_app, reads_of_app, IHo, IHr.
  unfold screens, reads. simpl. by rewrite Ho, Hr.
Qed.

Lemma follows_app wa o t l : follows wa o t -> Forall inert l -> follows wa o (t ++ l).
Proof.
  intros (Hs & Hw & Ha) (Hl & Eo & Er)%inert_app. split; [by apply since_ok_app|].
  by rewrite screens_of_app, reads_of_app, Eo, Er, app_nil_r.
Qed.

Lemma late_row_snoc rs rows :
  late_row (rs ++ [rows]) = late_row rs || existsb (existsb is_turn_duration_marker) rs && existsb is_analysis_changing rows.
Proof.
  induction rs as [|r rs IH]; simpl; [by destruct (existsb _ rows)|].
  destruct (existsb is_turn_duration_marker r); simpl; [|done]. rewrite existsb_app. simpl. by rewrite orb_false_r.
Qed.

(** A question on the screen stays until it is answered or gone. *)
Lemma watched_modal wa seen info active :
  watched wa seen -> watched (mkWatch (Some active) true 0 None) (ScreenNeedsInput info :: seen).
Proof. by split. Qed.

Lemma watched_ready wa seen :
  watched wa seen -> watched (mkWatch None (wa_needs_input_observed wa) 0 None) (ScreenReady :: seen).
Proof. intros []. split; [done| |done]. by split; intros [? [=]]. Qed.

Lemma watched_since wa seen since :
  watched wa seen ->
  watched (mkWatch (wa_active_needs_input wa) (wa_needs_input_observed wa) (wa_consecutive_other_screens wa) since) seen.
Proof. by intros []. Qed.

(** The part of [clear_stale_modal] the screens decide. *)
Lemma watched_other wa seen screen since :
  watched wa seen -> screen <> ScreenReady -> is_modal screen = false ->
  let others := saturating_add 255 (wa_consecutive_other_screens wa) 1 in
  watched
    (match wa_active_needs_input wa with
     | Some info =>
         if 2 <=? others then mkWatch None (wa_needs_input_observed wa) 0 since
         else mkWatch (Some info) (wa_needs_input_observed wa) others since
     | None => mkWatch None (wa_needs_input_observed wa) 0 since
     end) (screen :: seen).
Proof.
  intros [Hobs Hact Hoth] Hr Hm. cbn zeta.
  assert (Hq : question_stands (screen :: seen) = if bool_decide (question_stands seen = Some 0) then Some 1 else None).
  { destruct screen; [done|done|..]; destruct seen as [|[] [|[] ?]]; done. }
  assert (Hob : wa_needs_input_observed wa = existsb is_modal (screen :: seen)) by (simpl; by rewrite Hm).
  rewrite Hoth. destruct (wa_active_needs_input wa) as [info|].
  - destruct (proj1 Hact ltac:(by eexists)) as [k Hk]. rewrite Hk in *. simpl.
    assert (k = 0 \/ k = 1) as [-> | ->].
    { destruct seen as [|[] [|[] ?]]; simpl in Hk; simplify_eq; auto. }
    + split; [done|rewrite Hq; split; by eexists|by rewrite Hq].
    + split; [done|rewrite Hq; split; by intros [? [=]]|by rewrite Hq].
  - assert (Hn : question_stands seen = None).
    { destruct (question_stands seen); [|done]. by destruct (proj2 Hact ltac:(by eexists)) as [? [=]]. }
    rewrite Hn in Hq. split; [done|rewrite Hq; split; by intros [? [=]]|by rewrite Hq].
Qed.

(** ** Specifications

    [X] is what has to hold when the worker ends; it does so with the trace orderly up
    to the events the worker dies with, or to the completion. *)

Variable X : Exit -> World WorkerEvent -> Prop.
Hypothesis X_die : forall w t l, orderly t -> dying l -> tk_trace w = t ++ l -> X Returned w.
Hypothesis X_commit : forall w t result deadline,
  orderly t -> committed t result -> tk_trace w = t ++ [Sent (UCompleted tid result deadline)] -> X Returned w.
Hypothesis X_panic : forall w, orderly (tk_trace w) ->
  U64_MAX < N.of_nat (length (engine_calls prompt (tk_trace w))) -> X Panicking w.

(** From [w] to [w'] the trace grew by [l]; the clock is never unread. *)
Definition grew (w : World WorkerEvent) (l : list WorkerEvent) (w' : World WorkerEvent) : Prop :=
  tk_trace w' = tk_trace w ++ l /\ (tk_clocks w <= tk_clocks w')%nat.

Lemma grew_refl w : grew w [] w.
Proof. split; [by rewrite app_nil_r|lia]. Qed.

Lemma grew_trans w l w' l' w'' : grew w l w' -> grew w' l' w'' -> grew w (l ++ l') w''.
Proof. intros [E1 ?] [E2 ?]. split; [by rewrite E2, E1, app_assoc|lia]. Qed.

Lemma grew_nil w w' : grew w [] w' -> tk_trace w' = tk_trace w.
Proof. intros [E _]. by rewrite E, app_nil_r. Qed.

Lemma grew_quiet w w' :
  tk_trace w' = tk_trace w -> (tk_clocks w <= tk_clocks w')%nat -> grew w [] w'.
Proof. intros E Hc. split; [by rewrite app_nil_r|done]. Qed.

Lemma read_clock_wp {A} (f : nat -> A) w Q :
  (forall w', grew w [] w' -> Q (f (tk_clocks w)) w') -> twp (read_clock f) w Q X.
Proof. intros HQ. apply twp_read_clock. intros w' E Hc _. apply HQ, grew_quiet; [done|lia]. Qed.

Lemma read_instant_wp {A} (f : nat -> A) w Q :
  (forall w', grew w [] w' -> Q (f (tk_instants w)) w') -> twp (read_instant f) w Q X.
Proof. intros HQ. apply twp_read_instant. intros w' E Hc _. apply HQ, grew_quiet; [done|lia]. Qed.

Lemma ask_wp {A} (f : nat -> A) w Q : (forall x w', grew w [] w' -> Q x w') -> twp (ask f) w Q X.
Proof. intros HQ. apply twp_ask. intros x w' E Hc _. apply HQ, grew_quiet; [done|lia]. Qed.

Lemma log_wp e w (Q : unit -> World WorkerEvent -> Prop) :
  (forall w', grew w [e] w' -> Q tt w') -> twp (log e) w Q X.
Proof. intros HQ. apply twp_log. intros w' E Hc _. apply HQ. split; [done|lia]. Qed.

Lemma deadline_expired_wp deadline w (Q : bool -> World WorkerEvent -> Prop) :
  (forall w', grew w [] w' -> Q true w') ->
  (forall w', grew w [] w' -> (tk_clocks w < tk_clocks w')%nat -> clock (tk_clocks w) < dl_unix_ms deadline -> Q false w') ->
  twp (deadline_expired deadline) w Q X.
Proof.
  intros Ht Hf. unfold deadline_expired. apply twp_bind.
  assert (Hwall : forall w1, tk_trace w1 = tk_trace w -> tk_clocks w1 = tk_clocks w ->
    twp (let% t := read_clock clock in tret (dl_unix_ms deadline <=? t)) w1 Q X).
  { intros w1 E Hc. apply twp_bind, twp_read_clock. intros w2 E2 Hc2 _. apply twp_ret.
    destruct (N.leb_spec (dl_unix_ms deadline) (clock (tk_clocks w1))).
    - apply Ht, grew_quiet; [by rewrite E2|lia].
    - apply Hf; [apply grew_quiet; [by rewrite E2|lia]|lia|by rewrite <-Hc]. }
  destruct (dl_monotonic deadline) as [d|]; [|by apply twp_ret, Hwall].
  apply twp_bind, twp_read_instant. intros w1 E Hc _. apply twp_ret.
  destruct (d <=? _); [apply twp_ret, Ht, grew_quiet; [done|lia]|by apply Hwall].
Qed.

Lemma force_reap_wp w (Q : bool -> World WorkerEvent -> Prop) :
  (forall b w', grew w [ForceClosing] w' -> Q b w') -> twp force_reap_terminal w Q X.
Proof.
  intros HQ. apply twp_bind, log_wp. intros w1 G1. apply twp_bind, ask_wp. intros a w2 G2.
  apply twp_ret, HQ. exact (grew_trans _ _ _ _ _ G1 G2).
Qed.

Lemma fail_turn_wp {A} error w (Q : A -> World WorkerEvent -> Prop) :
  orderly (tk_trace w) -> twp (fail_turn self error) w Q X.
Proof.
  intros Ho. apply twp_bind, force_reap_wp. intros b w1 G1. apply twp_bind, log_wp. intros w2 G2.
  apply twp_end. eapply X_die; [exact Ho|apply (dying_failed error b)|].
  exact (proj1 (grew_trans _ _ _ _ _ G1 G2)).
Qed.

Lemma timeout_turn_wp {A} w (Q : A -> World WorkerEvent -> Prop) :
  orderly (tk_trace w) -> twp (timeout_turn self) w Q X.
Proof.
  intros Ho. apply twp_bind, log_wp. intros w1 G1. apply twp_bind, force_reap_wp. intros b w2 G2.
  apply twp_end. eapply X_die; [exact Ho|apply dying_late|].
  exact (proj1 (grew_trans _ _ _ _ _ G1 G2)).
Qed.

Lemma abort_wp {A} w (Q : A -> World WorkerEvent -> Prop) :
  orderly (tk_trace w) -> twp (log AbortSeen ;% tend Returned) w Q X.
Proof.
  intros Ho. apply twp_bind, log_wp. intros w1 [E _]. apply twp_end.
  eapply X_die; [exact Ho|apply dying_aborted|exact E].
Qed.

Lemma fail_driver_wp {A} failure w (Q : A -> World WorkerEvent -> Prop) :
  orderly (tk_trace w) -> twp (fail_driver self failure) w Q X.
Proof. intros Ho. unfold fail_driver. case_bool_decide; [by apply timeout_turn_wp|by apply fail_turn_wp]. Qed.

Lemma await_turn_step_wp {A} deadline (future : nat -> A) w Q :
  (forall x w', grew w [] w' -> Q (AwaitReady x) w') ->
  (forall w', grew w [] w' -> Q AwaitAborted w') ->
  (forall w', grew w [] w' -> Q AwaitTimedOut w') ->
  twp (await_turn_step deadline future) w Q X.
Proof.
  intros Hr Ha Ht. apply twp_bind, deadline_expired_wp; [intros w1 G1; by apply twp_ret, Ht|].
  intros w1 G1 _ _. apply twp_bind, ask_wp. intros winner w2 G2.
  pose proof (grew_trans _ _ _ _ _ G1 G2) as G. destruct winner; [by apply twp_ret, Ht|by apply twp_ret, Ha|].
  apply twp_bind, ask_wp. intros x w3 G3. pose proof (grew_trans _ _ _ _ _ G G3) as G'.
  apply twp_bind, deadline_expired_wp; intros w4 G4; intros; apply twp_ret; [apply Ht|apply Hr];
    exact (grew_trans _ _ _ _ _ G' G4).
Qed.

Lemma quiet_orderly w w' : orderly (tk_trace w) -> grew w [] w' -> orderly (tk_trace w').
Proof. intros Ho G. by rewrite (grew_nil _ _ G). Qed.

Lemma await_driver_wp {A} deadline (future : nat -> result A DriverFailure) w Q :
  orderly (tk_trace w) -> (forall x w', grew w [] w' -> Q x w') ->
  twp (await_driver self deadline future) w Q X.
Proof.
  intros Ho HQ. apply twp_bind, await_turn_step_wp.
  - intros [x|failure] w1 G1; [by apply twp_ret, HQ|]. by eapply fail_driver_wp, quiet_orderly.
  - intros w1 G1. by eapply abort_wp, quiet_orderly.
  - intros w1 G1. by eapply timeout_turn_wp, quiet_orderly.
Qed.

Lemma sleep_wp deadline w (Q : unit -> World WorkerEvent -> Prop) :
  orderly (tk_trace w) -> (forall w', grew w [Slept] w' -> Q tt w') ->
  twp (sleep_poll_interval self deadline) w Q X.
Proof.
  intros Ho HQ. apply twp_bind, await_turn_step_wp.
  - intros _ w1 G1. apply log_wp. intros w2 G2. apply HQ. exact (grew_trans _ _ _ _ _ G1 G2).
  - intros w1 G1. by eapply abort_wp, quiet_orderly.
  - intros w1 G1. by eapply timeout_turn_wp, quiet_orderly.
Qed.

Lemma return_if_expired_wp deadline w (Q : unit -> World WorkerEvent -> Prop) :
  orderly (tk_trace w) ->
  (forall w', grew w [] w' -> (tk_clocks w < tk_clocks w')%nat -> clock (tk_clocks w) < dl_unix_ms deadline -> Q tt w') ->
  twp (return_if_expired self deadline) w Q X.
Proof.
  intros Ho HQ. apply twp_bind, deadline_expired_wp; intros w1 G1.
  - by eapply timeout_turn_wp, quiet_orderly.
  - intros Hlt Hc. by apply twp_ret, HQ.
Qed.

Lemma ok_or_fail_wp {A} (r : result A ErrorBody) w (Q : A -> World WorkerEvent -> Prop) :
  orderly (tk_trace w) -> (forall x, r = Ok x -> Q x w) -> twp (ok_or_fail self r) w Q X.
Proof. intros Ho HQ. destruct r as [x|error]; [by apply twp_ret, HQ|by apply fail_turn_wp]. Qed.

Lemma engine_result_wp {A} (r : result A Fault) w (Q : A -> World WorkerEvent -> Prop) :
  orderly (tk_trace w) -> EnginePath.safe r \/ U64_MAX < N.of_nat (length (engine_calls prompt (tk_trace w))) ->
  (forall x, r = Ok x -> Q x w) -> twp (engine_result self r) w Q X.
Proof.
  intros Ho Hs HQ. destruct r as [x|[e|m|]]; [by apply twp_ret, HQ|by apply fail_turn_wp|..];
    destruct Hs as [[]|Hs]; by apply twp_end, X_panic.
Qed.

(** ** The screen *)

Lemma grew_base em p en pos w e w' :
  base em p en pos (tk_trace w) -> grew w [e] w' -> plain e -> calls_of prompt e = [] ->
  position_after (position_of (tk_trace w)) e = position_of (tk_trace w) -> base em p en pos (tk_trace w').
Proof. intros Hb [E _] Hp Hc Hpos. rewrite E. by apply base_plain. Qed.

Lemma grew_follows wa o w l w' :
  follows wa o (tk_trace w) -> grew w l w' -> Forall inert l -> follows wa o (tk_trace w').
Proof. intros Hs [E _] Hl. rewrite E. by apply follows_app. Qed.

Lemma plain_needs_input info resume_state : plain (Sent (UNeedsInput tid info resume_state)).
Proof. by split_and!. Qed.

Lemma report_needs_input_wp em p en pos info resume_state w (Q : unit -> World WorkerEvent -> Prop) :
  base em p en pos (tk_trace w) ->
  (forall w', grew w [Sent (UNeedsInput tid info resume_state)] w' -> base em p en pos (tk_trace w') -> Q tt w') ->
  twp (report_needs_input self info resume_state) w Q X.
Proof.
  intros Hb HQ. apply log_wp. intros w' G. apply HQ; [done|].
  by eapply grew_base; [exact Hb|exact G|apply plain_needs_input|..].
Qed.

Lemma clear_stale_modal_wp em p en pos wa resume_state since seen screen w (Q : Watch -> World WorkerEvent -> Prop) :
  base em p en pos (tk_trace w) ->
  (forall s, since = Some s -> still_since (tk_trace w) s) ->
  watched wa seen -> screen <> ScreenReady -> is_modal screen = false -> screens (tk_trace w) = screen :: seen ->
  (forall wa' w', (tk_clocks w <= tk_clocks w')%nat -> base em p en pos (tk_trace w') ->
     since_ok wa' (tk_trace w') -> watched wa' (screens (tk_trace w')) -> reads (tk_trace w') = reads (tk_trace w) ->
     Q wa' w') ->
  twp (clear_stale_modal self wa resume_state since) w Q X.
Proof.
  intros Hb Hs Hw Hr Hm Es HQ. pose proof (watched_other wa seen screen since Hw Hr Hm) as Hw'.
  rewrite <-Es in Hw'. cbn zeta in Hw'. unfold clear_stale_modal.
  destruct (wa_active_needs_input wa) as [info|]; [|by apply twp_ret, HQ].
  destruct (2 <=? _); [|by apply twp_ret, HQ].
  apply twp_bind. eapply report_needs_input_wp; [exact Hb|]. intros w1 G1 Hb1.
  apply twp_ret, HQ; [apply G1|done|..]; rewrite (proj1 G1).
  - intros s E. apply still_since_snoc; [by apply Hs|done].
  - by rewrite screens_of_app.
  - rewrite reads_of_app. apply app_nil_r.
Qed.

Lemma veto_wp em p en pos wa t0 shape w (Q : option N -> World WorkerEvent -> Prop) :
  base em p en pos (tk_trace w) -> tk_trace w = t0 ++ [Observed (ScreenUnrecognised shape)] -> since_ok wa t0 ->
  (forall s w', (tk_clocks w <= tk_clocks w')%nat -> base em p en pos (tk_trace w') ->
     still_since (tk_trace w') s -> screens (tk_trace w') = screens (tk_trace w) ->
     reads (tk_trace w') = reads (tk_trace w) -> Q (Some s) w') ->
  twp (veto_unrecognised self (wa_unrecognised_screen_since wa) shape) w Q X.
Proof.
  intros Hb Et Hs HQ. apply twp_bind, read_clock_wp. intros w1 G1. set (now := clock (tk_clocks w)).
  apply twp_bind, log_wp. intros w2 G2. pose proof (grew_trans _ _ _ _ _ G1 G2) as G.
  assert (Hb2 : base em p en pos (tk_trace w2)) by (eapply grew_base; [exact Hb|exact G|done..]).
  assert (E2 : tk_trace w2 = t0 ++ [Observed (ScreenUnrecognised shape); Stamped now]).
  { rewrite (proj1 G), Et, <-app_assoc. done. }
  set (pair := match wa_unrecognised_screen_since wa with None => (now, 0) | Some since => (since, now - since) end).
  assert (Hpair : still_since (tk_trace w2) (fst pair) /\ (UNRECOGNISED_SCREEN_VETO_MS <= snd pair ->
            stood_still (tk_trace w2) (snd pair))).
  { unfold pair. destruct (wa_unrecognised_screen_since wa) as [since|] eqn:Ew; simpl; split.
    - rewrite E2, cons_middle, app_assoc. apply still_since_snoc; [|done]. apply still_since_snoc; [by apply Hs|done].
    - intros Hv. exists since, now, shape, t0. split_and!; [done|by apply Hs|done|done].
    - exists t0, shape, []. rewrite E2, app_nil_r. by split.
    - by intros []. }
  destruct pair as [since held]. simpl in Hpair. destruct Hpair as [Hst Hveto].
  destruct (N.leb_spec UNRECOGNISED_SCREEN_VETO_MS held).
  - apply twp_bind, log_wp. intros w3 [E3 _]. apply fail_turn_wp. rewrite E3.
    apply orderly_vetoed; [apply Hb2|by apply Hveto].
  - apply twp_ret, HQ; [apply G|done|done|..]; rewrite (proj1 G).
    + by rewrite screens_of_app.
    + rewrite reads_of_app. apply app_nil_r.
Qed.

Lemma watch_screen_wp em p en pos wa o resume_state screen t0 w (Q : Watch -> World WorkerEvent -> Prop) :
  base em p en pos (tk_trace w) -> tk_trace w = t0 ++ [Observed screen] -> follows wa o t0 ->
  (forall wa' w', (tk_clocks w <= tk_clocks w')%nat -> base em p en pos (tk_trace w') ->
     follows wa' o (tk_trace w') -> Q wa' w') ->
  twp (watch_screen self wa resume_state screen) w Q X.
Proof.
  intros Hb Et (Hs & Hw & Ha) HQ.
  assert (Esc : screens (tk_trace w) = screen :: screens t0) by by rewrite Et, screens_of_app.
  assert (Erd : reads (tk_trace w) = reads t0) by (rewrite Et, reads_of_app; apply app_nil_r).
  assert (Hplain : forall wa' w', wa_unrecognised_screen_since wa' = None -> watched wa' (screen :: screens t0) ->
    base em p en pos (tk_trace w') -> (exists l, grew w l w' /\ Forall inert l) -> Q wa' w').
  { intros wa' w' En Hw' Hb' (l & G & (_ & El & Er)%inert_app). apply HQ; [apply G|done|].
    split; [by apply since_ok_none|]. by rewrite (proj1 G), screens_of_app, reads_of_app, El, Er, app_nil_r, Esc, Erd. }
  assert (Hsaid : forall wa' info, wa_unrecognised_screen_since wa' = None -> watched wa' (screen :: screens t0) ->
    twp (report_needs_input self info resume_state ;% tret wa') w Q X).
  { intros wa' info En Hw'. apply twp_bind. eapply report_needs_input_wp; [exact Hb|]. intros w1 G1 Hb1.
    apply twp_ret, Hplain; [done|done|done|]. eexists. split; [exact G1|]. by apply Forall_singleton. }
  assert (Hsilent : forall wa', wa_unrecognised_screen_since wa' = None -> watched wa' (screen :: screens t0) -> Q wa' w).
  { intros wa' En Hw'. apply Hplain; [done|done|done|]. exists []. split; [apply grew_refl|done]. }
  destruct screen as [|info|screen|shape]; simpl.
  - pose proof (watched_ready _ _ Hw) as Hw'. destruct (wa_active_needs_input wa); [by apply Hsaid|].
    by apply twp_bind, twp_ret, twp_ret, Hsilent.
  - destruct (wa_active_needs_input wa) as [active|]; [case_match|];
      [by eapply twp_ret, Hsilent, watched_modal|by eapply Hsaid, watched_modal..].
  - eapply (clear_stale_modal_wp _ _ _ _ _ _ _ _ (ScreenRecognised screen)); [exact Hb|done|exact Hw|done|done|exact Esc|].
    intros wa' w' Hc' Hb' Hs' Hw' Hr'. apply HQ; [done|done|]. split_and!; [done|done|by rewrite Hr', Erd].
  - apply twp_bind. eapply veto_wp; [exact Hb|exact Et|exact Hs|]. intros s w1 Hc1 Hb1 Hs1 Es1 Er1.
    eapply (clear_stale_modal_wp _ _ _ _ _ _ _ _ (ScreenUnrecognised shape)); [exact Hb1|by intros ? [= <-]|exact Hw|done|done|by rewrite Es1|].
    intros wa' w' Hc' Hb' Hs' Hw' Hr'. apply HQ; [lia|done|]. split_and!; [done|done|by rewrite Hr', Er1, Erd].
Qed.

(** ** The transcript *)

Definition read_event (confirming : bool) (from : TranscriptPosition) (batch : TranscriptBatch) : WorkerEvent :=
  if confirming then Confirmed from batch else Polled from batch.

Lemma validate_generation previous batch u :
  validate_position previous batch = Ok u -> pos_generation (ba_position batch) = pos_generation previous.
Proof.
  unfold validate_position. destruct (N.eqb_spec (pos_generation (ba_position batch)) (pos_generation previous)); [done|].
  by intros [=].
Qed.

Lemma poll_transcript_wp confirming deadline pos w (Q : TranscriptBatch -> World WorkerEvent -> Prop) :
  orderly (tk_trace w) -> position_of (tk_trace w) = Some pos ->
  (forall batch w', grew w [read_event confirming pos batch] w' -> orderly (tk_trace w') -> Q batch w') ->
  twp (poll_transcript self confirming deadline pos) w Q X.
Proof.
  intros Ho Hp HQ. apply twp_bind, await_driver_wp; [done|]. intros batch w1 G1.
  destruct (validate_position pos batch) eqn:Hv; [|apply fail_driver_wp; by eapply quiet_orderly].
  apply twp_bind, log_wp. intros w2 G2. pose proof (grew_trans _ _ _ _ _ G1 G2) as G. apply twp_ret, HQ; [done|].
  rewrite (proj1 G). eapply (orderly_read _ _ pos batch); [done|done|by eapply validate_generation|]. destruct confirming; auto.
Qed.

Lemma publishable_now n :
  (forall n, clock n <= MAX_SAFE_JSON_INTEGER) -> publishable_instant (clock n) = Some (clock n).
Proof. intros Hc. unfold publishable_instant. specialize (Hc n). by destruct (N.leb_spec (clock n) MAX_SAFE_JSON_INTEGER); [|lia]. Qed.

Lemma observe_read_wp o rs rows w (Q : ArrivalOrderObservations -> World WorkerEvent -> Prop) :
  arrived o rs -> (forall o' w', grew w [] w' -> arrived o' (rs ++ [rows]) -> Q o' w') ->
  twp (observe_read o rows) w Q X.
Proof.
  intros [Hm Hs Hl] HQ. unfold observe_read.
  assert (Hex : existsb (existsb is_turn_duration_marker) (rs ++ [rows]) = ao_marker_observed o || existsb is_turn_duration_marker rows).
  { rewrite existsb_app. simpl. by rewrite orb_false_r, Hm. }
  assert (Hlate : late_row (rs ++ [rows]) = late_row rs || ao_marker_observed o && existsb is_analysis_changing rows).
  { by rewrite late_row_snoc, Hm. }
  destruct (ao_marker_observed o) eqn:Eo; simpl in Hex, Hlate.
  - case_match eqn:Ec.
    + apply twp_bind, read_clock_wp. intros w1 G1. apply twp_ret, HQ; [done|]. rewrite !andb_true_iff in Ec.
      destruct Ec as [[E1 E2] E3]. split; simpl; [by rewrite Hex|done|]. intros Hc.
      rewrite publishable_now, Hlate, E3, orb_true_r by done. split; [done|by eexists].
    + apply twp_ret, HQ; [apply grew_refl|]. split; [by rewrite Hex|by rewrite Eo|]. intros Hc. rewrite Hlate, (Hl Hc).
      destruct (existsb is_analysis_changing rows); [|by rewrite orb_false_r].
      rewrite andb_true_r, bool_decide_eq_true_2 in Ec by by apply Hs. simpl in Ec. apply bool_decide_eq_false in Ec.
      rewrite orb_true_r. split; [done|]. intros _. apply Hl; [done|]. by destruct (ao_post_turn_duration_row_observed_at_ms o); [eexists|].
  - rewrite orb_false_r in Hlate. case_match eqn:Ec.
    + apply twp_bind, read_clock_wp. intros w1 G1. apply twp_ret, HQ; [done|].
      split; simpl; [by rewrite Hex| |by rewrite Hlate]. intros Hc. rewrite publishable_now by done. split; [done|by eexists].
    + apply twp_ret, HQ; [apply grew_refl|]. split; [by rewrite Hex|by rewrite Eo|by rewrite Hlate].
Qed.

Lemma ingest_faults r e : EnginePath.safe (fst (Engine.ingest nfc r e)).
Proof.
  unfold ingest. destruct (u0 ← uuid (common r); i0 ← by_uuid e !! u0; Some (u0, i0)) as [[u i]|].
  - by destruct (json_eqb _ _).
  - by destruct (acknowledges _ _ _ _).
Qed.

Lemma ingest_rows_wp rows : forall cs w (Q : TranscriptEngine -> World WorkerEvent -> Prop),
  orderly (tk_trace w) -> Q (calls nfc (cs ++ (Ingest <$> rows))) w ->
  twp (ingest_rows self rows (calls nfc cs)) w Q X.
Proof.
  induction rows as [|r rows IH]; intros cs w Q Ho HQ; simpl.
  { rewrite app_nil_r in HQ. by apply twp_ret. }
  pose proof (ingest_faults r (calls nfc cs)) as Hsafe.
  destruct (Engine.ingest nfc r (calls nfc cs)) as [res e] eqn:Ei.
  apply twp_bind, engine_result_wp; [done|by left|]. intros _ _.
  assert (e = calls nfc (cs ++ [Ingest r])) as ->.
  { rewrite calls_app. simpl. by rewrite Ei. }
  apply IH; [done|]. by rewrite <-app_assoc.
Qed.

(** A read, stamped and ingested. *)
Lemma read_rows_wp {A} em p en pos confirming deadline o w
    (k : TranscriptBatch -> ArrivalOrderObservations -> TranscriptEngine -> W A) Q :
  base em p en pos (tk_trace w) -> arrived o (reads (tk_trace w)) ->
  (forall batch o' w', grew w [read_event confirming pos batch] w' -> arrived o' (reads (tk_trace w')) ->
     base em p (calls nfc (engine_calls prompt (tk_trace w'))) (ba_position batch) (tk_trace w') ->
     (ba_rows batch = [] -> calls nfc (engine_calls prompt (tk_trace w')) = en) ->
     twp (k batch o' (calls nfc (engine_calls prompt (tk_trace w')))) w' Q X) ->
  twp (let% batch := poll_transcript self confirming deadline pos in
       let% arrival := observe_read o (ba_rows batch) in
       let% engine := ingest_rows self (ba_rows batch) en in k batch arrival engine) w Q X.
Proof.
  intros Hb Ha Hk. apply twp_bind, poll_transcript_wp; [apply Hb|apply Hb|]. intros batch w1 G1 Ho1.
  apply twp_bind. eapply observe_read_wp; [exact Ha|]. intros o' w2 G2 Ha2. pose proof (grew_trans _ _ _ _ _ G1 G2) as G.
  assert (Ho2 : orderly (tk_trace w2)) by by eapply quiet_orderly.
  assert (Ec : engine_calls prompt (tk_trace w2) = engine_calls prompt (tk_trace w) ++ (Ingest <$> ba_rows batch)).
  { rewrite (proj1 G). simpl. rewrite engine_calls_snoc. by destruct confirming. }
  apply twp_bind. rewrite (b_engine _ _ _ _ _ Hb). apply ingest_rows_wp; [done|].
  rewrite <-Ec. apply Hk; [exact G| | |].
  - rewrite (proj1 G), reads_of_app. by destruct confirming.
  - destruct Hb. split; try done; rewrite (proj1 G); simpl.
    + rewrite position_of_snoc. by destruct confirming.
    + rewrite omap_snoc. destruct confirming; simpl; by rewrite app_nil_r.
    + intros i. rewrite omap_snoc. destruct confirming; simpl; rewrite app_nil_r; apply b_started0.
    + intros i. rewrite omap_snoc. destruct confirming; simpl; rewrite app_nil_r; apply b_completed0.
  - intros Er. rewrite Ec, Er, app_nil_r. symmetry. apply Hb.
Qed.

(** ** Reports *)

(** Only reports were added. *)
Definition reported (w w' : World WorkerEvent) : Prop :=
  exists l, grew w l w' /\ Forall (fun e => is_Some (sent_of e)) l.

Lemma reported_refl w : reported w w.
Proof. exists []. split; [apply grew_refl|done]. Qed.

Lemma reported_trans w w' w'' : reported w w' -> reported w' w'' -> reported w w''.
Proof.
  intros (l & G & Hl) (l' & G' & Hl'). exists (l ++ l').
  split; [exact (grew_trans _ _ _ _ _ G G')|by apply Forall_app_2].
Qed.

Lemma reported_one w u w' : grew w [Sent u] w' -> reported w w'.
Proof. intros G. exists [Sent u]. split; [done|]. by apply Forall_singleton. Qed.

Lemma reported_quiet w w' : grew w [] w' -> reported w w'.
Proof. intros G. by exists []. Qed.

Lemma reported_follows wa o w w' : follows wa o (tk_trace w) -> reported w w' -> follows wa o (tk_trace w').
Proof.
  intros Hs (l & G & Hl). eapply grew_follows; [done|done|]. eapply Forall_impl; [exact Hl|].
  intros [] [? ?]; done.
Qed.

Lemma base_same_tools em em' p en pos t :
  base em p en pos t -> em_started_tools em' = em_started_tools em ->
  em_completed_tools em' = em_completed_tools em -> base em' p en pos t.
Proof. intros [] E1 E2. by split; rewrite ?E1, ?E2. Qed.

(** What an emission leaves behind, given the sets it started from. *)
Definition emits (p : Progress) (en : TranscriptEngine) (pos : TranscriptPosition) (f : W (result Emitted ErrorBody))
    (w : World WorkerEvent) : Prop :=
  forall Q : result Emitted ErrorBody -> World WorkerEvent -> Prop,
    (forall em' w', reported w w' -> base em' p en pos (tk_trace w') -> Q (Ok em') w') ->
    (forall error w', orderly (tk_trace w') -> Q (Err error) w') ->
    twp f w Q X.

Lemma emits_ret em p en pos w : base em p en pos (tk_trace w) -> emits p en pos (tret (Ok em)) w.
Proof. intros Hb Q Hok _. apply twp_ret, Hok; [apply reported_refl|done]. Qed.

Lemma emits_try p en pos f (k : Emitted -> W (result Emitted ErrorBody)) w :
  emits p en pos f w ->
  (forall em' w', base em' p en pos (tk_trace w') -> emits p en pos (k em') w') ->
  emits p en pos (ttry f k) w.
Proof.
  intros Hf Hk Q Hok Herr. apply twp_try, Hf; [|done]. intros em' w' Hr Hb.
  apply (Hk em' w' Hb); [|done]. intros em'' w'' Hr'. apply Hok. by eapply reported_trans.
Qed.

(** One event, with what it adds to the sets. *)
Lemma emits_event p en pos payload (k : W (result Emitted ErrorBody)) w :
  orderly (tk_trace w) ->
  (forall w', grew w [Sent (UEvent tid payload)] w' -> emits p en pos k w') ->
  emits p en pos (let%? _ := transcript_event self payload in k) w.
Proof.
  intros Ho Hk Q Hok Herr. apply twp_try. unfold transcript_event. case_match; [|by apply twp_ret, Herr].
  apply twp_bind, log_wp. intros w1 G1. apply twp_ret, (Hk w1 G1); [|done].
  intros em' w' Hr. apply Hok. eapply reported_trans; [by eapply reported_one|done].
Qed.

Lemma plain_event payload :
  is_state_change payload = false -> (forall i n v, payload <> ToolStarted i n v) ->
  (forall i o f, payload <> ToolCompleted i o f) -> plain (Sent (UEvent tid payload)).
Proof. intros Hc Hs Hd. split_and!; try done; destruct payload; simpl; try done; exfalso; naive_solver. Qed.

(** An event that names no tool. *)
Lemma emits_plain em p en pos payload (k : W (result Emitted ErrorBody)) w :
  base em p en pos (tk_trace w) -> plain (Sent (UEvent tid payload)) ->
  (forall w', base em p en pos (tk_trace w') -> emits p en pos k w') ->
  emits p en pos (let%? _ := transcript_event self payload in k) w.
Proof.
  intros Hb Hp Hk. apply emits_event; [apply Hb|]. intros w' G. apply Hk.
  by eapply grew_base; [exact Hb|exact G|..].
Qed.

Lemma emit_messages_wp ms : forall em p en pos w,
  base em p en pos (tk_trace w) -> emits p en pos (emit_messages self ms em) w.
Proof.
  induction ms as [|m ms IH]; intros em p en pos w Hb; simpl; [by apply emits_ret|].
  case_match; [|by apply IH]. eapply emits_plain; [exact Hb|by apply plain_event|].
  intros w' Hb'. apply IH. by eapply base_same_tools.
Qed.

Lemma emit_warnings_wp ws : forall em p en pos w,
  base em p en pos (tk_trace w) -> emits p en pos (emit_warnings self ws em) w.
Proof.
  induction ws as [|x ws IH]; intros em p en pos w Hb; simpl; [by apply emits_ret|].
  case_bool_decide; [by apply IH|]. eapply emits_plain; [exact Hb|by apply plain_event|].
  intros w' Hb'. apply IH. by eapply base_same_tools.
Qed.

Lemma base_started em p en pos t i name input :
  base em p en pos t -> i ∉ em_started_tools em ->
  base (mkEmitted (em_messages em) ({[i]} ∪ em_started_tools em) (em_completed_tools em) (em_warnings em)) p en pos
    (t ++ [Sent (UEvent tid (ToolStarted i name input))]).
Proof.
  intros [] Hi. split; simpl.
  - apply orderly_started; [done|]. by rewrite b_started0.
  - by rewrite engine_calls_snoc, app_nil_r.
  - by rewrite position_of_snoc.
  - rewrite omap_snoc. simpl. by rewrite app_nil_r.
  - done.
  - intros j. rewrite omap_snoc. simpl. rewrite elem_of_app, list_elem_of_singleton, b_started0. set_solver.
  - intros j. rewrite omap_snoc. simpl. by rewrite app_nil_r.
Qed.

Lemma base_completed em p en pos t i output failed :
  base em p en pos t -> i ∉ em_completed_tools em -> i ∈ em_started_tools em ->
  base (mkEmitted (em_messages em) (em_started_tools em) ({[i]} ∪ em_completed_tools em) (em_warnings em)) p en pos
    (t ++ [Sent (UEvent tid (ToolCompleted i output failed))]).
Proof.
  intros [] Hi Hs. split; simpl.
  - apply orderly_completed; [done|by rewrite b_completed0|by rewrite b_started0].
  - by rewrite engine_calls_snoc, app_nil_r.
  - by rewrite position_of_snoc.
  - rewrite omap_snoc. simpl. by rewrite app_nil_r.
  - done.
  - intros j. rewrite omap_snoc. simpl. by rewrite app_nil_r.
  - intros j. rewrite omap_snoc. simpl. rewrite elem_of_app, list_elem_of_singleton, b_completed0. set_solver.
Qed.

(** The second half of [emit_tool]. *)
Lemma emit_result_wp t em p en pos w :
  base em p en pos (tk_trace w) -> tr_tool_use_id t ∈ em_started_tools em ->
  emits p en pos
    (match tr_result t with
     | Some r =>
         if bool_decide (tr_tool_use_id t ∈ em_completed_tools em) then tret (Ok em)
         else let%? _ := transcript_event self (ToolCompleted (tr_tool_use_id t) (content r) (default false (is_error r))) in
              tret (Ok (mkEmitted (em_messages em) (em_started_tools em)
                          ({[tr_tool_use_id t]} ∪ em_completed_tools em) (em_warnings em)))
     | None => tret (Ok em)
     end) w.
Proof.
  intros Hb Hs. destruct (tr_result t) as [r|]; [|by apply emits_ret].
  case_bool_decide as Hd; [by apply emits_ret|]. apply emits_event; [apply Hb|].
  intros w' [E _]. apply emits_ret. rewrite E. by apply base_completed.
Qed.

Lemma emit_tool_wp t em p en pos w :
  base em p en pos (tk_trace w) -> emits p en pos (emit_tool self t em) w.
Proof.
  intros Hb Q Hok Herr. unfold emit_tool. apply twp_try. case_bool_decide as Hin.
  { apply twp_ret, (emit_result_wp t em p en pos w Hb Hin); done. }
  apply twp_try. unfold transcript_event. case_match; [|apply twp_ret, Herr, Hb].
  apply twp_bind, log_wp. intros w1 G1. apply twp_ret, twp_ret.
  pose proof (base_started em p en pos (tk_trace w) _ (tr_name t) (tr_input t) Hb Hin) as Hb1.
  rewrite <-(proj1 G1) in Hb1. apply (emit_result_wp t _ p en pos w1 Hb1); [simpl; set_solver| |done].
  intros em' w' Hr Hb'. apply Hok; [|done]. eapply reported_trans; [by eapply reported_one|done].
Qed.

Lemma emit_tools_wp ts : forall em p en pos w,
  base em p en pos (tk_trace w) -> emits p en pos (emit_tools self ts em) w.
Proof.
  induction ts as [|t ts IH]; intros em p en pos w Hb; simpl; [by apply emits_ret|].
  apply emits_try; [by apply emit_tool_wp|]. intros em' w' Hb'. by apply IH.
Qed.

Lemma emit_analysis_deltas_wp a em p en pos w :
  base em p en pos (tk_trace w) -> emits p en pos (emit_analysis_deltas self a em) w.
Proof.
  intros Hb. apply emits_try; [by apply emit_messages_wp|]. intros em1 w1 Hb1.
  apply emits_try; [by apply emit_tools_wp|]. intros em2 w2 Hb2. by apply emit_warnings_wp.
Qed.

(** ** How far the turn is *)

Lemma base_state em p p' en pos t s :
  base em p en pos t -> states_so_far p' = states_so_far p ++ [s] -> states_so_far p' `prefix_of` LIFE ->
  (is_Some (pr_terminal_candidate_at_ms p') -> pr_emitted_ack p' = true) ->
  base em p' en pos (t ++ [Sent (UState tid s)]).
Proof.
  intros [] Es Hp Hc. split; [|by rewrite engine_calls_snoc, app_nil_r|by rewrite position_of_snoc| |done|..].
  - apply orderly_state; [done|]. by rewrite b_states0, <-Es.
  - rewrite omap_snoc, b_states0. simpl. by rewrite Es.
  - intros i. rewrite omap_snoc. simpl. by rewrite app_nil_r.
  - intros i. rewrite omap_snoc. simpl. by rewrite app_nil_r.
Qed.

Lemma acknowledge_wp a e em p en pos w (Q : Progress -> World WorkerEvent -> Prop) :
  base em p en pos (tk_trace w) ->
  (forall p' w', reported w w' -> base em p' en pos (tk_trace w') ->
     (is_Some (ta_acknowledgement a) -> pr_emitted_ack p' = true) -> Q p' w') ->
  twp (acknowledge self a e p) w Q X.
Proof.
  intros Hb HQ. unfold acknowledge. destruct (ta_acknowledgement a) as [ack|];
    [|apply twp_ret, HQ; [apply reported_refl|done|by intros []]].
  destruct (pr_emitted_ack p) eqn:Ea; [apply twp_ret, HQ; [apply reported_refl|done|done]|].
  apply twp_bind, read_clock_wp. intros w1 G1. assert (Hb1 : base em p en pos (tk_trace w1)) by by rewrite (grew_nil _ _ G1).
  apply twp_bind, ok_or_fail_wp; [apply Hb1|]. intros now _.
  apply twp_bind, log_wp. intros w2 G2.
  assert (Hb2 : base em p en pos (tk_trace w2)) by (eapply grew_base; [exact Hb1|exact G2|by apply plain_event|done|done]).
  apply twp_bind, log_wp. intros w3 G3. apply twp_ret, HQ; [| |done].
  - eapply reported_trans; [by eapply reported_quiet|]. eapply reported_trans; by eapply reported_one.
  - rewrite (proj1 G3). assert (Hno : pr_terminal_candidate_at_ms p = None).
    { destruct (pr_terminal_candidate_at_ms p) eqn:Et; [|done].
      rewrite (b_candidate _ _ _ _ _ Hb) in Ea; [done|]. rewrite Et. by eexists. }
    rewrite Hno. eapply base_state; [exact Hb2|..]; unfold states_so_far; simpl; rewrite ?Hno, ?Ea; simpl; try done.
    by eexists.
Qed.

Lemma base_candidate em p en pos t now key reason :
  base em p en pos t -> pr_emitted_ack p = true -> pr_terminal_candidate_at_ms p = None ->
  base em (mkProgress true (pr_prompt_acknowledged_at_ms p) (Some now) S.Draining) en pos
    (((t ++ [Sent (UState tid S.TerminalCandidate)]) ++ [Sent (UEvent tid (TerminalCandidateEvent key reason))])
       ++ [Sent (UState tid S.Draining)]).
Proof.
  intros [] Hack Hno.
  assert (Es : omap state_of t = [S.AwaitingPromptAck; S.Running]).
  { rewrite b_states0. unfold states_so_far. by rewrite Hack, Hno. }
  split; rewrite ?omap_snoc; simpl; rewrite ?app_nil_r; try done.
  - apply orderly_state; [apply orderly_plain; [apply orderly_state; [done|]|by apply plain_event]|].
    + rewrite Es. by eexists.
    + rewrite !omap_snoc, Es. by eexists [].
  - by rewrite !engine_calls_snoc, !app_nil_r.
  - by rewrite !position_of_snoc.
  - by rewrite Es.
Qed.

Lemma announce_candidate_wp f em p en pos w (Q : Progress -> World WorkerEvent -> Prop) :
  base em p en pos (tk_trace w) -> pr_emitted_ack p = true ->
  (forall p' w', reported w w' -> base em p' en pos (tk_trace w') -> Q p' w') ->
  twp (announce_candidate self f p) w Q X.
Proof.
  intros Hb Hack HQ. unfold announce_candidate. destruct (pr_terminal_candidate_at_ms p) as [c|] eqn:Ec.
  { apply twp_ret, HQ; [apply reported_refl|done]. }
  apply twp_bind, read_clock_wp. intros w1 G1. assert (Hb1 : base em p en pos (tk_trace w1)) by by rewrite (grew_nil _ _ G1).
  apply twp_bind, ok_or_fail_wp; [apply Hb1|]. intros now _.
  apply twp_bind, log_wp. intros w2 G2. apply twp_bind, log_wp. intros w3 G3. apply twp_bind, log_wp. intros w4 G4.
  assert (Hr : reported w w4).
  { eapply reported_trans; [by eapply reported_quiet|]. eapply reported_trans; [by eapply reported_one|].
    eapply reported_trans; by eapply reported_one. }
  apply twp_ret, HQ; [exact Hr|]. rewrite (proj1 G4), (proj1 G3), (proj1 G2), Hack. by apply base_candidate.
Qed.

(** ** The end of a turn *)

(** What the end of a round leaves to the next. *)
Definition goes_on (w : World WorkerEvent) (r : Locals + unit) (w' : World WorkerEvent) : Prop :=
  match r with
  | inl l => tracks l (tk_trace w') /\ (tk_clocks w <= tk_clocks w')%nat
  | inr _ => False
  end.

Lemma goes_on_weaken w0 w r w' : (tk_clocks w0 <= tk_clocks w)%nat -> goes_on w r w' -> goes_on w0 r w'.
Proof. intros Hc. destruct r; [|done]. intros [Ht Hc']. split; [done|lia]. Qed.

(** The events and the drain that stand behind a commit. *)
Record evidenced (t : list WorkerEvent) (a : TranscriptAnalysis) (batch : TranscriptBatch)
    (evidence : TerminalEvidence) : Prop := {
  ev_trace : exists t0 from mid,
    t = t0 ++ [Polled from batch] ++ mid ++ [Evidenced evidence] /\ Forall (fun e => is_Some (sent_of e)) mid;
  ev_ready : te_ready_prompt evidence = true;
  ev_quiet : te_quiet evidence = true;
  ev_drain : satisfies (ba_drain batch) (offered_drain_ms self a) = true;
}.

Lemma sleep_goes_on deadline l w :
  tracks l (tk_trace w) -> twp (sleep_poll_interval self deadline ;% tret (inl l)) w (goes_on w) X.
Proof.
  intros [Hb Hs]. apply twp_bind, sleep_wp; [apply Hb|]. intros w1 G1. apply twp_ret.
  split; [|apply G1]. split; [by eapply grew_base|]. by eapply grew_follows; [|exact G1|apply Forall_singleton].
Qed.

Lemma measured_full a : full_drain_ms self a = measured_drain_ms a.
Proof.
  unfold full_drain_ms, graduated_drain_ms, measured_drain_ms. destruct (ta_turn_duration_seen a); simpl; [|done].
  destruct (N.ltb_spec TURN_DURATION_DRAIN_FLOOR_MS (cr_transcript_drain_ms (wk_compatibility self))); lia.
Qed.

Lemma no_refusal (b : bool) r : refuse_if b r = [] -> b = false.
Proof. by destruct b. Qed.

Lemma admissible_is_plain a timings modal :
  is_admissible (evaluate_minified_fast_path a timings modal) = true ->
  plain_turn a modal (tt_post_turn_duration_row_observed_at_ms timings).
Proof.
  unfold is_admissible, evaluate_minified_fast_path. case_match eqn:E; [|done]. intros _.
  repeat match goal with H : _ ++ _ = [] |- _ => apply app_eq_nil in H as [?H ?H] end.
  repeat match goal with H : refuse_if _ _ = [] |- _ => apply no_refusal in H end.
  repeat match goal with H : negb _ = false |- _ => apply negb_false_iff in H end.
  repeat match goal with H : bool_decide _ = true |- _ => apply bool_decide_eq_true in H end.
  repeat match goal with H : (_ =? _) = true |- _ => apply N.eqb_eq in H end.
  unfold plain_turn. split_and!; try done.
  - by destruct (ta_tools a).
  - intros m b Hm Hb. destruct (tool_use_name b) as [name|] eqn:En; [exfalso|done].
    destruct (tool_use_blocks (ta_messages a)) as [|[]] eqn:Et; [|done].
    apply list_elem_of_lookup in Hm as [i Hi].
    assert (Hin : (N.of_nat i, name) ∈ tool_use_blocks (ta_messages a)); [|rewrite Et in Hin; by apply not_elem_of_nil in Hin].
    apply list_elem_of_In, in_concat. eexists. split.
    + apply list_elem_of_In, list_elem_of_lookup. exists i. rewrite list_lookup_imap, Hi. done.
    + apply list_elem_of_In, list_elem_of_fmap. exists name. split; [done|]. apply list_elem_of_omap. eauto.
  - by destruct (ta_warnings a).
  - destruct (ta_status a) as [| |f]; [done..|]. exists f. split; [done|].
    match goal with H : refuse_if _ _ = [] |- _ => apply no_refusal, negb_false_iff in H; by apply bool_decide_eq_true in H end.
  - by destruct (tt_post_turn_duration_row_observed_at_ms timings).
Qed.

(** What the commit checks is that the turn drained. *)
Lemma drained_intro a timings modal d :
  satisfies d (offered_drain_ms self a) = true ->
  bool_decide (wk_cell self = Minified) && negb (satisfies d (earned_drain_ms self a timings modal)) = false ->
  drained a modal (tt_post_turn_duration_row_observed_at_ms timings) d.
Proof.
  unfold satisfies, offered_drain_ms, earned_drain_ms, drained, minified_drain_ms. rewrite measured_full.
  intros H1 H2. apply andb_true_iff in H1 as [[Heof Hpart%negb_true_iff]%andb_true_iff Hst].
  rewrite Heof, Hpart in H2. simpl in H2. split_and!; [done|done|].
  case_bool_decide as Hc; simpl in H2, Hst; [|left; by apply N.leb_le].
  apply negb_false_iff, N.leb_le in H2.
  destruct (is_admissible _) eqn:Ea; simpl in H2; [|by left].
  destruct (N.ltb_spec MINIFIED_FAST_PATH_DRAIN_FLOOR_MS (measured_drain_ms a)); [|by left].
  right. split_and!; [done|by apply admissible_is_plain|done].
Qed.

Lemma commit_wp deadline l a evidence batch confirmation t w :
  tracks l (tk_trace w) -> wa_active_needs_input (lo_watch l) = None ->
  tk_trace w = t ++ [Confirmed (ba_position batch) confirmation] ->
  evidenced t a batch evidence ->
  ba_position confirmation = ba_position batch -> ba_rows confirmation = [] ->
  analyze show_debug (lo_engine l) = Ok a -> is_Some (ta_acknowledgement a) ->
  (exists final_turn, ta_status a = Terminal final_turn) ->
  satisfies (ba_drain confirmation) (offered_drain_ms self a) = true ->
  twp (commit self deadline l a evidence confirmation) w (goes_on w) X.
Proof.
  intros Ht Hno Et [(t0 & from & mid & Em & Hmid) Hr Hq Hd] Hpos Hrows Ha Hack [f Hf] Hdrain.
  pose proof Ht as [Hb (_ & [Hobs Hact _] & [_ _ Hlate])].
  apply twp_bind, return_if_expired_wp; [apply Hb|]. intros w1 G1 _ _.
  apply twp_bind, read_clock_wp. intros w2 G2. pose proof (grew_trans _ _ _ _ _ G1 G2) as G.
  assert (E2 : tk_trace w2 = tk_trace w) by by apply grew_nil.
  apply twp_bind, ok_or_fail_wp; [rewrite E2; apply Hb|]. intros completed _.
  set (context := mkContext _ _ _ _ _ _ _ _ _ _ _ _).
  destruct (build_turn_result show_debug context a) as [result|] eqn:Eb;
    [|unfold build_turn_result in Eb; by rewrite Hf in Eb].
  assert (Etm : res_timings result = result_timings context).
  { unfold build_turn_result in Eb. rewrite Hf in Eb. by injection Eb as <-. }
  set (owed := bool_decide (wk_cell self = Minified) && _).
  destruct owed eqn:Eo; [apply twp_ret; split; [by rewrite E2|apply G]|].
  case_match; [apply fail_turn_wp; rewrite E2; apply Hb|].
  apply twp_bind, return_if_expired_wp; [rewrite E2; apply Hb|]. intros w3 G3 _ _.
  apply twp_bind, log_wp. intros w4 [E4 _]. apply twp_end.
  eapply (X_commit w4 (tk_trace w) result deadline); [apply Hb| |by rewrite E4, (grew_nil _ _ G3), E2].
  exists t0, from, batch, mid, evidence, confirmation, a.
  exists (pr_prompt_acknowledged_at_ms (lo_progress l)), (pr_terminal_candidate_at_ms (lo_progress l)), completed.
  exists (lo_arrival l), f.
  rewrite <-(b_engine _ _ _ _ _ Hb). split_and!; try done.
  - rewrite Et, Em, <-!app_assoc. done.
  - destruct (question_stands _) eqn:Eq; [|done]. rewrite Hno in Hact. by destruct (proj2 Hact ltac:(by eexists)) as [? [=]].
  - intros Hc. rewrite Etm. by apply Hlate.
  - rewrite <-Hobs. by apply drained_intro.
Qed.

(** An analysis of the engine as it stands, terminal and so acknowledged. *)
Definition terminal_analysis (l : Locals) (a : TranscriptAnalysis) : Prop :=
  analyze show_debug (lo_engine l) = Ok a /\ exists final_turn, ta_status a = Terminal final_turn.

Lemma confirm_wp deadline l a evidence batch w :
  tracks l (tk_trace w) -> wa_active_needs_input (lo_watch l) = None ->
  lo_position l = ba_position batch -> terminal_analysis l a ->
  evidenced (tk_trace w) a batch evidence ->
  twp (confirm self deadline l a evidence) w (goes_on w) X.
Proof.
  intros [Hb (Hs & Hw & Har)] Hno Hpos [Ha [f Hf]] Hev. unfold confirm.
  eapply read_rows_wp; [exact Hb|exact Har|]. intros confirmation o w1 G1 Har1 Hb1 Hsame.
  assert (Hs1 : follows (lo_watch l) o (tk_trace w1)).
  { split; [|split; [|done]]; rewrite (proj1 G1); [by apply since_ok_snoc|by rewrite screens_of_app]. }
  set (changed := negb _ || _ || _). destruct changed eqn:Ec.
  { apply twp_ret. split; [by split|apply G1]. }
  unfold changed in Ec. rewrite !orb_false_iff, !negb_false_iff in Ec. destruct Ec as [[Hp Hr] Hd].
  apply bool_decide_eq_true in Hp. assert (Hrows : ba_rows confirmation = []) by by destruct (ba_rows confirmation).
  eapply twp_mono; [|intros r w'; apply (goes_on_weaken w w1); apply G1|done].
  eapply (commit_wp deadline _ a evidence batch confirmation (tk_trace w)); try done.
  - by rewrite (proj1 G1), Hpos.
  - by rewrite Hp.
  - simpl. by rewrite (Hsame Hrows).
  - by eapply terminal_is_acknowledged.
  - by exists f.
Qed.

Lemma try_complete_wp deadline l a batch t0 from mid w :
  tracks l (tk_trace w) -> lo_position l = ba_position batch -> terminal_analysis l a ->
  tk_trace w = t0 ++ [Polled from batch] ++ mid -> Forall (fun e => is_Some (sent_of e)) mid ->
  twp (try_complete self deadline l a batch) w (goes_on w) X.
Proof.
  intros Ht Hpos Ha Et Hmid. unfold try_complete.
  destruct (wa_active_needs_input (lo_watch l)) eqn:Hno; [by apply sleep_goes_on|].
  pose proof Ht as [Hb Hs]. apply twp_bind, await_driver_wp; [apply Hb|]. intros evidence w1 G1.
  apply twp_bind, log_wp. intros w2 G2. pose proof (grew_trans _ _ _ _ _ G1 G2) as G.
  assert (Ht2 : tracks l (tk_trace w2)).
  { split; [by eapply grew_base|]. eapply grew_follows; [done|exact G|by apply Forall_singleton]. }
  set (ends := te_ready_prompt evidence && te_quiet evidence && _).
  eapply twp_mono; [|intros r w'; apply (goes_on_weaken w w2); apply G|done].
  destruct ends eqn:Ee; [|by apply sleep_goes_on].
  unfold ends in Ee. rewrite !andb_true_iff in Ee. destruct Ee as [[Hr Hq] Hd].
  eapply confirm_wp; [done|done|done|done|]. split; try done.
  exists t0, from, mid. rewrite (proj1 G), Et, <-!app_assoc. done.
Qed.

Lemma conclude_wp deadline l a batch t0 from mid w :
  tracks l (tk_trace w) -> lo_position l = ba_position batch -> analyze show_debug (lo_engine l) = Ok a ->
  (is_Some (ta_acknowledgement a) -> pr_emitted_ack (lo_progress l) = true) ->
  tk_trace w = t0 ++ [Polled from batch] ++ mid -> Forall (fun e => is_Some (sent_of e)) mid ->
  twp (conclude self deadline l a batch) w (goes_on w) X.
Proof.
  intros Ht Hpos Ha Hack Et Hmid. unfold conclude.
  destruct (ta_status a) as [| |f] eqn:Ef; [by apply sleep_goes_on..|].
  pose proof Ht as [Hb Hs]. apply twp_bind. eapply announce_candidate_wp; [exact Hb| |].
  { by eapply Hack, terminal_is_acknowledged. }
  intros p' w1 Hr Hb1. pose proof Hr as (mid' & G & Hmid').
  eapply twp_mono; [|intros r w'; apply (goes_on_weaken w w1); apply G|done].
  eapply (try_complete_wp deadline _ a batch t0 from (mid ++ mid')).
  - split; [done|]. by eapply reported_follows.
  - done.
  - split; [done|by exists f].
  - rewrite (proj1 G), Et, <-!app_assoc. done.
  - by apply Forall_app_2.
Qed.

Lemma analyze_calls_safe w :
  EnginePath.safe (analyze show_debug (calls nfc (engine_calls prompt (tk_trace w))))
  \/ U64_MAX < N.of_nat (length (engine_calls prompt (tk_trace w))).
Proof.
  destruct (N.le_gt_cases (N.of_nat (length (engine_calls prompt (tk_trace w)))) U64_MAX); [left|by right].
  by apply analyze_safe.
Qed.

Lemma rows_restart_follows wa o o' w from batch w' :
  follows wa o (tk_trace w) -> grew w [Polled from batch] w' -> arrived o' (reads (tk_trace w')) ->
  follows (rows_restart_veto wa (ba_rows batch)) o' (tk_trace w').
Proof.
  intros (Hs & Hw & _) G Ha. split; [|split; [|done]]; rewrite (proj1 G).
  - destruct (ba_rows batch) as [|r rows] eqn:Er; [|by apply since_ok_none]. by apply since_ok_snoc.
  - rewrite screens_of_app. simpl. destruct (ba_rows batch); [done|by apply watched_since].
Qed.

Lemma round_wp deadline l w :
  tracks l (tk_trace w) ->
  twp (round self deadline l) w
    (fun r w' => match r with
                 | inl l' => tracks l' (tk_trace w') /\ (tk_clocks w < tk_clocks w')%nat /\
                             clock (tk_clocks w) < dl_unix_ms deadline
                 | inr _ => False
                 end) X.
Proof.
  intros [Hb Hs]. apply twp_bind, return_if_expired_wp; [apply Hb|]. intros w1 G1 Hlt Hclock.
  apply twp_bind, ask_wp. intros runs w2 G2. pose proof (grew_trans _ _ _ _ _ G1 G2) as G.
  assert (Hb2 : base (lo_emitted l) (lo_progress l) (lo_engine l) (lo_position l) (tk_trace w2)) by by rewrite (grew_nil _ _ G).
  assert (Hlt2 : (tk_clocks w < tk_clocks w2)%nat) by (destruct G2; lia).
  destruct runs; simpl; [|apply abort_wp, Hb2].
  apply twp_bind, await_driver_wp; [apply Hb2|]. intros screen w3 G3. apply twp_bind, log_wp. intros w4 G4.
  pose proof (grew_trans _ _ _ _ _ G3 G4) as G'. simpl in G'.
  apply twp_bind. eapply (watch_screen_wp _ _ _ _ (lo_watch l) _ _ screen (tk_trace w2));
    [by eapply grew_base|exact (proj1 G')|by rewrite (grew_nil _ _ G)|].
  intros wa w5 Hc5 Hb5 Hs5. eapply read_rows_wp; [exact Hb5|apply Hs5|]. intros batch o w6 G6 Ha6 Hb6 _.
  apply twp_bind, engine_result_wp; [apply Hb6|apply analyze_calls_safe|]. intros a Ha.
  apply twp_bind. eapply acknowledge_wp; [exact Hb6|]. intros p' w7 Hr7 Hb7 Hack.
  apply twp_bind. eapply emit_analysis_deltas_wp; [exact Hb7| |].
  2:{ intros error w8 Ho8. by apply twp_bind, fail_turn_wp. }
  intros em' w8 Hr8 Hb8. apply twp_bind, twp_ret.
  pose proof (reported_trans _ _ _ Hr7 Hr8) as Hr. pose proof Hr as (mid & Gm & Hmid).
  eapply twp_mono; [eapply (conclude_wp deadline _ a batch (tk_trace w5) _ mid)| |done].
  - split; [done|]. eapply reported_follows; [by eapply rows_restart_follows|done].
  - done.
  - done.
  - done.
  - rewrite (proj1 Gm), (proj1 G6), <-app_assoc. done.
  - done.
  - intros [l'|[]] w9; simpl; [|done]. intros [Ht9 Hc9]. split_and!; [done| |done].
    destruct Gm, G6, G'. lia.
Qed.

(** ** The whole worker *)

Lemma orderly_nil : orderly [].
Proof.
  split; try done; try apply NoDup_nil_2.
  - by exists LIFE.
Qed.

Lemma orderly_armed arm : orderly [Armed arm].
Proof. apply (orderly_snoc [] (Armed arm)); try done; [apply orderly_nil|by exists LIFE]. Qed.

Lemma submit_turn_wp deadline w (Q : Locals -> World WorkerEvent -> Prop) :
  tk_trace w = [] -> (forall l w', tracks l (tk_trace w') -> Q l w') ->
  twp (submit_turn self deadline) w Q X.
Proof.
  intros E HQ. assert (Ho : orderly (tk_trace w)) by (rewrite E; apply orderly_nil).
  apply twp_bind, await_driver_wp; [done|]. intros arm w1 G1. apply twp_bind, log_wp. intros w2 G2.
  assert (E2 : tk_trace w2 = [Armed arm]) by by rewrite (proj1 (grew_trans _ _ _ _ _ G1 G2)), E.
  apply twp_bind. apply (ingest_rows_wp _ []); [rewrite E2; apply orderly_armed|].
  destruct (arm_turn nfc prompt _) as [armed engine] eqn:Earm.
  apply twp_bind, engine_result_wp; [rewrite E2; apply orderly_armed|left; by destruct armed|]. intros _ _.
  apply twp_bind, return_if_expired_wp; [rewrite E2; apply orderly_armed|]. intros w3 G3 _ _.
  apply twp_bind, log_wp. intros w4 G4.
  assert (Ho4 : orderly (tk_trace w4)).
  { rewrite (proj1 (grew_trans _ _ _ _ _ G3 G4)), E2. apply orderly_plain; [apply orderly_armed|by split_and!]. }
  apply twp_bind, await_driver_wp; [done|]. intros _ w5 G5. apply twp_bind, log_wp. intros w6 G6.
  apply twp_bind, log_wp. intros w7 G7. apply twp_ret, HQ.
  assert (E7 : tk_trace w7 = (([Armed arm] ++ [Typing prompt (dl_unix_ms deadline)]) ++ [Typed])
                             ++ [Sent (UState tid S.AwaitingPromptAck)]).
  { rewrite (proj1 G7), (proj1 (grew_trans _ _ _ _ _ G5 G6)), (proj1 (grew_trans _ _ _ _ _ G3 G4)), E2. done. }
  assert (E4 : tk_trace w4 = [Armed arm] ++ [Typing prompt (dl_unix_ms deadline)]).
  { by rewrite (proj1 (grew_trans _ _ _ _ _ G3 G4)), E2. }
  rewrite E7. split; [|split; [by apply since_ok_none|]; split; [split; [done|by split; intros [? [=]]|done]|split; [done|..]; intros _; split; by intros [? [=]] || by intros [=]]].
  split; try done.
  - apply orderly_state; [apply orderly_plain; [by rewrite <-E4|by split_and!]|]. simpl. by eexists.
  - simpl. unfold engine_calls. simpl. rewrite app_nil_r, calls_app. simpl.
    change (calls nfc ([] ++ (Ingest <$> arm_historical_rows arm))) with (calls nfc (Ingest <$> arm_historical_rows arm)) in Earm.
    by rewrite Earm.
  - by intros [? ?].
  - intros i. simpl. set_solver.
  - intros i. simpl. set_solver.
Qed.

(** A run is its loop, started with the variables in step with the trace. *)
Lemma run_worker_wp rounds (Q : unit -> World WorkerEvent -> Prop) :
  (forall deadline l w,
     checked_turn_deadline_unix_ms (tr_deadline_unix_ms (wk_turn self)) (wk_submitted_at_ms self)
       (wk_default_turn_timeout_ms self) = Ok (dl_unix_ms deadline) ->
     tracks l (tk_trace w) -> twp (iterate rounds (round self deadline) l) w Q X) ->
  twp (run_worker self rounds) start Q X.
Proof.
  intros Hloop. unfold run_worker, TurnDeadline_new. apply twp_bind.
  destruct (checked_turn_deadline_unix_ms _ _ _) as [unix_ms|error] eqn:Ed.
  2:{ apply twp_ret. apply twp_bind, fail_turn_wp, orderly_nil. }
  apply twp_bind, read_clock_wp. intros w1 G1. apply twp_bind, read_instant_wp. intros w2 G2.
  apply twp_ret, twp_bind, twp_ret, twp_bind, ask_wp. intros runs w3 G3.
  pose proof (grew_trans _ _ _ _ _ (grew_trans _ _ _ _ _ G1 G2) G3) as G.
  assert (E3 : tk_trace w3 = []) by by rewrite (grew_nil _ _ G).
  destruct runs; simpl; [|apply abort_wp; rewrite E3; apply orderly_nil].
  apply twp_bind, submit_turn_wp; [done|]. intros l w' Ht. by apply Hloop.
Qed.

End Proofs.
