(* ===== verification/WorkerTheorems.v ===== *)
(** * Turn workers: results

    Theorems about whole runs of a turn worker and of the two recovery tasks, against any
    driver and any clocks, and what they guarantee to the session actor. *)

From S2P Require Import Prelude Text Protocol Composer Transcript Engine EngineIngest EnginePath EngineTurn EngineVerdict.
From S2P Require Import Session Screen Backend Actor ActorOps ActorProofs ActorTurns ActorSteps Task TurnResults Worker WorkerProofs.

Section Runs.
Context `{Host} `{Driver}.
Variable self : TurnWorker.
Abbreviation tid := (turn_id self).
Abbreviation prompt := (tr_prompt (wk_turn self)).

(** How a run ends, with the trace it leaves. *)
Definition worker_ended (e : Exit) (w : World WorkerEvent) : Prop :=
  match e with
  | Returned => exists t l, tk_trace w = t ++ l /\ orderly self t /\
      (dying self l \/
       exists result deadline, l = [Sent (UCompleted tid result deadline)] /\ committed self t result)
  | Panicking => orderly self (tk_trace w) /\ U64_MAX < N.of_nat (length (engine_calls prompt (tk_trace w)))
  | OutOfRounds => orderly self (tk_trace w)
  end.

Lemma worker_runs rounds : twp (run_worker self rounds) start (fun _ _ => False) worker_ended.
Proof.
  apply run_worker_wp.
  - intros w t l Ho Hd E. exists t, l. auto.
  - intros w t result deadline Ho Hc E. exists t, [Sent (UCompleted tid result deadline)]. eauto 10.
  - by intros w Ho Hn.
  - intros deadline l w _ Ht. eapply (twp_iterate (fun l w => tracks self l (tk_trace w))); [|by intros ? ? [[]]|done].
    intros l' w' Ht'. eapply twp_mono; [apply (round_wp self worker_ended)| |done]; [..|done|].
    + intros w1 t1 l1 Ho Hd E. exists t1, l1. auto.
    + intros w1 t1 result dl Ho Hc E. exists t1, [Sent (UCompleted tid result dl)]. eauto 10.
    + by intros w1 Ho Hn.
    + intros [l''|[]] w''; [|done]. by intros [? _].
Qed.

(** The trace of any run: orderly up to what the worker ends with. *)
Lemma worker_trace rounds w :
  snd (run_worker self rounds start) = w ->
  exists t l, tk_trace w = t ++ l /\ orderly self t /\
    (l = [] /\ fst (run_worker self rounds start) <> Ended Returned \/
     fst (run_worker self rounds start) = Ended Returned /\
     (dying self l \/ exists result deadline, l = [Sent (UCompleted tid result deadline)] /\ committed self t result)).
Proof.
  pose proof (worker_runs rounds) as Hrun. unfold twp in Hrun.
  destruct (run_worker self rounds start) as [[x|[]] w'] eqn:E; simpl; [done|..]; intros <-.
  - destruct Hrun as (t & l & Et & Ho & Hl). exists t, l. auto.
  - destruct Hrun as [Ho _]. exists (tk_trace w'), []. rewrite app_nil_r. split_and!; auto.
  - exists (tk_trace w'), []. rewrite app_nil_r. split_and!; auto.
Qed.

End Runs.

Lemma worker_completed `{Host} `{Driver} self rounds result deadline :
  Sent (UCompleted (turn_id self) result deadline) ∈ tk_trace (snd (run_worker self rounds start)) ->
  exists t, tk_trace (snd (run_worker self rounds start)) = t ++ [Sent (UCompleted (turn_id self) result deadline)] /\
    orderly self t /\ committed self t result.
Proof.
  intros Hin. destruct (worker_trace self rounds _ eq_refl) as (t & l & Et & Ho & Hl). rewrite Et in Hin |- *.
  apply elem_of_app in Hin as [Hin|Hin].
  { pose proof (proj1 (Forall_forall _ _) (o_open _ _ Ho) _ Hin) as []. }
  destruct Hl as [[-> _]|[_ [Hd|(r & d & -> & Hc)]]].
  - by apply not_elem_of_nil in Hin.
  - destruct Hd; rewrite ?elem_of_cons, ?elem_of_nil in Hin; naive_solver.
  - apply list_elem_of_singleton in Hin. simplify_eq. by exists t.
Qed.

(** ** The claims *)


(** A worker reports the end of its turn once and last, and reports it unless it was
    told to stop: every update before it is about this turn, leaves it open and has a form
    the session actor admits, and nothing follows it. *)
Theorem worker_reports_one_end `{Host} `{Driver} self rounds :
  let r := run_worker self rounds start in
  exists updates finish, omap sent_of (tk_trace (snd r)) = updates ++ finish /\
    Forall (open_update self) updates /\
    (fst r <> Ended Returned -> finish = []) /\
    (fst r = Ended Returned ->
       (finish = [] /\ last (tk_trace (snd r)) = Some AbortSeen) \/
       (exists error reaped, finish = [UFailed (turn_id self) error reaped]) \/
       (exists result deadline, finish = [UCompleted (turn_id self) result deadline])).
Proof.
  intros r. destruct (worker_trace self rounds _ eq_refl) as (t & l & Et & Ho & Hl). fold r in Et, Hl.
  exists (omap sent_of t), (omap sent_of l). split_and!.
  - by rewrite Et, omap_app.
  - apply Forall_forall. intros u (e & He & Hu)%list_elem_of_omap.
    pose proof (proj1 (Forall_forall _ _) (o_open _ _ Ho) _ He) as Hopen.
    destruct e; simplify_eq/=. exact Hopen.
  - intros Hne. by destruct Hl as [[-> _]|[? _]].
  - intros Hr. destruct Hl as [[_ ?]|[_ [Hd|(res & d & -> & _)]]]; [done| |].
    + destruct Hd as [|error reaped|]; simpl.
      * left. split; [done|]. rewrite Et. apply last_snoc.
      * right; left. by exists error, reaped.
      * right; left. by eexists _, _.
    + right; right. by exists res, d.
Qed.

(** A property of a whole trace that the last events of a worker cannot break. *)
Lemma worker_trace_all `{Host} `{Driver} self rounds (P : list WorkerEvent -> Prop) :
  (forall t, orderly self t -> P t) ->
  (forall t e, P t -> e = AbortSeen \/ e = ForceClosing \/
     (exists error reaped, e = Sent (UFailed (turn_id self) error reaped)) \/
     (exists result deadline, e = Sent (UCompleted (turn_id self) result deadline)) -> P (t ++ [e])) ->
  P (tk_trace (snd (run_worker self rounds start))).
Proof.
  intros Ho Hsnoc. destruct (worker_trace self rounds _ eq_refl) as (t & l & -> & Ht & Hl).
  specialize (Ho t Ht). destruct Hl as [[-> _]|[_ [Hd|(result & deadline & -> & _)]]].
  - by rewrite app_nil_r.
  - destruct Hd as [|error reaped|].
    + apply Hsnoc; auto.
    + rewrite cons_middle, app_assoc. apply Hsnoc; [apply Hsnoc; auto|]. eauto 10.
    + rewrite cons_middle, app_assoc. apply Hsnoc; [apply Hsnoc; eauto 10|]. auto.
  - apply Hsnoc; [done|]. eauto 10.
Qed.

(** What a worker reports comes in order and once: the states it reports are, in this
    order and without repetition, awaiting the acknowledgement, running, terminal
    candidate and draining; no tool is reported started twice or completed twice, and a
    tool reported completed was reported started. *)
Theorem worker_reports_in_order `{Host} `{Driver} self rounds :
  let t := tk_trace (snd (run_worker self rounds start)) in
  omap state_of t `prefix_of` LIFE /\ NoDup (omap started_of t) /\ NoDup (omap completed_of t) /\
  (forall i, i ∈ omap completed_of t -> i ∈ omap started_of t).
Proof.
  apply (worker_trace_all self rounds (fun t =>
    omap state_of t `prefix_of` LIFE /\ NoDup (omap started_of t) /\ NoDup (omap completed_of t) /\
    (forall i, i ∈ omap completed_of t -> i ∈ omap started_of t))).
  - intros t []. done.
  - intros t e Ht He. rewrite !omap_snoc.
    assert (state_of e = None /\ started_of e = None /\ completed_of e = None) as (-> & -> & ->)
      by (destruct He as [->|[->|[(? & ? & ->)|(? & ? & ->)]]]; done).
    by rewrite !app_nil_r.
Qed.

(** A worker reads the transcript without a gap: every read starts exactly where the
    one before it ended, the first where the transcript was armed. *)
Theorem worker_reads_without_gaps `{Host} `{Driver} self rounds n e from :
  tk_trace (snd (run_worker self rounds start)) !! n = Some e -> read_from e = Some from ->
  position_of (take n (tk_trace (snd (run_worker self rounds start)))) = Some from.
Proof.
  revert n e from. apply (worker_trace_all self rounds (fun t => forall n e from,
    t !! n = Some e -> read_from e = Some from -> position_of (take n t) = Some from)); [by intros t []|].
  intros t e Ht He n x from Hn Hx.
  refine (prefix_lookups (fun x pre => forall from, read_from x = Some from -> position_of pre = Some from)
            t e _ _ n x Hn from Hx); [by intros m y Hm f; apply Ht|].
  intros f. by destruct He as [->|[->|[(? & ? & ->)|(? & ? & ->)]]].
Qed.

(** The veto on an unrecognised screen is taken only on a turn that stood still by both
    measures: since the first screen of the stretch at least thirty seconds have passed on
    the clock, every screen observed in it matched no rule, and no read of a round brought
    a row. *)
Theorem veto_needs_a_standstill `{Host} `{Driver} self rounds n held :
  tk_trace (snd (run_worker self rounds start)) !! n = Some (Vetoed held) ->
  stood_still (take n (tk_trace (snd (run_worker self rounds start)))) held.
Proof.
  revert n held. apply (worker_trace_all self rounds (fun t => forall n held,
    t !! n = Some (Vetoed held) -> stood_still (take n t) held)); [by intros t []|].
  intros t e Ht He n held Hn.
  refine (prefix_lookups (fun x pre => forall held, x = Vetoed held -> stood_still pre held)
            t e _ _ n _ Hn held eq_refl); [by intros m y Hm h ->; apply Ht|].
  intros h. by destruct He as [->|[->|[(? & ? & ->)|(? & ? & ->)]]].
Qed.

(** C25. A worker ends: if the wall clock is past the turn's deadline from its reading number
    [k] on, the worker returns within [k + 1] rounds of its loop, whatever the driver
    answers and however its calls interleave with the timers; the only other way to end
    is a panic of the engine, which takes more calls than a [u64] can count. *)
Theorem worker_ends_at_its_deadline `{Host} `{Driver} self unix_ms (k : nat) :
  checked_turn_deadline_unix_ms (tr_deadline_unix_ms (wk_turn self)) (wk_submitted_at_ms self)
    (wk_default_turn_timeout_ms self) = Ok unix_ms ->
  (forall n, (k <= n)%nat -> unix_ms <= clock n) ->
  let r := run_worker self (S k) start in
  fst r = Ended Returned \/
  fst r = Ended Panicking /\
    U64_MAX < N.of_nat (length (engine_calls (tr_prompt (wk_turn self)) (tk_trace (snd r)))).
Proof.
  intros Hd Hclock r.
  set (X := fun e (w : World WorkerEvent) => e = Returned \/ e = Panicking /\
    U64_MAX < N.of_nat (length (engine_calls (tr_prompt (wk_turn self)) (tk_trace w)))).
  assert (Hrun : twp (run_worker self (S k)) start (fun _ _ => False) X).
  { apply run_worker_wp; [by left|by left|by right|].
    intros deadline l w Hdl Ht. rewrite Hd in Hdl. injection Hdl as Hdl.
    eapply (twp_iterate_measure (fun l w => tracks self l (tk_trace w)) (fun w => (k - tk_clocks w)%nat));
      [|done|lia].
    intros l' w' Ht'. eapply twp_mono; [apply (round_wp self X); [by left|by left|by right|done]| |done].
    intros [l''|[]] w''; [|done]. intros (Htr & Hlt & Hc). split; [done|].
    destruct (Nat.le_gt_cases k (tk_clocks w')) as [Hge|]; [|lia].
    specialize (Hclock _ Hge). lia. }
  unfold twp in Hrun. unfold r. destruct (run_worker self (S k) start) as [[x|e] w]; simpl in *; [done|].
  destruct Hrun as [->|[-> Hn]]; auto.
Qed.
