(* ===== verification/WorkerRecovery.v ===== *)
(** * The recovery tasks: results

    What the tasks started after a cancel and after a writable attachment report, and
    that whatever any task of a session reports is something the session actor admits. *)

From S2P Require Import Prelude Text Protocol Composer Transcript Engine EngineIngest EnginePath EngineTurn EngineVerdict.
From S2P Require Import Session Screen Backend Actor ActorOps ActorProofs ActorTurns ActorSteps ActorEvents EventStream ActorClose ActorTheorems Task TurnResults Worker WorkerProofs WorkerTheorems.

(** Splits on the condition a task branches on. *)
Ltac tcase E :=
  lazymatch goal with |- twp (if ?b then _ else _) _ _ _ => destruct b eqn:E end.

Section Recovery.
Context `{Host} `{Driver}.

(** The trace so far has no report, and the monotonic clock has been read at least so often. *)
Definition silent (t : list WorkerEvent) : Prop := omap sent_of t = [].

Definition reads_from (n : nat) (w : World WorkerEvent) : Prop := (n <= tk_instants w)%nat.

Lemma silent_snoc t e : silent t -> sent_of e = None -> silent (t ++ [e]).
Proof. intros Ht He. unfold silent. by rewrite omap_snoc, Ht, He. Qed.

(** A read that changed nothing, drained. *)
Definition calm (p : TranscriptPosition) (batch : TranscriptBatch) (required : N) : Prop :=
  ba_position batch = p /\ ba_rows batch = [] /\ satisfies (ba_drain batch) required = true.

(** What the wait for a still transcript may leave. *)
Definition stabilized (required : N) (verdict : bool) (w : World WorkerEvent) : Prop :=
  silent (tk_trace w) /\
  (verdict = true -> exists t p batch, tk_trace w = t ++ [Polled p batch] /\ calm p batch required).

Variable X : Exit -> World WorkerEvent -> Prop.

Lemma bounded_wp {A} (future : nat -> A) w Q :
  (forall x w', tk_trace w' = tk_trace w -> tk_instants w' = tk_instants w -> Q x w') -> twp (bounded future) w Q X.
Proof.
  intros HQ. apply twp_bind, twp_ask. intros ok w1 E1 _ I1. destruct ok; [|by apply twp_ret, HQ].
  apply twp_bind, twp_ask. intros x w2 E2 _ I2. apply twp_ret, HQ; congruence.
Qed.

Lemma stabilize_round_wp required deadline p w :
  silent (tk_trace w) ->
  twp (stabilize_round required deadline p) w
    (fun r w' => match r with
                 | inl _ => silent (tk_trace w') /\ (tk_instants w < tk_instants w')%nat /\
                            instant (tk_instants w) < deadline
                 | inr verdict => stabilized required verdict w'
                 end) X.
Proof.
  intros Hs. apply twp_bind, twp_read_instant. intros w1 E1 _ I1.
  assert (Hs1 : silent (tk_trace w1)) by by rewrite E1.
  destruct (N.leb_spec deadline (instant (tk_instants w))); [by apply twp_ret|].
  apply twp_bind, bounded_wp. intros [[batch|failure]|] w2 E2 I2; [|apply twp_ret; unfold stabilized; by rewrite E2..].
  apply twp_bind, twp_log. intros w3 E3 _ I3.
  assert (Hs3 : silent (tk_trace w3)) by (rewrite E3, E2; by apply silent_snoc).
  destruct (validate_position p batch); [|by apply twp_ret].
  cbv zeta. tcase Eu.
  - apply twp_ret. split; [done|]. intros _. rewrite !andb_true_iff, bool_decide_eq_true in Eu.
    destruct Eu as [[Hp Hr] Hd]. exists (tk_trace w2), p, batch. split; [done|]. split_and!; [done| |done].
    by destruct (ba_rows batch).
  - apply twp_bind, twp_read_instant. intros w4 E4 _ I4. assert (Hs4 : silent (tk_trace w4)) by by rewrite E4.
    tcase Ed; [by apply twp_ret|].
    apply twp_bind, twp_log. intros w5 E5 _ I5. apply twp_ret. rewrite E5.
    split_and!; [by apply silent_snoc|lia|done].
Qed.

(** The wait ends when the monotonic clock passes its deadline. *)
Lemma stabilize_loop_ends rounds required deadline (k : nat) p w :
  silent (tk_trace w) -> (forall n, (k <= n)%nat -> deadline <= instant n) -> (k < rounds)%nat ->
  twp (iterate rounds (stabilize_round required deadline) p) w (stabilized required) X.
Proof.
  intros Hs Hk Hr.
  eapply (twp_iterate_measure (fun _ w => silent (tk_trace w)) (fun w => (k - tk_instants w)%nat)); [|done|lia].
  intros p' w3 Hs3. eapply twp_mono; [by apply stabilize_round_wp| |done].
  intros [p''|verdict] w4; [|done]. intros (Hs4 & Hlt & Hc). split; [done|].
  destruct (Nat.le_gt_cases k (tk_instants w3)) as [Hge|]; [|lia]. specialize (Hk _ Hge). lia.
Qed.

Lemma stabilize_loop rounds required deadline p w :
  silent (tk_trace w) -> (forall w', silent (tk_trace w') -> X OutOfRounds w') ->
  twp (iterate rounds (stabilize_round required deadline) p) w (stabilized required) X.
Proof.
  intros Hs HX. eapply (twp_iterate (fun _ w => silent (tk_trace w))); [|by intros _ w'; apply HX|done].
  intros p' w3 Hs3. eapply twp_mono; [by apply stabilize_round_wp| |done].
  intros [p''|verdict] w4; [|done]. by intros (Hs4 & _).
Qed.

Lemma stabilize_wp rounds required deadline w :
  silent (tk_trace w) ->
  (forall p w', silent (tk_trace w') -> twp (iterate rounds (stabilize_round required deadline) p) w' (stabilized required) X) ->
  twp (stabilize_cancelled_transcript rounds required deadline) w (stabilized required) X.
Proof.
  intros Hs Hloop. apply twp_bind, bounded_wp. intros [[arm|failure]|] w1 E1 I1.
  2,3: apply twp_ret; unfold stabilized; by rewrite E1.
  apply twp_bind, twp_log. intros w2 E2 _ _. apply Hloop. rewrite E2, E1. by apply silent_snoc.
Qed.

(** The report of a cancel and what stands behind it. *)
Definition cancel_reported (turn : TurnId) (required : N) (t : list WorkerEvent) : Prop :=
  exists t0 u, t = t0 ++ [Sent u] /\ silent t0 /\
    ((exists at_ms p batch t1, u = UCancelled turn CancelDone true at_ms false /\
        t0 = t1 ++ [Polled p batch] /\ calm p batch required) \/
     (ForceClosing ∈ t0 /\
      ((exists at_ms reaped, u = UCancelled turn CancelRecoveryFailed false at_ms reaped) \/
       exists error reaped, u = UFailed turn error reaped))).

Lemma reap_and_report_wp turn required w (u : bool -> WorkerUpdate) (Q : unit -> World WorkerEvent -> Prop) :
  silent (tk_trace w) ->
  (forall b, (exists at_ms reaped, u b = UCancelled turn CancelRecoveryFailed false at_ms reaped) \/
             exists error reaped, u b = UFailed turn error reaped) ->
  (forall w', cancel_reported turn required (tk_trace w') -> Q tt w') ->
  twp (let% reaped := force_reap_terminal in send (u reaped)) w Q X.
Proof.
  intros Hs Hu HQ. apply twp_bind, twp_bind, twp_log. intros w1 E1 _ _. apply twp_bind, twp_ask. intros a w2 E2 _ _.
  apply twp_ret, twp_log. intros w3 E3 _ _. apply HQ. eexists (tk_trace w2), _. split; [exact E3|].
  rewrite E2, E1. split; [by apply silent_snoc|]. right. split; [|apply Hu]. apply elem_of_app. right. by left.
Qed.

Lemma cancel_recovery_wp rounds turn timeout drain w (Q : unit -> World WorkerEvent -> Prop) :
  silent (tk_trace w) ->
  (forall p w', silent (tk_trace w') ->
     twp (iterate rounds (stabilize_round drain (instant (tk_instants w) + timeout + drain * 1000000)) p) w'
       (stabilized drain) X) ->
  (forall w', cancel_reported turn drain (tk_trace w') -> Q tt w') ->
  twp (cancel_recovery rounds turn timeout drain) w Q X.
Proof.
  intros Hs Hloop HQ. apply twp_bind, twp_log. intros w1 E1 _ I1.
  assert (Hs1 : silent (tk_trace w1)) by (rewrite E1; by apply silent_snoc).
  apply twp_bind, bounded_wp. intros interrupt w2 E2 I2. assert (Hs2 : silent (tk_trace w2)) by by rewrite E2.
  set (recovered := match interrupt with
                    | Some (Ok RecoveredToReady) =>
                        let% now := read_instant instant in
                        stabilize_cancelled_transcript rounds drain (now + timeout + drain * 1000000)
                    | _ => tret false
                    end).
  assert (Hrec : twp recovered w2 (fun verdict w' => stabilized drain verdict w') X).
  { unfold recovered. destruct interrupt as [[[]|]|]; try (by apply twp_ret).
    apply twp_bind, twp_read_instant. intros w3 E3 _ _. apply stabilize_wp; [by rewrite E3|].
    by rewrite I2, I1. }
  destruct interrupt as [[r|failure]|].
  2:{ eapply reap_and_report_wp; [done|right; by eexists _, _|done]. }
  all: apply twp_bind; (eapply twp_mono; [exact Hrec| |done]); intros verdict w3 [Hs3 Hv].
  all: apply twp_bind, twp_read_clock; intros w4 E4 _ _.
  all: destruct verdict; [|eapply reap_and_report_wp; [by rewrite E4|left; by eexists _, _|done]].
  all: apply twp_log; intros w5 E5 _ _; apply HQ; destruct (Hv eq_refl) as (t & p & batch & E & Hcalm).
  all: eexists (tk_trace w4), _; split; [exact E5|]; rewrite E4; split; [done|left; by eexists _, p, batch, t].
Qed.

(** ** After a writable attachment *)

(** Two drained reads from one cursor with ready and quiet evidence between them. *)
Definition attach_proven (required : N) (t : list WorkerEvent) : Prop :=
  exists t0 cursor first evidence second,
    t = t0 ++ [Polled cursor first; Evidenced evidence; Polled cursor second] /\
    calm cursor first required /\ calm cursor second required /\
    te_ready_prompt evidence = true /\ te_quiet evidence = true.

Definition reconciled (required : N) (r : option (result AttachReconciliation DriverFailure)) (w : World WorkerEvent) : Prop :=
  silent (tk_trace w) /\ (r = Some (Ok AttachReady) -> attach_proven required (tk_trace w)).

Definition round_reconciled (required : N) (r : unit + option (result AttachReconciliation DriverFailure))
    (w : World WorkerEvent) : Prop :=
  match r with inl _ => silent (tk_trace w) | inr r => reconciled required r w end.

Lemma reconcile_call_wp {A} required (future : nat -> result A DriverFailure) k w :
  silent (tk_trace w) ->
  (forall x w', tk_trace w' = tk_trace w -> twp (k x) w' (round_reconciled required) X) ->
  twp (reconcile_call future k) w (round_reconciled required) X.
Proof.
  intros Hs Hk. apply twp_bind, bounded_wp. intros [[x|failure]|] w1 E1 _; [by apply Hk|..];
    apply twp_ret; (split; [by rewrite E1|done]).
Qed.

Lemma unchanged_calm cursor batch required :
  unchanged_from cursor batch = true -> satisfies (ba_drain batch) required = true -> calm cursor batch required.
Proof.
  unfold unchanged_from. rewrite andb_true_iff, bool_decide_eq_true. intros [Hp Hr] Hd.
  split_and!; [done| |done]. by destruct (ba_rows batch).
Qed.

Lemma reconcile_round_wp required cursor w :
  silent (tk_trace w) -> twp (reconcile_round required cursor tt) w (round_reconciled required) X.
Proof.
  intros Hs. apply reconcile_call_wp; [done|]. intros first w1 E1. apply twp_bind, twp_log. intros w2 E2 _ _.
  assert (Hs2 : silent (tk_trace w2)) by (rewrite E2, E1; by apply silent_snoc).
  tcase Eu; [by apply twp_ret|]. apply negb_false_iff in Eu.
  apply twp_bind. eapply (twp_mono _ _ (round_reconciled required)); [| |done].
  2:{ intros [[]|r] w3 Hr; [|by apply twp_ret]. apply twp_bind, twp_log. intros w4 E4 _ _. apply twp_ret.
      simpl. rewrite E4. by apply silent_snoc. }
  tcase Ed; [|by apply twp_ret]. apply reconcile_call_wp; [done|]. intros evidence w3 E3.
  apply twp_bind, twp_log. intros w4 E4 _ _.
  assert (Hs4 : silent (tk_trace w4)) by (rewrite E4, E3; by apply silent_snoc).
  tcase Er.
  - apply andb_true_iff in Er as [Hr Hq]. apply reconcile_call_wp; [done|]. intros second w5 E5.
    apply twp_bind, twp_log. intros w6 E6 _ _. apply twp_ret. split; [rewrite E6, E5; by apply silent_snoc|].
    destruct (unchanged_from cursor second && _) eqn:Ec; [|done]. intros _. apply andb_true_iff in Ec as [Hu Hd].
    exists (tk_trace w1), cursor, first, evidence, second.
    split; [rewrite E6, E5, E4, E3, E2, <-!app_assoc; done|].
    split_and!; [by apply unchanged_calm..|done|done].
  - apply reconcile_call_wp; [done|]. intros screen w5 E5. apply twp_bind, twp_log. intros w6 E6 _ _.
    assert (Hs6 : silent (tk_trace w6)) by (rewrite E6, E5; by apply silent_snoc).
    destruct screen; by apply twp_ret.
Qed.

(** The one report of an attachment's reconciliation. *)
Definition attach_reported (attach_id required : N) (t : list WorkerEvent) : Prop :=
  exists t0 outcome, t = t0 ++ [Sent (UAttachReconciled attach_id outcome)] /\ silent t0 /\
    (outcome = Ok AttachReady -> attach_proven required t0).

Lemma attach_wp rounds attach_id required w (Q : unit -> World WorkerEvent -> Prop) :
  silent (tk_trace w) -> (forall w', silent (tk_trace w') -> X OutOfRounds w') ->
  (forall w', attach_reported attach_id required (tk_trace w') -> Q tt w') ->
  twp (attach_reconciliation rounds attach_id required) w Q X.
Proof.
  intros Hs HX HQ. apply twp_bind, bounded_wp. intros armed w1 E1 _. assert (Hs1 : silent (tk_trace w1)) by by rewrite E1.
  apply twp_bind. eapply (twp_mono _ _ (reconciled required)); [|clear Hs1 E1|done].
  { destruct armed as [[arm|failure]|]; [|by apply twp_ret..]. apply twp_bind, twp_log. intros w2 E2 _ _.
    eapply (twp_iterate (fun _ w => silent (tk_trace w))); [| |rewrite E2; by apply silent_snoc].
    - intros [] w3 Hs3. eapply twp_mono; [by apply reconcile_round_wp| |done]. by intros [[]|r] w4.
    - intros _ w3. apply HX. }
  intros r w2 [Hs2 Hr]. apply twp_bind.
  eapply (twp_mono _ _ (fun outcome w => silent (tk_trace w) /\ (outcome = Ok AttachReady -> attach_proven required (tk_trace w))));
    [| |done].
  { destruct r as [[outcome|failure]|]; [apply twp_ret; split; [done|by intros [= ->]; apply Hr]|by apply twp_ret|].
    apply twp_bind, twp_ask. intros screen w3 E3 _ _. apply twp_ret. rewrite E3. split; [done|].
    by destruct screen as [[]|]. }
  intros outcome w3 [Hs3 Ho]. apply twp_log. intros w4 E4 _ _. apply HQ.
  by exists (tk_trace w3), outcome.
Qed.

End Recovery.

(** ** The claims *)

(** C26. A cancel always gets its answer, and an honest one: once the monotonic clock passes
    the recovery budget the task has ended, it has sent exactly one report, and it is the
    last thing it does. The turn is reported cancelled with the session back at its prompt
    only after a read of the transcript that moved nothing, brought no row and found it
    drained; in every other case the terminal was told to close first. *)
Theorem cancel_answers_honestly `{Host} `{Driver} turn timeout drain (k : nat) :
  (forall n, (k <= n)%nat -> instant 0 + timeout + drain * 1000000 <= instant n) ->
  let r := cancel_recovery (S k) turn timeout drain start in
  fst r = Done tt /\ cancel_reported turn drain (tk_trace (snd r)).
Proof.
  intros Hk r. pose proof (cancel_recovery_wp (fun _ _ => False) (S k) turn timeout drain start
    (fun _ w => cancel_reported turn drain (tk_trace w)) eq_refl) as Hrun.
  assert (Hloop : forall p (w : World WorkerEvent), silent (tk_trace w) -> twp (iterate (S k)
    (stabilize_round drain (instant 0 + timeout + drain * 1000000)) p) w (stabilized drain) (fun _ _ => False)).
  { intros p w Hs. eapply stabilize_loop_ends; [done|exact Hk|lia]. }
  specialize (Hrun Hloop ltac:(done)).
  unfold twp in Hrun. unfold r. by destruct (cancel_recovery _ _ _ _ start) as [[[]|e] w].
Qed.

(** A writable attachment is given back only to a session that is provably where it was:
    the reconciliation reports "ready" last and only after two drained reads from one
    cursor, neither bringing a row nor moving it, with evidence of a ready and quiet
    prompt between them. *)
Theorem attach_ready_is_proven `{Host} `{Driver} rounds attach_id required :
  let r := attach_reconciliation rounds attach_id required start in
  (fst r = Done tt /\ attach_reported attach_id required (tk_trace (snd r))) \/
  (fst r = Ended OutOfRounds /\ silent (tk_trace (snd r))).
Proof.
  intros r. pose proof (attach_wp (fun e w => e = OutOfRounds /\ silent (tk_trace w)) rounds attach_id required start
    (fun _ w => attach_reported attach_id required (tk_trace w)) eq_refl ltac:(done) ltac:(done)) as Hrun.
  unfold twp in Hrun. unfold r. destruct (attach_reconciliation _ _ _ start) as [[[]|e] w]; simpl; [by left|right].
  by destruct Hrun as [-> ?].
Qed.

(** An update that some task of a session sent, against some driver. *)
Inductive task_update `{Host} : WorkerUpdate -> Prop :=
| from_worker (D : Driver) self rounds u :
    Sent u ∈ tk_trace (snd (run_worker self rounds start)) -> task_update u
| from_cancel (D : Driver) rounds turn timeout drain u :
    Sent u ∈ tk_trace (snd (cancel_recovery rounds turn timeout drain start)) -> task_update u
| from_attach (D : Driver) rounds attach_id required u :
    Sent u ∈ tk_trace (snd (attach_reconciliation rounds attach_id required start)) -> task_update u.

Lemma silent_sent t u : silent t -> Sent u ∉ t.
Proof.
  intros Ht Hin. assert (Hu : u ∈ omap sent_of t) by (apply list_elem_of_omap; by exists (Sent u)).
  rewrite Ht in Hu. by apply not_elem_of_nil in Hu.
Qed.

(** A trace of a recovery task sends only the reports of its kind. *)
Lemma cancel_updates `{Host} `{Driver} rounds turn timeout drain u :
  Sent u ∈ tk_trace (snd (cancel_recovery rounds turn timeout drain start)) -> ends_turn u = true.
Proof.
  pose proof (cancel_recovery_wp (fun _ w => silent (tk_trace w)) rounds turn timeout drain start
    (fun _ w => cancel_reported turn drain (tk_trace w)) eq_refl) as Hrun.
  assert (Hloop : forall p (w : World WorkerEvent), silent (tk_trace w) -> twp (iterate rounds
    (stabilize_round drain (instant 0 + timeout + drain * 1000000)) p) w (stabilized drain)
    (fun _ w => silent (tk_trace w))) by (intros p w Hs; by apply stabilize_loop).
  specialize (Hrun Hloop ltac:(done)). unfold twp in Hrun.
  destruct (cancel_recovery _ _ _ _ start) as [[[]|e] w]; simpl; [|intros Hin; by destruct (silent_sent _ u Hrun)].
  destruct Hrun as (t0 & u' & -> & Hs & Hcase). intros [Hin|Hin]%elem_of_app; [by destruct (silent_sent _ u Hs)|].
  apply list_elem_of_singleton in Hin. simplify_eq.
  destruct Hcase as [(? & ? & ? & ? & -> & _)|[_ [(? & ? & ->)|(? & ? & ->)]]]; done.
Qed.

Lemma attach_updates `{Host} `{Driver} rounds attach_id required u :
  Sent u ∈ tk_trace (snd (attach_reconciliation rounds attach_id required start)) ->
  exists outcome, u = UAttachReconciled attach_id outcome.
Proof.
  pose proof (attach_wp (fun _ w => silent (tk_trace w)) rounds attach_id required start
    (fun _ w => attach_reported attach_id required (tk_trace w)) eq_refl ltac:(done) ltac:(done)) as Hrun.
  unfold twp in Hrun. destruct (attach_reconciliation _ _ _ start) as [[[]|e] w]; simpl;
    [|intros Hin; by destruct (silent_sent _ u Hrun)].
  destruct Hrun as (t0 & outcome & -> & Hs & _). intros [Hin|Hin]%elem_of_app; [by destruct (silent_sent _ u Hs)|].
  apply list_elem_of_singleton in Hin. simplify_eq. by exists outcome.
Qed.

(** What a worker sends, in order, as inputs of the actor. *)
Lemma worker_inputs `{Host} (D : Driver) self rounds :
  Forall (fun i => match i with InWorker u => task_update u | _ => True end)
    (InWorker <$> omap sent_of (tk_trace (snd (run_worker self rounds start)))).
Proof.
  apply Forall_fmap, Forall_forall. intros u (e & He & Hu)%list_elem_of_omap. simpl.
  apply (from_worker D self rounds). destruct e; simplify_eq/=. exact He.
Qed.

Lemma task_update_admitted `{Host} u : task_update u -> input_ok (InWorker u).
Proof.
  destruct 1 as [D self rounds u Hin|D rounds turn timeout drain u Hin|D rounds attach_id required u Hin].
  - destruct (worker_trace self rounds _ eq_refl) as (t & l & Et & Ho & Hl). rewrite Et in Hin.
    apply elem_of_app in Hin as [Hin|Hin].
    + pose proof (proj1 (Forall_forall _ _) (o_open _ _ Ho) _ Hin) as Hopen. destruct u; simpl in *; tauto.
    + destruct Hl as [[-> _]|[_ [Hd|(r & d & -> & _)]]]; [by apply not_elem_of_nil in Hin| |].
      * destruct Hd; rewrite ?elem_of_cons, ?elem_of_nil in Hin; destruct_or?; simplify_eq; done.
      * apply list_elem_of_singleton in Hin. by simplify_eq.
  - apply cancel_updates in Hin. by destruct u.
  - apply attach_updates in Hin as [outcome ->]. done.
Qed.

(** C7. The session as a whole never panics, keeps its invariants and answers: an actor
    started by [spawn] and fed any interleaving of commands, screen polls and updates sent
    by turn workers, cancel recoveries and attachment reconciliations, each run against any
    driver and stopped at any point, handles every one of them (or stops because the session
    is closed) and stays well formed. Each command it handled has a reply of its own kind,
    and nothing else has one. A cancel request is answered on a channel of its own: as long
    as reconciliations report between turns, the channels answered and the ones that still
    wait in the active turn are exactly the ones asked on, each as often as it was asked on;
    and they wait only while the turn is being cancelled. The worker's side of the contract
    the actor relies on ([input_ok]) is thereby discharged. *)
Theorem session_with_its_tasks_is_safe `{HostLaws} init c inputs :
  config_ok c ->
  Forall (fun i => match i with InWorker u => task_update u | _ => True end) inputs ->
  exists r, spawn init c = Some r /\
    forall handle a0, r = Ok (handle, a0) ->
      exists replies a, ActorOps.run inputs a0 = Some (replies, a) /\ wf a /\
        (length replies = length inputs \/ state a = S.Closed) /\
        Forall2 replied (take (length replies) inputs) replies /\
        (reconciled_between_turns inputs a0 ->
           answered a ++ waiting a ≡ₚ omap cancel_asked (take (length replies) inputs) /\
           (waiting a <> [] -> state a = S.Cancelling)).
Proof.
  intros Hc Hi. destruct (spawn_wf init c Hc) as (r & Hr & Hok). exists r. split; [done|].
  intros handle a0 ->. destruct Hok as (Hwf & _).
  assert (Hin : Forall input_ok inputs).
  { eapply Forall_impl; [exact Hi|]. intros [command|u|screen]; [done|apply task_update_admitted|done]. }
  destruct (awp_total _ _ _ (run_safe inputs Hin a0 Hwf)) as (rs & a & Hrun & Ha & _). exists rs, a.
  split_and!; [done|done|by eapply run_replies|by eapply run_replied|].
  intros Hrec. exact (run_balanced inputs [] a0 rs a Hrec Hrun (spawn_balanced _ _ _ _ Hr)).
Qed.

(** ** Turn workers: concrete runs

    A driver that types the prompt, shows a ready screen and lets the transcript answer
    in one read; one whose screen is never recognised; and the theorems applied to them. *)

Module WorkerDemo.

#[local] Instance demo_host : Host := {|
  clock n := 1000 + 100 * N.of_nat n; instant n := N.of_nat n; serialized_bytes _ := 200;
  record_size := 96; show_uuid n := pretty n; nfc := id |}.

#[local] Instance demo_laws : HostLaws.
Proof. split; intros; by vm_compute. Qed.

Definition demo_rows : list ParsedRow :=
  [a_prompt_row; a_row (Some "a"%string) (Some "u1"%string) (an_answer "m1" "hi" "end_turn" 11) (JNum 3)].

Definition demo_poll (p : TranscriptPosition) : TranscriptBatch :=
  if pos_offset p =? 0 then mkBatch (mkPosition 7 100) demo_rows (mkDrain true false 0)
  else mkBatch p [] (mkDrain true false 1000).

Definition demo_driver (screen : TerminalScreenObservation) (poll : TranscriptPosition -> TranscriptBatch) : Driver := {|
  race _ := FutureReady; signal_runs _ := true;
  arm_answer _ := Ok (mkArm (mkPosition 7 0) []);
  submit_answer _ := Ok tt;
  screen_answer _ := Ok screen;
  poll_answer _ p := Ok (poll p);
  evidence_answer _ := Ok (mkEvidence true true false false None);
  interrupt_answer _ := Ok RecoveredToReady;
  close_answer _ := Some (Ok true);
  in_time _ := true;
  show_debug := id |}.

#[local] Instance answering : Driver := demo_driver ScreenReady demo_poll.

Definition demo_worker : TurnWorker :=
  mkWorker 1 Full 2
    (mkTurnRequest 9 (text_of "hello") None (mkLeasePolicy ContinueTurn None)) 1000
    (mkCompatibility "2.1.226" "linux" "x86_64" Transparent Sdk true false 500) false 600000.

Abbreviation demo_run := (run_worker demo_worker 5 start).

(** ** The answering driver *)

(** The run ends with the report of a completed turn that says so. *)
Definition says_hi (e : WorkerEvent) : bool :=
  match e with
  | Sent (UCompleted t result _) => (t =? 9) && String.eqb (res_text result) "hi"
  | _ => false
  end.

Lemma demo_completes : exists result deadline,
  Sent (UCompleted (turn_id demo_worker) result deadline) ∈ tk_trace (snd demo_run) /\ res_text result = "hi"%string.
Proof.
  assert (E : from_option says_hi false (last (tk_trace (snd demo_run))) = true) by (vm_compute; reflexivity).
  destruct (last (tk_trace (snd demo_run))) as [e|] eqn:El; [|discriminate E].
  apply last_Some_elem_of in El. destruct e as [| | | | | | | | | | | | |[| | |t result deadline| | |]]; try discriminate E.
  cbn in E. apply andb_true_iff in E as [Et Es]. apply N.eqb_eq in Et. change 9 with (turn_id demo_worker) in Et. subst t. apply String.eqb_eq in Es.
  exists result, deadline. split; assumption.
Qed.


Lemma demo_confirms : exists e, tk_trace (snd demo_run) !! 17%nat = Some e /\ read_from e = Some (mkPosition 7 100).
Proof.
  assert (E : (tk_trace (snd demo_run) !! 17%nat) ≫= read_from = Some (mkPosition 7 100)) by (vm_compute; reflexivity).
  destruct (tk_trace (snd demo_run) !! 17%nat) as [e|]; [|discriminate E]. by exists e.
Qed.

Lemma worker_reads_without_gaps_witness :
  position_of (take 17 (tk_trace (snd demo_run))) = Some (mkPosition 7 100).
Proof.
  destruct demo_confirms as (e & He & Hr).
  exact (worker_reads_without_gaps demo_worker 5 17 e (mkPosition 7 100) He Hr).
Defined.

(** A turn with two seconds to go. *)
Definition hurried_worker : TurnWorker :=
  mkWorker 1 Full 2 (mkTurnRequest 9 (text_of "hello") (Some 3000) (mkLeasePolicy ContinueTurn None)) 1000
    (wk_compatibility demo_worker) false 600000.

Lemma worker_ends_at_its_deadline_witness :
  fst (run_worker hurried_worker 21 start) = Ended Returned \/
  fst (run_worker hurried_worker 21 start) = Ended Panicking /\
    U64_MAX < N.of_nat (length (engine_calls (tr_prompt (wk_turn hurried_worker))
                                  (tk_trace (snd (run_worker hurried_worker 21 start))))).
Proof.
  apply (worker_ends_at_its_deadline hurried_worker 3000 20); [reflexivity|].
  intros n Hn. cbn [clock demo_host]. lia.
Defined.

Lemma cancel_answers_honestly_witness :
  fst (cancel_recovery 11 9 5 0 start) = Done tt /\
  cancel_reported 9 0 (tk_trace (snd (cancel_recovery 11 9 5 0 start))).
Proof. apply (cancel_answers_honestly 9 5 0 10). intros n Hn. cbn [instant demo_host]. lia. Defined.

(** A snapshot request, a cancel of a turn that is not there and the worker's own reports,
    fed to a session. *)
Definition demo_inputs : list Input :=
  InCommand CSnapshot :: InCommand (CCancel 9 4) :: (InWorker <$> omap sent_of (tk_trace (snd demo_run))).

Definition demo_config : SessionActorConfig :=
  mkActorConfig 64 (8 * 1024 * 1024) 16 600000 600000 16 (64 * 1024 * 1024) (8 * 1024 * 1024) 1000000.

Lemma worker_demo_config_ok : config_ok demo_config.
Proof. split; by vm_compute. Qed.

Definition demo_init : ActorInit :=
  mkActorInit 1 2 "/work" (wk_compatibility demo_worker) false false Full None None None.

Definition no_reconciliations (inputs : list Input) : bool :=
  forallb (fun i => match i with InWorker (UAttachReconciled _ _) => false | _ => true end) inputs.

Lemma no_reconciliations_between inputs a : no_reconciliations inputs = true -> reconciled_between_turns inputs a.
Proof.
  intros E. apply no_reconciliation, Forall_forall. intros i Hi%list_elem_of_In. unfold no_reconciliations in E.
  rewrite forallb_forall in E. specialize (E i Hi). by destruct i as [|[]|].
Qed.

Lemma demo_no_reconciliations : no_reconciliations demo_inputs = true.
Proof. vm_compute. reflexivity. Qed.

Lemma session_with_its_tasks_is_safe_witness :
  exists r, spawn demo_init demo_config = Some r /\
    forall handle a0, r = Ok (handle, a0) ->
      exists replies a, ActorOps.run demo_inputs a0 = Some (replies, a) /\ wf a /\
        Forall2 replied (take (length replies) demo_inputs) replies /\
        answered a ++ waiting a ≡ₚ omap cancel_asked (take (length replies) demo_inputs).
Proof.
  destruct (session_with_its_tasks_is_safe demo_init demo_config demo_inputs) as (r & Hr & Hall).
  - exact worker_demo_config_ok.
  - constructor; [exact I|]. constructor; [exact I|exact (worker_inputs answering demo_worker 5)].
  - exists r. split; [exact Hr|]. intros handle a0 E. destruct (Hall handle a0 E) as (rs & a & H1 & H2 & _ & H3 & H4).
    exists rs, a. destruct (H4 (no_reconciliations_between _ a0 demo_no_reconciliations)) as [H5 _]. exact (conj H1 (conj H2 (conj H3 H5))).
Defined.

(** ** A screen without a rule *)

Definition slow_host : Host := {|
  clock n := 1000 + 3000 * N.of_nat n; instant n := N.of_nat n; serialized_bytes _ := 200;
  record_size := 96; show_uuid n := pretty n; nfc := id |}.

Definition strange_screen : TerminalScreenObservation :=
  ScreenUnrecognised (mkShape true 24 80 true true 24 3 false).

Definition strange : Driver := demo_driver strange_screen (fun p => mkBatch p [] (mkDrain true false 0)).

Abbreviation strange_trace := (tk_trace (snd (@run_worker slow_host strange demo_worker 5 start))).

Lemma strange_vetoed : strange_trace !! 14%nat = Some (Vetoed 48000).
Proof. vm_compute. reflexivity. Qed.

Lemma veto_needs_a_standstill_witness : stood_still (take 14 strange_trace) 48000.
Proof. exact (@veto_needs_a_standstill slow_host strange demo_worker 5 14 48000 strange_vetoed). Defined.

(** A row that the confirming read brings does not restart the veto: the answer is already
    in, the screen is not recognised, and the read that confirms the end finds one more
    row; the veto fires in the next round with the row inside its stretch. *)
Definition late_row_driver : Driver := {|
  race _ := FutureReady; signal_runs _ := true;
  arm_answer _ := Ok (mkArm (mkPosition 7 0) []);
  submit_answer _ := Ok tt;
  screen_answer _ := Ok strange_screen;
  poll_answer n p :=
    Ok (if (n =? 22)%nat then mkBatch (mkPosition 7 150) [a_row None None (Metadata "mode") JNull] (mkDrain true false 0)
        else demo_poll p);
  evidence_answer _ := Ok (mkEvidence true true false false None);
  interrupt_answer _ := Ok RecoveredToReady;
  close_answer _ := Some (Ok true);
  in_time _ := true;
  show_debug := id |}.

Definition brings_row (e : WorkerEvent) : bool :=
  match e with Confirmed _ batch => match ba_rows batch with [] => false | _ => true end | _ => false end.

Example confirming_row_does_not_restart_the_veto :
  let t := tk_trace (snd (@run_worker slow_host late_row_driver demo_worker 5 start)) in
  t !! 16%nat = Some (Stamped 64000) /\ brings_row <$> t !! 19%nat = Some true /\
  t !! 21%nat = Some (Stamped 94000) /\ t !! 22%nat = Some (Vetoed 30000).
Proof. vm_compute. auto. Qed.

End WorkerDemo.
