(* ===== verification/Turn.v ===== *)
(** * A turn over the transcript tail

    The turn worker and the transcript source together: the reads in the trace of a worker
    are answered by the tail of [Tail], and what a completed turn reports is what the file
    says. *)

From S2P Require Import Prelude Text Protocol Composer Transcript Engine EngineIngest EnginePath EngineTurn EngineVerdict.
From S2P Require Import Cursor Parser Session Screen Backend Menu Actor ActorOps ActorProofs ActorTurns ActorSteps Task Gate TurnResults RowIdentity Tail TailProofs TailTheorems Worker WorkerProofs WorkerTheorems WorkerRecovery.

(** ** The joint run *)

Definition batch_of (e : WorkerEvent) : option (TranscriptPosition * TranscriptBatch) :=
  match e with Polled from batch | Confirmed from batch => Some (from, batch) | _ => None end.

Definition concerns_source (e : WorkerEvent) : bool :=
  match e with Armed _ | Polled _ _ | Confirmed _ _ => true | _ => false end.

Section Turn.
Context `{Host} `{Driver} `{Outside} `{Files}.
Variable i : SessionId.

(** [served s w t s' w']: the source [s] in the world [w] gives the answers the trace [t]
    records, and is [s'] in [w'] then. *)
Inductive served : FileTranscriptSource -> World TailEvent -> list WorkerEvent ->
    FileTranscriptSource -> World TailEvent -> Prop :=
| served_end s w : served s w [] s w
| served_arm s w arm s1 w1 t s' w' :
    arm_sync i s w = (Done (Ok arm, s1), w1) -> served s1 w1 t s' w' -> served s w (Armed arm :: t) s' w'
| served_poll s w e from batch s1 w1 t s' w' :
    batch_of e = Some (from, batch) -> poll_sync i from s w = (Done (Ok batch, s1), w1) ->
    served s1 w1 t s' w' -> served s w (e :: t) s' w'
| served_other s w e t s' w' : concerns_source e = false -> served s w t s' w' -> served s w (e :: t) s' w'.

Lemma served_app s w t1 t2 s' w' :
  served s w (t1 ++ t2) s' w' -> exists s1 w1, served s w t1 s1 w1 /\ served s1 w1 t2 s' w'.
Proof.
  revert s w. induction t1 as [|e t1 IH]; intros s w Hs; [exists s, w; split; [constructor|done]|].
  cbn [app] in Hs.
  inversion Hs as [| s0 w0 arm s1 w1 t s2 w2 Ha Hr | s0 w0 e0 from batch s1 w1 t s2 w2 He Hp Hr | s0 w0 e0 t s2 w2 He Hr]; subst;
    destruct (IH _ _ Hr) as (s3 & w3 & Hl3 & Hr3); exists s3, w3; (split; [|done]).
  - by eapply served_arm.
  - by eapply served_poll.
  - by eapply served_other.
Qed.

(** The source only adds to what it has done. *)
Lemma served_poll_inv s w from batch s' w' :
  poll_sync i from s w = (Done (Ok batch, s'), w') -> exists t, tk_trace w' = tk_trace w ++ t.
Proof. intros Hp. destruct (tells_inv _ _ _ _ _ _ _ (poll_sync_keeps i from s) Hp) as (t & Ht & _). by exists t. Qed.

(** What the reads of a worker are to the tail: each begins where the last one ended, in the
    same generation, and nothing is armed in between. *)
Definition chained (p : TranscriptPosition) (t : list WorkerEvent) : Prop :=
  Forall keeps_generation t /\ (forall arm, Armed arm ∉ t) /\
  forall n e from, t !! n = Some e -> read_from e = Some from -> foldl position_after (Some p) (take n t) = Some from.

Lemma chained_cons p e t :
  chained p (e :: t) ->
  chained (default p (position_after (Some p) e)) t /\ keeps_generation e /\ (forall arm, e <> Armed arm) /\
  (forall from, read_from e = Some from -> from = p).
Proof.
  intros (Hg & Ha & Hc). apply Forall_cons in Hg as [Hge Hg].
  assert (Hea : forall arm, e <> Armed arm) by (intros arm ->; apply (Ha arm); by left).
  split_and!; [|done|done|intros from Hf; pose proof (Hc 0%nat e from eq_refl Hf) as E; by injection E].
  split_and!; [done|intros arm Hin; apply (Ha arm); by right|].
  intros n x from Hn Hx. specialize (Hc (S n) x from Hn Hx). cbn [take foldl] in Hc. rewrite <-Hc. f_equal. by destruct e.
Qed.

(** So the tail is followed. *)
Lemma served_follows prompt t : forall p s w s' w',
  served s w t s' w' -> chained p t ->
  exists reads rows p' tr, follow i p s w reads rows p' s' w' /\ foldl position_after (Some p) t = Some p' /\
    pos_generation p' = pos_generation p /\ engine_calls prompt t = Ingest <$> rows /\
    tk_trace w' = tk_trace w ++ tr /\ read_events tr = reads.
Proof.
  induction t as [|e t IH]; intros p s w s' w' Hs Hc.
  { inversion Hs; subst. exists [], [], p, []. rewrite app_nil_r. split_and!; try done. constructor. }
  apply chained_cons in Hc as (Hc & Hg & Hna & Hfrom).
  inversion Hs as [| s0 w0 arm s1 w1 t0 s2 w2 Ha Hr | s0 w0 e0 from batch s1 w1 t0 s2 w2 He Hp Hr | s0 w0 e0 t0 s2 w2 He Hr]; subst.
  - by destruct (Hna arm).
  - assert (Hb : read_from e = Some from /\ position_after (Some p) e = Some (ba_position batch) /\
      pos_generation (ba_position batch) = pos_generation from /\ calls_of prompt e = Ingest <$> ba_rows batch)
      by (destruct e; simplify_eq/=; by split_and!).
    destruct Hb as (Hrf & Hpa & Hgen & Hcalls). pose proof (Hfrom _ Hrf) as ->. rewrite Hpa in Hc. change (chained (ba_position batch) t) in Hc.
    destruct (served_poll_inv _ _ _ _ _ _ Hp) as (t1 & Ht1).
    destruct (IH _ _ _ _ _ Hr Hc) as (reads & rows & p' & tr & Hf & Hpos & Hg' & Hcalls' & Htr & Hreads).
    exists (read_events t1 ++ reads), (ba_rows batch ++ rows), p', (t1 ++ tr). split_and!.
    + by eapply follow_answered.
    + cbn [foldl]. by rewrite Hpa.
    + congruence.
    + unfold engine_calls in *. cbn. by rewrite Hcalls, Hcalls', fmap_app.
    + by rewrite Htr, Ht1, app_assoc.
    + by rewrite read_events_app, Hreads.
  - assert (Hb : position_after (Some p) e = Some p /\ calls_of prompt e = []) by (by destruct e).
    destruct Hb as (Hpa & Hcalls). rewrite Hpa in Hc. destruct (IH _ _ _ _ _ Hr Hc) as (reads & rows & p' & tr & Hf & Hpos & Hrest).
    exists reads, rows, p', tr. split; [done|]. cbn [foldl]. rewrite Hpa. split; [done|].
    unfold engine_calls in *. cbn. by rewrite Hcalls.
Qed.

End Turn.

(** ** The trace of a worker *)

Section Worker.
Context `{Host} `{Driver}.
Variable self : TurnWorker.

Lemma position_armed t :
  (forall n e from, t !! n = Some e -> read_from e = Some from -> position_of (take n t) = Some from) ->
  is_Some (position_of t) -> exists arm, Armed arm ∈ t.
Proof.
  induction t as [|e t IH] using rev_ind; intros Hc; [by intros [? [=]]|]. rewrite position_of_snoc. intros Hp.
  assert (Hin : is_Some (position_of t) -> exists arm, Armed arm ∈ t ++ [e]).
  { intros Hs. destruct IH as [arm Ha]; [|done|exists arm; apply elem_of_app; by left].
    intros n x from Hn Hx. rewrite <-(Hc n x from); [|by apply lookup_app_l_Some|done].
    by rewrite take_app_le by (apply lookup_lt_Some in Hn; lia). }
  pose proof (Hc (length t) e) as Hlast. rewrite take_app_length in Hlast.
  assert (He : (t ++ [e]) !! length t = Some e) by by apply list_lookup_middle.
  destruct e; try (by apply Hin); [exists arm; apply elem_of_app; right; by left|..];
    apply Hin; exists from; by apply Hlast.
Qed.

(** It begins with the arm, and the rest is chained to it. *)
Lemma orderly_split t :
  orderly self t -> is_Some (position_of t) -> exists arm t', t = Armed arm :: t' /\ chained (arm_position arm) t'.
Proof.
  intros Ho Hp. destruct (position_armed t (o_chained _ _ Ho) Hp) as [arm Ha].
  apply list_elem_of_lookup in Ha as [n Hn]. pose proof (o_armed _ _ Ho _ _ Hn) as ->.
  destruct t as [|e t]; [done|]. injection Hn as ->. exists arm, t. split; [done|]. split_and!.
  - pose proof (o_generations _ _ Ho) as Hg. by apply Forall_cons in Hg as [_ Hg].
  - intros arm' (n & Hn)%list_elem_of_lookup. by pose proof (o_armed _ _ Ho (S n) _ Hn).
  - intros n e from Hn Hf. exact (o_chained _ _ Ho (S n) e from Hn Hf).
Qed.

End Worker.

(** ** The claim *)

(** The rows of everything the source read since the arm: of one file, without a gap, and
    up to the end the file had when it was looked at last, which ends a line. *)
Definition read_whole `{Outside} (i : SessionId) (cwd : string) (boundary : N) (tr : list TailEvent)
    (s : FileTranscriptSource) (rows : list ParsedRow) : Prop :=
  let stream := concat (snd <$> read_events tr) in
  (exists file, contiguous file boundary (read_events tr)) /\
  collect_rows cwd i (fst (frames boundary 1 [] stream)) = Ok rows /\
  (tl_path (ft_state s) = None \/
   exists metadata, last tr = Some (StatPath metadata) /\ fm_len metadata = boundary + N.of_nat (length stream) /\
     snd (frames boundary 1 [] stream) = []).

Lemma chained_snoc p t e :
  chained p (t ++ [e]) -> chained p t /\ keeps_generation e /\ (forall from, read_from e = Some from -> foldl position_after (Some p) t = Some from).
Proof.
  intros (Hg & Ha & Hc). apply Forall_app in Hg as [Hg Hge]. apply Forall_cons in Hge as [Hge _]. split; [|split; [done|]].
  - split_and!; [done|intros arm Hin; apply (Ha arm), elem_of_app; by left|]. intros n x from Hn Hx.
    rewrite <-(Hc n x from); [|by apply lookup_app_l_Some|done]. by rewrite take_app_le by (apply lookup_lt_Some in Hn; lia).
  - intros from Hf. specialize (Hc (length t) e from). rewrite take_app_length in Hc. apply Hc; [by apply list_lookup_middle|done].
Qed.

(** A run of the tail whose last read is at the end of the file. *)
Lemma served_confirms `{Outside} `{Files} i prompt s0 w0 arm s1 w1 t from batch s w :
  arm_sync i s0 w0 = (Done (Ok arm, s1), w1) ->
  served i s1 w1 (t ++ [Confirmed from batch]) s w -> chained (arm_position arm) (t ++ [Confirmed from batch]) ->
  dr_at_eof (ba_drain batch) = true -> dr_has_partial_line (ba_drain batch) = false ->
  exists tr rows, tk_trace w = tk_trace w0 ++ tr /\
    read_whole i (ft_expected_cwd s0) (pos_offset (arm_position arm)) tr s rows /\
    engine_calls prompt (Armed arm :: t ++ [Confirmed from batch]) = Arm prompt :: (Ingest <$> rows).
Proof.
  intros Harm Hserved Hch Heof Hpart. apply chained_snoc in Hch as (Hch & Hkeep & Hfrom). specialize (Hfrom _ eq_refl).
  apply served_app in Hserved as (s2 & w2 & Hserved & Hlast).
  inversion Hlast as [| | ? ? ? from' batch' ? ? ? ? ? Hb Hpoll Hend | ? ? ? ? ? ? Hb]; subst; [|done].
  injection Hb as <- <-. inversion Hend; subst.
  destruct (tells_inv _ _ _ _ _ _ _ (arm_sync_tells i s0) Harm) as (ta & Hta & (_ & _ & Hra & (_ & Hhist & _))).
  destruct (served_follows i prompt t _ _ _ _ _ Hserved Hch) as (reads & rows & p & tr & Hf & Hp & Hg & Hcalls & Htr & Hreads).
  rewrite Hfrom in Hp. injection Hp as <-. cbn in Hkeep. rewrite Hg in Hkeep.
  destruct (served_poll_inv i _ _ _ _ _ _ Hpoll) as (tl & Htl).
  destruct (armed_delivers i _ _ _ _ _ _ _ _ _ _ Harm (follow_snoc _ _ _ _ _ _ _ _ _ _ _ _ _ Hf Hpoll Htl) Hkeep) as (Hcon & _ & Hrows).
  pose proof (armed_drained i _ _ _ _ _ _ _ _ _ _ _ _ _ _ Harm Hf Hpoll Htl Hkeep Heof Hpart) as Hdr.
  exists ((ta ++ tr) ++ tl), (rows ++ ba_rows batch). split; [by rewrite Htl, Htr, Hta, !app_assoc|].
  assert (Hev : read_events ((ta ++ tr) ++ tl) = reads ++ read_events tl) by (by rewrite !read_events_app, Hra, Hreads).
  split.
  - unfold read_whole. rewrite Hev. split; [done|]. split; [done|]. destruct Hdr as [[Hn _]|(m & t0 & -> & Hm)]; [by left|right].
    exists m. split; [by rewrite app_assoc, last_snoc|done].
  - unfold engine_calls in *. rewrite bind_cons, bind_app, Hcalls. cbn. by rewrite Hhist, app_nil_r, fmap_app.
Qed.

(** C3. The result of a completed turn is what the transcript says. When the reads of a worker
    are answered by the transcript tail and it reports its turn complete, then the result
    is built from the analysis of one prompt and of exactly the rows of the lines that
    were appended to the file since the turn was armed: all that the tail read, contiguous
    and of one file, up to the length the file had at the look that confirmed the end, with
    no partial line behind them (or there is no file). *)
Theorem completed_turn_is_the_whole_transcript `{Host} `{Driver} `{Outside} `{Files} i self rounds result deadline s0 w0 s w :
  let run := tk_trace (snd (run_worker self rounds start)) in
  Sent (UCompleted (turn_id self) result deadline) ∈ run ->
  served i s0 w0 run s w ->
  exists arm tr rows a context,
    head run = Some (Armed arm) /\ tk_trace w = tk_trace w0 ++ tr /\
    read_whole i (ft_expected_cwd s0) (pos_offset (arm_position arm)) tr s rows /\
    analyze show_debug (calls nfc (Arm (tr_prompt (wk_turn self)) :: (Ingest <$> rows))) = Ok a /\
    build_turn_result show_debug context a = Some result.
Proof.
  intros run Hin Hserved. destruct (worker_completed self rounds result deadline Hin) as (t & Et & Ho & Hc).
  unfold run in *. rewrite Et in Hserved |- *. apply served_app in Hserved as (s1 & w1 & Hserved & Hlast).
  inversion Hlast as [| | ? ? ? ? ? ? ? ? ? ? Hb | ? ? ? ? ? ? Hb Hend]; subst; [done|]. inversion Hend; subst. clear Hlast Hend.
  destruct Hc as (t0 & from & batch & mid & evidence & confirmation & a & ack & candidate & completed & arrival & final & E & _ & _ & _ &
    _ & _ & Ha & _ & _ & Hresult & _ & _ & _ & Heof & Hpart & _).
  destruct (orderly_split self t Ho) as (arm & t' & -> & Hch).
  { rewrite E, !app_assoc, cons_middle, app_assoc, position_of_snoc. by eexists. }
  inversion Hserved as [| ? ? ? sa wa ? ? ? Harm Hrest | ? ? ? ? ? ? ? ? ? ? Hb2 | ? ? ? ? ? ? Hb2]; subst; [|done|done].
  assert (Et' : exists t1, t' = t1 ++ [Confirmed (ba_position batch) confirmation]).
  { destruct t0 as [|x t0]; [done|]. injection E as _ ->. exists (t0 ++ [Polled from batch] ++ mid ++ [Evidenced evidence]).
    by rewrite <-!app_assoc. }
  destruct Et' as [t1 ->].
  destruct (served_confirms i (tr_prompt (wk_turn self)) _ _ _ _ _ _ _ _ _ _ Harm Hrest Hch Heof Hpart) as (tr & rows & Htr & Hw & Hcalls).
  eexists arm, tr, rows, a, _. rewrite Hcalls in Ha. by split_and!.
Qed.

(** ** A turn over the transcript tail, run

    A file of one line that grows by a prompt and its answer, a tail that reads them, and a
    worker that is given what the tail reads. *)

Module TurnDemo.

Definition prompt_json : json :=
  jobj [("type", JStr "user"); ("uuid", JStr "u1"); ("sessionId", JStr "seven"); ("cwd", JStr "/work/src");
        ("promptSource", JStr "typed"); ("message", jobj [("role", JStr "user"); ("content", JStr "hello")])]%string.

Definition answer_json : json :=
  jobj [("type", JStr "assistant"); ("uuid", JStr "a1"); ("parentUuid", JStr "u1"); ("sessionId", JStr "seven");
        ("cwd", JStr "/work");
        ("message", jobj [("id", JStr "m1"); ("role", JStr "assistant"); ("model", JStr "claude");
                          ("content", JArr [jobj [("type", JStr "text"); ("text", JStr "hi")]]);
                          ("stop_reason", JStr "end_turn");
                          ("usage", jobj [("input_tokens", JNum 3); ("output_tokens", JNum 4)])])]%string.

#[local] Instance outside : Outside := {|
  out_str_debug s := s;
  out_from_slice l := Ok (if bool_decide (l = text_of "p") then prompt_json else answer_json);
  parse_uuid s := if bool_decide (s = "seven"%string) then Some 7 else None;
  print_uuid n := pretty n;
  nfc_str s := s;
  canonicalize s := Some s;
|}.

Definition content : list N := text_of "a" ++ [LF] ++ text_of "p" ++ [LF] ++ text_of "h" ++ [LF].

Definition the_file (k : nat) : FileMetadata := mkFileMetadata (mkFileIdentity 1 2) (if (k <? 10)%nat then 2 else 6).

(** Two readings of the clock are a second apart. *)
#[local] Instance files : Files := {|
  locate_answer _ _ := Ok (mkLocated "/root/7.jsonl" "/root");
  path_metadata k _ := Ok (the_file k);
  file_metadata k _ := Ok (the_file k);
  open_answer _ _ := Ok tt;
  seek_answer _ _ := Ok tt;
  file_bytes _ _ from := Ok (drop (N.to_nat from) content);
  dir_entries _ _ := Ok [];
  tail_poisoned _ := false;
  tail_instant k := N.of_nat k * 1000000000;
|}.

Definition fresh_source : FileTranscriptSource := mkSource "/work" (TailState_new 7 0) [] CLEAR_REBIND_TIMEOUT.

(** ** The tail *)

Definition source_of {A} (r : outcome (DriverResult A * FileTranscriptSource) * World TailEvent) : FileTranscriptSource :=
  match r with (Done (_, s), _) => s | _ => fresh_source end.
Definition batch_of_run (r : outcome (DriverResult TranscriptBatch * FileTranscriptSource) * World TailEvent) : TranscriptBatch :=
  match r with (Done (Ok b, _), _) => b | _ => mkBatch (mkPosition 0 0) [] (mkDrain false false 0) end.

Definition arm : TranscriptArm := mkArm (mkPosition 1 2) [].
Definition s1 := Eval vm_compute in source_of (arm_sync 7 fresh_source start).
Definition w1 := Eval vm_compute in snd (arm_sync 7 fresh_source start).
Definition b1 := Eval vm_compute in batch_of_run (poll_sync 7 (mkPosition 1 2) s1 w1).
Definition s2 := Eval vm_compute in source_of (poll_sync 7 (mkPosition 1 2) s1 w1).
Definition w2 := Eval vm_compute in snd (poll_sync 7 (mkPosition 1 2) s1 w1).
Definition b2 := Eval vm_compute in batch_of_run (poll_sync 7 (mkPosition 1 6) s2 w2).
Definition s3 := Eval vm_compute in source_of (poll_sync 7 (mkPosition 1 6) s2 w2).
Definition w3 := Eval vm_compute in snd (poll_sync 7 (mkPosition 1 6) s2 w2).

Lemma turn_arm : arm_sync 7 fresh_source start = (Done (Ok arm, s1), w1).
Proof. vm_compute. reflexivity. Qed.
Lemma turn_poll : poll_sync 7 (mkPosition 1 2) s1 w1 = (Done (Ok b1, s2), w2).
Proof. vm_compute. reflexivity. Qed.
Lemma turn_confirm : poll_sync 7 (mkPosition 1 6) s2 w2 = (Done (Ok b2, s3), w3).
Proof. vm_compute. reflexivity. Qed.
Example turn_batches : length (ba_rows b1) = 2%nat /\ ba_position b1 = mkPosition 1 6 /\ ba_rows b2 = [].
Proof. vm_compute. split_and!; reflexivity. Qed.

(** ** The worker *)

#[local] Instance host : Host := {|
  clock n := 1000 + 100 * N.of_nat n; instant n := N.of_nat n; serialized_bytes _ := 200;
  record_size := 96; show_uuid n := pretty n; nfc := id |}.

#[local] Instance driver : Driver := {|
  race _ := FutureReady; signal_runs _ := true;
  arm_answer _ := Ok arm;
  submit_answer _ := Ok tt;
  screen_answer _ := Ok ScreenReady;
  poll_answer _ p := Ok (if pos_offset p =? 2 then b1 else b2);
  evidence_answer _ := Ok (mkEvidence true true false false None);
  interrupt_answer _ := Ok RecoveredToReady;
  close_answer _ := Some (Ok true);
  in_time _ := true;
  show_debug := id |}.

Abbreviation worker := WorkerDemo.demo_worker.

Definition the_run : list WorkerEvent := Eval vm_compute in tk_trace (snd (run_worker worker 5 start)).

Lemma turn_runs : tk_trace (snd (run_worker worker 5 start)) = the_run.
Proof. vm_compute. reflexivity. Qed.

Ltac serve :=
  lazymatch goal with
  | |- served _ _ _ [] _ _ => apply served_end
  | |- served _ _ _ (Armed _ :: _) _ _ => eapply served_arm; [exact turn_arm|serve]
  | |- served _ _ _ (Polled _ _ :: _) _ _ => eapply served_poll; [reflexivity|exact turn_poll|serve]
  | |- served _ _ _ (Confirmed _ _ :: _) _ _ => eapply served_poll; [reflexivity|exact turn_confirm|serve]
  | |- served _ _ _ (_ :: _) _ _ => apply served_other; [reflexivity|serve]
  end.

Lemma turn_served : served 7 fresh_source start the_run s3 w3.
Proof. unfold the_run. serve. Qed.

Lemma turn_completes : exists result deadline,
  Sent (UCompleted (turn_id worker) result deadline) ∈ the_run /\ res_text result = "hi"%string.
Proof.
  assert (E : exists result deadline t, the_run = t ++ [Sent (UCompleted 9 result deadline)] /\ res_text result = "hi"%string).
  { unfold the_run. do 2 eexists. exists (removelast the_run). split; [reflexivity|reflexivity]. }
  destruct E as (result & deadline & t & -> & E). exists result, deadline. split; [|done].
  apply elem_of_app. right. by left.
Qed.

Lemma completed_turn_is_the_whole_transcript_witness :
  exists result arm tr rows a context, res_text result = "hi"%string /\
    head the_run = Some (Armed arm) /\ tk_trace w3 = [] ++ tr /\
    read_whole 7 "/work" (pos_offset (arm_position arm)) tr s3 rows /\
    analyze id (calls id (Arm (text_of "hello") :: (Ingest <$> rows))) = Ok a /\
    build_turn_result id context a = Some result.
Proof.
  destruct turn_completes as (result & deadline & Hin & Hhi). rewrite <-turn_runs in Hin. pose proof turn_served as Hs.
  rewrite <-turn_runs in Hs.
  destruct (completed_turn_is_the_whole_transcript 7 worker 5 result deadline fresh_source start s3 w3 Hin Hs)
    as (a1 & tr & rows & a & context & Hh & Hrest). rewrite turn_runs in Hh.
  exists result, a1, tr, rows, a, context. exact (conj Hhi (conj Hh Hrest)).
Defined.

End TurnDemo.
