(* ===== verification/LaunchEnv.v ===== *)
(** * The environment of a Claude process

    The policy of [crates/protocol/src/v1/launch_environment.rs] and its one enforcement
    point, [build_environment] of [crates/service/src/claude_launch.rs], with the questions
    a launch asks about directories. The file system is read as it stands during a launch
    (class [FileSystem]); a path is its bytes, and two paths are equal when their
    components are. An error is the chain of its messages, the outermost first. *)

From S2P Require Import Prelude Text Protocol Parser Session Screen Locator.

#[local] Open Scope string_scope.
#[local] Open Scope N_scope.

Abbreviation Anyhow := (list string).
Definition bail {A} (message : string) : result A Anyhow := Err [message].
Definition with_context {A} (context : string) (r : result A string) : result A Anyhow :=
  map_err (fun source => [context; source]) r.

(** ** The policy tables *)

Inductive AuthPolicy := Subscription | Inherit.

#[global] Instance AuthPolicy_eq_dec : EqDecision AuthPolicy.
Proof. solve_decision. Defined.

Definition SUBSCRIPTION_AUTH_KEYS : list string :=
  ["ANTHROPIC_API_KEY"; "ANTHROPIC_AUTH_TOKEN"; "ANTHROPIC_BASE_URL"; "ANTHROPIC_BEDROCK_BASE_URL";
   "ANTHROPIC_VERTEX_BASE_URL"; "ANTHROPIC_FOUNDRY_BASE_URL"; "AWS_BEARER_TOKEN_BEDROCK";
   "CLAUDE_CODE_USE_BEDROCK"; "CLAUDE_CODE_USE_VERTEX"; "CLAUDE_CODE_USE_FOUNDRY"].

Definition TRANSPARENT_EXACT_KEYS : list string :=
  ["RMUX"; "TMUX"; "TMUX_PANE"; "TMUX_PROGRAM"; "TERM_PROGRAM"; "TERM_PROGRAM_VERSION";
   "CLAUDE_CODE_EXPERIMENTAL_AGENT_TEAMS"; "CLAUDECODE"; "CLAUDE_CODE_ENTRYPOINT"; "CLAUDE_CODE_REMOTE";
   "CLAUDE_CODE_CHILD_SESSION"].

Definition TRANSPARENT_PREFIXES : list string := ["RMUX"; "TMUX"; "CLAUDE_AGENT_SDK_"; "CLAUDE_CODE_SDK_"].

Definition INHERITED_EXACT_KEYS : list string :=
  ["PATH"; "HOME"; "SHELL"; "USER"; "LOGNAME"; "TMPDIR"; "PWD"; "TZ"; "TERM"; "COLORTERM"; "TERMINFO";
   "TERMINFO_DIRS"; "LINES"; "COLUMNS"; "LANG"; "LANGUAGE"; "CLAUDE_CONFIG_DIR"; "SSL_CERT_FILE"; "SSL_CERT_DIR";
   "NIX_SSL_CERT_FILE"; "NODE_EXTRA_CA_CERTS"; "REQUESTS_CA_BUNDLE"; "CURL_CA_BUNDLE"; "HTTP_PROXY"; "HTTPS_PROXY";
   "ALL_PROXY"; "NO_PROXY"; "http_proxy"; "https_proxy"; "all_proxy"; "no_proxy"; "XDG_CONFIG_HOME";
   "XDG_CACHE_HOME"; "XDG_DATA_HOME"; "XDG_STATE_HOME"; "XDG_RUNTIME_DIR"; "NODE_OPTIONS"; "NODE_PATH";
   "SSH_AUTH_SOCK"; "GIT_SSH_COMMAND"; "GIT_CONFIG_GLOBAL"; "GIT_CONFIG_SYSTEM"; "GIT_CONFIG_COUNT"].

Definition INHERITED_PREFIXES : list string := ["LC_"; "PMUX_"; "GIT_CONFIG_KEY_"; "GIT_CONFIG_VALUE_"].

Definition PROVIDER_ROUTING_PREFIXES : list string :=
  ["ANTHROPIC_"; "AWS_"; "GOOGLE_"; "GCLOUD_"; "CLOUDSDK_"; "AZURE_"; "VERTEX_REGION_"].

Definition PROVIDER_ROUTING_EXACT_KEYS : list string := ["CLOUD_ML_REGION"].

(** [prefixes.iter().any(|prefix| name.starts_with(prefix))]. *)
Definition has_prefix (prefixes : list string) (name : string) : bool :=
  existsb (fun prefix => String.prefix prefix name) prefixes.

Definition inherits (name : string) (auth_policy : AuthPolicy) : bool :=
  if mem_str name INHERITED_EXACT_KEYS || has_prefix INHERITED_PREFIXES name then true
  else bool_decide (auth_policy = Inherit)
       && (mem_str name SUBSCRIPTION_AUTH_KEYS || mem_str name PROVIDER_ROUTING_EXACT_KEYS
           || has_prefix PROVIDER_ROUTING_PREFIXES name).

Definition subscription_policy_removes (name : string) (auth_policy : AuthPolicy) : bool :=
  bool_decide (auth_policy = Subscription) && mem_str name SUBSCRIPTION_AUTH_KEYS.

Definition transparent_profile_removes (name : string) : bool :=
  mem_str name TRANSPARENT_EXACT_KEYS || has_prefix TRANSPARENT_PREFIXES name.

(** ** Directories *)

Record Metadata := mkMetadata {
  md_dev : N;
  md_ino : N;
  md_uid : N;
  md_mode : N;
  md_is_dir : bool;
  md_is_file : bool;
}.

(** What [stat] says: an [Err] is the text of the system's error, and whether it is
    [NotFound]. *)
Inductive StatError := NotFoundError (text : string) | OtherError (text : string).
Definition stat_error_text (e : StatError) : string :=
  match e with NotFoundError text | OtherError text => text end.

Class FileSystem := {
  fs_canonicalize : string -> result string string;
  fs_metadata : string -> result Metadata StatError;
  fs_read_dir : string -> result (list (result string string)) string;
  fs_euid : N;
  (** [Path::display] and [to_string_lossy]. *)
  fs_display : string -> string;
}.

Inductive RequiredPathKind := Directory | RegularFile | ExecutableFile.

Inductive DirectoryIdentity :=
| Resource (dev ino : N)
| Vacant
| Unresolved.

(** The text of a path read from its components. *)
Fixpoint slash_join (l : list string) : string :=
  match l with
  | [] => EmptyString
  | [c] => c
  | c :: l => c +:+ "/" +:+ slash_join l
  end.
Definition path_text (p : Path) : string :=
  (if path_absolute p then "/" else EmptyString) +:+ slash_join (path_components p).

(** [Path::ancestors] of a path as it is spelled. *)
Definition ancestors (path : string) : list string :=
  path :: (path_text <$> tail (path_ancestors (path_from path))).

(** [Path::file_name]: [None] after a final [..], and at the root. *)
Definition file_name (path : string) : option string :=
  c ← path_file_name (path_from path);
  if bool_decide (c = "..") || bool_decide (c = ".") || bool_decide (c = EmptyString) then None else Some c.

Definition is_absolute (path : string) : bool := path_absolute (path_from path).

Definition traverses_a_parent_component (path : string) : bool :=
  existsb (fun c => bool_decide (c = "..")) (path_components (path_from path)).

(** [str::contains] with one character below 128. *)
Definition has_char (c : N) (s : string) : bool := existsb (N.eqb c) (bytes s).
Definition NUL : N := 0.
Definition EQUALS : N := 61.
Definition COLON : N := 58.

Section Directories.
Context `{FileSystem}.

Definition DirectoryIdentity_of (path : string) : DirectoryIdentity :=
  match fs_metadata path with
  | Ok m => Resource (md_dev m) (md_ino m)
  | Err (NotFoundError _) => Vacant
  | Err (OtherError _) => Unresolved
  end.

Definition must_treat_as_same_directory (left right : string) : bool :=
  match DirectoryIdentity_of left, DirectoryIdentity_of right with
  | Resource d i, Resource d' i' => (d =? d') && (i =? i')
  | Vacant, Vacant => same_path left right
  | Vacant, _ | _, Vacant => false
  | _, _ => true
  end.

(** The longest part of a path that exists, resolved, with the rest behind it. *)
Fixpoint reach_from (prefixes missing : list string) : option string :=
  match prefixes with
  | [] => None
  | prefix :: prefixes =>
      match fs_canonicalize prefix with
      | Ok resolved => Some (foldl join_path resolved missing)
      | Err _ => match file_name prefix with
                 | Some name => reach_from prefixes (name :: missing)
                 | None => None
                 end
      end
  end.
Definition path_the_child_will_reach (path : string) : string := default path (reach_from (ancestors path) []).

Definition contains_or_is (ancestor descendant : string) : bool :=
  existsb (fun prefix => must_treat_as_same_directory prefix ancestor) (ancestors (path_the_child_will_reach descendant)).

Definition one_directory_contains_the_other (left right : string) : bool :=
  contains_or_is left right || contains_or_is right left.

Definition directory_lies_within (root candidate : string) : bool := contains_or_is root candidate.

Definition canonical_utf8 (path label : string) : result string Anyhow :=
  match utf8_decode (bytes path) with
  | Some _ => Ok path
  | None => bail ("canonical " +:+ label +:+ " path is not UTF-8")
  end.

Definition is_executable (m : Metadata) : bool := negb (N.land (md_mode m) 73 =? 0).

Definition canonical_absolute (path label : string) (kind : RequiredPathKind) : result string Anyhow :=
  if negb (is_absolute path) then bail (label +:+ " must be absolute")
  else
    let? canonical := with_context (label +:+ " is unavailable: " +:+ fs_display path) (fs_canonicalize path) in
    let? m := with_context ("failed to inspect " +:+ label +:+ ": " +:+ fs_display canonical)
                (map_err stat_error_text (fs_metadata canonical)) in
    let? _ := match kind with
              | Directory =>
                  if md_is_dir m then Ok tt else bail (label +:+ " must be a directory: " +:+ fs_display canonical)
              | RegularFile =>
                  if md_is_file m then Ok tt else bail (label +:+ " must be a regular file: " +:+ fs_display canonical)
              | ExecutableFile =>
                  if negb (md_is_file m) then bail (label +:+ " must be a regular file: " +:+ fs_display canonical)
                  else if is_executable m then Ok tt
                  else bail (label +:+ " is not executable: " +:+ fs_display canonical)
              end in
    let? _ := canonical_utf8 canonical label in
    Ok canonical.

End Directories.

(** ** The environment *)

Record EnvironmentSpec := mkEnvironmentSpec {
  es_snapshot : gmap string string;
  es_set : gmap string string;
  es_unset : gset string;
}.

Record ConfigIsolation := mkConfigIsolation { ci_root : string; ci_securestorage_dir : string }.

Definition MINIFIED_CELL_ENVIRONMENT : list (string * string) :=
  [("CLAUDE_CODE_DISABLE_OFFICIAL_MARKETPLACE_AUTOINSTALL", "1")].

(** [BTreeMap::retain] by name. *)
Definition keep (p : string -> bool) (m : gmap string string) : gmap string string :=
  filter (fun kv => p (fst kv) = true) m.

Definition ascii_upper (b : N) : N := if (97 <=? b) && (b <=? 122) then b - 32 else b.

Definition is_team_marker (key : string) : bool :=
  let upper := ascii_upper <$> bytes key in
  contains (bytes "AGENT_TEAM") upper || contains (bytes "TEAMMATE") upper.

Definition invalid_name (key : string) : bool :=
  bool_decide (key = EmptyString) || has_char EQUALS key || has_char NUL key.

Definition validate_environment (spec : EnvironmentSpec) : result unit Anyhow :=
  if existsb (fun kv => invalid_name (fst kv) || has_char NUL (snd kv))
       (map_to_list (es_snapshot spec) ++ map_to_list (es_set spec))%list
  then bail "invalid environment name or value"
  else if existsb invalid_name (elements (es_unset spec)) then bail "invalid environment unset name"
  else if existsb (fun kv => is_team_marker (fst kv)) (map_to_list (es_set spec))
  then bail "agent-team and teammate environment variables are forbidden"
  else Ok tt.

Definition reject_team_markers_reaching_child (variables : gmap string string) : result unit Anyhow :=
  if existsb (fun kv => is_team_marker (fst kv)) (map_to_list variables)
  then bail "agent-team and teammate environment variables are forbidden"
  else Ok tt.

Definition patched_value (spec : EnvironmentSpec) (key : string) : option string :=
  match es_set spec !! key with
  | Some value => Some value
  | None => if bool_decide (key ∈ es_unset spec) then None else es_snapshot spec !! key
  end.

(** [std::env::split_paths] and [join_paths]. *)
Fixpoint split_colon (acc s : string) : list string :=
  match s with
  | EmptyString => [acc]
  | String c s' =>
      if Ascii.N_of_ascii c =? COLON then acc :: split_colon EmptyString s'
      else split_colon (acc +:+ String c EmptyString) s'
  end.
Definition split_paths (path : string) : list string := split_colon EmptyString path.
Fixpoint colon_join (l : list string) : string :=
  match l with
  | [] => EmptyString
  | [c] => c
  | c :: l => c +:+ ":" +:+ colon_join l
  end.
Definition join_paths (l : list string) : result string string :=
  if existsb (has_char COLON) l then Err "path segment contains separator `:`" else Ok (colon_join l).

Section Environment.
Context `{FileSystem}.

(** The directory that holds the tmux shim of a caller that runs inside one. *)
Definition shim_parent (tmux_program : option string) : option string :=
  program ← tmux_program;
  if is_absolute program then path_text <$> path_parent (path_from program) else None.

Definition remove_tmux_shim_from_path (variables : gmap string string) (tmux_program : option string) :
    result (gmap string string) Anyhow :=
  match shim_parent tmux_program with
  | None => Ok variables
  | Some parent =>
      match variables !! "PATH" with
      | None => Ok variables
      | Some path =>
          let components := List.filter (fun c => negb (must_treat_as_same_directory c parent)) (split_paths path) in
          let? rebuilt := with_context "failed to rebuild transparent PATH" (join_paths components) in
          let? rebuilt := match utf8_decode (bytes rebuilt) with
                          | Some _ => Ok rebuilt
                          | None => bail "transparent PATH is not valid UTF-8"
                          end in
          Ok (<["PATH" := rebuilt]> variables)
      end
  end.

(** Steps 1 to 3: the allowlist, the caller's [unset], the caller's [set]. *)
Definition patched_environment (spec : EnvironmentSpec) (auth_policy : AuthPolicy) : gmap string string :=
  es_set spec ∪ keep (fun key => negb (bool_decide (key ∈ es_unset spec)))
                  (keep (fun key => inherits key auth_policy) (es_snapshot spec)).

(** Step 5: what a transparent terminal does not show. *)
Definition apply_profile (spec : EnvironmentSpec) (terminal_profile : TerminalProfile)
    (variables : gmap string string) (removed : gset string) : result (gmap string string * gset string) Anyhow :=
  match terminal_profile with
  | Transparent =>
      let? variables := remove_tmux_shim_from_path variables (patched_value spec "TMUX_PROGRAM") in
      Ok (<["TERM" := "xterm-256color"]> (keep (fun key => negb (transparent_profile_removes key)) variables),
          removed ∪ dom (keep transparent_profile_removes variables))
  | RmuxStandard => bail "rmux-standard terminal identity is reserved and is not implemented in protocol v1"
  end.

(** Step 6: the private configuration root. *)
Definition apply_isolation (config_isolation : option ConfigIsolation) (variables : gmap string string) :
    result (gmap string string) Anyhow :=
  match config_isolation with
  | None => Ok variables
  | Some isolation =>
      let? root := canonical_absolute (ci_root isolation) "config isolation root" Directory in
      let? root := canonical_utf8 root "config isolation root" in
      Ok (<["CLAUDE_SECURESTORAGE_CONFIG_DIR" := ci_securestorage_dir isolation]>
            (<["CLAUDE_CONFIG_DIR" := root]> variables))
  end.

Definition build_environment (spec : EnvironmentSpec) (auth_policy : AuthPolicy) (terminal_profile : TerminalProfile)
    (config_isolation : option ConfigIsolation) (cell : SessionCell) : result (gmap string string * gset string) Anyhow :=
  let? _ := validate_environment spec in
  let removed := dom (keep (fun key => negb (inherits key auth_policy)) (es_snapshot spec)) in
  let variables := patched_environment spec auth_policy in
  let removed := removed ∪ dom (keep (fun key => subscription_policy_removes key auth_policy) variables) in
  let variables := keep (fun key => negb (subscription_policy_removes key auth_policy)) variables in
  let? '(variables, removed) := apply_profile spec terminal_profile variables removed in
  let? variables := apply_isolation config_isolation variables in
  let variables := match cell with
                   | Minified => foldl (fun m kv => <[fst kv := snd kv]> m) variables MINIFIED_CELL_ENVIRONMENT
                   | Full => variables
                   end in
  let? _ := reject_team_markers_reaching_child variables in
  Ok (variables, removed ∖ dom variables).

End Environment.

(** ** What the child's environment is

    The environment of a launched Claude process, name by name, and what never gets into
    it. *)

(** Take a successful step of a launch apart. *)
Ltac env_inv := unfold with_context, bail, canonical_utf8 in *; res_inv; try discriminate.

(** ** Lemmas *)

Lemma keep_lookup p m k : keep p m !! k = if p k then m !! k else None.
Proof.
  unfold keep. destruct (p k) eqn:Hp.
  - destruct (m !! k) as [v|] eqn:Hm.
    + by apply map_lookup_filter_Some.
    + apply map_lookup_filter_None. by left.
  - apply map_lookup_filter_None. right. intros v _. cbn. by rewrite Hp.
Qed.

Lemma some_union {A} (a : A) (o : option A) : Some a ∪ o = Some a.
Proof. by destruct o. Qed.

Lemma existsb_map_false {V} (p : string * V -> bool) (m : gmap string V) :
  existsb p (map_to_list m) = false <-> forall k v, m !! k = Some v -> p (k, v) = false.
Proof.
  rewrite <-not_true_iff_false, existsb_exists. split.
  - intros Hn k v Hk. apply not_true_iff_false. intros Hp. apply Hn. exists (k, v).
    rewrite <-list_elem_of_In, elem_of_map_to_list. done.
  - intros Ha ([k v] & Hin & Hp). rewrite <-list_elem_of_In, elem_of_map_to_list in Hin. by rewrite (Ha _ _ Hin) in Hp.
Qed.

Lemma mem_str_In s l : mem_str s l = true <-> s ∈ l.
Proof.
  unfold mem_str. rewrite existsb_exists, list_elem_of_In. split.
  - intros (x & Hx & ->%String.eqb_eq). done.
  - intros Hs. exists s. by rewrite String.eqb_refl.
Qed.

Lemma has_char_app c s t : has_char c (s +:+ t) = has_char c s || has_char c t.
Proof. unfold has_char. rewrite bytes_app. apply existsb_app. Qed.

Lemma split_colon_free s : forall acc, has_char COLON acc = false -> existsb (has_char COLON) (split_colon acc s) = false.
Proof.
  induction s as [|a s IH]; intros acc Ha; cbn; [by rewrite Ha|].
  destruct (N.eqb_spec (Ascii.N_of_ascii a) COLON) as [E|E]; cbn; [by rewrite Ha, IH|].
  apply IH. rewrite has_char_app, Ha. change (has_char COLON (String a EmptyString)) with ((COLON =? Ascii.N_of_ascii a) || false).
  rewrite orb_false_l, orb_false_r. apply N.eqb_neq. congruence.
Qed.

(** Pruning the search path never fails on its separator. *)
Lemma join_filtered_paths p path : join_paths (List.filter p (split_paths path)) = Ok (colon_join (List.filter p (split_paths path))).
Proof.
  unfold join_paths. assert (Hf : existsb (has_char COLON) (List.filter p (split_paths path)) = false).
  { apply not_true_iff_false. rewrite existsb_exists. intros (c & [Hc _]%filter_In & Hh).
    pose proof (split_colon_free path EmptyString eq_refl) as Hn. fold (split_paths path) in Hn.
    apply not_true_iff_false in Hn. apply Hn, existsb_exists. by exists c. }
  by rewrite Hf.
Qed.

(** Two beginnings of one name, one begins the other. *)
Lemma prefixes_compare p q : forall s, String.prefix p s = true -> String.prefix q s = true ->
  String.prefix p q = true \/ String.prefix q p = true.
Proof.
  revert q. induction p as [|a p IH]; intros [|b q] [|c s]; cbn; try (by auto); try done.
  repeat match goal with |- context [Ascii.ascii_dec ?x ?y] => destruct (Ascii.ascii_dec x y) end;
    subst; try done; eauto.
Qed.

Lemma has_prefix_true l name : has_prefix l name = true <-> exists p, p ∈ l /\ String.prefix p name = true.
Proof. unfold has_prefix. rewrite existsb_exists. by setoid_rewrite list_elem_of_In. Qed.

(** A name of one family is of no other. *)
Lemma no_prefix l q name :
  forallb (fun p => negb (String.prefix p q) && negb (String.prefix q p)) l = true ->
  String.prefix q name = true -> has_prefix l name = false.
Proof.
  rewrite forallb_forall. intros Hl Hq. apply not_true_iff_false. intros (p & Hp & Hn)%has_prefix_true.
  rewrite list_elem_of_In in Hp. specialize (Hl _ Hp). apply andb_true_iff in Hl as [H1 H2].
  destruct (prefixes_compare _ _ _ Hn Hq) as [E|E]; rewrite E in *; done.
Qed.

(** The names a Claude process inherits in its own name space. *)
Lemma inherited_claude_names name auth :
  String.prefix "CLAUDE" name = true -> inherits name auth = true ->
  name = "CLAUDE_CONFIG_DIR" \/
  auth = Inherit /\ name ∈ ["CLAUDE_CODE_USE_BEDROCK"; "CLAUDE_CODE_USE_VERTEX"; "CLAUDE_CODE_USE_FOUNDRY"].
Proof.
  intros Hn. unfold inherits. rewrite (no_prefix INHERITED_PREFIXES "CLAUDE" name), (no_prefix PROVIDER_ROUTING_PREFIXES "CLAUDE" name),
    !orb_false_r by done.
  destruct (mem_str name INHERITED_EXACT_KEYS) eqn:Hi.
  - intros _. left. apply mem_str_In in Hi. unfold INHERITED_EXACT_KEYS in Hi.
    repeat (apply elem_of_cons in Hi as [->|Hi]; [done|]). by apply elem_of_nil in Hi.
  - intros [->%bool_decide_eq_true [Hs|Hs]%orb_true_iff]%andb_true_iff; right; (split; [done|]); apply mem_str_In in Hs.
    + unfold SUBSCRIPTION_AUTH_KEYS in Hs.
      repeat (apply elem_of_cons in Hs as [->|Hs]; [first [done|set_solver]|]). by apply elem_of_nil in Hs.
    + unfold PROVIDER_ROUTING_EXACT_KEYS in Hs. apply elem_of_cons in Hs as [->|Hs]; [done|by apply elem_of_nil in Hs].
Qed.

(** What the allowlist lets through whatever the policy is in no provider's name space. *)
Lemma inherited_names_route_nothing name :
  inherits name Subscription = true ->
  has_prefix PROVIDER_ROUTING_PREFIXES name = false /\ name ∉ PROVIDER_ROUTING_EXACT_KEYS.
Proof.
  unfold inherits. destruct (mem_str name INHERITED_EXACT_KEYS) eqn:Hm; cbn [orb].
  - intros _. apply mem_str_In in Hm. unfold INHERITED_EXACT_KEYS in Hm. unfold PROVIDER_ROUTING_EXACT_KEYS.
    repeat (apply elem_of_cons in Hm as [->|Hm]; [split; [by vm_compute|by rewrite list_elem_of_singleton]|]). by apply elem_of_nil in Hm.
  - destruct (has_prefix INHERITED_PREFIXES name) eqn:Hp; [|done]. intros _. apply has_prefix_true in Hp as (p & Hp & Hx).
    unfold INHERITED_PREFIXES in Hp. split.
    + repeat (apply elem_of_cons in Hp as [Hp|Hp]; [subst p; refine (no_prefix PROVIDER_ROUTING_PREFIXES _ name _ Hx); reflexivity|]). by apply elem_of_nil in Hp.
    + unfold PROVIDER_ROUTING_EXACT_KEYS. rewrite list_elem_of_singleton. intros ->.
      repeat (apply elem_of_cons in Hp as [->|Hp]; [done|]). by apply elem_of_nil in Hp.
Qed.

Section Theorems.
Context `{FileSystem}.

(** ** The value of a name *)

(** A search path without the directory of the tmux shim. *)
Definition pruned_path (spec : EnvironmentSpec) (path : string) : string :=
  match shim_parent (patched_value spec "TMUX_PROGRAM") with
  | None => path
  | Some parent => colon_join (List.filter (fun c => negb (must_treat_as_same_directory c parent)) (split_paths path))
  end.

(** What the policy says of one name, the last step first. *)
Definition child_value (spec : EnvironmentSpec) (auth_policy : AuthPolicy) (isolation : option ConfigIsolation)
    (cell : SessionCell) (name : string) : option string :=
  if bool_decide (cell = Minified) && bool_decide (name = "CLAUDE_CODE_DISABLE_OFFICIAL_MARKETPLACE_AUTOINSTALL")
  then Some "1"
  else match isolation with
       | Some i =>
           if bool_decide (name = "CLAUDE_SECURESTORAGE_CONFIG_DIR") then Some (ci_securestorage_dir i)
           else if bool_decide (name = "CLAUDE_CONFIG_DIR")
           then match fs_canonicalize (ci_root i) with Ok root => Some root | Err _ => None end
           else None
       | None => None
       end ∪
       if bool_decide (name = "TERM") then Some "xterm-256color"
       else if transparent_profile_removes name || subscription_policy_removes name auth_policy then None
       else
         let value := es_set spec !! name ∪
                      (if inherits name auth_policy && negb (bool_decide (name ∈ es_unset spec))
                       then es_snapshot spec !! name else None) in
         if bool_decide (name = "PATH") then pruned_path spec <$> value else value.

Lemma patched_environment_lookup spec auth k :
  patched_environment spec auth !! k =
  es_set spec !! k ∪ (if inherits k auth && negb (bool_decide (k ∈ es_unset spec)) then es_snapshot spec !! k else None).
Proof.
  unfold patched_environment. rewrite lookup_union, !keep_lookup.
  by destruct (inherits k auth), (bool_decide (k ∈ es_unset spec)).
Qed.

Lemma shim_removed spec vars vars' :
  remove_tmux_shim_from_path vars (patched_value spec "TMUX_PROGRAM") = Ok vars' ->
  forall k, vars' !! k = if bool_decide (k = "PATH") then pruned_path spec <$> vars !! k else vars !! k.
Proof.
  unfold remove_tmux_shim_from_path, pruned_path. intros Hr k.
  destruct (shim_parent _) as [parent|].
  - destruct (vars !! "PATH") as [path|] eqn:Hp.
    + rewrite join_filtered_paths in Hr. env_inv. subst.
      destruct (bool_decide_reflect (k = "PATH")) as [->|Hk]; [by rewrite lookup_insert_eq, Hp|by rewrite lookup_insert_ne].
    + res_inv. subst. destruct (bool_decide_reflect (k = "PATH")) as [->|Hk]; [by rewrite Hp|done].
  - res_inv. subst. destruct (bool_decide (k = "PATH")); [by destruct (_ !! k)|done].
Qed.

Lemma apply_profile_lookup spec profile vars removed vars' removed' :
  apply_profile spec profile vars removed = Ok (vars', removed') ->
  (forall k, vars' !! k = if bool_decide (k = "TERM") then Some "xterm-256color"
                          else if transparent_profile_removes k then None
                          else if bool_decide (k = "PATH") then pruned_path spec <$> vars !! k else vars !! k) /\
  (forall k, k ∈ removed' <-> k ∈ removed \/ transparent_profile_removes k = true /\ is_Some (vars !! k)).
Proof.
  unfold apply_profile. intros Ha. destruct profile; [|done]. res_inv. subst.
  match goal with Hr : remove_tmux_shim_from_path _ _ = Ok _ |- _ => pose proof (shim_removed _ _ _ Hr) as Hs end.
  injection Ha as <- <-. split; intros k.
  - destruct (bool_decide_reflect (k = "TERM")) as [->|Hk]; [by rewrite lookup_insert_eq|].
    rewrite lookup_insert_ne by done. rewrite keep_lookup, Hs. by destruct (transparent_profile_removes k).
  - rewrite elem_of_union, elem_of_dom, keep_lookup, Hs.
    destruct (transparent_profile_removes k) eqn:Ht.
    + destruct (bool_decide_reflect (k = "PATH")) as [->|Hk]; [done|]. naive_solver.
    + split; [intros [?|[? [=]]]; auto|intros [?|[[=] ?]]; auto].
Qed.

Lemma apply_isolation_lookup isolation vars vars' :
  apply_isolation isolation vars = Ok vars' ->
  forall k, vars' !! k = match isolation with
       | Some i =>
           if bool_decide (k = "CLAUDE_SECURESTORAGE_CONFIG_DIR") then Some (ci_securestorage_dir i)
           else if bool_decide (k = "CLAUDE_CONFIG_DIR")
           then match fs_canonicalize (ci_root i) with Ok root => Some root | Err _ => None end
           else None
       | None => None
       end ∪ vars !! k.
Proof.
  unfold apply_isolation. destruct isolation as [i|]; intros Ha k; [|res_inv; subst; by destruct (vars' !! k)].
  unfold canonical_absolute in Ha. env_inv. subst.
  destruct (bool_decide_reflect (k = "CLAUDE_SECURESTORAGE_CONFIG_DIR")) as [->|Hk];
    [by rewrite lookup_insert_eq, some_union|].
  rewrite lookup_insert_ne by done.
  destruct (bool_decide_reflect (k = "CLAUDE_CONFIG_DIR")) as [->|Hk']; [|rewrite lookup_insert_ne by done; by destruct (vars !! k)].
  rewrite lookup_insert_eq. match goal with Hc : fs_canonicalize _ = Ok _ |- _ => by rewrite Hc, some_union end.
Qed.

Lemma minified_lookup cell (vars : gmap string string) k :
  match cell with
  | Minified => foldl (fun m kv => <[fst kv := snd kv]> m) vars MINIFIED_CELL_ENVIRONMENT
  | Full => vars
  end !! k =
  if bool_decide (cell = Minified) && bool_decide (k = "CLAUDE_CODE_DISABLE_OFFICIAL_MARKETPLACE_AUTOINSTALL")
  then Some "1" else vars !! k.
Proof.
  destruct cell; [done|]. rewrite (bool_decide_eq_true_2 (Minified = Minified)) by done. cbn -[lookup insert].
  case_bool_decide as Hk; [subst k; apply lookup_insert_eq|by apply lookup_insert_ne].
Qed.

(** ** The theorems *)

(** The environment that comes out, every step resolved. *)
Lemma build_environment_exact spec auth profile isolation cell vars removed :
  build_environment spec auth profile isolation cell = Ok (vars, removed) ->
  validate_environment spec = Ok tt /\ profile = Transparent /\
  (forall k, vars !! k = child_value spec auth isolation cell k) /\
  (forall k, k ∈ removed <->
     vars !! k = None /\
     (is_Some (es_snapshot spec !! k) /\ inherits k auth = false \/
      is_Some (patched_environment spec auth !! k) /\
      (subscription_policy_removes k auth = true \/ transparent_profile_removes k = true))) /\
  (forall k, is_Some (vars !! k) -> is_team_marker k = false).
Proof.
  unfold build_environment. intros Hb. res_inv. subst.
  match goal with Hp : apply_profile _ _ _ _ = Ok _ |- _ => pose proof Hp as Hp';
    apply apply_profile_lookup in Hp as [Hv5 Hr5] end.
  res_inv. subst. match goal with Hi : apply_isolation _ _ = Ok _ |- _ => pose proof (apply_isolation_lookup _ _ _ Hi) as Hv6 end.
  split_and!.
  - match goal with Hv : validate_environment _ = Ok ?u |- _ => by destruct u end.
  - unfold apply_profile in Hp'. by destruct profile.
  - intros k. injection Hb as <- <-. rewrite minified_lookup. unfold child_value. destruct (_ && _); [done|].
    rewrite Hv6, Hv5, !keep_lookup, patched_environment_lookup. f_equal.
    by destruct (bool_decide (k = "TERM")), (transparent_profile_removes k), (subscription_policy_removes k auth), (bool_decide (k = "PATH")).
  - intros k. injection Hb as <- <-.
    rewrite elem_of_difference, Hr5, elem_of_union, !elem_of_dom, eq_None_not_Some, !keep_lookup.
    destruct (inherits k auth), (subscription_policy_removes k auth), (transparent_profile_removes k); cbn;
      pose proof (@is_Some_None string); naive_solver.
  - intros k [v Hk]. injection Hb as <- <-. match goal with Hm : reject_team_markers_reaching_child _ = Ok _ |- _ =>
      unfold reject_team_markers_reaching_child in Hm; env_inv end.
    match goal with Hf : existsb _ _ = false |- _ => rewrite existsb_map_false in Hf; exact (Hf k v Hk) end.
Qed.

(** A name the child does not get was removed, or not offered. *)
Lemma child_value_None spec auth isolation cell name :
  child_value spec auth isolation cell name = None ->
  (subscription_policy_removes name auth = true \/ transparent_profile_removes name = true) \/
  es_set spec !! name = None /\
  (if inherits name auth && negb (bool_decide (name ∈ es_unset spec)) then es_snapshot spec !! name else None) = None.
Proof.
  unfold child_value. destruct (andb _ _); [done|]. destruct (match isolation with Some _ => _ | None => _ end); [by rewrite some_union|].
  rewrite (left_id_L None (∪)). destruct (bool_decide (name = "TERM")); [done|].
  destruct (transparent_profile_removes name), (subscription_policy_removes name auth); [by auto..|]. cbn.
  intros Hv. right. set (inherited := if inherits name auth && _ then _ else _) in *.
  assert (Hu : es_set spec !! name ∪ inherited = None).
  { destruct (bool_decide (name = "PATH")); [by apply fmap_None in Hv|done]. }
  destruct (es_set spec !! name); [by rewrite some_union in Hu|]. by rewrite (left_id_L None (∪)) in Hu.
Qed.

(** C10. The environment of the child is, name by name, what the policy says: pmux's own
    names last, then [TERM], then nothing of what the profile or the auth policy removes,
    then the caller's [set], then what the allowlist lets through and the caller did not
    unset, [PATH] without the tmux shim. The names reported as removed are exactly those
    the caller offered and the child did not get, except a name that the allowlist would
    have let through and the caller unset without setting it. (A name the caller unset that
    the allowlist denies anyway is reported.) *)
Theorem child_environment_is_exact spec auth profile isolation cell vars removed :
  build_environment spec auth profile isolation cell = Ok (vars, removed) ->
  (forall name, vars !! name = child_value spec auth isolation cell name) /\
  (forall name, name ∈ removed <->
     vars !! name = None /\ (is_Some (es_snapshot spec !! name) \/ is_Some (es_set spec !! name)) /\
     ~ (es_set spec !! name = None /\ inherits name auth = true /\ name ∈ es_unset spec)).
Proof.
  intros (Hv & _ & Hx & Hr & _)%build_environment_exact. split; [done|]. intros k. rewrite Hr, patched_environment_lookup.
  split; intros [Hn Ho]; (split; [done|]).
  - split.
    + destruct Ho as [[Hs _]|[[v Hs] _]]; [by left|]. destruct (es_set spec !! k); [by right; eexists|]. left.
      rewrite (left_id_L None (∪)) in Hs. destruct (_ && _); [by eexists|done].
    + intros (Hset & Hi & Hu). rewrite Hset, Hi, (bool_decide_eq_true_2 _ Hu), (left_id_L None (∪)) in Ho.
      destruct Ho as [[_ [=]]|[[? [=]] _]].
  - destruct Ho as [Hof Hun]. rewrite Hx in Hn. apply child_value_None in Hn as [Hn|Hn].
    + destruct (es_set spec !! k) as [v|] eqn:Hset.
      * right. rewrite some_union. split; [by eexists|]. tauto.
      * rewrite (left_id_L None (∪)). destruct Hof as [Hs|[? [=]]]. destruct (inherits k auth) eqn:Hi; [|by left].
        right. rewrite bool_decide_eq_false_2 by naive_solver. cbn. tauto.
    + destruct Hn as [Hset Hs]. rewrite Hset in *. destruct Hof as [Hof|[? [=]]]. left.
      destruct (inherits k auth) eqn:Hi; [|done]. rewrite bool_decide_eq_false_2 in Hs by naive_solver. cbn in Hs.
      destruct Hof as [? Hof]. by rewrite Hof in Hs.
Qed.

(** pmux's own names. *)
Definition OWN_NAMES : list string :=
  ["TERM"; "CLAUDE_CONFIG_DIR"; "CLAUDE_SECURESTORAGE_CONFIG_DIR"; "CLAUDE_CODE_DISABLE_OFFICIAL_MARKETPLACE_AUTOINSTALL"].

Lemma child_value_origin spec auth isolation cell name :
  is_Some (child_value spec auth isolation cell name) ->
  name ∈ OWN_NAMES \/
  transparent_profile_removes name = false /\ subscription_policy_removes name auth = false /\
  (is_Some (es_set spec !! name) \/ inherits name auth = true /\ (name ∉ es_unset spec) /\ is_Some (es_snapshot spec !! name)).
Proof.
  unfold child_value, OWN_NAMES.
  destruct (andb _ (bool_decide (name = "CLAUDE_CODE_DISABLE_OFFICIAL_MARKETPLACE_AUTOINSTALL"))) eqn:Hm;
    [apply andb_true_iff in Hm as [_ ->%bool_decide_eq_true]; set_solver|].
  intros Hs. destruct (decide (name ∈ ["TERM"; "CLAUDE_CONFIG_DIR"; "CLAUDE_SECURESTORAGE_CONFIG_DIR"])) as [?|Hno]; [set_solver|].
  rewrite !not_elem_of_cons in Hno. destruct Hno as (H1 & H2 & H3 & _). right.
  repeat rewrite bool_decide_eq_false_2 in Hs by done.
  assert (Hs' : is_Some (if transparent_profile_removes name || subscription_policy_removes name auth then None
         else let value := es_set spec !! name ∪
                      (if inherits name auth && negb (bool_decide (name ∈ es_unset spec))
                       then es_snapshot spec !! name else None) in
         if bool_decide (name = "PATH") then pruned_path spec <$> value else value)).
  { destruct isolation; by rewrite (left_id_L None (∪)) in Hs. }
  clear Hs. destruct (transparent_profile_removes name), (subscription_policy_removes name auth); try (by destruct Hs'); cbn in Hs'.
  split_and!; [done..|].
  assert (Hv : is_Some (es_set spec !! name ∪
                 (if inherits name auth && negb (bool_decide (name ∈ es_unset spec)) then es_snapshot spec !! name else None))).
  { destruct (bool_decide (name = "PATH")); [by apply fmap_is_Some in Hs'|done]. }
  destruct (es_set spec !! name); [by left|]. right. rewrite (left_id_L None (∪)) in Hv.
  destruct (inherits name auth), (bool_decide_reflect (name ∈ es_unset spec)); cbn in Hv; by destruct Hv.
Qed.

Lemma valid_names spec k :
  validate_environment spec = Ok tt ->
  is_Some (es_snapshot spec !! k) \/ is_Some (es_set spec !! k) -> invalid_name k = false.
Proof.
  unfold validate_environment. intros Hv Hk. env_inv. rewrite existsb_app in *.
  match goal with Hf : _ || _ = false |- _ => apply orb_false_iff in Hf as [H1 H2] end. rewrite existsb_map_false in H1, H2.
  destruct Hk as [[v Hk]|[v Hk]]; [specialize (H1 _ _ Hk); rename H1 into Hx|specialize (H2 _ _ Hk); rename H2 into Hx];
    by apply orb_false_iff in Hx as [Hx _].
Qed.

(** C15. What never reaches the child. By any channel, the caller's own [set] included: under
    the subscription policy none of the ten names of credentials, provider endpoints and
    provider selections in [SUBSCRIPTION_AUTH_KEYS]; no marker of a parent terminal, SDK or
    Claude session; no agent-team name; no malformed name. Without being [set] by the caller:
    a name is pmux's own or one the allowlist admits; under the subscription policy it is in
    no cloud provider's name space; and in the [CLAUDE] name space only the configuration
    root, pmux's own names and, under [Inherit], the provider selections. (Other provider
    credentials, such as [AWS_SECRET_ACCESS_KEY], do reach the child when the caller sets
    them.) *)
Theorem nothing_forbidden_reaches_the_child spec auth profile isolation cell vars removed name :
  build_environment spec auth profile isolation cell = Ok (vars, removed) ->
  is_Some (vars !! name) ->
  (auth = Subscription -> name ∉ SUBSCRIPTION_AUTH_KEYS) /\
  transparent_profile_removes name = false /\ is_team_marker name = false /\ invalid_name name = false /\
  (es_set spec !! name = None ->
     (name ∈ OWN_NAMES \/ inherits name auth = true /\ (name ∉ es_unset spec) /\ is_Some (es_snapshot spec !! name)) /\
     (auth = Subscription -> has_prefix PROVIDER_ROUTING_PREFIXES name = false /\ name ∉ PROVIDER_ROUTING_EXACT_KEYS) /\
     (String.prefix "CLAUDE" name = true ->
        name ∈ OWN_NAMES \/
        auth = Inherit /\ name ∈ ["CLAUDE_CODE_USE_BEDROCK"; "CLAUDE_CODE_USE_VERTEX"; "CLAUDE_CODE_USE_FOUNDRY"])).
Proof.
  intros (Hv & _ & Hx & _ & Ht)%build_environment_exact Hs. pose proof (Ht _ Hs) as Hteam. rewrite Hx in Hs.
  apply child_value_origin in Hs as [Ho|(Hp & Hk & Ho)].
  - assert (Hc : mem_str name SUBSCRIPTION_AUTH_KEYS = false /\ transparent_profile_removes name = false /\ invalid_name name = false).
    { unfold OWN_NAMES in Ho. repeat (apply elem_of_cons in Ho as [->|Ho]; [by vm_compute|]). by apply elem_of_nil in Ho. }
    destruct Hc as (H1 & H2 & H3). split_and!; [intros _ Hin%mem_str_In; by rewrite Hin in H1|done..|]. intros _. split; [by left|]. split; [|by left].
    intros _. unfold OWN_NAMES in Ho. unfold PROVIDER_ROUTING_EXACT_KEYS.
    repeat (apply elem_of_cons in Ho as [->|Ho]; [split; [by vm_compute|by rewrite list_elem_of_singleton]|]). by apply elem_of_nil in Ho.
  - split_and!; [|done|done| |].
    + intros ->. unfold subscription_policy_removes in Hk. rewrite bool_decide_eq_true_2, andb_true_l in Hk by done.
      intros Hin%mem_str_In. by rewrite Hin in Hk.
    + eapply valid_names; [done|]. destruct Ho as [?|(_ & _ & ?)]; auto.
    + intros Hn. destruct Ho as [[? Ho]|Ho]; [by rewrite Hn in Ho|]. split; [by right|].
      split; [intros ->; apply inherited_names_route_nothing, Ho|]. intros Hc.
      destruct (inherited_claude_names _ _ Hc (proj1 Ho)) as [->|?]; [left; unfold OWN_NAMES; set_solver|by right].
Qed.

End Theorems.
