(* ===== verification/Launch.v ===== *)
(** * Launching a Claude process

    [crates/service/src/claude_launch.rs]: which start requests are admitted, the command
    line and the environment of the process, and the rules for a private configuration root;
    [crates/service/src/sensitive_launch.rs]: the owner-only files that hold what must not
    stand on a command line. A session id minted for a request is an argument. *)

From S2P Require Import Prelude Text Protocol Parser Session Screen Locator LaunchEnv.

#[local] Open Scope string_scope.
#[local] Open Scope N_scope.

(** ** Requests *)

Inductive SessionIdentity :=
| NewSession (session_id : option SessionId)
| ResumeSession (session_id : SessionId).

Inductive ConfigSource :=
| SourceFile (path : string)
| SourceInline (document : json).

Inductive PermissionMode :=
| PermissionDefault | AcceptEdits | Plan | PermissionAuto | BypassPermissions | DontAsk | DangerouslySkipPermissions.

#[global] Instance PermissionMode_eq_dec : EqDecision PermissionMode.
Proof. solve_decision. Defined.

Inductive SystemPromptPolicy :=
| PromptDefault
| PromptAppend (prompt : string)
| PromptReplace (prompt : string).

Record ClaudeLaunchConfig := mkLaunchConfig {
  lc_executable : string;
  lc_model : option string;
  lc_effort : option EffortLevel;
  lc_permission_mode : option PermissionMode;
  lc_allowed_tools : list string;
  lc_denied_tools : list string;
  lc_settings : list ConfigSource;
  lc_mcp_configs : list ConfigSource;
  lc_plugin_dirs : list string;
  lc_system_prompt : SystemPromptPolicy;
  lc_extra_args : list string;
}.

Record TerminalSpec := mkTerminalSpec {
  ts_rows : N;
  ts_cols : N;
  ts_profile : TerminalProfile;
  ts_input_transport : InputTransport;
}.

Record AgentRef := mkAgentRef { ar_agent_id : N; ar_version : N }.
Inductive LifecycleMode := TranscriptLifecycle | HybridLifecycle (hook_timeout_ms : N).
Inductive RetentionPolicy := OneShot | Persistent (idle_ttl_ms : N).
Inductive CompatibilityPolicy := RequireTested | AllowUntested.

Record StartSessionRequest := mkStartRequest {
  sr_identity : SessionIdentity;
  sr_cwd : string;
  sr_claude : option ClaudeLaunchConfig;
  sr_agent : option AgentRef;
  sr_environment : EnvironmentSpec;
  sr_auth_policy : AuthPolicy;
  sr_config_isolation : option ConfigIsolation;
  sr_terminal : TerminalSpec;
  sr_lifecycle : LifecycleMode;
  sr_retention : RetentionPolicy;
  sr_compatibility : CompatibilityPolicy;
  sr_cell : SessionCell;
}.

Record LaunchSpec := mkLaunchSpec {
  ls_executable : string;
  ls_args : list string;
  ls_cwd : string;
  ls_environment : gmap string string;
}.

Record ResolvedClaudeLaunch := mkResolved {
  rl_session_id : SessionId;
  rl_resume : bool;
  rl_process : LaunchSpec;
  rl_removed_environment_keys : gset string;
  rl_dangerous_permission_bypass : bool;
}.

(** ** Tables *)

Definition FORBIDDEN_DRIVER_FLAGS : list string :=
  ["-p"; "--print"; "--bg"; "--background"; "--session-id"; "--resume"; "--continue"; "--output-format";
   "--input-format"; "--teammate-mode"; "--no-session-persistence"].
Definition SAFE_EXTRA_FLAGS : list string := ["--debug"; "--verbose"].
Definition DANGEROUSLY_SKIP_PERMISSIONS_FLAG : string := "--dangerously-skip-permissions".
Definition CONFIG_ROOT_ENV_DOORS : list string :=
  ["CLAUDE_CONFIG_DIR"; "CLAUDE_SECURESTORAGE_CONFIG_DIR"; "HOME"; "USERPROFILE"; "XDG_CONFIG_HOME"].
Definition MINIFIED_CELL_FLAGS : list string := ["--strict-mcp-config"].

Definition effort_name (effort : EffortLevel) : string :=
  match effort with Low => "low" | Medium => "medium" | High => "high" | XHigh => "xhigh" | Max => "max" end.

Inductive PermissionModeArgv := Pair (name : string) | Single (flag : string).

Definition permission_mode_argv (mode : PermissionMode) : PermissionModeArgv :=
  match mode with
  | PermissionDefault => Pair "default"
  | AcceptEdits => Pair "acceptEdits"
  | Plan => Pair "plan"
  | PermissionAuto => Pair "auto"
  | BypassPermissions => Pair "bypassPermissions"
  | DontAsk => Pair "dontAsk"
  | DangerouslySkipPermissions => Single DANGEROUSLY_SKIP_PERMISSIONS_FLAG
  end.

(** ** The command line *)

Fixpoint validate_extra_args (args : list string) : result unit Anyhow :=
  match args with
  | [] => Ok tt
  | arg :: args =>
      if has_char NUL arg then bail "Claude extra arguments may not contain NUL"
      else if existsb (fun flag => String.eqb arg flag || String.prefix (flag +:+ "=") arg) FORBIDDEN_DRIVER_FLAGS
      then bail ("driver-owned or non-interactive Claude flag is forbidden: " +:+ arg)
      else if negb (mem_str arg SAFE_EXTRA_FLAGS)
      then bail ("Claude extra argument is not in the v1 allowlist: " +:+ arg)
      else validate_extra_args args
  end.

Definition push_value (args : list string) (flag value : string) : result (list string) Anyhow :=
  if bool_decide (value = EmptyString) || has_char NUL value || String.prefix "-" value
  then bail (flag +:+ " value must be non-empty, contain no NUL, and not resemble an option")
  else Ok (args ++ [flag; value])%list.

Section Launch.
Context `{FileSystem} (id_text : SessionId -> string).

Definition push_config_source (flag : string) (args : list string) (source : ConfigSource) : result (list string) Anyhow :=
  match source with
  | SourceFile path =>
      let? path := canonical_absolute path flag RegularFile in
      let? value := canonical_utf8 path flag in
      push_value args flag value
  | SourceInline _ =>
      bail ("inline " +:+ flag +:+ " config must be materialized into an owner-only file before launch")
  end.

Definition push_plugin (args : list string) (plugin : string) : result (list string) Anyhow :=
  let? path := canonical_absolute plugin "plugin directory" Directory in
  let? value := canonical_utf8 path "plugin directory" in
  push_value args "--plugin-dir" value.

Definition build_args (session_id : SessionId) (resume : bool) (config : ClaudeLaunchConfig) (cell : SessionCell) :
    result (list string) Anyhow :=
  let args := [if resume then "--resume" else "--session-id"; id_text session_id] in
  let? args := match lc_model config with Some model => push_value args "--model" model | None => Ok args end in
  let args := match lc_effort config with
              | Some effort => (args ++ ["--effort"; effort_name effort])%list
              | None => args
              end in
  let args := match lc_permission_mode config with
              | Some permission =>
                  (args ++ match permission_mode_argv permission with
                           | Pair name => ["--permission-mode"; name]
                           | Single flag => [flag]
                           end)%list
              | None => args
              end in
  let? args := try_fold (fun args tool => push_value args "--allowedTools" tool) (lc_allowed_tools config) args in
  let? args := try_fold (fun args tool => push_value args "--disallowedTools" tool) (lc_denied_tools config) args in
  let? args := try_fold (push_config_source "--settings") (lc_settings config) args in
  let? args := try_fold (push_config_source "--mcp-config") (lc_mcp_configs config) args in
  let? args := try_fold push_plugin (lc_plugin_dirs config) args in
  let? _ := match lc_system_prompt config with
            | PromptDefault => Ok tt
            | PromptAppend _ | PromptReplace _ =>
                bail "system prompt text must be materialized into an owner-only file before launch"
            end in
  Ok (args ++ lc_extra_args config ++ match cell with Minified => MINIFIED_CELL_FLAGS | Full => [] end)%list.

(** ** Admission *)

(** [{mode:04o}] of twelve bits. *)
Definition octal_digit (d : N) : string := String (Ascii.ascii_of_N (48 + d)) EmptyString.
Definition octal4 (mode : N) : string :=
  octal_digit (mode / 512) +:+ octal_digit (mode / 64 mod 8) +:+ octal_digit (mode / 8 mod 8) +:+ octal_digit (mode mod 8).

Definition require_owner_only_directory (path label : string) : result unit Anyhow :=
  let? m := with_context ("failed to inspect " +:+ label +:+ ": " +:+ fs_display path)
              (map_err stat_error_text (fs_metadata path)) in
  if negb (md_uid m =? fs_euid)
  then bail (label +:+ " must be owned by the daemon's effective uid: " +:+ fs_display path)
  else
    let mode := N.land (md_mode m) 4095 in
    if negb (mode =? 448) then bail (label +:+ " must have mode 0700, found " +:+ octal4 mode +:+ ": " +:+ fs_display path)
    else Ok tt.

Definition GLOBAL_CONFIG_FILE : string := ".claude.json".
Definition SHADOWING_CONFIG_FILE : string := ".config.json".

Definition refuse_shadowed_config_file (root : string) : result unit Anyhow :=
  let shadow := join_path root SHADOWING_CONFIG_FILE in
  if is_ok (fs_metadata shadow)
  then bail ("config isolation root contains " +:+ SHADOWING_CONFIG_FILE +:+ ", which Claude reads in preference to "
             +:+ GLOBAL_CONFIG_FILE +:+ " and would make the pmux seed inert: " +:+ fs_display shadow)
  else Ok tt.

Definition pre_isolation_config_root (spec : EnvironmentSpec) : option string :=
  match patched_value spec "CLAUDE_CONFIG_DIR" with
  | Some root => Some root
  | None => (fun home => join_path home ".claude") <$> patched_value spec "HOME"
  end.

(** The first name of a list that the caller sets. *)
Definition first_set (names : list string) (set : gmap string string) : option string :=
  List.find (fun name => bool_decide (is_Some (set !! name))) names.

Definition validate_config_isolation (request : StartSessionRequest) : result unit Anyhow :=
  match sr_config_isolation request with
  | None =>
      match sr_cell request with
      | Minified => bail "a minified cell requires config_isolation: without a private configuration root its transcripts, prompt history and paste cache accumulate in the caller's own root"
      | Full => Ok tt
      end
  | Some isolation =>
      if bool_decide (ci_root isolation = EmptyString) || has_char NUL (ci_root isolation)
      then bail "config isolation root must be non-empty and contain no NUL"
      else
        let? _ := match sr_cell request, first_set CONFIG_ROOT_ENV_DOORS (es_set (sr_environment request)) with
                  | Minified, Some key => bail ("a minified cell may not set " +:+ key +:+ " in environment.set; config_isolation is the supported way to give a minified cell its own configuration root, and it is the only one pmux canonicalizes, owner-checks and pristine-checks")
                  | _, _ => Ok tt
                  end in
        let? _ := match first_set ["CLAUDE_CONFIG_DIR"; "CLAUDE_SECURESTORAGE_CONFIG_DIR"] (es_set (sr_environment request)) with
                  | Some key => bail ("config isolation and an explicit " +:+ key +:+ " are mutually exclusive")
                  | None => Ok tt
                  end in
        let? root := canonical_absolute (ci_root isolation) "config isolation root" Directory in
        let? _ := require_owner_only_directory root "config isolation root" in
        let? _ := refuse_shadowed_config_file root in
        let? _ := match pre_isolation_config_root (sr_environment request) with
                  | Some inherited =>
                      if must_treat_as_same_directory root inherited
                      then bail ("config isolation root is, or cannot be told apart from, the configuration root this request would have used anyway: " +:+ fs_display root)
                      else Ok tt
                  | None => Ok tt
                  end in
        let? cwd := canonical_absolute (sr_cwd request) "cwd" Directory in
        if one_directory_contains_the_other root cwd
        then bail ("config isolation root and cwd may not contain one another: " +:+ fs_display root +:+ " vs " +:+ fs_display cwd)
        else Ok tt
  end.

Definition SKIP_PROMPT_HISTORY : string := "CLAUDE_CODE_SKIP_PROMPT_HISTORY".

Definition validate_start (request : StartSessionRequest) : result unit Anyhow :=
  let environment := sr_environment request in
  if (ts_rows (sr_terminal request) =? 0) || (ts_cols (sr_terminal request) =? 0)
  then bail "terminal rows and columns must be non-zero"
  else if match ts_input_transport (sr_terminal request) with AttachedStream => true | _ => false end
  then bail "attached-stream prompt injection is not enabled by the validated v1 profile"
  else if bool_decide (is_Some (es_set environment !! SKIP_PROMPT_HISTORY))
          || (bool_decide (is_Some (es_snapshot environment !! SKIP_PROMPT_HISTORY))
              && negb (bool_decide (SKIP_PROMPT_HISTORY ∈ es_unset environment)))
  then bail "CLAUDE_CODE_SKIP_PROMPT_HISTORY is incompatible with transcript authority"
  else
    let? _ := match sr_claude request with Some claude => validate_extra_args (lc_extra_args claude) | None => Ok tt end in
    validate_config_isolation request.

Definition requested_id (identity : SessionIdentity) (fresh : SessionId) : SessionId * bool :=
  match identity with
  | NewSession session_id => (default fresh session_id, false)
  | ResumeSession session_id => (session_id, true)
  end.

Definition select_session_id (request : StartSessionRequest) (fresh : SessionId) : result SessionId Anyhow :=
  let? _ := validate_start request in
  Ok (fst (requested_id (sr_identity request) fresh)).

Definition resolve_claude_launch (request : StartSessionRequest) (fresh : SessionId) : result ResolvedClaudeLaunch Anyhow :=
  let? _ := validate_start request in
  let? claude := ok_or (sr_claude request) ["start request carries no inline launch configuration"] in
  let '(session_id, resume) := requested_id (sr_identity request) fresh in
  let? cwd := canonical_absolute (sr_cwd request) "cwd" Directory in
  let? executable := canonical_absolute (lc_executable claude) "Claude executable" ExecutableFile in
  let? args := build_args session_id resume claude (sr_cell request) in
  let? '(environment, removed) :=
     build_environment (sr_environment request) (sr_auth_policy request) (ts_profile (sr_terminal request))
       (sr_config_isolation request) (sr_cell request) in
  Ok (mkResolved session_id resume (mkLaunchSpec executable args cwd environment) removed
        (bool_decide (lc_permission_mode claude = Some DangerouslySkipPermissions))).

(** [LaunchSpec::validate], of [crates/rmux/src/launch.rs]. *)
Definition LaunchSpec_validate (launch : LaunchSpec) : result unit string :=
  if negb (is_absolute (ls_executable launch)) then Err "Claude executable must be absolute"
  else if negb (is_absolute (ls_cwd launch)) then Err "Claude cwd must be absolute"
  else if existsb (has_char NUL) (ls_args launch) then Err "Claude arguments may not contain NUL"
  else if existsb (fun kv => invalid_name (fst kv) || has_char NUL (snd kv)) (map_to_list (ls_environment launch))
  then Err "invalid process environment"
  else Ok tt.

(** ** Files for what is secret *)

Definition MAX_MATERIALIZED_FILE_BYTES : N := 8 * 1024 * 1024.

Record SystemPromptFile := mkPromptFile { pf_flag : string; pf_path : string }.

(** How writing a new file goes. *)
Inductive WriteOutcome := Written | CreateFailed (text : string) | WriteFailed (text : string) | FlushFailed (text : string).

Context (json_bytes : json -> result (list N) string) (write_outcome : string -> WriteOutcome).

(** A file created for its owner: the mode it is created with, and its contents. *)
Record PrivateFile := mkPrivateFile { pv_path : string; pv_mode : N; pv_contents : list N }.
Abbreviation Files := (list PrivateFile).

(** The temporary directory the system gave below the daemon's own, and how restricting it
    to its owner went. *)
Record TempDir := mkTempDir { td_created : result string string; td_restricted : result unit string }.

(** What is left on disk for a launch. *)
Record Material := mkMaterial { mt_directory : string; mt_directory_mode : N; mt_files : Files }.

(** [OpenOptions::mode(0o600)], with [create_new]. *)
Definition write_private_file (path : string) (contents : list N) (files : Files) : result Files Anyhow :=
  if MAX_MATERIALIZED_FILE_BYTES <? N.of_nat (length contents)
  then bail ("sensitive launch material exceeds the " +:+ pretty MAX_MATERIALIZED_FILE_BYTES +:+ " byte limit")
  else match write_outcome path with
       | CreateFailed text => Err [("failed to create private launch file at " +:+ fs_display path); text]
       | WriteFailed text => Err ["failed to write private launch material"; text]
       | FlushFailed text => Err ["failed to flush private launch material"; text]
       | Written => Ok (files ++ [mkPrivateFile path 384 contents])%list
       end.

(** [{index:04}]. *)
Fixpoint zeros (n : nat) : string := match n with O => EmptyString | S n => "0" +:+ zeros n end.
Definition index4 (index : nat) : string :=
  let digits := pretty (N.of_nat index) in zeros (4 - String.length digits) +:+ digits.

Fixpoint materialize_sources (directory prefix : string) (index : nat) (sources : list ConfigSource) (files : Files) :
    result (list ConfigSource * Files) Anyhow :=
  match sources with
  | [] => Ok ([], files)
  | SourceFile path :: sources =>
      let? '(rest, files) := materialize_sources directory prefix (S index) sources files in
      Ok (SourceFile path :: rest, files)
  | SourceInline document :: sources =>
      let? contents := with_context "failed to encode inline JSON config" (json_bytes document) in
      let path := join_path directory (prefix +:+ "-" +:+ index4 index +:+ ".json") in
      let? files := write_private_file path contents files in
      let? '(rest, files) := materialize_sources directory prefix (S index) sources files in
      Ok (SourceFile (fs_display path) :: rest, files)
  end.

Definition materialize_prompt (directory filename flag prompt : string) (files : Files) :
    result (SystemPromptFile * Files) Anyhow :=
  if bool_decide (prompt = EmptyString) || has_char NUL prompt
  then bail "system prompt must be non-empty and contain no NUL"
  else
    let path := join_path directory filename in
    let? files := write_private_file path (bytes prompt) files in
    Ok (mkPromptFile flag path, files).

Definition set_sources (settings mcp_configs : list ConfigSource) (c : ClaudeLaunchConfig) : ClaudeLaunchConfig :=
  mkLaunchConfig (lc_executable c) (lc_model c) (lc_effort c) (lc_permission_mode c) (lc_allowed_tools c) (lc_denied_tools c)
    settings mcp_configs (lc_plugin_dirs c) PromptDefault (lc_extra_args c).

(** [Permissions::from_mode(0o700)]: the mode the directory has then. *)
Definition set_owner_directory_permissions (directory : TempDir) : result N Anyhow :=
  let? _ := with_context "failed to restrict private launch material directory" (td_restricted directory) in
  Ok 448.

Definition prepare (temporary : TempDir) (config : ClaudeLaunchConfig) :
    result (ClaudeLaunchConfig * option SystemPromptFile * Material) Anyhow :=
  let? directory := with_context "failed to create private launch material directory" (td_created temporary) in
  let? mode := set_owner_directory_permissions temporary in
  let? '(settings, files) := materialize_sources directory "settings" 0 (lc_settings config) [] in
  let? '(mcp_configs, files) := materialize_sources directory "mcp" 0 (lc_mcp_configs config) files in
  let config' := set_sources settings mcp_configs config in
  match lc_system_prompt config with
  | PromptDefault => Ok (config', None, mkMaterial directory mode files)
  | PromptAppend prompt =>
      let? '(file, files) := materialize_prompt directory "append-system-prompt.txt" "--append-system-prompt-file" prompt files in
      Ok (config', Some file, mkMaterial directory mode files)
  | PromptReplace prompt =>
      let? '(file, files) := materialize_prompt directory "system-prompt.txt" "--system-prompt-file" prompt files in
      Ok (config', Some file, mkMaterial directory mode files)
  end.

Definition apply_to (system_prompt : option SystemPromptFile) (launch : LaunchSpec) : LaunchSpec :=
  match system_prompt with
  | None => launch
  | Some prompt =>
      mkLaunchSpec (ls_executable launch) (ls_args launch ++ [pf_flag prompt; fs_display (pf_path prompt)])%list
        (ls_cwd launch) (ls_environment launch)
  end.

End Launch.

(** ** What a launch is

    The command line of an admitted launch, its privacy, and the secrets that do not show
    on it. *)

(** ** Command lines *)

(** An option of the driver, alone or with its value. *)
Inductive Item := Switch (flag : string) | Valued (flag value : string).

Definition item_args (i : Item) : list string :=
  match i with Switch flag => [flag] | Valued flag value => [flag; value] end.

Definition SWITCHES : list string :=
  ["--dangerously-skip-permissions"; "--debug"; "--verbose"; "--strict-mcp-config"].
Definition VALUED : list string :=
  ["--model"; "--effort"; "--permission-mode"; "--allowedTools"; "--disallowedTools"; "--settings"; "--mcp-config"; "--plugin-dir"].

(** A value that cannot be read as an option. *)
Definition plain (value : string) : bool :=
  negb (bool_decide (value = EmptyString) || has_char NUL value || String.prefix "-" value).

Definition item_ok (i : Item) : Prop :=
  match i with Switch flag => flag ∈ SWITCHES | Valued flag value => flag ∈ VALUED /\ plain value = true end.

(** [args] is [before] with these options behind it. *)
Definition grown (args before : list string) (items : list Item) : Prop :=
  args = (before ++ concat (item_args <$> items))%list.

Lemma grown_nil args : grown args args [].
Proof. symmetry. apply app_nil_r. Qed.

Lemma grown_app a b c i j : grown b a i -> grown c b j -> grown c a (i ++ j).
Proof. unfold grown. intros -> ->. by rewrite fmap_app, concat_app, app_assoc. Qed.

Lemma push_value_grows args flag value args' :
  push_value args flag value = Ok args' -> grown args' args [Valued flag value] /\ plain value = true.
Proof. unfold push_value, bail, plain, grown. intros Hp. destruct (_ || _) in *; [done|]. by injection Hp as <-. Qed.

(** A loop that pushes a value for every entry. *)
Lemma pushing_grows {B} (f : list string -> B -> result (list string) Anyhow) flag (R : B -> string -> Prop) :
  (forall args b args', f args b = Ok args' -> exists v, R b v /\ grown args' args [Valued flag v] /\ plain v = true) ->
  forall l args args', try_fold f l args = Ok args' ->
  exists values, Forall2 R l values /\ grown args' args (Valued flag <$> values) /\ Forall (fun v => plain v = true) values.
Proof.
  intros Hf l. induction l as [|b l IH]; cbn; intros args args' Ht.
  - injection Ht as <-. exists []. split_and!; [done|apply grown_nil|done].
  - apply result_bind_Ok in Ht as (mid & Hm & Ht). apply Hf in Hm as (v & Hr & Hg & Hv). apply IH in Ht as (vs & Hrs & Hg' & Hvs).
    exists (v :: vs). split_and!; [by constructor|exact (grown_app _ _ _ _ _ Hg Hg')|by constructor].
Qed.

Lemma Forall2_eq_eq {A} (l k : list A) : Forall2 eq l k -> k = l.
Proof. induction 1; by simplify_eq. Qed.

Lemma pushing_tools flag tools args args' :
  try_fold (fun args tool => push_value args flag tool) tools args = Ok args' ->
  grown args' args (Valued flag <$> tools) /\ Forall (fun v => plain v = true) tools.
Proof.
  intros Ht. apply (pushing_grows _ flag eq) in Ht as (values & ->%Forall2_eq_eq & Hv); [done|].
  intros a tool a' Hp. exists tool. split; [done|]. by apply push_value_grows.
Qed.

Lemma extra_args_safe args : validate_extra_args args = Ok tt -> Forall (fun a => a ∈ SAFE_EXTRA_FLAGS) args.
Proof.
  induction args as [|a args IH]; cbn [validate_extra_args]; [constructor|]. intros Hv. env_inv.
  match goal with Hm : negb (mem_str _ _) = false |- _ => apply negb_false_iff, mem_str_In in Hm end.
  constructor; [done|]. by apply IH.
Qed.

(** Nothing the driver says can be read as one of the flags it keeps to itself. *)
Lemma items_not_forbidden items a :
  Forall item_ok items -> a ∈ concat (item_args <$> items) ->
  (a ∉ FORBIDDEN_DRIVER_FLAGS) /\ (plain a = true \/ a ∈ SWITCHES \/ a ∈ VALUED).
Proof.
  intros Hok Ha. assert (Hc : plain a = true \/ a ∈ SWITCHES \/ a ∈ VALUED).
  { apply list_elem_of_In, in_concat in Ha as (l & Hl%list_elem_of_In & Ha%list_elem_of_In).
    apply list_elem_of_fmap in Hl as (i & -> & Hi). rewrite Forall_forall in Hok. specialize (Hok i Hi).
    destruct i as [flag|flag value]; cbn in *; set_solver. }
  split; [|done]. intros Hf.
  assert (Hd : plain a = false /\ mem_str a SWITCHES = false /\ mem_str a VALUED = false).
  { unfold FORBIDDEN_DRIVER_FLAGS in Hf. repeat (apply elem_of_cons in Hf as [->|Hf]; [by vm_compute|]). by apply elem_of_nil in Hf. }
  destruct Hd as (H1 & H2 & H3). destruct Hc as [Hc|[Hc%mem_str_In|Hc%mem_str_In]]; congruence.
Qed.

Section Argv.
Context `{FileSystem} (id_text : SessionId -> string).

(** The value of an option that names a file or directory is where that is. *)
Definition stands_at (path value : string) : Prop := fs_canonicalize path = Ok value.

Definition file_stands_at (source : ConfigSource) (value : string) : Prop :=
  exists path, source = SourceFile path /\ stands_at path value.

Lemma canonical_stands path label kind value : canonical_absolute path label kind = Ok value -> stands_at path value.
Proof. unfold canonical_absolute, stands_at. intros Hc. env_inv; by subst. Qed.

Lemma utf8_stands path label value : canonical_utf8 path label = Ok value -> value = path.
Proof. unfold canonical_utf8, bail. destruct (utf8_decode _); by intros [= <-]. Qed.

Lemma push_config_grows flag args source args' :
  push_config_source flag args source = Ok args' ->
  exists v, file_stands_at source v /\ grown args' args [Valued flag v] /\ plain v = true.
Proof.
  unfold push_config_source, bail. destruct source as [path|]; [|done]. intros Hp.
  apply result_bind_Ok in Hp as (v & Hv%canonical_stands & Hp). apply result_bind_Ok in Hp as (? & ->%utf8_stands & Hp).
  exists v. split; [by exists path|]. by apply push_value_grows.
Qed.

Lemma push_plugin_grows args plugin args' :
  push_plugin args plugin = Ok args' ->
  exists v, stands_at plugin v /\ grown args' args [Valued "--plugin-dir" v] /\ plain v = true.
Proof.
  unfold push_plugin. intros Hp. apply result_bind_Ok in Hp as (v & Hv%canonical_stands & Hp).
  apply result_bind_Ok in Hp as (? & ->%utf8_stands & Hp). exists v. split; [done|]. by apply push_value_grows.
Qed.

(** The values of one option, each after the option. *)
Lemma valued_ok flag values :
  flag ∈ VALUED -> Forall (fun v => plain v = true) values -> Forall item_ok (Valued flag <$> values).
Proof. intros Hf Hv. apply Forall_fmap. eapply Forall_impl; [exact Hv|]. intros v Hp. by split. Qed.

Lemma no_switch_in_valued flag f (values : list string) : Switch flag ∉ (Valued f <$> values).
Proof. intros (v & [=] & _)%list_elem_of_fmap. Qed.

(** How each permission mode is said. *)
Definition permission_items (mode : option PermissionMode) : list Item :=
  match mode with
  | None => []
  | Some PermissionDefault => [Valued "--permission-mode" "default"]
  | Some AcceptEdits => [Valued "--permission-mode" "acceptEdits"]
  | Some Plan => [Valued "--permission-mode" "plan"]
  | Some PermissionAuto => [Valued "--permission-mode" "auto"]
  | Some BypassPermissions => [Valued "--permission-mode" "bypassPermissions"]
  | Some DontAsk => [Valued "--permission-mode" "dontAsk"]
  | Some DangerouslySkipPermissions => [Switch "--dangerously-skip-permissions"]
  end.

Lemma permission_items_ok mode : Forall item_ok (permission_items mode).
Proof. destruct mode as [[]|]; repeat constructor; unfold SWITCHES, VALUED; cbn; set_solver. Qed.

Lemma permission_items_bypass mode :
  Switch "--dangerously-skip-permissions" ∈ permission_items mode <-> mode = Some DangerouslySkipPermissions.
Proof. destruct mode as [[]|]; cbn; split; try done; try (intros [=]%elem_of_list_singleton); set_solver. Qed.

Definition cell_items (cell : SessionCell) : list Item :=
  match cell with Minified => [Switch "--strict-mcp-config"] | Full => [] end.

Lemma switches_args (l : list string) : concat (item_args <$> (Switch <$> l)) = l.
Proof. induction l as [|a l IH]; cbn; [done|by f_equal]. Qed.

Definition effort_items (effort : option EffortLevel) : list Item :=
  match effort with
  | None => []
  | Some Low => [Valued "--effort" "low"]
  | Some Medium => [Valued "--effort" "medium"]
  | Some High => [Valued "--effort" "high"]
  | Some XHigh => [Valued "--effort" "xhigh"]
  | Some Max => [Valued "--effort" "max"]
  end.

Lemma effort_items_ok effort : Forall item_ok (effort_items effort).
Proof. destruct effort as [[]|]; repeat constructor; unfold VALUED; set_solver. Qed.

Lemma effort_no_switch flag effort : Switch flag ∉ effort_items effort.
Proof. destruct effort as [[]|]; cbn; set_solver. Qed.

Lemma effort_args (args : list string) effort :
  match effort with Some effort => args ++ ["--effort"; effort_name effort] | None => args end%list =
  (args ++ concat (item_args <$> effort_items effort))%list.
Proof. destruct effort as [[]|]; cbn; try done. by rewrite app_nil_r. Qed.

Lemma permission_args (args : list string) mode :
  match mode with
  | Some permission => args ++ match permission_mode_argv permission with
                               | Pair name => ["--permission-mode"; name]
                               | Single flag => [flag]
                               end
  | None => args
  end%list = (args ++ concat (item_args <$> permission_items mode))%list.
Proof. destruct mode as [[]|]; cbn; try done. by rewrite app_nil_r. Qed.

Lemma cell_args cell :
  concat (item_args <$> cell_items cell) = match cell with Minified => MINIFIED_CELL_FLAGS | Full => [] end.
Proof. by destruct cell. Qed.

Lemma cell_items_ok cell : Forall item_ok (cell_items cell).
Proof. destruct cell; by repeat constructor. Qed.

Lemma model_items args model args' :
  match model with Some m => push_value args "--model" m | None => Ok args end = Ok args' ->
  grown args' args (Valued "--model" <$> option_list model) /\ Forall (fun v => plain v = true) (option_list model).
Proof.
  destruct model as [m|]; intros Hm.
  - apply push_value_grows in Hm as [Hg Hp]. split; [done|by repeat constructor].
  - injection Hm as <-. split; [apply grown_nil|done].
Qed.

(** The options a configuration asks for, in their order; the files and directories it names
    are given as the paths where they stand. *)
Definition argv_items (config : ClaudeLaunchConfig) (cell : SessionCell) (settings mcp plugins : list string) : list Item := (
  (Valued "--model" <$> option_list (lc_model config)) ++ effort_items (lc_effort config) ++ permission_items (lc_permission_mode config)
  ++ (Valued "--allowedTools" <$> lc_allowed_tools config) ++ (Valued "--disallowedTools" <$> lc_denied_tools config)
  ++ (Valued "--settings" <$> settings) ++ (Valued "--mcp-config" <$> mcp) ++ (Valued "--plugin-dir" <$> plugins)
  ++ (Switch <$> lc_extra_args config) ++ cell_items cell)%list.

Lemma switch_in_argv flag config cell settings mcp plugins :
  Switch flag ∈ argv_items config cell settings mcp plugins <->
  Switch flag ∈ permission_items (lc_permission_mode config) \/ flag ∈ lc_extra_args config \/ Switch flag ∈ cell_items cell.
Proof.
  unfold argv_items. rewrite !elem_of_app.
  assert (He : Switch flag ∈ Switch <$> lc_extra_args config <-> flag ∈ lc_extra_args config) by (rewrite list_elem_of_fmap; naive_solver).
  rewrite He. pose proof (no_switch_in_valued flag). pose proof (effort_no_switch flag (lc_effort config)). naive_solver.
Qed.

Lemma not_extra flag : flag ∈ SAFE_EXTRA_FLAGS -> flag <> "--dangerously-skip-permissions" /\ flag <> "--strict-mcp-config".
Proof. unfold SAFE_EXTRA_FLAGS. intros [->|[->|[]%elem_of_nil]%elem_of_cons]%elem_of_cons; done. Qed.

Lemma bypass_in_argv config cell settings mcp plugins :
  Forall (fun a => a ∈ SAFE_EXTRA_FLAGS) (lc_extra_args config) ->
  Switch "--dangerously-skip-permissions" ∈ argv_items config cell settings mcp plugins <->
  lc_permission_mode config = Some DangerouslySkipPermissions.
Proof.
  intros Hx. rewrite switch_in_argv, permission_items_bypass. split; [|by auto]. intros [?|[Ha|Hc]]; [done| |].
  - rewrite Forall_forall in Hx. by destruct (not_extra _ (Hx _ Ha)).
  - by destruct cell; [apply elem_of_nil in Hc|apply list_elem_of_singleton in Hc].
Qed.

(** The options of a command line, in the order of [build_args]. *)
Lemma build_args_items session_id resume config cell args :
  build_args id_text session_id resume config cell = Ok args ->
  Forall (fun a => a ∈ SAFE_EXTRA_FLAGS) (lc_extra_args config) ->
  exists settings mcp plugins,
    Forall2 file_stands_at (lc_settings config) settings /\ Forall2 file_stands_at (lc_mcp_configs config) mcp /\
    Forall2 stands_at (lc_plugin_dirs config) plugins /\
    args = ([if resume then "--resume" else "--session-id"; id_text session_id]
            ++ concat (item_args <$> argv_items config cell settings mcp plugins))%list /\
    Forall item_ok (argv_items config cell settings mcp plugins).
Proof.
  unfold build_args. cbv zeta. intros Hb Hx.
  apply result_bind_Ok in Hb as (a1 & [Hg1 Hv1]%model_items & Hb).
  apply result_bind_Ok in Hb as (a2 & [Hg2 Hv2]%pushing_tools & Hb). apply result_bind_Ok in Hb as (a3 & [Hg3 Hv3]%pushing_tools & Hb).
  apply result_bind_Ok in Hb as (a4 & H4 & Hb). apply (pushing_grows _ _ _ (push_config_grows _)) in H4 as (settings & R4 & Hg4 & Hv4).
  apply result_bind_Ok in Hb as (a5 & H5 & Hb). apply (pushing_grows _ _ _ (push_config_grows _)) in H5 as (mcp & R5 & Hg5 & Hv5).
  apply result_bind_Ok in Hb as (a6 & H6 & Hb). apply (pushing_grows _ _ _ push_plugin_grows) in H6 as (plugins & R6 & Hg6 & Hv6).
  apply result_bind_Ok in Hb as (_ & _ & Hb). injection Hb as <-. exists settings, mcp, plugins.
  split_and!; try done.
  - unfold grown, argv_items in *. rewrite Hg6, Hg5, Hg4, Hg3, Hg2, permission_args, effort_args, Hg1.
    rewrite !fmap_app, !concat_app, switches_args, cell_args, <-!app_assoc. done.
  - unfold argv_items. rewrite !Forall_app. split_and!; try (apply valued_ok; [unfold VALUED; set_solver|done]);
      [apply effort_items_ok|apply permission_items_ok|apply Forall_fmap; eapply Forall_impl; [exact Hx|]|apply cell_items_ok].
    intros a Ha. cbn. unfold SAFE_EXTRA_FLAGS in Ha. unfold SWITCHES. set_solver.
Qed.

End Argv.

Section Resolved.
Context `{FileSystem} (id_text : SessionId -> string).

(** Everything an admitted launch went through. *)
Lemma resolved_inv request fresh launch :
  resolve_claude_launch id_text request fresh = Ok launch ->
  exists config vars removed,
    validate_start request = Ok tt /\ sr_claude request = Some config /\
    requested_id (sr_identity request) fresh = (rl_session_id launch, rl_resume launch) /\
    canonical_absolute (sr_cwd request) "cwd" Directory = Ok (ls_cwd (rl_process launch)) /\
    build_args id_text (rl_session_id launch) (rl_resume launch) config (sr_cell request) = Ok (ls_args (rl_process launch)) /\
    build_environment (sr_environment request) (sr_auth_policy request) (ts_profile (sr_terminal request))
      (sr_config_isolation request) (sr_cell request) = Ok (vars, removed) /\
    ls_environment (rl_process launch) = vars /\ rl_removed_environment_keys launch = removed /\
    rl_dangerous_permission_bypass launch = bool_decide (lc_permission_mode config = Some DangerouslySkipPermissions).
Proof.
  unfold resolve_claude_launch. intros Hr. apply result_bind_Ok in Hr as ([] & Hv & Hr).
  apply result_bind_Ok in Hr as (config & Hc%ok_or_Ok & Hr). destruct (requested_id _ _) as [i resume] eqn:Hi.
  res_inv. subst. do 3 eexists. split_and!; eauto.
Qed.

Lemma launch_extra_args request config :
  validate_start request = Ok tt -> sr_claude request = Some config ->
  Forall (fun a => a ∈ SAFE_EXTRA_FLAGS) (lc_extra_args config).
Proof.
  intros Hv Hc. unfold validate_start in Hv. rewrite Hc in Hv. env_inv. apply extra_args_safe.
  match goal with He : validate_extra_args _ = Ok ?u |- _ => by destruct u end.
Qed.

Lemma not_containing left right :
  one_directory_contains_the_other left right = false ->
  (forall prefix, prefix ∈ ancestors (path_the_child_will_reach right) -> must_treat_as_same_directory prefix left = false) /\
  (forall prefix, prefix ∈ ancestors (path_the_child_will_reach left) -> must_treat_as_same_directory prefix right = false).
Proof.
  unfold one_directory_contains_the_other, contains_or_is. intros [H1 H2]%orb_false_iff.
  split; intros prefix Hp%list_elem_of_In; apply not_true_iff_false; intros Hm.
  - apply not_true_iff_false in H1. apply H1, existsb_exists. eauto.
  - apply not_true_iff_false in H2. apply H2, existsb_exists. eauto.
Qed.

Lemma first_set_None names (set : gmap string string) :
  first_set names set = None -> forall name, name ∈ names -> set !! name = None.
Proof.
  unfold first_set. intros Hf name Hn%list_elem_of_In. pose proof (find_none _ _ Hf _ Hn) as Hb. cbn in Hb.
  apply bool_decide_eq_false in Hb. by apply eq_None_not_Some.
Qed.

Lemma canonical_directory path label canonical :
  canonical_absolute path label Directory = Ok canonical ->
  fs_canonicalize path = Ok canonical /\ exists m, fs_metadata canonical = Ok m /\ md_is_dir m = true.
Proof. unfold canonical_absolute. intros Hc. env_inv. subst. split; [done|]. eauto. Qed.

Lemma owner_only path label :
  require_owner_only_directory path label = Ok tt ->
  exists m, fs_metadata path = Ok m /\ md_uid m = fs_euid /\ N.land (md_mode m) 4095 = 448.
Proof.
  unfold require_owner_only_directory. intros Hr. env_inv.
  repeat match goal with Hn : negb (_ =? _) = false |- _ => apply negb_false_iff, N.eqb_eq in Hn end. eauto.
Qed.

Lemma validate_start_isolation request : validate_start request = Ok tt -> validate_config_isolation request = Ok tt.
Proof. unfold validate_start. intros Hv. by env_inv. Qed.

(** What validation proves of a private root. *)
Lemma isolated_launch request fresh launch :
  resolve_claude_launch id_text request fresh = Ok launch ->
  (sr_cell request = Minified -> is_Some (sr_config_isolation request)) /\
  forall isolation, sr_config_isolation request = Some isolation ->
  exists root metadata,
    fs_canonicalize (ci_root isolation) = Ok root /\
    ls_environment (rl_process launch) !! "CLAUDE_CONFIG_DIR" = Some root /\
    ls_environment (rl_process launch) !! "CLAUDE_SECURESTORAGE_CONFIG_DIR" = Some (ci_securestorage_dir isolation) /\
    fs_metadata root = Ok metadata /\ md_is_dir metadata = true /\ md_uid metadata = fs_euid /\ N.land (md_mode metadata) 4095 = 448 /\
    is_ok (fs_metadata (join_path root ".config.json")) = false /\
    (forall inherited, pre_isolation_config_root (sr_environment request) = Some inherited ->
       must_treat_as_same_directory root inherited = false) /\
    one_directory_contains_the_other root (ls_cwd (rl_process launch)) = false /\
    (sr_cell request = Minified -> forall door, door ∈ CONFIG_ROOT_ENV_DOORS -> es_set (sr_environment request) !! door = None).
Proof.
  intros (config & vars & removed & Hv%validate_start_isolation & _ & _ & Hcwd & _ & He & Hvars & _ & _)%resolved_inv.
  apply build_environment_exact in He as (_ & _ & Hx & _). rewrite Hvars, !Hx. unfold validate_config_isolation in Hv.
  destruct (sr_config_isolation request) as [isolation|]; [|split; [intros Hm; by rewrite Hm in Hv|done]].
  split; [done|]. intros ? [= <-]. destruct (_ || _) in Hv; [done|].
  apply result_bind_Ok in Hv as ([] & Hdoors & Hv). apply result_bind_Ok in Hv as (_ & _ & Hv).
  apply result_bind_Ok in Hv as (root & Hroot & Hv). apply result_bind_Ok in Hv as ([] & (m & Hm & Hu & Hmode)%owner_only & Hv).
  apply result_bind_Ok in Hv as ([] & Hshadow & Hv). apply result_bind_Ok in Hv as ([] & Hinh & Hv).
  rewrite Hcwd in Hv. cbn [result_bind] in Hv. destruct (one_directory_contains_the_other _ _) eqn:Hc in Hv; [done|].
  apply canonical_directory in Hroot as (Hroot & m' & Hm' & Hdir).
  rewrite Hm in Hm'. injection Hm' as <-. exists root, m. split_and!; try done.
  - unfold child_value. rewrite andb_false_intro2 by done. cbn -[union]. rewrite Hroot. apply some_union.
  - unfold child_value. rewrite andb_false_intro2 by done. apply some_union.
  - unfold refuse_shadowed_config_file in Hshadow. by destruct (is_ok _).
  - intros inherited Hi. rewrite Hi in Hinh. by destruct (must_treat_as_same_directory root inherited).
  - intros Hcell. rewrite Hcell in Hdoors. apply first_set_None. by destruct (first_set _ _).
Qed.

(** C16. A launch with a private configuration root is private: the child is given exactly
    the canonical root, which is a directory of the daemon's own user and of nobody else,
    without a file that shadows what pmux writes there, told apart from the root the caller
    would have had anyway; and neither of root and working directory is reached from the
    other. A minified cell is never launched without one, nor with a name in [set] that
    moves its root. *)
Theorem isolated_launch_is_private request fresh launch :
  resolve_claude_launch id_text request fresh = Ok launch ->
  (sr_cell request = Minified -> is_Some (sr_config_isolation request)) /\
  forall isolation, sr_config_isolation request = Some isolation ->
  exists root metadata,
    fs_canonicalize (ci_root isolation) = Ok root /\
    ls_environment (rl_process launch) !! "CLAUDE_CONFIG_DIR" = Some root /\
    ls_environment (rl_process launch) !! "CLAUDE_SECURESTORAGE_CONFIG_DIR" = Some (ci_securestorage_dir isolation) /\
    fs_metadata root = Ok metadata /\ md_is_dir metadata = true /\ md_uid metadata = fs_euid /\ N.land (md_mode metadata) 4095 = 448 /\
    is_ok (fs_metadata (join_path root ".config.json")) = false /\
    (forall inherited, pre_isolation_config_root (sr_environment request) = Some inherited ->
       must_treat_as_same_directory root inherited = false) /\
    (forall prefix, prefix ∈ ancestors (path_the_child_will_reach (ls_cwd (rl_process launch))) ->
       must_treat_as_same_directory prefix root = false) /\
    (forall prefix, prefix ∈ ancestors (path_the_child_will_reach root) ->
       must_treat_as_same_directory prefix (ls_cwd (rl_process launch)) = false) /\
    (sr_cell request = Minified -> forall door, door ∈ CONFIG_ROOT_ENV_DOORS -> es_set (sr_environment request) !! door = None).
Proof.
  intros [Hm Hi]%isolated_launch. split; [done|]. intros isolation Hsome.
  destruct (Hi _ Hsome) as (root & m & H1 & H2 & H3 & H4 & H5 & H6 & H7 & H8 & H9 & [Ha Hb]%not_containing & H10).
  exists root, m. split_and!; auto.
Qed.

End Resolved.

(** ** Secrets *)

(** Two sources that differ at most in the document they carry. *)
Definition same_source (a b : ConfigSource) : Prop :=
  match a, b with
  | SourceFile p, SourceFile q => p = q
  | SourceInline _, SourceInline _ => True
  | _, _ => False
  end.

Definition same_prompt_mode (a b : SystemPromptPolicy) : Prop :=
  match a, b with
  | PromptDefault, PromptDefault | PromptAppend _, PromptAppend _ | PromptReplace _, PromptReplace _ => True
  | _, _ => False
  end.

(** Two configurations that differ at most in inline documents and system prompts. *)
Record same_but_secrets (c d : ClaudeLaunchConfig) : Prop := {
  same_rest : set_sources [] [] c = set_sources [] [] d;
  same_settings : Forall2 same_source (lc_settings c) (lc_settings d);
  same_mcp : Forall2 same_source (lc_mcp_configs c) (lc_mcp_configs d);
  same_prompt : same_prompt_mode (lc_system_prompt c) (lc_system_prompt d);
}.

Definition with_claude (claude : ClaudeLaunchConfig) (r : StartSessionRequest) : StartSessionRequest :=
  mkStartRequest (sr_identity r) (sr_cwd r) (Some claude) (sr_agent r) (sr_environment r) (sr_auth_policy r)
    (sr_config_isolation r) (sr_terminal r) (sr_lifecycle r) (sr_retention r) (sr_compatibility r) (sr_cell r).

Section Secrets.
Context `{FileSystem} (id_text : SessionId -> string).
Context (json_bytes : json -> result (list N) string) (write_outcome : string -> WriteOutcome).

(** The process a configuration becomes: its secrets written, the launch resolved, the
    prompt's file put on the command line. *)
Definition launch_of (temporary : TempDir) (request : StartSessionRequest) (fresh : SessionId)
    (config : ClaudeLaunchConfig) : result (LaunchSpec * Material) Anyhow :=
  let? '(config, system_prompt, material) := prepare json_bytes write_outcome temporary config in
  let? resolved := resolve_claude_launch id_text (with_claude config request) fresh in
  Ok (apply_to system_prompt (rl_process resolved), material).

(** The file of the [index]-th source of its kind, when the source is written out. *)
Definition private_path (directory prefix : string) (index : nat) : string :=
  join_path directory (prefix +:+ "-" +:+ index4 index +:+ ".json").

(** The path that stands for a source. *)
Definition source_path (directory prefix : string) (index : nat) (source : ConfigSource) : string :=
  match source with SourceFile path => path | SourceInline _ => fs_display (private_path directory prefix index) end.

(** A file for one of these sources: whole, in the private directory, for its owner only. *)
Definition document_file (directory prefix : string) (sources : list ConfigSource) (n : nat) (file : PrivateFile) : Prop :=
  exists index document, sources !! index = Some (SourceInline document) /\ json_bytes document = Ok (pv_contents file) /\
    pv_path file = private_path directory prefix (n + index) /\ pv_mode file = 384.

Definition prompt_file (directory : string) (policy : SystemPromptPolicy) (file : PrivateFile) : Prop :=
  pv_mode file = 384 /\
  match policy with
  | PromptDefault => False
  | PromptAppend prompt => pv_contents file = bytes prompt /\ pv_path file = join_path directory "append-system-prompt.txt"
  | PromptReplace prompt => pv_contents file = bytes prompt /\ pv_path file = join_path directory "system-prompt.txt"
  end.

(** The option that names the prompt's file. *)
Definition prompt_args (directory : string) (policy : SystemPromptPolicy) : list string :=
  match policy with
  | PromptDefault => []
  | PromptAppend _ => ["--append-system-prompt-file"; fs_display (join_path directory "append-system-prompt.txt")]
  | PromptReplace _ => ["--system-prompt-file"; fs_display (join_path directory "system-prompt.txt")]
  end.

Lemma private_file_written path contents files files' :
  write_private_file write_outcome path contents files = Ok files' -> files' = (files ++ [mkPrivateFile path 384 contents])%list.
Proof. unfold write_private_file, bail. destruct (_ <? _); [done|]. destruct (write_outcome path); by intros [= <-]. Qed.

Lemma document_file_cons directory prefix source sources n file :
  document_file directory prefix (source :: sources) n file <->
  (exists document, source = SourceInline document /\ json_bytes document = Ok (pv_contents file) /\
     pv_path file = private_path directory prefix n /\ pv_mode file = 384) \/
  document_file directory prefix sources (S n) file.
Proof.
  unfold document_file. split.
  - intros ([|index] & d & Hl & Hj & Hp & Hm); cbn in Hl; [left|right].
    + injection Hl as ->. rewrite Nat.add_0_r in Hp. eauto.
    + exists index, d. by rewrite Nat.add_succ_comm.
  - intros [(d & -> & Hj & Hp & Hm)|(index & d & Hl & Hj & Hp & Hm)].
    + exists 0%nat, d. by rewrite Nat.add_0_r.
    + exists (S index), d. by rewrite <-Nat.add_succ_comm.
Qed.

(** Writing sources out: the paths that stand for them, and the files. *)
Lemma materialized directory prefix l : forall n files r g,
  materialize_sources json_bytes write_outcome directory prefix n l files = Ok (r, g) ->
  r = imap (fun i source => SourceFile (source_path directory prefix (n + i) source)) l /\
  forall file, file ∈ g <-> file ∈ files \/ document_file directory prefix l n file.
Proof.
  induction l as [|source l IH]; intros n files r g; cbn [materialize_sources]; intros Hm.
  - injection Hm as <- <-. split; [done|]. intros file. split; [by left|]. intros [?|(? & ? & [=] & _)]; done.
  - rewrite imap_cons, Nat.add_0_r. setoid_rewrite document_file_cons.
    assert (Himap : imap ((fun i source => SourceFile (source_path directory prefix (n + i) source)) ∘ S) l
                    = imap (fun i source => SourceFile (source_path directory prefix (S n + i) source)) l).
    { apply imap_ext. intros i x _. cbn. by rewrite Nat.add_succ_r. }
    rewrite Himap. destruct source as [p|d].
    + apply result_bind_Ok in Hm as ([rest g'] & Hr & Hm). injection Hm as <- <-. apply IH in Hr as [-> Hg].
      split; [done|]. intros file. rewrite Hg. naive_solver.
    + apply result_bind_Ok in Hm as (contents & Hc & Hm). apply result_bind_Ok in Hm as (f & ->%private_file_written & Hm).
      apply result_bind_Ok in Hm as ([rest g'] & Hr & Hm). injection Hm as <- <-. apply IH in Hr as [-> Hg]. split; [done|].
      assert (Hj : json_bytes d = Ok contents) by (unfold with_context in Hc; destruct (json_bytes d); [by injection Hc as ->|done]).
      intros file. rewrite Hg, elem_of_app, list_elem_of_singleton. split.
      * intros [[?| ->]|?]; [by left| |by right; right]. right. left. by exists d.
      * intros [?|[(? & [= <-] & Hj' & Hp & Hmo)|?]]; [by left; left| |by right]. left. right.
        rewrite Hj in Hj'. injection Hj' as ->. destruct file. cbn in *. by subst.
Qed.

(** What [prepare] leaves of a configuration. *)
Lemma prepare_inv temporary config config' system_prompt material :
  prepare json_bytes write_outcome temporary config = Ok (config', system_prompt, material) ->
  exists dir, td_created temporary = Ok dir /\ mt_directory material = dir /\ mt_directory_mode material = 448 /\
    config' = set_sources (imap (fun i source => SourceFile (source_path dir "settings" i source)) (lc_settings config))
                          (imap (fun i source => SourceFile (source_path dir "mcp" i source)) (lc_mcp_configs config)) config /\
    (forall file, file ∈ mt_files material <->
       document_file dir "settings" (lc_settings config) 0 file \/ document_file dir "mcp" (lc_mcp_configs config) 0 file \/
       prompt_file dir (lc_system_prompt config) file) /\
    forall launch, apply_to system_prompt launch =
      mkLaunchSpec (ls_executable launch) (ls_args launch ++ prompt_args dir (lc_system_prompt config))%list
        (ls_cwd launch) (ls_environment launch).
Proof.
  unfold prepare. intros Hp. apply result_bind_Ok in Hp as (dir & Hdir & Hp). apply result_bind_Ok in Hp as (mode & Hmode & Hp).
  apply result_bind_Ok in Hp as ([settings f1] & [-> Hf1]%materialized & Hp).
  apply result_bind_Ok in Hp as ([mcp f2] & [-> Hf2]%materialized & Hp). exists dir.
  assert (td_created temporary = Ok dir) by (unfold with_context in Hdir; destruct (td_created temporary); [by injection Hdir as ->|done]).
  assert (mode = 448) as ->.
  { unfold set_owner_directory_permissions in Hmode. apply result_bind_Ok in Hmode as (? & _ & Hmode). by injection Hmode. }
  assert (Hfile : forall path contents file, file = mkPrivateFile path 384 contents <->
            pv_mode file = 384 /\ pv_contents file = contents /\ pv_path file = path)
    by (intros ?? [???]; cbn; naive_solver).
  assert (Hold : forall file, file ∈ f2 <-> document_file dir "settings" (lc_settings config) 0 file
                                          \/ document_file dir "mcp" (lc_mcp_configs config) 0 file).
  { intros file. rewrite Hf2, Hf1, elem_of_nil. naive_solver. }
  unfold prompt_file, prompt_args. destruct (lc_system_prompt config) as [|prompt|prompt].
  - injection Hp as <- <- <-. split_and!; try done; [intros; cbn; rewrite Hold; naive_solver|].
    intros []. cbn. by rewrite app_nil_r.
  - unfold materialize_prompt, bail in Hp. destruct (_ || _) in Hp; [done|].
    apply result_bind_Ok in Hp as ([pf f3] & Hw & Hp). apply result_bind_Ok in Hw as (? & ->%private_file_written & Hw).
    injection Hw as <- <-. injection Hp as <- <- <-. split_and!; try done. intros file. cbn.
    rewrite elem_of_app, list_elem_of_singleton, Hfile, Hold. naive_solver.
  - unfold materialize_prompt, bail in Hp. destruct (_ || _) in Hp; [done|].
    apply result_bind_Ok in Hp as ([pf f3] & Hw & Hp). apply result_bind_Ok in Hw as (? & ->%private_file_written & Hw).
    injection Hw as <- <-. injection Hp as <- <- <-. split_and!; try done. intros file. cbn.
    rewrite elem_of_app, list_elem_of_singleton, Hfile, Hold. naive_solver.
Qed.

Lemma stands_imap dir prefix sources values :
  Forall2 file_stands_at (imap (fun i source => SourceFile (source_path dir prefix i source)) sources) values ->
  Forall2 stands_at (imap (source_path dir prefix) sources) values.
Proof.
  assert (E : imap (fun i source => SourceFile (source_path dir prefix i source)) sources
              = SourceFile <$> imap (source_path dir prefix) sources) by (by rewrite fmap_imap).
  rewrite E, Forall2_fmap_l. intros Hf. eapply Forall2_impl; [exact Hf|]. intros ?? (path & [= <-] & Hs). done.
Qed.

(** C17. The command line of an admitted launch, from the configuration as it was asked for
    to the process: the session flag and the id, then exactly the options the configuration
    asks for, each with its value, then the option that names the system prompt's file when
    there is a prompt. The model, the effort, the permission mode, the allowed and the denied
    tools and the extra flags are the configuration's own; a settings or MCP source is named
    by where its file stands, an inline one by where the private file written for it stands,
    a plugin directory by where it stands. No value of these options can be read as an
    option, and none of them is a flag the driver keeps to itself. The switch that skips all
    permissions is there exactly when the launch reports it; the permission mode
    [bypassPermissions] is passed on as a mode, and not reported. The flag of a minified cell
    is there exactly for one. *)
Theorem argv_is_the_drivers temporary request fresh config config' system_prompt material launch :
  prepare json_bytes write_outcome temporary config = Ok (config', system_prompt, material) ->
  resolve_claude_launch id_text (with_claude config' request) fresh = Ok launch ->
  (rl_session_id launch, rl_resume launch) =
    match sr_identity request with
    | NewSession (Some session_id) => (session_id, false)
    | NewSession None => (fresh, false)
    | ResumeSession session_id => (session_id, true)
    end /\
  exists settings mcp plugins,
    Forall2 stands_at (imap (source_path (mt_directory material) "settings") (lc_settings config)) settings /\
    Forall2 stands_at (imap (source_path (mt_directory material) "mcp") (lc_mcp_configs config)) mcp /\
    Forall2 stands_at (lc_plugin_dirs config) plugins /\
    let items := argv_items config (sr_cell request) settings mcp plugins in
    ls_args (apply_to system_prompt (rl_process launch)) =
      ([if rl_resume launch then "--resume" else "--session-id"; id_text (rl_session_id launch)]
       ++ concat (item_args <$> items) ++ prompt_args (mt_directory material) (lc_system_prompt config))%list /\
    Forall item_ok items /\
    (forall a, a ∈ concat (item_args <$> items) ->
       (a ∉ FORBIDDEN_DRIVER_FLAGS) /\ (plain a = true \/ a ∈ SWITCHES \/ a ∈ VALUED)) /\
    (Switch "--dangerously-skip-permissions" ∈ items <-> rl_dangerous_permission_bypass launch = true) /\
    (Switch "--strict-mcp-config" ∈ items <-> sr_cell request = Minified).
Proof.
  intros (dir & _ & -> & _ & -> & _ & Hap)%prepare_inv (c & vars & removed & Hv & Hc & Hi & _ & Ha & _ & _ & _ & Hd)%resolved_inv.
  injection Hc as <-. pose proof (launch_extra_args _ _ Hv eq_refl) as Hx. cbn [lc_extra_args set_sources] in Hx.
  split; [cbn in Hi; by destruct (sr_identity request) as [[]|]|].
  destruct (build_args_items _ _ _ _ _ _ Ha Hx) as (settings & mcp & plugins & Rs & Rm & Rp & E & Hok).
  exists settings, mcp, plugins. cbv zeta. rewrite Hap. cbn [ls_args]. rewrite E, <-app_assoc.
  split_and!; try done; try (by apply stands_imap).
  - intros a. by apply items_not_forbidden.
  - rewrite bypass_in_argv, Hd by done. by rewrite bool_decide_eq_true.
  - rewrite switch_in_argv. split; [|intros ->; right; right; cbn; set_solver]. intros [Hp|[He|Hc]].
    + destruct (lc_permission_mode config) as [[]|]; cbn in Hp; set_solver.
    + rewrite Forall_forall in Hx. by destruct (not_extra _ (Hx _ He)).
    + by destruct (sr_cell request); [apply elem_of_nil in Hc|].
Qed.

Lemma same_paths dir prefix l k :
  Forall2 same_source l k -> imap (fun i source => SourceFile (source_path dir prefix i source)) l =
                             imap (fun i source => SourceFile (source_path dir prefix i source)) k.
Proof.
  intros Hs. revert prefix. enough (forall (f : nat -> nat) prefix, imap (fun i source => SourceFile (source_path dir prefix (f i) source)) l =
    imap (fun i source => SourceFile (source_path dir prefix (f i) source)) k) as Hf by (intros; apply (Hf id)).
  induction Hs as [|a b l k Hab Hlk IH]; intros f prefix; cbn; [done|]. f_equal; [|apply (IH (f ∘ S))].
  by destruct a, b; cbn in *; subst.
Qed.

(** C18. What is secret stays off the command line and out of the environment: two
    configurations that differ only in inline documents and system prompts become the same
    process. What is written is in the directory made for the launch, of mode 0700: for every
    inline document one file under its kind and position, with exactly its encoding, and one
    for the system prompt, with exactly its bytes, each of mode 0600, and nothing else. *)
Theorem secrets_stay_off_the_command_line temporary request fresh c d launch launch' material material' :
  same_but_secrets c d ->
  launch_of temporary request fresh c = Ok (launch, material) -> launch_of temporary request fresh d = Ok (launch', material') ->
  launch = launch' /\
  exists dir, td_created temporary = Ok dir /\ mt_directory material = dir /\ mt_directory_mode material = 448 /\
  forall file, file ∈ mt_files material <->
    document_file dir "settings" (lc_settings c) 0 file \/ document_file dir "mcp" (lc_mcp_configs c) 0 file \/
    prompt_file dir (lc_system_prompt c) file.
Proof.
  intros [Hrest Hs Hm Hp]. unfold launch_of. intros H1 H2.
  apply result_bind_Ok in H1 as ([[c' p] f] & H1 & L1). apply result_bind_Ok in H2 as ([[d' q] g] & H2 & L2).
  apply prepare_inv in H1 as (dir & Hdir & Hd1 & Hd2 & -> & Hf & Hap).
  apply prepare_inv in H2 as (dir' & Hdir' & _ & _ & -> & _ & Haq). rewrite Hdir in Hdir'. injection Hdir' as <-.
  rewrite (same_paths _ _ _ _ Hs), (same_paths _ _ _ _ Hm) in L1.
  match type of L1 with context [with_claude (set_sources ?s ?m c)] =>
    assert (E : set_sources s m c = set_sources s m d) by (unfold set_sources in *; congruence) end.
  rewrite E in L1. apply result_bind_Ok in L1 as (r1 & L1 & E1). apply result_bind_Ok in L2 as (r2 & L2 & E2).
  rewrite L2 in L1. injection L1 as <-. injection E1 as <- <-. injection E2 as <- _. split; [|by exists dir].
  rewrite Hap, Haq. by destruct (lc_system_prompt c), (lc_system_prompt d).
Qed.

End Secrets.
