(* ===== verification/Isolation.v ===== *)
(** * Isolation of sessions

    What a start may bind: the admission rules of [crates/service/src/native.rs] over the
    directories that live sessions hold, the start path of [NativeService] up to the launch
    of a process, and the seeding of a private configuration root,
    [crates/service/src/config_isolation.rs]. *)

From S2P Require Import Prelude Text Protocol Refusal Parser Session Screen Backend Actor Registry Tail Locator LaunchEnv Launch.

#[local] Open Scope string_scope.
#[local] Open Scope N_scope.

Inductive SeedDisposition := SeedWrite | VerifyOnly.

(** ** Live claims *)

Definition CONFIG_ROOT_ROLE : string := "configuration root".
Definition WORKING_DIRECTORY_ROLE : string := "working directory".

Record LiveResourceClaim := mkClaim {
  cl_config_root : string;
  cl_cwd : string;
  cl_cell : SessionCell;
}.

Definition directories (claim : LiveResourceClaim) : list (string * string) :=
  [(CONFIG_ROOT_ROLE, cl_config_root claim); (WORKING_DIRECTORY_ROLE, cl_cwd claim)].

(** [Iterator::reduce]. *)
Definition strictest_cell (cells : list SessionCell) : option SessionCell :=
  match cells with
  | [] => None
  | cell :: cells =>
      Some (foldl (fun left right =>
                     if bool_decide (left = Minified) || bool_decide (right = Minified) then Minified else Full) cell cells)
  end.

(** [format!("{error:#}")]: the whole chain. *)
Fixpoint chain_text (e : Anyhow) : string :=
  match e with
  | [] => EmptyString
  | [m] => m
  | m :: e => m +:+ ": " +:+ chain_text e
  end.

(** [error.to_string()]: the outermost message. *)
Definition outermost (e : Anyhow) : string := default EmptyString (head e).

Definition map_launch_error (error : Anyhow) : ErrorBody :=
  let message := outermost error in
  ErrorBody_new (if contains (bytes "Claude executable") (bytes message) && contains (bytes "unavailable") (bytes message)
                 then ClaudeNotFound else InvalidConfig) message.

Definition unresolved_launch : ErrorBody :=
  ErrorBody_new InvalidConfig "start request carries no inline `claude` launch configuration".

Definition effective_config_root (environment : gmap string string) : result string ErrorBody :=
  let? root := ok_or (match environment !! "CLAUDE_CONFIG_DIR" with
                      | Some root => Some root
                      | None => (fun home => join_path home ".claude") <$> environment !! "HOME"
                      end)
                 (ErrorBody_new InvalidConfig "effective environment has neither CLAUDE_CONFIG_DIR nor HOME") in
  if negb (is_absolute root) then Err (ErrorBody_new InvalidConfig "effective Claude configuration root must be absolute")
  else if traverses_a_parent_component root
  then Err (ErrorBody_new InvalidConfig ("effective Claude configuration root must be spelled without a `..` component, because what one names depends on what exists and on whether the component before it is a symlink: " +:+ root))
  else Ok root.

Section Admission.
Context `{FileSystem}.

Definition claim_reaches (claim : LiveResourceClaim) (role path : string) (applicant : SessionCell) : bool :=
  let cell_is_involved := bool_decide (cl_cell claim = Minified) || bool_decide (applicant = Minified) in
  existsb (fun claimed =>
             if cell_is_involved : bool then one_directory_contains_the_other (snd claimed) path
             else String.eqb (fst claimed) role && must_treat_as_same_directory (snd claimed) path) (directories claim).

Definition incumbent_cell_for (claims : list LiveResourceClaim) (role path : string) (applicant : SessionCell) : option SessionCell :=
  strictest_cell (cl_cell <$> List.filter (fun claim => claim_reaches claim role path applicant) claims).

Definition incumbent_cell_for_config_root (claims : list LiveResourceClaim) (root : string) (applicant : SessionCell) :=
  incumbent_cell_for claims CONFIG_ROOT_ROLE root applicant.
Definition incumbent_cell_for_cwd (claims : list LiveResourceClaim) (cwd : string) (applicant : SessionCell) :=
  incumbent_cell_for claims WORKING_DIRECTORY_ROLE cwd applicant.

Definition require_establishable_identity (path label : string) : result unit ErrorBody :=
  if match DirectoryIdentity_of path with
     | Unresolved => true
     | Vacant => traverses_a_parent_component path
     | Resource _ _ => false
     end
  then Err (ErrorBody_new InvalidConfig (label +:+ " " +:+ fs_display path +:+ " cannot be inspected, so pmux cannot establish which directory it names; a start is refused rather than admitted on a weaker test"))
  else Ok tt.

Definition USER_SETTINGS_FILE : string := "settings.json".
Definition PRISTINE_ROOT_ENTRIES : list string := [GLOBAL_CONFIG_FILE; USER_SETTINGS_FILE].

Fixpoint pristine_entries (root : string) (entries : list (result string string)) : result unit Anyhow :=
  match entries with
  | [] => Ok tt
  | entry :: entries =>
      let? name := with_context ("failed to inspect config isolation root: " +:+ fs_display root) entry in
      let name := fs_display name in
      if mem_str name PRISTINE_ROOT_ENTRIES then pristine_entries root entries
      else bail ("a minified cell requires a config isolation root it alone has ever used, and this one contains "
                 +:+ name +:+ ": " +:+ fs_display root)
  end.

Definition require_pristine_root_for_minified_cell (root : string) : result unit Anyhow :=
  let? entries := with_context ("failed to inspect config isolation root: " +:+ fs_display root) (fs_read_dir root) in
  pristine_entries root entries.

Definition admit_config_root (root : string) (applicant : SessionCell) (incumbent : option SessionCell) :
    result SeedDisposition ErrorBody :=
  if bool_decide (incumbent = Some Minified)
  then Err (ErrorBody_new InvalidConfig ("configuration root " +:+ fs_display root +:+ " is, contains, or lies under a directory bound to a live minified cell, so no other session may be launched at it or anywhere under it, whatever cell or isolation shape it asks for"))
  else
    let? _ := match applicant with
              | Minified =>
                  if bool_decide (is_Some incumbent)
                  then Err (ErrorBody_new InvalidConfig ("a minified cell requires a configuration root of its own, and " +:+ fs_display root +:+ " is, contains, or lies under a directory already bound to a live session"))
                  else map_err (fun error => ErrorBody_new InvalidConfig (chain_text error)) (require_pristine_root_for_minified_cell root)
              | Full => Ok tt
              end in
    Ok (if bool_decide (is_Some incumbent) then VerifyOnly else SeedWrite).

Definition admit_cwd (cwd : string) (applicant : SessionCell) (incumbent : option SessionCell) : result unit ErrorBody :=
  if bool_decide (incumbent = Some Minified)
  then Err (ErrorBody_new InvalidConfig ("working directory " +:+ fs_display cwd +:+ " is, contains, or lies under a directory bound to a live minified cell and may not be shared with another session"))
  else if bool_decide (applicant = Minified) && bool_decide (is_Some incumbent)
  then Err (ErrorBody_new InvalidConfig ("a minified cell requires a working directory of its own, and " +:+ fs_display cwd +:+ " is, contains, or lies under a directory already bound to a live session"))
  else Ok tt.

Definition admit_bound_resources (claims : list LiveResourceClaim) (config_root cwd : string) (applicant : SessionCell) :
    result SeedDisposition ErrorBody :=
  let? _ := require_establishable_identity config_root CONFIG_ROOT_ROLE in
  let? _ := require_establishable_identity cwd WORKING_DIRECTORY_ROLE in
  let? disposition := admit_config_root config_root applicant (incumbent_cell_for_config_root claims config_root applicant) in
  let? _ := admit_cwd cwd applicant (incumbent_cell_for_cwd claims cwd applicant) in
  Ok disposition.

Definition require_isolation_root_is_the_effective_root (isolation : option ConfigIsolation) (config_root : string) :
    result unit ErrorBody :=
  match isolation with
  | None => Ok tt
  | Some isolation =>
      if must_treat_as_same_directory (ci_root isolation) config_root then Ok tt
      else Err (ErrorBody_new InvalidConfig ("the config isolation root this start named (" +:+ fs_display (ci_root isolation)
             +:+ ") is not the configuration root it would be launched with (" +:+ fs_display config_root
             +:+ "), so admission and the child would be deciding about different directories"))
  end.

(** ** The start path *)

Context (id_text : SessionId -> string).
Context (json_bytes : json -> result (list N) string) (write_outcome : string -> WriteOutcome).

Definition set_launch (identity : SessionIdentity) (claude : option ClaudeLaunchConfig) (r : StartSessionRequest) : StartSessionRequest :=
  mkStartRequest identity (sr_cwd r) claude (sr_agent r) (sr_environment r) (sr_auth_policy r)
    (sr_config_isolation r) (sr_terminal r) (sr_lifecycle r) (sr_retention r) (sr_compatibility r) (sr_cell r).

(** What a start decides before it touches anything: the request with its id settled, the
    configuration root, the resolved identity view, and how the root may be seeded. *)
Definition admit_start (claims : list LiveResourceClaim) (shutdown_started : bool) (fresh : SessionId) (request : StartSessionRequest) :
    result (StartSessionRequest * string * ResolvedClaudeLaunch * SeedDisposition) ErrorBody :=
  match sr_agent request with
  | Some _ => Err session_surface_removed
  | None =>
      let? _ := validate_v1_terminal_support (ts_profile (sr_terminal request)) (ts_input_transport (sr_terminal request)) in
      if shutdown_started then Err (mkErrorBody DaemonLost "native service shutdown has started" true JNull)
      else
        let? session_id := map_err map_launch_error (select_session_id request fresh) in
        let settled := match sr_identity request with NewSession None => NewSession (Some session_id) | given => given end in
        let? claude := ok_or (sr_claude request) unresolved_launch in
        let? resolved := map_err map_launch_error
                           (resolve_claude_launch id_text (set_launch settled (Some (set_sources [] [] claude)) request) fresh) in
        let? config_root := effective_config_root (ls_environment (rl_process resolved)) in
        let? _ := require_isolation_root_is_the_effective_root (sr_config_isolation request) config_root in
        let? disposition := admit_bound_resources claims config_root (ls_cwd (rl_process resolved)) (sr_cell request) in
        Ok (set_launch settled (sr_claude request) request, config_root, resolved, disposition)
  end.

(** [sessions], by what each of them holds, and [pending_startup_cleanup]: the processes of
    failed starts that could not be closed yet, with what they were launched on. *)
Record Service := mkService {
  sv_sessions : gmap SessionId LiveResourceClaim;
  sv_pending_startup_cleanup : list LiveResourceClaim;
}.

Definition live_resource_claims (service : Service) : list LiveResourceClaim := snd <$> map_to_list (sv_sessions service).

(** How the terminal of a start comes up: registered, closed again after a failure, or
    failed with a process that could not be closed. *)
Inductive LaunchOutcome := Registered | FailedClosed (error : ErrorBody) | FailedAlive (error : ErrorBody).

(** The answers a start gets from outside: the id minted for it; whether the daemon is
    shutting down; the transcript identity check and the seeding, with the hook settings
    they leave ([prepared]); the private directory; the version and its compatibility; the
    terminal. *)
Record StartAnswers := mkAnswers {
  sa_fresh : SessionId;
  sa_shutdown_started : bool;
  sa_prepared : result (list ConfigSource -> list ConfigSource) ErrorBody;
  sa_directory : TempDir;
  sa_compatible : result unit ErrorBody;
  sa_launched : LaunchOutcome;
}.

Context (paths_debug : list string -> string).

(** Of the locator's errors, the one its constructor has left here. *)
Definition cwd_unavailable (path source : string) : ErrorBody :=
  ErrorBody_new InvalidConfig (location_error_display paths_debug (InvalidCwd path source)).

Definition with_settings (f : list ConfigSource -> list ConfigSource) (c : ClaudeLaunchConfig) : ClaudeLaunchConfig :=
  mkLaunchConfig (lc_executable c) (lc_model c) (lc_effort c) (lc_permission_mode c) (lc_allowed_tools c) (lc_denied_tools c)
    (f (lc_settings c)) (lc_mcp_configs c) (lc_plugin_dirs c) (lc_system_prompt c) (lc_extra_args c).

(** The start path up to the terminal: the id, the process and the claim of the session. *)
Definition prepare_start (answers : StartAnswers) (request : StartSessionRequest) (service : Service) :
    result (SessionId * LaunchSpec * LiveResourceClaim) ErrorBody :=
  let? '(request, config_root, identity_resolved, disposition) :=
     admit_start (live_resource_claims service) (sa_shutdown_started answers) (sa_fresh answers) request in
  let? hooks := sa_prepared answers in
  let? claude := ok_or (sr_claude request) unresolved_launch in
  let? '(claude, system_prompt, material) :=
     map_err map_launch_error (prepare json_bytes write_outcome (sa_directory answers) (with_settings hooks claude)) in
  let? resolved := map_err map_launch_error
                     (resolve_claude_launch id_text (set_launch (sr_identity request) (Some claude) request) (sa_fresh answers)) in
  let process := apply_to system_prompt (rl_process resolved) in
  if bool_decide (is_Some (sv_sessions service !! rl_session_id resolved))
  then Err (ErrorBody_new IdCollision ("session " +:+ id_text (rl_session_id resolved) +:+ " is already active"))
  else
    let? _ := sa_compatible answers in
    let? cwd := map_err (cwd_unavailable (ls_cwd process)) (fs_canonicalize (ls_cwd process)) in
    Ok (rl_session_id resolved, process, mkClaim config_root cwd (sr_cell request)).

Definition start_session_owned_with_retention (answers : StartAnswers) (request : StartSessionRequest) (service : Service) :
    result (SessionId * LaunchSpec) ErrorBody * Service :=
  match prepare_start answers request service with
  | Err error => (Err error, service)
  | Ok (session_id, process, claim) =>
      match sa_launched answers with
      | Registered =>
          (Ok (session_id, process),
           mkService (<[session_id := claim]> (sv_sessions service)) (sv_pending_startup_cleanup service))
      | FailedClosed error => (Err error, service)
      | FailedAlive error => (Err error, mkService (sv_sessions service) (claim :: sv_pending_startup_cleanup service))
      end
  end.

(** A session is closed and reaped. *)
Definition close_session (session_id : SessionId) (service : Service) : Service :=
  mkService (delete session_id (sv_sessions service)) (sv_pending_startup_cleanup service).

Inductive Happening :=
| Start (answers : StartAnswers) (request : StartSessionRequest)
| Close (session_id : SessionId).

Definition happens (service : Service) (h : Happening) : Service :=
  match h with
  | Start answers request => snd (start_session_owned_with_retention answers request service)
  | Close session_id => close_session session_id service
  end.

End Admission.

(** ** No session reaches a live minified cell

    Over every sequence of starts and closes, the directories of a live minified cell are
    not reached from those of any other live session. *)

Section Theorems.
Context `{FileSystem} (id_text : SessionId -> string).
Context (json_bytes : json -> result (list N) string) (write_outcome : string -> WriteOutcome).
Context (paths_debug : list string -> string).

(** A canonical path is its own canonical path. *)
Definition canonical_is_fixed : Prop := forall path canonical, fs_canonicalize path = Ok canonical -> fs_canonicalize canonical = Ok canonical.

(** ** Admission *)

Lemma strictest_minified cells :
  Minified ∈ cells -> strictest_cell cells = Some Minified.
Proof.
  destruct cells as [|c cells]; cbn; [by intros ?%elem_of_nil|]. intros Hin. f_equal. revert c Hin.
  induction cells as [|d cells IH]; intros c Hin; cbn; [by apply list_elem_of_singleton in Hin|].
  apply IH. destruct c, d; cbn; try set_solver.
Qed.

Lemma strictest_None cells : strictest_cell cells = None -> cells = [].
Proof. by destruct cells. Qed.

Lemma contains_symmetric left right : one_directory_contains_the_other left right = one_directory_contains_the_other right left.
Proof. unfold one_directory_contains_the_other. apply orb_comm. Qed.

(** A directory that is admitted is not reached from a claim it must keep away from. *)
Lemma admitted_path claims role path applicant claim d :
  incumbent_cell_for claims role path applicant <> Some Minified ->
  (applicant = Minified -> incumbent_cell_for claims role path applicant = None) ->
  claim ∈ claims -> cl_cell claim = Minified \/ applicant = Minified -> d ∈ directories claim ->
  one_directory_contains_the_other (snd d) path = false.
Proof.
  unfold incumbent_cell_for. set (reaching := List.filter _ claims). intros Hne Hnone Hin Hcell Hd.
  assert (Hno : claim_reaches claim role path applicant = false).
  { apply not_true_iff_false. intros Hr. assert (Hf : claim ∈ reaching) by (apply list_elem_of_In, filter_In; by rewrite <-list_elem_of_In).
    destruct Hcell as [Hc|Hc].
    - apply Hne, strictest_minified, list_elem_of_fmap. eauto.
    - specialize (Hnone Hc). apply strictest_None, fmap_nil_inv in Hnone. rewrite Hnone in Hf. by apply elem_of_nil in Hf. }
  unfold claim_reaches in Hno. assert (Hi : bool_decide (cl_cell claim = Minified) || bool_decide (applicant = Minified) = true).
  { apply orb_true_iff. destruct Hcell; [left|right]; by apply bool_decide_eq_true. }
  rewrite Hi in Hno. apply not_true_iff_false. intros Hr. apply not_true_iff_false in Hno. apply Hno, existsb_exists.
  exists d. by rewrite <-list_elem_of_In.
Qed.

Lemma admitted_resources claims config_root cwd applicant disposition claim :
  admit_bound_resources claims config_root cwd applicant = Ok disposition ->
  claim ∈ claims -> cl_cell claim = Minified \/ applicant = Minified ->
  forall d path, d ∈ directories claim -> path = config_root \/ path = cwd -> one_directory_contains_the_other (snd d) path = false.
Proof.
  unfold admit_bound_resources. intros Ha Hin Hcell d path Hd Hp.
  apply result_bind_Ok in Ha as ([] & _ & Ha). apply result_bind_Ok in Ha as ([] & _ & Ha).
  apply result_bind_Ok in Ha as (? & Hroot & Ha). apply result_bind_Ok in Ha as ([] & Hcwd & _).
  unfold admit_config_root in Hroot. unfold admit_cwd in Hcwd.
  destruct (bool_decide_reflect (incumbent_cell_for_config_root claims config_root applicant = Some Minified)) as [?|Hr]; [done|].
  destruct (bool_decide_reflect (incumbent_cell_for_cwd claims cwd applicant = Some Minified)) as [?|Hc]; [done|].
  destruct Hp as [-> | ->]; eapply admitted_path; eauto; intros ->.
  - unfold incumbent_cell_for_config_root in *. by destruct (incumbent_cell_for _ _ _ _).
  - unfold incumbent_cell_for_cwd in *. by destruct (incumbent_cell_for _ _ _ _).
Qed.

(** ** Starts *)

(** The second resolution of a request, with its secrets in files, gives the process the
    directories and the environment of the first. *)
Lemma resolved_twice request fresh fresh' i c d first second :
  resolve_claude_launch id_text (set_launch i (Some c) request) fresh = Ok first ->
  resolve_claude_launch id_text (set_launch i (Some d) request) fresh' = Ok second ->
  ls_cwd (rl_process first) = ls_cwd (rl_process second) /\ ls_environment (rl_process first) = ls_environment (rl_process second).
Proof.
  intros (? & v1 & r1 & _ & _ & _ & Hc1 & _ & He1 & E1 & _)%resolved_inv (? & v2 & r2 & _ & _ & _ & Hc2 & _ & He2 & E2 & _)%resolved_inv.
  cbn in *. rewrite Hc1 in Hc2. injection Hc2 as Hc2. rewrite He1 in He2. injection He2 as Hv _. split; congruence.
Qed.

Lemma admit_start_inv claims shutdown fresh request request' config_root resolved disposition :
  admit_start id_text claims shutdown fresh request = Ok (request', config_root, resolved, disposition) ->
  exists settled claude,
    request' = set_launch settled (sr_claude request) request /\
    resolve_claude_launch id_text (set_launch settled (Some claude) request) fresh = Ok resolved /\
    effective_config_root (ls_environment (rl_process resolved)) = Ok config_root /\
    admit_bound_resources claims config_root (ls_cwd (rl_process resolved)) (sr_cell request) = Ok disposition.
Proof.
  unfold admit_start. destruct (sr_agent request); [done|]. intros Ha. res_inv. simplify_eq.
  do 2 eexists. split_and!; eauto.
Qed.

Lemma apply_to_cwd prompt launch : ls_cwd (apply_to prompt launch) = ls_cwd launch.
Proof. by destruct prompt. Qed.

Lemma apply_to_environment prompt launch : ls_environment (apply_to prompt launch) = ls_environment launch.
Proof. by destruct prompt. Qed.

Lemma foldl_keeps {A B} (P : A -> Prop) (f : A -> B -> A) l : (forall a b, P a -> P (f a b)) -> forall a, P a -> P (foldl f a l).
Proof. intros Hf. induction l as [|b l IH]; intros a Ha; cbn; auto. Qed.

(** What a start that reaches its terminal has settled. *)
Lemma prepare_start_inv answers request service i process claim :
  canonical_is_fixed ->
  prepare_start id_text json_bytes write_outcome paths_debug answers request service = Ok (i, process, claim) ->
  sv_sessions service !! i = None /\ cl_cell claim = sr_cell request /\
  effective_config_root (ls_environment process) = Ok (cl_config_root claim) /\ ls_cwd process = cl_cwd claim /\
  (forall other d e, other ∈ live_resource_claims service -> cl_cell other = Minified \/ cl_cell claim = Minified ->
     d ∈ directories other -> e ∈ directories claim -> one_directory_contains_the_other (snd d) (snd e) = false) /\
  (cl_cell claim = Minified -> one_directory_contains_the_other (cl_config_root claim) (cl_cwd claim) = false).
Proof.
  intros Hfix. unfold prepare_start. intros Hs.
  apply result_bind_Ok in Hs as ([[[r root] first] disposition] & Ha & Hs).
  apply admit_start_inv in Ha as (settled & claude & -> & Hfirst & Heff & Hadm).
  apply result_bind_Ok in Hs as (hooks & _ & Hs). apply result_bind_Ok in Hs as (full & _ & Hs).
  apply result_bind_Ok in Hs as ([[materialized prompt] files] & _ & Hs).
  apply result_bind_Ok in Hs as (second & Hsecond%map_err_Ok & Hs).
  destruct (resolved_twice _ _ _ _ _ _ _ _ Hfirst Hsecond) as [Ecwd Eenv].
  rewrite apply_to_cwd in Hs. destruct (bool_decide_reflect (is_Some (sv_sessions service !! rl_session_id second))) as [?|Hnew]; [done|].
  apply result_bind_Ok in Hs as ([] & _ & Hs). apply result_bind_Ok in Hs as (cwd & Hcwd%map_err_Ok & Hs).
  injection Hs as <- <- <-.
  assert (Hsame : cwd = ls_cwd (rl_process second)).
  { apply resolved_inv in Hsecond as (_ & _ & _ & _ & _ & _ & [Hc _]%canonical_directory & _).
    apply Hfix in Hc. rewrite Hc in Hcwd. by injection Hcwd. }
  rewrite apply_to_cwd, apply_to_environment, <-Eenv, Hsame. cbn. split_and!; auto.
  - by apply eq_None_not_Some.
  - intros other d e Ho Hcell Hd He. eapply admitted_resources; eauto. rewrite <-Ecwd in He. unfold directories in He.
    rewrite !elem_of_cons in He. cbn in He. destruct He as [-> | [-> | []%elem_of_nil]]; cbn; auto.
  - intros Hm. destruct (isolated_launch _ _ _ _ Hfirst) as [Hiso Hpriv]. destruct (Hiso Hm) as [isolation Hsome].
    destruct (Hpriv _ Hsome) as (croot & m & _ & Henv & _ & _ & _ & _ & _ & _ & _ & Hcont & _).
    unfold effective_config_root in Heff. rewrite Henv in Heff. cbn in Heff. rewrite Ecwd in Hcont.
    destruct (negb _), (traverses_a_parent_component croot); try done. by injection Heff as <-.
Qed.

Lemma claims_elem service j b : sv_sessions service !! j = Some b -> b ∈ live_resource_claims service.
Proof. intros Hb. apply list_elem_of_fmap. exists (j, b). by rewrite elem_of_map_to_list. Qed.

(** A start that registers its session. *)
Lemma started_inv answers request service i process service' :
  canonical_is_fixed ->
  start_session_owned_with_retention id_text json_bytes write_outcome paths_debug answers request service = (Ok (i, process), service') ->
  exists claim,
    sv_sessions service' = <[i := claim]> (sv_sessions service) /\ sv_sessions service !! i = None /\
    cl_cell claim = sr_cell request /\
    effective_config_root (ls_environment process) = Ok (cl_config_root claim) /\ ls_cwd process = cl_cwd claim /\
    (forall j b d e, sv_sessions service !! j = Some b -> cl_cell b = Minified \/ cl_cell claim = Minified ->
       d ∈ directories b -> e ∈ directories claim -> one_directory_contains_the_other (snd d) (snd e) = false) /\
    (cl_cell claim = Minified -> one_directory_contains_the_other (cl_config_root claim) (cl_cwd claim) = false).
Proof.
  intros Hfix. unfold start_session_owned_with_retention.
  destruct (prepare_start _ _ _ _ _ _ _) as [[[j q] claim]|error] eqn:Hs; [|done].
  destruct (sa_launched answers); [|done|done]. intros [= <- <- <-]. exists claim.
  apply prepare_start_inv in Hs as (Hi & Hcell & Heff & Hcwd & Hoth & Hself); [|done]. split_and!; auto.
  intros k b d e Hb%claims_elem. by apply Hoth.
Qed.

(** A start that fails registers nothing. *)
Lemma not_started answers request service error service' :
  start_session_owned_with_retention id_text json_bytes write_outcome paths_debug answers request service = (Err error, service') ->
  sv_sessions service' = sv_sessions service.
Proof.
  unfold start_session_owned_with_retention. destruct (prepare_start _ _ _ _ _ _ _) as [[[j q] claim]|e]; [|by intros [= _ <-]].
  by destruct (sa_launched answers); intros [= _ <-].
Qed.

End Theorems.

(** ** Over a changing file system

    Each start looks at the file system as it is then. *)

Section Histories.
#[local] Open Scope list_scope.
Context (id_text : SessionId -> string) (json_bytes : json -> result (list N) string) (write_outcome : string -> WriteOutcome).
Context (paths_debug : list string -> string).

Definition moment (service : Service) (h : FileSystem * Happening) : Service :=
  @happens (fst h) id_text json_bytes write_outcome paths_debug service (snd h).
Definition after (history : list (FileSystem * Happening)) : Service := foldl moment (mkService ∅ []) history.

Lemma moments_snoc history h : after (history ++ [h]) = moment (after history) h.
Proof. unfold after. by rewrite foldl_app. Qed.

(** A start of the history that registered the session [k], in the file system of its
    moment, and the service it left. *)
Definition started_at (history : list (FileSystem * Happening)) (fs : FileSystem) (request : StartSessionRequest)
    (k : SessionId) (process : LaunchSpec) (service : Service) : Prop :=
  exists earlier answers later, history = earlier ++ (fs, Start answers request) :: later /\
    @start_session_owned_with_retention fs id_text json_bytes write_outcome paths_debug answers request (after earlier) =
      (Ok (k, process), service).

Lemma started_at_snoc history h fs request k process service :
  started_at history fs request k process service -> started_at (history ++ [h]) fs request k process service.
Proof.
  intros (earlier & answers & later & -> & Hs). exists earlier, answers, (later ++ [h]). by rewrite <-app_assoc.
Qed.

(** When the session [i] was started it was launched on what it is recorded with, and a cell
    keeps its root and its working directory apart. *)
Definition own_start (history : list (FileSystem * Happening)) (i : SessionId) (a : LiveResourceClaim) : Prop :=
  exists fs request process service, started_at history fs request i process service /\ sv_sessions service !! i = Some a /\
    cl_cell a = sr_cell request /\
    effective_config_root (ls_environment process) = Ok (cl_config_root a) /\ ls_cwd process = cl_cwd a /\
    (cl_cell a = Minified -> @one_directory_contains_the_other fs (cl_config_root a) (cl_cwd a) = false).

(** When the later of two sessions was started the other was live, and no directory of one
    was, contained or lay under one of the other. *)
Definition apart (history : list (FileSystem * Happening)) (i : SessionId) (a : LiveResourceClaim) (j : SessionId)
    (b : LiveResourceClaim) : Prop :=
  exists fs request process service k, started_at history fs request k process service /\ (k = i \/ k = j) /\
    sv_sessions service !! i = Some a /\ sv_sessions service !! j = Some b /\
    (forall d e, d ∈ directories a -> e ∈ directories b -> @one_directory_contains_the_other fs (snd d) (snd e) = false).

Definition kept_apart (history : list (FileSystem * Happening)) (sessions : gmap SessionId LiveResourceClaim) : Prop :=
  forall i a, sessions !! i = Some a -> own_start history i a /\
    forall j b, j <> i -> sessions !! j = Some b -> cl_cell a = Minified \/ cl_cell b = Minified -> apart history i a j b.

Lemma own_start_snoc history h i a : own_start history i a -> own_start (history ++ [h]) i a.
Proof.
  intros (fs & request & process & service & Hs & Hrest). exists fs, request, process, service.
  split; [by apply started_at_snoc|done].
Qed.

Lemma apart_snoc history h i a j b : apart history i a j b -> apart (history ++ [h]) i a j b.
Proof.
  intros (fs & request & process & service & k & Hs & Hrest). exists fs, request, process, service, k.
  split; [by apply started_at_snoc|done].
Qed.

Lemma kept_apart_subset history h sessions sessions' :
  kept_apart history sessions -> sessions' ⊆ sessions -> kept_apart (history ++ [h]) sessions'.
Proof.
  intros Hk Hsub i a Ha. destruct (Hk i a) as [Hown Hap]; [by eapply lookup_weaken|]. split; [by apply own_start_snoc|].
  intros j b Hj Hb Hc. apply apart_snoc, Hap; [done|by eapply lookup_weaken|done].
Qed.

Lemma kept_apart_start history fs answers request i process service :
  @canonical_is_fixed fs -> kept_apart history (sv_sessions (after history)) ->
  @start_session_owned_with_retention fs id_text json_bytes write_outcome paths_debug answers request (after history) =
    (Ok (i, process), service) ->
  kept_apart (history ++ [(fs, Start answers request)]) (sv_sessions service).
Proof.
  intros Hfix Hk Hs. set (history' := history ++ _).
  assert (Hat : started_at history' fs request i process service) by (exists history, answers, []; done).
  destruct (@started_inv fs id_text json_bytes write_outcome paths_debug answers request (after history) i process service Hfix Hs)
    as (claim & Hins & Hnew & Hcell & Heff & Hcwd & Hoth & Hself).
  assert (Hi : sv_sessions service !! i = Some claim) by (rewrite Hins; apply lookup_insert_eq).
  assert (Hold : forall j b, j <> i -> sv_sessions service !! j = Some b -> sv_sessions (after history) !! j = Some b).
  { intros j b Hj Hb. rewrite Hins, lookup_insert_ne in Hb by done. exact Hb. }
  intros j a Ha. destruct (decide (j = i)) as [->|Hj].
  - rewrite Hi in Ha. injection Ha as <-. split; [by exists fs, request, process, service|].
    intros k b Hkn Hb Hc. exists fs, request, process, service, i. split_and!; auto. intros d e Hd He.
    rewrite contains_symmetric. eapply Hoth; eauto. tauto.
  - pose proof (Hold j a Hj Ha) as Ha'. destruct (Hk j a Ha') as [Hown Hap]. split; [by apply own_start_snoc|].
    intros k b Hkn Hb Hc. destruct (decide (k = i)) as [->|Hki].
    + rewrite Hi in Hb. injection Hb as <-. exists fs, request, process, service, i. split_and!; auto. intros d e Hd He.
      eapply Hoth; eauto.
    + by apply apart_snoc, Hap; [|apply Hold|].
Qed.

(** C9. Whatever is started and closed, in any order, whatever else fails, and whatever
    becomes of the file system in between (each start sees it as it is at its own moment,
    and the check does not see the future): of two live sessions one of which is a minified
    cell, when the later of them was started the other was live under the claim it has now,
    and no directory of one was, contained or lay under a directory of the other, in any
    role, by any spelling or link the file system then had. Each session was launched on
    exactly the root and the directory it is recorded with, and a minified cell's own root
    and working directory did not contain one another when it was started. *)
Theorem live_cells_are_out_of_reach (history : list (FileSystem * Happening)) :
  Forall (fun h => @canonical_is_fixed (fst h)) history -> kept_apart history (sv_sessions (after history)).
Proof.
  induction history as [|[fs h] history IH] using rev_ind; intros Hf; [by intros i a [=]|].
  apply Forall_app in Hf as [Hf [Hfix _]%Forall_cons]. specialize (IH Hf). rewrite moments_snoc. unfold moment. cbn [fst snd] in *.
  destruct h as [answers request|i]; cbn [happens].
  - destruct (start_session_owned_with_retention _ _ _ _ answers request _) as [[[i process]|error] service] eqn:Hs; cbn [snd].
    + by eapply kept_apart_start.
    + apply not_started in Hs. rewrite Hs. by eapply kept_apart_subset.
  - eapply kept_apart_subset; [exact IH|]. apply delete_subseteq.
Qed.

End Histories.
