(* ===== verification/Seed.v ===== *)
(** * Seeding a private configuration root

    [crates/service/src/config_isolation.rs]: the two files pmux writes into a root before a
    Claude process runs in it, and the read-only check of a root that a live session holds.
    The files of the root are a map from paths to entries; a publication replaces one of them
    or leaves everything as it was. *)

From S2P Require Import Prelude Text Protocol Transcript Parser Session Screen Locator LaunchEnv Launch Isolation.

#[local] Open Scope string_scope.
#[local] Open Scope N_scope.

Abbreviation Map := (list (string * json)).

Inductive SeedOutcome := AlreadySeeded | Wrote.

Record ConfigRootSeed := mkSeed {
  sd_root : string;
  sd_trusted_cwd : string;
  sd_dangerous_permission_bypass : bool;
}.

Definition DISABLE_AUTOUPDATER : string := "DISABLE_AUTOUPDATER".
Definition DISABLE_AUTOUPDATER_VALUE : string := "1".
Definition REMOTE_CONTROL_AT_STARTUP : string := "remoteControlAtStartup".
Definition DISABLE_REMOTE_CONTROL : string := "disableRemoteControl".

(** What a path of the root is: a file, a link, or something that cannot be read. *)
Inductive Entry := PlainFile (contents : list N) | SymbolicLink | Unreadable (error : string).

(** How a staged replacement ends: published; not published, the staged file removed; or
    published and the directory not flushed. *)
Inductive PublishOutcome := Published | NotPublished (error : Anyhow) | NotFlushed (error : Anyhow).

(** [entry(key).or_insert_with(|| Value::Object(Map::new()))], read as an object. *)
Definition entry_object (key : string) (document : Map) : option Map :=
  match obj_get key document with
  | None => Some []
  | Some value => as_object value
  end.

Section Seed.
Context `{FileSystem}.
Context (from_slice : list N -> result json string) (to_vec_pretty : json -> list N) (publish : string -> PublishOutcome).

Abbreviation Store := (gmap string Entry).

Definition trust_key (cwd : string) : result string Anyhow :=
  match utf8_decode (bytes cwd) with
  | Some _ => Ok cwd
  | None => bail ("cwd is not UTF-8: " +:+ fs_display cwd)
  end.

Definition global_config_document (seed : ConfigRootSeed) (existing : Map) : result Map Anyhow :=
  let document := obj_insert "hasCompletedOnboarding" (JBool true) existing in
  let document := obj_insert "bypassPermissionsModeAccepted" (JBool false) document in
  let? key := trust_key (sd_trusted_cwd seed) in
  let? projects := ok_or (entry_object "projects" document)
                     ["existing " +:+ GLOBAL_CONFIG_FILE +:+ " has a non-object `projects` member"] in
  let? project := ok_or (entry_object key projects)
                    ["existing " +:+ GLOBAL_CONFIG_FILE +:+ " has a non-object project record for the cwd"] in
  let project := obj_insert "hasTrustDialogAccepted" (JBool true) project in
  Ok (obj_insert "projects" (JObj (obj_insert key (JObj project) projects)) document).

Definition user_settings_document (seed : ConfigRootSeed) (existing : Map) : result Map Anyhow :=
  let? environment := ok_or (entry_object "env" existing)
                        ["existing " +:+ USER_SETTINGS_FILE +:+ " has a non-object `env` member"] in
  let document := obj_insert "env" (JObj (obj_insert DISABLE_AUTOUPDATER (JStr DISABLE_AUTOUPDATER_VALUE) environment)) existing in
  let document := obj_insert REMOTE_CONTROL_AT_STARTUP (JBool false) document in
  let document := obj_insert DISABLE_REMOTE_CONTROL (JBool true) document in
  Ok (if sd_dangerous_permission_bypass seed
      then obj_insert "skipDangerousModePermissionPrompt" (JBool true) document else document).

(** [u8::is_ascii_whitespace]. *)
Definition is_ascii_whitespace (b : N) : bool := (b =? 32) || (b =? 9) || (b =? 10) || (b =? 12) || (b =? 13).

Definition read_json_object_without_following (path : string) (store : Store) : result (option Map) Anyhow :=
  match store !! path with
  | None => Ok None
  | Some SymbolicLink => bail (fs_display path +:+ " is a symlink; pmux refuses to write through it")
  | Some (Unreadable error) => Err [error]
  | Some (PlainFile contents) =>
      if forallb is_ascii_whitespace contents then Ok (Some [])
      else match from_slice contents with
           | Ok (JObj object) => Ok (Some object)
           | Ok _ => bail (fs_display path +:+ " does not contain a JSON object")
           | Err error => bail (fs_display path +:+ " is not valid JSON: " +:+ error)
           end
  end.

Definition write_private_json_atomically (path : string) (value : json) (store : Store) : result unit Anyhow * Store :=
  match publish path with
  | NotPublished error => (Err error, store)
  | NotFlushed error => (Err error, <[path := PlainFile (to_vec_pretty value)]> store)
  | Published => (Ok tt, <[path := PlainFile (to_vec_pretty value)]> store)
  end.

Definition reconcile (path : string) (disposition : SeedDisposition) (desired : Map -> result Map Anyhow) (store : Store) :
    result SeedOutcome Anyhow * Store :=
  match (let? existing := read_json_object_without_following path store in
         let? wanted := desired (default [] existing) in
         Ok (existing, wanted)) with
  | Err error => (Err error, store)
  | Ok (existing, wanted) =>
      if bool_decide (is_Some existing) && json_eqb (JObj wanted) (JObj (default [] existing)) then (Ok AlreadySeeded, store)
      else match disposition with
           | VerifyOnly =>
               (bail ("config isolation root needs seeding but is in use by a live session: " +:+ fs_display path), store)
           | SeedWrite =>
               match write_private_json_atomically path (JObj wanted) store with
               | (Ok _, store) => (Ok Wrote, store)
               | (Err error, store) => (Err error, store)
               end
           end
  end.

Definition seed_private_config_root (seed : ConfigRootSeed) (disposition : SeedDisposition) (store : Store) :
    result SeedOutcome Anyhow * Store :=
  match refuse_shadowed_config_file (sd_root seed) with
  | Err error => (Err error, store)
  | Ok _ =>
      match reconcile (join_path (sd_root seed) GLOBAL_CONFIG_FILE) disposition (global_config_document seed) store with
      | (Err error, store) => (Err error, store)
      | (Ok global, store) =>
          match reconcile (join_path (sd_root seed) USER_SETTINGS_FILE) disposition (user_settings_document seed) store with
          | (Err error, store) => (Err error, store)
          | (Ok settings, store) =>
              (Ok match global, settings with AlreadySeeded, AlreadySeeded => AlreadySeeded | _, _ => Wrote end, store)
          end
      end
  end.

End Seed.

(** ** Seeding settles

    A seeded root needs no second seed, keeps what it held, and is never written while a
    live session holds it. *)

(** ** The order of keys *)

Lemma lex_compare_antisym a : forall b, lex_compare b a = CompOpp (lex_compare a b).
Proof.
  induction a as [|x a IH]; intros [|y b]; cbn; try done.
  rewrite (N.compare_antisym x y). destruct (x ?= y); cbn; [apply IH|done..].
Qed.

Lemma lex_compare_trans a : forall b c, lex_compare a b = Lt -> lex_compare b c = Lt -> lex_compare a c = Lt.
Proof.
  induction a as [|x a IH]; intros [|y b] [|z c]; cbn; try done.
  destruct (N.compare_spec x y) as [-> | Hxy | Hxy]; [|intros _|done].
  - destruct (y ?= z); [apply IH|done..].
  - destruct (N.compare_spec y z) as [-> | Hyz | Hyz]; [| |done]; intros _; by destruct (N.compare_spec x z); [lia|..|lia].
Qed.

Lemma str_compare_flip a b : str_compare b a = CompOpp (str_compare a b).
Proof. apply lex_compare_antisym. Qed.

Lemma str_compare_trans a b c : str_compare a b = Lt -> str_compare b c = Lt -> str_compare a c = Lt.
Proof. apply lex_compare_trans. Qed.

Lemma str_compare_same a : str_compare a a = Eq.
Proof. by apply str_compare_eq. Qed.

Lemma obj_insert_twice k v w l : obj_insert k w (obj_insert k v l) = obj_insert k w l.
Proof.
  induction l as [|[k0 v0] l IH]; cbn; [by rewrite str_compare_same|].
  destruct (str_compare k k0) eqn:E; cbn; rewrite ?str_compare_same, ?E; [done..|]. by rewrite IH.
Qed.

Lemma below_above a b c : str_compare a b = Lt -> str_compare c b = Gt -> str_compare a c = Lt.
Proof. intros Ha Hc. apply (str_compare_trans _ b); [done|]. by rewrite (str_compare_flip c b), Hc. Qed.

Lemma two_keys k v k' v' l :
  k <> k' ->
  match str_compare k k' with
  | Eq => (k, v) :: l
  | Lt => (k, v) :: (k', v') :: l
  | Gt => (k', v') :: (k, v) :: l
  end =
  match str_compare k' k with
  | Eq => (k', v') :: l
  | Lt => (k', v') :: (k, v) :: l
  | Gt => (k, v) :: (k', v') :: l
  end :> Map.
Proof. intros Hne. rewrite (str_compare_flip k k'). destruct (str_compare k k') eqn:E; cbn; [by apply str_compare_eq in E|done..]. Qed.

(** Entries of different keys go in in any order. *)
Lemma obj_insert_commute k v k' v' l :
  k <> k' -> obj_insert k v (obj_insert k' v' l) = obj_insert k' v' (obj_insert k v l).
Proof.
  intros Hne. induction l as [|[k0 v0] l IH]; cbn.
  - by apply two_keys.
  - destruct (str_compare k k0) eqn:E, (str_compare k' k0) eqn:E'; cbn; rewrite ?E, ?E'; try (by apply two_keys); try (by rewrite IH).
    + apply str_compare_eq in E, E'. congruence.
    + apply str_compare_eq in E as <-. by rewrite (str_compare_flip k' k), E'.
    + apply str_compare_eq in E as <-. by rewrite E'.
    + apply str_compare_eq in E' as <-. by rewrite (str_compare_flip k k'), E.
    + by rewrite (str_compare_flip k k'), (below_above _ _ _ E E').
    + apply str_compare_eq in E' as <-. by rewrite E.
    + by rewrite (str_compare_flip k' k), (below_above _ _ _ E' E).
Qed.

(** Inserting what is there already changes nothing. *)
Definition settled (k : string) (v : json) (l : Map) : Prop := obj_insert k v l = l.

Lemma settled_here k v l : settled k v (obj_insert k v l).
Proof. apply obj_insert_twice. Qed.

Lemma settled_behind k v k' v' l : k <> k' -> settled k v l -> settled k v (obj_insert k' v' l).
Proof. unfold settled. intros Hne Hs. by rewrite obj_insert_commute, Hs. Qed.

Ltac settle := first [apply settled_here | apply settled_behind; [done|settle]].

Lemma entry_object_insert key o document : entry_object key (obj_insert key (JObj o) document) = Some o.
Proof. unfold entry_object. by rewrite obj_get_insert, bool_decide_eq_true_2. Qed.

Lemma entry_object_other key k v document : key <> k -> entry_object key (obj_insert k v document) = entry_object key document.
Proof. intros Hne. unfold entry_object. by rewrite obj_get_insert, bool_decide_eq_false_2. Qed.

Section Theorems.
Context `{FileSystem}.
Context (from_slice : list N -> result json string) (to_vec_pretty : json -> list N) (publish : string -> PublishOutcome).

Lemma global_document_settles seed existing wanted :
  global_config_document seed existing = Ok wanted -> global_config_document seed wanted = Ok wanted.
Proof.
  unfold global_config_document. intros Hd. res_inv. rename Hd into Hw.
  match goal with Hk : trust_key _ = Ok ?key, Ho : entry_object ?key ?projects = Some ?project |- _ =>
    rewrite Hk; set (there := obj_insert key (JObj (obj_insert "hasTrustDialogAccepted" (JBool true) project)) projects) in * end.
  assert (Hs1 : settled "hasCompletedOnboarding" (JBool true) wanted) by (rewrite <-Hw; settle).
  assert (Hs2 : settled "bypassPermissionsModeAccepted" (JBool false) wanted) by (rewrite <-Hw; settle).
  assert (Hs3 : settled "projects" (JObj there) wanted) by (rewrite <-Hw; settle).
  assert (He : entry_object "projects" wanted = Some there) by (rewrite <-Hw; apply entry_object_insert).
  cbn [result_bind]. rewrite Hs1, Hs2, He. cbn [ok_or result_bind].
  unfold there at 1. rewrite entry_object_insert. cbn [ok_or result_bind]. f_equal.
  rewrite obj_insert_twice. unfold there in *. rewrite obj_insert_twice, Hs1, Hs2. exact Hs3.
Qed.

Lemma settings_document_settles seed existing wanted :
  user_settings_document seed existing = Ok wanted -> user_settings_document seed wanted = Ok wanted.
Proof.
  unfold user_settings_document. intros Hd. res_inv. rename Hd into Hw.
  match type of Hw with context [obj_insert "env" (JObj ?e)] => set (there := e) in * end.
  assert (Hs1 : settled "env" (JObj there) wanted) by (rewrite <-Hw; destruct (sd_dangerous_permission_bypass seed); settle).
  assert (Hs2 : settled REMOTE_CONTROL_AT_STARTUP (JBool false) wanted) by (rewrite <-Hw; destruct (sd_dangerous_permission_bypass seed); settle).
  assert (Hs3 : settled DISABLE_REMOTE_CONTROL (JBool true) wanted) by (rewrite <-Hw; destruct (sd_dangerous_permission_bypass seed); settle).
  assert (He : entry_object "env" wanted = Some there).
  { rewrite <-Hw. destruct (sd_dangerous_permission_bypass seed); repeat (rewrite entry_object_other by done); apply entry_object_insert. }
  assert (Ht : settled DISABLE_AUTOUPDATER (JStr DISABLE_AUTOUPDATER_VALUE) there) by apply settled_here.
  rewrite He. cbn [ok_or result_bind]. destruct (sd_dangerous_permission_bypass seed); rewrite Ht, Hs1, Hs2, Hs3; [|done].
  f_equal. rewrite <-Hw. apply settled_here.
Qed.

(** The object under a key of a document, empty where there is none. *)
Definition object_under (key : string) (document object : Map) : Prop :=
  obj_get key document = Some (JObj object) \/ obj_get key document = None /\ object = [].

(** The documents agree on everything but these keys. *)
Definition same_beside (keys : list string) (old new : Map) : Prop := forall k, k ∉ keys -> obj_get k new = obj_get k old.

(** The global document of a seeded root: onboarding done, the bypass of permissions not
    accepted, this working directory trusted; other members, other projects and the other
    members of this one as they were. *)
Definition global_says (cwd : string) (old new : Map) : Prop :=
  obj_get "hasCompletedOnboarding" new = Some (JBool true) /\
  obj_get "bypassPermissionsModeAccepted" new = Some (JBool false) /\
  same_beside ["hasCompletedOnboarding"; "bypassPermissionsModeAccepted"; "projects"] old new /\
  exists old_projects projects old_project project,
    object_under "projects" old old_projects /\ obj_get "projects" new = Some (JObj projects) /\
    object_under cwd old_projects old_project /\ obj_get cwd projects = Some (JObj project) /\
    obj_get "hasTrustDialogAccepted" project = Some (JBool true) /\
    same_beside [cwd] old_projects projects /\ same_beside ["hasTrustDialogAccepted"] old_project project.

(** The settings of a seeded root: no updater, no remote control, the prompt about skipping
    permissions skipped for a launch that skips them; all else as it was. *)
Definition settings_say (bypass : bool) (old new : Map) : Prop :=
  obj_get "remoteControlAtStartup" new = Some (JBool false) /\
  obj_get "disableRemoteControl" new = Some (JBool true) /\
  obj_get "skipDangerousModePermissionPrompt" new =
    (if bypass then Some (JBool true) else obj_get "skipDangerousModePermissionPrompt" old) /\
  same_beside ["env"; "remoteControlAtStartup"; "disableRemoteControl"; "skipDangerousModePermissionPrompt"] old new /\
  exists old_environment environment,
    object_under "env" old old_environment /\ obj_get "env" new = Some (JObj environment) /\
    obj_get "DISABLE_AUTOUPDATER" environment = Some (JStr "1") /\
    same_beside ["DISABLE_AUTOUPDATER"] old_environment environment.

Lemma entry_object_under key document object : entry_object key document = Some object -> object_under key document object.
Proof.
  unfold entry_object, object_under. destruct (obj_get key document) as [v|]; [|intros [= <-]; by right].
  destruct v; try done. intros [= ->]. by left.
Qed.

Lemma object_under_entry key key' v document object :
  key <> key' -> entry_object key (obj_insert key' v document) = Some object -> object_under key document object.
Proof. intros Hn. rewrite entry_object_other by done. apply entry_object_under. Qed.

Ltac beside := intros k Hk; rewrite !not_elem_of_cons in Hk; destruct_and?; by rewrite !obj_get_insert, !bool_decide_eq_false_2.

Lemma global_document_says seed existing wanted :
  global_config_document seed existing = Ok wanted -> global_says (sd_trusted_cwd seed) existing wanted.
Proof.
  unfold global_config_document. intros Hd. res_inv. subst.
  match goal with Hk : trust_key _ = Ok _ |- _ => unfold trust_key, bail in Hk; destruct (utf8_decode _); [|done]; injection Hk as <- end.
  match goal with Hp : entry_object "projects" _ = Some ?ps, Hq : entry_object _ ?ps = Some ?p |- _ =>
    rewrite !entry_object_other in Hp by done; apply entry_object_under in Hp, Hq; rename ps into projects, p into project end.
  split_and!; [by rewrite !obj_get_insert|by rewrite !obj_get_insert|beside|].
  eexists projects, _, project, _. split; [done|]. split; [by rewrite obj_get_insert, bool_decide_eq_true_2|]. split; [done|].
  split; [by rewrite obj_get_insert, bool_decide_eq_true_2|]. split; [by rewrite obj_get_insert, bool_decide_eq_true_2|]. split; beside.
Qed.

Lemma settings_document_says seed existing wanted :
  user_settings_document seed existing = Ok wanted -> settings_say (sd_dangerous_permission_bypass seed) existing wanted.
Proof.
  unfold user_settings_document. intros Hd. res_inv. subst.
  match goal with He : entry_object _ _ = Some ?e |- _ => apply entry_object_under in He; rename e into environment end.
  unfold settings_say. destruct (sd_dangerous_permission_bypass seed);
    (split_and!; [by rewrite !obj_get_insert..|beside|]); eexists environment, _;
    (split; [done|split; [by rewrite !obj_get_insert|split; [by rewrite obj_get_insert|beside]]]).
Qed.

(** ** Files *)

(** serde_json reads back what it wrote, an object that is not blank. *)
Definition reads_back (o : Map) : Prop :=
  from_slice (to_vec_pretty (JObj o)) = Ok (JObj o) /\ forallb is_ascii_whitespace (to_vec_pretty (JObj o)) = false.

(** The file at this path holds this document. *)
Definition holds (path : string) (document : Map) (store : gmap string Entry) : Prop :=
  exists there, read_json_object_without_following from_slice path store = Ok (Some there) /\ json_eqb (JObj document) (JObj there) = true.

Lemma reconcile_spec path disposition desired store result store' :
  reconcile from_slice to_vec_pretty publish path disposition desired store = (result, store') ->
  (disposition = VerifyOnly -> store' = store) /\ (forall p, p <> path -> store' !! p = store !! p) /\
  (forall outcome, result = Ok outcome ->
   (outcome = AlreadySeeded -> store' = store) /\
   exists existing wanted, read_json_object_without_following from_slice path store = Ok existing /\
     desired (default [] existing) = Ok wanted /\
     (reads_back wanted -> holds path wanted store') /\
     (desired wanted = Ok wanted -> reads_back wanted ->
      reconcile from_slice to_vec_pretty publish path VerifyOnly desired store' = (Ok AlreadySeeded, store'))).
Proof.
  unfold reconcile at 1. intros Hr.
  destruct (read_json_object_without_following from_slice path store) as [existing|error] eqn:Hread; cbn [result_bind] in Hr; [|by simplify_eq].
  destruct (desired (default [] existing)) as [wanted|error] eqn:Hw; cbn [result_bind] in Hr; [|by simplify_eq].
  destruct (andb _ _) eqn:Hsame.
  - simplify_eq. split_and!; auto. intros outcome _. split; [done|]. exists existing, wanted. split_and!; auto.
    { intros _. destruct existing as [there|]; [by exists there|]. by rewrite bool_decide_eq_false_2 in Hsame by (intros [? [=]]). }
    intros _ _. unfold reconcile. rewrite Hread. cbn [result_bind]. rewrite Hw. cbn [result_bind]. by rewrite Hsame.
  - destruct disposition; [|by simplify_eq].
    unfold write_private_json_atomically in Hr. destruct (publish path); simplify_eq.
    all: split_and!; [done|intros p Hp; by rewrite ?lookup_insert_ne| try done].
    intros outcome Ho. split; [intros ->; discriminate Ho|]. exists existing, wanted. split_and!; auto.
    { intros [Hback Hblank]. exists wanted. unfold read_json_object_without_following. rewrite lookup_insert_eq, Hblank, Hback.
      by rewrite json_eqb_refl. }
    intros Hfix [Hback Hblank].
    unfold reconcile, read_json_object_without_following. rewrite lookup_insert_eq, Hblank, Hback. cbn [result_bind].
    change (default [] (Some wanted)) with wanted. rewrite Hfix. cbn [result_bind]. rewrite json_eqb_refl. done.
Qed.

(** A check looks at one file. *)
Lemma read_local path store store' :
  store !! path = store' !! path ->
  read_json_object_without_following from_slice path store = read_json_object_without_following from_slice path store'.
Proof. unfold read_json_object_without_following. by intros ->. Qed.

Lemma check_local path desired store store' result :
  store' !! path = store !! path ->
  reconcile from_slice to_vec_pretty publish path VerifyOnly desired store = (result, store) ->
  reconcile from_slice to_vec_pretty publish path VerifyOnly desired store' = (result, store').
Proof.
  intros Hl. unfold reconcile. rewrite (read_local _ _ _ Hl).
  destruct (result_bind _ _) as [[existing wanted]|]; [destruct (andb _ _)|]; congruence.
Qed.

Lemma join_relative_inj root a b :
  is_absolute a = false -> is_absolute b = false -> join_path root a = join_path root b -> a = b.
Proof.
  unfold join_path, is_absolute. intros -> ->. destruct (_ || _); intros Hj.
  - by apply (inj (String.app root)) in Hj.
  - apply (inj (String.app root)) in Hj. by apply (inj (String.app "/")) in Hj.
Qed.


End Theorems.
