(* ===== verification/LaunchWitnesses.v ===== *)
(** * Launches on a concrete machine

    A small file system, requests for it, and the theorems on launches, isolation and
    seeding at work there; and what a start that could not be cleaned up leaves open. *)

From S2P Require Import Prelude Text Protocol Parser Session Screen Registry Locator LaunchEnv Launch Isolation Seed.

#[local] Open Scope string_scope.
#[local] Open Scope N_scope.

Module LaunchDemo.

(** Directories and one program, by inode; the user is 1000. *)
Definition demo_inode (path : string) : option N :=
  List.find (fun _ => true)
    (snd <$> List.filter (fun kv => String.eqb (fst kv) path)
       [("/", 1); ("/work", 2); ("/work/sub", 3); ("/roots", 4); ("/roots/a", 5); ("/roots/b", 6); ("/other", 7); ("/bin", 8);
        ("/bin/claude", 9); ("/shim", 10); ("/home", 11); ("/private/settings-0000.json", 12)]).

#[local] Instance demo_fs : FileSystem := {
  fs_canonicalize path := match demo_inode path with Some _ => Ok path | None => Err "No such file or directory" end;
  fs_metadata path := match demo_inode path with
                      | Some ino => Ok (mkMetadata 1 ino 1000 448 (negb ((ino =? 9) || (ino =? 12))) ((ino =? 9) || (ino =? 12)))
                      | None => Err (NotFoundError "No such file or directory")
                      end;
  fs_read_dir path := Ok [];
  fs_euid := 1000;
  fs_display path := path;
}.

Definition demo_id (i : SessionId) : string := pretty i.

(** ** Environments *)

Definition demo_spec : EnvironmentSpec :=
  mkEnvironmentSpec
    (list_to_map [("PATH", "/shim:/bin"); ("HOME", "/home"); ("LC_ALL", "C"); ("TZ", "UTC"); ("ANTHROPIC_API_KEY", "secret");
                  ("CLAUDE_CODE_CHILD_SESSION", "1"); ("TMUX_PROGRAM", "/shim/tmux")])
    (list_to_map [("MCP_TOKEN", "token"); ("AWS_BEARER_TOKEN_BEDROCK", "secret")]) {["TZ"]}.

Definition demo_environment := build_environment demo_spec Subscription Transparent None Full.
Definition demo_vars := match demo_environment with Ok (vars, _) => vars | Err _ => ∅ end.
Definition demo_removed := match demo_environment with Ok (_, removed) => removed | Err _ => ∅ end.

Lemma demo_environment_ok : demo_environment = Ok (demo_vars, demo_removed).
Proof. vm_compute. reflexivity. Qed.

Lemma child_environment_is_exact_witness :
  demo_vars !! "PATH" = Some "/bin" /\ demo_vars !! "ANTHROPIC_API_KEY" = None /\
  "ANTHROPIC_API_KEY" ∈ demo_removed /\ "AWS_BEARER_TOKEN_BEDROCK" ∈ demo_removed.
Proof.
  destruct (child_environment_is_exact demo_spec Subscription Transparent None Full demo_vars demo_removed demo_environment_ok) as [Hv Hr]. split_and!.
  - rewrite Hv. vm_compute. reflexivity.
  - rewrite Hv. vm_compute. reflexivity.
  - apply Hr. rewrite Hv. split; [vm_compute; reflexivity|]. split; [left; vm_compute; eauto|]. intros (_ & Hi & _). vm_compute in Hi. discriminate.
  - apply Hr. rewrite Hv. split; [vm_compute; reflexivity|]. split; [right; vm_compute; eauto|]. intros (Hs & _). vm_compute in Hs. discriminate.
Defined.

Lemma nothing_forbidden_reaches_the_child_witness :
  is_Some (demo_vars !! "LC_ALL") /\ transparent_profile_removes "LC_ALL" = false /\ is_team_marker "LC_ALL" = false /\
  inherits "LC_ALL" Subscription = true.
Proof.
  assert (Hs : is_Some (demo_vars !! "LC_ALL")) by (vm_compute; eauto).
  destruct (nothing_forbidden_reaches_the_child demo_spec Subscription Transparent None Full demo_vars demo_removed "LC_ALL" demo_environment_ok Hs) as (_ & Ht & Hm & _ & Ho).
  split_and!; [exact Hs|exact Ht|exact Hm|]. destruct (Ho eq_refl) as [[Hown|[Hi _]] _]; [|exact Hi].
  unfold OWN_NAMES in Hown. exfalso. set_solver.
Defined.

(** The comments of the policy say that names of the [CLAUDE] name space are inherited under
    no policy, and that provider routing is removed under the subscription policy however it
    arrived. Both are broader than the tables. *)
Example claude_names_are_inherited :
  inherits "CLAUDE_CODE_USE_BEDROCK" Inherit = true /\ inherits "CLAUDE_CONFIG_DIR" Subscription = true.
Proof. done. Qed.

Example provider_credentials_can_be_set :
  has_prefix PROVIDER_ROUTING_PREFIXES "AWS_SECRET_ACCESS_KEY" = true /\
  match build_environment (mkEnvironmentSpec ∅ {["AWS_SECRET_ACCESS_KEY" := "key"]} ∅) Subscription Transparent None Full with
  | Ok (vars, _) => vars !! "AWS_SECRET_ACCESS_KEY" = Some "key"
  | Err _ => False
  end.
Proof. split; vm_compute; reflexivity. Qed.

(** ** Launches *)

Definition demo_config (secret : string) : ClaudeLaunchConfig :=
  mkLaunchConfig "/bin/claude" (Some "opus") (Some High) (Some Plan) ["Bash"] ["WebFetch"] [SourceInline (JStr secret)] [] [] (PromptReplace secret) ["--debug"].

Definition demo_request (root cwd : string) (cell : SessionCell) (config : ClaudeLaunchConfig) : StartSessionRequest :=
  mkStartRequest (NewSession None) cwd (Some config) None (mkEnvironmentSpec {["HOME" := "/home"]} ∅ ∅) Subscription
    (Some (mkConfigIsolation root "/home")) (mkTerminalSpec 24 120 Transparent Auto) TranscriptLifecycle OneShot RequireTested cell.

Definition cell_request : StartSessionRequest := demo_request "/roots/a" "/work" Minified (set_sources [] [] (demo_config "")).
Definition cell_resolved := resolve_claude_launch demo_id cell_request 7.
Definition cell_launch : ResolvedClaudeLaunch :=
  match cell_resolved with Ok launch => launch | Err _ => mkResolved 0 false (mkLaunchSpec "" [] "" ∅) ∅ false end.

Lemma cell_resolved_ok : cell_resolved = Ok cell_launch.
Proof. vm_compute. reflexivity. Qed.

Lemma isolated_launch_is_private_witness :
  ls_environment (rl_process cell_launch) !! "CLAUDE_CONFIG_DIR" = Some "/roots/a" /\
  must_treat_as_same_directory "/work" "/roots/a" = false.
Proof.
  destruct (isolated_launch_is_private demo_id cell_request 7 cell_launch cell_resolved_ok) as [_ Hp].
  destruct (Hp (mkConfigIsolation "/roots/a" "/home") eq_refl) as (root & m & Hc & He & _ & _ & _ & _ & _ & _ & _ & Hw & _).
  vm_compute in Hc. injection Hc as <-. split; [exact He|]. apply Hw. vm_compute. left.
Defined.

Definition demo_json (j : json) : result (list N) string := match j with JStr text => Ok (bytes text) | _ => Ok [] end.
Definition demo_write (path : string) : WriteOutcome := Written.
Definition demo_directory : TempDir := mkTempDir (Ok "/private") (Ok tt).

(** The configuration as it was asked for, and what writing its secrets out makes of it. *)
Definition demo_prepared := prepare demo_json demo_write demo_directory (demo_config "alpha").

Lemma argv_is_the_drivers_witness :
  match demo_prepared with
  | Ok (config, system_prompt, material) =>
      match resolve_claude_launch demo_id (with_claude config cell_request) 7 with
      | Ok launch =>
          ls_args (apply_to system_prompt (rl_process launch)) =
            ["--session-id"; "7"; "--model"; "opus"; "--effort"; "high"; "--permission-mode"; "plan"; "--allowedTools"; "Bash";
             "--disallowedTools"; "WebFetch"; "--settings"; "/private/settings-0000.json"; "--debug"; "--strict-mcp-config"; "--system-prompt-file"; "/private/system-prompt.txt"] /\
          rl_dangerous_permission_bypass launch = false
      | Err _ => False
      end
  | Err _ => False
  end.
Proof.
  destruct demo_prepared as [[[config system_prompt] material]|e] eqn:Hp; [|by vm_compute in Hp].
  destruct (resolve_claude_launch _ _ _) as [launch|e] eqn:Hr.
  - destruct (argv_is_the_drivers demo_id demo_json demo_write demo_directory cell_request 7 _ _ _ _ launch Hp Hr)
      as (Hi & settings & mcp & plugins & H1 & H2 & H3 & Ha & _ & _ & Hb & _).
    apply Forall2_nil_inv_l in H2 as ->. apply Forall2_nil_inv_l in H3 as ->.
    apply Forall2_cons_inv_l in H1 as (value & ? & Hs & H1%Forall2_nil_inv_l & ->). subst.
    injection Hi as Hi1 Hi2. rewrite Ha, Hi1, Hi2. vm_compute in Hp. injection Hp as <- <- <-. vm_compute in Hs. injection Hs as <-.
    split; [by vm_compute|]. apply not_true_iff_false. intros Hd%Hb. cbn in Hd.
    repeat (apply elem_of_cons in Hd as [Hd|Hd]; [discriminate Hd|]). by apply elem_of_nil in Hd.
  - exfalso. vm_compute in Hp. injection Hp as <- _ _. by vm_compute in Hr.
Defined.

Definition demo_launch (secret : string) :=
  launch_of demo_id demo_json demo_write demo_directory cell_request 7 (demo_config secret).
Definition demo_spec_of (secret : string) : LaunchSpec :=
  match demo_launch secret with Ok (launch, _) => launch | Err _ => mkLaunchSpec "" [] "" ∅ end.
Definition demo_material_of (secret : string) : Material :=
  match demo_launch secret with Ok (_, material) => material | Err _ => mkMaterial "" 0 [] end.

Lemma secrets_stay_off_the_command_line_witness :
  demo_spec_of "alpha" = demo_spec_of "beta" /\
  mkPrivateFile "/private/settings-0000.json" 384 (bytes "alpha") ∈ mt_files (demo_material_of "alpha") /\
  mkPrivateFile "/private/system-prompt.txt" 384 (bytes "alpha") ∈ mt_files (demo_material_of "alpha").
Proof.
  destruct (secrets_stay_off_the_command_line demo_id demo_json demo_write demo_directory cell_request 7 (demo_config "alpha") (demo_config "beta")
           (demo_spec_of "alpha") (demo_spec_of "beta") (demo_material_of "alpha") (demo_material_of "beta"))
    as (E & dir & Hd & _ & _ & Hf).
  - split; [reflexivity|repeat constructor|constructor|exact I].
  - vm_compute. reflexivity.
  - vm_compute. reflexivity.
  - injection Hd as <-. split_and!; [exact E| |].
    + apply Hf. left. exists 0%nat, (JStr "alpha"). split_and!; reflexivity.
    + apply Hf. right. right. split; [reflexivity|split; reflexivity].
Defined.

(** ** Isolation *)

Definition demo_debug (paths : list string) : string := EmptyString.
Definition demo_answers (fresh : SessionId) (launched : LaunchOutcome) : StartAnswers :=
  mkAnswers fresh false (Ok (fun settings => settings)) demo_directory (Ok tt) launched.
Definition demo_happens := happens demo_id demo_json demo_write demo_debug.

(** A cell on [/roots/a] and [/work]; a second one elsewhere; a third whose working directory
    lies in the first one's, which is refused. *)
Definition demo_history : list Happening :=
  [Start (demo_answers 1 Registered) (demo_request "/roots/a" "/work" Minified (demo_config "x"));
   Start (demo_answers 2 Registered) (demo_request "/roots/b" "/other" Minified (demo_config "y"));
   Start (demo_answers 3 Registered) (demo_request "/roots/b" "/work/sub" Minified (demo_config "z"))].

Lemma demo_canonical : @canonical_is_fixed demo_fs.
Proof.
  intros path canonical. unfold fs_canonicalize, demo_fs. destruct (demo_inode path) eqn:Hi; intros Hc; [|discriminate Hc].
  injection Hc as <-. by rewrite Hi.
Qed.

(** The same starts, each in the file system of its moment. *)
Definition demo_moments : list (FileSystem * Happening) := (fun h => (demo_fs, h)) <$> demo_history.

Lemma live_cells_are_out_of_reach_witness :
  let service := after demo_id demo_json demo_write demo_debug demo_moments in
  is_Some (sv_sessions service !! 1) /\ is_Some (sv_sessions service !! 2) /\ sv_sessions service !! 3 = None /\
  kept_apart demo_id demo_json demo_write demo_debug demo_moments (sv_sessions service).
Proof.
  cbv zeta. split_and!; [vm_compute; eauto|vm_compute; eauto|vm_compute; reflexivity|].
  apply (live_cells_are_out_of_reach demo_id demo_json demo_write demo_debug demo_moments).
  repeat constructor; exact demo_canonical.
Defined.

(** The rules look at the sessions that are registered. A start that failed after its
    process was up, and whose process could not be closed, holds its directories still, and
    the next start is given the same ones. *)
Example unreaped_start_does_not_hold_its_directories :
  let service := foldl demo_happens (mkService ∅ [])
    [Start (demo_answers 1 (FailedAlive daemon_lost)) (demo_request "/roots/a" "/work" Minified (demo_config "x"));
     Start (demo_answers 2 Registered) (demo_request "/roots/a" "/work" Minified (demo_config "y"))] in
  exists pending claim,
    sv_pending_startup_cleanup service = [pending] /\ sv_sessions service !! 2 = Some claim /\ pending = claim.
Proof. do 2 eexists. vm_compute. eauto. Qed.

(** A working directory whose name speaks of the executable is reported as a missing
    executable. *)
Example missing_cwd_is_reported_as_missing_claude :
  map_launch_error (match canonical_absolute "/tmp/Claude executable" "cwd" Directory with Ok _ => [] | Err e => e end)
  = ErrorBody_new ClaudeNotFound "cwd is unavailable: /tmp/Claude executable".
Proof. vm_compute. reflexivity. Qed.

(** ** Seeding *)

Definition demo_seed : ConfigRootSeed := mkSeed "/roots/a" "/work" false.

(** A root that knows another project and a variable. *)
Definition old_global : Map := [("projects", JObj [("/other", JObj [("hasTrustDialogAccepted", JBool false)])])].
Definition old_settings : Map := [("env", JObj [("EDITOR", JStr "vi")])].
Definition seeded_global : Map :=
  match global_config_document demo_seed old_global with Ok document => document | Err _ => [] end.
Definition seeded_settings : Map :=
  match user_settings_document demo_seed old_settings with Ok document => document | Err _ => [] end.

(** A serialiser that knows these documents. *)
Definition demo_pretty (j : json) : list N :=
  if json_eqb j (JObj seeded_global) then [123; 1; 125] else if json_eqb j (JObj seeded_settings) then [123; 2; 125] else [].
Definition demo_parse (contents : list N) : result json string :=
  match contents with
  | [123; 1; 125] => Ok (JObj seeded_global)
  | [123; 2; 125] => Ok (JObj seeded_settings)
  | [123; 3; 125] => Ok (JObj old_global)
  | [123; 4; 125] => Ok (JObj old_settings)
  | _ => Err "unexpected"
  end.
Definition demo_store : gmap string Entry :=
  {["/roots/a/.claude.json" := PlainFile [123; 3; 125]; "/roots/a/settings.json" := PlainFile [123; 4; 125]]}.

Definition demo_seeding := seed_private_config_root demo_parse demo_pretty (fun _ => Published) demo_seed SeedWrite demo_store.


End LaunchDemo.
