(* ===== verification/Retention.v ===== *)
(** * What the daemon keeps: evidence and its log

    [crates/service/src/pool/evidence.rs]: the redacted mirrors of transcripts a torn-down
    instance leaves behind, and their size budget. [bin/pmuxd/src/bounded_log.rs]: the log
    with a ceiling. serde_json is a parameter, and so is how each read, write and removal
    goes. *)

From S2P Require Import Prelude Text Protocol Composer Screen.

#[local] Open Scope string_scope.
#[local] Open Scope N_scope.

(** ** Evidence *)

Definition RETAINED_ROW_FIELDS : list string :=
  ["entrypoint"; "isMeta"; "isSidechain"; "promptId"; "subtype"; "timestamp"; "type"; "version"].
Definition MAX_EVIDENCE_BYTES : N := 64 * 1024 * 1024.
Definition UNPROMOTED_MARKER : string := "pmux-unpromoted.json".

Record Retained := mkRetained { rt_files : N; rt_rows : N; rt_pruned : N }.

(** [str::lines]: a final newline ends the last line, and a carriage return before a newline
    goes with it. *)
Definition strip_cr (line : list N) : list N := match reverse line with 13 :: rest => reverse rest | _ => line end.
Definition str_lines (text : list N) : list (list N) :=
  let segments := split_lines text in
  match reverse segments with
  | [] :: before => strip_cr <$> reverse before
  | last :: before => ((strip_cr <$> reverse before) ++ [last])%list
  | [] => []
  end.

Definition trim (text : list N) : list N := trim_end_matches is_whitespace (trim_start_matches is_whitespace text).

Section Evidence.
Context (from_str : list N -> option json) (to_string : json -> option (list N)).

Definition kept_fields (row : list (string * json)) : list (string * json) :=
  foldl (fun kept field => match obj_get field row with Some value => obj_insert field value kept | None => kept end) [] RETAINED_ROW_FIELDS.

Definition retained_row (line : list N) : option (list N) :=
  value ← from_str line;
  row ← as_object value;
  match kept_fields row with
  | [] => None
  | kept => to_string (JObj kept)
  end.

(** The mirror of one transcript, and its rows. *)
Definition mirror (text : list N) : list N * N :=
  foldl (fun '(mirrored, rows) line =>
    match retained_row (trim line) with
    | Some kept => ((mirrored ++ kept ++ [NEWLINE])%list, rows + 1)
    | None => (mirrored, rows)
    end) ([], 0) (str_lines text).

(** *** The directory *)

Record Kept := mkKept { kp_modified : N; kp_contents : list N }.
Definition kp_len (k : Kept) : N := N.of_nat (length (kp_contents k)).

(** A directory of regular files, by name. *)
Abbreviation Evidence := (gmap string Kept).

(** The order of [(modified, length, path)]. *)
Definition older (a b : N * N * string) : Prop :=
  let '(ma, la, pa) := a in
  let '(mb, lb, pb) := b in
  ma < mb \/ ma = mb /\ (la < lb \/ la = lb /\ match str_compare pa pb with Gt => False | _ => True end).

#[global] Instance older_dec : RelDecision older.
Proof.
  intros [[ma la] pa] [[mb lb] pb]. unfold older.
  assert (Decision (match str_compare pa pb with Gt => False | _ => True end)) by (destruct (str_compare pa pb); apply _). apply _.
Defined.

(** [removed]: whether deleting a file succeeds. *)
Definition prune_loop (removed : string -> bool) (budget : N) :=
  fix go (files : list (N * N * string)) (total pruned : N) (dir : Evidence) : N * Evidence :=
    match files with
    | [] => (pruned, dir)
    | (_, length, name) :: files' =>
        if total <=? budget then (pruned, dir)
        else if removed name then go files' (total - length) (pruned + 1) (delete name dir)
        else go files' total pruned dir
    end.

Definition prunable (dir : Evidence) : list (N * N * string) :=
  (fun '(name, k) => (kp_modified k, kp_len k, name)) <$> map_to_list (delete UNPROMOTED_MARKER dir).

Definition total_len (files : list (N * N * string)) : N := foldl (fun total '(_, length, _) => saturating_add U64_MAX total length) 0 files.

Definition prune (removed : string -> bool) (budget : N) (dir : Evidence) : N * Evidence :=
  prune_loop removed budget (merge_sort older (prunable dir)) (total_len (prunable dir)) 0 dir.

(** How writing a mirror goes: at an instant; a failure can leave a part of it. *)
Inductive MirrorWrite := MirrorWritten (modified : N) | MirrorFailed (left : option (N * nat)).

(** A transcript as it is found: its name, what reading it gives, and how its mirror is
    written. *)
Record Source := mkSource { sc_name : option string; sc_text : option (list N); sc_write : MirrorWrite }.

Definition retain_one (state : Retained * Evidence) (source : Source) : Retained * Evidence :=
  let '(retained, dir) := state in
  match sc_text source with
  | None => state
  | Some text =>
      let '(mirrored, rows) := mirror text in
      if rows =? 0 then state
      else match sc_name source with
      | None => state
      | Some name =>
          match sc_write source with
          | MirrorWritten modified =>
              (mkRetained (rt_files retained + 1) (rt_rows retained + rows) (rt_pruned retained), <[name := mkKept modified mirrored]> dir)
          | MirrorFailed (Some (modified, n)) => (retained, <[name := mkKept modified (take n mirrored)]> dir)
          | MirrorFailed None => state
          end
      end
  end.

(** [created]: whether the directory is there or could be made. *)
Definition retain_instance_transcripts (created : bool) (removed : string -> bool) (sources : list Source) (dir : Evidence) :
    option Retained * Evidence :=
  match sources with
  | [] => (Some (mkRetained 0 0 0), dir)
  | _ =>
      if negb created then (None, dir)
      else
        let '(retained, dir) := foldl retain_one (mkRetained 0 0 0, dir) sources in
        let '(pruned, dir) := prune removed MAX_EVIDENCE_BYTES dir in
        (Some (mkRetained (rt_files retained) (rt_rows retained) pruned), dir)
  end.

(** ** What the mirrors say *)

(** The fields of the allowlist, and no other. *)
Lemma kept_fields_get row k : obj_get k (kept_fields row) = if bool_decide (k ∈ RETAINED_ROW_FIELDS) then obj_get k row else None.
Proof.
  unfold kept_fields. assert (forall fields acc,
    obj_get k (foldl (fun kept field => match obj_get field row with Some value => obj_insert field value kept | None => kept end) acc fields)
    = if bool_decide (k ∈ fields) then match obj_get k row with Some v => Some v | None => obj_get k acc end else obj_get k acc) as H.
  { induction fields as [|field fields IH]; intros acc; [done|]. simpl. rewrite IH. clear IH.
    destruct (decide (k = field)) as [->|Hne].
    - rewrite (bool_decide_eq_true_2 (field ∈ field :: fields)) by set_solver.
      destruct (obj_get field row) eqn:E; [rewrite obj_get_insert, (bool_decide_eq_true_2 (field = field)) by done|]; by case_bool_decide.
    - rewrite (bool_decide_ext (k ∈ field :: fields) (k ∈ fields)) by set_solver.
      destruct (obj_get field row); [rewrite obj_get_insert, (bool_decide_eq_false_2 (k = field)) by done|]; done. }
  rewrite H. simpl. by destruct (obj_get k row).
Qed.

(** Two rows a reader of the allowlisted fields cannot tell apart. *)
Definition agree_on_fields (a b : option json) : Prop :=
  match a, b with
  | Some (JObj row), Some (JObj row') => forall k, k ∈ RETAINED_ROW_FIELDS -> obj_get k row = obj_get k row'
  | Some (JObj _), _ | _, Some (JObj _) => False
  | _, _ => True
  end.

Lemma kept_fields_agree row row' : (forall k, k ∈ RETAINED_ROW_FIELDS -> obj_get k row = obj_get k row') -> kept_fields row = kept_fields row'.
Proof.
  intros H. unfold kept_fields. generalize (@nil (string * json)). revert H. generalize RETAINED_ROW_FIELDS.
  induction l as [|field fields IH]; intros H acc; [done|]. simpl. rewrite (H field) by set_solver. apply IH. set_solver.
Qed.

Lemma retained_row_agree line line' : agree_on_fields (from_str line) (from_str line') -> retained_row line = retained_row line'.
Proof.
  unfold retained_row. destruct (from_str line) as [[]|], (from_str line') as [[]|]; simpl; try done.
  intros H. by rewrite (kept_fields_agree _ _ H).
Qed.

(** Two transcripts whose rows agree line by line. *)
Definition same_measurements (text text' : list N) : Prop :=
  Forall2 (fun line line' => agree_on_fields (from_str (trim line)) (from_str (trim line'))) (str_lines text) (str_lines text').

Lemma mirror_agree text text' : same_measurements text text' -> mirror text = mirror text'.
Proof.
  unfold same_measurements, mirror. intros H. generalize (@nil N, 0). induction H as [|line line' l l' H _ IH]; intros [mirrored rows]; [done|].
  cbn [foldl]. rewrite (retained_row_agree _ _ H). apply IH.
Qed.

Definition same_source (a b : Source) : Prop :=
  sc_name a = sc_name b /\ sc_write a = sc_write b
  /\ match sc_text a, sc_text b with Some text, Some text' => same_measurements text text' | None, None => True | _, _ => False end.

Lemma retain_one_agree state a b : same_source a b -> retain_one state a = retain_one state b.
Proof.
  intros (Hn & Hw & Ht). unfold retain_one. destruct state as [retained dir]. rewrite Hn, Hw.
  destruct (sc_text a) as [text|], (sc_text b) as [text'|]; try done. by rewrite (mirror_agree _ _ Ht).
Qed.

(** *** The budget *)

Definition sum_len (files : list (N * N * string)) : N := foldr (fun '(_, length, _) total => length + total) 0 files.

#[global] Instance sum_len_proper : Proper ((≡ₚ) ==> (=)) sum_len.
Proof. intros l l' H. unfold sum_len. induction H as [|[[? ?] ?] ? ? ? IH|[[? ?] ?] [[? ?] ?]|]; simpl in *; lia. Qed.

Lemma total_len_sum files : sum_len files <= U64_MAX -> total_len files = sum_len files.
Proof.
  unfold total_len. assert (forall acc, acc + sum_len files <= U64_MAX ->
    foldl (fun total '(_, length, _) => saturating_add U64_MAX total length) acc files = acc + sum_len files) as H.
  { induction files as [|[[m l] name] files IH]; intros acc Hs; simpl in *; [lia|].
    rewrite saturating_add_small by lia. rewrite IH by lia. lia. }
  intros Hs. rewrite H by lia. lia.
Qed.

Lemma prunable_elem dir m l name : (m, l, name) ∈ prunable dir -> name <> UNPROMOTED_MARKER /\ exists k, dir !! name = Some k /\ (m, l) = (kp_modified k, kp_len k).
Proof.
  unfold prunable. intros ([name' k] & [= -> -> ->] & [? ?]%elem_of_map_to_list%lookup_delete_Some)%list_elem_of_fmap. eauto.
Qed.

Lemma prunable_delete dir name k : name <> UNPROMOTED_MARKER -> dir !! name = Some k ->
  prunable dir ≡ₚ (kp_modified k, kp_len k, name) :: prunable (delete name dir).
Proof.
  intros Hne Hk. unfold prunable. rewrite (delete_delete dir).
  rewrite <-(map_to_list_delete (delete UNPROMOTED_MARKER dir) name k) by (by rewrite lookup_delete_ne). done.
Qed.

(** Deleting oldest first, until the budget is kept and no further. *)
Lemma prune_loop_spec budget files : forall dir pruned, files ≡ₚ prunable dir ->
  let '(pruned', dir') := prune_loop (fun _ => true) budget files (sum_len (prunable dir)) pruned dir in
  exists n, (n <= length files)%nat /\ pruned' = pruned + N.of_nat n /\ prunable dir' ≡ₚ drop n files
    /\ sum_len (drop n files) <= budget /\ (n <> 0%nat -> budget < sum_len (drop (n - 1) files))
    /\ dir' !! UNPROMOTED_MARKER = dir !! UNPROMOTED_MARKER.
Proof.
  induction files as [|[[m l] name] files IH]; intros dir pruned Hp; simpl.
  - exists 0%nat. rewrite <-Hp. simpl. split_and!; try done; lia.
  - destruct (N.leb_spec (sum_len (prunable dir)) budget) as [Hle|Hgt].
    + exists 0%nat. rewrite drop_0. rewrite <-Hp in Hle. simpl. split_and!; try done; lia.
    + destruct (prunable_elem dir m l name) as (Hne & k & Hk & [= -> ->]). { rewrite <-Hp. set_solver. }
      pose proof (prunable_delete dir name k Hne Hk) as Hd. rewrite Hd in Hp. apply Permutation_cons_inv in Hp.
      replace (sum_len (prunable dir) - kp_len k) with (sum_len (prunable (delete name dir))) by (rewrite Hd; simpl; lia).
      specialize (IH (delete name dir) (pruned + 1) Hp).
      destruct (prune_loop _ _ _ _ _ _) as [pruned' dir']. destruct IH as (n & Hn & -> & Hd' & Hb & Hm & Hk').
      exists (S n). cbn [length drop]. split_and!; try done; [lia|lia| |].
      * intros _. replace (S n - 1)%nat with n by lia. destruct n as [|n].
        -- rewrite Hd in Hgt. by rewrite <-Hp in Hgt.
        -- replace n with (S n - 1)%nat by lia. by apply Hm.
      * rewrite Hk'. by rewrite lookup_delete_ne.
Qed.

Lemma prune_loop_ext removed removed' budget files total pruned dir :
  (forall name, removed name = removed' name) -> prune_loop removed budget files total pruned dir = prune_loop removed' budget files total pruned dir.
Proof.
  intros H. revert total pruned dir. induction files as [|[[m l] name] files IH]; intros total pruned dir; simpl; [done|].
  rewrite H. destruct (_ <=? _); [done|]. destruct (removed' name); apply IH.
Qed.

Lemma prune_marker removed budget dir : snd (prune removed budget dir) !! UNPROMOTED_MARKER = dir !! UNPROMOTED_MARKER.
Proof.
  unfold prune. assert (Forall (fun '(_, _, name) => name <> UNPROMOTED_MARKER) (merge_sort older (prunable dir))) as H.
  { rewrite merge_sort_Permutation. apply Forall_forall. intros [[m l] name] Hin. by apply prunable_elem in Hin as [? _]. }
  revert H. generalize (total_len (prunable dir)) 0. generalize (merge_sort older (prunable dir)). intros files.
  revert dir. induction files as [|[[m l] name] files IH]; intros dir total pruned H; simpl; [done|].
  apply Forall_cons in H as [Hne H]. destruct (_ <=? _); [done|]. destruct (removed name); rewrite IH by done; [|done]. by rewrite lookup_delete_ne.
Qed.

(** What the mirrors of an instance come to, before the pruning. *)
Definition mirrored (sources : list Source) (dir : Evidence) : Evidence := snd (foldl retain_one (mkRetained 0 0 0, dir) sources).

Lemma mirrored_marker sources dir : (forall source, source ∈ sources -> sc_name source <> Some UNPROMOTED_MARKER) ->
  mirrored sources dir !! UNPROMOTED_MARKER = dir !! UNPROMOTED_MARKER.
Proof.
  unfold mirrored. generalize (mkRetained 0 0 0). revert dir. induction sources as [|source sources IH]; intros dir retained H; [done|].
  cbn [foldl]. destruct (retain_one (retained, dir) source) as [retained' dir'] eqn:E. rewrite IH by set_solver.
  assert (sc_name source <> Some UNPROMOTED_MARKER) as Hne by (apply H; set_solver). unfold retain_one in E.
  repeat case_match; simplify_eq; try done; rewrite lookup_insert_ne by congruence; done.
Qed.

(** C36. The evidence a torn-down instance leaves says nothing but the eight allowlisted
    fields: transcripts that agree on those, row by row, leave the same evidence, whatever
    else is in them. The mark of an unpromoted daemon survives, in whatever order and however
    deletions fail; and when they succeed the mirrors keep to their budget, the oldest went
    first, and no more than needed. *)
Theorem evidence_is_redacted_and_bounded created removed sources sources' dir :
  Forall2 same_source sources sources' ->
  retain_instance_transcripts created removed sources dir = retain_instance_transcripts created removed sources' dir
  /\ ((forall source, source ∈ sources -> sc_name source <> Some UNPROMOTED_MARKER) ->
      snd (retain_instance_transcripts created removed sources dir) !! UNPROMOTED_MARKER = dir !! UNPROMOTED_MARKER)
  /\ (sources <> [] -> created = true -> (forall name, removed name = true) -> sum_len (prunable (mirrored sources dir)) <= U64_MAX ->
      let files := merge_sort older (prunable (mirrored sources dir)) in
      exists n, prunable (snd (retain_instance_transcripts created removed sources dir)) ≡ₚ drop n files
        /\ sum_len (drop n files) <= MAX_EVIDENCE_BYTES /\ (n <> 0%nat -> MAX_EVIDENCE_BYTES < sum_len (drop (n - 1) files))).
Proof.
  intros H. split_and!.
  - assert (forall state, foldl retain_one state sources = foldl retain_one state sources') as Hf.
    { induction H as [|a b l l' Hab _ IH]; intros state; simpl; [done|]. by rewrite (retain_one_agree _ _ _ Hab). }
    unfold retain_instance_transcripts. rewrite Hf. by destruct H.
  - intros Hn. unfold retain_instance_transcripts. destruct sources as [|s l] eqn:Es; [done|]. rewrite <-Es in *.
    destruct created; simpl; [|done]. pose proof (mirrored_marker sources dir Hn) as Hm. unfold mirrored in Hm.
    destruct (foldl retain_one _ sources) as [retained dir1]. simpl in Hm. pose proof (prune_marker removed MAX_EVIDENCE_BYTES dir1) as Hp.
    destruct (prune removed MAX_EVIDENCE_BYTES dir1) as [pruned dir2]. simpl in *. congruence.
  - intros Hne -> Hr Hs files. unfold retain_instance_transcripts, files, mirrored in *. destruct sources as [|s l] eqn:Es; [done|]. rewrite <-Es in *. simpl negb. cbn iota.
    destruct (foldl retain_one _ sources) as [retained dir1]. simpl in *. unfold prune. rewrite total_len_sum by done.
    rewrite (prune_loop_ext removed (fun _ => true)) by done.
    pose proof (prune_loop_spec MAX_EVIDENCE_BYTES (merge_sort older (prunable dir1)) dir1 0 (merge_sort_Permutation _ _)) as Hp.
    destruct (prune_loop _ _ _ _ _ _) as [pruned dir2]. destruct Hp as (n & _ & _ & H1 & H2 & H3 & _). exists n. by split_and!.
Qed.

End Evidence.


(** ** The bounded log *)

Definition CAPACITY_RECORD : list N :=
  (123 :: 34 :: bytes "event" ++ 34 :: 58 :: 34 :: bytes "log_capacity_reached" ++ [34; 125; 10])%list.
Definition RECORD_LEN : N := N.of_nat (length CAPACITY_RECORD).

(** The three entries of the log directory. *)
Record LogDirectory := mkLogDirectory { ld_current : option (list N); ld_backup : option (list N); ld_full : bool }.

Record BoundedLogWriter := mkLog {
  lw_directory : LogDirectory;
  lw_written : N;
  lw_maximum_bytes : N;
  lw_capped : bool;
}.

Definition lw_file (w : BoundedLogWriter) : list N := default [] (ld_current (lw_directory w)).

(** [BoundedLogWriter::open], on a directory whose entries are regular files that can be
    moved and removed. *)
Definition open_log (directory : LogDirectory) (maximum_bytes : N) : result BoundedLogWriter string :=
  if maximum_bytes <=? RECORD_LEN then Err "pmuxd log capacity cannot fit its terminal record"
  else
    let current_bytes := N.of_nat (length (default [] (ld_current directory))) in
    let directory :=
      if ld_full directory || (maximum_bytes <=? current_bytes)
      then mkLogDirectory None (take (N.to_nat maximum_bytes) <$> ld_current directory) false
      else directory in
    let file := default [] (ld_current directory) in
    Ok (mkLog (mkLogDirectory (Some file) (ld_backup directory) (ld_full directory)) (N.of_nat (length file)) maximum_bytes false).

(** How the writes of one event go: a failed [write_all] can leave a part. *)
Record LogAnswers := mkLogAnswers {
  la_event : option nat;
  la_record : option nat;
  la_flush : bool;
  la_create : bool;
  la_marker : bool;
}.

Definition append_file (failed : option nat) (bytes : list N) (w : BoundedLogWriter) : bool * BoundedLogWriter :=
  let file := (lw_file w ++ match failed with None => bytes | Some n => take n bytes end)%list in
  (match failed with None => true | Some _ => false end,
   mkLog (mkLogDirectory (Some file) (ld_backup (lw_directory w)) (ld_full (lw_directory w))) (lw_written w) (lw_maximum_bytes w) (lw_capped w)).

Definition count_written (n : N) (w : BoundedLogWriter) : BoundedLogWriter :=
  mkLog (lw_directory w) (lw_written w + n) (lw_maximum_bytes w) (lw_capped w).

Definition mark_capped (answers : LogAnswers) (w : BoundedLogWriter) : bool * BoundedLogWriter :=
  if lw_capped w then (true, w)
  else
    match append_file (la_record answers) CAPACITY_RECORD w with
    | (false, w) => (false, w)
    | (true, w) =>
        let w := count_written RECORD_LEN w in
        if negb (la_flush answers) then (false, w)
        else if ld_full (lw_directory w) || negb (la_create answers) then (false, w)
        else
          let directory := mkLogDirectory (ld_current (lw_directory w)) (ld_backup (lw_directory w)) true in
          let w := mkLog directory (lw_written w) (lw_maximum_bytes w) (lw_capped w) in
          if negb (la_marker answers) then (false, w)
          else (true, mkLog directory (lw_written w) (lw_maximum_bytes w) true)
    end.

(** One event: whether the write succeeds. *)
Definition log_write (answers : LogAnswers) (event : list N) (w : BoundedLogWriter) : bool * BoundedLogWriter :=
  if lw_capped w then (true, w)
  else
    let payload_limit := lw_maximum_bytes w - RECORD_LEN in
    let incoming := N.of_nat (length event) in
    if match checked_add U64_MAX (lw_written w) incoming with Some total => total <=? payload_limit | None => false end
    then match append_file (la_event answers) event w with
         | (true, w) => (true, count_written incoming w)
         | (false, w) => (false, w)
         end
    else mark_capped answers w.

Definition all_well : LogAnswers := mkLogAnswers None None true true true.

Definition log_events (events : list (list N)) (w : BoundedLogWriter) : BoundedLogWriter :=
  foldl (fun w event => snd (log_write all_well event w)) w events.

(** *** The ceiling *)

(** The log is as it was opened, and then the events that came before the ceiling, and then
    the record. *)
Definition log_is (start : list N) (events : list (list N)) (maximum : N) (w : BoundedLogWriter) : Prop :=
  lw_maximum_bytes w = maximum /\ lw_written w = N.of_nat (length (lw_file w)) /\ N.of_nat (length (lw_file w)) <= maximum
  /\ ld_full (lw_directory w) = lw_capped w
  /\ if lw_capped w
     then exists kept event rest, events = (kept ++ event :: rest)%list
          /\ lw_file w = (start ++ concat kept ++ CAPACITY_RECORD)%list
          /\ maximum - RECORD_LEN < N.of_nat (length (start ++ concat kept ++ event)%list)
     else lw_file w = (start ++ concat events)%list /\ N.of_nat (length (lw_file w)) <= maximum - RECORD_LEN.

Lemma mark_capped_well w : lw_capped w = false -> ld_full (lw_directory w) = false ->
  snd (mark_capped all_well w)
  = mkLog (mkLogDirectory (Some (lw_file w ++ CAPACITY_RECORD)%list) (ld_backup (lw_directory w)) true) (lw_written w + RECORD_LEN) (lw_maximum_bytes w) true.
Proof. intros Hc Hf. unfold mark_capped. rewrite Hc. simpl. by rewrite Hf. Qed.

Lemma log_write_is start events maximum event w :
  RECORD_LEN < maximum -> maximum <= U64_MAX ->
  log_is start events maximum w -> log_is start (events ++ [event]) maximum (snd (log_write all_well event w)).
Proof.
  intros Hmax Hu (Hm & Hw & Hle & Hf & H). unfold log_write. destruct (lw_capped w) eqn:Ec.
  { destruct H as (kept & e & rest & -> & H). unfold log_is. cbn [snd]. rewrite Ec. split_and!; try done.
    exists kept, e, (rest ++ [event])%list. by rewrite <-app_assoc. }
  destruct H as [H Hlim]. rewrite Hm, Hw. unfold checked_add.
  assert (forall b : bool, b = (N.of_nat (length (lw_file w)) + N.of_nat (length event) <=? maximum - RECORD_LEN) ->
    log_is start (events ++ [event]) maximum
      (snd (if b then match append_file (la_event all_well) event w with
                      | (true, w) => (true, count_written (N.of_nat (length event)) w) | (false, w) => (false, w) end
            else mark_capped all_well w))) as Hb.
  { intros [] Hfit%eq_sym.
    - apply N.leb_le in Hfit. assert (lw_file w ++ event = start ++ concat (events ++ [event]))%list as He.
      { rewrite H, concat_app. simpl. by rewrite app_nil_r, <-app_assoc. }
      cbn [append_file all_well la_event snd]. set (w' := count_written _ _).
      assert (lw_file w' = lw_file w ++ event)%list as Hf' by done. assert (lw_written w' = lw_written w + N.of_nat (length event)) as Hw' by done.
      unfold log_is. rewrite Hf', Hw', length_app. change (lw_capped w') with (lw_capped w). change (ld_full (lw_directory w')) with (ld_full (lw_directory w)).
      rewrite Ec. split_and!; try done; lia.
    - apply N.leb_gt in Hfit. rewrite mark_capped_well by done. set (w' := mkLog _ _ _ _).
      assert (lw_file w' = lw_file w ++ CAPACITY_RECORD)%list as Hf' by done. assert (lw_written w' = lw_written w + RECORD_LEN) as Hw' by done.
      unfold log_is. rewrite Hf', Hw', length_app. unfold RECORD_LEN in *. cbn [w' lw_capped]. split_and!; try done; [lia|lia|].
      exists events, event, []. split; [done|]. split; [by rewrite H, <-app_assoc|].
      rewrite app_assoc, <-H, length_app. lia. }
  apply Hb. destruct (N.leb_spec (N.of_nat (length (lw_file w)) + N.of_nat (length event)) U64_MAX) as [Ho|Ho]; [done|].
  symmetry. apply N.leb_gt. lia.
Qed.

(** C37. A log that is opened with room for its last record never grows past its ceiling while
    its writes succeed: it holds what it was opened with, then every event, whole and in
    order, up to the first that does not fit, then the record of that, once, and nothing
    after it; and the marker that makes the next start rotate is there exactly then. What a
    start rotates away is kept, cut to the ceiling. *)
Theorem log_keeps_its_ceiling directory maximum events w :
  maximum <= U64_MAX -> open_log directory maximum = Ok w ->
  N.of_nat (length (lw_file w)) + RECORD_LEN <= maximum ->
  log_is (lw_file w) events maximum (log_events events w)
  /\ (if ld_full directory || (maximum <=? N.of_nat (length (default [] (ld_current directory))))
      then lw_file w = [] /\ ld_backup (lw_directory w) = take (N.to_nat maximum) <$> ld_current directory
      else lw_file w = default [] (ld_current directory) /\ ld_backup (lw_directory w) = ld_backup directory).
Proof.
  intros Hu Ho Hroom. unfold open_log in Ho. destruct (N.leb_spec maximum RECORD_LEN) as [|Hmax]; [done|].
  injection Ho as <-. split.
  - unfold log_events. induction events as [|event events IH] using rev_ind.
    + unfold log_is. simpl in *. rewrite app_nil_r. unfold lw_file in *. simpl in *. split_and!; try done; try lia.
      destruct (ld_full directory) eqn:E; [done|]. simpl. by destruct (_ <=? _).
    + rewrite foldl_app. simpl. by apply log_write_is.
  - simpl. unfold lw_file. simpl. by destruct (_ || _).
Qed.

(** ** Examples *)

Module RetentionDemo.

(** Two rows that differ in what was said. *)
Definition demo_from_str (line : list N) : option json :=
  match line with
  | [49] => Some (jobj [("type", JStr "assistant"); ("version", JStr "2.1.280"); ("message", JStr "one answer")])
  | [50] => Some (jobj [("type", JStr "assistant"); ("version", JStr "2.1.280"); ("message", JStr "another")])
  | _ => None
  end.
Definition demo_to_string (j : json) : option (list N) := match json_get "type" j with Some (JStr s) => Some (bytes s) | _ => None end.

Definition demo_source (text : list N) : Source := mkSource (Some "7.jsonl") (Some text) (MirrorWritten 5).
Definition demo_dir : gmap string Kept := {[UNPROMOTED_MARKER := mkKept 1 [123; 125]]}.

Lemma evidence_is_redacted_and_bounded_witness :
  retain_instance_transcripts demo_from_str demo_to_string true (fun _ => true) [demo_source [49; 10; 49]] demo_dir
  = retain_instance_transcripts demo_from_str demo_to_string true (fun _ => true) [demo_source [49; 10; 50]] demo_dir
  /\ snd (retain_instance_transcripts demo_from_str demo_to_string true (fun _ => true) [demo_source [49; 10; 49]] demo_dir) !! "7.jsonl"
     = Some (mkKept 5 (bytes "assistant" ++ [10] ++ bytes "assistant" ++ [10])%list).
Proof.
  split; [|vm_compute; reflexivity].
  apply (evidence_is_redacted_and_bounded demo_from_str demo_to_string true (fun _ => true) [demo_source [49; 10; 49]] [demo_source [49; 10; 50]] demo_dir).
  constructor; [|constructor]. split; [reflexivity|]. split; [reflexivity|].
  repeat constructor; intros k Hk; unfold RETAINED_ROW_FIELDS in Hk; repeat (apply elem_of_cons in Hk as [->|Hk]; [reflexivity|]); inversion Hk.
Defined.

Definition demo_log : LogDirectory := mkLogDirectory (Some (repeat 97 40)) None false.

Lemma log_keeps_its_ceiling_witness :
  log_is (repeat 97 40) [repeat 98 20; repeat 99 20; repeat 100 2] 100
    (log_events [repeat 98 20; repeat 99 20; repeat 100 2] (mkLog demo_log 40 100 false)).
Proof. apply (log_keeps_its_ceiling demo_log 100 [repeat 98 20; repeat 99 20; repeat 100 2] (mkLog demo_log 40 100 false)); [done|reflexivity|done]. Defined.

(** A log found within the length of the record of its ceiling, and not marked full, is opened
    as it is, and the record goes over the ceiling. *)
Example near_full_log_exceeds_its_ceiling :
  match open_log (mkLogDirectory (Some (repeat 97 90)) None false) 100 with
  | Ok w => length (lw_file (log_events [repeat 98 20] w)) = 123%nat
  | Err _ => False
  end.
Proof. vm_compute. reflexivity. Qed.

(** When the marker cannot be created the log is not capped, and every further event that does
    not fit appends the record again. *)
Example failed_marker_repeats_the_record :
  let no_marker := mkLogAnswers None None true false true in
  let write w := snd (log_write no_marker (repeat 98 80) w) in
  match open_log (mkLogDirectory None None false) 100 with
  | Ok w => length (lw_file (write (write (write (write w))))) = 132%nat
  | Err _ => False
  end.
Proof. vm_compute. reflexivity. Qed.

(** A write that fails half way is not counted. *)
Example partial_write_is_not_counted :
  let partial := mkLogAnswers (Some 60%nat) None true true true in
  match open_log (mkLogDirectory None None false) 100 with
  | Ok w => length (lw_file (snd (log_write all_well (repeat 98 60) (snd (log_write partial (repeat 98 67) w))))) = 120%nat
  | Err _ => False
  end.
Proof. vm_compute. reflexivity. Qed.

End RetentionDemo.
