(* ===== verification/Compat.v ===== *)
(** * Compatibility profiles

    [crates/service/src/compatibility.rs]: versions and ranges of Claude Code, the profiles a
    release ships and the ones an operator measured, and which cell a launch is admitted as.
    The platform of the build is a parameter ([os], [arch]). *)

From S2P Require Import Prelude Text Protocol Messages Composer Parser Session Screen Actor Registry Refusal LaunchEnv Launch LaunchWitnesses.

#[local] Open Scope string_scope.
#[local] Open Scope N_scope.

Definition DEFAULT_UNTESTED_TRANSCRIPT_DRAIN_MS : N := 2000.
Definition MAX_TRANSCRIPT_DRAIN_MS : N := 60000.

(** ** Versions *)

Record ClaudeVersion := mkVersion { v_major : N; v_minor : N; v_patch : N }.

#[global] Instance ClaudeVersion_eq_dec : EqDecision ClaudeVersion.
Proof. solve_decision. Defined.

(** The derived order: by field. *)
Definition version_compare (a b : ClaudeVersion) : comparison :=
  then_compare (v_major a ?= v_major b) (then_compare (v_minor a ?= v_minor b) (v_patch a ?= v_patch b)).
Definition version_leb (a b : ClaudeVersion) : bool := match version_compare a b with Gt => false | _ => true end.

(** [str::trim] leaves the value as it is. *)
Definition is_trimmed (value : string) : bool :=
  bool_decide (trim_end_matches is_whitespace (trim_start_matches is_whitespace (chars value)) = chars value).

Definition DOT : N := 46.
Fixpoint split_dot (acc s : string) : list string :=
  match s with
  | EmptyString => [acc]
  | String c s' =>
      if Ascii.N_of_ascii c =? DOT then acc :: split_dot EmptyString s'
      else split_dot (acc +:+ String c EmptyString) s'
  end.

Definition component (value : string) : option N :=
  if negb (bool_decide (value = EmptyString)) && forallb is_ascii_digit (chars value)
  then parse_u64_digits (chars value) else None.

Definition parse (value : string) : result ClaudeVersion Anyhow :=
  if bool_decide (value = EmptyString) || negb (is_trimmed value)
  then bail "tested Claude profile version must be a non-empty normalized value"
  else
    ok_or (match split_dot EmptyString value with
           | [major; minor; patch] =>
               major ← component major; minor ← component minor; patch ← component patch; Some (mkVersion major minor patch)
           | _ => None
           end) ["tested Claude profile version must be exact normalized major.minor.patch"].

Definition same_line (a b : ClaudeVersion) : bool := (v_major a =? v_major b) && (v_minor a =? v_minor b).

Definition version_text (v : ClaudeVersion) : string := pretty (v_major v) +:+ "." +:+ pretty (v_minor v) +:+ "." +:+ pretty (v_patch v).

Record VersionRange := mkRange { vr_floor : ClaudeVersion; vr_tested_through : ClaudeVersion }.

(** ** What retracts a range *)

Inductive RepromotionTrigger :=
| UnclassifiedTranscriptRowKind
| ReachableArrivalAboveTheBound
| LaunchBundleRejected
| ClearScreenOrPreambleMismatch
| MajorOrMinorVersionChange.

Record TriggerDetector := mkDetector { td_id : string; td_file : string; td_symbol : string; td_how : string }.

Definition detector (t : RepromotionTrigger) : TriggerDetector :=
  match t with
  | UnclassifiedTranscriptRowKind =>
      mkDetector "unclassified_transcript_row_kind" "tools/promotion/measure_transcript_drain.py" "TRIGGER_UNCLASSIFIED_ROW_KIND"
        "re-run measure_transcript_drain.py; exit 2 names a post-answer row kind absent from ROW_KINDS and exit 3 names a `retrospective` kind stamped after the terminal candidate. Classify it with a reason, then re-measure."
  | ReachableArrivalAboveTheBound =>
      mkDetector "reachable_arrival_above_the_bound" "tools/promotion/measure_transcript_drain.py" "TRIGGER_ARRIVAL_ABOVE_THE_BOUND"
        "re-run measure_transcript_drain.py --bound-ms with the drain this profile ships; exit 4 means an arrival exceeded it and exit 5 means there was nothing to check, which is not the same as passing."
  | LaunchBundleRejected =>
      mkDetector "launch_bundle_rejected" "crates/service/src/native.rs" "LAUNCH_BUNDLE_REJECTED_MARKER"
        "the child named an option it does not know and exited before running. The startup refusal's `screen_shape.child_rejected_a_launch_flag` is true. Read claude_launch.rs and sensitive_launch.rs against `claude --help`."
  | ClearScreenOrPreambleMismatch =>
      mkDetector clear_mismatch_id "crates/service/src/driver_io.rs" "is_a_version_drift_signal" clear_mismatch_how
  | MajorOrMinorVersionChange =>
      mkDetector "major_or_minor_version_change" "crates/service/src/compatibility.rs" "same_line"
        "a conservative policy default, not a measurement: patch drift inside a tested range is tolerated, a minor is not. Re-promote against the new line."
  end.

Definition trigger_id (t : RepromotionTrigger) : string := td_id (detector t).

Definition VersionRange_new (floor tested_through : string) : result VersionRange Anyhow :=
  let? floor := parse floor in
  let? tested_through := parse tested_through in
  if negb (same_line floor tested_through)
  then bail ("a tested Claude profile may not span a major or minor version (" +:+ version_text floor +:+ " through "
             +:+ version_text tested_through +:+ "): " +:+ td_how (detector MajorOrMinorVersionChange))
  else if negb (version_leb floor tested_through)
  then bail ("a tested Claude profile's ceiling " +:+ version_text tested_through +:+ " is below its floor " +:+ version_text floor)
  else Ok (mkRange floor tested_through).

Definition admits (range : VersionRange) (value : string) : bool :=
  match parse value with
  | Ok version => version_leb (vr_floor range) version && version_leb version (vr_tested_through range)
  | Err _ => false
  end.

(** The comparison the source writes out. *)
Definition le (left right : N * N * N) : bool :=
  let '(a, b, c) := left in
  let '(a', b', c') := right in
  if negb (a =? a') then a <? a' else if negb (b =? b') then b <? b' else c <=? c'.

Definition triple (v : ClaudeVersion) : N * N * N := (v_major v, v_minor v, v_patch v).

Definition overlaps (range other : VersionRange) : bool :=
  le (triple (vr_floor range)) (triple (vr_tested_through other)) && le (triple (vr_floor other)) (triple (vr_tested_through range)).

Definition range_text (r : VersionRange) : string := version_text (vr_floor r) +:+ "..=" +:+ version_text (vr_tested_through r).

(** ** Profiles *)

Definition resolved_input_transport (value : InputTransport) : InputTransport :=
  match value with Auto => Sdk | other => other end.

#[global] Instance InputTransport_eq_dec : EqDecision InputTransport.
Proof. solve_decision. Defined.
#[global] Instance TerminalProfile_eq_dec : EqDecision TerminalProfile.
Proof. solve_decision. Defined.

Record TestedCompatibilityProfile := mkProfile {
  tp_claude_version : string;
  tp_claude_version_tested_through : option string;
  tp_os : string;
  tp_arch : string;
  tp_terminal_profile : TerminalProfile;
  tp_input_transport : InputTransport;
  tp_transcript_drain_ms : N;
}.

#[global] Instance TestedCompatibilityProfile_eq_dec : EqDecision TestedCompatibilityProfile.
Proof. solve_decision. Defined.

Definition version_range (p : TestedCompatibilityProfile) : result VersionRange Anyhow :=
  VersionRange_new (tp_claude_version p) (default (tp_claude_version p) (tp_claude_version_tested_through p)).

Definition matches (p : TestedCompatibilityProfile) (claude_version os arch : string) (terminal_profile : TerminalProfile)
    (input_transport : InputTransport) : bool :=
  match version_range p with Ok range => admits range claude_version | Err _ => false end
  && String.eqb (tp_os p) os && String.eqb (tp_arch p) arch
  && bool_decide (tp_terminal_profile p = terminal_profile) && bool_decide (tp_input_transport p = input_transport).

Definition overlapping_key (p q : TestedCompatibilityProfile) : bool :=
  String.eqb (tp_os p) (tp_os q) && String.eqb (tp_arch p) (tp_arch q)
  && bool_decide (tp_terminal_profile p = tp_terminal_profile q) && bool_decide (tp_input_transport p = tp_input_transport q)
  && match version_range p, version_range q with Ok mine, Ok theirs => overlaps mine theirs | _, _ => false end.

(** [char::is_ascii_lowercase]. *)
Definition is_ascii_lowercase (c : N) : bool := in_range 97 122 c.

Definition is_platform_character (c : N) : bool := is_ascii_lowercase c || is_ascii_digit c || (c =? 95) || (c =? 45).

Definition validate_platform_component (value label : string) : result unit Anyhow :=
  if bool_decide (value = EmptyString) || negb (is_trimmed value) || negb (forallb is_platform_character (chars value))
  then bail ("tested Claude profile " +:+ label +:+ " must be a normalized platform token")
  else Ok tt.

Definition validate_transcript_drain_ms (value : N) : result unit Anyhow :=
  if (1 <=? value) && (value <=? MAX_TRANSCRIPT_DRAIN_MS) then Ok tt
  else bail ("transcript drain must be between 1 and " +:+ pretty MAX_TRANSCRIPT_DRAIN_MS +:+ " milliseconds").

Definition validate (p : TestedCompatibilityProfile) : result unit Anyhow :=
  let? _ := version_range p in
  let? _ := validate_platform_component (tp_os p) "os" in
  let? _ := validate_platform_component (tp_arch p) "arch" in
  if negb (bool_decide (tp_terminal_profile p = Transparent))
  then bail "rmux-standard terminal identity cannot be admitted as a tested Claude compatibility profile"
  else if bool_decide (tp_input_transport p = AttachedStream)
  then bail "attached-stream input cannot be admitted as a tested Claude compatibility profile"
  else validate_transcript_drain_ms (tp_transcript_drain_ms p).

(** A shipped profile, less the prose of its provenance. *)
Record PromotedProfile := mkPromoted {
  pp_claude_version_floor : string;
  pp_claude_version_tested_through : string;
  pp_os : string;
  pp_arch : string;
  pp_terminal_profile : TerminalProfile;
  pp_input_transport : InputTransport;
  pp_transcript_drain_ms : N;
}.

Definition to_profile (p : PromotedProfile) : TestedCompatibilityProfile :=
  mkProfile (pp_claude_version_floor p) (Some (pp_claude_version_tested_through p)) (pp_os p) (pp_arch p)
    (pp_terminal_profile p) (resolved_input_transport (pp_input_transport p)) (pp_transcript_drain_ms p).

Definition PROMOTED_PROFILES : list PromotedProfile :=
  [mkPromoted "2.1.258" "2.1.280" "macos" "aarch64" Transparent Sdk 250;
   mkPromoted "2.1.227" "2.1.280" "linux" "x86_64" Transparent Sdk 250;
   mkPromoted "2.1.272" "2.1.280" "linux" "aarch64" Transparent Sdk 500].

(** ** The registry *)

Record CompatibilityProfileRegistry := mkRegistry {
  cp_profiles : list TestedCompatibilityProfile;
  cp_unpromoted_opt_in : bool;
}.

Definition CompatibilityProfileRegistry_default : CompatibilityProfileRegistry := mkRegistry [] false.

Definition allow_unpromoted (value : bool) (r : CompatibilityProfileRegistry) : result CompatibilityProfileRegistry Anyhow :=
  if negb (negb value || bool_decide (cp_profiles r = []))
  then bail "--allow-unpromoted-claude cannot be combined with --tested-claude-profile: one admits a cell you measured, the other admits one nobody did"
  else Ok (mkRegistry (cp_profiles r) value).

(** [{:?}]. *)
Definition terminal_profile_debug (p : TerminalProfile) : string := match p with Transparent => "Transparent" | RmuxStandard => "RmuxStandard" end.
Definition input_transport_debug (t : InputTransport) : string :=
  match t with Auto => "Auto" | Sdk => "Sdk" | AttachedStream => "AttachedStream" end.
(** [rename_all = "snake_case"]. *)
Definition terminal_profile_json (p : TerminalProfile) : json := JStr match p with Transparent => "transparent" | RmuxStandard => "rmux_standard" end.
Definition input_transport_json (t : InputTransport) : json :=
  JStr match t with Auto => "auto" | Sdk => "sdk" | AttachedStream => "attached_stream" end.

Definition insert_profile (profile : TestedCompatibilityProfile) (r : CompatibilityProfileRegistry) :
    result CompatibilityProfileRegistry Anyhow :=
  if cp_unpromoted_opt_in r
  then bail "--tested-claude-profile cannot be combined with --allow-unpromoted-claude: one admits a cell you measured, the other admits one nobody did"
  else
    let profile := mkProfile (tp_claude_version profile) (tp_claude_version_tested_through profile) (tp_os profile) (tp_arch profile)
                     (tp_terminal_profile profile) (resolved_input_transport (tp_input_transport profile)) (tp_transcript_drain_ms profile) in
    let? _ := validate profile in
    if existsb (fun existing => overlapping_key existing profile) (cp_profiles r)
    then bail ("overlapping tested Claude compatibility profile for versions "
               +:+ match version_range profile with Ok range => range_text range | Err _ => tp_claude_version profile end
               +:+ ", OS " +:+ tp_os profile +:+ ", architecture " +:+ tp_arch profile
               +:+ ", terminal profile " +:+ terminal_profile_debug (tp_terminal_profile profile)
               +:+ ", and input transport " +:+ input_transport_debug (tp_input_transport profile))
    else Ok (mkRegistry (cp_profiles r ++ [profile])%list (cp_unpromoted_opt_in r)).

Definition try_from_profiles (profiles : list TestedCompatibilityProfile) : result CompatibilityProfileRegistry Anyhow :=
  try_fold (fun r profile => insert_profile profile r) profiles CompatibilityProfileRegistry_default.

Definition candidates (r : CompatibilityProfileRegistry) : list TestedCompatibilityProfile :=
  (cp_profiles r ++ (to_profile <$> PROMOTED_PROFILES))%list.

Section Resolve.
Context (os arch : string).

Definition candidates_here (r : CompatibilityProfileRegistry) : list TestedCompatibilityProfile :=
  List.filter (fun profile => String.eqb (tp_os profile) os && String.eqb (tp_arch profile) arch) (candidates r).

Definition admissible_here (r : CompatibilityProfileRegistry) : nat := length (candidates_here r).

Definition repromotion_trigger_for (claude_version : string) (cells : list TestedCompatibilityProfile) : option RepromotionTrigger :=
  match parse claude_version with
  | Err _ => None
  | Ok version =>
      if existsb (fun cell => match version_range cell with Ok range => same_line (vr_floor range) version | Err _ => false end) cells
      then None
      else match cells with [] => None | _ => Some MajorOrMinorVersionChange end
  end.

Definition report (claude_version : string) (terminal_profile : TerminalProfile) (input_transport : InputTransport)
    (tested unpromoted : bool) (drain : N) : CompatibilityReport :=
  mkCompatibility claude_version os arch terminal_profile input_transport tested unpromoted drain.

Definition resolve (r : CompatibilityProfileRegistry) (policy : CompatibilityPolicy) (claude_version : string)
    (terminal_profile : TerminalProfile) (input_transport : InputTransport) (untested_transcript_drain_ms : N) :
    result CompatibilityReport ErrorBody :=
  let? _ := validate_v1_terminal_support terminal_profile input_transport in
  let? _ := map_err (fun error => ErrorBody_new InvalidConfig (default EmptyString (head error)))
              (validate_transcript_drain_ms untested_transcript_drain_ms) in
  let input_transport := resolved_input_transport input_transport in
  match List.find (fun profile => matches profile claude_version os arch terminal_profile input_transport) (candidates r) with
  | Some profile => Ok (report claude_version terminal_profile input_transport true false (tp_transcript_drain_ms profile))
  | None =>
      if cp_unpromoted_opt_in r
      then Ok (report claude_version terminal_profile input_transport false true untested_transcript_drain_ms)
      else
        match policy with
        | RequireTested =>
            Err (with_details
              (jobj [("claude_version", JStr claude_version); ("os", JStr os); ("arch", JStr arch);
                     ("terminal_profile", terminal_profile_json terminal_profile);
                     ("input_transport", input_transport_json input_transport);
                     ("recommendation", JStr "measure this os/arch with tools/dev/drain_n50.py, tools/dev/operator_eval.py and tools/dev/living_pmux_run.py, then promote it with tools/dev/promote.py (tools/dev/README.md), or admit the cell you measured with --tested-claude-profile");
                     ("compatibility_cells_for_this_platform",
                      JArr ((fun profile => JStr match version_range profile with Ok range => range_text range | Err _ => tp_claude_version profile end)
                            <$> candidates_here r));
                     ("repromotion_trigger", opt_jstr (trigger_id <$> repromotion_trigger_for claude_version (candidates_here r)))])
              (ErrorBody_new UnsupportedClaudeVersion
                 ("Claude Code " +:+ claude_version +:+ " has no tested pmux compatibility profile for " +:+ os +:+ "/" +:+ arch +:+ ", "
                  +:+ terminal_profile_debug terminal_profile +:+ ", " +:+ input_transport_debug input_transport)))
        | AllowUntested => Ok (report claude_version terminal_profile input_transport false false untested_transcript_drain_ms)
        end
  end.

End Resolve.

(** ** Asking Claude its version *)

(** What running the executable with [--version] gave. *)
Inductive VersionQuery :=
| QueryTimedOut
| QueryFailed (error : string)
| QueryExited (success : bool) (status : string) (stdout : list N).

(** [str::trim_matches], on characters. *)
Definition trim_matches (p : N -> bool) (t : list N) : list N := trim_end_matches p (trim_start_matches p t).

Definition looks_like_a_version (token : string) : bool :=
  match split_dot EmptyString token with
  | [major; minor; patch] =>
      negb (bool_decide (major = EmptyString)) && forallb is_ascii_digit (chars major)
      && forallb is_ascii_digit (chars minor) && forallb is_ascii_digit (chars patch)
  | _ => false
  end.

Definition normalize_claude_version (output : string) : option string :=
  List.find looks_like_a_version
    ((fun token => of_chars (trim_matches (fun c => negb (is_ascii_alphanumeric c) && negb (c =? DOT)) (chars token)))
     <$> split_whitespace_from [] (chars output)).

Definition claude_version_of (query : VersionQuery) : result string ErrorBody :=
  match query with
  | QueryTimedOut => Err (ErrorBody_new ClaudeNotFound "timed out while querying Claude Code version")
  | QueryFailed error => Err (ErrorBody_new ClaudeNotFound error)
  | QueryExited false status _ => Err (ErrorBody_new ClaudeNotFound ("Claude version query exited with " +:+ status))
  | QueryExited true _ stdout =>
      match utf8_decode stdout with
      | None => Err (ErrorBody_new UnsupportedClaudeVersion "Claude version output is not UTF-8")
      | Some text =>
          ok_or (normalize_claude_version (of_chars text))
            (with_details (jobj [("output_bytes", diagnostic_usize (N.of_nat (length stdout)))])
               (ErrorBody_new UnsupportedClaudeVersion "Claude version output did not contain a semantic version"))
      end
  end.

(** The part of a start that decides on the version: the query, the profiles, and the guard
    of the minified cell. *)
Definition start_compatibility (os arch : string) (r : CompatibilityProfileRegistry) (query : VersionQuery)
    (request : StartSessionRequest) (untested_transcript_drain_ms : N) : result CompatibilityReport ErrorBody :=
  let? claude_version := claude_version_of query in
  let? compatibility := resolve os arch r (sr_compatibility request) claude_version (ts_profile (sr_terminal request))
                          (ts_input_transport (sr_terminal request)) untested_transcript_drain_ms in
  let? _ := if bool_decide (sr_cell request = Minified) then require_tested_for_minified_cell compatibility else Ok tt in
  Ok compatibility.

(** ** The order of versions *)

Lemma le_version_leb a b : le (triple a) (triple b) = version_leb a b.
Proof.
  destruct a as [a1 a2 a3], b as [b1 b2 b3]. unfold le, triple, version_leb, version_compare. simpl.
  destruct (N.compare_spec a1 b1), (N.compare_spec a2 b2), (N.compare_spec a3 b3); subst; simpl;
    repeat case_match; try done;
    rewrite ?N.eqb_refl, ?negb_true_iff, ?negb_false_iff, ?N.eqb_eq, ?N.eqb_neq, ?N.leb_le, ?N.leb_gt, ?N.ltb_lt, ?N.ltb_ge in *;
    simpl in *; try lia; try done.
Qed.

Lemma version_leb_spec a b :
  version_leb a b = true <->
  v_major a < v_major b \/ v_major a = v_major b /\ (v_minor a < v_minor b \/ v_minor a = v_minor b /\ v_patch a <= v_patch b).
Proof.
  unfold version_leb, version_compare.
  destruct (N.compare_spec (v_major a) (v_major b)), (N.compare_spec (v_minor a) (v_minor b)), (N.compare_spec (v_patch a) (v_patch b));
    simpl; split; intros; try done; lia.
Qed.

(** Between two versions of one line there are only versions of that line. *)
Lemma between_same_line a v b :
  version_leb a v = true -> version_leb v b = true -> same_line a b = true -> same_line v a = true.
Proof. unfold same_line. rewrite !version_leb_spec, !andb_true_iff, !N.eqb_eq. lia. Qed.

Lemma version_leb_trans a b c : version_leb a b = true -> version_leb b c = true -> version_leb a c = true.
Proof. rewrite !version_leb_spec. lia. Qed.

Lemma overlaps_comm a b : overlaps a b = overlaps b a.
Proof. apply andb_comm. Qed.

(** ** What a profile admits *)

(** The versions of a well-formed profile are an interval of one line. *)
Lemma VersionRange_new_Ok floor top range :
  VersionRange_new floor top = Ok range ->
  parse floor = Ok (vr_floor range) /\ parse top = Ok (vr_tested_through range)
  /\ same_line (vr_floor range) (vr_tested_through range) = true /\ version_leb (vr_floor range) (vr_tested_through range) = true.
Proof.
  unfold VersionRange_new, bail. intros H. res_inv. subst. simpl.
  by apply negb_false_iff in G, G0.
Qed.

(** [p] was measured for [version] on this platform and this way of driving the terminal. *)
Definition measured_for (p : TestedCompatibilityProfile) (os arch version : string) (tp : TerminalProfile) (it : InputTransport) : Prop :=
  exists range v,
    version_range p = Ok range /\ parse version = Ok v
    /\ version_leb (vr_floor range) v = true /\ version_leb v (vr_tested_through range) = true
    /\ same_line v (vr_floor range) = true
    /\ tp_os p = os /\ tp_arch p = arch /\ tp_terminal_profile p = tp /\ tp_input_transport p = it.

Lemma matches_spec p os arch version tp it :
  matches p version os arch tp it = true <-> measured_for p os arch version tp it.
Proof.
  unfold matches, measured_for, admits. rewrite !andb_true_iff, !String.eqb_eq, !bool_decide_eq_true. split.
  - intros ((((H & ?) & ?) & ?) & ?). destruct (version_range p) as [range|] eqn:Er; [|done].
    destruct (parse version) as [v|] eqn:Ev; [|done]. apply andb_true_iff in H as [Hf Ht].
    exists range, v. repeat split; try done. apply VersionRange_new_Ok in Er as (_ & _ & Hs & _).
    by eapply between_same_line.
  - intros (range & v & -> & -> & -> & -> & _ & ? & ? & ? & ?). by repeat split.
Qed.

Lemma measured_for_overlap p q os arch version tp it :
  measured_for p os arch version tp it -> measured_for q os arch version tp it -> overlapping_key p q = true.
Proof.
  intros (rp & v & Hrp & Hv & Hp1 & Hp2 & _ & <- & <- & <- & <-) (rq & v' & Hrq & Hv' & Hq1 & Hq2 & _ & Ho & Ha & Ht & Hi).
  unfold overlapping_key. rewrite Hrp, Hrq, Ho, Ha, Ht, Hi, !String.eqb_refl, !bool_decide_eq_true_2 by done. simpl.
  unfold overlaps. rewrite !le_version_leb. assert (v' = v) as -> by congruence.
  apply andb_true_iff. split; eapply version_leb_trans; eauto.
Qed.

Lemma overlapping_key_comm p q : overlapping_key p q = overlapping_key q p.
Proof.
  unfold overlapping_key.
  rewrite (String.eqb_sym (tp_os p)), (String.eqb_sym (tp_arch p)).
  f_equal; [f_equal; [f_equal|]; apply bool_decide_ext; by split|].
  destruct (version_range p), (version_range q); [apply overlaps_comm|done..].
Qed.

(** ** Registries *)

(** The registries a daemon can build. *)
Inductive built : CompatibilityProfileRegistry -> Prop :=
| built_default : built CompatibilityProfileRegistry_default
| built_insert profile r r' : built r -> insert_profile profile r = Ok r' -> built r'
| built_allow value r r' : built r -> allow_unpromoted value r = Ok r' -> built r'.

(** Operator profiles are valid and no two cover one version of one cell; and the opt-in
    excludes them. *)
Record unambiguous (r : CompatibilityProfileRegistry) : Prop := {
  ua_valid : Forall (fun p => validate p = Ok tt /\ tp_input_transport p = Sdk) (cp_profiles r);
  ua_disjoint i j p q : cp_profiles r !! i = Some p -> cp_profiles r !! j = Some q -> i <> j -> overlapping_key p q = false;
  ua_opt_in : cp_unpromoted_opt_in r = true -> cp_profiles r = [];
}.

Lemma validate_drain p : validate p = Ok tt -> 1 <= tp_transcript_drain_ms p <= MAX_TRANSCRIPT_DRAIN_MS.
Proof.
  unfold validate, validate_transcript_drain_ms, bail. intros H. res_inv.
  rewrite andb_true_iff, !N.leb_le in *. lia.
Qed.

Lemma validate_resolved p : validate p = Ok tt -> tp_input_transport p = resolved_input_transport (tp_input_transport p) ->
  tp_input_transport p = Sdk.
Proof. unfold validate, bail. intros H. res_inv. rewrite bool_decide_eq_false in *. destruct (tp_input_transport p); done. Qed.

Lemma insert_unambiguous profile r r' : unambiguous r -> insert_profile profile r = Ok r' -> unambiguous r'.
Proof.
  intros [Hv Hd Ho]. unfold insert_profile, bail. intros H. res_inv.
  set (new := mkProfile _ _ _ _ _ _ _) in *. subst r'. rename x into u. destruct u. split; simpl.
  - apply Forall_app. split; [done|]. constructor; [|done]. split; [done|]. apply validate_resolved; [done|].
    unfold new. simpl. by destruct (tp_input_transport profile).
  - rewrite <-not_true_iff_false in *. rewrite existsb_exists in *.
    assert (forall q, q ∈ cp_profiles r -> overlapping_key q new = false) as Hnew.
    { intros q Hq. apply not_true_iff_false. intros Hk. apply G0. exists q. by rewrite <-list_elem_of_In. }
    intros i j p q. rewrite !lookup_app_Some, !list_lookup_singleton_Some.
    intros [Hi|(Hi & Hi' & <-)] [Hj|(Hj & Hj' & <-)] Hne.
    + by eapply Hd.
    + apply Hnew. by eapply list_elem_of_lookup_2.
    + rewrite overlapping_key_comm. apply Hnew. by eapply list_elem_of_lookup_2.
    + lia.
  - congruence.
Qed.

Lemma allow_unambiguous value r r' : unambiguous r -> allow_unpromoted value r = Ok r' -> unambiguous r'.
Proof.
  intros [Hv Hd Ho]. unfold allow_unpromoted, bail. intros H. res_inv. subst. split; simpl; [done..|].
  intros ->. by rewrite negb_false_iff, orb_true_iff, bool_decide_eq_true in * |- ; destruct G.
Qed.

Lemma built_unambiguous r : built r -> unambiguous r.
Proof. induction 1; eauto using insert_unambiguous, allow_unambiguous. by split. Qed.

(** What is shipped passes the checks an operator's profile has to pass. *)
Lemma promoted_valid : Forall (fun p => validate p = Ok tt /\ tp_input_transport p = Sdk) (to_profile <$> PROMOTED_PROFILES).
Proof. repeat constructor. Qed.

Lemma candidates_valid r p : unambiguous r -> p ∈ candidates r -> validate p = Ok tt /\ tp_input_transport p = Sdk.
Proof.
  intros [Hv _ _]. revert p. apply Forall_forall, Forall_app. split; [done|apply promoted_valid].
Qed.

Lemma find_app {A} (f : A -> bool) l1 l2 :
  List.find f (l1 ++ l2) = match List.find f l1 with Some x => Some x | None => List.find f l2 end.
Proof. induction l1 as [|x l1 IH]; simpl; [done|]. by destruct (f x). Qed.

(** ** Admission *)

Section Admission.
Context (os arch : string).

Lemma find_candidate r version tp it :
  match List.find (fun p => matches p version os arch tp it) (candidates r) with
  | Some p => p ∈ candidates r /\ measured_for p os arch version tp it
  | None => forall p, p ∈ candidates r -> ~ measured_for p os arch version tp it
  end.
Proof.
  destruct (List.find _ _) as [p|] eqn:E.
  - apply find_some in E as [Hin Hm]. by rewrite list_elem_of_In, <-matches_spec.
  - intros p Hin. rewrite <-matches_spec, not_true_iff_false. by apply (find_none _ _ E), list_elem_of_In.
Qed.

(** An operator's profile for the cell is the only one of theirs, and comes first. *)
Lemma operator_wins r version tp it p q :
  unambiguous r ->
  List.find (fun p => matches p version os arch tp it) (candidates r) = Some p ->
  q ∈ cp_profiles r -> measured_for q os arch version tp it -> p = q.
Proof.
  intros Hr Hf [j Hj]%list_elem_of_lookup Hq. unfold candidates in Hf.
  apply matches_spec in Hq as Hm. rewrite find_app in Hf.
  destruct (List.find _ (cp_profiles r)) as [p'|] eqn:E.
  - injection Hf as ->. apply find_some in E as [[i Hi]%list_elem_of_In%list_elem_of_lookup Hp%matches_spec].
    destruct (decide (i = j)) as [->|Hne]; [congruence|].
    pose proof (ua_disjoint r Hr i j p q Hi Hj Hne) as Hk.
    by rewrite (measured_for_overlap p q os arch version tp it) in Hk.
  - pose proof (find_none _ _ E q) as Hn. simpl in Hn. rewrite Hm in Hn.
    discriminate Hn. apply list_elem_of_In. by eapply list_elem_of_lookup_2.
Qed.

(** How a report describes a version: measured, with the drain of the one profile that
    decides; or admitted without a measurement, with the conservative drain. *)
Inductive reported (r : CompatibilityProfileRegistry) (policy : CompatibilityPolicy) (untested_drain : N) (c : CompatibilityReport) : Prop :=
| reported_measured p :
    cr_tested c = true -> cr_unpromoted c = false ->
    p ∈ candidates r -> measured_for p os arch (cr_claude_version c) (cr_terminal_profile c) (cr_input_transport c) ->
    cr_transcript_drain_ms c = tp_transcript_drain_ms p ->
    (forall q, q ∈ cp_profiles r -> measured_for q os arch (cr_claude_version c) (cr_terminal_profile c) (cr_input_transport c) -> q = p) ->
    reported r policy untested_drain c
| reported_unmeasured :
    cr_tested c = false ->
    (forall p, p ∈ candidates r -> ~ measured_for p os arch (cr_claude_version c) (cr_terminal_profile c) (cr_input_transport c)) ->
    cr_transcript_drain_ms c = untested_drain ->
    cr_unpromoted c = cp_unpromoted_opt_in r ->
    (if cr_unpromoted c then cp_profiles r = [] else policy = AllowUntested) ->
    reported r policy untested_drain c.

Lemma resolve_Ok r policy version tp it drain c :
  unambiguous r -> resolve os arch r policy version tp it drain = Ok c ->
  cr_claude_version c = version /\ cr_os c = os /\ cr_arch c = arch
  /\ cr_terminal_profile c = Transparent /\ tp = Transparent /\ cr_input_transport c = Sdk
  /\ 1 <= cr_transcript_drain_ms c <= MAX_TRANSCRIPT_DRAIN_MS
  /\ reported r policy drain c.
Proof.
  intros Hr. unfold resolve. intros H. res_inv.
  unfold validate_v1_terminal_support in H0. unfold validate_transcript_drain_ms, bail in H1. res_inv.
  apply andb_true_iff in G as [Hlo%N.leb_le Hhi%N.leb_le].
  assert (tp = Transparent /\ resolved_input_transport it = Sdk) as [-> Hit] by by destruct tp, it.
  rewrite Hit in H. pose proof (find_candidate r version Transparent Sdk) as Hf.
  destruct (List.find _ _) as [p|] eqn:E.
  - destruct Hf as [Hin Hm]. injection H as <-. simpl. repeat split; try done;
      try (by apply validate_drain, (candidates_valid r)).
    apply (reported_measured _ _ _ _ p); simpl; try done. intros q Hq Hmq. symmetry. by eapply operator_wins.
  - destruct (cp_unpromoted_opt_in r) eqn:Eo; [|destruct policy; [discriminate H|]]; injection H as <-; simpl;
      repeat split; try done; apply reported_unmeasured; simpl; try done. by apply ua_opt_in.
Qed.

(** Two registries with the same operator profiles, in whatever order they were given. *)
Lemma find_permuted r r' version tp it :
  unambiguous r -> cp_profiles r ≡ₚ cp_profiles r' ->
  List.find (fun p => matches p version os arch tp it) (candidates r)
  = List.find (fun p => matches p version os arch tp it) (candidates r').
Proof.
  intros Hr Hp. unfold candidates. rewrite !find_app.
  destruct (List.find _ (cp_profiles r)) as [p|] eqn:E.
  - destruct (List.find _ (cp_profiles r')) as [p'|] eqn:E'.
    + apply find_some in E' as [Hin%list_elem_of_In Hm%matches_spec]. f_equal.
      eapply operator_wins; [done| | |done].
      * unfold candidates. rewrite find_app. by rewrite E.
      * by rewrite Hp.
    + apply find_some in E as [Hin%list_elem_of_In Hm]. rewrite Hp in Hin.
      by rewrite (find_none _ _ E' p) in Hm by by apply list_elem_of_In.
  - destruct (List.find _ (cp_profiles r')) as [p'|] eqn:E'; [|done].
    apply find_some in E' as [Hin%list_elem_of_In Hm]. rewrite <-Hp in Hin.
    by rewrite (find_none _ _ E p') in Hm by by apply list_elem_of_In.
Qed.

(** The order in which an operator names their profiles decides nothing: two registries a
    daemon can build from the same profiles in any order, with the same opt-in, admit the same
    versions with the same report. *)
Theorem profile_order_is_irrelevant r r' policy version tp it drain c :
  built r -> cp_profiles r ≡ₚ cp_profiles r' -> cp_unpromoted_opt_in r = cp_unpromoted_opt_in r' ->
  resolve os arch r policy version tp it drain = Ok c <-> resolve os arch r' policy version tp it drain = Ok c.
Proof.
  intros Hr%built_unambiguous Hp Ho. unfold resolve.
  destruct (validate_v1_terminal_support tp it) as [[]|]; simpl; [|reflexivity].
  destruct (map_err _ _) as [[]|]; simpl; [|reflexivity].
  rewrite (find_permuted r r') by done. destruct (List.find _ _); [reflexivity|]. rewrite Ho.
  destruct (cp_unpromoted_opt_in r'); [reflexivity|]. by destruct policy.
Qed.

Lemma terminal_support_spec tp it :
  is_ok (validate_v1_terminal_support tp it) = true <-> tp = Transparent /\ it <> AttachedStream.
Proof. destruct tp, it; simpl; naive_solver. Qed.

Lemma transcript_drain_spec value :
  is_ok (validate_transcript_drain_ms value) = true <-> 1 <= value <= MAX_TRANSCRIPT_DRAIN_MS.
Proof. unfold validate_transcript_drain_ms, bail. case_match eqn:E; [|apply andb_false_iff in E]; rewrite ?andb_true_iff, ?N.leb_le, ?N.leb_gt in *; simpl; naive_solver lia. Qed.

(** A version is admitted exactly when the cell is one protocol v1 drives, the configured
    drain is in range, and the version was measured here, or the operator opted in to
    unmeasured versions, or the caller allows them. *)
Theorem admitted_exactly_when_allowed r policy version tp it drain :
  is_ok (resolve os arch r policy version tp it drain) = true <->
  tp = Transparent /\ it <> AttachedStream /\ 1 <= drain <= MAX_TRANSCRIPT_DRAIN_MS
  /\ (policy = AllowUntested \/ cp_unpromoted_opt_in r = true
      \/ exists p, p ∈ candidates r /\ measured_for p os arch version tp Sdk).
Proof.
  rewrite <-transcript_drain_spec. unfold resolve.
  pose proof (terminal_support_spec tp it) as Hs.
  destruct (validate_v1_terminal_support tp it) as [[]|]; simpl in *; [|naive_solver].
  destruct Hs as [[-> Hit] _]; [done|].
  destruct (validate_transcript_drain_ms drain) as [[]|]; simpl; [|naive_solver].
  replace (resolved_input_transport it) with Sdk by by destruct it.
  pose proof (find_candidate r version Transparent Sdk) as Hf.
  destruct (List.find _ _) as [p|]; simpl; [naive_solver|].
  destruct (cp_unpromoted_opt_in r), policy; simpl; naive_solver.
Qed.

(** A refusal blames a change of line only when that is what it is. *)
Lemma repromotion_trigger_spec version cells :
  repromotion_trigger_for version cells = Some MajorOrMinorVersionChange <->
  cells <> [] /\ exists v, parse version = Ok v
    /\ forall cell range, cell ∈ cells -> version_range cell = Ok range -> same_line (vr_floor range) v = false.
Proof.
  unfold repromotion_trigger_for. destruct (parse version) as [v|]; [|naive_solver].
  destruct (existsb _ cells) eqn:E.
  - apply existsb_exists in E as (cell & Hin%list_elem_of_In & Hc). destruct (version_range cell) as [range|] eqn:Er; [|done].
    split; [done|]. intros (_ & v' & [= ->] & Hn). by rewrite (Hn cell range) in Hc.
  - rewrite <-not_true_iff_false, existsb_exists in E.
    assert (forall cell range, cell ∈ cells -> version_range cell = Ok range -> same_line (vr_floor range) v = false) as Hn.
    { intros cell range Hin Hr. apply not_true_iff_false. intros Hs. apply E. exists cell. by rewrite <-list_elem_of_In, Hr. }
    destruct cells; naive_solver.
Qed.

(** C24. A start goes ahead only on the version the executable itself reported, on this
    platform, as a transparent terminal driven through the SDK, with a drain between one
    millisecond and one minute. Either the version lies, on one major and minor line, within
    the bounds of a profile that is for exactly this cell, whose drain is used, and an
    operator's profile for the cell is the only one and overrides the shipped one; or nothing
    measured it, the report says so, the conservative drain is used, and either the operator
    opted in and has no profile of their own or the caller allowed it. A minified cell starts
    only on a measured version or under the opt-in. *)
Theorem start_is_on_a_measured_version r query request drain c :
  built r -> start_compatibility os arch r query request drain = Ok c ->
  claude_version_of query = Ok (cr_claude_version c) /\ cr_os c = os /\ cr_arch c = arch
  /\ cr_terminal_profile c = Transparent /\ ts_profile (sr_terminal request) = Transparent /\ cr_input_transport c = Sdk
  /\ 1 <= cr_transcript_drain_ms c <= MAX_TRANSCRIPT_DRAIN_MS
  /\ reported r (sr_compatibility request) drain c
  /\ (sr_cell request = Minified -> cr_tested c = true \/ cr_unpromoted c = true).
Proof.
  intros Hr%built_unambiguous. unfold start_compatibility. intros H.
  apply result_bind_Ok in H as (version & Hv & H). apply result_bind_Ok in H as (c' & Hc & H).
  apply result_bind_Ok in H as ([] & Hm & [= ->]).
  apply resolve_Ok in Hc as (<- & ? & ? & ? & ? & ? & ? & ?); [|done]. repeat split; try done; try lia.
  intros Hcell. rewrite bool_decide_eq_true_2 in Hm by done. unfold require_tested_for_minified_cell in Hm.
  destruct (_ || _) eqn:E in Hm; [|discriminate Hm]. by apply orb_true_iff.
Qed.

End Admission.

(** ** Examples *)

Module CompatDemo.

Definition operator_profile : TestedCompatibilityProfile :=
  mkProfile "2.1.275" (Some "2.1.285") "linux" "x86_64" Transparent Auto 400.
Definition second_profile : TestedCompatibilityProfile :=
  mkProfile "2.2.0" None "linux" "x86_64" Transparent Sdk 700.

Definition demo_profiles : CompatibilityProfileRegistry :=
  match try_from_profiles [operator_profile; second_profile] with Ok r => r | Err _ => CompatibilityProfileRegistry_default end.
Definition demo_profiles_swapped : CompatibilityProfileRegistry :=
  match try_from_profiles [second_profile; operator_profile] with Ok r => r | Err _ => CompatibilityProfileRegistry_default end.

Lemma demo_built : built demo_profiles.
Proof.
  apply (built_insert second_profile (mkRegistry [mkProfile "2.1.275" (Some "2.1.285") "linux" "x86_64" Transparent Sdk 400] false));
    [|vm_compute; reflexivity].
  apply (built_insert operator_profile CompatibilityProfileRegistry_default); [constructor|vm_compute; reflexivity].
Defined.

(** The operator's own drain outranks the shipped one for the same version. *)
Example operator_drain_is_used :
  resolve "linux" "x86_64" demo_profiles RequireTested "2.1.280" Transparent Auto 2000
  = Ok (mkCompatibility "2.1.280" "linux" "x86_64" Transparent Sdk true false 400).
Proof. vm_compute. reflexivity. Qed.

(** Ordered by number, not by spelling: 2.1.99 is below the floor. *)
Example below_the_floor :
  resolve "linux" "x86_64" CompatibilityProfileRegistry_default AllowUntested "2.1.99" Transparent Sdk 2000
  = Ok (mkCompatibility "2.1.99" "linux" "x86_64" Transparent Sdk false false 2000).
Proof. vm_compute. reflexivity. Qed.

Example overlap_is_refused : is_ok (try_from_profiles [operator_profile; mkProfile "2.1.280" None "linux" "x86_64" Transparent Sdk 700]) = false.
Proof. vm_compute. reflexivity. Qed.

Example another_line_is_named :
  repromotion_trigger_for "2.2.0" (candidates_here "linux" "x86_64" CompatibilityProfileRegistry_default) = Some MajorOrMinorVersionChange
  /\ repromotion_trigger_for "2.1.300" (candidates_here "linux" "x86_64" CompatibilityProfileRegistry_default) = None.
Proof. vm_compute. auto. Qed.

Lemma profile_order_is_irrelevant_witness :
  resolve "linux" "x86_64" demo_profiles_swapped RequireTested "2.1.280" Transparent Auto 2000
  = Ok (mkCompatibility "2.1.280" "linux" "x86_64" Transparent Sdk true false 400).
Proof.
  apply (profile_order_is_irrelevant "linux" "x86_64" demo_profiles demo_profiles_swapped).
  - exact demo_built.
  - vm_compute. apply Permutation_swap.
  - vm_compute. reflexivity.
  - vm_compute. reflexivity.
Defined.

Definition demo_query : VersionQuery := QueryExited true "exit status: 0" (bytes ("2.1.280 (Claude Code)" +:+ "
")).

Lemma start_is_on_a_measured_version_witness :
  start_compatibility "linux" "x86_64" demo_profiles demo_query LaunchDemo.cell_request 2000
  = Ok (mkCompatibility "2.1.280" "linux" "x86_64" Transparent Sdk true false 400)
  /\ reported "linux" "x86_64" demo_profiles (sr_compatibility LaunchDemo.cell_request) 2000
       (mkCompatibility "2.1.280" "linux" "x86_64" Transparent Sdk true false 400).
Proof.
  assert (start_compatibility "linux" "x86_64" demo_profiles demo_query LaunchDemo.cell_request 2000
          = Ok (mkCompatibility "2.1.280" "linux" "x86_64" Transparent Sdk true false 400)) as H by (vm_compute; reflexivity).
  split; [exact H|]. by apply (start_is_on_a_measured_version "linux" "x86_64" demo_profiles demo_query LaunchDemo.cell_request 2000 _ demo_built).
Defined.

End CompatDemo.
