(* ===== verification/Broker.v ===== *)
(** * The launch broker and the launcher

    [crates/service/src/launch_broker.rs], [bin/pmux-launcher/src/main.rs], the tokens and
    frames of [crates/rmux/src/launch.rs], and [create_terminal] of
    [crates/service/src/runtime.rs]: how the process of a session gets the specification it
    replaces itself with. serde_json and the UUID reader are parameters; every connection
    and every registration is one step, at the instant it holds the lock. *)

From S2P Require Import Prelude Text Protocol Parser Session Screen LaunchEnv Launch.

#[local] Open Scope string_scope.
#[local] Open Scope N_scope.

(** ** Frames *)

(** [to_be_bytes] and [from_be_bytes] of a [u32]. *)
Definition to_be_bytes (n : N) : list N := [n / 16777216; (n / 65536) mod 256; (n / 256) mod 256; n mod 256].
Definition from_be_bytes (a b c d : N) : N := ((a * 256 + b) * 256 + c) * 256 + d.

Definition EOF : Anyhow := ["early eof"].

(** A frame is a length and a payload. The two ends differ in what they call an oversized
    and an unreadable one. *)
Definition framed (maximum : N) (oversized : string) (payload : list N) : result (list N) Anyhow :=
  if maximum <? N.of_nat (length payload) then bail oversized
  else if U32_MAX <? N.of_nat (length payload) then bail "out of range integral type conversion attempted"
  else Ok (to_be_bytes (N.of_nat (length payload)) ++ payload)%list.

Definition frame_of {T} (encode : T -> result (list N) string) (maximum : N) (oversized : string) (value : T) : result (list N) Anyhow :=
  let? payload := map_err (fun e => [e]) (encode value) in framed maximum oversized payload.

Definition payload_of (maximum : N) (oversized : string) (received : list N) : result (list N) Anyhow :=
  match received with
  | a :: b :: c :: d :: rest =>
      if maximum <? from_be_bytes a b c d then bail oversized
      else if N.of_nat (length rest) <? from_be_bytes a b c d then Err EOF
      else Ok (take (N.to_nat (from_be_bytes a b c d)) rest)
  | _ => Err EOF
  end.

Definition decoded_frame {T} (decode : list N -> result T string) (maximum : N) (oversized invalid : string) (received : list N) :
    result T Anyhow :=
  let? payload := payload_of maximum oversized received in
  map_err (fun e => [invalid; e]) (decode payload).

(** ** Tokens, requests and responses *)

Definition LAUNCHER_PROTOCOL_VERSION : N := 1.
Definition MAX_LAUNCHER_FRAME_BYTES : N := 16 * 1024 * 1024.
Definition DEFAULT_TOKEN_TTL : N := 30 * 1000000000.
Definition PROBE_PROTOCOL_VERSION : N := (LAUNCHER_PROTOCOL_VERSION + 1) mod 65536.
Definition UNSUPPORTED_VERSION_CODE : string := "unsupported_version".

Definition LaunchToken : Type := string.

Record LauncherRequest := mkLauncherRequest { lr_version : N; lr_token : LaunchToken }.

Inductive LauncherResponse :=
| Ready (version : N) (spec : LaunchSpec)
| Rejected (version : N) (code : string).

Inductive BrokerProbe :=
| Exchanged
| ConnectRefused
| ConnectFailed (error : string)
| ProbeTimedOut
| UnexpectedAnswer (detail : string).

Definition exchanged (p : BrokerProbe) : bool := match p with Exchanged => true | _ => false end.

Definition describe (p : BrokerProbe) : string :=
  match p with
  | Exchanged => "the launch broker accepted a connection, read a launcher frame and answered it"
  | ConnectRefused => "the launch broker refused the connection: its accept loop has ended and the listener is gone, so every later session start meets ConnectionRefused in pmux-launcher"
  | ConnectFailed error => "the launch broker endpoint could not be connected: " +:+ error
  | ProbeTimedOut => "the launch broker accepted a connection and did not complete the exchange within the deadline every session operation is held to"
  | UnexpectedAnswer detail => "the launch broker answered a launcher frame with " +:+ detail
  end.

(** ** The broker *)

Record PendingLaunch := mkPending { pl_spec : LaunchSpec; pl_expires_at : N }.

Record BrokerState := mkBroker { pending : gmap LaunchToken PendingLaunch }.

Definition BrokerState_new : BrokerState := mkBroker ∅.

(** [retain]: the clock is read for every entry ([at_]), and once more for the new one. *)
Definition register_with_ttl (spec : LaunchSpec) (ttl : N) (token : LaunchToken) (at_ : LaunchToken -> N) (now : N) (s : BrokerState) :
    result LaunchToken Anyhow * BrokerState :=
  match map_err (fun e => [e]) (LaunchSpec_validate spec) with
  | Err e => (Err e, s)
  | Ok _ =>
      if ttl =? 0 then (bail "launch token TTL must be non-zero", s)
      else
        let kept := filter (fun kv => at_ (fst kv) < pl_expires_at (snd kv)) (pending s) in
        (Ok token, mkBroker (<[token := mkPending spec (now + ttl)]> kept))
  end.

Definition register (spec : LaunchSpec) := register_with_ttl spec DEFAULT_TOKEN_TTL.

Definition revoke (token : LaunchToken) (s : BrokerState) : bool * BrokerState :=
  (bool_decide (is_Some (pending s !! token)), mkBroker (delete token (pending s))).

(** What a request is answered. *)
Definition respond (request : LauncherRequest) (now : N) (s : BrokerState) : LauncherResponse * BrokerState :=
  if negb (lr_version request =? LAUNCHER_PROTOCOL_VERSION)
  then (Rejected LAUNCHER_PROTOCOL_VERSION UNSUPPORTED_VERSION_CODE, s)
  else
    (match pending s !! lr_token request with
     | Some entry =>
         if now <? pl_expires_at entry then Ready LAUNCHER_PROTOCOL_VERSION (pl_spec entry)
         else Rejected LAUNCHER_PROTOCOL_VERSION "expired_token"
     | None => Rejected LAUNCHER_PROTOCOL_VERSION "unknown_or_used_token"
     end, mkBroker (delete (lr_token request) (pending s))).

(** [read_frame] and [write_frame] of the broker, for any value. *)
Definition read_frame {T} (decode : list N -> result T string) : list N -> result T Anyhow :=
  decoded_frame decode MAX_LAUNCHER_FRAME_BYTES "launch request exceeds maximum frame size" "invalid launch request".
Definition write_frame {T} (encode : T -> result (list N) string) : T -> result (list N) Anyhow :=
  frame_of encode MAX_LAUNCHER_FRAME_BYTES "launch response exceeds maximum frame size".

(** [read_frame] and [write_frame] of the launcher. *)
Definition launcher_read_frame {T} (decode : list N -> result T string) : list N -> result T Anyhow :=
  decoded_frame decode MAX_LAUNCHER_FRAME_BYTES "launch response exceeds maximum frame size" "invalid launch broker response".
Definition launcher_write_frame {T} (encode : T -> result (list N) string) : T -> result (list N) Anyhow :=
  frame_of encode MAX_LAUNCHER_FRAME_BYTES "launch request exceeds maximum frame size".

Section Wire.
Context (encode_request : LauncherRequest -> result (list N) string) (decode_request : list N -> result LauncherRequest string).
Context (encode_response : LauncherResponse -> result (list N) string) (decode_response : list N -> result LauncherResponse string).

(** One connection: what was received on it, and what is sent back. *)
Definition serve_connection (received : list N) (now : N) (s : BrokerState) : result (list N) Anyhow * BrokerState :=
  match read_frame decode_request received with
  | Err e => (Err e, s)
  | Ok request => let '(response, s') := respond request now s in (write_frame encode_response response, s')
  end.

(** ** The launcher *)

(** What the system says of the endpoint: whether it is a socket, whether it connects, and
    whether it takes a timeout for reads and for writes. *)
Record Endpoint := mkEndpoint {
  ep_path : string;
  ep_is_socket : result bool string;
  ep_connects : result unit string;
  ep_read_timeout : N -> result unit string;
  ep_write_timeout : N -> result unit string;
}.

(** [Duration::from_secs(10)], in nanoseconds. *)
Definition SOCKET_TIMEOUT : N := 10 * 1000000000.

(** [exchange timeout sent]: what comes back for [sent] when no read and no write may last
    longer; a timeout that passes is one of its errors. *)
Definition request_launch_spec (endpoint : Endpoint) (token : LaunchToken) (exchange : N -> list N -> result (list N) Anyhow) :
    result LaunchSpec Anyhow :=
  if negb (is_absolute (ep_path endpoint)) then bail "launcher socket must be absolute"
  else
    let? is_socket := with_context ("launcher socket " +:+ ep_path endpoint +:+ " is unavailable") (ep_is_socket endpoint) in
    if negb is_socket then bail "launcher endpoint is not a Unix socket"
    else
      let? _ := with_context "failed to connect to launch broker" (ep_connects endpoint) in
      let? _ := map_err (fun e => [e]) (ep_read_timeout endpoint SOCKET_TIMEOUT) in
      let? _ := map_err (fun e => [e]) (ep_write_timeout endpoint SOCKET_TIMEOUT) in
      let? sent := launcher_write_frame encode_request (mkLauncherRequest LAUNCHER_PROTOCOL_VERSION token) in
      let? reply := exchange SOCKET_TIMEOUT sent in
      let? response := launcher_read_frame decode_response reply in
      match response with
      | Ready version spec =>
          if version =? LAUNCHER_PROTOCOL_VERSION
          then let? _ := map_err (fun e => [e]) (LaunchSpec_validate spec) in Ok spec
          else bail ("launch broker returned unsupported version " +:+ pretty version)
      | Rejected version code => bail ("launch broker rejected request (version " +:+ pretty version +:+ ", code " +:+ code +:+ ")")
      end.

(** What the process replaces itself with: nothing of its own environment is kept. *)
Record Exec := mkExec { ex_program : string; ex_args : list string; ex_cwd : string; ex_environment : gmap string string }.
Definition replace_process (spec : LaunchSpec) : Exec := mkExec (ls_executable spec) (ls_args spec) (ls_cwd spec) (ls_environment spec).

Definition LaunchToken_parse (uuid_simple : string -> option string) (value : string) : result LaunchToken string := ok_or (uuid_simple value) "launch token is not a UUID".

Definition launcher_main (uuid_simple : string -> option string) (endpoint : Endpoint) (argument : string) (exchange : N -> list N -> result (list N) Anyhow) : result Exec Anyhow :=
  let? token := map_err (fun e => [e]) (LaunchToken_parse uuid_simple argument) in
  let? spec := request_launch_spec endpoint token exchange in
  Ok (replace_process spec).

(** ** The probe *)

Inductive ConnectOutcome := Connected | RefusedConnection | OtherFailure (error : string).

(** [answer]: [None] when the deadline passes. *)
Definition probe (connect : ConnectOutcome) (token : LaunchToken) (answer : list N -> option (result (list N) Anyhow))
    (string_debug : string -> string) (error_display : Anyhow -> string) : BrokerProbe :=
  match connect with
  | RefusedConnection => ConnectRefused
  | OtherFailure error => ConnectFailed error
  | Connected =>
      match write_frame encode_request (mkLauncherRequest PROBE_PROTOCOL_VERSION token) with
      | Err e => UnexpectedAnswer ("an unreadable frame: " +:+ error_display e)
      | Ok sent =>
          match answer sent with
          | None => ProbeTimedOut
          | Some received =>
              match (let? reply := received in read_frame decode_response reply) with
              | Err e => UnexpectedAnswer ("an unreadable frame: " +:+ error_display e)
              | Ok (Rejected version code) =>
                  if (version =? LAUNCHER_PROTOCOL_VERSION) && String.eqb code UNSUPPORTED_VERSION_CODE then Exchanged
                  else UnexpectedAnswer ("a rejection carrying version " +:+ pretty version +:+ " and code " +:+ string_debug code)
              | Ok (Ready version _) => UnexpectedAnswer ("a READY spec for an unregistered token at version " +:+ pretty version)
              end
          end
      end
  end.

(** ** Histories *)

(** What happens to a broker, in the order in which its lock is taken. *)
Inductive Step :=
| Register (spec : LaunchSpec) (ttl : N) (token : LaunchToken) (at_ : LaunchToken -> N) (now : N)
| Connect (received : list N) (now : N)
| Revoke (token : LaunchToken).

Definition step (s : BrokerState) (e : Step) : BrokerState :=
  match e with
  | Register spec ttl token at_ now => snd (register_with_ttl spec ttl token at_ now s)
  | Connect received now => snd (serve_connection received now s)
  | Revoke token => snd (revoke token s)
  end.

Definition after (history : list Step) : BrokerState := foldl step BrokerState_new history.

Inductive CreateTerminalError (E : Type) := LaunchRegistration (error : Anyhow) | BackendError (error : E).

(** [PrivateRuntime::create_terminal]: [meanwhile] is what happens while the terminal is
    being created. *)
Definition create_terminal {T E} (spec : LaunchSpec) (token : LaunchToken) (at_ : LaunchToken -> N) (now : N)
    (meanwhile : list Step) (created : LaunchToken -> result T E) (s : BrokerState) : result T (CreateTerminalError E) * BrokerState :=
  match register spec token at_ now s with
  | (Err e, s) => (Err (LaunchRegistration E e), s)
  | (Ok token, s) =>
      let s := foldl step s meanwhile in
      match created token with
      | Ok terminal => (Ok terminal, s)
      | Err e => (Err (BackendError E e), snd (revoke token s))
      end
  end.

(** ** Who gets a specification *)

(** The connection presents [token]. *)
Definition presents (token : LaunchToken) (received : list N) : Prop :=
  read_frame decode_request received = Ok (mkLauncherRequest LAUNCHER_PROTOCOL_VERSION token).

(** The step neither presents nor revokes [token]. *)
Definition leaves (token : LaunchToken) (e : Step) : Prop :=
  match e with
  | Register _ _ _ _ _ => True
  | Connect received _ => ~ presents token received
  | Revoke token' => token' <> token
  end.

(** The tokens of a history, and that the clock was not past [now] at any of its purges. *)
Definition tokens (history : list Step) : list LaunchToken :=
  omap (fun e => match e with Register _ _ token _ _ => Some token | _ => None end) history.
Definition read_before (now : N) (e : Step) : Prop :=
  match e with Register _ _ _ at_ _ => forall token, at_ token <= now | _ => True end.

(** [spec] was registered for [token] and is still to be had at [now]. *)
Definition outstanding (history : list Step) (token : LaunchToken) (spec : LaunchSpec) (now : N) : Prop :=
  exists before ttl at_ registered since,
    history = (before ++ Register spec ttl token at_ registered :: since)%list
    /\ LaunchSpec_validate spec = Ok tt /\ ttl <> 0 /\ now < registered + ttl /\ Forall (leaves token) since.

Lemma after_snoc history e : after (history ++ [e]) = step (after history) e.
Proof. unfold after. by rewrite foldl_app. Qed.

Lemma register_spec spec ttl token at_ now s :
  (exists e, register_with_ttl spec ttl token at_ now s = (Err e, s) /\ (LaunchSpec_validate spec <> Ok tt \/ ttl = 0))
  \/ LaunchSpec_validate spec = Ok tt /\ ttl <> 0
     /\ register_with_ttl spec ttl token at_ now s
       = (Ok token, mkBroker (<[token := mkPending spec (now + ttl)]> (filter (fun kv => at_ (fst kv) < pl_expires_at (snd kv)) (pending s)))).
Proof.
  unfold register_with_ttl, bail. destruct (LaunchSpec_validate spec) as [[]|e]; simpl; [|left; eauto].
  destruct (N.eqb_spec ttl 0); [left; eauto|by right].
Qed.

Lemma step_connect received now s :
  step s (Connect received now)
  = match read_frame decode_request received with
    | Ok request => if lr_version request =? LAUNCHER_PROTOCOL_VERSION then mkBroker (delete (lr_token request) (pending s)) else s
    | Err _ => s
    end.
Proof. simpl. unfold serve_connection, respond. destruct (read_frame _ _) as [r|]; [|done]. by destruct (lr_version r =? _). Qed.

(** A step that keeps an entry leaves its token alone. *)
Lemma broker_step_keeps s e token entry :
  pending (step s e) !! token = Some entry ->
  leaves token e /\ pending s !! token = Some entry
  \/ exists spec ttl at_ now, e = Register spec ttl token at_ now /\ entry = mkPending spec (now + ttl)
       /\ LaunchSpec_validate spec = Ok tt /\ ttl <> 0.
Proof.
  destruct e as [spec ttl t at_ now|received now|t].
  - simpl. destruct (register_spec spec ttl t at_ now s) as [(? & -> & _)|(? & ? & ->)]; simpl; [by left|].
    intros [[-> <-]|[? [? _]%map_lookup_filter_Some]]%lookup_insert_Some; [right|left; done]. by repeat eexists.
  - rewrite step_connect. simpl. unfold presents. destruct (read_frame _ _) as [[version t]|]; simpl; [|by left].
    destruct (N.eqb_spec version LAUNCHER_PROTOCOL_VERSION); simpl; [|intros; left; split; [congruence|done]].
    intros [? ?]%lookup_delete_Some. left. split; [congruence|done].
  - simpl. intros [? ?]%lookup_delete_Some. by left.
Qed.

Lemma pending_registered history token entry now :
  pending (after history) !! token = Some entry -> now < pl_expires_at entry ->
  outstanding history token (pl_spec entry) now.
Proof.
  revert entry. induction history as [|e history IH] using rev_ind; intros entry; [done|].
  rewrite after_snoc. intros [[Hl H]|(spec & ttl & at_ & reg & -> & -> & Hv & Ht)]%broker_step_keeps Hnow.
  - destruct (IH _ H Hnow) as (before & ttl & at_ & reg & since & -> & Hv & Ht & Hn & Hs).
    exists before, ttl, at_, reg, (since ++ [e])%list. rewrite <-app_assoc. repeat split; try done.
    apply Forall_app. by repeat constructor.
  - exists history, ttl, at_, reg, []. by repeat split.
Qed.

(** Nothing but a presentation, a revocation or its expiry takes an entry away. *)
Lemma step_preserves s e token entry now :
  leaves token e -> read_before now e -> token ∉ tokens [e] -> now < pl_expires_at entry ->
  pending s !! token = Some entry -> pending (step s e) !! token = Some entry.
Proof.
  intros Hl Hr Ht Hn H. destruct e as [spec ttl t at_ reg|received reg|t].
  - simpl. destruct (register_spec spec ttl t at_ reg s) as [(? & -> & _)|(? & ? & ->)]; simpl; [done|].
    apply lookup_insert_Some. right. split; [set_solver|]. apply map_lookup_filter_Some. split; [done|].
    simpl. specialize (Hr token). lia.
  - rewrite step_connect. unfold leaves, presents in Hl. destruct (read_frame _ _) as [[version t]|]; simpl; [|done].
    destruct (N.eqb_spec version LAUNCHER_PROTOCOL_VERSION); simpl; [|done].
    apply lookup_delete_Some. split; [congruence|done].
  - simpl. by apply lookup_delete_Some.
Qed.

Lemma outstanding_pending history token spec now :
  NoDup (tokens history) -> Forall (read_before now) history -> outstanding history token spec now ->
  exists entry, pending (after history) !! token = Some entry /\ pl_spec entry = spec /\ now < pl_expires_at entry.
Proof.
  intros Hd Hr (before & ttl & at_ & reg & since & -> & Hv & Ht & Hn & Hs).
  exists (mkPending spec (reg + ttl)). split; [|done].
  unfold tokens in Hd. rewrite omap_app in Hd. simpl in Hd. apply NoDup_app in Hd as (_ & _ & [Hd _]%NoDup_cons).
  apply Forall_app in Hr as [_ [_ Hr]%Forall_cons].
  unfold after. rewrite foldl_app. simpl. set (s := foldl step BrokerState_new before).
  assert (pending (snd (register_with_ttl spec ttl token at_ reg s)) !! token = Some (mkPending spec (reg + ttl))) as H0.
  { destruct (register_spec spec ttl token at_ reg s) as [(? & _ & [?|?])|(_ & _ & ->)]; [done..|]. simpl. by rewrite lookup_insert_eq. }
  revert H0. generalize (snd (register_with_ttl spec ttl token at_ reg s)). clear s.
  induction since as [|e since IH]; intros s H0; simpl; [done|].
  apply Forall_cons in Hr as [? ?], Hs as [? ?]. apply IH; try done.
  - intros Hin. apply Hd. simpl. destruct e; simpl in *; set_solver.
  - eapply step_preserves; try done. simpl. intros Hin. apply Hd. destruct e; simpl in *; set_solver.
Qed.

(** A connection is answered with a specification exactly when it presents, in the
    current protocol, the token that specification was registered for, before the token's
    time is up, and no earlier connection presented the token and nobody revoked it. *)
Lemma answered_is_outstanding history request now spec :
  NoDup (tokens history) -> Forall (read_before now) history ->
  fst (respond request now (after history)) = Ready LAUNCHER_PROTOCOL_VERSION spec <->
  lr_version request = LAUNCHER_PROTOCOL_VERSION /\ outstanding history (lr_token request) spec now.
Proof.
  intros Hd Hr. unfold respond. destruct (N.eqb_spec (lr_version request) LAUNCHER_PROTOCOL_VERSION) as [Hv|Hv]; simpl; [|naive_solver].
  split.
  - intros H. split; [done|]. destruct (pending _ !! _) as [entry|] eqn:E; [|done].
    destruct (N.ltb_spec now (pl_expires_at entry)); [|done]. injection H as <-. by eapply pending_registered.
  - intros (_ & Ho). destruct (outstanding_pending _ _ _ _ Hd Hr Ho) as (entry & -> & <- & Hn).
    by apply N.ltb_lt in Hn as ->.
Qed.

Lemma absent_stays_absent since token s :
  token ∉ tokens since -> pending s !! token = None -> pending (foldl step s since) !! token = None.
Proof.
  revert s. induction since as [|e since IH]; intros s Ht H; simpl; [done|]. apply IH.
  - intros Hin. apply Ht. destruct e; simpl in *; set_solver.
  - apply eq_None_not_Some. intros [entry [[_ ?]|(? & ? & ? & ? & -> & _)]%broker_step_keeps]; [congruence|]. apply Ht. simpl. set_solver.
Qed.

(** A token that was presented is spent. *)
Lemma presented_is_spent history received now since token :
  NoDup (tokens (history ++ Connect received now :: since)) -> token ∈ tokens history -> presents token received ->
  pending (after (history ++ Connect received now :: since)) !! token = None.
Proof.
  intros Hd Ht Hp. unfold after. rewrite foldl_app. cbn [foldl]. apply absent_stays_absent.
  - unfold tokens in Hd. rewrite omap_app in Hd. simpl in Hd. apply NoDup_app in Hd as (_ & Hd & _). by apply Hd.
  - rewrite step_connect. unfold presents in Hp. rewrite Hp. simpl. by rewrite lookup_delete_eq.
Qed.

Lemma outstanding_token history token spec now : outstanding history token spec now -> token ∈ tokens history.
Proof.
  intros (before & ttl & at_ & reg & since & -> & _). unfold tokens. rewrite omap_app. simpl. set_solver.
Qed.

(** *** Frames *)

Lemma from_to_be_bytes n :
  from_be_bytes (n / 16777216) ((n / 65536) mod 256) ((n / 256) mod 256) (n mod 256) = n.
Proof.
  unfold from_be_bytes.
  replace (n / 65536) with (n / 256 / 256) by (rewrite N.Div0.div_div; done).
  replace (n / 16777216) with (n / 256 / 256 / 256) by (rewrite !N.Div0.div_div; done).
  rewrite (N.mul_comm (n / 256 / 256 / 256) 256), <-N.Div0.div_mod, (N.mul_comm (n / 256 / 256) 256), <-N.Div0.div_mod,
    (N.mul_comm (n / 256) 256), <-N.Div0.div_mod. done.
Qed.

Lemma framed_roundtrip maximum oversized oversized' payload sent rest :
  framed maximum oversized payload = Ok sent -> payload_of maximum oversized' (sent ++ rest)%list = Ok payload.
Proof.
  unfold framed, bail. intros H. res_inv. subst sent.
  apply N.ltb_ge in G, G0. unfold payload_of. simpl.
  rewrite from_to_be_bytes. destruct (N.ltb_spec maximum (N.of_nat (length payload))); [lia|].
  rewrite length_app. destruct (N.ltb_spec (N.of_nat (length payload + length rest)) (N.of_nat (length payload))); [lia|].
  by rewrite Nnat.Nat2N.id, take_app_length.
Qed.

(** What one end writes the other end reads, whatever follows it. *)
Lemma frame_roundtrip {T} (encode : T -> result (list N) string) (decode : list N -> result T string) maximum oversized oversized' invalid value sent rest :
  (forall payload, encode value = Ok payload -> decode payload = Ok value) ->
  frame_of encode maximum oversized value = Ok sent ->
  decoded_frame decode maximum oversized' invalid (sent ++ rest)%list = Ok value.
Proof.
  intros Hc. unfold frame_of, decoded_frame. intros H. apply result_bind_Ok in H as (payload & Hp%map_err_Ok & H).
  rewrite (framed_roundtrip _ _ _ _ _ rest H). simpl. by rewrite (Hc payload).
Qed.

(** *** The launcher against the broker *)

Hypothesis request_codec : forall request payload, encode_request request = Ok payload -> decode_request payload = Ok request.
Hypothesis response_codec : forall response payload, encode_response response = Ok payload -> decode_response payload = Ok response.

(** The launcher's request as the broker sees it, and the broker's answer as the launcher does. *)
Lemma launcher_frame_presents token sent :
  launcher_write_frame encode_request (mkLauncherRequest LAUNCHER_PROTOCOL_VERSION token) = Ok sent -> presents token sent.
Proof.
  intros H. unfold presents. rewrite <-(app_nil_r sent). unfold read_frame, launcher_write_frame in *.
  eapply frame_roundtrip; [|done]. by apply request_codec.
Qed.

Lemma broker_frame_is_read response reply : write_frame encode_response response = Ok reply -> launcher_read_frame decode_response reply = Ok response.
Proof.
  intros H. rewrite <-(app_nil_r reply). unfold launcher_read_frame, write_frame in *.
  eapply frame_roundtrip; [|done]. by apply response_codec.
Qed.

Definition usable (endpoint : Endpoint) : Prop :=
  is_absolute (ep_path endpoint) = true /\ ep_is_socket endpoint = Ok true /\ ep_connects endpoint = Ok tt
  /\ ep_read_timeout endpoint SOCKET_TIMEOUT = Ok tt /\ ep_write_timeout endpoint SOCKET_TIMEOUT = Ok tt.

(** What the launcher does with the answer of a broker in state [s]. *)
Lemma launcher_outcome endpoint token now s spec :
  request_launch_spec endpoint token (fun _ sent => fst (serve_connection sent now s)) = Ok spec <->
  usable endpoint /\ LaunchSpec_validate spec = Ok tt
  /\ fst (respond (mkLauncherRequest LAUNCHER_PROTOCOL_VERSION token) now s) = Ready LAUNCHER_PROTOCOL_VERSION spec
  /\ is_ok (launcher_write_frame encode_request (mkLauncherRequest LAUNCHER_PROTOCOL_VERSION token)) = true
  /\ is_ok (write_frame encode_response (Ready LAUNCHER_PROTOCOL_VERSION spec)) = true.
Proof.
  unfold request_launch_spec, usable, serve_connection, with_context, bail.
  destruct (is_absolute _); simpl negb; cbn iota; [|naive_solver].
  destruct (ep_is_socket endpoint) as [[]|]; cbn [result_bind negb]; [|naive_solver..].
  destruct (ep_connects endpoint) as [[]|]; cbn [result_bind]; [|naive_solver].
  destruct (ep_read_timeout endpoint _) as [[]|]; cbn [result_bind map_err]; [|naive_solver].
  destruct (ep_write_timeout endpoint _) as [[]|]; cbn [result_bind map_err]; [|naive_solver].
  destruct (launcher_write_frame _ _) as [sent|] eqn:Es; cbn [result_bind is_ok]; [|naive_solver].
  pose proof (launcher_frame_presents _ _ Es) as Hp. unfold presents in Hp. rewrite Hp.
  destruct (respond _ now s) as [response s'] eqn:Er; cbn [fst].
  destruct (write_frame encode_response response) as [reply|] eqn:Ew; cbn [result_bind].
  - rewrite (broker_frame_is_read _ _ Ew). cbn [result_bind]. destruct response as [version spec'|version code]; [|naive_solver].
    assert (version = LAUNCHER_PROTOCOL_VERSION) as ->.
    { unfold respond in Er. repeat case_match; naive_solver. }
    rewrite N.eqb_refl. destruct (LaunchSpec_validate spec') as [[]|] eqn:Ev; cbn [result_bind map_err].
    + split; [|by intros (_ & _ & [= ->] & _)]. intros [= <-]. by rewrite Ew.
    + split; [done|]. intros (_ & ? & [= ->] & _). congruence.
  - split; [done|]. intros (_ & _ & -> & _ & H). by rewrite Ew in H.
Qed.

(** The process runs the program of the specification, on its arguments, in its directory,
    with its environment and nothing else. *)
Definition runs (spec : LaunchSpec) (process : Exec) : Prop :=
  ex_program process = ls_executable spec /\ ex_args process = ls_args spec /\ ex_cwd process = ls_cwd spec
  /\ ex_environment process = ls_environment spec.

(** C21. A launcher that replaces itself runs exactly the program, arguments, directory and
    environment registered for the token on its command line, which was outstanding; it does
    so whenever its endpoint is usable, the frames fit and the broker answers in time; and
    from then on, whatever happens, no launcher gets anything for that token. Tokens are
    never registered twice, no purge read a clock that is ahead of the launcher's instant,
    and what is encoded is decoded to itself. *)
Theorem launcher_becomes_the_registered_process uuid_simple endpoint argument history now :
  NoDup (tokens history) -> Forall (read_before now) history ->
  let exchange (_ : N) sent := fst (serve_connection sent now (after history)) in
  (forall process, launcher_main uuid_simple endpoint argument exchange = Ok process ->
     exists token spec, uuid_simple argument = Some token /\ runs spec process /\ outstanding history token spec now
     /\ exists sent, launcher_write_frame encode_request (mkLauncherRequest LAUNCHER_PROTOCOL_VERSION token) = Ok sent
     /\ forall since endpoint' argument' now', NoDup (tokens (history ++ Connect sent now :: since)) -> uuid_simple argument' = Some token ->
        is_ok (launcher_main uuid_simple endpoint' argument'
                 (fun _ sent' => fst (serve_connection sent' now' (after (history ++ Connect sent now :: since))))) = false)
  /\ (forall token spec, uuid_simple argument = Some token -> usable endpoint -> outstanding history token spec now ->
     is_ok (launcher_write_frame encode_request (mkLauncherRequest LAUNCHER_PROTOCOL_VERSION token)) = true ->
     is_ok (write_frame encode_response (Ready LAUNCHER_PROTOCOL_VERSION spec)) = true ->
     exists process, launcher_main uuid_simple endpoint argument exchange = Ok process /\ runs spec process).
Proof.
  intros Hd Hr exchange. split.
  - intros process H. unfold launcher_main, LaunchToken_parse in H. res_inv. subst process. rename x into token, x0 into spec.
    match goal with H : request_launch_spec _ _ _ = _ |- _ => apply launcher_outcome in H as (_ & _ & Ha & Hs & _) end.
    apply answered_is_outstanding in Ha as [_ Ho]; [|done..]. simpl in Ho.
    destruct (launcher_write_frame _ _) as [sent|] eqn:Es; [|done].
    exists token, spec. repeat split; try done. exists sent. split; [done|].
    intros since endpoint' argument' now' Hd' Hu. unfold launcher_main, LaunchToken_parse. rewrite Hu. simpl.
    destruct (request_launch_spec _ _ _) as [spec'|] eqn:E; [|done]. apply launcher_outcome in E as (_ & _ & E & _).
    unfold respond in E. simpl in E. by rewrite (presented_is_spent history sent now since token) in E
      by eauto using outstanding_token, launcher_frame_presents.
  - intros token spec Hu He Ho H1 H2. unfold launcher_main, LaunchToken_parse. rewrite Hu. simpl.
    replace (request_launch_spec endpoint token exchange) with (@Ok LaunchSpec Anyhow spec); [by eexists|].
    symmetry. apply launcher_outcome. split_and!; try done.
    + destruct Ho as (? & ? & ? & ? & ? & _ & ? & _). done.
    + by apply answered_is_outstanding.
Qed.

(** *** Diagnosis and rollback *)

(** The probe is answered without a token being looked up: it spends nothing, and a broker
    that serves it is reported as exchanged. *)
Theorem probe_spends_nothing token now s string_debug error_display :
  is_ok (write_frame encode_request (mkLauncherRequest PROBE_PROTOCOL_VERSION token)) = true ->
  is_ok (write_frame encode_response (Rejected LAUNCHER_PROTOCOL_VERSION UNSUPPORTED_VERSION_CODE)) = true ->
  probe Connected token (fun sent => Some (fst (serve_connection sent now s))) string_debug error_display = Exchanged
  /\ forall sent, write_frame encode_request (mkLauncherRequest PROBE_PROTOCOL_VERSION token) = Ok sent -> snd (serve_connection sent now s) = s.
Proof.
  intros Hq Hp. unfold probe.
  destruct (write_frame encode_request _) as [sent|] eqn:Es; [|done].
  assert (read_frame decode_request sent = Ok (mkLauncherRequest PROBE_PROTOCOL_VERSION token)) as Hd.
  { rewrite <-(app_nil_r sent). unfold read_frame, write_frame in *. eapply frame_roundtrip; [|done]. by apply request_codec. }
  unfold serve_connection. split; [|intros sent' [= <-]]; rewrite Hd; [|done].
  change (respond (mkLauncherRequest PROBE_PROTOCOL_VERSION token) now s)
    with (Rejected LAUNCHER_PROTOCOL_VERSION UNSUPPORTED_VERSION_CODE, s). cbn [fst].
  destruct (write_frame encode_response _) as [reply|] eqn:Er; [|done]. cbn [result_bind].
  replace (read_frame decode_response reply) with (@Ok LauncherResponse Anyhow (Rejected LAUNCHER_PROTOCOL_VERSION UNSUPPORTED_VERSION_CODE)); [reflexivity|].
  symmetry. rewrite <-(app_nil_r reply). unfold read_frame, write_frame in *. eapply frame_roundtrip; [|done]. by apply response_codec.
Qed.

(** When the terminal could not be created its token is worth nothing, whatever happened
    in between. *)
Theorem failed_create_revokes {T E} spec token at_ now meanwhile (created : LaunchToken -> result T E) s e :
  created token = Err e -> LaunchSpec_validate spec = Ok tt ->
  fst (create_terminal spec token at_ now meanwhile created s) = Err (BackendError E e)
  /\ pending (snd (create_terminal spec token at_ now meanwhile created s)) !! token = None.
Proof.
  intros Hc Hv. unfold create_terminal, register, register_with_ttl. rewrite Hv. simpl. rewrite Hc. simpl.
  by rewrite lookup_delete_eq.
Qed.

End Wire.

(** ** Examples *)

Module BrokerDemo.

Definition demo_spec : LaunchSpec := mkLaunchSpec "/bin/claude" ["--session-id"; "7"] "/work" {["HOME" := "/home"]}.
Definition demo_token : LaunchToken := "0123456789abcdef0123456789abcdef".

#[local] Instance LaunchSpec_eq_dec : EqDecision LaunchSpec.
Proof. solve_decision. Defined.
#[local] Instance LauncherRequest_eq_dec : EqDecision LauncherRequest.
Proof. solve_decision. Defined.
#[local] Instance LauncherResponse_eq_dec : EqDecision LauncherResponse.
Proof. solve_decision. Defined.

(** A code for the messages of this example. *)
Definition code {T} `{EqDecision T} (table : list (T * N)) (value : T) : result (list N) string :=
  match List.find (fun kv => bool_decide (fst kv = value)) table with Some (_, n) => Ok [n] | None => Err "not a message" end.
Definition uncode {T} (table : list (T * N)) (payload : list N) : result T string :=
  match payload with
  | [n] => match List.find (fun kv => snd kv =? n) table with Some (value, _) => Ok value | None => Err "not a message" end
  | _ => Err "not a message"
  end.

Definition requests : list (LauncherRequest * N) := [(mkLauncherRequest 1 demo_token, 1); (mkLauncherRequest 2 demo_token, 2)].
Definition responses : list (LauncherResponse * N) :=
  [(Ready 1 demo_spec, 1); (Rejected 1 "unknown_or_used_token", 2); (Rejected 1 "expired_token", 3); (Rejected 1 UNSUPPORTED_VERSION_CODE, 4)].

Lemma requests_codec request payload : code requests request = Ok payload -> uncode requests payload = Ok request.
Proof. unfold code. simpl. repeat case_bool_decide; intros [= <-]; subst; reflexivity. Defined.
Lemma responses_codec response payload : code responses response = Ok payload -> uncode responses payload = Ok response.
Proof. unfold code. simpl. repeat case_bool_decide; intros [= <-]; subst; reflexivity. Defined.

Definition demo_endpoint : Endpoint := mkEndpoint "/run/launcher.sock" (Ok true) (Ok tt) (fun _ => Ok tt) (fun _ => Ok tt).
Definition demo_uuid (value : string) : option string := if String.eqb value demo_token then Some demo_token else None.
Definition demo_history : list Step := [Register demo_spec 30 demo_token (fun _ => 5) 5].

Lemma launcher_becomes_the_registered_process_witness :
  launcher_main (code requests) (uncode responses) demo_uuid demo_endpoint demo_token
    (fun _ sent => fst (serve_connection (uncode requests) (code responses) sent 20 (after (uncode requests) (code responses) demo_history)))
  = Ok (mkExec "/bin/claude" ["--session-id"; "7"] "/work" {["HOME" := "/home"]}).
Proof.
  edestruct (launcher_becomes_the_registered_process (code requests) (uncode requests) (code responses) (uncode responses)
           requests_codec responses_codec demo_uuid demo_endpoint demo_token demo_history 20)
    as [_ Hb]; [| |destruct (Hb demo_token demo_spec) as ([program args cwd environment] & Hl & Hp & Ha & Hc & He)].
  - apply NoDup_singleton.
  - repeat constructor. simpl. intros _. lia.
  - reflexivity.
  - by repeat split.
  - exists [], 30, (fun _ => 5), 5, []. split_and!; [reflexivity|vm_compute; reflexivity|lia|lia|constructor].
  - vm_compute. reflexivity.
  - vm_compute. reflexivity.
  - cbn in Hp, Ha, Hc, He. by subst.
Defined.

(** A second launcher with the same token is turned away. *)
Example second_launcher_is_refused :
  launcher_main (code requests) (uncode responses) demo_uuid demo_endpoint demo_token
    (fun _ sent => fst (serve_connection (uncode requests) (code responses) sent 21
                        (after (uncode requests) (code responses) (demo_history ++ [Connect [0; 0; 0; 1; 1] 20]))))
  = bail "launch broker rejected request (version 1, code unknown_or_used_token)".
Proof. vm_compute. reflexivity. Qed.

End BrokerDemo.
