(* ===== verification/Hooks.v ===== *)
(** * Hybrid lifecycle hooks

    [crates/service/src/hybrid_hooks.rs], the client [bin/pmux-hook/src/main.rs] and the
    counter [SessionLifecycle] keeps in [crates/service/src/native.rs]: how the caller's
    settings and pmux's hooks become one document, how a hook reaches the relay, and what
    the relay tells the session. serde_json, UUIDs and the file system are parameters. *)

From S2P Require Import Prelude Text Protocol Parser Transcript Session Screen Locator LaunchEnv Launch Broker.

#[local] Open Scope string_scope.
#[local] Open Scope N_scope.

Definition HOOK_RELAY_PROTOCOL_VERSION : N := 1.
Definition MAX_HOOK_FRAME_BYTES : N := 64 * 1024.
Definition MAX_SETTINGS_BYTES : N := 1024 * 1024.
Definition MAX_HOOK_TIMEOUT_MS : N := 10 * 60 * 1000.
Definition MAX_RELAY_CONNECTIONS : N := 16.

Inductive LifecycleEventKind := SessionStart | Stop | StopFailure.

#[global] Instance LifecycleEventKind_eq_dec : EqDecision LifecycleEventKind.
Proof. solve_decision. Defined.

Definition LifecycleEventKind_ALL : list LifecycleEventKind := [SessionStart; Stop; StopFailure].

Definition event_str (e : LifecycleEventKind) : string :=
  match e with SessionStart => "SessionStart" | Stop => "Stop" | StopFailure => "StopFailure" end.

(** ** Settings *)

Definition HOOKS : string := "hooks".

(** [path] is where the two values lie in their documents. *)
Fixpoint merge_settings (path : list string) (incoming target : json) {struct incoming} : result json Anyhow :=
  let same := if json_eqb target incoming then Ok target else bail "settings sources conflict and cannot be composed safely" in
  match incoming, target with
  | JObj entries, JObj map =>
      (fix go (entries : list (string * json)) (map : list (string * json)) : result json Anyhow :=
         match entries with
         | [] => Ok (JObj map)
         | (key, value) :: entries' =>
             match obj_get key map with
             | Some existing =>
                 let? merged := merge_settings (path ++ [key])%list value existing in
                 go entries' (obj_insert key merged map)
             | None => go entries' (obj_insert key value map)
             end
         end) entries map
  | JArr more, JArr items => if bool_decide (head path = Some HOOKS) then Ok (JArr (items ++ more)%list) else same
  | _, _ => same
  end.

Definition is_object (j : json) : bool := match j with JObj _ => true | _ => false end.

Section Settings.
Context (read_settings_file : string -> result json Anyhow).

Definition compose_caller_settings (sources : list ConfigSource) : result json Anyhow :=
  try_fold (fun composed source =>
    let? incoming := match source with SourceInline document => Ok document | SourceFile path => read_settings_file path end in
    if negb (is_object incoming) then bail "each settings source must contain a JSON object"
    else merge_settings [] incoming composed) sources (JObj []).
End Settings.

(** A settings file as it is opened and read. *)
Record SettingsFile := mkSettingsFile { sf_is_file : bool; sf_len : N; sf_bytes : result (list N) string }.

Section ReadSettings.
Context (canonicalize : string -> result string string) (open : string -> result SettingsFile string)
        (from_slice : list N -> result json string).

Definition read_settings_file (path : string) : result json Anyhow :=
  if negb (is_absolute path) then bail "settings source path must be absolute"
  else
    let? path := with_context "failed to canonicalize a settings source" (canonicalize path) in
    let? file := with_context "failed to read a settings source" (open path) in
    if negb (sf_is_file file) then bail "settings source must be a regular file"
    else if MAX_SETTINGS_BYTES <? sf_len file then bail "settings source exceeds the size limit"
    else
      let? all := with_context "failed to read a settings source" (sf_bytes file) in
      let bytes := take (N.to_nat (MAX_SETTINGS_BYTES + 1)) all in
      if MAX_SETTINGS_BYTES <? N.of_nat (length bytes) then bail "settings source exceeds the size limit"
      else with_context "settings source is not valid JSON" (from_slice bytes).
End ReadSettings.

(** *** The commands of the hooks *)

Definition QUOTE : N := 39.

(** A quote between double quotes, outside of single ones. *)
Definition DOUBLE_QUOTE : string := String (Ascii.ascii_of_N 34) EmptyString.
Definition QUOTED_QUOTE : string := "'" +:+ DOUBLE_QUOTE +:+ "'" +:+ DOUBLE_QUOTE +:+ "'".

(** [value.replace] of a quote by a quoted one. *)
Fixpoint quote_quotes (s : string) : string :=
  match s with
  | EmptyString => EmptyString
  | String c s' => (if Ascii.N_of_ascii c =? QUOTE then QUOTED_QUOTE else String c EmptyString) +:+ quote_quotes s'
  end.
Definition shell_quote (value : string) : string := "'" +:+ quote_quotes value +:+ "'".

(** [Path::to_str]. *)
Definition path_to_str (path context : string) : result string Anyhow :=
  match utf8_decode (bytes path) with Some _ => Ok path | None => bail context end.

Definition hook_command (hook_client socket_path session_id : string) (event : LifecycleEventKind) : result string Anyhow :=
  let? executable := path_to_str hook_client "hook client path must be UTF-8" in
  let? socket := path_to_str socket_path "hook relay path must be UTF-8" in
  Ok (shell_quote executable +:+ " --socket " +:+ shell_quote socket +:+ " --session-id " +:+ shell_quote session_id
      +:+ " --event " +:+ shell_quote (event_str event)).

Definition hook_entry (hook_client socket_path session_id : string) (timeout_seconds : N) (event : LifecycleEventKind) :
    result json Anyhow :=
  let? command := hook_command hook_client socket_path session_id event in
  Ok (jobj [(HOOKS, JArr [jobj [("type", JStr "command"); ("command", JStr command); ("timeout", JNum timeout_seconds)]])]).

Definition append_lifecycle_hooks (hook_client socket_path session_id : string) (timeout_ms : N) (document : json) : result json Anyhow :=
  let? root := ok_or (as_object document) ["composed settings root must be an object"] in
  let? hooks := ok_or (as_object (default (JObj []) (obj_get HOOKS root))) ["settings hooks value must be an object"] in
  let timeout_seconds := (timeout_ms + 999) / 1000 in
  let? hooks := try_fold (fun hooks event =>
    let? entries := ok_or (as_array (default (JArr []) (obj_get (event_str event) hooks))) ["lifecycle hook settings must be arrays"] in
    let? entry := hook_entry hook_client socket_path session_id timeout_seconds event in
    Ok (obj_insert (event_str event) (JArr (entries ++ [entry])%list) hooks))
    LifecycleEventKind_ALL hooks in
  Ok (JObj (obj_insert HOOKS (JObj hooks) root)).

(** ** What the shell makes of a command

    A reader of the part of the shell's language that quoting is about: words, single and
    double quotes. Whatever the shell would interpret, it refuses. *)

Inductive Lexing := Between | Bare (word : list N) | Single (word : list N) | Double (word : list N).

Definition is_plain (c : N) : bool := is_ascii_alphanumeric c || existsb (N.eqb c) [45; 95; 46; 47; 58; 61; 44; 43; 64; 37].
Definition is_expanded (c : N) : bool := existsb (N.eqb c) [36; 96; 92].

Fixpoint sh_read (mode : Lexing) (t : list N) : option (list (list N)) :=
  match t with
  | [] => match mode with Between => Some [] | Bare word => Some [word] | _ => None end
  | c :: t' =>
      match mode with
      | Between =>
          if c =? 32 then sh_read Between t'
          else if c =? QUOTE then sh_read (Single []) t'
          else if c =? 34 then sh_read (Double []) t'
          else if is_plain c then sh_read (Bare [c]) t' else None
      | Bare word =>
          if c =? 32 then words ← sh_read Between t'; Some (word :: words)
          else if c =? QUOTE then sh_read (Single word) t'
          else if c =? 34 then sh_read (Double word) t'
          else if is_plain c then sh_read (Bare (word ++ [c])) t' else None
      | Single word => if c =? QUOTE then sh_read (Bare word) t' else sh_read (Single (word ++ [c])) t'
      | Double word =>
          if c =? 34 then sh_read (Bare word) t'
          else if is_expanded c then None else sh_read (Double (word ++ [c])) t'
      end
  end.

Definition sh_words (command : string) : option (list (list N)) := sh_read Between (bytes command).

Lemma read_quoted_body value word rest :
  sh_read (Single word) (bytes (quote_quotes value) ++ QUOTE :: rest) = sh_read (Bare (word ++ bytes value)) rest.
Proof.
  revert word. induction value as [|c value IH]; intros word; [by rewrite app_nil_r|].
  cbn [quote_quotes]. rewrite bytes_app, <-app_assoc.
  replace (bytes (String c value)) with (Ascii.N_of_ascii c :: bytes value)%list by done.
  destruct (N.eqb_spec (Ascii.N_of_ascii c) QUOTE) as [->|Hc].
  - change (bytes QUOTED_QUOTE) with [39; 34; 39; 34; 39]. cbn -[bytes quote_quotes]. by rewrite IH, <-app_assoc.
  - change (bytes (String c EmptyString)) with [Ascii.N_of_ascii c]. cbn -[bytes quote_quotes].
    apply N.eqb_neq in Hc as ->. by rewrite IH, <-app_assoc.
Qed.

Lemma read_quoted value rest : sh_read Between (bytes (shell_quote value) ++ rest) = sh_read (Bare (bytes value)) rest.
Proof.
  unfold shell_quote. rewrite !bytes_app, <-!app_assoc. change (bytes "'") with [QUOTE]. cbn -[bytes quote_quotes].
  by rewrite read_quoted_body.
Qed.

Lemma read_plain t word rest : forallb is_plain t = true -> sh_read (Bare word) (t ++ rest) = sh_read (Bare (word ++ t)) rest.
Proof.
  revert word. induction t as [|c t IH]; intros word; [by rewrite app_nil_r|].
  intros [Hc Ht]%andb_true_iff. cbn. rewrite Hc.
  destruct (N.eqb_spec c 32) as [->|_]; [done|]. destruct (N.eqb_spec c QUOTE) as [->|_]; [done|].
  destruct (N.eqb_spec c 34) as [->|_]; [done|]. by rewrite IH, <-app_assoc.
Qed.

(** A word ends, a plain one follows, and the next begins. *)
Lemma read_flag word c flag rest :
  forallb is_plain (c :: flag) = true ->
  sh_read (Bare word) ((32 :: (c :: flag) ++ [32]) ++ rest) = words ← sh_read Between rest; Some (word :: (c :: flag) :: words)%list.
Proof.
  intros [Hc Hf]%andb_true_iff. cbn. rewrite Hc, <-app_assoc.
  destruct (N.eqb_spec c 32) as [->|_]; [done|]. destruct (N.eqb_spec c QUOTE) as [->|_]; [done|].
  destruct (N.eqb_spec c 34) as [->|_]; [done|]. rewrite read_plain by done. cbn.
  by destruct (sh_read Between rest).
Qed.

(** The command of a hook reads back as the words it was made of, whatever is in them. *)
Lemma hook_command_words hook_client socket_path session_id event command :
  hook_command hook_client socket_path session_id event = Ok command ->
  sh_words command
  = Some (bytes <$> [hook_client; "--socket"; socket_path; "--session-id"; session_id; "--event"; event_str event]).
Proof.
  unfold hook_command, path_to_str, bail. destruct (utf8_decode (bytes hook_client)); [|done].
  destruct (utf8_decode (bytes socket_path)); [|done]. cbn [result_bind]. intros [= <-]. unfold sh_words. rewrite !bytes_app, read_quoted.
  rewrite (read_flag _ 45 (bytes "-socket")), read_quoted by done. rewrite (read_flag _ 45 (bytes "-session-id")), read_quoted by done.
  rewrite (read_flag _ 45 (bytes "-event")) by done. rewrite <-(app_nil_r (bytes (shell_quote (event_str event)))), read_quoted.
  reflexivity.
Qed.

(** ** Values and their parts *)

Lemma json_nested_ind (P : json -> Prop) :
  P JNull -> (forall b, P (JBool b)) -> (forall n, P (JNum n)) -> (forall z, P (JNegInt z)) -> (forall f, P (JFloat f)) ->
  (forall s, P (JStr s)) -> (forall l, Forall P l -> P (JArr l)) -> (forall l, Forall (fun kv => P (snd kv)) l -> P (JObj l)) ->
  forall j, P j.
Proof.
  intros H1 H2 H3 H4 H5 H6 Ha Ho. fix IH 1. intros [| | | | | |l|l]; [exact H1|apply H2|apply H3|apply H4|apply H5|apply H6|apply Ha|apply Ho].
  - induction l as [|x l IHl]; constructor; [apply IH|exact IHl].
  - induction l as [|x l IHl]; constructor; [apply IH|exact IHl].
Qed.

(** Every object has each of its keys once, as a [serde_json::Map] has. *)
Fixpoint keys_once (j : json) : bool :=
  match j with
  | JObj l => bool_decide (NoDup (fst <$> l)) && forallb (fun kv => keys_once (snd kv)) l
  | JArr l => forallb keys_once l
  | _ => true
  end.

(** [joined path parts whole]: [whole] is made of exactly [parts], what the sources that set
    this place set there, in their order. An object has exactly the keys one of them has, and
    each is made of what they set under it; arrays of hooks follow one another, nothing left
    out, repeated or added; everything else they all set alike. *)
Inductive joined : list string -> list json -> json -> Prop :=
| joined_same path whole rest :
    is_object whole = false -> (head path = Some HOOKS -> as_array whole = None) ->
    Forall (fun part => json_eqb whole part = true) rest -> joined path (whole :: rest) whole
| joined_hooks path arrays : head path = Some HOOKS -> joined path (JArr <$> arrays) (JArr (concat arrays))
| joined_objects path parts b :
    Forall (fun part => is_object part = true) parts ->
    (forall k, obj_get k b = None <-> omap (json_get k) parts = []) ->
    (forall k y, obj_get k b = Some y -> joined (path ++ [k]) (omap (json_get k) parts) y) ->
    joined path parts (JObj b).

Lemma obj_get_elem k a x : obj_get k a = Some x -> (k, x) ∈ a.
Proof.
  induction a as [|[k' y] a IH]; [done|]. simpl. case_bool_decide; [intros [= ->]; subst|]; set_solver.
Qed.

Lemma obj_get_absent k a : k ∉ (fst <$> a) -> obj_get k a = None.
Proof. intros Hk. apply eq_None_not_Some. intros [x Hx%obj_get_elem]. apply Hk, list_elem_of_fmap. by exists (k, x). Qed.

(** What one source alone sets is there as it is. *)
Lemma joined_one : forall j path, joined path [j] j.
Proof.
  refine (json_nested_ind _ _ _ _ _ _ _ _ _); try (intros; by apply joined_same).
  - intros l _ path. destruct (decide (head path = Some HOOKS)) as [Hp|Hp].
    + pose proof (joined_hooks path [l] Hp) as H. cbn in H. by rewrite app_nil_r in H.
    + by apply joined_same.
  - intros l IH path. apply joined_objects; [by repeat constructor| |].
    + intros k. cbn. by destruct (obj_get k l).
    + intros k y Hk. cbn. rewrite Hk. rewrite Forall_forall in IH. apply (IH _ (obj_get_elem _ _ _ Hk)).
Qed.

(** ** Composition adds nothing and loses nothing *)

(** The loop over the entries of an incoming object, as [merge_settings] runs it. *)
Definition merge_entries (path : list string) : list (string * json) -> list (string * json) -> result json Anyhow :=
  fix go entries map :=
    match entries with
    | [] => Ok (JObj map)
    | (key, value) :: entries' =>
        match obj_get key map with
        | Some existing => let? merged := merge_settings (path ++ [key])%list value existing in go entries' (obj_insert key merged map)
        | None => go entries' (obj_insert key value map)
        end
    end.

(** Key by key: what comes in is merged with what was there, or stands alone. *)
Lemma merge_entries_get path entries : NoDup (fst <$> entries) -> forall map out,
  merge_entries path entries map = Ok out ->
  exists b, out = JObj b /\ forall k,
    match obj_get k entries, obj_get k map with
    | None, existing => obj_get k b = existing
    | Some value, None => obj_get k b = Some value
    | Some value, Some existing => exists merged, merge_settings (path ++ [k])%list value existing = Ok merged /\ obj_get k b = Some merged
    end.
Proof.
  induction entries as [|[key value] entries IH]; simpl; intros Hd map out H.
  - injection H as <-. by exists map.
  - apply NoDup_cons in Hd as [Hn Hd]. apply obj_get_absent in Hn.
    assert (exists w, merge_entries path entries (obj_insert key w map) = Ok out /\
      match obj_get key map with
      | None => w = value
      | Some existing => merge_settings (path ++ [key])%list value existing = Ok w
      end) as (w & Hm & Hw).
    { destruct (obj_get key map); [apply result_bind_Ok in H as (merged & ? & H)|]; eauto. }
    apply IH in Hm as (b & -> & Hb); [|done]. exists b. split; [done|]. intros k. specialize (Hb k).
    rewrite obj_get_insert in Hb. case_bool_decide; [subst k|done]. rewrite Hn in Hb. rewrite Hb.
    destruct (obj_get key map); [by exists w|by subst].
Qed.

(** Values that have to agree. *)
Lemma same_joined path parts target incoming out :
  (if json_eqb target incoming then Ok target else bail "settings sources conflict and cannot be composed safely") = Ok out ->
  is_object target = false -> (head path = Some HOOKS -> as_array target = None) ->
  joined path parts target -> joined path (parts ++ [incoming]) out.
Proof.
  destruct (json_eqb target incoming) eqn:E; [|done]. intros [= <-] Ho Ha Hj.
  inversion Hj as [? ? rest _ _ Hr| ? arrays Hp |]; subst; [|by specialize (Ha Hp)|done].
  apply joined_same; [done..|]. apply Forall_app. by repeat constructor.
Qed.

Lemma joined_arrays path parts target more :
  head path = Some HOOKS -> joined path parts (JArr target) -> joined path (parts ++ [JArr more]) (JArr (target ++ more)).
Proof.
  intros Hp Hj. inversion Hj as [? ? ? _ Ha _|? arrays _|]; subst; [by specialize (Ha Hp)|].
  change [JArr more] with (JArr <$> [more]). rewrite <-fmap_app.
  replace (concat arrays ++ more)%list with (concat (arrays ++ [more])) by (rewrite concat_app; cbn; by rewrite app_nil_r).
  by apply joined_hooks.
Qed.

Lemma joined_object_inv path parts map : joined path parts (JObj map) ->
  Forall (fun part => is_object part = true) parts /\ (forall k, obj_get k map = None <-> omap (json_get k) parts = []) /\
  (forall k y, obj_get k map = Some y -> joined (path ++ [k]) (omap (json_get k) parts) y).
Proof. by inversion 1. Qed.

(** A merge is made of exactly what was there and what comes in. *)
Lemma merge_settings_joined : forall incoming path parts target out,
  keys_once incoming = true -> joined path parts target -> merge_settings path incoming target = Ok out ->
  joined path (parts ++ [incoming]) out.
Proof.
  refine (json_nested_ind _ _ _ _ _ _ _ _ _).
  1-6: intros; destruct target; try done; by eapply same_joined.
  - intros a _ path parts target out _ Hj H. destruct target as [| | | | | |t|t]; try done. cbn [merge_settings] in H.
    destruct (bool_decide_reflect (head path = Some HOOKS)) as [Hp|Hp]; [injection H as <-; by apply joined_arrays|by eapply same_joined].
  - intros a IH path parts target out [Hd%bool_decide_eq_true Ha]%andb_true_iff Hj H.
    destruct target as [| | | | | |t|t]; try done.
    apply joined_object_inv in Hj as (Ho & Hk & Hv). apply (merge_entries_get path a Hd) in H as (b & -> & Hb).
    rewrite forallb_forall in Ha. rewrite Forall_forall in IH.
    assert (Hs : forall k, omap (json_get k) (parts ++ [JObj a])%list = (omap (json_get k) parts ++ match obj_get k a with Some v => [v] | None => [] end)%list)
      by (intros k; rewrite omap_app; cbn; by destruct (obj_get k a)).
    apply joined_objects; [apply Forall_app; by repeat constructor| |].
    + intros k. rewrite Hs. specialize (Hb k). specialize (Hk k). destruct (obj_get k a), (obj_get k t); try (rewrite Hb, app_nil_r; done).
      * destruct Hb as (m & _ & ->). split; [done|]. by intros [_ ?]%app_eq_nil.
      * rewrite Hb. split; [done|]. by intros [_ ?]%app_eq_nil.
    + intros k y Hy. rewrite Hs. specialize (Hb k). specialize (Hv k). specialize (Hk k).
      destruct (obj_get k a) as [v|] eqn:Ek; [|rewrite app_nil_r; apply Hv; congruence]. apply obj_get_elem in Ek.
      destruct (obj_get k t) as [e|].
      * destruct Hb as (m & Hm & Hbm). rewrite Hy in Hbm. injection Hbm as <-.
        apply (IH (k, v) Ek _ _ e); [by apply (Ha (k, v)), list_elem_of_In|by apply Hv|done].
      * rewrite (proj1 Hk eq_refl). rewrite Hy in Hb. injection Hb as ->. apply joined_one.
Qed.

(** The document a source stands for. *)
Definition source_document (read : string -> result json Anyhow) (source : ConfigSource) : result json Anyhow :=
  match source with SourceInline document => Ok document | SourceFile path => read path end.

Lemma composed_joined read sources documents doc :
  Forall2 (fun source document => source_document read source = Ok document) sources documents ->
  Forall (fun document => keys_once document = true) documents ->
  compose_caller_settings read sources = Ok doc ->
  is_object doc = true /\ joined [] documents doc.
Proof.
  unfold compose_caller_settings. intros Hs Hk.
  enough (forall told composed, is_object composed = true /\ joined [] told composed -> forall doc,
    try_fold (fun composed source =>
      let? incoming := match source with SourceInline document => Ok document | SourceFile path => read path end in
      if negb (is_object incoming) then bail "each settings source must contain a JSON object"
      else merge_settings [] incoming composed) sources composed = Ok doc ->
    is_object doc = true /\ joined [] (told ++ documents) doc) as H.
  { intros Hd. apply (H [] (JObj [])); [|exact Hd]. split; [done|]. by apply joined_objects. }
  induction Hs as [|source document sources documents Hd Hs IH]; intros told composed [Ho Hj] out; cbn [try_fold].
  { intros [= <-]. by rewrite app_nil_r. }
  apply Forall_cons in Hk as [Hk1 Hk]. intros H. apply result_bind_Ok in H as (next & H & Ht).
  apply result_bind_Ok in H as (incoming & Hi & H). assert (incoming = document) as -> by (unfold source_document in Hd; destruct source; congruence).
  destruct (is_object document) eqn:Hio; [|done]. cbn [negb] in H.
  pose proof (merge_settings_joined _ _ _ _ _ Hk1 Hj H) as Hn.
  rewrite (cons_middle document told documents), app_assoc. eapply (IH Hk); [|exact Ht]. split; [|exact Hn].
  destruct document as [| | | | | | |a]; try done. destruct composed as [| | | | | | |t]; try done.
  apply andb_true_iff in Hk1 as [Hd1%bool_decide_eq_true _]. by apply (merge_entries_get [] a Hd1) in H as (b & -> & _).
Qed.

(** ** The document of a hybrid session *)

Definition hooks_of (document : json) : json := default (JObj []) (json_get HOOKS document).
Definition items_of (o : option json) : option (list json) := as_array (default (JArr []) o).

(** The loop over the events: each gets one more entry, the rest stays. *)
Lemma append_events (entry : LifecycleEventKind -> result json Anyhow) events hooks out :
  NoDup events ->
  try_fold (fun hooks event =>
    let? entries := ok_or (as_array (default (JArr []) (obj_get (event_str event) hooks))) ["lifecycle hook settings must be arrays"] in
    let? entry := entry event in
    Ok (obj_insert (event_str event) (JArr (entries ++ [entry])%list) hooks)) events hooks = Ok out ->
  (forall name, (forall event, event ∈ events -> name <> event_str event) -> obj_get name out = obj_get name hooks)
  /\ (forall event, event ∈ events -> exists items item, items_of (obj_get (event_str event) hooks) = Some items /\ entry event = Ok item
       /\ obj_get (event_str event) out = Some (JArr (items ++ [item]))).
Proof.
  revert hooks. induction events as [|event events IH]; intros hooks Hd; simpl; [intros [= <-]; by split; [|inversion 1]|].
  apply NoDup_cons in Hd as [Hn Hd]. intros H.
  apply result_bind_Ok in H as (next & H0 & H). apply result_bind_Ok in H0 as (items & Hi%ok_or_Ok & H0).
  apply result_bind_Ok in H0 as (item & Hitem & [= <-]). apply IH in H as [H1 H2]; [|done].
  assert (forall e e', event_str e = event_str e' -> e = e') as Hinj by (by intros [] []).
  split.
  - intros name Hname. rewrite H1 by set_solver. rewrite obj_get_insert, bool_decide_eq_false_2; [done|]. apply Hname. set_solver.
  - intros e [->|He]%elem_of_cons.
    + exists items, item. split_and!; [done..|]. rewrite H1 by (intros e' He' ->%Hinj; done). by rewrite obj_get_insert, bool_decide_eq_true_2.
    + destruct (H2 e He) as (more & x & Hm & Hx & Ho). exists more, x.
      rewrite obj_get_insert, bool_decide_eq_false_2 in Hm by (intros ->%Hinj; done). done.
Qed.

Lemma append_lifecycle_hooks_spec client socket id timeout_ms document final :
  append_lifecycle_hooks client socket id timeout_ms document = Ok final ->
  (forall k, k <> HOOKS -> json_get k final = json_get k document)
  /\ exists before after, hooks_of document = JObj before /\ json_get HOOKS final = Some (JObj after)
  /\ (forall name, (forall event, name <> event_str event) -> obj_get name after = obj_get name before)
  /\ (forall event, exists items item, items_of (obj_get (event_str event) before) = Some items
       /\ hook_entry client socket id ((timeout_ms + 999) / 1000) event = Ok item
       /\ obj_get (event_str event) after = Some (JArr (items ++ [item]))).
Proof.
  unfold append_lifecycle_hooks. intros H. apply result_bind_Ok in H as (root & Hr%ok_or_Ok & H).
  destruct document as [| | | | | | |root']; try done. injection Hr as ->.
  apply result_bind_Ok in H as (hooks & Hh%ok_or_Ok & H). apply result_bind_Ok in H as (after & Ha & [= <-]).
  apply append_events in Ha as [H1 H2]; [|repeat (constructor; [set_solver|]); constructor].
  split. { intros k Hk. simpl. by rewrite obj_get_insert, bool_decide_eq_false_2. }
  exists hooks, after. repeat split.
  - unfold hooks_of. simpl. destruct (default (JObj []) (obj_get HOOKS root)); try done. by injection Hh as ->.
  - simpl. by rewrite obj_get_insert, bool_decide_eq_true_2.
  - intros name Hn. by apply H1.
  - intros event. apply H2. destruct event; set_solver.
Qed.

(** C22. When the caller's settings and pmux's hooks are composed into one document, the
    composition is made of exactly what the sources set: a key is there when a source sets
    it, under [hooks] the arrays of the sources follow one another in their order, without an
    item more or less, and anywhere else the sources that set a value set the same one, so
    settings that disagree are refused. Beyond that the three lifecycle events have exactly
    one more entry each, after the caller's, and nothing else of the composition changed; and
    that entry's command is read by a shell as the words the hook client expects, whatever
    is in the paths. *)
Theorem hybrid_settings_are_exact read sources documents client socket id timeout_ms composed final :
  Forall2 (fun source document => source_document read source = Ok document) sources documents ->
  Forall (fun document => keys_once document = true) documents ->
  compose_caller_settings read sources = Ok composed ->
  append_lifecycle_hooks client socket id timeout_ms composed = Ok final ->
  joined [] documents composed
  /\ (forall k, k <> HOOKS -> json_get k final = json_get k composed)
  /\ (forall name, (forall event, name <> event_str event) -> json_get name (hooks_of final) = json_get name (hooks_of composed))
  /\ (forall event, exists items command,
       items_of (json_get (event_str event) (hooks_of composed)) = Some items
       /\ json_get (event_str event) (hooks_of final)
          = Some (JArr (items ++ [jobj [(HOOKS, JArr [jobj [("type", JStr "command"); ("command", JStr command);
                                                           ("timeout", JNum ((timeout_ms + 999) / 1000))]])]]))
       /\ sh_words command = Some (bytes <$> [client; "--socket"; socket; "--session-id"; id; "--event"; event_str event])).
Proof.
  intros Hs Hk Hc Ha. split; [by apply (composed_joined read sources)|].
  apply append_lifecycle_hooks_spec in Ha as (Hkey & before & after & Hb & Hf & Hn & He). split; [done|].
  assert (hooks_of final = JObj after) as Hff by (unfold hooks_of; by rewrite Hf). rewrite Hff, Hb. split; [done|].
  intros event. destruct (He event) as (items & item & Hi & Hitem & Ho). unfold hook_entry in Hitem.
  apply result_bind_Ok in Hitem as (command & Hcommand & [= <-]). exists items, command.
  split_and!; [done|exact Ho|by eapply hook_command_words].
Qed.

(** ** The relay *)

Record LifecycleObservation := mkObservation {
  ob_sequence : N;
  ob_session_id : SessionId;
  ob_event : LifecycleEventKind;
  ob_transcript_path : option string;
  ob_failure_observed : bool;
}.

Record HookRelayEnvelope := mkEnvelope { he_version : N; he_event : LifecycleEventKind; he_session_id : SessionId; he_payload : json }.
Record HookRelayResponse := mkHookResponse { hr_version : N; hr_accepted : bool; hr_code : string }.

Definition with_sequence (sequence : N) (o : LifecycleObservation) : LifecycleObservation :=
  mkObservation sequence (ob_session_id o) (ob_event o) (ob_transcript_path o) (ob_failure_observed o).

(** [checked_add(1)] within the safe range: the counter after the step, and what it gives. *)
Definition next_lifecycle_sequence (sequence : N) : option N * N :=
  match checked_add U64_MAX sequence 1 with
  | Some next => if next <=? MAX_SAFE_JSON_INTEGER then (Some next, next) else (None, sequence)
  | None => (None, sequence)
  end.

Definition response (accepted : bool) (code : string) : HookRelayResponse := mkHookResponse HOOK_RELAY_PROTOCOL_VERSION accepted code.

Section Relay.
Context (id_text : SessionId -> string).

Definition validate_envelope (envelope : HookRelayEnvelope) (expected_session_id : SessionId) : result LifecycleObservation Anyhow :=
  if negb (he_version envelope =? HOOK_RELAY_PROTOCOL_VERSION) then bail "unsupported Hybrid hook protocol version"
  else if negb (bool_decide (he_session_id envelope = expected_session_id)) then bail "Hybrid hook session mismatch"
  else
    let? payload := ok_or (as_object (he_payload envelope)) ["Hybrid hook payload must be an object"] in
    if negb (bool_decide ((obj_get "session_id" payload ≫= json_as_str) = Some (id_text expected_session_id)))
    then bail "Hybrid hook payload session mismatch"
    else if negb (bool_decide ((obj_get "hook_event_name" payload ≫= json_as_str) = Some (event_str (he_event envelope))))
    then bail "Hybrid hook payload event mismatch"
    else
      let transcript_path := obj_get "transcript_path" payload ≫= json_as_str in
      if match transcript_path with Some path => negb (is_absolute path) | None => false end
      then bail "Hybrid transcript path must be absolute"
      else Ok (mkObservation 0 expected_session_id (he_event envelope) transcript_path (bool_decide (he_event envelope = StopFailure))).

Context (decode_envelope : list N -> result HookRelayEnvelope string).

Definition hook_read_frame {T} (decode : list N -> result T string) (received : list N) : result T Anyhow :=
  match received with
  | a :: b :: c :: d :: _ =>
      if from_be_bytes a b c d =? 0 then bail "Hybrid hook frame is empty"
      else decoded_frame decode MAX_HOOK_FRAME_BYTES "Hybrid hook frame exceeds the size limit" "Hybrid hook frame is invalid" received
  | _ => Err EOF
  end.
Definition hook_write_frame {T} (encode : T -> result (list N) string) (value : T) : result (list N) Anyhow :=
  let? payload := with_context "failed to encode Hybrid hook frame" (encode value) in
  framed MAX_HOOK_FRAME_BYTES "Hybrid hook frame exceeds the size limit" payload.

(** A connection of the relay: waiting for its frame, with an observation to send on, or
    with an answer to write, and then the number of the observation it is about. *)
Inductive Connection := Reading | Sending (observation : LifecycleObservation) | Answering (about : option N) (answer : HookRelayResponse).

Record Relay := mkRelay {
  rl_sequence : N;
  rl_connections : gmap N Connection;
  rl_receiver_open : bool;
  (** What the receiver gets, and what clients are answered, both in order. *)
  rl_told : list LifecycleObservation;
  rl_answers : list (option N * HookRelayResponse);
}.

Definition Relay_new : Relay := mkRelay 0 ∅ true [] [].

(** What happens to a relay. Any connection can be cut short, by its timeout or by the
    shutdown. *)
Inductive RelayEvent :=
| Accepted (connection : N)
| Received (connection : N) (received : list N)
| Sent (connection : N)
| Answered (connection : N)
| Cut (connection : N)
| ReceiverClosed.

Definition set_connections (f : gmap N Connection -> gmap N Connection) (r : Relay) : Relay :=
  mkRelay (rl_sequence r) (f (rl_connections r)) (rl_receiver_open r) (rl_told r) (rl_answers r).

Definition answer_with (connection : N) (answer : HookRelayResponse) : Relay -> Relay :=
  set_connections (insert connection (Answering None answer)).

(** [serve_connection], up to the send. *)
Definition receive (expected_session_id : SessionId) (connection : N) (received : list N) (r : Relay) : Relay :=
  match hook_read_frame decode_envelope received with
  | Err _ => set_connections (delete connection) r
  | Ok envelope =>
      match validate_envelope envelope expected_session_id with
      | Err _ => answer_with connection (response false "invalid_event") r
      | Ok observation =>
          match next_lifecycle_sequence (rl_sequence r) with
          | (None, _) => answer_with connection (response false "sequence_exhausted") r
          | (Some next, counter) =>
              mkRelay counter (<[connection := Sending (with_sequence next observation)]> (rl_connections r))
                (rl_receiver_open r) (rl_told r) (rl_answers r)
          end
      end
  end.

Definition relay_step (session_id : SessionId) (r : Relay) (e : RelayEvent) : Relay :=
  match e with
  | Accepted connection =>
      if bool_decide (is_Some (rl_connections r !! connection)) then r
      else if N.of_nat (size (rl_connections r)) <? MAX_RELAY_CONNECTIONS
      then set_connections (insert connection Reading) r
      else r
  | Received connection received =>
      match rl_connections r !! connection with Some Reading => receive session_id connection received r | _ => r end
  | Sent connection =>
      match rl_connections r !! connection with
      | Some (Sending observation) =>
          if rl_receiver_open r
          then mkRelay (rl_sequence r)
                 (<[connection := Answering (Some (ob_sequence observation)) (response true "accepted")]> (rl_connections r))
                 true (rl_told r ++ [observation])%list (rl_answers r)
          else answer_with connection (response false "receiver_closed") r
      | _ => r
      end
  | Answered connection =>
      match rl_connections r !! connection with
      | Some (Answering about answer) =>
          mkRelay (rl_sequence r) (delete connection (rl_connections r)) (rl_receiver_open r) (rl_told r)
            (rl_answers r ++ [(about, answer)])%list
      | _ => r
      end
  | Cut connection => set_connections (delete connection) r
  | ReceiverClosed => mkRelay (rl_sequence r) (rl_connections r) false (rl_told r) (rl_answers r)
  end.

Definition relayed (session_id : SessionId) (events : list RelayEvent) : Relay := foldl (relay_step session_id) Relay_new events.

(** ** What the relay tells *)

(** [o] reports a hook of this session: it came in a frame of the current protocol whose
    envelope and whose payload both name the session, and both name the event. *)
Definition of_a_hook (session_id : SessionId) (events : list RelayEvent) (o : LifecycleObservation) : Prop :=
  exists connection received envelope payload,
    Received connection received ∈ events /\ hook_read_frame decode_envelope received = Ok envelope
    /\ he_version envelope = HOOK_RELAY_PROTOCOL_VERSION /\ he_session_id envelope = session_id /\ he_payload envelope = JObj payload
    /\ obj_get "session_id" payload = Some (JStr (id_text session_id))
    /\ obj_get "hook_event_name" payload = Some (JStr (event_str (ob_event o)))
    /\ ob_session_id o = session_id /\ ob_event o = he_event envelope
    /\ ob_transcript_path o = (obj_get "transcript_path" payload ≫= json_as_str)
    /\ (forall path, ob_transcript_path o = Some path -> is_absolute path = true)
    /\ ob_failure_observed o = bool_decide (ob_event o = StopFailure).

(** The observations whose clients were told that they were accepted. *)
Definition acknowledged (r : Relay) : list N := omap fst (rl_answers r).

Lemma as_str_Some o s : (o ≫= json_as_str) = Some s -> o = Some (JStr s).
Proof. destruct o as [[]|]; simpl; try done. by intros [= ->]. Qed.

Lemma validate_envelope_Ok session_id envelope o events connection received sequence :
  Received connection received ∈ events -> hook_read_frame decode_envelope received = Ok envelope ->
  validate_envelope envelope session_id = Ok o -> of_a_hook session_id events (with_sequence sequence o).
Proof.
  intros Hin Hf. unfold validate_envelope, bail. intros H. res_inv. subst o.
  apply negb_false_iff in G, G0, G1, G2. apply N.eqb_eq in G. rewrite bool_decide_eq_true in G0, G1, G2.
  exists connection, received, envelope, x. simpl. split_and!; try done.
  - match goal with H : as_object _ = Some _ |- _ => destruct (he_payload envelope); try discriminate H; by injection H as -> end.
  - by apply as_str_Some.
  - by apply as_str_Some.
  - intros path Hp. rewrite Hp in G3. by apply negb_false_iff in G3.
Qed.

Lemma of_a_hook_mono session_id events e o : of_a_hook session_id events o -> of_a_hook session_id (events ++ [e]) o.
Proof. intros (c & b & h & p & Hin & H). exists c, b, h, p. split; [set_solver|done]. Qed.

(** The observation a connection carries a number of. *)
Definition carries (k : Connection) : option N :=
  match k with Reading => None | Sending o => Some (ob_sequence o) | Answering about _ => about end.

Definition honest (answer : option N * HookRelayResponse) : Prop := hr_accepted (snd answer) = bool_decide (is_Some (fst answer)).

Record relay_ok (session_id : SessionId) (events : list RelayEvent) (r : Relay) : Prop := {
  ro_sequence : rl_sequence r <= MAX_SAFE_JSON_INTEGER;
  ro_connections : N.of_nat (size (rl_connections r)) <= MAX_RELAY_CONNECTIONS;
  ro_told : Forall (fun o => 1 <= ob_sequence o <= rl_sequence r /\ of_a_hook session_id events o) (rl_told r);
  ro_distinct : NoDup (ob_sequence <$> rl_told r);
  ro_sending c o : rl_connections r !! c = Some (Sending o) ->
    1 <= ob_sequence o <= rl_sequence r /\ of_a_hook session_id events o /\ ob_sequence o ∉ (ob_sequence <$> rl_told r);
  ro_answering c about answer : rl_connections r !! c = Some (Answering about answer) ->
    honest (about, answer) /\ forall s, about = Some s -> s ∈ (ob_sequence <$> rl_told r) /\ s ∉ acknowledged r;
  ro_apart c c' k k' s : rl_connections r !! c = Some k -> rl_connections r !! c' = Some k' ->
    carries k = Some s -> carries k' = Some s -> c = c';
  ro_answers : Forall honest (rl_answers r);
  ro_acknowledged : NoDup (acknowledged r) /\ acknowledged r ⊆ (ob_sequence <$> rl_told r);
}.

Lemma next_lifecycle_sequence_spec n : n <= MAX_SAFE_JSON_INTEGER ->
  n < MAX_SAFE_JSON_INTEGER /\ next_lifecycle_sequence n = (Some (n + 1), n + 1)
  \/ n = MAX_SAFE_JSON_INTEGER /\ next_lifecycle_sequence n = (None, n).
Proof.
  intros Hn. unfold next_lifecycle_sequence, checked_add. destruct (N.leb_spec (n + 1) U64_MAX) as [Hu|Hu].
  - destruct (N.leb_spec (n + 1) MAX_SAFE_JSON_INTEGER); [left|right]; split; try done; lia.
  - exfalso. unfold MAX_SAFE_JSON_INTEGER, U64_MAX in *. lia.
Qed.

(** A connection goes away, or goes on to something that carries no number. *)
Lemma forget_ok session_id events r c k :
  match k with Some (Answering None answer) => hr_accepted answer = false | Some Reading => True | Some _ => False | None => True end ->
  (k = None \/ is_Some (rl_connections r !! c)) ->
  relay_ok session_id events r -> relay_ok session_id events (set_connections (partial_alter (const k) c) r).
Proof.
  intros Hk Hc [H1 H2 H3 H4 H5 H6 H7 H8 H9].
  assert (forall c' k', partial_alter (const k) c (rl_connections r) !! c' = Some k' ->
    c' = c /\ k = Some k' \/ rl_connections r !! c' = Some k') as Hin.
  { intros c' k'. destruct (decide (c' = c)) as [->|Hne]; [rewrite lookup_partial_alter_eq; by left|rewrite lookup_partial_alter_ne by done; by right]. }
  split; simpl; try done.
  - destruct k as [k|]; simpl.
    + change (partial_alter _ c _) with (<[c := k]> (rl_connections r)). destruct Hc as [?|Hc]; [done|]. by rewrite map_size_insert_Some.
    + change (partial_alter _ c _) with (delete c (rl_connections r)).
      pose proof (map_subseteq_size (delete c (rl_connections r)) (rl_connections r) (delete_subseteq _ _)). lia.
  - intros c' o [[-> ->]|?]%Hin; [done|]. by eapply H5.
  - intros c' about answer [[-> ->]|?]%Hin; [|by eapply H6]. destruct about; [done|]. by split.
  - assert (forall k' s, k = Some k' -> carries k' <> Some s) as Hnone by (intros k' s ->; by destruct k' as [| |[]]).
    intros c1 c2 k1 k2 s [[-> E1]|?]%Hin [[-> E2]|?]%Hin ? ?; first [done|by eapply H7|exfalso; by eapply Hnone].
Qed.

Lemma relay_ok_mono session_id events e r : relay_ok session_id events r -> relay_ok session_id (events ++ [e]) r.
Proof.
  intros [H1 H2 H3 H4 H5 H6 H7 H8 H9]. split; try done.
  - eapply Forall_impl; [exact H3|]. intros o [? ?]. eauto using of_a_hook_mono.
  - intros c o (? & ? & ?)%H5. eauto using of_a_hook_mono.
Qed.

(** A number in use is not past the counter. *)
Lemma carried_in_range session_id events r c k s :
  relay_ok session_id events r -> rl_connections r !! c = Some k -> carries k = Some s -> s <= rl_sequence r.
Proof.
  intros Hr Hc Hk. destruct k as [|o|about answer]; [done| |]; simpl in Hk; simplify_eq.
  - apply (ro_sending _ _ _ Hr) in Hc as (? & _). lia.
  - apply (ro_answering _ _ _ Hr) in Hc as (_ & Hc). destruct (Hc s eq_refl) as [(o & -> & Ho)%list_elem_of_fmap _].
    pose proof (ro_told _ _ _ Hr) as Ht. rewrite Forall_forall in Ht. apply Ht in Ho as [? _]. lia.
Qed.

Lemma receive_ok session_id events r c received :
  Received c received ∈ events -> rl_connections r !! c = Some Reading ->
  relay_ok session_id events r -> relay_ok session_id events (receive session_id c received r).
Proof.
  intros Hin Hc Hr. unfold receive.
  destruct (hook_read_frame _ _) as [envelope|] eqn:Ef; [|apply forget_ok; naive_solver].
  destruct (validate_envelope _ _) as [o|] eqn:Ev; [|apply (forget_ok _ _ _ _ (Some _)); naive_solver].
  destruct (next_lifecycle_sequence_spec (rl_sequence r) (ro_sequence _ _ _ Hr)) as [[Hlt ->]|[_ ->]];
    [|apply (forget_ok _ _ _ _ (Some _)); naive_solver].
  pose proof (fun c' k s => carried_in_range _ _ _ c' k s Hr) as Hrange.
  destruct Hr as [H1 H2 H3 H4 H5 H6 H7 H8 H9]. split; simpl; try done.
  - lia.
  - by rewrite map_size_insert_Some.
  - eapply Forall_impl; [exact H3|]. simpl. intros o' [? ?]. split; [lia|done].
  - intros c' o' [[<- [= <-]]|[Hne Ho]]%lookup_insert_Some.
    + simpl. split; [lia|]. split; [by eapply validate_envelope_Ok|].
      intros (o' & Ho & Hin')%list_elem_of_fmap. rewrite Forall_forall in H3. apply H3 in Hin' as [? _]. lia.
    + apply H5 in Ho as (? & ? & ?). split; [lia|done].
  - intros c' about answer [[_ ?]|[_ ?]]%lookup_insert_Some; [done|by eapply H6].
  - intros c1 c2 k1 k2 s [[<- <-]|[? Hk1]]%lookup_insert_Some [[<- <-]|[? Hk2]]%lookup_insert_Some; simpl; try done.
    + intros [= <-] Hs. apply (Hrange _ _ _ Hk2) in Hs. lia.
    + intros Hs [= <-]. apply (Hrange _ _ _ Hk1) in Hs. lia.
    + by eapply H7.
Qed.

Lemma sent_ok session_id events r c o :
  rl_connections r !! c = Some (Sending o) -> relay_ok session_id events r ->
  relay_ok session_id events
    (mkRelay (rl_sequence r) (<[c := Answering (Some (ob_sequence o)) (response true "accepted")]> (rl_connections r))
       true (rl_told r ++ [o])%list (rl_answers r)).
Proof.
  intros Hc [H1 H2 H3 H4 H5 H6 H7 H8 [H9 H10]]. destruct (H5 _ _ Hc) as (Ho1 & Ho2 & Ho3). split; simpl; try done.
  - by rewrite map_size_insert_Some.
  - apply Forall_app. split; [done|]. by constructor.
  - rewrite fmap_app. apply NoDup_app. split; [done|]. split; [|by apply NoDup_singleton].
    by intros s Hs ->%list_elem_of_singleton.
  - intros c' o' [[_ ?]|[Hne Hc']]%lookup_insert_Some; [done|]. destruct (H5 _ _ Hc') as (? & ? & ?). split; [done|]. split; [done|].
    rewrite fmap_app, elem_of_app. intros [?|Heq%list_elem_of_singleton]; [done|]. apply Hne, (H7 c c' _ _ (ob_sequence o) Hc Hc'); simpl; congruence.
  - intros c' about answer [[<- [= <- <-]]|[Hne Hc']]%lookup_insert_Some.
    + split; [done|]. intros s [= <-]. rewrite fmap_app. split; [set_solver|]. intros Hs. by apply Ho3, H10.
    + destruct (H6 _ _ _ Hc') as [? Hs]. split; [done|]. intros s [? ?]%Hs. rewrite fmap_app. set_solver.
  - intros c1 c2 k1 k2 s [[<- <-]|[? Hk1]]%lookup_insert_Some [[<- <-]|[? Hk2]]%lookup_insert_Some; simpl; try done.
    + intros [= <-] ?. by eapply (H7 c c2).
    + intros ? [= <-]. by eapply (H7 c1 c).
    + by eapply H7.
  - split; [done|]. rewrite fmap_app. set_solver.
Qed.

Lemma answered_ok session_id events r c about answer :
  rl_connections r !! c = Some (Answering about answer) -> relay_ok session_id events r ->
  relay_ok session_id events
    (mkRelay (rl_sequence r) (delete c (rl_connections r)) (rl_receiver_open r) (rl_told r) (rl_answers r ++ [(about, answer)])%list).
Proof.
  intros Hc Hr. destruct (ro_answering _ _ _ Hr _ _ _ Hc) as [Hh Hs].
  destruct Hr as [H1 H2 H3 H4 H5 H6 H7 H8 [H9 H10]].
  assert (acknowledged (mkRelay (rl_sequence r) (delete c (rl_connections r)) (rl_receiver_open r) (rl_told r) (rl_answers r ++ [(about, answer)])%list)
          = acknowledged r ++ option_list about)%list as Ha.
  { unfold acknowledged. simpl. rewrite omap_app. simpl. by destruct about. }
  split; simpl; try done.
  - pose proof (map_subseteq_size (delete c (rl_connections r)) (rl_connections r) (delete_subseteq _ _)). lia.
  - intros c' o [_ ?]%lookup_delete_Some. by eapply H5.
  - intros c' about' answer' [Hne Hc']%lookup_delete_Some. destruct (H6 _ _ _ Hc') as [? Hs']. split; [done|].
    intros s Heq. destruct (Hs' s Heq) as [? Hn]. split; [done|]. rewrite Ha, elem_of_app. intros [?|Ho]; [done|].
    destruct about as [s'|]; [|inversion Ho]. apply list_elem_of_singleton in Ho as ->. by apply Hne, (H7 c c' _ _ s' Hc Hc').
  - intros c1 c2 k1 k2 s [_ ?]%lookup_delete_Some [_ ?]%lookup_delete_Some. by eapply H7.
  - apply Forall_app. split; [done|]. by constructor.
  - rewrite Ha. destruct about as [s|]; simpl; [|by rewrite app_nil_r]. destruct (Hs s eq_refl) as [? ?].
    split; [|set_solver]. apply NoDup_app. split; [done|]. split; [|by apply NoDup_singleton]. by intros s' Hs' ->%list_elem_of_singleton.
Qed.

Lemma relay_step_ok session_id events r e :
  relay_ok session_id events r -> relay_ok session_id (events ++ [e]) (relay_step session_id r e).
Proof.
  intros Hr%(relay_ok_mono _ _ e). destruct e as [c|c received|c|c|c|]; simpl.
  - case_bool_decide as Hc; [done|]. destruct (N.ltb_spec (N.of_nat (size (rl_connections r))) MAX_RELAY_CONNECTIONS) as [Hl|]; [|done].
    destruct Hr as [H1 H2 H3 H4 H5 H6 H7 H8 H9]. apply eq_None_not_Some in Hc. split; simpl; try done.
    + rewrite map_size_insert_None by done. unfold MAX_RELAY_CONNECTIONS in *. lia.
    + intros c' o [[_ ?]|[_ ?]]%lookup_insert_Some; [done|by eapply H5].
    + intros c' about answer [[_ ?]|[_ ?]]%lookup_insert_Some; [done|by eapply H6].
    + intros c1 c2 k1 k2 s [[_ <-]|[_ ?]]%lookup_insert_Some [[_ <-]|[_ ?]]%lookup_insert_Some; try done. by eapply H7.
  - destruct (rl_connections r !! c) as [[]|] eqn:Ec; try done. apply receive_ok; [set_solver|done..].
  - destruct (rl_connections r !! c) as [[|o|]|] eqn:Ec; try done.
    destruct (rl_receiver_open r); [by apply sent_ok|]. apply (forget_ok _ _ _ _ (Some _)); naive_solver.
  - destruct (rl_connections r !! c) as [[]|] eqn:Ec; try done. by apply answered_ok.
  - apply forget_ok; naive_solver.
  - destruct Hr as [H1 H2 H3 H4 H5 H6 H7 H8 H9]. by split.
Qed.

(** C23. Whatever connects to the relay, in any interleaving of its connections and however
    they are cut short: it serves at most sixteen at once; every observation it tells has its
    own number, within the range JSON can carry; every one reports a hook whose frame and
    whose payload both name this very session and the event told, with an absolute path if
    any; and a client is told that its event was accepted only when its observation, and no
    other client's, was told. *)
Theorem relay_tells_only_this_session session_id events :
  let r := relayed session_id events in
  NoDup (ob_sequence <$> rl_told r)
  /\ Forall (fun o => 1 <= ob_sequence o <= MAX_SAFE_JSON_INTEGER /\ of_a_hook session_id events o) (rl_told r)
  /\ Forall honest (rl_answers r) /\ NoDup (acknowledged r) /\ acknowledged r ⊆ (ob_sequence <$> rl_told r)
  /\ N.of_nat (size (rl_connections r)) <= MAX_RELAY_CONNECTIONS.
Proof.
  assert (relay_ok session_id events (relayed session_id events)) as Hr.
  { induction events as [|e events IH] using rev_ind.
    - split; try done; [constructor..|]. split; [constructor|done].
    - unfold relayed. rewrite foldl_app. by apply relay_step_ok. }
  destruct Hr as [H1 H2 H3 H4 H5 H6 H7 H8 [H9 H10]]. simpl. split_and!; try done.
  eapply Forall_impl; [exact H3|]. intros o [? ?]. split; [lia|done].
Qed.

End Relay.

(** *** The client and the counter of stops *)

Definition decode_payload (from_slice : list N -> result json string) (bytes : list N) : result json Anyhow :=
  match bytes with
  | [] => bail "hook payload is empty"
  | _ =>
      if MAX_HOOK_FRAME_BYTES <? N.of_nat (length bytes) then bail "hook payload exceeds the size limit"
      else with_context "hook payload is not valid JSON" (from_slice bytes)
  end.

Definition send_hook_payload (encode_envelope : HookRelayEnvelope -> result (list N) string)
    (decode_response : list N -> result HookRelayResponse string) (connect : result unit string)
    (session_id : SessionId) (event : LifecycleEventKind) (payload : json) (exchange : list N -> result (list N) Anyhow) : result unit Anyhow :=
  let? _ := with_context "failed to connect to Hybrid hook relay" connect in
  let? sent := hook_write_frame encode_envelope (mkEnvelope HOOK_RELAY_PROTOCOL_VERSION event session_id payload) in
  let? reply := exchange sent in
  let? response := hook_read_frame decode_response reply in
  if negb (hr_version response =? HOOK_RELAY_PROTOCOL_VERSION) then bail "Hybrid hook relay returned an unsupported version"
  else if negb (hr_accepted response) then bail "Hybrid hook relay rejected the event"
  else Ok tt.

(** What the session reads: how many turns were said to have stopped, and when the last was. *)
Record Stops := mkStops { st_sequence : N; st_at_ms : N }.
Definition Stops_new : Stops := mkStops 0 0.

Definition representable_stop_instant (elapsed_ms : N) : option N :=
  if (elapsed_ms <=? U64_MAX) && negb (elapsed_ms =? 0) && (elapsed_ms <=? MAX_SAFE_JSON_INTEGER) then Some elapsed_ms else None.

(** [SessionLifecycle]: one observation, at the wall clock reading [now] ([None] before the
    epoch). *)
Definition observe_stop (now : option N) (observation : LifecycleObservation) (s : Stops) : Stops :=
  match ob_event observation with
  | Stop | StopFailure =>
      mkStops (snd (next_lifecycle_sequence (st_sequence s))) (default (st_at_ms s) (now ≫= representable_stop_instant))
  | SessionStart => s
  end.

Definition stops (told : list (option N * LifecycleObservation)) : Stops := foldl (fun s o => observe_stop (fst o) (snd o) s) Stops_new told.

(** The counter is the number of stops told, and the instant one that was read. *)
Theorem stops_are_counted told :
  let is_stop o := match ob_event o with Stop | StopFailure => true | SessionStart => false end in
  st_sequence (stops told) = N.min (N.of_nat (length (List.filter (fun o => is_stop (snd o)) told))) MAX_SAFE_JSON_INTEGER
  /\ (st_at_ms (stops told) <> 0 ->
      st_at_ms (stops told) <= MAX_SAFE_JSON_INTEGER /\ exists o, (Some (st_at_ms (stops told)), o) ∈ told /\ is_stop o = true).
Proof.
  intros is_stop. induction told as [|[now o] told [IH1 IH2]] using rev_ind; [done|].
  unfold stops. rewrite foldl_app, List.filter_app, length_app. fold (stops told). simpl.
  unfold observe_stop. unfold is_stop at 2. simpl. destruct (ob_event o) eqn:Eo; simpl.
  1: { split; [rewrite IH1; f_equal; lia|]. intros H. apply IH2 in H as (? & o' & ? & ?). split; [done|]. exists o'. set_solver. }
  all: split; [rewrite IH1; destruct (next_lifecycle_sequence_spec (N.min (N.of_nat (length (List.filter (fun o => is_stop (snd o)) told))) MAX_SAFE_JSON_INTEGER) (N.le_min_r _ _)) as [[? ->]|[? ->]]; simpl; lia|].
  all: unfold representable_stop_instant; destruct now as [now|]; simpl;
    [destruct (_ && _) eqn:E; simpl|].
  all: try (intros H; apply IH2 in H as (? & o' & ? & ?); split; [done|]; exists o'; set_solver).
  all: intros _; rewrite !andb_true_iff, N.leb_le in E; destruct E as [_ E]; apply N.leb_le in E; split; [done|]; exists o; unfold is_stop; rewrite Eo; set_solver.
Qed.

(** ** The files of a hybrid session *)

Inductive ArtifactKind := RegularArtifact | SocketArtifact | OtherArtifact.
Record Artifact := mkArtifact { af_inode : N; af_uid : N; af_kind : ArtifactKind }.
Abbreviation Artifacts := (gmap string Artifact).

(** What the system answers while a session's lifecycle is prepared, and what others do to the
    directory between the checks and the first file ([meanwhile]). A file of this user that is
    to be removed from the user's own directory can be. *)
Record PrepareAnswers := mkPrepareAnswers {
  pa_runtime_dir : result (bool * N * N) string;          (** directory (and no link), owner, mode *)
  pa_hook_client : result (bool * N) string;              (** regular file, mode *)
  pa_inspected : result unit string;                      (** looking at a path where nothing is *)
  pa_meanwhile : Artifacts -> Artifacts;
  pa_bind : result unit string;
  pa_socket_inode : N;
  pa_permissions : result unit string;
  pa_capture : result unit Anyhow;
  pa_create : result unit string;
  pa_settings_inode : N;
  pa_inspect : result unit Anyhow;
  pa_write : result unit Anyhow;                          (** writing, then syncing *)
}.

Section Prepare.
Context (id_text id_simple : SessionId -> string) (read : string -> result json Anyhow) (to_vec : json -> result (list N) string) (euid : N).

Definition removable (a : Artifact) : bool := match af_kind a with RegularArtifact | SocketArtifact => true | OtherArtifact => false end.

Definition remove_owned_file (path : string) (s : Artifacts) : Artifacts :=
  match s !! path with
  | Some a => if (af_uid a =? euid) && removable a then delete path s else s
  | None => s
  end.

Definition remove_if_same_file (path : string) (inode : N) (s : Artifacts) : Artifacts :=
  match s !! path with
  | Some a => if (af_uid a =? euid) && (af_inode a =? inode) && removable a then delete path s else s
  | None => s
  end.

Definition validate_private_runtime_dir (runtime_dir : string) (metadata : result (bool * N * N) string) : result unit Anyhow :=
  if negb (is_absolute runtime_dir) then bail "private runtime directory must be absolute"
  else
    let? '(is_dir, uid, mode) := with_context "private runtime directory is unavailable" metadata in
    if negb is_dir then bail "private runtime path must be a directory"
    else if negb (uid =? euid) then bail "private runtime directory is owned by another user"
    else if negb (N.land mode 63 =? 0) then bail "private runtime directory must have mode 0700 or stricter"
    else Ok tt.

Definition validate_hook_client (hook_client : string) (metadata : result (bool * N) string) : result unit Anyhow :=
  if negb (is_absolute hook_client) then bail "hook client must be an absolute path"
  else
    let? '(is_file, mode) := with_context "hook client is unavailable" metadata in
    if negb is_file then bail "hook client must be a regular file"
    else if N.land mode 73 =? 0 then bail "hook client must be executable"
    else Ok tt.

Definition ensure_path_absent (path label : string) (inspected : result unit string) (s : Artifacts) : result unit Anyhow :=
  match s !! path with
  | Some _ => bail (label +:+ " already exists")
  | None => with_context "failed to inspect Hybrid runtime path" inspected
  end.

(** [write_private_file]: [create_new], so never over another file. *)
Definition write_settings (answers : PrepareAnswers) (path : string) (s : Artifacts) : result N Anyhow * Artifacts :=
  match (match s !! path with Some _ => Err "File exists" | None => pa_create answers end) with
  | Err e => (Err ["failed to create Hybrid settings"; e], s)
  | Ok _ =>
      let s := <[path := mkArtifact (pa_settings_inode answers) euid RegularArtifact]> s in
      match pa_inspect answers with
      | Err e => (Err ("failed to inspect Hybrid settings" :: e), s)
      | Ok _ =>
          match pa_write answers with
          | Err e => (Err e, remove_if_same_file path (pa_settings_inode answers) s)
          | Ok _ => (Ok (pa_settings_inode answers), s)
          end
      end
  end.

Record HybridLifecycle := mkHybrid {
  hl_session_id : SessionId;
  hl_settings_path : string; hl_settings_identity : N;
  hl_socket_path : string; hl_socket_identity : N;
  hl_document : json;
}.
Inductive PreparedLifecycle := PreparedTranscript | PreparedHybrid (hybrid : HybridLifecycle).

Definition artifact (runtime_dir : string) (session_id : SessionId) (extension : string) : string :=
  join_path runtime_dir ("hh-" +:+ String.substring 0 16 (id_simple session_id) +:+ extension).

(** Everything before the first file. *)
Definition plan_hybrid (answers : PrepareAnswers) (timeout_ms : N) (runtime_dir : string) (session_id : SessionId)
    (hook_client : string) (caller_settings : list ConfigSource) (s : Artifacts) : result json Anyhow :=
  if (timeout_ms =? 0) || (MAX_HOOK_TIMEOUT_MS <? timeout_ms) then bail "Hybrid hook timeout is outside the supported range"
  else
    let? _ := validate_private_runtime_dir runtime_dir (pa_runtime_dir answers) in
    let? _ := validate_hook_client hook_client (pa_hook_client answers) in
    let socket_path := artifact runtime_dir session_id ".sock" in
    let? _ := ensure_path_absent socket_path "Hybrid relay socket" (pa_inspected answers) s in
    let? _ := ensure_path_absent (artifact runtime_dir session_id ".json") "Hybrid settings file" (pa_inspected answers) s in
    let? composed := compose_caller_settings read caller_settings in
    let? document := append_lifecycle_hooks hook_client socket_path (id_text session_id) timeout_ms composed in
    let? encoded := with_context "failed to encode Hybrid settings" (to_vec document) in
    if MAX_SETTINGS_BYTES <? N.of_nat (length encoded) then bail "composed Hybrid settings exceed the size limit"
    else Ok document.

Definition prepare_lifecycle (answers : PrepareAnswers) (mode : LifecycleMode) (runtime_dir : string) (session_id : SessionId)
    (hook_client : string) (caller_settings : list ConfigSource) (s : Artifacts) : result PreparedLifecycle Anyhow * Artifacts :=
  match mode with
  | TranscriptLifecycle => (Ok PreparedTranscript, s)
  | Launch.HybridLifecycle hook_timeout_ms =>
      let socket_path := artifact runtime_dir session_id ".sock" in
      let settings_path := artifact runtime_dir session_id ".json" in
      match plan_hybrid answers hook_timeout_ms runtime_dir session_id hook_client caller_settings s with
      | Err e => (Err e, s)
      | Ok document =>
          let s := pa_meanwhile answers s in
          match (match s !! socket_path with Some _ => Err "Address already in use" | None => pa_bind answers end) with
          | Err e => (Err ["failed to bind Hybrid hook relay"; e], s)
          | Ok _ =>
              let s := <[socket_path := mkArtifact (pa_socket_inode answers) euid SocketArtifact]> s in
              match pa_permissions answers with
              | Err e => (Err ["failed to secure Hybrid hook relay"; e], remove_owned_file socket_path s)
              | Ok _ =>
                  match pa_capture answers with
                  | Err e => (Err e, remove_owned_file socket_path s)
                  | Ok _ =>
                      match write_settings answers settings_path s with
                      | (Err e, s) => (Err e, remove_owned_file settings_path (remove_if_same_file socket_path (pa_socket_inode answers) s))
                      | (Ok settings_identity, s) =>
                          (Ok (PreparedHybrid (mkHybrid session_id settings_path settings_identity socket_path (pa_socket_inode answers) document)), s)
                      end
                  end
              end
          end
      end
  end.

(** [Drop for HybridLifecycle]. *)
Definition drop_hybrid (h : HybridLifecycle) (s : Artifacts) : Artifacts :=
  remove_if_same_file (hl_settings_path h) (hl_settings_identity h) (remove_if_same_file (hl_socket_path h) (hl_socket_identity h) s).

Definition launch_settings (prepared : PreparedLifecycle) (caller_settings : list ConfigSource) : list ConfigSource :=
  match prepared with PreparedTranscript => caller_settings | PreparedHybrid hybrid => [SourceFile (hl_settings_path hybrid)] end.

(** *** Nothing is left behind *)

Lemma split_slash_head a acc s : exists c head rest, split_slash (String a acc) s = String c head :: rest.
Proof.
  revert acc. induction s as [|b s IH]; intros acc; simpl; [eauto|]. case_bool_decide; [eauto|]. apply IH.
Qed.

Lemma relative_name a s : Ascii.N_of_ascii a <> 47 -> path_absolute (path_from (String a s)) = false.
Proof.
  intros Ha. unfold path_from. simpl. rewrite bool_decide_eq_false_2 by done.
  destruct (split_slash_head a EmptyString s) as (c & h & rest & E). change (EmptyString +:+ String a EmptyString) with (String a EmptyString).
  by rewrite E.
Qed.

Lemma artifact_apart runtime_dir session_id : artifact runtime_dir session_id ".sock" <> artifact runtime_dir session_id ".json".
Proof.
  unfold artifact, join_path. set (key := String.substring 0 16 (id_simple session_id)).
  assert (forall ext, path_absolute (path_from ("hh-" +:+ key +:+ ext)) = false) as Ha by (intros ext; by apply relative_name).
  rewrite !Ha. intros H%(f_equal bytes). destruct (_ || _); rewrite !bytes_app in H; simplify_list_eq.
Qed.

Lemma remove_owned_insert path a s : s !! path = None -> af_uid a = euid -> removable a = true -> remove_owned_file path (<[path := a]> s) = s.
Proof. intros Hn Hu Hr. unfold remove_owned_file. rewrite lookup_insert_eq, Hu, Hr, N.eqb_refl. simpl. by rewrite delete_insert_id. Qed.

Lemma remove_same_insert path a s : s !! path = None -> af_uid a = euid -> removable a = true -> remove_if_same_file path (af_inode a) (<[path := a]> s) = s.
Proof. intros Hn Hu Hr. unfold remove_if_same_file. rewrite lookup_insert_eq, Hu, Hr, !N.eqb_refl. simpl. by rewrite delete_insert_id. Qed.

Lemma remove_same_insert_ne path path' inode a s : path <> path' -> remove_if_same_file path inode (<[path' := a]> s) = <[path' := a]> (remove_if_same_file path inode s).
Proof.
  intros Hne. unfold remove_if_same_file. rewrite lookup_insert_ne by done. destruct (s !! path) as [b|]; [|done].
  destruct (_ && _); [|done]. by rewrite delete_insert_ne.
Qed.

Lemma remove_owned_absent path s : s !! path = None -> remove_owned_file path s = s.
Proof. unfold remove_owned_file. by intros ->. Qed.

Lemma plan_hybrid_absent answers timeout_ms runtime_dir session_id hook_client caller_settings s document :
  plan_hybrid answers timeout_ms runtime_dir session_id hook_client caller_settings s = Ok document ->
  s !! artifact runtime_dir session_id ".sock" = None /\ s !! artifact runtime_dir session_id ".json" = None.
Proof.
  unfold plan_hybrid, ensure_path_absent, bail. intros H. destruct (_ || _); [done|].
  do 2 (apply result_bind_Ok in H as ([] & _ & H)). apply result_bind_Ok in H as ([] & H1 & H). apply result_bind_Ok in H as ([] & H2 & _).
  split; [by destruct (s !! artifact _ _ ".sock")|by destruct (s !! artifact _ _ ".json")].
Qed.

(** Preparing a lifecycle that nobody interferes with either fails and leaves the directory
    as it was, or succeeds and leaves it so when the lifecycle is dropped. *)
Theorem preparation_cleans_up answers mode runtime_dir session_id hook_client caller_settings s :
  pa_meanwhile answers s = s ->
  match prepare_lifecycle answers mode runtime_dir session_id hook_client caller_settings s with
  | (Err _, s') => s' = s
  | (Ok PreparedTranscript, s') => s' = s
  | (Ok (PreparedHybrid h), s') => drop_hybrid h s' = s
  end.
Proof.
  intros Hm. unfold prepare_lifecycle. destruct mode as [|timeout_ms]; [done|].
  destruct (plan_hybrid _ _ _ _ _ _ _) as [document|] eqn:Ep; [|done]. apply plan_hybrid_absent in Ep as [Hs Hj].
  rewrite Hm, Hs. pose proof (artifact_apart runtime_dir session_id) as Hne.
  set (socket := artifact runtime_dir session_id ".sock") in *. set (settings := artifact runtime_dir session_id ".json") in *.
  destruct (pa_bind answers); [|done].
  set (sock := mkArtifact (pa_socket_inode answers) euid SocketArtifact). set (file := mkArtifact (pa_settings_inode answers) euid RegularArtifact).
  destruct (pa_permissions answers); [|by apply remove_owned_insert]. destruct (pa_capture answers); [|by apply remove_owned_insert].
  assert (<[socket := sock]> s !! settings = None) as Hj' by by rewrite lookup_insert_ne.
  unfold write_settings. rewrite Hj'. destruct (pa_create answers).
  2: { change (pa_socket_inode answers) with (af_inode sock). rewrite remove_same_insert by done. by apply remove_owned_absent. }
  fold file. destruct (pa_inspect answers).
  2: { change (pa_socket_inode answers) with (af_inode sock). rewrite remove_same_insert_ne, remove_same_insert by done. by apply remove_owned_insert. }
  destruct (pa_write answers).
  - unfold drop_hybrid. simpl. change (pa_socket_inode answers) with (af_inode sock). change (pa_settings_inode answers) with (af_inode file).
    by rewrite remove_same_insert_ne, (remove_same_insert socket), (remove_same_insert settings).
  - change (pa_settings_inode answers) with (af_inode file). rewrite remove_same_insert by done.
    change (pa_socket_inode answers) with (af_inode sock). rewrite remove_same_insert by done. by apply remove_owned_absent.
Qed.
End Prepare.

(** ** Examples *)

Module HooksDemo.

Definition no_file (path : string) : result json Anyhow := bail "settings source path must be absolute".
Definition demo_sources : list ConfigSource :=
  [SourceInline (jobj [("theme", JStr "dark"); ("hooks", jobj [("Stop", JArr [JStr "mine"]); ("Notification", JArr [])])]);
   SourceInline (jobj [("hooks", jobj [("Stop", JArr [JStr "theirs"])])])].
Definition demo_composed : json :=
  jobj [("theme", JStr "dark"); ("hooks", jobj [("Stop", JArr [JStr "mine"; JStr "theirs"]); ("Notification", JArr [])])].
Definition demo_client : string := "/opt/it's here/pmux-hook".
Definition demo_final : json :=
  match append_lifecycle_hooks demo_client "/run/hh.sock" "7" 1500 demo_composed with Ok j => j | Err _ => JNull end.

Lemma hybrid_settings_are_exact_witness :
  compose_caller_settings no_file demo_sources = Ok demo_composed
  /\ append_lifecycle_hooks demo_client "/run/hh.sock" "7" 1500 demo_composed = Ok demo_final
  /\ joined ["hooks"; "Stop"] [JArr [JStr "mine"]; JArr [JStr "theirs"]] (JArr [JStr "mine"; JStr "theirs"]).
Proof.
  assert (compose_caller_settings no_file demo_sources = Ok demo_composed) as Hc by (vm_compute; reflexivity).
  assert (append_lifecycle_hooks demo_client "/run/hh.sock" "7" 1500 demo_composed = Ok demo_final) as Ha by (vm_compute; reflexivity).
  split; [exact Hc|]. split; [exact Ha|].
  destruct (hybrid_settings_are_exact no_file demo_sources (omap (fun s => match s with SourceInline d => Some d | _ => None end) demo_sources)
              demo_client "/run/hh.sock" "7" 1500 demo_composed demo_final) as [Hj _]; [repeat constructor..|exact Hc|exact Ha|].
  apply joined_object_inv in Hj as (_ & _ & Hj). specialize (Hj "hooks" _ eq_refl).
  apply joined_object_inv in Hj as (_ & _ & Hj). exact (Hj "Stop" _ eq_refl).
Defined.

(** Settings that disagree are refused. *)
Example conflict_is_refused :
  is_ok (compose_caller_settings no_file [SourceInline (jobj [("theme", JStr "dark")]); SourceInline (jobj [("theme", JStr "light")])]) = false.
Proof. vm_compute. reflexivity. Qed.

(** Two hooks at once can be told in the other order than they were numbered. *)
Definition demo_decode (payload : list N) : result HookRelayEnvelope string :=
  match payload with
  | [e] => let event := if e =? 0 then Stop else StopFailure in
           Ok (mkEnvelope 1 event 7 (jobj [("session_id", JStr (pretty 7)); ("hook_event_name", JStr (event_str event))]))
  | _ => Err "not an envelope"
  end.

Example told_out_of_order :
  ob_sequence <$> rl_told (relayed (fun i => pretty i) demo_decode 7
    [Accepted 1; Accepted 2; Received 1 [0; 0; 0; 1; 0]; Received 2 [0; 0; 0; 1; 1]; Sent 2; Sent 1]) = [2; 1].
Proof. vm_compute. reflexivity. Qed.

(** The settings file of somebody else (the same user), put there after the check, makes the
    preparation fail, and the failure removes it. *)
Definition others_file : Artifact := mkArtifact 99 1000 RegularArtifact.
Definition demo_prepare (meanwhile : Artifacts -> Artifacts) : result PreparedLifecycle Anyhow * Artifacts :=
  prepare_lifecycle (fun i => pretty i) (fun _ => "0123456789abcdef0123456789abcdef") no_file (fun _ => Ok []) 1000
    (mkPrepareAnswers (Ok (true, 1000, 448)) (Ok (true, 493)) (Ok tt) meanwhile (Ok tt) 1 (Ok tt) (Ok tt) (Ok tt) 2 (Ok tt) (Ok tt))
    (Launch.HybridLifecycle 1500) "/run/pmux" 7 "/bin/pmux-hook" [] ∅.

Example undisturbed_preparation_succeeds :
  match demo_prepare id with
  | (Ok (PreparedHybrid h), s) => hl_settings_path h = "/run/pmux/hh-0123456789abcdef.json" /\ size s = 2%nat
  | _ => False
  end.
Proof. vm_compute. auto. Qed.

Example failed_preparation_removes_anothers_file :
  is_ok (fst (demo_prepare (insert "/run/pmux/hh-0123456789abcdef.json" others_file))) = false
  /\ snd (demo_prepare (insert "/run/pmux/hh-0123456789abcdef.json" others_file)) !! "/run/pmux/hh-0123456789abcdef.json" = None.
Proof. vm_compute. auto. Qed.

End HooksDemo.
